(* ===== verification/_CoqProject ===== *)
-Q . S2P
Prelude.v
Flags.v
FlagsArith.v
FlagsShift.v
Conditions.v
Scalar.v
Mem64.v
BTree.v
Slab.v
Tlb.v
Maps.v
MapsInv.v
MapsLife.v
MapsAlloc.v
MapsFindings.v
MapsRun.v
Regs.v
Emu.v
Operands.v
Stack.v
OperandsSpec.v
Instructions.v
AluSpec.v
ShiftSpec.v
CondSpec.v
StackSpec.v
FaultSpec.v
MulDiv.v
MulDivSpec.v
BitSpec.v
DataSpec.v
Samples.v
Heap.v
HeapLinks.v
HeapBins.v
HeapInv.v
HeapAlloc.v
HeapFree.v
HeapResize.v
HeapMove.v
HeapSpec.v
HeapClone.v
HeapFindings.v
HeapSamples.v
Strings.v
Rep.v
RepLoop.v
RepSpec.v
RepTotal.v
RepSamples.v
Threads.v
SchedSpec.v
LocksSpec.v
ThreadsLinux.v
FutexSpec.v
WinThreads.v
WinThreadsSpec.v
ThreadSamples.v
Process.v
ProcessSpec.v
ProcessSamples.v
MacThreads.v
MacSpec.v
MacSamples.v
KernelGuard.v
KernelSpec.v
KernelSamples.v
A64.v
A64Ops.v
A64Spec.v
A64Bits.v
A64Mem.v
A64Total.v
A64Names.v
A64Samples.v
