(* ===== verification/Prelude.v ===== *)
(** * A verification library for mwemu

    mwemu emulates x86 and AArch64 programs (shellcode, PE, ELF and Mach-O
    files).  Its core is the crate [libmwemu] (src/crates/libmwemu/src): the
    CPU state (flags and registers), the memory of the guest, the instruction
    handlers that connect them, the allocator behind the emulated heaps, the threads
    and processes they run in, and around them loaders, emulated operating systems and front ends.  This
    library models the layers that every guest instruction goes through and
    proves that they do what an x86 or an AArch64 processor and a paged address
    space do.

    ** Files

    Foundations
    - Prelude.v: machine words as [Z] with explicit wrap-around, bit lemmas,
      the [outcome] monad (a result or a Rust panic) and slices.
    - Scalar.v: little-endian encoding (maps/scalar.rs).
    - BTree.v, Slab.v: the containers the map manager uses: std's [BTreeMap]
      as a sorted finite map, and the crate [slab] as a type class with laws
      and an executable instance.

    CPU state
    - Flags.v: [struct Flags] of arch/x86/flags.rs with its lazily packed
      status word, EFLAGS images.
    - FlagsArith.v, FlagsShift.v: the arithmetic, shift and rotate routines of
      the same file, against specifications in integers.
    - Conditions.v: the sixteen predicates of the conditional instructions
      (engine/instructions/j*.rs, set*.rs, cmov*.rs).
    - Regs.v: [struct Regs64] of arch/x86/regs.rs: fields, register names,
      sub-register views, SIMD registers.

    Guest memory
    - Mem64.v: one region with its permissions (maps/mem64.rs).
    - Tlb.v: the translation cache (maps/tlb.rs).
    - Maps.v: the map manager (maps/mod.rs and part of maps/utilities.rs), all
      operations over any slab.
    - MapsInv.v, MapsLife.v, MapsAlloc.v: its invariant, abstract view and
      theorems: access; creation and removal; search and allocation.
    - MapsRun.v: the operations as a transition system, with the invariant of
      every reachable state and a sample state.
    - MapsFindings.v: concrete runs outside the invariant.

    Instructions
    - Emu.v: the part of [struct Emu] that instructions use, and the
      interfaces [Environment] (hooks, exceptions, console, control transfers)
      and [Iced] (the decoder's register queries).
    - Operands.v, Stack.v: operand access (emu/operands.rs, emu/memory.rs,
      hooks.rs) and the stack (emu/stack.rs); OperandsSpec.v and StackSpec.v
      their theorems.
    - Instructions.v, MulDiv.v: the handlers of engine/instructions/ for
      integer instructions and the wide arithmetic of engine/logic.rs.
    - AluSpec.v, ShiftSpec.v, CondSpec.v, MulDivSpec.v, BitSpec.v, DataSpec.v:
      the handlers refine an abstract machine; FaultSpec.v: what they do when
      an operand cannot be accessed.
    - Samples.v: a sample emulator on which the theorems are applied.

    Repeated string instructions
    - Strings.v: the handlers of MOVS, STOS, LODS, SCAS and CMPS.
    - Rep.v: the REP state machine and the bulk path of
      emu/execution/x86/rep.rs.
    - RepLoop.v: what each handler does to one element, and the loop.
    - RepSpec.v: the bulk path is equivalent to the per-element path; what REP
      STOS and REPE/REPNE SCAS compute.  RepTotal.v: they always return.
    - RepSamples.v: sample runs.

    The heap allocator (maps/heap_allocation.rs)
    - Heap.v: the shared, reference-counted fragments as a store of nodes with
      links, the bins, the hash table, and every operation.
    - HeapLinks.v, HeapBins.v: linked lists of nodes and the free lists of the
      bins; HeapInv.v: the invariant and the abstract view [represents], a list
      of blocks that tile the arena.
    - HeapAlloc.v, HeapFree.v, HeapResize.v, HeapMove.v: the operations
      implement the abstract ones; HeapSpec.v: what clients rely on, over
      histories of requests; HeapClone.v: copies by snapshot.
    - HeapFindings.v, HeapSamples.v: runs that show defects, and samples.

    Threads and processes
    - Threads.v: thread contexts, the table of critical sections, the handle
      table, both schedulers and the single step (threading/context.rs,
      global_locks.rs, scheduler.rs, emu/execution/mod.rs), and the Windows calls
      that block and wake (api/windows/winapi64/kernel32).  Executing an
      instruction is the interface [Executor].
    - SchedSpec.v: the schedulers against a description in terms of time and of
      the cyclic order of the threads; LocksSpec.v: critical sections.
    - ThreadsLinux.v, FutexSpec.v: the thread system calls of Linux
      (syscall/linux/syscall64/thread.rs).
    - WinThreads.v, WinThreadsSpec.v: CreateThread, ResumeThread, SwitchToThread.
    - Process.v, ProcessSpec.v: fork, exit and wait (threading/process.rs,
      api/macos/process.rs), with the memory and heaps that a fork saves.
    - MacThreads.v, MacSpec.v: POSIX threads, mutexes, condition variables and
      [os_unfair_lock] of macOS (api/macos/pthread.rs, api/macos/sync.rs).
    - ThreadSamples.v, ProcessSamples.v, MacSamples.v: sample machines, and runs
      that show defects.

    The memory guard of emulated kernels
    - KernelGuard.v: the ledger of allocations, the verdicts on accesses, the
      findings, and allocation, release and deferred calls (kernel/heap.rs,
      guard.rs, layout.rs and part of mod.rs); KernelSpec.v: its theorems;
      KernelSamples.v: a sample driver, and runs that show what is missed.

    The AArch64 engine
    - A64.v: registers and flags (arch/aarch64/regs.rs), the decoder's operands
      and the helpers of engine/aarch64/helpers.rs; A64Ops.v: one definition per
      handler of engine/aarch64/instructions/, the dispatch of
      engine/aarch64/mod.rs and the step of emu/execution/aarch64/decode.rs.
      Floating point, the decoder (yaxpeax_arm), system calls and library calls
      are methods of the interface [A64Env].
    - A64Spec.v, A64Bits.v: data processing against the Arm manual, in integers
      and bit by bit; A64Mem.v: loads, stores, the exclusive monitor, atomics.
    - A64Total.v: type soundness of the engine; A64Names.v: registers by name;
      A64Samples.v: a sample machine, and runs that depart from the architecture.

    ** How the model corresponds to the code

    Names are those of the source.  A method that takes [&mut self] becomes a
    function from the old state to the new one.  Integers are [Z]; [is_word w]
    states their range and [wrap w] is written wherever the code truncates or
    wraps.  Indexing, slicing, [expect] and [unreachable!] that fail give
    [Panic]; theorems say when an operation returns.  Logging is left out.
    The release profile's wrapping arithmetic is the one modelled.  A handler
    [execute] of engine/instructions/x.rs is [x_execute].  What an instruction
    may call outside the modelled part is a method of [Environment], a
    parameter of every theorem about handlers.

    ** What the theorems show

    - Flags: reading, dumping and loading do not depend on whether a flag is
      pending in the lazy word; each routine returns the right value and the
      right flags at every width and for every operand and count; after a
      comparison the conditions decide the signed and unsigned orders.
    - Registers: each name reads and writes its bit range and nothing else;
      the XMM and YMM registers stay aliased.
    - Memory: reads and writes of every size and of byte runs return and store
      exactly the right bytes, across adjacent regions too, subject to
      permissions; the TLB is invisible; writes to code are logged; creating,
      removing and cutting regions change exactly their addresses; allocation
      returns free ranges; no operation panics from a reachable state.
    - Instructions: on accessible operands each handler computes the result and
      flags of the x86 manual and changes nothing else; on inaccessible ones it
      raises the right exception; the stack grows on demand.
    - REP: without a write hook a string instruction returns in every mode and
      ends within RCX iterations; the bulk path leaves the state of the per-element path.
    - Heap: allocate, free and reallocate implement their abstract versions on
      blocks that tile the arena; live blocks are never moved or overlapped
      while the condition [no_overreach] of reallocate holds and the arena is a
      whole number of units; copies hold the same blocks unless they start from a
      stale fragment ([HeapClone.walks_from_live]).
    - Threads: a step goes to the thread next in turn at the first moment at
      which any can run, and ends although the scheduler calls itself while all
      sleep; a thread that stays runnable gets its turn within a round, as long
      as no fork changes the set of threads.  Critical sections are handed over first come, first
      served, and in every reachable state the blocked threads are the queued
      ones.  Every Linux thread call returns from a well-formed machine; futexes
      wake exactly whom they should; a thread handle leads back to its thread; a
      mutex goes to the next waiter in turn; a broadcast ends with the first of
      the waiters owning the mutex and the others queued for it; a finished
      thread completes its joins.
    - Processes: whatever a forked child does, its exit brings the parent back
      (if no copy of a heap starts from a stale fragment), and the parent reaps it
      exactly once.
    - Kernel guard: what the guard reports is true, and while the chunks of the
      ledger ascend by address it misses nothing; a freed chunk is never handed out
      again, a second release is reported and, in an ascending ledger, so is every
      later access to it; chunks never overlap.
    - AArch64: arithmetic, logic, bit fields, shifts and constants compute what the
      Arm manual says, flags included; a comparison and a branch decide the
      relation of their condition; loads, stores, pairs and atomics move the right
      bytes; a store-exclusive succeeds exactly when the location still holds the
      value loaded, so that an undisturbed loop round is one atomic operation; no
      instruction panics from a well-formed machine.
    - Findings: where the conditions of these theorems are not enforced by the
      code, runs that show what happens.

    ** Bounds

    [validate_write_range] loops once per region it meets; it gets as many
    iterations as there are regions plus two, and the theorem shows that this
    gives an answer.  [unique_map_name] tries numbered names; one attempt more
    than there are names suffices.  The loops of [write_bytes], [memset] and
    the range removal recurse on their data.  The walks of the heap over linked
    fragments get as many steps as fragments were ever made, and the theorems
    about them show that the walk ends; a REP gets RCX iterations
    ([RepTotal.rep_terminates]).  The
    binary search of the ledger gets one round per chunk, and halves its range in
    each.  The schedulers
    call themselves after moving the clock, at most once per thread, and
    [pthread_cond_broadcast] loops at most once per thread; one unit of fuel per
    thread (one more for the loop) gives an answer, which the theorems show.

    ** What is not modelled

    File and console I/O, printing, the instruction decoders (iced_x86 and
    yaxpeax_arm), the cached run loops, control transfers into emulated APIs, the
    x86 SIMD, x87, decimal and system instructions, host floating point,
    exceptions and their dispatch, system calls and API emulation other than the calls that
    manage threads and processes, loaders and front ends.  Most of the
    implementation's lines are emulated library functions whose effect is on
    guest structures and the host; they are left to later work, after
    the x86 SIMD handlers. *)

From Stdlib Require Export ZArith Lia Bool Btauto.
From stdpp Require Export tactics base numbers option.
From stdpp Require Export list.

#[global] Open Scope Z_scope.

(** ** Machine words *)

(** [x as uW]: truncation to the low [w] bits. *)
Definition wrap (w x : Z) : Z := x mod 2 ^ w.

(** [x as iW]: the low [w] bits read as a two's complement integer. *)
Definition sgn (w x : Z) : Z :=
  if Z.testbit x (w - 1) then wrap w x - 2 ^ w else wrap w x.

(** [!x] on a [w]-bit unsigned integer. *)
Definition bnot (w x : Z) : Z := Z.land (Z.lnot x) (Z.ones w).

(** [x << n] on a [w]-bit unsigned integer: the bits pushed past the width
    are lost (Rust panics only when [n >= w]). *)
Definition shl (w x n : Z) : Z := wrap w (Z.shiftl x n).

(** A value representable in [w] bits. *)
Definition is_word (w x : Z) : Prop := 0 <= x < 2 ^ w.

Definition is_wordb (w x : Z) : bool := (0 <=? x) && (x <? 2 ^ w).

(** Number of set bits among the [n] lowest bits of [x] ([count_ones]). *)
Fixpoint count_ones (n : nat) (x : Z) : Z :=
  match n with
  | O => 0
  | S n' => Z.b2z (Z.testbit x (Z.of_nat n')) + count_ones n' x
  end.

(** The macros [get_bit!] and [set_bit!] of [arch/x86/flags.rs] at width [w]. *)
Definition get_bit (w val count : Z) : Z := Z.shiftr (Z.land val (shl w 1 count)) count.

Definition set_bit (w val count bit : Z) : Z :=
  if bit =? 1 then Z.lor val (shl w 1 count) else Z.land val (bnot w (shl w 1 count)).

(** ** Bit-level reasoning *)

Create HintDb mw_bits.
Create HintDb mw_word.

Lemma wrap_word w x : 0 <= w -> is_word w (wrap w x).
Proof. intros. apply Z.mod_pos_bound. lia. Qed.

Lemma wrap_small w x : is_word w x -> wrap w x = x.
Proof. apply Z.mod_small. Qed.

Lemma is_wordb_spec w x : is_wordb w x = true <-> is_word w x.
Proof. unfold is_wordb, is_word. rewrite andb_true_iff. lia. Qed.

Lemma testbit_wrap w x i : 0 <= w -> Z.testbit (wrap w x) i = (i <? w) && Z.testbit x i.
Proof. intros. apply Z.testbit_mod_pow2; lia. Qed.

Lemma testbit_bnot w x i :
  0 <= w -> 0 <= i -> Z.testbit (bnot w x) i = (i <? w) && negb (Z.testbit x i).
Proof.
  intros. unfold bnot. rewrite Z.land_spec, Z.lnot_spec, Z.testbit_ones_nonneg by lia.
  apply andb_comm.
Qed.

Lemma testbit_shl w x n i :
  0 <= w -> 0 <= i -> Z.testbit (shl w x n) i = (i <? w) && Z.testbit x (i - n).
Proof. intros. unfold shl. rewrite testbit_wrap, Z.shiftl_spec by lia. reflexivity. Qed.

Lemma word_high w x i : is_word w x -> 0 <= w -> w <= i -> Z.testbit x i = false.
Proof.
  intros Hx ??. rewrite <- (wrap_small w x Hx), testbit_wrap by lia.
  destruct (Z.ltb_spec i w); [lia | reflexivity].
Qed.

Lemma word_sign w x : is_word w x -> 0 < w -> Z.testbit x (w - 1) = (2 ^ (w - 1) <=? x).
Proof.
  intros [Hx Hx'] Hw.
  assert (2 ^ w = 2 * 2 ^ (w - 1)) as E.
  { rewrite <- Z.pow_succ_r by lia. f_equal. lia. }
  destruct (Z.leb_spec (2 ^ (w - 1)) x).
  - apply Z.testbit_true; [lia |]. rewrite <- (Z.div_unique x (2 ^ (w - 1)) 1 (x - 2 ^ (w - 1))); [reflexivity | lia | lia].
  - apply Z.testbit_false; [lia |]. rewrite Z.div_small by lia. reflexivity.
Qed.

Lemma testbit_1 i : Z.testbit 1 i = (i =? 0).
Proof.
  change 1 with (2 ^ 0).
  destruct (Z.eqb_spec i 0) as [-> | ?]; [reflexivity | apply Z.pow2_bits_false; lia].
Qed.

(** [(x & (1 << n)) != 0] reads bit [n]. *)
Lemma land_bit x n : 0 <= n -> negb (Z.land x (Z.shiftl 1 n) =? 0) = Z.testbit x n.
Proof.
  intros Hn. destruct (Z.testbit x n) eqn:E.
  - apply negb_true_iff, Z.eqb_neq. intros H0.
    assert (Z.testbit (Z.land x (Z.shiftl 1 n)) n = true) as T.
    { rewrite Z.land_spec, Z.shiftl_spec, E, Z.sub_diag by lia. reflexivity. }
    rewrite H0, Z.bits_0 in T. discriminate.
  - apply negb_false_iff, Z.eqb_eq, Z.bits_inj'. intros i Hi.
    rewrite Z.land_spec, Z.shiftl_spec, testbit_1, Z.bits_0 by lia.
    destruct (Z.eqb_spec (i - n) 0); [replace i with n by lia; rewrite E |]; btauto.
Qed.

(** [((x >> n) & 1) == 1] reads bit [n]. *)
Lemma shr_bit x n : 0 <= n -> (Z.land (Z.shiftr x n) 1 =? 1) = Z.testbit x n.
Proof.
  intros Hn. change 1 with (Z.ones 1). rewrite Z.land_ones by lia.
  rewrite <- (Z.add_0_l n) at 2. rewrite <- Z.shiftr_spec by lia.
  rewrite Z.bit0_odd, Zodd_mod. reflexivity.
Qed.

Lemma word_shiftr w x n : is_word w x -> 0 <= n -> is_word w (Z.shiftr x n).
Proof.
  unfold is_word. intros [??] ?. rewrite Z.shiftr_div_pow2 by lia.
  split; [apply Z.div_pos; lia |].
  apply Z.le_lt_trans with x; [|lia]. apply Z.div_le_upper_bound; [lia |].
  assert (1 <= 2 ^ n) by lia. nia.
Qed.

Lemma word_land w x y : is_word w x -> 0 <= w -> is_word w (Z.land x y).
Proof.
  intros Hx Hw. replace (Z.land x y) with (wrap w (Z.land x y)) by
    (apply Z.bits_inj'; intros i Hi; rewrite testbit_wrap, Z.land_spec by lia;
     destruct (Z.ltb_spec i w); [btauto | rewrite (word_high w x) by (auto; lia); btauto]).
  apply wrap_word. lia.
Qed.

Lemma word_lor w x y : is_word w x -> is_word w y -> 0 <= w -> is_word w (Z.lor x y).
Proof.
  intros Hx Hy Hw. replace (Z.lor x y) with (wrap w (Z.lor x y)) by
    (apply Z.bits_inj'; intros i Hi; rewrite testbit_wrap, Z.lor_spec by lia;
     destruct (Z.ltb_spec i w);
     [btauto | rewrite (word_high w x), (word_high w y) by (auto; lia); btauto]).
  apply wrap_word. lia.
Qed.

Lemma word_lxor w x y : is_word w x -> is_word w y -> 0 <= w -> is_word w (Z.lxor x y).
Proof.
  intros Hx Hy Hw. replace (Z.lxor x y) with (wrap w (Z.lxor x y)) by
    (apply Z.bits_inj'; intros i Hi; rewrite testbit_wrap, Z.lxor_spec by lia;
     destruct (Z.ltb_spec i w);
     [btauto | rewrite (word_high w x), (word_high w y) by (auto; lia); btauto]).
  apply wrap_word. lia.
Qed.

(** Two [w]-bit words with the same low [w] bits are equal. *)
Lemma word_ext w x y :
  is_word w x -> is_word w y -> 0 <= w ->
  (forall i, 0 <= i < w -> Z.testbit x i = Z.testbit y i) -> x = y.
Proof.
  intros Hx Hy Hw H. apply Z.bits_inj'. intros i Hi.
  destruct (Z.ltb_spec i w); [apply H; lia |].
  rewrite (word_high w x), (word_high w y) by (auto; lia). reflexivity.
Qed.

(** Sign extension copies bit [w - 1] upwards. *)
Lemma testbit_sgn w x i :
  0 < w -> 0 <= i -> Z.testbit (sgn w x) i = Z.testbit x (if i <? w then i else w - 1).
Proof.
  intros Hw Hi. unfold sgn. destruct (Z.testbit x (w - 1)) eqn:E.
  - assert (Z.land (wrap w x) (Z.shiftl (-1) w) = 0) as D.
    { apply Z.bits_inj'. intros j Hj.
      rewrite Z.land_spec, testbit_wrap, Z.shiftl_spec, Z.bits_0 by lia.
      destruct (Z.ltb_spec j w); [rewrite (Z.testbit_neg_r _ (j - w)) by lia |]; btauto. }
    replace (wrap w x - 2 ^ w) with (wrap w x + Z.shiftl (-1) w)
      by (rewrite Z.shiftl_mul_pow2; lia).
    rewrite Z.add_nocarry_lxor, Z.lxor_lor, Z.lor_spec, testbit_wrap, Z.shiftl_spec by (auto; lia).
    destruct (Z.ltb_spec i w).
    + rewrite (Z.testbit_neg_r _ (i - w)) by lia. btauto.
    + rewrite Z.bits_m1 by lia. rewrite E. btauto.
  - rewrite testbit_wrap by lia. destruct (Z.ltb_spec i w); [reflexivity | now rewrite E].
Qed.

Lemma pow2_half w : 0 < w -> 2 ^ w = 2 * 2 ^ (w - 1).
Proof. intros. rewrite <- Z.pow_succ_r by lia. f_equal. lia. Qed.

Lemma sgn_alt w x :
  0 < w -> sgn w x = if 2 ^ (w - 1) <=? wrap w x then wrap w x - 2 ^ w else wrap w x.
Proof.
  intros Hw. unfold sgn. rewrite <- word_sign, testbit_wrap by (auto using wrap_word with lia).
  destruct (Z.ltb_spec (w - 1) w); [reflexivity | lia].
Qed.

Lemma sgn_word w x : 0 < w -> - 2 ^ (w - 1) <= sgn w x < 2 ^ (w - 1).
Proof.
  intros Hw. pose proof (wrap_word w x ltac:(lia)) as Hu. rewrite sgn_alt by lia.
  pose proof (pow2_half w Hw). unfold is_word in *.
  destruct (Z.leb_spec (2 ^ (w - 1)) (wrap w x)); lia.
Qed.

Lemma sgn_small w x : 0 < w -> - 2 ^ (w - 1) <= x < 2 ^ (w - 1) -> sgn w x = x.
Proof.
  intros Hw Hx. rewrite sgn_alt by lia. pose proof (pow2_half w Hw).
  destruct (Z.ltb_spec x 0).
  - assert (wrap w x = x + 2 ^ w) as ->.
    { unfold wrap. rewrite <- (Z_mod_plus_full x 1), Z.mod_small; lia. }
    destruct (Z.leb_spec (2 ^ (w - 1)) (x + 2 ^ w)); lia.
  - rewrite wrap_small by (unfold is_word; lia).
    destruct (Z.leb_spec (2 ^ (w - 1)) x); lia.
Qed.

(** The unsigned and signed readings of a word agree modulo [2 ^ w]. *)
Lemma wrap_sgn w x : 0 <= w -> wrap w (sgn w x) = wrap w x.
Proof.
  intros. unfold sgn, wrap. destruct (Z.testbit x (w - 1)); [|apply Z.mod_mod; lia].
  rewrite <- (Z.mul_1_l (2 ^ w)) at 2.
  rewrite <- Z.add_opp_r, <- Z.mul_opp_l, Z_mod_plus_full. apply Z.mod_mod. lia.
Qed.

Lemma sgn_wrap w x : 0 < w -> sgn w (wrap w x) = sgn w x.
Proof. intros. rewrite !sgn_alt by lia. unfold wrap. now rewrite Z.mod_mod by lia. Qed.

Lemma sgn_period w x k : 0 < w -> sgn w (x + k * 2 ^ w) = sgn w x.
Proof. intros. rewrite <- sgn_wrap by lia. unfold wrap. rewrite Z_mod_plus_full. now apply sgn_wrap. Qed.

Lemma testbit_set_bit1 w v n i :
  0 <= n < w -> 0 <= i -> Z.testbit (set_bit w v n 1) i = (i =? n) || Z.testbit v i.
Proof.
  intros. unfold set_bit. change (1 =? 1) with true; cbv iota.
  rewrite Z.lor_spec, testbit_shl, testbit_1 by lia.
  destruct (Z.eqb_spec i n), (Z.eqb_spec (i - n) 0), (Z.ltb_spec i w); try lia; btauto.
Qed.

Lemma testbit_set_bit0 w v n i :
  0 <= n < w -> 0 <= i < w ->
  Z.testbit (set_bit w v n 0) i = negb (i =? n) && Z.testbit v i.
Proof.
  intros. unfold set_bit. change (0 =? 1) with false; cbv iota.
  rewrite Z.land_spec, testbit_bnot, testbit_shl, testbit_1 by lia.
  destruct (Z.eqb_spec i n), (Z.eqb_spec (i - n) 0), (Z.ltb_spec i w); try lia; btauto.
Qed.

Lemma get_bit_testbit w v n : 0 <= n < w -> get_bit w v n = Z.b2z (Z.testbit v n).
Proof.
  intros. unfold get_bit. apply Z.bits_inj'. intros i Hi.
  rewrite Z.shiftr_spec, Z.land_spec, testbit_shl, testbit_1 by lia.
  destruct (Z.eqb_spec (i + n - n) 0) as [E|E].
  - replace i with 0 by lia. destruct (Z.ltb_spec (0 + n) w); [|lia].
    rewrite Z.add_0_l. now destruct (Z.testbit v n).
  - rewrite andb_false_r, andb_false_r. symmetry.
    apply (word_high 1); [|lia | lia]. unfold is_word. destruct (Z.testbit v n); simpl; lia.
Qed.

Lemma get_bit_eqb w v n : 0 <= n < w -> (get_bit w v n =? 1) = Z.testbit v n.
Proof. intros. rewrite get_bit_testbit by lia. now destruct (Z.testbit v n). Qed.

#[export] Hint Rewrite Z.land_spec Z.lor_spec Z.lxor_spec Z.bits_0 : mw_bits.
#[export] Hint Rewrite Z.shiftr_spec Z.shiftl_spec testbit_wrap testbit_bnot testbit_shl
  testbit_sgn testbit_set_bit1 testbit_set_bit0 testbit_1 Z.testbit_ones_nonneg
  using lia : mw_bits.

#[export] Hint Resolve wrap_word word_land word_lor word_shiftr : mw_word.

(** Decide the comparisons left by the bit specifications. *)
Ltac split_ltb :=
  repeat match goal with
  | |- context [?a <=? ?b] =>
      first [ replace (a <=? b) with true by (symmetry; apply Z.leb_le; lia)
            | replace (a <=? b) with false by (symmetry; apply Z.leb_gt; lia)
            | destruct (Z.leb_spec a b) ]
  | |- context [?a <? ?b] =>
      first [ replace (a <? b) with true by (symmetry; apply Z.ltb_lt; lia)
            | replace (a <? b) with false by (symmetry; apply Z.ltb_ge; lia)
            | destruct (Z.ltb_spec a b) ]
  | |- context [?a =? ?b] =>
      first [ replace (a =? b) with true by (symmetry; apply Z.eqb_eq; lia)
            | replace (a =? b) with false by (symmetry; apply Z.eqb_neq; lia)
            | destruct (Z.eqb_spec a b) ]
  end.

(** Evaluate the closed bit indices. *)
Ltac norm_indices :=
  repeat match goal with
  | |- context [Z.testbit ?x ?i] =>
      let i' := eval vm_compute in i in
      lazymatch i' with
      | Z0 => idtac
      | Zpos _ => idtac
      | Zneg _ => idtac
      end;
      tryif constr_eq i i' then fail else change (Z.testbit x i) with (Z.testbit x i')
  end.

(** Rewrite every [Z.testbit] of a composite word into its operands' bits. *)
Ltac bits_simpl :=
  repeat (progress (autorewrite with mw_bits; split_ltb));
  norm_indices;
  repeat match goal with
  | |- context [Z.testbit ?x ?i] => rewrite (Z.testbit_neg_r x i) by lia
  end.

(** Bit-level equality of two expressions over the same operands. *)
Ltac bits_solve := bits_simpl; first [btauto | reflexivity | congruence].

(** Case analysis over a small integer range. *)
Fixpoint enum_all (P : Z -> Prop) (n : nat) : Prop :=
  match n with O => True | S m => P (Z.of_nat m) /\ enum_all P m end.

Lemma enum_range (P : Z -> Prop) (n : nat) :
  enum_all P n -> forall i, 0 <= i < Z.of_nat n -> P i.
Proof.
  induction n as [|n IH]; [lia |]. intros [Hn Hr] i Hi.
  destruct (Z.eq_dec i (Z.of_nat n)) as [-> | ?]; [exact Hn | apply IH; [exact Hr | lia]].
Qed.

Ltac enum_cases n :=
  apply (enum_range _ n); cbn [enum_all]; repeat split;
  repeat match goal with
  | |- context [Z.of_nat ?k] =>
      let z := eval vm_compute in (Z.of_nat k) in
      lazymatch z with Z0 => idtac | Zpos _ => idtac end; change (Z.of_nat k) with z
  end; cbv beta iota.

(** A decidable property of bytes is checked on the 256 of them. *)
Lemma byte_forall (P : Z -> bool) :
  forallb P (Z.of_nat <$> seq 0 256) = true -> forall v, is_word 8 v -> P v = true.
Proof.
  intros H v Hv. unfold is_word in Hv. rewrite forallb_forall in H.
  apply H, list_elem_of_In, list_elem_of_fmap.
  exists (Z.to_nat v). split; [lia | apply elem_of_seq; lia].
Qed.

(** ** Carries and borrows *)

(** The carry into bit [i] of [a + b + c], and the borrow into bit [i] of
    [a - b - c]. *)
Definition carry (a b : Z) (c : bool) (i : Z) : bool :=
  2 ^ i <=? a mod 2 ^ i + b mod 2 ^ i + Z.b2z c.

Definition borrow (a b : Z) (c : bool) (i : Z) : bool :=
  a mod 2 ^ i <? b mod 2 ^ i + Z.b2z c.

Lemma testbit_div a i : 0 <= i -> Z.testbit a i = Z.odd (a / 2 ^ i).
Proof. intros. rewrite Z.testbit_odd, Z.shiftr_div_pow2 by lia. reflexivity. Qed.

Lemma mod_pow2_succ a i : 0 <= i -> a mod 2 ^ (i + 1) = a mod 2 ^ i + 2 ^ i * Z.b2z (Z.testbit a i).
Proof.
  intros. rewrite Z.add_1_r, Z.pow_succ_r, Z.mul_comm by lia.
  rewrite Z.rem_mul_r by lia. rewrite testbit_div by lia.
  rewrite <- Z.bit0_odd, <- Z.bit0_mod. reflexivity.
Qed.

Lemma b2z_range b : 0 <= Z.b2z b <= 1.
Proof. destruct b; simpl; lia. Qed.

Lemma testbit_add a b c i :
  0 <= i ->
  Z.testbit (a + b + Z.b2z c) i = xorb (xorb (Z.testbit a i) (Z.testbit b i)) (carry a b c i).
Proof.
  intros Hi. rewrite !testbit_div by lia. unfold carry.
  assert (0 < 2 ^ i) as Hp by lia. pose proof (b2z_range c).
  pose proof (Z.mod_pos_bound a _ Hp). pose proof (Z.mod_pos_bound b _ Hp).
  pose proof (Z.div_mod a (2 ^ i) ltac:(lia)). pose proof (Z.div_mod b (2 ^ i) ltac:(lia)).
  set (t := a mod 2 ^ i + b mod 2 ^ i + Z.b2z c) in *.
  replace ((a + b + Z.b2z c) / 2 ^ i) with (a / 2 ^ i + b / 2 ^ i + Z.b2z (2 ^ i <=? t)).
  - rewrite !Z.odd_add. f_equal. now destruct (2 ^ i <=? t).
  - apply (Z.div_unique _ _ _ (t - 2 ^ i * Z.b2z (2 ^ i <=? t))).
    + left. destruct (Z.leb_spec (2 ^ i) t); simpl; lia.
    + subst t. lia.
Qed.

Lemma testbit_sub a b c i :
  0 <= i ->
  Z.testbit (a - b - Z.b2z c) i = xorb (xorb (Z.testbit a i) (Z.testbit b i)) (borrow a b c i).
Proof.
  intros Hi. rewrite !testbit_div by lia. unfold borrow.
  assert (0 < 2 ^ i) as Hp by lia. pose proof (b2z_range c).
  pose proof (Z.mod_pos_bound a _ Hp). pose proof (Z.mod_pos_bound b _ Hp).
  pose proof (Z.div_mod a (2 ^ i) ltac:(lia)). pose proof (Z.div_mod b (2 ^ i) ltac:(lia)).
  set (k := a mod 2 ^ i <? b mod 2 ^ i + Z.b2z c) in *.
  replace ((a - b - Z.b2z c) / 2 ^ i) with (a / 2 ^ i - b / 2 ^ i - Z.b2z k).
  - rewrite !Z.odd_sub. f_equal. now destruct k.
  - apply (Z.div_unique _ _ _ (a mod 2 ^ i - b mod 2 ^ i - Z.b2z c + 2 ^ i * Z.b2z k)).
    + left. subst k. destruct (Z.ltb_spec (a mod 2 ^ i) (b mod 2 ^ i + Z.b2z c)); simpl; lia.
    + lia.
Qed.

Lemma carry_succ a b c i :
  0 <= i ->
  carry a b c (i + 1) = (Z.testbit a i && Z.testbit b i)
                        || ((Z.testbit a i || Z.testbit b i) && carry a b c i).
Proof.
  intros Hi. unfold carry. rewrite !mod_pow2_succ, Z.add_1_r, Z.pow_succ_r by lia.
  assert (0 < 2 ^ i) as Hp by lia. pose proof (b2z_range c).
  pose proof (Z.mod_pos_bound a _ Hp). pose proof (Z.mod_pos_bound b _ Hp).
  destruct (Z.testbit a i), (Z.testbit b i); cbn [Z.b2z orb andb]; split_ltb; reflexivity || lia.
Qed.

Lemma borrow_succ a b c i :
  0 <= i ->
  borrow a b c (i + 1) = (negb (Z.testbit a i) && Z.testbit b i)
                         || (xorb (negb (Z.testbit a i)) (Z.testbit b i) && borrow a b c i).
Proof.
  intros Hi. unfold borrow. rewrite !mod_pow2_succ by lia.
  assert (0 < 2 ^ i) as Hp by lia. pose proof (b2z_range c).
  pose proof (Z.mod_pos_bound a _ Hp). pose proof (Z.mod_pos_bound b _ Hp).
  destruct (Z.testbit a i), (Z.testbit b i); cbn [Z.b2z orb andb negb xorb]; split_ltb;
    reflexivity || lia.
Qed.

(** The two readings of a [w]-bit word, from its top bit and the bits below. *)
Lemma word_top w a :
  0 < w -> is_word w a ->
  exists h t, a = t + 2 ^ (w - 1) * Z.b2z h /\ sgn w a = t - 2 ^ (w - 1) * Z.b2z h
    /\ h = Z.testbit a (w - 1) /\ t = a mod 2 ^ (w - 1) /\ 0 <= t < 2 ^ (w - 1).
Proof.
  intros Hw Ha. exists (Z.testbit a (w - 1)), (a mod 2 ^ (w - 1)).
  pose proof (mod_pow2_succ a (w - 1) ltac:(lia)) as E.
  replace (w - 1 + 1) with w in E by lia. rewrite Z.mod_small in E by exact Ha.
  pose proof (pow2_half w Hw).
  pose proof (Z.mod_pos_bound a (2 ^ (w - 1)) ltac:(lia)).
  unfold sgn. rewrite wrap_small by exact Ha.
  destruct (Z.testbit a (w - 1)); cbn [Z.b2z] in *; repeat split; lia.
Qed.

(** Signed overflow of a [w]-bit computation whose exact signed value is [x]. *)
Definition signed_overflow (w x : Z) : bool := negb ((- 2 ^ (w - 1) <=? x) && (x <? 2 ^ (w - 1))).

Lemma add_overflow w a b c :
  0 < w -> is_word w a -> is_word w b ->
  xorb (carry a b c w) (carry a b c (w - 1)) = signed_overflow w (sgn w a + sgn w b + Z.b2z c).
Proof.
  intros Hw Ha Hb. replace w with (w - 1 + 1) at 1 by lia. rewrite carry_succ by lia.
  destruct (word_top w a Hw Ha) as (h & t & _ & -> & <- & Et & ?).
  destruct (word_top w b Hw Hb) as (h' & t' & _ & -> & <- & Et' & ?).
  unfold carry, signed_overflow. rewrite <- Et, <- Et'. pose proof (b2z_range c).
  destruct h, h'; cbn [Z.b2z orb andb negb xorb]; split_ltb; reflexivity || lia.
Qed.

Lemma sub_overflow w a b c :
  0 < w -> is_word w a -> is_word w b ->
  xorb (borrow a b c w) (borrow a b c (w - 1)) = signed_overflow w (sgn w a - sgn w b - Z.b2z c).
Proof.
  intros Hw Ha Hb. replace w with (w - 1 + 1) at 1 by lia. rewrite borrow_succ by lia.
  destruct (word_top w a Hw Ha) as (h & t & _ & -> & <- & Et & ?).
  destruct (word_top w b Hw Hb) as (h' & t' & _ & -> & <- & Et' & ?).
  unfold borrow, signed_overflow. rewrite <- Et, <- Et'. pose proof (b2z_range c).
  destruct h, h'; cbn [Z.b2z orb andb negb xorb]; split_ltb; reflexivity || lia.
Qed.

(** ** Computations that can panic *)

(** A Rust computation returns or panics (an index or slice out of range, a
    failed [expect]). *)
Inductive outcome (A : Type) := Ret (a : A) | Panic.
Arguments Ret {A} a.
Arguments Panic {A}.

#[export] Instance outcome_ret : MRet outcome := fun _ a => Ret a.
#[export] Instance outcome_bind : MBind outcome :=
  fun _ _ f x => match x with Ret a => f a | Panic => Panic end.

(** [l[a..b]] *)
Definition index_range {A} (a b : nat) (l : list A) : outcome (list A) :=
  if decide (a <= b <= length l)%nat then Ret (take (b - a) (drop a l)) else Panic.

(** [l.get(a..b)] *)
Definition get_range {A} (a b : nat) (l : list A) : option (list A) :=
  if decide (a <= b <= length l)%nat then Some (take (b - a) (drop a l)) else None.

(** [l[i]] *)
Definition index {A} (i : nat) (l : list A) : outcome A :=
  match l !! i with Some x => Ret x | None => Panic end.

(** [l[i] = x] *)
Definition index_set {A} (i : nat) (x : A) (l : list A) : outcome (list A) :=
  if decide (i < length l)%nat then Ret (<[i := x]> l) else Panic.

(** [l[a..b].copy_from_slice(src)]: the two lengths must agree. *)
Definition copy_into {A} (a b : nat) (src l : list A) : outcome (list A) :=
  if decide (a <= b <= length l /\ length src = b - a)%nat
  then Ret (take a l ++ src ++ drop b l) else Panic.

Lemma index_range_all {A} (l : list A) : index_range 0 (length l) l = Ret l.
Proof. unfold index_range. rewrite decide_True by lia. now rewrite drop_0, take_ge by lia. Qed.

(** [u64]/[usize] arithmetic as the release profile compiles it. *)
Definition wadd (a b : Z) : Z := wrap 64 (a + b).
Definition wsub (a b : Z) : Z := wrap 64 (a - b).

(** [a.checked_add(b)] *)
Definition checked_add (a b : Z) : option Z := if a + b <? 2 ^ 64 then Some (a + b) else None.

(** [a.checked_sub(b)] *)
Definition checked_sub (a b : Z) : option Z := if b <=? a then Some (a - b) else None.

(** [a.saturating_add(b)] *)
Definition saturating_add (a b : Z) : Z := Z.min (a + b) (2 ^ 64 - 1).

Lemma wadd_small a b : is_word 64 (a + b) -> wadd a b = a + b.
Proof. apply wrap_small. Qed.

Lemma wsub_small a b : is_word 64 (a - b) -> wsub a b = a - b.
Proof. apply wrap_small. Qed.

(** The list after a successful [copy_from_slice] at position [a]. *)
Definition splice {A} (a : nat) (src l : list A) : list A := take a l ++ src ++ drop (a + length src) l.

Lemma copy_into_splice {A} a b (src l : list A) :
  b = (a + length src)%nat -> (b <= length l)%nat -> copy_into a b src l = Ret (splice a src l).
Proof. intros -> ?. unfold copy_into. rewrite decide_True by lia. reflexivity. Qed.

Lemma length_splice {A} a (src l : list A) :
  (a + length src <= length l)%nat -> length (splice a src l) = length l.
Proof. intros. unfold splice. rewrite !length_app, length_take, length_drop. lia. Qed.

Lemma lookup_splice {A} a (src l : list A) i :
  (a + length src <= length l)%nat ->
  splice a src l !! i
  = if decide (a <= i < a + length src)%nat then src !! (i - a)%nat else l !! i.
Proof.
  intros H. unfold splice. destruct (decide (a <= i < a + length src)%nat).
  - rewrite lookup_app_r, length_take, lookup_app_l by (rewrite ?length_take; lia).
    f_equal. lia.
  - destruct (decide (i < a)%nat).
    + rewrite lookup_app_l, lookup_take_lt by (rewrite ?length_take; lia). reflexivity.
    + rewrite lookup_app_r, length_take, lookup_app_r, lookup_drop by (rewrite ?length_take; lia).
      f_equal. lia.
Qed.

Lemma splice_read {A} a (src l : list A) :
  (a + length src <= length l)%nat -> take (length src) (drop a (splice a src l)) = src.
Proof.
  intros H. apply list_eq. intros i. destruct (decide (i < length src)%nat).
  - rewrite lookup_take_lt, lookup_drop, lookup_splice, decide_True by lia. f_equal. lia.
  - rewrite lookup_take_ge, (lookup_ge_None_2 src) by lia. reflexivity.
Qed.

Lemma Forall_splice {A} (P : A -> Prop) a src l : Forall P src -> Forall P l -> Forall P (splice a src l).
Proof. intros. unfold splice. rewrite !Forall_app. auto using Forall_take, Forall_drop. Qed.
