(* ===== verification/Flags.v ===== *)
(** * The x86 status register ([arch/x86/flags.rs])

    [Flags] keeps CF, ZF, SF and OF eagerly and PF and AF lazily, in a packed
    word ([LazyFlags]).  This file holds the data, the lazy machinery, the
    (de)serialisation to EFLAGS and the theorems about them; the arithmetic
    operations are in FlagsArith.v and the shifts and rotates in
    FlagsShift.v. *)

From S2P Require Import Prelude.

(** ** Data *)

(** [enum LazyFlagsKind] *)
Inductive LazyFlagsKind := LazyNone | Oszapc.

(** [struct LazyFlags] *)
Record LazyFlags := mkLazyFlags { kind : LazyFlagsKind; result : Z; auxbits : Z }.

(** [LazyFlags::default] *)
Definition lazy_default : LazyFlags := mkLazyFlags LazyNone 0 0.

(** [struct Flags] *)
Record Flags := mkFlags {
  f_cf : bool;
  f_pf : bool;
  f_af : bool;
  f_zf : bool;
  f_sf : bool;
  f_tf : bool;
  f_if : bool;
  f_df : bool;
  f_of : bool;
  f_iopl1 : bool;
  f_iopl2 : bool;
  f_nt : bool;
  f_rf : bool;
  f_vm : bool;
  f_ac : bool;
  f_vif : bool;
  f_vip : bool;
  f_id : bool;
  lazy : LazyFlags
}.

(** Field updates ([self.f_xx = v]). *)
Definition set_f_cf (v : bool) (s : Flags) : Flags :=
  mkFlags v (f_pf s) (f_af s) (f_zf s) (f_sf s) (f_tf s) (f_if s) (f_df s) (f_of s) (f_iopl1 s) (f_iopl2 s) (f_nt s) (f_rf s) (f_vm s) (f_ac s) (f_vif s) (f_vip s) (f_id s) (lazy s).
Definition set_f_pf (v : bool) (s : Flags) : Flags :=
  mkFlags (f_cf s) v (f_af s) (f_zf s) (f_sf s) (f_tf s) (f_if s) (f_df s) (f_of s) (f_iopl1 s) (f_iopl2 s) (f_nt s) (f_rf s) (f_vm s) (f_ac s) (f_vif s) (f_vip s) (f_id s) (lazy s).
Definition set_f_af (v : bool) (s : Flags) : Flags :=
  mkFlags (f_cf s) (f_pf s) v (f_zf s) (f_sf s) (f_tf s) (f_if s) (f_df s) (f_of s) (f_iopl1 s) (f_iopl2 s) (f_nt s) (f_rf s) (f_vm s) (f_ac s) (f_vif s) (f_vip s) (f_id s) (lazy s).
Definition set_f_zf (v : bool) (s : Flags) : Flags :=
  mkFlags (f_cf s) (f_pf s) (f_af s) v (f_sf s) (f_tf s) (f_if s) (f_df s) (f_of s) (f_iopl1 s) (f_iopl2 s) (f_nt s) (f_rf s) (f_vm s) (f_ac s) (f_vif s) (f_vip s) (f_id s) (lazy s).
Definition set_f_sf (v : bool) (s : Flags) : Flags :=
  mkFlags (f_cf s) (f_pf s) (f_af s) (f_zf s) v (f_tf s) (f_if s) (f_df s) (f_of s) (f_iopl1 s) (f_iopl2 s) (f_nt s) (f_rf s) (f_vm s) (f_ac s) (f_vif s) (f_vip s) (f_id s) (lazy s).
Definition set_f_tf (v : bool) (s : Flags) : Flags :=
  mkFlags (f_cf s) (f_pf s) (f_af s) (f_zf s) (f_sf s) v (f_if s) (f_df s) (f_of s) (f_iopl1 s) (f_iopl2 s) (f_nt s) (f_rf s) (f_vm s) (f_ac s) (f_vif s) (f_vip s) (f_id s) (lazy s).
Definition set_f_if (v : bool) (s : Flags) : Flags :=
  mkFlags (f_cf s) (f_pf s) (f_af s) (f_zf s) (f_sf s) (f_tf s) v (f_df s) (f_of s) (f_iopl1 s) (f_iopl2 s) (f_nt s) (f_rf s) (f_vm s) (f_ac s) (f_vif s) (f_vip s) (f_id s) (lazy s).
Definition set_f_df (v : bool) (s : Flags) : Flags :=
  mkFlags (f_cf s) (f_pf s) (f_af s) (f_zf s) (f_sf s) (f_tf s) (f_if s) v (f_of s) (f_iopl1 s) (f_iopl2 s) (f_nt s) (f_rf s) (f_vm s) (f_ac s) (f_vif s) (f_vip s) (f_id s) (lazy s).
Definition set_f_of (v : bool) (s : Flags) : Flags :=
  mkFlags (f_cf s) (f_pf s) (f_af s) (f_zf s) (f_sf s) (f_tf s) (f_if s) (f_df s) v (f_iopl1 s) (f_iopl2 s) (f_nt s) (f_rf s) (f_vm s) (f_ac s) (f_vif s) (f_vip s) (f_id s) (lazy s).
Definition set_f_iopl1 (v : bool) (s : Flags) : Flags :=
  mkFlags (f_cf s) (f_pf s) (f_af s) (f_zf s) (f_sf s) (f_tf s) (f_if s) (f_df s) (f_of s) v (f_iopl2 s) (f_nt s) (f_rf s) (f_vm s) (f_ac s) (f_vif s) (f_vip s) (f_id s) (lazy s).
Definition set_f_iopl2 (v : bool) (s : Flags) : Flags :=
  mkFlags (f_cf s) (f_pf s) (f_af s) (f_zf s) (f_sf s) (f_tf s) (f_if s) (f_df s) (f_of s) (f_iopl1 s) v (f_nt s) (f_rf s) (f_vm s) (f_ac s) (f_vif s) (f_vip s) (f_id s) (lazy s).
Definition set_f_nt (v : bool) (s : Flags) : Flags :=
  mkFlags (f_cf s) (f_pf s) (f_af s) (f_zf s) (f_sf s) (f_tf s) (f_if s) (f_df s) (f_of s) (f_iopl1 s) (f_iopl2 s) v (f_rf s) (f_vm s) (f_ac s) (f_vif s) (f_vip s) (f_id s) (lazy s).
Definition set_f_rf (v : bool) (s : Flags) : Flags :=
  mkFlags (f_cf s) (f_pf s) (f_af s) (f_zf s) (f_sf s) (f_tf s) (f_if s) (f_df s) (f_of s) (f_iopl1 s) (f_iopl2 s) (f_nt s) v (f_vm s) (f_ac s) (f_vif s) (f_vip s) (f_id s) (lazy s).
Definition set_f_vm (v : bool) (s : Flags) : Flags :=
  mkFlags (f_cf s) (f_pf s) (f_af s) (f_zf s) (f_sf s) (f_tf s) (f_if s) (f_df s) (f_of s) (f_iopl1 s) (f_iopl2 s) (f_nt s) (f_rf s) v (f_ac s) (f_vif s) (f_vip s) (f_id s) (lazy s).
Definition set_f_ac (v : bool) (s : Flags) : Flags :=
  mkFlags (f_cf s) (f_pf s) (f_af s) (f_zf s) (f_sf s) (f_tf s) (f_if s) (f_df s) (f_of s) (f_iopl1 s) (f_iopl2 s) (f_nt s) (f_rf s) (f_vm s) v (f_vif s) (f_vip s) (f_id s) (lazy s).
Definition set_f_vif (v : bool) (s : Flags) : Flags :=
  mkFlags (f_cf s) (f_pf s) (f_af s) (f_zf s) (f_sf s) (f_tf s) (f_if s) (f_df s) (f_of s) (f_iopl1 s) (f_iopl2 s) (f_nt s) (f_rf s) (f_vm s) (f_ac s) v (f_vip s) (f_id s) (lazy s).
Definition set_f_vip (v : bool) (s : Flags) : Flags :=
  mkFlags (f_cf s) (f_pf s) (f_af s) (f_zf s) (f_sf s) (f_tf s) (f_if s) (f_df s) (f_of s) (f_iopl1 s) (f_iopl2 s) (f_nt s) (f_rf s) (f_vm s) (f_ac s) (f_vif s) v (f_id s) (lazy s).
Definition set_f_id (v : bool) (s : Flags) : Flags :=
  mkFlags (f_cf s) (f_pf s) (f_af s) (f_zf s) (f_sf s) (f_tf s) (f_if s) (f_df s) (f_of s) (f_iopl1 s) (f_iopl2 s) (f_nt s) (f_rf s) (f_vm s) (f_ac s) (f_vif s) (f_vip s) v (lazy s).
Definition set_lazy (v : LazyFlags) (s : Flags) : Flags :=
  mkFlags (f_cf s) (f_pf s) (f_af s) (f_zf s) (f_sf s) (f_tf s) (f_if s) (f_df s) (f_of s) (f_iopl1 s) (f_iopl2 s) (f_nt s) (f_rf s) (f_vm s) (f_ac s) (f_vif s) (f_vip s) (f_id s) v.

(** [Flags::new] *)
Definition new : Flags :=
  mkFlags false false false false false false false false false false false false false false false false false false lazy_default.

(** [build_parity_table]: the compile-time loop [while i < 256] filling the
    table with [i.count_ones() % 2 == 0], and the table it builds. *)
Definition build_parity_table : list bool :=
  (fun i => Z.even (count_ones 8 (Z.of_nat i))) <$> seq 0 256.

Definition PARITY_LOOKUP_TABLE : list bool := build_parity_table.

(** ** Constants of the packed word *)

Definition LF_BIT_SD : Z := 0.
Definition LF_BIT_AF : Z := 3.
Definition LF_BIT_PDB : Z := 8.
Definition LF_BIT_PO : Z := 30.
Definition LF_BIT_CF : Z := 31.

Definition LF_MASK_SD : Z := Z.shiftl 1 LF_BIT_SD.
Definition LF_MASK_AF : Z := Z.shiftl 1 LF_BIT_AF.
Definition LF_MASK_PDB : Z := Z.shiftl 0xff LF_BIT_PDB.
Definition LF_MASK_CF : Z := Z.shiftl 1 LF_BIT_CF.
Definition LF_MASK_PO : Z := Z.shiftl 1 LF_BIT_PO.

(** ** The lazy machinery *)

(** [Flags::clear_lazy] *)
Definition clear_lazy (s : Flags) : Flags := set_lazy lazy_default s.

(** [Flags::sign_extend_result] *)
Definition sign_extend_result (result bits : Z) : Z :=
  if bits =? 64 then result
  else if bits =? 32 then wrap 64 (sgn 32 result)
  else if bits =? 16 then wrap 64 (sgn 16 result)
  else if bits =? 8 then wrap 64 (sgn 8 result)
  else 0.

(** [Flags::add_cout_vec] *)
Definition add_cout_vec (op1 op2 result : Z) : Z :=
  Z.lor (Z.land op1 op2) (Z.land (Z.lor op1 op2) (bnot 64 result)).

(** [Flags::sub_cout_vec] *)
Definition sub_cout_vec (op1 op2 result : Z) : Z :=
  Z.lor (Z.land (bnot 64 op1) op2) (Z.land (Z.lxor (bnot 64 op1) op2) result).

(** [Flags::cache_oszapc_fields] *)
Definition cache_oszapc_fields (result auxbits : Z) (s : Flags) : Flags :=
  let s := set_f_cf (negb (Z.land auxbits LF_MASK_CF =? 0)) s in
  let s := set_f_zf (result =? 0) s in
  let s := set_f_sf (negb (Z.land (Z.lxor (wrap 32 (Z.shiftr result 63))
                                          (Z.shiftr auxbits LF_BIT_SD)) 1 =? 0)) s in
  set_f_of (negb (Z.land (Z.shiftr (wrap 32 (auxbits + LF_MASK_PO)) LF_BIT_CF) 1 =? 0)) s.

(** [Flags::set_lazy_oszapc64] *)
Definition set_lazy_oszapc64 (result carries : Z) (s : Flags) : Flags :=
  let auxbits := wrap 32 (Z.lor (Z.land carries LF_MASK_AF)
                                (shl 64 (Z.shiftr carries 62) LF_BIT_PO)) in
  set_lazy (mkLazyFlags Oszapc result auxbits) (cache_oszapc_fields result auxbits s).

(** [Flags::set_lazy_oszapc32] *)
Definition set_lazy_oszapc32 (result carries : Z) (s : Flags) : Flags :=
  let auxbits := Z.land carries (bnot 32 (Z.lor LF_MASK_PDB LF_MASK_SD)) in
  let result := wrap 64 (sgn 32 result) in
  set_lazy (mkLazyFlags Oszapc result auxbits) (cache_oszapc_fields result auxbits s).

(** [Flags::set_lazy_oszapc16] *)
Definition set_lazy_oszapc16 (result carries : Z) (s : Flags) : Flags :=
  let auxbits := Z.lor (Z.land carries LF_MASK_AF) (shl 32 carries 16) in
  let result := wrap 64 (sgn 16 result) in
  set_lazy (mkLazyFlags Oszapc result auxbits) (cache_oszapc_fields result auxbits s).

(** [Flags::set_lazy_oszapc8] *)
Definition set_lazy_oszapc8 (result carries : Z) (s : Flags) : Flags :=
  let auxbits := Z.lor (Z.land carries LF_MASK_AF) (shl 32 carries 24) in
  let result := wrap 64 (sgn 8 result) in
  set_lazy (mkLazyFlags Oszapc result auxbits) (cache_oszapc_fields result auxbits s).

(** [Flags::set_lazy_oszapc] *)
Definition set_lazy_oszapc (result carries bits : Z) (s : Flags) : Flags :=
  if bits =? 64 then set_lazy_oszapc64 result carries s
  else if bits =? 32 then set_lazy_oszapc32 (wrap 32 result) (wrap 32 carries) s
  else if bits =? 16 then set_lazy_oszapc16 (wrap 16 result) (wrap 32 carries) s
  else if bits =? 8 then set_lazy_oszapc8 (wrap 8 result) (wrap 32 carries) s
  else s.

(** [Flags::set_lazy_logic] *)
Definition set_lazy_logic (result bits : Z) (s : Flags) : Flags :=
  if bits =? 64 then set_lazy_oszapc64 result 0 s
  else if bits =? 32 then set_lazy_oszapc32 (wrap 32 result) 0 s
  else if bits =? 16 then set_lazy_oszapc16 (wrap 16 result) 0 s
  else if bits =? 8 then set_lazy_oszapc8 (wrap 8 result) 0 s
  else s.

(** [Flags::set_lazy_from_encoded_flags] *)
Definition set_lazy_from_encoded_flags (res : Z) (cf0 of0 af0 : bool) (bits : Z) (s : Flags) : Flags :=
  let auxbits := 0 in
  let auxbits := if af0 then Z.lor auxbits LF_MASK_AF else auxbits in
  let auxbits := if cf0 then Z.lor auxbits LF_MASK_CF else auxbits in
  let auxbits := if xorb cf0 of0 then Z.lor auxbits LF_MASK_PO else auxbits in
  let s := set_lazy (mkLazyFlags Oszapc (sign_extend_result res bits) auxbits) s in
  cache_oszapc_fields (result (lazy s)) auxbits s.

(** [Flags::set_lazy_from_flags] *)
Definition set_lazy_from_flags (res : Z) (cf0 of0 af0 : bool) (bits : Z) (s : Flags) : Flags :=
  set_lazy_from_encoded_flags res cf0 of0 af0 bits s.

(** [Flags::mask] *)
Definition mask (bits : Z) : Z :=
  if bits =? 64 then 2 ^ 64 - 1
  else if bits =? 32 then 0xffffffff
  else if bits =? 16 then 0xffff
  else if bits =? 8 then 0xff
  else 0.

(** [Flags::calc_pf_value]: an array read; the index is a [u8] and the table
    has 256 entries. *)
Definition calc_pf_value (final_value : Z) : bool :=
  default false (PARITY_LOOKUP_TABLE !! Z.to_nat final_value).

(** [Flags::calc_lazy_pf_value] *)
Definition calc_lazy_pf_value (final_value : Z) : bool :=
  let temp := Z.land (Z.lxor final_value (Z.shiftr final_value 4)) 0x0f in
  negb (Z.land (Z.shiftr 0x9669 temp) 1 =? 0).

(** [Flags::calc_af_value] *)
Definition calc_af_value (value1 value2 result : Z) : bool :=
  negb (Z.land (Z.lxor (Z.lxor value1 value2) result) 0x10 =? 0).

(** [Flags::sign_mask] *)
Definition sign_mask (bits : Z) : Z := shl 64 1 (bits - 1).

(** ** Reading the flags *)

(** [Flags::cf] *)
Definition cf (s : Flags) : bool := f_cf s.

(** [Flags::pf] *)
Definition pf (s : Flags) : bool :=
  match kind (lazy s) with
  | LazyNone => f_pf s
  | Oszapc =>
      calc_lazy_pf_value
        (wrap 8 (Z.land (Z.lxor (wrap 32 (result (lazy s)))
                                (Z.shiftr (auxbits (lazy s)) LF_BIT_PDB)) 0xff))
  end.

(** [Flags::af] *)
Definition af (s : Flags) : bool :=
  match kind (lazy s) with
  | LazyNone => f_af s
  | Oszapc => negb (Z.land (auxbits (lazy s)) LF_MASK_AF =? 0)
  end.

(** [Flags::zf] *)
Definition zf (s : Flags) : bool := f_zf s.

(** [Flags::sf] *)
Definition sf (s : Flags) : bool := f_sf s.

(** [Flags::of] *)
Definition of_ (s : Flags) : bool := f_of s.

(** [Flags::materialize_lazy]: the six reads happen before [clear_lazy]. *)
Definition materialize_lazy (s : Flags) : Flags :=
  match kind (lazy s) with
  | LazyNone => s
  | Oszapc =>
      let s := set_f_cf (cf s) s in
      let s := set_f_pf (pf s) s in
      let s := set_f_af (af s) s in
      let s := set_f_zf (zf s) s in
      let s := set_f_sf (sf s) s in
      let s := set_f_of (of_ s) s in
      clear_lazy s
  end.

(** ** Whole-register operations *)

(** [Flags::clear] *)
Definition clear (s : Flags) : Flags :=
  let s := clear_lazy s in
  let s := set_f_cf false s in
  let s := set_f_pf false s in
  let s := set_f_af false s in
  let s := set_f_zf false s in
  let s := set_f_sf false s in
  let s := set_f_tf false s in
  let s := set_f_if false s in
  let s := set_f_df false s in
  let s := set_f_of false s in
  let s := set_f_iopl1 false s in
  let s := set_f_iopl2 false s in
  let s := set_f_nt false s in
  let s := set_f_rf false s in
  let s := set_f_vm false s in
  let s := set_f_ac false s in
  let s := set_f_vif false s in
  let s := set_f_vip false s in
  set_f_id false s.

(** [Flags::set] *)
Definition set (s : Flags) : Flags :=
  let s := clear_lazy s in
  let s := set_f_cf true s in
  let s := set_f_pf true s in
  let s := set_f_af true s in
  let s := set_f_zf true s in
  let s := set_f_sf true s in
  let s := set_f_tf true s in
  let s := set_f_if true s in
  let s := set_f_df true s in
  let s := set_f_of true s in
  let s := set_f_iopl1 true s in
  let s := set_f_iopl2 true s in
  let s := set_f_nt true s in
  let s := set_f_rf true s in
  let s := set_f_vm true s in
  let s := set_f_ac true s in
  let s := set_f_vif true s in
  let s := set_f_vip true s in
  set_f_id true s.

(** [if b { set_bit!(flags, n, 1); }] *)
Definition set_if (b : bool) (n flags : Z) : Z := if b then set_bit 32 flags n 1 else flags.

(** [Flags::dump]: [mut self] is a copy, so only the word is returned. *)
Definition dump (self : Flags) : Z :=
  let s := materialize_lazy self in
  let flags := 0 in
  let flags := set_if (f_cf s) 0 flags in
  let flags := set_bit 32 flags 1 1 in
  let flags := set_if (f_pf s) 2 flags in
  let flags := set_if (f_af s) 4 flags in
  let flags := set_if (f_zf s) 6 flags in
  let flags := set_if (f_sf s) 7 flags in
  let flags := set_if (f_tf s) 8 flags in
  let flags := set_if (f_if s) 9 flags in
  let flags := set_if (f_df s) 10 flags in
  let flags := set_if (f_of s) 11 flags in
  let flags := set_if (f_iopl1 s) 12 flags in
  let flags := set_if (f_iopl2 s) 13 flags in
  let flags := set_if (f_nt s) 14 flags in
  let flags := set_bit 32 flags 15 0 in
  let flags := set_if (f_rf s) 16 flags in
  let flags := set_if (f_vm s) 17 flags in
  let flags := set_if (f_ac s) 18 flags in
  let flags := set_if (f_vif s) 19 flags in
  let flags := set_if (f_vip s) 20 flags in
  let flags := set_if (f_id s) 21 flags in
  flags.

(** [Flags::load] *)
Definition load (flags : Z) (s : Flags) : Flags :=
  let s := clear_lazy s in
  let s := set_f_cf (get_bit 32 flags 0 =? 1) s in
  let s := set_f_pf (get_bit 32 flags 2 =? 1) s in
  let s := set_f_af (get_bit 32 flags 4 =? 1) s in
  let s := set_f_zf (get_bit 32 flags 6 =? 1) s in
  let s := set_f_sf (get_bit 32 flags 7 =? 1) s in
  let s := set_f_tf (get_bit 32 flags 8 =? 1) s in
  let s := set_f_if (get_bit 32 flags 9 =? 1) s in
  let s := set_f_df (get_bit 32 flags 10 =? 1) s in
  let s := set_f_of (get_bit 32 flags 11 =? 1) s in
  let s := set_f_iopl1 (get_bit 32 flags 12 =? 1) s in
  let s := set_f_iopl2 (get_bit 32 flags 13 =? 1) s in
  let s := set_f_nt (get_bit 32 flags 14 =? 1) s in
  let s := set_f_rf (get_bit 32 flags 16 =? 1) s in
  let s := set_f_vm (get_bit 32 flags 17 =? 1) s in
  let s := set_f_ac (get_bit 32 flags 18 =? 1) s in
  let s := set_f_vif (get_bit 32 flags 19 =? 1) s in
  let s := set_f_vip (get_bit 32 flags 20 =? 1) s in
  set_f_id (get_bit 32 flags 21 =? 1) s.

(** [Flags::calc_flags] *)
Definition calc_flags (final_value bits : Z) (s : Flags) : Flags :=
  let s := set_f_tf false s in
  set_lazy_from_flags final_value (f_cf s) (f_of s) (f_af s) bits s.

(** [Flags::calc_logic_flags_lazy] *)
Definition calc_logic_flags_lazy (final_value bits : Z) (s : Flags) : Flags :=
  let s := set_f_tf false s in
  let s := set_f_cf false s in
  let s := set_f_af false s in
  let s := set_f_of false s in
  set_lazy_logic final_value bits s.

(** [Flags::calc_pf] *)
Definition calc_pf (final_value : Z) (s : Flags) : Flags :=
  set_f_pf (calc_pf_value final_value) (materialize_lazy s).

(** [Flags::calc_af] *)
Definition calc_af (value1 value2 result _bits : Z) (s : Flags) : Flags :=
  set_f_af (calc_af_value value1 value2 result) (materialize_lazy s).

(** [Flags::test] *)
Definition test (value0 value1 sz : Z) (s : Flags) : Flags :=
  calc_logic_flags_lazy (Z.land value0 value1) sz s.

(** ** What a client can see

    The six arithmetic flags as the readers [cf] .. [of_] return them, and the
    twelve control flags, which are plain fields.  Two states that agree on
    both are interchangeable for every reader; the leftover [LazyFlags]
    payload of a materialised state is not observable. *)

Record status := mkStatus {
  s_cf : bool; s_pf : bool; s_af : bool; s_zf : bool; s_sf : bool; s_of : bool }.

Definition observe (s : Flags) : status := mkStatus (cf s) (pf s) (af s) (zf s) (sf s) (of_ s).

Definition control (s : Flags) : list bool :=
  [f_tf s; f_if s; f_df s; f_iopl1 s; f_iopl2 s; f_nt s; f_rf s; f_vm s; f_ac s; f_vif s; f_vip s; f_id s].

Definition flags_equiv (s t : Flags) : Prop := observe s = observe t /\ control s = control t.

#[export] Instance flags_equivalence : Equivalence flags_equiv.
Proof. unfold flags_equiv. split; red; intuition congruence. Qed.

(** ** Bits of the packed word *)


(** Reduce field projections of updated states, and nothing else. *)
Ltac flags_cbn :=
  cbn [
    f_cf f_pf f_af f_zf f_sf f_tf f_if f_df f_of f_iopl1 f_iopl2 f_nt f_rf f_vm f_ac f_vif
    f_vip f_id lazy kind result auxbits set_f_cf set_f_pf set_f_af set_f_zf set_f_sf
    set_f_tf set_f_if set_f_df set_f_of set_f_iopl1 set_f_iopl2 set_f_nt set_f_rf set_f_vm
    set_f_ac set_f_vif set_f_vip set_f_id set_lazy clear_lazy lazy_default s_cf s_pf s_af
    s_zf s_sf s_of
  ].

Lemma LF_masks :
  LF_MASK_SD = Z.shiftl 1 0 /\ LF_MASK_AF = Z.shiftl 1 3 /\ LF_MASK_CF = Z.shiftl 1 31 /\
  LF_MASK_PO = Z.shiftl 1 30 /\ LF_MASK_PDB = Z.shiftl (Z.ones 8) 8.
Proof. repeat split. Qed.

(** Adding bit 30 to the packed word and reading bit 31 computes
    [bit 31 xor bit 30]. *)
Lemma aux_overflow aux :
  is_word 32 aux ->
  negb (Z.land (Z.shiftr (wrap 32 (aux + LF_MASK_PO)) LF_BIT_CF) 1 =? 0)
  = xorb (Z.testbit aux 31) (Z.testbit aux 30).
Proof.
  intros Ha. replace 1 with (Z.shiftl 1 0) at 1 by reflexivity. rewrite land_bit by lia.
  rewrite Z.shiftr_spec, Z.add_0_l by lia.
  unfold LF_BIT_CF, LF_MASK_PO, LF_BIT_PO. change (Z.shiftl 1 30) with (2 ^ 30).
  assert (forall x, is_word 32 x -> Z.testbit x 31 = (2 ^ 31 <=? x)) as T31
    by (intros; apply (word_sign 32); auto; lia).
  rewrite T31 by (apply wrap_word; lia). rewrite T31 by auto.
  replace (Z.testbit aux 30) with (2 ^ 30 <=? aux mod 2 ^ 31); cycle 1.
  { rewrite <- (word_sign 31) by (auto; try lia; apply Z.mod_pos_bound; lia).
    rewrite Z.mod_pow2_bits_low by lia. reflexivity. }
  unfold wrap, is_word in *. change (2 ^ 32) with 4294967296 in *.
  change (2 ^ 31) with 2147483648. change (2 ^ 30) with 1073741824.
  Z.div_mod_to_equations. split_ltb; simpl; lia.
Qed.

(** Even parity of the low byte: what the SDM calls PF. *)
Definition even_parity (x : Z) : bool := Z.even (count_ones 8 x).

Lemma count_ones_ext n x y :
  (forall i, 0 <= i < Z.of_nat n -> Z.testbit x i = Z.testbit y i) ->
  count_ones n x = count_ones n y.
Proof.
  induction n as [|n IH]; intros H; [reflexivity |]. cbn [count_ones].
  rewrite H, IH by (intros; try apply H; lia). reflexivity.
Qed.

Lemma even_parity_ext x y :
  (forall i, 0 <= i < 8 -> Z.testbit x i = Z.testbit y i) -> even_parity x = even_parity y.
Proof. intros H. unfold even_parity. f_equal. now apply count_ones_ext. Qed.

(** The 256-entry parity table and the nibble trick of the lazy path both compute
    even parity. *)
Lemma pf_tables_agree v :
  is_word 8 v -> calc_pf_value v = even_parity v /\ calc_lazy_pf_value v = even_parity v.
Proof.
  intros Hv.
  pose proof (byte_forall (fun v => eqb (calc_pf_value v) (even_parity v)
                                    && eqb (calc_lazy_pf_value v) (even_parity v))) as H.
  specialize (H ltac:(vm_compute; reflexivity) v Hv). apply andb_true_iff in H.
  destruct H as [H1 H2]. split; now apply eqb_prop.
Qed.

(** What the readers return on a packed state whose sign-delta and
    parity-delta fields are clear. *)
Lemma observe_packed s r aux :
  is_word 64 r -> is_word 32 aux -> Z.testbit aux 0 = false ->
  (forall i, 8 <= i < 16 -> Z.testbit aux i = false) ->
  observe (set_lazy (mkLazyFlags Oszapc r aux) (cache_oszapc_fields r aux s))
  = mkStatus (Z.testbit aux 31) (even_parity r) (Z.testbit aux 3) (r =? 0)
             (Z.testbit r 63) (xorb (Z.testbit aux 31) (Z.testbit aux 30)).
Proof.
  intros Hr Ha H0 H8. unfold observe, cf, zf, sf, of_, pf, af, cache_oszapc_fields; flags_cbn.
  rewrite aux_overflow by auto.
  unfold LF_MASK_CF, LF_MASK_AF, LF_BIT_CF, LF_BIT_AF, LF_BIT_SD, LF_BIT_PDB.
  rewrite !land_bit by lia. f_equal.
  - rewrite (proj2 (pf_tables_agree _ ltac:(apply wrap_word; lia))).
    apply even_parity_ext. intros i Hi. change 255 with (Z.ones 8). bits_simpl.
    rewrite H8 by lia. btauto.
  - replace 1 with (Z.shiftl 1 0) at 1 by reflexivity. rewrite land_bit by lia.
    rewrite Z.shiftr_0_r. bits_simpl. rewrite H0. btauto.
Qed.

(** The status word described by a [w]-bit result and its carry-out vector. *)
Definition packed (w r c : Z) : status :=
  mkStatus (Z.testbit c (w - 1)) (even_parity r) (Z.testbit c 3) (r =? 0)
           (Z.testbit r (w - 1)) (xorb (Z.testbit c (w - 1)) (Z.testbit c (w - 2))).

Lemma sext_zero w r : 0 < w <= 64 -> is_word w r -> (wrap 64 (sgn w r) =? 0) = (r =? 0).
Proof.
  intros Hw Hr.
  destruct (Z.eqb_spec r 0) as [-> | Hn].
  - unfold sgn, wrap. now rewrite Z.bits_0, Z.mod_0_l by lia.
  - apply Z.eqb_neq. intros H. apply Hn. apply (word_ext w); auto; try lia.
    { unfold is_word; lia. }
    intros i Hi. rewrite Z.bits_0.
    assert (Z.testbit (wrap 64 (sgn w r)) i = false) as T by (rewrite H; apply Z.bits_0).
    rewrite testbit_wrap, testbit_sgn in T by lia. revert T. split_ltb. now simpl.
Qed.

Ltac unfold_lf := unfold LF_MASK_AF, LF_MASK_SD, LF_MASK_PDB, LF_BIT_AF, LF_BIT_SD, LF_BIT_PO, LF_BIT_PDB.

Lemma observe_oszapc64 s r c :
  is_word 64 r -> is_word 64 c -> observe (set_lazy_oszapc64 r c s) = packed 64 r c.
Proof.
  intros Hr Hc. unfold set_lazy_oszapc64; unfold_lf.
  rewrite observe_packed; [| auto | apply wrap_word; lia | bits_solve | intros; bits_solve].
  unfold packed. f_equal; bits_solve.
Qed.

Lemma observe_oszapc32 s r c :
  is_word 32 r -> is_word 32 c -> observe (set_lazy_oszapc32 r c s) = packed 32 r c.
Proof.
  intros Hr Hc. unfold set_lazy_oszapc32; unfold_lf. change 255 with (Z.ones 8).
  rewrite observe_packed;
    [| apply wrap_word; lia | auto with lia mw_word | bits_solve | intros; bits_solve].
  unfold packed. f_equal.
  all: try (apply sext_zero; [lia | auto]).
  all: try (apply even_parity_ext; intros).
  all: bits_solve.
Qed.

Lemma observe_oszapc16 s r c :
  is_word 16 r -> is_word 32 c -> observe (set_lazy_oszapc16 r c s) = packed 16 r c.
Proof.
  intros Hr Hc. unfold set_lazy_oszapc16; unfold_lf.
  rewrite observe_packed;
    [| apply wrap_word; lia | apply word_lor; [apply word_land|apply wrap_word|]; auto; lia
     | bits_solve | intros; bits_solve].
  unfold packed. f_equal.
  all: try (apply sext_zero; [lia | auto]).
  all: try (apply even_parity_ext; intros).
  all: bits_solve.
Qed.

Lemma observe_oszapc8 s r c :
  is_word 8 r -> is_word 32 c -> observe (set_lazy_oszapc8 r c s) = packed 8 r c.
Proof.
  intros Hr Hc. unfold set_lazy_oszapc8; unfold_lf.
  rewrite observe_packed;
    [| apply wrap_word; lia | apply word_lor; [apply word_land|apply wrap_word|]; auto; lia
     | bits_solve | intros; bits_solve].
  unfold packed. f_equal.
  all: try (apply sext_zero; [lia | auto]).
  all: try (apply even_parity_ext; intros).
  all: bits_solve.
Qed.

(** The operand widths of the general-purpose instructions. *)
Definition width (w : Z) : Prop := w = 8 \/ w = 16 \/ w = 32 \/ w = 64.

Lemma sign_extend_result_spec w r :
  width w -> is_word w r -> sign_extend_result r w = wrap 64 (sgn w r).
Proof.
  intros [-> | [-> | [-> | ->]]] Hr; try reflexivity.
  unfold sign_extend_result; cbn [Z.eqb Pos.eqb].
  apply (word_ext 64); [auto | apply wrap_word; lia | lia |]. intros. bits_solve.
Qed.

Lemma observe_encoded w r cf0 of0 af0 s :
  width w -> is_word w r ->
  observe (set_lazy_from_flags r cf0 of0 af0 w s)
  = mkStatus cf0 (even_parity r) af0 (r =? 0) (Z.testbit r (w - 1)) of0.
Proof.
  intros Hw Hr. unfold set_lazy_from_flags, set_lazy_from_encoded_flags. flags_cbn.
  rewrite sign_extend_result_spec by auto.
  assert (0 < w <= 64) by (unfold width in Hw; lia).
  match goal with |- observe (cache_oszapc_fields ?v ?a (set_lazy ?l _)) = _ =>
    change (observe (set_lazy l (cache_oszapc_fields v a s)) =
            mkStatus cf0 (even_parity r) af0 (r =? 0) (Z.testbit r (w - 1)) of0) end.
  rewrite observe_packed.
  2: apply wrap_word; lia.
  2: destruct cf0, of0, af0; now apply is_wordb_spec.
  2: destruct cf0, of0, af0; reflexivity.
  2: { intros i Hi. assert (i = 8 \/ i = 9 \/ i = 10 \/ i = 11 \/ i = 12 \/ i = 13 \/ i = 14 \/ i = 15)
         as Hc by lia. destruct cf0, of0, af0; intuition (subst; reflexivity). }
  rewrite sext_zero by (auto; lia). f_equal.
  1, 3, 5: destruct cf0, of0, af0; reflexivity.
  - apply even_parity_ext. intros. unfold width in Hw. bits_simpl. reflexivity.
  - bits_simpl; rewrite andb_true_l; [f_equal; lia | reflexivity].
Qed.

Lemma control_encoded w r cf0 of0 af0 s :
  control (set_lazy_from_flags r cf0 of0 af0 w s) = control s.
Proof. reflexivity. Qed.

(** [calc_flags] keeps CF, OF and the stored AF and recomputes the others. *)
Lemma observe_calc_flags w r s :
  width w -> is_word w r ->
  observe (calc_flags r w s)
  = mkStatus (f_cf s) (even_parity r) (f_af s) (r =? 0) (Z.testbit r (w - 1)) (f_of s).
Proof. intros. unfold calc_flags. rewrite observe_encoded by auto. reflexivity. Qed.

Lemma control_calc_flags w r s : control (calc_flags r w s) = control (set_f_tf false s).
Proof. reflexivity. Qed.

(** ** Materialisation *)

(** Materialising the pending flags is invisible, leaves nothing pending and is
    idempotent. *)
Theorem materialize_transparent s :
  flags_equiv (materialize_lazy s) s
  /\ kind (lazy (materialize_lazy s)) = LazyNone
  /\ materialize_lazy (materialize_lazy s) = materialize_lazy s.
Proof.
  unfold materialize_lazy. destruct (kind (lazy s)) eqn:E; flags_cbn.
  - rewrite E. repeat split; reflexivity.
  - repeat split.
Qed.

(** A materialised state stores what its readers return. *)
Lemma materialized_fields s :
  kind (lazy s) = LazyNone ->
  observe s = mkStatus (f_cf s) (f_pf s) (f_af s) (f_zf s) (f_sf s) (f_of s).
Proof. intros E. unfold observe, cf, pf, af, zf, sf, of_. now rewrite E. Qed.

(** ** EFLAGS image *)

Lemma testbit_set_if (b : bool) v n i :
  0 <= n < 32 -> 0 <= i ->
  Z.testbit (set_if b n v) i = (b && (i =? n)) || Z.testbit v i.
Proof. intros. destruct b; [apply testbit_set_bit1; lia | reflexivity]. Qed.

(** The position each flag has in the EFLAGS image; bit 1 is always set. *)
Definition eflags_bit (s : Flags) (i : Z) : bool :=
  let s := materialize_lazy s in
  match i with
  | 0 => f_cf s
  | 2 => f_pf s
  | 4 => f_af s
  | 6 => f_zf s
  | 7 => f_sf s
  | 8 => f_tf s
  | 9 => f_if s
  | 10 => f_df s
  | 11 => f_of s
  | 12 => f_iopl1 s
  | 13 => f_iopl2 s
  | 14 => f_nt s
  | 16 => f_rf s
  | 17 => f_vm s
  | 18 => f_ac s
  | 19 => f_vif s
  | 20 => f_vip s
  | 21 => f_id s
  | 1 => true
  | _ => false
  end.

Lemma testbit_dump s i : 0 <= i < 32 -> Z.testbit (dump s) i = eflags_bit s i.
Proof.
  intros Hi. unfold dump, eflags_bit. generalize (materialize_lazy s); clear s; intros s.
  destruct s; flags_cbn. cbv zeta.
  repeat first [ rewrite testbit_set_if by lia | rewrite testbit_set_bit1 by lia
               | rewrite testbit_set_bit0 by lia ].
  rewrite Z.bits_0. revert i Hi.
  enum_cases 32%nat. all: vm_compute. all: btauto.
Qed.

Lemma materialize_none s : kind (lazy s) = LazyNone -> materialize_lazy s = s.
Proof. unfold materialize_lazy. now intros ->. Qed.

Lemma set_if_word b n v : 0 <= n < 32 -> is_word 32 v -> is_word 32 (set_if b n v).
Proof.
  intros Hn Hv. unfold set_if, set_bit. destruct b; [|exact Hv].
  change (1 =? 1) with true; cbv iota. apply word_lor; [exact Hv | apply wrap_word; lia | lia].
Qed.

Lemma dump_word s : is_word 32 (dump s).
Proof.
  unfold dump. cbv zeta.
  repeat first [ apply set_if_word; [lia |] | apply word_land; [|lia]
               | apply word_lor; [| apply wrap_word; lia | lia] ].
  now apply is_wordb_spec.
Qed.

(** EFLAGS is determined by what the readers return. *)
#[export] Instance dump_proper : Proper (flags_equiv ==> eq) dump.
Proof.
  intros s t [Ho Hc]. apply (word_ext 32); auto using dump_word; [lia |].
  intros i Hi. rewrite !testbit_dump by lia.
  destruct (materialize_transparent s) as [[Hos Hcs] [Hks _]].
  destruct (materialize_transparent t) as [[Hot Hct] [Hkt _]].
  rewrite materialized_fields in Hos by auto. rewrite materialized_fields in Hot by auto.
  rewrite <- Hos, <- Hot in Ho. rewrite <- Hcs, <- Hct in Hc. unfold eflags_bit, control in *.
  injection Ho as ? ? ? ? ? ?. injection Hc as ? ? ? ? ? ? ? ? ? ? ? ?.
  revert i Hi. enum_cases 32%nat; cbn; assumption || reflexivity.
Qed.

(** Loading a dumped image restores every observable flag. *)
Theorem load_dump s0 s : flags_equiv (load (dump s) s0) s.
Proof.
  transitivity (materialize_lazy s); [|apply materialize_transparent].
  destruct (materialize_transparent s) as [_ [Hk _]].
  split.
  - rewrite (materialized_fields (load _ _)), (materialized_fields (materialize_lazy s)) by auto.
    unfold load; flags_cbn. rewrite !get_bit_eqb, !testbit_dump by lia. reflexivity.
  - unfold control, load; flags_cbn. rewrite !get_bit_eqb, !testbit_dump by lia. reflexivity.
Qed.

(** The EFLAGS bits the emulator implements. *)
Definition EFLAGS_IMPLEMENTED : Z := 0x3f7fd5.

(** Loading an EFLAGS image and dumping it gives the image restricted to the
    implemented bits with bit 1 set. *)
Theorem dump_load v s0 :
  is_word 32 v -> dump (load v s0) = Z.lor 2 (Z.land v EFLAGS_IMPLEMENTED).
Proof.
  intros Hv. apply (word_ext 32); [apply dump_word | | lia |].
  { apply word_lor; [now apply is_wordb_spec | apply word_land; [auto | lia] | lia]. }
  intros i Hi. rewrite testbit_dump, Z.lor_spec, Z.land_spec by lia.
  unfold eflags_bit. rewrite materialize_none by reflexivity.
  unfold load; flags_cbn. rewrite !get_bit_eqb by lia. clear Hv. revert i Hi.
  enum_cases 32%nat;
    repeat match goal with |- context [Z.testbit ?c ?n] =>
      lazymatch c with v => fail | _ =>
        let b := eval vm_compute in (Z.testbit c n) in change (Z.testbit c n) with b end end; btauto.
Qed.

(** Two flag registers dump to the same EFLAGS image exactly when they agree on
    every flag a program can observe: whether a flag is cached or pending in the
    lazy word is invisible. *)
Theorem dump_injective s t : dump s = dump t <-> flags_equiv s t.
Proof.
  split; [|intros ->; reflexivity].
  intros H. rewrite <- (load_dump s s), <- (load_dump s t), H. reflexivity.
Qed.

Lemma dump_load_witness : dump (load 0xffffffff new) = 0x3f7fd7.
Proof. rewrite (dump_load 0xffffffff new ltac:(split; lia)). reflexivity. Defined.
