(* ===== verification/FlagsArith.v ===== *)
(** * Addition, subtraction, negation and multiplication
      ([arch/x86/flags.rs], [add64] .. [neg8] and [imul64p2] .. [imul8p2])

    The operations return the result and the updated [Flags]; their
    specification is the instruction set's definition of the six status flags
    as arithmetic on the operands ([sdm_add], [sdm_sub], ...). *)

From S2P Require Import Prelude Flags.

(** ** Operations *)

(** [Flags::add64] *)
Definition add64 (value1 value2 : Z) (cf include_carry : bool) (s : Flags) : Z * Flags :=
  let v1 := value1 in
  let v2 := value2 in
  let c := if include_carry then Z.b2z cf else 0 in
  let result := wrap 64 (wrap 64 (v1 + v2) + c) in
  (result, set_lazy_oszapc64 result (add_cout_vec v1 v2 result) s).

(** [Flags::add32] *)
Definition add32 (value1 value2 : Z) (cf include_carry : bool) (s : Flags) : Z * Flags :=
  let c := if include_carry then Z.b2z cf else 0 in
  let result := wrap 32 (wrap 32 (value1 + value2) + c) in
  let carries := add_cout_vec value1 value2 result in
  (result, set_lazy_oszapc32 result (wrap 32 carries) s).

(** [Flags::add16] *)
Definition add16 (value1 value2 : Z) (cf include_carry : bool) (s : Flags) : Z * Flags :=
  let c := if include_carry then Z.b2z cf else 0 in
  let result := wrap 16 (wrap 16 (value1 + value2) + c) in
  let carries := add_cout_vec value1 value2 result in
  (result, set_lazy_oszapc16 result (wrap 32 carries) s).

(** [Flags::add8] *)
Definition add8 (value1 value2 : Z) (cf include_carry : bool) (s : Flags) : Z * Flags :=
  let c := if include_carry then Z.b2z cf else 0 in
  let result := wrap 8 (wrap 8 (value1 + value2) + c) in
  let carries := add_cout_vec value1 value2 result in
  (result, set_lazy_oszapc8 result (wrap 32 carries) s).

(** [Flags::sub64_borrow] *)
Definition sub64_borrow (value1 value2 : Z) (borrow : bool) (s : Flags) : Z * Flags :=
  let borrow := Z.b2z borrow in
  let result := wrap 64 (wrap 64 (value1 - value2) - borrow) in
  (result, set_lazy_oszapc64 result (sub_cout_vec value1 value2 result) s).

(** [Flags::sub32_borrow] *)
Definition sub32_borrow (value1 value2 : Z) (borrow : bool) (s : Flags) : Z * Flags :=
  let value1 := wrap 32 value1 in
  let value2 := wrap 32 value2 in
  let borrow := Z.b2z borrow in
  let result := wrap 32 (wrap 32 (value1 - value2) - borrow) in
  let carries := sub_cout_vec value1 value2 result in
  (result, set_lazy_oszapc32 result (wrap 32 carries) s).

(** [Flags::sub16_borrow] *)
Definition sub16_borrow (value1 value2 : Z) (borrow : bool) (s : Flags) : Z * Flags :=
  let value1 := wrap 16 value1 in
  let value2 := wrap 16 value2 in
  let borrow := Z.b2z borrow in
  let result := wrap 16 (wrap 16 (value1 - value2) - borrow) in
  let carries := sub_cout_vec value1 value2 result in
  (result, set_lazy_oszapc16 result (wrap 32 carries) s).

(** [Flags::sub8_borrow] *)
Definition sub8_borrow (value1 value2 : Z) (borrow : bool) (s : Flags) : Z * Flags :=
  let value1 := wrap 8 value1 in
  let value2 := wrap 8 value2 in
  let borrow := Z.b2z borrow in
  let result := wrap 8 (wrap 8 (value1 - value2) - borrow) in
  let carries := sub_cout_vec value1 value2 result in
  (result, set_lazy_oszapc8 result (wrap 32 carries) s).

(** [Flags::sub64] *)
Definition sub64 (value1 value2 : Z) (s : Flags) : Z * Flags :=
  let r := wrap 64 (value1 - value2) in
  (r, set_lazy_oszapc64 r (sub_cout_vec value1 value2 r) s).

(** [Flags::sub32] *)
Definition sub32 (value1 value2 : Z) (s : Flags) : Z * Flags :=
  let r := wrap 32 (wrap 32 value1 - wrap 32 value2) in
  let value1 := wrap 32 value1 in
  let value2 := wrap 32 value2 in
  let carries := sub_cout_vec value1 value2 r in
  (r, set_lazy_oszapc32 r (wrap 32 carries) s).

(** [Flags::sub16] *)
Definition sub16 (value1 value2 : Z) (s : Flags) : Z * Flags :=
  let r := wrap 16 (wrap 16 value1 - wrap 16 value2) in
  let value1 := wrap 16 value1 in
  let value2 := wrap 16 value2 in
  let carries := sub_cout_vec value1 value2 r in
  (r, set_lazy_oszapc16 r (wrap 32 carries) s).

(** [Flags::sub8] *)
Definition sub8 (value1 value2 : Z) (s : Flags) : Z * Flags :=
  let r := wrap 8 (wrap 8 value1 - wrap 8 value2) in
  let value1 := wrap 8 value1 in
  let value2 := wrap 8 value2 in
  let carries := sub_cout_vec value1 value2 r in
  (r, set_lazy_oszapc8 r (wrap 32 carries) s).

(** [self.lazy.kind = LazyFlagsKind::None]: the payload stays. *)
Definition set_lazy_kind (k : LazyFlagsKind) (s : Flags) : Flags :=
  set_lazy (mkLazyFlags k (result (lazy s)) (auxbits (lazy s))) s.

(** [Flags::inc64] *)
Definition inc64 (value : Z) (s : Flags) : Z * Flags :=
  let result := wrap 64 (value + 1) in
  let c := cf s in
  let s := set_lazy_kind LazyNone s in
  let s := set_f_cf c s in
  let s := set_f_af (Z.land value 0xf =? 0xf) s in
  let s := set_f_of (value =? 0x7fffffffffffffff) s in
  let s := set_f_zf (result =? 0) s in
  let s := set_f_sf (sgn 64 result <? 0) s in
  let s := set_f_pf (calc_pf_value (wrap 8 result)) s in
  (result, s).

(** [Flags::inc32] *)
Definition inc32 (value : Z) (s : Flags) : Z * Flags :=
  let value := Z.land value 0xffffffff in
  let result := Z.land (wrap 64 (value + 1)) 0xffffffff in
  let c := cf s in
  let s := set_lazy_kind LazyNone s in
  let s := set_f_cf c s in
  let s := set_f_af (Z.land value 0xf =? 0xf) s in
  let s := set_f_of (value =? 0x7fffffff) s in
  let s := set_f_zf (result =? 0) s in
  let s := set_f_sf (sgn 32 (wrap 32 result) <? 0) s in
  let s := set_f_pf (calc_pf_value (wrap 8 result)) s in
  (result, s).

(** [Flags::inc16] *)
Definition inc16 (value : Z) (s : Flags) : Z * Flags :=
  let value := Z.land value 0xffff in
  let result := Z.land (wrap 64 (value + 1)) 0xffff in
  let c := cf s in
  let s := set_lazy_kind LazyNone s in
  let s := set_f_cf c s in
  let s := set_f_af (Z.land value 0xf =? 0xf) s in
  let s := set_f_of (value =? 0x7fff) s in
  let s := set_f_zf (result =? 0) s in
  let s := set_f_sf (sgn 16 (wrap 16 result) <? 0) s in
  let s := set_f_pf (calc_pf_value (wrap 8 result)) s in
  (result, s).

(** [Flags::inc8] *)
Definition inc8 (value : Z) (s : Flags) : Z * Flags :=
  let value := Z.land value 0xff in
  let result := Z.land (wrap 64 (value + 1)) 0xff in
  let c := cf s in
  let s := set_lazy_kind LazyNone s in
  let s := set_f_cf c s in
  let s := set_f_af (Z.land value 0xf =? 0xf) s in
  let s := set_f_of (value =? 0x7f) s in
  let s := set_f_zf (result =? 0) s in
  let s := set_f_sf (sgn 8 (wrap 8 result) <? 0) s in
  let s := set_f_pf (calc_pf_value (wrap 8 result)) s in
  (result, s).

(** [Flags::dec64] *)
Definition dec64 (value : Z) (s : Flags) : Z * Flags :=
  let result := wrap 64 (value - 1) in
  let c := cf s in
  let s := set_lazy_kind LazyNone s in
  let s := set_f_cf c s in
  let s := set_f_af (Z.land value 0xf =? 0) s in
  let s := set_f_of (value =? 0x8000000000000000) s in
  let s := set_f_zf (result =? 0) s in
  let s := set_f_sf (sgn 64 result <? 0) s in
  let s := set_f_pf (calc_pf_value (wrap 8 result)) s in
  (result, s).

(** [Flags::dec32] *)
Definition dec32 (value : Z) (s : Flags) : Z * Flags :=
  let value := Z.land value 0xffffffff in
  let result := Z.land (wrap 64 (value - 1)) 0xffffffff in
  let c := cf s in
  let s := set_lazy_kind LazyNone s in
  let s := set_f_cf c s in
  let s := set_f_af (Z.land value 0xf =? 0) s in
  let s := set_f_of (value =? 0x80000000) s in
  let s := set_f_zf (result =? 0) s in
  let s := set_f_sf (sgn 32 (wrap 32 result) <? 0) s in
  let s := set_f_pf (calc_pf_value (wrap 8 result)) s in
  (result, s).

(** [Flags::dec16] *)
Definition dec16 (value : Z) (s : Flags) : Z * Flags :=
  let value := Z.land value 0xffff in
  let result := Z.land (wrap 64 (value - 1)) 0xffff in
  let c := cf s in
  let s := set_lazy_kind LazyNone s in
  let s := set_f_cf c s in
  let s := set_f_af (Z.land value 0xf =? 0) s in
  let s := set_f_of (value =? 0x8000) s in
  let s := set_f_zf (result =? 0) s in
  let s := set_f_sf (sgn 16 (wrap 16 result) <? 0) s in
  let s := set_f_pf (calc_pf_value (wrap 8 result)) s in
  (result, s).

(** [Flags::dec8] *)
Definition dec8 (value : Z) (s : Flags) : Z * Flags :=
  let value := Z.land value 0xff in
  let result := Z.land (wrap 64 (value - 1)) 0xff in
  let c := cf s in
  let s := set_lazy_kind LazyNone s in
  let s := set_f_cf c s in
  let s := set_f_af (Z.land value 0xf =? 0) s in
  let s := set_f_of (value =? 0x80) s in
  let s := set_f_zf (result =? 0) s in
  let s := set_f_sf (sgn 8 (wrap 8 result) <? 0) s in
  let s := set_f_pf (calc_pf_value (wrap 8 result)) s in
  (result, s).

(** [Flags::neg64] *)
Definition neg64 (value : Z) (s : Flags) : Z * Flags :=
  let s := set_f_of (value =? 0x8000000000000000) s in
  let s := set_f_cf (negb (value =? 0)) s in
  let s := set_f_af (negb (Z.land value 0x0f =? 0)) s in
  let ival := sgn 64 value in
  let ival := if negb (ival =? - 2 ^ 63) then - ival else ival in
  let res := wrap 64 ival in
  let s := calc_flags res 64 s in
  let s := calc_pf (wrap 8 res) s in
  (res, s).

(** [Flags::neg32] *)
Definition neg32 (value : Z) (s : Flags) : Z * Flags :=
  let s := set_f_of (value =? 0x80000000) s in
  let s := set_f_cf (negb (Z.land value 0xffffffff =? 0)) s in
  let s := set_f_af (negb (Z.land value 0x0f =? 0)) s in
  let ival := sgn 32 value in
  let ival := if negb (ival =? - 2 ^ 31) then - ival else ival in
  let res := wrap 32 ival in
  let s := calc_flags res 32 s in
  let s := calc_pf (wrap 8 res) s in
  (res, s).

(** [Flags::neg16] *)
Definition neg16 (value : Z) (s : Flags) : Z * Flags :=
  let s := set_f_of (value =? 0x8000) s in
  let s := set_f_cf (negb (Z.land value 0xffff =? 0)) s in
  let s := set_f_af (negb (Z.land value 0x0f =? 0)) s in
  let ival := sgn 16 value in
  let ival := if negb (ival =? - 2 ^ 15) then - ival else ival in
  let res := wrap 16 ival in
  let s := calc_flags res 16 s in
  let s := calc_pf (wrap 8 res) s in
  (res, s).

(** [Flags::neg8] *)
Definition neg8 (value : Z) (s : Flags) : Z * Flags :=
  let s := set_f_of (value =? 0x80) s in
  let s := set_f_cf (negb (Z.land value 0xff =? 0)) s in
  let s := set_f_af (negb (Z.land value 0x0f =? 0)) s in
  let ival := sgn 8 value in
  let ival := if negb (ival =? - 2 ^ 7) then - ival else ival in
  let res := wrap 8 ival in
  let s := calc_flags res 8 s in
  let s := calc_pf (wrap 8 res) s in
  (res, s).

(** [Flags::set_imul_overflow] *)
Definition set_imul_overflow (overflow : bool) (s : Flags) : Flags :=
  set_f_of overflow (set_f_cf overflow s).

(** [Flags::imul64p2]: the product of two [i64] always fits [i128], where the
    wrapping multiplication is done. *)
Definition imul64p2 (value0 value1 : Z) (s : Flags) : Z * Flags :=
  let full := sgn 128 (sgn 64 value0 * sgn 64 value1) in
  let res := sgn 64 full in
  (wrap 64 res, set_imul_overflow (negb (full =? res)) s).

(** [Flags::imul32p2]: the product of two [i32] always fits [i64], where the
    wrapping multiplication is done. *)
Definition imul32p2 (value0 value1 : Z) (s : Flags) : Z * Flags :=
  let full := sgn 64 (sgn 32 value0 * sgn 32 value1) in
  let res := sgn 32 full in
  (wrap 32 res, set_imul_overflow (negb (full =? res)) s).

(** [Flags::imul16p2]: the product of two [i16] always fits [i32], where the
    wrapping multiplication is done. *)
Definition imul16p2 (value0 value1 : Z) (s : Flags) : Z * Flags :=
  let full := sgn 32 (sgn 16 value0 * sgn 16 value1) in
  let res := sgn 16 full in
  (wrap 16 res, set_imul_overflow (negb (full =? res)) s).

(** [Flags::imul8p2]: the product of two [i8] always fits [i16], where the
    wrapping multiplication is done. *)
Definition imul8p2 (value0 value1 : Z) (s : Flags) : Z * Flags :=
  let full := sgn 16 (sgn 8 value0 * sgn 8 value1) in
  let res := sgn 8 full in
  (wrap 8 res, set_imul_overflow (negb (full =? res)) s).

(** ** Specification *)

(** The status flags of [a + b + c] at width [w]. *)
Definition sdm_add (w a b : Z) (c : bool) : status :=
  let r := wrap w (a + b + Z.b2z c) in
  mkStatus (2 ^ w <=? a + b + Z.b2z c) (even_parity r)
           (16 <=? a mod 16 + b mod 16 + Z.b2z c) (r =? 0) (sgn w r <? 0)
           (signed_overflow w (sgn w a + sgn w b + Z.b2z c)).

(** The status flags of [a - b - c] at width [w]. *)
Definition sdm_sub (w a b : Z) (c : bool) : status :=
  let r := wrap w (a - b - Z.b2z c) in
  mkStatus (a <? b + Z.b2z c) (even_parity r)
           (a mod 16 <? b mod 16 + Z.b2z c) (r =? 0) (sgn w r <? 0)
           (signed_overflow w (sgn w a - sgn w b - Z.b2z c)).

(** ** Proofs *)

Lemma wrap_wrap_add w x y : 0 <= w -> wrap w (wrap w x + y) = wrap w (x + y).
Proof. intros. unfold wrap. apply Zplus_mod_idemp_l. Qed.

Lemma wrap_wrap_sub w x y : 0 <= w -> wrap w (wrap w x - y) = wrap w (x - y).
Proof. intros. unfold wrap. apply Zminus_mod_idemp_l. Qed.

Lemma sgn_neg w r : 0 < w -> (sgn w r <? 0) = Z.testbit r (w - 1).
Proof.
  intros Hw. pose proof (wrap_word w r ltac:(lia)) as Hu. unfold sgn, is_word in *.
  destruct (Z.testbit r (w - 1)); split_ltb; lia || reflexivity.
Qed.

Lemma add_cout_vec_carry w a b c i :
  0 <= i < w -> w <= 64 ->
  Z.testbit (add_cout_vec a b (wrap w (a + b + Z.b2z c))) i = carry a b c (i + 1).
Proof.
  intros Hi Hw. unfold add_cout_vec. bits_simpl. rewrite testbit_add, carry_succ by lia. btauto.
Qed.

Lemma sub_cout_vec_borrow w a b c i :
  0 <= i < w -> w <= 64 ->
  Z.testbit (sub_cout_vec a b (wrap w (a - b - Z.b2z c))) i = borrow a b c (i + 1).
Proof.
  intros Hi Hw. unfold sub_cout_vec. bits_simpl. rewrite testbit_sub, borrow_succ by lia. btauto.
Qed.

(** A carry vector that holds the carries of an addition packs to the
    specified status; only the low [w] bits of the vector matter. *)
Lemma packed_add w a b c v :
  8 <= w -> is_word w a -> is_word w b ->
  (forall i, 0 <= i < w -> Z.testbit v i = carry a b c (i + 1)) ->
  packed w (wrap w (a + b + Z.b2z c)) v = sdm_add w a b c.
Proof.
  intros Hw Ha Hb Hv. unfold packed, sdm_add. rewrite !Hv by lia. f_equal.
  - unfold carry. replace (w - 1 + 1) with w by lia. now rewrite !Z.mod_small by auto.
  - symmetry. apply sgn_neg. lia.
  - replace (w - 1 + 1) with w by lia. replace (w - 2 + 1) with (w - 1) by lia.
    apply add_overflow; auto; lia.
Qed.

Lemma packed_sub w a b c v :
  8 <= w -> is_word w a -> is_word w b ->
  (forall i, 0 <= i < w -> Z.testbit v i = borrow a b c (i + 1)) ->
  packed w (wrap w (a - b - Z.b2z c)) v = sdm_sub w a b c.
Proof.
  intros Hw Ha Hb Hv. unfold packed, sdm_sub. rewrite !Hv by lia. f_equal.
  - unfold borrow. replace (w - 1 + 1) with w by lia. now rewrite !Z.mod_small by auto.
  - symmetry. apply sgn_neg. lia.
  - replace (w - 1 + 1) with w by lia. replace (w - 2 + 1) with (w - 1) by lia.
    apply sub_overflow; auto; lia.
Qed.

(** What it means for an operation to implement a specified result and status
    and to leave the control flags alone. *)
Definition implements (op : Flags -> Z * Flags) (r : Z) (st : status) : Prop :=
  forall s, fst (op s) = r /\ observe (snd (op s)) = st /\ control (snd (op s)) = control s.

Lemma add_cout_vec_word w a b r :
  0 <= w -> is_word w a -> is_word w b -> is_word w (add_cout_vec a b r).
Proof. intros. unfold add_cout_vec. auto using word_lor, word_land. Qed.

Lemma sub_cout_vec_word w a b r :
  0 <= w -> is_word w b -> is_word w r -> is_word w (sub_cout_vec a b r).
Proof.
  intros. unfold sub_cout_vec. apply word_lor; [| | lia].
  - rewrite Z.land_comm. now apply word_land.
  - rewrite Z.land_comm. now apply word_land.
Qed.

Lemma word_mono w w' x : 0 <= w <= w' -> is_word w x -> is_word w' x.
Proof. unfold is_word. intros ? [? ?]. pose proof (Z.pow_le_mono_r 2 w w'). lia. Qed.

(** The carry used by the four [addW]. *)
Definition carry_in (c include : bool) : bool := if include then c else false.

Lemma carry_in_b2z (c include : bool) : (if include then Z.b2z c else 0) = Z.b2z (carry_in c include).
Proof. now destruct include. Qed.

(** [op] is a correct [w]-bit addition with optional carry. *)
Definition add_ok (w : Z) (op : Z -> Z -> bool -> bool -> Flags -> Z * Flags) : Prop :=
  forall a b c include, is_word w a -> is_word w b ->
  let k := carry_in c include in
  implements (op a b c include) (wrap w (a + b + Z.b2z k)) (sdm_add w a b k).

(** [op] is a correct [w]-bit subtraction with borrow of [u64] operands, of
    which it uses the low [w] bits. *)
Definition sbb_ok (w : Z) (op : Z -> Z -> bool -> Flags -> Z * Flags) : Prop :=
  forall a b c, is_word 64 a -> is_word 64 b ->
  let a' := wrap w a in let b' := wrap w b in
  implements (op a b c) (wrap w (a' - b' - Z.b2z c)) (sdm_sub w a' b' c).

(** The same without a borrow. *)
Definition sub_ok (w : Z) (op : Z -> Z -> Flags -> Z * Flags) : Prop :=
  forall a b, is_word 64 a -> is_word 64 b ->
  let a' := wrap w a in let b' := wrap w b in
  implements (op a b) (wrap w (a' - b')) (sdm_sub w a' b' false).

(** Discharge one width: [observe_w] reads the packed state, [packed_l] turns
    the carry vector into the specification. *)
Ltac oszapc_width observe_w packed_l vec_bits vec_word :=
  rewrite observe_w;
  [ apply packed_l; auto using wrap_word with lia; intros; bits_simpl; now apply vec_bits
  | apply wrap_word; lia
  | first [ apply wrap_word; lia | apply vec_word; auto using wrap_word with lia ] ].

(** add64, add32, add16 and add8 return the sum of their operands, with the
    carry when it is included, modulo the width, and leave exactly the CF, PF, AF,
    ZF, SF and OF that the x86 manual defines for ADD and ADC, with the control
    flags unchanged. *)
Lemma add_all : add_ok 64 add64 /\ add_ok 32 add32 /\ add_ok 16 add16 /\ add_ok 8 add8.
Proof.
  repeat split; unfold add64, add32, add16, add8; cbn [fst snd];
    rewrite ?carry_in_b2z, ?wrap_wrap_add by lia; try reflexivity.
  - oszapc_width observe_oszapc64 packed_add add_cout_vec_carry add_cout_vec_word.
  - oszapc_width observe_oszapc32 packed_add add_cout_vec_carry add_cout_vec_word.
  - oszapc_width observe_oszapc16 packed_add add_cout_vec_carry add_cout_vec_word.
  - oszapc_width observe_oszapc8 packed_add add_cout_vec_carry add_cout_vec_word.
Qed.

(** The four subtractions with borrow return the difference less the borrow
    modulo the width and leave exactly the status flags that the x86 manual defines
    for SBB. *)
Lemma sbb_all :
  sbb_ok 64 sub64_borrow /\ sbb_ok 32 sub32_borrow /\ sbb_ok 16 sub16_borrow /\ sbb_ok 8 sub8_borrow.
Proof.
  repeat split; unfold sub64_borrow, sub32_borrow, sub16_borrow, sub8_borrow; cbn [fst snd];
    rewrite ?(wrap_small 64 a), ?(wrap_small 64 b), ?wrap_wrap_sub by (auto; lia); try reflexivity.
  - oszapc_width observe_oszapc64 packed_sub sub_cout_vec_borrow sub_cout_vec_word.
  - oszapc_width observe_oszapc32 packed_sub sub_cout_vec_borrow sub_cout_vec_word.
  - oszapc_width observe_oszapc16 packed_sub sub_cout_vec_borrow sub_cout_vec_word.
  - oszapc_width observe_oszapc8 packed_sub sub_cout_vec_borrow sub_cout_vec_word.
Qed.

(** sub64, sub32, sub16 and sub8 return the difference modulo the width and leave
    exactly the status flags that the x86 manual defines for SUB and CMP. *)
Lemma sub_all : sub_ok 64 sub64 /\ sub_ok 32 sub32 /\ sub_ok 16 sub16 /\ sub_ok 8 sub8.
Proof.
  assert (forall w x y, wrap w (x - y) = wrap w (x - y - Z.b2z false)) as E
    by (intros; f_equal; simpl; lia).
  repeat split; unfold sub64, sub32, sub16, sub8; cbn [fst snd];
    rewrite ?(wrap_small 64 a), ?(wrap_small 64 b) by (auto; lia); try reflexivity.
  all: match goal with |- context [wrap ?w (?x - ?y)] => rewrite !(E w x y) end.
  - oszapc_width observe_oszapc64 packed_sub sub_cout_vec_borrow sub_cout_vec_word.
  - oszapc_width observe_oszapc32 packed_sub sub_cout_vec_borrow sub_cout_vec_word.
  - oszapc_width observe_oszapc16 packed_sub sub_cout_vec_borrow sub_cout_vec_word.
  - oszapc_width observe_oszapc8 packed_sub sub_cout_vec_borrow sub_cout_vec_word.
Qed.

Definition with_cf (c : bool) (st : status) : status :=
  mkStatus c (s_pf st) (s_af st) (s_zf st) (s_sf st) (s_of st).

(** [op] adds (resp. subtracts) one at width [w] and preserves CF. *)
Definition step_ok (w : Z) (sdm : Z -> Z -> Z -> bool -> status) (delta : Z)
    (op : Z -> Flags -> Z * Flags) : Prop :=
  forall v s, is_word 64 v ->
  let a := wrap w v in
  fst (op v s) = wrap w (a + delta)
  /\ observe (snd (op v s)) = with_cf (cf s) (sdm w a 1 false)
  /\ control (snd (op v s)) = control s.

Lemma pf_value_parity r : calc_pf_value (wrap 8 r) = even_parity r.
Proof.
  rewrite (proj1 (pf_tables_agree _ (wrap_word 8 r ltac:(lia)))).
  apply even_parity_ext. intros. bits_solve.
Qed.

Lemma low_nibble v : Z.land v 0xf = v mod 16.
Proof. change 15 with (Z.ones 4). rewrite Z.land_ones by lia. reflexivity. Qed.

Lemma wrap_idem w w' x : 0 <= w <= w' -> wrap w (wrap w' x) = wrap w x.
Proof.
  intros. apply (word_ext w); try (apply wrap_word; lia); [lia |]. intros. bits_solve.
Qed.

Lemma even_parity_wrap w x : 8 <= w -> even_parity (wrap w x) = even_parity x.
Proof. intros. apply even_parity_ext. intros. bits_solve. Qed.

Lemma sgn_one w : 2 <= w -> sgn w 1 = 1.
Proof.
  intros Hw. unfold sgn, wrap. rewrite testbit_1. split_ltb. apply Z.mod_small.
  pose proof (Z.pow_le_mono_r 2 2 w). change (2 ^ 2) with 4 in *. lia.
Qed.

(** The flags of an increment, in the form the code computes them. *)
Lemma sdm_inc w a :
  8 <= w -> is_word w a ->
  sdm_add w a 1 false =
  mkStatus (2 ^ w <=? a + 1) (even_parity (wrap w (a + 1))) (a mod 16 =? 15) (wrap w (a + 1) =? 0)
           (sgn w (wrap w (a + 1)) <? 0) (a =? 2 ^ (w - 1) - 1).
Proof.
  intros Hw Ha. unfold sdm_add. cbn [Z.b2z]. rewrite Z.add_0_r, sgn_one, Z.add_0_r by lia.
  pose proof (Z.mod_pos_bound a 16). change (1 mod 16) with 1. f_equal.
  - split_ltb; reflexivity || lia.
  - destruct (word_top w a ltac:(lia) Ha) as (h & t & Ea & -> & _ & _ & ?). rewrite Ea.
    unfold signed_overflow. pose proof (Z.pow_le_mono_r 2 7 (w - 1)). change (2 ^ 7) with 128 in *.
    destruct h; cbn [Z.b2z]; split_ltb; reflexivity || lia.
Qed.

Lemma sdm_dec w a :
  8 <= w -> is_word w a ->
  sdm_sub w a 1 false =
  mkStatus (a <? 1) (even_parity (wrap w (a - 1))) (a mod 16 =? 0) (wrap w (a - 1) =? 0)
           (sgn w (wrap w (a - 1)) <? 0) (a =? 2 ^ (w - 1)).
Proof.
  intros Hw Ha. unfold sdm_sub. cbn [Z.b2z]. rewrite Z.add_0_r, Z.sub_0_r, sgn_one, Z.sub_0_r by lia.
  pose proof (Z.mod_pos_bound a 16). change (1 mod 16) with 1. f_equal.
  - split_ltb; reflexivity || lia.
  - destruct (word_top w a ltac:(lia) Ha) as (h & t & Ea & -> & _ & _ & ?). rewrite Ea.
    unfold signed_overflow. pose proof (Z.pow_le_mono_r 2 7 (w - 1)). change (2 ^ 7) with 128 in *.
    destruct h; cbn [Z.b2z]; split_ltb; reflexivity || lia.
Qed.

Lemma land_wrap w x m : 0 <= w -> m = Z.ones w -> Z.land x m = wrap w x.
Proof. intros ? ->. apply Z.land_ones. lia. Qed.

Lemma land32 x : Z.land x 0xffffffff = wrap 32 x.
Proof. apply (land_wrap 32); [lia | reflexivity]. Qed.

Ltac step_width sdm_l :=
  intros v s Hv; cbn [fst snd];
  rewrite ?(land_wrap 32 _ 0xffffffff), ?(land_wrap 16 _ 0xffff), ?(land_wrap 8 _ 0xff),
    ?(wrap_small 64 v) by (auto; lia || reflexivity);
  rewrite ?wrap_idem by lia;
  repeat split;
  rewrite materialized_fields by reflexivity; flags_cbn;
  rewrite sdm_l by (auto using wrap_word with lia); unfold with_cf; flags_cbn;
  rewrite pf_value_parity, low_nibble, ?even_parity_wrap by lia; reflexivity.

(** The four increments return the successor modulo the width with the PF, AF,
    ZF, SF and OF of an addition of one, and keep CF, as the x86 manual defines for
    INC. *)
Lemma inc_all :
  step_ok 64 sdm_add 1 inc64 /\ step_ok 32 sdm_add 1 inc32 /\
  step_ok 16 sdm_add 1 inc16 /\ step_ok 8 sdm_add 1 inc8.
Proof.
  unfold inc64, inc32, inc16, inc8. repeat split_and; step_width sdm_inc.
Qed.

(** The four decrements return the predecessor modulo the width with the PF,
    AF, ZF, SF and OF of a subtraction of one, and keep CF, as the x86 manual
    defines for DEC. *)
Lemma dec_all :
  step_ok 64 sdm_sub (-1) dec64 /\ step_ok 32 sdm_sub (-1) dec32 /\
  step_ok 16 sdm_sub (-1) dec16 /\ step_ok 8 sdm_sub (-1) dec8.
Proof.
  unfold dec64, dec32, dec16, dec8. repeat split_and; step_width sdm_dec.
Qed.

(** ** Negation and multiplication *)

Definition with_pf (p : bool) (st : status) : status :=
  mkStatus (s_cf st) p (s_af st) (s_zf st) (s_sf st) (s_of st).

Lemma observe_calc_pf v s :
  observe (calc_pf v s) = with_pf (calc_pf_value v) (observe s)
  /\ control (calc_pf v s) = control s.
Proof.
  destruct (materialize_transparent s) as [[Ho Hc] [Hk _]]. split; [|exact Hc].
  rewrite <- Ho, (materialized_fields (materialize_lazy s)) by exact Hk.
  unfold calc_pf. rewrite materialized_fields by exact Hk. reflexivity.
Qed.

(** [op] negates a [w]-bit value; like every operation that goes through
    [calc_flags] it clears the trap flag. *)
Definition neg_ok (w : Z) (op : Z -> Flags -> Z * Flags) : Prop :=
  forall v s, is_word w v ->
  fst (op v s) = wrap w (0 - v)
  /\ observe (snd (op v s)) = sdm_sub w 0 v false
  /\ control (snd (op v s)) = control (set_f_tf false s).

(** The sign tests of [negW]: every value but the minimum is negated in [iW]. *)
Lemma neg_result w v :
  0 < w ->
  wrap w (if negb (sgn w v =? - 2 ^ (w - 1)) then - sgn w v else sgn w v) = wrap w (0 - v).
Proof.
  intros Hw. assert (wrap w (- sgn w v) = wrap w (0 - v)) as E.
  { unfold wrap. rewrite <- (Z.sub_0_l (sgn w v)), Zminus_mod, (Zminus_mod 0 v).
    pose proof (wrap_sgn w v ltac:(lia)) as E. unfold wrap in E. now rewrite E. }
  destruct (Z.eqb_spec (sgn w v) (- 2 ^ (w - 1))) as [H|H]; cbn [negb]; [|exact E].
  rewrite <- E, H. unfold wrap.
  pose proof (pow2_half w Hw).
  rewrite <- (Z_mod_plus_full (- 2 ^ (w - 1)) 1 (2 ^ w)). f_equal. lia.
Qed.

Lemma sdm_neg w v :
  8 <= w -> is_word w v ->
  sdm_sub w 0 v false =
  mkStatus (negb (v =? 0)) (even_parity (wrap w (0 - v))) (negb (v mod 16 =? 0))
    (wrap w (0 - v) =? 0) (Z.testbit (wrap w (0 - v)) (w - 1)) (v =? 2 ^ (w - 1)).
Proof.
  intros Hw Hv. unfold sdm_sub. cbn [Z.b2z]. rewrite !Z.add_0_r, !Z.sub_0_r.
  pose proof (Z.mod_pos_bound v 16). change (0 mod 16) with 0. unfold is_word in Hv. f_equal.
  - split_ltb; reflexivity || lia.
  - split_ltb; reflexivity || lia.
  - apply sgn_neg. lia.
  - assert (sgn w 0 = 0) as -> by (unfold sgn; rewrite Z.bits_0; apply Z.mod_0_l; lia).
    destruct (word_top w v ltac:(lia) Hv) as (h & t & Ea & -> & _ & _ & ?). rewrite Ea.
    unfold signed_overflow. pose proof (Z.pow_le_mono_r 2 7 (w - 1)). change (2 ^ 7) with 128 in *.
    destruct h; cbn [Z.b2z]; split_ltb; reflexivity || lia.
Qed.

Ltac neg_width w :=
  intros v s Hv; cbn [fst snd];
  let E := fresh in let k := eval compute in (w - 1) in
  pose proof (neg_result w v ltac:(lia)) as E; change (w - 1) with k in E; rewrite E;
  split; [reflexivity | split];
  [ rewrite (proj1 (observe_calc_pf _ _)), (observe_calc_flags w)
      by (auto using wrap_word with lia; unfold width; lia);
    rewrite sdm_neg by (auto; lia); unfold with_pf; flags_cbn;
    rewrite pf_value_parity, low_nibble;
    rewrite ?(land_wrap 32 _ 0xffffffff), ?(land_wrap 16 _ 0xffff), ?(land_wrap 8 _ 0xff),
      ?(wrap_small w v) by (auto; lia || reflexivity); reflexivity
  | rewrite (proj2 (observe_calc_pf _ _)); reflexivity ].

(** The four negations return the two's complement of the operand with the
    status flags of a subtraction from zero, and clear TF. *)
Lemma neg_all : neg_ok 64 neg64 /\ neg_ok 32 neg32 /\ neg_ok 16 neg16 /\ neg_ok 8 neg8.
Proof.
  unfold neg64, neg32, neg16, neg8.
  repeat split_and; [neg_width 64 | neg_width 32 | neg_width 16 | neg_width 8].
Qed.

(** [op] is the truncating signed product; CF and OF tell whether the exact
    product fits, the other flags keep their values. *)
Definition imul_ok (w : Z) (op : Z -> Z -> Flags -> Z * Flags) : Prop :=
  forall v0 v1 s,
  let exact := sgn w v0 * sgn w v1 in
  let ov := signed_overflow w exact in
  fst (op v0 v1 s) = wrap w exact
  /\ observe (snd (op v0 v1 s)) = mkStatus ov (pf s) (af s) (zf s) (sf s) ov
  /\ control (snd (op v0 v1 s)) = control s.

Lemma imul_full w v0 v1 :
  0 < w -> sgn (2 * w) (sgn w v0 * sgn w v1) = sgn w v0 * sgn w v1.
Proof.
  intros Hw. apply sgn_small; [lia |].
  pose proof (sgn_word w v0 Hw). pose proof (sgn_word w v1 Hw).
  assert (2 ^ (2 * w - 1) = 2 * (2 ^ (w - 1) * 2 ^ (w - 1))) as ->
    by (rewrite <- Z.pow_add_r, <- Z.pow_succ_r by lia; f_equal; lia). nia.
Qed.

Lemma fits_signed w x : 0 < w -> negb (x =? sgn w x) = signed_overflow w x.
Proof.
  intros Hw. unfold signed_overflow. f_equal. pose proof (sgn_word w x Hw).
  destruct (Z.eqb_spec x (sgn w x)); split_ltb; try reflexivity; try lia.
  rewrite sgn_small in * by lia. lia.
Qed.

Ltac imul_width w :=
  intros v0 v1 s; cbn [fst snd];
  rewrite (imul_full w) by lia; rewrite fits_signed, wrap_sgn by lia; repeat split.

(** The four two-operand multiplications return the low half of the signed
    product and set CF and OF exactly when the product does not fit the width,
    leaving the other flags alone. *)
Lemma imul_all :
  imul_ok 64 imul64p2 /\ imul_ok 32 imul32p2 /\ imul_ok 16 imul16p2 /\ imul_ok 8 imul8p2.
Proof.
  unfold imul64p2, imul32p2, imul16p2, imul8p2.
  repeat split_and; [imul_width 64 | imul_width 32 | imul_width 16 | imul_width 8].
Qed.
