(* ===== verification/FlagsShift.v ===== *)
(** * Shifts and rotates ([arch/x86/flags.rs], [sal2p64] .. [shld])

    The count is masked to 5 bits (6 for 64-bit operands) as the processor
    does; a masked count of zero leaves every flag alone.  Results are
    specified arithmetically for the shifts and bit by bit for the rotates. *)

From S2P Require Import Prelude Flags FlagsArith.

(** ** Operations *)

(** [Flags::sar2p64] *)
Definition sar2p64 (value0 value1 : Z) (s : Flags) : Z * Flags :=
  let s64 := sgn 64 value0 in
  let count := wrap 32 (Z.land value1 0x3f) in
  if count =? 0 then (value0, s) else
  let s_result := if count <? 64 then Z.shiftr s64 count else if s64 <? 0 then -1 else 0 in
  let result := wrap 64 s_result in
  let s := set_f_cf (if count <=? 64 then Z.land (Z.shiftr value0 (count - 1)) 0x1 =? 1 else false) s in
  let s := set_f_of false s in
  (result, calc_flags result 64 s).

(** [Flags::sar2p32] *)
Definition sar2p32 (value0 value1 : Z) (s : Flags) : Z * Flags :=
  let s32 := sgn 32 (wrap 32 value0) in
  let count := wrap 32 (Z.land value1 0x1f) in
  if count =? 0 then (value0, s) else
  let s_result := if count <? 32 then Z.shiftr s32 count else if s32 <? 0 then -1 else 0 in
  let result := wrap 32 s_result in
  let s := set_f_cf (if count <=? 32 then Z.land (Z.shiftr value0 (count - 1)) 0x1 =? 1 else false) s in
  let s := set_f_of false s in
  (result, calc_flags result 32 s).

(** [Flags::sar2p16] *)
Definition sar2p16 (value0 value1 : Z) (s : Flags) : Z * Flags :=
  let s16 := sgn 16 (wrap 16 value0) in
  let count := wrap 32 (Z.land value1 0x1f) in
  if count =? 0 then (value0, s) else
  let s_result := if count <? 16 then Z.shiftr s16 count else if s16 <? 0 then -1 else 0 in
  let result := wrap 16 s_result in
  let s := set_f_cf (if count <? 16 then Z.land (Z.shiftr value0 (count - 1)) 0x1 =? 1
                     else Z.land (Z.shiftr value0 15) 0x1 =? 1) s in
  let s := set_f_of false s in
  (result, calc_flags result 16 s).

(** [Flags::sar2p8] *)
Definition sar2p8 (value0 value1 : Z) (s : Flags) : Z * Flags :=
  let s8 := sgn 8 (wrap 8 value0) in
  let count := wrap 32 (Z.land value1 0x1f) in
  if count =? 0 then (value0, s) else
  let s_result := if count <? 8 then Z.shiftr s8 count else if s8 <? 0 then -1 else 0 in
  let result := wrap 8 s_result in
  let s := set_f_cf (if count <? 8 then Z.land (Z.shiftr value0 (count - 1)) 0x1 =? 1
                     else Z.land (Z.shiftr value0 7) 0x1 =? 1) s in
  let s := set_f_of false s in
  (result, calc_flags result 8 s).

(** [Flags::shl2p8] *)
Definition shl2p8 (value0 value1 : Z) (s : Flags) : Z * Flags :=
  let count := wrap 32 (Z.land value1 0x1f) in
  if count =? 0 then (Z.land value0 0xff, s) else
  let result := Z.land (shl 64 value0 count) 0xff in
  let s := set_f_cf (if count <=? 8 then Z.land (Z.shiftr value0 (8 - count)) 0x1 =? 0x1 else false) s in
  let s := set_f_of (if count =? 1
                     then negb (Z.land (Z.shiftr result 7) 0x1 =? Z.land (Z.shiftr value0 7) 0x1)
                     else false) s in
  (result, calc_flags result 8 s).

(** [Flags::shl2p16] *)
Definition shl2p16 (value0 value1 : Z) (s : Flags) : Z * Flags :=
  let count := wrap 32 (Z.land value1 0x1f) in
  if count =? 0 then (Z.land value0 0xffff, s) else
  let result := Z.land (shl 64 value0 count) 0xffff in
  let s := set_f_cf (if count <=? 16 then Z.land (Z.shiftr value0 (16 - count)) 0x1 =? 0x1 else false) s in
  let s := set_f_of (if count =? 1
                     then negb (Z.land (Z.shiftr result 15) 0x1 =? Z.land (Z.shiftr value0 15) 0x1)
                     else false) s in
  (result, calc_flags result 16 s).

(** [Flags::shl2p32] *)
Definition shl2p32 (value0 value1 : Z) (s : Flags) : Z * Flags :=
  let count := wrap 32 (Z.land value1 0x1f) in
  if count =? 0 then (Z.land value0 0xffffffff, s) else
  let result := Z.land (shl 64 value0 count) 0xffffffff in
  let s := set_f_cf (if count <=? 32 then Z.land (Z.shiftr value0 (32 - count)) 0x1 =? 0x1 else false) s in
  let s := set_f_of (if count =? 1
                     then negb (Z.land (Z.shiftr result 31) 0x1 =? Z.land (Z.shiftr value0 31) 0x1)
                     else false) s in
  (result, calc_flags result 32 s).

(** [Flags::shl2p64] *)
Definition shl2p64 (value0 value1 : Z) (s : Flags) : Z * Flags :=
  let count := wrap 32 (Z.land value1 0x3f) in
  if count =? 0 then (value0, s) else
  let result := shl 64 value0 count in
  let s := set_f_cf (if count <=? 64 then Z.land (Z.shiftr value0 (64 - count)) 0x1 =? 0x1 else false) s in
  let s := set_f_of (if count =? 1
                     then negb (Z.land (Z.shiftr result 63) 0x1 =? Z.land (Z.shiftr value0 63) 0x1)
                     else false) s in
  (result, calc_flags result 64 s).

(** [Flags::shr2p8] *)
Definition shr2p8 (value0 value1 : Z) (s : Flags) : Z * Flags :=
  let count := wrap 32 (Z.land value1 0x1f) in
  if count =? 0 then (Z.land value0 0xff, s) else
  let result := Z.land (Z.shiftr value0 count) 0xff in
  let s := set_f_cf (if count <=? 8 then Z.land (Z.shiftr value0 (count - 1)) 0x1 =? 1 else false) s in
  let s := set_f_of (if count =? 1 then Z.land (Z.shiftr value0 7) 1 =? 1 else false) s in
  (result, calc_flags result 8 s).

(** [Flags::shr2p16] *)
Definition shr2p16 (value0 value1 : Z) (s : Flags) : Z * Flags :=
  let count := wrap 32 (Z.land value1 0x1f) in
  if count =? 0 then (Z.land value0 0xffff, s) else
  let result := Z.land (Z.shiftr value0 count) 0xffff in
  let s := set_f_cf (if count <=? 16 then Z.land (Z.shiftr value0 (count - 1)) 0x1 =? 1 else false) s in
  let s := set_f_of (if count =? 1 then Z.land (Z.shiftr value0 15) 1 =? 1 else false) s in
  (result, calc_flags result 16 s).

(** [Flags::shr2p32] *)
Definition shr2p32 (value0 value1 : Z) (s : Flags) : Z * Flags :=
  let count := wrap 32 (Z.land value1 0x1f) in
  if count =? 0 then (Z.land value0 0xffffffff, s) else
  let result := Z.land (Z.shiftr value0 count) 0xffffffff in
  let s := set_f_cf (if count <=? 32 then Z.land (Z.shiftr value0 (count - 1)) 0x1 =? 1 else false) s in
  let s := set_f_of (if count =? 1 then Z.land (Z.shiftr value0 31) 1 =? 1 else false) s in
  (result, calc_flags result 32 s).

(** [Flags::shr2p64] *)
Definition shr2p64 (value0 value1 : Z) (s : Flags) : Z * Flags :=
  let count := wrap 32 (Z.land value1 0x3f) in
  if count =? 0 then (value0, s) else
  let result := Z.shiftr value0 count in
  let s := set_f_cf (if count <=? 64 then Z.land (Z.shiftr value0 (count - 1)) 0x1 =? 1 else false) s in
  let s := set_f_of (if count =? 1 then Z.land (Z.shiftr value0 63) 1 =? 1 else false) s in
  (result, calc_flags result 64 s).

(** [Flags::sal2p64] .. [sal2p8], and the one-operand forms: a count of one. *)
Definition sal2p64 (value0 value1 : Z) (s : Flags) : Z * Flags := shl2p64 value0 value1 s.
Definition sal2p32 (value0 value1 : Z) (s : Flags) : Z * Flags := shl2p32 value0 value1 s.
Definition sal2p16 (value0 value1 : Z) (s : Flags) : Z * Flags := shl2p16 value0 value1 s.
Definition sal2p8 (value0 value1 : Z) (s : Flags) : Z * Flags := shl2p8 value0 value1 s.
Definition sar1p64 (value : Z) (s : Flags) : Z * Flags := sar2p64 value 1 s.
Definition sar1p32 (value : Z) (s : Flags) : Z * Flags := sar2p32 value 1 s.
Definition sar1p16 (value : Z) (s : Flags) : Z * Flags := sar2p16 value 1 s.
Definition sar1p8 (value : Z) (s : Flags) : Z * Flags := sar2p8 value 1 s.
Definition shl1p64 (value : Z) (s : Flags) : Z * Flags := shl2p64 value 1 s.
Definition shl1p32 (value : Z) (s : Flags) : Z * Flags := shl2p32 value 1 s.
Definition shl1p16 (value : Z) (s : Flags) : Z * Flags := shl2p16 value 1 s.
Definition shl1p8 (value : Z) (s : Flags) : Z * Flags := shl2p8 value 1 s.
Definition shr1p64 (value : Z) (s : Flags) : Z * Flags := shr2p64 value 1 s.
Definition shr1p32 (value : Z) (s : Flags) : Z * Flags := shr2p32 value 1 s.
Definition shr1p16 (value : Z) (s : Flags) : Z * Flags := shr2p16 value 1 s.
Definition shr1p8 (value : Z) (s : Flags) : Z * Flags := shr2p8 value 1 s.
Definition sal1p64 (value : Z) (s : Flags) : Z * Flags := shl1p64 value s.
Definition sal1p32 (value : Z) (s : Flags) : Z * Flags := shl1p32 value s.
Definition sal1p16 (value : Z) (s : Flags) : Z * Flags := shl1p16 value s.
Definition sal1p8 (value : Z) (s : Flags) : Z * Flags := shl1p8 value s.

(** [match sz { 64 => .., 32 => .., 16 => .., _ => 0xff }] *)
Definition res_mask (sz : Z) : Z :=
  if sz =? 64 then 0xffffffffffffffff
  else if sz =? 32 then 0xffffffff
  else if sz =? 16 then 0xffff
  else 0xff.

(** [if sz == 64 { 0x3f } else { 0x1f }] *)
Definition count_mask (sz : Z) : Z := if sz =? 64 then 0x3f else 0x1f.

(** [if sz == 64 { u64::MAX } else { (1u64 << sz) - 1 }] *)
Definition rc_pow (sz : Z) : Z := if sz =? 64 then 2 ^ 64 - 1 else shl 64 1 sz - 1.

(** [Flags::rcr] *)
Definition rcr (value0 value1 sz : Z) (s : Flags) : Z * Flags :=
  let mask := count_mask sz in
  let count := Z.land value1 mask in
  let pow := rc_pow sz in
  let count := count mod (sz + 1) in
  let res :=
    if count =? 0 then Z.land value0 pow
    else if count =? 1 then
      Z.land (Z.lor (Z.shiftr value0 1) (shl 64 (Z.b2z (f_cf s)) (sz - 1))) pow
    else
      Z.land (Z.lor (Z.lor (Z.shiftr value0 count) (shl 64 (Z.b2z (f_cf s)) (sz - count)))
                    (shl 64 value0 (sz + 1 - count))) pow in
  let s := if negb (count =? 0)
           then set_f_cf (negb (Z.land (Z.shiftr value0 (count - 1)) 1 =? 0)) s else s in
  let s := if count =? 1
           then set_f_of (negb (Z.land (Z.shiftr (Z.lxor res (shl 64 res 1)) (sz - 1)) 1 =? 0)) s
           else s in
  (res, s).

(** [Flags::rcl]: the 64-bit case computes in [u128]. *)
Definition rcl (value0 value1 sz : Z) (s : Flags) : Z * Flags :=
  let mask := count_mask sz in
  let count := Z.land value1 mask mod (sz + 1) in
  if count =? 0 then (Z.land value0 (rc_pow sz), s) else
  if sz =? 64 then
    let pow128 := 2 ^ 64 - 1 in
    let extended := Z.lor (shl 128 (Z.land value0 pow128) 1) (Z.b2z (f_cf s)) in
    let rotated := Z.land (Z.lor (shl 128 extended count) (Z.shiftr extended (65 - count)))
                          (shl 128 1 65 - 1) in
    let res := Z.land (Z.shiftr rotated 1) pow128 in
    let s := set_f_cf (negb (Z.land rotated 1 =? 0)) s in
    let s := if count =? 1
             then set_f_of (xorb (f_cf s) (negb (Z.land (Z.shiftr res 63) 1 =? 0))) s else s in
    (wrap 64 res, s)
  else
    let pow := shl 64 1 sz - 1 in
    let extended := Z.lor (shl 64 (Z.land value0 pow) 1) (Z.b2z (f_cf s)) in
    let rotated := Z.land (Z.lor (shl 64 extended count) (Z.shiftr extended (sz + 1 - count)))
                          (shl 64 1 (sz + 1) - 1) in
    let res := Z.land (Z.shiftr rotated 1) pow in
    let s := set_f_cf (negb (Z.land rotated 1 =? 0)) s in
    let s := if count =? 1
             then set_f_of (xorb (f_cf s) (negb (Z.land (Z.shiftr res (sz - 1)) 1 =? 0))) s else s in
    (res, s).

(** [Flags::ror] *)
Definition ror (value0 value1 sz : Z) (s : Flags) : Z * Flags :=
  let mask := count_mask sz in
  let count := Z.land value1 mask in
  if count =? 0 then (Z.land value0 (res_mask sz), s) else
  let shift := count mod sz in
  let res := Z.land (Z.lor (Z.shiftr value0 shift) (shl 64 value0 (sz - shift))) (res_mask sz) in
  let s := set_f_cf (Z.land (Z.shiftr res (sz - 1)) 1 =? 1) s in
  let s := set_f_of (if shift =? 1
                     then Z.lxor (Z.land (Z.shiftr res (sz - 1)) 1) (Z.land (Z.shiftr res (sz - 2)) 1) =? 1
                     else false) s in
  (res, s).

(** [Flags::rol]: an unsupported size returns 0 and leaves the flags. *)
Definition rol (value0 value1 sz : Z) (s : Flags) : Z * Flags :=
  let mask := count_mask sz in
  if negb ((sz =? 64) || (sz =? 32) || (sz =? 16) || (sz =? 8)) then (0, s) else
  let value0 := Z.land value0 (res_mask sz) in
  let masked := Z.land value1 mask in
  let rot := masked mod sz in
  let res := if rot =? 0 then value0
             else Z.land (Z.lor (shl 64 value0 rot) (Z.shiftr value0 (sz - rot))) (res_mask sz) in
  let s :=
    if negb (masked =? 0) then
      let s := set_f_cf (Z.land res 0x1 =? 1) s in
      if masked =? 1
      then set_f_of (Z.lxor (Z.land (Z.shiftr res (sz - 1)) 0x1) (Z.land res 0x1) =? 1) s
      else s
    else s in
  (res, s).

(** [Flags::shrd] *)
Definition shrd (value0 value1 count sz : Z) (s : Flags) : Z * Flags :=
  let count := Z.min (Z.land count (count_mask sz)) sz in
  if count =? 0 then (Z.land value0 (res_mask sz), s) else
  let res := Z.land (Z.lor (Z.shiftr value0 count) (shl 64 value1 (sz - count))) (res_mask sz) in
  let s := set_f_cf (Z.land (Z.shiftr value0 (count - 1)) 1 =? 1) s in
  let s := set_f_of (if count =? 1
                     then negb (Z.land (Z.shiftr value0 (sz - 1)) 1 =? Z.land (Z.shiftr res (sz - 1)) 1)
                     else false) s in
  (res, calc_flags res sz s).

(** [Flags::shld] *)
Definition shld (value0 value1 count sz : Z) (s : Flags) : Z * Flags :=
  let count := Z.min (Z.land count (count_mask sz)) sz in
  if count =? 0 then (Z.land value0 (res_mask sz), s) else
  let res := Z.land (Z.lor (Z.shiftr value1 (sz - count)) (shl 64 value0 count)) (res_mask sz) in
  let s := set_f_cf (Z.land (Z.shiftr value0 (sz - count)) 1 =? 1) s in
  let s := set_f_of (if count =? 1
                     then negb (Z.land (Z.shiftr res (sz - 1)) 1 =? Z.b2z (f_cf s))
                     else false) s in
  (res, calc_flags res sz s).

(** ** Specification of the shifts *)

(** The number of positions a shift of [w]-bit operands by [n] really moves. *)
Definition shift_count (w n : Z) : Z := n mod (if w =? 64 then 64 else 32).

(** [op] shifts a [w]-bit value: [res] is the result, [cfo] the last bit moved
    out, [ofo] the overflow flag.  AF is architecturally undefined; the code
    leaves the stored field. *)
Definition shift_ok (w : Z) (res : Z -> Z -> Z) (cfo ofo : Z -> Z -> bool)
    (op : Z -> Z -> Flags -> Z * Flags) : Prop :=
  forall v n s, is_word w v -> is_word 64 n ->
  let c := shift_count w n in
  if c =? 0 then op v n s = (v, s)
  else
    let r := res v c in
    fst (op v n s) = r
    /\ observe (snd (op v n s))
       = mkStatus (cfo v c) (even_parity r) (f_af s) (r =? 0) (Z.testbit r (w - 1)) (ofo v c)
    /\ control (snd (op v n s)) = control (set_f_tf false s).

Definition shl_ok (w : Z) : (Z -> Z -> Flags -> Z * Flags) -> Prop :=
  shift_ok w (fun v c => wrap w (v * 2 ^ c)) (fun v c => Z.testbit (v * 2 ^ c) w)
    (fun v c => (c =? 1) && signed_overflow w (2 * sgn w v)).

Definition shr_ok (w : Z) : (Z -> Z -> Flags -> Z * Flags) -> Prop :=
  shift_ok w (fun v c => v / 2 ^ c) (fun v c => Z.testbit v (c - 1))
    (fun v c => (c =? 1) && Z.testbit v (w - 1)).

Definition sar_ok (w : Z) : (Z -> Z -> Flags -> Z * Flags) -> Prop :=
  shift_ok w (fun v c => wrap w (sgn w v / 2 ^ c)) (fun v c => Z.testbit (sgn w v) (c - 1))
    (fun _ _ => false).

(** ** Shift proofs *)

Lemma count32 n : wrap 32 (Z.land n 0x1f) = n mod 32.
Proof.
  change 31 with (Z.ones 5). rewrite Z.land_ones by lia. change (2 ^ 5) with 32.
  pose proof (Z.mod_pos_bound n 32). apply wrap_small. unfold is_word. lia.
Qed.

Lemma count64 n : wrap 32 (Z.land n 0x3f) = n mod 64.
Proof.
  change 63 with (Z.ones 6). rewrite Z.land_ones by lia. change (2 ^ 6) with 64.
  pose proof (Z.mod_pos_bound n 64). apply wrap_small. unfold is_word. lia.
Qed.

(** The flags every shift ends with. *)
Lemma shift_flags w r c o s :
  width w -> is_word w r ->
  observe (calc_flags r w (set_f_of o (set_f_cf c s)))
  = mkStatus c (even_parity r) (f_af s) (r =? 0) (Z.testbit r (w - 1)) o
  /\ control (calc_flags r w (set_f_of o (set_f_cf c s))) = control (set_f_tf false s).
Proof. intros Hw Hr. rewrite observe_calc_flags by auto. split; reflexivity. Qed.

Lemma shl_result w v c :
  0 <= c < 64 -> width w -> is_word w v ->
  wrap w (shl 64 v c) = wrap w (v * 2 ^ c).
Proof.
  intros Hc Hw Hv. rewrite <- Z.shiftl_mul_pow2 by lia. unfold shl.
  apply wrap_idem. unfold width in Hw. lia.
Qed.

Lemma shl_cf w v c :
  0 < c -> width w ->
  (if c <=? w then Z.land (Z.shiftr v (w - c)) 1 =? 1 else false) = Z.testbit (v * 2 ^ c) w.
Proof.
  intros Hc Hw. rewrite <- Z.shiftl_mul_pow2, Z.shiftl_spec by (unfold width in Hw; lia).
  destruct (Z.leb_spec c w); [apply shr_bit; lia | now rewrite Z.testbit_neg_r by lia].
Qed.

Lemma land1_eqb x y n :
  0 <= n ->
  negb (Z.land (Z.shiftr x n) 1 =? Z.land (Z.shiftr y n) 1) = xorb (Z.testbit x n) (Z.testbit y n).
Proof.
  intros Hn. rewrite <- (shr_bit x n), <- (shr_bit y n) by lia.
  change 1 with (Z.ones 1). rewrite !Z.land_ones by lia. change (2 ^ 1) with 2.
  pose proof (Z.mod_pos_bound (Z.shiftr x n) 2). pose proof (Z.mod_pos_bound (Z.shiftr y n) 2).
  change (Z.ones 1) with 1. split_ltb; reflexivity || lia.
Qed.

Lemma shl_of w v :
  2 <= w -> is_word w v ->
  xorb (Z.testbit (wrap w (v * 2 ^ 1)) (w - 1)) (Z.testbit v (w - 1)) = signed_overflow w (2 * sgn w v).
Proof.
  intros Hw Hv. rewrite testbit_wrap, <- Z.shiftl_mul_pow2, Z.shiftl_spec by lia. split_ltb.
  replace (w - 1 - 1) with (w - 2) by lia.
  pose proof (add_overflow w v v false ltac:(lia) Hv Hv) as E.
  replace (sgn w v + sgn w v + Z.b2z false) with (2 * sgn w v) in E by (simpl; lia).
  rewrite <- E. pose proof (carry_succ v v false (w - 1) ltac:(lia)) as Cw.
  replace (w - 1 + 1) with w in Cw by lia. rewrite Cw.
  replace (carry v v false (w - 1)) with (Z.testbit v (w - 2)); [btauto |].
  pose proof (carry_succ v v false (w - 2) ltac:(lia)) as C.
  replace (w - 2 + 1) with (w - 1) in C by lia. rewrite C. unfold carry. pose proof (Z.mod_pos_bound v (2 ^ (w - 2))). simpl.
  destruct (Z.testbit v (w - 2)); btauto.
Qed.

Lemma shr_result w v c : 0 <= c -> 0 <= w -> is_word w v -> is_word w (v / 2 ^ c).
Proof. intros. rewrite <- Z.shiftr_div_pow2 by lia. auto using word_shiftr. Qed.

Lemma shr_cf w v c :
  0 < c -> width w -> is_word w v ->
  (if c <=? w then Z.land (Z.shiftr v (c - 1)) 1 =? 1 else false) = Z.testbit v (c - 1).
Proof.
  intros Hc Hw Hv. unfold width in Hw.
  destruct (Z.leb_spec c w); [apply shr_bit; lia | symmetry; apply (word_high w); auto; lia].
Qed.

(** Name the masked count and split on its being zero. *)
Ltac shift_start :=
  intros v n s Hv Hn; unfold shift_count; cbn [Z.eqb Pos.eqb];
  rewrite ?count32, ?count64;
  match goal with |- context [n mod ?m] =>
    pose proof (Z.mod_pos_bound n m ltac:(lia)); set (c := n mod m) in *;
    destruct (Z.eqb_spec c 0);
    [ rewrite ?(land_wrap 32 _ 0xffffffff), ?(land_wrap 16 _ 0xffff), ?(land_wrap 8 _ 0xff) by (lia || reflexivity);
      rewrite ?wrap_small by auto; reflexivity
    | cbn [fst snd] ]
  end.

Ltac shl_width w :=
  shift_start;
  rewrite ?(land_wrap 32 _ 0xffffffff), ?(land_wrap 16 _ 0xffff), ?(land_wrap 8 _ 0xff) by (lia || reflexivity);
  rewrite (shl_cf w) by (unfold width; lia);
  rewrite land1_eqb by lia;
  first [ rewrite (shl_result w) by (auto; unfold width; lia)
        | unfold shl; rewrite Z.shiftl_mul_pow2 by lia ];
  assert (width w) by (unfold width; lia);
  split; [reflexivity |];
  lazymatch goal with
  c := _ |- observe (calc_flags _ _ (set_f_of ?o (set_f_cf (Z.testbit (?v * _) _) _))) = _ /\ _ =>
    replace o with ((c =? 1) && signed_overflow w (2 * sgn w v));
    [ apply shift_flags; auto using wrap_word with lia
    | destruct (Z.eqb_spec c 1) as [Hc |]; [rewrite Hc; symmetry; apply (shl_of w); auto; lia | reflexivity] ]
  end.

(** shl2p64, shl2p32, shl2p16 and shl2p8 mask the count, return the shifted
    value and leave the last bit shifted out in CF, the overflow of a one-bit SHL in
    OF (clear for longer shifts) and the PF, ZF and SF of the result; the stored AF
    is kept and TF is cleared; a masked count of zero changes neither the value nor
    any flag. *)
Lemma shl_all :
  shl_ok 64 shl2p64 /\ shl_ok 32 shl2p32 /\ shl_ok 16 shl2p16 /\ shl_ok 8 shl2p8.
Proof.
  unfold shl2p64, shl2p32, shl2p16, shl2p8.
  repeat split_and; [shl_width 64 | shl_width 32 | shl_width 16 | shl_width 8].
Qed.

Ltac shr_width w :=
  shift_start;
  rewrite (shr_cf w) by (auto; unfold width; lia);
  rewrite ?(land_wrap 32 _ 0xffffffff), ?(land_wrap 16 _ 0xffff), ?(land_wrap 8 _ 0xff) by (lia || reflexivity);
  rewrite Z.shiftr_div_pow2 by lia;
  rewrite ?(wrap_small w) by (apply shr_result; auto; lia);
  rewrite shr_bit by lia;
  assert (width w) by (unfold width; lia);
  split; [reflexivity |];
  lazymatch goal with
  | |- context [if ?b then ?x else false] => replace (if b then x else false) with (b && x) by (now destruct b)
  end;
  apply shift_flags; auto using shr_result with lia.

(** shr2p64, shr2p32, shr2p16 and shr2p8 mask the count, return the logically
    shifted value and leave the last bit shifted out in CF, the overflow of a
    one-bit SHR in OF (clear for longer shifts) and the PF, ZF and SF of the result;
    the stored AF is kept and TF is cleared; a masked count of zero changes neither
    the value nor any flag. *)
Lemma shr_all :
  shr_ok 64 shr2p64 /\ shr_ok 32 shr2p32 /\ shr_ok 16 shr2p16 /\ shr_ok 8 shr2p8.
Proof.
  unfold shr2p64, shr2p32, shr2p16, shr2p8.
  repeat split_and; [shr_width 64 | shr_width 32 | shr_width 16 | shr_width 8].
Qed.

Lemma sar_result w v c :
  0 <= c -> 0 < w ->
  (if c <? w then Z.shiftr (sgn w v) c else if sgn w v <? 0 then -1 else 0) = sgn w v / 2 ^ c.
Proof.
  intros Hc Hw. destruct (Z.ltb_spec c w); [apply Z.shiftr_div_pow2; lia |].
  pose proof (sgn_word w v Hw). pose proof (Z.pow_le_mono_r 2 (w - 1) c).
  destruct (Z.ltb_spec (sgn w v) 0).
  - apply (Z.div_unique _ _ _ (sgn w v + 2 ^ c)); lia.
  - symmetry. apply Z.div_small. lia.
Qed.

Lemma sar_cf w v c :
  0 < c -> 0 < w ->
  (if c <? w then Z.land (Z.shiftr v (c - 1)) 1 =? 1 else Z.land (Z.shiftr v (w - 1)) 1 =? 1)
  = Z.testbit (sgn w v) (c - 1).
Proof.
  intros Hc Hw. rewrite !shr_bit, testbit_sgn by lia.
  split_ltb; f_equal; lia.
Qed.

Lemma sar_cf_small w v c :
  0 < c <= w ->
  (if c <=? w then Z.land (Z.shiftr v (c - 1)) 1 =? 1 else false) = Z.testbit (sgn w v) (c - 1).
Proof. intros Hc. rewrite shr_bit, testbit_sgn by lia. split_ltb. reflexivity. Qed.

Ltac sar_width w :=
  shift_start; rewrite ?sgn_wrap by lia;
  rewrite (sar_result w) by lia;
  first [ rewrite (sar_cf_small w) by lia
        | let E := fresh in let k := eval compute in (w - 1) in
          match goal with c := _, _ : is_word w ?v |- _ =>
            pose proof (sar_cf w v c ltac:(lia) ltac:(lia)) as E end;
          change (w - 1) with k in E; rewrite E ];
  split; [reflexivity |]; apply shift_flags; auto using wrap_word with lia; unfold width; lia.

(** sar2p64, sar2p32, sar2p16 and sar2p8 mask the count, return the
    arithmetically shifted value and leave the last bit shifted out in CF, the
    overflow of a one-bit SAR in OF (clear for longer shifts) and the PF, ZF and SF
    of the result; the stored AF is kept and TF is cleared; a masked count of zero
    changes neither the value nor any flag. *)
Lemma sar_all :
  sar_ok 64 sar2p64 /\ sar_ok 32 sar2p32 /\ sar_ok 16 sar2p16 /\ sar_ok 8 sar2p8.
Proof.
  unfold sar2p64, sar2p32, sar2p16, sar2p8.
  repeat split_and; [sar_width 64 | sar_width 32 | sar_width 16 | sar_width 8].
Qed.

(** ** Rotates *)

(** [r] is the [w]-bit word [v] rotated left by [k] positions ([k] may be
    negative: a rotation to the right). *)
Definition rotated (w v k r : Z) : Prop :=
  is_word w r /\ forall i, 0 <= i < w -> Z.testbit r i = Z.testbit v ((i - k) mod w).

Lemma rotated_trans w v k r k' r' :
  0 < w -> rotated w v k r -> rotated w r k' r' -> rotated w v (k + k') r'.
Proof.
  intros Hw [Hr Br] [Hr' Br']. split; [exact Hr' |]. intros i Hi.
  rewrite Br', Br by (try apply Z.mod_pos_bound; lia). f_equal.
  rewrite Zminus_mod_idemp_l. f_equal. lia.
Qed.

Lemma rotated_inverse w v k r v' :
  0 < w -> is_word w v -> rotated w v k r -> rotated w r (- k) v' -> v' = v.
Proof.
  intros Hw Hv [Hr Br] [Hv' Bv']. apply (word_ext w); auto; [lia |]. intros i Hi.
  rewrite Bv', Br by (try apply Z.mod_pos_bound; lia). f_equal.
  rewrite Zminus_mod_idemp_l. replace (i - - k - k) with i by lia. apply Z.mod_small. lia.
Qed.

Lemma res_mask_ones w : width w -> res_mask w = Z.ones w.
Proof. now intros [-> | [-> | [-> | ->]]]. Qed.

Lemma count_mask_spec w n : width w -> Z.land n (count_mask w) = shift_count w n.
Proof.
  intros [-> | [-> | [-> | ->]]]; unfold count_mask, shift_count; cbn [Z.eqb Pos.eqb];
    (change 31 with (Z.ones 5) || change 63 with (Z.ones 6)); apply Z.land_ones; lia.
Qed.

Lemma shift_count_range w n : width w -> 0 <= shift_count w n < 64.
Proof.
  intros Hw. unfold shift_count. destruct (w =? 64);
    [apply Z.mod_pos_bound; lia | pose proof (Z.mod_pos_bound n 32); lia].
Qed.

(** Bit indices of a rotation by less than the width. *)
Lemma rot_index w i k :
  0 < w -> 0 <= i < w -> 0 <= k <= w -> (i - k) mod w = if i <? k then i - k + w else i - k.
Proof.
  intros Hw Hi Hk. destruct (Z.ltb_spec i k).
  - destruct (Z.eq_dec (i - k + w) w); [lia |].
    rewrite <- (Z_mod_plus_full (i - k) 1). rewrite Z.mod_small; lia.
  - apply Z.mod_small. lia.
Qed.

(** The two halves of a left rotation by [k], as the code joins them. *)
Lemma rotl_join N w v k :
  0 < w <= N -> is_word w v -> 0 < k < w ->
  rotated w v k (Z.land (Z.lor (shl N v k) (Z.shiftr v (w - k))) (Z.ones w)).
Proof.
  intros Hw Hv Hk. split.
  - rewrite Z.land_comm. apply word_land; [|lia]. unfold is_word. rewrite Z.ones_equiv. lia.
  - intros i Hi. rewrite rot_index by lia. bits_simpl; rewrite ?andb_true_r, ?andb_true_l.
    + rewrite orb_false_l. f_equal. lia.
    + rewrite (word_high w v (i + (w - k))) by (auto; lia). btauto.
Qed.

Lemma rotr_join N w v k :
  0 < w <= N -> is_word w v -> 0 <= k < w ->
  rotated w v (- k) (Z.land (Z.lor (Z.shiftr v k) (shl N v (w - k))) (Z.ones w)).
Proof.
  intros Hw Hv Hk. split.
  - rewrite Z.land_comm. apply word_land; [|lia]. unfold is_word. rewrite Z.ones_equiv. lia.
  - intros i Hi. replace (i - - k) with (i - (w - k) + 1 * w) by lia.
    rewrite Z_mod_plus_full, rot_index by lia. bits_simpl; rewrite ?andb_true_r, ?andb_true_l.
    + rewrite orb_false_r. f_equal. lia.
    + rewrite (word_high w v (i + k)) by (auto; lia). btauto.
Qed.

Lemma rotated_mod w v k r : 0 < w -> rotated w v (k mod w) r <-> rotated w v k r.
Proof.
  intros Hw. unfold rotated. split; intros [? H]; split; auto; intros i Hi; rewrite H by auto;
    f_equal; now rewrite Zminus_mod_idemp_r.
Qed.

Lemma rotated_0 w v : 0 < w -> is_word w v -> rotated w v 0 v.
Proof. intros. split; auto. intros. rewrite Z.sub_0_r, Z.mod_small by lia. reflexivity. Qed.

Lemma land1_bit0 x : (Z.land x 1 =? 1) = Z.testbit x 0.
Proof. rewrite <- (shr_bit x 0) by lia. now rewrite Z.shiftr_0_r. Qed.

Lemma land1_b2z x n : 0 <= n -> Z.land (Z.shiftr x n) 1 = Z.b2z (Z.testbit x n).
Proof.
  intros. change 1 with (Z.ones 1). rewrite Z.land_ones, <- Z.bit0_mod, Z.shiftr_spec by lia.
  reflexivity.
Qed.

Lemma lxor_b2z a b : (Z.lxor (Z.b2z a) (Z.b2z b) =? 1) = xorb a b.
Proof. now destruct a, b. Qed.

Lemma width_known w :
  width w -> (w =? 64) || (w =? 32) || (w =? 16) || (w =? 8) = true.
Proof. now intros [-> | [-> | [-> | ->]]]. Qed.

Lemma rol_rotated w v n s :
  width w -> is_word w v -> rotated w v (shift_count w n) (fst (rol v n w s)).
Proof.
  intros Hw Hv. assert (0 < w <= 64) by (unfold width in Hw; lia). unfold rol.
  rewrite width_known, count_mask_spec, res_mask_ones by auto. cbn [negb fst].
  rewrite (Z.land_ones v) by lia. change (v mod 2 ^ w) with (wrap w v).
  rewrite (wrap_small w v) by auto. set (c := shift_count w n).
  apply rotated_mod; [lia |]. pose proof (Z.mod_pos_bound c w).
  destruct (Z.eqb_spec (c mod w) 0) as [-> |]; [apply rotated_0; auto; lia |].
  apply rotl_join; auto; lia.
Qed.

Lemma ror_rotated w v n s :
  width w -> is_word w v -> rotated w v (- shift_count w n) (fst (ror v n w s)).
Proof.
  intros Hw Hv. assert (0 < w <= 64) by (unfold width in Hw; lia). unfold ror.
  rewrite count_mask_spec, res_mask_ones by auto. set (c := shift_count w n).
  destruct (Z.eqb_spec c 0) as [-> | Hc]; cbn [fst].
  { rewrite Z.land_ones by lia. change (v mod 2 ^ w) with (wrap w v).
    rewrite wrap_small by auto. apply rotated_0; auto; lia. }
  pose proof (Z.mod_pos_bound c w). apply rotated_mod; [lia |].
  rewrite <- (Z.sub_0_l c), <- Zminus_mod_idemp_r, Z.sub_0_l.
  apply rotated_mod; [lia |]. apply rotr_join; auto; lia.
Qed.

(** rol rotates the operand left by the masked count, puts the last bit rotated
    in CF, sets OF on a one-bit rotation only and leaves the other flags alone; a
    masked count of zero changes no flag. *)
Lemma rol_spec w v n s :
  width w -> is_word w v ->
  let c := shift_count w n in
  let r := fst (rol v n w s) in
  let s' := snd (rol v n w s) in
  rotated w v c r
  /\ observe s' = (if c =? 0 then observe s
                   else mkStatus (Z.testbit r 0) (pf s) (af s) (zf s) (sf s)
                          (if c =? 1 then xorb (Z.testbit r (w - 1)) (Z.testbit r 0) else of_ s))
  /\ control s' = control s.
Proof.
  intros Hw Hv c. assert (0 < w <= 64) by (unfold width in Hw; lia).
  split; [apply rol_rotated; auto |]. unfold rol.
  rewrite width_known, count_mask_spec by auto. fold c. cbn [negb fst snd].
  set (r := if c mod w =? 0 then _ else _). rewrite land1_bit0.
  change (Z.land r 1) with (Z.land (Z.shiftr r 0) 1).
  rewrite !land1_b2z, lxor_b2z by lia. destruct (c =? 0), (c =? 1); split; reflexivity.
Qed.

(** ror rotates the operand right by the masked count and puts the most
    significant bit of the result in CF; OF is the exclusive or of the two top bits
    when the rotation amounts to one bit and is cleared otherwise; the other flags
    are left alone and a masked count of zero changes no flag. *)
Lemma ror_spec w v n s :
  width w -> is_word w v ->
  let c := shift_count w n in
  let r := fst (ror v n w s) in
  let s' := snd (ror v n w s) in
  rotated w v (- c) r
  /\ observe s' = (if c =? 0 then observe s
                   else mkStatus (Z.testbit r (w - 1)) (pf s) (af s) (zf s) (sf s)
                          ((c mod w =? 1) && xorb (Z.testbit r (w - 1)) (Z.testbit r (w - 2))))
  /\ control s' = control s.
Proof.
  intros Hw Hv c. assert (2 <= w) by (unfold width in Hw; lia).
  split; [apply ror_rotated; auto |]. unfold ror. rewrite count_mask_spec by auto. fold c.
  destruct (Z.eqb_spec c 0); cbn [fst snd]; [split; reflexivity |].
  set (r := Z.land _ (res_mask w)). rewrite shr_bit, !land1_b2z, lxor_b2z by lia.
  split; reflexivity.
Qed.

(** A rotation to the right undoes the same rotation to the left. *)
Lemma rol_ror_roundtrip w v n s s' :
  width w -> is_word w v -> fst (ror (fst (rol v n w s)) n w s') = v.
Proof.
  intros Hw Hv. pose proof (rol_rotated w v n s Hw Hv) as Hl.
  apply (rotated_inverse w v (shift_count w n) (fst (rol v n w s))); auto.
  - unfold width in Hw. lia.
  - apply ror_rotated; [auto | apply Hl].
Qed.

(** ** Rotates through carry *)

(** The [w + 1]-bit ring [CF : v]. *)
Definition ring (w v : Z) (c : bool) : Z := v + 2 ^ w * Z.b2z c.

Lemma ring_word w v c : 0 <= w -> is_word w v -> is_word (w + 1) (ring w v c).
Proof.
  unfold is_word, ring. intros. rewrite Z.add_1_r, Z.pow_succ_r by lia.
  pose proof (b2z_range c). nia.
Qed.

Lemma testbit_ring w v c i :
  0 <= w -> is_word w v -> 0 <= i <= w ->
  Z.testbit (ring w v c) i = if i <? w then Z.testbit v i else c.
Proof.
  intros Hw Hv Hi. unfold ring. rewrite Z.mul_comm, <- Z.shiftl_mul_pow2 by lia.
  assert (Z.land v (Z.shiftl (Z.b2z c) w) = 0) as D.
  { apply Z.bits_inj'. intros j Hj. rewrite Z.land_spec, Z.shiftl_spec, Z.bits_0 by lia.
    destruct (Z.ltb_spec j w);
      [rewrite (Z.testbit_neg_r _ (j - w)) by lia | rewrite (word_high w v) by (auto; lia)]; btauto. }
  rewrite Z.add_nocarry_lxor, Z.lxor_spec, Z.shiftl_spec by (auto; lia).
  destruct (Z.ltb_spec i w).
  - rewrite (Z.testbit_neg_r _ (i - w)) by lia. btauto.
  - rewrite (word_high w v) by (auto; lia). replace (i - w) with 0 by lia. now destruct c.
Qed.

Lemma rc_pow_ones w : width w -> rc_pow w = Z.ones w.
Proof. now intros [-> | [-> | [-> | ->]]]. Qed.

Lemma b2z_bits c i : Z.testbit (Z.b2z c) i = (i =? 0) && c.
Proof. destruct c; simpl Z.b2z; [rewrite testbit_1 | rewrite Z.bits_0]; btauto. Qed.

(** The three steps of [rcl]: place CF below the value, rotate the
    [w + 1]-bit ring, read value and CF back. *)
Section RclCore.
Context (N w v : Z) (b : bool) (Hw : 8 <= w) (HN : w + 1 < N) (Hv : is_word w v).

Definition rcl_extended : Z := Z.lor (shl N v 1) (Z.b2z b).

Definition rcl_rotated (c : Z) : Z :=
  Z.land (Z.lor (shl N rcl_extended c) (Z.shiftr rcl_extended (w + 1 - c))) (Z.ones (w + 1)).

Lemma rcl_extended_ring : rotated (w + 1) (ring w v b) 1 rcl_extended.
Proof.
  split.
  - unfold rcl_extended, shl. rewrite wrap_small.
    + apply word_lor; [| apply (word_mono 1); [lia | destruct b; unfold is_word; simpl; lia] | lia].
      unfold is_word in *. rewrite Z.shiftl_mul_pow2, Z.pow_add_r by lia. lia.
    + apply (word_mono (w + 1)); [lia |].
      unfold is_word in *. rewrite Z.shiftl_mul_pow2, Z.pow_add_r by lia. lia.
  - intros i Hi. rewrite rot_index by lia.
    unfold rcl_extended. rewrite Z.lor_spec, testbit_shl, b2z_bits by lia.
    destruct (Z.ltb_spec i 1); rewrite testbit_ring by (auto; lia); split_ltb.
    + rewrite Z.testbit_neg_r by lia. btauto.
    + btauto.
Qed.

Lemma rcl_rotated_ring c : 0 < c <= w -> rotated (w + 1) (ring w v b) (1 + c) (rcl_rotated c).
Proof.
  intros Hc. apply (rotated_trans _ _ _ rcl_extended); [lia | apply rcl_extended_ring |].
  apply rotl_join; [lia | apply rcl_extended_ring | lia].
Qed.

Lemma rcl_core c :
  0 < c <= w ->
  rotated (w + 1) (ring w v b) c
    (ring w (Z.land (Z.shiftr (rcl_rotated c) 1) (Z.ones w)) (Z.testbit (rcl_rotated c) 0)).
Proof.
  intros Hc. replace c with (1 + c + -1) at 1 by lia.
  eapply rotated_trans; [lia | apply rcl_rotated_ring; lia |].
  set (r := rcl_rotated c).
  assert (is_word w (Z.land (Z.shiftr r 1) (Z.ones w))) as Hr.
  { rewrite Z.land_ones by lia. apply wrap_word. lia. }
  split; [apply ring_word; [lia | exact Hr] |].
  intros i Hi. rewrite testbit_ring by (auto; lia).
  replace (i - -1) with (i - w + 1 * (w + 1)) by lia. rewrite Z_mod_plus_full, rot_index by lia.
  bits_simpl; rewrite ?andb_true_r; f_equal; lia.
Qed.
End RclCore.


Lemma land1_neq0 x : negb (Z.land x 1 =? 0) = Z.testbit x 0.
Proof. rewrite <- (land_bit x 0) by lia. reflexivity. Qed.

Lemma shr1_neq0 x n : 0 <= n -> negb (Z.land (Z.shiftr x n) 1 =? 0) = Z.testbit x n.
Proof. intros. rewrite land1_neq0, Z.shiftr_spec by lia. f_equal. Qed.

(** [Flags::rcl] with its two integer widths unified: [N] is the width the
    code computes in. *)
Lemma rcl_unfold w v n s :
  width w -> is_word w v ->
  let c := shift_count w n mod (w + 1) in
  let N := if w =? 64 then 128 else 64 in
  let rot := rcl_rotated N w v (f_cf s) c in
  let r := Z.land (Z.shiftr rot 1) (Z.ones w) in
  rcl v n w s =
    if c =? 0 then (v, s) else
    (r, if c =? 1 then set_f_of (xorb (Z.testbit rot 0) (Z.testbit r (w - 1))) (set_f_cf (Z.testbit rot 0) s)
        else set_f_cf (Z.testbit rot 0) s).
Proof.
  intros Hw Hv c. assert (8 <= w <= 64) by (unfold width in Hw; lia).
  unfold rcl. rewrite count_mask_spec, rc_pow_ones, Z.land_ones by (auto; lia). fold c.
  change (v mod 2 ^ w) with (wrap w v). rewrite wrap_small by auto.
  destruct (Z.eqb_spec c 0); [reflexivity |].
  assert (Z.land v (Z.ones w) = v) as Ev.
  { rewrite Z.land_ones by lia. apply wrap_small, Hv. }
  unfold rcl_rotated, rcl_extended.
  destruct Hw as [-> | [-> | [-> | ->]]]; cbn [Z.eqb Pos.eqb];
    rewrite land1_neq0, !shr1_neq0 by lia;
    match type of Ev with Z.land _ (Z.ones ?k) = _ =>
      change (2 ^ k - 1) with (Z.ones k); change (shl 64 1 k - 1) with (Z.ones k) end;
    rewrite Ev; try reflexivity.
  rewrite wrap_small; [reflexivity |]. rewrite Z.land_ones by lia. apply wrap_word. lia.
Qed.

Lemma rcl_ring w v n s :
  width w -> is_word w v ->
  let (r, s') := rcl v n w s in
  rotated (w + 1) (ring w v (cf s)) (shift_count w n) (ring w r (cf s')).
Proof.
  intros Hw Hv. assert (8 <= w <= 64) by (unfold width in Hw; lia).
  rewrite rcl_unfold by auto. set (c := shift_count w n mod (w + 1)).
  pose proof (Z.mod_pos_bound (shift_count w n) (w + 1)). pose proof (ring_word w v (cf s)).
  destruct (Z.eqb_spec c 0) as [E | E].
  - apply rotated_mod; [lia |]. fold c. rewrite E. apply rotated_0; auto with lia.
  - replace (cf (if c =? 1 then _ else _)) with
      (Z.testbit (rcl_rotated (if w =? 64 then 128 else 64) w v (f_cf s) c) 0) by (now destruct (c =? 1)).
    apply rotated_mod; [lia |]. apply rcl_core; auto; try lia.
    destruct (Z.eqb_spec w 64); unfold width in Hw; lia.
Qed.

(** rcl rotates the ring of the operand and the carry flag left by the masked
    count modulo width plus one, sets OF on a one-bit rotation only and leaves the
    other flags alone. *)
Lemma rcl_spec w v n s :
  width w -> is_word w v ->
  let c := shift_count w n mod (w + 1) in
  let r := fst (rcl v n w s) in
  let s' := snd (rcl v n w s) in
  rotated (w + 1) (ring w v (cf s)) c (ring w r (cf s'))
  /\ observe s' = mkStatus (cf s') (pf s) (af s) (zf s) (sf s)
                    (if c =? 1 then xorb (cf s') (Z.testbit r (w - 1)) else of_ s)
  /\ control s' = control s.
Proof.
  intros Hw Hv c. split.
  - pose proof (rcl_ring w v n s Hw Hv) as R. destruct (rcl v n w s).
    apply rotated_mod; [unfold width in Hw; lia | exact R].
  - rewrite rcl_unfold by auto. fold c.
    destruct (Z.eqb_spec c 0) as [-> |]; [split; reflexivity |].
    destruct (c =? 1); split; reflexivity.
Qed.

(** The result of [Flags::rcr] for a non-zero count. *)
Definition rcr_value (w v c : Z) (b : bool) : Z :=
  if c =? 1 then Z.land (Z.lor (Z.shiftr v 1) (shl 64 (Z.b2z b) (w - 1))) (Z.ones w)
  else Z.land (Z.lor (Z.lor (Z.shiftr v c) (shl 64 (Z.b2z b) (w - c)))
                     (shl 64 v (w + 1 - c))) (Z.ones w).

Lemma rcr_value_ring w v c b :
  8 <= w <= 64 -> is_word w v -> 0 < c <= w ->
  rotated (w + 1) (ring w v b) (- c) (ring w (rcr_value w v c b) (Z.testbit v (c - 1))).
Proof.
  intros Hw Hv Hc.
  assert (is_word w (rcr_value w v c b)) as Hr.
  { unfold rcr_value. destruct (c =? 1); rewrite Z.land_ones by lia; apply wrap_word; lia. }
  split; [apply ring_word; [lia | exact Hr] |]. intros i Hi.
  replace (i - - c) with (i - (w + 1 - c) + 1 * (w + 1)) by lia.
  rewrite Z_mod_plus_full, rot_index by lia.
  destruct (Z.ltb_spec i (w + 1 - c)); rewrite !testbit_ring by (auto; lia).
  all: unfold rcr_value; destruct (Z.eqb_spec c 1) as [-> |];
    autorewrite with mw_bits; rewrite ?b2z_bits; split_ltb.
  all: rewrite ?(word_high w v (i + _)) by (auto; lia).
  all: rewrite ?(Z.testbit_neg_r v (i - _)) by lia.
  all: rewrite ?andb_true_l, ?andb_true_r, ?andb_false_r, ?orb_false_r, ?orb_false_l; try (f_equal; lia).
Qed.

Lemma rcr_unfold w v n s :
  width w -> is_word w v ->
  let c := shift_count w n mod (w + 1) in
  let r := rcr_value w v c (f_cf s) in
  rcr v n w s =
    if c =? 0 then (v, s) else
    (r, if c =? 1 then set_f_of (xorb (Z.testbit r (w - 1)) (Z.testbit r (w - 2))) (set_f_cf (Z.testbit v (c - 1)) s)
        else set_f_cf (Z.testbit v (c - 1)) s).
Proof.
  intros Hw Hv c. assert (8 <= w <= 64) by (unfold width in Hw; lia).
  pose proof (Z.mod_pos_bound (shift_count w n) (w + 1)).
  unfold rcr. rewrite count_mask_spec, rc_pow_ones by auto. fold c.
  destruct (Z.eqb_spec c 0) as [E | E]; cbn [negb].
  - rewrite E, Z.land_ones by lia. change (v mod 2 ^ w) with (wrap w v).
    rewrite wrap_small by auto. reflexivity.
  - fold (rcr_value w v c (f_cf s)). rewrite !shr1_neq0 by lia.
    rewrite Z.lxor_spec, testbit_shl by lia. split_ltb; [|reflexivity].
    replace (w - 1 - 1) with (w - 2) by lia. reflexivity.
Qed.

Lemma rcr_ring w v n s :
  width w -> is_word w v ->
  let (r, s') := rcr v n w s in
  rotated (w + 1) (ring w v (cf s)) (- shift_count w n) (ring w r (cf s')).
Proof.
  intros Hw Hv. assert (8 <= w <= 64) by (unfold width in Hw; lia).
  rewrite rcr_unfold by auto. set (c := shift_count w n mod (w + 1)).
  pose proof (Z.mod_pos_bound (shift_count w n) (w + 1)). pose proof (ring_word w v (cf s)).
  assert (forall u u', rotated (w + 1) u (- c) u' -> rotated (w + 1) u (- shift_count w n) u') as M.
  { intros u u' R. apply rotated_mod; [lia |]. apply rotated_mod in R; [|lia].
    rewrite <- (Z.sub_0_l (shift_count w n)), <- Zminus_mod_idemp_r, Z.sub_0_l. exact R. }
  destruct (Z.eqb_spec c 0) as [E | E]; apply M.
  - rewrite E. apply rotated_0; auto with lia.
  - replace (cf (if c =? 1 then _ else _)) with (Z.testbit v (c - 1)) by (now destruct (c =? 1)).
    apply rcr_value_ring; auto; lia.
Qed.

(** rcr rotates the ring of the operand and the carry flag right by the masked
    count, sets OF on a one-bit rotation only and leaves the other flags alone. *)
Lemma rcr_spec w v n s :
  width w -> is_word w v ->
  let c := shift_count w n mod (w + 1) in
  let r := fst (rcr v n w s) in
  let s' := snd (rcr v n w s) in
  rotated (w + 1) (ring w v (cf s)) (- shift_count w n) (ring w r (cf s'))
  /\ observe s' = mkStatus (cf s') (pf s) (af s) (zf s) (sf s)
                    (if c =? 1 then xorb (Z.testbit r (w - 1)) (Z.testbit r (w - 2)) else of_ s)
  /\ control s' = control s.
Proof.
  intros Hw Hv c. split.
  - pose proof (rcr_ring w v n s Hw Hv) as R. now destruct (rcr v n w s).
  - rewrite rcr_unfold by auto. fold c.
    destruct (Z.eqb_spec c 0) as [-> |]; [split; reflexivity |].
    destruct (c =? 1); split; reflexivity.
Qed.

Lemma ring_inj w v v' c c' :
  0 <= w -> is_word w v -> is_word w v' -> ring w v c = ring w v' c' -> v = v' /\ c = c'.
Proof.
  intros Hw Hv Hv' E. unfold ring, is_word in *.
  destruct c, c'; simpl in E; split; auto; lia.
Qed.

Lemma rcl_word w v n s : width w -> is_word w v -> is_word w (fst (rcl v n w s)).
Proof.
  intros Hw Hv. rewrite rcl_unfold by auto. destruct (_ =? 0); [exact Hv |]. cbn [fst].
  unfold width in Hw. rewrite Z.land_ones by lia. apply wrap_word. lia.
Qed.

Lemma rcr_word w v n s : width w -> is_word w v -> is_word w (fst (rcr v n w s)).
Proof.
  intros Hw Hv. rewrite rcr_unfold by auto. destruct (_ =? 0); [exact Hv |]. cbn [fst].
  unfold width in Hw. unfold rcr_value. destruct (_ =? 1); rewrite Z.land_ones by lia; apply wrap_word; lia.
Qed.

(** Rotating left through the carry and then right by the same count gives back both
    the operand and the carry flag. *)
Theorem rcl_rcr_roundtrip w v n s :
  width w -> is_word w v ->
  let (r, s1) := rcl v n w s in
  let (v', s2) := rcr r n w s1 in
  v' = v /\ cf s2 = cf s.
Proof.
  intros Hw Hv. assert (0 <= w) by (unfold width in Hw; lia).
  pose proof (rcl_ring w v n s Hw Hv) as R1. pose proof (rcl_word w v n s Hw Hv) as Hr.
  destruct (rcl v n w s) as [r s1].
  pose proof (rcr_ring w r n s1 Hw Hr) as R2. pose proof (rcr_word w r n s1 Hw Hr) as Hr2.
  destruct (rcr r n w s1) as [v' s2].
  apply (ring_inj w); auto.
  eapply rotated_inverse; [| apply ring_word | exact R1 | exact R2]; auto; lia.
Qed.

(** ** Double shifts *)

(** The [2 * w]-bit value [hi : lo]. *)
Definition join (w lo hi : Z) : Z := lo + hi * 2 ^ w.

Lemma testbit_join w lo hi i :
  0 <= w -> is_word w lo -> 0 <= i ->
  Z.testbit (join w lo hi) i = if i <? w then Z.testbit lo i else Z.testbit hi (i - w).
Proof.
  intros Hw Hlo Hi. unfold join. rewrite <- Z.shiftl_mul_pow2 by lia.
  assert (Z.land lo (Z.shiftl hi w) = 0) as D.
  { apply Z.bits_inj'. intros j Hj. rewrite Z.land_spec, Z.shiftl_spec, Z.bits_0 by lia.
    destruct (Z.ltb_spec j w);
      [rewrite (Z.testbit_neg_r _ (j - w)) by lia | rewrite (word_high w lo) by (auto; lia)]; btauto. }
  rewrite Z.add_nocarry_lxor, Z.lxor_spec, Z.shiftl_spec by (auto; lia).
  destruct (Z.ltb_spec i w).
  - rewrite (Z.testbit_neg_r _ (i - w)) by lia. btauto.
  - rewrite (word_high w lo) by (auto; lia). btauto.
Qed.

(** Joining the bits [c ..] of [lo] with the low bits of [hi] extracts a word
    from the pair. *)
Lemma join_extract w lo hi c :
  0 < w <= 64 -> is_word w lo -> 0 <= c <= w ->
  Z.land (Z.lor (Z.shiftr lo c) (shl 64 hi (w - c))) (Z.ones w) = wrap w (join w lo hi / 2 ^ c).
Proof.
  intros Hw Hlo Hc. rewrite <- (Z.shiftr_div_pow2 _ c) by lia.
  apply (word_ext w); [rewrite Z.land_ones by lia; apply wrap_word; lia | apply wrap_word; lia | lia |].
  intros i Hi. rewrite testbit_wrap, Z.shiftr_spec, testbit_join by (auto; lia).
  autorewrite with mw_bits. split_ltb.
  - rewrite (Z.testbit_neg_r hi) by lia. btauto.
  - rewrite (word_high w lo) by (auto; lia). replace (i + c - w) with (i - (w - c)) by lia. btauto.
Qed.

(** The number of positions [shld]/[shrd] move: counts past the width, which
    the architecture leaves undefined, are clamped. *)
Definition double_count (w n : Z) : Z := Z.min (shift_count w n) w.

(** shrd returns the low half of the double-width pair shifted right by the
    masked count, with the carry, overflow and result flags of the x86 manual and TF
    cleared; a masked count of zero changes nothing. *)
Lemma shrd_spec w v0 v1 n s :
  width w -> is_word w v0 -> is_word w v1 ->
  let c := double_count w n in
  let r := fst (shrd v0 v1 n w s) in
  let s' := snd (shrd v0 v1 n w s) in
  r = wrap w (join w v0 v1 / 2 ^ c)
  /\ if c =? 0 then s' = s
     else observe s' = mkStatus (Z.testbit v0 (c - 1)) (even_parity r) (f_af s) (r =? 0)
                         (Z.testbit r (w - 1))
                         ((c =? 1) && xorb (Z.testbit v0 (w - 1)) (Z.testbit r (w - 1)))
          /\ control s' = control (set_f_tf false s).
Proof.
  intros Hw H0 H1 c. assert (0 < w <= 64) by (unfold width in Hw; lia).
  pose proof (shift_count_range w n Hw).
  unfold shrd. rewrite count_mask_spec, res_mask_ones by auto. fold (double_count w n); fold c.
  destruct (Z.eqb_spec c 0) as [E | E]; cbn [fst snd].
  - split; [|reflexivity]. rewrite E, Z.div_1_r, Z.land_ones by lia.
    unfold join. symmetry. apply Z_mod_plus_full.
  - rewrite join_extract by (auto; unfold c, double_count; lia). split; [reflexivity |].
    assert (0 < c) by (unfold c, double_count in *; lia).
    rewrite shr_bit, land1_eqb by lia. unfold c. destruct (_ =? 1); cbn [andb]; apply shift_flags;
      auto with mw_word lia.
Qed.

(** shld returns the high half of the double-width pair shifted left by the
    masked count, with the carry, overflow and result flags of the x86 manual and TF
    cleared; a masked count of zero changes nothing. *)
Lemma shld_spec w v0 v1 n s :
  width w -> is_word w v0 -> is_word w v1 ->
  let c := double_count w n in
  let r := fst (shld v0 v1 n w s) in
  let s' := snd (shld v0 v1 n w s) in
  r = wrap w (join w v1 v0 / 2 ^ (w - c))
  /\ if c =? 0 then s' = s
     else observe s' = mkStatus (Z.testbit v0 (w - c)) (even_parity r) (f_af s) (r =? 0)
                         (Z.testbit r (w - 1))
                         ((c =? 1) && xorb (Z.testbit v0 (w - 1)) (Z.testbit r (w - 1)))
          /\ control s' = control (set_f_tf false s).
Proof.
  intros Hw H0 H1 c. assert (0 < w <= 64) by (unfold width in Hw; lia).
  pose proof (shift_count_range w n Hw).
  unfold shld. rewrite count_mask_spec, res_mask_ones by auto. fold (double_count w n); fold c.
  destruct (Z.eqb_spec c 0) as [E | E]; cbn [fst snd].
  - split; [|reflexivity]. rewrite E, Z.sub_0_r, Z.land_ones by lia.
    unfold join. rewrite Z.div_add, (Z.div_small v1) by (unfold is_word in *; lia). reflexivity.
  - assert (0 < c <= w) by (unfold c, double_count in *; lia).
    pose proof (join_extract w v1 v0 (w - c) ltac:(lia) H1 ltac:(lia)) as J.
    replace (w - (w - c)) with c in J by lia. rewrite J. split; [reflexivity |].
    rewrite shr_bit by lia. set (r := wrap w (join w v1 v0 / 2 ^ (w - c))).
    cbn [f_cf set_f_cf].
    rewrite land1_b2z by lia.
    replace (if c =? 1 then _ else false) with ((c =? 1) && xorb (Z.testbit v0 (w - 1)) (Z.testbit r (w - 1))).
    + apply shift_flags; auto. apply wrap_word. lia.
    + destruct (Z.eqb_spec c 1) as [-> |]; [|reflexivity].
      now destruct (Z.testbit v0 (w - 1)), (Z.testbit r (w - 1)).
Qed.

(** ** Bitwise logic *)

Lemma logic_flags w r s :
  width w -> is_word w r ->
  observe (calc_logic_flags_lazy r w s)
  = mkStatus false (even_parity r) false (r =? 0) (Z.testbit r (w - 1)) false.
Proof.
  intros Hw Hr. unfold calc_logic_flags_lazy, set_lazy_logic.
  assert (forall k, is_word k 0 <-> 0 < 2 ^ k) as Z0 by (unfold is_word; intros; lia).
  destruct Hw as [-> | [-> | [-> | ->]]]; cbn [Z.eqb Pos.eqb]; rewrite ?wrap_small by auto.
  - rewrite observe_oszapc8 by (auto; apply Z0; lia). reflexivity.
  - rewrite observe_oszapc16 by (auto; apply Z0; lia). reflexivity.
  - rewrite observe_oszapc32 by (auto; apply Z0; lia). reflexivity.
  - rewrite observe_oszapc64 by (auto; apply Z0; lia). reflexivity.
Qed.

(** ** The round trip at a concrete operand *)

Lemma rcl_rcr_roundtrip_witness :
  let (r, s1) := rcl 0xdeadbeef 9 32 new in
  let (v', s2) := rcr r 9 32 s1 in
  v' = 0xdeadbeef /\ cf s2 = cf new.
Proof. exact (rcl_rcr_roundtrip 32 0xdeadbeef 9 new ltac:(unfold width; lia) ltac:(split; lia)). Defined.
