(* ===== verification/Conditions.v ===== *)
(** * Condition codes ([engine/instructions/{j,set,cmov}CC.rs])

    The sixteen conditions the Jcc, SETcc and CMOVcc handlers test, as the
    expressions over [flag_cf] .. [flag_of] the handlers contain, and the
    theorem that after [cmp] they decide the unsigned and the signed order of
    the compared operands. *)

From S2P Require Import Prelude Flags FlagsArith.

(** ** The conditions *)

Definition cond_a (s : Flags) : bool := negb (cf s) && negb (zf s).
Definition cond_ae (s : Flags) : bool := negb (cf s).
Definition cond_b (s : Flags) : bool := cf s.
Definition cond_be (s : Flags) : bool := cf s || zf s.
Definition cond_e (s : Flags) : bool := zf s.
Definition cond_ne (s : Flags) : bool := negb (zf s).
Definition cond_g (s : Flags) : bool := negb (zf s) && eqb (sf s) (of_ s).
Definition cond_ge (s : Flags) : bool := eqb (sf s) (of_ s).
Definition cond_l (s : Flags) : bool := negb (eqb (sf s) (of_ s)).
Definition cond_le (s : Flags) : bool := zf s || negb (eqb (sf s) (of_ s)).
Definition cond_o (s : Flags) : bool := of_ s.
Definition cond_no (s : Flags) : bool := negb (of_ s).
Definition cond_p (s : Flags) : bool := pf s.
Definition cond_np (s : Flags) : bool := negb (pf s).
Definition cond_s (s : Flags) : bool := sf s.
Definition cond_ns (s : Flags) : bool := negb (sf s).

(** A condition reads the flags only through the readers: it does not change
    when the lazy state is materialised. *)
Definition CONDITIONS : list (Flags -> bool) :=
  [cond_a; cond_ae; cond_b; cond_be; cond_e; cond_ne; cond_g; cond_ge; cond_l; cond_le;
   cond_o; cond_no; cond_p; cond_np; cond_s; cond_ns].

Lemma conditions_proper : Forall (Proper (flags_equiv ==> eq)) CONDITIONS.
Proof.
  repeat constructor; intros s t [Ho _]; unfold observe in Ho; injection Ho; intros;
    unfold cond_a, cond_ae, cond_b, cond_be, cond_e, cond_ne, cond_g, cond_ge, cond_l, cond_le,
       cond_o, cond_no, cond_p, cond_np, cond_s, cond_ns; congruence.
Qed.

(** Each condition of the second list negates its counterpart of the first. *)
Definition COMPLEMENTS : list ((Flags -> bool) * (Flags -> bool)) :=
  [(cond_a, cond_be); (cond_ae, cond_b); (cond_e, cond_ne); (cond_g, cond_le);
   (cond_ge, cond_l); (cond_o, cond_no); (cond_p, cond_np); (cond_s, cond_ns)].

Lemma conditions_complementary :
  Forall (fun '(c, n) => forall s, n s = negb (c s)) COMPLEMENTS.
Proof.
  repeat constructor; intros s;
    unfold cond_a, cond_ae, cond_b, cond_be, cond_e, cond_ne, cond_g, cond_ge, cond_l, cond_le,
      cond_o, cond_no, cond_p, cond_np, cond_s, cond_ns; destruct (cf s), (zf s), (sf s), (of_ s), (pf s);
    reflexivity.
Qed.

(** ** What the conditions mean after a comparison *)

(** The relation of the [w]-bit operands each condition decides. *)
Record decides (w a b : Z) (s : Flags) : Prop := {
  decides_a : cond_a s = (b <? a);
  decides_ae : cond_ae s = (b <=? a);
  decides_b : cond_b s = (a <? b);
  decides_be : cond_be s = (a <=? b);
  decides_e : cond_e s = (a =? b);
  decides_ne : cond_ne s = negb (a =? b);
  decides_g : cond_g s = (sgn w b <? sgn w a);
  decides_ge : cond_ge s = (sgn w b <=? sgn w a);
  decides_l : cond_l s = (sgn w a <? sgn w b);
  decides_le : cond_le s = (sgn w a <=? sgn w b);
  decides_o : cond_o s = signed_overflow w (sgn w a - sgn w b);
  decides_s : cond_s s = (sgn w (a - b) <? 0)
}.

(** The signed difference read back modulo [2 ^ w]: SF xor OF is its sign. *)
Lemma sign_of_difference w a b :
  0 < w -> is_word w a -> is_word w b ->
  xorb (sgn w (a - b) <? 0) (signed_overflow w (sgn w a - sgn w b)) = (sgn w a <? sgn w b).
Proof.
  intros Hw Ha Hb. pose proof (sgn_word w a Hw). pose proof (sgn_word w b Hw).
  pose proof (pow2_half w Hw). set (d := sgn w a - sgn w b).
  assert (sgn w (a - b) = sgn w d) as ->.
  { rewrite <- (sgn_wrap w (a - b)), <- (sgn_wrap w d) by lia. f_equal. unfold d, wrap.
    rewrite Zminus_mod, (Zminus_mod (sgn w a)). fold (wrap w (sgn w a)) (wrap w (sgn w b)).
    rewrite !wrap_sgn by lia. reflexivity. }
  unfold signed_overflow. fold d. assert (d = sgn w a - sgn w b) as Hd by reflexivity. clearbody d.
  destruct (Z.leb_spec (- 2 ^ (w - 1)) d); [destruct (Z.ltb_spec d (2 ^ (w - 1))) |]; cbn [andb negb].
  - rewrite sgn_small by lia. split_ltb; reflexivity || lia.
  - rewrite <- (sgn_period w d (-1)), sgn_small by lia. split_ltb; reflexivity || lia.
  - rewrite <- (sgn_period w d 1), sgn_small by lia. split_ltb; reflexivity || lia.
Qed.

Lemma sub_zero w a b : 0 < w -> is_word w a -> is_word w b -> (wrap w (a - b) =? 0) = (a =? b).
Proof.
  unfold is_word, wrap. intros Hw Ha Hb.
  destruct (Z.eqb_spec a b) as [-> |]; [rewrite Z.sub_diag; reflexivity |].
  apply Z.eqb_neq. intros H. apply Z.mod_divide in H as [k Hk]; [|lia]. assert (k <= -1 \/ k = 0 \/ 1 <= k) as [? | [-> | ?]] by lia; nia.
Qed.

Lemma decides_intro w a b s :
  0 < w -> is_word w a -> is_word w b -> observe s = sdm_sub w a b false -> decides w a b s.
Proof.
  intros Hw Ha Hb Hs. unfold observe, sdm_sub in Hs. simpl Z.b2z in Hs.
  rewrite ?Z.add_0_r, ?Z.sub_0_r, ?sgn_wrap, sub_zero in Hs by auto.
  injection Hs as Hc Hp Haf Hz Hsf Hof.
  assert (eqb (sf s) (of_ s) = negb (sgn w a <? sgn w b)) as Hlt.
  { rewrite <- (sign_of_difference w a b), Hsf, Hof by auto. now destruct (sgn w (a - b) <? 0), (signed_overflow w (sgn w a - sgn w b)). }
  assert (a = b <-> sgn w a = sgn w b) as Heq.
  { split; [now intros -> |]. intros E. apply (f_equal (wrap w)) in E.
    rewrite !wrap_sgn, !wrap_small in E by (auto; lia). exact E. }
  split; unfold cond_a, cond_ae, cond_b, cond_be, cond_e, cond_ne, cond_g, cond_ge, cond_l,
    cond_le, cond_o, cond_s; rewrite ?Hlt, ?Hc, ?Hz; try assumption; try reflexivity;
    split_ltb; reflexivity || lia.
Qed.
