(* ===== verification/Scalar.v ===== *)
(** * Little-endian scalars ([maps/scalar.rs])

    The trait [LittleEndianScalar] is instantiated at u8, u16, u32, u64 and
    u128; a scalar type is modelled by its [SIZE] in bytes and its values by
    the integers of that width.  Bytes are integers in [0, 256). *)

From S2P Require Import Prelude.

(** [Vec<u8>] and [&[u8]] *)
Notation bytes := (list Z).

Definition is_bytes (l : bytes) : Prop := Forall (is_word 8) l.

(** [enum ScalarKind] *)
Inductive ScalarKind := Byte | Word | Dword | Qword | Oword.

(** [const SIZE] of the five instances *)
Definition SIZE (k : ScalarKind) : nat :=
  match k with Byte => 1 | Word => 2 | Dword => 4 | Qword => 8 | Oword => 16 end%nat.

(** The width in bits of a scalar of [n] bytes. *)
Definition bits_of (n : nat) : Z := 8 * Z.of_nat n.

(** [<$ty>::to_le_bytes] *)
Fixpoint to_le_bytes (n : nat) (v : Z) : bytes :=
  match n with
  | O => []
  | S n' => wrap 8 v :: to_le_bytes n' (Z.shiftr v 8)
  end.

(** [<$ty>::from_le_bytes] *)
Fixpoint from_le_bytes (l : bytes) : Z :=
  match l with
  | [] => 0
  | b :: l' => Z.lor b (Z.shiftl (from_le_bytes l') 8)
  end.

(** [LittleEndianScalar::from_le_slice]: panics on a wrong length. *)
Definition from_le_slice (n : nat) (l : bytes) : outcome Z :=
  if decide (length l = n) then Ret (from_le_bytes l) else Panic.

(** [LittleEndianScalar::to_le_vec] *)
Definition to_le_vec (n : nat) (v : Z) : bytes := to_le_bytes n v.

(** [LittleEndianScalar::write_le]: fills [out[..SIZE]]. *)
Definition write_le (n : nat) (v : Z) (out : bytes) : outcome bytes :=
  copy_into 0 n (to_le_bytes n v) out.

(** [read_le] *)
Definition read_le (n : nat) (l : bytes) : outcome (option Z) :=
  if (length l <? n)%nat then Ret None
  else s ← index_range 0 n l; v ← from_le_slice n s; Ret (Some v).

(** ** Round trips *)

Lemma length_to_le_bytes n v : length (to_le_bytes n v) = n.
Proof. revert v. induction n; simpl; auto. Qed.

Lemma to_le_bytes_bytes n v : is_bytes (to_le_bytes n v).
Proof. revert v. induction n; constructor; [apply wrap_word; lia | apply IHn]. Qed.

Lemma from_le_bytes_cons b l :
  is_word 8 b -> from_le_bytes (b :: l) = b + 256 * from_le_bytes l.
Proof.
  intros Hb. cbn [from_le_bytes].
  assert (Z.land b (Z.shiftl (from_le_bytes l) 8) = 0) as D.
  { apply Z.bits_inj'. intros j Hj. rewrite Z.land_spec, Z.shiftl_spec, Z.bits_0 by lia.
    destruct (Z.ltb_spec j 8);
      [rewrite (Z.testbit_neg_r _ (j - 8)) by lia | rewrite (word_high 8 b) by (auto; lia)]; btauto. }
  rewrite <- Z.lxor_lor, <- Z.add_nocarry_lxor, Z.shiftl_mul_pow2 by (auto; lia). lia.
Qed.

Lemma bits_of_S n : 2 ^ bits_of (S n) = 256 * 2 ^ bits_of n.
Proof. unfold bits_of. replace (8 * Z.of_nat (S n)) with (8 + 8 * Z.of_nat n) by lia. now rewrite Z.pow_add_r by lia. Qed.

Lemma from_le_bytes_word l : is_bytes l -> is_word (bits_of (length l)) (from_le_bytes l).
Proof.
  induction 1 as [|b l Hb Hl IH]; [unfold is_word, bits_of; simpl; lia |].
  rewrite from_le_bytes_cons by auto. unfold is_word in *.
  cbn [length]. rewrite bits_of_S. lia.
Qed.

Lemma from_to_le_bytes_eq n v : is_word (bits_of n) v -> from_le_bytes (to_le_bytes n v) = v.
Proof.
  revert v. induction n as [|n IH]; intros v Hv.
  - unfold is_word, bits_of in Hv. simpl in *. lia.
  - cbn [to_le_bytes]. rewrite from_le_bytes_cons by (apply wrap_word; lia).
    unfold is_word in *. rewrite bits_of_S in Hv. rewrite IH.
    + rewrite Z.shiftr_div_pow2 by lia. unfold wrap. change (2 ^ 8) with 256.
      pose proof (Z.div_mod v 256). lia.
    + rewrite Z.shiftr_div_pow2 by lia. change (2 ^ 8) with 256. unfold is_word.
      Z.div_mod_to_equations. lia.
Qed.

Lemma to_from_le_bytes l : is_bytes l -> to_le_bytes (length l) (from_le_bytes l) = l.
Proof.
  induction 1 as [|b l Hb Hl IH]; [reflexivity |].
  cbn [length to_le_bytes]. rewrite from_le_bytes_cons by auto. unfold is_word in Hb.
  rewrite Z.shiftr_div_pow2 by lia. unfold wrap. change (2 ^ 8) with 256.
  f_equal.
  - rewrite Z.mul_comm, Z_mod_plus_full. apply Z.mod_small. lia.
  - rewrite Z.mul_comm, Z.div_add, Z.div_small by lia. exact IH.
Qed.

Lemma from_to_le_bytes_wrap n v : from_le_bytes (to_le_bytes n v) = wrap (bits_of n) v.
Proof.
  revert v. induction n as [|n IH]; intros v; [unfold wrap, bits_of; cbn; now rewrite Z.mod_1_r |].
  cbn [to_le_bytes]. rewrite from_le_bytes_cons, IH by (apply wrap_word; lia).
  unfold wrap. rewrite bits_of_S, Z.shiftr_div_pow2 by lia. change (2 ^ 8) with 256.
  assert (0 < 2 ^ bits_of n) by (apply Z.pow_pos_nonneg; unfold bits_of; lia).
  now rewrite (Z.rem_mul_r v 256 (2 ^ bits_of n)) by lia.
Qed.

(** The encoding depends on the low bits only. *)
Lemma to_le_bytes_wrap n v v' : wrap (bits_of n) v = wrap (bits_of n) v' -> to_le_bytes n v = to_le_bytes n v'.
Proof.
  intros E. rewrite <- (to_from_le_bytes (to_le_bytes n v)), <- (to_from_le_bytes (to_le_bytes n v'))
    by apply to_le_bytes_bytes.
  now rewrite !length_to_le_bytes, !from_to_le_bytes_wrap, E.
Qed.

(** Byte [i] of the encoding is bits [8 i .. 8 i + 7] of the value. *)
Lemma lookup_to_le_bytes n v i :
  (i < n)%nat -> to_le_bytes n v !! i = Some (wrap 8 (Z.shiftr v (8 * Z.of_nat i))).
Proof.
  revert v i. induction n as [|n IH]; intros v i Hi; [lia |]. destruct i as [|i]; cbn [to_le_bytes].
  - simpl. now rewrite Z.shiftr_0_r.
  - cbn [lookup list_lookup]. rewrite IH by lia. do 2 f_equal.
    rewrite Z.shiftr_shiftr by lia. f_equal. lia.
Qed.

Lemma read_le_exact n l : length l = n -> read_le n l = Ret (Some (from_le_bytes l)).
Proof.
  intros <-. unfold read_le. rewrite (proj2 (Nat.ltb_ge _ _)) by lia.
  rewrite index_range_all. cbn [mbind outcome_bind]. unfold from_le_slice.
  now rewrite decide_True by auto.
Qed.

(** The little-endian encoding and decoding are inverse to each other. *)
Theorem scalar_roundtrip :
  (forall n v, is_word (bits_of n) v -> from_le_bytes (to_le_bytes n v) = v)
  /\ (forall l, is_bytes l -> to_le_bytes (length l) (from_le_bytes l) = l).
Proof. split; [apply from_to_le_bytes_eq | apply to_from_le_bytes]. Qed.
