(* ===== verification/Mem64.v ===== *)
(** * A memory region ([maps/mem64.rs])

    [Permission] and [Mem64]: a named, contiguous block of bytes with a base,
    an exclusive end ([bottom_addr]) and access permissions.  Logging and the
    file operations ([load], [save], ...) are not part of the model; a panic is
    the outcome [Panic].  [u64] arithmetic wraps, as in the release profile. *)

From stdpp Require Import strings.
From S2P Require Import Prelude Scalar.

(** ** Permissions *)

(** [struct Permission(u8)] *)
Record Permission := mkPermission { perm_bits : Z }.

#[export] Instance Permission_eq_dec : EqDecision Permission.
Proof. solve_decision. Defined.

Module Perm.

Definition NONE : Permission := mkPermission 0.
Definition READ : Permission := mkPermission 1.
Definition WRITE : Permission := mkPermission 2.
Definition EXECUTE : Permission := mkPermission 4.
Definition READ_WRITE : Permission := mkPermission 3.
Definition READ_EXECUTE : Permission := mkPermission 5.
Definition WRITE_EXECUTE : Permission := mkPermission 6.
Definition READ_WRITE_EXECUTE : Permission := mkPermission 7.

Definition from_bits (bits : Z) : Permission := mkPermission (Z.land bits 7).

Definition bits (p : Permission) : Z := perm_bits p.

Definition from_flags (read write execute : bool) : Permission :=
  let bits := 0 in
  let bits := if read then Z.lor bits 1 else bits in
  let bits := if write then Z.lor bits 2 else bits in
  let bits := if execute then Z.lor bits 4 else bits in
  mkPermission bits.

Definition can_read (p : Permission) : bool := negb (Z.land (perm_bits p) 1 =? 0).
Definition can_write (p : Permission) : bool := negb (Z.land (perm_bits p) 2 =? 0).
Definition can_execute (p : Permission) : bool := negb (Z.land (perm_bits p) 4 =? 0).
Definition is_accessible (p : Permission) : bool := negb (perm_bits p =? 0).

Definition add (p other : Permission) : Permission := mkPermission (Z.lor (perm_bits p) (perm_bits other)).
Definition remove (p other : Permission) : Permission :=
  mkPermission (Z.land (perm_bits p) (bnot 8 (perm_bits other))).
Definition contains (p other : Permission) : bool :=
  Z.land (perm_bits p) (perm_bits other) =? perm_bits other.
Definition to_flags (p : Permission) : bool * bool * bool := (can_read p, can_write p, can_execute p).

Definition bitor (p q : Permission) : Permission := mkPermission (Z.lor (perm_bits p) (perm_bits q)).
Definition bitand (p q : Permission) : Permission := mkPermission (Z.land (perm_bits p) (perm_bits q)).
Definition bitxor (p q : Permission) : Permission := mkPermission (Z.lxor (perm_bits p) (perm_bits q)).
Definition not (p : Permission) : Permission := mkPermission (Z.land (bnot 8 (perm_bits p)) 7).

End Perm.

(** ** Regions *)

(** [struct Mem64] *)
Record Mem64 := mkMem64 {
  mem_name : string;
  base_addr : Z;
  bottom_addr : Z;
  permission : Permission;
  mem : bytes
}.

(** Field updates. *)
Definition set_mem_name (v : string) (m : Mem64) : Mem64 :=
  mkMem64 v (base_addr m) (bottom_addr m) (permission m) (mem m).
Definition set_base_addr (v : Z) (m : Mem64) : Mem64 :=
  mkMem64 (mem_name m) v (bottom_addr m) (permission m) (mem m).
Definition set_bottom_addr (v : Z) (m : Mem64) : Mem64 :=
  mkMem64 (mem_name m) (base_addr m) v (permission m) (mem m).
Definition set_perm (v : Permission) (m : Mem64) : Mem64 :=
  mkMem64 (mem_name m) (base_addr m) (bottom_addr m) v (mem m).
Definition set_mem (v : bytes) (m : Mem64) : Mem64 :=
  mkMem64 (mem_name m) (base_addr m) (bottom_addr m) (permission m) v.

(** The conversions between [usize]/[u64] and list positions. *)
Notation len l := (Z.of_nat (length l)).

Module Mem.

(** [Mem64::default] *)
Definition default : Mem64 := mkMem64 "" 0 0 (Perm.from_flags true true false) [].

(** [Mem64::set_permission], [add_permission], [remove_permission] *)
Definition set_permission (p : Permission) (m : Mem64) : Mem64 := set_perm p m.
Definition add_permission (p : Permission) (m : Mem64) : Mem64 := set_perm (Perm.add (permission m) p) m.
Definition remove_permission (p : Permission) (m : Mem64) : Mem64 := set_perm (Perm.remove (permission m) p) m.

(** [Mem64::can_read], [can_write], [can_execute] *)
Definition can_read (m : Mem64) : bool := Perm.can_read (permission m).
Definition can_write (m : Mem64) : bool := Perm.can_write (permission m).
Definition can_execute (m : Mem64) : bool := Perm.can_execute (permission m).

(** [Mem64::clear] *)
Definition clear (m : Mem64) : Mem64 := mkMem64 "" 0 0 (permission m) [].

(** [Mem64::set_name] *)
Definition set_name (name : string) (m : Mem64) : Mem64 := set_mem_name name m.

(** [Mem64::alloc] *)
Definition alloc (amount : Z) (m : Mem64) : Mem64 := set_mem (replicate (Z.to_nat amount) 0) m.

(** [Mem64::extend] *)
Definition extend (amount : Z) (m : Mem64) : Mem64 :=
  let m := set_mem (mem m ++ replicate (Z.to_nat amount) 0) m in
  set_bottom_addr (wadd (bottom_addr m) amount) m.

(** [Mem64::size] *)
Definition size (m : Mem64) : Z := len (mem m).

(** [Mem64::drop_front]: [drain(..n)] panics past the end. *)
Definition drop_front (n : Z) (m : Mem64) : outcome Mem64 :=
  if n <=? len (mem m) then
    let m := set_mem (drop (Z.to_nat n) (mem m)) m in
    Ret (set_base_addr (wadd (base_addr m) n) m)
  else Panic.

(** [Mem64::truncate] *)
Definition truncate (n : Z) (m : Mem64) : Mem64 :=
  let m := set_mem (take (Z.to_nat n) (mem m)) m in
  set_bottom_addr (wadd (base_addr m) n) m.

(** [Mem64::split_off]: [Vec::split_off] panics past the end. *)
Definition split_off (at_ : Z) (m : Mem64) : outcome (bytes * Mem64) :=
  let i := wsub at_ (base_addr m) in
  if i <=? len (mem m) then
    let tail := drop (Z.to_nat i) (mem m) in
    let m := set_mem (take (Z.to_nat i) (mem m)) m in
    Ret (tail, set_bottom_addr at_ m)
  else Panic.

(** [Mem64::memcpy] *)
Definition memcpy (ptr : bytes) (sz : Z) (m : Mem64) : outcome Mem64 :=
  if len (mem m) <? sz then Ret m
  else
    src ← index_range 0 (Z.to_nat sz) ptr;
    l ← copy_into 0 (Z.to_nat sz) src (mem m);
    Ret (set_mem l m).

(** [Mem64::inside] *)
Definition inside (addr : Z) (m : Mem64) : bool := (base_addr m <=? addr) && (addr <? bottom_addr m).

(** [Mem64::set_base], [update_base], [set_bottom], [update_bottom], [set_size] *)
Definition set_base (base : Z) (m : Mem64) : Mem64 := set_bottom_addr base (set_base_addr base m).
Definition update_base (base : Z) (m : Mem64) : Mem64 := set_base_addr base m.
Definition set_bottom (bottom : Z) (m : Mem64) : Mem64 :=
  let m := set_bottom_addr bottom m in
  alloc (wsub (bottom_addr m) (base_addr m)) m.
Definition update_bottom (bottom : Z) (m : Mem64) : Mem64 := set_bottom_addr bottom m.
Definition set_size (sz : Z) (m : Mem64) : Mem64 :=
  let m := set_bottom_addr (wadd (base_addr m) sz) m in
  alloc sz m.

(** ** Reads *)

(** [(addr - self.base_addr) as usize] *)
Definition idx (addr : Z) (m : Mem64) : Z := wsub addr (base_addr m).

(** [Mem64::read_from] *)
Definition read_from (addr : Z) (m : Mem64) : bytes :=
  if negb (can_read m) then []
  else if (addr <? base_addr m) || (bottom_addr m <=? addr) then []
  else
    let max_sz := wsub (bottom_addr m) (base_addr m) in
    from_option id [] (get_range (Z.to_nat (idx addr m)) (Z.to_nat max_sz) (mem m)).

(** [Mem64::read_bytes] *)
Definition read_bytes (addr sz : Z) (m : Mem64) : bytes :=
  if negb (can_read m) then []
  else if wadd (base_addr m) (len (mem m)) <=? addr then []
  else if addr <? base_addr m then []
  else
    let i := idx addr m in
    let sz2 := wadd i sz in
    if len (mem m) <? sz2 then from_option id [] (get_range (Z.to_nat i) (length (mem m)) (mem m))
    else from_option id [] (get_range (Z.to_nat i) (Z.to_nat sz2) (mem m)).

(** [Mem64::get_bytes] *)
Definition get_bytes (m : Mem64) : bytes :=
  let sz2 := size m in
  if len (mem m) <? sz2 then from_option id [] (get_range 0 (length (mem m)) (mem m))
  else from_option id [] (get_range 0 (Z.to_nat sz2) (mem m)).

(** [Mem64::read_byte] *)
Definition read_byte (addr : Z) (m : Mem64) : outcome Z :=
  if negb (can_read m) then Ret 0 else index (Z.to_nat (idx addr m)) (mem m).

(** [Option::expect] *)
Definition expect {A} (o : option A) : outcome A := match o with Some a => Ret a | None => Panic end.

(** [Mem64::read_scalar] *)
Definition read_scalar (n : nat) (addr : Z) (m : Mem64) : outcome Z :=
  if negb (can_read m) then
    let zeros := replicate n 0 in
    o ← read_le n zeros; expect o
  else
    let i := idx addr m in
    if len (mem m) <? wadd i (Z.of_nat n) then
      let zeros := replicate n 0 in
      o ← read_le n zeros; expect o
    else
      s ← index_range (Z.to_nat i) (Z.to_nat (wadd i (Z.of_nat n))) (mem m);
      o ← read_le n s; expect o.

Definition read_word : Z -> Mem64 -> outcome Z := read_scalar (SIZE Word).
Definition read_dword : Z -> Mem64 -> outcome Z := read_scalar (SIZE Dword).
Definition read_qword : Z -> Mem64 -> outcome Z := read_scalar (SIZE Qword).
Definition read_oword : Z -> Mem64 -> outcome Z := read_scalar (SIZE Oword).

(** ** Writes *)

(** [Mem64::force_write_byte] *)
Definition force_write_byte (addr value : Z) (m : Mem64) : outcome Mem64 :=
  l ← index_set (Z.to_nat (idx addr m)) value (mem m); Ret (set_mem l m).

(** [Mem64::force_write_bytes] *)
Definition force_write_bytes (addr : Z) (bs : bytes) (m : Mem64) : outcome Mem64 :=
  let i := idx addr m in
  l ← copy_into (Z.to_nat i) (Z.to_nat (wadd (len bs) i)) bs (mem m);
  Ret (set_mem l m).

(** [Mem64::write_byte] *)
Definition write_byte (addr value : Z) (m : Mem64) : outcome Mem64 :=
  if negb (can_write m) then Ret m
  else l ← index_set (Z.to_nat (idx addr m)) value (mem m); Ret (set_mem l m).

(** [Mem64::write_bytes] *)
Definition write_bytes (addr : Z) (bs : bytes) (m : Mem64) : outcome Mem64 :=
  if negb (can_write m) then Ret m
  else
    let i := idx addr m in
    l ← copy_into (Z.to_nat i) (Z.to_nat (wadd (len bs) i)) bs (mem m);
    Ret (set_mem l m).

(** [Mem64::force_write_scalar]: the value goes through a 16-byte buffer. *)
Definition force_write_scalar (n : nat) (addr value : Z) (m : Mem64) : outcome Mem64 :=
  let i := idx addr m in
  buf ← write_le n value (replicate 16 0);
  src ← index_range 0 n buf;
  l ← copy_into (Z.to_nat i) (Z.to_nat (wadd i (Z.of_nat n))) src (mem m);
  Ret (set_mem l m).

(** [Mem64::write_scalar] *)
Definition write_scalar (n : nat) (addr value : Z) (m : Mem64) : outcome Mem64 :=
  if negb (can_write m) then Ret m
  else
    let i := idx addr m in
    buf ← write_le n value (replicate 16 0);
    src ← index_range 0 n buf;
    l ← copy_into (Z.to_nat i) (Z.to_nat (wadd i (Z.of_nat n))) src (mem m);
    Ret (set_mem l m).

Definition write_word : Z -> Z -> Mem64 -> outcome Mem64 := write_scalar (SIZE Word).
Definition write_dword : Z -> Z -> Mem64 -> outcome Mem64 := write_scalar (SIZE Dword).
Definition write_qword : Z -> Z -> Mem64 -> outcome Mem64 := write_scalar (SIZE Qword).
Definition write_oword : Z -> Z -> Mem64 -> outcome Mem64 := write_scalar (SIZE Oword).
Definition force_write_word : Z -> Z -> Mem64 -> outcome Mem64 := force_write_scalar (SIZE Word).
Definition force_write_dword : Z -> Z -> Mem64 -> outcome Mem64 := force_write_scalar (SIZE Dword).
Definition force_write_qword : Z -> Z -> Mem64 -> outcome Mem64 := force_write_scalar (SIZE Qword).
Definition force_write_oword : Z -> Z -> Mem64 -> outcome Mem64 := force_write_scalar (SIZE Oword).

(** ** Strings: a [&str] is its UTF-8 bytes, the result of a read is the byte
    (or UTF-16 unit) sequence before the lossy decoding. *)

(** [Mem64::force_write_string] *)
Definition force_write_string (addr : Z) (s : bytes) (m : Mem64) : outcome Mem64 :=
  force_write_bytes addr (s ++ [0]) m.

(** [if v.last() != Some(&0) { v.push(0) }] *)
Definition terminate (v : list Z) : list Z := if decide (last v = Some 0) then v else v ++ [0].

(** [Mem64::write_string] *)
Definition write_string (addr : Z) (s : bytes) (m : Mem64) : outcome Mem64 :=
  if negb (can_write m) then Ret m else write_bytes addr (terminate s) m.

(** [iter().position(|&b| b == 0)] *)
Fixpoint position0 (l : bytes) : option nat :=
  match l with
  | [] => None
  | b :: l' => if b =? 0 then Some O else S <$> position0 l'
  end.

(** [Mem64::read_string] *)
Definition read_string (addr : Z) (m : Mem64) : outcome bytes :=
  if negb (can_read m) then Ret []
  else
    let start := idx addr m in
    let avail := Z.min (Z.max 0 (len (mem m) - start)) 1000000 in
    region ← index_range (Z.to_nat start) (Z.to_nat (wadd start avail)) (mem m);
    let end_ := from_option id (Z.to_nat avail) (position0 region) in
    index_range 0 end_ region.

(** [Mem64::write_wide_string]: [s] are the UTF-16 units of the string. *)
Definition write_wide_string (addr : Z) (s : list Z) (m : Mem64) : outcome Mem64 :=
  if negb (can_write m) then Ret m
  else write_bytes addr (terminate s ≫= to_le_bytes 2) m.

(** The loop of [read_wide_string_n]: at most [fuel] units. *)
Fixpoint read_wide_loop (fuel : nat) (i : Z) (m : Mem64) : outcome (list Z) :=
  match fuel with
  | O => Ret []
  | S fuel' =>
      b ← read_word i m;
      if b =? 0 then Ret [] else s ← read_wide_loop fuel' (wadd i 2) m; Ret (b :: s)
  end.

(** [Mem64::read_wide_string_n] *)
Definition read_wide_string_n (addr : Z) (max_chars : nat) (m : Mem64) : outcome (list Z) :=
  if negb (can_read m) then Ret [] else read_wide_loop max_chars addr m.

End Mem.

(** ** Well-formed regions *)

(** The bytes fill exactly [base, bottom), which fits below [2 ^ 64]. *)
Record wf_mem (m : Mem64) : Prop := {
  wf_bottom : bottom_addr m = base_addr m + len (mem m);
  wf_base : 0 <= base_addr m;
  wf_top : bottom_addr m < 2 ^ 64;
  wf_bytes : is_bytes (mem m)
}.

(** The range [addr, addr + n) lies in the region. *)
Definition covers (m : Mem64) (addr n : Z) : Prop :=
  base_addr m <= addr /\ 0 <= n /\ addr + n <= bottom_addr m.

(** The byte stored at an address. *)
Definition byte_at (m : Mem64) (addr : Z) : option Z :=
  if base_addr m <=? addr then mem m !! Z.to_nat (addr - base_addr m) else None.

(** The [n] bytes from [addr] on. *)
Definition bytes_at (m : Mem64) (addr : Z) (n : nat) : bytes :=
  take n (drop (Z.to_nat (addr - base_addr m)) (mem m)).

Lemma inside_covers m addr : Mem.inside addr m = true <-> covers m addr 1.
Proof. unfold Mem.inside, covers. rewrite andb_true_iff. lia. Qed.

Lemma inside_byte_at m addr :
  wf_mem m -> Mem.inside addr m = true <-> is_Some (byte_at m addr).
Proof.
  intros [Hb H0 Ht _]. unfold Mem.inside, byte_at.
  rewrite andb_true_iff, Z.leb_le, Z.ltb_lt.
  destruct (Z.leb_spec (base_addr m) addr); [|split; [lia | intros [? ?]; discriminate]].
  rewrite lookup_lt_is_Some. lia.
Qed.

Section Covered.
Context (m : Mem64) (addr : Z) (n : nat).
Context (Hwf : wf_mem m) (Hc : covers m addr (Z.of_nat n)).

Lemma covered_idx : Mem.idx addr m = addr - base_addr m.
Proof.
  destruct Hwf as [Hb H0 Ht _], Hc as (? & ? & ?). apply wsub_small. unfold is_word. lia.
Qed.

Lemma covered_end : wadd (Mem.idx addr m) (Z.of_nat n) = addr - base_addr m + Z.of_nat n.
Proof.
  destruct Hwf as [Hb H0 Ht _], Hc as (? & ? & ?). rewrite covered_idx.
  apply wadd_small. unfold is_word. lia.
Qed.

Lemma covered_fits : (Z.to_nat (addr - base_addr m) + n <= length (mem m))%nat.
Proof. destruct Hwf as [Hb H0 Ht _], Hc as (? & ? & ?). lia. Qed.

Lemma length_bytes_at : length (bytes_at m addr n) = n.
Proof. unfold bytes_at. rewrite length_take, length_drop. pose proof covered_fits. lia. Qed.

Lemma lookup_bytes_at i : (i < n)%nat -> bytes_at m addr n !! i = byte_at m (addr + Z.of_nat i).
Proof.
  intros Hi. destruct Hc as (? & ? & ?). unfold bytes_at, byte_at.
  rewrite lookup_take_lt, lookup_drop by lia. split_ltb. f_equal. lia.
Qed.

Lemma covered_slice :
  index_range (Z.to_nat (Mem.idx addr m)) (Z.to_nat (wadd (Mem.idx addr m) (Z.of_nat n))) (mem m)
  = Ret (bytes_at m addr n).
Proof.
  rewrite covered_end, covered_idx. pose proof covered_fits. destruct Hc as (? & ? & ?).
  unfold index_range, bytes_at. rewrite decide_True by lia. do 2 f_equal. lia.
Qed.

Lemma covered_copy bs :
  length bs = n ->
  copy_into (Z.to_nat (Mem.idx addr m)) (Z.to_nat (wadd (Mem.idx addr m) (Z.of_nat n))) bs (mem m)
  = Ret (splice (Z.to_nat (addr - base_addr m)) bs (mem m)).
Proof.
  intros Hl. rewrite covered_end, covered_idx. pose proof covered_fits.
  destruct Hc as (? & ? & ?). apply copy_into_splice; lia.
Qed.

(** [Mem64::read_scalar] on a covered range. *)
Lemma read_scalar_covered :
  Mem.can_read m = true -> Mem.read_scalar n addr m = Ret (from_le_bytes (bytes_at m addr n)).
Proof.
  intros Hr. unfold Mem.read_scalar. rewrite Hr. cbn [negb].
  rewrite covered_end. destruct Hwf as [Hb _ _ _], Hc as (? & ? & ?).
  rewrite (proj2 (Z.ltb_ge _ _)) by lia. rewrite <- covered_end, covered_slice.
  cbn [mbind outcome_bind]. now rewrite read_le_exact by apply length_bytes_at.
Qed.

(** [Mem64::read_bytes] on a covered range. *)
Lemma read_bytes_covered :
  (0 < n)%nat -> Mem.can_read m = true -> Mem.read_bytes addr (Z.of_nat n) m = bytes_at m addr n.
Proof.
  intros Hn Hr. unfold Mem.read_bytes. rewrite Hr. cbn [negb].
  rewrite covered_end, covered_idx. pose proof covered_fits.
  destruct Hwf as [Hb H0 Ht _], Hc as (? & ? & ?).
  rewrite wadd_small by (unfold is_word; lia). split_ltb.
  unfold get_range, bytes_at. rewrite decide_True by lia. cbn [from_option id]. f_equal. lia.
Qed.

(** The region after writing [bs] at [addr]. *)
Definition written (bs : bytes) : Mem64 :=
  set_mem (splice (Z.to_nat (addr - base_addr m)) bs (mem m)) m.

Lemma force_write_bytes_covered bs : length bs = n -> Mem.force_write_bytes addr bs m = Ret (written bs).
Proof.
  intros Hl. unfold Mem.force_write_bytes. rewrite Hl.
  replace (wadd (Z.of_nat n) (Mem.idx addr m)) with (wadd (Mem.idx addr m) (Z.of_nat n))
    by (unfold wadd; f_equal; lia).
  now rewrite covered_copy.
Qed.

Lemma write_bytes_covered bs :
  length bs = n -> Mem.can_write m = true -> Mem.write_bytes addr bs m = Ret (written bs).
Proof.
  intros Hl Hw. unfold Mem.write_bytes. rewrite Hw. now apply force_write_bytes_covered.
Qed.

Lemma written_wf bs : length bs = n -> is_bytes bs -> wf_mem (written bs).
Proof.
  intros Hl Hbs. destruct Hwf. split; cbn; auto.
  - rewrite length_splice; [auto |]. pose proof covered_fits. lia.
  - now apply Forall_splice.
Qed.

Lemma byte_at_written bs a :
  length bs = n ->
  byte_at (written bs) a
  = if decide (addr <= a < addr + Z.of_nat n) then bs !! Z.to_nat (a - addr) else byte_at m a.
Proof.
  intros Hl. pose proof covered_fits. destruct Hc as (? & ? & ?).
  unfold byte_at, written. cbn [base_addr mem set_mem].
  destruct (Z.leb_spec (base_addr m) a).
  - rewrite lookup_splice by lia.
    destruct (decide (addr <= a < addr + Z.of_nat n)); [rewrite decide_True by lia; f_equal; lia |].
    rewrite decide_False by lia. reflexivity.
  - rewrite decide_False by lia. reflexivity.
Qed.

Lemma bytes_at_written bs : length bs = n -> bytes_at (written bs) addr n = bs.
Proof.
  intros Hl. unfold bytes_at, written. cbn [base_addr mem set_mem]. rewrite <- Hl.
  apply splice_read. pose proof covered_fits. lia.
Qed.
End Covered.

(** The 16-byte buffer of the scalar writers. *)
Lemma write_le_buffer n v :
  (n <= 16)%nat ->
  exists buf, write_le n v (replicate 16 0) = Ret buf
    /\ length buf = 16%nat /\ take n buf = to_le_bytes n v
    /\ index_range 0 n buf = Ret (to_le_bytes n v).
Proof.
  intros Hn. unfold write_le. pose proof (length_to_le_bytes n v) as Hl.
  rewrite copy_into_splice by (rewrite ?length_replicate; lia).
  assert (length (splice 0 (to_le_bytes n v) (replicate 16 0)) = 16%nat) as Hb
    by (rewrite length_splice; rewrite ?length_replicate; lia).
  assert (take n (splice 0 (to_le_bytes n v) (replicate 16 0)) = to_le_bytes n v) as Ht.
  { rewrite <- Hl at 1. rewrite <- (drop_0 (splice _ _ _)). apply splice_read. rewrite length_replicate. lia. }
  eexists. split; [reflexivity |]. split; [exact Hb |]. split; [exact Ht |].
  unfold index_range. rewrite decide_True by lia. now rewrite drop_0, Nat.sub_0_r, Ht.
Qed.

Section ScalarAccess.
Context (m : Mem64) (addr : Z) (n : nat).
Context (Hn : (n <= 16)%nat) (Hwf : wf_mem m) (Hc : covers m addr (Z.of_nat n)).

Lemma force_write_scalar_covered v :
  Mem.force_write_scalar n addr v m = Ret (written m addr (to_le_bytes n v)).
Proof.
  unfold Mem.force_write_scalar. destruct (write_le_buffer n v Hn) as (buf & -> & _ & _ & Hi).
  cbn [mbind outcome_bind]. rewrite Hi. cbn [mbind outcome_bind].
  now rewrite covered_copy by (auto using length_to_le_bytes).
Qed.

Lemma write_scalar_covered v :
  Mem.can_write m = true -> Mem.write_scalar n addr v m = Ret (written m addr (to_le_bytes n v)).
Proof.
  intros Hw. unfold Mem.write_scalar. rewrite Hw. apply force_write_scalar_covered.
Qed.
End ScalarAccess.

Lemma covers_written m addr bs a k : covers (written m addr bs) a k <-> covers m a k.
Proof. reflexivity. Qed.

(** A scalar written inside a readable and writable region is read back, the region
    stays well-formed and no byte outside the scalar's range changes. *)
Theorem mem_write_read k addr v m :
  wf_mem m -> covers m addr (Z.of_nat (SIZE k)) -> is_word (bits_of (SIZE k)) v ->
  Mem.can_write m = true -> Mem.can_read m = true ->
  exists m', Mem.write_scalar (SIZE k) addr v m = Ret m'
    /\ wf_mem m'
    /\ Mem.read_scalar (SIZE k) addr m' = Ret v
    /\ (forall a, ~ addr <= a < addr + Z.of_nat (SIZE k) -> byte_at m' a = byte_at m a).
Proof.
  intros Hwf Hc Hv Hw Hr. assert (SIZE k <= 16)%nat by (destruct k; simpl; lia).
  pose proof (length_to_le_bytes (SIZE k) v) as Hl.
  assert (wf_mem (written m addr (to_le_bytes (SIZE k) v))) as Hwf'
    by (eapply written_wf; eauto using to_le_bytes_bytes).
  exists (written m addr (to_le_bytes (SIZE k) v)). split; [now apply write_scalar_covered |].
  split; [exact Hwf' |]. split.
  - rewrite read_scalar_covered by auto. erewrite bytes_at_written by eauto.
    rewrite from_to_le_bytes_eq by auto. reflexivity.
  - intros a Ha. erewrite byte_at_written by eauto. rewrite decide_False by lia. reflexivity.
Qed.

(** Every read at or above the base returns: out of range it yields 0. *)
Lemma read_le_zeros n : read_le n (replicate n 0) = Ret (Some 0).
Proof.
  rewrite read_le_exact by apply length_replicate. do 2 f_equal.
  induction n as [|n IH]; [reflexivity |]. cbn [replicate from_le_bytes]. now rewrite IH.
Qed.

(** A read below the end of the address space returns the stored value or 0 and
    never panics. *)
Theorem mem_read_total n addr m :
  wf_mem m -> base_addr m <= addr -> addr + Z.of_nat n < 2 ^ 64 ->
  Mem.read_scalar n addr m
  = Ret (if Mem.can_read m && (addr + Z.of_nat n <=? bottom_addr m)
         then from_le_bytes (bytes_at m addr n) else 0).
Proof.
  intros Hwf Hb Ht. destruct (Mem.can_read m) eqn:Hr; cbn [andb].
  - destruct (Z.leb_spec (addr + Z.of_nat n) (bottom_addr m)).
    + apply read_scalar_covered; auto. unfold covers. lia.
    + unfold Mem.read_scalar. rewrite Hr. cbn [negb]. destruct Hwf as [Hbt H0 Ht' _].
      assert (Mem.idx addr m = addr - base_addr m) as Hi
        by (destruct n; apply wsub_small; unfold is_word in *; lia).
      rewrite Hi, wadd_small by (unfold is_word; lia). rewrite (proj2 (Z.ltb_lt _ _)) by lia.
      rewrite read_le_zeros. reflexivity.
  - unfold Mem.read_scalar. rewrite Hr. cbn [negb]. rewrite read_le_zeros. reflexivity.
Qed.

(** ** Structural operations *)

(** The region [create_map] builds. *)
Definition fresh (name : string) (base sz : Z) (p : Permission) : Mem64 :=
  Mem.set_permission p (Mem.set_size sz (Mem.set_base base (Mem.set_name name Mem.default))).

Lemma fresh_wf name base sz p : 0 <= base -> 0 <= sz -> base + sz < 2 ^ 64 -> wf_mem (fresh name base sz p).
Proof.
  intros Hb Hs Ht. split; cbn; rewrite ?length_replicate; [| auto | |].
  - rewrite wadd_small by (unfold is_word; lia). lia.
  - rewrite wadd_small by (unfold is_word; lia). lia.
  - apply Forall_replicate. unfold is_word. lia.
Qed.

Lemma fresh_bottom name base sz p :
  0 <= base -> 0 <= sz -> base + sz < 2 ^ 64 -> bottom_addr (fresh name base sz p) = base + sz.
Proof. intros. cbn. apply wadd_small. unfold is_word. lia. Qed.

Lemma byte_at_fresh name base sz p a :
  0 <= sz -> byte_at (fresh name base sz p) a = if (base <=? a) && (a <? base + sz) then Some 0 else None.
Proof.
  intros Hs. unfold byte_at; cbn. destruct (Z.leb_spec base a); cbn [andb]; [|reflexivity].
  destruct (Z.ltb_spec a (base + sz)).
  - apply lookup_replicate_2. lia.
  - apply lookup_ge_None_2. rewrite length_replicate. lia.
Qed.

Section Structure.
Context (m : Mem64) (Hwf : wf_mem m).

Lemma drop_front_spec n :
  0 <= n <= Mem.size m ->
  exists m', Mem.drop_front n m = Ret m' /\ wf_mem m'
    /\ base_addr m' = base_addr m + n /\ bottom_addr m' = bottom_addr m
    /\ permission m' = permission m /\ mem_name m' = mem_name m
    /\ forall a, base_addr m + n <= a -> byte_at m' a = byte_at m a.
Proof.
  unfold Mem.size. intros Hn. destruct Hwf as [Hb H0 Ht Hbs]. unfold Mem.drop_front. split_ltb.
  eexists. split; [reflexivity |]. cbn.
  rewrite wadd_small by (unfold is_word; lia). split; [|repeat split].
  - split; cbn; rewrite ?length_drop, ?wadd_small by (unfold is_word; lia); auto with lia.
    now apply Forall_drop.
  - intros a Ha. unfold byte_at; cbn. split_ltb.
    rewrite lookup_drop. f_equal. lia.
Qed.

Lemma truncate_spec n :
  0 <= n <= Mem.size m ->
  wf_mem (Mem.truncate n m)
  /\ bottom_addr (Mem.truncate n m) = base_addr m + n
  /\ forall a, a < base_addr m + n -> byte_at (Mem.truncate n m) a = byte_at m a.
Proof.
  unfold Mem.size. intros Hn. destruct Hwf as [Hb H0 Ht Hbs]. unfold Mem.truncate. cbn.
  rewrite wadd_small by (unfold is_word; lia). split; [|split; [reflexivity |]].
  - split; cbn; rewrite ?length_take, ?wadd_small by (unfold is_word; lia); auto with lia.
    now apply Forall_take.
  - intros a Ha. unfold byte_at; cbn. destruct (Z.leb_spec (base_addr m) a); [|reflexivity].
    now rewrite lookup_take_lt by lia.
Qed.

Lemma split_off_spec at_ :
  base_addr m <= at_ <= bottom_addr m ->
  Mem.split_off at_ m
  = Ret (bytes_at m at_ (Z.to_nat (bottom_addr m - at_)), Mem.truncate (at_ - base_addr m) m).
Proof.
  intros Hat. destruct Hwf as [Hb H0 Ht Hbs]. unfold Mem.split_off.
  rewrite wsub_small by (unfold is_word; lia). split_ltb. do 2 f_equal.
  - unfold bytes_at. rewrite take_ge by (rewrite length_drop; lia). reflexivity.
  - unfold Mem.truncate; cbn. f_equal. rewrite wadd_small by (unfold is_word; lia). lia.
Qed.

Lemma extend_wf amount :
  0 <= amount -> bottom_addr m + amount < 2 ^ 64 ->
  wf_mem (Mem.extend amount m)
  /\ forall a, base_addr m <= a < bottom_addr m -> byte_at (Mem.extend amount m) a = byte_at m a.
Proof.
  intros Ha Ht'. destruct Hwf as [Hb H0 Ht Hbs]. unfold Mem.extend. split.
  - split; cbn; rewrite ?length_app, ?length_replicate, ?wadd_small by (unfold is_word; lia); try lia.
    apply Forall_app. split; [auto |]. apply Forall_replicate. unfold is_word. lia.
  - intros a Hin. unfold byte_at; cbn. split_ltb. apply lookup_app_l. lia.
Qed.
End Structure.

(** Cutting a region at an address and copying the tail to a new one preserves every
    byte. *)
Theorem mem_split_preserves m at_ :
  wf_mem m -> base_addr m <= at_ <= bottom_addr m ->
  exists tail m1, Mem.split_off at_ m = Ret (tail, m1)
    /\ wf_mem m1 /\ base_addr m1 = base_addr m /\ bottom_addr m1 = at_
    /\ (forall a, a < at_ -> byte_at m1 a = byte_at m a)
    /\ exists m2, Mem.force_write_bytes at_ tail (fresh (mem_name m) at_ (len tail) (permission m)) = Ret m2
       /\ wf_mem m2 /\ base_addr m2 = at_ /\ bottom_addr m2 = bottom_addr m
       /\ (forall a, at_ <= a -> byte_at m2 a = byte_at m a).
Proof.
  intros Hwf Hat. pose proof (wf_bottom m Hwf). pose proof (wf_base m Hwf). pose proof (wf_top m Hwf).
  set (n := Z.to_nat (bottom_addr m - at_)).
  assert (Z.of_nat n = bottom_addr m - at_) as Hn by (unfold n; lia).
  assert (covers m at_ (Z.of_nat n)) as Hc by (unfold covers; lia).
  exists (bytes_at m at_ n), (Mem.truncate (at_ - base_addr m) m).
  destruct (truncate_spec m Hwf (at_ - base_addr m)) as (Hw1 & Hb1 & Hk1); [unfold Mem.size; lia |].
  split; [now apply split_off_spec |]. split; [exact Hw1 |]. split; [reflexivity |].
  split; [rewrite Hb1; lia |]. split; [intros; apply Hk1; lia |].
  pose proof (length_bytes_at m at_ n Hwf Hc) as Hl.
  set (f := fresh (mem_name m) at_ (len (bytes_at m at_ n)) (permission m)).
  assert (bottom_addr f = bottom_addr m) as Hfb by (unfold f; rewrite fresh_bottom; lia).
  assert (wf_mem f) as Hf by (apply fresh_wf; lia).
  assert (covers f at_ (Z.of_nat n)) as Hcf by (unfold covers; change (base_addr f) with at_; lia).
  exists (written f at_ (bytes_at m at_ n)).
  split; [eapply force_write_bytes_covered; eauto |].
  split; [eapply written_wf; eauto; apply Forall_take, Forall_drop, wf_bytes, Hwf |].
  split; [reflexivity |]. split; [exact Hfb |]. intros a Ha.
  erewrite byte_at_written by eauto. case_decide as Hd.
  - rewrite lookup_bytes_at by (auto; lia). f_equal. lia.
  - unfold f. rewrite byte_at_fresh by lia. split_ltb. cbn [andb].
    symmetry. unfold byte_at. split_ltb. apply lookup_ge_None_2. lia.
Qed.

(** ** Strings *)


Lemma position0_app s r : Forall (fun b => b <> 0) s -> Mem.position0 (s ++ 0 :: r) = Some (length s).
Proof.
  induction 1 as [|b s Hb Hs IH]; [reflexivity |]. cbn. rewrite (proj2 (Z.eqb_neq _ _) Hb), IH. reflexivity.
Qed.

Lemma bytes_at_split m addr n k :
  (k <= n)%nat -> take k (bytes_at m addr n) = bytes_at m addr k.
Proof. intros. unfold bytes_at. rewrite take_take. f_equal. lia. Qed.

Lemma terminate_no_nul s : Forall (fun b => b <> 0) s -> Mem.terminate s = s ++ [0].
Proof.
  intros Hs. unfold Mem.terminate. rewrite decide_False; [reflexivity |].
  intros Hl. apply last_Some in Hl as [l ->]. apply Forall_app in Hs as [_ Hs].
  now inversion_clear Hs.
Qed.

(** [read_string] on memory that holds [s] and a terminator. *)
Lemma read_string_at m addr s :
  wf_mem m -> Mem.can_read m = true -> Forall (fun b => b <> 0) s -> len s < 1000000 ->
  covers m addr (len s + 1) -> bytes_at m addr (length s + 1) = s ++ [0] ->
  Mem.read_string addr m = Ret s.
Proof.
  intros Hwf Hr Hs Hl Hc Hb. unfold Mem.read_string. rewrite Hr. cbn [negb].
  pose proof (wf_bottom m Hwf). pose proof (wf_base m Hwf). pose proof (wf_top m Hwf).
  assert (base_addr m <= addr) by apply Hc. assert (addr + (len s + 1) <= bottom_addr m) by apply Hc.
  assert (Mem.idx addr m = addr - base_addr m) as -> by (apply wsub_small; unfold is_word; lia).
  set (avail := Z.min _ _). assert (len s + 1 <= avail <= bottom_addr m - addr) as Ha by (unfold avail; lia).
  rewrite wadd_small by (unfold is_word; lia).
  unfold index_range at 2. rewrite decide_True by lia. cbn [mbind outcome_bind].
  replace (Z.to_nat (addr - base_addr m + avail) - Z.to_nat (addr - base_addr m))%nat
    with (Z.to_nat avail) by lia.
  fold (bytes_at m addr (Z.to_nat avail)).
  assert (bytes_at m addr (Z.to_nat avail)
          = s ++ 0 :: drop (length s + 1) (bytes_at m addr (Z.to_nat avail))) as E.
  { rewrite <- (take_drop (length s + 1) (bytes_at m addr (Z.to_nat avail))) at 1.
    rewrite bytes_at_split by lia. rewrite Hb, <- app_assoc. reflexivity. }
  rewrite E, position0_app by auto. cbn [from_option id].
  unfold index_range. rewrite decide_True by (rewrite length_app; lia).
  now rewrite drop_0, Nat.sub_0_r, take_app_length.
Qed.

(** A string without NUL bytes, shorter than the limit of read_string, that is
    written with its terminator inside a region is read back. *)
Theorem mem_string_roundtrip m addr s :
  wf_mem m -> Mem.can_read m = true -> Mem.can_write m = true ->
  is_bytes s -> Forall (fun b => b <> 0) s -> len s < 1000000 -> covers m addr (len s + 1) ->
  exists m', Mem.write_string addr s m = Ret m' /\ Mem.read_string addr m' = Ret s.
Proof.
  intros Hwf Hr Hw Hs Hn Hl Hc. unfold Mem.write_string. rewrite Hw. cbn [negb].
  rewrite terminate_no_nul by auto.
  assert (length (s ++ [0]) = (length s + 1)%nat) as Hlen by (rewrite length_app; reflexivity).
  assert (covers m addr (Z.of_nat (length s + 1))) as Hc'
    by (replace (Z.of_nat (length s + 1)) with (len s + 1) by lia; exact Hc).
  exists (written m addr (s ++ [0])). split; [eapply write_bytes_covered; eauto |].
  apply read_string_at; auto.
  - eapply written_wf; eauto. apply Forall_app. repeat constructor; auto; lia.
  - eapply bytes_at_written; eauto.
Qed.

(** ** The theorems at a concrete region *)

Definition sample_mem : Mem64 := fresh "sample" 0x1000 0x20 Perm.READ_WRITE.

Lemma sample_mem_wf : wf_mem sample_mem.
Proof. split; [reflexivity | cbn; lia | reflexivity |]. repeat constructor; lia. Qed.

Lemma mem_write_read_witness :
  exists m', Mem.write_scalar 4 0x1004 0xdeadbeef sample_mem = Ret m' /\ Mem.read_scalar 4 0x1004 m' = Ret 0xdeadbeef.
Proof.
  destruct (mem_write_read Dword 0x1004 0xdeadbeef sample_mem sample_mem_wf) as (m' & Hw & _ & Hr & _);
    [split_and!; vm_compute; discriminate | split; [lia | reflexivity] | reflexivity | reflexivity |].
  exists m'. split; [exact Hw | exact Hr].
Defined.

Lemma mem_read_total_witness : Mem.read_scalar 4 0x101e sample_mem = Ret 0.
Proof. rewrite (mem_read_total 4 0x101e sample_mem sample_mem_wf); [reflexivity | cbn; lia | lia]. Defined.

Lemma mem_split_preserves_witness :
  exists tail m1, Mem.split_off 0x1008 sample_mem = Ret (tail, m1) /\ wf_mem m1 /\ bottom_addr m1 = 0x1008.
Proof.
  destruct (mem_split_preserves sample_mem 0x1008 sample_mem_wf) as (tail & m1 & E & Hw & _ & Hb & _);
    [split; vm_compute; discriminate |].
  exists tail, m1. split_and!; assumption.
Defined.

Lemma mem_string_roundtrip_witness :
  exists m', Mem.write_string 0x1004 [104; 105] sample_mem = Ret m' /\ Mem.read_string 0x1004 m' = Ret [104; 105].
Proof.
  apply (mem_string_roundtrip sample_mem 0x1004 [104; 105] sample_mem_wf);
    [reflexivity | reflexivity | repeat constructor; lia | repeat constructor; lia | cbn; lia
    | split_and!; vm_compute; discriminate].
Defined.
