(* ===== verification/BTree.v ===== *)
(** * [std::collections::BTreeMap<u64, usize>]

    The ordered map of the standard library, as the code uses it: a finite map
    whose ranges are visited in key order.  The contents are a [gmap]; the
    ranges are cut out of the entries sorted by key. *)

From stdpp Require Import gmap sorting.
From S2P Require Import Prelude.

Notation btree := (gmap Z nat).

Definition key_le (p q : Z * nat) : Prop := p.1 <= q.1.

#[export] Instance key_le_dec : RelDecision key_le := fun p q => Z.le_dec p.1 q.1.

(** [iter()] *)
Definition entries (m : btree) : list (Z * nat) := merge_sort key_le (map_to_list m).

(** [range(..=a)], [range(..a)], [range(a..)] *)
Definition range_to_inclusive (a : Z) (m : btree) : list (Z * nat) :=
  filter (fun p => p.1 <= a) (entries m).
Definition range_to (a : Z) (m : btree) : list (Z * nat) :=
  filter (fun p => p.1 < a) (entries m).
Definition range_from (a : Z) (m : btree) : list (Z * nat) :=
  filter (fun p => a <= p.1) (entries m).

(** [range(a..b)]: panics when [a > b]. *)
Definition range (a b : Z) (m : btree) : outcome (list (Z * nat)) :=
  if a <=? b then Ret (filter (fun p => a <= p.1 < b) (entries m)) else Panic.

(** [next_back()] and [next()] of a range. *)
Definition next_back (l : list (Z * nat)) : option (Z * nat) := last l.
Definition next (l : list (Z * nat)) : option (Z * nat) := head l.

(** ** Specification *)

#[local] Instance key_le_total : Total key_le.
Proof. intros p q. unfold key_le. lia. Qed.

#[local] Instance key_le_trans : Transitive key_le.
Proof. intros p q r. unfold key_le. lia. Qed.

Lemma elem_of_entries m k v : (k, v) ∈ entries m <-> m !! k = Some v.
Proof. unfold entries. now rewrite merge_sort_Permutation, elem_of_map_to_list. Qed.

Lemma entries_sorted m : StronglySorted key_le (entries m).
Proof. apply StronglySorted_merge_sort; tc_solve. Qed.

Lemma entries_nodup m : NoDup (entries m).*1.
Proof. unfold entries. rewrite merge_sort_Permutation. apply NoDup_fst_map_to_list. Qed.

(** Filtering keeps the order; the last element of a sorted list is the
    greatest and the first the least. *)
Lemma sorted_filter {A} (R : A -> A -> Prop) (P : A -> Prop) `{forall x, Decision (P x)} l :
  StronglySorted R l -> StronglySorted R (filter P l).
Proof.
  induction 1 as [|x l Hs IH Hf]; [constructor |]. rewrite filter_cons. case_decide; [|exact IH].
  constructor; [exact IH |]. rewrite Forall_forall in *. intros y Hy.
  apply list_elem_of_filter in Hy as [_ Hy]. now apply Hf.
Qed.

Lemma sorted_last {A} (R : A -> A -> Prop) l x :
  StronglySorted R l -> last l = Some x -> x ∈ l /\ forall y, y ∈ l -> y = x \/ R y x.
Proof.
  intros Hs Hl. apply last_Some in Hl as [l' ->]. split; [set_solver |].
  intros y Hy. apply elem_of_app in Hy as [Hy | Hy]; [right | left; set_solver].
  apply (StronglySorted_app_1_elem_of R l' [x]); [auto | auto | set_solver].
Qed.

Lemma sorted_head {A} (R : A -> A -> Prop) l x :
  StronglySorted R l -> head l = Some x -> x ∈ l /\ forall y, y ∈ l -> y = x \/ R x y.
Proof.
  intros Hs Hl. destruct l as [|z l]; simplify_eq/=. split; [set_solver |].
  inversion_clear Hs as [|? ? _ Hf]. intros y Hy. apply elem_of_cons in Hy as [-> | Hy]; [auto |].
  right. rewrite Forall_forall in Hf. now apply Hf.
Qed.

(** The greatest key at most [a]. *)
Lemma last_le_spec a m k v :
  next_back (range_to_inclusive a m) = Some (k, v) <->
  m !! k = Some v /\ k <= a /\ forall k' v', m !! k' = Some v' -> k' <= a -> k' <= k.
Proof.
  unfold next_back, range_to_inclusive.
  pose proof (sorted_filter key_le (fun p => p.1 <= a) _ (entries_sorted m)) as Hs. split.
  - intros Hl. destruct (sorted_last _ _ _ Hs Hl) as [Hin Hmax].
    apply list_elem_of_filter in Hin as [Hk Hin]. apply elem_of_entries in Hin.
    split; [exact Hin |]. split; [exact Hk |]. intros k' v' Hk' Hle.
    destruct (Hmax (k', v')) as [[=] | Hr].
    + apply list_elem_of_filter. split; [exact Hle | now apply elem_of_entries].
    + lia.
    + exact Hr.
  - intros (Hin & Hk & Hmax).
    assert ((k, v) ∈ filter (fun p => p.1 <= a) (entries m)) as Hf
      by (apply list_elem_of_filter; split; [exact Hk | now apply elem_of_entries]).
    destruct (last (filter (fun p => p.1 <= a) (entries m))) as [[k0 v0]|] eqn:Hl.
    + destruct (sorted_last _ _ _ Hs Hl) as [Hin0 Hmax0].
      apply list_elem_of_filter in Hin0 as [Hk0 Hin0]. apply elem_of_entries in Hin0.
      assert (k0 <= k) by (eapply Hmax; eauto).
      destruct (Hmax0 _ Hf) as [E | Hr]; [congruence |]. unfold key_le in Hr; simpl in *.
      assert (k = k0) as -> by lia. congruence.
    + apply last_None in Hl. rewrite Hl in Hf. set_solver.
Qed.

Lemma last_le_none a m :
  next_back (range_to_inclusive a m) = None <-> forall k v, m !! k = Some v -> a < k.
Proof.
  unfold next_back, range_to_inclusive. rewrite last_None. split.
  - intros E k v Hk. destruct (decide (k <= a)); [|lia].
    assert ((k, v) ∈ filter (fun p => p.1 <= a) (entries m)) as Hf
      by (apply list_elem_of_filter; split; [auto | now apply elem_of_entries]).
    rewrite E in Hf. set_solver.
  - intros H. destruct (filter _ _) as [|[k v] l] eqn:E; [reflexivity |].
    assert ((k, v) ∈ filter (fun p => p.1 <= a) (entries m)) as Hf by (rewrite E; set_solver).
    apply list_elem_of_filter in Hf as [Hk Hin]. apply elem_of_entries in Hin.
    apply H in Hin. simpl in Hk. lia.
Qed.

(** The least key at least [a]. *)
Lemma first_ge_spec a m k v :
  next (range_from a m) = Some (k, v) ->
  m !! k = Some v /\ a <= k /\ forall k' v', m !! k' = Some v' -> a <= k' -> k <= k'.
Proof.
  unfold next, range_from. intros Hh.
  pose proof (sorted_filter key_le (fun p => a <= p.1) _ (entries_sorted m)) as Hs.
  destruct (sorted_head _ _ _ Hs Hh) as [Hin Hmin].
  apply list_elem_of_filter in Hin as [Hk Hin]. apply elem_of_entries in Hin.
  split; [exact Hin |]. split; [exact Hk |]. intros k' v' Hk' Hle.
  destruct (Hmin (k', v')) as [[=] | Hr].
  - apply list_elem_of_filter. split; [exact Hle | now apply elem_of_entries].
  - lia.
  - exact Hr.
Qed.

Lemma first_ge_exact a m v : m !! a = Some v -> next (range_from a m) = Some (a, v).
Proof.
  intros Ha. unfold next, range_from.
  assert ((a, v) ∈ filter (fun p => a <= p.1) (entries m)) as Hf
    by (apply list_elem_of_filter; split; [simpl; lia | now apply elem_of_entries]).
  destruct (head (filter (fun p => a <= p.1) (entries m))) as [[k w]|] eqn:Hh.
  - apply first_ge_spec in Hh as (Hk & Hle & Hmin). specialize (Hmin _ _ Ha ltac:(lia)).
    assert (k = a) as -> by lia. congruence.
  - destruct (filter _ _); [set_solver | discriminate].
Qed.

Lemma filter_keys_nodup (P : Z * nat -> Prop) `{forall x, Decision (P x)} (l : list (Z * nat)) :
  NoDup l.*1 -> NoDup (filter P l).*1.
Proof.
  induction l as [|p l IH]; [constructor |]. cbn [fmap list_fmap]. intros [Hp Hl]%NoDup_cons.
  rewrite filter_cons. case_decide; [|auto]. cbn. constructor; [|auto]. intros Hin. apply Hp.
  apply list_elem_of_fmap in Hin as (q & -> & Hq). apply list_elem_of_filter in Hq as [_ Hq].
  apply list_elem_of_fmap. eauto.
Qed.
