(* ===== verification/Slab.v ===== *)
(** * The slab of regions (crate [slab])

    [Maps::mem_slab] is a [slab::Slab<Mem64>], a third-party container: it is
    an interface here.  [Slab] names the operations the code calls and
    [SlabLaws] what the crate documents about them; [gmap_slab] is an instance
    that runs, with the crate's reuse of vacated keys. *)

From stdpp Require Import gmap fin_maps.
From S2P Require Import Prelude Mem64.

(** [get_mut] followed by a store is [slab_put]; [remove] panics on a vacant
    key. *)
Class Slab (S : Type) := {
  slab_empty : S;
  slab_get : S -> nat -> option Mem64;
  slab_insert : Mem64 -> S -> nat * S;
  slab_put : nat -> Mem64 -> S -> S;
  slab_remove : nat -> S -> outcome S;
  slab_iter : S -> list (nat * Mem64)
}.

Class SlabLaws (S : Type) `{Slab S} : Prop := {
  slab_get_empty k : slab_get slab_empty k = None;
  slab_insert_fresh v s : slab_get s (slab_insert v s).1 = None;
  slab_get_insert v s k :
    slab_get (slab_insert v s).2 k = if decide (k = (slab_insert v s).1) then Some v else slab_get s k;
  slab_get_put j v s k :
    is_Some (slab_get s j) ->
    slab_get (slab_put j v s) k = if decide (k = j) then Some v else slab_get s k;
  slab_get_remove j s :
    is_Some (slab_get s j) ->
    exists s', slab_remove j s = Ret s' /\
      forall k, slab_get s' k = if decide (k = j) then None else slab_get s k;
  slab_remove_vacant j s : slab_get s j = None -> slab_remove j s = Panic;
  slab_iter_get s k v : (k, v) ∈ slab_iter s <-> slab_get s k = Some v;
  slab_iter_nodup s : NoDup (slab_iter s).*1
}.

(** ** An executable instance *)

(** The lowest vacant key, looked for among the first [n] keys. *)
Fixpoint vacant_below (n : nat) (s : gmap nat Mem64) : nat :=
  match n with
  | O => O
  | S n' =>
      let k := vacant_below n' s in
      if decide (k = n') then (match s !! n' with None => n' | Some _ => n end) else k
  end.

Definition vacant_key (s : gmap nat Mem64) : nat := vacant_below (S (size s)) s.

#[export] Instance gmap_slab : Slab (gmap nat Mem64) := {
  slab_empty := ∅;
  slab_get s k := s !! k;
  slab_insert v s := (vacant_key s, <[vacant_key s := v]> s);
  slab_put k v s := <[k := v]> s;
  slab_remove k s := match s !! k with Some _ => Ret (delete k s) | None => Panic end;
  slab_iter s := map_to_list s
}.

Lemma vacant_below_spec n s :
  let k := vacant_below n s in
  (k <= n)%nat /\ (forall i, (i < k)%nat -> is_Some (s !! i)) /\ ((k < n)%nat -> s !! k = None).
Proof.
  induction n as [|n (Hle & Hocc & Hvac)]; cbn; [split; [lia |]; split; intros; lia |].
  case_decide as Hk.
  - rewrite Hk in *. destruct (s !! n) eqn:E.
    + split; [lia |]. split; [|lia]. intros i Hi. destruct (decide (i = n)) as [-> |]; [eauto |].
      apply Hocc. lia.
    + split; [lia |]. split; [exact Hocc | auto].
  - split; [lia |]. split; [exact Hocc |]. intros. apply Hvac. lia.
Qed.

Lemma vacant_key_spec s : s !! vacant_key s = None.
Proof.
  unfold vacant_key. destruct (vacant_below_spec (S (size s)) s) as (Hle & Hocc & Hvac).
  set (k := vacant_below _ s) in *. destruct (decide (k < S (size s))%nat); [auto |].
  exfalso. assert (set_seq 0 (S (size s)) ⊆ dom s) as Hsub.
  { intros i Hi. apply elem_of_set_seq in Hi. apply elem_of_dom, Hocc. lia. }
  apply subseteq_size in Hsub. rewrite size_set_seq, size_dom in Hsub. lia.
Qed.

#[export] Instance gmap_slab_laws : SlabLaws (gmap nat Mem64).
Proof.
  split; cbn -[vacant_key]; intros.
  - apply lookup_empty.
  - apply vacant_key_spec.
  - destruct (decide (k = vacant_key s)) as [-> |]; [apply lookup_insert_eq | now apply lookup_insert_ne].
  - destruct (decide (k = j)) as [-> |]; [apply lookup_insert_eq | now apply lookup_insert_ne].
  - destruct H as [v ->]. eexists. split; [reflexivity |]. intros k.
    destruct (decide (k = j)) as [-> |]; [apply lookup_delete_eq | now apply lookup_delete_ne].
  - now rewrite H.
  - apply elem_of_map_to_list.
  - apply NoDup_fst_map_to_list.
Qed.
