(* ===== verification/Tlb.v ===== *)
(** * The software TLB ([maps/tlb.rs])

    A direct-mapped cache from pages to slab keys.  A lookup uses the stored
    key without comparing [lpf], and [flush] only resets [lpf]: the entries
    are hints that [Maps] validates with [Mem64::inside]. *)

From S2P Require Import Prelude.

Definition TLB_SIZE : nat := Z.to_nat 2048.

(** [LPF_OF] *)
Definition LPF_OF (addr : Z) : Z := Z.land addr 0xfffffffffffff000.

Definition INVALID_TLB_ENTRY : Z := 0xffffffffffffffff.

(** [struct TLBEntry] *)
Record TLBEntry := mkTLBEntry { lpf : Z; mem64 : nat }.

(** [TLBEntry::new], [valid], [invalidate], [set_mem], [get_mem] *)
Definition entry_new : TLBEntry := mkTLBEntry INVALID_TLB_ENTRY 0.
Definition valid (e : TLBEntry) : bool := negb (lpf e =? INVALID_TLB_ENTRY).
Definition invalidate (e : TLBEntry) : TLBEntry := mkTLBEntry INVALID_TLB_ENTRY (mem64 e).
Definition set_entry_mem (p : Z) (k : nat) (e : TLBEntry) : TLBEntry := mkTLBEntry p k.
Definition get_mem (e : TLBEntry) : nat := mem64 e.

(** [struct TLB]: the array [entry: [TLBEntry; TLB_SIZE]]. *)
Notation TLB := (list TLBEntry).

(** [TLB::new] *)
Definition tlb_new : TLB := replicate TLB_SIZE entry_new.

(** [TLB::flush] *)
Definition flush (t : TLB) : TLB := invalidate <$> t.

(** [TLB::get_index_of] *)
Definition get_index_of (p n : Z) : nat :=
  let TLB_MASK := wrap 32 (Z.shiftl (Z.of_nat TLB_SIZE - 1) 12) in
  Z.to_nat (Z.shiftr (Z.land (wadd p n) TLB_MASK) 12).

(** [TLB::get_entry_of] *)
Definition get_entry_of (addr n : Z) (t : TLB) : outcome TLBEntry :=
  index (get_index_of (LPF_OF addr) n) t.

(** A store through [TLB::get_entry_of_mut]. *)
Definition put_entry_of (addr n : Z) (e : TLBEntry) (t : TLB) : outcome TLB :=
  index_set (get_index_of (LPF_OF addr) n) e t.

(** [TLB::invlpg] *)
Definition invlpg (laddr : Z) (t : TLB) : outcome TLB :=
  e ← get_entry_of laddr 0 t;
  if LPF_OF (lpf e) =? LPF_OF laddr then put_entry_of laddr 0 (invalidate e) t else Ret t.

(** ** The array is never indexed out of range *)

Definition wf_tlb (t : TLB) : Prop := length t = TLB_SIZE.

Lemma index_bound p n : (get_index_of p n < TLB_SIZE)%nat.
Proof.
  unfold get_index_of. change (wrap 32 (Z.shiftl (Z.of_nat TLB_SIZE - 1) 12)) with (Z.shiftl (Z.ones 11) 12).
  assert (is_word 11 (Z.shiftr (Z.land (wadd p n) (Z.shiftl (Z.ones 11) 12)) 12)) as Hw.
  { apply Z.bounded_iff_bits_nonneg'; [lia | |].
    - apply Z.shiftr_nonneg, Z.land_nonneg. left. apply wrap_word. lia.
    - intros i Hi. bits_simpl. btauto. }
  unfold is_word in Hw. unfold TLB_SIZE. lia.
Qed.

Lemma get_entry_total addr n t : wf_tlb t -> exists e, get_entry_of addr n t = Ret e.
Proof.
  intros Ht. unfold get_entry_of, index. pose proof (index_bound (LPF_OF addr) n).
  destruct (lookup_lt_is_Some_2 t (get_index_of (LPF_OF addr) n)) as [e ->]; [|eauto].
  rewrite Ht. lia.
Qed.

Lemma put_entry_total addr n e t :
  wf_tlb t -> exists t', put_entry_of addr n e t = Ret t' /\ wf_tlb t'.
Proof.
  intros Ht. unfold put_entry_of, index_set. pose proof (index_bound (LPF_OF addr) n).
  rewrite decide_True by (rewrite Ht; lia). eexists. split; [reflexivity |].
  unfold wf_tlb. now rewrite length_insert.
Qed.

Lemma flush_wf t : wf_tlb t -> wf_tlb (flush t).
Proof. unfold wf_tlb, flush. now rewrite length_fmap. Qed.

Lemma tlb_new_wf : wf_tlb tlb_new.
Proof. apply length_replicate. Qed.
