(* ===== verification/Maps.v ===== *)
(** * The memory-map manager ([maps/mod.rs], [maps/utilities.rs])

    [Maps] owns the regions (a slab), an ordered index from base address to
    slab key, an index from name to slab key, the software TLB and the log of
    writes to executable memory.  Reads go through [&self] but update the TLB
    (a [RefCell]), so they return the new state too.  A [&Mem64] or
    [&mut Mem64] is represented by its slab key and its contents.  Logging and
    the file operations are left out.

    This file holds the operations; MapsInv.v the invariant and the proofs. *)

From stdpp Require Import gmap strings pretty.
From S2P Require Import Prelude Scalar Mem64 BTree Slab Tlb.

(** [struct Maps] *)
Record Maps (S : Type) := mkMaps {
  banzai : bool;
  mem_slab : S;
  maps : btree;
  name_map : gmap string nat;
  is_64bits : bool;
  tlb : TLB;
  max_alloc_size : Z;
  code_writes : list (Z * Z)
}.
Arguments mkMaps {S}.
Arguments banzai {S}.
Arguments mem_slab {S}.
Arguments maps {S}.
Arguments name_map {S}.
Arguments is_64bits {S}.
Arguments tlb {S}.
Arguments max_alloc_size {S}.
Arguments code_writes {S}.

(** The [Err] values of [create_map]. *)
Inductive MapError :=
  | AddressExists (base : Z)
  | NameExists (name : string).

(** [windows/constants.rs] *)
Definition ALLOC32_MIN : Z := 0x6000000.
Definition ALLOC32_MAX : Z := 0x6FFFFFFF.
Definition LIBS32_MIN : Z := 0x70000000.
Definition LIBS32_MAX : Z := 0x7FFE0000.
Definition ALLOC64_MIN : Z := 0x710000000000.
Definition ALLOC64_MAX : Z := 0x7fefffffffff.
Definition LIBS64_MIN : Z := 0x7FF000000000.
Definition LIBS64_MAX : Z := 0x7FFFFFFFFFFF.

(** [Maps::DEFAULT_ALIGNMENT], [CODE_WRITES_CAP], [CODE_WRITES_ALL] *)
Definition DEFAULT_ALIGNMENT : Z := 0x1000.
Definition CODE_WRITES_CAP : nat := 64.
Definition CODE_WRITES_ALL : Z * Z := (0, 2 ^ 64 - 1).

(** [format!("{:x}", v)] *)
Definition hex_digit (d : Z) : string :=
  nth (Z.to_nat d) ["0"; "1"; "2"; "3"; "4"; "5"; "6"; "7"; "8"; "9"; "a"; "b"; "c"; "d"; "e"; "f"] "".

Fixpoint hex_digits (fuel : nat) (v : Z) (acc : string) : string :=
  match fuel with
  | O => acc
  | S f => let acc := hex_digit (v mod 16) +:+ acc in
           if v / 16 =? 0 then acc else hex_digits f (v / 16) acc
  end.

Definition hex (v : Z) : string := hex_digits 16 v "".

(** [str::ends_with] *)
Definition ends_with (suffix s : string) : bool :=
  bool_decide (String.substring (String.length s - String.length suffix) (String.length suffix) s = suffix).

Section Operations.
Context {S : Type} `{Slab S}.

(** Field updates. *)
Definition set_slab (v : S) (m : Maps S) : Maps S :=
  mkMaps (banzai m) v (maps m) (name_map m) (is_64bits m) (tlb m) (max_alloc_size m) (code_writes m).
Definition set_maps (v : btree) (m : Maps S) : Maps S :=
  mkMaps (banzai m) (mem_slab m) v (name_map m) (is_64bits m) (tlb m) (max_alloc_size m) (code_writes m).
Definition set_name_map (v : gmap string nat) (m : Maps S) : Maps S :=
  mkMaps (banzai m) (mem_slab m) (maps m) v (is_64bits m) (tlb m) (max_alloc_size m) (code_writes m).
Definition set_tlb (v : TLB) (m : Maps S) : Maps S :=
  mkMaps (banzai m) (mem_slab m) (maps m) (name_map m) (is_64bits m) v (max_alloc_size m) (code_writes m).
Definition set_code_writes (v : list (Z * Z)) (m : Maps S) : Maps S :=
  mkMaps (banzai m) (mem_slab m) (maps m) (name_map m) (is_64bits m) (tlb m) (max_alloc_size m) v.
Definition set_banzai (v : bool) (m : Maps S) : Maps S :=
  mkMaps v (mem_slab m) (maps m) (name_map m) (is_64bits m) (tlb m) (max_alloc_size m) (code_writes m).

(** A store through the [&mut Mem64] at slab key [k]. *)
Definition put_mem (k : nat) (v : Mem64) (m : Maps S) : Maps S := set_slab (slab_put k v (mem_slab m)) m.

(** [Maps::default] *)
Definition maps_default : Maps S := mkMaps false slab_empty ∅ ∅ false tlb_new 0xffffff [].

(** ** The log of writes to executable memory *)

(** [Maps::note_code_write] *)
Definition note_code_write (addr n : Z) (m : Maps S) : Maps S :=
  let log := code_writes m in
  if decide (head log = Some CODE_WRITES_ALL) then m
  else if (CODE_WRITES_CAP <=? length log)%nat then set_code_writes [CODE_WRITES_ALL] m
  else set_code_writes (log ++ [(addr, n)]) m.

(** [Maps::has_code_writes] *)
Definition has_code_writes (m : Maps S) : bool := negb (length (code_writes m) =? 0)%nat.

(** [Maps::drain_code_writes]: the new contents of [out]. *)
Definition drain_code_writes (m : Maps S) : list (Z * Z) * Maps S :=
  (code_writes m, set_code_writes [] m).

(** [Maps::clear]: the TLB is not touched. *)
Definition clear (m : Maps S) : Maps S := set_name_map ∅ (set_maps ∅ (set_slab slab_empty m)).

(** ** Lookup *)

(** The TLB miss of both lookups: search the ordered index and remember the
    result in the entry of the page. *)
Definition tlb_miss (addr : Z) (m : Maps S) : outcome (option (nat * Mem64) * Maps S) :=
  match next_back (range_to_inclusive addr (maps m)) with
  | None => Ret (None, m)
  | Some (_, key) =>
      match slab_get (mem_slab m) key with
      | None => Ret (None, m)
      | Some mem_ref =>
          if negb (Mem.inside addr mem_ref) then Ret (None, m)
          else
            t ← put_entry_of addr 0 (mkTLBEntry (LPF_OF addr) key) (tlb m);
            Ret (Some (key, mem_ref), set_tlb t m)
      end
  end.

(** [Maps::get_mem_by_addr_mut] *)
Definition get_mem_by_addr_mut (addr : Z) (m : Maps S) : outcome (option (nat * Mem64) * Maps S) :=
  e ← get_entry_of addr 0 (tlb m);
  match slab_get (mem_slab m) (get_mem e) with
  | Some mem_ref => if Mem.inside addr mem_ref then Ret (Some (get_mem e, mem_ref), m) else tlb_miss addr m
  | None => t ← put_entry_of addr 0 (invalidate e) (tlb m); tlb_miss addr (set_tlb t m)
  end.

(** [Maps::get_mem_by_addr] *)
Definition get_mem_by_addr (addr : Z) (m : Maps S) : outcome (option (nat * Mem64) * Maps S) :=
  e ← get_entry_of addr 0 (tlb m);
  match slab_get (mem_slab m) (get_mem e) with
  | Some mem_ref => if Mem.inside addr mem_ref then Ret (Some (get_mem e, mem_ref), m) else tlb_miss addr m
  | None => tlb_miss addr m
  end.

(** [Maps::is_mapped], [is_allocated], [is_valid_ptr] *)
Definition is_mapped (addr : Z) (m : Maps S) : outcome (bool * Maps S) :=
  '(r, m) ← get_mem_by_addr addr m; Ret (bool_decide (is_Some r), m).
Definition is_allocated (addr : Z) (m : Maps S) : outcome (bool * Maps S) :=
  '(r, m) ← get_mem_by_addr addr m; Ret (bool_decide (is_Some r), m).
Definition is_valid_ptr (addr : Z) (m : Maps S) : outcome (bool * Maps S) :=
  if 0 <? addr then '(r, m) ← get_mem_by_addr addr m; Ret (bool_decide (is_Some r), m)
  else Ret (false, m).

(** [Maps::get_addr_base], [get_addr_name] *)
Definition get_addr_base (addr : Z) (m : Maps S) : outcome (option Z * Maps S) :=
  '(r, m) ← get_mem_by_addr addr m; Ret (option_map (fun p => base_addr p.2) r, m).
Definition get_addr_name (addr : Z) (m : Maps S) : outcome (option string * Maps S) :=
  '(r, m) ← get_mem_by_addr addr m; Ret (option_map (fun p => mem_name p.2) r, m).

(** [Maps::exists_mapname], [get_map_by_name] *)
Definition exists_mapname (name : string) (m : Maps S) : bool := bool_decide (is_Some (name_map m !! name)).
Definition get_map_by_name (name : string) (m : Maps S) : option Mem64 :=
  name_map m !! name ≫= slab_get (mem_slab m).

(** [Maps::unique_map_name]: the unbounded search, cut at [fuel] names. *)
Fixpoint unique_from (fuel : nat) (n : N) (prefix : string) (m : Maps S) : option string :=
  match fuel with
  | O => None
  | Datatypes.S f =>
      let name := prefix +:+ "_" +:+ pretty n in
      if exists_mapname name m then unique_from f (n + 1) prefix m else Some name
  end.

Definition unique_map_name (fuel : nat) (prefix : string) (m : Maps S) : option string :=
  if negb (exists_mapname prefix m) then Some prefix else unique_from fuel 1 prefix m.

(** [Maps::get_base] *)
Definition get_base (m : Maps S) : option Z :=
  base_addr <$> find (fun mm => ends_with ".pe" (mem_name mm)) (slab_iter (mem_slab m)).*2.

(** [Maps::get_mem_size] *)
Definition get_mem_size (addr : Z) (m : Maps S) : option Z :=
  match next_back (range_to_inclusive addr (maps m)) with
  | None => None
  | Some (start, key) =>
      region ← slab_get (mem_slab m) key;
      let size := Mem.size region in
      if (start <=? addr) && (addr <? wadd start size) then Some size else None
  end.

(** [Maps::overflow_predicted] *)
Definition overflow_predicted (addr amount : Z) (m : Maps S) : bool :=
  from_option id true
    (match next_back (range_to_inclusive addr (maps m)) with
     | None => None
     | Some (start, key) =>
         region ← slab_get (mem_slab m) key;
         let size := Mem.size region in
         if (start <=? addr) && (addr <? wadd start size) then
           if wadd addr amount <? wadd start size then Some false else Some true
         else Some true
     end).

(** [Maps::next_mapped_addr] *)
Definition next_mapped_addr (addr : Z) (m : Maps S) : option Z :=
  fst <$> next (range_from (saturating_add addr 1) (maps m)).

(** [Maps::alloc_region_base_for_free] *)
Definition alloc_region_base_for_free (addr : Z) (m : Maps S) : outcome (option Z * Maps S) :=
  '(r, m) ← get_addr_base addr m;
  match r with
  | Some b => Ret (Some b, m)
  | None =>
      '(r, m) ← (if 0 <? addr then get_addr_base (addr - 1) m else Ret (None, m));
      match r with
      | Some b => Ret (Some b, m)
      | None =>
          Ret (base_addr <$>
                 find (fun mm => String.prefix "alloc_" (mem_name mm)
                                 && (Mem.inside addr mm || ((0 <? addr) && Mem.inside (addr - 1) mm)
                                     || (addr =? bottom_addr mm)))
                      (slab_iter (mem_slab m)).*2, m)
      end
  end.

(** ** Creating and destroying maps *)

(** [Maps::create_map]: on success the slab key of the new region. *)
Definition create_map (name : string) (base size : Z) (perm : Permission) (m : Maps S)
    : outcome ((MapError + nat) * Maps S) :=
  '(r, m) ← get_mem_by_addr_mut base m;
  if decide (is_Some r) then Ret (inl (AddressExists base), m)
  else if exists_mapname name m then Ret (inl (NameExists name), m)
  else
    let mem := Mem.default in
    let mem := Mem.set_name name mem in
    let mem := Mem.set_base base mem in
    let mem := Mem.set_size size mem in
    let mem := Mem.set_permission perm mem in
    let (base_key, slab) := slab_insert mem (mem_slab m) in
    let m := set_slab slab m in
    let m := set_name_map (<[name := base_key]> (name_map m)) m in
    let m := set_maps (<[base := base_key]> (maps m)) m in
    let m := set_tlb (flush (tlb m)) m in
    let m := if Perm.can_execute perm then note_code_write base size m else m in
    match slab_get (mem_slab m) base_key with
    | Some _ => Ret (inr base_key, m)
    | None => Panic
    end.

(** [Maps::free] *)
Definition free (name : string) (m : Maps S) : outcome (Maps S) :=
  match name_map m !! name with
  | None => Ret m
  | Some id =>
      match slab_get (mem_slab m) id with
      | None => Ret (set_name_map (delete name (name_map m)) m)
      | Some mem =>
          let base := base_addr mem in
          let m := put_mem id (Mem.clear mem) m in
          let m := set_maps (delete base (maps m)) m in
          slab ← slab_remove id (mem_slab m);
          let m := set_slab slab m in
          let m := set_tlb (flush (tlb m)) m in
          Ret (set_name_map (delete name (name_map m)) m)
      end
  end.

(** [Maps::dealloc] *)
Definition dealloc (addr : Z) (m : Maps S) : outcome (Maps S) :=
  match maps m !! addr with
  | None => Ret m
  | Some mem_key =>
      match slab_get (mem_slab m) mem_key with
      | None => Ret (set_maps (delete addr (maps m)) m)
      | Some mem =>
          let m := set_name_map (delete (mem_name mem) (name_map m)) m in
          let m := if Mem.can_execute mem then note_code_write (base_addr mem) (Mem.size mem) m else m in
          match slab_get (mem_slab m) mem_key with
          | None => Ret m
          | Some mem =>
              let m := put_mem mem_key (Mem.clear mem) m in
              slab ← slab_remove mem_key (mem_slab m);
              let m := set_slab slab m in
              let m := set_tlb (flush (tlb m)) m in
              Ret (set_maps (delete addr (maps m)) m)
          end
      end
  end.

(** [self.mem_slab[key]] *)
Definition slab_index (key : nat) (m : Maps S) : outcome Mem64 :=
  match slab_get (mem_slab m) key with Some mem => Ret mem | None => Panic end.

(** One iteration of the loop of [Maps::unmap_range]. *)
Definition unmap_one (addr end_ base : Z) (m : Maps S) : outcome (Maps S) :=
  key ← (match maps m !! base with Some k => Ret k | None => Panic end);
  mem ← slab_index key m;
  let bottom := bottom_addr mem in
  if (addr <=? base) && (bottom <=? end_) then dealloc base m
  else if addr <=? base then
    mem ← Mem.drop_front (wsub end_ base) mem;
    let m := put_mem key mem m in
    let m := set_maps (delete base (maps m)) m in
    Ret (set_maps (<[end_ := key]> (maps m)) m)
  else if bottom <=? end_ then Ret (put_mem key (Mem.truncate (wsub addr base) mem) m)
  else
    '(tail, mem) ← Mem.split_off end_ mem;
    let mem := Mem.truncate (wsub addr base) mem in
    let m := put_mem key mem m in
    let perm := permission mem in
    let name := mem_name mem +:+ "_" +:+ hex end_ in
    '(r, m) ← create_map name end_ (len tail) perm m;
    match r with
    | inr k =>
        mem ← slab_index k m;
        mem ← Mem.force_write_bytes end_ tail mem;
        Ret (put_mem k mem m)
    | inl _ => Ret m
    end.

(** The keys of [overlapping]. *)
Fixpoint overlapping_bases (addr : Z) (l : list (Z * nat)) (m : Maps S) : outcome (list Z) :=
  match l with
  | [] => Ret []
  | (base, key) :: l' =>
      mem ← slab_index key m;
      rest ← overlapping_bases addr l' m;
      Ret (if addr <? bottom_addr mem then base :: rest else rest)
  end.

Fixpoint unmap_all (addr end_ : Z) (bases : list Z) (m : Maps S) : outcome (Maps S) :=
  match bases with
  | [] => Ret m
  | base :: bases' => m ← unmap_one addr end_ base m; unmap_all addr end_ bases' m
  end.

(** [Maps::unmap_range] *)
Definition unmap_range (addr n : Z) (m : Maps S) : outcome (Maps S) :=
  match checked_add addr n with
  | None => Ret m
  | Some end_ =>
      overlapping ← overlapping_bases addr (range_to end_ (maps m)) m;
      m ← unmap_all addr end_ overlapping m;
      Ret (set_tlb (flush (tlb m)) m)
  end.

(** ** Scalar and bulk access *)

(** [Maps::read_scalar] *)
Definition read_scalar (n : nat) (addr : Z) (m : Maps S) : outcome (option Z * Maps S) :=
  match checked_add addr (Z.of_nat n - 1) with
  | None => Ret (None, m)
  | Some end_addr =>
      '(r, m) ← get_mem_by_addr addr m;
      match r with
      | None => Ret (None, m)
      | Some (_, mem) =>
          if Mem.inside end_addr mem && Mem.can_read mem then
            o ← read_le n (Mem.read_bytes addr (Z.of_nat n) mem); Ret (o, m)
          else if negb (Mem.inside end_addr mem) && Mem.can_read mem && (1 <? n)%nat then
            let boundary := bottom_addr mem in
            let lo_len := wsub boundary addr in
            let hi_len := wsub (Z.of_nat n) lo_len in
            match next (range_from boundary (maps m)) with
            | None => Ret (None, m)
            | Some (next_base, next_key) =>
                if negb (next_base =? boundary) then Ret (None, m)
                else match slab_get (mem_slab m) next_key with
                | None => Ret (None, m)
                | Some next_mem =>
                    if Mem.can_read next_mem && Mem.inside (wsub (wadd boundary hi_len) 1) next_mem then
                      let buf := replicate 16 0 in
                      buf ← copy_into 0 (Z.to_nat lo_len) (Mem.read_bytes addr lo_len mem) buf;
                      buf ← copy_into (Z.to_nat lo_len) n (Mem.read_bytes boundary hi_len next_mem) buf;
                      s ← index_range 0 n buf;
                      o ← read_le n s; Ret (o, m)
                    else Ret (None, m)
                end
            end
          else Ret (None, m)
      end
  end.

(** The first part of [Maps::write_scalar], a write across two adjacent maps:
    [Some b] when the function returns [b] there. *)
Definition write_across (n : nat) (addr value end_addr : Z) (m : Maps S)
    : outcome (option bool * Maps S) :=
  if negb (1 <? n)%nat then Ret (None, m)
  else
    '(r, m) ← get_mem_by_addr addr m;
    match r with
    | None => Ret (None, m)
    | Some (_, mem) =>
        if negb (negb (Mem.inside end_addr mem) && Mem.can_write mem) then Ret (None, m)
        else
          let boundary := bottom_addr mem in
          let lo_len := wsub boundary addr in
          let hi_len := wsub (Z.of_nat n) lo_len in
          let lo_exec := Mem.can_execute mem in
          match next (range_from boundary (maps m)) with
          | None => Ret (None, m)
          | Some (next_base, next_key) =>
              if negb (next_base =? boundary) then Ret (None, m)
              else match slab_get (mem_slab m) next_key with
              | None => Ret (None, m)
              | Some next_mem =>
                  if Mem.can_write next_mem && Mem.inside (wsub (wadd boundary hi_len) 1) next_mem then
                    let exec := lo_exec || Mem.can_execute next_mem in
                    buf ← write_le n value (replicate 16 0);
                    match next_back (range_to_inclusive addr (maps m)) with
                    | None => Ret (Some false, m)
                    | Some (_, first_key) =>
                        match slab_get (mem_slab m) first_key with
                        | None => Ret (Some false, m)
                        | Some first_mem =>
                            lo ← index_range 0 (Z.to_nat lo_len) buf;
                            first_mem ← Mem.write_bytes addr lo first_mem;
                            let m := put_mem first_key first_mem m in
                            match slab_get (mem_slab m) next_key with
                            | None => Ret (Some false, m)
                            | Some next_mem =>
                                hi ← index_range (Z.to_nat lo_len) n buf;
                                next_mem ← Mem.write_bytes boundary hi next_mem;
                                let m := put_mem next_key next_mem m in
                                let m := if exec then note_code_write addr (Z.of_nat n) m else m in
                                Ret (Some true, m)
                            end
                        end
                    end
                  else Ret (None, m)
              end
          end
    end.

(** [Maps::write_scalar] *)
Definition write_scalar (n : nat) (addr value : Z) (m : Maps S) : outcome (bool * Maps S) :=
  match checked_add addr (Z.of_nat n - 1) with
  | None => Ret (false, m)
  | Some end_addr =>
      '(r, m) ← write_across n addr value end_addr m;
      match r with
      | Some b => Ret (b, m)
      | None =>
          '(r, m) ← get_mem_by_addr_mut addr m;
          match r with
          | None => Ret (false, m)
          | Some (key, mem) =>
              if Mem.inside end_addr mem && Mem.can_write mem then
                buf ← write_le n value (replicate 16 0);
                src ← index_range 0 n buf;
                mem' ← Mem.write_bytes addr src mem;
                let m := put_mem key mem' m in
                let m := if Mem.can_execute mem' then note_code_write addr (Z.of_nat n) m else m in
                Ret (true, m)
              else Ret (false, m)
          end
      end
  end.

(** [Maps::read_byte] .. [read_128bits_le], [write_byte] .. [write_128bits_le] *)
Definition read_byte : Z -> Maps S -> outcome (option Z * Maps S) := read_scalar (SIZE Byte).
Definition read_word : Z -> Maps S -> outcome (option Z * Maps S) := read_scalar (SIZE Word).
Definition read_dword : Z -> Maps S -> outcome (option Z * Maps S) := read_scalar (SIZE Dword).
Definition read_qword : Z -> Maps S -> outcome (option Z * Maps S) := read_scalar (SIZE Qword).
Definition read_128bits_le : Z -> Maps S -> outcome (option Z * Maps S) := read_scalar (SIZE Oword).
Definition write_byte : Z -> Z -> Maps S -> outcome (bool * Maps S) := write_scalar (SIZE Byte).
Definition write_word : Z -> Z -> Maps S -> outcome (bool * Maps S) := write_scalar (SIZE Word).
Definition write_dword : Z -> Z -> Maps S -> outcome (bool * Maps S) := write_scalar (SIZE Dword).
Definition write_qword : Z -> Z -> Maps S -> outcome (bool * Maps S) := write_scalar (SIZE Qword).
Definition write_128bits_le : Z -> Z -> Maps S -> outcome (bool * Maps S) := write_scalar (SIZE Oword).

(** The slow path of [Maps::write_bytes], a byte at a time. *)
Fixpoint write_each (addr : Z) (data : bytes) (m : Maps S) : outcome (bool * Maps S) :=
  match data with
  | [] => Ret (true, m)
  | b :: data' =>
      '(ok, m) ← write_byte addr b m;
      if negb ok then Ret (false, m) else write_each (wadd addr 1) data' m
  end.

(** [Maps::write_bytes] *)
Definition write_bytes (addr : Z) (data : bytes) (m : Maps S) : outcome (bool * Maps S) :=
  if decide (data = []) then Ret (true, m)
  else match checked_add addr (len data - 1) with
  | None => Ret (false, m)
  | Some end_addr =>
      '(r, m) ← get_mem_by_addr_mut addr m;
      match r with
      | None => Ret (false, m)
      | Some (key, mem) =>
          if Mem.inside end_addr mem && Mem.can_write mem then
            mem' ← Mem.write_bytes addr data mem;
            let m := put_mem key mem' m in
            let m := if Mem.can_execute mem' then note_code_write addr (len data) m else m in
            Ret (true, m)
          else write_each addr data m
      end
  end.

(** [Maps::validate_write_range]: the loop, cut at [fuel] maps. *)
Fixpoint validate_from (fuel : nat) (cursor end_ : Z) (m : Maps S) : option bool :=
  if negb (cursor <? end_) then Some true
  else match fuel with
  | O => None
  | Datatypes.S f =>
      match next_back (range_to_inclusive cursor (maps m)) with
      | None => Some false
      | Some (map_base, key) =>
          match slab_get (mem_slab m) key with
          | None => Some false
          | Some map =>
              if negb (Perm.can_write (permission map)) then Some false
              else
                let map_end := bottom_addr map in
                if (cursor <? map_base) || (map_end <=? cursor) then Some false
                else validate_from f (if map_end <=? end_ then map_end else end_) end_ m
          end
      end
  end.

Definition validate_write_range (fuel : nat) (addr n : Z) (m : Maps S) : option bool :=
  if n =? 0 then Some true
  else if addr =? 0 then Some false
  else match checked_add addr n with
  | None => Some false
  | Some end_ => validate_from fuel addr end_ m
  end.

(** ** Allocation *)

(** [Maps::size] *)
Definition size (m : Maps S) : Z := foldr (fun mm sz => Mem.size mm + sz) 0 (slab_iter (mem_slab m)).*2.

(** [Maps::overlaps] *)
Definition overlaps (addr sz : Z) (m : Maps S) : outcome bool :=
  r ← range addr (wadd addr sz) (maps m); Ret (bool_decide (is_Some (next r))).

(** [Maps::is_range_free] *)
Definition is_range_free (addr n : Z) (m : Maps S) : outcome (bool * Maps S) :=
  let end_ := saturating_add addr n in
  '(mapped, m) ← is_mapped addr m;
  if (mapped : bool) then Ret (false, m)
  else r ← range addr end_ (maps m); Ret (negb (bool_decide (is_Some (next r))), m).

(** [Maps::align_up], [align_down] *)
Definition align_up (addr align : Z) : Z := Z.land (wadd addr (wsub align 1)) (bnot 64 (wsub align 1)).
Definition align_down (addr align : Z) : Z := Z.land addr (bnot 64 (wsub align 1)).

(** The gap search of [Maps::_alloc_uncapped]. *)
Fixpoint find_gap (aligned_size prev sz : Z) (l : list (Z * nat)) (m : Maps S) : option Z :=
  match l with
  | [] => None
  | (mem_base, mem_key) :: l' =>
      match checked_sub mem_base (wadd prev sz) with
      | Some result =>
          if aligned_size <? result then Some (wadd prev sz)
          else match slab_get (mem_slab m) mem_key with
               | None => find_gap aligned_size prev sz l' m
               | Some mem => find_gap aligned_size mem_base (Mem.size mem) l' m
               end
      | None =>
          match slab_get (mem_slab m) mem_key with
          | None => find_gap aligned_size prev sz l' m
          | Some mem => find_gap aligned_size mem_base (Mem.size mem) l' m
          end
      end
  end.

(** [Maps::_alloc_uncapped] *)
Definition _alloc_uncapped (size bottom top : Z) (m : Maps S) : outcome (option Z) :=
  let bottom_aligned := align_up bottom DEFAULT_ALIGNMENT in
  let aligned_size := align_up size DEFAULT_ALIGNMENT in
  let last_entry_end :=
    Z.max bottom_aligned
      (match next_back (range_to top (maps m)) with
       | Some (addr, key) =>
           let sz := from_option Mem.size 0 (slab_get (mem_slab m) key) in
           align_up (wadd addr sz) DEFAULT_ALIGNMENT
       | None => bottom_aligned
       end) in
  if match checked_sub top last_entry_end with
     | Some result => aligned_size <? result
     | None => false
     end
  then Ret (Some last_entry_end)
  else l ← range bottom_aligned top (maps m); Ret (find_gap aligned_size bottom_aligned 0 l m).

(** [Maps::_alloc], [alloc], [lib64_alloc], [lib64_reserve], [lib32_alloc] *)
Definition _alloc (size bottom top : Z) (m : Maps S) : outcome (option Z) :=
  _alloc_uncapped (Z.min size (max_alloc_size m)) bottom top m.
Definition alloc (sz : Z) (m : Maps S) : outcome (option Z) :=
  if is_64bits m then _alloc sz ALLOC64_MIN ALLOC64_MAX m else _alloc sz ALLOC32_MIN ALLOC32_MAX m.
Definition lib64_alloc (sz : Z) (m : Maps S) : outcome (option Z) := _alloc sz LIBS64_MIN LIBS64_MAX m.
Definition lib64_reserve (sz : Z) (m : Maps S) : outcome (option Z) := _alloc_uncapped sz LIBS64_MIN LIBS64_MAX m.
Definition lib32_alloc (sz : Z) (m : Maps S) : outcome (option Z) := _alloc sz LIBS32_MIN LIBS32_MAX m.

(** [Maps::map] *)
Definition map (name : string) (sz : Z) (perm : Permission) (m : Maps S) : outcome (Z * Maps S) :=
  a ← alloc sz m;
  match a with
  | None => Ret (0, m)
  | Some addr =>
      '(r, m) ← create_map name addr sz perm m;
      match r with inl _ => Ret (0, m) | inr _ => Ret (addr, m) end
  end.

(** [Maps::map_lib] *)
Definition map_lib (name : string) (sz : Z) (perm : Permission) (m : Maps S) : outcome (Z * Maps S) :=
  a ← (if is_64bits m then lib64_alloc sz m else lib32_alloc sz m);
  match a with
  | None => Ret (0, m)
  | Some addr =>
      '(r, m) ← create_map name addr sz perm m;
      match r with inl _ => Ret (0, m) | inr _ => Ret (addr, m) end
  end.

(** [Maps::mem_test] *)
Definition mem_test (m : Maps S) : bool :=
  let regions := (fun mm => (base_addr mm, bottom_addr mm)) <$> (slab_iter (mem_slab m)).*2 in
  forallb (fun p =>
    forallb (fun q =>
      (p.1 =? q.1)%nat || negb ((p.2.1 <? q.2.2) && (q.2.1 <? p.2.2)))
      (imap pair regions)) (imap pair regions)
  && forallb (fun mm => wadd (base_addr mm) (Mem.size mm) =? bottom_addr mm) (slab_iter (mem_slab m)).*2.

(** ** [maps/utilities.rs] *)

(** [Maps::memset]: [end_addr] is computed with wrapping arithmetic. *)
Fixpoint memset_each (addr b : Z) (amount : nat) (m : Maps S) : outcome (Maps S) :=
  match amount with
  | O => Ret m
  | Datatypes.S k =>
      '(ok, m) ← write_byte addr b m;
      if negb ok then Ret m else memset_each (wadd addr 1) b k m
  end.

Definition memset (addr b : Z) (amount : nat) (m : Maps S) : outcome (Maps S) :=
  if (amount =? 0)%nat then Ret m
  else
    let end_addr := wsub (wadd addr (Z.of_nat amount)) 1 in
    '(r, m) ← get_mem_by_addr_mut addr m;
    match r with
    | Some (key, mem) =>
        if Mem.inside end_addr mem && Mem.can_write mem then
          mem' ← Mem.write_bytes addr (replicate amount b) mem;
          let m := put_mem key mem' m in
          Ret (if Mem.can_execute mem' then note_code_write addr (Z.of_nat amount) m else m)
        else memset_each addr b amount m
    | None => memset_each addr b amount m
    end.

(** [Maps::try_read_bytes] (and [read_bytes_option]) *)
Definition try_read_bytes (addr : Z) (sz : nat) (m : Maps S) : outcome (option bytes * Maps S) :=
  if (sz =? 0)%nat then Ret (Some [], m)
  else
    let end_addr := wsub (wadd addr (Z.of_nat sz)) 1 in
    '(r, m) ← get_mem_by_addr addr m;
    match r with
    | None => Ret (None, m)
    | Some (_, mem) =>
        if negb (Mem.inside end_addr mem) || negb (Mem.can_read mem) then Ret (None, m)
        else Ret (Some (Mem.read_bytes addr (Z.of_nat sz) mem), m)
    end.

(** [Maps::read_bytes]: the failure path asserts [sz <= MAX_READ_BYTES]. *)
Definition MAX_READ_BYTES : nat := Z.to_nat 0x300.

Definition zero_slice (sz : nat) : outcome bytes :=
  if (sz =? 0)%nat then Ret []
  else if (sz <=? MAX_READ_BYTES)%nat then index_range 0 sz (replicate MAX_READ_BYTES 0) else Panic.

Definition read_bytes (addr : Z) (sz : nat) (m : Maps S) : outcome (bytes * Maps S) :=
  '(r, m) ← try_read_bytes addr sz m;
  match r with Some s => Ret (s, m) | None => z ← zero_slice sz; Ret (z, m) end.

(** [Maps::memcpy]: the result of the write is not used. *)
Definition memcpy (to from : Z) (sz : nat) (m : Maps S) : outcome (bool * Maps S) :=
  '(r, m) ← try_read_bytes from sz m;
  match r with
  | None => Ret (false, m)
  | Some b => r ← write_bytes to b m; Ret (true, r.2)
  end.

(** [Maps::write_string] *)
Definition write_string (to : Z) (from : bytes) (m : Maps S) : outcome (Maps S) :=
  r ← write_bytes to from m;
  r ← write_byte (wadd to (len from)) 0 r.2;
  Ret r.2.

(** [Maps::read_string] *)
Definition read_string (addr : Z) (m : Maps S) : outcome (bytes * Maps S) :=
  if addr =? 0 then Ret ([], m)
  else
    '(r, m) ← get_mem_by_addr addr m;
    match r with
    | Some (_, mem) => if Mem.can_read mem then s ← Mem.read_string addr mem; Ret (s, m) else Ret ([], m)
    | None => Ret ([], m)
    end.

End Operations.
