(* ===== verification/MapsInv.v ===== *)
(** * Correctness of the memory-map manager

    The invariant of [Maps], its preservation by the operations, the abstract
    view of the address space (one byte and one permission per mapped address)
    and the proofs that lookups, scalar and bulk accesses implement it.  The
    laws of the slab are the hypotheses of the section. *)

From stdpp Require Import gmap strings.
From S2P Require Import Prelude Scalar Mem64 BTree Slab Tlb Maps.

Section Invariant.
Context {S : Type} `{SlabLaws S}.
Implicit Types (m : Maps S) (mm : Mem64) (k : nat).

(** Every region is well-formed and not empty, the two indexes name exactly
    the regions of the slab, and distinct regions do not overlap. *)
Record wf m : Prop := {
  wf_region : forall k mm, slab_get (mem_slab m) k = Some mm ->
    wf_mem mm /\ base_addr mm < bottom_addr mm;
  wf_based : forall k mm, slab_get (mem_slab m) k = Some mm -> maps m !! base_addr mm = Some k;
  wf_bases : forall b k, maps m !! b = Some k ->
    exists mm, slab_get (mem_slab m) k = Some mm /\ base_addr mm = b;
  wf_named : forall k mm, slab_get (mem_slab m) k = Some mm -> name_map m !! mem_name mm = Some k;
  wf_names : forall s k, name_map m !! s = Some k ->
    exists mm, slab_get (mem_slab m) k = Some mm /\ mem_name mm = s;
  wf_disjoint : forall k1 mm1 k2 mm2,
    slab_get (mem_slab m) k1 = Some mm1 -> slab_get (mem_slab m) k2 = Some mm2 -> k1 <> k2 ->
    bottom_addr mm1 <= base_addr mm2 \/ bottom_addr mm2 <= base_addr mm1;
  wf_tlb_array : wf_tlb (tlb m)
}.

(** The region that owns an address: the search of the ordered index, without
    the TLB. *)
Definition find_map (addr : Z) m : option (nat * Mem64) :=
  match next_back (range_to_inclusive addr (maps m)) with
  | None => None
  | Some (_, k) =>
      match slab_get (mem_slab m) k with
      | Some mm => if Mem.inside addr mm then Some (k, mm) else None
      | None => None
      end
  end.

(** The address space as its clients see it: the byte stored at an address, and
    the region and permissions the address belongs to. *)
Definition byte_of m (addr : Z) : option Z :=
  match find_map addr m with Some (_, mm) => byte_at mm addr | None => None end.
Definition layout m (addr : Z) : option (nat * Z * Z * Permission) :=
  match find_map addr m with
  | Some (k, mm) => Some (k, base_addr mm, bottom_addr mm, permission mm)
  | None => None
  end.

(** Two states that differ at most in the TLB. *)
Definition maps_equiv m1 m2 : Prop := set_tlb [] m1 = set_tlb [] m2.

#[export] Instance maps_equivalence : Equivalence maps_equiv.
Proof. unfold maps_equiv. split; red; intuition congruence. Qed.

Lemma maps_equiv_set_tlb m t : maps_equiv (set_tlb t m) m.
Proof. reflexivity. Qed.

#[export] Instance find_map_proper : Proper (eq ==> maps_equiv ==> eq) find_map.
Proof.
  intros a ? <- m1 m2 E. unfold find_map.
  assert (maps m1 = maps m2) as -> by (change (maps (set_tlb [] m1) = maps (set_tlb [] m2)); now rewrite E).
  assert (mem_slab m1 = mem_slab m2) as ->
    by (change (mem_slab (set_tlb [] m1) = mem_slab (set_tlb [] m2)); now rewrite E).
  reflexivity.
Qed.

#[export] Instance byte_of_proper : Proper (maps_equiv ==> eq ==> eq) byte_of.
Proof. intros m1 m2 E a ? <-. unfold byte_of. now rewrite E. Qed.

#[export] Instance layout_proper : Proper (maps_equiv ==> eq ==> eq) layout.
Proof. intros m1 m2 E a ? <-. unfold layout. now rewrite E. Qed.

Lemma set_tlb_wf m t : wf m -> wf_tlb t -> wf (set_tlb t m).
Proof. intros [] ?. split; auto. Qed.

Lemma set_tlb_id m : set_tlb (tlb m) m = m.
Proof. now destruct m. Qed.

(** ** Lookup *)

Section Lookup.
Context m (Hwf : wf m).

(** At most one region contains an address, and the search finds it. *)
Lemma find_map_spec addr k mm :
  find_map addr m = Some (k, mm) <->
  slab_get (mem_slab m) k = Some mm /\ Mem.inside addr mm = true.
Proof.
  unfold find_map. split.
  - destruct (next_back _) as [[b k0]|]; [|discriminate].
    destruct (slab_get (mem_slab m) k0) eqn:E; [|discriminate].
    destruct (Mem.inside addr m0) eqn:Ei; [|discriminate]. intros [= <- <-]. auto.
  - intros [Hk Hi]. assert (base_addr mm <= addr < bottom_addr mm) as Ha
      by (unfold Mem.inside in Hi; rewrite andb_true_iff in Hi; lia).
    destruct (next_back (range_to_inclusive addr (maps m))) as [[b k0]|] eqn:E.
    + apply last_le_spec in E as (Hb & Hle & Hmax).
      destruct (wf_bases m Hwf _ _ Hb) as (m0 & Hk0 & <-).
      pose proof (Hmax _ _ (wf_based m Hwf _ _ Hk) ltac:(lia)).
      destruct (decide (k0 = k)) as [-> | Hne].
      * rewrite Hk. now rewrite Hi.
      * exfalso. destruct (wf_region m Hwf _ _ Hk0) as [_ ?].
        destruct (wf_disjoint m Hwf _ _ _ _ Hk0 Hk Hne); lia.
    + rewrite last_le_none in E. specialize (E _ _ (wf_based m Hwf _ _ Hk)). lia.
Qed.

Lemma find_map_none addr :
  find_map addr m = None <->
  forall k mm, slab_get (mem_slab m) k = Some mm -> Mem.inside addr mm = false.
Proof.
  split.
  - intros E k mm Hk. destruct (Mem.inside addr mm) eqn:Hi; [|reflexivity].
    pose proof (proj2 (find_map_spec addr k mm) (conj Hk Hi)). congruence.
  - intros Hn. destruct (find_map addr m) as [[k mm]|] eqn:E; [|reflexivity].
    apply find_map_spec in E as [Hk Hi]. now rewrite (Hn k mm Hk) in Hi.
Qed.

(** A TLB hit agrees with the search, whatever the TLB contains. *)
Lemma tlb_hit addr k mm :
  slab_get (mem_slab m) k = Some mm -> Mem.inside addr mm = true -> find_map addr m = Some (k, mm).
Proof. intros. now apply find_map_spec. Qed.

Lemma tlb_miss_find addr t :
  wf_tlb t -> exists t', wf_tlb t' /\ tlb_miss addr (set_tlb t m) = Ret (find_map addr m, set_tlb t' m).
Proof.
  intros Ht. unfold tlb_miss, find_map. cbn [maps mem_slab tlb set_tlb].
  destruct (next_back _) as [[b k0]|]; [|eauto].
  destruct (slab_get (mem_slab m) k0); [|eauto].
  destruct (Mem.inside addr m0); cbn [negb]; [|eauto].
  destruct (put_entry_total addr 0 (mkTLBEntry (LPF_OF addr) k0) _ Ht) as (t' & -> & Ht').
  exists t'. auto.
Qed.

Lemma get_mem_by_addr_find addr :
  exists t, wf_tlb t /\ get_mem_by_addr addr m = Ret (find_map addr m, set_tlb t m).
Proof.
  pose proof (wf_tlb_array m Hwf) as Ht.
  unfold get_mem_by_addr. destruct (get_entry_total addr 0 _ Ht) as [e ->]. cbn [mbind outcome_bind].
  pose proof (tlb_miss_find addr _ Ht) as Hs. rewrite set_tlb_id in Hs.
  destruct (slab_get (mem_slab m) (get_mem e)) eqn:E; [|exact Hs].
  destruct (Mem.inside addr m0) eqn:Ei; [|exact Hs].
  exists (tlb m). split; [exact Ht |]. now rewrite (tlb_hit addr _ _ E Ei), set_tlb_id.
Qed.

Lemma get_mem_by_addr_mut_find addr :
  exists t, wf_tlb t /\ get_mem_by_addr_mut addr m = Ret (find_map addr m, set_tlb t m).
Proof.
  pose proof (wf_tlb_array m Hwf) as Ht.
  unfold get_mem_by_addr_mut. destruct (get_entry_total addr 0 _ Ht) as [e ->]. cbn [mbind outcome_bind].
  destruct (slab_get (mem_slab m) (get_mem e)) eqn:E.
  - destruct (Mem.inside addr m0) eqn:Ei.
    + exists (tlb m). split; [exact Ht |]. now rewrite (tlb_hit addr _ _ E Ei), set_tlb_id.
    + pose proof (tlb_miss_find addr _ Ht) as Hs. now rewrite set_tlb_id in Hs.
  - destruct (put_entry_total addr 0 (invalidate e) _ Ht) as (t0 & -> & Ht0). cbn [mbind outcome_bind].
    now apply tlb_miss_find.
Qed.

End Lookup.

(** C3. Whatever the contents of the TLB (stale entries included), both lookups of a
    well-formed address space answer the region that owns the address, as the search
    of the ordered index without a TLB does, and leave a well-formed state that
    differs only in the TLB. *)
Theorem tlb_transparent m addr t :
  wf m -> wf_tlb t ->
  exists t1 t2,
    get_mem_by_addr addr (set_tlb t m) = Ret (find_map addr m, set_tlb t1 m)
    /\ get_mem_by_addr_mut addr (set_tlb t m) = Ret (find_map addr m, set_tlb t2 m)
    /\ wf (set_tlb t1 m) /\ wf (set_tlb t2 m).
Proof.
  intros Hwf Ht. pose proof (set_tlb_wf m t Hwf Ht) as Hwf'.
  destruct (get_mem_by_addr_find _ Hwf' addr) as (t1 & ? & E1).
  destruct (get_mem_by_addr_mut_find _ Hwf' addr) as (t2 & ? & E2).
  exists t1, t2. rewrite E1, E2. repeat split_and; auto using set_tlb_wf.
Qed.


(** ** Updating a region in place *)

(** [mm'] occupies the same addresses under the same name and permissions. *)
Definition same_shape mm mm' : Prop :=
  base_addr mm' = base_addr mm /\ bottom_addr mm' = bottom_addr mm
  /\ mem_name mm' = mem_name mm /\ permission mm' = permission mm.

Lemma same_shape_inside mm mm' a : same_shape mm mm' -> Mem.inside a mm' = Mem.inside a mm.
Proof. intros (Hb & Ht & _). unfold Mem.inside. now rewrite Hb, Ht. Qed.

Lemma written_shape mm addr bs : same_shape mm (written mm addr bs).
Proof. repeat split. Qed.

Section Update.
Context m (Hwf : wf m) k mm mm' (Hk : slab_get (mem_slab m) k = Some mm).
Context (Hsh : same_shape mm mm').

Lemma slab_get_put_mem j :
  slab_get (mem_slab (put_mem k mm' m)) j = if decide (j = k) then Some mm' else slab_get (mem_slab m) j.
Proof. cbn. apply slab_get_put. eauto. Qed.

Lemma put_mem_wf : wf_mem mm' -> wf (put_mem k mm' m).
Proof.
  intros Hmm. destruct Hsh as (Hb & Ht & Hn & _). destruct Hwf as [Hr Hbd Hbs Hnd Hns Hd Htlb].
  assert (forall j mj, slab_get (mem_slab (put_mem k mm' m)) j = Some mj ->
          exists mj0, slab_get (mem_slab m) j = Some mj0 /\ base_addr mj = base_addr mj0
            /\ bottom_addr mj = bottom_addr mj0 /\ mem_name mj = mem_name mj0 /\ wf_mem mj) as Hold.
  { intros j mj. rewrite slab_get_put_mem. case_decide as E; intros Hj.
    - subst. simplify_eq. eauto 10.
    - destruct (Hr _ _ Hj). eauto 10. }
  assert (forall j mj0, slab_get (mem_slab m) j = Some mj0 ->
          exists mj, slab_get (mem_slab (put_mem k mm' m)) j = Some mj
            /\ base_addr mj = base_addr mj0 /\ mem_name mj = mem_name mj0) as Hnew.
  { intros j mj0 Hj. rewrite slab_get_put_mem. case_decide as E; [subst; simplify_eq |]; eauto 10. }
  split.
  - intros j mj Hj. destruct (Hold _ _ Hj) as (mj0 & Hj0 & -> & -> & _ & ?).
    destruct (Hr _ _ Hj0). auto.
  - intros j mj Hj. destruct (Hold _ _ Hj) as (mj0 & Hj0 & -> & _). cbn. eauto.
  - intros b j Hj. destruct (Hbs _ _ Hj) as (mj0 & Hj0 & <-).
    destruct (Hnew _ _ Hj0) as (mj & ? & ? & ?). eauto.
  - intros j mj Hj. destruct (Hold _ _ Hj) as (mj0 & Hj0 & _ & _ & -> & _). cbn. eauto.
  - intros s j Hj. destruct (Hns _ _ Hj) as (mj0 & Hj0 & <-).
    destruct (Hnew _ _ Hj0) as (mj & ? & ? & ?). eauto.
  - intros j1 m1 j2 m2 H1 H2. destruct (Hold _ _ H1) as (? & ? & -> & -> & _).
    destruct (Hold _ _ H2) as (? & ? & -> & -> & _). eauto.
  - exact Htlb.
Qed.

Lemma find_map_put a :
  find_map a (put_mem k mm' m)
  = match find_map a m with
    | Some (j, mj) => Some (j, if decide (j = k) then mm' else mj)
    | None => None
    end.
Proof.
  unfold find_map. change (maps (put_mem k mm' m)) with (maps m).
  destruct (next_back _) as [[b j]|]; [|reflexivity].
  rewrite slab_get_put_mem. destruct (decide (j = k)) as [-> | Hj].
  - rewrite Hk, same_shape_inside with (mm := mm) by auto.
    destruct (Mem.inside a mm); [now rewrite decide_True by auto | reflexivity].
  - destruct (slab_get (mem_slab m) j); [|reflexivity].
    destruct (Mem.inside a m0); [now rewrite decide_False by auto | reflexivity].
Qed.

Lemma layout_put a : layout (put_mem k mm' m) a = layout m a.
Proof.
  unfold layout. rewrite find_map_put. destruct (find_map a m) as [[j mj]|] eqn:E; [|reflexivity].
  case_decide; [|reflexivity]. subst. apply find_map_spec in E as [E _]; [|exact Hwf].
  simplify_eq. destruct Hsh as (-> & -> & _ & ->). reflexivity.
Qed.

End Update.

(** ** The log of executable writes does not touch the memory *)

Lemma note_code_write_same addr n m :
  exists l, note_code_write addr n m = set_code_writes l m.
Proof.
  unfold note_code_write. case_decide; [exists (code_writes m); now destruct m |].
  case_match; eauto.
Qed.

(** The log after noting a write. *)
Definition note_log (addr n : Z) (log : list (Z * Z)) : list (Z * Z) :=
  if decide (head log = Some CODE_WRITES_ALL) then log
  else if (CODE_WRITES_CAP <=? length log)%nat then [CODE_WRITES_ALL] else log ++ [(addr, n)].

Lemma code_writes_note addr n m : code_writes (note_code_write addr n m) = note_log addr n (code_writes m).
Proof. unfold note_code_write, note_log. case_decide; [reflexivity |]. now case_match. Qed.

Lemma set_code_writes_wf l m : wf m -> wf (set_code_writes l m).
Proof. intros []. split; auto. Qed.

(** ** Writing bytes into one region *)

(** [m'] is [m] with the bytes [bs] stored from [addr] on; the regions and their
    permissions are unchanged. *)
Definition stores m m' (addr : Z) (bs : bytes) : Prop :=
  (forall a, byte_of m' a = if decide (addr <= a < addr + len bs)
                            then bs !! Z.to_nat (a - addr) else byte_of m a)
  /\ (forall a, layout m' a = layout m a).

Lemma stores_trans m m1 m2 addr bs1 bs2 :
  stores m m1 addr bs1 -> stores m1 m2 (addr + len bs1) bs2 -> stores m m2 addr (bs1 ++ bs2).
Proof.
  intros [B1 P1] [B2 P2]. split; intros a; [|now rewrite P2].
  rewrite B2, B1, length_app. repeat case_decide; try lia; try reflexivity.
  - rewrite lookup_app_r by lia. f_equal. lia.
  - rewrite lookup_app_l by lia. reflexivity.
Qed.

(** The search, bytes and permissions do not depend on the TLB or the log. *)
Lemma stores_frame m m' addr bs l t :
  stores m m' addr bs -> stores m (set_code_writes l (set_tlb t m')) addr bs.
Proof. exact id. Qed.

Lemma store_region m k mm addr bs :
  wf m -> slab_get (mem_slab m) k = Some mm -> covers mm addr (len bs) -> is_bytes bs ->
  let m' := put_mem k (written mm addr bs) m in
  wf m' /\ stores m m' addr bs.
Proof.
  intros Hwf Hk Hc Hbs m'. destruct (wf_region m Hwf _ _ Hk) as [Hmm _].
  assert (wf_mem (written mm addr bs)) as Hw by (eapply written_wf; eauto).
  pose proof (written_shape mm addr bs) as Hsh.
  split; [eapply put_mem_wf; eauto |]. split; intros a; [|eapply layout_put; eauto].
  unfold byte_of at 1. unfold m'. erewrite find_map_put by eauto.
  destruct (find_map a m) as [[j mj]|] eqn:E.
  - pose proof E as Ef. apply find_map_spec in E as [Hj Hi]; [|exact Hwf].
    destruct (decide (j = k)) as [-> | Hne].
    + simplify_eq. erewrite byte_at_written by eauto. case_decide; [reflexivity |].
      unfold byte_of. now rewrite Ef.
    + case_decide as Hd.
      * exfalso. apply inside_covers in Hi. unfold covers in *.
        destruct (wf_disjoint m Hwf _ _ _ _ Hj Hk Hne); lia.
      * unfold byte_of. now rewrite Ef.
  - case_decide as Hd; [|unfold byte_of; now rewrite E].
    exfalso. rewrite find_map_none in E by exact Hwf. specialize (E _ _ Hk).
    unfold Mem.inside, covers in *. rewrite andb_false_iff in E. lia.
Qed.

(** ** Scalar access *)

(** The accesses the code supports: the range lies in one region, or starts in
    one and ends in the region adjacent to it; [p] is the permission check. *)
Definition reachable (p : Mem64 -> bool) (n : nat) (addr : Z) m : bool :=
  (addr + Z.of_nat n <=? 2 ^ 64)
  && match find_map addr m with
     | None => false
     | Some (_, mm) =>
         p mm && (Mem.inside (addr + Z.of_nat n - 1) mm
                  || match find_map (bottom_addr mm) m with
                     | Some (_, mm2) => p mm2 && Mem.inside (addr + Z.of_nat n - 1) mm2
                     | None => false
                     end)
     end.

#[export] Instance reachable_proper p n addr : Proper (maps_equiv ==> eq) (reachable p n addr).
Proof.
  intros m1 m2 E. unfold reachable. rewrite (find_map_proper addr addr eq_refl _ _ E).
  destruct (find_map addr m2) as [[k mm]|]; [|reflexivity].
  now rewrite (find_map_proper _ _ eq_refl _ _ E).
Qed.

(** The [n] bytes from [addr] on. *)
Definition bytes_of m (addr : Z) (n : nat) : option bytes :=
  mapM (fun i => byte_of m (addr + Z.of_nat i)) (seq 0 n).

#[export] Instance bytes_of_proper : Proper (maps_equiv ==> eq ==> eq ==> eq) bytes_of.
Proof.
  intros m1 m2 E a ? <- n ? <-. unfold bytes_of. induction (seq 0 n) as [|i l IH]; [reflexivity |].
  cbn. now rewrite (byte_of_proper _ _ E _ _ eq_refl), IH.
Qed.

Lemma bytes_of_spec m addr n bs :
  length bs = n -> (forall i, (i < n)%nat -> bs !! i = byte_of m (addr + Z.of_nat i)) ->
  bytes_of m addr n = Some bs.
Proof.
  intros Hl Hb. unfold bytes_of. apply mapM_Some_2. apply Forall2_same_length_lookup_2.
  - now rewrite length_seq.
  - intros i x y Hx Hy. apply lookup_seq in Hx as [-> Hi]. rewrite <- Hb by lia. exact Hy.
Qed.

Section Access.
Context m (Hwf : wf m).

(** The region the code finds with [maps.range(boundary..).next()] when it is
    adjacent. *)
Definition adjacent mm : option (nat * Mem64) :=
  match next (range_from (bottom_addr mm) (maps m)) with
  | None => None
  | Some (b, k2) =>
      if negb (b =? bottom_addr mm) then None
      else match slab_get (mem_slab m) k2 with Some mm2 => Some (k2, mm2) | None => None end
  end.

Lemma adjacent_find k mm :
  slab_get (mem_slab m) k = Some mm ->
  adjacent mm = find_map (bottom_addr mm) m
  /\ forall k2 mm2, adjacent mm = Some (k2, mm2) ->
       slab_get (mem_slab m) k2 = Some mm2 /\ base_addr mm2 = bottom_addr mm /\ k2 <> k.
Proof.
  intros Hk. destruct (wf_region m Hwf _ _ Hk) as [Hmm Hne].
  assert (forall k2 mm2, find_map (bottom_addr mm) m = Some (k2, mm2) ->
          slab_get (mem_slab m) k2 = Some mm2 /\ base_addr mm2 = bottom_addr mm /\ k2 <> k) as Hf.
  { intros k2 mm2 E. apply find_map_spec in E as [Hk2 Hi]; [|exact Hwf].
    apply inside_covers in Hi. unfold covers in Hi.
    assert (k2 <> k) as Hd by (intros ->; simplify_eq; lia).
    destruct (wf_disjoint m Hwf _ _ _ _ Hk2 Hk Hd); split; [auto | lia | auto | split; [lia | auto]]. }
  enough (adjacent mm = find_map (bottom_addr mm) m) as E by (rewrite E; auto).
  unfold adjacent. destruct (find_map (bottom_addr mm) m) as [[k2 mm2]|] eqn:E.
  - destruct (Hf _ _ eq_refl) as (Hk2 & Hb & _).
    pose proof (wf_based m Hwf _ _ Hk2) as Hm. rewrite Hb in Hm.
    rewrite (first_ge_exact _ _ _ Hm), Z.eqb_refl. cbn [negb]. now rewrite Hk2.
  - destruct (next _) as [[b k2]|] eqn:En; [|reflexivity].
    destruct (Z.eqb_spec b (bottom_addr mm)) as [-> |]; [|reflexivity]. cbn [negb].
    destruct (slab_get (mem_slab m) k2) as [mm2|] eqn:Hk2; [|reflexivity].
    exfalso. apply first_ge_spec in En as (Hm & _). destruct (wf_bases m Hwf _ _ Hm) as (m0 & ? & Hb).
    simplify_eq. destruct (wf_region m Hwf _ _ Hk2) as [_ Hne2].
    rewrite find_map_none in E by exact Hwf. specialize (E _ _ Hk2).
    unfold Mem.inside in E. rewrite andb_false_iff in E. lia.
Qed.

(** The bytes of a range covered by one region. *)
Lemma byte_of_region k mm a :
  slab_get (mem_slab m) k = Some mm -> Mem.inside a mm = true -> byte_of m a = byte_at mm a.
Proof.
  intros Hk Hi. unfold byte_of. now rewrite (proj2 (find_map_spec m Hwf a k mm) (conj Hk Hi)).
Qed.

Lemma lookup_region k mm addr n i :
  slab_get (mem_slab m) k = Some mm -> covers mm addr (Z.of_nat n) -> (i < n)%nat ->
  bytes_at mm addr n !! i = byte_of m (addr + Z.of_nat i).
Proof.
  intros Hk Hc Hi. destruct (wf_region m Hwf _ _ Hk) as [Hmm _].
  rewrite lookup_bytes_at by auto. symmetry. apply (byte_of_region k); [exact Hk |].
  apply inside_covers. unfold covers in *. lia.
Qed.

End Access.

(** How an access of [n] bytes at [addr] splits over the regions. *)
Inductive placement m (p : Mem64 -> bool) (n : nat) (addr : Z) : Prop :=
  | InOne k mm (Hf : find_map addr m = Some (k, mm)) (Hp : p mm = true)
      (Hk : slab_get (mem_slab m) k = Some mm) (Hc : covers mm addr (Z.of_nat n))
      (Hi : Mem.inside (addr + Z.of_nat n - 1) mm = true)
  | InTwo k mm k2 mm2 (lo hi : nat) (Hf : find_map addr m = Some (k, mm)) (Hp : p mm = true)
      (Hk : slab_get (mem_slab m) k = Some mm) (Hi : Mem.inside (addr + Z.of_nat n - 1) mm = false)
      (Hadj : adjacent m mm = Some (k2, mm2)) (Hp2 : p mm2 = true)
      (Hk2 : slab_get (mem_slab m) k2 = Some mm2) (Hne : k2 <> k)
      (Hlo : (0 < lo)%nat) (Hhi : (0 < hi)%nat) (Hn : n = (lo + hi)%nat)
      (Hbd : bottom_addr mm = addr + Z.of_nat lo)
      (Hc : covers mm addr (Z.of_nat lo)) (Hc2 : covers mm2 (bottom_addr mm) (Z.of_nat hi))
      (Hi2 : Mem.inside (addr + Z.of_nat n - 1) mm2 = true).

Lemma reachable_placement m p n addr :
  wf m -> (0 < n)%nat -> reachable p n addr m = true -> placement m p n addr.
Proof.
  intros Hwf Hn Hr. unfold reachable in Hr. apply andb_true_iff in Hr as [Ht Hr].
  destruct (find_map addr m) as [[k mm]|] eqn:Hf; [|discriminate].
  pose proof Hf as [Hk Hi]%find_map_spec; [|exact Hwf]. apply inside_covers in Hi. unfold covers in Hi.
  apply andb_true_iff in Hr as [Hp Hr].
  destruct (Mem.inside (addr + Z.of_nat n - 1) mm) eqn:Hi1.
  - eapply InOne; eauto. apply inside_covers in Hi1. unfold covers in *. lia.
  - cbn [orb] in Hr. destruct (adjacent_find m Hwf k mm Hk) as [Ea Hadj]. rewrite <- Ea in Hr.
    destruct (adjacent m mm) as [[k2 mm2]|] eqn:Hadj'; [|discriminate].
    apply andb_true_iff in Hr as [Hp2 Hi2]. destruct (Hadj _ _ eq_refl) as (Hk2 & Hb2 & Hne).
    pose proof Hi2 as Hc2. apply inside_covers in Hc2. unfold covers in Hc2.
    assert (bottom_addr mm <= addr + Z.of_nat n - 1) as Hge.
    { unfold Mem.inside in Hi1. rewrite andb_false_iff in Hi1. lia. }
    eapply (InTwo _ _ _ _ k mm k2 mm2 (Z.to_nat (bottom_addr mm - addr))
                  (Z.to_nat (addr + Z.of_nat n - bottom_addr mm))); eauto; unfold covers; lia.
Qed.

(** The arithmetic of a boundary crossing, as the code computes it. *)
Lemma crossing_arith mm addr n :
  wf_mem mm -> (0 < n <= 16)%nat -> 0 <= addr -> addr + (Z.of_nat n - 1) < 2 ^ 64 ->
  Mem.inside addr mm = true -> Mem.inside (addr + Z.of_nat n - 1) mm = false ->
  let lo := wsub (bottom_addr mm) addr in
  let hi := wsub (Z.of_nat n) lo in
  lo = bottom_addr mm - addr /\ hi = addr + Z.of_nat n - bottom_addr mm
  /\ 0 < lo < Z.of_nat n /\ 0 < hi
  /\ wsub (wadd (bottom_addr mm) hi) 1 = addr + Z.of_nat n - 1.
Proof.
  intros [Hb H0' Ht _] Hn Ha Hov Hi Hi'. unfold Mem.inside in *.
  rewrite andb_true_iff in Hi. rewrite andb_false_iff in Hi'.
  assert (bottom_addr mm <= addr + Z.of_nat n - 1) by lia.
  assert (wsub (bottom_addr mm) addr = bottom_addr mm - addr) as -> by (apply wsub_small; unfold is_word; lia).
  assert (wsub (Z.of_nat n) (bottom_addr mm - addr) = addr + Z.of_nat n - bottom_addr mm) as E
    by (rewrite wsub_small; unfold is_word; lia).
  cbv zeta. rewrite E. repeat split_and; try lia.
  unfold wsub, wadd, wrap. rewrite Zminus_mod_idemp_l. rewrite Z.mod_small; lia.
Qed.

Lemma checked_add_end addr n :
  (0 < n)%nat ->
  checked_add addr (Z.of_nat n - 1)
  = if addr + Z.of_nat n <=? 2 ^ 64 then Some (addr + Z.of_nat n - 1) else None.
Proof. intros. unfold checked_add. split_ltb; try lia; [f_equal; lia | reflexivity]. Qed.

(** The two copies into the 16-byte buffer of a crossing read. *)
Lemma crossing_buffer n (lo hi : nat) l1 l2 :
  (lo + hi = n)%nat -> (n <= 16)%nat -> length l1 = lo -> length l2 = hi ->
  (buf ← copy_into 0 lo l1 (replicate 16 0);
   buf ← copy_into lo n l2 buf;
   s ← index_range 0 n buf;
   read_le n s) = Ret (Some (from_le_bytes (l1 ++ l2))).
Proof.
  intros Hs Hn H1 H2. rewrite copy_into_splice by (rewrite ?length_replicate; lia).
  cbn [mbind outcome_bind]. assert (length (splice 0 l1 (replicate 16 0)) = 16%nat) as Hl
    by (rewrite length_splice; rewrite ?length_replicate; lia).
  rewrite copy_into_splice by lia. cbn [mbind outcome_bind].
  unfold index_range. rewrite decide_True by (rewrite length_splice; lia). cbn [mbind outcome_bind].
  rewrite drop_0, Nat.sub_0_r.
  assert (take n (splice lo l2 (splice 0 l1 (replicate 16 0))) = l1 ++ l2) as ->.
  { unfold splice at 1. rewrite app_assoc, take_app_length' by (rewrite length_app, length_take; lia).
    f_equal. unfold splice. rewrite take_0, app_nil_l. now apply take_app_length'. }
  apply read_le_exact. rewrite length_app. lia.
Qed.

Lemma bytes_of_placement m p n addr :
  wf m -> placement m p n addr -> exists bs, bytes_of m addr n = Some bs /\ length bs = n.
Proof.
  intros Hwf [k mm | k mm k2 mm2 lo hi].
  - destruct (wf_region m Hwf _ _ Hk) as [Hmm _].
    exists (bytes_at mm addr n). split; [|now apply length_bytes_at].
    apply bytes_of_spec; [now apply length_bytes_at |]. intros. eapply lookup_region; eauto.
  - destruct (wf_region m Hwf _ _ Hk) as [Hmm _]. destruct (wf_region m Hwf _ _ Hk2) as [Hmm2 _].
    pose proof (length_bytes_at mm addr lo Hmm Hc). pose proof (length_bytes_at mm2 _ hi Hmm2 Hc2).
    exists (bytes_at mm addr lo ++ bytes_at mm2 (bottom_addr mm) hi).
    assert (length (bytes_at mm addr lo ++ bytes_at mm2 (bottom_addr mm) hi) = n) by (rewrite length_app; lia).
    split; [|auto]. apply bytes_of_spec; [auto |]. intros i Hi'.
    destruct (decide (i < lo)%nat).
    + rewrite lookup_app_l by lia. eapply lookup_region; eauto.
    + rewrite lookup_app_r by lia. erewrite lookup_region by (eauto; lia). f_equal. lia.
Qed.

Lemma read_scalar_spec n addr m :
  wf m -> 0 <= addr -> (0 < n <= 16)%nat ->
  exists t, wf_tlb t /\
    read_scalar n addr m
    = Ret (if reachable Mem.can_read n addr m then from_le_bytes <$> bytes_of m addr n else None,
           set_tlb t m).
Proof.
  intros Hwf Ha Hn. unfold read_scalar. rewrite checked_add_end by lia.
  destruct (Z.leb_spec (addr + Z.of_nat n) (2 ^ 64)) as [Ht | Ht]; cycle 1.
  { exists (tlb m). split; [apply wf_tlb_array, Hwf |]. rewrite set_tlb_id.
    unfold reachable. rewrite (proj2 (Z.leb_gt _ _)) by lia. reflexivity. }
  destruct (get_mem_by_addr_find m Hwf addr) as (t & Htl & ->). exists t. split; [exact Htl |].
  cbn [mbind outcome_bind].
  destruct (reachable Mem.can_read n addr m) eqn:Hr.
  - destruct (reachable_placement m Mem.can_read n addr Hwf ltac:(lia) Hr) as [k mm | k mm k2 mm2 lo hi].
    + rewrite Hf, Hi, Hp. cbn [andb]. destruct (wf_region m Hwf _ _ Hk) as [Hmm _].
      rewrite read_bytes_covered by (auto; lia).
      rewrite read_le_exact by (now apply length_bytes_at). cbn [mbind outcome_bind].
      erewrite (bytes_of_spec m addr n); [reflexivity | now apply length_bytes_at |].
      intros. eapply lookup_region; eauto.
    + rewrite Hf, Hi, Hp. cbn [andb negb]. rewrite (proj2 (Nat.ltb_lt 1 n)) by lia.
      destruct (wf_region m Hwf _ _ Hk) as [Hmm _]. destruct (wf_region m Hwf _ _ Hk2) as [Hmm2 _].
      pose proof Hf as [_ Hin]%find_map_spec; [|exact Hwf].
      destruct (crossing_arith mm addr n Hmm ltac:(lia) Ha ltac:(lia) Hin Hi) as (El & Eh & _ & _ & Ee).
      rewrite Ee, Eh, El. unfold adjacent in Hadj. cbn [maps mem_slab set_tlb].
      destruct (next _) as [[b j]|]; [|discriminate]. destruct (b =? bottom_addr mm); cbn [negb] in *; [|discriminate].
      destruct (slab_get (mem_slab m) j); [|discriminate]. injection Hadj as -> ->.
      rewrite Hp2, Hi2. cbn [andb].
      replace (bottom_addr mm - addr) with (Z.of_nat lo) by lia.
      replace (addr + Z.of_nat n - bottom_addr mm) with (Z.of_nat hi) by lia. rewrite !Nat2Z.id.
      rewrite !read_bytes_covered by auto.
      pose proof (length_bytes_at mm addr lo Hmm Hc) as L1. pose proof (length_bytes_at mm2 _ hi Hmm2 Hc2) as L2.
      pose proof (crossing_buffer n lo hi _ _ (eq_sym Hn0) ltac:(lia) L1 L2) as Hcb.
      revert Hcb. destruct (copy_into 0 lo _ _) as [b0|]; [|discriminate]. cbn [mbind outcome_bind].
      destruct (copy_into lo n _ b0) as [b1|]; [|discriminate]. cbn [mbind outcome_bind].
      destruct (index_range 0 n b1) as [s|]; [|discriminate]. cbn [mbind outcome_bind]. intros ->.
      cbn [mbind outcome_bind]. do 2 f_equal.
      erewrite (bytes_of_spec m addr n); [reflexivity | rewrite length_app; lia |].
      intros i Hi'. destruct (decide (i < lo)%nat).
      * rewrite lookup_app_l by lia. eapply lookup_region; eauto.
      * rewrite lookup_app_r by lia. erewrite lookup_region by (eauto; lia). f_equal. lia.
  - unfold reachable in Hr. rewrite (proj2 (Z.leb_le _ _)) in Hr by lia. cbn [andb] in Hr.
    destruct (find_map addr m) as [[k mm]|] eqn:Hf; [|reflexivity].
    pose proof Hf as [Hk Hin]%find_map_spec; [|exact Hwf]. destruct (wf_region m Hwf _ _ Hk) as [Hmm _].
    destruct (Mem.can_read mm) eqn:Hp; rewrite ?andb_false_r; [|reflexivity].
    destruct (Mem.inside (addr + Z.of_nat n - 1) mm) eqn:Hi; [discriminate |]. cbn [andb orb negb] in *.
    destruct (1 <? n)%nat; [|reflexivity].
    destruct (crossing_arith mm addr n Hmm ltac:(lia) Ha ltac:(lia) Hin Hi) as (El & Eh & _ & _ & Ee).
    rewrite Ee. cbn [maps mem_slab set_tlb].
    rewrite <- (proj1 (adjacent_find m Hwf k mm Hk)) in Hr. unfold adjacent in Hr.
    destruct (next _) as [[b j]|]; [|reflexivity]. destruct (b =? bottom_addr mm); cbn [negb] in *; [|reflexivity].
    destruct (slab_get (mem_slab m) j); [|reflexivity]. now rewrite Hr.
Qed.

(** Slices of the buffer a scalar was encoded into. *)
Lemma buffer_split n v (lo : nat) buf :
  (lo <= n)%nat -> length buf = 16%nat -> (n <= 16)%nat -> take n buf = to_le_bytes n v ->
  index_range 0 lo buf = Ret (take lo (to_le_bytes n v))
  /\ index_range lo n buf = Ret (drop lo (to_le_bytes n v)).
Proof.
  intros Hlo Hl Hn <-. unfold index_range. rewrite !decide_True by lia. split; f_equal.
  - rewrite drop_0, Nat.sub_0_r, take_take. f_equal. lia.
  - symmetry. apply skipn_firstn_comm.
Qed.

Lemma split_le_bytes n v lo hi :
  n = (lo + hi)%nat ->
  length (take lo (to_le_bytes n v)) = lo /\ length (drop lo (to_le_bytes n v)) = hi
  /\ is_bytes (take lo (to_le_bytes n v)) /\ is_bytes (drop lo (to_le_bytes n v)).
Proof.
  intros ->. rewrite length_take, length_drop, length_to_le_bytes.
  repeat split_and; try lia; [apply Forall_take | apply Forall_drop]; apply to_le_bytes_bytes.
Qed.

(** Storing in two adjacent regions. *)
Lemma store_two m k mm k2 mm2 addr lo hi :
  wf m -> slab_get (mem_slab m) k = Some mm -> slab_get (mem_slab m) k2 = Some mm2 -> k2 <> k ->
  bottom_addr mm = addr + len lo -> covers mm addr (len lo) -> covers mm2 (bottom_addr mm) (len hi) ->
  is_bytes lo -> is_bytes hi ->
  let m1 := put_mem k (written mm addr lo) m in
  let m2 := put_mem k2 (written mm2 (bottom_addr mm) hi) m1 in
  slab_get (mem_slab m1) k2 = Some mm2 /\ wf m2 /\ stores m m2 addr (lo ++ hi).
Proof.
  intros Hwf Hk Hk2 Hne Hbd Hc Hc2 Hlo Hhi m1 m2.
  destruct (store_region m k mm addr lo Hwf Hk Hc Hlo) as [Hw1 Hs1]. fold m1 in Hw1, Hs1.
  assert (slab_get (mem_slab m1) k2 = Some mm2) as Hk2'.
  { unfold m1. erewrite slab_get_put_mem by eauto. now rewrite decide_False by auto. }
  destruct (store_region m1 k2 mm2 (bottom_addr mm) hi Hw1 Hk2' Hc2 Hhi) as [Hw2 Hs2]. fold m2 in Hw2, Hs2.
  split; [exact Hk2' |]. split; [exact Hw2 |]. eapply stores_trans; [exact Hs1 |]. now rewrite <- Hbd.
Qed.

(** Whether an access of [n] bytes touches executable memory. *)
Definition touches_code (n : nat) (addr : Z) m : bool :=
  match find_map addr m with
  | None => false
  | Some (_, mm) =>
      Mem.can_execute mm
      || (negb (Mem.inside (addr + Z.of_nat n - 1) mm)
          && match find_map (bottom_addr mm) m with Some (_, mm2) => Mem.can_execute mm2 | None => false end)
  end.

(** A write of [n] bytes is logged exactly when it touches executable memory. *)
Definition logs m m' (addr : Z) (n : nat) : Prop :=
  code_writes m' = if touches_code n addr m then note_log addr (Z.of_nat n) (code_writes m) else code_writes m.

(** A state reached by noting a write after a store. *)
Lemma stores_note m m' addr bs n log :
  wf m' -> stores m m' addr bs -> code_writes m' = log -> forall b : bool,
  let m2 := if b then note_code_write addr n m' else m' in
  wf m2 /\ stores m m2 addr bs /\ code_writes m2 = if b then note_log addr n log else log.
Proof.
  intros Hw Hs <- [|]; [|auto]. cbn. rewrite code_writes_note.
  destruct (note_code_write_same addr n m') as [l ->].
  split_and!; [now apply set_code_writes_wf | exact Hs | reflexivity].
Qed.

Lemma write_across_two n addr v m :
  wf m -> 0 <= addr -> (0 < n <= 16)%nat -> addr + Z.of_nat n <= 2 ^ 64 ->
  forall k mm, find_map addr m = Some (k, mm) -> Mem.inside (addr + Z.of_nat n - 1) mm = false ->
  reachable Mem.can_write n addr m = true ->
  exists m', write_across n addr v (addr + Z.of_nat n - 1) m = Ret (Some true, m')
    /\ wf m' /\ stores m m' addr (to_le_bytes n v) /\ logs m m' addr n.
Proof.
  intros Hwf Ha Hn Ht k mm Hf Hi Hr.
  destruct (reachable_placement m Mem.can_write n addr Hwf ltac:(lia) Hr)
    as [? ? Hf' ? ? ? Hi' | ? ? k2 mm2 lo hi Hf' Hp Hk ? Hadj Hp2 Hk2 Hne Hlo Hhi Hnn Hbd Hc Hc2 Hi2];
    rewrite Hf in Hf'; injection Hf' as <- <-; [congruence |].
  destruct (wf_region m Hwf _ _ Hk) as [Hmm _]. destruct (wf_region m Hwf _ _ Hk2) as [Hmm2 _].
  pose proof Hf as [_ Hin]%find_map_spec; [|exact Hwf].
  destruct (crossing_arith mm addr n Hmm ltac:(lia) Ha ltac:(lia) Hin Hi) as (El & Eh & _ & _ & Ee).
  assert (touches_code n addr m = Mem.can_execute mm || Mem.can_execute mm2) as Etc.
  { unfold touches_code. rewrite Hf, Hi, <- (proj1 (adjacent_find m Hwf k mm Hk)), Hadj. reflexivity. }
  destruct (get_mem_by_addr_find m Hwf addr) as (t & Htl & Eg).
  pose proof (set_tlb_wf m t Hwf Htl) as Hwt.
  unfold write_across. rewrite (proj2 (Nat.ltb_lt 1 n)) by lia. cbn [negb].
  rewrite Eg, Hf. cbn [mbind outcome_bind]. rewrite Hi, Hp. cbn [negb andb].
  rewrite Ee, El. unfold adjacent in Hadj. cbn [maps mem_slab set_tlb].
  destruct (next _) as [[b j]|]; [|discriminate].
  destruct (b =? bottom_addr mm); cbn [negb] in *; [|discriminate].
  destruct (slab_get (mem_slab m) j); [|discriminate]. injection Hadj as -> ->.
  rewrite Hp2, Hi2. cbn [andb].
  destruct (write_le_buffer n v ltac:(lia)) as (buf & -> & Hbl & Hbt & _). cbn [mbind outcome_bind].
  unfold find_map in Hf. destruct (next_back _) as [[b0 k0]|]; [|discriminate].
  destruct (slab_get (mem_slab m) k0) as [m0|] eqn:Hk0; [|discriminate].
  destruct (Mem.inside addr m0); [|discriminate]. injection Hf as -> ->.
  replace (Z.to_nat (bottom_addr mm - addr)) with lo by lia.
  destruct (buffer_split n v lo buf ltac:(lia) Hbl ltac:(lia) Hbt) as [-> Eh']. cbn [mbind outcome_bind].
  destruct (split_le_bytes n v lo hi Hnn) as (L1 & L2 & B1 & B2).
  rewrite (write_bytes_covered mm addr lo) by auto. cbn [mbind outcome_bind].
  destruct (store_two (set_tlb t m) k mm k2 mm2 addr _ _ Hwt Hk Hk2 Hne
              ltac:(rewrite L1; auto) ltac:(rewrite L1; auto) ltac:(rewrite L2; auto) B1 B2)
    as (-> & Hw2 & Hs2).
  rewrite Eh'. cbn [mbind outcome_bind].
  rewrite (write_bytes_covered mm2 (bottom_addr mm) hi) by auto. cbn [mbind outcome_bind].
  rewrite take_drop in Hs2.
  eexists. split; [reflexivity |]. unfold logs. rewrite Etc.
  apply (stores_note m _ addr _ (Z.of_nat n) (code_writes m)); auto.
Qed.

Lemma write_across_none n addr v m :
  wf m -> 0 <= addr -> (0 < n <= 16)%nat -> addr + Z.of_nat n <= 2 ^ 64 ->
  (forall k mm, find_map addr m = Some (k, mm) -> Mem.inside (addr + Z.of_nat n - 1) mm = false ->
     reachable Mem.can_write n addr m = false) ->
  exists t, wf_tlb t /\ write_across n addr v (addr + Z.of_nat n - 1) m = Ret (None, set_tlb t m).
Proof.
  intros Hwf Ha Hn Ht Hr. unfold write_across.
  destruct (1 <? n)%nat; cbn [negb];
    [|exists (tlb m); rewrite set_tlb_id; split; [apply wf_tlb_array, Hwf | reflexivity]].
  destruct (get_mem_by_addr_find m Hwf addr) as (t & Htl & ->). cbn [mbind outcome_bind].
  exists t. split; [exact Htl |]. destruct (find_map addr m) as [[k mm]|] eqn:Hf; [|reflexivity].
  destruct (Mem.inside (addr + Z.of_nat n - 1) mm) eqn:Hi; [reflexivity |].
  destruct (Mem.can_write mm) eqn:Hp; [|reflexivity]. cbn [negb andb].
  specialize (Hr _ _ eq_refl Hi). unfold reachable in Hr.
  rewrite (proj2 (Z.leb_le _ _)), Hf, Hp, Hi in Hr by lia. cbn [andb orb] in Hr.
  pose proof Hf as [Hk Hin]%find_map_spec; [|exact Hwf]. destruct (wf_region m Hwf _ _ Hk) as [Hmm _].
  destruct (crossing_arith mm addr n Hmm ltac:(lia) Ha ltac:(lia) Hin Hi) as (El & Eh & _ & _ & Ee).
  rewrite Ee. cbn [maps mem_slab set_tlb].
  rewrite <- (proj1 (adjacent_find m Hwf k mm Hk)) in Hr. unfold adjacent in Hr.
  destruct (next _) as [[b j]|]; [|reflexivity]. destruct (b =? bottom_addr mm); cbn [negb] in *; [|reflexivity].
  destruct (slab_get (mem_slab m) j); [|reflexivity]. now rewrite Hr.
Qed.

Lemma write_scalar_spec n addr v m :
  wf m -> 0 <= addr -> (0 < n <= 16)%nat ->
  exists m', write_scalar n addr v m = Ret (reachable Mem.can_write n addr m, m')
    /\ wf m'
    /\ if reachable Mem.can_write n addr m
       then stores m m' addr (to_le_bytes n v) /\ logs m m' addr n
       else maps_equiv m' m.
Proof.
  intros Hwf Ha Hn. unfold write_scalar. rewrite checked_add_end by lia.
  destruct (Z.leb_spec (addr + Z.of_nat n) (2 ^ 64)) as [Ht | Ht]; cycle 1.
  { exists m. unfold reachable. rewrite (proj2 (Z.leb_gt _ _)) by lia. now split_and!. }
  destruct (find_map addr m) as [[k mm]|] eqn:Hf;
    [destruct (Mem.inside (addr + Z.of_nat n - 1) mm) eqn:Hi;
       [|destruct (reachable Mem.can_write n addr m) eqn:Hr] |].
  2: { destruct (write_across_two n addr v m Hwf Ha Hn Ht k mm Hf Hi Hr) as (m' & -> & Hw & Hs).
       cbn [mbind outcome_bind]. eauto. }
  all: (destruct (write_across_none n addr v m Hwf Ha Hn Ht) as (t & Htl & ->);
        [intros k' mm' E ?; simplify_eq; congruence |]).
  all: cbn [mbind outcome_bind]; pose proof (set_tlb_wf m t Hwf Htl) as Hwt;
    destruct (get_mem_by_addr_mut_find _ Hwt addr) as (t' & Htl' & ->); cbn [mbind outcome_bind];
    change (find_map addr (set_tlb t m)) with (find_map addr m); rewrite Hf; cbn [mbind outcome_bind].
  - change (set_tlb t' (set_tlb t m)) with (set_tlb t' m). rewrite Hi.
    assert (reachable Mem.can_write n addr m = Mem.can_write mm) as ->.
    { unfold reachable. rewrite (proj2 (Z.leb_le _ _)), Hf, Hi by lia. cbn [andb orb]. apply andb_true_r. }
    pose proof (set_tlb_wf m t' Hwf Htl') as Hwt'.
    destruct (Mem.can_write mm) eqn:Hp; cbn [andb]; [|exists (set_tlb t' m); split_and!; auto; reflexivity].
    pose proof Hf as [Hk Hin]%find_map_spec; [|exact Hwf]. destruct (wf_region m Hwf _ _ Hk) as [Hmm _].
    assert (covers mm addr (Z.of_nat n)) as Hc
      by (apply inside_covers in Hi, Hin; unfold covers in *; lia).
    destruct (write_le_buffer n v ltac:(lia)) as (buf & -> & _ & _ & Hb). cbn [mbind outcome_bind].
    rewrite Hb. cbn [mbind outcome_bind]. pose proof (length_to_le_bytes n v) as Hlen.
    rewrite (write_bytes_covered mm addr n) by auto. cbn [mbind outcome_bind].
    destruct (store_region (set_tlb t' m) k mm addr (to_le_bytes n v) Hwt' Hk
                ltac:(rewrite Hlen; auto) (to_le_bytes_bytes n v)) as [Hw Hs].
    eexists. split; [reflexivity |].
    assert (touches_code n addr m = Mem.can_execute mm) as Etc
      by (unfold touches_code; rewrite Hf, Hi; apply orb_false_r).
    unfold logs. rewrite Etc. apply (stores_note m _ addr _ (Z.of_nat n) (code_writes m)); auto.
  - exists (set_tlb t' m). rewrite Hi. split_and!; auto using set_tlb_wf; reflexivity.
  - exists (set_tlb t' m). unfold reachable. rewrite Hf, andb_false_r. split_and!; auto using set_tlb_wf; reflexivity.
Qed.

(** Regions and permissions decide what is reachable. *)
Lemma reachable_layout p n addr m m' :
  (forall mm mm', permission mm = permission mm' -> p mm = p mm') ->
  (forall a, layout m' a = layout m a) -> reachable p n addr m' = reachable p n addr m.
Proof.
  intros Hp Hl. unfold reachable. f_equal.
  pose proof (Hl addr) as E. unfold layout in E.
  destruct (find_map addr m') as [[k' mm']|], (find_map addr m) as [[k mm]|];
    try discriminate E; [|reflexivity]. injection E as _ Hb Ht Hpm.
  rewrite (Hp mm' mm Hpm). unfold Mem.inside. rewrite Hb, Ht. do 2 f_equal.
  pose proof (Hl (bottom_addr mm)) as E2. unfold layout in E2.
  destruct (find_map (bottom_addr mm) m') as [[k2' mm2']|], (find_map (bottom_addr mm) m) as [[k2 mm2]|];
    try discriminate E2; [|reflexivity]. injection E2 as _ Hb2 Ht2 Hpm2.
  now rewrite (Hp mm2' mm2 Hpm2), Hb2, Ht2.
Qed.

(** ** The scalar operations implement the address space *)

(** C2. A read of 1, 2, 4, 8 or 16 bytes from a well-formed address space returns
    the little-endian value of the bytes stored in the range when the range lies in
    a readable region, or in two adjacent ones, and None otherwise; only the TLB
    changes, and the read never panics. *)
Theorem maps_read_correct sk addr m :
  wf m -> 0 <= addr ->
  exists m', read_scalar (SIZE sk) addr m
             = Ret (if reachable Mem.can_read (SIZE sk) addr m
                    then from_le_bytes <$> bytes_of m addr (SIZE sk) else None, m')
    /\ maps_equiv m' m /\ wf m'
    /\ (reachable Mem.can_read (SIZE sk) addr m = true -> is_Some (bytes_of m addr (SIZE sk))).
Proof.
  intros Hwf Ha. assert (0 < SIZE sk <= 16)%nat as Hn by (destruct sk; simpl; lia).
  destruct (read_scalar_spec _ _ _ Hwf Ha Hn) as (t & Ht & ->).
  exists (set_tlb t m). split_and!; auto using set_tlb_wf; [reflexivity |].
  intros Hr. destruct (bytes_of_placement m Mem.can_read (SIZE sk) addr Hwf) as (bs & -> & _); eauto.
  apply reachable_placement; auto; lia.
Qed.

(** C1. A write of 1, 2, 4, 8 or 16 bytes to a well-formed address space returns
    true exactly when the range lies in a writable region, or starts in one and ends
    in the writable region adjacent to it; then exactly the bytes of the value are
    stored, little-endian, the regions and permissions are unchanged and the
    code-write log gains the range exactly when executable memory was touched;
    otherwise nothing but the TLB changes. The operation never panics and keeps the
    invariant. *)
Theorem maps_write_correct sk addr v m :
  wf m -> 0 <= addr ->
  exists m', write_scalar (SIZE sk) addr v m = Ret (reachable Mem.can_write (SIZE sk) addr m, m')
    /\ wf m'
    /\ (if reachable Mem.can_write (SIZE sk) addr m
        then stores m m' addr (to_le_bytes (SIZE sk) v) /\ logs m m' addr (SIZE sk)
        else maps_equiv m' m).
Proof.
  intros Hwf Ha. apply write_scalar_spec; auto. destruct sk; simpl; lia.
Qed.

Lemma stores_bytes_of m m' addr bs :
  stores m m' addr bs -> bytes_of m' addr (length bs) = Some bs.
Proof.
  intros [Hb _]. apply bytes_of_spec; [reflexivity |]. intros i Hi. rewrite Hb, decide_True by lia.
  f_equal. lia.
Qed.

(** A scalar written to reachable memory is read back. *)
Theorem maps_write_read sk addr v m :
  wf m -> 0 <= addr -> is_word (bits_of (SIZE sk)) v ->
  reachable Mem.can_write (SIZE sk) addr m = true -> reachable Mem.can_read (SIZE sk) addr m = true ->
  exists m1 m2, write_scalar (SIZE sk) addr v m = Ret (true, m1)
    /\ read_scalar (SIZE sk) addr m1 = Ret (Some v, m2).
Proof.
  intros Hwf Ha Hv Hw Hr. assert (0 < SIZE sk <= 16)%nat as Hn by (destruct sk; simpl; lia).
  destruct (write_scalar_spec (SIZE sk) addr v m Hwf Ha Hn) as (m1 & Ew & Hwf1 & Hs). rewrite Hw in Ew, Hs.
  destruct Hs as [Hs _].
  destruct (read_scalar_spec (SIZE sk) addr m1 Hwf1 Ha Hn) as (t & _ & Er).
  assert (reachable Mem.can_read (SIZE sk) addr m1 = true) as Hr1.
  { rewrite <- Hr. apply reachable_layout; [|apply Hs]. intros mm mm' E. unfold Mem.can_read. now rewrite E. }
  exists m1, (set_tlb t m1). split; [exact Ew |]. rewrite Er, Hr1.
  rewrite <- (length_to_le_bytes (SIZE sk) v) at 1. rewrite (stores_bytes_of m m1) by auto.
  cbn. now rewrite from_to_le_bytes_eq.
Qed.

(** ** Bulk writes *)

(** Whether a byte can be written at an address, and how many consecutive
    addresses can. *)
Definition writable (addr : Z) m : bool :=
  match find_map addr m with Some (_, mm) => Mem.can_write mm | None => false end.

Fixpoint writable_run (n : nat) (addr : Z) m : nat :=
  match n with
  | O => O
  | Datatypes.S n' => if writable addr m then Datatypes.S (writable_run n' (addr + 1) m) else O
  end.

Lemma writable_layout addr m m' :
  (forall a, layout m' a = layout m a) -> writable addr m' = writable addr m.
Proof.
  intros Hl. pose proof (Hl addr) as E. unfold layout, writable, Mem.can_write in *.
  destruct (find_map addr m') as [[? ?]|], (find_map addr m) as [[? ?]|]; try discriminate E; congruence.
Qed.

Lemma writable_run_layout n addr m m' :
  (forall a, layout m' a = layout m a) -> writable_run n addr m' = writable_run n addr m.
Proof.
  intros Hl. revert addr. induction n as [|n IH]; intros addr; [reflexivity |]. cbn.
  now rewrite (writable_layout addr m m' Hl), IH.
Qed.

Lemma writable_run_le n addr m : (writable_run n addr m <= n)%nat.
Proof. revert addr. induction n as [|n IH]; intros addr; cbn; [lia |]. specialize (IH (addr + 1)). case_match; lia. Qed.

Lemma writable_reachable addr m :
  wf m -> addr < 2 ^ 64 -> reachable Mem.can_write 1 addr m = writable addr m.
Proof.
  intros Hwf Ha. unfold reachable, writable. rewrite (proj2 (Z.leb_le _ _)) by lia. cbn [andb].
  destruct (find_map addr m) as [[k mm]|] eqn:Hf; [|reflexivity].
  apply find_map_spec in Hf as [_ Hi]; [|exact Hwf].
  replace (addr + Z.of_nat 1 - 1) with addr by lia. rewrite Hi. apply andb_true_r.
Qed.

Lemma stores_nil m m' addr : maps_equiv m' m -> stores m m' addr [].
Proof.
  intros E. split; intros a; [|now rewrite E].
  rewrite decide_False by (cbn; lia). now rewrite E.
Qed.

Lemma write_each_spec data addr m :
  wf m -> 0 <= addr -> addr + len data <= 2 ^ 64 -> is_bytes data ->
  exists m', write_each addr data m = Ret ((writable_run (length data) addr m =? length data)%nat, m')
    /\ wf m' /\ stores m m' addr (take (writable_run (length data) addr m) data).
Proof.
  revert addr m. induction data as [|b data IH]; intros addr m Hwf Ha Ht Hb; cbn [write_each length writable_run].
  { exists m. split_and!; auto. now apply stores_nil. }
  cbn [length] in Ht. inversion_clear Hb as [|? ? Hb0 Hbs].
  destruct (write_scalar_spec 1 addr b m Hwf Ha ltac:(lia)) as (m1 & Ew & Hwf1 & Hs).
  rewrite writable_reachable in Ew, Hs by (auto; lia).
  unfold write_byte. cbn [SIZE]. rewrite Ew. cbn [mbind outcome_bind].
  destruct (writable addr m); cbn [negb take]; [destruct Hs as [Hs _] |]; cycle 1.
  { exists m1. split_and!; auto. now apply stores_nil. }
  assert (to_le_bytes 1 b = [b]) as E1 by (cbn; f_equal; now apply wrap_small).
  rewrite E1 in Hs. destruct data as [|b' data'].
  { exists m1. split_and!; auto. }
  destruct (IH (addr + 1) m1 Hwf1) as (m2 & E2 & Hwf2 & Hs2); [lia | lia | auto |].
  rewrite wadd_small by (unfold is_word; cbn [length] in Ht; lia).
  rewrite (writable_run_layout _ _ m m1) in E2, Hs2 by apply Hs.
  exists m2. split_and!; [exact E2 | exact Hwf2 |].
  change (b :: ?l) with ([b] ++ l). eapply stores_trans; eauto.
Qed.

(** A range inside one writable region is writable throughout. *)
Lemma writable_run_region m k mm addr n :
  wf m -> slab_get (mem_slab m) k = Some mm -> Mem.can_write mm = true ->
  covers mm addr (Z.of_nat n) -> writable_run n addr m = n.
Proof.
  intros Hwf Hk Hp. revert addr. induction n as [|n IH]; intros addr Hc; [reflexivity |].
  cbn [writable_run]. unfold covers in *. unfold writable.
  rewrite (proj2 (find_map_spec m Hwf addr k mm)) by (split; [auto | apply inside_covers; unfold covers; lia]).
  rewrite Hp, IH by lia. reflexivity.
Qed.

Lemma write_bytes_spec addr data m :
  wf m -> 0 <= addr -> addr + len data <= 2 ^ 64 -> is_bytes data ->
  let run := writable_run (length data) addr m in
  exists m', write_bytes addr data m = Ret ((run =? length data)%nat, m')
    /\ wf m' /\ stores m m' addr (take run data).
Proof.
  intros Hwf Ha Ht Hb run. unfold write_bytes. case_decide as Hd.
  { subst. exists m. split_and!; auto. now apply stores_nil. }
  assert (0 < length data)%nat by (destruct data; simpl; [congruence | lia]).
  rewrite checked_add_end by lia. rewrite (proj2 (Z.leb_le _ _)) by lia.
  destruct (get_mem_by_addr_mut_find m Hwf addr) as (t & Htl & ->). cbn [mbind outcome_bind].
  pose proof (set_tlb_wf m t Hwf Htl) as Hwt.
  destruct (find_map addr m) as [[k mm]|] eqn:Hf; cycle 1.
  { exists (set_tlb t m). unfold run. destruct (length data) eqn:El; [lia |]. cbn [writable_run].
    unfold writable. rewrite Hf. split_and!; auto. now apply stores_nil. }
  destruct (Mem.inside (addr + len data - 1) mm && Mem.can_write mm) eqn:Hi.
  - apply andb_true_iff in Hi as [Hi Hp].
    pose proof Hf as [Hk Hin]%find_map_spec; [|exact Hwf]. destruct (wf_region m Hwf _ _ Hk) as [Hmm _].
    assert (covers mm addr (len data)) as Hc by (apply inside_covers in Hi, Hin; unfold covers in *; lia).
    unfold run. rewrite (writable_run_region m k mm) by auto. rewrite Nat.eqb_refl, firstn_all.
    rewrite (write_bytes_covered mm addr (length data)) by auto. cbn [mbind outcome_bind].
    destruct (store_region (set_tlb t m) k mm addr data Hwt Hk Hc Hb) as [Hw Hs].
    eexists. split; [reflexivity |].
    edestruct (stores_note m _ addr data (len data) (code_writes m) Hw Hs eq_refl) as (? & ? & _); eauto.
  - destruct (write_each_spec data addr (set_tlb t m)) as (m' & E & Hw & Hs); auto.
    rewrite (writable_run_layout _ _ m) in E, Hs by reflexivity. exists m'. split_and!; auto.
Qed.

(** write_bytes stores the longest prefix of the data whose addresses are all
    writable, whichever regions they are in, and returns true exactly when that is
    the whole of it. *)
Theorem maps_write_bytes_correct addr data m :
  wf m -> 0 <= addr -> addr + len data <= 2 ^ 64 -> is_bytes data ->
  let run := writable_run (length data) addr m in
  exists m', write_bytes addr data m = Ret ((run =? length data)%nat, m')
    /\ wf m' /\ stores m m' addr (take run data).
Proof. apply write_bytes_spec. Qed.
End Invariant.
