(* ===== verification/MapsLife.v ===== *)
(** * Creating, trimming and destroying maps

    [create_map], [free], [dealloc] and [unmap_range] keep the invariant of
    MapsInv.v and change the address space exactly as they promise. *)

From stdpp Require Import gmap strings.
From S2P Require Import Prelude Scalar Mem64 BTree Slab Tlb Maps MapsInv.

Section Lifecycle.
Context {S : Type} `{SlabLaws S}.
Implicit Types (m : Maps S) (mm : Mem64) (k : nat).

(** The byte and the permissions at an address. *)
Definition cell_of m (a : Z) : option (Z * Permission) :=
  match find_map a m with
  | Some (_, mm) => (fun b => (b, permission mm)) <$> byte_at mm a
  | None => None
  end.

Definition cell_at mm (a : Z) : option (Z * Permission) := (fun b => (b, permission mm)) <$> byte_at mm a.

#[export] Instance cell_of_proper : Proper (maps_equiv ==> eq ==> eq) cell_of.
Proof. intros m1 m2 E a ? <-. unfold cell_of. now rewrite E. Qed.

Lemma cell_of_region m k mm a :
  wf m -> slab_get (mem_slab m) k = Some mm -> Mem.inside a mm = true -> cell_of m a = cell_at mm a.
Proof.
  intros Hwf Hk Hi. unfold cell_of. now rewrite (proj2 (find_map_spec m Hwf a k mm) (conj Hk Hi)).
Qed.

(** A cell is mapped exactly when a region contains it. *)
Lemma cell_of_none m a : wf m -> cell_of m a = None <-> find_map a m = None.
Proof.
  intros Hwf. unfold cell_of. destruct (find_map a m) as [[k mm]|] eqn:E; [|easy].
  split; [|discriminate]. apply find_map_spec in E as [Hk Hi]; [|exact Hwf].
  destruct (wf_region m Hwf _ _ Hk) as [Hmm _]. apply inside_byte_at in Hi as [b ->]; [|exact Hmm].
  discriminate.
Qed.

(** No region meets [base, base + n). *)
Definition range_free m (base n : Z) : Prop :=
  forall k mm, slab_get (mem_slab m) k = Some mm -> bottom_addr mm <= base \/ base + n <= base_addr mm.

(** ** Removing a region *)

(** [m'] is [m] without region [k]; TLB and log are arbitrary. *)
Record removed m k mm m' : Prop := {
  removed_slab : forall j, slab_get (mem_slab m') j = if decide (j = k) then None else slab_get (mem_slab m) j;
  removed_maps : maps m' = delete (base_addr mm) (maps m);
  removed_names : name_map m' = delete (mem_name mm) (name_map m);
  removed_tlb : wf_tlb (tlb m')
}.

Lemma removed_region m k mm m' j mj :
  removed m k mm m' -> slab_get (mem_slab m') j = Some mj -> j <> k /\ slab_get (mem_slab m) j = Some mj.
Proof. intros [Hs _ _ _]. rewrite Hs. case_decide; [discriminate | auto]. Qed.

Lemma removed_wf m k mm m' : wf m -> slab_get (mem_slab m) k = Some mm -> removed m k mm m' -> wf m'.
Proof.
  intros Hwf Hk Hrm. pose proof (removed_region m k mm m') as Hold.
  destruct Hrm as [Hs Hm Hn Ht]. destruct Hwf as [Hr Hbd Hbs Hnd Hns Hd _].
  split; intros.
  - destruct (Hold _ _ ltac:(split; auto) H1). eauto.
  - destruct (Hold _ _ ltac:(split; auto) H1) as [Hne Hj]. rewrite Hm, lookup_delete_ne; [eauto |].
    intros E. pose proof (Hbd _ _ Hj). pose proof (Hbd _ _ Hk). congruence.
  - rewrite Hm, lookup_delete_Some in H1. destruct H1 as [Hne Hb].
    destruct (Hbs _ _ Hb) as (mj & Hj & <-). exists mj. rewrite Hs, decide_False; [auto |].
    intros ->. congruence.
  - destruct (Hold _ _ ltac:(split; auto) H1) as [Hne Hj]. rewrite Hn, lookup_delete_ne; [eauto |].
    intros E. pose proof (Hnd _ _ Hj). pose proof (Hnd _ _ Hk). congruence.
  - rewrite Hn, lookup_delete_Some in H1. destruct H1 as [Hne Hb].
    destruct (Hns _ _ Hb) as (mj & Hj & <-). exists mj. rewrite Hs, decide_False; [auto |].
    intros ->. congruence.
  - destruct (Hold _ _ ltac:(split; auto) H1), (Hold _ _ ltac:(split; auto) H2). eauto.
  - exact Ht.
Qed.

Lemma removed_cells m k mm m' a :
  wf m -> slab_get (mem_slab m) k = Some mm -> removed m k mm m' ->
  cell_of m' a = if Mem.inside a mm then None else cell_of m a.
Proof.
  intros Hwf Hk Hrm. pose proof (removed_wf _ _ _ _ Hwf Hk Hrm) as Hwf'.
  destruct (Mem.inside a mm) eqn:Hi.
  - apply cell_of_none; [exact Hwf' |]. apply find_map_none; [exact Hwf' |]. intros j mj Hj.
    destruct (removed_region _ _ _ _ _ _ Hrm Hj) as [Hne Hj'].
    destruct (Mem.inside a mj) eqn:Hij; [|reflexivity]. exfalso.
    pose proof (tlb_hit m Hwf a _ _ Hk Hi). pose proof (tlb_hit m Hwf a _ _ Hj' Hij). congruence.
  - destruct (find_map a m) as [[j mj]|] eqn:Hf.
    + pose proof Hf as [Hj Hij]%find_map_spec; [|exact Hwf].
      rewrite (cell_of_region m j mj) by auto. apply (cell_of_region m' j); auto.
      destruct Hrm as [Hs _ _ _]. rewrite Hs, decide_False; [auto |]. intros ->. congruence.
    + transitivity (@None (Z * Permission)); [|symmetry; now apply cell_of_none].
      apply cell_of_none; [exact Hwf' |]. apply find_map_none; [exact Hwf' |]. intros j mj Hj.
      destruct (removed_region _ _ _ _ _ _ Hrm Hj) as [_ Hj'].
      rewrite find_map_none in Hf by exact Hwf. eauto.
Qed.

(** Clearing a region and removing it from the slab. *)
Lemma clear_remove m k mm v :
  slab_get (mem_slab m) k = Some mm ->
  exists s', slab_remove k (slab_put k v (mem_slab m)) = Ret s'
    /\ forall j, slab_get s' j = if decide (j = k) then None else slab_get (mem_slab m) j.
Proof.
  intros Hk. assert (is_Some (slab_get (slab_put k v (mem_slab m)) k)) as Hs.
  { rewrite slab_get_put by eauto. rewrite decide_True by auto. eauto. }
  destruct (slab_get_remove k _ Hs) as (s' & E & Hg). exists s'. split; [exact E |].
  intros j. rewrite Hg. case_decide; [reflexivity |]. rewrite slab_get_put by eauto.
  now rewrite decide_False.
Qed.

Lemma dealloc_removes m k mm :
  wf m -> slab_get (mem_slab m) k = Some mm ->
  exists m', dealloc (base_addr mm) m = Ret m' /\ removed m k mm m'.
Proof.
  intros Hwf Hk. unfold dealloc. rewrite (wf_based m Hwf _ _ Hk), Hk.
  set (m0 := set_name_map _ m).
  set (m1 := if Mem.can_execute mm then note_code_write _ _ m0 else m0).
  assert (exists l, m1 = set_code_writes l m0) as [l ->].
  { unfold m1. destruct (Mem.can_execute mm); [apply note_code_write_same |].
    exists (code_writes m0). now destruct m0. }
  change (slab_get (mem_slab (set_code_writes l m0)) k) with (slab_get (mem_slab m) k). rewrite Hk.
  destruct (clear_remove m k mm (Mem.clear mm) Hk) as (s' & E & Hg). cbn in *. rewrite E.
  cbn. eexists. split; [reflexivity |]. split; cbn; auto.
  apply flush_wf, wf_tlb_array, Hwf.
Qed.

Lemma free_removes m k mm :
  wf m -> slab_get (mem_slab m) k = Some mm ->
  exists m', free (mem_name mm) m = Ret m' /\ removed m k mm m'.
Proof.
  intros Hwf Hk. unfold free. rewrite (wf_named m Hwf _ _ Hk), Hk.
  destruct (clear_remove m k mm (Mem.clear mm) Hk) as (s' & E & Hg). cbn in *. rewrite E.
  cbn. eexists. split; [reflexivity |]. split; cbn; auto.
  apply flush_wf, wf_tlb_array, Hwf.
Qed.

Lemma dealloc_spec m addr :
  wf m ->
  exists m', dealloc addr m = Ret m' /\ wf m'
    /\ forall a, cell_of m' a
         = match maps m !! addr ≫= slab_get (mem_slab m) with
           | Some mm => if Mem.inside a mm then None else cell_of m a
           | None => cell_of m a
           end.
Proof.
  intros Hwf. destruct (maps m !! addr) as [k|] eqn:Hb; cbn.
  - destruct (wf_bases m Hwf _ _ Hb) as (mm & Hk & <-). rewrite Hk.
    destruct (dealloc_removes m k mm Hwf Hk) as (m' & E & Hrm). exists m'.
    split_and!; [exact E | eauto using removed_wf |]. intros. eapply removed_cells; eauto.
  - exists m. unfold dealloc. rewrite Hb. auto.
Qed.

(** dealloc of the base of a region removes exactly the addresses of that region,
    and of any other address nothing; the rest of the address space is unchanged. *)
Theorem dealloc_correct m addr :
  wf m ->
  exists m', dealloc addr m = Ret m' /\ wf m'
    /\ forall a, cell_of m' a
         = match maps m !! addr ≫= slab_get (mem_slab m) with
           | Some mm => if Mem.inside a mm then None else cell_of m a
           | None => cell_of m a
           end.
Proof. apply dealloc_spec. Qed.

Lemma free_spec m name :
  wf m ->
  exists m', free name m = Ret m' /\ wf m' /\ name_map m' !! name = None
    /\ forall a, cell_of m' a
         = match get_map_by_name name m with
           | Some mm => if Mem.inside a mm then None else cell_of m a
           | None => cell_of m a
           end.
Proof.
  intros Hwf. unfold get_map_by_name. destruct (name_map m !! name) as [k|] eqn:Hb; cbn.
  - destruct (wf_names m Hwf _ _ Hb) as (mm & Hk & <-). rewrite Hk.
    destruct (free_removes m k mm Hwf Hk) as (m' & E & Hrm). exists m'.
    split_and!; [exact E | eauto using removed_wf | | intros; eapply removed_cells; eauto].
    rewrite (removed_names _ _ _ _ Hrm). apply lookup_delete_eq.
  - exists m. unfold free. rewrite Hb. auto.
Qed.

(** [free] removes exactly the addresses and the name of the region of that name. *)
Theorem free_correct m name :
  wf m ->
  exists m', free name m = Ret m' /\ wf m' /\ name_map m' !! name = None
    /\ forall a, cell_of m' a
         = match get_map_by_name name m with
           | Some mm => if Mem.inside a mm then None else cell_of m a
           | None => cell_of m a
           end.
Proof. apply free_spec. Qed.


(** ** Adding a region *)

(** [m'] is [m] with the region [mm] under the new key [k]. *)
Record added m k mm m' : Prop := {
  added_slab : forall j, slab_get (mem_slab m') j = if decide (j = k) then Some mm else slab_get (mem_slab m) j;
  added_maps : maps m' = <[base_addr mm := k]> (maps m);
  added_names : name_map m' = <[mem_name mm := k]> (name_map m);
  added_tlb : wf_tlb (tlb m')
}.

Section Add.
Context m k mm m' (Hwf : wf m) (Hadd : added m k mm m').
Context (Hk : slab_get (mem_slab m) k = None).
Context (Hmm : wf_mem mm) (Hne : base_addr mm < bottom_addr mm).
Context (Hname : name_map m !! mem_name mm = None).
Context (Hfree : range_free m (base_addr mm) (bottom_addr mm - base_addr mm)).

Lemma added_region j mj :
  slab_get (mem_slab m') j = Some mj -> (j = k /\ mj = mm) \/ (j <> k /\ slab_get (mem_slab m) j = Some mj).
Proof. rewrite (added_slab _ _ _ _ Hadd). case_decide; [intros [= <-] |]; auto. Qed.

Lemma added_old j mj : slab_get (mem_slab m) j = Some mj -> j <> k /\ slab_get (mem_slab m') j = Some mj.
Proof.
  intros Hj. assert (j <> k) as Hn by congruence. split; [exact Hn |].
  rewrite (added_slab _ _ _ _ Hadd). now rewrite decide_False.
Qed.

Lemma added_apart j mj :
  slab_get (mem_slab m) j = Some mj -> bottom_addr mj <= base_addr mm \/ bottom_addr mm <= base_addr mj.
Proof. intros Hj. destruct (Hfree _ _ Hj); lia. Qed.

Lemma added_new : slab_get (mem_slab m') k = Some mm.
Proof. rewrite (added_slab _ _ _ _ Hadd). now rewrite decide_True. Qed.

Lemma added_wf : wf m'.
Proof.
  destruct Hwf as [Hr Hbd Hbs Hnd Hns Hd _].
  split.
  - intros j mj [[-> ->] | [_ Hj]]%added_region; eauto.
  - intros j mj [[-> ->] | [_ Hj]]%added_region; rewrite (added_maps _ _ _ _ Hadd); [apply lookup_insert_eq |].
    rewrite lookup_insert_ne; [eauto |]. destruct (added_apart _ _ Hj); destruct (Hr _ _ Hj); lia.
  - intros b j. rewrite (added_maps _ _ _ _ Hadd), lookup_insert_Some.
    intros [[<- <-] | [_ Hb]]; [eauto using added_new |].
    destruct (Hbs _ _ Hb) as (mj & Hj & <-). exists mj. split; [now apply added_old | reflexivity].
  - intros j mj [[-> ->] | [_ Hj]]%added_region; rewrite (added_names _ _ _ _ Hadd); [apply lookup_insert_eq |].
    rewrite lookup_insert_ne; [eauto |]. intros E. pose proof (Hnd _ _ Hj). congruence.
  - intros s j. rewrite (added_names _ _ _ _ Hadd), lookup_insert_Some.
    intros [[<- <-] | [_ Hb]]; [eauto using added_new |].
    destruct (Hns _ _ Hb) as (mj & Hj & <-). exists mj. split; [now apply added_old | reflexivity].
  - intros j1 m1 j2 m2 [[-> ->] | [_ Hj1]]%added_region [[-> ->] | [_ Hj2]]%added_region Hj12; try congruence.
    + destruct (added_apart _ _ Hj2); lia.
    + destruct (added_apart _ _ Hj1); lia.
    + eauto.
  - apply (added_tlb _ _ _ _ Hadd).
Qed.

Lemma added_cells a : cell_of m' a = if Mem.inside a mm then cell_at mm a else cell_of m a.
Proof.
  destruct (Mem.inside a mm) eqn:Hi.
  - apply (cell_of_region m' k); auto using added_wf, added_new.
  - destruct (find_map a m) as [[j mj]|] eqn:Hf.
    + pose proof Hf as [Hj Hij]%find_map_spec; [|exact Hwf].
      rewrite (cell_of_region m j mj) by auto.
      apply (cell_of_region m' j); [apply added_wf | now apply added_old | exact Hij].
    + transitivity (@None (Z * Permission)); [|symmetry; now apply cell_of_none].
      apply cell_of_none; [apply added_wf |]. apply find_map_none; [apply added_wf |].
      intros j mj [[-> ->] | [_ Hj]]%added_region; [exact Hi |].
      rewrite find_map_none in Hf by exact Hwf. eauto.
Qed.

End Add.

(** A free range starts at an unmapped address. *)
Lemma range_free_find m base n : wf m -> 0 < n -> range_free m base n -> find_map base m = None.
Proof.
  intros Hwf Hn Hf. apply find_map_none; [exact Hwf |]. intros k mm Hk.
  unfold Mem.inside. apply andb_false_iff. destruct (wf_region m Hwf _ _ Hk). destruct (Hf _ _ Hk); lia.
Qed.

Lemma create_map_adds name base sz perm m :
  wf m -> find_map base m = None -> name_map m !! name = None ->
  exists k m', create_map name base sz perm m = Ret (inr k, m')
    /\ slab_get (mem_slab m) k = None
    /\ added m k (fresh name base sz perm) m'.
Proof.
  intros Hwf Hf Hn. unfold create_map.
  destruct (get_mem_by_addr_mut_find m Hwf base) as (t & Ht & ->). cbn [mbind outcome_bind]. rewrite Hf.
  rewrite decide_False by (intros [? ?]; discriminate).
  unfold exists_mapname. cbn [name_map set_tlb]. rewrite Hn, bool_decide_false by (intros [? ?]; discriminate).
  change (Mem.set_permission perm (Mem.set_size sz (Mem.set_base base (Mem.set_name name Mem.default))))
    with (fresh name base sz perm).
  set (mm := fresh name base sz perm).
  pose proof (slab_insert_fresh mm (mem_slab m)) as Hfr.
  pose proof (slab_get_insert mm (mem_slab m)) as Hg.
  cbn [mem_slab set_tlb]. destruct (slab_insert mm (mem_slab m)) as [k s]. cbn [fst snd] in *.
  set (m1 := set_tlb (flush _) _).
  assert (exists l, (if Perm.can_execute perm then note_code_write base sz m1 else m1)
                    = set_code_writes l m1) as [l ->].
  { destruct (Perm.can_execute perm); [apply note_code_write_same |].
    exists (code_writes m1). now destruct m1. }
  change (slab_get (mem_slab (set_code_writes l m1)) k) with (slab_get s k). rewrite Hg, decide_True by auto.
  exists k, (set_code_writes l m1). split; [reflexivity |]. split; [exact Hfr |].
  split; cbn; auto. now apply flush_wf.
Qed.

Lemma create_map_spec name base sz perm m :
  wf m -> 0 <= base -> 0 < sz -> base + sz < 2 ^ 64 -> range_free m base sz ->
  exists r m', create_map name base sz perm m = Ret (r, m')
    /\ wf m'
    /\ match r with
       | inl e => e = NameExists name /\ is_Some (name_map m !! name) /\ maps_equiv m' m
       | inr k => name_map m !! name = None
           /\ slab_get (mem_slab m') k = Some (fresh name base sz perm)
           /\ (forall a, cell_of m' a = if (base <=? a) && (a <? base + sz)
                                        then Some (0, perm) else cell_of m a)
       end.
Proof.
  intros Hwf Hb Hs Ht Hfree. pose proof (range_free_find m base sz Hwf Hs Hfree) as Hf.
  destruct (name_map m !! name) as [k0|] eqn:Hn.
  - destruct (get_mem_by_addr_mut_find m Hwf base) as (t & Htl & E).
    exists (inl (NameExists name)), (set_tlb t m).
    split_and!; eauto using set_tlb_wf; [|reflexivity].
    unfold create_map. rewrite E. cbn [mbind outcome_bind]. rewrite Hf.
    rewrite decide_False by (intros [? ?]; discriminate).
    unfold exists_mapname. cbn [name_map set_tlb]. now rewrite Hn, bool_decide_true by eauto.
  - destruct (create_map_adds name base sz perm m Hwf Hf Hn) as (k & m' & E & Hk & Hadd).
    pose proof (fresh_wf name base sz perm Hb ltac:(lia) Ht) as Hmm.
    pose proof (fresh_bottom name base sz perm Hb ltac:(lia) Ht) as Hbt.
    assert (range_free m (base_addr (fresh name base sz perm))
              (bottom_addr (fresh name base sz perm) - base_addr (fresh name base sz perm))) as Hfr.
    { change (base_addr (fresh name base sz perm)) with base. rewrite Hbt.
      now replace (base + sz - base) with sz by lia. }
    assert (base_addr (fresh name base sz perm) < bottom_addr (fresh name base sz perm)) as Hne
      by (rewrite Hbt; cbn; lia).
    exists (inr k), m'. split; [exact E |]. split; [eapply added_wf; eauto |].
    split; [reflexivity |]. split; [eapply added_new; eauto |]. intros a.
    erewrite added_cells by eauto. unfold Mem.inside, cell_at. rewrite Hbt, byte_at_fresh by lia.
    change (base_addr (fresh name base sz perm)) with base.
    change (permission (fresh name base sz perm)) with perm. now case_match.
Qed.

(** C33. create_map on a range that no region meets either refuses because the name
    is taken, changing nothing but the TLB, or adds one zero-filled region with the
    requested permissions exactly over the range; every other address keeps its byte
    and permissions. *)
Theorem create_map_correct name base sz perm m :
  wf m -> 0 <= base -> 0 < sz -> base + sz < 2 ^ 64 -> range_free m base sz ->
  exists r m', create_map name base sz perm m = Ret (r, m')
    /\ wf m'
    /\ match r with
       | inl e => e = NameExists name /\ is_Some (name_map m !! name) /\ maps_equiv m' m
       | inr k => name_map m !! name = None
           /\ slab_get (mem_slab m') k = Some (fresh name base sz perm)
           /\ (forall a, cell_of m' a = if (base <=? a) && (a <? base + sz)
                                        then Some (0, perm) else cell_of m a)
       end.
Proof. apply create_map_spec. Qed.

Lemma create_map_refused name base sz perm m :
  wf m -> is_Some (find_map base m) ->
  exists m', create_map name base sz perm m = Ret (inl (AddressExists base), m') /\ maps_equiv m' m /\ wf m'.
Proof.
  intros Hwf [p Hf]. destruct (get_mem_by_addr_mut_find m Hwf base) as (t & Htl & E).
  exists (set_tlb t m). split_and!; auto using set_tlb_wf; [|reflexivity].
  unfold create_map. rewrite E. cbn [mbind outcome_bind]. rewrite Hf. now rewrite decide_True by eauto.
Qed.

(** [create_map] at an address that a region owns is refused and changes nothing but
    the TLB. *)
Theorem create_map_refuses name base sz perm m :
  wf m -> is_Some (find_map base m) ->
  exists m', create_map name base sz perm m = Ret (inl (AddressExists base), m') /\ maps_equiv m' m /\ wf m'.
Proof. apply create_map_refused. Qed.

(** ** Trimming a region *)

(** [m'] is [m] with region [k] replaced by [mm'], a part of it. *)
Record shrunk m k mm mm' m' : Prop := {
  shrunk_slab : forall j, slab_get (mem_slab m') j = if decide (j = k) then Some mm' else slab_get (mem_slab m) j;
  shrunk_maps : maps m' = <[base_addr mm' := k]> (delete (base_addr mm) (maps m));
  shrunk_names : name_map m' = name_map m;
  shrunk_tlb : wf_tlb (tlb m')
}.

Section Shrink.
Context m k mm mm' m' (Hwf : wf m) (Hk : slab_get (mem_slab m) k = Some mm) (Hsh : shrunk m k mm mm' m').
Context (Hmm : wf_mem mm') (Hne : base_addr mm' < bottom_addr mm') (Hname : mem_name mm' = mem_name mm).
Context (Hlo : base_addr mm <= base_addr mm') (Hhi : bottom_addr mm' <= bottom_addr mm).

Lemma shrunk_region j mj :
  slab_get (mem_slab m') j = Some mj -> (j = k /\ mj = mm') \/ (j <> k /\ slab_get (mem_slab m) j = Some mj).
Proof. rewrite (shrunk_slab _ _ _ _ _ Hsh). case_decide; [intros [= <-] |]; auto. Qed.

Lemma shrunk_other j : j <> k -> slab_get (mem_slab m') j = slab_get (mem_slab m) j.
Proof. intros Hj. rewrite (shrunk_slab _ _ _ _ _ Hsh). now rewrite decide_False. Qed.

Lemma shrunk_new : slab_get (mem_slab m') k = Some mm'.
Proof. rewrite (shrunk_slab _ _ _ _ _ Hsh). now rewrite decide_True. Qed.

Lemma shrunk_apart j mj :
  j <> k -> slab_get (mem_slab m) j = Some mj ->
  bottom_addr mj <= base_addr mm' \/ bottom_addr mm' <= base_addr mj.
Proof. intros Hj E. destruct (wf_disjoint m Hwf _ _ _ _ E Hk Hj); lia. Qed.

Lemma shrunk_other_base j mj :
  j <> k -> slab_get (mem_slab m) j = Some mj -> maps m' !! base_addr mj = Some j.
Proof.
  intros Hj E. rewrite (shrunk_maps _ _ _ _ _ Hsh). destruct (wf_region m Hwf _ _ E).
  rewrite lookup_insert_ne by (destruct (shrunk_apart _ _ Hj E); lia).
  rewrite lookup_delete_ne; [now apply wf_based |]. intros Eb.
  pose proof (wf_based m Hwf _ _ E). pose proof (wf_based m Hwf _ _ Hk). congruence.
Qed.

Lemma shrunk_wf : wf m'.
Proof.
  split.
  - intros j mj [[-> ->] | [Hj E]]%shrunk_region; [auto | eapply wf_region; eauto].
  - intros j mj [[-> ->] | [Hj E]]%shrunk_region; [|now apply shrunk_other_base].
    rewrite (shrunk_maps _ _ _ _ _ Hsh). apply lookup_insert_eq.
  - intros b j. rewrite (shrunk_maps _ _ _ _ _ Hsh), lookup_insert_Some, lookup_delete_Some.
    intros [[<- <-] | (_ & Hnb & Hb)]; [eauto using shrunk_new |].
    destruct (wf_bases m Hwf _ _ Hb) as (mj & E & <-). exists mj.
    rewrite shrunk_other; [auto |]. intros ->. congruence.
  - intros j mj Hj. rewrite (shrunk_names _ _ _ _ _ Hsh).
    apply shrunk_region in Hj as [[-> ->] | [Hj E]]; [rewrite Hname |]; eapply wf_named; eauto.
  - intros s j. rewrite (shrunk_names _ _ _ _ _ Hsh). intros Hs.
    destruct (wf_names m Hwf _ _ Hs) as (mj & E & <-). destruct (decide (j = k)) as [-> | Hj].
    + exists mm'. split; [apply shrunk_new | congruence].
    + exists mj. now rewrite shrunk_other.
  - intros j1 m1 j2 m2 [[-> ->] | [Hj1 E1]]%shrunk_region [[-> ->] | [Hj2 E2]]%shrunk_region Hj12; try congruence.
    + destruct (shrunk_apart _ _ Hj2 E2); lia.
    + destruct (shrunk_apart _ _ Hj1 E1); lia.
    + eapply wf_disjoint; eauto.
  - apply (shrunk_tlb _ _ _ _ _ Hsh).
Qed.

Lemma shrunk_cells a :
  cell_of m' a = if Mem.inside a mm' then cell_at mm' a else if Mem.inside a mm then None else cell_of m a.
Proof.
  destruct (Mem.inside a mm') eqn:Hi'.
  { apply (cell_of_region m' k); auto using shrunk_wf, shrunk_new. }
  destruct (find_map a m) as [[j mj]|] eqn:Hf.
  - pose proof Hf as [Ej Hij]%find_map_spec; [|exact Hwf]. destruct (Mem.inside a mm) eqn:Hi.
    + pose proof (tlb_hit m Hwf a _ _ Hk Hi) as Hf'. rewrite Hf in Hf'. injection Hf' as -> ->.
      apply cell_of_none; [apply shrunk_wf |]. apply find_map_none; [apply shrunk_wf |].
      intros j' mj' [[-> ->] | [Hj' E']]%shrunk_region; [exact Hi' |].
      destruct (Mem.inside a mj') eqn:E2; [|reflexivity].
      pose proof (tlb_hit m Hwf a _ _ E' E2). congruence.
    + rewrite (cell_of_region m j mj) by auto. apply (cell_of_region m' j); auto using shrunk_wf.
      rewrite shrunk_other; [exact Ej |]. intros ->. congruence.
  - pose proof Hf as Hnone. rewrite find_map_none in Hnone by exact Hwf. rewrite (Hnone _ _ Hk).
    transitivity (@None (Z * Permission)); [|symmetry; now apply cell_of_none].
    apply cell_of_none; [apply shrunk_wf |]. apply find_map_none; [apply shrunk_wf |].
    intros j mj [[-> ->] | [_ E]]%shrunk_region; eauto.
Qed.

End Shrink.

(** Cutting the head of a region off ([drop_front] and re-keying). *)
Lemma unmap_head m k mm end_ :
  wf m -> slab_get (mem_slab m) k = Some mm -> base_addr mm < end_ < bottom_addr mm ->
  exists mm', Mem.drop_front (wsub end_ (base_addr mm)) mm = Ret mm'
    /\ wf_mem mm' /\ base_addr mm' = end_ /\ bottom_addr mm' = bottom_addr mm
    /\ mem_name mm' = mem_name mm
    /\ (forall a, end_ <= a -> cell_at mm' a = cell_at mm a).
Proof.
  intros Hwf Hk He. destruct (wf_region m Hwf _ _ Hk) as [Hmm Hne]. destruct Hmm as [Hb H0' Ht Hbs] eqn:Em.
  assert (wsub end_ (base_addr mm) = end_ - base_addr mm) as -> by (apply wsub_small; unfold is_word; lia).
  destruct (drop_front_spec mm Hmm (end_ - base_addr mm)) as (mm' & E & Hw & Eb & Et & Ep & En & Ebt);
    [unfold Mem.size; lia |].
  exists mm'. split_and!; auto; [lia |]. intros a Ha. unfold cell_at. rewrite Ep, Ebt by lia. reflexivity.
Qed.

(** Cutting the tail of a region off ([truncate]). *)
Lemma unmap_tail m k mm addr :
  wf m -> slab_get (mem_slab m) k = Some mm -> base_addr mm < addr <= bottom_addr mm ->
  let mm' := Mem.truncate (wsub addr (base_addr mm)) mm in
  shrunk m k mm mm' (put_mem k mm' m)
  /\ wf_mem mm' /\ bottom_addr mm' = addr
  /\ (forall a, a < addr -> cell_at mm' a = cell_at mm a).
Proof.
  intros Hwf Hk He mm'. destruct (wf_region m Hwf _ _ Hk) as [Hmm Hne].
  pose proof (wf_bottom mm Hmm). pose proof (wf_base mm Hmm). pose proof (wf_top mm Hmm).
  assert (wsub addr (base_addr mm) = addr - base_addr mm) as E by (apply wsub_small; unfold is_word; lia).
  unfold mm'. rewrite E.
  destruct (truncate_spec mm Hmm (addr - base_addr mm)) as (Hw & Et & Eb); [unfold Mem.size; lia |].
  split_and!; [| exact Hw | lia |].
  - split; cbn; [intros; apply slab_get_put; eauto | | reflexivity | apply wf_tlb_array, Hwf].
    rewrite insert_delete_eq, insert_id; [reflexivity |]. now apply wf_based.
  - intros a Ha. unfold cell_at. rewrite Eb by lia. reflexivity.
Qed.

(** ** [unmap_range] *)

(** The name [unmap_range] gives to the part above a hole. *)
Definition tail_name mm (end_ : Z) : string := mem_name mm +:+ "_" +:+ hex end_.

(** Region [mm] meets the range [addr, end_). *)
Definition meets mm (addr end_ : Z) : Prop := base_addr mm < end_ /\ addr < bottom_addr mm.

(** When the range is a hole in [mm], the name of the upper part is not taken. *)
Definition splittable m mm (addr end_ : Z) : Prop :=
  base_addr mm < addr -> end_ < bottom_addr mm -> name_map m !! tail_name mm end_ = None.

(** The effect of one iteration on the address space and on the other regions. *)
Definition unmapped m k mm (addr end_ : Z) m' : Prop :=
  wf m'
  /\ (forall a, cell_of m' a = if (addr <=? a) && (a <? end_) && Mem.inside a mm then None else cell_of m a)
  /\ (forall j mj, j <> k -> slab_get (mem_slab m) j = Some mj -> slab_get (mem_slab m') j = Some mj).

Lemma cell_of_put m k mm mm' a :
  wf m -> slab_get (mem_slab m) k = Some mm -> same_shape mm mm' ->
  cell_of (put_mem k mm' m) a = if Mem.inside a mm then cell_at mm' a else cell_of m a.
Proof.
  intros Hwf Hk Hsh. unfold cell_of. erewrite find_map_put by eauto.
  destruct (Mem.inside a mm) eqn:Hi.
  - rewrite (tlb_hit m Hwf a _ _ Hk Hi). now rewrite decide_True.
  - destruct (find_map a m) as [[j mj]|] eqn:Hf; [|reflexivity].
    apply find_map_spec in Hf as [Ej Hij]; [|exact Hwf]. rewrite decide_False; [reflexivity |].
    intros ->. congruence.
Qed.

Section UnmapOne.
Context m k mm (addr end_ : Z) (Hwf : wf m) (Hk : slab_get (mem_slab m) k = Some mm).
Context (Ha : 0 <= addr < end_) (Hmeet : meets mm addr end_).

Lemma unmap_whole m' :
  addr <= base_addr mm -> bottom_addr mm <= end_ -> removed m k mm m' -> unmapped m k mm addr end_ m'.
Proof.
  intros Hb Ht Hrm. split; [eauto using removed_wf |]. split.
  - intros a. rewrite (removed_cells m k mm m') by auto. unfold Mem.inside.
    destruct (Z.leb_spec (base_addr mm) a), (Z.ltb_spec a (bottom_addr mm)); rewrite ?andb_false_r; try reflexivity.
    split_ltb. reflexivity.
  - intros j mj Hj E. rewrite (removed_slab _ _ _ _ Hrm). now rewrite decide_False.
Qed.

Lemma unmap_shrunk mm' m' :
  shrunk m k mm mm' m' -> wf_mem mm' -> base_addr mm' < bottom_addr mm' -> mem_name mm' = mem_name mm ->
  (forall a, Mem.inside a mm' = Mem.inside a mm && negb ((addr <=? a) && (a <? end_))) ->
  base_addr mm <= base_addr mm' -> bottom_addr mm' <= bottom_addr mm ->
  (forall a, Mem.inside a mm' = true -> cell_at mm' a = cell_at mm a) ->
  unmapped m k mm addr end_ m'.
Proof.
  intros Hsh Hw Hne Hn Hin Hlo Hhi Hc. split; [eapply shrunk_wf; eauto |]. split.
  - intros a. erewrite shrunk_cells by eauto. specialize (Hc a). rewrite Hin in *.
    destruct (Mem.inside a mm) eqn:Hi; [|now rewrite andb_false_r].
    destruct ((addr <=? a) && (a <? end_)); cbn in *; [reflexivity |].
    rewrite Hc by auto. symmetry. eapply cell_of_region; eauto.
  - intros j mj Hj E. erewrite shrunk_other by eauto. exact E.
Qed.

(** The hole: the region is cut at [addr] and the bytes from [end_] on come
    back as a region of their own. *)
Lemma unmap_hole :
  base_addr mm < addr -> end_ < bottom_addr mm -> splittable m mm addr end_ ->
  let tail := bytes_at mm end_ (Z.to_nat (bottom_addr mm - end_)) in
  let m1 := put_mem k (Mem.truncate (wsub addr (base_addr mm)) mm) m in
  exists k2 m2 mm2 mm3,
    create_map (tail_name mm end_) end_ (len tail) (permission mm) m1 = Ret (inr k2, m2)
    /\ slab_get (mem_slab m2) k2 = Some mm2
    /\ Mem.force_write_bytes end_ tail mm2 = Ret mm3
    /\ unmapped m k mm addr end_ (put_mem k2 mm3 m2).
Proof.
  intros Hb Ht Hsp tail m1. destruct (wf_region m Hwf _ _ Hk) as [Hmm Hne].
  pose proof (wf_bottom mm Hmm). pose proof (wf_base mm Hmm). pose proof (wf_top mm Hmm).
  set (n := Z.to_nat (bottom_addr mm - end_)) in *.
  assert (Z.of_nat n = bottom_addr mm - end_) as Hn by (unfold n; lia).
  assert (covers mm end_ (Z.of_nat n)) as Hc by (unfold covers; lia).
  pose proof (length_bytes_at mm end_ n Hmm Hc) as Hl. fold tail in Hl.
  destruct (unmap_tail m k mm addr Hwf Hk ltac:(lia)) as (Hsh & Hw1 & Eb1 & Ec1).
  set (mm1 := Mem.truncate (wsub addr (base_addr mm)) mm) in *. fold m1 in Hsh.
  assert (base_addr mm1 = base_addr mm) as Hb1 by reflexivity.
  assert (mem_name mm1 = mem_name mm) as Hn1 by reflexivity. clearbody mm1.
  assert (wf m1) as Hwf1 by (eapply (shrunk_wf m k mm mm1); eauto; lia).
  assert (range_free m1 end_ (len tail)) as Hfree.
  { intros j mj Hj. apply (shrunk_region m k mm mm1 m1 Hsh) in Hj as [[-> ->] | [Hj E]].
    - left. rewrite Eb1. lia.
    - destruct (wf_disjoint m Hwf _ _ _ _ E Hk Hj); lia. }
  assert (find_map end_ m1 = None) as Hf by (eapply range_free_find; eauto; lia).
  destruct (create_map_adds (tail_name mm end_) end_ (len tail) (permission mm) m1 Hwf1 Hf (Hsp Hb Ht))
    as (k2 & m2 & Ec & Hk2 & Hadd).
  set (mm2 := fresh (tail_name mm end_) end_ (len tail) (permission mm)) in *.
  assert (wf_mem mm2) as Hw2 by (apply fresh_wf; lia).
  assert (bottom_addr mm2 = bottom_addr mm) as Eb2 by (unfold mm2; rewrite fresh_bottom; lia).
  assert (covers mm2 end_ (len tail)) as Hc2 by (unfold covers; change (base_addr mm2) with end_; lia).
  assert (base_addr mm2 < bottom_addr mm2) as Hne2 by (change (base_addr mm2) with end_; lia).
  assert (range_free m1 (base_addr mm2) (bottom_addr mm2 - base_addr mm2)) as Hfree2.
  { change (base_addr mm2) with end_. rewrite Eb2. replace (bottom_addr mm - end_) with (len tail) by lia. exact Hfree. }
  pose proof (added_wf m1 k2 mm2 m2 Hwf1 Hadd Hk2 Hw2 Hne2 (Hsp Hb Ht) Hfree2) as Hwf2.
  pose proof (added_new m1 k2 mm2 m2 Hadd) as Hk2'.
  assert (is_bytes tail) as Hbs by (apply Forall_take, Forall_drop, wf_bytes, Hmm).
  destruct (store_region m2 k2 mm2 end_ tail Hwf2 Hk2' Hc2 Hbs) as [Hwf3 _].
  exists k2, m2, mm2, (written mm2 end_ tail). split_and!; auto.
  { eapply force_write_bytes_covered; eauto. }
  split; [exact Hwf3 |]. split.
  - intros a. rewrite (cell_of_put m2 k2 mm2) by (auto using written_shape).
    rewrite (added_cells m1 k2 mm2 m2) by auto.
    rewrite (shrunk_cells m k mm mm1 m1) by (auto; lia).
    assert (Mem.inside a mm2 = (end_ <=? a) && (a <? bottom_addr mm)) as E2
      by (unfold Mem.inside; now rewrite Eb2).
    assert (Mem.inside a mm1 = (base_addr mm <=? a) && (a <? addr)) as E1
      by (unfold Mem.inside; now rewrite Eb1, Hb1).
    destruct (Mem.inside a mm2) eqn:Hi2; [|destruct (Mem.inside a mm1) eqn:Hi1].
    + symmetry in E2. apply andb_true_iff in E2.
      replace ((addr <=? a) && (a <? end_) && Mem.inside a mm) with false by (symmetry; split_ltb; now rewrite andb_false_r).
      rewrite (cell_of_region m k mm) by (auto; unfold Mem.inside; apply andb_true_iff; lia).
      unfold cell_at. change (permission (written mm2 end_ tail)) with (permission mm).
      erewrite byte_at_written by eauto. rewrite decide_True by lia.
      unfold tail. rewrite lookup_bytes_at by (auto; lia). do 2 f_equal. lia.
    + symmetry in E1. apply andb_true_iff in E1.
      replace ((addr <=? a) && (a <? end_) && Mem.inside a mm) with false by (symmetry; now split_ltb).
      rewrite (cell_of_region m k mm) by (auto; unfold Mem.inside; apply andb_true_iff; lia).
      apply Ec1. lia.
    + symmetry in E1, E2. apply andb_false_iff in E1, E2.
      destruct (Mem.inside a mm) eqn:Hi; [|now rewrite andb_false_r].
      unfold Mem.inside in Hi. apply andb_true_iff in Hi. now split_ltb.
  - intros j mj Hj E. erewrite slab_get_put_mem by eauto.
    assert (slab_get (mem_slab m1) j = Some mj) as Ej
      by (rewrite (shrunk_other m k mm mm1 m1) by auto; exact E).
    destruct (added_old m1 k2 mm2 m2 Hadd Hk2 j mj Ej) as [Hj2 Ej2]. now rewrite decide_False.
Qed.

Lemma unmap_one_spec :
  splittable m mm addr end_ ->
  exists m', unmap_one addr end_ (base_addr mm) m = Ret m' /\ unmapped m k mm addr end_ m'.
Proof.
  intros Hsp. destruct (wf_region m Hwf _ _ Hk) as [Hmm Hne]. unfold meets in Hmeet.
  pose proof (wf_bottom mm Hmm). pose proof (wf_base mm Hmm). pose proof (wf_top mm Hmm).
  unfold unmap_one. rewrite (wf_based m Hwf _ _ Hk). cbn [mbind outcome_bind].
  assert (slab_index k m = Ret mm) as -> by (unfold slab_index; now rewrite Hk). cbn [mbind outcome_bind].
  destruct (Z.leb_spec addr (base_addr mm)), (Z.leb_spec (bottom_addr mm) end_); cbn [andb].
  - destruct (dealloc_removes m k mm Hwf Hk) as (m' & E & Hrm). eauto using unmap_whole.
  - destruct (unmap_head m k mm end_ Hwf Hk) as (mm' & E & Hw & Eb & Et & En & Ec); [lia |].
    rewrite E. cbn [mbind outcome_bind]. eexists. split; [reflexivity |].
    eapply (unmap_shrunk mm'); auto; try lia.
    + split; cbn; [intros; apply slab_get_put; eauto | now rewrite Eb | reflexivity | apply wf_tlb_array, Hwf].
    + intros a. unfold Mem.inside. rewrite Eb, Et. split_ltb; reflexivity || lia.
    + intros a Hi. apply Ec. unfold Mem.inside in Hi. apply andb_true_iff in Hi. lia.
  - destruct (unmap_tail m k mm addr Hwf Hk) as (Hsh & Hw & Eb & Ec); [lia |].
    eexists. split; [reflexivity |]. eapply unmap_shrunk; eauto; try lia; try (change (base_addr (Mem.truncate ?x ?y)) with (base_addr y); lia).
    + intros a. unfold Mem.inside. rewrite Eb. cbn [base_addr Mem.truncate set_mem set_bottom_addr].
      split_ltb; reflexivity || lia.
    + intros a Hi. apply Ec. unfold Mem.inside in Hi. apply andb_true_iff in Hi. lia.
  - destruct (unmap_hole ltac:(lia) ltac:(lia) Hsp) as (k2 & m2 & mm2 & mm3 & Ec & Ek2 & Ew & Hu).
    rewrite split_off_spec by (auto; lia). cbn [mbind outcome_bind].
    exists (put_mem k2 mm3 m2). split; [|exact Hu].
    assert (Mem.truncate (wsub addr (base_addr mm)) (Mem.truncate (end_ - base_addr mm) mm)
            = Mem.truncate (wsub addr (base_addr mm)) mm) as Et.
    { rewrite wsub_small by (unfold is_word; lia). unfold Mem.truncate.
      cbn [mem base_addr bottom_addr permission mem_name set_mem set_bottom_addr].
      rewrite take_take, Nat.min_l by lia. reflexivity. }
    change (base_addr (Mem.truncate (end_ - base_addr mm) mm)) with (base_addr mm). rewrite Et.
    change (permission (Mem.truncate (wsub addr (base_addr mm)) mm)) with (permission mm).
    change (mem_name (Mem.truncate (wsub addr (base_addr mm)) mm)) with (mem_name mm).
    fold (tail_name mm end_). rewrite Ec. cbn [mbind outcome_bind].
    unfold slab_index. rewrite Ek2. cbn [mbind outcome_bind]. now rewrite Ew.
Qed.

End UnmapOne.

(** Two regions that meet a range cannot both leave a hole in it. *)
Lemma meets_not_hole m k1 mm1 k2 mm2 addr end_ :
  wf m -> slab_get (mem_slab m) k1 = Some mm1 -> slab_get (mem_slab m) k2 = Some mm2 -> k1 <> k2 ->
  meets mm1 addr end_ -> base_addr mm2 < addr -> end_ < bottom_addr mm2 -> False.
Proof.
  intros Hwf H1 H2 Hne [? ?] ? ?. destruct (wf_disjoint m Hwf _ _ _ _ H1 H2 Hne); lia.
Qed.

(** The regions named by a list of bases, all of which meet the range. *)
Definition targets m (addr end_ : Z) (l : list Z) : Prop :=
  NoDup l /\ forall b, b ∈ l -> exists k mm, slab_get (mem_slab m) k = Some mm
    /\ base_addr mm = b /\ meets mm addr end_ /\ splittable m mm addr end_.

Lemma unmap_all_spec addr end_ l m :
  wf m -> 0 <= addr < end_ -> end_ < 2 ^ 64 -> targets m addr end_ l ->
  exists m', unmap_all addr end_ l m = Ret m' /\ wf m'
    /\ (forall a, ~ addr <= a < end_ -> cell_of m' a = cell_of m a)
    /\ (forall a, cell_of m a = None -> cell_of m' a = None)
    /\ (forall a k mm, addr <= a < end_ -> slab_get (mem_slab m) k = Some mm ->
          base_addr mm ∈ l -> Mem.inside a mm = true -> cell_of m' a = None).
Proof.
  revert m. induction l as [|b l IH]; intros m Hwf Ha He [Hnd Ht].
  { exists m. split_and!; auto. intros a k mm _ _ Hin. now apply not_elem_of_nil in Hin. }
  apply NoDup_cons in Hnd as [Hb Hnd].
  destruct (Ht b) as (k & mm & Hk & <- & Hm & Hsp); [set_solver |].
  destruct (unmap_one_spec m k mm addr end_ Hwf Hk Ha Hm Hsp) as (m1 & E1 & Hwf1 & Hc1 & Ho1).
  assert (forall j mj, slab_get (mem_slab m) j = Some mj -> base_addr mj ∈ l -> j <> k) as Hdiff.
  { intros j mj Hj Hin ->. simplify_eq. contradiction. }
  destruct (IH m1 Hwf1 Ha He) as (m' & E2 & Hwf' & Hout & Hnone & Hin).
  { split; [exact Hnd |]. intros b' Hb'. destruct (Ht b') as (j & mj & Hj & <- & Hmj & _); [set_solver |].
    exists j, mj. split_and!; auto; [eapply Ho1; eauto |]. intros Hlo Hhi.
    exfalso. eapply (meets_not_hole m k mm j mj); eauto. intros ->. simplify_eq. contradiction. }
  exists m'. cbn. rewrite E1. split_and!; auto.
  - intros a Hna. rewrite Hout, Hc1 by auto.
    replace ((addr <=? a) && (a <? end_)) with false by (symmetry; apply andb_false_iff; lia). reflexivity.
  - intros a Hnone'. apply Hnone. rewrite Hc1, Hnone'. now destruct (_ && _).
  - intros a j mj Hr Hj Hbj Hij. apply elem_of_cons in Hbj as [Eb | Hbj].
    + apply Hnone. rewrite Hc1. split_ltb.
      pose proof (wf_based m Hwf _ _ Hj). pose proof (wf_based m Hwf _ _ Hk).
      assert (j = k) as -> by congruence. simplify_eq. now rewrite Hij.
    + eapply Hin; eauto.
Qed.

Lemma overlapping_bases_spec addr l m :
  (forall b k, (b, k) ∈ l -> exists mm, slab_get (mem_slab m) k = Some mm) ->
  exists r, overlapping_bases addr l m = Ret r
    /\ (forall b, b ∈ r <-> exists k mm, (b, k) ∈ l /\ slab_get (mem_slab m) k = Some mm /\ addr < bottom_addr mm)
    /\ (NoDup l.*1 -> NoDup r).
Proof.
  induction l as [|[b k] l IH]; intros Hl.
  { exists []. split_and!; [reflexivity | | constructor]. intros b. set_solver. }
  destruct IH as (r & Er & Hr & Hnd); [intros b0 k0 Hin; apply (Hl b0 k0); set_solver |].
  destruct (Hl b k) as [mm Hk]; [set_solver |].
  cbn. unfold slab_index. rewrite Hk, Er. cbn.
  eexists. split; [reflexivity |]. split.
  - intros b'. destruct (Z.ltb_spec addr (bottom_addr mm)) as [Hlt | Hge].
    + rewrite elem_of_cons, Hr. split.
      * intros [-> | (k' & mm' & ? & ? & ?)]; [exists k, mm | exists k', mm']; set_solver.
      * intros (k' & mm' & Hin & Hk' & ?). apply elem_of_cons in Hin as [[= -> ->] | Hin]; [auto |].
        right. eauto.
    + rewrite Hr. split.
      * intros (k' & mm' & ? & ? & ?). exists k', mm'. set_solver.
      * intros (k' & mm' & Hin & Hk' & ?). apply elem_of_cons in Hin as [[= -> ->] | Hin]; [|eauto].
        simplify_eq. lia.
  - cbn. intros [Hb Hn]%NoDup_cons. destruct (addr <? bottom_addr mm); [|auto]. constructor; [|auto].
    rewrite Hr. intros (k' & mm' & Hin & _). apply Hb. apply list_elem_of_fmap. exists (b, k'). auto.
Qed.

Lemma range_to_entries end_ m b k :
  (b, k) ∈ range_to end_ (maps m) <-> maps m !! b = Some k /\ b < end_.
Proof. unfold range_to. rewrite list_elem_of_filter, elem_of_entries. cbn. tauto. Qed.

Lemma range_to_nodup end_ m : NoDup (range_to end_ (maps m)).*1.
Proof.
  apply filter_keys_nodup, entries_nodup.
Qed.

Lemma unmap_range_spec addr n m :
  wf m -> 0 <= addr -> 0 < n -> addr + n < 2 ^ 64 ->
  (forall k mm, slab_get (mem_slab m) k = Some mm -> splittable m mm addr (addr + n)) ->
  exists m', unmap_range addr n m = Ret m' /\ wf m'
    /\ forall a, cell_of m' a = if (addr <=? a) && (a <? addr + n) then None else cell_of m a.
Proof.
  intros Hwf Ha Hn Ht Hsp. unfold unmap_range, checked_add. rewrite (proj2 (Z.ltb_lt _ _)) by lia.
  destruct (overlapping_bases_spec addr (range_to (addr + n) (maps m)) m) as (r & Er & Hr & Hnd).
  { intros b k [Hb _]%range_to_entries. destruct (wf_bases m Hwf _ _ Hb) as (mm & ? & _). eauto. }
  rewrite Er. cbn [mbind outcome_bind].
  destruct (unmap_all_spec addr (addr + n) r m Hwf ltac:(lia) Ht) as (m' & E & Hwf' & Hout & Hnone & Hin).
  { split; [apply Hnd, range_to_nodup |]. intros b Hb. apply Hr in Hb as (k & mm & Hb & Hk & Hlt).
    apply range_to_entries in Hb as [Hb Hlt']. destruct (wf_bases m Hwf _ _ Hb) as (mm' & ? & <-).
    simplify_eq. exists k, mm. unfold meets. split_and!; eauto. }
  rewrite E. cbn [mbind outcome_bind]. eexists. split; [reflexivity |].
  split; [apply set_tlb_wf, flush_wf, wf_tlb_array; exact Hwf' |].
  intros a. change (cell_of (set_tlb (flush (tlb m')) m') a) with (cell_of m' a).
  destruct ((addr <=? a) && (a <? addr + n)) eqn:Hra.
  - apply andb_true_iff in Hra. destruct (find_map a m) as [[k mm]|] eqn:Hf.
    + apply find_map_spec in Hf as [Hk Hi]; [|exact Hwf]. eapply (Hin a k mm); auto; [lia |].
      apply Hr. exists k, mm. pose proof Hi as Hi'. unfold Mem.inside in Hi'. apply andb_true_iff in Hi'.
      split_and!; auto; [|lia]. apply range_to_entries. split; [now apply wf_based | lia].
    + apply Hnone. now apply cell_of_none.
  - apply andb_false_iff in Hra. apply Hout. lia.
Qed.

(** C35. unmap_range removes exactly the addresses of the range, whether it covers
    regions, trims their front or back or cuts a hole in one; every other address
    keeps its byte and permissions and the invariant holds, provided the name of the
    upper part of a cut region is not taken. *)
Theorem unmap_range_correct addr n m :
  wf m -> 0 <= addr -> 0 < n -> addr + n < 2 ^ 64 ->
  (forall k mm, slab_get (mem_slab m) k = Some mm -> splittable m mm addr (addr + n)) ->
  exists m', unmap_range addr n m = Ret m' /\ wf m'
    /\ forall a, cell_of m' a = if (addr <=? a) && (a <? addr + n) then None else cell_of m a.
Proof. apply unmap_range_spec. Qed.

End Lifecycle.
