(* ===== verification/MapsAlloc.v ===== *)
(** * Range checks, allocation and the executable-write log

    [validate_write_range], [is_range_free], [mem_test], [unique_map_name], the
    gap search behind [alloc] and the log of writes to executable memory. *)

From stdpp Require Import gmap strings pretty sorting.
From S2P Require Import Prelude Scalar Mem64 BTree Slab Tlb Maps MapsInv MapsLife.

(** ** The log of writes to executable memory *)

(** A write is covered when the log holds it or the flush-everything mark. *)
Definition logged (log : list (Z * Z)) (w : Z * Z) : Prop := w ∈ log \/ CODE_WRITES_ALL ∈ log.

(** The mark, once present, is the whole log; the log is bounded. *)
Definition wf_log (log : list (Z * Z)) : Prop :=
  (length log <= CODE_WRITES_CAP)%nat /\ (CODE_WRITES_ALL ∈ log -> log = [CODE_WRITES_ALL]).

Lemma note_log_logged addr n log w : logged (note_log addr n log) (addr, n) /\ (logged log w -> logged (note_log addr n log) w).
Proof.
  unfold note_log, logged. case_decide as Hh.
  - assert (CODE_WRITES_ALL ∈ log) by (destruct log; simplify_eq/=; set_solver). auto.
  - case_match; set_solver.
Qed.

Lemma note_log_wf addr n log :
  wf_log log -> (addr, n) <> CODE_WRITES_ALL -> wf_log (note_log addr n log).
Proof.
  intros [Hl Ha] Hne. unfold note_log. case_decide as Hh; [split; auto |].
  destruct (Nat.leb_spec CODE_WRITES_CAP (length log)).
  - split; [unfold CODE_WRITES_CAP; cbn; lia | auto].
  - split; [rewrite length_app; cbn; lia |]. intros Hin.
    apply elem_of_app in Hin as [Hin | Hin]; [|set_solver].
    exfalso. apply Hh. now rewrite Ha.
Qed.

Section Checks.
Context {S : Type} `{SlabLaws S}.
Implicit Types (m : Maps S) (mm : Mem64) (k : nat).

(** The log from which decoded code is invalidated is complete: a successful write
    that touches executable memory is covered by the log after it, either by its own
    entry or by the mark that stands for everything; entries already covered stay
    covered; the log keeps its bound. *)
Theorem code_writes_complete sk addr v m m' w :
  wf m -> 0 <= addr -> wf_log (code_writes m) ->
  write_scalar (SIZE sk) addr v m = Ret (true, m') ->
  (touches_code (SIZE sk) addr m = true -> logged (code_writes m') (addr, Z.of_nat (SIZE sk)))
  /\ (logged (code_writes m) w -> logged (code_writes m') w)
  /\ wf_log (code_writes m').
Proof.
  intros Hwf Ha Hlog Hw.
  destruct (write_scalar_spec (SIZE sk) addr v m Hwf Ha) as (m1 & E & _ & Hs); [destruct sk; simpl; lia |].
  rewrite Hw in E. injection E as Er <-. rewrite <- Er in Hs. destruct Hs as [_ Hs]. unfold logs in Hs. rewrite Hs.
  pose proof (note_log_logged addr (Z.of_nat (SIZE sk)) (code_writes m) w) as [H1 H2].
  destruct (touches_code (SIZE sk) addr m); split_and!; auto; [|discriminate].
  apply note_log_wf; [exact Hlog |]. unfold CODE_WRITES_ALL. destruct sk; simpl; intros [=].
Qed.

(** ** [validate_write_range] *)

(** The regions that start above an address. *)
Definition above (c : Z) m : btree := filter (fun p => c < p.1) (maps m).

Lemma above_decreases m k mm c :
  slab_get (mem_slab m) k = Some mm -> wf m -> c < base_addr mm ->
  (base.size (above (base_addr mm) m) < base.size (above c m))%nat.
Proof.
  intros Hk Hwf Hc. apply map_subset_size. apply map_subset_alt. split.
  - unfold above. apply map_filter_subseteq_ext. intros b j _ Hb. cbn in *. lia.
  - exists (base_addr mm). split.
    + unfold above. apply map_lookup_filter_None_2. right. cbn. intros. lia.
    + exists k. unfold above. apply map_lookup_filter_Some_2; [now apply wf_based | exact Hc].
Qed.

Lemma validate_from_spec m end_ fuel c :
  wf m -> (base.size (above c m) + 2 <= fuel)%nat -> c < end_ ->
  exists b, validate_from fuel c end_ m = Some b
    /\ (b = true <-> forall a, c <= a < end_ -> writable a m = true).
Proof.
  intros Hwf. revert c. induction fuel as [|f IH]; intros c Hf Hc; [lia |].
  cbn [validate_from]. rewrite (proj2 (Z.ltb_lt _ _)) by lia. cbn [negb].
  assert (forall b : bool, b = false -> writable c m = false ->
          exists b', Some b = Some b' /\ (b' = true <-> forall a, c <= a < end_ -> writable a m = true)) as Hstop.
  { intros b -> Hw. exists false. split; [reflexivity |]. split; [discriminate |]. intros Hall.
    rewrite Hall in Hw by lia. discriminate. }
  unfold writable at 1 in Hstop. unfold find_map in Hstop.
  destruct (next_back (range_to_inclusive c (maps m))) as [[b k]|] eqn:En; [|now apply Hstop].
  destruct (slab_get (mem_slab m) k) as [mm|] eqn:Hk; [|now apply Hstop].
  apply last_le_spec in En as (Hb & Hbc & _). destruct (wf_bases m Hwf _ _ Hb) as (mm0 & ? & <-). simplify_eq.
  assert (Mem.inside c mm = negb ((c <? base_addr mm) || (bottom_addr mm <=? c))) as Hin
    by (unfold Mem.inside; split_ltb; reflexivity || lia).
  change (Perm.can_write (permission mm)) with (Mem.can_write mm).
  destruct (Mem.can_write mm) eqn:Hp; cbn [negb]; [|apply Hstop; [reflexivity | now destruct (Mem.inside c mm)]].
  destruct ((c <? base_addr mm) || (bottom_addr mm <=? c)) eqn:Ho; [apply Hstop; [reflexivity | now rewrite Hin] |].
  assert (c < bottom_addr mm) as Hlt by (apply orb_false_iff in Ho; lia).
  assert (forall a, c <= a < bottom_addr mm -> writable a m = true) as Hhere.
  { intros a Ha. unfold writable. rewrite (tlb_hit m Hwf a k mm Hk); [exact Hp |].
    apply inside_covers. unfold covers. lia. }
  destruct (Z.leb_spec (bottom_addr mm) end_) as [Hle | Hgt].
  - destruct (decide (bottom_addr mm = end_)) as [E | Hne].
    { exists true. rewrite E. split; [destruct f; cbn; now rewrite Z.ltb_irrefl |]. split; [|auto].
      intros _ a Ha. apply Hhere. lia. }
    assert (exists b, validate_from f (bottom_addr mm) end_ m = Some b
            /\ (b = true <-> forall a, bottom_addr mm <= a < end_ -> writable a m = true)) as (r & Er & Hr).
    { destruct (find_map (bottom_addr mm) m) as [[k2 mm2]|] eqn:Hf2.
      - apply IH; [|lia]. destruct (adjacent_find m Hwf k mm Hk) as [Ea Had]. rewrite Ea in Had.
        destruct (Had _ _ Hf2) as (Hk2 & Eb2 & _). rewrite <- Eb2.
        pose proof (above_decreases m k2 mm2 c Hk2 Hwf ltac:(lia)). lia.
      - destruct f as [|f']; [lia |]. cbn [validate_from]. rewrite (proj2 (Z.ltb_lt _ _)) by lia. cbn [negb].
        exists false. split.
        + destruct (next_back _) as [[b2 k2]|] eqn:En; [|reflexivity].
          destruct (slab_get (mem_slab m) k2) as [mm2|] eqn:Hk2; [|reflexivity].
          destruct (Perm.can_write (permission mm2)); cbn [negb]; [|reflexivity]. apply last_le_spec in En as (Hb2 & ? & _).
          destruct (wf_bases m Hwf _ _ Hb2) as (? & ? & <-). simplify_eq.
          rewrite find_map_none in Hf2 by exact Hwf. specialize (Hf2 _ _ Hk2). unfold Mem.inside in Hf2.
          apply andb_false_iff in Hf2. replace ((bottom_addr mm <? base_addr mm2) || (bottom_addr mm2 <=? bottom_addr mm))
            with true; [reflexivity |].
          symmetry. apply orb_true_iff. lia.
        + split; [discriminate |]. intros Hall. specialize (Hall (bottom_addr mm) ltac:(lia)).
          unfold writable in Hall. now rewrite Hf2 in Hall. }
    exists r. split; [exact Er |]. rewrite Hr. split; intros Hall a Ha.
    + destruct (decide (a < bottom_addr mm)); [apply Hhere; lia | apply Hall; lia].
    + apply Hall. lia.
  - exists true. split; [destruct f; cbn; now rewrite Z.ltb_irrefl |]. split; [|auto].
    intros _ a Ha. apply Hhere. lia.
Qed.

(** validate_write_range terminates, with one iteration per region of the range, and
    answers true exactly for the empty range and for the ranges above address 0 all
    of whose addresses are writable. *)
Theorem validate_write_range_correct addr n m :
  wf m -> 0 <= addr -> 0 <= n ->
  exists b, validate_write_range (base.size (maps m) + 2) addr n m = Some b
    /\ (b = true <->
        n = 0 \/ (addr <> 0 /\ addr + n < 2 ^ 64 /\ forall a, addr <= a < addr + n -> writable a m = true)).
Proof.
  intros Hwf Ha Hn. unfold validate_write_range.
  destruct (Z.eqb_spec n 0); [exists true; split; [reflexivity |]; split; auto |].
  destruct (Z.eqb_spec addr 0); [exists false; split; [reflexivity |]; split; [discriminate |]; lia |].
  unfold checked_add. destruct (Z.ltb_spec (addr + n) (2 ^ 64));
    [|exists false; split; [reflexivity |]; split; [discriminate |]; lia].
  destruct (validate_from_spec m (addr + n) (base.size (maps m) + 2) addr) as (b & Eb & Hb); [exact Hwf | | lia |].
  - assert (base.size (above addr m) <= base.size (maps m))%nat; [|lia].
    apply map_subseteq_size, map_filter_subseteq.
  - exists b. split; [exact Eb |]. rewrite Hb. split; [|intuition lia]. auto.
Qed.


(** ** [is_range_free] *)

Lemma range_elem a b m l : range a b (maps m) = Ret l -> forall p, p ∈ l <-> maps m !! p.1 = Some p.2 /\ a <= p.1 < b.
Proof.
  unfold range. destruct (a <=? b); [|discriminate]. intros [= <-] [k v].
  rewrite list_elem_of_filter, elem_of_entries. cbn. tauto.
Qed.

(** [is_range_free] decides that no region meets the range. *)
Theorem is_range_free_correct addr n m :
  wf m -> 0 <= addr -> 0 < n -> addr + n < 2 ^ 64 ->
  exists b m', is_range_free addr n m = Ret (b, m') /\ maps_equiv m' m /\ (b = true <-> range_free m addr n).
Proof.
  intros Hwf Ha Hn Ht. unfold is_range_free, is_mapped.
  destruct (get_mem_by_addr_find m Hwf addr) as (t & _ & ->). cbn [mbind outcome_bind].
  assert (saturating_add addr n = addr + n) as -> by (unfold saturating_add; lia).
  destruct (find_map addr m) as [[k mm]|] eqn:Hf.
  - exists false, (set_tlb t m). rewrite bool_decide_true by eauto.
    split_and!; [reflexivity | reflexivity |]. split; [discriminate |]. intros Hfree.
    rewrite (range_free_find m addr n) in Hf by auto. discriminate.
  - rewrite bool_decide_false by (intros [? ?]; discriminate). cbn [maps set_tlb].
    destruct (range addr (addr + n) (maps m)) as [l|] eqn:Er;
      [|unfold range in Er; rewrite (proj2 (Z.leb_le _ _)) in Er by lia; discriminate].
    cbn [mbind outcome_bind]. eexists _, (set_tlb t m). split; [reflexivity |]. split; [reflexivity |].
    rewrite negb_true_iff, bool_decide_eq_false. pose proof (range_elem _ _ _ _ Er) as Hl.
    rewrite find_map_none in Hf by exact Hwf. split.
    + intros Hnone k mm Hk. destruct (wf_region m Hwf _ _ Hk) as [_ Hne].
      specialize (Hf _ _ Hk). unfold Mem.inside in Hf. apply andb_false_iff in Hf.
      destruct (decide (addr + n <= base_addr mm)); [auto |].
      destruct (decide (bottom_addr mm <= addr)); [auto |]. exfalso. apply Hnone.
      assert ((base_addr mm, k) ∈ l) as Hin by (apply Hl; cbn; split; [now apply wf_based | lia]).
      unfold next. destruct l; [set_solver | eauto].
    + intros Hfree [[b k] Hh]. unfold next in Hh. destruct l as [|p l]; [discriminate |]. injection Hh as ->.
      destruct (proj1 (Hl (b, k)) ltac:(set_solver)) as [Hb Hr]. cbn in *.
      destruct (wf_bases m Hwf _ _ Hb) as (mm & Hk & <-). destruct (wf_region m Hwf _ _ Hk) as [_ Hne].
      destruct (Hfree _ _ Hk); lia.
Qed.

(** ** [mem_test] *)

Lemma iter_lookup m i p j q :
  slab_iter (mem_slab m) !! i = Some p -> slab_iter (mem_slab m) !! j = Some q -> p.1 = q.1 -> i = j.
Proof.
  intros Hi Hj E. eapply (NoDup_lookup _ i j p.1 (slab_iter_nodup (mem_slab m)));
    rewrite list_lookup_fmap; [rewrite Hi | rewrite Hj]; cbn; congruence.
Qed.

Lemma mem_test_spec m :
  mem_test m = true <->
  (forall k1 mm1 k2 mm2, slab_get (mem_slab m) k1 = Some mm1 -> slab_get (mem_slab m) k2 = Some mm2 ->
     k1 <> k2 -> bottom_addr mm2 <= base_addr mm1 \/ bottom_addr mm1 <= base_addr mm2)
  /\ (forall k mm, slab_get (mem_slab m) k = Some mm -> wadd (base_addr mm) (Mem.size mm) = bottom_addr mm).
Proof.
  unfold mem_test. rewrite andb_true_iff, !forallb_forall.
  set (l := slab_iter (mem_slab m)).
  assert (forall i k mm, l !! i = Some (k, mm) -> slab_get (mem_slab m) k = Some mm) as Hl1.
  { intros i k mm Hi. apply slab_iter_get. eapply list_elem_of_lookup_2; eauto. }
  assert (forall k mm, slab_get (mem_slab m) k = Some mm -> exists i, l !! i = Some (k, mm)) as Hl2.
  { intros k mm Hk. apply list_elem_of_lookup_1. now apply slab_iter_get. }
  set (f := fun mm : Mem64 => (base_addr mm, bottom_addr mm)).
  assert (forall p, In p (imap pair (f <$> l.*2)) <-> exists i k mm, l !! i = Some (k, mm) /\ p = (i, f mm)) as Hp.
  { intros [i v]. rewrite <- list_elem_of_In, elem_of_lookup_imap. split.
    - intros (j & y & [= -> ->] & Hy). rewrite !list_lookup_fmap in Hy.
      destruct (l !! j) as [[k mm]|] eqn:E; [|discriminate]. cbn in Hy. injection Hy as <-. eauto.
    - intros (j & k & mm & Hj & [= -> ->]). exists j, (f mm). split; [reflexivity |].
      rewrite !list_lookup_fmap, Hj. reflexivity. }
  split.
  - intros [Hd Hb]. split.
    + intros k1 m1 k2 m2 H1 H2 Hne. destruct (Hl2 _ _ H1) as [i Hi], (Hl2 _ _ H2) as [j Hj].
      specialize (Hd (i, f m1) (proj2 (Hp (i, f m1)) ltac:(eauto 10))). rewrite forallb_forall in Hd.
      specialize (Hd (j, f m2) (proj2 (Hp (j, f m2)) ltac:(eauto 10))). cbn in Hd.
      apply orb_true_iff in Hd as [Hd | Hd].
      * apply Nat.eqb_eq in Hd as ->. congruence.
      * apply negb_true_iff, andb_false_iff in Hd. lia.
    + intros k mm Hk. apply Z.eqb_eq, Hb. apply list_elem_of_In, list_elem_of_fmap.
      exists (k, mm). split; [reflexivity | now apply slab_iter_get].
  - intros [Hd Hb]. split.
    + intros p (i & k1 & m1 & Hi & ->)%Hp. rewrite forallb_forall.
      intros q (j & k2 & m2 & Hj & ->)%Hp. cbn. apply orb_true_iff.
      destruct (decide (i = j)) as [-> | Hij]; [left; apply Nat.eqb_refl |]. right.
      apply negb_true_iff, andb_false_iff.
      assert (k1 <> k2) as Hne by (intros ->; apply Hij; exact (iter_lookup m i _ j _ Hi Hj eq_refl)).
      destruct (Hd _ _ _ _ (Hl1 _ _ _ Hi) (Hl1 _ _ _ Hj) Hne); lia.
    + intros mm Hin. apply list_elem_of_In, list_elem_of_fmap in Hin as ([k mm'] & -> & Hin). cbn.
      apply Z.eqb_eq. eapply Hb. apply slab_iter_get. exact Hin.
Qed.

(** The self-check mem_test answers true exactly when distinct regions are disjoint
    and every region's bounds match its size. *)
Theorem mem_test_correct m :
  mem_test m = true <->
  (forall k1 mm1 k2 mm2, slab_get (mem_slab m) k1 = Some mm1 -> slab_get (mem_slab m) k2 = Some mm2 ->
     k1 <> k2 -> bottom_addr mm2 <= base_addr mm1 \/ bottom_addr mm1 <= base_addr mm2)
  /\ (forall k mm, slab_get (mem_slab m) k = Some mm -> wadd (base_addr mm) (Mem.size mm) = bottom_addr mm).
Proof. apply mem_test_spec. Qed.

(** ** Alignment *)

Lemma land_clear_low x n : is_word 64 x -> 0 <= n <= 64 -> Z.land x (bnot 64 (Z.ones n)) = x / 2 ^ n * 2 ^ n.
Proof.
  intros Hx Hn. rewrite <- Z.shiftr_div_pow2, <- Z.shiftl_mul_pow2 by lia.
  apply Z.bits_inj'. intros i Hi.
  rewrite Z.land_spec, testbit_bnot, Z.testbit_ones_nonneg, Z.shiftl_spec by lia.
  destruct (Z.ltb_spec i n); cbn [negb].
  - rewrite (Z.testbit_neg_r _ (i - n)) by lia. now rewrite !andb_false_r.
  - rewrite Z.shiftr_spec by lia. replace (i - n + n) with i by lia.
    destruct (Z.ltb_spec i 64); [apply andb_true_r | rewrite (word_high 64 x) by (auto; lia); btauto].
Qed.

Lemma align_up_spec addr :
  0 <= addr -> addr + 4095 < 2 ^ 64 ->
  let r := align_up addr DEFAULT_ALIGNMENT in addr <= r < addr + 4096 /\ r mod 4096 = 0.
Proof.
  intros Ha Ht r. unfold r, align_up, DEFAULT_ALIGNMENT. change (wsub 4096 1) with (Z.ones 12).
  rewrite wadd_small by (unfold is_word; change (Z.ones 12) with 4095; lia).
  rewrite land_clear_low by (unfold is_word; change (Z.ones 12) with 4095; lia).
  change (Z.ones 12) with 4095. change (2 ^ 12) with 4096. rewrite Z_mod_mult.
  Z.div_mod_to_equations. lia.
Qed.

(** ** The gap search *)

Lemma range_to_pred a b : range_to a b = range_to_inclusive (a - 1) b.
Proof. unfold range_to, range_to_inclusive. apply list_filter_iff. intros. lia. Qed.

(** What a successful search returns: [n] free bytes between the bounds. *)
Definition good_gap m (n bottom top r : Z) : Prop := bottom <= r /\ r + n < top /\ range_free m r n.

Section Gap.
Context m (Hwf : wf m) (n lo top : Z) (Hn : 0 <= n).

Lemma find_gap_spec l prev sz :
  StronglySorted key_le l -> NoDup l.*1 -> (forall b k, (b, k) ∈ l -> maps m !! b = Some k /\ b < top) ->
  is_word 64 (prev + sz) -> lo <= prev + sz -> (forall p, p ∈ l -> prev + sz <= p.1) ->
  (forall k mm, slab_get (mem_slab m) k = Some mm ->
     (base_addr mm, k) ∈ l \/ top <= base_addr mm \/ bottom_addr mm <= prev + sz) ->
  forall r, find_gap n prev sz l m = Some r -> good_gap m n lo top r.
Proof.
  revert prev sz. induction l as [|[b k] l IH]; intros prev sz Hs Hnd Hl Hw Hlo Hcur Hall r; [discriminate |].
  cbn [find_gap]. rewrite wadd_small by auto. specialize (Hcur (b, k) ltac:(set_solver)) as Hb. cbn in Hb.
  unfold checked_sub. rewrite (proj2 (Z.leb_le _ _)) by lia.
  destruct (Hl b k ltac:(set_solver)) as [Hmb Hbt].
  inversion_clear Hs as [|? ? Hs' Hf]. rewrite Forall_forall in Hf.
  apply NoDup_cons in Hnd as [Hnb Hnd].
  destruct (Z.ltb_spec n (b - (prev + sz))) as [Hgap | _].
  - intros [= <-]. split; [exact Hlo |]. split; [lia |]. intros j mj Hj.
    destruct (Hall _ _ Hj) as [Hin | [? | ?]]; [|lia | lia].
    apply elem_of_cons in Hin as [[= -> _] | Hin]; [lia |]. specialize (Hf _ Hin). unfold key_le in Hf. cbn in Hf. lia.
  - destruct (wf_bases m Hwf _ _ Hmb) as (mm & Hk & Eb). rewrite Hk.
    destruct (wf_region m Hwf _ _ Hk) as [Hmm Hne].
    assert (b + Mem.size mm = bottom_addr mm) as Ebt by (rewrite (wf_bottom mm Hmm), Eb; reflexivity).
    pose proof (wf_top mm Hmm). pose proof (wf_base mm Hmm).
    apply IH; rewrite ?Ebt; auto; unfold is_word; try lia.
    + intros b' k' Hin. apply Hl. set_solver.
    + intros [b' k'] Hin. cbn. destruct (Hl b' k' ltac:(set_solver)) as [Hmb' _].
      destruct (wf_bases m Hwf _ _ Hmb') as (mm' & Hk' & Eb'). destruct (wf_region m Hwf _ _ Hk') as [_ Hne'].
      specialize (Hf _ Hin). unfold key_le in Hf. cbn in Hf.
      assert (k' <> k) as Hkk.
      { intros ->. apply Hnb. apply list_elem_of_fmap. exists (b', k). split; [cbn; congruence | exact Hin]. }
      destruct (wf_disjoint m Hwf _ _ _ _ Hk' Hk Hkk); lia.
    + intros j mj Hj. destruct (Hall _ _ Hj) as [Hin | [? | ?]]; [| auto | right; right; lia].
      apply elem_of_cons in Hin as [[= Ej ->] | Hin]; [|auto]. simplify_eq. right; right; lia.
Qed.

End Gap.

Lemma alloc_search m size bottom top n lo :
  wf m -> (forall r, good_gap m n lo top r -> good_gap m size bottom top r) ->
  0 <= n -> 0 <= lo <= top -> top < 2 ^ 64 ->
  (forall k mm, slab_get (mem_slab m) k = Some mm -> base_addr mm < lo -> bottom_addr mm <= lo) ->
  exists o, (l ← range lo top (maps m); Ret (find_gap n lo 0 l m)) = Ret o
    /\ forall r, o = Some r -> good_gap m size bottom top r.
Proof.
  intros Hwf Hweaken Hn Hlo Ht Hstraddle. unfold range. rewrite (proj2 (Z.leb_le _ _)) by lia.
  cbn [mbind outcome_bind]. eexists. split; [reflexivity |]. intros r Hr. apply Hweaken.
  assert (forall b k, (b, k) ∈ filter (fun p => lo <= p.1 < top) (entries (maps m)) <->
                      lo <= b < top /\ maps m !! b = Some k) as Hin
    by (intros; rewrite list_elem_of_filter, elem_of_entries; reflexivity).
  eapply (find_gap_spec m Hwf n lo top Hn _ lo 0); [| | | | | | | exact Hr]; rewrite ?Z.add_0_r.
  - apply sorted_filter, entries_sorted.
  - apply filter_keys_nodup, entries_nodup.
  - intros b k [? ?]%Hin. split; [auto | lia].
  - unfold is_word. lia.
  - lia.
  - intros [b k] [? ?]%Hin. cbn. lia.
  - intros k mm Hk. pose proof (wf_based m Hwf _ _ Hk). rewrite Hin.
    destruct (decide (base_addr mm < lo)); [right; right; eauto |].
    destruct (decide (base_addr mm < top)); [left; split; auto; lia | right; left; lia].
Qed.

Lemma alloc_uncapped_spec size bottom top m :
  wf m -> 0 <= size -> size + 4095 < 2 ^ 64 -> 0 <= bottom -> bottom + 4096 <= top -> top < 2 ^ 64 ->
  (forall k mm, slab_get (mem_slab m) k = Some mm -> bottom_addr mm + 4095 < 2 ^ 64) ->
  (forall k mm, slab_get (mem_slab m) k = Some mm ->
     base_addr mm < align_up bottom DEFAULT_ALIGNMENT -> bottom_addr mm <= align_up bottom DEFAULT_ALIGNMENT) ->
  exists o, _alloc_uncapped size bottom top m = Ret o
    /\ forall r, o = Some r -> good_gap m size bottom top r.
Proof.
  intros Hwf Hs Hs' Hb Hbt Ht Hends Hstraddle. unfold _alloc_uncapped.
  destruct (align_up_spec bottom Hb ltac:(lia)) as [Hba _].
  destruct (align_up_spec size Hs Hs') as [Hsa _].
  set (lo := align_up bottom DEFAULT_ALIGNMENT) in *. set (n := align_up size DEFAULT_ALIGNMENT) in *.
  assert (forall r, good_gap m n lo top r -> good_gap m size bottom top r) as Hweaken.
  { intros r (H1 & H2 & H3). split; [lia |]. split; [lia |]. intros k mm Hk. destruct (H3 _ _ Hk); lia. }
  set (e := match next_back (range_to top (maps m)) with Some _ => _ | None => lo end).
  assert (forall k mm, slab_get (mem_slab m) k = Some mm -> base_addr mm < top -> bottom_addr mm <= e) as He.
  { intros k mm Hk Hlt. unfold e. pose proof (wf_based m Hwf _ _ Hk) as Hmb.
    destruct (next_back _) as [[b j]|] eqn:En.
    - rewrite range_to_pred in En. apply last_le_spec in En as (Hmj & _ & Hmax). specialize (Hmax _ _ Hmb ltac:(lia)).
      destruct (wf_bases m Hwf _ _ Hmj) as (mj & Hj & <-). rewrite Hj. cbn [from_option].
      destruct (wf_region m Hwf _ _ Hj) as [Hmmj Hnej]. destruct (wf_region m Hwf _ _ Hk) as [_ Hne].
      pose proof (wf_bottom mj Hmmj) as Ebj. fold (Mem.size mj) in Ebj. pose proof (wf_base mj Hmmj).
      pose proof (wf_top mj Hmmj). pose proof (Hends _ _ Hj).
      rewrite wadd_small by (unfold is_word; lia). rewrite <- Ebj.
      destruct (align_up_spec (bottom_addr mj) ltac:(lia) ltac:(lia)) as [Hu _].
      destruct (decide (k = j)) as [-> | Hkj]; [simplify_eq; lia |].
      destruct (wf_disjoint m Hwf _ _ _ _ Hk Hj Hkj); lia.
    - rewrite range_to_pred, last_le_none in En. specialize (En _ _ Hmb). lia. }
  unfold checked_sub. destruct (Z.leb_spec (Z.max lo e) top);
    [destruct (Z.ltb_spec n (top - Z.max lo e)) |].
  - eexists. split; [reflexivity |]. intros r [= <-]. apply Hweaken. split; [lia |]. split; [lia |].
    intros k mm Hk. destruct (decide (base_addr mm < top)) as [Hlt |]; [pose proof (He _ _ Hk Hlt) |]; lia.
  - apply (alloc_search m size bottom top n lo); auto; lia.
  - apply (alloc_search m size bottom top n lo); auto; lia.
Qed.

(** An address returned by the gap search lies in the window, with room for the
    request below its top, and no region meets the range; the search never panics. *)
Theorem alloc_uncapped_correct size bottom top m :
  wf m -> 0 <= size -> size + 4095 < 2 ^ 64 -> 0 <= bottom -> bottom + 4096 <= top -> top < 2 ^ 64 ->
  (forall k mm, slab_get (mem_slab m) k = Some mm -> bottom_addr mm + 4095 < 2 ^ 64) ->
  (forall k mm, slab_get (mem_slab m) k = Some mm ->
     base_addr mm < align_up bottom DEFAULT_ALIGNMENT -> bottom_addr mm <= align_up bottom DEFAULT_ALIGNMENT) ->
  exists o, _alloc_uncapped size bottom top m = Ret o
    /\ forall r, o = Some r -> good_gap m size bottom top r.
Proof. apply alloc_uncapped_spec. Qed.

(** ** [map] *)

(** The address space leaves room for an allocation of [sz] bytes: no region straddles the start
    of an allocation window or ends at the end of the address space. *)
Record roomy (sz : Z) m : Prop := {
  ro_size : 0 < sz <= max_alloc_size m;
  ro_align : sz + 4095 < 2 ^ 64;
  ro_ends : forall k mm, slab_get (mem_slab m) k = Some mm -> bottom_addr mm + 4095 < 2 ^ 64;
  ro_windows : forall k mm b, slab_get (mem_slab m) k = Some mm -> b = ALLOC32_MIN \/ b = ALLOC64_MIN ->
    base_addr mm < b -> bottom_addr mm <= b }.

Lemma alloc_spec sz m :
  wf m -> roomy sz m -> exists o, alloc sz m = Ret o /\
    forall r, o = Some r -> 0 < r /\ r + sz < 2 ^ 64 /\ range_free m r sz.
Proof.
  intros Hwf [Hsz Hov Hends Hstr]. unfold alloc, _alloc. rewrite Z.min_l by lia.
  assert (forall b t, b = ALLOC32_MIN \/ b = ALLOC64_MIN -> align_up b DEFAULT_ALIGNMENT = b -> 0 < b -> b + 4096 <= t -> t < 2 ^ 64 ->
    exists o, _alloc_uncapped sz b t m = Ret o /\ forall r, o = Some r -> 0 < r /\ r + sz < 2 ^ 64 /\ range_free m r sz) as Hw.
  { intros b t Hb Hal Hpos Hbt Ht. destruct (alloc_uncapped_spec sz b t m) as (o & E & Ho); try lia; auto.
    - rewrite Hal. intros k mm Hk. now apply (Hstr k mm b Hk).
    - exists o. split; [exact E|]. intros r Hr. destruct (Ho r Hr) as (Hlo & Hhi & Hfree). split_and!; [lia | lia | exact Hfree]. }
  destruct (is_64bits m); apply Hw; first [now auto | reflexivity | easy].
Qed.

Lemma map_spec name sz perm m :
  wf m -> roomy sz m ->
  exists r m', map name sz perm m = Ret (r, m') /\ wf m'
    /\ (if r =? 0 then maps_equiv m' m
        else range_free m r sz
             /\ forall a, cell_of m' a = if (r <=? a) && (a <? r + sz) then Some (0, perm) else cell_of m a).
Proof.
  intros Hwf Hroom. pose proof (ro_size _ _ Hroom). unfold map. destruct (alloc_spec sz m Hwf Hroom) as (o & -> & Ho).
  cbn [mbind outcome_bind]. destruct o as [r|]; [|exists 0, m; split_and!; [reflexivity | exact Hwf | reflexivity]].
  destruct (Ho r eq_refl) as (Hb & Ht & Hfree).
  destruct (create_map_spec name r sz perm m Hwf ltac:(lia) ltac:(lia) ltac:(lia) Hfree) as (e & m' & -> & Hwf' & Hm).
  cbn [mbind outcome_bind]. destruct e as [e|k].
  - exists 0, m'. split_and!; [reflexivity | exact Hwf' | apply Hm].
  - exists r, m'. split_and!; auto. rewrite (proj2 (Z.eqb_neq _ _)) by lia. split; [exact Hfree | apply Hm].
Qed.

(** map with a size within the cap either returns 0 and changes nothing but the TLB,
    or returns the base of a free range over which exactly one zero-filled region
    with the requested permissions is added. *)
Theorem map_correct name sz perm m :
  wf m -> 0 < sz <= max_alloc_size m -> sz + 4095 < 2 ^ 64 ->
  (forall k mm, slab_get (mem_slab m) k = Some mm -> bottom_addr mm + 4095 < 2 ^ 64) ->
  (forall k mm b, slab_get (mem_slab m) k = Some mm -> b = ALLOC32_MIN \/ b = ALLOC64_MIN ->
     base_addr mm < b -> bottom_addr mm <= b) ->
  exists r m', map name sz perm m = Ret (r, m') /\ wf m'
    /\ (if r =? 0 then maps_equiv m' m
        else range_free m r sz
             /\ forall a, cell_of m' a = if (r <=? a) && (a <? r + sz) then Some (0, perm) else cell_of m a).
Proof. intros. now apply map_spec. Qed.

(** ** [unique_map_name] *)

Definition numbered (prefix : string) (n : N) : string := prefix +:+ "_" +:+ pretty n.

Lemma numbered_inj prefix : Inj (=) (=) (numbered prefix).
Proof. intros a b E. unfold numbered in E. apply (inj (String.append prefix)), (inj (String.append "_")) in E. now apply (inj pretty) in E. Qed.

Lemma unique_from_none fuel n prefix m :
  unique_from fuel n prefix m = None ->
  forall i, (i < fuel)%nat -> numbered prefix (n + N.of_nat i) ∈ dom (name_map m).
Proof.
  revert n. induction fuel as [|f IH]; intros n Hn i Hi; [lia |]. cbn [unique_from] in Hn.
  unfold exists_mapname in Hn. case_bool_decide as Hd; [|discriminate].
  destruct i as [|i].
  - rewrite N.add_0_r. now apply elem_of_dom.
  - replace (n + N.of_nat (Datatypes.S i))%N with (n + 1 + N.of_nat i)%N by lia. apply IH; [exact Hn | lia].
Qed.

Lemma unique_from_some fuel n prefix m s : unique_from fuel n prefix m = Some s -> name_map m !! s = None.
Proof.
  revert n. induction fuel as [|f IH]; intros n Hn; [discriminate |]. cbn [unique_from] in Hn.
  unfold exists_mapname in Hn. case_bool_decide as Hd; [eauto |]. injection Hn as <-.
  now apply eq_None_not_Some.
Qed.

(** With one attempt more than there are names, [unique_map_name] finds a name that
    is not taken. *)
Theorem unique_map_name_total prefix m :
  exists s, unique_map_name (base.size (name_map m) + 1) prefix m = Some s /\ name_map m !! s = None.
Proof.
  unfold unique_map_name, exists_mapname. case_bool_decide as Hd; cbn [negb];
    [|exists prefix; split; [reflexivity | now apply eq_None_not_Some]].
  destruct (unique_from (base.size (name_map m) + 1) 1 prefix m) as [s|] eqn:E;
    [eauto using unique_from_some |]. exfalso.
  pose proof (unique_from_none _ _ _ _ E) as Hall. set (k := (base.size (name_map m) + 1)%nat) in *.
  set (names := (fun i => numbered prefix (1 + N.of_nat i)) <$> seq 0 k).
  assert (NoDup names) as Hnd.
  { apply NoDup_fmap; [|apply NoDup_seq]. intros i j Hij. apply (numbered_inj prefix) in Hij. lia. }
  assert ((list_to_set names : gset string) ⊆ dom (name_map m)) as Hsub.
  { intros s Hs. apply elem_of_list_to_set, list_elem_of_fmap in Hs as (i & -> & Hi). apply elem_of_seq in Hi.
    apply Hall. lia. }
  apply subseteq_size in Hsub. rewrite size_list_to_set, size_dom in Hsub by exact Hnd.
  unfold names in Hsub. rewrite length_fmap, length_seq in Hsub. unfold k in Hsub. lia.
Qed.

End Checks.
