(* ===== verification/MapsFindings.v ===== *)
(** * What the map manager does outside its invariant

    Concrete runs of the operations of Maps.v, on the slab instance of Slab.v:
    [create_map] checks only the first address of the new map, so it can leave
    the invariant, and then the TLB becomes observable; the size cap of [alloc]
    is not applied to the map that is created; the gap search can return an
    unaligned address; [memcpy] reports success for a write that failed. *)

From stdpp Require Import gmap strings.
From S2P Require Import Prelude Scalar Mem64 BTree Slab Tlb Maps MapsInv MapsLife.

Notation M := (Maps (gmap nat Mem64)).
Notation empty_maps := (@maps_default (gmap nat Mem64) gmap_slab).

(** Run [create_map] for its state, recording whether it succeeded. *)
Definition mk (name : string) (base sz : Z) (p : Permission) (m : M) : outcome (bool * M) :=
  '(r, m) ← create_map name base sz p m;
  Ret (match r with inr _ => true | inl _ => false end, m).

(** A map created below an existing one, over it. *)
Definition overlap_run : outcome (bool * bool * bool) :=
  '(ok1, m) ← mk "hi" 0x2000 0x1000 Perm.READ_WRITE empty_maps;
  '(ok2, m) ← mk "lo" 0x1000 0x2000 Perm.READ_WRITE m;
  Ret (ok1, ok2, mem_test m).

(** [create_map] accepts a map whose base is free but whose end runs into another
    map; [mem_test] then fails. *)
Theorem create_map_can_overlap : overlap_run = Ret (true, true, false).
Proof. vm_compute. reflexivity. Qed.

(** Two overlapping maps that disagree about 0x2800: the value read there
    changes when an unrelated address of the same TLB slot (0x802800) is read
    in between. *)
Definition tlb_visible_run : outcome (option Z * option Z * option Z) :=
  '(_, m) ← mk "hi" 0x2000 0x1000 Perm.READ_WRITE empty_maps;
  '(_, m) ← write_byte 0x2800 0xBB m;
  '(_, m) ← mk "far" 0x802000 0x1000 Perm.READ_WRITE m;
  '(_, m) ← read_byte 0x802800 m;
  m ← free "far" m;
  '(_, m) ← mk "lo" 0x1000 0x2000 Perm.READ_WRITE m;
  '(_, m) ← mk "far" 0x802000 0x1000 Perm.READ_WRITE m;
  '(v1, m) ← read_byte 0x2800 m;
  '(v2, m) ← read_byte 0x802800 m;
  '(v3, m) ← read_byte 0x2800 m;
  Ret (v1, v2, v3).

(** With overlapping maps the TLB is observable: the same address reads 0, and 0xBB
    after an unrelated read evicted its entry. *)
Theorem overlap_makes_tlb_visible : tlb_visible_run = Ret (Some 0, Some 0, Some 0xBB).
Proof. vm_compute. reflexivity. Qed.

(** A 32-bit emulator with an allocation cap of one page, a map that ends two
    pages below the allocation limit and a library above it: a request of four
    pages is placed over the library. *)
Definition over_cap_run : outcome (bool * bool * Z * bool) :=
  let m := mkMaps false (slab_empty : gmap nat Mem64) ∅ ∅ false tlb_new 0x1000 [] in
  '(ok1, m) ← mk "last" 0x6FFFD000 0x1000 Perm.READ_WRITE m;
  '(ok2, m) ← mk "lib" 0x70000000 0x1000 Perm.READ_EXECUTE m;
  '(addr, m) ← map "big" 0x4000 Perm.READ_WRITE m;
  Ret (ok1, ok2, addr, mem_test m).

(** The allocation cap limits the gap that is searched for, not the map that is
    created: the map returned overlaps a library. *)
Theorem map_ignores_cap : over_cap_run = Ret (true, true, 0x6FFFE000, false).
Proof. vm_compute. reflexivity. Qed.

(** The gap after a 16-byte map, when the space below the limit is taken. *)
Definition unaligned_run : outcome (option Z) :=
  '(_, m) ← mk "small" 0x1000 0x10 Perm.READ_WRITE empty_maps;
  '(_, m) ← mk "top" 0x8000 0x1000 Perm.READ_WRITE m;
  _alloc_uncapped 0x1000 0x1000 0x9000 m.

(** The gap search can return an address that is not page-aligned. *)
Theorem alloc_can_be_unaligned : unaligned_run = Ret (Some 0x1010).
Proof. vm_compute. reflexivity. Qed.

(** Copying to an unmapped destination. *)
Definition memcpy_run : outcome (bool * option Z) :=
  '(_, m) ← mk "src" 0x1000 0x10 Perm.READ_WRITE empty_maps;
  '(_, m) ← write_byte 0x1000 7 m;
  '(ok, m) ← memcpy 0x5000 0x1000 4 m;
  '(v, m) ← read_byte 0x5000 m;
  Ret (ok, v).

(** [memcpy] returns true although its write was refused and nothing was copied. *)
Theorem memcpy_reports_success : memcpy_run = Ret (true, None).
Proof. vm_compute. reflexivity. Qed.

(** A map of size 0 does not claim its address; a second map takes the address
    over, and freeing the first removes the second from the index. *)
Definition empty_map_run : outcome (bool * bool * option Z * list Z) :=
  '(ok1, m) ← mk "empty" 0x1000 0 Perm.READ_WRITE empty_maps;
  '(ok2, m) ← mk "data" 0x1000 0x10 Perm.READ_WRITE m;
  m ← free "empty" m;
  '(v, m) ← read_byte 0x1000 m;
  Ret (ok1, ok2, v, (entries (maps m)).*1).

(** A map of size 0 makes a later map at the same base possible, and freeing it
    removes the index entry of the other. *)
Theorem empty_map_shadows : empty_map_run = Ret (true, true, None, []).
Proof. vm_compute. reflexivity. Qed.
