(* ===== verification/MapsRun.v ===== *)
(** * Histories of the map manager

    The operations of Maps.v as the labels of a transition system, the
    conditions under which the rest of the emulator may issue them, and the
    invariant of every state that can be reached: regions stay disjoint, the
    indexes agree with the slab, [mem_test] passes and no admissible operation
    panics.  A sample state shows that the conditions can be met. *)

From stdpp Require Import gmap strings relations.
From S2P Require Import Prelude Scalar Mem64 BTree Slab Tlb Maps MapsInv MapsLife MapsAlloc.

(** ** Operations and their conditions *)

Inductive op :=
  | OpRead (k : ScalarKind) (addr : Z)
  | OpWrite (k : ScalarKind) (addr v : Z)
  | OpWriteBytes (addr : Z) (data : bytes)
  | OpCreate (name : string) (base sz : Z) (perm : Permission)
  | OpMap (name : string) (sz : Z) (perm : Permission)
  | OpFree (name : string)
  | OpDealloc (addr : Z)
  | OpUnmap (addr n : Z)
  | OpClear.

Section History.
Context {S : Type} `{SlabLaws S}.
Implicit Types (m : Maps S).

(** The state after an operation; results are dropped. *)
Definition exec (o : op) m : outcome (Maps S) :=
  match o with
  | OpRead k addr => '(_, m) ← read_scalar (SIZE k) addr m; Ret m
  | OpWrite k addr v => '(_, m) ← write_scalar (SIZE k) addr v m; Ret m
  | OpWriteBytes addr data => '(_, m) ← write_bytes addr data m; Ret m
  | OpCreate name base sz perm => '(_, m) ← create_map name base sz perm m; Ret m
  | OpMap name sz perm => '(_, m) ← map name sz perm m; Ret m
  | OpFree name => free name m
  | OpDealloc addr => dealloc addr m
  | OpUnmap addr n => unmap_range addr n m
  | OpClear => Ret (clear m)
  end.

(** No region reaches the last page of the address space. *)
Definition below_top m : Prop :=
  forall k mm, slab_get (mem_slab m) k = Some mm -> bottom_addr mm + 4095 < 2 ^ 64.

(** No region straddles the start of an allocation window. *)
Definition window_clear m : Prop :=
  forall k mm b, slab_get (mem_slab m) k = Some mm -> b = ALLOC32_MIN \/ b = ALLOC64_MIN ->
    base_addr mm < b -> bottom_addr mm <= b.

(** A request to create a region finds its range free, or its base occupied. *)
Definition admissible (o : op) m : Prop :=
  match o with
  | OpRead _ addr | OpWrite _ addr _ => 0 <= addr
  | OpWriteBytes addr data => 0 <= addr /\ addr + len data <= 2 ^ 64 /\ is_bytes data
  | OpCreate _ base sz _ =>
      (0 <= base /\ 0 < sz /\ base + sz < 2 ^ 64 /\ range_free m base sz) \/ is_Some (find_map base m)
  | OpMap _ sz _ => 0 < sz <= max_alloc_size m /\ sz + 4095 < 2 ^ 64 /\ below_top m /\ window_clear m
  | OpUnmap addr n =>
      0 <= addr /\ 0 < n /\ addr + n < 2 ^ 64
      /\ (forall k mm, slab_get (mem_slab m) k = Some mm -> splittable m mm addr (addr + n))
  | OpFree _ | OpDealloc _ | OpClear => True
  end.

Inductive step m : Maps S -> Prop :=
  | step_op o m' : admissible o m -> exec o m = Ret m' -> step m m'.

(** ** The invariant *)

Lemma empty_wf m :
  mem_slab m = slab_empty -> maps m = ∅ -> name_map m = ∅ -> wf_tlb (tlb m) -> wf m.
Proof.
  intros Es Em En Ht. split; rewrite ?Es, ?Em, ?En; auto; intros;
    match goal with
    | Hk : slab_get slab_empty _ = Some _ |- _ => rewrite slab_get_empty in Hk
    | Hk : _ !! _ = Some _ |- _ => rewrite lookup_empty in Hk
    end; discriminate.
Qed.

Lemma clear_wf m : wf m -> wf (clear m).
Proof. intros Hwf. apply empty_wf; [reflexivity.. |]. apply (wf_tlb_array m Hwf). Qed.

Lemma default_wf : wf (maps_default : Maps S).
Proof. apply empty_wf; [reflexivity.. |]. apply tlb_new_wf. Qed.

Lemma exec_wf o m : wf m -> admissible o m -> exists m', exec o m = Ret m' /\ wf m'.
Proof.
  intros Hwf Ha. destruct o as [k addr | k addr v | addr data | name base sz perm | name sz perm | name | addr | addr n |];
    cbn in *.
  - destruct (read_scalar_spec (SIZE k) addr m) as (t & Ht & ->); auto; [destruct k; cbn; lia |].
    eexists. split; [reflexivity | now apply set_tlb_wf].
  - destruct (write_scalar_spec (SIZE k) addr v m) as (m' & -> & Hw & _); auto; [destruct k; cbn; lia |]. eauto.
  - destruct Ha as (? & ? & ?). destruct (write_bytes_spec addr data m) as (m' & -> & Hw & _); auto. eauto.
  - destruct Ha as [(? & ? & ? & ?) | Hs].
    + destruct (create_map_spec name base sz perm m) as (r & m' & -> & Hw & _); auto. eauto.
    + destruct (create_map_refused name base sz perm m) as (m' & -> & _ & Hw); auto. eauto.
  - destruct Ha as (? & ? & ? & ?). destruct (map_spec name sz perm m) as (r & m' & -> & Hw & _); [assumption | now split | eauto].
  - destruct (free_spec m name) as (m' & -> & Hw & _); auto. eauto.
  - destruct (dealloc_spec m addr) as (m' & -> & Hw & _); auto. eauto.
  - destruct Ha as (? & ? & ? & ?). destruct (unmap_range_spec addr n m) as (m' & -> & Hw & _); auto. eauto.
  - eexists. split; [reflexivity | now apply clear_wf].
Qed.

Lemma step_wf m m' : wf m -> step m m' -> wf m'.
Proof. intros Hwf [o m2 Ha E]. destruct (exec_wf o m Hwf Ha) as (? & E' & ?). congruence. Qed.

Lemma reach_wf m m' : wf m -> rtc step m m' -> wf m'.
Proof. intros Hwf Hr. revert Hwf. induction Hr; eauto using step_wf. Qed.

Lemma wf_mem_test m : wf m -> mem_test m = true.
Proof.
  intros Hwf. apply mem_test_spec. split.
  - intros k1 m1 k2 m2 H1 H2 Hne. destruct (wf_disjoint m Hwf _ _ _ _ H1 H2 Hne); auto.
  - intros k mm Hk. destruct (wf_region m Hwf _ _ Hk) as [Hmm _]. unfold wadd, Mem.size.
    destruct Hmm. rewrite wrap_small; [lia | unfold is_word; lia].
Qed.

(** C4. In every state reached from the empty address space by any sequence of
    admissible operations (reads, writes, bulk writes, creation, allocation, free,
    dealloc, range unmapping, clear) regions are disjoint and indexed consistently,
    the self-check mem_test passes, and every admissible operation returns instead
    of panicking. *)
Theorem history_safe m :
  rtc step maps_default m ->
  wf m /\ mem_test m = true /\ (forall o, admissible o m -> exists m', exec o m = Ret m' /\ step m m').
Proof.
  intros Hr. pose proof (reach_wf _ _ default_wf Hr) as Hwf. split_and!; auto using wf_mem_test.
  intros o Ha. destruct (exec_wf o m Hwf Ha) as (m' & E & _). eauto using step_op.
Qed.

End History.

(** ** A sample history

    Two adjacent regions, the second of them executable, and a read-only one. *)

Notation sample_maps := (Maps (gmap nat Mem64)).

Fixpoint exec_all (ops : list op) (m : sample_maps) : outcome sample_maps :=
  match ops with
  | [] => Ret m
  | o :: ops => m ← exec o m; exec_all ops m
  end.

Definition sample_run : list op :=
  [OpCreate "data" 0x1000 0x20 Perm.READ_WRITE;
   OpCreate "text" 0x1020 0x10 Perm.READ_WRITE_EXECUTE;
   OpCreate "ro" 0x2000 0x10 Perm.READ].

Definition sample_after (ops : list op) : sample_maps :=
  match exec_all ops maps_default with Ret m => m | Panic => maps_default end.

Definition sample : sample_maps := sample_after sample_run.

(** A property of every region of a concrete state is decided by evaluation. *)
Lemma regions_forall (P : nat -> Mem64 -> Prop) `{forall k mm, Decision (P k mm)} (m : sample_maps) :
  bool_decide (map_Forall P (mem_slab m)) = true ->
  forall k mm, slab_get (mem_slab m) k = Some mm -> P k mm.
Proof. intros Hb%bool_decide_eq_true k mm Hk. exact (Hb k mm Hk). Qed.

Ltac each_region :=
  match goal with
  | |- forall k mm, _ -> @?P k mm => apply (@regions_forall P ltac:(intros; cbn beta; apply _)); vm_compute; reflexivity
  end.

Lemma sample_reachable : rtc step maps_default sample.
Proof.
  apply rtc_l with (sample_after (take 1 sample_run)).
  { apply (step_op _ (OpCreate "data" 0x1000 0x20 Perm.READ_WRITE)); [|vm_compute; reflexivity].
    left. split_and!; try lia. red. each_region. }
  apply rtc_l with (sample_after (take 2 sample_run)).
  { apply (step_op _ (OpCreate "text" 0x1020 0x10 Perm.READ_WRITE_EXECUTE)); [|vm_compute; reflexivity].
    left. split_and!; try lia. red. each_region. }
  apply rtc_once. apply (step_op _ (OpCreate "ro" 0x2000 0x10 Perm.READ)); [|vm_compute; reflexivity].
  left. split_and!; try lia. red. each_region.
Qed.

Lemma sample_wf : wf sample.
Proof. exact (reach_wf _ _ default_wf sample_reachable). Qed.

(** ** The theorems at the sample state *)

Lemma history_safe_witness : wf sample /\ mem_test sample = true.
Proof. destruct (history_safe sample sample_reachable) as (Hwf & Ht & _). split; [exact Hwf | exact Ht]. Defined.

Lemma tlb_transparent_witness :
  exists t1 t2,
    get_mem_by_addr 0x1004 (set_tlb tlb_new sample) = Ret (find_map 0x1004 sample, set_tlb t1 sample)
    /\ get_mem_by_addr_mut 0x1004 (set_tlb tlb_new sample) = Ret (find_map 0x1004 sample, set_tlb t2 sample)
    /\ wf (set_tlb t1 sample) /\ wf (set_tlb t2 sample).
Proof. exact (tlb_transparent sample 0x1004 tlb_new sample_wf tlb_new_wf). Defined.

(** A doubleword that starts in one region and ends in the next. *)
Lemma maps_read_correct_witness : exists m', read_scalar 4 0x101e sample = Ret (Some 0, m') /\ wf m'.
Proof.
  destruct (maps_read_correct Dword 0x101e sample sample_wf ltac:(lia)) as (m' & E & _ & Hwf & _).
  exists m'. split; [|exact Hwf]. cbn [SIZE] in E. rewrite E. vm_compute. reflexivity.
Defined.

Lemma maps_write_correct_witness :
  exists m', write_scalar 4 0x101e 0xdeadbeef sample = Ret (true, m') /\ wf m'
    /\ stores sample m' 0x101e [0xef; 0xbe; 0xad; 0xde] /\ code_writes m' = [(0x1020, 16); (0x101e, 4)].
Proof.
  destruct (maps_write_correct Dword 0x101e 0xdeadbeef sample sample_wf ltac:(lia)) as (m' & E & Hwf & Hs).
  exists m'. cbn [SIZE] in *.
  assert (reachable Mem.can_write 4 0x101e sample = true) as Hr by (vm_compute; reflexivity).
  rewrite Hr in E, Hs. destruct Hs as [Hs Hl]. split_and!; [exact E | exact Hwf | exact Hs |].
  rewrite Hl. vm_compute. reflexivity.
Defined.

Lemma maps_write_read_witness :
  exists m1 m2, write_scalar 8 0x1004 0x1122334455667788 sample = Ret (true, m1)
    /\ read_scalar 8 0x1004 m1 = Ret (Some 0x1122334455667788, m2).
Proof.
  apply (maps_write_read Qword 0x1004 0x1122334455667788 sample sample_wf);
    [lia | split; vm_compute; [discriminate | reflexivity] | vm_compute; reflexivity..].
Defined.

(** The run stops at the end of the second region. *)
Lemma maps_write_bytes_correct_witness :
  exists m', write_bytes 0x102e [1; 2; 3; 4] sample = Ret (false, m') /\ wf m' /\ stores sample m' 0x102e [1; 2].
Proof.
  destruct (maps_write_bytes_correct 0x102e [1; 2; 3; 4] sample sample_wf) as (m' & E & Hwf & Hs);
    [lia | cbn; lia | repeat constructor; lia |].
  assert (writable_run 4 0x102e sample = 2)%nat as Hr by (vm_compute; reflexivity).
  cbn [length] in *. rewrite Hr in E, Hs. exists m'. split_and!; assumption.
Defined.

Lemma dealloc_correct_witness :
  exists m', dealloc 0x1020 sample = Ret m' /\ wf m' /\ cell_of m' 0x1024 = None
    /\ cell_of m' 0x1004 = Some (0, Perm.READ_WRITE).
Proof.
  destruct (dealloc_correct sample 0x1020 sample_wf) as (m' & E & Hwf & Hc). exists m'.
  split_and!; [exact E | exact Hwf | rewrite Hc; vm_compute; reflexivity..].
Defined.

Lemma free_correct_witness :
  exists m', free "text" sample = Ret m' /\ wf m' /\ name_map m' !! "text"%string = None
    /\ cell_of m' 0x1024 = None /\ cell_of m' 0x1004 = Some (0, Perm.READ_WRITE).
Proof.
  destruct (free_correct sample "text" sample_wf) as (m' & E & Hwf & Hn & Hc). exists m'.
  split_and!; [exact E | exact Hwf | exact Hn | rewrite Hc; vm_compute; reflexivity..].
Defined.

Lemma create_map_correct_witness :
  exists r m', create_map "new" 0x3000 0x20 Perm.READ_WRITE sample = Ret (r, m') /\ wf m'
    /\ (forall k, r = inr k -> cell_of m' 0x3010 = Some (0, Perm.READ_WRITE)
                               /\ cell_of m' 0x2000 = cell_of sample 0x2000).
Proof.
  destruct (create_map_correct "new" 0x3000 0x20 Perm.READ_WRITE sample sample_wf) as (r & m' & E & Hwf & Hr);
    [lia.. | red; each_region |].
  exists r, m'. split_and!; [exact E | exact Hwf |]. intros k ->. destruct Hr as (_ & _ & Hc).
  split; rewrite Hc; reflexivity.
Defined.

Lemma create_map_refuses_witness :
  exists m', create_map "again" 0x1004 0x20 Perm.READ sample = Ret (inl (AddressExists 0x1004), m')
    /\ maps_equiv m' sample /\ wf m'.
Proof. apply (create_map_refuses "again" 0x1004 0x20 Perm.READ sample sample_wf). vm_compute. eauto. Defined.

(** A hole in the middle of a region, and the end of the next. *)
Lemma unmap_range_correct_witness :
  exists m', unmap_range 0x1008 8 sample = Ret m' /\ wf m'
    /\ cell_of m' 0x100a = None /\ cell_of m' 0x1010 = Some (0, Perm.READ_WRITE).
Proof.
  destruct (unmap_range_correct 0x1008 8 sample sample_wf) as (m' & E & Hwf & Hc);
    [lia.. | unfold splittable; each_region |].
  exists m'. split_and!; [exact E | exact Hwf | rewrite Hc; vm_compute; reflexivity..].
Defined.

Lemma sample_log : wf_log (code_writes sample).
Proof.
  assert (code_writes sample = [(0x1020, 16)]) as -> by (vm_compute; reflexivity).
  split; [vm_compute; lia |]. intros [E | []%elem_of_nil]%elem_of_cons. discriminate E.
Qed.

Lemma code_writes_complete_witness :
  exists m', write_scalar 1 0x1024 7 sample = Ret (true, m') /\ logged (code_writes m') (0x1024, 1).
Proof.
  destruct (write_scalar 1 0x1024 7 sample) as [[b m']|] eqn:E; [|vm_compute in E; discriminate E].
  exists m'. assert (b = true) as -> by (vm_compute in E; congruence).
  split; [reflexivity |].
  destruct (code_writes_complete Byte 0x1024 7 sample m' (0, 0) sample_wf ltac:(lia)) as (Hl & _ & _);
    [apply sample_log | exact E |].
  apply Hl. vm_compute. reflexivity.
Defined.

Lemma validate_write_range_correct_witness :
  exists b, validate_write_range 5 0x1010 0x20 sample = Some b
    /\ (b = true <-> (0x20 = 0 \/ (0x1010 <> 0 /\ 0x1010 + 0x20 < 2 ^ 64
                      /\ forall a, 0x1010 <= a < 0x1010 + 0x20 -> writable a sample = true))).
Proof. apply (validate_write_range_correct 0x1010 0x20 sample sample_wf); lia. Defined.

Lemma is_range_free_correct_witness :
  exists b m', is_range_free 0x1030 0x100 sample = Ret (b, m') /\ maps_equiv m' sample
    /\ (b = true <-> range_free sample 0x1030 0x100).
Proof. apply (is_range_free_correct 0x1030 0x100 sample sample_wf); lia. Defined.

Lemma alloc_uncapped_correct_witness :
  exists o, _alloc_uncapped 0x100 0x6000000 0x6fffffff sample = Ret o
    /\ forall r, o = Some r -> good_gap sample 0x100 0x6000000 0x6fffffff r.
Proof.
  apply (alloc_uncapped_correct 0x100 0x6000000 0x6fffffff sample sample_wf); [lia.. | each_region | each_region].
Defined.

Lemma map_correct_witness :
  exists r m', map "heap" 0x100 Perm.READ_WRITE sample = Ret (r, m') /\ wf m'.
Proof.
  destruct (map_correct "heap" 0x100 Perm.READ_WRITE sample sample_wf) as (r & m' & E & Hwf & _);
    [vm_compute; split; [reflexivity | discriminate] | lia | each_region | |].
  { intros k mm b Hk [-> | ->]; revert k mm Hk; each_region. }
  exists r, m'. split; [exact E | exact Hwf].
Defined.

Lemma mem_test_correct_witness :
  (forall k1 mm1 k2 mm2, slab_get (mem_slab sample) k1 = Some mm1 -> slab_get (mem_slab sample) k2 = Some mm2 ->
     k1 <> k2 -> bottom_addr mm2 <= base_addr mm1 \/ bottom_addr mm1 <= base_addr mm2)
  /\ (forall k mm, slab_get (mem_slab sample) k = Some mm -> wadd (base_addr mm) (Mem.size mm) = bottom_addr mm).
Proof. apply (mem_test_correct sample). vm_compute. reflexivity. Defined.
