(* ===== verification/Regs.v ===== *)
(** * The x86 register file ([arch/x86/regs.rs])

    [Regs64] is a struct of some ninety integer fields; it is modelled as a
    store from field names to values.  The accessors, [get_reg]/[set_reg] over
    iced_x86's [Register] names, and the access by name are the functions of
    the source; the theorems say which bits of which field each register view
    reads and writes, and that the XMM and YMM views stay aliased. *)

From stdpp Require Import strings.
From S2P Require Import Prelude.

(** ** Data *)

(** The fields of [struct Regs64]; the numbered families carry their index. *)
Inductive Field :=
  | rax | rbx | rcx | rdx | rsi | rdi | rbp | rsp | rip | prev_rip
  | r8 | r9 | r10 | r11 | r12 | r13 | r14 | r15
  | msr | gs | fs
  | dr (i : nat) | cr (i : nat) | tr (i : nat)
  | xmm (i : nat) | ymm (i : nat) | mm (i : nat).

#[export] Instance Field_eq_dec : EqDecision Field.
Proof. solve_decision. Defined.

(** [struct Regs64] *)
Definition Regs64 : Type := Field -> Z.

(** [self.f = v] *)
Definition upd (f : Field) (v : Z) (s : Regs64) : Regs64 := fun g => if decide (g = f) then v else s g.

(** [Regs64::new] *)
Definition new_regs : Regs64 := fun _ => 0.

(** ** The macros *)

Definition set_reg32 (_reg val : Z) : Z := Z.land val 0x00000000ffffffff.
Definition set_reg16 (reg val : Z) : Z := wadd (Z.land reg 0xffffffffffff0000) (Z.land val 0x000000000000ffff).
Definition set_reg8l (reg val : Z) : Z := wadd (Z.land reg 0xffffffffffffff00) (Z.land val 0x00000000000000ff).
Definition set_reg8h (reg val : Z) : Z :=
  wadd (Z.land reg 0xffffffffffff00ff) (shl 64 (Z.land val 0x00000000000000ff) 8).
Definition get_reg32l (reg : Z) : Z := Z.land reg 0x00000000ffffffff.
Definition get_reg32h (reg : Z) : Z := Z.shiftr reg 32.
Definition get_reg16 (reg : Z) : Z := Z.land reg 0x000000000000ffff.
Definition get_reg8l (reg : Z) : Z := Z.land reg 0x00000000000000ff.
Definition get_reg8h (reg : Z) : Z := Z.shiftr (Z.land reg 0x000000000000ff00) 8.

(** ** The accessors [define_reg_accessors!] generates *)

Definition get_ax (s : Regs64) : Z := get_reg16 (s rax).
Definition set_ax (val : Z) (s : Regs64) : Regs64 := upd rax (set_reg16 (s rax) val) s.
Definition get_bx (s : Regs64) : Z := get_reg16 (s rbx).
Definition set_bx (val : Z) (s : Regs64) : Regs64 := upd rbx (set_reg16 (s rbx) val) s.
Definition get_cx (s : Regs64) : Z := get_reg16 (s rcx).
Definition set_cx (val : Z) (s : Regs64) : Regs64 := upd rcx (set_reg16 (s rcx) val) s.
Definition get_dx (s : Regs64) : Z := get_reg16 (s rdx).
Definition set_dx (val : Z) (s : Regs64) : Regs64 := upd rdx (set_reg16 (s rdx) val) s.
Definition get_si (s : Regs64) : Z := get_reg16 (s rsi).
Definition set_si (val : Z) (s : Regs64) : Regs64 := upd rsi (set_reg16 (s rsi) val) s.
Definition get_di (s : Regs64) : Z := get_reg16 (s rdi).
Definition set_di (val : Z) (s : Regs64) : Regs64 := upd rdi (set_reg16 (s rdi) val) s.
Definition get_sp (s : Regs64) : Z := get_reg16 (s rsp).
Definition set_sp (val : Z) (s : Regs64) : Regs64 := upd rsp (set_reg16 (s rsp) val) s.
Definition get_bp (s : Regs64) : Z := get_reg16 (s rbp).
Definition set_bp (val : Z) (s : Regs64) : Regs64 := upd rbp (set_reg16 (s rbp) val) s.
Definition get_ip (s : Regs64) : Z := get_reg16 (s rip).
Definition set_ip (val : Z) (s : Regs64) : Regs64 := upd rip (set_reg16 (s rip) val) s.
Definition get_r8w (s : Regs64) : Z := get_reg16 (s r8).
Definition set_r8w (val : Z) (s : Regs64) : Regs64 := upd r8 (set_reg16 (s r8) val) s.
Definition get_r9w (s : Regs64) : Z := get_reg16 (s r9).
Definition set_r9w (val : Z) (s : Regs64) : Regs64 := upd r9 (set_reg16 (s r9) val) s.
Definition get_r10w (s : Regs64) : Z := get_reg16 (s r10).
Definition set_r10w (val : Z) (s : Regs64) : Regs64 := upd r10 (set_reg16 (s r10) val) s.
Definition get_r11w (s : Regs64) : Z := get_reg16 (s r11).
Definition set_r11w (val : Z) (s : Regs64) : Regs64 := upd r11 (set_reg16 (s r11) val) s.
Definition get_r12w (s : Regs64) : Z := get_reg16 (s r12).
Definition set_r12w (val : Z) (s : Regs64) : Regs64 := upd r12 (set_reg16 (s r12) val) s.
Definition get_r13w (s : Regs64) : Z := get_reg16 (s r13).
Definition set_r13w (val : Z) (s : Regs64) : Regs64 := upd r13 (set_reg16 (s r13) val) s.
Definition get_r14w (s : Regs64) : Z := get_reg16 (s r14).
Definition set_r14w (val : Z) (s : Regs64) : Regs64 := upd r14 (set_reg16 (s r14) val) s.
Definition get_r15w (s : Regs64) : Z := get_reg16 (s r15).
Definition set_r15w (val : Z) (s : Regs64) : Regs64 := upd r15 (set_reg16 (s r15) val) s.
Definition get_ah (s : Regs64) : Z := get_reg8h (s rax).
Definition set_ah (val : Z) (s : Regs64) : Regs64 := upd rax (set_reg8h (s rax) val) s.
Definition get_al (s : Regs64) : Z := get_reg8l (s rax).
Definition set_al (val : Z) (s : Regs64) : Regs64 := upd rax (set_reg8l (s rax) val) s.
Definition get_bh (s : Regs64) : Z := get_reg8h (s rbx).
Definition set_bh (val : Z) (s : Regs64) : Regs64 := upd rbx (set_reg8h (s rbx) val) s.
Definition get_bl (s : Regs64) : Z := get_reg8l (s rbx).
Definition set_bl (val : Z) (s : Regs64) : Regs64 := upd rbx (set_reg8l (s rbx) val) s.
Definition get_ch (s : Regs64) : Z := get_reg8h (s rcx).
Definition set_ch (val : Z) (s : Regs64) : Regs64 := upd rcx (set_reg8h (s rcx) val) s.
Definition get_cl (s : Regs64) : Z := get_reg8l (s rcx).
Definition set_cl (val : Z) (s : Regs64) : Regs64 := upd rcx (set_reg8l (s rcx) val) s.
Definition get_dh (s : Regs64) : Z := get_reg8h (s rdx).
Definition set_dh (val : Z) (s : Regs64) : Regs64 := upd rdx (set_reg8h (s rdx) val) s.
Definition get_dl (s : Regs64) : Z := get_reg8l (s rdx).
Definition set_dl (val : Z) (s : Regs64) : Regs64 := upd rdx (set_reg8l (s rdx) val) s.
Definition get_r8l (s : Regs64) : Z := get_reg8l (s r8).
Definition set_r8l (val : Z) (s : Regs64) : Regs64 := upd r8 (set_reg8l (s r8) val) s.
Definition get_r9l (s : Regs64) : Z := get_reg8l (s r9).
Definition set_r9l (val : Z) (s : Regs64) : Regs64 := upd r9 (set_reg8l (s r9) val) s.
Definition get_r10l (s : Regs64) : Z := get_reg8l (s r10).
Definition set_r10l (val : Z) (s : Regs64) : Regs64 := upd r10 (set_reg8l (s r10) val) s.
Definition get_r11l (s : Regs64) : Z := get_reg8l (s r11).
Definition set_r11l (val : Z) (s : Regs64) : Regs64 := upd r11 (set_reg8l (s r11) val) s.
Definition get_r12l (s : Regs64) : Z := get_reg8l (s r12).
Definition set_r12l (val : Z) (s : Regs64) : Regs64 := upd r12 (set_reg8l (s r12) val) s.
Definition get_r13l (s : Regs64) : Z := get_reg8l (s r13).
Definition set_r13l (val : Z) (s : Regs64) : Regs64 := upd r13 (set_reg8l (s r13) val) s.
Definition get_r14l (s : Regs64) : Z := get_reg8l (s r14).
Definition set_r14l (val : Z) (s : Regs64) : Regs64 := upd r14 (set_reg8l (s r14) val) s.
Definition get_r15l (s : Regs64) : Z := get_reg8l (s r15).
Definition set_r15l (val : Z) (s : Regs64) : Regs64 := upd r15 (set_reg8l (s r15) val) s.
Definition get_r8h (s : Regs64) : Z := get_reg8h (s r8).
Definition set_r8h (val : Z) (s : Regs64) : Regs64 := upd r8 (set_reg8h (s r8) val) s.
Definition get_r9h (s : Regs64) : Z := get_reg8h (s r9).
Definition set_r9h (val : Z) (s : Regs64) : Regs64 := upd r9 (set_reg8h (s r9) val) s.
Definition get_r10h (s : Regs64) : Z := get_reg8h (s r10).
Definition set_r10h (val : Z) (s : Regs64) : Regs64 := upd r10 (set_reg8h (s r10) val) s.
Definition get_r11h (s : Regs64) : Z := get_reg8h (s r11).
Definition set_r11h (val : Z) (s : Regs64) : Regs64 := upd r11 (set_reg8h (s r11) val) s.
Definition get_r12h (s : Regs64) : Z := get_reg8h (s r12).
Definition set_r12h (val : Z) (s : Regs64) : Regs64 := upd r12 (set_reg8h (s r12) val) s.
Definition get_r13h (s : Regs64) : Z := get_reg8h (s r13).
Definition set_r13h (val : Z) (s : Regs64) : Regs64 := upd r13 (set_reg8h (s r13) val) s.
Definition get_r14h (s : Regs64) : Z := get_reg8h (s r14).
Definition set_r14h (val : Z) (s : Regs64) : Regs64 := upd r14 (set_reg8h (s r14) val) s.
Definition get_r15h (s : Regs64) : Z := get_reg8h (s r15).
Definition set_r15h (val : Z) (s : Regs64) : Regs64 := upd r15 (set_reg8h (s r15) val) s.
Definition get_sil (s : Regs64) : Z := get_reg8l (s rsi).
Definition set_sil (val : Z) (s : Regs64) : Regs64 := upd rsi (set_reg8l (s rsi) val) s.
Definition get_dil (s : Regs64) : Z := get_reg8l (s rdi).
Definition set_dil (val : Z) (s : Regs64) : Regs64 := upd rdi (set_reg8l (s rdi) val) s.
Definition get_bpl (s : Regs64) : Z := get_reg8l (s rbp).
Definition set_bpl (val : Z) (s : Regs64) : Regs64 := upd rbp (set_reg8l (s rbp) val) s.
Definition get_spl (s : Regs64) : Z := get_reg8l (s rsp).
Definition set_spl (val : Z) (s : Regs64) : Regs64 := upd rsp (set_reg8l (s rsp) val) s.
Definition get_eax (s : Regs64) : Z := get_reg32l (s rax).
Definition set_eax (val : Z) (s : Regs64) : Regs64 := upd rax (set_reg32 (s rax) val) s.
Definition get_ebx (s : Regs64) : Z := get_reg32l (s rbx).
Definition set_ebx (val : Z) (s : Regs64) : Regs64 := upd rbx (set_reg32 (s rbx) val) s.
Definition get_ecx (s : Regs64) : Z := get_reg32l (s rcx).
Definition set_ecx (val : Z) (s : Regs64) : Regs64 := upd rcx (set_reg32 (s rcx) val) s.
Definition get_edx (s : Regs64) : Z := get_reg32l (s rdx).
Definition set_edx (val : Z) (s : Regs64) : Regs64 := upd rdx (set_reg32 (s rdx) val) s.
Definition get_esi (s : Regs64) : Z := get_reg32l (s rsi).
Definition set_esi (val : Z) (s : Regs64) : Regs64 := upd rsi (set_reg32 (s rsi) val) s.
Definition get_edi (s : Regs64) : Z := get_reg32l (s rdi).
Definition set_edi (val : Z) (s : Regs64) : Regs64 := upd rdi (set_reg32 (s rdi) val) s.
Definition get_esp (s : Regs64) : Z := get_reg32l (s rsp).
Definition set_esp (val : Z) (s : Regs64) : Regs64 := upd rsp (set_reg32 (s rsp) val) s.
Definition get_ebp (s : Regs64) : Z := get_reg32l (s rbp).
Definition set_ebp (val : Z) (s : Regs64) : Regs64 := upd rbp (set_reg32 (s rbp) val) s.
Definition get_eip (s : Regs64) : Z := get_reg32l (s rip).
Definition set_eip (val : Z) (s : Regs64) : Regs64 := upd rip (set_reg32 (s rip) val) s.
Definition get_r8d (s : Regs64) : Z := get_reg32l (s r8).
Definition set_r8d (val : Z) (s : Regs64) : Regs64 := upd r8 (set_reg32 (s r8) val) s.
Definition get_r9d (s : Regs64) : Z := get_reg32l (s r9).
Definition set_r9d (val : Z) (s : Regs64) : Regs64 := upd r9 (set_reg32 (s r9) val) s.
Definition get_r10d (s : Regs64) : Z := get_reg32l (s r10).
Definition set_r10d (val : Z) (s : Regs64) : Regs64 := upd r10 (set_reg32 (s r10) val) s.
Definition get_r11d (s : Regs64) : Z := get_reg32l (s r11).
Definition set_r11d (val : Z) (s : Regs64) : Regs64 := upd r11 (set_reg32 (s r11) val) s.
Definition get_r12d (s : Regs64) : Z := get_reg32l (s r12).
Definition set_r12d (val : Z) (s : Regs64) : Regs64 := upd r12 (set_reg32 (s r12) val) s.
Definition get_r13d (s : Regs64) : Z := get_reg32l (s r13).
Definition set_r13d (val : Z) (s : Regs64) : Regs64 := upd r13 (set_reg32 (s r13) val) s.
Definition get_r14d (s : Regs64) : Z := get_reg32l (s r14).
Definition set_r14d (val : Z) (s : Regs64) : Regs64 := upd r14 (set_reg32 (s r14) val) s.
Definition get_r15d (s : Regs64) : Z := get_reg32l (s r15).
Definition set_r15d (val : Z) (s : Regs64) : Regs64 := upd r15 (set_reg32 (s r15) val) s.
Definition get_r8u (s : Regs64) : Z := get_reg32h (s r8).
Definition get_r9u (s : Regs64) : Z := get_reg32h (s r9).
Definition get_r10u (s : Regs64) : Z := get_reg32h (s r10).
Definition get_r11u (s : Regs64) : Z := get_reg32h (s r11).
Definition get_r12u (s : Regs64) : Z := get_reg32h (s r12).
Definition get_r13u (s : Regs64) : Z := get_reg32h (s r13).
Definition get_r14u (s : Regs64) : Z := get_reg32h (s r14).
Definition get_r15u (s : Regs64) : Z := get_reg32h (s r15).

(** The registers of [iced_x86::Register] that the source names; [Other] stands
    for the rest of that enumeration. *)
Inductive Register :=
  | XMM0 | XMM1 | XMM2 | XMM3 | XMM4 | XMM5 | XMM6 | XMM7 | XMM8 | XMM9 | XMM10 | XMM11 | XMM12
  | XMM13 | XMM14 | XMM15 | MM0 | MM1 | MM2 | MM3 | MM4 | MM5 | MM6 | MM7 | YMM0 | YMM1 | YMM2
  | YMM3 | YMM4 | YMM5 | YMM6 | YMM7 | YMM8 | YMM9 | YMM10 | YMM11 | YMM12 | YMM13 | YMM14 | YMM15
  | RAX | RBX | RCX | RDX | RSI | RDI | RSP | RBP | RIP | R8 | R9 | R10 | R11 | R12 | R13 | R14
  | R15 | EAX | EBX | ECX | EDX | ESI | EDI | ESP | EBP | EIP | R8D | R9D | R10D | R11D | R12D
  | R13D | R14D | R15D | AX | BX | CX | DX | SI | DI | BP | SP | R8W | R9W | R10W | R11W | R12W
  | R13W | R14W | R15W | AH | AL | BH | BL | CH | CL | DH | DL | R8L | R9L | R10L | R11L | R12L
  | R13L | R14L | R15L | SIL | DIL | BPL | SPL | ST0 | ST1 | ST2 | ST3 | ST4 | ST5 | ST6 | ST7 | DS
  | CS | SS | ES | FS | GS | DR0 | DR1 | DR2 | DR3 | DR4 | DR5 | DR6 | DR7 | CR0 | CR1 | CR2 | CR3
  | CR4 | CR5 | NoRegister | Other.

(** [Regs64::get_reg] *)
Definition get_reg (reg : Register) (s : Regs64) : Z :=
  match reg with
  | RAX => s rax
  | RBX => s rbx
  | RCX => s rcx
  | RDX => s rdx
  | RSI => s rsi
  | RDI => s rdi
  | RSP => s rsp
  | RBP => s rbp
  | RIP => s rip
  | R8 => s r8
  | R9 => s r9
  | R10 => s r10
  | R11 => s r11
  | R12 => s r12
  | R13 => s r13
  | R14 => s r14
  | R15 => s r15
  | EAX => get_eax s
  | EBX => get_ebx s
  | ECX => get_ecx s
  | EDX => get_edx s
  | ESI => get_esi s
  | EDI => get_edi s
  | ESP => get_esp s
  | EBP => get_ebp s
  | EIP => get_eip s
  | R8D => get_r8d s
  | R9D => get_r9d s
  | R10D => get_r10d s
  | R11D => get_r11d s
  | R12D => get_r12d s
  | R13D => get_r13d s
  | R14D => get_r14d s
  | R15D => get_r15d s
  | AX => get_ax s
  | BX => get_bx s
  | CX => get_cx s
  | DX => get_dx s
  | SI => get_si s
  | DI => get_di s
  | BP => get_bp s
  | SP => get_sp s
  | R8W => get_r8w s
  | R9W => get_r9w s
  | R10W => get_r10w s
  | R11W => get_r11w s
  | R12W => get_r12w s
  | R13W => get_r13w s
  | R14W => get_r14w s
  | R15W => get_r15w s
  | AH => get_ah s
  | AL => get_al s
  | BH => get_bh s
  | BL => get_bl s
  | CH => get_ch s
  | CL => get_cl s
  | DH => get_dh s
  | DL => get_dl s
  | R8L => get_r8l s
  | R9L => get_r9l s
  | R10L => get_r10l s
  | R11L => get_r11l s
  | R12L => get_r12l s
  | R13L => get_r13l s
  | R14L => get_r14l s
  | R15L => get_r15l s
  | SIL => get_sil s
  | DIL => get_dil s
  | BPL => get_bpl s
  | SPL => get_spl s
  | ST0 => 0
  | ST1 => 1
  | ST2 => 2
  | ST3 => 3
  | ST4 => 4
  | ST5 => 5
  | ST6 => 6
  | ST7 => 7
  | DS => 0
  | CS => 0
  | SS => 0
  | ES => 0
  | FS => 0
  | GS => 0
  | DR0 => 0
  | DR1 => 0
  | DR2 => 0
  | DR3 => 0
  | DR4 => 0
  | DR5 => 0
  | DR6 => 0
  | DR7 => 0
  | CR0 => 0
  | CR1 => 0
  | CR2 => 0
  | CR3 => 0
  | CR4 => 0
  | CR5 => 0
  | _ => 0
  end.

(** [Regs64::set_reg] *)
Definition set_reg (reg : Register) (value : Z) (s : Regs64) : Regs64 :=
  match reg with
  | RAX => upd rax value s
  | RBX => upd rbx value s
  | RCX => upd rcx value s
  | RDX => upd rdx value s
  | RSI => upd rsi value s
  | RDI => upd rdi value s
  | RSP => upd rsp value s
  | RBP => upd rbp value s
  | RIP => upd rip value s
  | R8 => upd r8 value s
  | R9 => upd r9 value s
  | R10 => upd r10 value s
  | R11 => upd r11 value s
  | R12 => upd r12 value s
  | R13 => upd r13 value s
  | R14 => upd r14 value s
  | R15 => upd r15 value s
  | EAX => set_eax value s
  | EBX => set_ebx value s
  | ECX => set_ecx value s
  | EDX => set_edx value s
  | ESI => set_esi value s
  | EDI => set_edi value s
  | ESP => set_esp value s
  | EBP => set_ebp value s
  | EIP => set_eip value s
  | R8D => set_r8d value s
  | R9D => set_r9d value s
  | R10D => set_r10d value s
  | R11D => set_r11d value s
  | R12D => set_r12d value s
  | R13D => set_r13d value s
  | R14D => set_r14d value s
  | R15D => set_r15d value s
  | AX => set_ax value s
  | BX => set_bx value s
  | CX => set_cx value s
  | DX => set_dx value s
  | SI => set_si value s
  | DI => set_di value s
  | SP => set_sp value s
  | BP => set_bp value s
  | R8W => set_r8w value s
  | R9W => set_r9w value s
  | R10W => set_r10w value s
  | R11W => set_r11w value s
  | R12W => set_r12w value s
  | R13W => set_r13w value s
  | R14W => set_r14w value s
  | R15W => set_r15w value s
  | AH => set_ah value s
  | AL => set_al value s
  | BH => set_bh value s
  | BL => set_bl value s
  | CH => set_ch value s
  | CL => set_cl value s
  | DH => set_dh value s
  | DL => set_dl value s
  | R8L => set_r8l value s
  | R9L => set_r9l value s
  | R10L => set_r10l value s
  | R11L => set_r11l value s
  | R12L => set_r12l value s
  | R13L => set_r13l value s
  | R14L => set_r14l value s
  | R15L => set_r15l value s
  | SIL => set_sil value s
  | DIL => set_dil value s
  | BPL => set_bpl value s
  | SPL => set_spl value s
  | SS => s
  | ES => s
  | FS => s
  | GS => s
  | DS => s
  | DR0 => s
  | DR1 => s
  | DR2 => s
  | DR3 => s
  | DR4 => s
  | DR5 => s
  | DR6 => s
  | DR7 => s
  | CR0 => s
  | CR1 => s
  | CR2 => s
  | CR3 => s
  | CR4 => s
  | CR5 => s
  | _ => s
  end.

(** [Regs64::get_size] *)
Definition get_size (reg : Register) : Z :=
  match reg with
  | RAX => 64
  | RBX => 64
  | RCX => 64
  | RDX => 64
  | RSI => 64
  | RDI => 64
  | RSP => 64
  | RBP => 64
  | RIP => 64
  | R8 => 64
  | R9 => 64
  | R10 => 64
  | R11 => 64
  | R12 => 64
  | R13 => 64
  | R14 => 64
  | R15 => 64
  | EAX => 32
  | EBX => 32
  | ECX => 32
  | EDX => 32
  | ESI => 32
  | EDI => 32
  | ESP => 32
  | EBP => 32
  | EIP => 32
  | R8D => 32
  | R9D => 32
  | R10D => 32
  | R11D => 32
  | R12D => 32
  | R13D => 32
  | R14D => 32
  | R15D => 32
  | AX => 16
  | BX => 16
  | CX => 16
  | DX => 16
  | BP => 16
  | SP => 16
  | SI => 16
  | DI => 16
  | R8W => 16
  | R9W => 16
  | R10W => 16
  | R11W => 16
  | R12W => 16
  | R13W => 16
  | R14W => 16
  | R15W => 16
  | AH => 8
  | AL => 8
  | BH => 8
  | BL => 8
  | CH => 8
  | CL => 8
  | DH => 8
  | DL => 8
  | R8L => 8
  | R9L => 8
  | R10L => 8
  | R11L => 8
  | R12L => 8
  | R13L => 8
  | R14L => 8
  | R15L => 8
  | SIL => 8
  | DIL => 8
  | BPL => 8
  | SPL => 8
  | XMM0 => 128
  | XMM1 => 128
  | XMM2 => 128
  | XMM3 => 128
  | XMM4 => 128
  | XMM5 => 128
  | XMM6 => 128
  | XMM7 => 128
  | XMM8 => 128
  | XMM9 => 128
  | XMM10 => 128
  | XMM11 => 128
  | XMM12 => 128
  | XMM13 => 128
  | XMM14 => 128
  | XMM15 => 128
  | YMM0 => 256
  | YMM1 => 256
  | YMM2 => 256
  | YMM3 => 256
  | YMM4 => 256
  | YMM5 => 256
  | YMM6 => 256
  | YMM7 => 256
  | YMM8 => 256
  | YMM9 => 256
  | YMM10 => 256
  | YMM11 => 256
  | YMM12 => 256
  | YMM13 => 256
  | YMM14 => 256
  | YMM15 => 256
  | MM0 => 128
  | MM1 => 128
  | MM2 => 128
  | MM3 => 128
  | MM4 => 128
  | MM5 => 128
  | MM6 => 128
  | MM7 => 128
  | _ => 0
  end.

(** [Regs64::get_xmm_reg] *)
Definition get_xmm_reg (reg : Register) (s : Regs64) : Z :=
  match reg with
  | XMM0 => s (xmm 0)
  | XMM1 => s (xmm 1)
  | XMM2 => s (xmm 2)
  | XMM3 => s (xmm 3)
  | XMM4 => s (xmm 4)
  | XMM5 => s (xmm 5)
  | XMM6 => s (xmm 6)
  | XMM7 => s (xmm 7)
  | XMM8 => s (xmm 8)
  | XMM9 => s (xmm 9)
  | XMM10 => s (xmm 10)
  | XMM11 => s (xmm 11)
  | XMM12 => s (xmm 12)
  | XMM13 => s (xmm 13)
  | XMM14 => s (xmm 14)
  | XMM15 => s (xmm 15)
  | MM0 => s (mm 0)
  | MM1 => s (mm 1)
  | MM2 => s (mm 2)
  | MM3 => s (mm 3)
  | MM4 => s (mm 4)
  | MM5 => s (mm 5)
  | MM6 => s (mm 6)
  | MM7 => s (mm 7)
  | _ => 0
  end.

(** [self.ymmN.0[0] = lo; self.ymmN.0[1] = hi]: the two low 64-bit limbs. *)
Definition set_limbs (lo hi y : Z) : Z := lo + hi * 2 ^ 64 + y / 2 ^ 128 * 2 ^ 128.

(** [Regs64::set_xmm_reg] *)
Definition set_xmm_reg (reg : Register) (value : Z) (s : Regs64) : Regs64 :=
  let stored :=
    match reg with
    | XMM0 => Some (upd (xmm 0) value s)
    | XMM1 => Some (upd (xmm 1) value s)
    | XMM2 => Some (upd (xmm 2) value s)
    | XMM3 => Some (upd (xmm 3) value s)
    | XMM4 => Some (upd (xmm 4) value s)
    | XMM5 => Some (upd (xmm 5) value s)
    | XMM6 => Some (upd (xmm 6) value s)
    | XMM7 => Some (upd (xmm 7) value s)
    | XMM8 => Some (upd (xmm 8) value s)
    | XMM9 => Some (upd (xmm 9) value s)
    | XMM10 => Some (upd (xmm 10) value s)
    | XMM11 => Some (upd (xmm 11) value s)
    | XMM12 => Some (upd (xmm 12) value s)
    | XMM13 => Some (upd (xmm 13) value s)
    | XMM14 => Some (upd (xmm 14) value s)
    | XMM15 => Some (upd (xmm 15) value s)
    | MM0 => Some (upd (mm 0) value s)
    | MM1 => Some (upd (mm 1) value s)
    | MM2 => Some (upd (mm 2) value s)
    | MM3 => Some (upd (mm 3) value s)
    | MM4 => Some (upd (mm 4) value s)
    | MM5 => Some (upd (mm 5) value s)
    | MM6 => Some (upd (mm 6) value s)
    | MM7 => Some (upd (mm 7) value s)
    | _ => None
    end in
  match stored with
  | None => s
  | Some s =>
      let lo := wrap 64 value in
      let hi := wrap 64 (Z.shiftr value 64) in
      match reg with
      | XMM0 => upd (ymm 0) (set_limbs lo hi (s (ymm 0))) s
      | XMM1 => upd (ymm 1) (set_limbs lo hi (s (ymm 1))) s
      | XMM2 => upd (ymm 2) (set_limbs lo hi (s (ymm 2))) s
      | XMM3 => upd (ymm 3) (set_limbs lo hi (s (ymm 3))) s
      | XMM4 => upd (ymm 4) (set_limbs lo hi (s (ymm 4))) s
      | XMM5 => upd (ymm 5) (set_limbs lo hi (s (ymm 5))) s
      | XMM6 => upd (ymm 6) (set_limbs lo hi (s (ymm 6))) s
      | XMM7 => upd (ymm 7) (set_limbs lo hi (s (ymm 7))) s
      | XMM8 => upd (ymm 8) (set_limbs lo hi (s (ymm 8))) s
      | XMM9 => upd (ymm 9) (set_limbs lo hi (s (ymm 9))) s
      | XMM10 => upd (ymm 10) (set_limbs lo hi (s (ymm 10))) s
      | XMM11 => upd (ymm 11) (set_limbs lo hi (s (ymm 11))) s
      | XMM12 => upd (ymm 12) (set_limbs lo hi (s (ymm 12))) s
      | XMM13 => upd (ymm 13) (set_limbs lo hi (s (ymm 13))) s
      | XMM14 => upd (ymm 14) (set_limbs lo hi (s (ymm 14))) s
      | XMM15 => upd (ymm 15) (set_limbs lo hi (s (ymm 15))) s
      | _ => s
      end
  end.

(** [Regs64::get_ymm_reg] *)
Definition get_ymm_reg (reg : Register) (s : Regs64) : Z :=
  match reg with
  | YMM0 => s (ymm 0)
  | YMM1 => s (ymm 1)
  | YMM2 => s (ymm 2)
  | YMM3 => s (ymm 3)
  | YMM4 => s (ymm 4)
  | YMM5 => s (ymm 5)
  | YMM6 => s (ymm 6)
  | YMM7 => s (ymm 7)
  | YMM8 => s (ymm 8)
  | YMM9 => s (ymm 9)
  | YMM10 => s (ymm 10)
  | YMM11 => s (ymm 11)
  | YMM12 => s (ymm 12)
  | YMM13 => s (ymm 13)
  | YMM14 => s (ymm 14)
  | YMM15 => s (ymm 15)
  | _ => 0
  end.

(** [Regs64::set_ymm_reg] *)
Definition set_ymm_reg (reg : Register) (value : Z) (s : Regs64) : Regs64 :=
  let stored :=
    match reg with
    | YMM0 => Some (upd (ymm 0) value s)
    | YMM1 => Some (upd (ymm 1) value s)
    | YMM2 => Some (upd (ymm 2) value s)
    | YMM3 => Some (upd (ymm 3) value s)
    | YMM4 => Some (upd (ymm 4) value s)
    | YMM5 => Some (upd (ymm 5) value s)
    | YMM6 => Some (upd (ymm 6) value s)
    | YMM7 => Some (upd (ymm 7) value s)
    | YMM8 => Some (upd (ymm 8) value s)
    | YMM9 => Some (upd (ymm 9) value s)
    | YMM10 => Some (upd (ymm 10) value s)
    | YMM11 => Some (upd (ymm 11) value s)
    | YMM12 => Some (upd (ymm 12) value s)
    | YMM13 => Some (upd (ymm 13) value s)
    | YMM14 => Some (upd (ymm 14) value s)
    | YMM15 => Some (upd (ymm 15) value s)
    | _ => None
    end in
  match stored with
  | None => s
  | Some s =>
      let limb0 := wrap 64 value in
      let limb1 := wrap 64 (Z.shiftr value 64) in
      let lo := Z.lor (shl 128 limb1 64) limb0 in
      match reg with
      | YMM0 => upd (xmm 0) lo s
      | YMM1 => upd (xmm 1) lo s
      | YMM2 => upd (xmm 2) lo s
      | YMM3 => upd (xmm 3) lo s
      | YMM4 => upd (xmm 4) lo s
      | YMM5 => upd (xmm 5) lo s
      | YMM6 => upd (xmm 6) lo s
      | YMM7 => upd (xmm 7) lo s
      | YMM8 => upd (xmm 8) lo s
      | YMM9 => upd (xmm 9) lo s
      | YMM10 => upd (xmm 10) lo s
      | YMM11 => upd (xmm 11) lo s
      | YMM12 => upd (xmm 12) lo s
      | YMM13 => upd (xmm 13) lo s
      | YMM14 => upd (xmm 14) lo s
      | YMM15 => upd (xmm 15) lo s
      | _ => s
      end
  end.

(** [Regs64::is_xmm] *)
Definition is_xmm (reg : Register) : bool :=
  match reg with
  | XMM0 | XMM1 | XMM2 | XMM3 | XMM4 | XMM5 | XMM6 | XMM7 | XMM8 | XMM9 | XMM10 | XMM11 | XMM12 | XMM13 | XMM14 | XMM15 | MM0 | MM1 | MM2 | MM3 | MM4 | MM5 | MM6 | MM7 => true
  | _ => false
  end.

(** [Regs64::is_ymm] *)
Definition is_ymm (reg : Register) : bool :=
  match reg with
  | YMM0 | YMM1 | YMM2 | YMM3 | YMM4 | YMM5 | YMM6 | YMM7 | YMM8 | YMM9 | YMM10 | YMM11 | YMM12 | YMM13 | YMM14 | YMM15 | MM0 | MM1 | MM2 | MM3 | MM4 | MM5 | MM6 | MM7 => true
  | _ => false
  end.

(** [Regs64::is_fpu] *)
Definition is_fpu (reg : Register) : bool :=
  match reg with
  | ST0 | ST1 | ST2 | ST3 | ST4 | ST5 | ST6 | ST7 => true
  | _ => false
  end.

(** [Regs64::clear] *)
Definition clear_regs (B : Z) (s : Regs64) : Regs64 :=
  if B =? 64 then
    let s := upd rax 0 s in
    let s := upd rbx 0 s in
    let s := upd rcx 0 s in
    let s := upd rdx 0 s in
    let s := upd rsi 0 s in
    let s := upd rdi 0 s in
    let s := upd rbp 0 s in
    let s := upd rsp 0 s in
    let s := upd rip 0 s in
    let s := upd r8 0 s in
    let s := upd r9 0 s in
    let s := upd r10 0 s in
    let s := upd r11 0 s in
    let s := upd r12 0 s in
    let s := upd r13 0 s in
    let s := upd r14 0 s in
    upd r15 0 s
  else if B =? 32 then
    let s := set_eax 0 s in
    let s := set_ebx 0 s in
    let s := set_ecx 0 s in
    let s := set_edx 0 s in
    let s := set_esi 0 s in
    let s := set_edi 0 s in
    let s := set_esp 0 s in
    let s := set_ebp 0 s in
    let s := set_eip 0 s in
    let s := set_r8d 0 s in
    let s := set_r9d 0 s in
    let s := set_r10d 0 s in
    let s := set_r11d 0 s in
    let s := set_r12d 0 s in
    let s := set_r13d 0 s in
    let s := set_r14d 0 s in
    set_r15d 0 s
  else if B =? 16 then
    let s := set_ax 0 s in
    let s := set_bx 0 s in
    let s := set_cx 0 s in
    let s := set_dx 0 s in
    let s := set_si 0 s in
    let s := set_di 0 s in
    let s := set_sp 0 s in
    let s := set_bp 0 s in
    let s := set_ip 0 s in
    let s := set_r8w 0 s in
    let s := set_r9w 0 s in
    let s := set_r10w 0 s in
    let s := set_r11w 0 s in
    let s := set_r12w 0 s in
    let s := set_r13w 0 s in
    let s := set_r14w 0 s in
    set_r15w 0 s
  else if B =? 8 then
    let s := set_al 0 s in
    let s := set_bl 0 s in
    let s := set_cl 0 s in
    let s := set_dl 0 s in
    let s := set_sil 0 s in
    let s := set_dil 0 s in
    let s := set_r8l 0 s in
    let s := set_r9l 0 s in
    let s := set_r10l 0 s in
    let s := set_r11l 0 s in
    let s := set_r12l 0 s in
    let s := set_r13l 0 s in
    let s := set_r14l 0 s in
    set_r15l 0 s
  else s.

(** [Regs64::sanitize32] *)
Definition sanitize32 (s : Regs64) : Regs64 :=
  let mask := 0x00000000ffffffff in
  let s := upd rax (Z.land (s rax) mask) s in
  let s := upd rbx (Z.land (s rbx) mask) s in
  let s := upd rcx (Z.land (s rcx) mask) s in
  let s := upd rdx (Z.land (s rdx) mask) s in
  let s := upd rsi (Z.land (s rsi) mask) s in
  let s := upd rdi (Z.land (s rdi) mask) s in
  let s := upd rbp (Z.land (s rbp) mask) s in
  let s := upd rsp (Z.land (s rsp) mask) s in
  upd rip (Z.land (s rip) mask) s.

(** [Regs64::sub_rsp] *)
Definition sub_rsp (s : Regs64) : Regs64 :=
  upd rsp (wsub (s rsp) 8) s.

(** [Regs64::sub_esp] *)
Definition sub_esp (s : Regs64) : Regs64 :=
  let esp := wrap 32 (s rsp) in
  let new_esp := wrap 32 (esp - 4) in
  upd rsp (Z.lor (Z.land (s rsp) 0xFFFFFFFF00000000) new_esp) s.

(** [Regs64::sub_sp] *)
Definition sub_sp (s : Regs64) : Regs64 :=
  let sp := wrap 16 (s rsp) in
  let new_sp := wrap 16 (sp - 2) in
  upd rsp (Z.lor (Z.land (s rsp) 0xFFFFFFFFFFFF0000) new_sp) s.

(** ** Access by name *)

(** [Regs64::get_by_name] *)
Definition get_by_name (name : string) (s : Regs64) : Z :=
  if String.eqb name "rax" then s rax
  else if String.eqb name "rbx" then s rbx
  else if String.eqb name "rcx" then s rcx
  else if String.eqb name "rdx" then s rdx
  else if String.eqb name "rsi" then s rsi
  else if String.eqb name "rdi" then s rdi
  else if String.eqb name "rbp" then s rbp
  else if String.eqb name "rsp" then s rsp
  else if String.eqb name "rip" then s rip
  else if String.eqb name "r8" then s r8
  else if String.eqb name "r9" then s r9
  else if String.eqb name "r10" then s r10
  else if String.eqb name "r11" then s r11
  else if String.eqb name "r12" then s r12
  else if String.eqb name "r13" then s r13
  else if String.eqb name "r14" then s r14
  else if String.eqb name "r15" then s r15
  else if String.eqb name "eax" then get_eax s
  else if String.eqb name "ebx" then get_ebx s
  else if String.eqb name "ecx" then get_ecx s
  else if String.eqb name "edx" then get_edx s
  else if String.eqb name "esi" then get_esi s
  else if String.eqb name "edi" then get_edi s
  else if String.eqb name "ebp" then get_ebp s
  else if String.eqb name "esp" then get_esp s
  else if String.eqb name "eip" then get_eip s
  else if String.eqb name "r8d" then get_r8d s
  else if String.eqb name "r9d" then get_r9d s
  else if String.eqb name "r10d" then get_r10d s
  else if String.eqb name "r11d" then get_r11d s
  else if String.eqb name "r12d" then get_r12d s
  else if String.eqb name "r13d" then get_r13d s
  else if String.eqb name "r14d" then get_r14d s
  else if String.eqb name "r15d" then get_r15d s
  else if String.eqb name "ax" then get_ax s
  else if String.eqb name "bx" then get_bx s
  else if String.eqb name "cx" then get_cx s
  else if String.eqb name "dx" then get_dx s
  else if String.eqb name "si" then get_si s
  else if String.eqb name "di" then get_di s
  else if String.eqb name "bp" then get_bp s
  else if String.eqb name "sp" then get_sp s
  else if String.eqb name "r8w" then get_r8w s
  else if String.eqb name "r9w" then get_r9w s
  else if String.eqb name "r10w" then get_r10w s
  else if String.eqb name "r11w" then get_r11w s
  else if String.eqb name "r12w" then get_r12w s
  else if String.eqb name "r13w" then get_r13w s
  else if String.eqb name "r14w" then get_r14w s
  else if String.eqb name "r15w" then get_r15w s
  else if String.eqb name "ah" then get_ah s
  else if String.eqb name "al" then get_al s
  else if String.eqb name "bh" then get_bh s
  else if String.eqb name "bl" then get_bl s
  else if String.eqb name "ch" then get_ch s
  else if String.eqb name "cl" then get_cl s
  else if String.eqb name "dh" then get_dh s
  else if String.eqb name "dl" then get_dl s
  else if String.eqb name "r8l" then get_r8l s
  else if String.eqb name "r9l" then get_r9l s
  else if String.eqb name "r10l" then get_r10l s
  else if String.eqb name "r11l" then get_r11l s
  else if String.eqb name "r12l" then get_r12l s
  else if String.eqb name "r13l" then get_r13l s
  else if String.eqb name "r14l" then get_r14l s
  else if String.eqb name "r15l" then get_r15l s
  else if String.eqb name "sil" then get_sil s
  else if String.eqb name "dil" then get_dil s
  else if String.eqb name "bpl" then get_bpl s
  else if String.eqb name "spl" then get_spl s
  else 0.

(** [Regs64::set_by_name] *)
Definition set_by_name (name : string) (value : Z) (s : Regs64) : Regs64 :=
  if String.eqb name "rax" then upd rax value s
  else if String.eqb name "rbx" then upd rbx value s
  else if String.eqb name "rcx" then upd rcx value s
  else if String.eqb name "rdx" then upd rdx value s
  else if String.eqb name "rsi" then upd rsi value s
  else if String.eqb name "rdi" then upd rdi value s
  else if String.eqb name "rbp" then upd rbp value s
  else if String.eqb name "rsp" then upd rsp value s
  else if String.eqb name "rip" then upd rip value s
  else if String.eqb name "r8" then upd r8 value s
  else if String.eqb name "r9" then upd r9 value s
  else if String.eqb name "r10" then upd r10 value s
  else if String.eqb name "r11" then upd r11 value s
  else if String.eqb name "r12" then upd r12 value s
  else if String.eqb name "r13" then upd r13 value s
  else if String.eqb name "r14" then upd r14 value s
  else if String.eqb name "r15" then upd r15 value s
  else if String.eqb name "eax" then set_eax value s
  else if String.eqb name "ebx" then set_ebx value s
  else if String.eqb name "ecx" then set_ecx value s
  else if String.eqb name "edx" then set_edx value s
  else if String.eqb name "esi" then set_esi value s
  else if String.eqb name "edi" then set_edi value s
  else if String.eqb name "ebp" then set_ebp value s
  else if String.eqb name "esp" then set_esp value s
  else if String.eqb name "eip" then set_eip value s
  else if String.eqb name "r8d" then set_r8d value s
  else if String.eqb name "r9d" then set_r9d value s
  else if String.eqb name "r10d" then set_r10d value s
  else if String.eqb name "r11d" then set_r11d value s
  else if String.eqb name "r12d" then set_r12d value s
  else if String.eqb name "r13d" then set_r13d value s
  else if String.eqb name "r14d" then set_r14d value s
  else if String.eqb name "r15d" then set_r15d value s
  else if String.eqb name "ax" then set_ax value s
  else if String.eqb name "bx" then set_bx value s
  else if String.eqb name "cx" then set_cx value s
  else if String.eqb name "dx" then set_dx value s
  else if String.eqb name "di" then set_di value s
  else if String.eqb name "si" then set_si value s
  else if String.eqb name "bp" then set_bp value s
  else if String.eqb name "sp" then set_sp value s
  else if String.eqb name "r8w" then set_r8w value s
  else if String.eqb name "r9w" then set_r9w value s
  else if String.eqb name "r10w" then set_r10w value s
  else if String.eqb name "r11w" then set_r11w value s
  else if String.eqb name "r12w" then set_r12w value s
  else if String.eqb name "r13w" then set_r13w value s
  else if String.eqb name "r14w" then set_r14w value s
  else if String.eqb name "r15w" then set_r15w value s
  else if String.eqb name "ah" then set_ah value s
  else if String.eqb name "al" then set_al value s
  else if String.eqb name "bh" then set_bh value s
  else if String.eqb name "bl" then set_bl value s
  else if String.eqb name "ch" then set_ch value s
  else if String.eqb name "cl" then set_cl value s
  else if String.eqb name "dh" then set_dh value s
  else if String.eqb name "dl" then set_dl value s
  else if String.eqb name "r8l" then set_r8l value s
  else if String.eqb name "r9l" then set_r9l value s
  else if String.eqb name "r10l" then set_r10l value s
  else if String.eqb name "r11l" then set_r11l value s
  else if String.eqb name "r12l" then set_r12l value s
  else if String.eqb name "r13l" then set_r13l value s
  else if String.eqb name "r14l" then set_r14l value s
  else if String.eqb name "r15l" then set_r15l value s
  else if String.eqb name "sil" then set_sil value s
  else if String.eqb name "dil" then set_dil value s
  else if String.eqb name "bpl" then set_bpl value s
  else if String.eqb name "spl" then set_spl value s
  else s.

(** [Regs64::get_xmm_by_name] *)
Definition get_xmm_by_name (name : string) (s : Regs64) : Z :=
  if String.eqb name "xmm0" then s (xmm 0)
  else if String.eqb name "xmm1" then s (xmm 1)
  else if String.eqb name "xmm2" then s (xmm 2)
  else if String.eqb name "xmm3" then s (xmm 3)
  else if String.eqb name "xmm4" then s (xmm 4)
  else if String.eqb name "xmm5" then s (xmm 5)
  else if String.eqb name "xmm6" then s (xmm 6)
  else if String.eqb name "xmm7" then s (xmm 7)
  else if String.eqb name "xmm8" then s (xmm 8)
  else if String.eqb name "xmm9" then s (xmm 9)
  else if String.eqb name "xmm10" then s (xmm 10)
  else if String.eqb name "xmm11" then s (xmm 11)
  else if String.eqb name "xmm12" then s (xmm 12)
  else if String.eqb name "xmm13" then s (xmm 13)
  else if String.eqb name "xmm14" then s (xmm 14)
  else if String.eqb name "xmm15" then s (xmm 15)
  else 0.

(** [Regs64::set_xmm_by_name] *)
Definition set_xmm_by_name (name : string) (value : Z) (s : Regs64) : Regs64 :=
  if String.eqb name "xmm0" then upd (xmm 0) value s
  else if String.eqb name "xmm1" then upd (xmm 1) value s
  else if String.eqb name "xmm2" then upd (xmm 2) value s
  else if String.eqb name "xmm3" then upd (xmm 3) value s
  else if String.eqb name "xmm4" then upd (xmm 4) value s
  else if String.eqb name "xmm5" then upd (xmm 5) value s
  else if String.eqb name "xmm6" then upd (xmm 6) value s
  else if String.eqb name "xmm7" then upd (xmm 7) value s
  else if String.eqb name "xmm8" then upd (xmm 8) value s
  else if String.eqb name "xmm9" then upd (xmm 9) value s
  else if String.eqb name "xmm10" then upd (xmm 10) value s
  else if String.eqb name "xmm11" then upd (xmm 11) value s
  else if String.eqb name "xmm12" then upd (xmm 12) value s
  else if String.eqb name "xmm13" then upd (xmm 13) value s
  else if String.eqb name "xmm14" then upd (xmm 14) value s
  else if String.eqb name "xmm15" then upd (xmm 15) value s
  else s.

(** [Regs64::get_ymm_by_name] *)
Definition get_ymm_by_name (name : string) (s : Regs64) : Z :=
  if String.eqb name "ymm0" then s (ymm 0)
  else if String.eqb name "ymm1" then s (ymm 1)
  else if String.eqb name "ymm2" then s (ymm 2)
  else if String.eqb name "ymm3" then s (ymm 3)
  else if String.eqb name "ymm4" then s (ymm 4)
  else if String.eqb name "ymm5" then s (ymm 5)
  else if String.eqb name "ymm6" then s (ymm 6)
  else if String.eqb name "ymm7" then s (ymm 7)
  else if String.eqb name "ymm8" then s (ymm 8)
  else if String.eqb name "ymm9" then s (ymm 9)
  else if String.eqb name "ymm10" then s (ymm 10)
  else if String.eqb name "ymm11" then s (ymm 11)
  else if String.eqb name "ymm12" then s (ymm 12)
  else if String.eqb name "ymm13" then s (ymm 13)
  else if String.eqb name "ymm14" then s (ymm 14)
  else if String.eqb name "ymm15" then s (ymm 15)
  else 0.

(** [Regs64::set_ymm_by_name] *)
Definition set_ymm_by_name (name : string) (value : Z) (s : Regs64) : Regs64 :=
  if String.eqb name "ymm0" then upd (ymm 0) value s
  else if String.eqb name "ymm1" then upd (ymm 1) value s
  else if String.eqb name "ymm2" then upd (ymm 2) value s
  else if String.eqb name "ymm3" then upd (ymm 3) value s
  else if String.eqb name "ymm4" then upd (ymm 4) value s
  else if String.eqb name "ymm5" then upd (ymm 5) value s
  else if String.eqb name "ymm6" then upd (ymm 6) value s
  else if String.eqb name "ymm7" then upd (ymm 7) value s
  else if String.eqb name "ymm8" then upd (ymm 8) value s
  else if String.eqb name "ymm9" then upd (ymm 9) value s
  else if String.eqb name "ymm10" then upd (ymm 10) value s
  else if String.eqb name "ymm11" then upd (ymm 11) value s
  else if String.eqb name "ymm12" then upd (ymm 12) value s
  else if String.eqb name "ymm13" then upd (ymm 13) value s
  else if String.eqb name "ymm14" then upd (ymm 14) value s
  else if String.eqb name "ymm15" then upd (ymm 15) value s
  else s.

(** [Regs64::set_reg_by_name] *)
Definition set_reg_by_name (name : string) (value : Z) (s : Regs64) : Regs64 :=
  let reg :=
    if String.eqb name "rax" then Some RAX
    else if String.eqb name "rbx" then Some RBX
    else if String.eqb name "rcx" then Some RCX
    else if String.eqb name "rdx" then Some RDX
    else if String.eqb name "rsp" then Some RSP
    else if String.eqb name "rbp" then Some RBP
    else if String.eqb name "rsi" then Some RSI
    else if String.eqb name "rdi" then Some RDI
    else if String.eqb name "r8" then Some R8
    else if String.eqb name "r9" then Some R9
    else if String.eqb name "r10" then Some R10
    else if String.eqb name "r11" then Some R11
    else if String.eqb name "r12" then Some R12
    else if String.eqb name "r13" then Some R13
    else if String.eqb name "r14" then Some R14
    else if String.eqb name "r15" then Some R15
    else if String.eqb name "rip" then Some RIP
    else None in
  match reg with None => s | Some reg => set_reg reg value s end.

(** [Regs64::is_xmm_by_name] *)
Definition is_xmm_by_name (name : string) : bool :=
  existsb (String.eqb name)
    ["xmm0"; "xmm1"; "xmm2"; "xmm3"; "xmm4"; "xmm5"; "xmm6"; "xmm7"; "xmm8";
     "xmm9"; "xmm10"; "xmm11"; "xmm12"; "xmm13"; "xmm14"; "xmm15"].

(** [Regs64::is_ymm_by_name] *)
Definition is_ymm_by_name (name : string) : bool :=
  existsb (String.eqb name)
    ["ymm0"; "ymm1"; "ymm2"; "ymm3"; "ymm4"; "ymm5"; "ymm6"; "ymm7"; "ymm8";
     "ymm9"; "ymm10"; "ymm11"; "ymm12"; "ymm13"; "ymm14"; "ymm15"].

(** [Regs64::is_reg] *)
Definition is_reg (name : string) : bool :=
  existsb (String.eqb name)
    ["rax"; "rbx"; "rcx"; "rdx"; "rsi"; "rdi"; "rbp"; "rsp"; "rip";
     "r8"; "r9"; "r10"; "r11"; "r12"; "r13"; "r14"; "r15"; "eax";
     "ebx"; "ecx"; "edx"; "esi"; "edi"; "esp"; "ebp"; "eip"; "r8d";
     "r9d"; "r10d"; "r11d"; "r12d"; "r13d"; "r14d"; "r15d"; "ax"; "bx";
     "cx"; "dx"; "bp"; "sp"; "r8w"; "r9w"; "r10w"; "r11w"; "r12w";
     "r13w"; "r14w"; "r15w"; "si"; "di"; "al"; "ah"; "bl"; "bh";
     "cl"; "ch"; "dl"; "dh"; "r8l"; "r9l"; "r10l"; "r11l"; "r12l";
     "r13l"; "r14l"; "r15l"; "sil"; "dil"; "bpl"; "spl"].

(** ** Register views

    The general-purpose registers are views of bit ranges of the 64-bit fields:
    the field, the lowest bit and the width. *)
Definition view (reg : Register) : option (Field * Z * Z) :=
  match reg with
  | RAX => Some (rax, 0, 64)
  | RBX => Some (rbx, 0, 64)
  | RCX => Some (rcx, 0, 64)
  | RDX => Some (rdx, 0, 64)
  | RSI => Some (rsi, 0, 64)
  | RDI => Some (rdi, 0, 64)
  | RSP => Some (rsp, 0, 64)
  | RBP => Some (rbp, 0, 64)
  | RIP => Some (rip, 0, 64)
  | R8 => Some (r8, 0, 64)
  | R9 => Some (r9, 0, 64)
  | R10 => Some (r10, 0, 64)
  | R11 => Some (r11, 0, 64)
  | R12 => Some (r12, 0, 64)
  | R13 => Some (r13, 0, 64)
  | R14 => Some (r14, 0, 64)
  | R15 => Some (r15, 0, 64)
  | EAX => Some (rax, 0, 32)
  | EBX => Some (rbx, 0, 32)
  | ECX => Some (rcx, 0, 32)
  | EDX => Some (rdx, 0, 32)
  | ESI => Some (rsi, 0, 32)
  | EDI => Some (rdi, 0, 32)
  | ESP => Some (rsp, 0, 32)
  | EBP => Some (rbp, 0, 32)
  | EIP => Some (rip, 0, 32)
  | R8D => Some (r8, 0, 32)
  | R9D => Some (r9, 0, 32)
  | R10D => Some (r10, 0, 32)
  | R11D => Some (r11, 0, 32)
  | R12D => Some (r12, 0, 32)
  | R13D => Some (r13, 0, 32)
  | R14D => Some (r14, 0, 32)
  | R15D => Some (r15, 0, 32)
  | AX => Some (rax, 0, 16)
  | BX => Some (rbx, 0, 16)
  | CX => Some (rcx, 0, 16)
  | DX => Some (rdx, 0, 16)
  | SI => Some (rsi, 0, 16)
  | DI => Some (rdi, 0, 16)
  | SP => Some (rsp, 0, 16)
  | BP => Some (rbp, 0, 16)
  | R8W => Some (r8, 0, 16)
  | R9W => Some (r9, 0, 16)
  | R10W => Some (r10, 0, 16)
  | R11W => Some (r11, 0, 16)
  | R12W => Some (r12, 0, 16)
  | R13W => Some (r13, 0, 16)
  | R14W => Some (r14, 0, 16)
  | R15W => Some (r15, 0, 16)
  | AL => Some (rax, 0, 8)
  | AH => Some (rax, 8, 8)
  | BL => Some (rbx, 0, 8)
  | BH => Some (rbx, 8, 8)
  | CL => Some (rcx, 0, 8)
  | CH => Some (rcx, 8, 8)
  | DL => Some (rdx, 0, 8)
  | DH => Some (rdx, 8, 8)
  | R8L => Some (r8, 0, 8)
  | R9L => Some (r9, 0, 8)
  | R10L => Some (r10, 0, 8)
  | R11L => Some (r11, 0, 8)
  | R12L => Some (r12, 0, 8)
  | R13L => Some (r13, 0, 8)
  | R14L => Some (r14, 0, 8)
  | R15L => Some (r15, 0, 8)
  | SIL => Some (rsi, 0, 8)
  | DIL => Some (rdi, 0, 8)
  | BPL => Some (rbp, 0, 8)
  | SPL => Some (rsp, 0, 8)
  | _ => None
  end.

(** The names of the general-purpose registers. *)
Definition NAMES : list (string * Register) :=
  [("rax", RAX); ("rbx", RBX); ("rcx", RCX); ("rdx", RDX); ("rsi", RSI); ("rdi", RDI);
   ("rsp", RSP); ("rbp", RBP); ("rip", RIP); ("r8", R8); ("r9", R9); ("r10", R10);
   ("r11", R11); ("r12", R12); ("r13", R13); ("r14", R14); ("r15", R15); ("eax", EAX);
   ("ebx", EBX); ("ecx", ECX); ("edx", EDX); ("esi", ESI); ("edi", EDI); ("esp", ESP);
   ("ebp", EBP); ("eip", EIP); ("r8d", R8D); ("r9d", R9D); ("r10d", R10D); ("r11d", R11D);
   ("r12d", R12D); ("r13d", R13D); ("r14d", R14D); ("r15d", R15D); ("ax", AX); ("bx", BX);
   ("cx", CX); ("dx", DX); ("si", SI); ("di", DI); ("sp", SP); ("bp", BP);
   ("r8w", R8W); ("r9w", R9W); ("r10w", R10W); ("r11w", R11W); ("r12w", R12W); ("r13w", R13W);
   ("r14w", R14W); ("r15w", R15W); ("al", AL); ("ah", AH); ("bl", BL); ("bh", BH);
   ("cl", CL); ("ch", CH); ("dl", DL); ("dh", DH); ("r8l", R8L); ("r9l", R9L);
   ("r10l", R10L); ("r11l", R11L); ("r12l", R12L); ("r13l", R13L); ("r14l", R14L); ("r15l", R15L);
   ("sil", SIL); ("dil", DIL); ("bpl", BPL); ("spl", SPL)].

(** All fields of the 64-bit kind hold 64-bit words. *)
Definition words (s : Regs64) : Prop :=
  forall f, match f with xmm _ | mm _ => is_word 128 (s f) | ymm _ => is_word 256 (s f) | _ => is_word 64 (s f) end.

(** What a write of [v] to bits [lo, lo + w) of [old] leaves: a 32-bit write
    clears the upper half, narrower writes keep the other bits. *)
Definition merged (lo w old v new : Z) : Prop :=
  is_word 64 new /\
  forall i, 0 <= i < 64 ->
    Z.testbit new i = if (lo <=? i) && (i <? lo + w) then Z.testbit v (i - lo)
                      else if w =? 32 then false else Z.testbit old i.

Lemma add_disjoint a b : Z.land a b = 0 -> is_word 64 a -> is_word 64 b -> wadd a b = Z.lor a b.
Proof.
  intros D Ha Hb. unfold wadd. rewrite Z.add_nocarry_lxor, Z.lxor_lor by exact D.
  apply wrap_small. apply word_lor; auto; lia.
Qed.

(** The constant masks of the macros, as bit ranges. *)
Lemma masks :
  0xffffffffffff0000 = Z.shiftl (Z.ones 48) 16 /\ 0xffffffffffffff00 = Z.shiftl (Z.ones 56) 8
  /\ 0xffffffffffff00ff = Z.lor (Z.shiftl (Z.ones 48) 16) (Z.ones 8)
  /\ 0xff00 = Z.shiftl (Z.ones 8) 8.
Proof. repeat split. Qed.

Lemma word_ones w n : 0 <= n <= w -> is_word w (Z.ones n).
Proof. intros. unfold is_word. rewrite Z.ones_equiv. pose proof (Z.pow_le_mono_r 2 n w). lia. Qed.

Ltac bit_steps :=
  repeat (progress (autorewrite with mw_bits; split_ltb));
  repeat match goal with |- context [Z.testbit ?x ?j] => rewrite (Z.testbit_neg_r x j) by lia end;
  try (exfalso; lia); rewrite ?Z.testbit_ones_nonneg by lia; split_ltb; try (exfalso; lia);
  rewrite ?andb_true_r, ?andb_false_r, ?orb_false_r, ?orb_false_l, ?andb_true_l, ?andb_false_l;
  first [ reflexivity | f_equal; lia | idtac ].

Ltac bit_cases := intros i Hi; bit_steps.

Lemma set_reg64_merged old v : is_word 64 v -> merged 0 64 old v v.
Proof. intros. split; [auto |]. bit_cases. Qed.

Lemma set_reg32_merged old v : is_word 64 v -> merged 0 32 old v (set_reg32 old v).
Proof.
  intros Hv. unfold set_reg32. change 0xffffffff with (Z.ones 32).
  split; [apply word_land; auto; lia |]. bit_cases.
Qed.

Lemma set_reg16_merged old v : is_word 64 old -> is_word 64 v -> merged 0 16 old v (set_reg16 old v).
Proof.
  intros Ho Hv. unfold set_reg16. rewrite (proj1 masks). change 0xffff with (Z.ones 16).
  rewrite add_disjoint; [| | apply word_land; auto; lia | apply word_land; auto; lia].
  - split; [apply word_lor; try apply word_land; auto; lia |]. bit_cases.
  - apply Z.bits_inj'. bit_cases; try btauto.
Qed.

Lemma set_reg8l_merged old v : is_word 64 old -> is_word 64 v -> merged 0 8 old v (set_reg8l old v).
Proof.
  intros Ho Hv. unfold set_reg8l. rewrite (proj1 (proj2 masks)). change 0xff with (Z.ones 8).
  rewrite add_disjoint; [| | apply word_land; auto; lia | apply word_land; auto; lia].
  - split; [apply word_lor; try apply word_land; auto; lia |]. bit_cases.
  - apply Z.bits_inj'. bit_cases; try btauto.
Qed.

Lemma set_reg8h_merged old v : is_word 64 old -> is_word 64 v -> merged 8 8 old v (set_reg8h old v).
Proof.
  intros Ho Hv. unfold set_reg8h. rewrite (proj1 (proj2 (proj2 masks))). change 0xff with (Z.ones 8).
  rewrite add_disjoint; [| | apply word_land; auto; lia | apply wrap_word; lia].
  - split; [apply word_lor; [apply word_land; auto; lia | apply wrap_word; lia | lia] |]. bit_cases.
  - apply Z.bits_inj'. intros i Hi. destruct (Z.lt_ge_cases i 16), (Z.lt_ge_cases i 8); bit_steps; btauto.
Qed.

(** ** The views read and write their bit ranges *)

Lemma upd_same f v s : upd f v s f = v.
Proof. unfold upd. now rewrite decide_True. Qed.

Lemma upd_other f v s g : g <> f -> upd f v s g = s g.
Proof. intros. unfold upd. now rewrite decide_False. Qed.

Lemma words_field reg f lo w s : view reg = Some (f, lo, w) -> words s -> is_word 64 (s f).
Proof. intros Hv Hs. specialize (Hs f). destruct reg; try discriminate Hv; injection Hv as <- <- <-; exact Hs. Qed.

Lemma view_shape reg f lo w :
  view reg = Some (f, lo, w) ->
  get_size reg = w /\ ((lo = 0 /\ (w = 8 \/ w = 16 \/ w = 32 \/ w = 64)) \/ (lo = 8 /\ w = 8)).
Proof. intros Hv. destruct reg; try discriminate Hv; injection Hv as <- <- <-; split; reflexivity || lia. Qed.

Lemma get_reg_view reg f lo w s :
  view reg = Some (f, lo, w) -> words s -> get_reg reg s = wrap w (Z.shiftr (s f) lo).
Proof.
  intros Hv Hs. pose proof (words_field _ _ _ _ _ Hv Hs) as Hf.
  assert (get_reg reg s
          = if w =? 64 then s f else if w =? 32 then get_reg32l (s f) else if w =? 16 then get_reg16 (s f)
            else if lo =? 0 then get_reg8l (s f) else get_reg8h (s f)) as ->
    by (destruct reg; try discriminate Hv; injection Hv as <- <- <-; reflexivity).
  destruct (view_shape _ _ _ _ Hv) as [_ [[-> [-> | [-> | [-> | ->]]]] | [-> ->]]]; cbn [Z.eqb Pos.eqb];
    rewrite ?Z.shiftr_0_r.
  - now apply (Z.land_ones _ 8).
  - now apply (Z.land_ones _ 16).
  - now apply (Z.land_ones _ 32).
  - symmetry. now apply wrap_small.
  - unfold get_reg8h. rewrite (proj2 (proj2 (proj2 masks))). apply Z.bits_inj'. bit_cases.
Qed.

Lemma set_reg_view reg f lo w v s :
  view reg = Some (f, lo, w) -> words s -> is_word 64 v ->
  exists x, (forall g, set_reg reg v s g = upd f x s g) /\ merged lo w (s f) v x.
Proof.
  intros Hv Hs Hw. pose proof (words_field _ _ _ _ _ Hv Hs) as Hf.
  exists (if w =? 64 then v else if w =? 32 then set_reg32 (s f) v else if w =? 16 then set_reg16 (s f) v
          else if lo =? 0 then set_reg8l (s f) v else set_reg8h (s f) v).
  split; [destruct reg; try discriminate Hv; injection Hv as <- <- <-; reflexivity |].
  destruct (view_shape _ _ _ _ Hv) as [_ [[-> [-> | [-> | [-> | ->]]]] | [-> ->]]]; cbn [Z.eqb Pos.eqb];
    auto using set_reg64_merged, set_reg32_merged, set_reg16_merged, set_reg8l_merged, set_reg8h_merged.
Qed.

Lemma set_words reg f lo w v s :
  view reg = Some (f, lo, w) -> words s -> is_word 64 v -> words (set_reg reg v s).
Proof.
  intros Hv Hs Hw g. destruct (set_reg_view _ _ _ _ _ _ Hv Hs Hw) as (x & Ex & Hm). rewrite Ex.
  destruct (decide (g = f)) as [-> | Hg].
  - rewrite upd_same. destruct reg; try discriminate Hv; injection Hv as <- <- <-; apply Hm.
  - rewrite upd_other by exact Hg. apply Hs.
Qed.

(** A write to a general-purpose register name changes exactly its bit range of the
    64-bit field it is a view of: 8- and 16-bit writes keep the other bits, a 32-bit
    write clears the upper half, no other field changes and all fields stay in
    range. *)
Theorem set_reg_correct reg f lo w v s :
  view reg = Some (f, lo, w) -> words s -> is_word 64 v ->
  merged lo w (s f) v (set_reg reg v s f)
  /\ (forall g, g <> f -> set_reg reg v s g = s g)
  /\ words (set_reg reg v s).
Proof.
  intros Hv Hs Hw. destruct (set_reg_view _ _ _ _ _ _ Hv Hs Hw) as (x & Ex & Hm).
  rewrite Ex, upd_same. split; [exact Hm |]. split; [intros; rewrite Ex; now apply upd_other |].
  now apply (set_words _ f lo w).
Qed.

Lemma get_after_set reg f lo w v s :
  view reg = Some (f, lo, w) -> words s -> is_word 64 v -> get_reg reg (set_reg reg v s) = wrap (get_size reg) v.
Proof.
  intros Hv Hs Hw. pose proof (set_words _ _ _ _ _ _ Hv Hs Hw) as Hs'.
  rewrite (get_reg_view _ _ _ _ _ Hv Hs').
  destruct (set_reg_view _ _ _ _ _ _ Hv Hs Hw) as (x & Ex & Hx & Hbits). rewrite Ex, upd_same.
  destruct (view_shape _ _ _ _ Hv) as [-> Hsh].
  apply (word_ext w); [apply wrap_word; lia | apply wrap_word; lia | lia |]. intros i Hi.
  rewrite !testbit_wrap, Z.shiftr_spec, Hbits by lia.
  replace (i + lo - lo) with i by lia.
  split_ltb; cbn [andb]; reflexivity || lia.
Qed.

(** Reading a general-purpose register name after writing it gives the value
    truncated to the size that get_size reports for it. *)
Theorem get_set_reg reg f lo w v s :
  view reg = Some (f, lo, w) -> words s -> is_word 64 v -> get_reg reg (set_reg reg v s) = wrap (get_size reg) v.
Proof. apply get_after_set. Qed.

(** A write to one register name does not change what a disjoint one reads, be it
    another field or another bit range of the same field (AH and AL), except that a
    32-bit write clears the bits above it. *)
Theorem set_reg_independent reg f lo w reg' f' lo' w' v s :
  view reg = Some (f, lo, w) -> view reg' = Some (f', lo', w') -> words s -> is_word 64 v ->
  f' <> f \/ lo' + w' <= lo \/ (lo + w <= lo' /\ w <> 32) ->
  get_reg reg' (set_reg reg v s) = get_reg reg' s.
Proof.
  intros Hv Hv' Hs Hw Hd. pose proof (set_words _ _ _ _ _ _ Hv Hs Hw) as Hs'.
  rewrite (get_reg_view _ _ _ _ _ Hv' Hs'), (get_reg_view _ _ _ _ _ Hv' Hs).
  destruct (set_reg_view _ _ _ _ _ _ Hv Hs Hw) as (x & Ex & Hx & Hbits). rewrite Ex.
  destruct (decide (f' = f)) as [-> | Hf]; [|now rewrite upd_other by exact Hf].
  rewrite upd_same. destruct (view_shape _ _ _ _ Hv) as [_ Hsh], (view_shape _ _ _ _ Hv') as [_ Hsh'].
  apply (word_ext w'); [apply wrap_word; lia | apply wrap_word; lia | lia |]. intros i Hi.
  rewrite !testbit_wrap, !Z.shiftr_spec, Hbits by lia.
  destruct Hd as [? | [? | [? ?]]]; [congruence | |]; split_ltb; cbn [andb]; try reflexivity; lia.
Qed.

Lemma existsb_member (name : string) l : existsb (String.eqb name) l = bool_decide (name ∈ l).
Proof.
  apply eq_true_iff_eq. rewrite existsb_exists, bool_decide_eq_true. split.
  - intros (x & Hx & ->%String.eqb_eq). now apply list_elem_of_In.
  - intros Hin. exists name. split; [now apply list_elem_of_In | apply String.eqb_refl].
Qed.

(** [is_reg] knows exactly the names of [NAMES], and access by name is access by
    register. *)
Theorem by_name_agrees name :
  (is_reg name = bool_decide (name ∈ NAMES.*1))
  /\ (forall reg, (name, reg) ∈ NAMES -> forall v s,
        get_by_name name s = get_reg reg s /\ set_by_name name v s = set_reg reg v s).
Proof.
  split.
  - unfold is_reg. rewrite existsb_member. apply bool_decide_ext.
    split; intros Hin; revert name Hin; apply Forall_forall, (bool_decide_unpack _); vm_compute; exact I.
  - intros reg Hin v s. unfold NAMES in Hin.
    repeat (apply elem_of_cons in Hin as [[= -> ->] | Hin]; [split; reflexivity |]).
    now apply not_elem_of_nil in Hin.
Qed.

(** ** XMM and YMM aliasing *)

(** The vector fields of a register name: [XMMn] and [YMMn]. *)
Definition xmm_index (reg : Register) : option nat :=
  match reg with
  | XMM0 => Some 0%nat | XMM1 => Some 1%nat | XMM2 => Some 2%nat | XMM3 => Some 3%nat
  | XMM4 => Some 4%nat | XMM5 => Some 5%nat | XMM6 => Some 6%nat | XMM7 => Some 7%nat
  | XMM8 => Some 8%nat | XMM9 => Some 9%nat | XMM10 => Some 10%nat | XMM11 => Some 11%nat
  | XMM12 => Some 12%nat | XMM13 => Some 13%nat | XMM14 => Some 14%nat | XMM15 => Some 15%nat
  | _ => None
  end.

Definition ymm_index (reg : Register) : option nat :=
  match reg with
  | YMM0 => Some 0%nat | YMM1 => Some 1%nat | YMM2 => Some 2%nat | YMM3 => Some 3%nat
  | YMM4 => Some 4%nat | YMM5 => Some 5%nat | YMM6 => Some 6%nat | YMM7 => Some 7%nat
  | YMM8 => Some 8%nat | YMM9 => Some 9%nat | YMM10 => Some 10%nat | YMM11 => Some 11%nat
  | YMM12 => Some 12%nat | YMM13 => Some 13%nat | YMM14 => Some 14%nat | YMM15 => Some 15%nat
  | _ => None
  end.

(** Every XMM register is the low half of its YMM register. *)
Definition aliased (s : Regs64) : Prop := forall i, s (xmm i) = wrap 128 (s (ymm i)).

Lemma two_limbs v : wrap 64 v + wrap 64 (Z.shiftr v 64) * 2 ^ 64 = wrap 128 v.
Proof.
  unfold wrap. rewrite Z.shiftr_div_pow2 by lia. change (2 ^ 128) with (2 ^ 64 * 2 ^ 64).
  rewrite Z.rem_mul_r by lia. lia.
Qed.

Lemma set_limbs_parts v y :
  is_word 128 v -> let y' := set_limbs (wrap 64 v) (wrap 64 (Z.shiftr v 64)) y in
  wrap 128 y' = v /\ y' / 2 ^ 128 = y / 2 ^ 128.
Proof.
  intros Hv. unfold set_limbs. cbn zeta. rewrite two_limbs, (wrap_small 128 v) by exact Hv.
  unfold is_word in Hv. unfold wrap. split.
  - rewrite Z.mod_add by lia. now apply Z.mod_small.
  - rewrite Z.div_add by lia. rewrite (Z.div_small v) by lia. lia.
Qed.

Lemma lor_limbs v : Z.lor (shl 128 (wrap 64 (Z.shiftr v 64)) 64) (wrap 64 v) = wrap 128 v.
Proof.
  unfold shl. rewrite wrap_small.
  - rewrite <- two_limbs, <- Z.lxor_lor, <- Z.add_nocarry_lxor.
    + rewrite Z.shiftl_mul_pow2 by lia. lia.
    + apply Z.bits_inj'. bit_cases.
    + apply Z.bits_inj'. bit_cases.
  - rewrite Z.shiftl_mul_pow2 by lia. pose proof (wrap_word 64 (Z.shiftr v 64) ltac:(lia)).
    unfold is_word in *. change (2 ^ 128) with (2 ^ 64 * 2 ^ 64). nia.
Qed.

Lemma set_xmm_reg_index reg i v s :
  xmm_index reg = Some i ->
  get_xmm_reg reg s = s (xmm i)
  /\ set_xmm_reg reg v s
     = upd (ymm i) (set_limbs (wrap 64 v) (wrap 64 (Z.shiftr v 64)) (s (ymm i))) (upd (xmm i) v s).
Proof. intros Hi. destruct reg; try discriminate Hi; injection Hi as <-; split; reflexivity. Qed.

Lemma set_ymm_reg_index reg i v s :
  ymm_index reg = Some i ->
  get_ymm_reg reg s = s (ymm i)
  /\ set_ymm_reg reg v s
     = upd (xmm i) (Z.lor (shl 128 (wrap 64 (Z.shiftr v 64)) 64) (wrap 64 v)) (upd (ymm i) v s).
Proof. intros Hi. destruct reg; try discriminate Hi; injection Hi as <-; split; reflexivity. Qed.

(** Writing an XMM register keeps every XMM register equal to the low half of its
    YMM register, keeps the upper half of the YMM register, can be read back and
    changes no other field. *)
Theorem set_xmm_reg_aliased reg i v s :
  xmm_index reg = Some i -> is_word 128 v -> aliased s ->
  let s' := set_xmm_reg reg v s in
  aliased s' /\ get_xmm_reg reg s' = v /\ s' (ymm i) / 2 ^ 128 = s (ymm i) / 2 ^ 128
  /\ (forall f, f <> xmm i -> f <> ymm i -> s' f = s f).
Proof.
  intros Hi Hv Ha s'. destruct (set_limbs_parts v (s (ymm i)) Hv) as [Hlo Hhi]. subst s'.
  rewrite (proj1 (set_xmm_reg_index reg i v _ Hi)), (proj2 (set_xmm_reg_index reg i v s Hi)).
  rewrite upd_other, !upd_same by discriminate.
  split; [| split; [reflexivity | split; [exact Hhi | intros; now rewrite !upd_other]]].
  intros j. destruct (decide (j = i)) as [-> | Hj].
  - now rewrite upd_other, !upd_same by discriminate.
  - rewrite !upd_other by congruence. apply Ha.
Qed.

(** Writing a YMM register keeps every XMM register equal to the low half of its YMM
    register, can be read back and changes no other field. *)
Theorem set_ymm_reg_aliased reg i v s :
  ymm_index reg = Some i -> is_word 256 v -> aliased s ->
  let s' := set_ymm_reg reg v s in
  aliased s' /\ get_ymm_reg reg s' = v /\ s' (xmm i) = wrap 128 v
  /\ (forall f, f <> xmm i -> f <> ymm i -> s' f = s f).
Proof.
  intros Hi Hv Ha s'. subst s'.
  rewrite (proj1 (set_ymm_reg_index reg i v _ Hi)), (proj2 (set_ymm_reg_index reg i v s Hi)).
  rewrite lor_limbs, upd_other, !upd_same by discriminate.
  split; [| split; [reflexivity | split; [reflexivity | intros; now rewrite !upd_other]]].
  intros j. destruct (decide (j = i)) as [-> | Hj].
  - rewrite upd_same, upd_other, upd_same by discriminate. reflexivity.
  - rewrite !upd_other by congruence. apply Ha.
Qed.

(** Unlike [set_xmm_reg] and [set_ymm_reg], the setters by name do not keep the XMM
    and YMM registers aliased. *)
Theorem by_name_breaks_alias :
  exists s, aliased s
    /\ ~ aliased (set_xmm_by_name "xmm0" 1 s) /\ ~ aliased (set_ymm_by_name "ymm0" 1 s).
Proof.
  exists (fun _ => 0). split; [intros i; reflexivity |].
  split; intros H; specialize (H 0%nat); vm_compute in H; discriminate H.
Qed.

(** ** The theorems at concrete registers *)

Definition zeros : Regs64 := fun _ => 0.

Lemma zeros_words : words zeros.
Proof. intros []; split; reflexivity || discriminate. Qed.

Lemma set_reg_correct_witness : merged 8 8 0 0xab (set_reg AH 0xab zeros rax) /\ set_reg AH 0xab zeros rbx = 0.
Proof.
  destruct (set_reg_correct AH rax 8 8 0xab zeros eq_refl zeros_words ltac:(split; lia)) as (Hm & Ho & _).
  split; [exact Hm | exact (Ho rbx ltac:(discriminate))].
Defined.

Lemma get_set_reg_witness : get_reg AH (set_reg AH 0xcafe zeros) = 0xfe.
Proof. rewrite (get_set_reg AH rax 8 8 0xcafe zeros eq_refl zeros_words ltac:(split; lia)). reflexivity. Defined.

Lemma set_reg_independent_witness : get_reg AL (set_reg AH 0xab zeros) = get_reg AL zeros.
Proof.
  apply (set_reg_independent AH rax 8 8 AL rax 0 8 0xab zeros eq_refl eq_refl zeros_words ltac:(split; lia)). lia.
Defined.

Lemma set_xmm_reg_aliased_witness : aliased (set_xmm_reg XMM3 (2 ^ 127 + 5) zeros).
Proof.
  destruct (set_xmm_reg_aliased XMM3 3 (2 ^ 127 + 5) zeros eq_refl) as [Ha _];
    [split; vm_compute; [discriminate | reflexivity] | intros i; reflexivity | exact Ha].
Defined.

Lemma set_ymm_reg_aliased_witness : aliased (set_ymm_reg YMM3 (2 ^ 255 + 5) zeros).
Proof.
  destruct (set_ymm_reg_aliased YMM3 3 (2 ^ 255 + 5) zeros eq_refl) as [Ha _];
    [split; vm_compute; [discriminate | reflexivity] | intros i; reflexivity | exact Ha].
Defined.
