(* ===== verification/Emu.v ===== *)
(** * The emulator state that instructions see ([emu/])

    The part of [struct Emu] that operand access, the stack and the integer
    instructions read and write, for an x86 thread.  The rest of the emulator
    (loaded images, threads, the emulated system) is one abstract component.
    What these operations call outside the modelled parts, user hooks, the
    exception dispatcher, the console, the kernel guard, the x87 unit and the
    control transfers that may enter an emulated API, is the interface
    [Environment]; [Iced] is the part of the third-party decoder's
    [Register] that the instructions query. *)

From stdpp Require Import gmap strings.
From S2P Require Import Prelude Flags Scalar Mem64 Slab Tlb Maps Regs.

(** ** Data *)

(** [os]: what the guest runs on. *)
Inductive Os := Windows | Linux | MacOs.

Definition is_linux (o : Os) : bool := match o with Linux => true | _ => false end.

#[export] Instance Register_eq_dec : EqDecision Register.
Proof. solve_decision. Defined.

(** The settings of [Config] that the operations consult. *)
Record Config := mkConfig {
  is_x64 : bool;
  trace_mem : bool;
  soft_exception_recovery : bool;
  skip_unimplemented : bool }.

(** [struct MemoryOperation] *)
Record MemoryOperation := mkMemoryOperation {
  mo_pos : Z; mo_rip : Z; mo_op : string; mo_bits : Z; mo_address : Z;
  mo_old_value : Z; mo_new_value : Z; mo_name : string }.

(** [enum ExceptionType] *)
Inductive ExceptionType :=
  | Int3 | Div0 | SignChangeOnDivision | PopfCannotReadStack | WritingWord | SettingRipToNonMappedAddr
  | QWordDereferencing | DWordDereferencing | WordDereferencing | ByteDereferencing
  | BadAddressDereferencing | SettingXmmOperand | ReadingXmmOperand | HeapNoMemory | IllegalInstruction.

Record Emu (S W : Type) := mkEmu {
  regs : Regs64;
  flags : Flags;
  emaps : Maps S;
  cfg : Config;
  os : Os;
  has_kernel : bool;
  kernel_guard : bool;
  fs_store : gmap Z Z;
  seh : Z;
  pos : Z;
  bp_mem_read : gset Z;
  bp_mem_write : gset Z;
  running_script : bool;
  force_break : bool;
  break_on_next_cmp : bool;
  process_terminated : bool;
  is_running : Z;
  memory_operations : list MemoryOperation;
  world : W }.
Arguments mkEmu {S W}.
Arguments regs {S W}. Arguments flags {S W}. Arguments emaps {S W}. Arguments cfg {S W}.
Arguments os {S W}. Arguments has_kernel {S W}. Arguments kernel_guard {S W}.
Arguments fs_store {S W}. Arguments seh {S W}. Arguments pos {S W}.
Arguments bp_mem_read {S W}. Arguments bp_mem_write {S W}. Arguments running_script {S W}.
Arguments force_break {S W}. Arguments break_on_next_cmp {S W}.
Arguments process_terminated {S W}. Arguments is_running {S W}.
Arguments memory_operations {S W}. Arguments world {S W}.

(** ** What lies outside *)

(** A hook, once registered, stays: the code takes it out of its slot for the
    call and puts it back. *)
Class Environment (S W : Type) := {
  hook_on_memory_read : option (Z -> Z -> Z -> Emu S W -> Emu S W);
  hook_on_memory_write : option (Z -> Z -> Z -> Z -> Emu S W -> Z * Emu S W);
  exception : ExceptionType -> Emu S W -> Emu S W;
  kernel_guard_access : Z -> Z -> Z -> bool -> Emu S W -> Emu S W;
  spawn_console : Emu S W -> Emu S W;
  set_streg : Register -> Z -> Emu S W -> Emu S W;
  set_rip_with_check : Z -> bool -> Emu S W -> outcome (bool * Emu S W);
  set_eip_emu : Z -> bool -> Emu S W -> outcome (bool * Emu S W)
}.

(** [Register::size] (in bytes) and [Register::is_gpr64] of iced_x86. *)
Class Iced := {
  register_size : Register -> Z;
  is_gpr64 : Register -> bool
}.

(** Their documented values on the registers that are views of a 64-bit field. *)
Class IcedLaws `{Iced} : Prop := {
  register_size_view r f lo w : view r = Some (f, lo, w) -> register_size r = w / 8;
  is_gpr64_view r f lo w : view r = Some (f, lo, w) -> r <> RIP -> r <> EIP -> is_gpr64 r = (w =? 64)
}.

(** ** Field updates *)

Section State.
Context {S W : Type}.
Implicit Types (e : Emu S W).

Definition set_regs (v : Regs64) e : Emu S W :=
  mkEmu v (flags e) (emaps e) (cfg e) (os e) (has_kernel e) (kernel_guard e) (fs_store e) (seh e) (pos e)
    (bp_mem_read e) (bp_mem_write e) (running_script e) (force_break e) (break_on_next_cmp e)
    (process_terminated e) (is_running e) (memory_operations e) (world e).
Definition set_flags (v : Flags) e : Emu S W :=
  mkEmu (regs e) v (emaps e) (cfg e) (os e) (has_kernel e) (kernel_guard e) (fs_store e) (seh e) (pos e)
    (bp_mem_read e) (bp_mem_write e) (running_script e) (force_break e) (break_on_next_cmp e)
    (process_terminated e) (is_running e) (memory_operations e) (world e).
Definition set_emaps (v : Maps S) e : Emu S W :=
  mkEmu (regs e) (flags e) v (cfg e) (os e) (has_kernel e) (kernel_guard e) (fs_store e) (seh e) (pos e)
    (bp_mem_read e) (bp_mem_write e) (running_script e) (force_break e) (break_on_next_cmp e)
    (process_terminated e) (is_running e) (memory_operations e) (world e).
Definition set_fs_store (v : gmap Z Z) e : Emu S W :=
  mkEmu (regs e) (flags e) (emaps e) (cfg e) (os e) (has_kernel e) (kernel_guard e) v (seh e) (pos e)
    (bp_mem_read e) (bp_mem_write e) (running_script e) (force_break e) (break_on_next_cmp e)
    (process_terminated e) (is_running e) (memory_operations e) (world e).
Definition set_seh (v : Z) e : Emu S W :=
  mkEmu (regs e) (flags e) (emaps e) (cfg e) (os e) (has_kernel e) (kernel_guard e) (fs_store e) v (pos e)
    (bp_mem_read e) (bp_mem_write e) (running_script e) (force_break e) (break_on_next_cmp e)
    (process_terminated e) (is_running e) (memory_operations e) (world e).
Definition set_force_break (v : bool) e : Emu S W :=
  mkEmu (regs e) (flags e) (emaps e) (cfg e) (os e) (has_kernel e) (kernel_guard e) (fs_store e) (seh e) (pos e)
    (bp_mem_read e) (bp_mem_write e) (running_script e) v (break_on_next_cmp e)
    (process_terminated e) (is_running e) (memory_operations e) (world e).
Definition set_break_on_next_cmp (v : bool) e : Emu S W :=
  mkEmu (regs e) (flags e) (emaps e) (cfg e) (os e) (has_kernel e) (kernel_guard e) (fs_store e) (seh e) (pos e)
    (bp_mem_read e) (bp_mem_write e) (running_script e) (force_break e) v
    (process_terminated e) (is_running e) (memory_operations e) (world e).
Definition set_running (terminated : bool) (running : Z) e : Emu S W :=
  mkEmu (regs e) (flags e) (emaps e) (cfg e) (os e) (has_kernel e) (kernel_guard e) (fs_store e) (seh e) (pos e)
    (bp_mem_read e) (bp_mem_write e) (running_script e) (force_break e) (break_on_next_cmp e)
    terminated running (memory_operations e) (world e).
Definition push_operation (v : MemoryOperation) e : Emu S W :=
  mkEmu (regs e) (flags e) (emaps e) (cfg e) (os e) (has_kernel e) (kernel_guard e) (fs_store e) (seh e) (pos e)
    (bp_mem_read e) (bp_mem_write e) (running_script e) (force_break e) (break_on_next_cmp e)
    (process_terminated e) (is_running e) (memory_operations e ++ [v]) (world e).

(** A call of a method of [self.maps]. *)
Definition on_maps {A} (f : Maps S -> outcome (A * Maps S)) e : outcome (A * Emu S W) :=
  '(a, m) ← f (emaps e); Ret (a, set_emaps m e).

(** [Emu::pc], [Emu::sp], [Emu::set_sp] *)
Definition pc e : Z := regs e rip.
Definition sp e : Z := regs e rsp.
Definition set_sp (v : Z) e : Emu S W := set_regs (upd rsp v (regs e)) e.

(** [Emu::flag_cf] and the other readers *)
Definition flag_cf e : bool := cf (flags e).
Definition flag_zf e : bool := zf (flags e).
Definition flag_sf e : bool := sf (flags e).
Definition flag_of e : bool := of_ (flags e).
Definition flag_pf e : bool := pf (flags e).
Definition flag_af e : bool := af (flags e).

(** A call of a routine of the flags through [flags_overwrite_mut], and through
    [flags_mut], which materialises the pending flags first. *)
Definition on_flags {A} (f : Flags -> A * Flags) e : A * Emu S W :=
  let (a, s) := f (flags e) in (a, set_flags s e).
Definition flags_mut (f : Flags -> Flags) e : Emu S W := set_flags (f (materialize_lazy (flags e))) e.
End State.
