(* ===== verification/Operands.v ===== *)
(** * Operand access ([emu/operands.rs], [emu/memory.rs], [hooks.rs])

    How an instruction's operands are read and written: registers, immediates
    and memory, with the segment special cases of each guest system, hooks,
    breakpoints, tracing, stack growth and the exceptions of bad addresses. *)

From stdpp Require Import gmap strings.
From S2P Require Import Prelude Flags Scalar Mem64 Slab Tlb Maps Regs Emu.

(** ** Instructions, as the decoder presents them *)

Inductive OpKind :=
  | OpRegister | NearBranch16 | NearBranch32 | NearBranch64 | FarBranch16 | FarBranch32
  | Immediate8 | Immediate8_2nd | Immediate16 | Immediate32 | Immediate64
  | Immediate8to16 | Immediate8to32 | Immediate8to64 | Immediate32to64
  | MemorySegSI | MemorySegESI | MemorySegRSI | MemorySegDI | MemorySegEDI | MemorySegRDI
  | MemoryESDI | MemoryESEDI | MemoryESRDI | OpMemory.

#[export] Instance OpKind_eq_dec : EqDecision OpKind.
Proof. solve_decision. Defined.

(** The members of [iced_x86::Code] that the handlers name; [OtherCode] stands for
    the rest. *)
Inductive Code :=
  | Loop_rel8_16_CX | Loop_rel8_32_CX | Loop_rel8_16_ECX | Loop_rel8_32_ECX | Loop_rel8_64_ECX
  | Loope_rel8_16_CX | Loope_rel8_32_CX | Loope_rel8_16_ECX | Loope_rel8_32_ECX | Loope_rel8_64_ECX
  | Loopne_rel8_16_CX | Loopne_rel8_32_CX | Loopne_rel8_16_ECX | Loopne_rel8_32_ECX | Loopne_rel8_64_ECX
  | OtherCode.

(** What the accessors of [iced_x86::Instruction] return; the sign-extended
    immediates are signed integers, [memory_size] is in bytes. *)
Record Instruction := mkInstruction {
  code : Code;
  op_count : nat;
  op_kind : nat -> OpKind;
  op_register : nat -> Register;
  memory_segment : Register;
  memory_base : Register;
  memory_index : Register;
  memory_index_scale : Z;
  memory_displacement64 : Z;
  memory_displacement32 : Z;
  memory_size : Z;
  immediate8 : Z; immediate8_2nd : Z; immediate16 : Z; immediate32 : Z; immediate64 : Z;
  immediate8to16 : Z; immediate8to32 : Z; immediate8to64 : Z; immediate32to64 : Z;
  near_branch_target : Z; far_branch16 : Z; far_branch32 : Z }.

(** [OP_KIND_BIT_WIDTH]; the entries of registers and memory are not used. *)
Definition OP_KIND_BIT_WIDTH (k : OpKind) : Z :=
  match k with
  | OpRegister | OpMemory => 255
  | NearBranch16 | FarBranch16 | Immediate16 | Immediate8to16 | MemorySegSI | MemorySegDI | MemoryESDI => 16
  | NearBranch32 | FarBranch32 | Immediate32 | Immediate8to32 | MemorySegESI | MemorySegEDI | MemoryESEDI => 32
  | NearBranch64 | Immediate64 | Immediate8to64 | Immediate32to64 | MemorySegRSI | MemorySegRDI | MemoryESRDI => 64
  | Immediate8 | Immediate8_2nd => 8
  end.

Definition EN_US_LOCALE : Z := 0x0409.

Section Access.
Context {S W : Type} `{Slab S} `{Environment S W}.
Implicit Types (e : Emu S W) (ins : Instruction).

(** [Emu::get_operand_sz] *)
Definition get_operand_sz ins (noperand : nat) : Z :=
  match op_kind ins noperand with
  | OpRegister => get_size (op_register ins noperand)
  | OpMemory => wrap 32 (memory_size ins * 8)
  | k => OP_KIND_BIT_WIDTH k
  end.

(** ** Memory helpers *)

(** [Emu::alloc] *)
Definition emu_alloc (name : string) (sz : Z) (perm : Permission) e : outcome (Z * Emu S W) :=
  a ← alloc sz (emaps e);
  match a with
  | None => Ret (0, e)
  | Some addr =>
      '(r, e) ← on_maps (create_map name addr sz perm) e;
      match r with inl _ => Ret (0, e) | inr _ => Ret (addr, e) end
  end.

(** [Emu::try_grow_stack] *)
Definition MAX_DIST_BELOW_RSP : Z := 0x100000.
Definition GROW_PAGE_SIZE : Z := 0x1000.

Definition try_grow_stack (fault_addr : Z) e : outcome (bool * Emu S W) :=
  if negb (is_x64 (cfg e)) then Ret (false, e)
  else
    let rsp := regs e rsp in
    if if rsp <=? fault_addr then 0x2000 <? Z.max 0 (fault_addr - rsp)
       else MAX_DIST_BELOW_RSP <? Z.max 0 (rsp - fault_addr)
    then Ret (false, e)
    else
      let page_base := Z.land fault_addr (bnot 64 (GROW_PAGE_SIZE - 1)) in
      '(mapped, e) ← on_maps (is_mapped page_base) e;
      if mapped : bool then Ret (false, e)
      else
        let name := "stack_grow_" +:+ hex page_base in
        '(r, e) ← on_maps (create_map name page_base GROW_PAGE_SIZE Perm.READ_WRITE) e;
        Ret (match r with inl _ => false | inr _ => true end, e).

(** [Emu::call_memory_write_hook] *)
Definition call_memory_write_hook (addr size value : Z) e : Z * Emu S W :=
  match hook_on_memory_write with
  | Some hook_fn => hook_fn (pc e) addr size value e
  | None => (value, e)
  end.

(** The hook call of the read path. *)
Definition call_memory_read_hook (addr size : Z) e : Emu S W :=
  match hook_on_memory_read with
  | Some hook_fn => hook_fn (regs e rip) addr size e
  | None => e
  end.

(** [if self.kernel_guard { self.kernel_guard_access(..) }] *)
Definition guard_access (addr size : Z) (write : bool) e : Emu S W :=
  if kernel_guard e then kernel_guard_access (pc e) addr size write e else e.

(** The two memory breakpoints. *)
Definition break_on (hit : bool) e : Emu S W :=
  if hit then if running_script e then set_force_break true e else spawn_console e else e.

(** [self.exception(..)] followed by the recovery of a terminated process. *)
Definition raise (x : ExceptionType) e : bool * Emu S W :=
  let e := exception x e in
  if soft_exception_recovery (cfg e) && process_terminated e then (true, set_running false 1 e) else (false, e).

(** The four sized reads of a guest address. *)
Definition read_sz (sz addr : Z) e : outcome (option Z * Emu S W) :=
  if sz =? 64 then on_maps (read_qword addr) e
  else if sz =? 32 then on_maps (read_dword addr) e
  else if sz =? 16 then on_maps (read_word addr) e
  else on_maps (read_byte addr) e.

(** The reads through a segment base: any other size reads eight bytes. *)
Definition read_seg (sz addr : Z) e : outcome (option Z * Emu S W) :=
  if sz =? 8 then on_maps (read_byte addr) e
  else if sz =? 16 then on_maps (read_word addr) e
  else if sz =? 32 then on_maps (read_dword addr) e
  else on_maps (read_qword addr) e.

Definition write_sz (sz addr v : Z) e : outcome (bool * Emu S W) :=
  if sz =? 64 then on_maps (write_qword addr v) e
  else if sz =? 32 then on_maps (write_dword addr (wrap 32 v)) e
  else if sz =? 16 then on_maps (write_word addr (wrap 16 v)) e
  else on_maps (write_byte addr (wrap 8 v)) e.

Definition write_seg (sz addr v : Z) e : outcome (bool * Emu S W) :=
  if sz =? 8 then on_maps (write_byte addr (wrap 8 v)) e
  else if sz =? 16 then on_maps (write_word addr (wrap 16 v)) e
  else if sz =? 32 then on_maps (write_dword addr (wrap 32 v)) e
  else on_maps (write_qword addr v) e.

(** [self.maps.get_mem(name)]: panics when the name does not exist. *)
Definition get_mem_named (name : string) e : outcome Mem64 :=
  match get_map_by_name name (emaps e) with Some m => Ret m | None => Panic end.

(** ** Effective addresses *)

Definition mem_displace ins e : Z :=
  if is_x64 (cfg e) then memory_displacement64 ins else wrap 64 (sgn 32 (memory_displacement32 ins)).

Definition temp_displace ins e : Z :=
  if decide (memory_index ins = NoRegister) then mem_displace ins e
  else wadd (mem_displace ins e) (wrap 64 (get_reg (memory_index ins) (regs e) * memory_index_scale ins)).

Definition effective_addr ins e : Z :=
  let displace :=
    if decide (memory_base ins = NoRegister) then temp_displace ins e
    else wadd (get_reg (memory_base ins) (regs e)) (temp_displace ins e) in
  let displace_result := if negb (is_x64 (cfg e)) then Z.land displace 0xffffffff else displace in
  if decide (memory_base ins = RIP) then temp_displace ins e else displace_result.

(** ** Reading *)

(** [fs:[mem_addr]] *)
Definition read_fs (mem_addr : Z) e : outcome (option Z * Emu S W) :=
  if is_linux (os e) then
    let fs_base := regs e fs in
    if negb (fs_base =? 0) then
      '(v, e) ← on_maps (read_qword (wadd fs_base mem_addr)) e; Ret (Some (default 0 v), e)
    else Ret (Some (default 0 (fs_store e !! mem_addr)), e)
  else if mem_addr =? 0xc0 then Ret (Some (if is_x64 (cfg e) then 0 else 1), e)
  else if mem_addr =? 0x14 then teb ← get_mem_named "teb" e; Ret (Some (base_addr teb), e)
  else if mem_addr =? 0x30 then peb ← get_mem_named "peb" e; Ret (Some (base_addr peb), e)
  else if mem_addr =? 0x20 then Ret (Some 10, e)
  else if mem_addr =? 0x24 then Ret (Some 101, e)
  else if mem_addr =? 0x34 then Ret (Some 0, e)
  else if mem_addr =? 0x18 then teb ← get_mem_named "teb" e; Ret (Some (base_addr teb), e)
  else if mem_addr =? 0x00 then Ret (Some (seh e), e)
  else if mem_addr =? 0x28 then Ret (Some 0, e)
  else if mem_addr =? 0x2c then
    '(locale, e) ← emu_alloc "locale" 100 Perm.READ_WRITE e;
    '(_, e) ← on_maps (write_dword locale EN_US_LOCALE) e;
    Ret (Some locale, e)
  else Ret (None, e).

(** [gs:[mem_addr]] outside the kernel *)
Definition read_gs ins (noperand : nat) (mem_addr : Z) e : outcome (option Z * Emu S W) :=
  if mem_addr =? 0x0 then Ret (Some 0, e)
  else if mem_addr =? 0x2 then Ret (Some 0, e)
  else if mem_addr =? 0x60 then peb ← get_mem_named "peb" e; Ret (Some (base_addr peb), e)
  else if mem_addr =? 0x30 then teb ← get_mem_named "teb" e; Ret (Some (base_addr teb), e)
  else if mem_addr =? 0x40 then Ret (Some 10, e)
  else if mem_addr =? 0x48 then Ret (Some 101, e)
  else if mem_addr =? 0x10 then stack ← get_mem_named "stack" e; Ret (Some (Mem.size stack), e)
  else if mem_addr =? 0x14 then Ret (Some 0, e)
  else if mem_addr =? 0x1488 then Ret (Some (seh e), e)
  else if mem_addr =? 0x8 then
    if is_x64 (cfg e) then peb ← get_mem_named "peb" e; Ret (Some (base_addr peb), e)
    else _ ← get_mem_named "teb" e; Ret (Some 1, e)
  else if mem_addr =? 0x58 then
    match get_map_by_name "static_tls_array" (emaps e) with
    | Some mem => Ret (Some (base_addr mem), e)
    | None =>
        let size := if is_x64 (cfg e) then 16 * 8 else 16 * 4 in
        '(tls_array, e) ← emu_alloc "static_tls_array" size Perm.READ_WRITE e;
        '(_, e) ← on_maps (write_bytes tls_array (replicate (Z.to_nat size) 0)) e;
        Ret (Some tls_array, e)
    end
  else
    teb ← get_mem_named "teb" e;
    let teb_addr := wadd (base_addr teb) mem_addr in
    '(v, e) ← read_seg (get_operand_sz ins noperand) teb_addr e;
    Ret (Some (default 0 v), e).

(** The [or_else] of a failed read. *)
Definition read_fault (sz mem_addr : Z) e : outcome (option Z * Emu S W) :=
  '(grown, e) ← try_grow_stack mem_addr e;
  if grown : bool then '(v, e) ← read_sz sz mem_addr e; Ret (Some (default 0 v), e)
  else if has_kernel e then Ret (Some 0, e)
  else
    let (recovered, e) :=
      raise (if sz =? 64 then QWordDereferencing else if sz =? 32 then DWordDereferencing
             else if sz =? 16 then WordDereferencing else ByteDereferencing) e in
    Ret (if recovered then Some 0 else None, e).

Definition trace_read (sz mem_addr : Z) (value : option Z) e : outcome (Emu S W) :=
  match value with
  | Some val =>
      if trace_mem (cfg e) then
        '(name, e) ← on_maps (get_addr_name mem_addr) e;
        Ret (push_operation (mkMemoryOperation (pos e) (regs e rip) "read" sz mem_addr 0 val
                               (default "not mapped"%string name)) e)
      else Ret e
  | None => Ret e
  end.

Definition handle_memory_get_operand ins (noperand : nat) (do_derref : bool) e : outcome (option Z * Emu S W) :=
  let mem_seg := memory_segment ins in
  let derref := if bool_decide (mem_seg = FS) || bool_decide (mem_seg = GS) then false else do_derref in
  let mem_addr := effective_addr ins e in
  if decide (mem_seg = FS) then read_fs mem_addr e
  else if bool_decide (mem_seg = GS) && has_kernel e then
    let addr := wadd (regs e gs) mem_addr in
    '(v, e) ← read_seg (wrap 32 (memory_size ins * 8)) addr e; Ret (Some (default 0 v), e)
  else if decide (mem_seg = GS) then read_gs ins noperand mem_addr e
  else if derref then
    let sz := wrap 32 (memory_size ins * 8) in
    let e := guard_access mem_addr (sz / 8) false e in
    let e := call_memory_read_hook mem_addr sz e in
    '(v, e) ← read_sz sz mem_addr e;
    '(value, e) ← (match v with Some v => Ret (Some v, e) | None => read_fault sz mem_addr e end);
    e ← trace_read sz mem_addr value e;
    Ret (value, break_on (bool_decide (mem_addr ∈ bp_mem_read e)) e)
  else Ret (Some mem_addr, e).

(** [Emu::get_operand_value] *)
Definition get_operand_value ins (noperand : nat) (do_derref : bool) e : outcome (option Z * Emu S W) :=
  match op_kind ins noperand with
  | OpRegister => Ret (Some (get_reg (op_register ins noperand) (regs e)), e)
  | OpMemory => handle_memory_get_operand ins noperand do_derref e
  | Immediate64 => Ret (Some (immediate64 ins), e)
  | Immediate8 => Ret (Some (immediate8 ins), e)
  | Immediate8_2nd => Ret (Some (immediate8_2nd ins), e)
  | Immediate16 => Ret (Some (immediate16 ins), e)
  | Immediate32 => Ret (Some (immediate32 ins), e)
  | Immediate8to64 => Ret (Some (wrap 64 (immediate8to64 ins)), e)
  | Immediate32to64 => Ret (Some (wrap 64 (immediate32to64 ins)), e)
  | Immediate8to32 => Ret (Some (wrap 32 (immediate8to32 ins)), e)
  | Immediate8to16 => Ret (Some (wrap 16 (immediate8to16 ins)), e)
  | _ => Ret (None, e)
  end.

(** [Emu::get_jump_value] *)
Definition get_jump_value ins (noperand : nat) e : outcome (option Z * Emu S W) :=
  match op_kind ins noperand with
  | NearBranch64 | NearBranch32 | NearBranch16 => Ret (Some (near_branch_target ins), e)
  | FarBranch16 => Ret (Some (far_branch16 ins), e)
  | FarBranch32 => Ret (Some (far_branch32 ins), e)
  | _ => get_operand_value ins 0 true e
  end.

(** ** Writing *)

(** [fs:[..] = value], and memory operands based on GS *)
Definition write_fs ins (noperand : nat) (value : Z) e : outcome (bool * Emu S W) :=
  if is_linux (os e) then
    let fs_base := regs e fs in
    if negb (fs_base =? 0) then
      let mem_base := memory_base ins in
      let fs_off :=
        if negb (bool_decide (mem_base = NoRegister)) && negb (bool_decide (mem_base = RIP))
           && negb (bool_decide (mem_base = FS)) && negb (bool_decide (mem_base = GS))
        then wadd (get_reg mem_base (regs e)) (temp_displace ins e) else temp_displace ins e in
      '(_, e) ← write_seg (get_operand_sz ins noperand) (wadd fs_base fs_off) value e;
      Ret (true, e)
    else
      let e := if value =? 0x4b6c50 then set_fs_store (<[0xffffffffffffffc8 := 0x4b6c50]> (fs_store e)) e else e in
      Ret (true, set_fs_store (<[temp_displace ins e := value]> (fs_store e)) e)
  else Ret (true, set_seh value e).

(** A store that failed and could not be repaired by growing the stack. *)
Definition write_fault (sz mem_addr value2 : Z) e : outcome (bool * Emu S W) :=
  if skip_unimplemented (cfg e) then
    let map_name := "banzai_" +:+ hex mem_addr in
    '(r, e) ← on_maps (create_map map_name mem_addr 100 Perm.READ_WRITE_EXECUTE) e;
    match r with
    | inl _ => Ret (false, e)
    | inr key =>
        mem ← slab_index key (emaps e);
        mem ← (if sz =? 64 then Mem.write_qword mem_addr value2 mem
               else if sz =? 32 then Mem.write_dword mem_addr (wrap 32 value2) mem
               else if sz =? 16 then Mem.write_word mem_addr (wrap 16 value2) mem
               else Mem.write_byte mem_addr (wrap 8 value2) mem);
        Ret (true, set_emaps (put_mem key mem (emaps e)) e)
    end
  else let (_, e) := raise BadAddressDereferencing e in Ret (false, e).

Definition trace_write (sz mem_addr value2 : Z) e : outcome (Emu S W) :=
  if trace_mem (cfg e) then
    '(name, e) ← on_maps (get_addr_name mem_addr) e;
    '(old, e) ← (if (sz =? 64) || (sz =? 32) || (sz =? 16) || (sz =? 8) then read_sz sz mem_addr e else Ret (None, e));
    Ret (push_operation (mkMemoryOperation (pos e) (regs e rip) "write" sz mem_addr (default 0 old) value2
                           (default "not mapped"%string name)) e)
  else Ret e.

(** [Emu::set_operand_value] *)
Definition set_operand_value ins (noperand : nat) (value : Z) e : outcome (bool * Emu S W) :=
  match op_kind ins noperand with
  | OpRegister =>
      let r := op_register ins noperand in
      if is_fpu r then Ret (true, set_streg r value e)
      else Ret (true, set_regs (set_reg r value (regs e)) e)
  | _ =>
      let mem_base := memory_base ins in
      let mem_seg := memory_segment ins in
      let seg_offset :=
        if bool_decide (mem_base = NoRegister) || bool_decide (mem_base = RIP) then temp_displace ins e
        else wadd (get_reg mem_base (regs e)) (temp_displace ins e) in
      let sz := wrap 32 (memory_size ins * 8) in
      if bool_decide (mem_seg = GS) && has_kernel e then
        '(_, e) ← write_seg sz (wadd (regs e gs) seg_offset) value e; Ret (true, e)
      else if bool_decide (mem_seg = GS) && is_x64 (cfg e) && negb (is_linux (os e)) then
        teb ← get_mem_named "teb" e;
        '(_, e) ← write_seg sz (wadd (base_addr teb) seg_offset) value e; Ret (true, e)
      else if bool_decide (mem_seg = FS) || bool_decide (mem_base = GS) then write_fs ins noperand value e
      else
        let mem_addr := effective_addr ins e in
        let e := guard_access mem_addr (sz / 8) true e in
        let (value2, e) := call_memory_write_hook mem_addr sz value e in
        let value2 := wrap 64 value2 in
        '(ok, e) ← write_sz sz mem_addr value2 e;
        '(ok, e) ← (if ok : bool then Ret (true, e)
                    else '(grown, e) ← try_grow_stack mem_addr e;
                         if grown : bool then write_sz sz mem_addr value2 e else Ret (false, e));
        if ok : bool then
          e ← trace_write sz mem_addr value2 e;
          Ret (true, break_on (bool_decide (mem_addr ∈ bp_mem_write e)) e)
        else write_fault sz mem_addr value2 e
  end.

End Access.
