(* ===== verification/Stack.v ===== *)
(** * The stack ([emu/stack.rs])

    Pushes and pops of the three sizes, with the automatic growth of the stack
    and the trace of memory operations. *)

From stdpp Require Import gmap strings.
From S2P Require Import Prelude Flags Scalar Mem64 Slab Tlb Maps Regs Emu Operands.

Section Stack.
Context {S W : Type} `{Slab S} `{Environment S W}.
Implicit Types (e : Emu S W).

(** One record of the trace: the name is looked up and the old value read at
    [at_]; the record carries [addr]. *)
Definition trace_stack_write (bits addr at_ value : Z) (read : Z -> Maps S -> outcome (option Z * Maps S)) e
    : outcome (Emu S W) :=
  if trace_mem (cfg e) then
    '(name, e) ← on_maps (get_addr_name at_) e;
    '(old, e) ← on_maps (read at_) e;
    Ret (push_operation (mkMemoryOperation (pos e) (pc e) "write" bits addr (default 0 old) value
                           (default "not mapped"%string name)) e)
  else Ret e.

(** The two records of a pop: the read from the stack and the write to the
    register. *)
Definition trace_stack_read (bits addr value : Z) (read : Z -> Maps S -> outcome (option Z * Maps S)) e
    : outcome (Emu S W) :=
  if trace_mem (cfg e) then
    '(name, e) ← on_maps (get_addr_name addr) e;
    let e := push_operation (mkMemoryOperation (pos e) (pc e) "read" bits addr 0 value
                               (default "not mapped"%string name)) e in
    '(old, e) ← on_maps (read addr) e;
    Ret (push_operation (mkMemoryOperation (pos e) (pc e) "write" bits addr (default 0 old) value "register") e)
  else Ret e.

(** [Emu::stack_push16] *)
Definition stack_push16 (value : Z) e : outcome (bool * Emu S W) :=
  let sp := sp e in
  e ← trace_stack_write 64 (wsub sp 8) sp value read_qword e;
  let new_sp := wsub sp 2 in
  let e := set_sp new_sp e in
  '(ok, e) ← on_maps (write_word new_sp value) e;
  if ok : bool then Ret (true, e)
  else
    '(grown, e) ← try_grow_stack new_sp e;
    if grown : bool then on_maps (write_word new_sp value) e else Ret (false, e).

(** [Emu::stack_push32]: no growth. *)
Definition stack_push32 (value : Z) e : outcome (bool * Emu S W) :=
  let esp := get_esp (regs e) in
  e ← trace_stack_write 32 (wsub esp 4) esp value read_dword e;
  let e := set_regs (set_esp (wsub (get_esp (regs e)) 4) (regs e)) e in
  on_maps (write_dword (get_esp (regs e)) value) e.

(** [Emu::stack_push64] *)
Definition stack_push64 (value : Z) e : outcome (bool * Emu S W) :=
  let sp := sp e in
  e ← trace_stack_write 64 (wsub sp 8) sp value read_qword e;
  let new_sp := wsub sp 8 in
  let e := set_sp new_sp e in
  '(ok, e) ← on_maps (write_qword new_sp value) e;
  if ok : bool then Ret (true, e)
  else
    '(grown, e) ← try_grow_stack new_sp e;
    if grown : bool then on_maps (write_qword new_sp value) e else Ret (false, e).

(** [Emu::stack_pop16] *)
Definition stack_pop16 (pop_instruction : bool) e : outcome (option Z * Emu S W) :=
  let sp := sp e in
  '(v, e) ← on_maps (read_word sp) e;
  match v with
  | None => Ret (None, e)
  | Some value =>
      e ← trace_stack_read 64 sp value read_qword e;
      Ret (Some value, set_sp (wadd sp 2) e)
  end.

(** [Emu::stack_pop32] *)
Definition stack_pop32 (pop_instruction : bool) e : outcome (option Z * Emu S W) :=
  '(v, e) ← on_maps (read_dword (get_esp (regs e))) e;
  match v with
  | None => Ret (None, e)
  | Some value =>
      e ← trace_stack_read 32 (get_esp (regs e)) value read_dword e;
      Ret (Some value, set_regs (set_esp (wadd (get_esp (regs e)) 4) (regs e)) e)
  end.

(** [Emu::stack_pop64] *)
Definition stack_pop64 (pop_instruction : bool) e : outcome (option Z * Emu S W) :=
  let sp := sp e in
  '(v, e) ← on_maps (read_qword sp) e;
  match v with
  | None => Ret (None, e)
  | Some value =>
      e ← trace_stack_read 64 sp value read_qword e;
      Ret (Some value, set_sp (wadd sp 8) e)
  end.
End Stack.
