(* ===== verification/OperandsSpec.v ===== *)
(** * Correctness of operand access

    The operand of an instruction as a location: a register view, an immediate
    or a range of guest memory at the effective address.  Reading returns the
    value at the location and changes only the TLB; writing changes exactly the
    location. *)

From stdpp Require Import gmap strings.
From S2P Require Import Prelude Flags Scalar Mem64 BTree Slab Tlb Maps MapsInv MapsLife Regs Emu Operands.

Section Spec.
Context {S W : Type} `{SlabLaws S} `{Environment S W}.
Implicit Types (e : Emu S W) (ins : Instruction).

(** ** States *)

(** Registers hold words and the address space satisfies its invariant. *)
Record wf_emu e : Prop := {
  wf_emu_regs : words (regs e);
  wf_emu_maps : wf (emaps e) }.

(** Nothing observes memory accesses: no hooks, no kernel guard, no trace. *)
Record quiet e : Prop := {
  quiet_read : hook_on_memory_read (S := S) (W := W) = None;
  quiet_write : hook_on_memory_write (S := S) (W := W) = None;
  quiet_guard : kernel_guard e = false;
  quiet_trace : trace_mem (cfg e) = false }.

(** The state with another TLB. *)
Definition retlb (t : TLB) e : Emu S W := set_emaps (set_tlb t (emaps e)) e.

(** ** Operands *)

(** What the decoder guarantees about the numbers of an instruction. *)
Record wf_ins ins : Prop := {
  wf_disp64 : is_word 64 (memory_displacement64 ins);
  wf_imm8 : is_word 8 (immediate8 ins);
  wf_imm16 : is_word 16 (immediate16 ins);
  wf_imm32 : is_word 32 (immediate32 ins);
  wf_imm64 : is_word 64 (immediate64 ins) }.

(** A memory operand of 1, 2, 4 or 8 bytes outside FS and GS. *)
Definition plain_memory ins (sk : ScalarKind) : Prop :=
  memory_segment ins <> FS /\ memory_segment ins <> GS /\ memory_base ins <> GS
  /\ memory_size ins = Z.of_nat (SIZE sk) /\ sk <> Oword.

(** The value of an operand, without side effects. *)
Definition operand_value ins (n : nat) e : option Z :=
  match op_kind ins n with
  | OpRegister => Some (get_reg (op_register ins n) (regs e))
  | OpMemory =>
      from_le_bytes <$> bytes_of (emaps e) (effective_addr ins e) (Z.to_nat (memory_size ins))
  | Immediate64 => Some (immediate64 ins)
  | Immediate8 => Some (immediate8 ins)
  | Immediate16 => Some (immediate16 ins)
  | Immediate32 => Some (immediate32 ins)
  | Immediate8to64 => Some (wrap 64 (immediate8to64 ins))
  | Immediate32to64 => Some (wrap 64 (immediate32to64 ins))
  | Immediate8to32 => Some (wrap 32 (immediate8to32 ins))
  | Immediate8to16 => Some (wrap 16 (immediate8to16 ins))
  | _ => None
  end.

(** Operand [n] can be read, and is [w] bits wide. *)
Definition source ins (n : nat) (w : Z) e : Prop :=
  get_operand_sz ins n = w /\
  match op_kind ins n with
  | OpRegister => exists f lo, view (op_register ins n) = Some (f, lo, w)
  | OpMemory =>
      exists sk, plain_memory ins sk /\ w = bits_of (SIZE sk)
        /\ reachable Mem.can_read (SIZE sk) (effective_addr ins e) (emaps e) = true
        /\ effective_addr ins e ∉ bp_mem_read e
  | Immediate64 | Immediate8 | Immediate16 | Immediate32
  | Immediate8to64 | Immediate32to64 | Immediate8to32 | Immediate8to16 => True
  | _ => False
  end.

(** Operand [n] can be written, and is [w] bits wide. *)
Definition target ins (n : nat) (w : Z) e : Prop :=
  get_operand_sz ins n = w /\
  match op_kind ins n with
  | OpRegister => exists f lo, view (op_register ins n) = Some (f, lo, w)
  | OpMemory =>
      exists sk, plain_memory ins sk /\ w = bits_of (SIZE sk)
        /\ reachable Mem.can_write (SIZE sk) (effective_addr ins e) (emaps e) = true
        /\ effective_addr ins e ∉ bp_mem_write e
  | _ => False
  end.

(** [e'] is [e] with [v] stored in operand [n]. *)
Definition stored ins (n : nat) (v : Z) e (e' : Emu S W) : Prop :=
  match op_kind ins n with
  | OpRegister => e' = set_regs (set_reg (op_register ins n) v (regs e)) e
  | _ =>
      let size := Z.to_nat (memory_size ins) in
      exists m', e' = set_emaps m' e
        /\ stores (emaps e) m' (effective_addr ins e) (to_le_bytes size v)
        /\ logs (emaps e) m' (effective_addr ins e) size
  end.

(** ** Effective addresses *)

Lemma wrap_nonneg w x : 0 <= w -> 0 <= wrap w x.
Proof. intros. unfold wrap. apply Z.mod_pos_bound. apply Z.pow_pos_nonneg; lia. Qed.

Lemma temp_displace_nonneg ins e : wf_ins ins -> 0 <= temp_displace ins e.
Proof.
  intros [Hd _ _ _ _]. unfold temp_displace, mem_displace, wadd, is_word in *.
  case_decide; [|apply wrap_nonneg; lia]. destruct (is_x64 (cfg e)); [lia | apply wrap_nonneg; lia].
Qed.

Lemma effective_addr_nonneg ins e : wf_ins ins -> 0 <= effective_addr ins e.
Proof.
  intros Hi. pose proof (temp_displace_nonneg ins e Hi). unfold effective_addr.
  case_decide; [assumption |].
  assert (0 <= (if decide (memory_base ins = NoRegister) then temp_displace ins e
                else wadd (get_reg (memory_base ins) (regs e)) (temp_displace ins e))) as Hd
    by (case_decide; [assumption | apply wrap_nonneg; lia]).
  destruct (negb _); [|exact Hd]. apply Z.land_nonneg. lia.
Qed.

Lemma addr_set_emaps ins m e : effective_addr ins (set_emaps m e) = effective_addr ins e.
Proof. reflexivity. Qed.

(** ** Reading *)

Lemma plain_size ins sk :
  plain_memory ins sk ->
  Z.to_nat (memory_size ins) = SIZE sk /\ wrap 32 (memory_size ins * 8) = bits_of (SIZE sk) /\ (0 < SIZE sk <= 16)%nat.
Proof. intros (_ & _ & _ & -> & _). destruct sk; cbn; auto with lia. Qed.

Lemma read_sz_scalar sk addr e :
  sk <> Oword -> read_sz (bits_of (SIZE sk)) addr e = on_maps (read_scalar (SIZE sk) addr) e.
Proof. destruct sk; [reflexivity.. | congruence]. Qed.

Lemma write_sz_scalar sk addr v e :
  sk <> Oword ->
  exists v', wrap (bits_of (SIZE sk)) v' = wrap (bits_of (SIZE sk)) v
    /\ write_sz (bits_of (SIZE sk)) addr v e = on_maps (write_scalar (SIZE sk) addr v') e.
Proof.
  intros Ho. destruct sk; [| | | |congruence]; eexists; (split; [|reflexivity]); auto;
    apply Z.mod_mod; discriminate.
Qed.

Lemma retlb_maps t e : maps_equiv (emaps (retlb t e)) (emaps e).
Proof. apply maps_equiv_set_tlb. Qed.

Lemma retlb_wf t e : wf_emu e -> wf_tlb t -> wf_emu (retlb t e).
Proof. intros [Hr Hm] Ht. split; [exact Hr | now apply set_tlb_wf]. Qed.

Lemma byte_of_range (m : Maps S) a b : wf m -> byte_of m a = Some b -> is_word 8 b.
Proof.
  intros Hwf Hb. unfold byte_of in Hb. destruct (find_map a m) as [[k mm]|] eqn:Ef; [|discriminate].
  apply find_map_spec in Ef as [Hk _]; [|exact Hwf]. destruct (wf_region m Hwf _ _ Hk) as [Hmm _].
  pose proof (wf_bytes mm Hmm) as Hbs. unfold is_bytes in Hbs. rewrite Forall_lookup in Hbs.
  eapply Hbs. unfold byte_at in Hb. repeat case_match; [exact Hb | discriminate..].
Qed.

Lemma bytes_of_bytes (m : Maps S) a n bs : wf m -> bytes_of m a n = Some bs -> is_bytes bs /\ length bs = n.
Proof.
  intros Hwf E. unfold bytes_of in E. apply mapM_Some in E. split.
  - unfold is_bytes. rewrite Forall_lookup. intros i b Hi.
    destruct (Forall2_lookup_r _ _ _ _ _ E Hi) as (j & _ & Hj). eapply byte_of_range; eauto.
  - apply Forall2_length in E. rewrite length_seq in E. now symmetry.
Qed.

(** A memory operand is read with its value and only the TLB changes. *)
Lemma get_memory_operand ins n sk e :
  wf_emu e -> quiet e -> wf_ins ins -> op_kind ins n = OpMemory -> plain_memory ins sk ->
  reachable Mem.can_read (SIZE sk) (effective_addr ins e) (emaps e) = true ->
  effective_addr ins e ∉ bp_mem_read e ->
  exists t bs, wf_tlb t /\ bytes_of (emaps e) (effective_addr ins e) (SIZE sk) = Some bs
    /\ get_operand_value ins n true e = Ret (Some (from_le_bytes bs), retlb t e).
Proof.
  intros Hwf Hq Hi Hk Hp Hr Hb. destruct (plain_size _ _ Hp) as (Hn & Hz & Hs).
  pose proof Hp as (Hfs & Hgs & _ & _ & Ho). pose proof (effective_addr_nonneg ins e Hi) as Ha.
  destruct (read_scalar_spec (SIZE sk) (effective_addr ins e) (emaps e)) as (t & Ht & E);
    [apply Hwf | exact Ha | exact Hs |].
  destruct (bytes_of_placement (emaps e) Mem.can_read (SIZE sk) (effective_addr ins e)) as (bs & Hbs & _);
    [apply Hwf | apply reachable_placement; [apply Hwf | lia | exact Hr] |].
  exists t, bs. split_and!; [exact Ht | exact Hbs |].
  unfold get_operand_value. rewrite Hk. unfold handle_memory_get_operand.
  rewrite !decide_False, !bool_decide_eq_false_2 by assumption. cbn [orb andb].
  rewrite Hz. unfold guard_access. rewrite (quiet_guard e Hq).
  unfold call_memory_read_hook. rewrite (quiet_read e Hq), read_sz_scalar by exact Ho.
  unfold on_maps. rewrite E, Hr, Hbs. cbn.
  unfold trace_read, set_emaps. cbn. rewrite (quiet_trace e Hq). cbn.
  now rewrite bool_decide_eq_false_2.
Qed.

Lemma source_read ins n w e :
  wf_emu e -> quiet e -> wf_ins ins -> source ins n w e ->
  exists v t, wf_tlb t /\ operand_value ins n e = Some v /\ is_word w v
    /\ get_operand_value ins n true e = Ret (Some v, retlb t e).
Proof.
  intros Hwf Hq Hi [Hsz Hs]. unfold get_operand_sz in Hsz.
  assert (retlb (tlb (emaps e)) e = e) as Hid by (now destruct e as [? ? []]).
  pose proof (wf_tlb_array _ (wf_emu_maps e Hwf)) as Ht.
  unfold operand_value. destruct (op_kind ins n) eqn:Hk; try contradiction.
  1: { destruct Hs as (f & lo & Hv). exists (get_reg (op_register ins n) (regs e)), (tlb (emaps e)).
       rewrite Hid. unfold get_operand_value. rewrite Hk. split_and!; auto.
       rewrite (get_reg_view _ _ _ _ _ Hv (wf_emu_regs e Hwf)). apply wrap_word.
       destruct (view_shape _ _ _ _ Hv) as [_ ?]. lia. }
  9: { destruct Hs as (sk & Hp & -> & Hr & Hb). destruct (plain_size _ _ Hp) as (Hn & _ & _).
       destruct (get_memory_operand ins n sk e) as (t & bs & Ht' & Hbs & E); auto.
       exists (from_le_bytes bs), t. rewrite Hn, Hbs. split_and!; auto.
       destruct (bytes_of_bytes _ _ _ _ (wf_emu_maps e Hwf) Hbs) as [Hby Hl]. rewrite <- Hl.
       now apply from_le_bytes_word. }
  all: eexists _, (tlb (emaps e)); rewrite Hid; unfold get_operand_value; rewrite Hk; cbn in Hsz; subst w;
    split_and!; [exact Ht | reflexivity | | reflexivity]; first [apply wrap_word; lia | apply Hi].
Qed.

(** ** Writing *)

(** A memory operand is written: exactly its bytes change, code writes are logged. *)
Lemma set_memory_operand ins n sk v e :
  wf_emu e -> quiet e -> wf_ins ins -> op_kind ins n = OpMemory -> plain_memory ins sk -> is_word 64 v ->
  reachable Mem.can_write (SIZE sk) (effective_addr ins e) (emaps e) = true ->
  effective_addr ins e ∉ bp_mem_write e ->
  exists m', wf m' /\ set_operand_value ins n v e = Ret (true, set_emaps m' e)
    /\ stores (emaps e) m' (effective_addr ins e) (to_le_bytes (SIZE sk) v)
    /\ logs (emaps e) m' (effective_addr ins e) (SIZE sk).
Proof.
  intros Hwf Hq Hi Hk Hp Hv Hr Hb. destruct (plain_size _ _ Hp) as (Hn & Hz & Hs).
  pose proof Hp as (Hfs & Hgs & Hbase & _ & Ho). pose proof (effective_addr_nonneg ins e Hi) as Ha.
  destruct (write_sz_scalar sk (effective_addr ins e) v e Ho) as (v' & Ev & Ew).
  destruct (write_scalar_spec (SIZE sk) (effective_addr ins e) v' (emaps e)) as (m' & E & Hw & Hst);
    [apply Hwf | exact Ha | exact Hs |].
  rewrite Hr in E, Hst. destruct Hst as [Hst Hl]. exists m'.
  rewrite <- (to_le_bytes_wrap _ _ _ Ev). split_and!; [exact Hw | | exact Hst | exact Hl].
  unfold set_operand_value. rewrite Hk.
  rewrite (bool_decide_eq_false_2 (memory_segment ins = GS)), (bool_decide_eq_false_2 (memory_segment ins = FS)),
    (bool_decide_eq_false_2 (memory_base ins = GS)) by assumption. cbn [orb andb negb].
  rewrite Hz. unfold guard_access. rewrite (quiet_guard e Hq).
  unfold call_memory_write_hook. rewrite (quiet_write e Hq). rewrite (wrap_small 64 v) by exact Hv.
  rewrite Ew. unfold on_maps. rewrite E. cbn.
  unfold trace_write, set_emaps. cbn. rewrite (quiet_trace e Hq). cbn.
  now rewrite bool_decide_eq_false_2.
Qed.

Lemma target_not_fpu ins n f lo w : view (op_register ins n) = Some (f, lo, w) -> is_fpu (op_register ins n) = false.
Proof. destruct (op_register ins n); (reflexivity || discriminate). Qed.

Lemma target_write ins n w v e :
  wf_emu e -> quiet e -> wf_ins ins -> target ins n w e -> is_word 64 v ->
  exists e', set_operand_value ins n v e = Ret (true, e') /\ wf_emu e' /\ stored ins n v e e'.
Proof.
  intros Hwf Hq Hi [Hsz Ht] Hv. unfold stored. destruct (op_kind ins n) eqn:Hk; try contradiction.
  - destruct Ht as (f & lo & Hview). eexists. split_and!; [| | reflexivity].
    + unfold set_operand_value. rewrite Hk. now rewrite (target_not_fpu _ _ _ _ _ Hview).
    + split; [|apply Hwf]. cbn. eapply set_words; eauto. apply Hwf.
  - destruct Ht as (sk & Hp & -> & Hr & Hb). destruct (plain_size _ _ Hp) as (Hn & _ & _).
    destruct (set_memory_operand ins n sk v e) as (m' & Hw & E & Hst & Hl); auto.
    exists (set_emaps m' e). split_and!; [exact E | split; [apply Hwf | exact Hw] |].
    rewrite Hn. eauto.
Qed.

(** What was stored is what is there. *)
Lemma stored_value ins n w v e e' :
  wf_emu e -> wf_emu e' -> is_word 64 v -> target ins n w e -> stored ins n v e e' ->
  operand_value ins n e' = Some (wrap w v).
Proof.
  intros Hwf Hwf' Hv [Hsz Ht] Hst. unfold stored, operand_value in *.
  destruct (op_kind ins n); try contradiction.
  - destruct Ht as (f & lo & Hview). subst e'. cbn [regs set_regs]. f_equal.
    erewrite get_after_set by (eauto; apply Hwf). now rewrite (proj1 (view_shape _ _ _ _ Hview)).
  - destruct Ht as (sk & Hp & -> & _). destruct Hst as (m' & -> & Hst & _).
    destruct (plain_size _ _ Hp) as (Hn & _). rewrite Hn in *.
    rewrite addr_set_emaps. cbn [emaps set_emaps].
    pose proof (stores_bytes_of _ _ _ _ Hst) as Hb. rewrite length_to_le_bytes in Hb. rewrite Hb. cbn.
    f_equal. apply from_to_le_bytes_wrap.
Qed.

(** An operand that could be read before it was written can be read after. *)
Lemma stored_source ins n w v e e' :
  wf_emu e -> stored ins n v e e' -> source ins n w e -> source ins n w e'.
Proof.
  intros Hwf Hst [Hsz Hs]. split; [exact Hsz |]. unfold stored in Hst.
  destruct (op_kind ins n); auto; destruct Hst as (m' & -> & [_ Hl] & _); try contradiction; auto.
  destruct Hs as (sk & Hp & Hw & Hr & Hb). exists sk. split_and!; auto.
  rewrite addr_set_emaps. cbn [emaps set_emaps].
  rewrite <- Hr. apply reachable_layout; [|exact Hl]. intros mm mm' E. unfold Mem.can_read. now rewrite E.
Qed.

Lemma stored_quiet ins n v e e' : stored ins n v e e' -> quiet e -> quiet e'.
Proof.
  intros Hst [Hr Hw Hg Ht]. unfold stored in Hst.
  destruct (op_kind ins n); [subst e' |destruct Hst as (m' & -> & _)..]; split; assumption.
Qed.

(** What is written to a register or memory operand is read back from it truncated
    to the operand's width; the write changes exactly that register view or those
    bytes. *)
Theorem operand_write_read ins n w v e :
  wf_emu e -> quiet e -> wf_ins ins -> target ins n w e -> source ins n w e -> is_word 64 v ->
  exists e1 e2, set_operand_value ins n v e = Ret (true, e1)
    /\ get_operand_value ins n true e1 = Ret (Some (wrap w v), e2)
    /\ stored ins n v e e1 /\ wf_emu e1 /\ wf_emu e2.
Proof.
  intros Hwf Hq Hi Ht Hs Hv. destruct (target_write ins n w v e) as (e1 & E1 & Hwf1 & Hst); auto.
  destruct (source_read ins n w e1) as (v' & t & Htl & Hval & _ & E2); eauto using stored_quiet, stored_source.
  rewrite (stored_value ins n w v e e1) in Hval by auto. injection Hval as <-.
  exists e1, (retlb t e1). split_and!; auto using retlb_wf.
Qed.

(** ** States that differ in the TLB *)

(** [e'] is [e] after accesses that only filled the TLB. *)
Definition warmed e (e' : Emu S W) : Prop := exists t, wf_tlb t /\ e' = retlb t e.

Lemma warmed_refl e : wf_emu e -> warmed e e.
Proof. intros [_ Hm]. exists (tlb (emaps e)). split; [apply Hm | now destruct e as [? ? []]]. Qed.

Lemma warmed_trans e1 e2 e3 : warmed e1 e2 -> warmed e2 e3 -> warmed e1 e3.
Proof. intros (t & _ & ->) (t' & Ht & ->). exists t'. now split. Qed.

Lemma warmed_wf e e' : warmed e e' -> wf_emu e -> wf_emu e'.
Proof. intros (t & Ht & ->) Hwf. now apply retlb_wf. Qed.

Lemma warmed_quiet e e' : warmed e e' -> quiet e -> quiet e'.
Proof. intros (t & _ & ->) [? ? ? ?]. now split. Qed.

(** ** States an operand cannot tell apart *)

(** Registers, configuration and breakpoints are the same and the address spaces
    differ in the TLB only. *)
Record same_view e (e' : Emu S W) : Prop := {
  sv_regs : regs e' = regs e;
  sv_cfg : cfg e' = cfg e;
  sv_read : bp_mem_read e' = bp_mem_read e;
  sv_write : bp_mem_write e' = bp_mem_write e;
  sv_maps : maps_equiv (emaps e') (emaps e) }.

Lemma warmed_view e e' : warmed e e' -> same_view e e'.
Proof. intros (t & _ & ->). split; [reflexivity.. | apply retlb_maps]. Qed.

Lemma view_addr ins e e' : same_view e e' -> effective_addr ins e' = effective_addr ins e.
Proof. intros [Hr Hc _ _ _]. unfold effective_addr, temp_displace, mem_displace. now rewrite Hr, Hc. Qed.

Lemma view_reachable p n a e e' : same_view e e' -> reachable p n a (emaps e') = reachable p n a (emaps e).
Proof. intros E. apply reachable_proper, E. Qed.

Lemma view_source ins n w e e' : same_view e e' -> source ins n w e -> source ins n w e'.
Proof.
  intros E [Hsz Hs]. split; [exact Hsz |]. destruct (op_kind ins n); auto. destruct Hs as (sk & Hp & Hw & Hr & Hb).
  exists sk. rewrite (view_addr _ _ _ E), (view_reachable _ _ _ _ _ E), (sv_read _ _ E). auto.
Qed.

Lemma view_target ins n w e e' : same_view e e' -> target ins n w e -> target ins n w e'.
Proof.
  intros E [Hsz Hs]. split; [exact Hsz |]. destruct (op_kind ins n); auto. destruct Hs as (sk & Hp & Hw & Hr & Hb).
  exists sk. rewrite (view_addr _ _ _ E), (view_reachable _ _ _ _ _ E), (sv_write _ _ E). auto.
Qed.

Lemma view_value ins n e e' : same_view e e' -> operand_value ins n e' = operand_value ins n e.
Proof.
  intros E. unfold operand_value. rewrite (sv_regs _ _ E), (view_addr _ _ _ E). destruct (op_kind ins n); auto.
  f_equal. apply bytes_of_proper; [apply E | reflexivity..].
Qed.

Lemma warmed_source ins n w e e' : warmed e e' -> source ins n w e -> source ins n w e'.
Proof. eauto using view_source, warmed_view. Qed.

Lemma warmed_target ins n w e e' : warmed e e' -> target ins n w e -> target ins n w e'.
Proof. eauto using view_target, warmed_view. Qed.

Lemma warmed_value ins n e e' : warmed e e' -> operand_value ins n e' = operand_value ins n e.
Proof. eauto using view_value, warmed_view. Qed.

Lemma warmed_flags e e' : warmed e e' -> flags e' = flags e.
Proof. now intros (t & _ & ->). Qed.

Lemma warmed_regs e e' : warmed e e' -> regs e' = regs e.
Proof. now intros (t & _ & ->). Qed.

(** A readable operand is read with its value. *)
Lemma read_operand ins n w e :
  wf_emu e -> quiet e -> wf_ins ins -> source ins n w e ->
  exists v e', get_operand_value ins n true e = Ret (Some v, e')
    /\ operand_value ins n e = Some v /\ is_word w v /\ warmed e e'.
Proof.
  intros Hwf Hq Hi Hs. destruct (source_read ins n w e) as (v & t & Ht & Hv & Hw & E); auto.
  exists v, (retlb t e). split_and!; auto. now exists t.
Qed.

(** Two readable operands are read in order. *)
Lemma read_two ins n k w w' e :
  wf_emu e -> quiet e -> wf_ins ins -> source ins n w e -> source ins k w' e ->
  exists a b e1 e2, get_operand_value ins n true e = Ret (Some a, e1)
    /\ get_operand_value ins k true e1 = Ret (Some b, e2)
    /\ operand_value ins n e = Some a /\ operand_value ins k e = Some b
    /\ is_word w a /\ is_word w' b /\ warmed e e1 /\ warmed e e2.
Proof.
  intros Hwf Hq Hi Hn Hk. destruct (read_operand ins n w e) as (a & e1 & E1 & Ha & Wa & W1); auto.
  destruct (read_operand ins k w' e1) as (b & e2 & E2 & Hb & Wb & W2);
    eauto using warmed_wf, warmed_quiet, warmed_source.
  rewrite (warmed_value _ _ _ _ W1) in Hb. exists a, b, e1, e2. split_and!; eauto using warmed_trans.
Qed.
End Spec.
