(* ===== verification/Instructions.v ===== *)
(** * Integer instructions ([engine/instructions/], [engine/logic.rs])

    The handlers [execute] of the integer instructions, one definition per
    file: arithmetic and logic, shifts and rotates, data movement, conditional
    instructions, the stack, sign extension and the flag instructions.  A
    handler returns whether the instruction succeeded. *)

From stdpp Require Import gmap strings.
From S2P Require Import Prelude Flags FlagsArith FlagsShift Conditions Scalar Mem64 Slab Tlb Maps Regs Emu.
From S2P Require Import Operands Stack.

(** [match .. { Some(x) => x, None => return false }] *)
Notation "'let?' x ',' e ':=' c 'in' k" :=
  (mbind (M := outcome) (fun '(o, e) => match o with Some x => k | None => Ret (false, e) end) c)
  (at level 200, x name, e name, c at level 100, k at level 200).

(** [match sz { 64 => .., 32 => .., 16 => .., 8 => .., _ => .. }] *)
Definition by_size {A} (sz : Z) (a64 a32 a16 a8 : A) : option A :=
  if sz =? 64 then Some a64 else if sz =? 32 then Some a32
  else if sz =? 16 then Some a16 else if sz =? 8 then Some a8 else None.

Section Handlers.
Context {S W : Type} `{Slab S} `{Environment S W} `{Iced}.
Implicit Types (e : Emu S W) (ins : Instruction).

(** Run a flags routine of the operand size through [flags_overwrite_mut] and
    store its result in operand 0. *)
Definition store_by_size ins (op : option (Flags -> Z * Flags)) e : outcome (bool * Emu S W) :=
  match op with
  | Some f => let (res, e) := on_flags f e in set_operand_value ins 0 res e
  | None => Ret (false, e)
  end.

(** The same through [flags_mut]. *)
Definition store_by_size_mut ins (op : option (Flags -> Z * Flags)) e : outcome (bool * Emu S W) :=
  store_by_size ins (option_map (fun f s => f (materialize_lazy s)) op) e.

(** ** Arithmetic and logic *)

Definition add_execute ins e : outcome (bool * Emu S W) :=
  let? value0, e := get_operand_value ins 0 true e in
  let? value1, e := get_operand_value ins 1 true e in
  store_by_size ins
    (by_size (get_operand_sz ins 1)
       (add64 value0 value1 false false)
       (add32 (wrap 32 (Z.land value0 0xffffffff)) (wrap 32 (Z.land value1 0xffffffff)) false false)
       (add16 (wrap 16 (Z.land value0 0xffff)) (wrap 16 (Z.land value1 0xffff)) false false)
       (add8 (wrap 8 (Z.land value0 0xff)) (wrap 8 (Z.land value1 0xff)) false false)) e.

Definition adc_execute ins e : outcome (bool * Emu S W) :=
  let? value0, e := get_operand_value ins 0 true e in
  let? value1, e := get_operand_value ins 1 true e in
  let f_cf := flag_cf e in
  store_by_size ins
    (by_size (get_operand_sz ins 1)
       (add64 value0 value1 f_cf true)
       (add32 (wrap 32 (Z.land value0 0xffffffff)) (wrap 32 (Z.land value1 0xffffffff)) f_cf true)
       (add16 (wrap 16 (Z.land value0 0xffff)) (wrap 16 (Z.land value1 0xffff)) f_cf true)
       (add8 (wrap 8 (Z.land value0 0xff)) (wrap 8 (Z.land value1 0xff)) f_cf true)) e.

Definition sub_execute ins e : outcome (bool * Emu S W) :=
  let? value0, e := get_operand_value ins 0 true e in
  let? value1, e := get_operand_value ins 1 true e in
  store_by_size ins
    (by_size (get_operand_sz ins 0)
       (sub64 value0 value1) (sub32 value0 value1) (sub16 value0 value1) (sub8 value0 value1)) e.

Definition sbb_execute ins e : outcome (bool * Emu S W) :=
  let cf := flag_cf e in
  let? value0, e := get_operand_value ins 0 true e in
  let? value1, e := get_operand_value ins 1 true e in
  store_by_size ins
    (by_size (get_operand_sz ins 0)
       (sub64_borrow value0 value1 cf)
       (sub32_borrow value0 (Z.land value1 0xffffffff) cf)
       (sub16_borrow value0 (Z.land value1 0xffff) cf)
       (sub8_borrow value0 (Z.land value1 0xff) cf)) e.

(** The values of the second read, after the console, are only logged. *)
Definition cmp_execute ins e : outcome (bool * Emu S W) :=
  let? value0, e := get_operand_value ins 0 true e in
  let? value1, e := get_operand_value ins 1 true e in
  let compare e :=
    match by_size (get_operand_sz ins 0)
            (sub64 value0 value1) (sub32 value0 value1) (sub16 value0 value1) (sub8 value0 value1) with
    | Some f => Ret (true, (on_flags f e).2)
    | None => Ret (false, e)
    end in
  if break_on_next_cmp e then
    let e := set_break_on_next_cmp false (spawn_console e) in
    let? _v0, e := get_operand_value ins 0 true e in
    let? _v1, e := get_operand_value ins 1 true e in
    compare e
  else compare e.

Definition test_execute ins e : outcome (bool * Emu S W) :=
  let e := if break_on_next_cmp e then set_break_on_next_cmp false (spawn_console e) else e in
  let? value0, e := get_operand_value ins 0 true e in
  let? value1, e := get_operand_value ins 1 true e in
  Ret (true, set_flags (test value0 value1 (get_operand_sz ins 0) (flags e)) e).

(** [and] and [or]: the flags come from the masked result, the value stored
    keeps the upper bits of operand 0. *)
Definition and_or_execute (op : Z -> Z -> Z) ins e : outcome (bool * Emu S W) :=
  let? value0, e := get_operand_value ins 0 true e in
  let? value1, e := get_operand_value ins 1 true e in
  let sz := get_operand_sz ins 0 in
  let r32 := op (Z.land value0 0xffffffff) (Z.land value1 0xffffffff) in
  let r16 := op (Z.land value0 0xffff) (Z.land value1 0xffff) in
  let r8 := op (Z.land value0 0xff) (Z.land value1 0xff) in
  let r64 := op value0 value1 in
  match by_size sz
          (r64, r64)
          (r32, wadd (Z.land value0 0xffffffff00000000) r32)
          (r16, wadd (Z.land value0 0xffffffffffff0000) r16)
          (r8, wadd (Z.land value0 0xffffffffffffff00) r8) with
  | None => Ret (false, e)
  | Some (result1, result2) =>
      set_operand_value ins 0 result2 (set_flags (calc_logic_flags_lazy result1 sz (flags e)) e)
  end.
Definition and_execute : Instruction -> Emu S W -> outcome (bool * Emu S W) := and_or_execute Z.land.
Definition or_execute : Instruction -> Emu S W -> outcome (bool * Emu S W) := and_or_execute Z.lor.

Definition xor_execute ins e : outcome (bool * Emu S W) :=
  let? value0, e := get_operand_value ins 0 true e in
  let? value1, e := get_operand_value ins 1 true e in
  let sz := get_operand_sz ins 0 in
  let result := Z.lxor value0 value1 in
  set_operand_value ins 0 result (set_flags (calc_logic_flags_lazy result sz (flags e)) e).

Definition inc_execute ins e : outcome (bool * Emu S W) :=
  let? value0, e := get_operand_value ins 0 true e in
  store_by_size ins (by_size (get_operand_sz ins 0) (inc64 value0) (inc32 value0) (inc16 value0) (inc8 value0)) e.

Definition dec_execute ins e : outcome (bool * Emu S W) :=
  let? value0, e := get_operand_value ins 0 true e in
  store_by_size ins (by_size (get_operand_sz ins 0) (dec64 value0) (dec32 value0) (dec16 value0) (dec8 value0)) e.

Definition not_execute ins e : outcome (bool * Emu S W) :=
  let? value0, e := get_operand_value ins 0 true e in
  match by_size (get_operand_sz ins 0)
          (bnot 64 value0)
          (bnot 32 (wrap 32 value0))
          (Z.lor (Z.land value0 0xffffffffffff0000) (bnot 16 (wrap 16 value0)))
          (Z.lor (Z.land value0 0xffffffffffffff00) (bnot 8 (wrap 8 value0))) with
  | Some val => set_operand_value ins 0 val e
  | None => Ret (false, e)
  end.

Definition neg_execute ins e : outcome (bool * Emu S W) :=
  let? value0, e := get_operand_value ins 0 true e in
  match by_size (get_operand_sz ins 0) (neg64 value0) (neg32 value0) (neg16 value0) (neg8 value0) with
  | None => Ret (false, e)
  | Some f =>
      let (res, e) := on_flags (fun s => f (materialize_lazy s)) e in
      let e := flags_mut (set_f_cf (negb (value0 =? 0))) e in
      let e := flags_mut (set_f_af (negb (Z.land (Z.lor res value0) 0x8 =? 0))) e in
      set_operand_value ins 0 res e
  end.

(** ** Shifts and rotates *)

(** [shl], [shr], [sar] and [sal]: one- and two-operand forms. *)
Definition shift_execute (one : Z -> Z -> option (Flags -> Z * Flags))
    (two : Z -> Z -> Z -> option (Flags -> Z * Flags))
    (store : Instruction -> option (Flags -> Z * Flags) -> Emu S W -> outcome (bool * Emu S W))
    ins e : outcome (bool * Emu S W) :=
  let? value0, e := get_operand_value ins 0 true e in
  if (op_count ins =? 1)%nat then store ins (one (get_operand_sz ins 0) value0) e
  else
    let? value1, e := get_operand_value ins 1 true e in
    store ins (two (get_operand_sz ins 0) value0 value1) e.

Definition shl_execute : Instruction -> Emu S W -> outcome (bool * Emu S W) :=
  shift_execute (fun sz v => by_size sz (shl1p64 v) (shl1p32 v) (shl1p16 v) (shl1p8 v))
    (fun sz v n => by_size sz (shl2p64 v n) (shl2p32 v n) (shl2p16 v n) (shl2p8 v n)) store_by_size.
Definition shr_execute : Instruction -> Emu S W -> outcome (bool * Emu S W) :=
  shift_execute (fun sz v => by_size sz (shr1p64 v) (shr1p32 v) (shr1p16 v) (shr1p8 v))
    (fun sz v n => by_size sz (shr2p64 v n) (shr2p32 v n) (shr2p16 v n) (shr2p8 v n)) store_by_size.
Definition sar_execute : Instruction -> Emu S W -> outcome (bool * Emu S W) :=
  shift_execute (fun sz v => by_size sz (sar1p64 v) (sar1p32 v) (sar1p16 v) (sar1p8 v))
    (fun sz v n => by_size sz (sar2p64 v n) (sar2p32 v n) (sar2p16 v n) (sar2p8 v n)) store_by_size.
Definition sal_execute : Instruction -> Emu S W -> outcome (bool * Emu S W) :=
  shift_execute (fun sz v => by_size sz (sal1p64 v) (sal1p32 v) (sal1p16 v) (sal1p8 v))
    (fun sz v n => by_size sz (sal2p64 v n) (sal2p32 v n) (sal2p16 v n) (sal2p8 v n)) store_by_size_mut.

(** [rol], [ror], [rcl] and [rcr] *)
Definition rotate_execute (op : Z -> Z -> Z -> Flags -> Z * Flags) (materialize : bool) ins e
    : outcome (bool * Emu S W) :=
  let sz := get_operand_sz ins 0 in
  let store f e :=
    let (result, e) := on_flags (if materialize then fun s => f (materialize_lazy s) else f) e in
    set_operand_value ins 0 result e in
  let? value0, e := get_operand_value ins 0 true e in
  if (op_count ins =? 1)%nat then store (op value0 1 sz) e
  else
    let? value1, e := get_operand_value ins 1 true e in
    store (op value0 value1 sz) e.

Definition rol_execute : Instruction -> Emu S W -> outcome (bool * Emu S W) := rotate_execute rol true.
Definition ror_execute : Instruction -> Emu S W -> outcome (bool * Emu S W) := rotate_execute ror false.
Definition rcl_execute : Instruction -> Emu S W -> outcome (bool * Emu S W) := rotate_execute rcl true.
Definition rcr_execute : Instruction -> Emu S W -> outcome (bool * Emu S W) := rotate_execute rcr true.

(** [shld] and [shrd] *)
Definition double_shift_execute (op : Z -> Z -> Z -> Z -> Flags -> Z * Flags) ins e : outcome (bool * Emu S W) :=
  let? value0, e := get_operand_value ins 0 true e in
  let? value1, e := get_operand_value ins 1 true e in
  let? counter, e := get_operand_value ins 2 true e in
  let (result, e) := on_flags (op value0 value1 counter (get_operand_sz ins 0)) e in
  set_operand_value ins 0 result e.

Definition shld_execute : Instruction -> Emu S W -> outcome (bool * Emu S W) := double_shift_execute shld.
Definition shrd_execute : Instruction -> Emu S W -> outcome (bool * Emu S W) := double_shift_execute shrd.

(** ** Data movement *)

Definition mov_execute ins e : outcome (bool * Emu S W) :=
  let? value1, e := get_operand_value ins 1 true e in
  set_operand_value ins 0 value1 e.

Definition lea_execute ins e : outcome (bool * Emu S W) :=
  let? value1, e := get_operand_value ins 1 false e in
  set_operand_value ins 0 value1 e.

Definition movzx_execute ins e : outcome (bool * Emu S W) :=
  let? value1, e := get_operand_value ins 1 true e in
  set_operand_value ins 0 value1 e.

Definition movsx_execute ins e : outcome (bool * Emu S W) :=
  let? value1, e := get_operand_value ins 1 true e in
  let sz0 := get_operand_sz ins 0 in
  let sz1 := get_operand_sz ins 1 in
  let result :=
    if sz0 =? 16 then wrap 16 (sgn 8 value1)
    else if sz0 =? 32 then
      if sz1 =? 8 then wrap 64 (sgn 8 value1) else if sz1 =? 16 then wrap 32 (sgn 16 value1) else 0
    else if sz0 =? 64 then
      if sz1 =? 8 then wrap 64 (sgn 8 value1) else if sz1 =? 16 then wrap 64 (sgn 16 value1)
      else if sz1 =? 32 then wrap 64 (sgn 32 value1) else 0
    else 0 in
  set_operand_value ins 0 result e.

Definition movsxd_execute ins e : outcome (bool * Emu S W) :=
  let? value1, e := get_operand_value ins 1 true e in
  set_operand_value ins 0 (wrap 64 (sgn 32 value1)) e.

Definition xchg_execute ins e : outcome (bool * Emu S W) :=
  let? value0, e := get_operand_value ins 0 true e in
  let? value1, e := get_operand_value ins 1 true e in
  '(ok, e) ← set_operand_value ins 0 value1 e;
  if ok : bool then set_operand_value ins 1 value0 e else Ret (false, e).

Definition xadd_execute ins e : outcome (bool * Emu S W) :=
  let? value1, e := get_operand_value ins 1 true e in
  let? value0, e := get_operand_value ins 0 true e in
  match by_size (get_operand_sz ins 1)
          (add64 value0 value1 false false)
          (add32 (wrap 32 (Z.land value0 0xffffffff)) (wrap 32 (Z.land value1 0xffffffff)) false false)
          (add16 (wrap 16 (Z.land value0 0xffff)) (wrap 16 (Z.land value1 0xffff)) false false)
          (add8 (wrap 8 (Z.land value0 0xff)) (wrap 8 (Z.land value1 0xff)) false false) with
  | None => Ret (false, e)
  | Some f =>
      let (res, e) := on_flags f e in
      '(ok, e) ← set_operand_value ins 0 res e;
      if negb ok then Ret (false, e)
      else
        let same_reg :=
          bool_decide (op_kind ins 0 = OpRegister) && bool_decide (op_kind ins 1 = OpRegister)
          && bool_decide (op_register ins 0 = op_register ins 1) in
        if same_reg then Ret (true, e) else set_operand_value ins 1 value0 e
  end.

Definition cmpxchg_execute ins e : outcome (bool * Emu S W) :=
  let? value0, e := get_operand_value ins 0 true e in
  let? value1, e := get_operand_value ins 1 true e in
  let sz := get_operand_sz ins 0 in
  let r := regs e in
  let acc := if sz =? 8 then get_al r else if sz =? 16 then get_ax r else if sz =? 32 then get_eax r else r rax in
  let e := (on_flags (if sz =? 8 then sub8 acc value0 else if sz =? 16 then sub16 acc value0
                      else if sz =? 32 then sub32 acc value0 else sub64 acc value0) e).2 in
  if acc =? value0 then set_operand_value ins 0 value1 e
  else
    let r := regs e in
    Ret (true, set_regs (if sz =? 8 then set_al value0 r else if sz =? 16 then set_ax value0 r
                         else if sz =? 32 then set_eax value0 r else upd rax value0 r) e).

Definition bswap_execute ins e : outcome (bool * Emu S W) :=
  let? value0, e := get_operand_value ins 0 true e in
  let sz := get_operand_sz ins 0 in
  let sl m n := shl 64 (Z.land value0 m) n in
  let sr m n := Z.shiftr (Z.land value0 m) n in
  if sz =? 32 then
    set_operand_value ins 0
      (Z.lor (Z.lor (Z.lor (Z.lor (sl 0xff 24) (sl 0xff00 8)) (sr 0xff0000 8)) (sr 0xff000000 24))
             (Z.land value0 0xffffffff00000000)) e
  else if sz =? 64 then
    set_operand_value ins 0
      (Z.lor (Z.lor (Z.lor (Z.lor (Z.lor (Z.lor (Z.lor
        (sr 0xff00000000000000 56) (sr 0x00ff000000000000 40)) (sr 0x0000ff0000000000 24))
        (sr 0x000000ff00000000 8)) (sl 0x00000000ff000000 8)) (sl 0x0000000000ff0000 24))
        (sl 0x000000000000ff00 40)) (sl 0x00000000000000ff 56)) e
  else if sz =? 16 then set_operand_value ins 0 0 e
  else Ret (false, e).

(** ** Conditional instructions *)

Definition jcc (cond : Flags -> bool) ins e : outcome (bool * Emu S W) :=
  if cond (flags e) then
    let? addr, e := get_jump_value ins 0 e in
    if is_x64 (cfg e) then set_rip_with_check addr true e else set_eip_emu addr true e
  else Ret (true, e).

Definition setcc (cond : Flags -> bool) ins e : outcome (bool * Emu S W) :=
  if cond (flags e) then set_operand_value ins 0 1 e else set_operand_value ins 0 0 e.

(** The result of the first store is not checked. *)
Definition cmovcc (cond : Flags -> bool) ins e : outcome (bool * Emu S W) :=
  let? value1, e := get_operand_value ins 0 true e in
  let narrow v := if is_gpr64 (op_register ins 0) then v else Z.land v 0xffffffff in
  '(_, e) ← set_operand_value ins 0 (narrow value1) e;
  if cond (flags e) then
    let? value2, e := get_operand_value ins 1 true e in
    set_operand_value ins 0 (narrow value2) e
  else Ret (true, e).

Definition ja_execute : Instruction -> Emu S W -> outcome (bool * Emu S W) := jcc cond_a.
Definition jae_execute : Instruction -> Emu S W -> outcome (bool * Emu S W) := jcc cond_ae.
Definition jb_execute : Instruction -> Emu S W -> outcome (bool * Emu S W) := jcc cond_b.
Definition jbe_execute : Instruction -> Emu S W -> outcome (bool * Emu S W) := jcc cond_be.
Definition je_execute : Instruction -> Emu S W -> outcome (bool * Emu S W) := jcc cond_e.
Definition jne_execute : Instruction -> Emu S W -> outcome (bool * Emu S W) := jcc cond_ne.
Definition jg_execute : Instruction -> Emu S W -> outcome (bool * Emu S W) := jcc cond_g.
Definition jge_execute : Instruction -> Emu S W -> outcome (bool * Emu S W) := jcc cond_ge.
Definition jl_execute : Instruction -> Emu S W -> outcome (bool * Emu S W) := jcc cond_l.
Definition jle_execute : Instruction -> Emu S W -> outcome (bool * Emu S W) := jcc cond_le.
Definition jo_execute : Instruction -> Emu S W -> outcome (bool * Emu S W) := jcc cond_o.
Definition jno_execute : Instruction -> Emu S W -> outcome (bool * Emu S W) := jcc cond_no.
Definition jp_execute : Instruction -> Emu S W -> outcome (bool * Emu S W) := jcc cond_p.
Definition jnp_execute : Instruction -> Emu S W -> outcome (bool * Emu S W) := jcc cond_np.
Definition js_execute : Instruction -> Emu S W -> outcome (bool * Emu S W) := jcc cond_s.
Definition jns_execute : Instruction -> Emu S W -> outcome (bool * Emu S W) := jcc cond_ns.

Definition seta_execute : Instruction -> Emu S W -> outcome (bool * Emu S W) := setcc cond_a.
Definition setae_execute : Instruction -> Emu S W -> outcome (bool * Emu S W) := setcc cond_ae.
Definition setb_execute : Instruction -> Emu S W -> outcome (bool * Emu S W) := setcc cond_b.
Definition setbe_execute : Instruction -> Emu S W -> outcome (bool * Emu S W) := setcc cond_be.
Definition sete_execute : Instruction -> Emu S W -> outcome (bool * Emu S W) := setcc cond_e.
Definition setne_execute : Instruction -> Emu S W -> outcome (bool * Emu S W) := setcc cond_ne.
Definition setg_execute : Instruction -> Emu S W -> outcome (bool * Emu S W) := setcc cond_g.
Definition setge_execute : Instruction -> Emu S W -> outcome (bool * Emu S W) := setcc cond_ge.
Definition setl_execute : Instruction -> Emu S W -> outcome (bool * Emu S W) := setcc cond_l.
Definition setle_execute : Instruction -> Emu S W -> outcome (bool * Emu S W) := setcc cond_le.
Definition seto_execute : Instruction -> Emu S W -> outcome (bool * Emu S W) := setcc cond_o.
Definition setno_execute : Instruction -> Emu S W -> outcome (bool * Emu S W) := setcc cond_no.
Definition setp_execute : Instruction -> Emu S W -> outcome (bool * Emu S W) := setcc cond_p.
Definition setnp_execute : Instruction -> Emu S W -> outcome (bool * Emu S W) := setcc cond_np.
Definition sets_execute : Instruction -> Emu S W -> outcome (bool * Emu S W) := setcc cond_s.
Definition setns_execute : Instruction -> Emu S W -> outcome (bool * Emu S W) := setcc cond_ns.

Definition cmova_execute : Instruction -> Emu S W -> outcome (bool * Emu S W) := cmovcc cond_a.
Definition cmovae_execute : Instruction -> Emu S W -> outcome (bool * Emu S W) := cmovcc cond_ae.
Definition cmovb_execute : Instruction -> Emu S W -> outcome (bool * Emu S W) := cmovcc cond_b.
Definition cmovbe_execute : Instruction -> Emu S W -> outcome (bool * Emu S W) := cmovcc cond_be.
Definition cmove_execute : Instruction -> Emu S W -> outcome (bool * Emu S W) := cmovcc cond_e.
Definition cmovne_execute : Instruction -> Emu S W -> outcome (bool * Emu S W) := cmovcc cond_ne.
Definition cmovg_execute : Instruction -> Emu S W -> outcome (bool * Emu S W) := cmovcc cond_g.
Definition cmovge_execute : Instruction -> Emu S W -> outcome (bool * Emu S W) := cmovcc cond_ge.
Definition cmovl_execute : Instruction -> Emu S W -> outcome (bool * Emu S W) := cmovcc cond_l.
Definition cmovle_execute : Instruction -> Emu S W -> outcome (bool * Emu S W) := cmovcc cond_le.
Definition cmovo_execute : Instruction -> Emu S W -> outcome (bool * Emu S W) := cmovcc cond_o.
Definition cmovno_execute : Instruction -> Emu S W -> outcome (bool * Emu S W) := cmovcc cond_no.
Definition cmovp_execute : Instruction -> Emu S W -> outcome (bool * Emu S W) := cmovcc cond_p.
Definition cmovnp_execute : Instruction -> Emu S W -> outcome (bool * Emu S W) := cmovcc cond_np.
Definition cmovs_execute : Instruction -> Emu S W -> outcome (bool * Emu S W) := cmovcc cond_s.
Definition cmovns_execute : Instruction -> Emu S W -> outcome (bool * Emu S W) := cmovcc cond_ns.

(** ** Jumps and loops *)

Definition take_branch (addr : Z) (is_branch : bool) e : outcome (bool * Emu S W) :=
  if is_x64 (cfg e) then set_rip_with_check addr is_branch e else set_eip_emu addr is_branch e.

Definition jmp_execute ins e : outcome (bool * Emu S W) :=
  if negb (op_count ins =? 1)%nat then Ret (false, e)
  else let? addr, e := get_jump_value ins 0 e in take_branch addr false e.

Definition jrcc (zero : Regs64 -> bool) ins e : outcome (bool * Emu S W) :=
  if zero (regs e) then let? addr, e := get_jump_value ins 0 e in take_branch addr true e
  else Ret (true, e).
Definition jcxz_execute : Instruction -> Emu S W -> outcome (bool * Emu S W) := jrcc (fun r => get_cx r =? 0).
Definition jecxz_execute : Instruction -> Emu S W -> outcome (bool * Emu S W) := jrcc (fun r => get_ecx r =? 0).
Definition jrcxz_execute : Instruction -> Emu S W -> outcome (bool * Emu S W) := jrcc (fun r => r rcx =? 0).

(** [logic::loop_counter_bits], [loop_decrement], [loop_jump] *)
Definition loop_counter_bits ins : Z :=
  match code ins with
  | Loop_rel8_16_CX | Loop_rel8_32_CX | Loope_rel8_16_CX | Loope_rel8_32_CX
  | Loopne_rel8_16_CX | Loopne_rel8_32_CX => 16
  | Loop_rel8_16_ECX | Loop_rel8_32_ECX | Loop_rel8_64_ECX | Loope_rel8_16_ECX | Loope_rel8_32_ECX
  | Loope_rel8_64_ECX | Loopne_rel8_16_ECX | Loopne_rel8_32_ECX | Loopne_rel8_64_ECX => 32
  | OtherCode => 64
  end.

Definition loop_decrement (bits : Z) e : Z * Emu S W :=
  let r := regs e in
  if bits =? 16 then let v := wrap 16 (wrap 16 (get_cx r) - 1) in (v, set_regs (set_cx v r) e)
  else if bits =? 32 then let v := wrap 32 (wrap 32 (get_ecx r) - 1) in (v, set_regs (set_ecx v r) e)
  else let v := wsub (r rcx) 1 in (v, set_regs (upd rcx v r) e).

Definition loop_jump (addr : Z) e : outcome (bool * Emu S W) :=
  if is_x64 (cfg e) then set_rip_with_check addr false e else set_eip_emu addr false e.

Definition loopcc (cond : Flags -> bool) ins e : outcome (bool * Emu S W) :=
  let? addr, e := get_jump_value ins 0 e in
  let (count, e) := loop_decrement (loop_counter_bits ins) e in
  if negb (count =? 0) && cond (flags e) then loop_jump addr e else Ret (true, e).
Definition loop_execute : Instruction -> Emu S W -> outcome (bool * Emu S W) := loopcc (fun _ => true).
Definition loope_execute : Instruction -> Emu S W -> outcome (bool * Emu S W) := loopcc zf.
Definition loopne_execute : Instruction -> Emu S W -> outcome (bool * Emu S W) := loopcc (fun s => negb (zf s)).

(** ** Stack instructions *)

(** The operand size in bytes that [push] and [pop] use. *)
Definition stack_op_size ins e : Z :=
  match op_kind ins 0 with
  | OpRegister => register_size (op_register ins 0)
  | OpMemory => memory_size ins
  | _ => if is_x64 (cfg e) then 8 else 4
  end.

Definition push_execute ins e : outcome (bool * Emu S W) :=
  let? value, e := get_operand_value ins 0 true e in
  let op_size := stack_op_size ins e in
  if op_size =? 8 then stack_push64 value e
  else if op_size =? 4 then stack_push32 (wrap 32 value) e
  else stack_push16 (wrap 16 value) e.

Definition pop_execute ins e : outcome (bool * Emu S W) :=
  let op_size := stack_op_size ins e in
  let? value, e := (if op_size =? 8 then stack_pop64 true e
                    else if op_size =? 4 then stack_pop32 true e else stack_pop16 true e) in
  set_operand_value ins 0 value e.

Definition leave_execute ins e : outcome (bool * Emu S W) :=
  if is_x64 (cfg e) then
    let e := set_regs (upd rsp (regs e rbp) (regs e)) e in
    let? v, e := stack_pop64 true e in
    Ret (true, set_regs (upd rbp v (regs e)) e)
  else
    let e := set_regs (set_esp (get_ebp (regs e)) (regs e)) e in
    let? val, e := stack_pop32 true e in
    Ret (true, set_regs (set_ebp val (regs e)) e).

Definition pushfq_execute ins e : outcome (bool * Emu S W) :=
  let e := flags_mut (set_f_tf false) e in
  let e := flags_mut id e in
  stack_push64 (dump (flags e)) e.

Definition pushfd_execute ins e : outcome (bool * Emu S W) :=
  let e := flags_mut id e in
  stack_push32 (dump (flags e)) e.

Definition popfq_execute ins e : outcome (bool * Emu S W) :=
  let? v, e := stack_pop64 true e in
  Ret (true, flags_mut (load (wrap 32 v)) e).

Definition popfd_execute ins e : outcome (bool * Emu S W) :=
  let? v, e := stack_pop32 true e in
  Ret (true, flags_mut (load v) e).

Definition pushf_execute ins e : outcome (bool * Emu S W) :=
  let e := flags_mut id e in
  let val := wrap 16 (Z.land (dump (flags e)) 0xffff) in
  let e := set_sp (wsub (sp e) 2) e in
  '(ok, e) ← on_maps (write_word (sp e) val) e;
  if ok : bool then Ret (true, e) else Ret (false, exception WritingWord e).

Definition popf_execute ins e : outcome (bool * Emu S W) :=
  '(v, e) ← on_maps (read_word (sp e)) e;
  match v with
  | None => Ret (false, exception PopfCannotReadStack e)
  | Some v =>
      let e := flags_mut id e in
      let flags2 := wrap 32 (Z.land (dump (flags e)) 0xffff0000 + v) in
      let e := flags_mut (load flags2) e in
      Ret (true, set_sp (wadd (sp e) 2) e)
  end.

(** ** Sign extension of the accumulator *)

Definition cbw_execute ins e : outcome (bool * Emu S W) :=
  Ret (true, set_regs (set_ax (wrap 16 (sgn 8 (get_al (regs e)))) (regs e)) e).

Definition cwde_execute ins e : outcome (bool * Emu S W) :=
  Ret (true, set_regs (set_eax (wrap 32 (sgn 16 (get_ax (regs e)))) (regs e)) e).

Definition cdqe_execute ins e : outcome (bool * Emu S W) :=
  Ret (true, set_regs (upd rax (wrap 64 (sgn 32 (get_eax (regs e)))) (regs e)) e).

Definition cwd_execute ins e : outcome (bool * Emu S W) :=
  let sigextend := wrap 32 (sgn 16 (get_ax (regs e))) in
  let r := set_ax (Z.land sigextend 0xffff) (regs e) in
  let r := set_dx (Z.shiftr (Z.land sigextend 0xffff0000) 16) r in
  Ret (true, set_regs r e).

Definition cdq_execute ins e : outcome (bool * Emu S W) :=
  let unum := wrap 64 (sgn 32 (get_eax (regs e))) in
  let r := set_edx (Z.shiftr (Z.land unum 0xffffffff00000000) 32) (regs e) in
  let rax_upper := Z.shiftr (r rax) 32 in
  let r := upd rax (Z.lor (shl 64 rax_upper 32) (Z.land unum 0xffffffff)) r in
  Ret (true, set_regs r e).

Definition cqo_execute ins e : outcome (bool * Emu S W) :=
  let sigextend := wrap 128 (sgn 64 (regs e rax)) in
  Ret (true, set_regs (upd rdx (wrap 64 (Z.shiftr (Z.land sigextend 0xffffffffffffffff0000000000000000) 64))
                         (regs e)) e).

(** ** Flag instructions *)

Definition clc_execute ins e : outcome (bool * Emu S W) := Ret (true, flags_mut (set_f_cf false) e).
Definition stc_execute ins e : outcome (bool * Emu S W) := Ret (true, flags_mut (set_f_cf true) e).
Definition cmc_execute ins e : outcome (bool * Emu S W) := Ret (true, flags_mut (set_f_cf (negb (flag_cf e))) e).
Definition cld_execute ins e : outcome (bool * Emu S W) := Ret (true, flags_mut (set_f_df false) e).
Definition std_execute ins e : outcome (bool * Emu S W) := Ret (true, flags_mut (set_f_df true) e).

Definition lahf_execute ins e : outcome (bool * Emu S W) :=
  let result := 0 in
  let result := set_bit 8 result 0 (Z.b2z (flag_cf e)) in
  let result := set_bit 8 result 1 1 in
  let result := set_bit 8 result 2 (Z.b2z (flag_pf e)) in
  let result := set_bit 8 result 3 0 in
  let result := set_bit 8 result 4 (Z.b2z (flag_af e)) in
  let result := set_bit 8 result 5 0 in
  let result := set_bit 8 result 6 (Z.b2z (flag_zf e)) in
  let result := set_bit 8 result 7 (Z.b2z (flag_sf e)) in
  Ret (true, set_regs (set_ah result (regs e)) e).

Definition sahf_execute ins e : outcome (bool * Emu S W) :=
  let ah := wrap 8 (get_ah (regs e)) in
  let e := flags_mut (set_f_cf (negb (Z.land ah 0x01 =? 0))) e in
  let e := flags_mut (set_f_pf (negb (Z.land ah 0x04 =? 0))) e in
  let e := flags_mut (set_f_af (negb (Z.land ah 0x10 =? 0))) e in
  let e := flags_mut (set_f_zf (negb (Z.land ah 0x40 =? 0))) e in
  let e := flags_mut (set_f_sf (negb (Z.land ah 0x80 =? 0))) e in
  Ret (true, e).

Definition salc_execute ins e : outcome (bool * Emu S W) :=
  Ret (true, set_regs (set_al (if flag_cf e then 1 else 0) (regs e)) e).

Definition nop_execute ins e : outcome (bool * Emu S W) := Ret (true, e).

End Handlers.
