(* ===== verification/AluSpec.v ===== *)
(** * Correctness of the arithmetic and logic instructions

    An abstract machine for the two-operand and one-operand ALU instructions:
    the value and the status flags that the x86 manual prescribes.  The
    handlers refine it: on every register, immediate and memory operand that is
    accessible, they store the prescribed value in operand 0 and leave the
    prescribed flags. *)

From stdpp Require Import gmap strings.
From S2P Require Import Prelude Flags FlagsArith FlagsShift Conditions Scalar Mem64 BTree Slab Tlb Maps.
From S2P Require Import MapsInv MapsLife Regs Emu Operands Stack OperandsSpec Instructions.

(** ** The abstract machine *)

Inductive alu := ADD | ADC | SUB | SBB | AND | OR | XOR | CMP | TEST.

(** The flags of a bitwise operation with result [r]. *)
Definition sdm_logic (w r : Z) : status :=
  mkStatus false (even_parity r) false (r =? 0) (Z.testbit r (w - 1)) false.

(** The result of an operation on [w]-bit operands with the carry [c]. *)
Definition alu_result (op : alu) (w a b : Z) (c : bool) : Z :=
  match op with
  | ADD => wrap w (a + b)
  | ADC => wrap w (a + b + Z.b2z c)
  | SUB | CMP => wrap w (a - b)
  | SBB => wrap w (a - b - Z.b2z c)
  | AND | TEST => Z.land a b
  | OR => Z.lor a b
  | XOR => Z.lxor a b
  end.

Definition alu_status (op : alu) (w a b : Z) (c : bool) : status :=
  match op with
  | ADD => sdm_add w a b false
  | ADC => sdm_add w a b c
  | SUB | CMP => sdm_sub w a b false
  | SBB => sdm_sub w a b c
  | AND | TEST | OR | XOR => sdm_logic w (alu_result op w a b c)
  end.

(** Whether the result is stored. *)
Definition alu_writes (op : alu) : bool := match op with CMP | TEST => false | _ => true end.

(** The control flags afterwards: the bitwise operations clear TF. *)
Definition alu_control (op : alu) (s : Flags) : list bool :=
  control (match op with AND | OR | XOR | TEST => set_f_tf false s | _ => s end).

Section Spec.
Context {S W : Type} `{SlabLaws S} `{Environment S W}.
Implicit Types (e : Emu S W) (ins : Instruction).

Definition alu_execute (op : alu) : Instruction -> Emu S W -> outcome (bool * Emu S W) :=
  match op with
  | ADD => add_execute | ADC => adc_execute | SUB => sub_execute | SBB => sbb_execute
  | AND => and_execute | OR => or_execute | XOR => xor_execute | CMP => cmp_execute | TEST => test_execute
  end.

(** [e'] is [e] with value [r] in operand 0, status [st] and control flags
    [ctl], up to the TLB; with [None] no operand is written. *)
Definition completes ins (r : option Z) (st : status) (ctl : list bool) e (e' : Emu S W) : Prop :=
  exists e1 s, warmed e e1 /\ observe s = st /\ control s = ctl
    /\ match r with
       | Some r => stored ins 0 r (set_flags s e1) e'
       | None => e' = set_flags s e1
       end.

(** ** Storing the result of a flags routine *)

Lemma set_flags_wf s e : wf_emu e -> wf_emu (set_flags s e).
Proof. now intros [? ?]. Qed.

Lemma set_flags_quiet s e : quiet e -> quiet (set_flags s e).
Proof. now intros [? ? ? ?]. Qed.

Lemma set_flags_view s e : same_view e (set_flags s e).
Proof. split; reflexivity. Qed.

Lemma set_flags_target ins n w s e : target ins n w e -> target ins n w (set_flags s e).
Proof. apply view_target, set_flags_view. Qed.

(** The tail of every handler that computes flags and stores a result. *)
Lemma store_completes ins w r s st ctl e e1 :
  wf_emu e -> quiet e -> wf_ins ins -> target ins 0 w e -> warmed e e1 ->
  is_word 64 r -> observe s = st -> control s = ctl ->
  exists e', set_operand_value ins 0 r (set_flags s e1) = Ret (true, e')
    /\ wf_emu e' /\ completes ins (Some r) st ctl e e'.
Proof.
  intros Hwf Hq Hi Ht Hw Hr Ho Hc.
  destruct (target_write ins 0 w r (set_flags s e1)) as (e' & E & Hwf' & Hst); auto;
    eauto using set_flags_wf, set_flags_quiet, set_flags_target, warmed_wf, warmed_quiet, warmed_target.
  exists e'. split_and!; auto. now exists e1, s.
Qed.

(** A [w]-bit routine chosen by size that implements a result and a status. *)
Lemma by_size_width {A} (P : Z -> A -> Prop) w a64 a32 a16 a8 :
  width w -> P 64 a64 -> P 32 a32 -> P 16 a16 -> P 8 a8 -> exists a, by_size w a64 a32 a16 a8 = Some a /\ P w a.
Proof. intros [-> | [-> | [-> | ->]]] ? ? ? ?; eexists; split; try reflexivity; assumption. Qed.

Lemma word_64 w x : width w -> is_word w x -> is_word 64 x.
Proof. intros Hw. apply word_mono. unfold width in Hw. lia. Qed.

Lemma store_by_size_computes ins w a64 a32 a16 a8 r st e e1 :
  warmed e e1 -> (exists f, by_size w a64 a32 a16 a8 = Some f /\ implements f r st) ->
  exists s, observe s = st /\ control s = control (flags e)
    /\ store_by_size ins (by_size w a64 a32 a16 a8) e1 = set_operand_value ins 0 r (set_flags s e1).
Proof.
  intros Hwm (f & -> & Hf). unfold store_by_size, on_flags.
  destruct (Hf (flags e1)) as (E1 & E2 & E3). destruct (f (flags e1)) as [v s]. cbn in *. subst v.
  rewrite (warmed_flags _ _ Hwm) in E3. eauto.
Qed.

(** ** The routines of each operation *)

Lemma mask_word w x m : 0 <= w -> m = Z.ones w -> is_word w x -> Z.land x m = x /\ wrap w (Z.land x m) = x.
Proof. intros Hw -> Hx. rewrite (land_wrap w) by (auto; lia). rewrite !wrap_small; auto using wrap_word. Qed.

Lemma add_routine w a b c include :
  width w -> is_word w a -> is_word w b ->
  exists f, by_size w (add64 a b c include)
      (add32 (wrap 32 (Z.land a 0xffffffff)) (wrap 32 (Z.land b 0xffffffff)) c include)
      (add16 (wrap 16 (Z.land a 0xffff)) (wrap 16 (Z.land b 0xffff)) c include)
      (add8 (wrap 8 (Z.land a 0xff)) (wrap 8 (Z.land b 0xff)) c include) = Some f
    /\ implements f (wrap w (a + b + Z.b2z (carry_in c include))) (sdm_add w a b (carry_in c include)).
Proof.
  intros Hw Ha Hb. destruct add_all as (H64 & H32 & H16 & H8).
  destruct Hw as [-> | [-> | [-> | ->]]]; eexists; (split; [reflexivity |]);
    rewrite ?(proj2 (mask_word 32 _ 0xffffffff ltac:(lia) eq_refl Ha)), ?(proj2 (mask_word 32 _ 0xffffffff ltac:(lia) eq_refl Hb)),
      ?(proj2 (mask_word 16 _ 0xffff ltac:(lia) eq_refl Ha)), ?(proj2 (mask_word 16 _ 0xffff ltac:(lia) eq_refl Hb)),
      ?(proj2 (mask_word 8 _ 0xff ltac:(lia) eq_refl Ha)), ?(proj2 (mask_word 8 _ 0xff ltac:(lia) eq_refl Hb)); auto.
Qed.

Lemma sub_ok_word w op a b :
  width w -> sub_ok w op -> is_word w a -> is_word w b -> implements (op a b) (wrap w (a - b)) (sdm_sub w a b false).
Proof.
  intros Hw Hop Ha Hb. specialize (Hop a b (word_64 w a Hw Ha) (word_64 w b Hw Hb)). cbv zeta in Hop.
  now rewrite !(wrap_small w a Ha), !(wrap_small w b Hb) in Hop.
Qed.

Lemma sbb_ok_word w op a b c :
  width w -> sbb_ok w op -> is_word w a -> is_word w b ->
  implements (op a b c) (wrap w (a - b - Z.b2z c)) (sdm_sub w a b c).
Proof.
  intros Hw Hop Ha Hb. specialize (Hop a b c (word_64 w a Hw Ha) (word_64 w b Hw Hb)). cbv zeta in Hop.
  now rewrite !(wrap_small w a Ha), !(wrap_small w b Hb) in Hop.
Qed.

Lemma sub_routine w a b :
  width w -> is_word w a -> is_word w b ->
  exists f, by_size w (sub64 a b) (sub32 a b) (sub16 a b) (sub8 a b) = Some f
    /\ implements f (wrap w (a - b)) (sdm_sub w a b false).
Proof.
  intros Hw. revert a b. destruct sub_all as (H64 & H32 & H16 & H8).
  destruct Hw as [-> | [-> | [-> | ->]]]; intros a b Ha Hb; eexists; (split; [reflexivity |]);
    apply sub_ok_word; auto; unfold width; lia.
Qed.

Lemma sbb_routine w a b c :
  width w -> is_word w a -> is_word w b ->
  exists f, by_size w (sub64_borrow a b c) (sub32_borrow a (Z.land b 0xffffffff) c)
      (sub16_borrow a (Z.land b 0xffff) c) (sub8_borrow a (Z.land b 0xff) c) = Some f
    /\ implements f (wrap w (a - b - Z.b2z c)) (sdm_sub w a b c).
Proof.
  intros Hw. revert a b. destruct sbb_all as (H64 & H32 & H16 & H8).
  destruct Hw as [-> | [-> | [-> | ->]]]; intros a b Ha Hb; eexists; (split; [reflexivity |]);
    rewrite ?(proj1 (mask_word 32 _ 0xffffffff ltac:(lia) eq_refl Hb)),
      ?(proj1 (mask_word 16 _ 0xffff ltac:(lia) eq_refl Hb)), ?(proj1 (mask_word 8 _ 0xff ltac:(lia) eq_refl Hb));
    apply sbb_ok_word; auto; unfold width; lia.
Qed.

Lemma land_shiftl_word k a n : 0 <= k -> is_word k a -> Z.land a (Z.shiftl n k) = 0.
Proof.
  intros Hk Ha. apply Z.bits_inj'. intros i Hi. rewrite Z.land_spec, Z.bits_0, Z.shiftl_spec by lia.
  destruct (Z.lt_ge_cases i k); [rewrite (Z.testbit_neg_r n) by lia | rewrite (word_high k a) by auto]; btauto.
Qed.

(** [and] and [or] mask by size before they operate. *)
Lemma and_or_routine op w a b :
  width w -> is_word w a -> is_word w b -> is_word w (op a b) ->
  by_size w (op a b, op a b)
    (op (Z.land a 0xffffffff) (Z.land b 0xffffffff),
     wadd (Z.land a 0xffffffff00000000) (op (Z.land a 0xffffffff) (Z.land b 0xffffffff)))
    (op (Z.land a 0xffff) (Z.land b 0xffff),
     wadd (Z.land a 0xffffffffffff0000) (op (Z.land a 0xffff) (Z.land b 0xffff)))
    (op (Z.land a 0xff) (Z.land b 0xff),
     wadd (Z.land a 0xffffffffffffff00) (op (Z.land a 0xff) (Z.land b 0xff)))
  = Some (op a b, op a b).
Proof.
  intros Hw Ha Hb Hr. unfold wadd. destruct Hw as [-> | [-> | [-> | ->]]]; cbn [by_size Z.eqb Pos.eqb]; [| | |reflexivity].
  all: first [ rewrite (proj1 (mask_word 8 a 0xff ltac:(lia) eq_refl Ha)), (proj1 (mask_word 8 b 0xff ltac:(lia) eq_refl Hb));
               change 0xffffffffffffff00 with (Z.shiftl 0xffffffffffffff 8); rewrite land_shiftl_word by (auto; lia)
             | rewrite (proj1 (mask_word 16 a 0xffff ltac:(lia) eq_refl Ha)), (proj1 (mask_word 16 b 0xffff ltac:(lia) eq_refl Hb));
               change 0xffffffffffff0000 with (Z.shiftl 0xffffffffffff 16); rewrite land_shiftl_word by (auto; lia)
             | rewrite (proj1 (mask_word 32 a 0xffffffff ltac:(lia) eq_refl Ha)), (proj1 (mask_word 32 b 0xffffffff ltac:(lia) eq_refl Hb));
               change 0xffffffff00000000 with (Z.shiftl 0xffffffff 32); rewrite land_shiftl_word by (auto; lia) ].
  all: rewrite Z.add_0_l, (wrap_small 64); [reflexivity | eapply word_64; [|exact Hr]; unfold width; lia].
Qed.

Lemma logic_control w r s : width w -> control (calc_logic_flags_lazy r w s) = control (set_f_tf false s).
Proof. now intros [-> | [-> | [-> | ->]]]. Qed.

(** ** Two-operand instructions *)

(** The flags of a bitwise operation, and TF cleared. *)
Lemma logic_computes w r e e1 :
  width w -> warmed e e1 -> is_word w r ->
  observe (calc_logic_flags_lazy r w (flags e1)) = sdm_logic w r
  /\ control (calc_logic_flags_lazy r w (flags e1)) = control (set_f_tf false (flags e)).
Proof.
  intros Hw Hwm Hr. split; [now apply logic_flags |].
  rewrite logic_control by assumption. now rewrite (warmed_flags e e1).
Qed.

Lemma on_flags_snd {A} (f : Flags -> A * Flags) e : (on_flags f e).2 = set_flags (f (flags e)).2 e.
Proof. unfold on_flags. now destruct (f (flags e)). Qed.

Lemma alu_result_word op w a b c : width w -> is_word w a -> is_word w b -> is_word w (alu_result op w a b c).
Proof.
  intros Hw Ha Hb. assert (0 <= w) by (unfold width in Hw; lia).
  destruct op; cbn; auto using wrap_word, word_land, word_lor, word_lxor.
Qed.

Lemma add_zero_carry w a b : wrap w (a + b) = wrap w (a + b + Z.b2z false).
Proof. f_equal. cbn. lia. Qed.

(** The handlers up to the store: the operands are read, the flags computed. *)
Lemma alu_computes op ins w e :
  wf_emu e -> quiet e -> wf_ins ins -> width w -> break_on_next_cmp e = false ->
  source ins 0 w e -> source ins 1 w e ->
  exists a b e1 s, operand_value ins 0 e = Some a /\ operand_value ins 1 e = Some b
    /\ is_word w a /\ is_word w b /\ warmed e e1
    /\ observe s = alu_status op w a b (flag_cf e) /\ control s = alu_control op (flags e)
    /\ alu_execute op ins e =
       if alu_writes op then set_operand_value ins 0 (alu_result op w a b (flag_cf e)) (set_flags s e1)
       else Ret (true, set_flags s e1).
Proof.
  intros Hwf Hq Hi Hw Hbrk Hs0 Hs1.
  destruct (read_two ins 0 1 w w e) as (a & b & e1 & e2 & E1 & E2 & Va & Vb & Wa & Wb & W1 & W2); auto.
  pose proof (alu_result_word op w a b (flag_cf e) Hw Wa Wb) as Hr. exists a, b, e2.
  assert (get_operand_sz ins 0 = w /\ get_operand_sz ins 1 = w) as [Z0 Z1] by (split; [apply Hs0 | apply Hs1]).
  enough (exists s, observe s = alu_status op w a b (flag_cf e) /\ control s = alu_control op (flags e)
    /\ alu_execute op ins e =
       if alu_writes op then set_operand_value ins 0 (alu_result op w a b (flag_cf e)) (set_flags s e2)
       else Ret (true, set_flags s e2)) as (s & ? & ? & ?) by (exists s; split_and!; auto).
  destruct op; cbn [alu_execute alu_writes alu_result alu_status] in *.
  - unfold add_execute. rewrite E1. cbn. rewrite E2. cbn. rewrite Z1.
    rewrite add_zero_carry. apply store_by_size_computes; auto. now apply (add_routine w a b false false).
  - unfold adc_execute. rewrite E1. cbn. rewrite E2. cbn. rewrite Z1. unfold flag_cf.
    rewrite (warmed_flags _ _ W2). apply store_by_size_computes; auto. now apply (add_routine w a b (flag_cf e) true).
  - unfold sub_execute. rewrite E1. cbn. rewrite E2. cbn. rewrite Z0.
    apply store_by_size_computes; auto. now apply sub_routine.
  - unfold sbb_execute. rewrite E1. cbn. rewrite E2. cbn. rewrite Z0.
    apply store_by_size_computes; auto. now apply sbb_routine.
  - destruct (logic_computes w _ e e2 Hw W2 Hr). eexists. split_and!; eauto.
    unfold and_execute, and_or_execute. rewrite E1. cbn. rewrite E2. cbn. now rewrite Z0, and_or_routine by auto.
  - destruct (logic_computes w _ e e2 Hw W2 Hr). eexists. split_and!; eauto.
    unfold or_execute, and_or_execute. rewrite E1. cbn. rewrite E2. cbn. now rewrite Z0, and_or_routine by auto.
  - destruct (logic_computes w _ e e2 Hw W2 Hr). eexists. split_and!; eauto.
    unfold xor_execute. rewrite E1. cbn. rewrite E2. cbn. now rewrite Z0.
  - unfold cmp_execute. rewrite E1. cbn. rewrite E2. cbn. rewrite Z0.
    destruct (sub_routine w a b) as (f & -> & Hf); auto.
    destruct W2 as (t & Ht2 & ->). cbn. rewrite Hbrk, on_flags_snd. destruct (Hf (flags e)) as (_ & Ho & Hc).
    now exists (f (flags e)).2.
  - destruct (logic_computes w _ e e2 Hw W2 Hr). exists (test a b w (flags e2)). split_and!; auto.
    unfold test_execute. rewrite Hbrk, E1. cbn. rewrite E2. cbn. now rewrite Z0.
Qed.

Lemma alu_spec op ins w e :
  wf_emu e -> quiet e -> wf_ins ins -> width w -> break_on_next_cmp e = false ->
  source ins 0 w e -> source ins 1 w e -> (alu_writes op = true -> target ins 0 w e) ->
  exists a b e', operand_value ins 0 e = Some a /\ operand_value ins 1 e = Some b
    /\ alu_execute op ins e = Ret (true, e') /\ wf_emu e'
    /\ let c := flag_cf e in
       completes ins (if alu_writes op then Some (alu_result op w a b c) else None)
         (alu_status op w a b c) (alu_control op (flags e)) e e'.
Proof.
  intros Hwf Hq Hi Hw Hbrk Hs0 Hs1 Ht.
  destruct (alu_computes op ins w e) as (a & b & e1 & s & Va & Vb & Wa & Wb & W1 & Ho & Hc & E); auto.
  exists a, b. rewrite E. destruct (alu_writes op).
  - destruct (store_completes ins w (alu_result op w a b (flag_cf e)) s (alu_status op w a b (flag_cf e))
      (alu_control op (flags e)) e e1) as (e' & ? & ? & ?); eauto using word_64, alu_result_word.
    exists e'. auto.
  - exists (set_flags s e1). split_and!; eauto using set_flags_wf, warmed_wf. now exists e1, s.
Qed.

(** C5. ADD, ADC, SUB, SBB, AND, OR, XOR, CMP and TEST at every width, on register,
    immediate and memory operands: the handler reads the two operands, stores the
    result of the operation modulo the width in operand 0 (CMP and TEST store
    nothing) and leaves exactly the status flags the x86 manual defines, the bitwise
    ones clearing TF besides; nothing else changes but the TLB, and the handler
    returns true. *)
Theorem alu_refines op ins w e :
  wf_emu e -> quiet e -> wf_ins ins -> width w -> break_on_next_cmp e = false ->
  source ins 0 w e -> source ins 1 w e -> (alu_writes op = true -> target ins 0 w e) ->
  exists a b e', operand_value ins 0 e = Some a /\ operand_value ins 1 e = Some b
    /\ alu_execute op ins e = Ret (true, e') /\ wf_emu e'
    /\ let c := flag_cf e in
       completes ins (if alu_writes op then Some (alu_result op w a b c) else None)
         (alu_status op w a b c) (alu_control op (flags e)) e e'.
Proof. apply alu_spec. Qed.

(** ** One-operand instructions *)

Definition with_af (a : bool) (st : status) : status :=
  mkStatus (s_cf st) (s_pf st) a (s_zf st) (s_sf st) (s_of st).

Lemma materialized_set s :
  let m := materialize_lazy s in
  (forall c, observe (set_f_cf c m) = with_cf c (observe s) /\ control (set_f_cf c m) = control s)
  /\ (forall a, observe (set_f_af a m) = with_af a (observe s) /\ control (set_f_af a m) = control s).
Proof.
  cbv zeta. destruct (materialize_transparent s) as [[Ho Hc] [Hk _]].
  split; intros b; (split; [|exact Hc]); rewrite <- Ho, (materialized_fields (materialize_lazy s)) by exact Hk;
    rewrite materialized_fields by exact Hk; reflexivity.
Qed.

(** [neg] computes AF as bit 3 of the operand or of the result: the operand's low
    digit is not zero. *)
Lemma neg_af w v : 8 <= w -> negb (Z.land (Z.lor (wrap w (0 - v)) v) 0x8 =? 0) = negb (v mod 16 =? 0).
Proof.
  intros Hw. f_equal.
  assert (Z.land (Z.lor (wrap w (0 - v)) v) 8 = Z.land (Z.lor (wrap 4 (0 - wrap 4 v)) (wrap 4 v)) 8) as ->.
  { apply Z.bits_inj'. intros i Hi. rewrite !Z.land_spec, !Z.lor_spec.
    destruct (Z.lt_ge_cases i 4); [|change 8 with (2 ^ 3); rewrite Z.pow2_bits_false by lia; btauto].
    rewrite !testbit_wrap by lia. split_ltb. cbn [andb]. do 2 f_equal.
    rewrite <- (Z.mod_pow2_bits_low (0 - v) 4), <- (Z.mod_pow2_bits_low (0 - wrap 4 v) 4) by lia.
    unfold wrap. now rewrite Zminus_mod_idemp_r. }
  change (v mod 16) with (wrap 4 v). pose proof (wrap_word 4 v ltac:(lia)) as Hn. unfold is_word in Hn.
  generalize dependent (wrap 4 v). intros n Hn.
  assert (exists k, n = Z.of_nat k /\ (k < 16)%nat) as (k & -> & Hk) by (exists (Z.to_nat n); lia).
  do 16 (destruct k as [|k]; [reflexivity |]). lia.
Qed.

Inductive unop := INC | DEC | NEG | NOT.

Definition unop_execute (op : unop) : Instruction -> Emu S W -> outcome (bool * Emu S W) :=
  match op with INC => inc_execute | DEC => dec_execute | NEG => neg_execute | NOT => not_execute end.

Definition unop_result (op : unop) (w a : Z) : Z :=
  match op with
  | INC => wrap w (a + 1) | DEC => wrap w (a - 1) | NEG => wrap w (0 - a) | NOT => 2 ^ w - 1 - a
  end.

Definition unop_status (op : unop) (w a : Z) (st : status) : status :=
  match op with
  | INC => with_cf (s_cf st) (sdm_add w a 1 false)
  | DEC => with_cf (s_cf st) (sdm_sub w a 1 false)
  | NEG => sdm_sub w 0 a false
  | NOT => st
  end.

Definition unop_control (op : unop) (s : Flags) : list bool :=
  control (match op with NEG => set_f_tf false s | _ => s end).

Lemma step_routine w sdm delta (f64 f32 f16 f8 : Z -> Flags -> Z * Flags) a s :
  width w -> is_word w a ->
  step_ok 64 sdm delta f64 /\ step_ok 32 sdm delta f32 /\ step_ok 16 sdm delta f16 /\ step_ok 8 sdm delta f8 ->
  exists f, by_size w (f64 a) (f32 a) (f16 a) (f8 a) = Some f
    /\ fst (f s) = wrap w (a + delta) /\ observe (snd (f s)) = with_cf (cf s) (sdm w a 1 false)
    /\ control (snd (f s)) = control s.
Proof.
  intros Hw Ha (H64 & H32 & H16 & H8). pose proof (word_64 w a Hw Ha) as Ha'.
  destruct Hw as [-> | [-> | [-> | ->]]]; eexists; (split; [reflexivity |]);
    [specialize (H8 a s Ha') as HH | specialize (H16 a s Ha') as HH | specialize (H32 a s Ha') as HH
    | specialize (H64 a s Ha') as HH]; cbv zeta in HH; now rewrite (wrap_small _ a Ha) in HH.
Qed.

Lemma neg_routine w a :
  width w -> is_word w a ->
  exists f, by_size w (neg64 a) (neg32 a) (neg16 a) (neg8 a) = Some f
    /\ forall s, fst (f s) = wrap w (0 - a) /\ observe (snd (f s)) = sdm_sub w 0 a false
      /\ control (snd (f s)) = control (set_f_tf false s).
Proof.
  intros Hw. destruct neg_all as (H64 & H32 & H16 & H8).
  destruct Hw as [-> | [-> | [-> | ->]]]; intros Ha; eexists; (split; [reflexivity |]); intros s; auto.
Qed.

Lemma bnot_word w x : 0 <= w -> is_word w x -> bnot w x = 2 ^ w - 1 - x.
Proof.
  intros Hw Hx. unfold bnot. rewrite Z.land_ones by lia. unfold Z.lnot, is_word in *.
  rewrite <- (Z.mod_add _ 1) by lia. rewrite Z.mod_small; lia.
Qed.

Lemma not_routine w a :
  width w -> is_word w a ->
  by_size w (bnot 64 a) (bnot 32 (wrap 32 a))
    (Z.lor (Z.land a 0xffffffffffff0000) (bnot 16 (wrap 16 a)))
    (Z.lor (Z.land a 0xffffffffffffff00) (bnot 8 (wrap 8 a))) = Some (2 ^ w - 1 - a).
Proof.
  intros Hw Ha. destruct Hw as [-> | [-> | [-> | ->]]]; cbn [by_size Z.eqb Pos.eqb]; f_equal;
    rewrite ?wrap_small, ?bnot_word by (auto; lia); try reflexivity.
  - change 0xffffffffffffff00 with (Z.shiftl 0xffffffffffffff 8). rewrite land_shiftl_word by (auto; lia). reflexivity.
  - change 0xffffffffffff0000 with (Z.shiftl 0xffffffffffff 16). rewrite land_shiftl_word by (auto; lia). reflexivity.
Qed.

Lemma set_flags_twice s s' e : set_flags s (set_flags s' e) = set_flags s e.
Proof. reflexivity. Qed.

Lemma set_flags_same e : set_flags (flags e) e = e.
Proof. now destruct e. Qed.

Lemma unop_spec op ins w e :
  wf_emu e -> quiet e -> wf_ins ins -> width w -> source ins 0 w e -> target ins 0 w e ->
  exists a e', operand_value ins 0 e = Some a
    /\ unop_execute op ins e = Ret (true, e') /\ wf_emu e'
    /\ completes ins (Some (unop_result op w a)) (unop_status op w a (observe (flags e)))
         (unop_control op (flags e)) e e'.
Proof.
  intros Hwf Hq Hi Hw Hs Ht. assert (8 <= w) by (unfold width in Hw; lia).
  destruct (read_operand ins 0 w e) as (a & e1 & E1 & Va & Wa & W1); auto. exists a.
  pose proof (proj1 Hs) as Z0.
  enough (exists e', unop_execute op ins e = Ret (true, e') /\ wf_emu e'
    /\ completes ins (Some (unop_result op w a)) (unop_status op w a (observe (flags e)))
         (unop_control op (flags e)) e e') as (e' & ? & ? & ?) by (exists e'; auto).
  destruct op; cbn [unop_execute unop_result unop_status].
  - unfold inc_execute. rewrite E1. cbn. rewrite Z0.
    destruct (step_routine w sdm_add 1 inc64 inc32 inc16 inc8 a (flags e1)) as (f & -> & Hr & Ho & Hc);
      auto using inc_all.
    unfold store_by_size, on_flags. destruct (f (flags e1)) as [r s]. cbn in *. subst r.
    rewrite (warmed_flags _ _ W1) in *. eapply store_completes; eauto using word_64, wrap_word with lia.
  - unfold dec_execute. rewrite E1. cbn. rewrite Z0.
    destruct (step_routine w sdm_sub (-1) dec64 dec32 dec16 dec8 a (flags e1)) as (f & -> & Hr & Ho & Hc);
      auto using dec_all.
    unfold store_by_size, on_flags. destruct (f (flags e1)) as [r s]. cbn in *. subst r.
    rewrite (warmed_flags _ _ W1) in *. eapply store_completes; eauto using word_64, wrap_word with lia.
  - unfold neg_execute. rewrite E1. cbn. rewrite Z0.
    destruct (neg_routine w a) as (f & -> & Hf); auto. unfold on_flags, flags_mut.
    destruct (Hf (materialize_lazy (flags e1))) as (Hr & Ho & Hc).
    destruct (f (materialize_lazy (flags e1))) as [r s]. cbn [fst snd] in *. subst r.
    set (s1 := set_f_cf (negb (a =? 0)) (materialize_lazy s)).
    destruct (proj1 (materialized_set s) (negb (a =? 0))) as [O1 C1].
    destruct (proj2 (materialized_set s1) (negb (a mod 16 =? 0))) as [O2 C2].
    rewrite neg_af by lia. rewrite sdm_neg in Ho |- * by auto.
    cbn [flags set_flags]. rewrite !set_flags_twice. fold s1.
    eapply store_completes; eauto using word_64, wrap_word with lia.
    + rewrite O2. unfold s1. rewrite O1, Ho. reflexivity.
    + rewrite C2. unfold s1. rewrite C1, Hc.
      rewrite (warmed_flags _ _ W1). unfold unop_control.
      destruct (materialize_transparent (flags e)) as [[_ Hm] _]. unfold control in *. cbn. injection Hm. congruence.
  - unfold not_execute. rewrite E1. cbn. rewrite Z0, not_routine by auto.
    rewrite <- (set_flags_same e1). rewrite (warmed_flags _ _ W1).
    eapply store_completes; eauto. apply (word_64 w); auto. unfold is_word in *. lia.
Qed.

(** INC, DEC, NEG and NOT at every width, on register and memory operands: the
    result modulo the width is stored, and the flags are those of the x86 manual:
    INC and DEC keep CF, NEG has the flags of a subtraction from zero and clears TF,
    NOT changes none. *)
Theorem unop_refines op ins w e :
  wf_emu e -> quiet e -> wf_ins ins -> width w -> source ins 0 w e -> target ins 0 w e ->
  exists a e', operand_value ins 0 e = Some a
    /\ unop_execute op ins e = Ret (true, e') /\ wf_emu e'
    /\ completes ins (Some (unop_result op w a)) (unop_status op w a (observe (flags e)))
         (unop_control op (flags e)) e e'.
Proof. apply unop_spec. Qed.
End Spec.
