(* ===== verification/ShiftSpec.v ===== *)
(** * Correctness of the shift and rotate instructions

    The handlers of the shifts, the rotates and the double shifts refine the
    operations of the x86 manual on their operands, in the one-operand form and
    with a count in a register or an immediate. *)

From stdpp Require Import gmap strings.
From S2P Require Import Prelude Flags FlagsArith FlagsShift Scalar Mem64 BTree Slab Tlb Maps MapsInv MapsLife.
From S2P Require Import Regs Emu Operands Stack OperandsSpec Instructions AluSpec.

(** ** Shifts *)

Inductive shift := SHL | SHR | SAR | SAL.

Definition shift_result (op : shift) (w v c : Z) : Z :=
  match op with
  | SHL | SAL => wrap w (v * 2 ^ c)
  | SHR => v / 2 ^ c
  | SAR => wrap w (sgn w v / 2 ^ c)
  end.

(** The last bit shifted out. *)
Definition shift_cf (op : shift) (w v c : Z) : bool :=
  match op with
  | SHL | SAL => Z.testbit (v * 2 ^ c) w
  | SHR => Z.testbit v (c - 1)
  | SAR => Z.testbit (sgn w v) (c - 1)
  end.

(** The overflow of a shift by one; longer shifts clear it. *)
Definition shift_of (op : shift) (w v c : Z) : bool :=
  match op with
  | SHL | SAL => (c =? 1) && signed_overflow w (2 * sgn w v)
  | SHR => (c =? 1) && Z.testbit v (w - 1)
  | SAR => false
  end.

(** The flags after a shift by a masked count; AF is undefined. *)
Definition shift_status (op : shift) (w v c : Z) (af : bool) (st : status) : status :=
  if c =? 0 then st
  else let r := shift_result op w v c in
       mkStatus (shift_cf op w v c) (even_parity r) af (r =? 0) (Z.testbit r (w - 1)) (shift_of op w v c).

Definition shift_control (c : Z) (s : Flags) : list bool := control (if c =? 0 then s else set_f_tf false s).

Section Spec.
Context {S W : Type} `{SlabLaws S} `{Environment S W}.
Implicit Types (e : Emu S W) (ins : Instruction).

Definition shift_handler (op : shift) : Instruction -> Emu S W -> outcome (bool * Emu S W) :=
  match op with SHL => shl_execute | SHR => shr_execute | SAR => sar_execute | SAL => sal_execute end.

(** The count of a shift: one, or the value of operand 1. *)
Definition count_operand ins (w1 : Z) e : Prop := op_count ins = 1%nat \/ (op_count ins <> 1%nat /\ source ins 1 w1 e).
Definition count_value ins e : option Z :=
  if (op_count ins =? 1)%nat then Some 1 else operand_value ins 1 e.

(** ** The routines *)

Definition shift_two (op : shift) (w v n : Z) : option (Flags -> Z * Flags) :=
  match op with
  | SHL => by_size w (shl2p64 v n) (shl2p32 v n) (shl2p16 v n) (shl2p8 v n)
  | SHR => by_size w (shr2p64 v n) (shr2p32 v n) (shr2p16 v n) (shr2p8 v n)
  | SAR => by_size w (sar2p64 v n) (sar2p32 v n) (sar2p16 v n) (sar2p8 v n)
  | SAL => option_map (fun f s => f (materialize_lazy s))
             (by_size w (sal2p64 v n) (sal2p32 v n) (sal2p16 v n) (sal2p8 v n))
  end.

(** What a routine of the width does, whatever the flags before. *)
Definition shifts_by (op : shift) (w v c : Z) (f : Flags -> Z * Flags) : Prop :=
  forall s, exists af, fst (f s) = shift_result op w v c
    /\ observe (snd (f s)) = shift_status op w v c af (observe s)
    /\ control (snd (f s)) = shift_control c s.

Lemma shift_result_word op w v c : 0 <= c -> 0 <= w -> is_word w v -> is_word w (shift_result op w v c).
Proof. intros. destruct op; cbn; auto using wrap_word, shr_result. Qed.

Lemma shift_result_0 op w v : 0 < w -> is_word w v -> shift_result op w v 0 = v.
Proof.
  intros Hw Hv. destruct op; cbn; rewrite ?Z.mul_1_r, ?Z.div_1_r; auto using wrap_small.
  rewrite wrap_sgn by lia. now apply wrap_small.
Qed.

Lemma shift_ok_by op w op2 v n :
  width w -> is_word w v -> is_word 64 n ->
  shift_ok w (shift_result op w) (shift_cf op w) (shift_of op w) op2 ->
  shifts_by op w v (shift_count w n) (op2 v n).
Proof.
  intros Hw Hv Hn Hop s. specialize (Hop v n s Hv Hn). cbv zeta in Hop.
  unfold shift_status, shift_control. exists (f_af s). destruct (Z.eqb_spec (shift_count w n) 0) as [E|E].
  - rewrite Hop, E. cbn [fst snd]. rewrite shift_result_0; [auto | unfold width in Hw; lia | exact Hv].
  - exact Hop.
Qed.

Lemma shifts_by_materialized op w v c f :
  shifts_by op w v c f -> shifts_by op w v c (fun s => f (materialize_lazy s)).
Proof.
  intros Hf s. destruct (Hf (materialize_lazy s)) as (af & Hr & Ho & Hc). exists af.
  destruct (materialize_transparent s) as [[Eo Ec] _]. rewrite Eo in Ho. split_and!; auto.
  rewrite Hc. unfold shift_control. destruct (c =? 0); [exact Ec |].
  unfold control in *. cbn. injection Ec. congruence.
Qed.

Lemma shift_routine op w v n :
  width w -> is_word w v -> is_word 64 n ->
  exists f, shift_two op w v n = Some f /\ shifts_by op w v (shift_count w n) f.
Proof.
  intros Hw Hv Hn. pose proof shl_all as (L64 & L32 & L16 & L8). pose proof shr_all as (R64 & R32 & R16 & R8).
  pose proof sar_all as (A64 & A32 & A16 & A8).
  assert (Hw' := Hw).
  destruct op, Hw' as [-> | [-> | [-> | ->]]]; eexists; (split; [reflexivity |]);
    try apply (shifts_by_materialized SAL); apply shift_ok_by; auto.
Qed.

(** ** Reading the count *)

(** The handlers read operand 0 and, in the two-operand form, the count. *)
Lemma read_shift ins w w1 e :
  wf_emu e -> quiet e -> wf_ins ins -> 0 <= w1 <= 64 -> source ins 0 w e -> count_operand ins w1 e ->
  exists v n e1 e2, get_operand_value ins 0 true e = Ret (Some v, e1)
    /\ operand_value ins 0 e = Some v /\ count_value ins e = Some n
    /\ is_word w v /\ is_word 64 n /\ warmed e e1 /\ warmed e e2
    /\ if (op_count ins =? 1)%nat then n = 1 /\ e2 = e1 else get_operand_value ins 1 true e1 = Ret (Some n, e2).
Proof.
  intros Hwf Hq Hi Hw1 Hs Hc. unfold count_value. destruct Hc as [Hc | [Hc Hs1]].
  - rewrite Hc. destruct (read_operand ins 0 w e) as (v & e1 & E1 & V & Wv & W1); auto.
    exists v, 1, e1, e1. cbn. split_and!; auto; split; lia.
  - rewrite (proj2 (Nat.eqb_neq _ _) Hc).
    destruct (read_two ins 0 1 w w1 e) as (v & n & e1 & e2 & E1 & E2 & V & N & Wv & Wn & W1 & W2); auto.
    exists v, n, e1, e2. split_and!; eauto using word_mono.
Qed.

Lemma store_shift op ins w v c f e e1 :
  wf_emu e -> quiet e -> wf_ins ins -> width w -> target ins 0 w e -> warmed e e1 -> is_word w v -> 0 <= c ->
  shifts_by op w v c f ->
  exists af e', store_by_size ins (Some f) e1 = Ret (true, e') /\ wf_emu e'
    /\ completes ins (Some (shift_result op w v c)) (shift_status op w v c af (observe (flags e)))
         (shift_control c (flags e)) e e'.
Proof.
  intros Hwf Hq Hi Hw Ht Hwm Hv Hc Hf. destruct (Hf (flags e1)) as (af & Hr & Ho & Hctl). exists af.
  unfold store_by_size, on_flags. destruct (f (flags e1)) as [r s]. cbn in *. subst r.
  rewrite (warmed_flags _ _ Hwm) in *. eapply store_completes; eauto. eapply word_64; eauto.
  apply shift_result_word; auto. unfold width in Hw. lia.
Qed.

Lemma shift_handler_two op ins e :
  shift_handler op ins e =
  (let? value0, e := get_operand_value ins 0 true e in
   if (op_count ins =? 1)%nat then store_by_size ins (shift_two op (get_operand_sz ins 0) value0 1) e
   else
     let? value1, e := get_operand_value ins 1 true e in
     store_by_size ins (shift_two op (get_operand_sz ins 0) value0 value1) e).
Proof. now destruct op. Qed.

(** C38. SHL, SAL, SHR and SAR at every width, with the count in an immediate, in CL
    or implicit: the count is masked, the shifted value is stored, and CF, OF, PF,
    ZF and SF are those of the x86 manual; with a masked count of zero no flag
    changes. *)
Theorem shift_refines op ins w w1 e :
  wf_emu e -> quiet e -> wf_ins ins -> width w -> 0 <= w1 <= 64 ->
  source ins 0 w e -> target ins 0 w e -> count_operand ins w1 e ->
  exists v n af e', operand_value ins 0 e = Some v /\ count_value ins e = Some n
    /\ shift_handler op ins e = Ret (true, e') /\ wf_emu e'
    /\ let c := shift_count w n in
       completes ins (Some (shift_result op w v c)) (shift_status op w v c af (observe (flags e)))
         (shift_control c (flags e)) e e'.
Proof.
  intros Hwf Hq Hi Hw Hw1 Hs Ht Hc.
  destruct (read_shift ins w w1 e) as
    (v & n & e1 & e2 & E1 & V & N & Wv & Wn & W1 & W2 & E2); auto.
  destruct (shift_routine op w v n) as (f & Ef & Hf); auto.
  destruct (store_shift op ins w v (shift_count w n) f e e2) as (af & e' & E & Hwf' & Hcomp); auto.
  { pose proof (shift_count_range w n Hw). lia. }
  exists v, n, af, e'. split_and!; auto. rewrite shift_handler_two, E1. cbn. rewrite (proj1 Hs).
  destruct (op_count ins =? 1)%nat.
  - destruct E2 as [-> ->]. now rewrite Ef.
  - rewrite E2. cbn. now rewrite Ef.
Qed.

(** ** Rotates *)

Inductive rotate := ROL | ROR | RCL | RCR.

Definition rotate_handler (op : rotate) : Instruction -> Emu S W -> outcome (bool * Emu S W) :=
  match op with ROL => rol_execute | ROR => ror_execute | RCL => rcl_execute | RCR => rcr_execute end.

Definition rotate_routine (op : rotate) : Z -> Z -> Z -> Flags -> Z * Flags :=
  match op with ROL => rol | ROR => ror | RCL => rcl | RCR => rcr end.

Definition with_cf_of (c o : bool) (st : status) : status :=
  mkStatus c (s_pf st) (s_af st) (s_zf st) (s_sf st) o.

(** [r] and [st'] are the result and the flags of rotating the [w]-bit [v] by the
    count [n] with the flags [st]. *)
Definition rotates (op : rotate) (w v n : Z) (st : status) (r : Z) (st' : status) : Prop :=
  let c := shift_count w n in
  match op with
  | ROL => rotated w v c r
      /\ st' = if c =? 0 then st
               else with_cf_of (Z.testbit r 0)
                      (if c =? 1 then xorb (Z.testbit r (w - 1)) (Z.testbit r 0) else s_of st) st
  | ROR => rotated w v (- c) r
      /\ st' = if c =? 0 then st
               else with_cf_of (Z.testbit r (w - 1))
                      ((c mod w =? 1) && xorb (Z.testbit r (w - 1)) (Z.testbit r (w - 2))) st
  | RCL => rotated (w + 1) (ring w v (s_cf st)) c (ring w r (s_cf st'))
      /\ st' = with_cf_of (s_cf st')
                 (if c mod (w + 1) =? 1 then xorb (s_cf st') (Z.testbit r (w - 1)) else s_of st) st
  | RCR => rotated (w + 1) (ring w v (s_cf st)) (- c) (ring w r (s_cf st'))
      /\ st' = with_cf_of (s_cf st')
                 (if c mod (w + 1) =? 1 then xorb (Z.testbit r (w - 1)) (Z.testbit r (w - 2)) else s_of st) st
  end.

Lemma rotate_routine_spec op w v n s :
  width w -> is_word w v ->
  let (r, s') := rotate_routine op v n w s in
  rotates op w v n (observe s) r (observe s') /\ is_word w r /\ control s' = control s.
Proof.
  intros Hw Hv. unfold rotates. destruct op; cbn [rotate_routine].
  - destruct (rol_spec w v n s Hw Hv) as (R & Ho & Hc). destruct (rol v n w s). cbn in *.
    split_and!; auto; apply R.
  - destruct (ror_spec w v n s Hw Hv) as (R & Ho & Hc). destruct (ror v n w s). cbn in *.
    split_and!; auto; apply R.
  - destruct (rcl_spec w v n s Hw Hv) as (R & Ho & Hc). pose proof (rcl_word w v n s Hw Hv).
    destruct (rcl v n w s). cbn in *. split_and!; auto.
    now apply rotated_mod; [unfold width in Hw; lia |].
  - destruct (rcr_spec w v n s Hw Hv) as (R & Ho & Hc). pose proof (rcr_word w v n s Hw Hv).
    destruct (rcr v n w s). cbn in *. split_and!; auto.
Qed.

Lemma rotate_materialized op w v n s :
  width w -> is_word w v ->
  let (r, s') := rotate_routine op v n w (materialize_lazy s) in
  rotates op w v n (observe s) r (observe s') /\ is_word w r /\ control s' = control s.
Proof.
  intros Hw Hv. pose proof (rotate_routine_spec op w v n (materialize_lazy s) Hw Hv) as R.
  destruct (materialize_transparent s) as [[Eo Ec] _]. destruct (rotate_routine _ _ _ _ _).
  now rewrite Eo, Ec in R.
Qed.

(** The routine as the handler calls it. *)
Definition rotate_call (op : rotate) (v n w : Z) (s : Flags) : Z * Flags :=
  match op with ROR => ror v n w s | _ => rotate_routine op v n w (materialize_lazy s) end.

Lemma rotate_handler_two op ins e :
  rotate_handler op ins e =
  (let? value0, e := get_operand_value ins 0 true e in
   if (op_count ins =? 1)%nat then
     let (r, e) := on_flags (rotate_call op value0 1 (get_operand_sz ins 0)) e in set_operand_value ins 0 r e
   else
     let? value1, e := get_operand_value ins 1 true e in
     let (r, e) := on_flags (rotate_call op value0 value1 (get_operand_sz ins 0)) e in set_operand_value ins 0 r e).
Proof. now destruct op. Qed.

(** ROL, ROR, RCL and RCR at every width: the operand, or the ring of the operand
    and the carry flag, is rotated by the masked count, CF and OF follow the rotated
    bits and the other flags are kept. *)
Theorem rotate_refines op ins w w1 e :
  wf_emu e -> quiet e -> wf_ins ins -> width w -> 0 <= w1 <= 64 ->
  source ins 0 w e -> target ins 0 w e -> count_operand ins w1 e ->
  exists v n r st e', operand_value ins 0 e = Some v /\ count_value ins e = Some n
    /\ rotates op w v n (observe (flags e)) r st
    /\ rotate_handler op ins e = Ret (true, e') /\ wf_emu e'
    /\ completes ins (Some r) st (control (flags e)) e e'.
Proof.
  intros Hwf Hq Hi Hw Hw1 Hs Ht Hc.
  destruct (read_shift ins w w1 e) as
    (v & n & e1 & e2 & E1 & V & N & Wv & Wn & W1 & W2 & E2); auto.
  assert (let (r, s) := rotate_call op v n w (flags e2) in
          rotates op w v n (observe (flags e)) r (observe s) /\ is_word w r /\ control s = control (flags e)) as R.
  { rewrite (warmed_flags _ _ W2). destruct op; try now apply (rotate_materialized _ w v n (flags e)).
    now apply (rotate_routine_spec ROR w v n (flags e)). }
  destruct (rotate_call op v n w (flags e2)) as [r s] eqn:Ec. destruct R as (R & Wr & Hctl).
  destruct (store_completes ins w r s (observe s) (control (flags e)) e e2) as (e' & E & Hwf' & Hcomp);
    eauto using word_64.
  exists v, n, r, (observe s), e'. split_and!; auto. rewrite rotate_handler_two, E1. cbn. rewrite (proj1 Hs).
  destruct (op_count ins =? 1)%nat.
  - destruct E2 as [-> ->]. unfold on_flags. now rewrite Ec.
  - rewrite E2. cbn. unfold on_flags. now rewrite Ec.
Qed.

(** ** Double shifts *)

(** [shld] shifts bits of operand 1 in from the right, [shrd] from the left. *)
Inductive double := SHLD | SHRD.

Definition double_handler (op : double) : Instruction -> Emu S W -> outcome (bool * Emu S W) :=
  match op with SHLD => shld_execute | SHRD => shrd_execute end.

Definition double_result (op : double) (w v0 v1 c : Z) : Z :=
  match op with
  | SHLD => wrap w (join w v1 v0 / 2 ^ (w - c))
  | SHRD => wrap w (join w v0 v1 / 2 ^ c)
  end.

Definition double_status (op : double) (w v0 v1 c : Z) (af : bool) (st : status) : status :=
  if c =? 0 then st
  else let r := double_result op w v0 v1 c in
       mkStatus (Z.testbit v0 (match op with SHLD => w - c | SHRD => c - 1 end)) (even_parity r) af (r =? 0)
         (Z.testbit r (w - 1)) ((c =? 1) && xorb (Z.testbit v0 (w - 1)) (Z.testbit r (w - 1))).

Definition double_routine (op : double) : Z -> Z -> Z -> Z -> Flags -> Z * Flags :=
  match op with SHLD => shld | SHRD => shrd end.

Lemma double_routine_spec op w v0 v1 n s :
  width w -> is_word w v0 -> is_word w v1 ->
  let c := double_count w n in
  let (r, s') := double_routine op v0 v1 n w s in
  exists af, r = double_result op w v0 v1 c /\ observe s' = double_status op w v0 v1 c af (observe s)
    /\ control s' = shift_control c s.
Proof.
  intros Hw Hv0 Hv1. unfold double_status, shift_control. destruct op; cbn [double_routine double_result].
  - destruct (shld_spec w v0 v1 n s Hw Hv0 Hv1) as [Hr Hs]. destruct (shld v0 v1 n w s). cbn in *. subst z.
    exists (f_af s). destruct (_ =? 0); [subst; auto | tauto].
  - destruct (shrd_spec w v0 v1 n s Hw Hv0 Hv1) as [Hr Hs]. destruct (shrd v0 v1 n w s). cbn in *. subst z.
    exists (f_af s). destruct (_ =? 0); [subst; auto | tauto].
Qed.

(** SHLD and SHRD store the half of the double-width pair of the operands shifted by
    the masked count, with the flags of the x86 manual and TF cleared; a masked
    count of zero changes neither value nor flags. *)
Theorem double_shift_refines op ins w w2 e :
  wf_emu e -> quiet e -> wf_ins ins -> width w -> source ins 0 w e -> target ins 0 w e ->
  source ins 1 w e -> source ins 2 w2 e ->
  exists v0 v1 n af e', operand_value ins 0 e = Some v0 /\ operand_value ins 1 e = Some v1
    /\ operand_value ins 2 e = Some n /\ double_handler op ins e = Ret (true, e') /\ wf_emu e'
    /\ let c := double_count w n in
       completes ins (Some (double_result op w v0 v1 c)) (double_status op w v0 v1 c af (observe (flags e)))
         (shift_control c (flags e)) e e'.
Proof.
  intros Hwf Hq Hi Hw Hs0 Ht Hs1 Hs2.
  destruct (read_two ins 0 1 w w e) as (v0 & v1 & e1 & e2 & E1 & E2 & V0 & V1 & Wv0 & Wv1 & W1 & W2); auto.
  destruct (read_operand ins 2 w2 e2) as (n & e3 & E3 & N & _ & W3);
    eauto using warmed_wf, warmed_quiet, warmed_source.
  rewrite (warmed_value _ _ _ _ W2) in N. pose proof (warmed_trans _ _ _ W2 W3) as W4.
  pose proof (double_routine_spec op w v0 v1 n (flags e3) Hw Wv0 Wv1) as R. cbv zeta in R.
  destruct (double_routine op v0 v1 n w (flags e3)) as [r s] eqn:Er. destruct R as (af & -> & Ho & Hc).
  rewrite (warmed_flags _ _ W4) in Ho, Hc.
  assert (is_word 64 (double_result op w v0 v1 (double_count w n))) as Hr.
  { apply (word_64 w); [exact Hw |]. unfold width in Hw. destruct op; cbn; apply wrap_word; lia. }
  destruct (store_completes ins w _ s _ _ e e3 Hwf Hq Hi Ht W4 Hr Ho Hc) as (e' & E & Hwf' & Hcomp).
  exists v0, v1, n, af, e'. split_and!; auto. rewrite <- E.
  assert (double_handler op ins e = double_shift_execute (double_routine op) ins e) as -> by (now destruct op).
  unfold double_shift_execute. rewrite E1. cbn. rewrite E2. cbn. rewrite E3. cbn. rewrite (proj1 Hs0).
  unfold on_flags. now rewrite Er.
Qed.
End Spec.
