(* ===== verification/CondSpec.v ===== *)
(** * Correctness of the conditional instructions

    The sixteen conditions as a type, the relation of the operands each one
    stands for after a comparison, and the instructions that consult them:
    [CMP] followed by a conditional set, jump or move behaves as the relation
    says. *)

From stdpp Require Import gmap strings.
From S2P Require Import Prelude Flags FlagsArith FlagsShift Conditions Scalar Mem64 BTree Slab Tlb Maps.
From S2P Require Import MapsInv MapsLife Regs Emu Operands Stack OperandsSpec Instructions AluSpec.

(** ** Condition codes *)

Inductive cc := CC_A | CC_AE | CC_B | CC_BE | CC_E | CC_NE | CC_G | CC_GE | CC_L | CC_LE | CC_O | CC_NO
  | CC_P | CC_NP | CC_S | CC_NS.

Definition cond (c : cc) : Flags -> bool :=
  match c with
  | CC_A => cond_a | CC_AE => cond_ae | CC_B => cond_b | CC_BE => cond_be | CC_E => cond_e | CC_NE => cond_ne
  | CC_G => cond_g | CC_GE => cond_ge | CC_L => cond_l | CC_LE => cond_le | CC_O => cond_o | CC_NO => cond_no
  | CC_P => cond_p | CC_NP => cond_np | CC_S => cond_s | CC_NS => cond_ns
  end.

(** The relation of the [w]-bit [a] and [b] that the condition tests after [cmp a, b]. *)
Definition relation (c : cc) (w a b : Z) : bool :=
  match c with
  | CC_A => b <? a | CC_AE => b <=? a | CC_B => a <? b | CC_BE => a <=? b
  | CC_E => a =? b | CC_NE => negb (a =? b)
  | CC_G => sgn w b <? sgn w a | CC_GE => sgn w b <=? sgn w a
  | CC_L => sgn w a <? sgn w b | CC_LE => sgn w a <=? sgn w b
  | CC_O => signed_overflow w (sgn w a - sgn w b) | CC_NO => negb (signed_overflow w (sgn w a - sgn w b))
  | CC_P => even_parity (a - b) | CC_NP => negb (even_parity (a - b))
  | CC_S => sgn w (a - b) <? 0 | CC_NS => negb (sgn w (a - b) <? 0)
  end.

Lemma cond_relation c w a b s :
  width w -> is_word w a -> is_word w b -> observe s = sdm_sub w a b false -> cond c s = relation c w a b.
Proof.
  intros Hw Ha Hb Hs. assert (8 <= w) by (unfold width in Hw; lia).
  destruct (decides_intro w a b s) as [? ? ? ? ? ? ? ? ? ? Ho Hsg]; auto; [lia |].
  assert (pf s = even_parity (a - b)) as Hp.
  { apply (f_equal s_pf) in Hs. cbn in Hs. rewrite Z.sub_0_r, even_parity_wrap in Hs by lia. exact Hs. }
  destruct c; cbn [cond relation]; unfold cond_no, cond_ns, cond_p, cond_np, cond_o, cond_s in *; congruence.
Qed.

Section Spec.
Context {S W : Type} `{SlabLaws S} `{Environment S W} `{IcedLaws}.
Implicit Types (e : Emu S W) (ins : Instruction).

Definition set_handler (c : cc) : Instruction -> Emu S W -> outcome (bool * Emu S W) :=
  match c with
  | CC_A => seta_execute | CC_AE => setae_execute | CC_B => setb_execute | CC_BE => setbe_execute
  | CC_E => sete_execute | CC_NE => setne_execute | CC_G => setg_execute | CC_GE => setge_execute
  | CC_L => setl_execute | CC_LE => setle_execute | CC_O => seto_execute | CC_NO => setno_execute
  | CC_P => setp_execute | CC_NP => setnp_execute | CC_S => sets_execute | CC_NS => setns_execute
  end.

Definition jump_handler (c : cc) : Instruction -> Emu S W -> outcome (bool * Emu S W) :=
  match c with
  | CC_A => ja_execute | CC_AE => jae_execute | CC_B => jb_execute | CC_BE => jbe_execute
  | CC_E => je_execute | CC_NE => jne_execute | CC_G => jg_execute | CC_GE => jge_execute
  | CC_L => jl_execute | CC_LE => jle_execute | CC_O => jo_execute | CC_NO => jno_execute
  | CC_P => jp_execute | CC_NP => jnp_execute | CC_S => js_execute | CC_NS => jns_execute
  end.

Definition move_handler (c : cc) : Instruction -> Emu S W -> outcome (bool * Emu S W) :=
  match c with
  | CC_A => cmova_execute | CC_AE => cmovae_execute | CC_B => cmovb_execute | CC_BE => cmovbe_execute
  | CC_E => cmove_execute | CC_NE => cmovne_execute | CC_G => cmovg_execute | CC_GE => cmovge_execute
  | CC_L => cmovl_execute | CC_LE => cmovle_execute | CC_O => cmovo_execute | CC_NO => cmovno_execute
  | CC_P => cmovp_execute | CC_NP => cmovnp_execute | CC_S => cmovs_execute | CC_NS => cmovns_execute
  end.

(** ** Comparing *)

(** After [cmp], every condition decides its relation of the operands. *)
Lemma cmp_decides ins w e :
  wf_emu e -> quiet e -> wf_ins ins -> width w -> break_on_next_cmp e = false ->
  source ins 0 w e -> source ins 1 w e ->
  exists a b e1 s, operand_value ins 0 e = Some a /\ operand_value ins 1 e = Some b
    /\ cmp_execute ins e = Ret (true, set_flags s e1) /\ warmed e e1
    /\ forall c, cond c s = relation c w a b.
Proof.
  intros Hwf Hq Hi Hw Hb Hs0 Hs1.
  destruct (read_operand ins 0 w e) as (a & ? & _ & Va & Wa & _); auto.
  destruct (read_operand ins 1 w e) as (b & ? & _ & Vb & Wb & _); auto.
  destruct (alu_spec CMP ins w e) as (a' & b' & e' & Va' & Vb' & E' & _ & e1 & s & W1 & Ho & _ & ->);
    auto; [discriminate |].
  rewrite Va in Va'. rewrite Vb in Vb'. injection Va' as <-. injection Vb' as <-.
  exists a, b, e1, s. split_and!; auto. intros c. now apply cond_relation.
Qed.

(** C8. A CMP followed by any SETcc stores 1 exactly when the relation the condition
    names holds between the operands of the comparison: unsigned for A, AE, B, BE, E
    and NE, two's complement for G, GE, L and LE, and overflow, parity and sign of
    the difference for the rest. *)
Theorem cmp_setcc c ins ins' w e :
  wf_emu e -> quiet e -> wf_ins ins -> wf_ins ins' -> width w -> break_on_next_cmp e = false ->
  source ins 0 w e -> source ins 1 w e -> target ins' 0 8 e ->
  exists a b e1 e2, operand_value ins 0 e = Some a /\ operand_value ins 1 e = Some b
    /\ cmp_execute ins e = Ret (true, e1) /\ set_handler c ins' e1 = Ret (true, e2)
    /\ wf_emu e2 /\ stored ins' 0 (Z.b2z (relation c w a b)) e1 e2.
Proof.
  intros Hwf Hq Hi Hi' Hw Hbrk Hs0 Hs1 Ht.
  destruct (cmp_decides ins w e) as (a & b & e1 & s & Va & Vb & E & W1 & Hc); auto.
  destruct (target_write ins' 0 8 (Z.b2z (relation c w a b)) (set_flags s e1)) as (e2 & E2 & Hwf2 & Hst);
    eauto using set_flags_wf, set_flags_quiet, set_flags_target, warmed_wf, warmed_quiet, warmed_target.
  { destruct (relation c w a b); split; cbn; lia. }
  exists a, b, (set_flags s e1), e2. split_and!; auto. rewrite <- E2, <- Hc.
  assert (set_handler c ins' (set_flags s e1) = setcc (cond c) ins' (set_flags s e1)) as -> by (now destruct c).
  unfold setcc. cbn [flags set_flags]. now destruct (cond c s).
Qed.

(** A near branch: the decoder has computed the target. *)
Definition near_branch ins : Prop :=
  op_kind ins 0 = NearBranch16 \/ op_kind ins 0 = NearBranch32 \/ op_kind ins 0 = NearBranch64.

(** A CMP followed by any conditional jump transfers control to the branch target
    exactly when the relation the condition names holds between the operands of the
    comparison, and otherwise changes nothing. *)
Theorem cmp_jcc c ins ins' w e :
  wf_emu e -> quiet e -> wf_ins ins -> width w -> break_on_next_cmp e = false ->
  source ins 0 w e -> source ins 1 w e -> near_branch ins' ->
  exists a b e1, operand_value ins 0 e = Some a /\ operand_value ins 1 e = Some b
    /\ cmp_execute ins e = Ret (true, e1)
    /\ jump_handler c ins' e1 =
       if relation c w a b then
         let go := if is_x64 (cfg e) then set_rip_with_check else set_eip_emu in
         go (near_branch_target ins') true e1
       else Ret (true, e1).
Proof.
  intros Hwf Hq Hi Hw Hbrk Hs0 Hs1 Hn.
  destruct (cmp_decides ins w e) as (a & b & e1 & s & Va & Vb & E & W1 & Hc); auto.
  exists a, b, (set_flags s e1). split_and!; auto. rewrite <- Hc.
  assert (jump_handler c ins' (set_flags s e1) = jcc (cond c) ins' (set_flags s e1)) as -> by (now destruct c).
  unfold jcc, get_jump_value. cbn [flags set_flags]. destruct (cond c s); [|reflexivity].
  destruct W1 as (t & _ & ->). destruct Hn as [-> | [-> | ->]]; cbn; now destruct (is_x64 (cfg e)).
Qed.

(** ** Conditional moves *)

(** Only the last of two writes to a register counts. *)
Lemma set_reg_twice r f lo w v v' s g :
  view r = Some (f, lo, w) -> words s -> is_word 64 v -> is_word 64 v' ->
  set_reg r v (set_reg r v' s) g = set_reg r v s g.
Proof.
  intros Hv Hs Hw Hw'. pose proof (set_words _ _ _ _ _ _ Hv Hs Hw') as Hs'.
  destruct (set_reg_view _ _ _ _ v' s Hv Hs Hw') as (x & Ex & _ & Bx).
  destruct (set_reg_view _ _ _ _ v (set_reg r v' s) Hv Hs' Hw) as (y & Ey & Wy & By).
  destruct (set_reg_view _ _ _ _ v s Hv Hs Hw) as (z & Ez & Wz & Bz).
  rewrite Ey, Ez. destruct (decide (g = f)) as [-> | Hg]; [|now rewrite !upd_other, Ex, upd_other by exact Hg].
  rewrite !upd_same. apply (word_ext 64); auto; [lia |]. intros i Hi. rewrite By, Bz, Ex, upd_same, Bx by lia.
  destruct (_ && _); [reflexivity |]. now destruct (w =? 32).
Qed.

(** Writing a register back to itself is seen only in the upper half, and only
    when the register is 32 bits wide. *)
Lemma set_own_value r f lo w r' f' lo' w' s :
  view r = Some (f, lo, w) -> view r' = Some (f', lo', w') -> words s -> (w = 32 -> lo' + w' <= 32) ->
  get_reg r' (set_reg r (get_reg r s) s) = get_reg r' s.
Proof.
  intros Hv Hv' Hs Hc.
  destruct (view_shape _ _ _ _ Hv) as [_ Hsh], (view_shape _ _ _ _ Hv') as [_ Hsh'].
  assert (is_word 64 (get_reg r s)) as Hw.
  { rewrite (get_reg_view _ _ _ _ _ Hv Hs). eapply word_mono; [|apply wrap_word]; lia. }
  pose proof (set_words _ _ _ _ _ _ Hv Hs Hw) as Hs'.
  rewrite (get_reg_view _ _ _ _ _ Hv' Hs'), (get_reg_view _ _ _ _ s Hv' Hs).
  destruct (set_reg_view _ _ _ _ _ _ Hv Hs Hw) as (x & Ex & Hx & Hbits). rewrite Ex.
  destruct (decide (f' = f)) as [-> | Hf]; [|now rewrite upd_other by exact Hf].
  rewrite upd_same. apply (word_ext w'); [apply wrap_word; lia | apply wrap_word; lia | lia |]. intros i Hi.
  rewrite !testbit_wrap, !Z.shiftr_spec, Hbits, (get_reg_view _ _ _ _ _ Hv Hs), testbit_wrap by lia.
  f_equal. destruct (Z.leb_spec lo (i + lo')), (Z.ltb_spec (i + lo') (lo + w)); cbn [andb];
    try (destruct (Z.eqb_spec w 32); [lia | reflexivity]).
  rewrite Z.shiftr_spec by lia. split_ltb; [|lia..]. cbn [andb]. f_equal. lia.
Qed.

Lemma get_register ins n d e :
  op_kind ins n = OpRegister -> get_operand_value ins n d e = Ret (Some (get_reg (op_register ins n) (regs e)), e).
Proof. unfold get_operand_value. now intros ->. Qed.

Lemma set_register ins n f lo w v e :
  op_kind ins n = OpRegister -> view (op_register ins n) = Some (f, lo, w) ->
  set_operand_value ins n v e = Ret (true, set_regs (set_reg (op_register ins n) v (regs e)) e).
Proof. unfold set_operand_value. intros -> Hv. now rewrite (target_not_fpu _ _ _ _ _ Hv). Qed.

(** Operand 1 is not disturbed by writing operand 0, a register, back to itself. *)
Definition own_write ins e : Emu S W :=
  let r := op_register ins 0 in set_regs (set_reg r (get_reg r (regs e)) (regs e)) e.

Lemma own_write_source ins f lo w e :
  wf_emu e -> view (op_register ins 0) = Some (f, lo, w) -> w <> 8 ->
  (op_kind ins 1 = OpMemory -> effective_addr ins (own_write ins e) = effective_addr ins e) ->
  source ins 1 w e ->
  source ins 1 w (own_write ins e) /\ operand_value ins 1 (own_write ins e) = operand_value ins 1 e.
Proof.
  intros Hwf Hv H8 Ha [Hsz Hs]. unfold source, operand_value. destruct (op_kind ins 1); auto.
  - destruct Hs as (f' & lo' & Hv'). split; [eauto |]. f_equal. apply (set_own_value _ f lo w _ f' lo' w); auto;
      [apply Hwf |]. destruct (view_shape _ _ _ _ Hv') as [_ ?]. lia.
  - specialize (Ha eq_refl). rewrite Ha. split; [|reflexivity]. split; [exact Hsz |].
    destruct Hs as (sk & ?). exists sk. auto.
Qed.

Lemma narrow_value r f lo w v :
  view r = Some (f, lo, w) -> r <> RIP -> r <> EIP -> is_word w v ->
  (if is_gpr64 r then v else Z.land v 0xffffffff) = v.
Proof.
  intros Hv Hr Hr' Hw. rewrite (is_gpr64_view _ _ _ _ Hv Hr Hr').
  destruct (Z.eqb_spec w 64); [reflexivity |]. apply (mask_word 32); [lia | reflexivity |].
  destruct (view_shape _ _ _ _ Hv) as [_ ?]. eapply word_mono; [|exact Hw]. lia.
Qed.

(** A conditional move to a 16-, 32- or 64-bit register leaves in it the source when
    the condition holds and its own value otherwise, a 32-bit destination being
    zero-extended in both cases, provided that zero-extension does not disturb the
    address of a memory source; nothing else changes but the TLB. *)
Theorem cmovcc_refines c ins f lo w e :
  wf_emu e -> quiet e -> wf_ins ins -> op_kind ins 0 = OpRegister ->
  view (op_register ins 0) = Some (f, lo, w) -> w <> 8 -> op_register ins 0 <> RIP -> op_register ins 0 <> EIP ->
  source ins 1 w e ->
  (op_kind ins 1 = OpMemory -> effective_addr ins (own_write ins e) = effective_addr ins e) ->
  exists v e', operand_value ins 1 e = Some v /\ move_handler c ins e = Ret (true, e') /\ wf_emu e'
    /\ (let r := op_register ins 0 in
        forall g, regs e' g = set_reg r (if cond c (flags e) then v else get_reg r (regs e)) (regs e) g)
    /\ warmed e (set_regs (regs e) e').
Proof.
  intros Hwf Hq Hi Hk Hv H8 Hr Hr' Hs Ha. set (r := op_register ins 0) in *.
  destruct (own_write_source ins f lo w e) as [Hs' Eq]; auto.
  pose proof (view_shape _ _ _ _ Hv) as [_ Hsh].
  assert (is_word w (get_reg r (regs e))) as Ww.
  { rewrite (get_reg_view _ _ _ _ _ Hv (wf_emu_regs e Hwf)). apply wrap_word. lia. }
  assert (is_word 64 (get_reg r (regs e))) as W64 by (eapply word_mono; [|exact Ww]; lia).
  assert (wf_emu (own_write ins e)) as Hwf1.
  { split; [|apply Hwf]. eapply set_words; eauto. apply Hwf. }
  destruct (read_operand ins 1 w (own_write ins e)) as (v & e2 & E2 & V & Wv & W2); auto; [now destruct Hq |].
  rewrite Eq in V. assert (is_word 64 v) as Wv64 by (eapply word_mono; [|exact Wv]; lia).
  assert (move_handler c ins e = cmovcc (cond c) ins e) as -> by (now destruct c).
  unfold cmovcc. rewrite get_register by exact Hk. cbn [mbind outcome_bind]. fold r.
  rewrite (narrow_value r f lo w), (set_register ins 0 f lo w) by auto. cbn [mbind outcome_bind]. fold r.
  change (set_regs (set_reg r (get_reg r (regs e)) (regs e)) e) with (own_write ins e).
  change (flags (own_write ins e)) with (flags e). destruct (cond c (flags e)).
  - rewrite E2. cbn [mbind outcome_bind]. rewrite (narrow_value r f lo w), (set_register ins 0 f lo w) by auto.
    destruct W2 as (t & Ht & ->). fold r.
    exists v. eexists. split_and!; [exact V | reflexivity | | | now exists t].
    + split; [|apply (retlb_wf t) in Hwf1; [apply Hwf1 | exact Ht]]. cbn. eapply set_words; eauto. apply Hwf1.
    + cbn. intros g. eapply set_reg_twice; eauto. apply Hwf.
  - exists v, (own_write ins e). split_and!; auto.
    replace (set_regs _ _) with e by (now destruct e). now apply warmed_refl.
Qed.
End Spec.
