(* ===== verification/StackSpec.v ===== *)
(** * Correctness of the stack

    Pushing stores the value below the stack pointer and popping returns it:
    the round trip of the three sizes, the growth of the stack into unmapped
    pages, and the stack instructions built on them. *)

From stdpp Require Import gmap strings.
From S2P Require Import Prelude Flags FlagsArith Scalar Mem64 BTree Slab Tlb Maps MapsInv MapsLife Regs Emu.
From S2P Require Import Operands Stack OperandsSpec Instructions AluSpec CondSpec.

Section Spec.
Context {S W : Type} `{SlabLaws S} `{Environment S W} `{IcedLaws}.
Implicit Types (e : Emu S W) (ins : Instruction).

(** ** Guest memory *)

Lemma maps_write sk addr v e :
  wf_emu e -> 0 <= addr -> reachable Mem.can_write (SIZE sk) addr (emaps e) = true ->
  exists m', on_maps (write_scalar (SIZE sk) addr v) e = Ret (true, set_emaps m' e) /\ wf m'
    /\ stores (emaps e) m' addr (to_le_bytes (SIZE sk) v) /\ logs (emaps e) m' addr (SIZE sk).
Proof.
  intros Hwf Ha Hr. destruct (write_scalar_spec (SIZE sk) addr v (emaps e)) as (m' & E & Hw & Hst);
    [apply Hwf | exact Ha | destruct sk; cbn; lia |].
  rewrite Hr in E, Hst. exists m'. unfold on_maps. rewrite E. split_and!; auto; apply Hst.
Qed.

Lemma maps_write_fails sk addr v e :
  wf_emu e -> 0 <= addr -> reachable Mem.can_write (SIZE sk) addr (emaps e) = false ->
  exists e', on_maps (write_scalar (SIZE sk) addr v) e = Ret (false, e') /\ warmed e e'.
Proof.
  intros Hwf Ha Hr. destruct (write_scalar_spec (SIZE sk) addr v (emaps e)) as (m' & E & Hw & Hst);
    [apply Hwf | exact Ha | destruct sk; cbn; lia |].
  rewrite Hr in E, Hst. exists (set_emaps m' e). unfold on_maps. rewrite E. split; [reflexivity |].
  exists (tlb m'). split; [apply Hw |]. unfold retlb. f_equal.
  unfold maps_equiv, set_tlb in *. destruct m', (emaps e). cbn in *. now injection Hst as -> -> -> -> -> -> ->.
Qed.

Lemma maps_read sk addr e :
  wf_emu e -> 0 <= addr -> reachable Mem.can_read (SIZE sk) addr (emaps e) = true ->
  exists bs e', bytes_of (emaps e) addr (SIZE sk) = Some bs /\ is_word (bits_of (SIZE sk)) (from_le_bytes bs)
    /\ on_maps (read_scalar (SIZE sk) addr) e = Ret (Some (from_le_bytes bs), e') /\ warmed e e'.
Proof.
  intros Hwf Ha Hr. assert (0 < SIZE sk <= 16)%nat as Hs by (destruct sk; cbn; lia).
  destruct (read_scalar_spec (SIZE sk) addr (emaps e)) as (t & Ht & E); [apply Hwf | exact Ha | exact Hs |].
  destruct (bytes_of_placement (emaps e) Mem.can_read (SIZE sk) addr) as (bs & Hbs & _);
    [apply Hwf | apply reachable_placement; [apply Hwf | lia | exact Hr] |].
  exists bs, (retlb t e). unfold on_maps. rewrite E, Hr, Hbs. split_and!; auto; [|now exists t].
  destruct (bytes_of_bytes _ _ _ _ (wf_emu_maps e Hwf) Hbs) as [Hby Hl]. rewrite <- Hl. now apply from_le_bytes_word.
Qed.

(** A range that was written is read back. *)
Lemma stored_bytes_read sk addr v e m' :
  wf_emu (set_emaps m' e) -> 0 <= addr -> stores (emaps e) m' addr (to_le_bytes (SIZE sk) v) ->
  reachable Mem.can_read (SIZE sk) addr (emaps e) = true ->
  exists e', on_maps (read_scalar (SIZE sk) addr) (set_emaps m' e) = Ret (Some (wrap (bits_of (SIZE sk)) v), e')
    /\ warmed (set_emaps m' e) e'.
Proof.
  intros Hwf Ha Hst Hr.
  assert (reachable Mem.can_read (SIZE sk) addr m' = true) as Hr'.
  { rewrite <- Hr. apply reachable_layout; [|apply Hst]. intros mm mm' E. unfold Mem.can_read. now rewrite E. }
  destruct (maps_read sk addr (set_emaps m' e)) as (bs & e' & Hbs & _ & E & Hw); auto.
  pose proof (stores_bytes_of _ _ _ _ Hst) as Hb. rewrite length_to_le_bytes in Hb.
  cbn [emaps set_emaps] in Hbs. rewrite Hb in Hbs. injection Hbs as <-.
  rewrite from_to_le_bytes_wrap in E. eauto.
Qed.

(** ** Pushes and pops *)

(** The three stack accesses, by operand size. *)
Definition push_of (sk : ScalarKind) : Z -> Emu S W -> outcome (bool * Emu S W) :=
  match sk with Word => stack_push16 | Dword => stack_push32 | _ => stack_push64 end.
Definition pop_of (sk : ScalarKind) : bool -> Emu S W -> outcome (option Z * Emu S W) :=
  match sk with Word => stack_pop16 | Dword => stack_pop32 | _ => stack_pop64 end.
Definition stack_kind (sk : ScalarKind) : Prop := sk = Word \/ sk = Dword \/ sk = Qword.

(** The stack pointer an access of that size uses. *)
Definition sp_of (sk : ScalarKind) (r : Regs64) : Z := match sk with Dword => get_esp r | _ => r rsp end.
Definition set_sp_of (sk : ScalarKind) (v : Z) (r : Regs64) : Regs64 :=
  match sk with Dword => set_esp v r | _ => upd rsp v r end.

(** The address a push writes. *)
Definition below (sk : ScalarKind) (r : Regs64) : Z :=
  let a := wsub (sp_of sk r) (Z.of_nat (SIZE sk)) in match sk with Dword => wrap 32 a | _ => a end.

Lemma wsub_word x y : is_word 64 (wsub x y).
Proof. apply wrap_word. lia. Qed.

Lemma below_nonneg sk r : 0 <= below sk r.
Proof. unfold below. destruct sk; apply wrap_nonneg; lia. Qed.

Lemma set_sp_words sk v r : words r -> is_word 64 v -> words (set_sp_of sk v r).
Proof.
  intros Hr Hv. destruct sk; try exact (set_words RSP rsp 0 64 v r eq_refl Hr Hv).
  exact (set_words ESP rsp 0 32 v r eq_refl Hr Hv).
Qed.

(** A stack access finds the pointer it has set. *)
Lemma sp_after_set sk v r :
  is_word 64 v -> sp_of sk (set_sp_of sk v r) = match sk with Dword => wrap 32 v | _ => v end.
Proof.
  intros Hv. destruct sk; try exact (upd_same rsp v r). cbn. unfold set_esp, get_esp, get_reg32l, set_reg32.
  rewrite upd_same, !land32. apply wrap_small, wrap_word. lia.
Qed.

Lemma push_spec sk v e :
  stack_kind sk -> wf_emu e -> trace_mem (cfg e) = false ->
  reachable Mem.can_write (SIZE sk) (below sk (regs e)) (emaps e) = true ->
  let r' := set_sp_of sk (wsub (sp_of sk (regs e)) (Z.of_nat (SIZE sk))) (regs e) in
  exists m', push_of sk v e = Ret (true, set_emaps m' (set_regs r' e)) /\ wf_emu (set_emaps m' (set_regs r' e))
    /\ stores (emaps e) m' (below sk (regs e)) (to_le_bytes (SIZE sk) v)
    /\ logs (emaps e) m' (below sk (regs e)) (SIZE sk).
Proof.
  intros Hsk Hwf Htr Hr r'.
  assert (wf_emu (set_regs r' e)) as Hwf'.
  { split; [apply set_sp_words; [apply Hwf | apply wsub_word] | apply Hwf]. }
  destruct (maps_write sk (below sk (regs e)) v (set_regs r' e)) as (m' & E & Hm & Hst & Hl);
    auto using below_nonneg.
  exists m'. split_and!; auto; [|split; [apply Hwf' | exact Hm]].
  assert (below sk (regs e) = sp_of sk r') as Hb by (unfold r'; now rewrite sp_after_set by apply wsub_word).
  destruct Hsk as [-> | [-> | ->]]; cbn [push_of].
  - unfold stack_push16, trace_stack_write. rewrite Htr. cbn [mbind outcome_bind].
    change (set_sp (wsub (sp e) 2) e) with (set_regs r' e). change (wsub (sp e) 2) with (below Word (regs e)).
    unfold write_word. now rewrite E.
  - unfold stack_push32, trace_stack_write. rewrite Htr. cbn [mbind outcome_bind].
    change (set_regs (set_esp (wsub (get_esp (regs e)) 4) (regs e)) e) with (set_regs r' e).
    cbn [regs set_regs]. change (get_esp r') with (sp_of Dword r'). rewrite <- Hb. exact E.
  - unfold stack_push64, trace_stack_write. rewrite Htr. cbn [mbind outcome_bind].
    change (set_sp (wsub (sp e) 8) e) with (set_regs r' e). change (wsub (sp e) 8) with (below Qword (regs e)).
    unfold write_qword. now rewrite E.
Qed.

Lemma pop_spec sk b e v e' :
  stack_kind sk -> trace_mem (cfg e) = false ->
  on_maps (read_scalar (SIZE sk) (sp_of sk (regs e))) e = Ret (Some v, e') -> warmed e e' ->
  pop_of sk b e = Ret (Some v, set_regs (set_sp_of sk (wadd (sp_of sk (regs e)) (Z.of_nat (SIZE sk))) (regs e)) e').
Proof.
  intros Hsk Htr E (t & _ & ->). destruct Hsk as [-> | [-> | ->]]; cbn [pop_of].
  - unfold stack_pop16. unfold read_word. change (sp e) with (sp_of Word (regs e)). rewrite E. cbn [mbind outcome_bind].
    unfold trace_stack_read. cbn [cfg retlb set_emaps]. now rewrite Htr.
  - unfold stack_pop32, read_dword. change (get_esp (regs e)) with (sp_of Dword (regs e)). rewrite E. cbn [mbind outcome_bind].
    unfold trace_stack_read. cbn [cfg retlb set_emaps]. now rewrite Htr.
  - unfold stack_pop64, read_qword. change (sp e) with (sp_of Qword (regs e)). rewrite E. cbn [mbind outcome_bind].
    unfold trace_stack_read. cbn [cfg retlb set_emaps]. now rewrite Htr.
Qed.

Lemma wrap_word_64 x y : is_word 64 (wadd x y).
Proof. apply wrap_word. lia. Qed.

Lemma set_sp_other sk v r g : g <> rsp -> set_sp_of sk v r g = r g.
Proof. intros Hg. destruct sk; now apply (upd_other rsp). Qed.

Lemma wadd_wsub x n : is_word 64 x -> wadd (wsub x n) n = x.
Proof. intros Hx. unfold wadd, wsub. rewrite wrap_wrap_add by lia. rewrite wrap_small; [lia | now replace (x - n + n) with x by lia]. Qed.

(** Moving the pointer down and up again restores it. *)
Lemma sp_back sk r :
  words r -> match sk with Dword => wrap 32 (wadd (below sk r) (Z.of_nat (SIZE sk)))
                      | _ => wadd (below sk r) (Z.of_nat (SIZE sk)) end = sp_of sk r.
Proof.
  intros Hr. pose proof (Hr rsp) as Hsp. cbn in Hsp. unfold below. destruct sk; try now apply wadd_wsub.
  cbn [sp_of]. assert (is_word 32 (get_esp r)) as He by (unfold get_esp, get_reg32l; rewrite land32; apply wrap_word; lia).
  unfold wadd, wsub. rewrite !wrap_idem, wrap_wrap_add by lia.
  replace (_ - _ + _) with (get_esp r) by lia. now apply wrap_small.
Qed.

(** A push followed by a pop of the same size, with the states they reach. *)
Lemma push_then_pop sk v b e :
  stack_kind sk -> wf_emu e -> trace_mem (cfg e) = false -> is_word (bits_of (SIZE sk)) v ->
  let n := Z.of_nat (SIZE sk) in
  let a := below sk (regs e) in
  reachable Mem.can_write (SIZE sk) a (emaps e) = true -> reachable Mem.can_read (SIZE sk) a (emaps e) = true ->
  exists m' t, let e1 := set_emaps m' (set_regs (set_sp_of sk (wsub (sp_of sk (regs e)) n) (regs e)) e) in
    wf_tlb t /\ wf_emu e1 /\ push_of sk v e = Ret (true, e1) /\ sp_of sk (regs e1) = a
    /\ pop_of sk b e1 = Ret (Some v, set_regs (set_sp_of sk (wadd a n) (regs e1)) (retlb t e1))
    /\ stores (emaps e) m' a (to_le_bytes (SIZE sk) v).
Proof.
  intros Hsk Hwf Htr Hv n a Hw Hr.
  destruct (push_spec sk v e) as (m' & E1 & Hwf1 & Hst & _); auto. fold a n in E1, Hwf1, Hst.
  set (r' := set_sp_of sk _ _) in *. set (e1 := set_emaps m' (set_regs r' e)) in *.
  assert (sp_of sk (regs e1) = a) as Ha by (cbn; unfold r'; now rewrite sp_after_set by apply wsub_word).
  destruct (stored_bytes_read sk a v (set_regs r' e) m') as (e2 & E2 & Wm); auto; [apply below_nonneg |].
  rewrite wrap_small in E2 by exact Hv. rewrite <- Ha in E2.
  pose proof (pop_spec sk b e1 v e2 Hsk Htr E2 Wm) as E3. rewrite Ha in E3.
  destruct Wm as (t & Ht & ->). exists m', t. now split_and!.
Qed.

(** C13. A push of 2, 4 or 8 bytes followed by a pop of that size returns the value
    and restores the stack pointer; in between it points to the value, only the
    bytes below the old stack pointer change and no other register does. *)
Theorem push_pop_roundtrip sk v b e :
  stack_kind sk -> wf_emu e -> trace_mem (cfg e) = false -> is_word (bits_of (SIZE sk)) v ->
  let a := below sk (regs e) in
  reachable Mem.can_write (SIZE sk) a (emaps e) = true -> reachable Mem.can_read (SIZE sk) a (emaps e) = true ->
  exists e1 e2, push_of sk v e = Ret (true, e1) /\ sp_of sk (regs e1) = a
    /\ pop_of sk b e1 = Ret (Some v, e2) /\ sp_of sk (regs e2) = sp_of sk (regs e)
    /\ (forall g, g <> rsp -> regs e2 g = regs e g)
    /\ stores (emaps e) (emaps e2) a (to_le_bytes (SIZE sk) v) /\ wf_emu e1 /\ wf_emu e2.
Proof.
  intros Hsk Hwf Htr Hv a Hw Hr.
  destruct (push_then_pop sk v b e) as (m' & t & Ht & Hwf1 & E1 & Ha & E2 & Hst); auto.
  eexists _, _. split_and!; [exact E1 | exact Ha | exact E2 | | | exact Hst | exact Hwf1 |].
  - cbn [regs set_regs]. rewrite sp_after_set by apply wrap_word_64. apply sp_back, Hwf.
  - intros g Hg. cbn [regs set_regs set_emaps]. now rewrite !set_sp_other by exact Hg.
  - split; [apply set_sp_words; [apply Hwf1 | apply wrap_word_64] | apply (retlb_wf t _ Hwf1 Ht)].
Qed.

(** After a 64-bit push and pop every register is as before. *)
Lemma popped_regs r : words r -> forall g, upd rsp (wadd (wsub (r rsp) 8) 8) (upd rsp (wsub (r rsp) 8) r) g = r g.
Proof.
  intros Hr g. rewrite wadd_wsub by exact (Hr rsp).
  destruct (decide (g = rsp)) as [-> | Hg]; [apply upd_same | now rewrite !upd_other by exact Hg].
Qed.

(** ** Growing the stack *)

(** The page of an address, and the name of the region the emulator maps there. *)
Definition page_of (a : Z) : Z := Z.land a (bnot 64 (GROW_PAGE_SIZE - 1)).
Definition grow_name (a : Z) : string := "stack_grow_" +:+ hex (page_of a).

Lemma page_of_spec a : is_word 64 a -> page_of a = a - a mod 4096.
Proof.
  intros Ha. unfold page_of, bnot, GROW_PAGE_SIZE. change (0x1000 - 1) with (Z.ones 12).
  rewrite Z.land_assoc, <- Z.ldiff_land, Z.ldiff_ones_r, Z.land_ones, Z.shiftl_mul_pow2, Z.shiftr_div_pow2 by lia.
  change (2 ^ 12) with 4096. unfold is_word in Ha. pose proof (Z.div_mod a 4096). pose proof (Z.mod_pos_bound a 4096).
  rewrite Z.mod_small; lia.
Qed.

(** The page of [a] can be added: it is free, ends before the top of the address
    space, and its name is not taken. *)
Record growable (a : Z) (m : Maps S) : Prop := {
  grow_top : page_of a + GROW_PAGE_SIZE < 2 ^ 64;
  grow_free : range_free m (page_of a) GROW_PAGE_SIZE;
  grow_fresh : name_map m !! grow_name a = None }.

(** The distances from the stack pointer at which the emulator maps pages. *)
Definition near_sp (a : Z) (r : Regs64) : bool :=
  if r rsp <=? a then a - r rsp <=? 0x2000 else r rsp - a <=? MAX_DIST_BELOW_RSP.

(** [m'] is [m] with the page of [a] added, readable, writable and zero-filled. *)
Definition grown (a : Z) (m m' : Maps S) : Prop :=
  forall x, cell_of m' x = if (page_of a <=? x) && (x <? page_of a + GROW_PAGE_SIZE)
                           then Some (0, Perm.READ_WRITE) else cell_of m x.

Lemma is_mapped_find addr e :
  wf_emu e -> exists e', on_maps (is_mapped addr) e = Ret (bool_decide (is_Some (find_map addr (emaps e))), e') /\ warmed e e'.
Proof.
  intros Hwf. destruct (get_mem_by_addr_find (emaps e) (wf_emu_maps e Hwf) addr) as (t & Ht & E).
  exists (retlb t e). unfold on_maps, is_mapped. rewrite E. cbn. split; [|now exists t].
  destruct (find_map addr (emaps e)); reflexivity.
Qed.

Lemma grow_spec a e :
  wf_emu e -> is_x64 (cfg e) = true -> is_word 64 a -> near_sp a (regs e) = true -> growable a (emaps e) ->
  exists m', try_grow_stack a e = Ret (true, set_emaps m' e) /\ wf m' /\ grown a (emaps e) m'
    /\ exists k, slab_get (mem_slab m') k = Some (fresh (grow_name a) (page_of a) GROW_PAGE_SIZE Perm.READ_WRITE).
Proof.
  intros Hwf Hx Ha Hn [Ht Hf Hname].
  assert (0 <= page_of a) as Hp by (rewrite page_of_spec by exact Ha; unfold is_word in Ha; pose proof (Z.mod_le a 4096); lia).
  destruct (is_mapped_find (page_of a) e Hwf) as (e1 & E1 & t & Htl & ->).
  rewrite (range_free_find (emaps e) (page_of a) GROW_PAGE_SIZE (wf_emu_maps e Hwf) eq_refl Hf) in E1.
  rewrite bool_decide_eq_false_2 in E1 by (intros [? ?]; discriminate).
  destruct (create_map_spec (grow_name a) (page_of a) GROW_PAGE_SIZE Perm.READ_WRITE (emaps (retlb t e)))
    as (r & m' & E2 & Hm & Hr); auto; [apply (retlb_wf t e Hwf Htl) | reflexivity |].
  cbn [emaps retlb set_emaps name_map set_tlb] in Hr.
  destruct r as [err | k]; [destruct Hr as (_ & [? Hs] & _); congruence |]. destruct Hr as (_ & Hk & Hc).
  exists m'. split_and!; eauto.
  unfold try_grow_stack. rewrite Hx. cbn [negb].
  replace (if regs e rsp <=? a then _ else _) with false; cycle 1.
  { unfold near_sp in Hn. symmetry. destruct (Z.leb_spec (regs e rsp) a); lia. }
  fold (page_of a). rewrite E1. cbn [mbind outcome_bind]. fold (grow_name a).
  unfold on_maps at 1. now rewrite E2.
Qed.

(** A range inside the new page is accessible. *)
Lemma grown_reachable p a n (m : Maps S) k name perm :
  wf m -> slab_get (mem_slab m) k = Some (fresh name (page_of a) GROW_PAGE_SIZE perm) ->
  p (fresh name (page_of a) GROW_PAGE_SIZE perm) = true -> is_word 64 a -> (0 < n)%nat ->
  page_of a + GROW_PAGE_SIZE < 2 ^ 64 -> a + Z.of_nat n <= page_of a + GROW_PAGE_SIZE ->
  reachable p n a m = true.
Proof.
  intros Hwf Hk Hp Ha Hn Ht Hend.
  assert (0 <= page_of a <= a) as Hpg by (rewrite page_of_spec by exact Ha; unfold is_word in Ha;
    pose proof (Z.mod_le a 4096); pose proof (Z.mod_pos_bound a 4096); lia).
  pose proof (fresh_bottom name (page_of a) GROW_PAGE_SIZE perm ltac:(lia) ltac:(discriminate) Ht) as Hb.
  assert (forall x, page_of a <= x < page_of a + GROW_PAGE_SIZE ->
                    Mem.inside x (fresh name (page_of a) GROW_PAGE_SIZE perm) = true) as Hin.
  { intros x Hx. unfold Mem.inside. rewrite Hb. change (base_addr _) with (page_of a). lia. }
  unfold reachable. rewrite (proj2 (find_map_spec m Hwf a k _) (conj Hk (Hin a ltac:(lia)))), Hp.
  rewrite Hin by lia. cbn [andb orb]. lia.
Qed.

(** C36. A 64-bit push in 64-bit mode, below the mapped stack, grows it: when the
    page of the new stack pointer meets no region, the eight bytes lie in that page,
    and the name for it is not taken, the push succeeds; the page is mapped,
    readable, writable and zero-filled, exactly the eight bytes of the value are
    then stored and the stack pointer moves to them. *)
Theorem push_grows v e :
  wf_emu e -> trace_mem (cfg e) = false -> is_x64 (cfg e) = true ->
  let a := wsub (sp e) 8 in
  growable a (emaps e) -> a + 8 <= page_of a + GROW_PAGE_SIZE ->
  exists m1 e', stack_push64 v e = Ret (true, e') /\ wf_emu e' /\ sp e' = a
    /\ grown a (emaps e) m1 /\ stores m1 (emaps e') a (to_le_bytes 8 v).
Proof.
  intros Hwf Htr Hx a Hg Hend. assert (is_word 64 a) as Ha by apply wsub_word.
  set (e0 := set_sp a e).
  assert (wf_emu e0) as Hwf0 by (split; [exact (set_sp_words Qword a _ (wf_emu_regs e Hwf) Ha) | apply Hwf]).
  assert (page_of a <= a) as Hpg by (rewrite page_of_spec by exact Ha; pose proof (Z.mod_pos_bound a 4096); lia).
  assert (reachable Mem.can_write (SIZE Qword) a (emaps e0) = false) as Hno.
  { unfold reachable. replace (find_map a (emaps e0)) with (@None (nat * Mem64)); [apply andb_false_r |].
    symmetry. apply find_map_none; [apply Hwf |]. intros k mm Hk.
    destruct (grow_free _ _ Hg _ _ Hk); unfold Mem.inside, GROW_PAGE_SIZE in *; lia. }
  destruct (maps_write_fails Qword a v e0) as (e1 & E1 & W1); auto; [unfold is_word in Ha; lia |].
  assert (wf_emu e1) as Hwf1 by eauto using warmed_wf.
  destruct (grow_spec a e1) as (m1 & E2 & Hm1 & Hgr & k & Hk); auto.
  { destruct W1 as (t & _ & ->). exact Hx. }
  { destruct W1 as (t & _ & ->). unfold near_sp. change (regs (retlb t e0) rsp) with a. rewrite Z.leb_refl. lia. }
  { destruct W1 as (t & _ & ->). destruct Hg. now split. }
  destruct (maps_write Qword a v (set_emaps m1 e1)) as (m2 & E3 & Hm2 & Hst & _).
  { split; [apply Hwf1 | exact Hm1]. }
  { unfold is_word in Ha. lia. }
  { eapply grown_reachable; eauto; [cbn; lia | apply Hg]. }
  exists m1, (set_emaps m2 (set_emaps m1 e1)).
  assert (regs e1 = regs e0 /\ maps_equiv (emaps e1) (emaps e)) as [Er Em] by (destruct W1 as (t & _ & ->); now split).
  split_and!; [|split; [apply Hwf1 | exact Hm2] | | | exact Hst].
  - unfold stack_push64, trace_stack_write. rewrite Htr. cbn [mbind outcome_bind]. fold a. fold e0.
    unfold write_qword. rewrite E1. cbn [mbind outcome_bind]. rewrite E2. cbn [mbind outcome_bind]. now rewrite E3.
  - unfold sp. cbn [regs set_emaps]. rewrite Er. exact (upd_same rsp a (regs e)).
  - intros x. rewrite (Hgr x). destruct W1 as (t & _ & ->). reflexivity.
Qed.

(** ** Stack instructions *)

Lemma set_reg_pointwise r f lo w v s s' g :
  view r = Some (f, lo, w) -> words s -> words s' -> is_word 64 v -> (forall g, s g = s' g) ->
  set_reg r v s g = set_reg r v s' g.
Proof.
  intros Hv Hs Hs' Hw E.
  destruct (set_reg_view r f lo w v s) as (x & Ex & Wx & Bx); auto.
  destruct (set_reg_view r f lo w v s') as (y & Ey & Wy & By); auto.
  rewrite Ex, Ey. destruct (decide (g = f)) as [-> | Hg]; [|now rewrite !upd_other by exact Hg].
  rewrite !upd_same. apply (word_ext 64); auto; [lia |]. intros i Hi. now rewrite Bx, By, E by lia.
Qed.

(** PUSH of an operand and POP into a register move the 64-bit value and restore the
    stack pointer. *)
Theorem push_pop_moves ins ins' f e :
  wf_emu e -> quiet e -> wf_ins ins -> source ins 0 64 e -> stack_op_size ins e = 8 ->
  op_kind ins' 0 = OpRegister -> view (op_register ins' 0) = Some (f, 0, 64) ->
  let a := wsub (sp e) 8 in
  reachable Mem.can_write 8 a (emaps e) = true -> reachable Mem.can_read 8 a (emaps e) = true ->
  exists v e1 e2, operand_value ins 0 e = Some v
    /\ push_execute ins e = Ret (true, e1) /\ pop_execute ins' e1 = Ret (true, e2) /\ wf_emu e2
    /\ (forall g, regs e2 g = set_reg (op_register ins' 0) v (regs e) g)
    /\ stores (emaps e) (emaps e2) a (to_le_bytes 8 v).
Proof.
  intros Hwf Hq Hi Hs Hsz Hk Hv a Hw Hr. destruct (read_operand ins 0 64 e) as (v & e0 & E0 & V & Wv & W0); auto.
  assert (wf_emu e0) as Hwf0 by eauto using warmed_wf. destruct W0 as (t & Ht & ->).
  destruct (push_then_pop Qword v true (retlb t e)) as (m' & t2 & Ht2 & Hwf1 & E1 & _ & E2 & Hst);
    auto; [now do 2 right | apply Hq |].
  cbn [push_of pop_of] in E1, E2. set (e1 := set_emaps m' _) in *. set (r2 := set_sp_of _ _ (regs e1)) in *.
  assert (words r2) as Hr2 by (apply set_sp_words; [apply Hwf1 | apply wrap_word_64]).
  exists v, e1, (set_regs (set_reg (op_register ins' 0) v r2) (retlb t2 e1)).
  split_and!; [exact V | | | | | exact Hst].
  - unfold push_execute. rewrite E0. cbn [mbind outcome_bind].
    change (stack_op_size ins (retlb t e)) with (stack_op_size ins e). rewrite Hsz. exact E1.
  - unfold pop_execute, stack_op_size. rewrite Hk, (register_size_view _ _ _ _ Hv).
    change (64 / 8 =? 8) with true. rewrite E2. cbn [mbind outcome_bind].
    now rewrite (set_register ins' 0 f 0 64) by assumption.
  - split; [|apply (retlb_wf t2 e1 Hwf1 Ht2)]. cbn [regs set_regs]. eapply set_words; eauto.
  - intros g. cbn [regs set_regs]. eapply set_reg_pointwise; eauto; [apply Hwf |].
    exact (popped_regs (regs e) (wf_emu_regs e Hwf)).
Qed.

(** The flags that [pushfq] saves: it clears TF first. *)
Definition saved (s : Flags) : Flags := materialize_lazy (set_f_tf false (materialize_lazy s)).

Lemma saved_equiv s : flags_equiv (saved s) (set_f_tf false s).
Proof.
  unfold saved. destruct (materialize_transparent s) as [[Eo Ec] [Hk _]].
  destruct (materialize_transparent (set_f_tf false (materialize_lazy s))) as [[Eo' Ec'] _].
  split; [rewrite Eo' | rewrite Ec'].
  - etransitivity; [|exact Eo]. rewrite !materialized_fields by exact Hk. reflexivity.
  - unfold control in *. cbn. injection Ec. congruence.
Qed.

(** PUSHFQ then POPFQ restores every flag but TF, which PUSHFQ clears, and every
    register, and leaves the EFLAGS image below the stack pointer. *)
Theorem pushfq_popfq_roundtrip ins ins' e :
  wf_emu e -> trace_mem (cfg e) = false ->
  let a := wsub (sp e) 8 in
  reachable Mem.can_write 8 a (emaps e) = true -> reachable Mem.can_read 8 a (emaps e) = true ->
  exists e1 e2, pushfq_execute ins e = Ret (true, e1) /\ popfq_execute ins' e1 = Ret (true, e2) /\ wf_emu e2
    /\ flags_equiv (flags e2) (set_f_tf false (flags e))
    /\ (forall g, regs e2 g = regs e g)
    /\ stores (emaps e) (emaps e2) a (to_le_bytes 8 (dump (saved (flags e)))).
Proof.
  intros Hwf Htr a Hw Hr. set (s := saved (flags e)). set (e0 := set_flags s e).
  assert (wf_emu e0) as Hwf0 by (now apply set_flags_wf).
  assert (is_word 64 (dump s)) as Hd by (eapply word_mono; [|apply dump_word]; lia).
  destruct (push_then_pop Qword (dump s) true e0) as (m' & t & Ht & Hwf1 & E1 & _ & E2 & Hst);
    auto; [now do 2 right |].
  cbn [push_of pop_of] in E1, E2. set (e1 := set_emaps m' _) in *. set (r2 := set_sp_of _ _ (regs e1)) in *.
  exists e1, (flags_mut (load (dump s)) (set_regs r2 (retlb t e1))).
  split_and!; [exact E1 | | | | | exact Hst].
  - unfold popfq_execute. rewrite E2. cbn [mbind outcome_bind]. now rewrite (wrap_small 32) by apply dump_word.
  - split; [|apply (retlb_wf t e1 Hwf1 Ht)]. apply set_sp_words; [apply Hwf1 | apply wrap_word_64].
  - unfold flags_mut. cbn [flags set_flags]. etransitivity; [apply load_dump | apply saved_equiv].
  - exact (popped_regs (regs e) (wf_emu_regs e Hwf)).
Qed.
End Spec.
