(* ===== verification/FaultSpec.v ===== *)
(** * Faults

    What operand access does when the guest address is not accessible and the
    stack cannot be grown to cover it: exactly one exception of the right kind
    is raised, no operand is written and the instruction reports failure. *)

From stdpp Require Import gmap strings.
From S2P Require Import Prelude Flags FlagsArith FlagsShift Scalar Mem64 BTree Slab Tlb Maps MapsInv MapsLife.
From S2P Require Import Regs Emu Operands Stack OperandsSpec Instructions AluSpec CondSpec StackSpec.

Section Spec.
Context {S W : Type} `{SlabLaws S} `{Environment S W}.
Implicit Types (e : Emu S W) (ins : Instruction).

(** The exception of a failed read of each size. *)
Definition dereferencing (sk : ScalarKind) : ExceptionType :=
  match sk with Qword => QWordDereferencing | Dword => DWordDereferencing | Word => WordDereferencing | _ => ByteDereferencing end.

(** The stack is not grown to cover [a]. *)
Definition no_growth (a : Z) e : Prop := is_x64 (cfg e) = false \/ near_sp a (regs e) = false.

(** Operand [n] is a memory operand that the check [p] refuses. *)
Definition faults (p : Mem64 -> bool) ins (n : nat) (sk : ScalarKind) e : Prop :=
  op_kind ins n = OpMemory /\ plain_memory ins sk
  /\ reachable p (SIZE sk) (effective_addr ins e) (emaps e) = false
  /\ no_growth (effective_addr ins e) e.

Lemma view_faults p ins n sk e e' : same_view e e' -> faults p ins n sk e -> faults p ins n sk e'.
Proof.
  intros E (Hk & Hp & Hr & Hn). unfold faults, no_growth.
  rewrite (view_addr _ _ _ E), (view_reachable _ _ _ _ _ E), (sv_regs _ _ E), (sv_cfg _ _ E). auto.
Qed.

Lemma no_growth_fails a e : no_growth a e -> try_grow_stack a e = Ret (false, e).
Proof.
  intros Hn. unfold try_grow_stack. destruct (is_x64 (cfg e)) eqn:Hx; [|reflexivity]. cbn [negb].
  destruct Hn as [Hn | Hn]; [congruence |]. unfold near_sp in Hn.
  replace (if regs e rsp <=? a then _ else _) with true; [reflexivity |].
  symmetry. destruct (Z.leb_spec (regs e rsp) a); unfold MAX_DIST_BELOW_RSP in *; lia.
Qed.

Lemma maps_read_fails sk addr e :
  wf_emu e -> 0 <= addr -> reachable Mem.can_read (SIZE sk) addr (emaps e) = false ->
  exists e', on_maps (read_scalar (SIZE sk) addr) e = Ret (None, e') /\ warmed e e'.
Proof.
  intros Hwf Ha Hr. destruct (read_scalar_spec (SIZE sk) addr (emaps e)) as (t & Ht & E);
    [apply Hwf | exact Ha | destruct sk; cbn; lia |].
  rewrite Hr in E. exists (retlb t e). unfold on_maps. rewrite E. split; [reflexivity | now exists t].
Qed.

(** ** Reads *)

(** The state after a read of [a] has failed: the exception, then the breakpoint. *)
Definition after_read_fault (sk : ScalarKind) (a : Z) e : Emu S W :=
  let e := exception (dereferencing sk) e in break_on (bool_decide (a ∈ bp_mem_read e)) e.

(** The exception is not recovered from. *)
Definition unrecovered (x : ExceptionType) e : Prop :=
  soft_exception_recovery (cfg (exception x e)) && process_terminated (exception x e) = false.

Lemma read_faults ins n sk e :
  wf_emu e -> quiet e -> wf_ins ins -> has_kernel e = false -> faults Mem.can_read ins n sk e ->
  exists e1, warmed e e1
    /\ (unrecovered (dereferencing sk) e1 ->
        get_operand_value ins n true e = Ret (None, after_read_fault sk (effective_addr ins e) e1)).
Proof.
  intros Hwf Hq Hi Hker (Hk & Hp & Hr & Hn). destruct (plain_size _ _ Hp) as (_ & Hz & _).
  pose proof Hp as (Hfs & Hgs & _ & _ & Ho). pose proof (effective_addr_nonneg ins e Hi) as Ha.
  destruct (maps_read_fails sk (effective_addr ins e) e) as (e1 & E1 & W1); auto. exists e1. split; [exact W1 |].
  intros Hu. unfold get_operand_value. rewrite Hk. unfold handle_memory_get_operand.
  rewrite !decide_False, !bool_decide_eq_false_2 by assumption. cbn [orb andb].
  rewrite Hz. unfold guard_access. rewrite (quiet_guard e Hq).
  unfold call_memory_read_hook. rewrite (quiet_read e Hq), read_sz_scalar, E1 by exact Ho.
  cbn [mbind outcome_bind]. unfold read_fault.
  rewrite no_growth_fails by (destruct W1 as (t & _ & ->); exact Hn). cbn [mbind outcome_bind].
  assert (has_kernel e1 = false) as -> by (destruct W1 as (t & _ & ->); exact Hker).
  replace (if bits_of (SIZE sk) =? 64 then _ else _) with (dereferencing sk) by (destruct sk; reflexivity).
  unfold raise. rewrite Hu. reflexivity.
Qed.

(** ** Writes *)

Lemma write_faults ins n sk v e :
  wf_emu e -> quiet e -> wf_ins ins -> skip_unimplemented (cfg e) = false -> is_word 64 v ->
  faults Mem.can_write ins n sk e ->
  exists e1, warmed e e1 /\ set_operand_value ins n v e = Ret (false, (raise BadAddressDereferencing e1).2).
Proof.
  intros Hwf Hq Hi Hskip Hv (Hk & Hp & Hr & Hn). destruct (plain_size _ _ Hp) as (_ & Hz & _).
  pose proof Hp as (Hfs & Hgs & Hbase & _ & Ho). pose proof (effective_addr_nonneg ins e Hi) as Ha.
  destruct (write_sz_scalar sk (effective_addr ins e) v e Ho) as (v' & _ & Ew).
  destruct (maps_write_fails sk (effective_addr ins e) v' e) as (e1 & E1 & W1); auto. exists e1. split; [exact W1 |].
  unfold set_operand_value. rewrite Hk.
  rewrite (bool_decide_eq_false_2 (memory_segment ins = GS)), (bool_decide_eq_false_2 (memory_segment ins = FS)),
    (bool_decide_eq_false_2 (memory_base ins = GS)) by assumption. cbn [orb andb negb].
  rewrite Hz. unfold guard_access. rewrite (quiet_guard e Hq).
  unfold call_memory_write_hook. rewrite (quiet_write e Hq). rewrite (wrap_small 64 v) by exact Hv.
  rewrite Ew, E1. cbn [mbind outcome_bind].
  rewrite no_growth_fails by (destruct W1 as (t & _ & ->); exact Hn). cbn [mbind outcome_bind].
  unfold write_fault. assert (skip_unimplemented (cfg e1) = false) as -> by (destruct W1 as (t & _ & ->); exact Hskip).
  now destruct (raise BadAddressDereferencing e1).
Qed.

(** ** Instructions *)

(** The first operand that faults is the one reported. *)
Definition first_fault ins (n : nat) (w : Z) (sk : ScalarKind) e : Prop :=
  faults Mem.can_read ins n sk e /\ (n = 0%nat \/ (n = 1%nat /\ source ins 0 w e)).

(** When the first operand that cannot be read is in unmapped or unreadable memory
    away from the stack, a two-operand ALU handler raises the dereferencing
    exception of the access size once, returns false and changes no register, flag
    or byte of its own. *)
Theorem alu_read_fault op ins n w sk e :
  wf_emu e -> quiet e -> wf_ins ins -> has_kernel e = false -> break_on_next_cmp e = false ->
  first_fault ins n w sk e ->
  exists e1, warmed e e1
    /\ (unrecovered (dereferencing sk) e1 ->
        alu_execute op ins e = Ret (false, after_read_fault sk (effective_addr ins e) e1)).
Proof.
  intros Hwf Hq Hi Hker Hbrk [Hf [-> | [-> Hs]]].
  - destruct (read_faults ins 0 sk e) as (e1 & W1 & E); auto. exists e1. split; [exact W1 |]. intros Hu.
    specialize (E Hu). destruct op; cbn [alu_execute];
      unfold add_execute, adc_execute, sub_execute, sbb_execute, and_execute, or_execute, and_or_execute, xor_execute,
        cmp_execute, test_execute; rewrite ?Hbrk, E; reflexivity.
  - destruct (read_operand ins 0 w e) as (a & e0 & E0 & _ & _ & W0); auto.
    destruct (read_faults ins 1 sk e0) as (e1 & W1 & E); eauto using warmed_wf, warmed_quiet.
    { destruct W0 as (t & _ & ->). exact Hker. } { eapply view_faults; [apply warmed_view |]; eauto. }
    exists e1. split; [eauto using warmed_trans |]. intros Hu. specialize (E Hu).
    replace (effective_addr ins e0) with (effective_addr ins e) in E by (symmetry; now apply view_addr, warmed_view).
    destruct op; cbn [alu_execute];
      unfold add_execute, adc_execute, sub_execute, sbb_execute, and_execute, or_execute, and_or_execute, xor_execute,
        cmp_execute, test_execute; rewrite ?Hbrk, E0; cbn [mbind outcome_bind]; rewrite E; reflexivity.
Qed.

(** C32. When the memory destination of a two-operand ALU instruction can be read
    but not written, lies outside the range around the stack pointer in which the
    emulator grows the stack instead, and the option to skip unimplemented
    instructions is off, the handler returns false with the state that the exception
    BadAddressDereferencing leaves (set running again if soft recovery is on and the
    process was terminated). The exception is raised on the initial state with the
    status flags of the completed operation: no byte of memory, permission or
    register has changed. *)
Theorem alu_write_fault op ins w sk e :
  wf_emu e -> quiet e -> wf_ins ins -> width w -> break_on_next_cmp e = false ->
  skip_unimplemented (cfg e) = false -> alu_writes op = true ->
  source ins 0 w e -> source ins 1 w e -> faults Mem.can_write ins 0 sk e ->
  exists a b e1 s, operand_value ins 0 e = Some a /\ operand_value ins 1 e = Some b /\ warmed e e1
    /\ maps_equiv (emaps e1) (emaps e) /\ observe s = alu_status op w a b (flag_cf e)
    /\ let raised := exception BadAddressDereferencing (set_flags s e1) in
       alu_execute op ins e
       = Ret (false, if soft_exception_recovery (cfg raised) && process_terminated raised then set_running false 1 raised else raised).
Proof.
  intros Hwf Hq Hi Hw Hbrk Hskip Hwr Hs0 Hs1 Hf.
  destruct (alu_computes op ins w e) as (a & b & e1 & s & Va & Vb & Wa & Wb & (t & Ht & ->) & Ho & Hc & E); auto.
  rewrite Hwr in E.
  assert (faults Mem.can_write ins 0 sk (set_flags s (retlb t e))) as Hf'.
  { eapply view_faults; [apply set_flags_view |]. eapply view_faults; [apply warmed_view; now exists t | exact Hf]. }
  destruct (write_faults ins 0 sk (alu_result op w a b (flag_cf e)) (set_flags s (retlb t e))) as (e2 & W2 & E2);
    [now apply set_flags_wf, retlb_wf | now destruct Hq | exact Hi | exact Hskip
    | eauto using word_64, alu_result_word | exact Hf' |].
  destruct W2 as (t2 & Ht2 & ->). exists a, b, (retlb t2 e), s. split_and!; auto; [now exists t2 | reflexivity |].
  cbv zeta. rewrite E, E2. unfold raise. cbv zeta. now destruct (_ && _).
Qed.
End Spec.
