(* ===== verification/MulDiv.v ===== *)
(** * Multiplication, division and bit tests ([engine/logic.rs])

    The helpers of the one-operand multiplications and divisions, of the bit
    tests and the handlers that call them.  A division that fails raises its
    exception, sets [force_break] and leaves the registers alone. *)

From stdpp Require Import gmap strings.
From S2P Require Import Prelude Flags FlagsArith Scalar Mem64 Slab Tlb Maps Regs Emu Operands Instructions.

Section MulDiv.
Context {S W : Type} `{Slab S} `{Environment S W}.
Implicit Types (e : Emu S W) (ins : Instruction).

(** [emu.regs_mut().f(..)] *)
Definition on_regs (f : Regs64 -> Regs64) e : Emu S W := set_regs (f (regs e)) e.

(** ** Multiplication *)

Definition mul64 (value0 : Z) e : Emu S W :=
  let res := regs e rax * value0 in
  let e := on_regs (upd rdx (wrap 64 (Z.shiftr (Z.land res 0xffffffffffffffff0000000000000000) 64))) e in
  let e := on_regs (upd rax (wrap 64 (Z.land res 0xffffffffffffffff))) e in
  let e := flags_mut (calc_pf (wrap 8 res)) e in
  let e := flags_mut (set_f_of (negb (regs e rdx =? 0))) e in
  flags_mut (set_f_cf (negb (regs e rdx =? 0))) e.

Definition mul32 (value0 : Z) e : Emu S W :=
  let value1 := wrap 32 (get_eax (regs e)) in
  let value2 := wrap 32 value0 in
  let res := value1 * value2 in
  let e := on_regs (set_edx (Z.shiftr (Z.land res 0xffffffff00000000) 32)) e in
  let e := on_regs (set_eax (Z.land res 0x00000000ffffffff)) e in
  let e := flags_mut (calc_pf (wrap 8 res)) e in
  let e := flags_mut (set_f_of (negb (get_edx (regs e) =? 0))) e in
  flags_mut (set_f_cf (negb (get_edx (regs e) =? 0))) e.

Definition mul16 (value0 : Z) e : Emu S W :=
  let value1 := wrap 32 (get_ax (regs e)) in
  let value2 := wrap 32 value0 in
  let res := wrap 32 (value1 * value2) in
  let e := on_regs (set_dx (Z.shiftr (Z.land res 0xffff0000) 16)) e in
  let e := on_regs (set_ax (Z.land res 0xffff)) e in
  let e := flags_mut (calc_pf (wrap 8 res)) e in
  let e := flags_mut (set_f_of (negb (get_dx (regs e) =? 0))) e in
  flags_mut (set_f_cf (negb (get_dx (regs e) =? 0))) e.

Definition mul8 (value0 : Z) e : Emu S W :=
  let value1 := wrap 32 (get_al (regs e)) in
  let value2 := wrap 32 value0 in
  let res := wrap 32 (value1 * value2) in
  let e := on_regs (set_ax (Z.land res 0xffff)) e in
  let e := flags_mut (calc_pf (wrap 8 res)) e in
  let e := flags_mut (set_f_of (negb (get_ah (regs e) =? 0))) e in
  flags_mut (set_f_cf (negb (get_ah (regs e) =? 0))) e.

(** The last two lines of the four signed multiplications: [lo] and [hi] are the
    halves of the product, sign-extended. *)
Definition imul_flags (lo hi : Z) e : Emu S W :=
  let e := flags_mut (set_f_of (negb (((lo <? 0) && (hi =? -1)) || ((0 <=? lo) && (hi =? 0))))) e in
  flags_mut (set_f_cf (flag_of e)) e.

Definition imul64p1 (value0 : Z) e : Emu S W :=
  let value1 := sgn 64 (regs e rax) in
  let value2 := sgn 64 value0 in
  let ures := wrap 128 (value1 * value2) in
  let e := on_regs (upd rdx (wrap 64 (Z.shiftr ures 64))) e in
  let e := on_regs (upd rax (wrap 64 (Z.land ures 0xffffffffffffffff))) e in
  imul_flags (sgn 64 (regs e rax)) (sgn 64 (regs e rdx)) e.

Definition imul32p1 (value0 : Z) e : Emu S W :=
  let value1 := sgn 32 (get_eax (regs e)) in
  let value2 := sgn 32 value0 in
  let ures := wrap 64 (value1 * value2) in
  let e := on_regs (set_edx (Z.shiftr (Z.land ures 0xffffffff00000000) 32)) e in
  let e := on_regs (set_eax (Z.land ures 0x00000000ffffffff)) e in
  imul_flags (sgn 32 (get_eax (regs e))) (sgn 32 (get_edx (regs e))) e.

Definition imul16p1 (value0 : Z) e : Emu S W :=
  let value1 := sgn 16 (wrap 16 (get_ax (regs e))) in
  let value2 := sgn 16 (wrap 16 value0) in
  let ures := wrap 32 (value1 * value2) in
  let e := on_regs (set_dx (Z.shiftr (Z.land ures 0xffff0000) 16)) e in
  let e := on_regs (set_ax (Z.land ures 0xffff)) e in
  imul_flags (sgn 16 (get_ax (regs e))) (sgn 16 (get_dx (regs e))) e.

Definition imul8p1 (value0 : Z) e : Emu S W :=
  let value1 := sgn 8 (get_al (regs e)) in
  let value2 := sgn 8 value0 in
  let res := value1 * value2 in
  let e := on_regs (set_ax (wrap 16 res)) e in
  let ax := wrap 16 (get_ax (regs e)) in
  let al := sgn 8 (Z.land ax 0xff) in
  let ah := sgn 8 (Z.land (Z.shiftr ax 8) 0xff) in
  imul_flags al ah e.

(** ** Division *)

Definition divide_overflow e : Emu S W := set_force_break true (exception Div0 e).

(** A divisor of zero. *)
Definition divide_by_zero e : Emu S W :=
  set_force_break true (exception Div0 (flags_mut (set_f_tf true) e)).

Definition sign_change e : Emu S W := set_force_break true (exception SignChangeOnDivision e).

Definition div64 (value0 : Z) e : Emu S W :=
  let value1 := shl 128 (regs e rdx) 64 + regs e rax in
  if value0 =? 0 then divide_by_zero e
  else
    let resq := value1 / value0 in
    let resr := value1 mod value0 in
    if 2 ^ 64 - 1 <? resq then divide_overflow e
    else
      let e := on_regs (upd rax (wrap 64 resq)) e in
      let e := on_regs (upd rdx (wrap 64 resr)) e in
      flags_mut (calc_pf (wrap 8 resq)) e.

Definition div32 (value0 : Z) e : Emu S W :=
  let value1 := shl 64 (get_edx (regs e)) 32 + get_eax (regs e) in
  if value0 =? 0 then divide_by_zero e
  else
    let resq := value1 / value0 in
    let resr := value1 mod value0 in
    if 2 ^ 32 - 1 <? resq then divide_overflow e
    else
      let e := on_regs (set_eax resq) e in
      let e := on_regs (set_edx resr) e in
      flags_mut (calc_pf (wrap 8 resq)) e.

Definition div16 (value0 : Z) e : Emu S W :=
  let value1 := wrap 32 (shl 64 (get_dx (regs e)) 16 + get_ax (regs e)) in
  let value2 := wrap 32 value0 in
  if value2 =? 0 then divide_by_zero e
  else
    let resq := value1 / value2 in
    let resr := value1 mod value2 in
    if 2 ^ 16 - 1 <? resq then divide_overflow e
    else
      let e := on_regs (set_ax resq) e in
      let e := on_regs (set_dx resr) e in
      let e := flags_mut (calc_pf (wrap 8 resq)) e in
      flags_mut (set_f_tf false) e.

Definition div8 (value0 : Z) e : Emu S W :=
  let value1 := wrap 32 (get_ax (regs e)) in
  let value2 := wrap 32 value0 in
  if value2 =? 0 then divide_by_zero e
  else
    let resq := value1 / value2 in
    let resr := value1 mod value2 in
    if 2 ^ 8 - 1 <? resq then divide_overflow e
    else
      let e := on_regs (set_al resq) e in
      let e := on_regs (set_ah resr) e in
      let e := flags_mut (calc_pf (wrap 8 resq)) e in
      flags_mut (set_f_tf false) e.

(** [i128::checked_div], [checked_rem]: truncating; [None] on overflow. *)
Definition i128_checked (x y q : Z) : option Z :=
  if (y =? 0) || ((x =? - 2 ^ 127) && (y =? -1)) then None else Some q.

Definition idiv64 (value0 : Z) e : Emu S W :=
  let divisor := sgn 64 value0 in
  if divisor =? 0 then divide_by_zero e
  else
    let dividend := sgn 128 (Z.lor (shl 128 (regs e rdx) 64) (regs e rax)) in
    match i128_checked dividend divisor (Z.quot dividend divisor),
          i128_checked dividend divisor (Z.rem dividend divisor) with
    | Some resq, Some resr =>
        if (resq <=? 2 ^ 63 - 1) && (- 2 ^ 63 <=? resq) then
          let e := on_regs (upd rax (wrap 64 resq)) e in
          let e := on_regs (upd rdx (wrap 64 resr)) e in
          let e := flags_mut (calc_pf (wrap 8 resq)) e in
          flags_mut (set_f_tf false) e
        else sign_change e
    | _, _ => sign_change e
    end.

Definition idiv32 (value0 : Z) e : Emu S W :=
  let divisor := sgn 32 (wrap 32 value0) in
  if divisor =? 0 then divide_by_zero e
  else
    let hi := Z.land (get_edx (regs e)) 0xffffffff in
    let lo := Z.land (get_eax (regs e)) 0xffffffff in
    let dividend := sgn 64 (Z.lor (shl 64 hi 32) lo) in
    let resq := Z.quot dividend divisor in
    let resr := Z.rem dividend divisor in
    let e := flags_mut (set_f_tf false) e in
    if (2 ^ 31 - 1 <? resq) || (resq <? - 2 ^ 31) then sign_change e
    else
      let e := on_regs (set_eax (wrap 32 resq)) e in
      let e := on_regs (set_edx (wrap 32 resr)) e in
      flags_mut (calc_pf (wrap 8 resq)) e.

Definition idiv16 (value0 : Z) e : Emu S W :=
  let divisor := sgn 16 (wrap 16 value0) in
  if divisor =? 0 then divide_by_zero e
  else
    let hi := wrap 16 (get_dx (regs e)) in
    let lo := wrap 16 (get_ax (regs e)) in
    let dividend := sgn 32 (Z.lor (shl 32 hi 16) lo) in
    let resq := Z.quot dividend divisor in
    let resr := Z.rem dividend divisor in
    let e := flags_mut (set_f_tf false) e in
    if (2 ^ 15 - 1 <? resq) || (resq <? - 2 ^ 15) then sign_change e
    else
      let e := on_regs (set_ax (wrap 16 resq)) e in
      let e := on_regs (set_dx (wrap 16 resr)) e in
      flags_mut (calc_pf (wrap 8 resq)) e.

Definition idiv8 (value0 : Z) e : Emu S W :=
  let divisor := sgn 8 (wrap 8 value0) in
  if divisor =? 0 then divide_by_zero e
  else
    let dividend := sgn 16 (wrap 16 (get_ax (regs e))) in
    let resq := Z.quot dividend divisor in
    let resr := Z.rem dividend divisor in
    let e := flags_mut (set_f_tf false) e in
    if (2 ^ 7 - 1 <? resq) || (resq <? - 2 ^ 7) then sign_change e
    else
      let e := on_regs (set_al (wrap 8 resq)) e in
      let e := on_regs (set_ah (wrap 8 resr)) e in
      flags_mut (calc_pf (wrap 8 resq)) e.

(** ** Handlers *)

(** [mul], [div], [idiv] and the one-operand [imul]: the routine of the operand
    size, whose outcome the handler does not look at. *)
Definition one_operand (op : Z -> Z -> option (Emu S W -> Emu S W)) ins e : outcome (bool * Emu S W) :=
  let? value0, e := get_operand_value ins 0 true e in
  match op (get_operand_sz ins 0) value0 with
  | Some f => Ret (true, f e)
  | None => Ret (false, e)
  end.

Definition mul_execute : Instruction -> Emu S W -> outcome (bool * Emu S W) :=
  one_operand (fun sz v => by_size sz (mul64 v) (mul32 v) (mul16 v) (mul8 v)).
Definition div_execute : Instruction -> Emu S W -> outcome (bool * Emu S W) :=
  one_operand (fun sz v => by_size sz (div64 v) (div32 v) (div16 v) (div8 v)).
Definition idiv_execute : Instruction -> Emu S W -> outcome (bool * Emu S W) :=
  one_operand (fun sz v => by_size sz (idiv64 v) (idiv32 v) (idiv16 v) (idiv8 v)).

Definition imul_execute ins e : outcome (bool * Emu S W) :=
  if (op_count ins =? 1)%nat then
    one_operand (fun sz v => by_size sz (imul64p1 v) (imul32p1 v) (imul16p1 v) (imul8p1 v)) ins e
  else
    let i := if (op_count ins =? 2)%nat then 0%nat else 1%nat in
    let? value0, e := get_operand_value ins i true e in
    let? value1, e := get_operand_value ins (i + 1) true e in
    store_by_size ins
      (by_size (get_operand_sz ins 0) (imul64p2 value0 value1) (imul32p2 value0 value1)
         (imul16p2 value0 value1) (imul8p2 value0 value1)) e.

(** [mulx]: no flags; the results of the stores are not checked. *)
Definition mulx_execute ins e : outcome (bool * Emu S W) :=
  let? src, e := get_operand_value ins 2 true e in
  if get_operand_sz ins 0 =? 64 then
    let result := wrap 128 (src * regs e rdx) in
    '(_, e) ← set_operand_value ins 1 (wrap 64 result) e;
    '(_, e) ← set_operand_value ins 0 (wrap 64 (Z.shiftr result 64)) e;
    Ret (true, e)
  else
    let factor := Z.land (regs e rdx) 0xffffffff in
    let result := wrap 64 (Z.land src 0xffffffff * factor) in
    '(_, e) ← set_operand_value ins 1 (Z.land result 0xffffffff) e;
    '(_, e) ← set_operand_value ins 0 (Z.land (Z.shiftr result 32) 0xffffffff) e;
    Ret (true, e).

(** ** Bit tests *)

(** [struct BitTarget] *)
Record BitTarget := mkBitTarget { bt_value : Z; bt_bit : Z; bt_addr : option Z; bt_size : Z }.

Definition selected_bit (t : BitTarget) : bool := Z.land (Z.shiftr (bt_value t) (bt_bit t)) 1 =? 1.

Definition sign_extend (value bits : Z) : Z :=
  if bits =? 16 then sgn 16 (wrap 16 value) else if bits =? 32 then sgn 32 (wrap 32 value) else sgn 64 value.

Definition read_sized (addr bits : Z) e : outcome (option Z * Emu S W) :=
  if bits =? 16 then on_maps (read_word addr) e
  else if bits =? 32 then on_maps (read_dword addr) e
  else on_maps (read_qword addr) e.

Definition write_sized (addr bits value : Z) e : outcome (bool * Emu S W) :=
  if bits =? 16 then on_maps (write_word addr (wrap 16 value)) e
  else if bits =? 32 then on_maps (write_dword addr (wrap 32 value)) e
  else on_maps (write_qword addr value) e.

(** [u32::trailing_zeros] of the operand sizes. *)
Definition size_shift (size : Z) : Z :=
  if size =? 64 then 6 else if size =? 32 then 5 else if size =? 16 then 4 else 3.

Definition bit_target ins e : outcome (option BitTarget * Emu S W) :=
  let size := get_operand_sz ins 0 in
  '(offset, e) ← get_operand_value ins 1 true e;
  match offset with
  | None => Ret (None, e)
  | Some offset =>
      let bit := offset mod size in
      if negb (bool_decide (op_kind ins 0 = OpMemory)) || negb (bool_decide (op_kind ins 1 = OpRegister)) then
        '(value, e) ← get_operand_value ins 0 true e;
        Ret (match value with Some value => Some (mkBitTarget value bit None size) | None => None end, e)
      else
        '(base, e) ← get_operand_value ins 0 false e;
        match base with
        | None => Ret (None, e)
        | Some base =>
            let element := Z.shiftr (sign_extend offset size) (size_shift size) in
            let addr := wadd base (wrap 64 (element * (size / 8))) in
            '(value, e) ← read_sized addr size e;
            Ret (match value with Some value => Some (mkBitTarget value bit (Some addr) size) | None => None end, e)
        end
  end.

Definition bit_target_store ins (t : BitTarget) (value : Z) e : outcome (bool * Emu S W) :=
  match bt_addr t with
  | Some addr => write_sized addr (bt_size t) value e
  | None => set_operand_value ins 0 value e
  end.

Definition bt_execute ins e : outcome (bool * Emu S W) :=
  let? target, e := bit_target ins e in
  Ret (true, flags_mut (set_f_cf (selected_bit target)) e).

(** [bts], [btr] and [btc]: the bit becomes [f] of its old value. *)
Definition bit_update (f : bool -> bool) ins e : outcome (bool * Emu S W) :=
  let? target, e := bit_target ins e in
  let cf := selected_bit target in
  let e := flags_mut (set_f_cf cf) e in
  bit_target_store ins target (set_bit 64 (bt_value target) (bt_bit target) (Z.b2z (f cf))) e.

Definition bts_execute : Instruction -> Emu S W -> outcome (bool * Emu S W) := bit_update (fun _ => true).
Definition btr_execute : Instruction -> Emu S W -> outcome (bool * Emu S W) := bit_update (fun _ => false).
Definition btc_execute : Instruction -> Emu S W -> outcome (bool * Emu S W) := bit_update negb.
End MulDiv.
