(* ===== verification/MulDivSpec.v ===== *)
(** * Correctness of multiplication and division

    The accumulator pair of each operand size (RDX:RAX, EDX:EAX, DX:AX, AH:AL)
    receives the exact double-width product, and is divided exactly: quotient
    and remainder, or the exception when the divisor is zero or the quotient
    does not fit, with the registers untouched. *)

From stdpp Require Import gmap strings.
From S2P Require Import Prelude Flags FlagsArith FlagsShift Scalar Mem64 BTree Slab Tlb Maps MapsInv MapsLife.
From S2P Require Import Regs Emu Operands OperandsSpec Instructions AluSpec CondSpec MulDiv.

(** ** The accumulator pair *)

Definition acc_lo (w : Z) : Register :=
  if w =? 64 then RAX else if w =? 32 then EAX else if w =? 16 then AX else AL.
Definition acc_hi (w : Z) : Register :=
  if w =? 64 then RDX else if w =? 32 then EDX else if w =? 16 then DX else AH.

(** The double-width value of the pair. *)
Definition acc_pair (w : Z) (r : Regs64) : Z := get_reg (acc_hi w) r * 2 ^ w + get_reg (acc_lo w) r.

(** Registers after the halves [lo] and [hi] are stored. *)
Definition acc_store (w lo hi : Z) (r : Regs64) : Regs64 := set_reg (acc_hi w) hi (set_reg (acc_lo w) lo r).

(** ** Registers *)

Lemma get_reg_word reg f lo w s : view reg = Some (f, lo, w) -> words s -> is_word w (get_reg reg s).
Proof.
  intros Hv Hs. rewrite (get_reg_view _ _ _ _ _ Hv Hs). apply wrap_word.
  destruct (view_shape _ _ _ _ Hv) as [_ ?]. lia.
Qed.

Lemma get_reg_other reg f lo w reg' f' lo' w' v s :
  view reg = Some (f, lo, w) -> view reg' = Some (f', lo', w') -> f' <> f -> words s -> is_word 64 v ->
  get_reg reg' (set_reg reg v s) = get_reg reg' s.
Proof.
  intros Hv Hv' Hne Hs Hw. pose proof (set_words _ _ _ _ _ _ Hv Hs Hw) as Hs'.
  rewrite (get_reg_view _ _ _ _ _ Hv' Hs'), (get_reg_view _ _ _ _ s Hv' Hs).
  destruct (set_reg_view _ _ _ _ _ _ Hv Hs Hw) as (x & Ex & _). now rewrite Ex, upd_other by exact Hne.
Qed.

Lemma acc_views w :
  width w -> exists f lo g hi, view (acc_lo w) = Some (f, lo, w) /\ view (acc_hi w) = Some (g, hi, w)
    /\ (w = 8 \/ g <> f).
Proof. intros [-> | [-> | [-> | ->]]]; do 4 eexists; cbn; auto 10. Qed.

Lemma acc_pair_word w r : width w -> words r -> is_word (2 * w) (acc_pair w r).
Proof.
  intros Hw Hr. destruct (acc_views w Hw) as (f & lo & g & hi & Hl & Hh & _).
  pose proof (get_reg_word _ _ _ _ _ Hl Hr). pose proof (get_reg_word _ _ _ _ _ Hh Hr).
  unfold acc_pair, is_word in *. replace (2 * w) with (w + w) by lia. unfold width in Hw.
  rewrite Z.pow_add_r by lia. nia.
Qed.

Section Spec.
Context {S W : Type} `{SlabLaws S} `{Environment S W}.
Implicit Types (e : Emu S W) (ins : Instruction).

(** ** Parts of a product *)

Lemma hi_part w x m : 0 <= w -> m = Z.shiftl (Z.ones w) w -> is_word (2 * w) x -> Z.shiftr (Z.land x m) w = x / 2 ^ w.
Proof.
  intros Hw -> Hx. rewrite Z.shiftr_land, Z.shiftr_shiftl_l, Z.sub_diag, Z.shiftl_0_r by lia.
  rewrite Z.land_ones, Z.shiftr_div_pow2 by lia. apply Z.mod_small. unfold is_word in Hx.
  replace (2 * w) with (w + w) in Hx by lia. rewrite Z.pow_add_r in Hx by lia.
  assert (0 < 2 ^ w) by lia.
  split; [apply Z.div_pos; lia | apply Z.div_lt_upper_bound; lia].
Qed.

Lemma product_word w a b : 0 <= w -> is_word w a -> is_word w b -> is_word (2 * w) (a * b).
Proof. unfold is_word. intros Hw Ha Hb. replace (2 * w) with (w + w) by lia. rewrite Z.pow_add_r by lia. nia. Qed.

Lemma half_word w x : 0 <= w -> is_word (2 * w) x -> is_word w (x / 2 ^ w).
Proof.
  unfold is_word. intros Hw Hx. replace (2 * w) with (w + w) in Hx by lia. rewrite Z.pow_add_r in Hx by lia.
  assert (0 < 2 ^ w) by lia. split; [apply Z.div_pos; lia | apply Z.div_lt_upper_bound; lia].
Qed.

(** ** Flags *)

Definition with_of (o : bool) (st : status) : status :=
  mkStatus (s_cf st) (s_pf st) (s_af st) (s_zf st) (s_sf st) o.

Lemma materialized_of s o :
  observe (set_f_of o (materialize_lazy s)) = with_of o (observe s)
  /\ control (set_f_of o (materialize_lazy s)) = control s.
Proof.
  destruct (materialize_transparent s) as [[Ho Hc] [Hk _]]. split; [|exact Hc].
  rewrite <- Ho, (materialized_fields (materialize_lazy s)) by exact Hk.
  rewrite materialized_fields by exact Hk. reflexivity.
Qed.

(** CF and OF set to [b], PF to [p]. *)
Definition with_carry_parity (b p : bool) (st : status) : status :=
  mkStatus b p (s_af st) (s_zf st) (s_sf st) b.

Lemma mul_flags b x s :
  let s1 := calc_pf (wrap 8 x) (materialize_lazy s) in
  let s3 := set_f_cf b (materialize_lazy (set_f_of b (materialize_lazy s1))) in
  observe s3 = with_carry_parity b (even_parity x) (observe s) /\ control s3 = control s.
Proof.
  cbv zeta. set (s1 := calc_pf _ _). set (s2 := set_f_of b _).
  destruct (materialize_transparent s) as [[Ho Hc] _].
  destruct (observe_calc_pf (wrap 8 x) (materialize_lazy s)) as [O1 C1]. fold s1 in O1, C1.
  destruct (materialized_of s1 b) as [O2 C2]. fold s2 in O2, C2.
  destruct (proj1 (materialized_set s2) b) as [O3 C3].
  rewrite O3, C3, O2, C2, C1, Hc. split; [|reflexivity].
  rewrite O1, pf_value_parity, Ho. reflexivity.
Qed.

(** ** Unsigned multiplication *)

(** [f] is a correct [w]-bit multiplication by [v]. *)
Definition multiplies (w v : Z) (f : Emu S W -> Emu S W) : Prop :=
  forall e, words (regs e) ->
  let p := get_reg (acc_lo w) (regs e) * v in
  let b := negb (p / 2 ^ w =? 0) in
  exists r' s, f e = set_flags s (set_regs r' e)
    /\ (forall g, r' g = acc_store w (p mod 2 ^ w) (p / 2 ^ w) (regs e) g)
    /\ observe s = with_carry_parity b (even_parity p) (observe (flags e)) /\ control s = control (flags e).

Lemma mul_state b x r' e :
  flags_mut (set_f_cf b) (flags_mut (set_f_of b) (flags_mut (calc_pf (wrap 8 x)) (set_regs r' e)))
  = set_flags (set_f_cf b (materialize_lazy (set_f_of b (materialize_lazy (calc_pf (wrap 8 x) (materialize_lazy (flags e)))))))
      (set_regs r' e).
Proof. reflexivity. Qed.

Lemma acc_store_swap w lo hi r g :
  w <> 8 -> width w -> acc_store w lo hi r g = set_reg (acc_lo w) lo (set_reg (acc_hi w) hi r) g.
Proof.
  intros H8 [-> | [-> | [-> | ->]]]; [congruence | ..]; unfold acc_store; cbn;
    unfold set_dx, set_ax, set_edx, set_eax, upd; repeat case_decide; congruence.
Qed.

Lemma mul64_ok v : is_word 64 v -> multiplies 64 v (mul64 v).
Proof.
  intros Hv e Hr. cbv zeta. cbn [acc_lo Z.eqb Pos.eqb]. pose proof (Hr rax) as Ha. cbn in Ha.
  change (get_reg RAX (regs e)) with (regs e rax).
  pose proof (product_word 64 _ _ ltac:(lia) Ha Hv) as Hp. set (p := regs e rax * v) in *.
  pose proof (half_word 64 p ltac:(lia) Hp) as Hh.
  eexists _, _. split; [|split; [|apply (mul_flags _ p (flags e))]].
  - unfold mul64. fold p. rewrite (hi_part 64 p) by (auto; lia || reflexivity).
    rewrite (wrap_small 64 (p / 2 ^ 64)) by exact Hh. unfold on_regs at 2. unfold on_regs.
    cbn [regs set_regs flags_mut set_flags]. rewrite (upd_other rax _ _ rdx), upd_same by discriminate.
    apply (mul_state _ p _ e).
  - intros g. cbn [set_regs regs]. rewrite acc_store_swap by (discriminate || (unfold width; lia)).
    rewrite (land_wrap 64), (wrap_idem 64) by (lia || reflexivity). reflexivity.
Qed.

Lemma hi_after w lo hi r :
  width w -> w <> 8 -> words r -> is_word w lo -> is_word w hi ->
  get_reg (acc_hi w) (set_reg (acc_lo w) lo (set_reg (acc_hi w) hi r)) = hi
  /\ get_reg (acc_lo w) (set_reg (acc_lo w) lo (set_reg (acc_hi w) hi r)) = lo.
Proof.
  intros Hw H8 Hr Hlo Hhi. destruct (acc_views w Hw) as (f & l & g & h & Hl & Hh & [|Hne]); [congruence |].
  pose proof (word_64 w lo Hw Hlo). pose proof (word_64 w hi Hw Hhi).
  pose proof (set_words _ _ _ _ hi r Hh Hr) as Hr'. split.
  - rewrite (get_reg_other _ _ _ _ _ _ _ _ lo _ Hl Hh), (get_after_set _ _ _ _ _ _ Hh) by auto.
    rewrite (proj1 (view_shape _ _ _ _ Hh)). now apply wrap_small.
  - rewrite (get_after_set _ _ _ _ _ _ Hl) by auto.
    rewrite (proj1 (view_shape _ _ _ _ Hl)). now apply wrap_small.
Qed.

Lemma mul32_ok v : is_word 32 v -> multiplies 32 v (mul32 v).
Proof.
  intros Hv e Hr. cbv zeta. cbn [acc_lo Z.eqb Pos.eqb]. pose proof (get_reg_word EAX rax 0 32 _ eq_refl Hr) as Ha.
  pose proof (product_word 32 _ _ ltac:(lia) Ha Hv) as Hp. set (p := get_reg EAX (regs e) * v) in *.
  pose proof (half_word 32 p ltac:(lia) Hp) as Hh.
  assert (is_word 32 (p mod 2 ^ 32)) as Hl by (apply wrap_word; lia).
  destruct (hi_after 32 _ _ _ ltac:(unfold width; lia) ltac:(discriminate) Hr Hl Hh) as [Eh _].
  eexists _, _. split; [|split; [|apply (mul_flags _ p (flags e))]].
  - unfold mul32. change (get_eax (regs e)) with (get_reg EAX (regs e)).
    rewrite (wrap_small 32 _ Ha), (wrap_small 32 _ Hv). fold p. rewrite (hi_part 32 p) by (auto; lia || reflexivity).
    rewrite (land_wrap 32 p) by (lia || reflexivity). unfold on_regs.
    cbn [regs set_regs flags_mut set_flags].
    change (get_edx _) with (get_reg (acc_hi 32) (set_reg (acc_lo 32) (p mod 2 ^ 32) (set_reg (acc_hi 32) (p / 2 ^ 32) (regs e)))).
    rewrite Eh. apply (mul_state _ p _ e).
  - intros g. cbn [set_regs regs]. now rewrite acc_store_swap by (discriminate || (unfold width; lia)).
Qed.

Lemma mul16_ok v : is_word 16 v -> multiplies 16 v (mul16 v).
Proof.
  intros Hv e Hr. cbv zeta. cbn [acc_lo Z.eqb Pos.eqb]. pose proof (get_reg_word AX rax 0 16 _ eq_refl Hr) as Ha.
  pose proof (product_word 16 _ _ ltac:(lia) Ha Hv) as Hp. set (p := get_reg AX (regs e) * v) in *.
  pose proof (half_word 16 p ltac:(lia) Hp) as Hh.
  assert (is_word 16 (p mod 2 ^ 16)) as Hl by (apply wrap_word; lia).
  destruct (hi_after 16 _ _ _ ltac:(unfold width; lia) ltac:(discriminate) Hr Hl Hh) as [Eh _].
  eexists _, _. split; [|split; [|apply (mul_flags _ p (flags e))]].
  - unfold mul16. change (get_ax (regs e)) with (get_reg AX (regs e)).
    rewrite (wrap_small 32 (get_reg AX _)), (wrap_small 32 v) by (eapply word_mono; eauto; lia). fold p.
    rewrite (wrap_small 32 p) by exact Hp.
    rewrite (hi_part 16 p) by (auto; lia || reflexivity).
    rewrite (land_wrap 16 p) by (lia || reflexivity). unfold on_regs.
    cbn [regs set_regs flags_mut set_flags].
    change (get_dx _) with (get_reg (acc_hi 16) (set_reg (acc_lo 16) (p mod 2 ^ 16) (set_reg (acc_hi 16) (p / 2 ^ 16) (regs e)))).
    rewrite Eh. apply (mul_state _ p _ e).
  - intros g. cbn [set_regs regs]. now rewrite acc_store_swap by (discriminate || (unfold width; lia)).
Qed.

(** AX is the pair AH:AL. *)
Lemma set_ax_pair x r :
  words r -> is_word 16 x ->
  (forall g, set_ax x r g = acc_store 8 (x mod 2 ^ 8) (x / 2 ^ 8) r g)
  /\ get_ah (set_ax x r) = x / 2 ^ 8 /\ get_al (set_ax x r) = x mod 2 ^ 8.
Proof.
  intros Hr Hx. pose proof (half_word 8 x ltac:(lia) Hx) as Hh.
  assert (is_word 8 (x mod 2 ^ 8)) as Hl by (apply wrap_word; lia).
  assert (is_word 64 x /\ is_word 64 (x / 2 ^ 8) /\ is_word 64 (x mod 2 ^ 8)) as (Wx & Wh & Wl).
  { split_and!; eapply word_mono; eauto; lia. }
  destruct (set_reg_view AX rax 0 16 x r eq_refl Hr Wx) as (y & Ey & Wy & By).
  pose proof (set_words AX rax 0 16 x r eq_refl Hr Wx) as Hs2.
  change (set_reg AX x r) with (set_ax x r) in Ey, Hs2.
  assert (forall i, Z.testbit (x / 2 ^ 8) i = Z.testbit x (i + 8) \/ i < 0) as Hdiv.
  { intros i. destruct (Z.lt_ge_cases i 0); [now right | left].
    rewrite <- Z.shiftr_div_pow2, Z.shiftr_spec by lia. reflexivity. }
  assert (forall i, 0 <= i < 64 -> Z.testbit y i = if i <? 16 then Z.testbit x i else Z.testbit (r rax) i) as By'.
  { intros i Hi. rewrite By by lia. replace (i - 0) with i by lia. split_ltb; reflexivity. }
  split_and!.
  - intros g. unfold acc_store. cbn [acc_lo acc_hi Z.eqb Pos.eqb].
    pose proof (set_words AL rax 0 8 _ _ eq_refl Hr Wl) as Hr'.
    destruct (set_reg_view AL rax 0 8 _ r eq_refl Hr Wl) as (z & Ez & Wz & Bz).
    destruct (set_reg_view AH rax 8 8 _ (set_reg AL (x mod 2 ^ 8) r) eq_refl Hr' Wh) as (q & Eq & Wq & Bq).
    rewrite Ey, Eq. destruct (decide (g = rax)) as [-> | Hg]; [|now rewrite !upd_other, Ez, upd_other by exact Hg].
    rewrite !upd_same. apply (word_ext 64); auto; [lia |]. intros i Hi.
    rewrite By', Bq, Ez, upd_same, Bz by lia. replace (i - 0) with i by lia.
    change (8 =? 32) with false. cbv iota. change (x mod 2 ^ 8) with (wrap 8 x). rewrite testbit_wrap by lia.
    destruct (Hdiv (i - 8)) as [-> | ?]; split_ltb; cbn [andb]; try lia; try reflexivity. f_equal. lia.
  - change (get_ah (set_ax x r)) with (get_reg AH (set_ax x r)).
    rewrite (get_reg_view AH rax 8 8 _ eq_refl Hs2), Ey, upd_same.
    apply (word_ext 8); auto; [apply wrap_word; lia | lia |]. intros i Hi.
    rewrite testbit_wrap, Z.shiftr_spec, By' by lia. destruct (Hdiv i) as [-> | ?]; split_ltb; reflexivity || lia.
  - change (get_al (set_ax x r)) with (get_reg AL (set_ax x r)).
    rewrite (get_reg_view AL rax 0 8 _ eq_refl Hs2), Ey, upd_same.
    apply (word_ext 8); auto; [apply wrap_word; lia | lia |]. intros i Hi.
    change (x mod 2 ^ 8) with (wrap 8 x). rewrite !testbit_wrap, Z.shiftr_spec, By' by lia.
    replace (i + 0) with i by lia. split_ltb; reflexivity || lia.
Qed.

Lemma mul8_ok v : is_word 8 v -> multiplies 8 v (mul8 v).
Proof.
  intros Hv e Hr. cbv zeta. cbn [acc_lo Z.eqb Pos.eqb]. pose proof (get_reg_word AL rax 0 8 _ eq_refl Hr) as Ha.
  pose proof (product_word 8 _ _ ltac:(lia) Ha Hv) as Hp. set (p := get_reg AL (regs e) * v) in *.
  destruct (set_ax_pair p (regs e) Hr Hp) as (Er & Eh & _).
  eexists _, _. split; [|split; [|apply (mul_flags _ p (flags e))]].
  - unfold mul8. change (get_al (regs e)) with (get_reg AL (regs e)).
    rewrite (wrap_small 32 (get_reg AL _)), (wrap_small 32 v) by (eapply word_mono; eauto; lia). fold p.
    rewrite (wrap_small 32 p) by (eapply word_mono; [|exact Hp]; lia).
    rewrite (land_wrap 16 p), (wrap_small 16 p) by (auto; lia || reflexivity). unfold on_regs.
    cbn [regs set_regs flags_mut set_flags]. rewrite Eh. apply (mul_state _ p _ e).
  - intros g. apply Er.
Qed.

Lemma mul_routine w v :
  width w -> is_word w v ->
  exists f, by_size w (mul64 v) (mul32 v) (mul16 v) (mul8 v) = Some f /\ multiplies w v f.
Proof.
  intros [-> | [-> | [-> | ->]]] Hv; eexists; (split; [reflexivity |]);
    auto using mul8_ok, mul16_ok, mul32_ok, mul64_ok.
Qed.

(** MUL stores the full unsigned product of the accumulator and the operand in the
    accumulator pair at every width, sets CF and OF exactly when the upper half is
    not zero and PF from the product. *)
Theorem mul_refines ins w e :
  wf_emu e -> quiet e -> wf_ins ins -> width w -> source ins 0 w e ->
  exists v r' s e1, operand_value ins 0 e = Some v /\ warmed e e1
    /\ mul_execute ins e = Ret (true, set_flags s (set_regs r' e1))
    /\ let p := get_reg (acc_lo w) (regs e) * v in
       (forall g, r' g = acc_store w (p mod 2 ^ w) (p / 2 ^ w) (regs e) g)
       /\ observe s = with_carry_parity (negb (p / 2 ^ w =? 0)) (even_parity p) (observe (flags e))
       /\ control s = control (flags e).
Proof.
  intros Hwf Hq Hi Hw Hs. destruct (read_operand ins 0 w e) as (v & e1 & E1 & V & Wv & W1); auto.
  destruct (mul_routine w v Hw Wv) as (f & Ef & Hf).
  destruct (Hf e1) as (r' & s & E & Hr & Ho & Hc); [destruct W1 as (t & _ & ->); apply Hwf |].
  rewrite (warmed_regs _ _ W1), (warmed_flags _ _ W1) in *. exists v, r', s, e1. split_and!; auto.
  unfold mul_execute, one_operand. rewrite E1. cbn [mbind outcome_bind]. rewrite (proj1 Hs), Ef. now rewrite E.
Qed.

(** ** Signed multiplication *)

Lemma sgn_split w x : 0 < w -> is_word (2 * w) x -> sgn (2 * w) x = sgn w (x / 2 ^ w) * 2 ^ w + x mod 2 ^ w.
Proof.
  intros Hw Hx. pose proof (half_word w x ltac:(lia) Hx) as Hh. unfold sgn.
  rewrite (wrap_small (2 * w) x), (wrap_small w (x / 2 ^ w)) by auto.
  rewrite <- Z.shiftr_div_pow2, Z.shiftr_spec by lia. replace (w - 1 + w) with (2 * w - 1) by lia.
  rewrite Z.shiftr_div_pow2 by lia. pose proof (Z.div_mod x (2 ^ w) ltac:(lia)).
  replace (2 ^ (2 * w)) with (2 ^ w * 2 ^ w) by (rewrite <- Z.pow_add_r by lia; f_equal; lia).
  destruct (Z.testbit x (2 * w - 1)); lia.
Qed.

(** The test of the four routines: the high half is the sign of the low half
    exactly when the product fits. *)
Lemma imul_fits w P :
  0 < w -> - 2 ^ (2 * w - 1) <= P < 2 ^ (2 * w - 1) ->
  let u := wrap (2 * w) P in
  let lo := sgn w (u mod 2 ^ w) in let hi := sgn w (u / 2 ^ w) in
  negb (((lo <? 0) && (hi =? -1)) || ((0 <=? lo) && (hi =? 0))) = signed_overflow w P.
Proof.
  intros Hw HP u lo hi. assert (is_word (2 * w) u) as Hu by (apply wrap_word; lia).
  assert (P = hi * 2 ^ w + u mod 2 ^ w) as EP.
  { unfold hi. rewrite <- sgn_split by auto. unfold u. rewrite sgn_wrap by lia. symmetry. apply sgn_small; lia. }
  assert (is_word w (u mod 2 ^ w)) as Hl by (apply wrap_word; lia).
  destruct (word_top w _ Hw Hl) as (b & t & El & Es & _ & _ & Ht). fold lo in Es. rewrite El in EP.
  pose proof (pow2_half w Hw) as Hp. unfold signed_overflow.
  destruct b; cbn [Z.b2z] in *; destruct (Z.ltb_spec lo 0), (Z.leb_spec 0 lo), (Z.eqb_spec hi (-1)), (Z.eqb_spec hi 0);
    cbn [andb orb negb]; try lia; rewrite EP; split_ltb; try reflexivity; try lia; exfalso;
    assert (hi <= -1 \/ hi = 0 \/ 1 <= hi) as [? | [? | ?]] by lia; nia.
Qed.

Definition multiplies_signed (w v : Z) (f : Emu S W -> Emu S W) : Prop :=
  forall e, words (regs e) ->
  let P := sgn w (get_reg (acc_lo w) (regs e)) * sgn w v in
  let u := wrap (2 * w) P in
  let b := signed_overflow w P in
  exists r' s, f e = set_flags s (set_regs r' e)
    /\ (forall g, r' g = acc_store w (u mod 2 ^ w) (u / 2 ^ w) (regs e) g)
    /\ observe s = with_of b (with_cf b (observe (flags e))) /\ control s = control (flags e).

Lemma imul_flags_state lo hi r' e :
  let b := negb (((lo <? 0) && (hi =? -1)) || ((0 <=? lo) && (hi =? 0))) in
  exists s, imul_flags lo hi (set_regs r' e) = set_flags s (set_regs r' e)
    /\ observe s = with_of b (with_cf b (observe (flags e))) /\ control s = control (flags e).
Proof.
  cbv zeta. set (b := negb _). destruct (materialized_of (flags e) b) as [O1 C1].
  set (s1 := set_f_of b (materialize_lazy (flags e))) in *.
  destruct (proj1 (materialized_set s1) b) as [O2 C2].
  exists (set_f_cf b (materialize_lazy s1)). split_and!; [reflexivity | | congruence]. now rewrite O2, O1.
Qed.

Lemma signed_product_range w a v : 0 < w -> - 2 ^ (2 * w - 1) <= sgn w a * sgn w v < 2 ^ (2 * w - 1).
Proof.
  intros Hw. pose proof (sgn_word w a Hw). pose proof (sgn_word w v Hw).
  assert (2 ^ (2 * w - 1) = 2 * (2 ^ (w - 1) * 2 ^ (w - 1))) as ->
    by (rewrite <- Z.pow_add_r, <- Z.pow_succ_r by lia; f_equal; lia). nia.
Qed.

(** The halves the code computes and stores. *)
Lemma imul_ok w v (f : Emu S W -> Emu S W) :
  width w -> w <> 8 ->
  (forall e, words (regs e) ->
    let u := wrap (2 * w) (sgn w (get_reg (acc_lo w) (regs e)) * sgn w v) in
    let r' := set_reg (acc_lo w) (u mod 2 ^ w) (set_reg (acc_hi w) (u / 2 ^ w) (regs e)) in
    f e = imul_flags (sgn w (get_reg (acc_lo w) r')) (sgn w (get_reg (acc_hi w) r')) (set_regs r' e)) ->
  multiplies_signed w v f.
Proof.
  intros Hw H8 Hf e Hr. cbv zeta. specialize (Hf e Hr). cbv zeta in Hf. assert (0 < w) by (unfold width in Hw; lia).
  set (P := sgn w _ * sgn w v) in *. set (u := wrap (2 * w) P) in *.
  assert (is_word (2 * w) u) as Hu by (apply wrap_word; lia).
  assert (is_word w (u mod 2 ^ w)) as Hl by (apply wrap_word; lia).
  pose proof (half_word w u ltac:(lia) Hu) as Hh.
  destruct (hi_after w _ _ _ Hw H8 Hr Hl Hh) as [Eh El]. rewrite Eh, El in Hf.
  set (r' := set_reg (acc_lo w) _ _) in *.
  destruct (imul_flags_state (sgn w (u mod 2 ^ w)) (sgn w (u / 2 ^ w)) r' e) as (s & Es & Ho & Hc).
  pose proof (imul_fits w P ltac:(lia) ltac:(apply signed_product_range; lia)) as Hfit. cbv zeta in Hfit.
  fold u in Hfit. rewrite Hfit in Ho.
  exists r', s. rewrite Hf, Es. split_and!; auto. intros g. now rewrite acc_store_swap.
Qed.

Lemma imul64p1_ok v : multiplies_signed 64 v (imul64p1 v).
Proof.
  apply imul_ok; [unfold width; lia | discriminate |]. intros e Hr. cbv zeta. cbn [acc_lo acc_hi Z.eqb Pos.eqb].
  change (get_reg RAX (regs e)) with (regs e rax). unfold imul64p1, on_regs. set (u := wrap 128 _).
  assert (is_word (2 * 64) u) as Hu by (apply wrap_word; lia). pose proof (half_word 64 u ltac:(lia) Hu) as Hh.
  rewrite (land_wrap 64 u), (wrap_idem 64 64), Z.shiftr_div_pow2, (wrap_small 64 (u / 2 ^ 64))
    by (auto; lia || reflexivity). reflexivity.
Qed.

Lemma imul32p1_ok v : multiplies_signed 32 v (imul32p1 v).
Proof.
  apply imul_ok; [unfold width; lia | discriminate |]. intros e Hr. cbv zeta. cbn [acc_lo acc_hi Z.eqb Pos.eqb].
  change (get_reg EAX (regs e)) with (get_eax (regs e)). unfold imul32p1, on_regs. set (u := wrap 64 _).
  assert (is_word (2 * 32) u) as Hu by (apply wrap_word; lia).
  rewrite (hi_part 32 u), (land_wrap 32 u) by (auto; lia || reflexivity). reflexivity.
Qed.

Lemma imul16p1_ok v : multiplies_signed 16 v (imul16p1 v).
Proof.
  apply imul_ok; [unfold width; lia | discriminate |]. intros e Hr. cbv zeta. cbn [acc_lo acc_hi Z.eqb Pos.eqb].
  change (get_reg AX (regs e)) with (get_ax (regs e)). unfold imul16p1, on_regs. rewrite !(sgn_wrap 16) by lia.
  set (u := wrap 32 _). assert (is_word (2 * 16) u) as Hu by (apply wrap_word; lia).
  rewrite (hi_part 16 u), (land_wrap 16 u) by (auto; lia || reflexivity). reflexivity.
Qed.

Lemma imul8p1_ok v : multiplies_signed 8 v (imul8p1 v).
Proof.
  intros e Hr. cbv zeta. cbn [acc_lo Z.eqb Pos.eqb]. change (get_reg AL (regs e)) with (get_al (regs e)).
  set (P := sgn 8 (get_al (regs e)) * sgn 8 v). change (2 * 8) with 16. set (u := wrap 16 P).
  assert (is_word 16 u) as Hu by (apply wrap_word; lia).
  destruct (set_ax_pair u (regs e) Hr Hu) as (Er & Eh & El).
  pose proof (half_word 8 u ltac:(lia) Hu) as Hh.
  destruct (imul_flags_state (sgn 8 (u mod 2 ^ 8)) (sgn 8 (u / 2 ^ 8)) (set_ax u (regs e)) e) as (s & Es & Ho & Hc).
  pose proof (imul_fits 8 P ltac:(lia) ltac:(apply signed_product_range; lia)) as Hfit. cbv zeta in Hfit.
  change (wrap (2 * 8) P) with u in Hfit. rewrite Hfit in Ho.
  exists (set_ax u (regs e)), s. split_and!; auto. unfold imul8p1, on_regs. fold P. fold u.
  cbn [regs set_regs]. assert (get_ax (set_ax u (regs e)) = u) as Ex.
  { change (get_reg AX (set_reg AX u (regs e)) = u).
    rewrite (get_after_set AX rax 0 16) by (auto; eapply word_mono; eauto; lia). now apply wrap_small. }
  rewrite Ex, (wrap_small 16 u), !(land_wrap 8), Z.shiftr_div_pow2, (wrap_small 8 (u / 2 ^ 8)) by (auto; lia || reflexivity).
  exact Es.
Qed.

Lemma imul_routine w v :
  width w -> exists f, by_size w (imul64p1 v) (imul32p1 v) (imul16p1 v) (imul8p1 v) = Some f /\ multiplies_signed w v f.
Proof.
  intros [-> | [-> | [-> | ->]]]; eexists; (split; [reflexivity |]);
    auto using imul8p1_ok, imul16p1_ok, imul32p1_ok, imul64p1_ok.
Qed.

(** The one-operand IMUL stores the full signed product in the accumulator pair and
    sets CF and OF exactly when it does not fit the width. *)
Theorem imul_wide_refines ins w e :
  wf_emu e -> quiet e -> wf_ins ins -> width w -> op_count ins = 1%nat -> source ins 0 w e ->
  exists v r' s e1, operand_value ins 0 e = Some v /\ warmed e e1
    /\ imul_execute ins e = Ret (true, set_flags s (set_regs r' e1))
    /\ let P := sgn w (get_reg (acc_lo w) (regs e)) * sgn w v in
       let u := wrap (2 * w) P in let b := signed_overflow w P in
       (forall g, r' g = acc_store w (u mod 2 ^ w) (u / 2 ^ w) (regs e) g)
       /\ observe s = with_of b (with_cf b (observe (flags e))) /\ control s = control (flags e).
Proof.
  intros Hwf Hq Hi Hw Hn Hs. destruct (read_operand ins 0 w e) as (v & e1 & E1 & V & Wv & W1); auto.
  destruct (imul_routine w v Hw) as (f & Ef & Hf).
  destruct (Hf e1) as (r' & s & E & Hr & Ho & Hc); [destruct W1 as (t & _ & ->); apply Hwf |].
  rewrite (warmed_regs _ _ W1), (warmed_flags _ _ W1) in *. exists v, r', s, e1. split_and!; auto.
  unfold imul_execute, one_operand. rewrite Hn, E1. cbn [mbind outcome_bind Nat.eqb]. rewrite (proj1 Hs), Ef. now rewrite E.
Qed.

Lemma imul_two_routine w a b :
  width w ->
  exists f, by_size w (FlagsArith.imul64p2 a b) (FlagsArith.imul32p2 a b) (FlagsArith.imul16p2 a b) (FlagsArith.imul8p2 a b) = Some f
    /\ forall s, let P := sgn w a * sgn w b in let o := signed_overflow w P in
       fst (f s) = wrap w P /\ observe (snd (f s)) = with_of o (with_cf o (observe s))
       /\ control (snd (f s)) = control s.
Proof.
  intros Hw. destruct imul_all as (H64 & H32 & H16 & H8).
  destruct Hw as [-> | [-> | [-> | ->]]]; eexists; (split; [reflexivity |]); intros s;
    [apply (H8 a b s) | apply (H16 a b s) | apply (H32 a b s) | apply (H64 a b s)].
Qed.

(** The two- and three-operand IMUL store the signed product modulo the width and
    set CF and OF exactly when it does not fit. *)
Theorem imul_refines ins w e :
  wf_emu e -> quiet e -> wf_ins ins -> width w ->
  op_count ins = 2%nat \/ op_count ins = 3%nat ->
  let i := (op_count ins - 2)%nat in
  source ins i w e -> source ins (i + 1) w e -> target ins 0 w e ->
  exists a b e', operand_value ins i e = Some a /\ operand_value ins (i + 1) e = Some b
    /\ imul_execute ins e = Ret (true, e') /\ wf_emu e'
    /\ let P := sgn w a * sgn w b in let o := signed_overflow w P in
       completes ins (Some (wrap w P)) (with_of o (with_cf o (observe (flags e)))) (control (flags e)) e e'.
Proof.
  intros Hwf Hq Hi Hw Hn i Hs0 Hs1 Ht.
  destruct (read_two ins i (i + 1) w w e) as (a & b & e1 & e2 & E1 & E2 & Va & Vb & Wa & Wb & W1 & W2); auto.
  destruct (imul_two_routine w a b Hw) as (f & Ef & Hf). destruct (Hf (flags e2)) as (Hr & Ho & Hc).
  destruct (f (flags e2)) as [r s] eqn:Er. cbn [fst snd] in *. subst r. rewrite (warmed_flags _ _ W2) in Ho, Hc.
  assert (is_word 64 (wrap w (sgn w a * sgn w b))) as Wr 
    by (apply (word_64 w); [exact Hw | apply wrap_word; unfold width in Hw; lia]).
  destruct (store_completes ins w _ s _ _ e e2 Hwf Hq Hi Ht W2 Wr Ho Hc) as (e' & E & Hwf' & Hcomp).
  exists a, b, e'. split_and!; auto. rewrite <- E. unfold imul_execute.
  assert (op_count ins =? 1 = false)%nat as -> by (destruct Hn as [-> | ->]; reflexivity).
  replace (if (op_count ins =? 2)%nat then 0%nat else 1%nat) with i by (unfold i; destruct Hn as [-> | ->]; reflexivity).
  rewrite E1. cbn [mbind outcome_bind]. rewrite E2. cbn [mbind outcome_bind]. rewrite (proj1 Ht), Ef.
  unfold store_by_size, on_flags. now rewrite Er.
Qed.

(** ** Division *)

(** The flags after a division; the narrow divisions also clear TF. *)
Lemma materialized_tf s b :
  observe (set_f_tf b (materialize_lazy s)) = observe s
  /\ control (set_f_tf b (materialize_lazy s)) = control (set_f_tf b s).
Proof.
  destruct (materialize_transparent s) as [[Ho Hc] [Hk _]]. split.
  - rewrite <- Ho, (materialized_fields (materialize_lazy s)) by exact Hk.
    rewrite materialized_fields by exact Hk. reflexivity.
  - unfold control in *. cbn. injection Hc. congruence.
Qed.

Lemma div_flags q s :
  observe (calc_pf (wrap 8 q) (materialize_lazy s)) = with_pf (even_parity q) (observe s)
  /\ control (calc_pf (wrap 8 q) (materialize_lazy s)) = control s.
Proof.
  destruct (observe_calc_pf (wrap 8 q) (materialize_lazy s)) as [-> ->].
  destruct (materialize_transparent s) as [[-> ->] _]. now rewrite pf_value_parity.
Qed.

Lemma div_flags_tf q s :
  let s1 := calc_pf (wrap 8 q) (materialize_lazy s) in
  observe (set_f_tf false (materialize_lazy s1)) = with_pf (even_parity q) (observe s)
  /\ control (set_f_tf false (materialize_lazy s1)) = control (set_f_tf false s).
Proof.
  cbv zeta. destruct (materialized_tf (calc_pf (wrap 8 q) (materialize_lazy s)) false) as [-> ->].
  destruct (div_flags q s) as [-> Hc]. split; [reflexivity |]. unfold control in *. cbn. injection Hc. congruence.
Qed.

(** Division by zero: TF is set, the division exception raised and the run loop asked to stop. *)
Definition raises_by_zero e (e' : Emu S W) : Prop :=
  exists s, e' = set_force_break true (exception Div0 (set_flags s e))
    /\ observe s = observe (flags e) /\ control s = control (set_f_tf true (flags e)).

Lemma zero_raises e : raises_by_zero e (divide_by_zero e).
Proof. eexists. split; [reflexivity | exact (materialized_tf (flags e) true)]. Qed.

(** A division by [v] of the pair [D], unsigned or signed: [q] and [r] are its
    quotient and remainder and [fits] tells whether the quotient can be
    represented; [x] is the exception raised when it cannot, in the state [f] leaves. *)
Definition divided (w v q r : Z) (fits tf : bool) (x : ExceptionType) (f : Emu S W -> Emu S W) e (e' : Emu S W) : Prop :=
  if v =? 0 then raises_by_zero e e'
  else if fits then
    exists r' s, e' = set_flags s (set_regs r' e)
      /\ (forall g, r' g = acc_store w (wrap w q) (wrap w r) (regs e) g)
      /\ observe s = with_pf (even_parity q) (observe (flags e))
      /\ control s = control (if tf then set_f_tf false (flags e) else flags e)
  else e' = set_force_break true (exception x (f e)).

Definition divides (w v : Z) (f : Emu S W -> Emu S W) : Prop :=
  forall e, words (regs e) ->
  let D := acc_pair w (regs e) in
  divided w v (D / v) (D mod v) (D / v <? 2 ^ w) (w <=? 16) Div0 id e (f e).

Lemma shl_pair w hi lo : 0 <= w -> is_word w hi -> shl (2 * w) hi w + lo = hi * 2 ^ w + lo.
Proof.
  intros Hw Hh. unfold shl. rewrite Z.shiftl_mul_pow2 by lia. rewrite wrap_small; [reflexivity |].
  unfold is_word in *. replace (2 * w) with (w + w) by lia. rewrite Z.pow_add_r by lia. nia.
Qed.

Lemma fits_overflow w q : (2 ^ w - 1 <? q) = negb (q <? 2 ^ w).
Proof. destruct (Z.ltb_spec (2 ^ w - 1) q), (Z.ltb_spec q (2 ^ w)); cbn; lia. Qed.

Lemma div64_ok v : is_word 64 v -> divides 64 v (div64 v).
Proof.
  intros Hv e Hr. cbv zeta. unfold div64, divided, acc_pair. cbn [acc_lo acc_hi Z.eqb Pos.eqb].
  change (get_reg RAX (regs e)) with (regs e rax). change (get_reg RDX (regs e)) with (regs e rdx).
  rewrite (shl_pair 64) by (lia || exact (Hr rdx)). set (D := _ + _).
  destruct (v =? 0); [apply zero_raises |]. rewrite fits_overflow. destruct (_ <? _); [|reflexivity]. cbn [negb].
  eexists _, _. split_and!; [reflexivity | reflexivity | apply div_flags..].
Qed.

(** Quotient and remainder that fit are stored as they are. *)
Lemma quotient_words w D v :
  0 <= w -> 0 <= D -> is_word w v -> v <> 0 -> D / v < 2 ^ w ->
  wrap w (D / v) = D / v /\ wrap w (D mod v) = D mod v.
Proof.
  intros Hw HD Hv Hz Hq. unfold is_word in Hv. pose proof (Z.mod_pos_bound D v ltac:(lia)).
  split; apply wrap_small; split; try lia. apply Z.div_pos; lia.
Qed.

Lemma acc_pair_nonneg w r : width w -> words r -> 0 <= acc_pair w r.
Proof. intros Hw Hr. apply (acc_pair_word w r Hw Hr). Qed.

Lemma div32_ok v : is_word 32 v -> divides 32 v (div32 v).
Proof.
  intros Hv e Hr. cbv zeta. unfold div32, divided.
  pose proof (get_reg_word EDX rdx 0 32 _ eq_refl Hr) as Wd. change (get_reg EDX (regs e)) with (get_edx (regs e)) in Wd.
  rewrite (shl_pair 32) by (lia || exact Wd).
  change (get_edx (regs e) * 2 ^ 32 + get_eax (regs e)) with (acc_pair 32 (regs e)).
  pose proof (acc_pair_nonneg 32 (regs e) ltac:(unfold width; lia) Hr) as HD. set (D := acc_pair 32 (regs e)) in *.
  destruct (Z.eqb_spec v 0) as [|Hz]; [apply zero_raises |].
  rewrite fits_overflow. destruct (Z.ltb_spec (D / v) (2 ^ 32)) as [Hf|]; [|reflexivity]. cbn [negb].
  destruct (quotient_words 32 D v) as [-> ->]; auto; [lia |].
  eexists _, _. split_and!; [reflexivity | reflexivity | apply div_flags..].
Qed.

Lemma div16_ok v : is_word 16 v -> divides 16 v (div16 v).
Proof.
  intros Hv e Hr. cbv zeta. unfold div16, divided.
  assert (is_word 32 (acc_pair 16 (regs e))) as WD by (apply (acc_pair_word 16); [unfold width; lia | exact Hr]).
  assert (wrap 32 (shl 64 (get_dx (regs e)) 16 + get_ax (regs e)) = acc_pair 16 (regs e)) as ->.
  { pose proof (get_reg_word DX rdx 0 16 _ eq_refl Hr) as Wd.
    unfold shl. rewrite Z.shiftl_mul_pow2 by lia. rewrite (wrap_small 64).
    - now apply wrap_small.
    - unfold is_word in *. change (get_reg DX (regs e)) with (get_dx (regs e)) in Wd. lia. }
  rewrite (wrap_small 32 v) by (eapply word_mono; eauto; lia).
  set (D := acc_pair 16 (regs e)) in *. destruct (Z.eqb_spec v 0) as [|Hz]; [apply zero_raises |].
  rewrite fits_overflow. destruct (Z.ltb_spec (D / v) (2 ^ 16)) as [Hf|]; [|reflexivity]. cbn [negb].
  destruct (quotient_words 16 D v) as [-> ->]; auto; [lia | apply WD |].
  eexists _, _. split_and!; [reflexivity | reflexivity | apply div_flags_tf..].
Qed.

Lemma get_ax_pair r : words r -> get_ax r = acc_pair 8 r.
Proof.
  intros Hr. unfold acc_pair. cbn [acc_hi acc_lo Z.eqb Pos.eqb]. change (get_ax r) with (get_reg AX r).
  rewrite (get_reg_view AX rax 0 16 _ eq_refl Hr), (get_reg_view AH rax 8 8 _ eq_refl Hr), (get_reg_view AL rax 0 8 _ eq_refl Hr).
  rewrite !Z.shiftr_0_r, Z.shiftr_div_pow2 by lia. unfold wrap. change (2 ^ 16) with (2 ^ 8 * 2 ^ 8).
  rewrite (Z.rem_mul_r (r rax) (2 ^ 8) (2 ^ 8)) by lia. lia.
Qed.

Lemma div8_ok v : is_word 8 v -> divides 8 v (div8 v).
Proof.
  intros Hv e Hr. cbv zeta. unfold div8, divided. rewrite get_ax_pair by exact Hr.
  assert (is_word 16 (acc_pair 8 (regs e))) as WD by (apply (acc_pair_word 8); [unfold width; lia | exact Hr]).
  rewrite (wrap_small 32 (acc_pair _ _)), (wrap_small 32 v) by (eapply word_mono; eauto; lia).
  set (D := acc_pair 8 (regs e)) in *. destruct (Z.eqb_spec v 0) as [|Hz]; [apply zero_raises |].
  rewrite fits_overflow. destruct (Z.ltb_spec (D / v) (2 ^ 8)) as [Hf|]; [|reflexivity]. cbn [negb].
  destruct (quotient_words 8 D v) as [E1 E2]; auto; [lia | apply WD |].
  eexists _, _. split_and!; [reflexivity | rewrite E1, E2; reflexivity | apply div_flags_tf..].
Qed.

Lemma div_routine w v :
  width w -> is_word w v -> exists f, by_size w (div64 v) (div32 v) (div16 v) (div8 v) = Some f /\ divides w v f.
Proof.
  intros [-> | [-> | [-> | ->]]] Hv; eexists; (split; [reflexivity |]); auto using div8_ok, div16_ok, div32_ok, div64_ok.
Qed.

(** C9. DIV divides the register pair by the operand. A zero divisor sets TF, raises
    the Div0 exception and asks the run loop to stop (force_break); a quotient that
    does not fit the width raises Div0 and sets force_break; otherwise quotient and
    remainder are stored in the accumulator pair with PF of the quotient, the 8- and
    16-bit forms clearing TF, and no exception is raised. *)
Theorem div_refines ins w e :
  wf_emu e -> quiet e -> wf_ins ins -> width w -> source ins 0 w e ->
  exists v e1 e', operand_value ins 0 e = Some v /\ warmed e e1 /\ div_execute ins e = Ret (true, e')
    /\ let D := acc_pair w (regs e) in
       divided w v (D / v) (D mod v) (D / v <? 2 ^ w) (w <=? 16) Div0 id e1 e'.
Proof.
  intros Hwf Hq Hi Hw Hs. destruct (read_operand ins 0 w e) as (v & e1 & E1 & V & Wv & W1); auto.
  destruct (div_routine w v Hw Wv) as (f & Ef & Hf). exists v, e1, (f e1). split_and!; auto.
  - unfold div_execute, one_operand. rewrite E1. cbn [mbind outcome_bind]. now rewrite (proj1 Hs), Ef.
  - cbv zeta. rewrite <- (warmed_regs _ _ W1). apply Hf. destruct W1 as (t & _ & ->). apply Hwf.
Qed.

(** ** Signed division *)

(** The exact signed division of the pair; the quotient is truncated towards
    zero. *)
Definition idiv_left (w : Z) e : Emu S W := if w =? 64 then e else flags_mut (set_f_tf false) e.

Definition divided_signed (w v : Z) (r : Regs64) : Emu S W -> Emu S W -> Prop :=
  let D := sgn (2 * w) (acc_pair w r) in
  let d := sgn w v in
  divided w d (Z.quot D d) (Z.rem D d) (negb (signed_overflow w (Z.quot D d))) true SignChangeOnDivision (idiv_left w).

Lemma div_tf_flags q s :
  let s1 := set_f_tf false (materialize_lazy s) in
  observe (calc_pf (wrap 8 q) (materialize_lazy s1)) = with_pf (even_parity q) (observe s)
  /\ control (calc_pf (wrap 8 q) (materialize_lazy s1)) = control (set_f_tf false s).
Proof.
  cbv zeta. destruct (div_flags q (set_f_tf false (materialize_lazy s))) as [-> ->].
  destruct (materialized_tf s false) as [-> ->]. auto.
Qed.

Lemma fits_signed_range w q : (2 ^ (w - 1) - 1 <? q) || (q <? - 2 ^ (w - 1)) = signed_overflow w q.
Proof. unfold signed_overflow. destruct (Z.ltb_spec (2 ^ (w - 1) - 1) q), (Z.ltb_spec q (- 2 ^ (w - 1))); split_ltb; reflexivity || lia. Qed.

Lemma lor_pair w hi lo : 0 <= w -> is_word w hi -> is_word w lo -> Z.lor (shl (2 * w) hi w) lo = hi * 2 ^ w + lo.
Proof.
  intros Hw Hh Hl. pose proof (shl_pair w hi 0 Hw Hh) as E. rewrite !Z.add_0_r in E. rewrite E.
  rewrite <- Z.shiftl_mul_pow2 by lia. rewrite Z.add_nocarry_lxor, Z.lxor_lor; [reflexivity | |];
    rewrite Z.land_comm; now apply land_shiftl_word.
Qed.

Lemma idiv64_ok v e : is_word 64 v -> words (regs e) -> divided_signed 64 v (regs e) e (idiv64 v e).
Proof.
  intros Hv Hr. unfold divided_signed, divided, idiv64. destruct (Z.eqb_spec (sgn 64 v) 0) as [|Hd]; [apply zero_raises |].
  rewrite (lor_pair 64) by (lia || exact (Hr rdx) || exact (Hr rax)).
  change (regs e rdx * 2 ^ 64 + regs e rax) with (acc_pair 64 (regs e)). change 128 with (2 * 64).
  set (D := sgn (2 * 64) _). set (d := sgn 64 v) in *. unfold i128_checked.
  rewrite (proj2 (Z.eqb_neq d 0) Hd). cbn [orb].
  destruct ((D =? - 2 ^ 127) && (d =? -1)) eqn:Emin.
  - apply andb_prop in Emin as [E1 E2]. apply Z.eqb_eq in E1, E2. rewrite E1, E2. reflexivity.
  - unfold signed_overflow. rewrite negb_involutive, andb_comm.
    replace (Z.quot D d <? 2 ^ (64 - 1)) with (Z.quot D d <=? 2 ^ 63 - 1)
      by (change (64 - 1) with 63; destruct (Z.leb_spec (Z.quot D d) (2 ^ 63 - 1)); split_ltb; reflexivity).
    change (64 - 1) with 63. destruct ((_ <=? _) && (_ <=? _)); [|reflexivity].
    eexists _, _. split_and!; [reflexivity | reflexivity | apply div_flags_tf..].
Qed.

Lemma idiv32_ok v e : is_word 32 v -> words (regs e) -> divided_signed 32 v (regs e) e (idiv32 v e).
Proof.
  intros Hv Hr. unfold divided_signed, divided, idiv32. rewrite (wrap_small 32 v Hv).
  destruct (sgn 32 v =? 0); [apply zero_raises |].
  pose proof (get_reg_word EDX rdx 0 32 _ eq_refl Hr) as Wd. change (get_reg EDX (regs e)) with (get_edx (regs e)) in Wd.
  pose proof (get_reg_word EAX rax 0 32 _ eq_refl Hr) as Wa. change (get_reg EAX (regs e)) with (get_eax (regs e)) in Wa.
  rewrite !(proj1 (mask_word 32 _ 0xffffffff ltac:(lia) eq_refl Wd)), !(proj1 (mask_word 32 _ 0xffffffff ltac:(lia) eq_refl Wa)).
  rewrite (lor_pair 32) by (lia || auto).
  change (get_edx (regs e) * 2 ^ 32 + get_eax (regs e)) with (acc_pair 32 (regs e)). change (2 ^ 31) with (2 ^ (32 - 1)).
  rewrite fits_signed_range. change 64 with (2 * 32) at 1. destruct (signed_overflow _ _); [reflexivity |]. cbn [negb].
  eexists _, _. split_and!; [reflexivity | reflexivity | apply div_tf_flags..].
Qed.

Lemma idiv16_ok v e : is_word 16 v -> words (regs e) -> divided_signed 16 v (regs e) e (idiv16 v e).
Proof.
  intros Hv Hr. unfold divided_signed, divided, idiv16. rewrite (wrap_small 16 v Hv).
  destruct (sgn 16 v =? 0); [apply zero_raises |].
  pose proof (get_reg_word DX rdx 0 16 _ eq_refl Hr) as Wd. change (get_reg DX (regs e)) with (get_dx (regs e)) in Wd.
  pose proof (get_reg_word AX rax 0 16 _ eq_refl Hr) as Wa. change (get_reg AX (regs e)) with (get_ax (regs e)) in Wa.
  rewrite !(wrap_small 16 _ Wd), !(wrap_small 16 _ Wa). rewrite (lor_pair 16) by (lia || auto).
  change (get_dx (regs e) * 2 ^ 16 + get_ax (regs e)) with (acc_pair 16 (regs e)). change (2 ^ 15) with (2 ^ (16 - 1)).
  rewrite fits_signed_range. change 32 with (2 * 16) at 1. destruct (signed_overflow _ _); [reflexivity |]. cbn [negb].
  eexists _, _. split_and!; [reflexivity | reflexivity | apply div_tf_flags..].
Qed.

Lemma idiv8_ok v e : is_word 8 v -> words (regs e) -> divided_signed 8 v (regs e) e (idiv8 v e).
Proof.
  intros Hv Hr. unfold divided_signed, divided, idiv8. rewrite (wrap_small 8 v Hv).
  destruct (sgn 8 v =? 0); [apply zero_raises |]. rewrite get_ax_pair by exact Hr.
  rewrite (wrap_small 16 (acc_pair 8 _)) by (apply (acc_pair_word 8); [unfold width; lia | exact Hr]).
  change (2 ^ 7) with (2 ^ (8 - 1)). rewrite fits_signed_range. change 16 with (2 * 8) at 1.
  destruct (signed_overflow _ _); [reflexivity |]. cbn [negb].
  eexists _, _. split_and!; [reflexivity | reflexivity | apply div_tf_flags..].
Qed.

Lemma idiv_routine w v :
  width w -> is_word w v ->
  exists f, by_size w (idiv64 v) (idiv32 v) (idiv16 v) (idiv8 v) = Some f
    /\ forall e, words (regs e) -> divided_signed w v (regs e) e (f e).
Proof.
  intros [-> | [-> | [-> | ->]]] Hv; eexists; (split; [reflexivity |]);
    auto using idiv8_ok, idiv16_ok, idiv32_ok, idiv64_ok.
Qed.

(** IDIV divides the register pair as a two's complement number, truncating towards
    zero: a zero divisor raises the division exception, a quotient outside the
    signed range of the width the sign-change one, and otherwise quotient and
    remainder are stored in the accumulator pair. *)
Theorem idiv_refines ins w e :
  wf_emu e -> quiet e -> wf_ins ins -> width w -> source ins 0 w e ->
  exists v e1 e', operand_value ins 0 e = Some v /\ warmed e e1 /\ idiv_execute ins e = Ret (true, e')
    /\ divided_signed w v (regs e) e1 e'.
Proof.
  intros Hwf Hq Hi Hw Hs. destruct (read_operand ins 0 w e) as (v & e1 & E1 & V & Wv & W1); auto.
  destruct (idiv_routine w v Hw Wv) as (f & Ef & Hf). exists v, e1, (f e1). split_and!; auto.
  - unfold idiv_execute, one_operand. rewrite E1. cbn [mbind outcome_bind]. now rewrite (proj1 Hs), Ef.
  - rewrite <- (warmed_regs _ _ W1). apply Hf. destruct W1 as (t & _ & ->). apply Hwf.
Qed.
End Spec.
