(* ===== verification/BitSpec.v ===== *)
(** * Correctness of the bit tests

    [bt], [bts], [btr] and [btc] on a memory operand with the offset in a
    register address a bit string: bit [o] of the string at [a] is bit [o mod 8]
    of the byte at [a + o / 8], for negative offsets too.  CF receives that bit
    and no other bit of memory changes. *)

From stdpp Require Import gmap strings.
From S2P Require Import Prelude Flags FlagsArith FlagsShift Scalar Mem64 BTree Slab Tlb Maps MapsInv MapsLife.
From S2P Require Import Regs Emu Operands OperandsSpec Instructions AluSpec CondSpec StackSpec MulDiv.

Inductive bitop := BT | BTS | BTR | BTC.

#[export] Instance bitop_eq_dec : EqDecision bitop.
Proof. solve_decision. Defined.

Section Spec.
Context {S W : Type} `{SlabLaws S} `{Environment S W}.
Implicit Types (e : Emu S W) (ins : Instruction).

Definition bit_handler (op : bitop) : Instruction -> Emu S W -> outcome (bool * Emu S W) :=
  match op with BT => bt_execute | BTS => bts_execute | BTR => btr_execute | BTC => btc_execute end.

(** What becomes of the selected bit. *)
Definition bit_value (op : bitop) (b : bool) : bool :=
  match op with BT => b | BTS => true | BTR => false | BTC => negb b end.

(** The operand sizes the instructions have. *)
Definition bit_width (w : Z) (sk : ScalarKind) : Prop :=
  (w = 16 /\ sk = Word) \/ (w = 32 /\ sk = Dword) \/ (w = 64 /\ sk = Qword).

(** ** Bits of an encoded value *)

Lemma testbit_byte bs i b :
  is_bytes bs -> bs !! Z.to_nat (i / 8) = Some b -> 0 <= i -> Z.testbit (from_le_bytes bs) i = Z.testbit b (i mod 8).
Proof.
  intros Hb Hi Hp. pose proof (Z.div_pos i 8 Hp ltac:(lia)) as Hd.
  assert (Z.to_nat (i / 8) < length bs)%nat as Hlt by (apply lookup_lt_is_Some; eauto).
  rewrite <- (to_from_le_bytes bs Hb) in Hi. rewrite lookup_to_le_bytes in Hi by exact Hlt. injection Hi as <-.
  pose proof (Z.mod_pos_bound i 8 ltac:(lia)). rewrite testbit_wrap, Z.shiftr_spec by lia.
  rewrite Z2Nat.id by lia. split_ltb. cbn [andb]. f_equal. pose proof (Z.div_mod i 8). lia.
Qed.

Lemma set_bit_testbit v n b i :
  0 <= n < 64 -> 0 <= i -> is_word 64 v -> Z.testbit (set_bit 64 v n (Z.b2z b)) i = if i =? n then b else Z.testbit v i.
Proof.
  intros Hn Hi Hv. unfold set_bit. destruct b; cbn [Z.b2z Z.eqb Pos.eqb].
  - rewrite Z.lor_spec, testbit_shl by lia. rewrite (b2z_bits true). destruct (Z.eqb_spec i n) as [-> |].
    + replace (n - n) with 0 by lia. split_ltb. cbn. btauto.
    + split_ltb; cbn; rewrite ?orb_false_r; try reflexivity.
  - rewrite Z.land_spec. unfold bnot. rewrite Z.land_spec, Z.lnot_spec, Z.testbit_ones_nonneg, testbit_shl by lia.
    rewrite (b2z_bits true). destruct (Z.eqb_spec i n) as [-> |].
    + replace (n - n) with 0 by lia. split_ltb. cbn. btauto.
    + destruct (Z.lt_ge_cases i 64); [|rewrite (word_high 64 v) by (auto; lia); btauto].
      split_ltb; cbn; btauto.
Qed.

(** ** Accesses *)

Lemma bit_width_facts w sk :
  bit_width w sk -> width w /\ w = bits_of (SIZE sk) /\ w = 8 * Z.of_nat (SIZE sk) /\ size_shift w = Z.log2 w /\ w = 2 ^ Z.log2 w.
Proof. intros [[-> ->] | [[-> ->] | [-> ->]]]; (split; [unfold width; lia |]); repeat split; reflexivity. Qed.

Lemma read_sized_scalar w sk addr e : bit_width w sk -> read_sized addr w e = on_maps (read_scalar (SIZE sk) addr) e.
Proof. intros [[-> ->] | [[-> ->] | [-> ->]]]; reflexivity. Qed.

Lemma write_sized_scalar w sk addr v e :
  bit_width w sk ->
  exists v', to_le_bytes (SIZE sk) v' = to_le_bytes (SIZE sk) v
    /\ write_sized addr w v e = on_maps (write_scalar (SIZE sk) addr v') e.
Proof.
  intros [[-> ->] | [[-> ->] | [-> ->]]]; eexists; (split; [|reflexivity]); auto;
    apply to_le_bytes_wrap, Z.mod_mod; discriminate.
Qed.

Lemma sign_extend_sgn w sk v : bit_width w sk -> sign_extend v w = sgn w v.
Proof. intros [[-> ->] | [[-> ->] | [-> ->]]]; cbn; rewrite ?sgn_wrap by lia; reflexivity. Qed.

(** The address operand of an instruction that does not dereference it. *)
Lemma address_operand ins n sk e :
  op_kind ins n = OpMemory -> plain_memory ins sk ->
  get_operand_value ins n false e = Ret (Some (effective_addr ins e), e).
Proof.
  intros Hk (Hfs & Hgs & _). unfold get_operand_value. rewrite Hk. unfold handle_memory_get_operand.
  now rewrite !decide_False, !bool_decide_eq_false_2 by assumption.
Qed.

(** The element of the bit string that holds bit [o]. *)
Definition element_addr (w a o : Z) : Z := a + o / w * (w / 8).

Lemma element_bit w sk off :
  bit_width w sk -> is_word w off ->
  let o := sgn w off in
  off mod w = o mod w /\ 0 <= o mod w < w
  /\ o / 8 = o / w * (w / 8) + (o mod w) / 8 /\ o mod 8 = (o mod w) mod 8.
Proof.
  intros Hb Hoff o. destruct (bit_width_facts w sk Hb) as (Hw & _ & H8 & _ & Hp).
  assert (0 < w) by (unfold width in Hw; lia). pose proof (Z.mod_pos_bound o w ltac:(lia)).
  assert (off mod w = o mod w) as Em.
  { unfold o, sgn. rewrite (wrap_small w off Hoff). destruct (Z.testbit off (w - 1)); [|reflexivity].
    assert ((w | 2 ^ w)) as [k ->] by (destruct Hb as [[-> _] | [[-> _] | [-> _]]];
      [exists (2 ^ 12) | exists (2 ^ 27) | exists (2 ^ 58)]; reflexivity).
    replace (off - k * w) with (off + (- k) * w) by lia. now rewrite Z_mod_plus_full. }
  split; [exact Em |]. split; [lia |].
  assert (w / 8 = Z.of_nat (SIZE sk)) as E8 by (rewrite H8, Z.mul_comm; apply Z.div_mul; lia).
  pose proof (Z.div_mod o w ltac:(lia)) as Ed. rewrite E8.
  assert (o = o mod w + (o / w * Z.of_nat (SIZE sk)) * 8) as Eo by (rewrite H8 in Ed at 1; lia).
  split.
  - rewrite Eo at 1. rewrite Z.div_add by lia. lia.
  - rewrite Eo at 1. apply Z_mod_plus_full.
Qed.

(** ** Finding the bit *)

(** A bit test of the memory bit string at the effective address, with the offset
    in a register of the operand's width; [A] is the element. *)
Record bit_string ins (w : Z) (sk : ScalarKind) e : Prop := {
  bs_width : bit_width w sk;
  bs_mem : op_kind ins 0 = OpMemory /\ plain_memory ins sk;
  bs_reg : op_kind ins 1 = OpRegister /\ exists f, view (op_register ins 1) = Some (f, 0, w);
  bs_addr : let A := element_addr w (effective_addr ins e) (sgn w (get_reg (op_register ins 1) (regs e))) in
    0 <= A /\ reachable Mem.can_read (SIZE sk) A (emaps e) = true }.

Lemma target_found ins w sk e :
  wf_emu e -> wf_ins ins -> bit_string ins w sk e ->
  let o := sgn w (get_reg (op_register ins 1) (regs e)) in
  let A := element_addr w (effective_addr ins e) o in
  exists bs e1, bytes_of (emaps e) A (SIZE sk) = Some bs /\ is_word w (from_le_bytes bs) /\ warmed e e1
    /\ bit_target ins e = Ret (Some (mkBitTarget (from_le_bytes bs) (o mod w) (Some A) w), e1).
Proof.
  intros Hwf Hi [Hb [Hk Hp] [Hk1 (f & Hv)] [HA Hr]] o A. fold o in HA, Hr. fold A in HA, Hr.
  destruct (bit_width_facts w sk Hb) as (Hw & Hbits & H8 & Hsh & Hpow).
  destruct (plain_size _ _ Hp) as (_ & Hz & _).
  pose proof (get_reg_view _ _ _ _ _ Hv (wf_emu_regs e Hwf)) as Eoff.
  assert (is_word w (get_reg (op_register ins 1) (regs e))) as Woff.
  { rewrite Eoff. apply wrap_word. unfold width in Hw. lia. }
  destruct (element_bit w sk _ Hb Woff) as (Em & _). fold o in Em.
  destruct (maps_read sk A e) as (bs & e1 & Hbs & Wbs & E1 & W1); auto.
  exists bs, e1. split_and!; auto; [now rewrite Hbits |].
  assert (get_operand_sz ins 0 = w) as Hsz by (unfold get_operand_sz; now rewrite Hk, Hz).
  unfold bit_target. rewrite Hsz, get_register by exact Hk1.
  cbn [mbind outcome_bind]. rewrite Hk, Hk1, !bool_decide_eq_true_2 by reflexivity. cbn [negb orb].
  rewrite (address_operand ins 0 sk) by auto. cbn [mbind outcome_bind].
  rewrite (sign_extend_sgn w sk), Hsh, Z.shiftr_div_pow2, <- Hpow by (auto using Z.log2_nonneg).
  fold o. rewrite Em.
  assert (wadd (effective_addr ins e) (wrap 64 (o / w * (w / 8))) = A) as ->.
  { unfold wadd, wrap. rewrite Zplus_mod_idemp_r. apply Z.mod_small. unfold reachable in Hr.
    apply andb_prop in Hr as [Ht _]. apply Z.leb_le in Ht. fold (element_addr w (effective_addr ins e) o). fold A.
    destruct sk; cbn in Ht; lia. }
  rewrite (read_sized_scalar w sk) by exact Hb. rewrite E1. reflexivity.
Qed.

Lemma selected_bit_testbit v n addr size : 0 <= n -> selected_bit (mkBitTarget v n addr size) = Z.testbit v n.
Proof.
  intros Hn. unfold selected_bit. cbn [bt_value bt_bit]. rewrite land1_b2z by exact Hn. now destruct (Z.testbit v n).
Qed.

Lemma bytes_of_lookup (m : Maps S) a n bs i :
  bytes_of m a n = Some bs -> (i < n)%nat -> byte_of m (a + Z.of_nat i) = bs !! i.
Proof.
  intros E Hi. unfold bytes_of in E. apply mapM_Some in E.
  destruct (Forall2_lookup_l _ _ _ i i E) as (b & Hb & Hbi); [now apply lookup_seq_lt |].
  now rewrite Hb, <- Hbi.
Qed.

(** The byte that holds bit [k] of an element. *)
Lemma element_byte (m : Maps S) A n bs k :
  is_bytes bs -> length bs = n -> bytes_of m A n = Some bs -> 0 <= k < 8 * Z.of_nat n ->
  exists b, byte_of m (A + k / 8) = Some b /\ Z.testbit (from_le_bytes bs) k = Z.testbit b (k mod 8).
Proof.
  intros Hby Hl Ebs Hk.
  assert (0 <= k / 8 < Z.of_nat n) as Hr8 by (split; [apply Z.div_pos; lia | apply Z.div_lt_upper_bound; lia]).
  destruct (lookup_lt_is_Some_2 bs (Z.to_nat (k / 8))) as [b Eb]; [lia |]. exists b.
  pose proof (bytes_of_lookup _ _ _ _ (Z.to_nat (k / 8)) Ebs ltac:(lia)) as Hlk.
  rewrite Z2Nat.id, Eb in Hlk by lia. split; [exact Hlk |]. apply testbit_byte; auto. lia.
Qed.

(** A store of the element with bit [k] replaced changes one byte, in one bit. *)
Lemma store_one_bit (m m' : Maps S) A n bs k b' :
  is_bytes bs -> length bs = n -> (0 < n <= 8)%nat -> bytes_of m A n = Some bs -> 0 <= k < 8 * Z.of_nat n ->
  stores m m' A (to_le_bytes n (set_bit 64 (from_le_bytes bs) k (Z.b2z b'))) ->
  exists b v, byte_of m (A + k / 8) = Some b /\ Z.testbit (from_le_bytes bs) k = Z.testbit b (k mod 8) /\ is_word 8 v
    /\ (forall x, byte_of m' x = if x =? A + k / 8 then Some v else byte_of m x)
    /\ (forall i, 0 <= i < 8 -> Z.testbit v i = if i =? k mod 8 then b' else Z.testbit b i).
Proof.
  intros Hby Hl Hn Hbs Hk [Hst _]. set (V := from_le_bytes bs) in *. set (V' := set_bit 64 V k (Z.b2z b')) in *.
  assert (is_word 64 V) as WV by (eapply word_mono; [|apply from_le_bytes_word, Hby]; unfold bits_of; lia).
  assert (0 <= k / 8 < Z.of_nat n) as Hk8 by (split; [apply Z.div_pos; lia | apply Z.div_lt_upper_bound; lia]).
  assert (Z.to_nat (k / 8) < length bs)%nat as Hlt by lia.
  assert (forall j, (j < n)%nat -> bs !! j = Some (wrap 8 (Z.shiftr V (8 * Z.of_nat j)))) as Hj.
  { intros j Hj. rewrite <- (to_from_le_bytes bs Hby) at 1. rewrite Hl. now apply lookup_to_le_bytes. }
  pose proof (bytes_of_lookup m A n bs (Z.to_nat (k / 8)) Hbs ltac:(lia)) as Hb. rewrite Z2Nat.id in Hb by lia.
  rewrite (Hj (Z.to_nat (k / 8))) in Hb by lia.
  exists (wrap 8 (Z.shiftr V (8 * Z.of_nat (Z.to_nat (k / 8))))), (wrap 8 (Z.shiftr V' (8 * (k / 8)))).
  split_and!; [exact Hb | | apply wrap_word; lia | |].
  - apply testbit_byte; auto; [apply Hj; lia | lia].
  - intros x. rewrite Hst, length_to_le_bytes. case_decide as Hx.
    + rewrite lookup_to_le_bytes, Z2Nat.id by lia. destruct (Z.eqb_spec x (A + k / 8)) as [-> | Hne]; [do 3 f_equal; lia |].
      replace (byte_of m x) with (bs !! Z.to_nat (x - A)); cycle 1.
      { rewrite <- (bytes_of_lookup m A n bs) by (auto; lia). f_equal. lia. }
      rewrite Hj, Z2Nat.id by lia. f_equal. apply (word_ext 8); [apply wrap_word; lia.. | lia |]. intros i Hi.
      rewrite !testbit_wrap, !Z.shiftr_spec by lia. f_equal. unfold V'. rewrite set_bit_testbit by (auto; lia).
      destruct (Z.eqb_spec (i + 8 * (x - A)) k) as [E |]; [|reflexivity]. exfalso. apply Hne.
      rewrite <- E, Z.mul_comm, Z.div_add, (Z.div_small i) by lia. lia.
    + destruct (Z.eqb_spec x (A + k / 8)); [lia | reflexivity].
  - intros i Hi. rewrite !testbit_wrap, !Z.shiftr_spec, Z2Nat.id by lia.
    rewrite (proj2 (Z.ltb_lt i 8)) by lia. cbn [andb]. unfold V'. rewrite set_bit_testbit by (auto; lia). pose proof (Z.div_mod k 8 ltac:(lia)).
    destruct (Z.eqb_spec (i + 8 * (k / 8)) k), (Z.eqb_spec i (k mod 8)); try lia; reflexivity.
Qed.

(** BT, BTS, BTR and BTC on a memory bit string with a signed register offset copy
    the bit at that offset into CF, wherever it lies relative to the operand's
    address; the last three set, reset or complement exactly that bit, and no other
    bit of memory, flag or register changes. *)
Theorem bit_test_refines op ins w sk e :
  wf_emu e -> wf_ins ins -> bit_string ins w sk e ->
  let a := effective_addr ins e in
  let o := sgn w (get_reg (op_register ins 1) (regs e)) in
  (op <> BT -> reachable Mem.can_write (SIZE sk) (element_addr w a o) (emaps e) = true) ->
  exists b v e', byte_of (emaps e) (a + o / 8) = Some b /\ bit_handler op ins e = Ret (true, e') /\ wf_emu e'
    /\ observe (flags e') = with_cf (Z.testbit b (o mod 8)) (observe (flags e))
    /\ control (flags e') = control (flags e) /\ regs e' = regs e
    /\ (forall x, byte_of (emaps e') x = if x =? a + o / 8 then Some v else byte_of (emaps e) x)
    /\ (forall i, 0 <= i < 8 ->
          Z.testbit v i = if i =? o mod 8 then bit_value op (Z.testbit b (o mod 8)) else Z.testbit b i).
Proof.
  intros Hwf Hi Hbs a o Hw. pose proof (bs_width _ _ _ _ Hbs) as Hb.
  destruct (bit_width_facts w sk Hb) as (Hwd & Hbits & H8 & _).
  destruct (target_found ins w sk e Hwf Hi Hbs) as (bs & e1 & Ebs & WV & W1 & Et). fold o a in Ebs, Et.
  set (A := element_addr w a o) in *. set (V := from_le_bytes bs) in *.
  assert (is_word w (get_reg (op_register ins 1) (regs e))) as Woff.
  { destruct (bs_reg _ _ _ _ Hbs) as [_ (f & Hv)]. rewrite (get_reg_view _ _ _ _ _ Hv (wf_emu_regs e Hwf)).
    apply wrap_word. unfold width in Hwd. lia. }
  destruct (element_bit w sk _ Hb Woff) as (_ & Hk & Hdiv & Hmod). fold o in Hk, Hdiv, Hmod.
  assert (A + (o mod w) / 8 = a + o / 8) as EA by (unfold A, element_addr; lia).
  destruct (bytes_of_bytes _ _ _ _ (wf_emu_maps e Hwf) Ebs) as [Hby Hl].
  destruct (proj1 (materialized_set (flags e)) (Z.testbit V (o mod w))) as [Ho Hc].
  set (s := set_f_cf (Z.testbit V (o mod w)) (materialize_lazy (flags e))) in *.
  assert (selected_bit (mkBitTarget V (o mod w) (Some A) w) = Z.testbit V (o mod w)) as Hsel
    by (apply selected_bit_testbit; lia).
  assert (flags_mut (set_f_cf (Z.testbit V (o mod w))) e1 = set_flags s e1) as Hfl
    by (destruct W1 as (t & _ & ->); reflexivity).
  assert (wf_emu (set_flags s e1)) as Hwf1 by eauto using set_flags_wf, warmed_wf.
  destruct (decide (op = BT)) as [-> | Hne].
  - destruct (element_byte (emaps e) A (SIZE sk) bs (o mod w)) as (b & Hlk & Hbit); auto; [lia |].
    rewrite EA in Hlk. fold V in Hbit. rewrite <- Hmod in Hbit.
    exists b, b, (set_flags s e1). split_and!; auto.
    + cbn [bit_handler]. unfold bt_execute. rewrite Et. cbn [mbind outcome_bind]. now rewrite Hsel, Hfl.
    + cbn [flags set_flags]. now rewrite Ho, Hbit.
    + destruct W1 as (t & _ & ->). reflexivity.
    + intros x. destruct (Z.eqb_spec x (a + o / 8)) as [-> |]; destruct W1 as (t & _ & ->); [exact Hlk | reflexivity].
    + intros i _. cbn [bit_value]. destruct (Z.eqb_spec i (o mod 8)) as [-> |]; reflexivity.
  - specialize (Hw Hne). set (b' := bit_value op (Z.testbit V (o mod w))).
    destruct (write_sized_scalar w sk A (set_bit 64 V (o mod w) (Z.b2z b')) (set_flags s e1) Hb) as (v' & Ev & Ew).
    destruct (maps_write sk A v' (set_flags s e1)) as (m' & Em & Hm' & Hst & _); auto.
    { apply (bs_addr _ _ _ _ Hbs). } { destruct W1 as (t & _ & ->). exact Hw. }
    rewrite Ev in Hst.
    destruct (store_one_bit (emaps e) m' A (SIZE sk) bs (o mod w) b') as (b & v & Hbb & Hbit & _ & Hall & Hbits'); auto;
      [destruct sk; cbn; destruct Hb as [[? ?] | [[? ?] | [? ?]]]; lia || discriminate | lia
      | destruct W1 as (t & _ & ->); exact Hst |].
    rewrite EA in Hbb, Hall. rewrite <- Hmod in Hbit, Hbits'. fold V in Hbit.
    exists b, v, (set_emaps m' (set_flags s e1)). split_and!; auto.
    + assert (bit_handler op ins e = bit_update (bit_value op) ins e) as -> by (now destruct op).
      unfold bit_update. rewrite Et. cbn [mbind outcome_bind]. rewrite Hsel, Hfl.
      unfold bit_target_store. cbn [bt_addr bt_size bt_value bt_bit]. fold b'. now rewrite Ew, Em.
    + split; [apply Hwf1 | exact Hm'].
    + cbn [flags set_emaps set_flags]. now rewrite Ho, Hbit.
    + destruct W1 as (t & _ & ->). reflexivity.
    + intros i Hi'. rewrite Hbits' by exact Hi'. unfold b'. now rewrite Hbit.
Qed.
End Spec.
