(* ===== verification/DataSpec.v ===== *)
(** * Correctness of data movement, sign extension and loops

    Moves with zero and sign extension, the byte swap, compare-and-exchange,
    the sign extensions that prepare a signed division, the exchange of flags
    with AH and the loop counter. *)

From stdpp Require Import gmap strings.
From S2P Require Import Prelude Flags FlagsArith FlagsShift Scalar Mem64 BTree Slab Tlb Maps MapsInv MapsLife.
From S2P Require Import Regs Emu Operands OperandsSpec Instructions AluSpec CondSpec MulDiv MulDivSpec.

Section Spec.
Context {S W : Type} `{SlabLaws S} `{Environment S W}.
Implicit Types (e : Emu S W) (ins : Instruction).

(** ** Moves *)

Inductive move := MOV | MOVZX | MOVSX | MOVSXD.

Definition move_execute (op : move) : Instruction -> Emu S W -> outcome (bool * Emu S W) :=
  match op with MOV => mov_execute | MOVZX => movzx_execute | MOVSX => movsx_execute | MOVSXD => movsxd_execute end.

(** The value of a [w1]-bit source in a [w0]-bit destination. *)
Definition move_value (op : move) (w0 w1 v : Z) : Z :=
  match op with MOV | MOVZX => v | MOVSX | MOVSXD => wrap w0 (sgn w1 v) end.

(** The operand widths each move exists for. *)
Definition move_widths (op : move) (w0 w1 : Z) : Prop :=
  match op with
  | MOV => w0 = w1 /\ width w0
  | MOVZX => width w0 /\ width w1 /\ w1 <= w0
  | MOVSX => (w0 = 16 /\ w1 = 8) \/ (w0 = 32 /\ (w1 = 8 \/ w1 = 16)) \/ (w0 = 64 /\ (w1 = 8 \/ w1 = 16 \/ w1 = 32))
  | MOVSXD => w1 = 32 /\ (w0 = 32 \/ w0 = 64)
  end.

Lemma move_computes op ins w0 w1 v e e1 :
  get_operand_value ins 1 true e = Ret (Some v, e1) -> get_operand_sz ins 0 = w0 -> get_operand_sz ins 1 = w1 ->
  move_widths op w0 w1 -> is_word w1 v ->
  exists v', move_execute op ins e = set_operand_value ins 0 v' e1 /\ is_word 64 v' /\ wrap w0 v' = move_value op w0 w1 v.
Proof.
  intros E Z0 Z1 Hw Hv. destruct op; cbn [move_execute move_value move_widths] in *.
  - exists v. unfold mov_execute. rewrite E. destruct Hw as [-> Hw].
    split_and!; [reflexivity | eapply word_64; eauto | now apply wrap_small].
  - exists v. unfold movzx_execute. rewrite E. destruct Hw as (Hw0 & Hw1 & Hle).
    split_and!; [reflexivity | eapply (word_64 w1); eauto |].
    apply wrap_small. eapply word_mono; [|exact Hv]. unfold width in *. lia.
  - unfold movsx_execute. rewrite E. cbn [mbind outcome_bind]. rewrite Z0, Z1.
    destruct Hw as [[-> ->] | [[-> [-> | ->]] | [-> [-> | [-> | ->]]]]]; cbn [Z.eqb Pos.eqb]; eexists;
      (split_and!; [reflexivity | first [apply wrap_word; lia | eapply word_mono; [|apply wrap_word]; lia] |]);
      rewrite ?(wrap_idem 32 64), ?(wrap_idem 16 16), ?(wrap_idem 32 32), ?(wrap_idem 64 64) by lia; reflexivity.
  - unfold movsxd_execute. rewrite E. exists (wrap 64 (sgn 32 v)). destruct Hw as [-> [-> | ->]];
      (split_and!; [reflexivity | apply wrap_word; lia | apply wrap_idem; lia]).
Qed.

(** MOV, MOVZX, MOVSX and MOVSXD store the source, zero- or sign-extended to the
    width of the destination, and change no flag. *)
Theorem move_refines op ins w0 w1 e :
  wf_emu e -> quiet e -> wf_ins ins -> move_widths op w0 w1 -> target ins 0 w0 e -> source ins 1 w1 e ->
  exists v e1 e' v', operand_value ins 1 e = Some v /\ warmed e e1
    /\ move_execute op ins e = Ret (true, e') /\ wf_emu e'
    /\ stored ins 0 v' e1 e' /\ wrap w0 v' = move_value op w0 w1 v
    /\ operand_value ins 0 e' = Some (move_value op w0 w1 v).
Proof.
  intros Hwf Hq Hi Hw Ht Hs. destruct (read_operand ins 1 w1 e) as (v & e1 & E1 & V & Wv & W1); auto.
  destruct (move_computes op ins w0 w1 v e e1) as (v' & E & Wv' & Ev); auto; [apply Ht | apply Hs |].
  assert (wf_emu e1) as Hwf1 by eauto using warmed_wf.
  assert (target ins 0 w0 e1) as Ht1 by eauto using warmed_target.
  destruct (target_write ins 0 w0 v' e1) as (e' & E' & Hwf' & Hst); eauto using warmed_quiet.
  exists v, e1, e', v'. split_and!; auto; [congruence |].
  rewrite (stored_value ins 0 w0 v' e1 e'), Ev by auto. reflexivity.
Qed.

(** ** Byte swap *)

Lemma byte_mask v i : 0 <= i -> Z.land v (Z.shiftl 255 i) = Z.shiftl (wrap 8 (Z.shiftr v i)) i.
Proof.
  intros Hi. apply Z.bits_inj'. intros j Hj. rewrite Z.land_spec, !Z.shiftl_spec by lia.
  destruct (Z.lt_ge_cases j i); [rewrite !(Z.testbit_neg_r _ (j - i)) by lia; btauto |].
  rewrite testbit_wrap, Z.shiftr_spec by lia. change 255 with (Z.ones 8). rewrite Z.testbit_ones_nonneg by lia.
  replace (j - i + i) with j by lia. split_ltb; btauto.
Qed.

Lemma byte_left v s t i :
  0 <= s <= t -> 0 <= i < 64 ->
  Z.testbit (shl 64 (Z.land v (Z.shiftl 255 s)) (t - s)) i = (t <=? i) && (i <? t + 8) && Z.testbit v (i - t + s).
Proof.
  intros Hs Hi. rewrite byte_mask, testbit_shl by lia.
  destruct (Z.leb_spec t i).
  - rewrite Z.shiftl_spec by lia. replace (i - (t - s) - s) with (i - t) by lia.
    rewrite testbit_wrap, Z.shiftr_spec by lia. split_ltb; btauto.
  - split_ltb; cbn [andb]; try reflexivity. rewrite Z.shiftl_spec_low by lia. reflexivity.
Qed.

Lemma byte_right v s t i :
  0 <= t <= s -> 0 <= i < 64 ->
  Z.testbit (Z.shiftr (Z.land v (Z.shiftl 255 s)) (s - t)) i = (t <=? i) && (i <? t + 8) && Z.testbit v (i - t + s).
Proof.
  intros Hs Hi. rewrite byte_mask, Z.shiftr_spec by lia. destruct (Z.leb_spec t i).
  - rewrite Z.shiftl_spec by lia. replace (i + (s - t) - s) with (i - t) by lia.
    rewrite testbit_wrap, Z.shiftr_spec by lia. split_ltb; btauto.
  - rewrite Z.shiftl_spec_low by lia. reflexivity.
Qed.

(** [r] has the bytes of the [w]-bit [v] in reverse order. *)
Definition byte_swap (w v r : Z) : Prop :=
  is_word w r /\ forall i, 0 <= i < w -> Z.testbit r i = Z.testbit v (w - 8 - 8 * (i / 8) + i mod 8).

Lemma byte_swap_involutive w v r v' :
  width w -> is_word w v -> byte_swap w v r -> byte_swap w r v' -> v' = v.
Proof.
  intros Hw Hv [Hr Br] [Hv' Bv]. assert (exists n, w = 8 * n /\ 0 < n) as (n & -> & Hn).
  { destruct Hw as [-> | [-> | [-> | ->]]]; [exists 1 | exists 2 | exists 4 | exists 8]; lia. }
  apply (word_ext (8 * n)); auto; [lia |]. intros i Hi. rewrite Bv by lia.
  pose proof (Z.div_mod i 8 ltac:(lia)). pose proof (Z.mod_pos_bound i 8 ltac:(lia)).
  assert (0 <= i / 8 < n) by (split; [apply Z.div_pos; lia | apply Z.div_lt_upper_bound; lia]).
  rewrite Br by lia. f_equal.
  assert ((8 * n - 8 - 8 * (i / 8) + i mod 8) / 8 = n - 1 - i / 8) as ->.
  { replace (8 * n - 8 - 8 * (i / 8) + i mod 8) with (i mod 8 + (n - 1 - i / 8) * 8) by lia.
    rewrite Z.div_add, Z.div_small by lia. lia. }
  assert ((8 * n - 8 - 8 * (i / 8) + i mod 8) mod 8 = i mod 8) as ->.
  { replace (8 * n - 8 - 8 * (i / 8) + i mod 8) with (i mod 8 + (n - 1 - i / 8) * 8) by lia.
    rewrite Z_mod_plus_full. apply Z.mod_small. lia. }
  lia.
Qed.

(** The expression of the handler at each width. *)
Definition bswap_value (w v : Z) : Z :=
  let sl m n := shl 64 (Z.land v m) n in
  let sr m n := Z.shiftr (Z.land v m) n in
  if w =? 32 then
    Z.lor (Z.lor (Z.lor (Z.lor (sl 0xff 24) (sl 0xff00 8)) (sr 0xff0000 8)) (sr 0xff000000 24))
          (Z.land v 0xffffffff00000000)
  else
    Z.lor (Z.lor (Z.lor (Z.lor (Z.lor (Z.lor (Z.lor
      (sr 0xff00000000000000 56) (sr 0x00ff000000000000 40)) (sr 0x0000ff0000000000 24))
      (sr 0x000000ff00000000 8)) (sl 0x00000000ff000000 8)) (sl 0x0000000000ff0000 24))
      (sl 0x000000000000ff00 40)) (sl 0x00000000000000ff 56).

Ltac bswap_byte k i :=
  replace (i / 8) with k by (apply Z.div_unique with (i - 8 * k); lia);
  replace (i mod 8) with (i - 8 * k) by (apply Z.mod_unique with k; lia);
  split_ltb; cbn [andb orb]; rewrite ?orb_false_r; f_equal; lia.

Lemma word_narrow w r : 0 <= w <= 64 -> is_word 64 r -> (forall i, w <= i < 64 -> Z.testbit r i = false) -> is_word w r.
Proof.
  intros Hw Hr Hb. replace r with (wrap w r); [apply wrap_word; lia |].
  apply (word_ext 64); auto; [eapply word_mono; [|apply wrap_word]; lia | lia |]. intros i Hi.
  rewrite testbit_wrap by lia. destruct (Z.ltb_spec i w); [reflexivity |]. now rewrite Hb by lia.
Qed.

Lemma bswap32_bits v : is_word 32 v -> byte_swap 32 v (bswap_value 32 v).
Proof.
  intros Hv. unfold bswap_value. cbn [Z.eqb Pos.eqb].
  change 0xffffffff00000000 with (Z.shiftl 0xffffffff 32). rewrite land_shiftl_word, Z.lor_0_r by (auto; lia).
  set (r := Z.lor _ _).
  assert (forall i, 0 <= i < 64 -> Z.testbit r i =
    ((24 <=? i) && (i <? 24 + 8) && Z.testbit v (i - 24 + 0)) || ((16 <=? i) && (i <? 16 + 8) && Z.testbit v (i - 16 + 8))
    || ((8 <=? i) && (i <? 8 + 8) && Z.testbit v (i - 8 + 16)) || ((0 <=? i) && (i <? 0 + 8) && Z.testbit v (i - 0 + 24))) as Hb.
  { intros i Hi. unfold r. rewrite !Z.lor_spec.
    rewrite <- (byte_left v 0 24), <- (byte_left v 8 16), <- (byte_right v 16 8), <- (byte_right v 24 0) by lia.
    reflexivity. }
  assert (is_word 64 v) as Hv' by (eapply word_mono; eauto; lia).
  assert (is_word 64 r) as Hr by (unfold r, shl; auto 10 using word_lor, wrap_word, word_shiftr, word_land with lia).
  split.
  - apply (word_narrow 32); auto; [lia |]. intros i Hi. rewrite Hb by lia. split_ltb. reflexivity.
  - intros i Hi. rewrite Hb by lia.
    assert (i < 8 \/ 8 <= i < 16 \/ 16 <= i < 24 \/ 24 <= i) as [? | [? | [? | ?]]] by lia;
      [bswap_byte 0 i | bswap_byte 1 i | bswap_byte 2 i | bswap_byte 3 i].
Qed.

Lemma bswap64_bits v : is_word 64 v -> byte_swap 64 v (bswap_value 64 v).
Proof.
  intros Hv. unfold bswap_value. cbn [Z.eqb Pos.eqb]. set (r := Z.lor _ _).
  split; [unfold r, shl; auto 12 using word_lor, wrap_word, word_shiftr, word_land with lia |].
  intros i Hi. pose (p := fun s t => (t <=? i) && (i <? t + 8) && Z.testbit v (i - t + s)).
  assert (Z.testbit r i = p 56 0 || p 48 8 || p 40 16 || p 32 24 || p 24 32 || p 16 40 || p 8 48 || p 0 56) as ->.
  { unfold r, p. rewrite !Z.lor_spec.
    rewrite <- (byte_right v 56 0), <- (byte_right v 48 8), <- (byte_right v 40 16), <- (byte_right v 32 24) by lia.
    rewrite <- (byte_left v 24 32), <- (byte_left v 16 40), <- (byte_left v 8 48), <- (byte_left v 0 56) by lia.
    reflexivity. }
  unfold p.
  assert (i < 8 \/ 8 <= i < 16 \/ 16 <= i < 24 \/ 24 <= i < 32 \/ 32 <= i < 40 \/ 40 <= i < 48 \/ 48 <= i < 56 \/ 56 <= i)
    as [? | [? | [? | [? | [? | [? | [? | ?]]]]]]] by lia;
    [bswap_byte 0 i | bswap_byte 1 i | bswap_byte 2 i | bswap_byte 3 i | bswap_byte 4 i | bswap_byte 5 i
    | bswap_byte 6 i | bswap_byte 7 i].
Qed.

(** BSWAP on a 32- or 64-bit operand stores the operand with its bytes in reverse
    order. *)
Theorem bswap_refines ins w e :
  wf_emu e -> quiet e -> wf_ins ins -> w = 32 \/ w = 64 -> source ins 0 w e -> target ins 0 w e ->
  exists v r e1 e', operand_value ins 0 e = Some v /\ byte_swap w v r /\ warmed e e1
    /\ bswap_execute ins e = Ret (true, e') /\ wf_emu e' /\ stored ins 0 r e1 e'.
Proof.
  intros Hwf Hq Hi Hw Hs Ht. destruct (read_operand ins 0 w e) as (v & e1 & E1 & V & Wv & W1); auto.
  assert (byte_swap w v (bswap_value w v)) as Hb by (destruct Hw as [-> | ->]; auto using bswap32_bits, bswap64_bits).
  assert (is_word 64 (bswap_value w v)) as Wr by (apply (word_64 w); [unfold width; lia | apply Hb]).
  destruct (target_write ins 0 w (bswap_value w v) e1) as (e' & E' & Hwf' & Hst);
    eauto using warmed_wf, warmed_quiet, warmed_target.
  exists v, (bswap_value w v), e1, e'. split_and!; auto. rewrite <- E'. unfold bswap_execute. rewrite E1.
  cbn [mbind outcome_bind]. rewrite (proj1 Hs). destruct Hw as [-> | ->]; reflexivity.
Qed.

(** ** Compare and exchange *)

(** CMPXCHG compares the accumulator with operand 0 with the flags of a subtraction;
    when they are equal operand 1 is stored in operand 0, and otherwise operand 0 is
    loaded into the accumulator and memory is unchanged. *)
Theorem cmpxchg_refines ins w e :
  wf_emu e -> quiet e -> wf_ins ins -> width w -> source ins 0 w e -> target ins 0 w e -> source ins 1 w e ->
  exists a b e' s e1, operand_value ins 0 e = Some a /\ operand_value ins 1 e = Some b /\ warmed e e1
    /\ cmpxchg_execute ins e = Ret (true, e')
    /\ let acc := get_reg (acc_lo w) (regs e) in
       observe s = sdm_sub w acc a false /\ control s = control (flags e)
       /\ if acc =? a then stored ins 0 b (set_flags s e1) e'
          else e' = set_regs (set_reg (acc_lo w) a (regs e)) (set_flags s e1).
Proof.
  intros Hwf Hq Hi Hw Hs0 Ht Hs1.
  destruct (read_two ins 0 1 w w e) as (a & b & e1 & e2 & E1 & E2 & Va & Vb & Wa & Wb & W1 & W2); auto.
  destruct (acc_views w Hw) as (f & lo & _ & _ & Hl & _ & _).
  pose proof (get_reg_word _ _ _ _ _ Hl (wf_emu_regs e Hwf)) as Wacc.
  set (acc := get_reg (acc_lo w) (regs e)) in *.
  destruct (sub_routine w acc a) as (g & Eg & Hg); auto. destruct (Hg (flags e)) as (_ & Ho & Hc).
  destruct (target_write ins 0 w b (set_flags (g (flags e)).2 e2)) as (e' & E' & _ & Hst);
    eauto using set_flags_wf, set_flags_quiet, set_flags_target, warmed_wf, warmed_quiet, warmed_target, word_64.
  exists a, b, (if acc =? a then e' else set_regs (set_reg (acc_lo w) a (regs e)) (set_flags (g (flags e)).2 e2)),
    (g (flags e)).2, e2. split_and!; auto; [|cbv zeta; split_and!; auto; now destruct (acc =? a)].
  assert (regs e2 = regs e /\ flags e2 = flags e) as [Er Ef] by (destruct W2 as (t & _ & ->); auto).
  unfold cmpxchg_execute. rewrite E1. cbn [mbind outcome_bind]. rewrite E2. cbn [mbind outcome_bind].
  rewrite (proj1 Hs0), on_flags_snd, Er, Ef. cbn [regs set_flags]. rewrite Er.
  destruct Hw as [-> | [-> | [-> | ->]]]; cbn [Z.eqb Pos.eqb by_size acc_lo] in *; injection Eg as <-;
    [change (get_al (regs e)) with acc | change (get_ax (regs e)) with acc | change (get_eax (regs e)) with acc
    | change (regs e rax) with acc]; (destruct (acc =? a); [exact E' | reflexivity]).
Qed.

(** ** Sign extension of the accumulator *)

(** [cwd], [cdq] and [cqo] extend the accumulator into the pair that [idiv]
    divides. *)
Definition extend_pair (w : Z) : Instruction -> Emu S W -> outcome (bool * Emu S W) :=
  if w =? 64 then cqo_execute else if w =? 32 then cdq_execute else cwd_execute.

Lemma hi_sign w v :
  0 < w -> wrap w (Z.shiftr (wrap (2 * w) (sgn w v)) w) = if Z.testbit v (w - 1) then 2 ^ w - 1 else 0.
Proof.
  intros Hw. unfold sgn. pose proof (wrap_word w v ltac:(lia)) as Hv. unfold is_word in Hv.
  assert (2 ^ (2 * w) = 2 ^ w * 2 ^ w) as Ep by (rewrite <- Z.pow_add_r by lia; f_equal; lia).
  rewrite Z.shiftr_div_pow2 by lia. destruct (Z.testbit v (w - 1)).
  - assert (wrap (2 * w) (wrap w v - 2 ^ w) = wrap w v + (2 ^ w - 1) * 2 ^ w) as ->.
    { unfold wrap at 1. rewrite <- (Z_mod_plus_full _ 1), Z.mod_small by nia. rewrite Ep. lia. }
    rewrite Z.div_add, (Z.div_small (wrap w v)) by lia. apply wrap_small. split; lia.
  - rewrite (wrap_small (2 * w)) by (split; nia). rewrite Z.div_small by lia. apply wrap_small. split; lia.
Qed.

Lemma extend_hi w v m :
  0 < w -> m = Z.shiftl (Z.ones w) w ->
  Z.shiftr (Z.land (wrap (2 * w) (sgn w v)) m) w = if Z.testbit v (w - 1) then 2 ^ w - 1 else 0.
Proof.
  intros Hw Hm. assert (is_word (2 * w) (wrap (2 * w) (sgn w v))) as Hu by (apply wrap_word; lia).
  rewrite (hi_part w _ m) by (auto; lia). rewrite <- hi_sign by exact Hw. rewrite Z.shiftr_div_pow2 by lia.
  symmetry. apply wrap_small, half_word; auto. lia.
Qed.

Lemma extend_lo w v m : 0 < w -> m = Z.ones w -> Z.land (wrap (2 * w) (sgn w v)) m = wrap w v.
Proof. intros Hw Hm. rewrite (land_wrap w) by (auto; lia). rewrite wrap_idem by lia. apply wrap_sgn. lia. Qed.

(** Writing a register back to itself at 16 bits, and the two halves of RAX put
    together, change nothing. *)
Lemma set_ax_same r g : words r -> set_ax (get_ax r) r g = r g.
Proof.
  intros Hr. pose proof (get_reg_word AX rax 0 16 r eq_refl Hr) as Wa.
  destruct (set_reg_view AX rax 0 16 (get_reg AX r) r eq_refl Hr) as (x & Ex & Wx & Bx); [eapply word_mono; eauto; lia |].
  change (set_ax (get_ax r) r g) with (set_reg AX (get_reg AX r) r g). rewrite Ex.
  destruct (decide (g = rax)) as [-> | Hg]; [|now apply upd_other]. rewrite upd_same.
  apply (word_ext 64); [exact Wx | exact (Hr rax) | lia |]. intros i Hi. rewrite Bx by lia.
  rewrite (get_reg_view AX rax 0 16 _ eq_refl Hr), testbit_wrap, Z.shiftr_spec by lia.
  replace (i - 0 + 0) with i by lia. split_ltb; reflexivity.
Qed.

Lemma join_halves x : is_word 64 x -> Z.lor (shl 64 (Z.shiftr x 32) 32) (wrap 32 x) = x.
Proof.
  intros Hx. apply (word_ext 64); auto; [|lia|].
  - apply word_lor; [apply wrap_word; lia | eapply word_mono; [|apply wrap_word]; lia | lia].
  - intros i Hi. rewrite Z.lor_spec, testbit_shl, testbit_wrap by lia. destruct (Z.ltb_spec i 32).
    + rewrite (Z.testbit_neg_r _ (i - 32)) by lia. now rewrite andb_false_r.
    + rewrite Z.shiftr_spec by lia. split_ltb. cbn [andb]. rewrite orb_false_r. f_equal. lia.
Qed.

(** The pair once its high half holds the sign of the low half. *)
Definition sign_half (w v : Z) : Z := if Z.testbit v (w - 1) then 2 ^ w - 1 else 0.

Lemma extended_pair w r r' :
  w = 16 \/ w = 32 \/ w = 64 -> words r ->
  let lo := get_reg (acc_lo w) r in
  let h := sign_half w lo in
  (forall g, r' g = set_reg (acc_hi w) h r g) ->
  get_reg (acc_lo w) r' = lo /\ sgn (2 * w) (acc_pair w r') = sgn w lo /\ (forall g, g <> rdx -> r' g = r g).
Proof.
  intros Hw Hr lo h Hr'. assert (width w) as Hwd by (unfold width; lia).
  destruct (acc_views w Hwd) as (f & l & g & hi & Hl & Hh & [|Hne]); [lia |].
  pose proof (get_reg_word _ _ _ _ _ Hl Hr) as Wlo. fold lo in Wlo.
  assert (is_word w h) as Wh by (unfold h, sign_half; destruct (Z.testbit _ _); split; lia).
  pose proof (word_64 w h Hwd Wh) as Wh64.
  assert (words r') as Hrw by (intros x; rewrite Hr'; apply (set_words _ _ _ _ h _ Hh Hr Wh64)).
  assert (forall reg a b c, view reg = Some (a, b, c) -> get_reg reg r' = get_reg reg (set_reg (acc_hi w) h r)) as Hget.
  { intros reg a b c Hv. pose proof (set_words _ _ _ _ h _ Hh Hr Wh64) as Hs.
    now rewrite (get_reg_view _ _ _ _ _ Hv Hrw), (get_reg_view _ _ _ _ _ Hv Hs), Hr'. }
  assert (get_reg (acc_lo w) r' = lo) as Elo.
  { rewrite (Hget _ _ _ _ Hl). eapply get_reg_other; eauto. }
  assert (get_reg (acc_hi w) r' = h) as Ehi.
  { rewrite (Hget _ _ _ _ Hh), (get_after_set _ _ _ _ _ _ Hh Hr Wh64), (proj1 (view_shape _ _ _ _ Hh)).
    now apply wrap_small. }
  split_and!; [exact Elo | |].
  - unfold acc_pair. rewrite Elo, Ehi. unfold h, sign_half, sgn at 2. rewrite (wrap_small w lo) by exact Wlo.
    assert (2 ^ (2 * w) = 2 ^ w * 2 ^ w) as Ep by (rewrite <- Z.pow_add_r by lia; f_equal; lia).
    unfold is_word in Wlo. pose proof (pow2_half w ltac:(lia)). assert (0 < 2 ^ (w - 1)) by lia.
    assert (2 ^ (2 * w - 1) = 2 ^ w * 2 ^ (w - 1)) as Eh by (rewrite <- Z.pow_add_r by lia; f_equal; lia).
    destruct (Z.testbit lo (w - 1)).
    + replace ((2 ^ w - 1) * 2 ^ w + lo) with (lo - 2 ^ w + 1 * 2 ^ (2 * w)) by lia.
      rewrite sgn_period by lia. apply sgn_small; [lia |]. rewrite Eh. nia.
    + rewrite Z.add_0_l. apply sgn_small; [lia |]. rewrite Eh. nia.
  - intros x Hx. rewrite Hr'. destruct (set_reg_view _ _ _ _ h _ Hh Hr Wh64) as (y & Ey & _). rewrite Ey.
    apply upd_other. destruct Hw as [-> | [-> | ->]]; injection Hh as <- _; exact Hx.
Qed.

(** CWD, CDQ and CQO fill the upper half of the accumulator pair with the sign of
    the lower half: the pair, read as a two's complement number of twice the width,
    is the accumulator read as one of the width, and no other register changes. *)
Theorem extend_pair_refines w ins e :
  w = 16 \/ w = 32 \/ w = 64 -> wf_emu e ->
  exists r', extend_pair w ins e = Ret (true, set_regs r' e)
    /\ get_reg (acc_lo w) r' = get_reg (acc_lo w) (regs e)
    /\ sgn (2 * w) (acc_pair w r') = sgn w (get_reg (acc_lo w) (regs e))
    /\ (forall g, g <> rdx -> r' g = regs e g).
Proof.
  intros Hw Hwf. pose proof (wf_emu_regs e Hwf) as Hr.
  enough (exists r', extend_pair w ins e = Ret (true, set_regs r' e)
    /\ forall g, r' g = set_reg (acc_hi w) (sign_half w (get_reg (acc_lo w) (regs e))) (regs e) g) as (r' & E & Hr').
  { exists r'. split; [exact E |]. now apply extended_pair. }
  set (h := sign_half w _). unfold sign_half in h.
  destruct Hw as [-> | [-> | ->]]; cbn [extend_pair acc_lo acc_hi Z.eqb Pos.eqb] in *.
  - unfold cwd_execute. change 32 with (2 * 16).
    rewrite (extend_hi 16), (extend_lo 16) by (lia || reflexivity).
    pose proof (get_reg_word AX rax 0 16 _ eq_refl Hr) as Wa. change (get_reg AX (regs e)) with (get_ax (regs e)) in *.
    rewrite (wrap_small 16 (get_ax _)) by exact Wa. eexists. split; [reflexivity |]. intros g.
    fold h. change (set_reg DX h (regs e) g) with (upd rdx (set_reg16 (regs e rdx) h) (regs e) g). unfold set_dx.
    rewrite (set_ax_same _ rdx) by exact Hr.
    destruct (decide (g = rdx)) as [-> | Hg]; [now rewrite !upd_same |]. rewrite !upd_other by exact Hg.
    now apply set_ax_same.
  - unfold cdq_execute. change 64 with (2 * 32) at 1 3. rewrite (extend_hi 32), (extend_lo 32) by (lia || reflexivity).
    change (get_reg EAX (regs e)) with (get_eax (regs e)) in *.
    eexists. split; [reflexivity |]. intros g. cbn. fold h.
    assert (set_edx h (regs e) rax = regs e rax) as -> by (now apply (upd_other rdx)).
    unfold get_eax, get_reg32l. rewrite land32, (wrap_idem 32 32), join_halves by (lia || exact (Hr rax)).
    destruct (decide (g = rax)) as [-> | Hg]; [rewrite upd_same; symmetry; now apply (upd_other rdx) | now apply upd_other].
  - unfold cqo_execute. change 128 with (2 * 64). rewrite (extend_hi 64) by (lia || reflexivity).
    change (get_reg RAX (regs e)) with (regs e rax) in *. eexists. split; [reflexivity |]. intros g. cbn. fold h.
    rewrite wrap_small by (unfold h; destruct (Z.testbit _ _); split; lia). reflexivity.
Qed.

(** ** Flags in AH *)

(** The byte [lahf] builds: SF ZF 0 AF 0 PF 1 CF. *)
Definition ah_byte (st : status) : Z :=
  Z.b2z (s_cf st) + 2 + 4 * Z.b2z (s_pf st) + 16 * Z.b2z (s_af st) + 64 * Z.b2z (s_zf st) + 128 * Z.b2z (s_sf st).

Lemma lahf_value ins e : lahf_execute ins e = Ret (true, set_regs (set_ah (ah_byte (observe (flags e))) (regs e)) e).
Proof.
  unfold lahf_execute, ah_byte. cbn [observe s_cf s_pf s_af s_zf s_sf].
  change (flag_cf e) with (cf (flags e)). change (flag_pf e) with (pf (flags e)). change (flag_af e) with (af (flags e)).
  change (flag_zf e) with (zf (flags e)). change (flag_sf e) with (sf (flags e)).
  destruct (cf (flags e)), (pf (flags e)), (af (flags e)), (zf (flags e)), (sf (flags e)); reflexivity.
Qed.

(** What [sahf] does with the byte [b] in AH. *)
Lemma sahf_value ins e :
  words (regs e) ->
  let b := get_reg AH (regs e) in
  exists s, sahf_execute ins e = Ret (true, set_flags s e)
    /\ observe s = mkStatus (negb (Z.land b 1 =? 0)) (negb (Z.land b 4 =? 0)) (negb (Z.land b 0x10 =? 0))
                     (negb (Z.land b 0x40 =? 0)) (negb (Z.land b 0x80 =? 0)) (of_ (flags e))
    /\ control s = control (flags e).
Proof.
  intros Hr b. destruct (materialize_transparent (flags e)) as [[Ho Hc] [Hk _]].
  unfold sahf_execute. change (get_ah (regs e)) with b.
  rewrite (wrap_small 8 b) by exact (get_reg_word AH rax 8 8 _ eq_refl Hr).
  unfold flags_mut. cbn [flags set_flags]. rewrite !set_flags_twice.
  eexists. split; [reflexivity |].
  rewrite !(materialize_none (set_f_cf _ _)) by exact Hk.
  rewrite !(materialize_none (set_f_pf _ _)) by exact Hk.
  rewrite !(materialize_none (set_f_af _ _)) by exact Hk.
  rewrite !(materialize_none (set_f_zf _ _)) by exact Hk.
  rewrite materialized_fields by exact Hk. cbn. split; [|exact Hc]. f_equal.
  rewrite (materialized_fields _ Hk) in Ho. unfold observe in Ho. injection Ho. auto.
Qed.

(** LAHF then SAHF leaves every flag as it was and the image of the status flags in
    AH. *)
Theorem lahf_sahf_roundtrip ins ins' e :
  wf_emu e ->
  exists e1 e2, lahf_execute ins e = Ret (true, e1) /\ sahf_execute ins' e1 = Ret (true, e2)
    /\ flags_equiv (flags e2) (flags e) /\ get_reg AH (regs e2) = ah_byte (observe (flags e))
    /\ (forall g, g <> rax -> regs e2 g = regs e g).
Proof.
  intros Hwf. set (b := ah_byte (observe (flags e))).
  assert (is_word 8 b) as Wb by (unfold b, ah_byte; destruct (observe (flags e)) as [[] [] [] [] [] []]; split; cbn; lia).
  assert (is_word 64 b) as Wb64 by (eapply word_mono; eauto; lia).
  set (e1 := set_regs (set_ah b (regs e)) e).
  assert (words (regs e1)) as Hr1 by exact (set_words AH rax 8 8 b _ eq_refl (wf_emu_regs e Hwf) Wb64).
  assert (get_reg AH (regs e1) = b) as Eb.
  { change (get_reg AH (set_reg AH b (regs e)) = b). rewrite (get_after_set AH rax 8 8) by (auto; apply Hwf).
    now apply wrap_small. }
  destruct (sahf_value ins' e1 Hr1) as (s & E2 & Ho & Hc). exists e1, (set_flags s e1). rewrite lahf_value.
  split_and!; auto; [|intros g Hg; now apply (upd_other rax)].
  split; [|exact Hc]. cbn [flags set_flags]. rewrite Ho, Eb. unfold b, ah_byte.
  change (flags e1) with (flags e). change (of_ (flags e)) with (s_of (observe (flags e))).
  destruct (observe (flags e)) as [[] [] [] [] [] []]; reflexivity.
Qed.

(** ** Loops *)

(** The counter of a loop instruction. *)
Definition counter_reg (bits : Z) : Register := if bits =? 16 then CX else if bits =? 32 then ECX else RCX.

(** [n] executions of the decrement, with the last count. *)
Fixpoint decrements (bits : Z) (n : nat) e : Z * Emu S W :=
  match n with
  | O => (get_reg (counter_reg bits) (regs e), e)
  | Datatypes.S n => loop_decrement bits (snd (decrements bits n e))
  end.

Lemma loop_decrement_spec bits e :
  bits = 16 \/ bits = 32 \/ bits = 64 -> words (regs e) ->
  let c := get_reg (counter_reg bits) (regs e) in
  exists r', loop_decrement bits e = (wrap bits (c - 1), set_regs r' e) /\ words r'
    /\ get_reg (counter_reg bits) r' = wrap bits (c - 1) /\ (forall g, g <> rcx -> r' g = regs e g).
Proof.
  intros Hb Hr c. pose proof (wrap_word bits (c - 1) ltac:(lia)) as Wc.
  assert (is_word 64 (wrap bits (c - 1))) as W64 by (eapply word_mono; [|exact Wc]; lia).
  exists (set_reg (counter_reg bits) (wrap bits (c - 1)) (regs e)).
  destruct Hb as [-> | [-> | ->]]; cbn [counter_reg Z.eqb Pos.eqb] in *; unfold loop_decrement; cbn [Z.eqb Pos.eqb].
  - pose proof (get_reg_word CX rcx 0 16 _ eq_refl Hr) as Wr. fold c in Wr.
    change (get_cx (regs e)) with c. rewrite (wrap_small 16 c Wr).
    split_and!; [reflexivity | eapply set_words; eauto; reflexivity | | intros g Hg; now apply (upd_other rcx)].
    rewrite (get_after_set CX rcx 0 16) by auto. now apply wrap_small.
  - pose proof (get_reg_word ECX rcx 0 32 _ eq_refl Hr) as Wr. fold c in Wr.
    change (get_ecx (regs e)) with c. rewrite (wrap_small 32 c Wr).
    split_and!; [reflexivity | eapply set_words; eauto; reflexivity | | intros g Hg; now apply (upd_other rcx)].
    rewrite (get_after_set ECX rcx 0 32) by auto. now apply wrap_small.
  - split_and!; [reflexivity | eapply set_words; eauto; reflexivity | | intros g Hg; now apply (upd_other rcx)].
    rewrite (get_after_set RCX rcx 0 64) by auto. now apply wrap_small.
Qed.

Lemma decrements_spec bits n e :
  bits = 16 \/ bits = 32 \/ bits = 64 -> words (regs e) ->
  let c := get_reg (counter_reg bits) (regs e) in
  let (k, e') := decrements bits n e in
  words (regs e') /\ k = wrap bits (c - Z.of_nat n) /\ get_reg (counter_reg bits) (regs e') = k.
Proof.
  intros Hb Hr c. induction n as [|n IH].
  - cbn. rewrite Z.sub_0_r. split_and!; auto. symmetry. apply wrap_small.
    destruct Hb as [-> | [-> | ->]]; eapply get_reg_word; eauto; reflexivity.
  - cbn [decrements]. destruct (decrements bits n e) as [k e']. destruct IH as (Hr' & Hk & Hc). cbn [snd].
    destruct (loop_decrement_spec bits e' Hb Hr') as (r2 & -> & Hr2 & Hc2 & _). cbn [regs set_regs].
    split_and!; auto. rewrite Hc, Hk, wrap_wrap_sub by lia. f_equal. lia.
Qed.

(** The counter of LOOP, LOOPE and LOOPNE reaches zero after exactly as many
    decrements as it holds, or the power of two of its width when it starts at zero,
    and not before, at the three widths of the counter. *)
Theorem loop_terminates bits e :
  bits = 16 \/ bits = 32 \/ bits = 64 -> words (regs e) ->
  let c := get_reg (counter_reg bits) (regs e) in
  let n := if c =? 0 then 2 ^ bits else c in
  forall k, (0 < k)%nat -> Z.of_nat k <= n -> (fst (decrements bits k e) = 0 <-> Z.of_nat k = n).
Proof.
  intros Hb Hr c n k Hk Hn. pose proof (decrements_spec bits k e Hb Hr) as D.
  destruct (decrements bits k e) as [v e']. destruct D as (_ & Hv & _). cbn [fst]. fold c in Hv.
  assert (is_word bits c) as Wc by (destruct Hb as [-> | [-> | ->]]; eapply get_reg_word; eauto; reflexivity).
  unfold is_word in Wc. subst v n. unfold wrap. destruct (Z.eqb_spec c 0) as [E | E].
  - rewrite E, Z.sub_0_l. rewrite <- (Z_mod_plus_full _ 1). destruct (Z.eq_dec (Z.of_nat k) (2 ^ bits)) as [Ek | Ek].
    + rewrite Ek. replace (- 2 ^ bits + 1 * 2 ^ bits) with 0 by lia. rewrite Z.mod_0_l by lia. tauto.
    + rewrite Z.mod_small by lia. lia.
  - rewrite Z.mod_small by lia. lia.
Qed.
End Spec.
