(* ===== verification/Samples.v ===== *)
(** * Sample states and instructions

    A concrete emulator over the sample address space of MapsRun, concrete
    instructions, and the theorems about the handlers applied to them. *)

From stdpp Require Import gmap strings.
From S2P Require Import Prelude Flags FlagsArith FlagsShift Conditions Scalar Mem64 BTree Slab Tlb Maps.
From S2P Require Import MapsInv MapsLife MapsAlloc MapsRun Regs Emu Operands Stack OperandsSpec Instructions.
From S2P Require Import AluSpec ShiftSpec CondSpec StackSpec FaultSpec MulDiv MulDivSpec BitSpec DataSpec.

Notation sample_emu := (Emu (gmap nat Mem64) unit).

(** Nothing is hooked, and what lies outside the model does nothing. *)
#[local] Instance sample_environment : Environment (gmap nat Mem64) unit := {
  hook_on_memory_read := None;
  hook_on_memory_write := None;
  exception _ e := e;
  kernel_guard_access _ _ _ _ e := e;
  spawn_console e := e;
  set_streg _ _ e := e;
  set_rip_with_check addr _ e := Ret (true, set_regs (upd rip addr (regs e)) e);
  set_eip_emu addr _ e := Ret (true, set_regs (upd rip addr (regs e)) e)
}.

#[local] Instance sample_iced : Iced := {
  register_size r := match view r with Some (_, _, w) => w / 8 | None => 0 end;
  is_gpr64 r := match view r with Some (_, _, w) => w =? 64 | None => false end
}.

#[local] Instance sample_iced_laws : IcedLaws.
Proof. split; intros r f lo w Hv; cbn; now rewrite Hv. Qed.

(** The sample address space, a value in RAX, an address in RBX, a count in RCX
    and a stack pointer. *)
Definition sample_regs (stack : Z) : Regs64 :=
  upd rsp stack (upd rcx 3 (upd rbx 0x1000 (upd rax 0x1122334455667788 zeros))).

Definition sample_state (stack : Z) : sample_emu :=
  mkEmu (sample_regs stack) Flags.new sample (mkConfig true false false false) Windows
    false false ∅ 0 0 ∅ ∅ false false false false 1 [] tt.

Definition sample_ins (count : nat) (k0 k1 : OpKind) (r0 r1 base : Register) (disp size imm : Z) : Instruction :=
  mkInstruction OtherCode count (fun n => match n with O => k0 | 1%nat => k1 | _ => Immediate8 end)
    (fun n => match n with O => r0 | _ => r1 end) DS base NoRegister 1 disp disp size imm 0 imm imm imm 0 0 0 0
    0x1020 0 0.

Lemma sample_wf_emu stack : is_word 64 stack -> wf_emu (sample_state stack).
Proof. intros Hs. split; [|exact sample_wf]. intros g. cbn [regs sample_state]. unfold sample_regs, upd. repeat case_decide; subst; [exact Hs | split; lia .. | apply zeros_words]. Qed.

Lemma sample_quiet stack : quiet (sample_state stack).
Proof. split; reflexivity. Qed.

Lemma sample_wf_ins count k0 k1 r0 r1 base disp size imm :
  is_word 64 disp -> is_word 8 imm -> wf_ins (sample_ins count k0 k1 r0 r1 base disp size imm).
Proof. intros. split; cbn; auto; eapply word_mono; eauto; lia. Qed.

(** The operands of the sample instructions. *)
Ltac reg_operand := split; [reflexivity |]; cbn; eauto.
Ltac mem_operand sk :=
  split; [reflexivity |]; cbn; exists sk;
  split_and!; [split_and!; (reflexivity || discriminate) | reflexivity | vm_compute; reflexivity | set_solver].
Ltac sample_side :=
  first [apply sample_wf_emu; split; lia | apply sample_quiet | apply sample_wf_ins; split; lia | reflexivity
        | unfold width; lia].

(** [add dword ptr [rbx+4], 7] *)
Definition add_mem : Instruction := sample_ins 2 OpMemory Immediate32 EAX EAX RBX 4 4 7.
(** [add eax, [rbx+4]] *)
Definition add_reg : Instruction := sample_ins 2 OpRegister OpMemory EAX EAX RBX 4 4 7.

(** ** Operands and arithmetic *)

Lemma operand_write_read_witness :
  exists e1 e2, set_operand_value add_mem 0 0xdeadbeef (sample_state 0x1020) = Ret (true, e1)
    /\ get_operand_value add_mem 0 true e1 = Ret (Some 0xdeadbeef, e2).
Proof.
  destruct (operand_write_read add_mem 0 32 0xdeadbeef (sample_state 0x1020)) as (e1 & e2 & E1 & E2 & _);
    try sample_side; [mem_operand Dword | mem_operand Dword | split; lia |].
  exists e1, e2. split; [exact E1 | exact E2].
Defined.

(** [add dword ptr [rbx+4], 7] on a zero doubleword. *)
Lemma alu_refines_witness :
  exists e', add_execute add_mem (sample_state 0x1020) = Ret (true, e')
    /\ completes add_mem (Some 7) (sdm_add 32 0 7 false) (control Flags.new) (sample_state 0x1020) e'.
Proof.
  destruct (alu_refines ADD add_mem 32 (sample_state 0x1020)) as (a & b & e' & Ea & Eb & E & _ & Hc);
    try sample_side; [mem_operand Dword | reg_operand | intros _; mem_operand Dword |].
  vm_compute in Ea. injection Ea as <-. vm_compute in Eb. injection Eb as <-. exists e'. split; [exact E | exact Hc].
Defined.

Lemma unop_refines_witness :
  exists e', neg_execute add_reg (sample_state 0x1020) = Ret (true, e')
    /\ completes add_reg (Some 0xaa998878) (unop_status NEG 32 0x55667788 (observe Flags.new)) (control Flags.new)
         (sample_state 0x1020) e'.
Proof.
  destruct (unop_refines NEG add_reg 32 (sample_state 0x1020)) as (a & e' & Ea & E & _ & Hc);
    try sample_side; [reg_operand | reg_operand |].
  vm_compute in Ea. injection Ea as <-. exists e'. split; [exact E | exact Hc].
Defined.

(** ** Shifts *)

(** [shl eax, 4] *)
Definition shl_reg : Instruction := sample_ins 2 OpRegister Immediate8 EAX EAX RBX 4 4 4.

Lemma shift_refines_witness :
  exists af e', shl_execute shl_reg (sample_state 0x1020) = Ret (true, e')
    /\ completes shl_reg (Some 0x56677880) (shift_status SHL 32 0x55667788 4 af (observe Flags.new))
         (shift_control 4 Flags.new) (sample_state 0x1020) e'.
Proof.
  destruct (shift_refines SHL shl_reg 32 8 (sample_state 0x1020)) as (v & n & af & e' & Ev & En & E & _ & Hc);
    try sample_side; [reg_operand | reg_operand | right; split; [discriminate | reg_operand] |].
  vm_compute in Ev. injection Ev as <-. vm_compute in En. injection En as <-. exists af, e'.
  split; [exact E | exact Hc].
Defined.

Lemma rotate_refines_witness :
  exists r st e', ror_execute shl_reg (sample_state 0x1020) = Ret (true, e')
    /\ rotates ROR 32 0x55667788 4 (observe Flags.new) r st
    /\ completes shl_reg (Some r) st (control Flags.new) (sample_state 0x1020) e'.
Proof.
  destruct (rotate_refines ROR shl_reg 32 8 (sample_state 0x1020)) as (v & n & r & st & e' & Ev & En & Hr & E & _ & Hc);
    try sample_side; [reg_operand | reg_operand | right; split; [discriminate | reg_operand] |].
  vm_compute in Ev. injection Ev as <-. vm_compute in En. injection En as <-. exists r, st, e'.
  split_and!; [exact E | exact Hr | exact Hc].
Defined.

(** [shld eax, ebx, 4] *)
Definition shld_reg : Instruction := sample_ins 3 OpRegister OpRegister EAX EBX RBX 0 4 4.

Lemma double_shift_refines_witness :
  exists af e', shld_execute shld_reg (sample_state 0x1020) = Ret (true, e')
    /\ completes shld_reg (Some 0x56677880) (double_status SHLD 32 0x55667788 0x1000 4 af (observe Flags.new))
         (shift_control 4 Flags.new) (sample_state 0x1020) e'.
Proof.
  destruct (double_shift_refines SHLD shld_reg 32 8 (sample_state 0x1020))
    as (v & n & c & af & e' & Ev & En & Ec & E & _ & Hc);
    try sample_side; [reg_operand.. |].
  vm_compute in Ev. injection Ev as <-. vm_compute in En. injection En as <-. vm_compute in Ec. injection Ec as <-.
  exists af, e'. split; [exact E | exact Hc].
Defined.

(** ** Conditions *)

(** [cmp eax, ebx], [setg byte ptr [rbx]], [jg 0x1020] and [cmovg rax, [rbx+8]] *)
Definition cmp_regs : Instruction := sample_ins 2 OpRegister OpRegister EAX EBX RBX 0 4 0.
Definition setg_mem : Instruction := sample_ins 1 OpMemory OpRegister EAX EAX RBX 0 1 0.
Definition jg_near : Instruction := sample_ins 1 NearBranch64 OpRegister EAX EAX RBX 0 1 0.
Definition cmovg_mem : Instruction := sample_ins 2 OpRegister OpMemory RAX RAX RBX 8 8 0.

Lemma cmp_setcc_witness :
  exists e1 e2, cmp_execute cmp_regs (sample_state 0x1020) = Ret (true, e1)
    /\ set_handler CC_G setg_mem e1 = Ret (true, e2) /\ stored setg_mem 0 1 e1 e2.
Proof.
  destruct (cmp_setcc CC_G cmp_regs setg_mem 32 (sample_state 0x1020)) as (a & b & e1 & e2 & Ea & Eb & E1 & E2 & _ & Hst);
    try sample_side; [reg_operand | reg_operand | mem_operand Byte |].
  vm_compute in Ea. injection Ea as <-. vm_compute in Eb. injection Eb as <-. exists e1, e2.
  split_and!; [exact E1 | exact E2 | exact Hst].
Defined.

Lemma cmp_jcc_witness :
  exists e1, cmp_execute cmp_regs (sample_state 0x1020) = Ret (true, e1)
    /\ jump_handler CC_G jg_near e1 = set_rip_with_check 0x1020 true e1.
Proof.
  destruct (cmp_jcc CC_G cmp_regs jg_near 32 (sample_state 0x1020)) as (a & b & e1 & Ea & Eb & E1 & Hj);
    try sample_side; [reg_operand | reg_operand | right; right; reflexivity |].
  vm_compute in Ea. injection Ea as <-. vm_compute in Eb. injection Eb as <-. exists e1.
  split; [exact E1 | exact Hj].
Defined.

Lemma cmovcc_refines_witness :
  exists e', move_handler CC_G cmovg_mem (sample_state 0x1020) = Ret (true, e') /\ regs e' rax = 0.
Proof.
  destruct (cmovcc_refines CC_G cmovg_mem rax 0 64 (sample_state 0x1020)) as (v & e' & Ev & E & _ & Hr & _);
    try sample_side; [discriminate.. | mem_operand Qword |].
  vm_compute in Ev. injection Ev as <-. exists e'. split; [exact E |]. specialize (Hr rax). rewrite Hr.
  vm_compute. reflexivity.
Defined.

(** ** The stack *)

Definition push_reg : Instruction := sample_ins 1 OpRegister OpRegister RAX RAX RBX 0 8 0.
Definition pop_reg : Instruction := sample_ins 1 OpRegister OpRegister RCX RCX RBX 0 8 0.

Lemma push_pop_roundtrip_witness :
  exists e1 e2, push_of Qword 0x1234 (sample_state 0x1020) = Ret (true, e1)
    /\ pop_of Qword false e1 = Ret (Some 0x1234, e2) /\ sp e2 = 0x1020.
Proof.
  destruct (push_pop_roundtrip Qword 0x1234 false (sample_state 0x1020)) as (e1 & e2 & E1 & _ & E2 & Hs & _);
    try sample_side; [right; right; reflexivity | split; (discriminate || reflexivity) |].
  exists e1, e2. split_and!; [exact E1 | exact E2 | exact Hs].
Defined.

Lemma push_grows_witness :
  exists m1 e', stack_push64 0x1234 (sample_state 0x5000) = Ret (true, e') /\ sp e' = 0x4ff8
    /\ grown 0x4ff8 sample m1 /\ stores m1 (emaps e') 0x4ff8 [0x34; 0x12; 0; 0; 0; 0; 0; 0].
Proof.
  assert (growable 0x4ff8 sample) as Hg by (split; [vm_compute; reflexivity | red; each_region | vm_compute; reflexivity]).
  destruct (push_grows 0x1234 (sample_state 0x5000) (sample_wf_emu 0x5000 ltac:(split; lia)) eq_refl eq_refl Hg
    ltac:(vm_compute; discriminate)) as (m1 & e' & E & _ & Hsp & Hgr & Hst).
  exists m1, e'. split_and!; [exact E | exact Hsp | exact Hgr | exact Hst].
Defined.

Lemma push_pop_moves_witness :
  exists e1 e2, push_execute push_reg (sample_state 0x1020) = Ret (true, e1)
    /\ pop_execute pop_reg e1 = Ret (true, e2) /\ regs e2 rcx = 0x1122334455667788 /\ sp e2 = 0x1020.
Proof.
  destruct (push_pop_moves push_reg pop_reg rcx (sample_state 0x1020)) as (v & e1 & e2 & Ev & E1 & E2 & _ & Hr & _);
    [sample_side | sample_side | sample_side | reg_operand | vm_compute; reflexivity .. |].
  vm_compute in Ev. injection Ev as <-. exists e1, e2. split_and!; [exact E1 | exact E2 | |].
  - rewrite (Hr rcx). reflexivity.
  - unfold sp. rewrite (Hr rsp). reflexivity.
Defined.

Lemma pushfq_popfq_roundtrip_witness :
  exists e1 e2, pushfq_execute push_reg (sample_state 0x1020) = Ret (true, e1)
    /\ popfq_execute push_reg e1 = Ret (true, e2) /\ flags_equiv (flags e2) Flags.new.
Proof.
  destruct (pushfq_popfq_roundtrip push_reg push_reg (sample_state 0x1020)) as (e1 & e2 & E1 & E2 & _ & Hf & _);
    [sample_side | vm_compute; reflexivity.. |].
  exists e1, e2. split_and!; [exact E1 | exact E2 | exact Hf].
Defined.

(** ** Faults *)

(** [add eax, [0x900000]], where nothing is mapped, and [add dword ptr [0x2000], 7],
    in a read-only region far from the stack. *)
Definition add_unmapped : Instruction := sample_ins 2 OpRegister OpMemory EAX EAX NoRegister 0x900000 4 0.
Definition add_readonly : Instruction := sample_ins 2 OpMemory Immediate32 EAX EAX NoRegister 0x2000 4 7.

Ltac mem_fault :=
  split_and!; [reflexivity | split_and!; (reflexivity || discriminate) | vm_compute; reflexivity | right; reflexivity].

Lemma alu_read_fault_witness :
  exists e1, warmed (sample_state 0x1020) e1
    /\ add_execute add_unmapped (sample_state 0x1020) = Ret (false, after_read_fault Dword 0x900000 e1).
Proof.
  destruct (alu_read_fault ADD add_unmapped 1 32 Dword (sample_state 0x1020)) as (e1 & W1 & E);
    [sample_side.. | split; [mem_fault | right; split; [reflexivity | reg_operand]] |].
  exists e1. split; [exact W1 |]. apply E. destruct W1 as (t & _ & ->). reflexivity.
Defined.

Lemma alu_write_fault_witness :
  exists e1 s, warmed (sample_state 0x500000) e1 /\ observe s = sdm_add 32 0 7 false
    /\ add_execute add_readonly (sample_state 0x500000) = Ret (false, exception BadAddressDereferencing (set_flags s e1)).
Proof.
  destruct (alu_write_fault ADD add_readonly 32 Dword (sample_state 0x500000)) as (a & b & e1 & s & Ea & Eb & W1 & _ & Hs & E);
    [sample_side.. | mem_operand Dword | reg_operand | mem_fault |].
  vm_compute in Ea. injection Ea as <-. vm_compute in Eb. injection Eb as <-. exists e1, s.
  split_and!; [exact W1 | exact Hs |]. destruct W1 as (t & _ & ->). exact E.
Defined.

(** ** Multiplication and division *)

(** [mul ebx], [imul eax, ebx] and [imul eax, ebx, 7] *)
Definition mul_reg : Instruction := sample_ins 1 OpRegister OpRegister EBX EAX RBX 0 4 0.
Definition imul_two : Instruction := sample_ins 2 OpRegister OpRegister EAX EBX RBX 0 4 0.

Lemma mul_refines_witness :
  exists r' s e1, mul_execute mul_reg (sample_state 0x1020) = Ret (true, set_flags s (set_regs r' e1))
    /\ r' rax = 0x67788000 /\ r' rdx = 0x556.
Proof.
  destruct (mul_refines mul_reg 32 (sample_state 0x1020)) as (v & r' & s & e1 & Ev & _ & E & Hr & _);
    [sample_side.. | reg_operand |].
  vm_compute in Ev. injection Ev as <-. exists r', s, e1. split; [exact E |]. rewrite !Hr. split; vm_compute; reflexivity.
Defined.

Lemma imul_wide_refines_witness :
  exists r' s e1, imul_execute mul_reg (sample_state 0x1020) = Ret (true, set_flags s (set_regs r' e1))
    /\ r' rax = 0x67788000 /\ r' rdx = 0x556.
Proof.
  destruct (imul_wide_refines mul_reg 32 (sample_state 0x1020)) as (v & r' & s & e1 & Ev & _ & E & Hr & _);
    [sample_side.. | reg_operand |].
  vm_compute in Ev. injection Ev as <-. exists r', s, e1. split; [exact E |]. rewrite !Hr. split; vm_compute; reflexivity.
Defined.

Lemma imul_refines_witness :
  exists e', imul_execute imul_two (sample_state 0x1020) = Ret (true, e')
    /\ completes imul_two (Some 0x67788000) (with_of true (with_cf true (observe Flags.new))) (control Flags.new)
         (sample_state 0x1020) e'.
Proof.
  destruct (imul_refines imul_two 32 (sample_state 0x1020)) as (a & b & e' & Ea & Eb & E & _ & Hc);
    [sample_side.. | left; reflexivity | reg_operand | reg_operand | reg_operand |].
  vm_compute in Ea. injection Ea as <-. vm_compute in Eb. injection Eb as <-. exists e'. split; [exact E | exact Hc].
Defined.

Lemma div_refines_witness :
  exists r' s e1, div_execute mul_reg (sample_state 0x1020) = Ret (true, set_flags s (set_regs r' e1))
    /\ r' rax = 0x55667 /\ r' rdx = 0x788.
Proof.
  destruct (div_refines mul_reg 32 (sample_state 0x1020)) as (v & e1 & e' & Ev & (t & _ & ->) & E & Hd);
    [sample_side.. | reg_operand |].
  vm_compute in Ev. injection Ev as <-. cbv zeta in Hd. unfold divided in Hd.
  replace (acc_pair 32 (regs (sample_state 0x1020))) with 0x55667788 in Hd by (vm_compute; reflexivity).
  change (0x1000 =? 0) with false in Hd. change (0x55667788 / 0x1000 <? 2 ^ 32) with true in Hd. cbv iota in Hd.
  destruct Hd as (r' & s & -> & Hr & _). exists r', s, (retlb t (sample_state 0x1020)). split; [exact E |].
  rewrite !Hr. split; vm_compute; reflexivity.
Defined.

Lemma idiv_refines_witness :
  exists r' s e1, idiv_execute mul_reg (sample_state 0x1020) = Ret (true, set_flags s (set_regs r' e1))
    /\ r' rax = 0x55667 /\ r' rdx = 0x788.
Proof.
  destruct (idiv_refines mul_reg 32 (sample_state 0x1020)) as (v & e1 & e' & Ev & (t & _ & ->) & E & Hd);
    [sample_side.. | reg_operand |].
  vm_compute in Ev. injection Ev as <-. unfold divided_signed, divided in Hd.
  replace (acc_pair 32 (regs (sample_state 0x1020))) with 0x55667788 in Hd by (vm_compute; reflexivity).
  change (sgn 32 0x1000 =? 0) with false in Hd.
  replace (negb (signed_overflow 32 _)) with true in Hd by (vm_compute; reflexivity). cbv iota in Hd.
  destruct Hd as (r' & s & -> & Hr & _). exists r', s, (retlb t (sample_state 0x1020)). split; [exact E |].
  rewrite !Hr. split; vm_compute; reflexivity.
Defined.

(** ** Bit tests *)

(** [bts dword ptr [rbx], ecx] *)
Definition bts_mem : Instruction := sample_ins 2 OpMemory OpRegister EAX ECX RBX 0 4 0.

Lemma bit_test_refines_witness :
  exists e', bit_handler BTS bts_mem (sample_state 0x1020) = Ret (true, e')
    /\ s_cf (observe (flags e')) = false /\ exists v, byte_of (emaps e') 0x1000 = Some v /\ Z.testbit v 3 = true.
Proof.
  destruct (bit_test_refines BTS bts_mem 32 Dword (sample_state 0x1020))
    as (b & v & e' & Eb & E & _ & Ho & _ & _ & Hb & Hv).
  1-2: sample_side.
  { split; [right; left; split; reflexivity | split; [reflexivity | split_and!; (reflexivity || discriminate)]
           | split; [reflexivity | eauto] | split; [vm_compute; discriminate | vm_compute; reflexivity]]. }
  { intros _. vm_compute. reflexivity. }
  vm_compute in Eb. injection Eb as <-. exists e'. split_and!; [exact E | now rewrite Ho |].
  exists v. specialize (Hb 0x1000). specialize (Hv 3 ltac:(lia)). split; [exact Hb | exact Hv].
Defined.

(** ** Data movement, flags in AH and loops *)

(** [movsx eax, byte ptr [rbx+4]], [bswap eax], [cmpxchg ecx, ebx] *)
Definition movsx_mem : Instruction := sample_ins 2 OpRegister OpMemory EAX EAX RBX 4 1 0.
Definition cmpxchg_regs : Instruction := sample_ins 2 OpRegister OpRegister ECX EBX RBX 0 4 0.

Lemma move_refines_witness :
  exists e', movsx_execute movsx_mem (sample_state 0x1020) = Ret (true, e') /\ operand_value movsx_mem 0 e' = Some 0.
Proof.
  destruct (move_refines MOVSX movsx_mem 32 8 (sample_state 0x1020)) as (v & e1 & e' & v' & Ev & _ & E & _ & _ & _ & Hv);
    [sample_side.. | right; left; split; [reflexivity | left; reflexivity] | reg_operand | mem_operand Byte |].
  vm_compute in Ev. injection Ev as <-. exists e'. split; [exact E | exact Hv].
Defined.

Lemma bswap_refines_witness :
  exists r e1 e', bswap_execute cmp_regs (sample_state 0x1020) = Ret (true, e')
    /\ byte_swap 32 0x55667788 r /\ stored cmp_regs 0 r e1 e'.
Proof.
  destruct (bswap_refines cmp_regs 32 (sample_state 0x1020)) as (v & r & e1 & e' & Ev & Hb & _ & E & _ & Hst);
    [sample_side.. | reg_operand | reg_operand |].
  vm_compute in Ev. injection Ev as <-. exists r, e1, e'. split_and!; [exact E | exact Hb | exact Hst].
Defined.

(** The comparison fails, and the accumulator gets the destination. *)
Lemma cmpxchg_refines_witness :
  exists e', cmpxchg_execute cmpxchg_regs (sample_state 0x1020) = Ret (true, e') /\ regs e' rax = 3.
Proof.
  destruct (cmpxchg_refines cmpxchg_regs 32 (sample_state 0x1020)) as (a & b & e' & s & e1 & Ea & Eb & _ & E & _ & _ & Hr);
    [sample_side.. | reg_operand | reg_operand | reg_operand |].
  vm_compute in Ea. injection Ea as <-. exists e'. split; [exact E |].
  change (get_reg (acc_lo 32) (regs (sample_state 0x1020)) =? 3) with false in Hr. cbv iota in Hr. rewrite Hr.
  vm_compute. reflexivity.
Defined.

Lemma extend_pair_refines_witness :
  exists r', cdq_execute cmp_regs (sample_state 0x1020) = Ret (true, set_regs r' (sample_state 0x1020))
    /\ sgn 64 (acc_pair 32 r') = 0x55667788.
Proof.
  destruct (extend_pair_refines 32 cmp_regs (sample_state 0x1020)) as (r' & E & _ & Hs & _);
    [right; left; reflexivity | sample_side |].
  exists r'. split; [exact E | exact Hs].
Defined.

Lemma lahf_sahf_roundtrip_witness :
  exists e1 e2, lahf_execute cmp_regs (sample_state 0x1020) = Ret (true, e1)
    /\ sahf_execute cmp_regs e1 = Ret (true, e2) /\ flags_equiv (flags e2) Flags.new.
Proof.
  destruct (lahf_sahf_roundtrip cmp_regs cmp_regs (sample_state 0x1020)) as (e1 & e2 & E1 & E2 & Hf & _); [sample_side |].
  exists e1, e2. split_and!; [exact E1 | exact E2 | exact Hf].
Defined.

Lemma loop_terminates_witness :
  fst (decrements 32 3 (sample_state 0x1020)) = 0 /\ fst (decrements 32 2 (sample_state 0x1020)) <> 0.
Proof.
  assert (words (regs (sample_state 0x1020))) as Hr by (apply sample_wf_emu; split; lia).
  pose proof (loop_terminates 32 (sample_state 0x1020) (or_intror (or_introl eq_refl)) Hr) as Hl.
  split.
  - apply (Hl 3%nat); [lia | vm_compute; discriminate | reflexivity].
  - intros E. apply (Hl 2%nat) in E; [discriminate E | lia | vm_compute; discriminate].
Defined.

(** ** A conditional move through its own destination *)

(** [cmovne eax, [rax+d]] with the displacement that makes the address 0x1000. *)
Definition cmovne_self : Instruction :=
  sample_ins 2 OpRegister OpMemory EAX EAX RAX (wsub 0x1000 0x1122334455667788) 4 0.

(** The source operand can be read, yet the instruction faults: the handlers of
    the conditional moves first store operand 0 back, which zero-extends EAX into
    RAX, and compute the address of operand 1 from the changed RAX. *)
Lemma cmov_source_clobbered :
  source cmovne_self 1 32 (sample_state 0x1020)
  /\ exists e', move_handler CC_NE cmovne_self (sample_state 0x1020) = Ret (false, e').
Proof. split; [mem_operand Dword |]. eexists. vm_compute. reflexivity. Qed.
