(* ===== verification/Heap.v ===== *)
(** * The guest heap allocator ([maps/heap_allocation.rs])

    [O1Heap]: an arena cut into fragments that form a doubly linked list in
    address order; free fragments also form doubly linked lists, one per size
    class, and [hashes] finds a fragment by its offset.  Fragments are shared
    nodes ([Rc<RefCell<Fragment>>] and [Weak]), so they live in a store here and
    pointers are locations in it.  A mutable borrow of a node that is already
    borrowed gives [Panic]. *)

From stdpp Require Import gmap sorting.
From S2P Require Import Prelude.

(** ** Data *)

Definition loc := nat.

Record Fragment := mkFragment {
  offset : Z; size : Z; used : bool;
  next : option loc; prev : option loc;
  next_free : option loc; prev_free : option loc }.

(** [Fragment::new] *)
Definition Fragment_new (o s : Z) : Fragment := mkFragment o s false None None None None.

Definition set_size (v : Z) (f : Fragment) := mkFragment (offset f) v (used f) (next f) (prev f) (next_free f) (prev_free f).
Definition set_used (v : bool) (f : Fragment) := mkFragment (offset f) (size f) v (next f) (prev f) (next_free f) (prev_free f).
Definition set_next (v : option loc) (f : Fragment) := mkFragment (offset f) (size f) (used f) v (prev f) (next_free f) (prev_free f).
Definition set_prev (v : option loc) (f : Fragment) := mkFragment (offset f) (size f) (used f) (next f) v (next_free f) (prev_free f).
Definition set_next_free (v : option loc) (f : Fragment) := mkFragment (offset f) (size f) (used f) (next f) (prev f) v (prev_free f).
Definition set_prev_free (v : option loc) (f : Fragment) := mkFragment (offset f) (size f) (used f) (next f) (prev f) (next_free f) v.

Record O1HeapDiagnostics := mkDiagnostics {
  capacity : Z; allocated : Z; peak_allocated : Z; peak_request_size : Z; oom_count : Z }.

(** [node] is the store; locations from [fresh_loc] on are not in use and those in
    [dropped] have been deallocated. *)
Record O1Heap := mkHeap {
  node : loc -> Fragment;
  fresh_loc : loc;
  dropped : gset loc;
  base : Z;
  bins : list (option loc);
  hashes : gmap Z loc;
  nonempty_bin_mask : Z;
  diagnostics : O1HeapDiagnostics }.

Record ReallocResult := mkRealloc { new_addr : Z; copy_size : Z }.

Definition NUM_BINS_MAX : Z := 64 * 8.
Definition O1HEAP_ALIGNMENT : Z := 256.
Definition FRAGMENT_SIZE_MIN : Z := 256.

(** ** State updates *)

Definition set_bins (v : list (option loc)) (h : O1Heap) : O1Heap :=
  mkHeap (node h) (fresh_loc h) (dropped h) (base h) v (hashes h) (nonempty_bin_mask h) (diagnostics h).
Definition set_mask (v : Z) (h : O1Heap) : O1Heap :=
  mkHeap (node h) (fresh_loc h) (dropped h) (base h) (bins h) (hashes h) v (diagnostics h).
Definition set_hashes (v : gmap Z loc) (h : O1Heap) : O1Heap :=
  mkHeap (node h) (fresh_loc h) (dropped h) (base h) (bins h) v (nonempty_bin_mask h) (diagnostics h).
Definition set_diagnostics (v : O1HeapDiagnostics) (h : O1Heap) : O1Heap :=
  mkHeap (node h) (fresh_loc h) (dropped h) (base h) (bins h) (hashes h) (nonempty_bin_mask h) v.

Definition set_allocated (v : Z) (d : O1HeapDiagnostics) : O1HeapDiagnostics :=
  mkDiagnostics (capacity d) v (peak_allocated d) (peak_request_size d) (oom_count d).
Definition set_peak_allocated (v : Z) (d : O1HeapDiagnostics) : O1HeapDiagnostics :=
  mkDiagnostics (capacity d) (allocated d) v (peak_request_size d) (oom_count d).
Definition set_peak_request (v : Z) (d : O1HeapDiagnostics) : O1HeapDiagnostics :=
  mkDiagnostics (capacity d) (allocated d) (peak_allocated d) v (oom_count d).
Definition count_oom (h : O1Heap) : O1Heap :=
  let d := diagnostics h in
  set_diagnostics (mkDiagnostics (capacity d) (allocated d) (peak_allocated d) (peak_request_size d) (wadd (oom_count d) 1)) h.

(** [l.borrow_mut()] and an assignment to a field *)
Definition modify (l : loc) (f : Fragment -> Fragment) (h : O1Heap) : O1Heap :=
  mkHeap (fun k => if decide (k = l) then f (node h l) else node h k) (fresh_loc h) (dropped h) (base h) (bins h) (hashes h)
    (nonempty_bin_mask h) (diagnostics h).
Definition modify_opt (o : option loc) (f : Fragment -> Fragment) (h : O1Heap) : O1Heap :=
  match o with Some l => modify l f h | None => h end.

(** [Rc::new(RefCell::new(..))] *)
Definition new_node (f : Fragment) (h : O1Heap) : loc * O1Heap :=
  (fresh_loc h,
   modify (fresh_loc h) (fun _ => f)
     (mkHeap (node h) (S (fresh_loc h)) (dropped h) (base h) (bins h) (hashes h) (nonempty_bin_mask h) (diagnostics h))).

(** A node borrowed while [l] is borrowed mutably, or the converse. *)
Definition distinct (l k : loc) : outcome unit := if decide (l = k) then Panic else Ret tt.

(** [Weak::upgrade] *)
Definition upgrade (w : option loc) (h : O1Heap) : option loc :=
  match w with Some l => if decide (l ∈ dropped h) then None else Some l | None => None end.

(** *** Reference counts *)

(** The strong references to [l]: [hashes], the heads of the bins, and the forward
    links of the nodes that exist. *)
Definition held (l : loc) (h : O1Heap) : bool :=
  bool_decide (map_Exists (fun _ k => k = l) (hashes h))
  || existsb (fun b => bool_decide (b = Some l)) (bins h)
  || existsb (fun k => negb (bool_decide (k ∈ dropped h))
                       && (bool_decide (next (node h k) = Some l) || bool_decide (next_free (node h k) = Some l)))
       (seq 0 (fresh_loc h)).

Definition set_dropped (v : gset loc) (h : O1Heap) : O1Heap :=
  mkHeap (node h) (fresh_loc h) v (base h) (bins h) (hashes h) (nonempty_bin_mask h) (diagnostics h).

(** The nodes whose count is zero are dropped, and with them the references they
    hold; a chain of drops is at most as long as there are nodes. *)
Definition drop_unheld (h : O1Heap) : O1Heap :=
  set_dropped (dropped h ∪ list_to_set (filter (fun l => held l h = false) (seq 0 (fresh_loc h)))) h.
Definition end_of_scope (h : O1Heap) : O1Heap := Nat.iter (fresh_loc h) drop_unheld h.

(** ** Integers *)

Definition leading_zeros (x : Z) : Z := if x =? 0 then 64 else 63 - Z.log2 x.

Fixpoint pos_trailing_zeros (p : positive) : Z := match p with xO p => 1 + pos_trailing_zeros p | _ => 0 end.
Definition trailing_zeros (x : Z) : Z := match x with Zpos p => pos_trailing_zeros p | _ => 64 end.

Definition is_power_of_two (x : Z) : bool := (0 <? x) && (x =? 2 ^ Z.log2 x).

Definition log2_floor (x : Z) : Z := if x =? 0 then 0 else 64 - 1 - leading_zeros x.

Definition round_up_to_power_of_2 (x : Z) : Z :=
  if x <=? 1 then 1
  else
    let highest := shl 64 1 (64 - 1) in
    if highest <? x then 0 else if is_power_of_two x then x else shl 64 1 (64 - leading_zeros x).

Definition log2_ceil (x : Z) : Z := if x <=? 1 then 0 else log2_floor (x - 1) + 1.

(** [size_of::<O1Heap>()], padded; the size is the compiler's. *)
Definition MIN_ARENA_SIZE (instance_size : Z) : Z :=
  Z.land (instance_size + O1HEAP_ALIGNMENT - 1) (bnot 64 (O1HEAP_ALIGNMENT - 1)) + FRAGMENT_SIZE_MIN.

(** The size of the fragment that serves a request; 0 when it overflows. *)
Definition fragment_size_for (amount : Z) : Z :=
  let raw := round_up_to_power_of_2 amount in
  if raw =? 0 then 0 else Z.max raw FRAGMENT_SIZE_MIN.

(** ** Bins *)

Definition get_bin (idx : Z) (h : O1Heap) : outcome (option loc) :=
  match bins h !! Z.to_nat idx with Some b => Ret b | None => Panic end.
Definition put_bin (idx : Z) (b : option loc) (h : O1Heap) : outcome O1Heap :=
  match bins h !! Z.to_nat idx with Some _ => Ret (set_bins (<[Z.to_nat idx := b]> (bins h)) h) | None => Panic end.

Definition rebin (fragment : loc) (h : O1Heap) : outcome O1Heap :=
  let sz := size (node h fragment) in
  if sz <? FRAGMENT_SIZE_MIN then Ret h
  else
    let idx := log2_floor (sz / FRAGMENT_SIZE_MIN) in
    if NUM_BINS_MAX <=? idx then Ret h
    else
      b ← get_bin idx h;
      h ← put_bin idx None h;
      let h := modify fragment (set_next_free b) h in
      let h := modify fragment (set_prev_free None) h in
      h ← (match next_free (node h fragment) with
           | Some nx => _ ← distinct fragment nx; Ret (modify nx (set_prev_free (Some fragment)) h)
           | None => Ret h
           end);
      h ← put_bin idx (Some fragment) h;
      Ret (set_mask (Z.lor (nonempty_bin_mask h) (shl 64 1 idx)) h).

Definition unbin (fragment : loc) (h : O1Heap) : outcome O1Heap :=
  let sz := size (node h fragment) in
  if sz <? FRAGMENT_SIZE_MIN then Ret h
  else
    let idx := log2_floor (sz / FRAGMENT_SIZE_MIN) in
    if NUM_BINS_MAX <=? idx then Ret h
    else
      h ← (match next_free (node h fragment) with
           | Some nx => _ ← distinct fragment nx; Ret (modify nx (set_prev_free (prev_free (node h fragment))) h)
           | None => Ret h
           end);
      match prev_free (node h fragment) with
      | Some pv =>
          match upgrade (Some pv) h with
          | Some pv => _ ← distinct fragment pv; Ret (modify pv (set_next_free (next_free (node h fragment))) h)
          | None => Ret h
          end
      | None =>
          let b := next_free (node h fragment) in
          h ← put_bin idx b h;
          Ret (match b with
               | None => set_mask (Z.land (nonempty_bin_mask h) (bnot 64 (shl 64 1 idx))) h
               | Some _ => h
               end)
      end.

(** ** Creation *)

(** [O1Heap::new] *)
Definition O1Heap_new (instance_size b sz : Z) : outcome (option O1Heap) :=
  if sz <? wrap 32 (MIN_ARENA_SIZE instance_size) then Ret None
  else
    let h := mkHeap (fun _ => Fragment_new 0 0) 0%nat ∅ b (replicate (Z.to_nat NUM_BINS_MAX) None) ∅ 0
               (mkDiagnostics sz 0 0 0 0) in
    let (initial_fragment, h) := new_node (Fragment_new 0 sz) h in
    let h := set_hashes (<[0 := initial_fragment]> (hashes h)) h in
    h ← rebin initial_fragment h;
    Ret (Some h).

(** ** Allocation *)

(** A fragment of [left] bytes after [l], linked into the address order and
    binned: the tail of a fragment that is cut. *)
Definition link_after (l : loc) (o left : Z) (after : option loc) (h : O1Heap) : loc * O1Heap :=
  let (n, h) := new_node (Fragment_new o left) h in
  let h := modify n (set_next after) h in
  let h := modify n (set_prev (Some l)) h in
  let h := modify_opt after (set_prev (Some n)) h in
  (n, modify l (set_next (Some n)) h).

Definition note_peak (h : O1Heap) : O1Heap :=
  set_diagnostics (set_peak_allocated (Z.max (peak_allocated (diagnostics h)) (allocated (diagnostics h))) (diagnostics h)) h.

Definition add_allocated (n : Z) (h : O1Heap) : O1Heap :=
  set_diagnostics (set_allocated (wadd (allocated (diagnostics h)) n) (diagnostics h)) h.

(** The fragment, out of its bin, is cut to the size and handed out. *)
Definition carve (fragment_size : Z) (frag : loc) (h : O1Heap) : outcome (option Z * O1Heap) :=
  let frag_size := size (node h frag) in
  let frag_offset := offset (node h frag) in
  let h := modify frag (set_size (wrap 32 fragment_size)) h in
  let leftover := wrap 32 (frag_size - wrap 32 fragment_size) in
  h ← (if FRAGMENT_SIZE_MIN <=? leftover then
         let o := wrap 32 (frag_offset + wrap 32 fragment_size) in
         let (new_frag, h) := link_after frag o leftover (next (node h frag)) h in
         let h := set_hashes (<[o := new_frag]> (hashes h)) h in
         rebin new_frag h
       else Ret h);
  let h := modify frag (set_used true) h in
  let h := modify frag (set_size (wrap 32 fragment_size)) h in
  let h := set_hashes (<[frag_offset := frag]> (hashes h)) h in
  let h := note_peak (add_allocated fragment_size h) in
  Ret (Some (wadd frag_offset (base h)), h).

Definition allocate_body (amount : Z) (h : O1Heap) : outcome (option Z * O1Heap) :=
  if amount =? 0 then Ret (None, h)
  else
    let fragment_size := fragment_size_for amount in
    if (fragment_size =? 0) || (capacity (diagnostics h) <? fragment_size) then Ret (None, count_oom h)
    else
      let optimal_bin_index := log2_ceil (fragment_size / FRAGMENT_SIZE_MIN) in
      let candidate_bin_mask := bnot 64 (wsub (shl 64 1 optimal_bin_index) 1) in
      let suitable_bins := Z.land (nonempty_bin_mask h) candidate_bin_mask in
      if negb (suitable_bins =? 0) then
        let smallest_bin_index := trailing_zeros suitable_bins in
        if smallest_bin_index <? NUM_BINS_MAX then
          b ← get_bin smallest_bin_index h;
          h ← put_bin smallest_bin_index None h;
          match b with
          | None => Panic
          | Some frag =>
              h ← unbin frag h;
              carve fragment_size frag h
          end
        else Ret (None, h)
      else Ret (None, h).

(** The locals of a method go out of scope when it returns. *)
Definition scoped {A} (r : outcome (A * O1Heap)) : outcome (A * O1Heap) := '(a, h) ← r; Ret (a, end_of_scope h).

Definition allocate (amount : Z) (h : O1Heap) : outcome (option Z * O1Heap) := scoped (allocate_body amount h).

(** ** Queries *)

Definition find_fragment_by_offset (o : Z) (h : O1Heap) : option loc := hashes h !! o.

(** [(addr - self.base) as u32] *)
Definition offset_of (addr : Z) (h : O1Heap) : Z := wrap 32 (wsub addr (base h)).

Definition check_fragment_exists (addr : Z) (h : O1Heap) : bool :=
  if addr <? base h then false
  else match hashes h !! offset_of addr h with Some frag => used (node h frag) | None => false end.

Definition allocation_size (addr : Z) (h : O1Heap) : option Z :=
  if addr <? base h then None
  else match hashes h !! offset_of addr h with
       | Some frag => if used (node h frag) then Some (size (node h frag)) else None
       | None => None
       end.

(** ** Release *)

Definition is_free (o : option loc) (h : O1Heap) : bool :=
  match o with Some l => negb (used (node h l)) | None => false end.

(** The freed fragment is joined with its free neighbours and binned. *)
Definition coalesce (frag : loc) (h : O1Heap) : outcome O1Heap :=
  let join_left := is_free (upgrade (prev (node h frag)) h) h in
  let join_right := is_free (next (node h frag)) h in
  match upgrade (prev (node h frag)) h, next (node h frag), join_left, join_right with
  | Some pv, Some nx, true, true =>
      h ← unbin pv h;
      h ← unbin nx h;
      _ ← distinct pv frag;
      _ ← distinct pv nx;
      let h := modify pv (set_size (wrap 32 (size (node h pv) + wrap 32 (size (node h frag) + size (node h nx))))) h in
      let h := modify frag (set_size 0) h in
      let h := modify nx (set_size 0) h in
      let next_next := next (node h nx) in
      let h := modify pv (set_next next_next) h in
      let h := modify_opt next_next (set_prev (Some pv)) h in
      rebin pv h
  | Some pv, _, true, _ =>
      h ← unbin pv h;
      _ ← distinct pv frag;
      let h := modify pv (set_size (wrap 32 (size (node h pv) + size (node h frag)))) h in
      let h := modify frag (set_size 0) h in
      let nx := next (node h frag) in
      let h := modify pv (set_next nx) h in
      let h := modify_opt nx (set_prev (Some pv)) h in
      rebin pv h
  | _, Some nx, _, true =>
      h ← unbin nx h;
      _ ← distinct frag nx;
      let h := modify frag (set_size (wrap 32 (size (node h frag) + size (node h nx)))) h in
      let h := modify nx (set_size 0) h in
      let next_next := next (node h nx) in
      let h := modify frag (set_next next_next) h in
      let h := modify_opt next_next (set_prev (Some frag)) h in
      rebin frag h
  | _, _, _, _ => rebin frag h
  end.

Definition free_body (address : Z) (h : O1Heap) : outcome O1Heap :=
  match find_fragment_by_offset (offset_of address h) h with
  | None => Ret h
  | Some frag =>
      if negb (used (node h frag)) then Ret h
      else
        let frag_size := size (node h frag) in
        if (frag_size <? FRAGMENT_SIZE_MIN) || (wrap 32 (capacity (diagnostics h)) <? frag_size)
           || negb (frag_size mod FRAGMENT_SIZE_MIN =? 0) then Ret h
        else if allocated (diagnostics h) <? frag_size then Ret h
        else
          let h := set_diagnostics (set_allocated (allocated (diagnostics h) - frag_size) (diagnostics h)) h in
          let h := modify frag (set_used false) h in
          let h := set_hashes (delete (offset (node h frag)) (hashes h)) h in
          coalesce frag h
  end.

Definition free (address : Z) (h : O1Heap) : outcome O1Heap := h ← free_body address h; Ret (end_of_scope h).

(** ** Resizing *)

(** The size of a neighbour, 0 when there is none. *)
Definition size_or_0 (o : option loc) (h : O1Heap) : Z := match o with Some l => size (node h l) | None => 0 end.

(** A neighbour absorbed into another fragment. *)
Definition retire (l : loc) (h : O1Heap) : O1Heap :=
  let o := offset (node h l) in
  let h := modify l (set_size 0) h in
  set_hashes (delete o (hashes h)) h.

(** Case 1: the request fits the fragment. *)
Definition shrink (address : Z) (frag : loc) (o frag_size new_frag_size : Z) (next_rc : option loc)
    (next_is_free : bool) (next_size : Z) (h : O1Heap) : outcome (option ReallocResult * O1Heap) :=
  let leftover := frag_size - new_frag_size in
  if FRAGMENT_SIZE_MIN <=? leftover then
    if allocated (diagnostics h) <? leftover then Ret (None, h)
    else
      let h := set_diagnostics (set_allocated (allocated (diagnostics h) - leftover) (diagnostics h)) h in
      '(next_next, h) ← (match next_rc, next_is_free with
                        | Some nx, true =>
                            h ← unbin nx h;
                            let next_next := next (node h nx) in
                            Ret (next_next, retire nx h)
                        | None, true => Panic
                        | _, false => Ret (next (node h frag), h)
                        end);
      let o' := wrap 32 (o + wrap 32 new_frag_size) in
      let (new_frag, h) := link_after frag o' (wrap 32 (if next_is_free then leftover + next_size else leftover)) next_next h in
      let h := modify frag (set_size (wrap 32 new_frag_size)) h in
      let h := set_hashes (<[o' := new_frag]> (hashes h)) h in
      h ← rebin new_frag h;
      Ret (Some (mkRealloc address 0), h)
  else Ret (Some (mkRealloc address 0), h).

(** Case 2: the free fragment on the right is consumed. *)
Definition grow_forward (address : Z) (frag : loc) (o frag_size new_frag_size : Z) (nx : loc) (next_size : Z)
    (h : O1Heap) : outcome (option ReallocResult * O1Heap) :=
  h ← unbin nx h;
  let next_next := next (node h nx) in
  let h := retire nx h in
  let leftover := frag_size + next_size - new_frag_size in
  h ← (if FRAGMENT_SIZE_MIN <=? leftover then
         let o' := wrap 32 (o + wrap 32 new_frag_size) in
         let (new_frag, h) := link_after frag o' (wrap 32 leftover) next_next h in
         let h := modify frag (set_size (wrap 32 new_frag_size)) h in
         let h := set_hashes (<[o' := new_frag]> (hashes h)) h in
         h ← rebin new_frag h;
         Ret (add_allocated (new_frag_size - frag_size) h)
       else
         let h := modify frag (set_next next_next) h in
         let h := modify_opt next_next (set_prev (Some frag)) h in
         let h := modify frag (set_size (wrap 32 (frag_size + next_size))) h in
         Ret (add_allocated next_size h));
  Ret (Some (mkRealloc address 0), note_peak h).

(** Case 3: the free fragment on the left becomes the allocation. *)
Definition grow_backward (frag : loc) (o frag_size new_frag_size : Z) (pv : loc) (prev_size : Z)
    (next_rc : option loc) (next_is_free : bool) (next_size : Z) (h : O1Heap)
    : outcome (option ReallocResult * O1Heap) :=
  h ← unbin pv h;
  let prev_offset := offset (node h pv) in
  '(after, h) ← (match next_rc, next_is_free with
                | Some nx, true => h ← unbin nx h; Ret (next (node h nx), h)
                | None, true => Panic
                | _, false => Ret (next (node h frag), h)
                end);
  let leftover := prev_size + frag_size + next_size - new_frag_size in
  let h := modify pv (set_used true) h in
  h ← (if FRAGMENT_SIZE_MIN <=? leftover then
         let o' := wrap 32 (prev_offset + wrap 32 new_frag_size) in
         let (new_frag, h) := link_after pv o' (wrap 32 leftover) after h in
         let h := modify pv (set_size (wrap 32 new_frag_size)) h in
         let h := set_hashes (<[o' := new_frag]> (hashes h)) h in
         h ← rebin new_frag h;
         Ret (add_allocated (new_frag_size - frag_size) h)
       else
         let h := modify pv (set_next after) h in
         let h := modify_opt after (set_prev (Some pv)) h in
         let h := modify pv (set_size (wrap 32 (prev_size + frag_size + next_size))) h in
         Ret (add_allocated (prev_size + next_size) h));
  let h := modify frag (set_used false) h in
  let h := modify frag (set_size 0) h in
  let h := set_hashes (delete o (hashes h)) h in
  let h := match next_rc, next_is_free with Some nx, true => retire nx h | _, _ => h end in
  let h := set_hashes (<[prev_offset := pv]> (hashes h)) h in
  Ret (Some (mkRealloc (wadd (base h) prev_offset) frag_size), note_peak h).

Definition reallocate_body (address new_amount : Z) (h : O1Heap) : outcome (option ReallocResult * O1Heap) :=
  if new_amount =? 0 then h ← free address h; Ret (None, h)
  else
    let d := diagnostics h in
    let h := set_diagnostics (set_peak_request (Z.max (peak_request_size d) new_amount) d) h in
    if (address <? base h) || (2 ^ 32 - 1 <? address - base h) then Ret (None, h)
    else
      let o := address - base h in
      match find_fragment_by_offset o h with
      | None => Ret (None, h)
      | Some frag =>
          if negb (used (node h frag)) then Ret (None, h)
          else
            let frag_size := size (node h frag) in
            if (frag_size <? FRAGMENT_SIZE_MIN) || (capacity (diagnostics h) <? frag_size)
               || negb (frag_size mod FRAGMENT_SIZE_MIN =? 0) then Ret (None, h)
            else
              let new_frag_size := fragment_size_for new_amount in
              if (new_frag_size =? 0) || (capacity (diagnostics h) <? new_amount)
                 || (capacity (diagnostics h) <? new_frag_size) then Ret (None, count_oom h)
              else
                let prev_rc := upgrade (prev (node h frag)) h in
                let next_rc := next (node h frag) in
                let prev_is_free := is_free prev_rc h in
                let next_is_free := is_free next_rc h in
                let prev_size := size_or_0 prev_rc h in
                let next_size := size_or_0 next_rc h in
                if new_frag_size <=? frag_size then
                  shrink address frag o frag_size new_frag_size next_rc next_is_free next_size h
                else if next_is_free && (new_frag_size <=? frag_size + next_size) then
                  match next_rc with
                  | Some nx => grow_forward address frag o frag_size new_frag_size nx next_size h
                  | None => Panic
                  end
                else if prev_is_free && (new_frag_size <=? prev_size + frag_size + next_size) then
                  match prev_rc with
                  | Some pv => grow_backward frag o frag_size new_frag_size pv prev_size next_rc next_is_free next_size h
                  | None => Panic
                  end
                else
                  '(a, h) ← allocate_body new_amount h;
                  match a with
                  | None => Ret (None, h)
                  | Some a => h ← free_body address h; Ret (Some (mkRealloc a frag_size), h)
                  end
      end.

Definition reallocate (address new_amount : Z) (h : O1Heap) : outcome (option ReallocResult * O1Heap) :=
  scoped (reallocate_body address new_amount h).

(** ** Snapshots *)

Record O1HeapSnapshot := mkSnapshot {
  snap_base : Z; snap_diagnostics : O1HeapDiagnostics; fragments : list (Z * Z * bool); hash_keys : list Z }.

(** The iteration order of a [HashMap] is unspecified: [pick] is the first value. *)
Section Snapshot.
Variable pick : gmap Z loc -> option loc.

Definition any_fragment (h : O1Heap) : option loc :=
  match pick (hashes h) with Some l => Some l | None => list_find is_Some (bins h) ≫= fun b => b.2 end.

(** Loops along the links; a list has at most as many nodes as the store. *)
Fixpoint walk_prev (fuel : nat) (cur : loc) (h : O1Heap) : outcome loc :=
  match fuel with
  | O => Panic
  | S n => match upgrade (prev (node h cur)) h with Some p => walk_prev n p h | None => Ret cur end
  end.

Definition first_fragment (h : O1Heap) : outcome (option loc) :=
  match any_fragment h with
  | None => Ret None
  | Some cur => l ← walk_prev (S (fresh_loc h)) cur h; Ret (Some l)
  end.

Fixpoint walk_next (fuel : nat) (cur : option loc) (h : O1Heap) : outcome (list (Z * Z * bool)) :=
  match cur with
  | None => Ret []
  | Some l =>
      match fuel with
      | O => Panic
      | S n =>
          rest ← walk_next n (next (node h l)) h;
          Ret ((offset (node h l), size (node h l), used (node h l)) :: rest)
      end
  end.

Definition snapshot (h : O1Heap) : outcome O1HeapSnapshot :=
  cur ← first_fragment h;
  fragments ← walk_next (fresh_loc h) cur h;
  let hash_keys := merge_sort Z.le (map fst (map_to_list (hashes h))) in
  Ret (mkSnapshot (base h) (diagnostics h) fragments hash_keys).

(** The loop over the fragments: the last one is [prev_rc]. *)
Fixpoint restore (frags : list (Z * Z * bool)) (prev_rc : option loc) (by_offset : gmap Z loc) (h : O1Heap)
    : outcome (gmap Z loc * O1Heap) :=
  match frags with
  | [] => Ret (by_offset, h)
  | (o, s, u) :: frags =>
      let (frag, h) := new_node (Fragment_new o s) h in
      let h := modify frag (set_used u) h in
      let h := match prev_rc with
               | Some p => modify frag (set_prev (Some p)) (modify p (set_next (Some frag)) h)
               | None => h
               end in
      h ← (if negb u then rebin frag h else Ret h);
      restore frags (Some frag) (<[o := frag]> by_offset) h
  end.

Definition from_snapshot (snap : O1HeapSnapshot) : outcome O1Heap :=
  let h := mkHeap (fun _ => Fragment_new 0 0) 0%nat ∅ (snap_base snap) (replicate (Z.to_nat NUM_BINS_MAX) None) ∅ 0
             (snap_diagnostics snap) in
  '(by_offset, h) ← restore (fragments snap) None ∅ h;
  let hs := foldl (fun m k => match by_offset !! k with Some frag => <[k := frag]> m | None => m end)
              (hashes h) (hash_keys snap) in
  Ret (end_of_scope (set_hashes hs h)).

Definition clone (h : O1Heap) : outcome O1Heap := s ← snapshot h; from_snapshot s.
End Snapshot.
