(* ===== verification/HeapLinks.v ===== *)
(** * Doubly linked lists and tilings

    What the allocator's proofs need about linked lists in a store and about
    fragments that tile the arena: how both change when a run of nodes is
    replaced. *)

From stdpp Require Import gmap.
From S2P Require Import Prelude Heap.

(** ** Linked lists *)

(** The head and last element of a list, or a default. *)
Definition head_or {A} (d : option A) (l : list A) : option A := match l with [] => d | x :: _ => Some x end.
Definition last_or {A} (d : option A) (l : list A) : option A := match last l with Some x => Some x | None => d end.

(** The nodes [ls] are linked to each other in both directions, between [p] and [n]. *)
Fixpoint seg (nx pv : loc -> option loc) (p : option loc) (ls : list loc) (n : option loc) : Prop :=
  match ls with
  | [] => True
  | l :: ls => pv l = p /\ nx l = head_or n ls /\ seg nx pv (Some l) ls n
  end.

Lemma head_or_app {A} d (l k : list A) : head_or d (l ++ k) = head_or (head_or d k) l.
Proof. now destruct l. Qed.

Lemma last_or_cons {A} d x (l : list A) : last_or d (x :: l) = last_or (Some x) l.
Proof. unfold last_or. rewrite last_cons. now destruct (last l). Qed.

Lemma last_or_snoc {A} d (l : list A) x : last_or d (l ++ [x]) = Some x.
Proof. unfold last_or. now rewrite last_snoc. Qed.

Lemma head_or_None {A} (l : list A) : head_or None l = head l.
Proof. now destruct l. Qed.

Lemma last_or_None {A} (l : list A) : last_or None l = last l.
Proof. unfold last_or. now destruct (last l). Qed.

Lemma seg_app nx pv p l k n :
  seg nx pv p (l ++ k) n <-> seg nx pv p l (head_or n k) /\ seg nx pv (last_or p l) k n.
Proof.
  revert p. induction l as [|x l IH]; intros p; cbn; [unfold last_or; cbn; tauto |].
  rewrite IH, last_or_cons, head_or_app. tauto.
Qed.

Lemma seg_ext nx pv nx' pv' p ls n :
  (forall l, l ∈ ls -> nx' l = nx l /\ pv' l = pv l) -> seg nx pv p ls n -> seg nx' pv' p ls n.
Proof.
  revert p. induction ls as [|x ls IH]; intros p He; cbn; [tauto |]. intros (Hp & Hn & Hs).
  destruct (He x) as [-> ->]; [set_solver |]. split_and!; auto. apply IH; auto. intros l Hl. apply He. set_solver.
Qed.

(** Only the link into the first node changes. *)
Lemma seg_first nx pv nx' pv' p p' ls n :
  NoDup ls -> seg nx pv p ls n -> (forall l, l ∈ ls -> nx' l = nx l) ->
  (forall l, l ∈ ls -> pv' l = if decide (head ls = Some l) then p' else pv l) -> seg nx' pv' p' ls n.
Proof.
  destruct ls as [|x ls]; cbn; [tauto |]. intros Hnd (Hp & Hn & Hs) Enx Epv. apply NoDup_cons in Hnd as [Hx Hnd].
  split_and!; [rewrite Epv by set_solver; now rewrite decide_True | rewrite Enx by set_solver; exact Hn |].
  eapply seg_ext; [|exact Hs]. intros l Hl. rewrite Enx, Epv, decide_False by set_solver. auto.
Qed.

(** Only the link out of the last node changes. *)
Lemma seg_last nx pv nx' pv' p ls n n' :
  NoDup ls -> seg nx pv p ls n -> (forall l, l ∈ ls -> pv' l = pv l) ->
  (forall l, l ∈ ls -> nx' l = if decide (last ls = Some l) then n' else nx l) -> seg nx' pv' p ls n'.
Proof.
  revert p. induction ls as [|x ls IH]; intros p; cbn [seg]; [tauto |]. intros Hnd (Hp & Hn & Hs) Epv Enx.
  apply NoDup_cons in Hnd as [Hx Hnd]. rewrite Epv by set_solver. split; [exact Hp |].
  rewrite Enx by set_solver. destruct ls as [|y ls].
  - cbn. rewrite decide_True by reflexivity. auto.
  - assert (last (x :: y :: ls) = last (y :: ls)) as El by reflexivity. rewrite El in *.
    assert (last (y :: ls) <> Some x) as Hne.
    { intros E. apply Hx. apply last_Some_elem_of. exact E. }
    rewrite decide_False by exact Hne. split; [exact Hn |]. apply IH; auto; intros l Hl; [apply Epv | apply Enx]; set_solver.
Qed.

Lemma seg_neighbours nx pv a l b : seg nx pv None (a ++ l :: b) None -> pv l = last a /\ nx l = head b.
Proof. rewrite seg_app. cbn. rewrite head_or_None, last_or_None. tauto. Qed.

(** The nodes [dead] after [s] are replaced by [mid]. *)
Lemma seg_splice nx pv nx' pv' a s dead mid b :
  NoDup (a ++ s :: dead ++ b) -> seg nx pv None (a ++ s :: dead ++ b) None ->
  (forall l, l ∈ a -> nx' l = nx l /\ pv' l = pv l) -> pv' s = pv s -> nx' s = head_or (head b) mid ->
  seg nx' pv' (Some s) mid (head b) ->
  (forall l, l ∈ b -> nx' l = nx l) ->
  (forall l, l ∈ b -> pv' l = if decide (head b = Some l) then last_or (Some s) mid else pv l) ->
  seg nx' pv' None (a ++ s :: mid ++ b) None.
Proof.
  intros Hnd Hs Ea Epv Enx Hmid Enb Epb. apply seg_app in Hs as [Ha Hs]. cbn in Hs. destruct Hs as (Hp & _ & Hs).
  apply seg_app in Hs as [_ Hb]. apply seg_app. cbn. split; [|split_and!].
  - eapply seg_ext; [exact Ea | exact Ha].
  - now rewrite Epv.
  - now rewrite head_or_app, head_or_None.
  - apply seg_app. rewrite head_or_None. split; [exact Hmid |]. eapply seg_first; [|exact Hb | exact Enb | exact Epb].
    apply NoDup_app in Hnd as (_ & _ & Hnd). apply NoDup_cons in Hnd as [_ Hnd]. apply NoDup_app in Hnd. tauto.
Qed.

(** ** Tilings *)

(** The fragments [ls] follow each other from [o] to [e], in whole units. *)
Fixpoint tiles (off sz : loc -> Z) (o : Z) (ls : list loc) (e : Z) : Prop :=
  match ls with
  | [] => o = e
  | l :: ls => off l = o /\ 0 < sz l /\ sz l mod FRAGMENT_SIZE_MIN = 0 /\ tiles off sz (o + sz l) ls e
  end.

Lemma tiles_app off sz o l k e :
  tiles off sz o (l ++ k) e <-> exists m, tiles off sz o l m /\ tiles off sz m k e.
Proof.
  revert o. induction l as [|x l IH]; intros o; cbn.
  - split; [eauto | intros (m & -> & ?); auto].
  - setoid_rewrite IH. split; [intros (? & ? & ? & m & ? & ?); eauto 10 | intros (m & (? & ? & ? & ?) & ?); eauto 10].
Qed.

Lemma tiles_ext off sz off' sz' o ls e :
  (forall l, l ∈ ls -> off' l = off l /\ sz' l = sz l) -> tiles off sz o ls e -> tiles off' sz' o ls e.
Proof.
  revert o. induction ls as [|x ls IH]; intros o He; cbn; [tauto |]. intros (Ho & Hp & Hm & Ht).
  destruct (He x) as [-> ->]; [set_solver |]. split_and!; auto. apply IH; auto. intros l Hl. apply He. set_solver.
Qed.

Lemma tiles_le off sz o ls e : tiles off sz o ls e -> o <= e.
Proof. revert o. induction ls as [|x ls IH]; intros o; cbn; [lia |]. intros (_ & ? & _ & Ht%IH). lia. Qed.

Lemma tiles_in off sz o ls e l : tiles off sz o ls e -> l ∈ ls -> o <= off l /\ 0 < sz l /\ off l + sz l <= e.
Proof.
  revert o. induction ls as [|x ls IH]; intros o; cbn; [set_solver |]. intros (Ho & Hp & _ & Ht) Hl.
  apply elem_of_cons in Hl as [-> | Hl]; [apply tiles_le in Ht; lia |]. apply IH in Ht; [lia | exact Hl].
Qed.

Lemma tiles_unit off sz o ls e l : tiles off sz o ls e -> l ∈ ls -> sz l mod FRAGMENT_SIZE_MIN = 0.
Proof.
  revert o. induction ls as [|x ls IH]; intros o; cbn; [set_solver |]. intros (_ & _ & Hm & Ht) Hl.
  apply elem_of_cons in Hl as [-> | Hl]; eauto.
Qed.

(** Fragments of a tiling are disjoint: distinct ones have distinct offsets. *)
Lemma tiles_apart off sz o ls e l k :
  NoDup ls -> tiles off sz o ls e -> l ∈ ls -> k ∈ ls -> l <> k -> off l + sz l <= off k \/ off k + sz k <= off l.
Proof.
  revert o. induction ls as [|x ls IH]; intros o; cbn; [set_solver |]. intros Hnd (Ho & Hp & _ & Ht) Hl Hk Hne.
  apply NoDup_cons in Hnd as [Hx Hnd]. apply elem_of_cons in Hl as [-> | Hl], Hk as [-> | Hk]; [congruence | | | eauto].
  - left. apply (tiles_in _ _ _ _ _ k) in Ht; [lia | auto].
  - right. apply (tiles_in _ _ _ _ _ l) in Ht; [lia | auto].
Qed.

Lemma tiles_offset_inj off sz o ls e l k :
  NoDup ls -> tiles off sz o ls e -> l ∈ ls -> k ∈ ls -> off l = off k -> l = k.
Proof.
  intros Hnd Ht Hl Hk E. destruct (decide (l = k)); [assumption |]. exfalso.
  pose proof (tiles_in _ _ _ _ _ l Ht Hl). pose proof (tiles_in _ _ _ _ _ k Ht Hk).
  destruct (tiles_apart _ _ _ _ _ l k Hnd Ht Hl Hk); auto; lia.
Qed.

(** The run [s :: dead] is cut anew into [s :: mid]. *)
Lemma tiles_splice off sz off' sz' o a s dead mid b e :
  tiles off sz o (a ++ s :: dead ++ b) e ->
  (forall l, l ∈ a ++ b -> off' l = off l /\ sz' l = sz l) -> off' s = off s ->
  (forall m, tiles off sz (off s) (s :: dead) m -> tiles off' sz' (off s) (s :: mid) m) ->
  tiles off' sz' o (a ++ s :: mid ++ b) e.
Proof.
  intros Ht He Eo Hm. apply tiles_app in Ht as (m1 & Ha & Hs).
  change (s :: dead ++ b) with ((s :: dead) ++ b) in Hs. apply tiles_app in Hs as (m2 & Hs & Hb).
  assert (m1 = off s) as -> by (cbn in Hs; symmetry; tauto).
  apply tiles_app. exists (off s). split; [eapply tiles_ext; [|exact Ha]; intros l Hl; apply He; set_solver |].
  change (s :: mid ++ b) with ((s :: mid) ++ b). apply tiles_app. exists m2. split; [now apply Hm |].
  eapply tiles_ext; [|exact Hb]. intros l Hl. apply He. set_solver.
Qed.
