(* ===== verification/HeapBins.v ===== *)
(** * The free lists of the allocator

    Each bin is a doubly linked list of the free fragments of one size class,
    and the mask tells which bins are not empty; [rebin] and [unbin] keep this
    and touch nothing else. *)

From stdpp Require Import gmap sorting.
From S2P Require Import Prelude Heap HeapLinks.

(** ** Integers *)

Lemma log2_floor_log2 x : 0 <= x -> log2_floor x = Z.log2 x.
Proof.
  intros Hx. unfold log2_floor, leading_zeros. destruct (Z.eqb_spec x 0) as [-> | Hne]; [reflexivity | lia].
Qed.

(** The bin of a fragment of [sz] bytes. *)
Definition class (sz : Z) : nat := Z.to_nat (Z.log2 (sz / FRAGMENT_SIZE_MIN)).

Lemma class_bound sz : FRAGMENT_SIZE_MIN <= sz < 2 ^ 32 -> 0 <= Z.log2 (sz / FRAGMENT_SIZE_MIN) < 24.
Proof.
  unfold FRAGMENT_SIZE_MIN. intros Hs. split; [apply Z.log2_nonneg |]. apply Z.log2_lt_pow2.
  - apply Z.div_str_pos. lia.
  - apply Z.div_lt_upper_bound; lia.
Qed.

Lemma class_floor sz : FRAGMENT_SIZE_MIN <= sz < 2 ^ 32 -> log2_floor (sz / FRAGMENT_SIZE_MIN) = Z.of_nat (class sz).
Proof.
  intros Hs. rewrite log2_floor_log2 by (apply Z.div_pos; unfold FRAGMENT_SIZE_MIN in *; lia).
  pose proof (class_bound sz Hs). unfold class. lia.
Qed.

Lemma class_lt sz : FRAGMENT_SIZE_MIN <= sz < 2 ^ 32 -> (class sz < 24)%nat.
Proof. intros Hs. pose proof (class_bound sz Hs). unfold class. lia. Qed.

(** ** Nodes *)

Lemma node_modify l f h k : node (modify l f h) k = if decide (k = l) then f (node h l) else node h k.
Proof. reflexivity. Qed.

(** What [rebin] and [unbin] leave alone. *)
Record same_core (h h' : O1Heap) : Prop := {
  sc_offset k : offset (node h' k) = offset (node h k);
  sc_size k : size (node h' k) = size (node h k);
  sc_used k : used (node h' k) = used (node h k);
  sc_next k : next (node h' k) = next (node h k);
  sc_prev k : prev (node h' k) = prev (node h k);
  sc_fresh : fresh_loc h' = fresh_loc h;
  sc_dropped : dropped h' = dropped h;
  sc_base : base h' = base h;
  sc_hashes : hashes h' = hashes h;
  sc_diag : diagnostics h' = diagnostics h }.

#[export] Instance same_core_preorder : PreOrder same_core.
Proof. split; [split; reflexivity | intros h1 h2 h3 [] []; split; congruence]. Qed.

Lemma same_core_free_links l h v : same_core h (modify l (set_next_free v) h) /\ same_core h (modify l (set_prev_free v) h).
Proof. split; split; try reflexivity; intros k; rewrite node_modify; case_decide; subst; reflexivity. Qed.

Lemma same_core_bins b h : same_core h (set_bins b h).
Proof. split; reflexivity. Qed.

Lemma same_core_mask m h : same_core h (set_mask m h).
Proof. split; reflexivity. Qed.

Lemma modify_free_links l h v k :
  next_free (node (modify l (set_next_free v) h) k) = (if decide (k = l) then v else next_free (node h k))
  /\ prev_free (node (modify l (set_next_free v) h) k) = prev_free (node h k)
  /\ next_free (node (modify l (set_prev_free v) h) k) = next_free (node h k)
  /\ prev_free (node (modify l (set_prev_free v) h) k) = (if decide (k = l) then v else prev_free (node h k)).
Proof. rewrite !node_modify. case_decide; subst; auto. Qed.

(** ** The invariant of the bins *)

(** The bins hold the fragments [F]; [bs i] lists bin [i]. *)
Record bins_ok (h : O1Heap) (bs : nat -> list loc) (F : gset loc) : Prop := {
  bo_len : length (bins h) = Z.to_nat NUM_BINS_MAX;
  bo_head i : (i < Z.to_nat NUM_BINS_MAX)%nat -> bins h !! i = Some (head (bs i));
  bo_seg i : seg (fun l => next_free (node h l)) (fun l => prev_free (node h l)) None (bs i) None;
  bo_nodup i : NoDup (bs i);
  bo_mem i l : l ∈ bs i <-> l ∈ F /\ class (size (node h l)) = i;
  bo_size l : l ∈ F -> FRAGMENT_SIZE_MIN <= size (node h l) < 2 ^ 32;
  bo_live l : l ∈ F -> l ∉ dropped h;
  bo_mask i : 0 <= i -> Z.testbit (nonempty_bin_mask h) i = bool_decide (bs (Z.to_nat i) <> []);
  bo_word : is_word 64 (nonempty_bin_mask h) }.

Lemma testbit_set_mask m c i :
  0 <= c < 64 -> 0 <= i -> Z.testbit (Z.lor m (shl 64 1 c)) i = (i =? c) || Z.testbit m i.
Proof.
  intros Hc Hi. rewrite Z.lor_spec, testbit_shl, testbit_1 by lia.
  destruct (Z.eqb_spec (i - c) 0), (Z.eqb_spec i c), (Z.ltb_spec i 64); try lia; btauto.
Qed.

Lemma testbit_clear_mask m c i :
  0 <= c < 64 -> 0 <= i -> is_word 64 m -> Z.testbit (Z.land m (bnot 64 (shl 64 1 c))) i = negb (i =? c) && Z.testbit m i.
Proof.
  intros Hc Hi Hm. rewrite Z.land_spec, testbit_bnot, testbit_shl, testbit_1 by lia.
  destruct (Z.eqb_spec (i - c) 0), (Z.eqb_spec i c), (Z.ltb_spec i 64); try lia; try btauto.
  rewrite (word_high 64 m i) by (auto; lia). btauto.
Qed.

Lemma shl_bit_word c : 0 <= c < 64 -> is_word 64 (shl 64 1 c).
Proof. intros. apply wrap_word. lia. Qed.

Lemma put_bin_ok i b h :
  length (bins h) = Z.to_nat NUM_BINS_MAX -> (i < 24)%nat -> put_bin (Z.of_nat i) b h = Ret (set_bins (<[i := b]> (bins h)) h).
Proof.
  intros Hl Hi. unfold put_bin. rewrite Nat2Z.id. destruct (bins h !! i) eqn:E; [reflexivity |].
  apply lookup_ge_None in E. rewrite Hl in E. unfold NUM_BINS_MAX in E. lia.
Qed.

(** ** Adding a fragment *)

Definition push_bin (c : nat) (l : loc) (bs : nat -> list loc) : nat -> list loc :=
  fun i => if decide (i = c) then l :: bs i else bs i.

(** The state after [l] was pushed on bin [c]. *)
Record pushed (c : nat) (l : loc) (b : list loc) (h h' : O1Heap) : Prop := {
  pu_core : same_core h h';
  pu_next k : next_free (node h' k) = if decide (k = l) then head b else next_free (node h k);
  pu_prev k : prev_free (node h' k) =
    if decide (k = l) then None else if decide (head b = Some k) then Some l else prev_free (node h k);
  pu_bins : bins h' = <[c := Some l]> (bins h);
  pu_mask : nonempty_bin_mask h' = Z.lor (nonempty_bin_mask h) (shl 64 1 (Z.of_nat c)) }.

Lemma rebin_pushes l h bs F :
  bins_ok h bs F -> l ∉ F -> FRAGMENT_SIZE_MIN <= size (node h l) < 2 ^ 32 ->
  let c := class (size (node h l)) in exists h', rebin l h = Ret h' /\ pushed c l (bs c) h h'.
Proof.
  intros Hb Hl Hs c. pose proof (class_lt _ Hs) as Hc. fold c in Hc. pose proof (bo_len _ _ _ Hb) as Hlen.
  unfold rebin. replace (_ <? FRAGMENT_SIZE_MIN) with false by lia. rewrite (class_floor _ Hs). fold c.
  replace (NUM_BINS_MAX <=? Z.of_nat c) with false by (unfold NUM_BINS_MAX; lia).
  unfold get_bin. rewrite Nat2Z.id, (bo_head _ _ _ Hb c) by (unfold NUM_BINS_MAX; lia). cbn [mbind outcome_bind].
  rewrite put_bin_ok by auto. cbn [mbind outcome_bind].
  set (h1 := modify l (set_prev_free None) (modify l (set_next_free (head (bs c))) (set_bins (<[c := None]> (bins h)) h))).
  assert (same_core h h1) as S1.
  { unfold h1. do 2 (etransitivity; [|apply same_core_free_links]). apply same_core_bins. }
  assert (forall k, next_free (node h1 k) = (if decide (k = l) then head (bs c) else next_free (node h k))
    /\ prev_free (node h1 k) = if decide (k = l) then None else prev_free (node h k)) as L1.
  { intros k. unfold h1. rewrite !node_modify. destruct (decide (k = l)) as [-> |]; rewrite ?decide_True by reflexivity; auto. }
  destruct (L1 l) as [-> _]. rewrite decide_True by reflexivity.
  destruct (bs c) as [|x r] eqn:Eb; cbn [head].
  - cbn [mbind outcome_bind]. rewrite put_bin_ok; [|cbn; now rewrite length_insert | exact Hc].
    eexists. split; [reflexivity |]. split; cbn; [| | |apply list_insert_insert_eq | reflexivity].
    + etransitivity; [exact S1 |]. etransitivity; [apply same_core_bins | apply same_core_mask].
    + intros k. apply L1.
    + intros k. destruct (L1 k) as [_ E]. cbn in E. rewrite E. now case_decide.
  - assert (x <> l) as Hx.
    { intros ->. apply Hl. assert (l ∈ bs c) as Hi by (rewrite Eb; set_solver). apply (bo_mem _ _ _ Hb) in Hi. tauto. }
    unfold distinct. rewrite decide_False by congruence. cbn [mbind outcome_bind].
    rewrite put_bin_ok; [|cbn; now rewrite length_insert | exact Hc].
    eexists. split; [reflexivity |]. split; cbn [bins nonempty_bin_mask set_mask set_bins node];
      [| | |apply list_insert_insert_eq | reflexivity].
    + etransitivity; [exact S1 |]. etransitivity; [apply same_core_free_links |].
      etransitivity; [apply same_core_bins | apply same_core_mask].
    + intros k. destruct (modify_free_links x h1 (Some l) k) as (_ & _ & E & _). etransitivity; [exact E | apply L1].
    + intros k. destruct (modify_free_links x h1 (Some l) k) as (_ & _ & _ & E). etransitivity; [exact E |].
      destruct (L1 k) as [_ ->]. cbn [head]. repeat case_decide; simplify_eq; auto.
Qed.

Lemma pushed_ok l h h' bs F :
  let c := class (size (node h l)) in
  bins_ok h bs F -> l ∉ F -> l ∉ dropped h -> FRAGMENT_SIZE_MIN <= size (node h l) < 2 ^ 32 -> pushed c l (bs c) h h' ->
  bins_ok h' (push_bin c l bs) (F ∪ {[l]}).
Proof.
  intros c [Hlen Hhead Hseg Hnd Hmem Hsize Hlive Hmask Hword] Hl Hd Hs [Sc En Ep Eb Em].
  pose proof (class_lt _ Hs) as Hc. fold c in Hc.
  assert (forall i k, k ∈ bs i -> k <> l) as Hne by (intros i k Hk ->; apply Hmem in Hk as [? _]; auto).
  unfold push_bin. split; intros; rewrite ?(sc_size _ _ Sc), ?(sc_dropped _ _ Sc), ?Eb, ?Em.
  - now rewrite length_insert.
  - case_decide; subst; [rewrite list_lookup_insert_eq by lia | rewrite list_lookup_insert_ne by congruence]; auto.
  - case_decide as E.
    + subst i. cbn [seg]. rewrite En, Ep, !decide_True, head_or_None by reflexivity. split_and!; auto.
      eapply seg_first; [apply Hnd | apply Hseg | |]; intros k Hk; cbn beta; [rewrite En | rewrite Ep];
        rewrite decide_False by eauto; reflexivity.
    + eapply seg_ext; [|apply Hseg]. intros k Hk. cbn beta. rewrite En, Ep, !decide_False; eauto.
      intros Eh. apply E. apply Hmem in Hk as [_ <-].
      assert (k ∈ bs c) as Hk by (destruct (bs c); [discriminate | injection Eh as ->; set_solver]).
      apply Hmem in Hk. tauto.
  - case_decide; [|apply Hnd]. subst. apply NoDup_cons. split; [|apply Hnd]. intros Hk. now apply (Hne _ _ Hk).
  - case_decide as E; [subst i|].
    + rewrite elem_of_cons, Hmem. set_unfold. split; [intros [-> | [? ?]]; auto | intros [[? | ->] ?]; auto].
    + rewrite Hmem. set_unfold. split; [tauto |]. intros [[? | ->] ?]; [auto | exfalso; auto].
  - set_unfold. destruct H as [Hk | ->]; auto.
  - set_unfold. destruct H as [Hk | ->]; auto.
  - rewrite testbit_set_mask, Hmask by lia. destruct (Z.eqb_spec i (Z.of_nat c)) as [-> | Hi'].
    + rewrite Nat2Z.id, decide_True by reflexivity. cbn [orb]. now rewrite bool_decide_eq_true_2 by discriminate.
    + rewrite decide_False by lia. reflexivity.
  - apply word_lor; [exact Hword | apply shl_bit_word; lia | lia].
Qed.

(** A fragment that is in no bin is added to its bin. *)
Lemma rebin_ok l h bs F :
  bins_ok h bs F -> l ∉ F -> l ∉ dropped h -> FRAGMENT_SIZE_MIN <= size (node h l) < 2 ^ 32 ->
  exists h', rebin l h = Ret h' /\ same_core h h' /\ bins_ok h' (push_bin (class (size (node h l))) l bs) (F ∪ {[l]}).
Proof.
  intros Hb Hl Hd Hs. destruct (rebin_pushes l h bs F Hb Hl Hs) as (h' & E & Hp).
  exists h'. split_and!; [exact E | apply Hp | now apply (pushed_ok l h)].
Qed.

(** ** Removing a fragment *)

(** The state after [l] was taken out of bin [c], between [a] and [b]. *)
Record taken (c : nat) (l : loc) (a b : list loc) (h h' : O1Heap) : Prop := {
  ta_core : same_core h h';
  ta_next k : next_free (node h' k) = if decide (last a = Some k) then head b else next_free (node h k);
  ta_prev k : prev_free (node h' k) = if decide (head b = Some k) then last a else prev_free (node h k);
  ta_bins : bins h' = if decide (a = []) then <[c := head b]> (bins h) else bins h;
  ta_mask : nonempty_bin_mask h' =
    if decide (a ++ b = []) then Z.land (nonempty_bin_mask h) (bnot 64 (shl 64 1 (Z.of_nat c))) else nonempty_bin_mask h }.

Definition unbinned (c : nat) (a b : list loc) (h : O1Heap) : O1Heap :=
  let h := match head b with Some nx => modify nx (set_prev_free (last a)) h | None => h end in
  match last a with
  | Some pv => modify pv (set_next_free (head b)) h
  | None =>
      let h := set_bins (<[c := head b]> (bins h)) h in
      match head b with
      | None => set_mask (Z.land (nonempty_bin_mask h) (bnot 64 (shl 64 1 (Z.of_nat c)))) h
      | Some _ => h
      end
  end.

Lemma unbin_eq l a b h :
  FRAGMENT_SIZE_MIN <= size (node h l) < 2 ^ 32 -> length (bins h) = Z.to_nat NUM_BINS_MAX ->
  next_free (node h l) = head b -> prev_free (node h l) = last a -> l ∉ a -> l ∉ b -> (forall k, k ∈ a -> k ∉ dropped h) ->
  unbin l h = Ret (unbinned (class (size (node h l))) a b h).
Proof.
  intros Hs Hlen En Ep Ha Hb Hd. pose proof (class_lt _ Hs) as Hc. unfold unbin, unbinned.
  replace (_ <? FRAGMENT_SIZE_MIN) with false by lia. rewrite (class_floor _ Hs).
  set (c := class (size (node h l))) in *. replace (NUM_BINS_MAX <=? Z.of_nat c) with false by (unfold NUM_BINS_MAX; lia).
  rewrite En, Ep.
  set (h1 := match head b with Some nx => modify nx (set_prev_free (last a)) h | None => h end).
  transitivity (h1 ← Ret h1;
    match last a with
    | Some pv => Ret (modify pv (set_next_free (head b)) h1)
    | None => h ← put_bin (Z.of_nat c) (head b) h1;
              Ret match head b with
                  | Some _ => h
                  | None => set_mask (Z.land (nonempty_bin_mask h) (bnot 64 (shl 64 1 (Z.of_nat c)))) h
                  end
    end).
  - transitivity (h1 ← Ret h1;
      match prev_free (node h1 l) with
      | Some pv =>
          match upgrade (Some pv) h1 with
          | Some pv => _ ← distinct l pv; Ret (modify pv (set_next_free (next_free (node h1 l))) h1)
          | None => Ret h1
          end
      | None => h ← put_bin (Z.of_nat c) (next_free (node h1 l)) h1;
          Ret match next_free (node h1 l) with
              | Some _ => h
              | None => set_mask (Z.land (nonempty_bin_mask h) (bnot 64 (shl 64 1 (Z.of_nat c)))) h
              end
      end).
    { unfold h1. destruct b as [|x b]; cbn [head]; [reflexivity |]. unfold distinct.
      rewrite decide_False by (intros ->; set_solver). reflexivity. }
    cbn [mbind outcome_bind].
    assert (node h1 l = node h l) as -> by
      (unfold h1; destruct b as [|x b]; cbn [head]; [|rewrite node_modify, decide_False by (intros ->; set_solver)]; reflexivity).
    assert (dropped h1 = dropped h) as Ed by (unfold h1; now destruct (head b)).
    rewrite En, Ep. destruct (last a) as [p|] eqn:El; [|reflexivity]. unfold upgrade, distinct.
    apply last_Some_elem_of in El. rewrite Ed, decide_False by auto. rewrite decide_False by (intros ->; auto). reflexivity.
  - cbn [mbind outcome_bind]. destruct (last a); [reflexivity |].
    rewrite put_bin_ok; [reflexivity | | exact Hc]. unfold h1. now destruct (head b).
Qed.

Lemma unbinned_taken c l a b h : taken c l a b h (unbinned c a b h).
Proof.
  unfold unbinned.
  set (h1 := match head b with Some nx => modify nx (set_prev_free (last a)) h | None => h end).
  assert (same_core h h1) as S1 by (unfold h1; destruct (head b); [apply same_core_free_links | reflexivity]).
  assert (forall k, next_free (node h1 k) = next_free (node h k)
    /\ prev_free (node h1 k) = if decide (head b = Some k) then last a else prev_free (node h k)) as L1.
  { intros k. unfold h1. destruct (head b) as [x|]; [|auto].
    destruct (modify_free_links x h (last a) k) as (_ & _ & -> & ->). split; [reflexivity |]. repeat case_decide; simplify_eq; auto. }
  assert (bins h1 = bins h /\ nonempty_bin_mask h1 = nonempty_bin_mask h) as [Eb Em] by (unfold h1; now destruct (head b)).
  destruct (last a) as [p|] eqn:El.
  - assert (a <> []) by (intros ->; discriminate). split; cbn [bins nonempty_bin_mask modify].
    + etransitivity; [exact S1 | apply same_core_free_links].
    + intros k. destruct (modify_free_links p h1 (head b) k) as (E & _). etransitivity; [exact E |].
      destruct (L1 k) as [-> _]. repeat case_decide; simplify_eq; auto.
    + intros k. destruct (modify_free_links p h1 (head b) k) as (_ & E & _). etransitivity; [exact E |].
      destruct (L1 k) as [_ ->]. now rewrite El.
    + now rewrite decide_False.
    + rewrite decide_False; [exact Em |]. now destruct a.
  - apply last_None in El. subst a. cbn [app]. destruct b as [|x b]; cbn [head] in *.
    + split; cbn [bins nonempty_bin_mask set_mask set_bins node]; [| | |now rewrite Eb | now rewrite Em].
      * etransitivity; [exact S1 |]. etransitivity; [apply same_core_bins | apply same_core_mask].
      * intros k. apply L1.
      * intros k. apply L1.
    + split; cbn [bins nonempty_bin_mask set_mask set_bins node]; [| | |now rewrite Eb | now rewrite Em].
      * etransitivity; [exact S1 | apply same_core_bins].
      * intros k. apply L1.
      * intros k. apply L1.
Qed.

Definition drop_bin (c : nat) (l : list loc) (bs : nat -> list loc) : nat -> list loc :=
  fun i => if decide (i = c) then l else bs i.

Lemma taken_seg c l a b h h' bs F :
  bins_ok h bs F -> bs c = a ++ l :: b -> taken c l a b h h' ->
  forall i, seg (fun l => next_free (node h' l)) (fun l => prev_free (node h' l)) None (drop_bin c (a ++ b) bs i) None.
Proof.
  intros Hb Eab [_ En Ep _ _] i. unfold drop_bin. pose proof (bo_nodup _ _ _ Hb c) as Hnd. rewrite Eab in Hnd.
  assert (NoDup a /\ NoDup b /\ forall k, k ∈ a -> k ∉ b) as (Na & Nb & Hab).
  { apply NoDup_app in Hnd as (? & ? & Hl). apply NoDup_cons in Hl as [_ ?]. split_and!; auto. set_solver. }
  case_decide as Ei.
  - pose proof (bo_seg _ _ _ Hb c) as Hs. rewrite Eab in Hs. apply seg_app in Hs as [Ha Hs]. destruct Hs as (_ & _ & Hs).
    apply seg_app. rewrite head_or_None, last_or_None. split.
    + eapply seg_last; [exact Na | exact Ha | |]; intros k Hk; cbn beta; [rewrite Ep, decide_False | rewrite En]; auto.
      intros Eh. destruct b; [discriminate | injection Eh as ->]. apply (Hab k Hk). set_solver.
    + eapply seg_first; [exact Nb | exact Hs | |]; intros k Hk; cbn beta; [rewrite En, decide_False | rewrite Ep]; auto.
      intros El. apply last_Some_elem_of in El. now apply (Hab k).
  - eapply seg_ext; [|apply (bo_seg _ _ _ Hb)]. intros k Hk. cbn beta.
    assert (k ∉ bs c) as Hkc.
    { intros Hkc. apply (bo_mem _ _ _ Hb) in Hk as [_ ?], Hkc as [_ ?]. congruence. }
    rewrite Eab in Hkc. rewrite En, Ep, !decide_False; auto.
    + intros Eh. destruct b; [discriminate | injection Eh as ->]. set_solver.
    + intros El. apply last_Some_elem_of in El. set_solver.
Qed.

Lemma taken_ok l a b h h' bs F :
  let c := class (size (node h l)) in
  bins_ok h bs F -> l ∈ F -> bs c = a ++ l :: b -> taken c l a b h h' ->
  bins_ok h' (drop_bin c (a ++ b) bs) (F ∖ {[l]}).
Proof.
  intros c Hb Hl Eab Ht. pose proof (taken_seg c l a b h h' bs F Hb Eab Ht) as Hseg.
  destruct Ht as [Sc _ _ Ebins Em]. pose proof (class_lt _ (bo_size _ _ _ Hb l Hl)) as Hc. fold c in Hc.
  pose proof (bo_nodup _ _ _ Hb c) as Hnd. rewrite Eab in Hnd.
  destruct Hb as [Hlen Hhead _ Hnds Hmem Hsize Hlive Hmask Hword].
  split; intros; unfold drop_bin; rewrite ?(sc_size _ _ Sc), ?(sc_dropped _ _ Sc).
  - rewrite Ebins. destruct (decide (a = [])); [now rewrite length_insert | exact Hlen].
  - rewrite Ebins. destruct (decide (i = c)) as [-> | Hi].
    + destruct (decide (a = [])); [subst a; apply list_lookup_insert_eq; lia |]. rewrite Hhead, Eab by assumption. now destruct a.
    + destruct (decide (a = [])); [rewrite list_lookup_insert_ne by congruence|]; auto.
  - apply Hseg.
  - destruct (decide (i = c)); [|apply Hnds]. apply NoDup_app in Hnd as (? & ? & Hn). apply NoDup_cons in Hn as [_ ?].
    apply NoDup_app. split_and!; auto. set_solver.
  - apply NoDup_app in Hnd as (Na & Hn & Hn'). apply NoDup_cons in Hn' as [Hlb _].
    destruct (decide (i = c)) as [-> | Ei].
    + specialize (Hmem c l0). rewrite Eab in Hmem. set_unfold. destruct (decide (l0 = l)) as [-> |]; [|tauto].
      split; [intros [? | ?]; exfalso; [eapply Hn; eauto |]; tauto | tauto].
    + rewrite Hmem. set_unfold. split; [|tauto]. intros [? ?]. split_and!; auto. intros ->. now apply Ei.
  - apply Hsize. set_solver.
  - apply Hlive. set_solver.
  - rewrite Em. destruct (Z.eqb_spec i (Z.of_nat c)) as [-> | Hi].
    + rewrite Nat2Z.id. destruct (decide (c = c)) as [_ | []]; [|reflexivity].
      destruct (decide (a ++ b = [])) as [Ee | Ee].
      * rewrite testbit_clear_mask, Z.eqb_refl, Ee by (auto; lia). reflexivity.
      * rewrite Hmask, Nat2Z.id, Eab, !bool_decide_eq_true_2 by (auto; lia || now destruct a). reflexivity.
    + destruct (decide (Z.to_nat i = c)); [lia |]. rewrite <- Hmask by lia. destruct (decide (a ++ b = [])); [|reflexivity].
      rewrite testbit_clear_mask by (auto; lia). destruct (Z.eqb_spec i (Z.of_nat c)); [lia | reflexivity].
  - rewrite Em. destruct (decide (a ++ b = [])); [apply word_land; [exact Hword | lia] | exact Hword].
Qed.

(** A binned fragment is removed from its bin; when it is the first one, it does
    not matter what the entry of the bin holds. *)
Lemma unbin_ok l h bs F :
  bins_ok h bs F -> l ∈ F ->
  exists h' bs', unbin l h = Ret h' /\ same_core h h' /\ bins_ok h' bs' (F ∖ {[l]})
    /\ let c := class (size (node h l)) in
       (head (bs c) = Some l -> forall v, unbin l (set_bins (<[c := v]> (bins h)) h) = Ret h').
Proof.
  intros Hb Hl. pose proof (bo_size _ _ _ Hb l Hl) as Hs. set (c := class (size (node h l))).
  assert (l ∈ bs c) as Hi by (now apply (bo_mem _ _ _ Hb)). apply list_elem_of_split in Hi as (a & b & Eab).
  pose proof (bo_seg _ _ _ Hb c) as Hseg. rewrite Eab in Hseg. destruct (seg_neighbours _ _ _ _ _ Hseg) as [Ep En].
  pose proof (bo_nodup _ _ _ Hb c) as Hnd. rewrite Eab in Hnd.
  assert (l ∉ a /\ l ∉ b) as [Hla Hlb].
  { apply NoDup_app in Hnd as (_ & Hd & Hn). apply NoDup_cons in Hn as [? _]. split; [set_solver | assumption]. }
  assert (forall k, k ∈ a -> k ∉ dropped h) as Hd.
  { intros k Hk. apply (bo_live _ _ _ Hb). apply (bo_mem _ _ _ Hb c). rewrite Eab. set_solver. }
  exists (unbinned c a b h), (drop_bin c (a ++ b) bs). split_and!.
  - apply unbin_eq; auto. apply Hb.
  - apply (unbinned_taken c l a b).
  - apply (taken_ok l a b h); auto. apply unbinned_taken.
  - intros c' Eh v. unfold c' in *. fold c in Eh |- *. rewrite Eab in Eh. assert (a = []) as ->.
    { destruct a as [|x a]; [reflexivity |]. exfalso. injection Eh as ->. set_solver. }
    rewrite (unbin_eq l [] b); auto; [|cbn; rewrite length_insert; apply Hb]. cbn [node set_bins]. fold c.
    f_equal. unfold unbinned. cbn [last]. destruct (head b) as [x|]; cbn; unfold modify, set_bins, set_mask; cbn;
      now rewrite list_insert_insert_eq.
Qed.

Lemma bins_ok_ext h h' bs F :
  bins_ok h bs F -> bins h' = bins h -> nonempty_bin_mask h' = nonempty_bin_mask h -> dropped h' = dropped h ->
  (forall l, l ∈ F -> next_free (node h' l) = next_free (node h l) /\ prev_free (node h' l) = prev_free (node h l)
             /\ size (node h' l) = size (node h l)) ->
  bins_ok h' bs F.
Proof.
  intros [Hlen Hhead Hseg Hnd Hmem Hsize Hlive Hmask Hword] Eb Em Ed El.
  split; intros; rewrite ?Eb, ?Em, ?Ed; auto.
  - eapply seg_ext; [|apply Hseg]. intros l Hl. apply Hmem in Hl as [Hl _]. destruct (El l Hl) as (? & ? & ?). auto.
  - rewrite Hmem. split; intros [Hl <-]; (split; [exact Hl |]); destruct (El l Hl) as (_ & _ & ->); reflexivity.
  - destruct (El l) as (_ & _ & ->); auto.
Qed.
