(* ===== verification/HeapInv.v ===== *)
(** * The invariant of the allocator

    The fragments of the address-order list tile the arena without gaps, free
    fragments are never adjacent and are exactly the binned ones, [hashes] finds
    every used fragment, and the counter of allocated bytes is right.  The
    abstract view of a heap is the list of its blocks. *)

From stdpp Require Import gmap sorting.
From S2P Require Import Prelude Heap HeapLinks HeapBins.

Definition off (h : O1Heap) (l : loc) : Z := offset (node h l).
Definition sz (h : O1Heap) (l : loc) : Z := size (node h l).
Definition nx (h : O1Heap) (l : loc) : option loc := next (node h l).
Definition pv (h : O1Heap) (l : loc) : option loc := prev (node h l).
Definition inuse (h : O1Heap) (l : loc) : bool := used (node h l).

(** A block of the arena: offset, size, in use. *)
Definition block : Type := Z * Z * bool.
Definition block_of (h : O1Heap) (l : loc) : block := (off h l, sz h l, inuse h l).

(** The bytes in use. *)
Definition used_bytes (bl : list block) : Z := foldr (fun (b : block) n => (if b.2 then b.1.2 else 0) + n) 0 bl.

Lemma used_bytes_app bl bl' : used_bytes (bl ++ bl') = used_bytes bl + used_bytes bl'.
Proof. induction bl as [|b bl IH]; cbn; [reflexivity |]. fold (used_bytes (bl ++ bl')) (used_bytes bl). lia. Qed.

Definition free_nodes (h : O1Heap) (ls : list loc) : gset loc := list_to_set (filter (fun l => inuse h l = false) ls).

Lemma elem_of_free_nodes h ls l : l ∈ free_nodes h ls <-> l ∈ ls /\ inuse h l = false.
Proof. unfold free_nodes. rewrite elem_of_list_to_set, list_elem_of_filter. tauto. Qed.

(** No two neighbours are free; [p] tells whether the fragment before is in use. *)
Fixpoint separated (u : loc -> bool) (p : bool) (ls : list loc) : Prop :=
  match ls with
  | [] => True
  | l :: ls => (p = true \/ u l = true) /\ separated u (u l) ls
  end.

Definition last_used (u : loc -> bool) (p : bool) (ls : list loc) : bool :=
  match last ls with Some l => u l | None => p end.

Lemma separated_app u p l k : separated u p (l ++ k) <-> separated u p l /\ separated u (last_used u p l) k.
Proof.
  revert p. induction l as [|x l IH]; intros p; cbn; [tauto |]. rewrite IH. unfold last_used. rewrite last_cons.
  destruct (last l); tauto.
Qed.

Lemma separated_ext u u' p ls : (forall l, l ∈ ls -> u' l = u l) -> separated u p ls -> separated u' p ls.
Proof.
  revert p. induction ls as [|x ls IH]; intros p E; cbn; [tauto |]. intros [Hx Hs]. rewrite E by set_solver.
  split; [exact Hx |]. apply IH; [|exact Hs]. intros l Hl. apply E. set_solver.
Qed.

Lemma separated_first u p p' ls :
  separated u p ls -> (p' = true \/ forall k, head ls = Some k -> u k = true) -> separated u p' ls.
Proof. destruct ls as [|x ls]; cbn; [tauto |]. intros [_ Hs] [? | Hx]; eauto. Qed.

(** The run [s :: dead] is replaced by [s :: mid]. *)
Lemma separated_splice u u' a s dead mid b :
  separated u true (a ++ s :: dead ++ b) -> (forall l, l ∈ a ++ b -> u' l = u l) ->
  (u' s = true \/ forall k, last a = Some k -> u k = true) -> separated u' (u' s) mid ->
  (last_used u' (u' s) mid = true \/ forall k, head b = Some k -> u k = true) ->
  separated u' true (a ++ s :: mid ++ b).
Proof.
  intros Hs He Ha Hm Hb. apply separated_app in Hs as [Sa Hs]. cbn in Hs. destruct Hs as [_ Hs].
  apply separated_app in Hs as [_ Sb]. apply separated_app. split; [|split].
  - eapply separated_ext; [|exact Sa]. intros; apply He; set_solver.
  - destruct Ha as [? | Ha]; [auto |]. left. unfold last_used. destruct (last a) as [k|] eqn:E; [|reflexivity].
    rewrite He; [now apply Ha |]. apply last_Some_elem_of in E. set_solver.
  - apply separated_app. split; [exact Hm |]. apply (separated_ext u); [intros; apply He; set_solver |].
    eapply separated_first; eauto.
Qed.

(** Everything but the bins. *)
Record core_ok (h : O1Heap) (ls : list loc) : Prop := {
  co_nodup : NoDup ls;
  co_fresh l : l ∈ ls -> (l < fresh_loc h)%nat;
  co_live l : l ∈ ls -> l ∉ dropped h;
  co_dropped l : l ∈ dropped h -> (l < fresh_loc h)%nat;
  co_links : seg (nx h) (pv h) None ls None;
  co_tiles : tiles (off h) (sz h) 0 ls (capacity (diagnostics h));
  co_capacity : capacity (diagnostics h) < 2 ^ 32;
  co_base : 0 <= base h /\ base h + capacity (diagnostics h) <= 2 ^ 64;
  co_hash_used l : l ∈ ls -> inuse h l = true -> hashes h !! off h l = Some l;
  co_hash o l : hashes h !! o = Some l -> (l < fresh_loc h)%nat /\ off h l = o;
  co_used l : (l < fresh_loc h)%nat -> inuse h l = true -> l ∈ ls;
  co_allocated : allocated (diagnostics h) = used_bytes (map (block_of h) ls) }.

Record heap_inv (h : O1Heap) (ls : list loc) (bs : nat -> list loc) : Prop := {
  hi_core : core_ok h ls;
  hi_bins : bins_ok h bs (free_nodes h ls);
  hi_separated : separated (inuse h) true ls }.

(** The heap holds the blocks [bl]. *)
Definition represents (h : O1Heap) (bl : list block) : Prop :=
  exists ls bs, heap_inv h ls bs /\ bl = map (block_of h) ls.

Lemma blocks_ext h h' ls :
  (forall l, l ∈ ls -> block_of h' l = block_of h l) -> map (block_of h') ls = map (block_of h) ls.
Proof.
  induction ls as [|x ls IH]; intros E; cbn; [reflexivity |]. rewrite E, IH; [reflexivity | |]; set_solver.
Qed.

(** ** Transfer *)

Section Core.
Context (h h' : O1Heap) (Sc : same_core h h').

Lemma core_off l : off h' l = off h l. Proof. apply Sc. Qed.
Lemma core_sz l : sz h' l = sz h l. Proof. apply Sc. Qed.
Lemma core_nx l : nx h' l = nx h l. Proof. apply Sc. Qed.
Lemma core_pv l : pv h' l = pv h l. Proof. apply Sc. Qed.
Lemma core_inuse l : inuse h' l = inuse h l. Proof. apply Sc. Qed.

Lemma core_block l : block_of h' l = block_of h l.
Proof. unfold block_of. now rewrite core_off, core_sz, core_inuse. Qed.

Lemma core_ok_same ls : core_ok h ls -> core_ok h' ls.
Proof.
  intros [Hnd Hfr Hlive Hdr Hlink Htile Hcap Hbase Hhu Hh Hu Ha].
  pose proof Sc as [_ _ _ _ _ Ef Ed Eb Eh Eg].
  split; rewrite ?Ef, ?Ed, ?Eb, ?Eh, ?Eg; auto.
  - eapply seg_ext; [|exact Hlink]. intros l _. now rewrite core_nx, core_pv.
  - eapply tiles_ext; [|exact Htile]. intros l _. now rewrite core_off, core_sz.
  - intros l. rewrite core_inuse, core_off. auto.
  - intros o l. rewrite core_off. auto.
  - intros l. rewrite core_inuse. auto.
  - rewrite Ha. f_equal. apply map_ext. intros l. symmetry. apply core_block.
Qed.
End Core.

(** The run [s :: dead] of the list is replaced by [s :: mid]: what has to hold of
    the new state for the invariant to be kept. *)
Record spliced (h h' : O1Heap) (a : list loc) (s : loc) (dead mid b : list loc) : Prop := {
  sp_fresh : (fresh_loc h <= fresh_loc h')%nat;
  sp_dropped : dropped h' = dropped h;
  sp_base : base h' = base h;
  sp_capacity : capacity (diagnostics h') = capacity (diagnostics h);
  sp_mid : NoDup mid /\ forall l, l ∈ mid -> (fresh_loc h <= l < fresh_loc h')%nat;
  sp_new l : (fresh_loc h <= l < fresh_loc h')%nat -> inuse h' l = true -> l ∈ mid;
  sp_off l : (l < fresh_loc h)%nat -> off h' l = off h l;
  sp_sz l : l ∈ a ++ b -> sz h' l = sz h l;
  sp_inuse l : (l < fresh_loc h)%nat -> l ∉ dead -> l <> s -> inuse h' l = inuse h l;
  sp_dead l : l ∈ dead -> inuse h' l = false;
  sp_next_a l : l ∈ a -> nx h' l = nx h l;
  sp_prev_a l : l ∈ a -> pv h' l = pv h l;
  sp_prev_s : pv h' s = pv h s;
  sp_next_s : nx h' s = head_or (head b) mid;
  sp_links : seg (nx h') (pv h') (Some s) mid (head b);
  sp_next_b l : l ∈ b -> nx h' l = nx h l;
  sp_prev_b l : l ∈ b -> pv h' l = if decide (head b = Some l) then last_or (Some s) mid else pv h l;
  sp_tiles m : tiles (off h) (sz h) (off h s) (s :: dead) m -> tiles (off h') (sz h') (off h s) (s :: mid) m;
  sp_hash o l : hashes h' !! o = Some l -> hashes h !! o = Some l \/ ((l < fresh_loc h')%nat /\ off h' l = o);
  sp_hash_keep l : l ∈ a ++ b -> inuse h l = true -> hashes h' !! off h l = hashes h !! off h l;
  sp_hash_new l : l = s \/ l ∈ mid -> inuse h' l = true -> hashes h' !! off h' l = Some l;
  sp_allocated : allocated (diagnostics h') + used_bytes (map (block_of h) (s :: dead))
                 = allocated (diagnostics h) + used_bytes (map (block_of h') (s :: mid)) }.

Arguments sp_fresh {_ _ _ _ _ _ _}. Arguments sp_dropped {_ _ _ _ _ _ _}. Arguments sp_base {_ _ _ _ _ _ _}.
Arguments sp_capacity {_ _ _ _ _ _ _}. Arguments sp_mid {_ _ _ _ _ _ _}. Arguments sp_new {_ _ _ _ _ _ _}.
Arguments sp_off {_ _ _ _ _ _ _}. Arguments sp_sz {_ _ _ _ _ _ _}. Arguments sp_inuse {_ _ _ _ _ _ _}.
Arguments sp_dead {_ _ _ _ _ _ _}. Arguments sp_next_a {_ _ _ _ _ _ _}. Arguments sp_prev_a {_ _ _ _ _ _ _}.
Arguments sp_prev_s {_ _ _ _ _ _ _}. Arguments sp_next_s {_ _ _ _ _ _ _}. Arguments sp_links {_ _ _ _ _ _ _}.
Arguments sp_next_b {_ _ _ _ _ _ _}. Arguments sp_prev_b {_ _ _ _ _ _ _}. Arguments sp_tiles {_ _ _ _ _ _ _}.
Arguments sp_hash {_ _ _ _ _ _ _}. Arguments sp_hash_keep {_ _ _ _ _ _ _}.
Arguments sp_hash_new {_ _ _ _ _ _ _}. Arguments sp_allocated {_ _ _ _ _ _ _}.

Section Splice.
Context (h h' : O1Heap) (a : list loc) (s : loc) (dead mid b : list loc).
Hypothesis Hc : core_ok h (a ++ s :: dead ++ b).
Hypothesis Sp : spliced h h' a s dead mid b.

Lemma spliced_apart :
  (forall l, l ∈ a -> l <> s /\ l ∉ dead /\ l ∉ b) /\ s ∉ dead /\ s ∉ b /\ (forall l, l ∈ b -> l ∉ dead)
  /\ NoDup a /\ NoDup b.
Proof.
  destruct (NoDup_app a (s :: dead ++ b)) as [(Na & Da & Hnd) _]; [apply Hc |].
  apply NoDup_cons in Hnd as [Hs Hnd]. apply NoDup_app in Hnd as (Nd & Dd & Nb). split_and!; auto; set_solver.
Qed.

Lemma spliced_old l : l ∈ a ++ b -> (l < fresh_loc h)%nat /\ l ∉ mid.
Proof.
  intros Hl. assert (l < fresh_loc h)%nat as Hlt by (apply (co_fresh _ _ Hc); set_solver). split; [exact Hlt |].
  intros Hm. apply (sp_mid Sp) in Hm. lia.
Qed.

Lemma spliced_blocks l : l ∈ a ++ b -> block_of h' l = block_of h l.
Proof.
  intros Hl. destruct spliced_apart as (Da & Sd & Sb & Db & _). unfold block_of.
  rewrite (sp_off Sp), (sp_sz Sp), (sp_inuse Sp); auto; try apply spliced_old, Hl; [set_solver |]. intros ->. set_solver.
Qed.

Lemma spliced_nodup : NoDup (a ++ s :: mid ++ b).
Proof.
  destruct spliced_apart as (Da & Sd & Sb & Db & Na & Nb). destruct (sp_mid Sp) as [Nm Hmid].
  assert (s < fresh_loc h)%nat as Hs by (apply (co_fresh _ _ Hc); set_solver).
  apply NoDup_app. split_and!; auto; [|apply NoDup_cons; split; [|apply NoDup_app; split_and!; auto]].
  - intros l Hl Hl'. destruct (Da l Hl) as (? & _ & ?). pose proof (spliced_old l ltac:(set_solver)). set_solver.
  - intros Hl. apply elem_of_app in Hl as [Hl | Hl]; [apply Hmid in Hl; lia | auto].
  - intros l Hl Hl'. pose proof (spliced_old l ltac:(set_solver)). tauto.
Qed.

Lemma spliced_core : core_ok h' (a ++ s :: mid ++ b).
Proof.
  pose proof spliced_old as Hold. pose proof spliced_blocks as Eblk. destruct spliced_apart as (Da & Sd & Sb & Db & Na & Nb).
  destruct Hc as [Hnd Hfr Hlive Hdr Hlink Htile Hcap Hbase Hhu Hh Hu Ha].
  destruct (sp_mid Sp) as [Nm Hmid]. assert (s < fresh_loc h)%nat as Hs by (apply Hfr; set_solver).
  split.
  - exact spliced_nodup.
  - pose proof (sp_fresh Sp). intros l Hl. set_unfold. destruct Hl as [Hl | [-> | [Hl | Hl]]]; [| |apply Hmid; auto|];
      eapply Nat.lt_le_trans; eauto.
  - rewrite (sp_dropped Sp). intros l Hl Hd. destruct (decide (l ∈ mid)) as [Hm | Hm].
    + apply Hmid in Hm. apply Hdr in Hd. lia.
    + apply (Hlive l); [set_solver | exact Hd].
  - rewrite (sp_dropped Sp). pose proof (sp_fresh Sp). intros l Hl%Hdr. lia.
  - eapply seg_splice; [exact Hnd | exact Hlink | | exact (sp_prev_s Sp) | exact (sp_next_s Sp) | exact (sp_links Sp)
      | exact (sp_next_b Sp) | exact (sp_prev_b Sp)].
    intros l Hl. split; [now apply (sp_next_a Sp) | now apply (sp_prev_a Sp)].
  - rewrite (sp_capacity Sp). eapply tiles_splice; [exact Htile | | apply (sp_off Sp); auto | exact (sp_tiles Sp)].
    intros l Hl. split; [now apply (sp_off Sp), Hold | now apply (sp_sz Sp)].
  - now rewrite (sp_capacity Sp).
  - now rewrite (sp_capacity Sp), (sp_base Sp).
  - intros l Hl Hul. destruct (decide (l ∈ a ++ b)) as [Hab | Hab].
    + pose proof (Eblk l Hab) as E. injection E as Eo _ Eu. rewrite Eo, Eu in *.
      rewrite (sp_hash_keep Sp) by auto. apply Hhu; [set_solver | exact Hul].
    + apply (sp_hash_new Sp); [set_solver | exact Hul].
  - intros o l Hl. pose proof (sp_fresh Sp). destruct (sp_hash Sp o l Hl) as [Hold' | ?]; auto.
    apply Hh in Hold' as [? ?]. rewrite (sp_off Sp) by auto. split; [lia | auto].
  - intros l Hl Hul. destruct (decide (l < fresh_loc h)%nat) as [Hlt | Hge].
    + destruct (decide (l = s)) as [-> | Hne]; [set_solver |].
      destruct (decide (l ∈ dead)) as [Hd | Hd]; [rewrite (sp_dead Sp) in Hul by auto; discriminate |].
      rewrite (sp_inuse Sp) in Hul by auto. apply Hu in Hul; auto. set_solver.
    + assert (l ∈ mid) by (apply (sp_new Sp); auto; lia). set_solver.
  - pose proof (sp_allocated Sp) as Eal. rewrite Ha in Eal.
    change (s :: dead ++ b) with ((s :: dead) ++ b) in Eal. change (s :: mid ++ b) with ((s :: mid) ++ b).
    rewrite !map_app, !used_bytes_app in *.
    rewrite (blocks_ext h h' a), (blocks_ext h h' b) by (intros; apply Eblk; set_solver).
    lia.
Qed.
End Splice.

(** ** Dropped nodes *)

Lemma held_spec l h :
  held l h = true <->
  (exists o, hashes h !! o = Some l) \/ Some l ∈ bins h
  \/ exists k, (k < fresh_loc h)%nat /\ k ∉ dropped h /\ (nx h k = Some l \/ next_free (node h k) = Some l).
Proof.
  unfold held. rewrite !orb_true_iff, bool_decide_eq_true, !existsb_exists.
  assert ((exists x, In x (bins h) /\ bool_decide (x = Some l) = true) <-> Some l ∈ bins h) as ->.
  { split; [intros (x & Hx%list_elem_of_In & E%bool_decide_eq_true); congruence | intros Hx].
    exists (Some l). rewrite bool_decide_eq_true, <- list_elem_of_In. auto. }
  unfold map_Exists, nx. split.
  - intros [[(o & k & E & ->) | Hb] | (k & Hk & E)]; eauto. right. right. exists k. apply in_seq in Hk.
    rewrite andb_true_iff, negb_true_iff, bool_decide_eq_false, orb_true_iff, !bool_decide_eq_true in E. intuition lia.
  - intros [(o & E) | [Hb | (k & Hk & E)]]; eauto 6. right. exists k.
    rewrite in_seq, andb_true_iff, negb_true_iff, bool_decide_eq_false, orb_true_iff, !bool_decide_eq_true. intuition lia.
Qed.

(** Every fragment of the list is held: a used one by [hashes], a free one by its
    bin or by the free fragment before it. *)
Lemma links_held h ls bs l : heap_inv h ls bs -> l ∈ ls -> held l h = true.
Proof.
  intros [Hc Hb _] Hl. apply held_spec. destruct (inuse h l) eqn:Eu.
  - left. exists (off h l). now apply (co_hash_used _ _ Hc).
  - right. assert (l ∈ free_nodes h ls) as Hf by (now apply elem_of_free_nodes).
    pose proof (class_lt _ (bo_size _ _ _ Hb l Hf)) as Hlt. set (c := class (size (node h l))) in *.
    assert (l ∈ bs c) as Hi by (now apply (bo_mem _ _ _ Hb)). apply list_elem_of_split in Hi as (a & b & E).
    destruct a as [|x a _] using rev_ind.
    + left. pose proof (bo_head _ _ _ Hb c ltac:(unfold NUM_BINS_MAX; lia)) as Hh. rewrite E in Hh.
      eapply list_elem_of_lookup_2. exact Hh.
    + right. exists x. assert (x ∈ free_nodes h ls) as Hx by (apply (bo_mem _ _ _ Hb c); rewrite E; set_solver).
      split_and!; [apply (co_fresh _ _ Hc); now apply elem_of_free_nodes in Hx | now apply (bo_live _ _ _ Hb) |].
      right. pose proof (bo_seg _ _ _ Hb c) as Hs. rewrite E, <- app_assoc in Hs. apply seg_neighbours in Hs. apply Hs.
Qed.

Lemma drop_unheld_inv h ls bs : heap_inv h ls bs -> heap_inv (drop_unheld h) ls bs.
Proof.
  intros Hi. pose proof Hi as [Hc Hb Hs].
  assert (forall l, l ∈ ls -> l ∉ dropped (drop_unheld h)) as Hlive.
  { intros l Hl Hd. cbn in Hd. apply elem_of_union in Hd as [Hd | Hd]; [now apply (co_live _ _ Hc l) |].
    apply elem_of_list_to_set, list_elem_of_filter in Hd as [Hd _]. now rewrite (links_held h ls bs) in Hd. }
  split; [|destruct Hb; split; auto | exact Hs].
  - destruct Hc as [Hnd Hfr _ Hdr Hlink Htile Hcap Hbase Hhu Hh Hu Ha]. split; auto. cbn.
    intros l [Hd | Hd]%elem_of_union; [auto |].
    apply elem_of_list_to_set, list_elem_of_filter in Hd as [_ Hd]. apply elem_of_seq in Hd. lia.
  - intros l Hl. apply Hlive. now apply elem_of_free_nodes in Hl.
Qed.

Lemma end_of_scope_inv h ls bs :
  heap_inv h ls bs -> heap_inv (end_of_scope h) ls bs /\ (forall l, block_of (end_of_scope h) l = block_of h l)
    /\ base (end_of_scope h) = base h /\ diagnostics (end_of_scope h) = diagnostics h.
Proof.
  intros Hi. unfold end_of_scope. induction (fresh_loc h) as [|n IH]; [auto |]. cbn.
  destruct IH as (Hi' & Eb & Ebase & Ed). split; [now apply drop_unheld_inv |]. auto.
Qed.

Lemma represents_end_of_scope h bl :
  represents h bl -> represents (end_of_scope h) bl /\ base (end_of_scope h) = base h
    /\ diagnostics (end_of_scope h) = diagnostics h.
Proof.
  intros (ls & bs & Hi & ->). destruct (end_of_scope_inv h ls bs Hi) as (Hi' & Eb & Ebase & Ed). split; [|auto].
  exists ls, bs. split; [exact Hi' |]. apply map_ext. intros. now rewrite Eb.
Qed.

(** ** Facts the operations share *)

Lemma inv_sizes h ls bs l : heap_inv h ls bs -> l ∈ ls ->
  0 <= off h l /\ FRAGMENT_SIZE_MIN <= sz h l /\ off h l + sz h l <= capacity (diagnostics h) /\ capacity (diagnostics h) < 2 ^ 32.
Proof.
  intros [Hc _ _] Hl. destruct (tiles_in _ _ _ _ _ l (co_tiles _ _ Hc) Hl) as (? & ? & ?).
  pose proof (tiles_unit _ _ _ _ _ l (co_tiles _ _ Hc) Hl) as Hm. pose proof (co_capacity _ _ Hc).
  unfold FRAGMENT_SIZE_MIN in *. pose proof (Z.div_mod (sz h l) 256). split_and!; lia.
Qed.

(** The neighbours of a fragment. *)
Lemma inv_neighbours h a l b bs : heap_inv h (a ++ l :: b) bs -> pv h l = last a /\ nx h l = head b.
Proof. intros [Hc _ _]. apply seg_neighbours, Hc. Qed.

Lemma inv_upgrade h a l b bs : heap_inv h (a ++ l :: b) bs -> upgrade (pv h l) h = last a.
Proof.
  intros Hi. destruct (inv_neighbours _ _ _ _ _ Hi) as [-> _]. unfold upgrade. destruct (last a) as [p|] eqn:E; [|reflexivity].
  rewrite decide_False; [reflexivity |]. apply (co_live _ _ (hi_core _ _ _ Hi)). apply last_Some_elem_of in E. set_solver.
Qed.

(** The neighbours of a free fragment are in use. *)
Lemma free_neighbours h a l b bs :
  heap_inv h (a ++ l :: b) bs -> inuse h l = false ->
  (forall k, last a = Some k -> inuse h k = true) /\ (forall k, head b = Some k -> inuse h k = true).
Proof.
  intros [_ _ Hs] Hl. apply separated_app in Hs as [_ [Hp Hs]]. rewrite Hl in *. unfold last_used in Hp. split; intros k E.
  - rewrite E in Hp. destruct Hp as [? | ?]; congruence.
  - destruct b; [discriminate |]. injection E as ->. destruct Hs as [[? | ?] _]; congruence.
Qed.

(** ** Cutting a fragment *)

(** Reading a field of a node that was modified. *)
Ltac nodes :=
  unfold off, sz, nx, pv, inuse in *; cbn [node modify new_node set_hashes set_diagnostics snd fst link_after] in *;
  repeat case_decide; subst; cbn in *; try congruence; auto; try (exfalso; auto; fail).

(** [h'] is [h] with the fragment [s] cut to [n] bytes and a free fragment [m] of
    [left] bytes at [o] linked after it, not yet in a bin. *)
Record cut_at (s m : loc) (o n left : Z) (after : option loc) (h h' : O1Heap) : Prop := {
  cu_new : m = fresh_loc h;
  cu_fresh : fresh_loc h' = S m;
  cu_dropped : dropped h' = dropped h;
  cu_base : base h' = base h;
  cu_bins : bins h' = bins h;
  cu_mask : nonempty_bin_mask h' = nonempty_bin_mask h;
  cu_hashes : hashes h' = <[o := m]> (hashes h);
  cu_diag : diagnostics h' = diagnostics h;
  cu_off k : off h' k = if decide (k = m) then o else off h k;
  cu_sz k : sz h' k = if decide (k = m) then left else if decide (k = s) then n else sz h k;
  cu_inuse k : inuse h' k = if decide (k = m) then false else inuse h k;
  cu_nx k : nx h' k = if decide (k = m) then after else if decide (k = s) then Some m else nx h k;
  cu_pv k : pv h' k = if decide (k = m) then Some s else if decide (after = Some k) then Some m else pv h k;
  cu_free k : k <> m -> next_free (node h' k) = next_free (node h k) /\ prev_free (node h' k) = prev_free (node h k) }.

Lemma link_after_cut s o n left after h :
  (s < fresh_loc h)%nat -> (forall k, after = Some k -> (k < fresh_loc h)%nat) ->
  let (m, h') := link_after s o left after h in
  cut_at s m o n left after h (set_hashes (<[o := m]> (hashes h')) (modify s (set_size n) h')).
Proof.
  intros Hs Ha. unfold link_after, new_node, modify_opt. destruct after as [k|].
  - specialize (Ha k eq_refl). split; try reflexivity; intros x; try intros Hx; nodes; exfalso; lia.
  - split; try reflexivity; intros x; try intros Hx; nodes; exfalso; lia.
Qed.

Lemma modify_link_after_cut s o n left after h :
  (s < fresh_loc h)%nat -> (forall k, after = Some k -> (k < fresh_loc h)%nat) ->
  let (m, h') := link_after s o left after (modify s (set_size n) h) in
  cut_at s m o n left after h (set_hashes (<[o := m]> (hashes h')) h').
Proof.
  intros Hs Ha. unfold link_after, new_node, modify_opt. destruct after as [k|].
  - specialize (Ha k eq_refl). split; try reflexivity; intros x; try intros Hx; nodes; exfalso; lia.
  - split; try reflexivity; intros x; try intros Hx; nodes; exfalso; lia.
Qed.

(** The new fragment is then binned. *)
Lemma cut_rebin s m o n left after h h' bs F :
  cut_at s m o n left after h h' -> bins_ok h bs F -> s ∉ F -> (forall l, l ∈ F -> (l < fresh_loc h)%nat) ->
  (forall l, l ∈ dropped h -> (l < fresh_loc h)%nat) -> FRAGMENT_SIZE_MIN <= left < 2 ^ 32 ->
  exists h'' bs', rebin m h' = Ret h'' /\ same_core h' h'' /\ bins_ok h'' bs' (F ∪ {[m]}).
Proof.
  intros Hc Hb Hs Hf Hd Hl.
  assert (forall l, l ∈ F -> l <> m) as Hne by (intros l HF ->; rewrite (cu_new _ _ _ _ _ _ _ _ Hc) in HF; apply Hf in HF; lia).
  assert (bins_ok h' bs F) as Hb'.
  { apply (bins_ok_ext h); [exact Hb | apply Hc.. |]. intros l HF. destruct (cu_free _ _ _ _ _ _ _ _ Hc l) as [? ?]; [auto |].
    split_and!; auto. pose proof (cu_sz _ _ _ _ _ _ _ _ Hc l) as E. unfold sz in E. rewrite E, !decide_False; auto. congruence. }
  assert (size (node h' m) = left) as Esz by (pose proof (cu_sz _ _ _ _ _ _ _ _ Hc m) as E; rewrite decide_True in E by auto; exact E).
  destruct (rebin_ok m h' bs F Hb') as (h'' & E & Sc & Hb''); [intros HF; now apply (Hne m) | | now rewrite Esz | eauto].
  rewrite (cu_dropped _ _ _ _ _ _ _ _ Hc). intros HF%Hd. rewrite (cu_new _ _ _ _ _ _ _ _ Hc) in HF. lia.
Qed.

(** ** Fields of modified nodes *)

Create HintDb heap.

Section Fields.
Context (l : loc) (h : O1Heap) (k : loc).

Lemma off_set_size v : off (modify l (set_size v) h) k = off h k.
Proof. nodes. Qed.
Lemma sz_set_size v : sz (modify l (set_size v) h) k = if decide (k = l) then v else sz h k.
Proof. nodes. Qed.
Lemma inuse_set_size v : inuse (modify l (set_size v) h) k = inuse h k.
Proof. nodes. Qed.
Lemma nx_set_size v : nx (modify l (set_size v) h) k = nx h k.
Proof. nodes. Qed.
Lemma pv_set_size v : pv (modify l (set_size v) h) k = pv h k.
Proof. nodes. Qed.
Lemma off_set_used v : off (modify l (set_used v) h) k = off h k.
Proof. nodes. Qed.
Lemma sz_set_used v : sz (modify l (set_used v) h) k = sz h k.
Proof. nodes. Qed.
Lemma inuse_set_used v : inuse (modify l (set_used v) h) k = if decide (k = l) then v else inuse h k.
Proof. nodes. Qed.
Lemma nx_set_used v : nx (modify l (set_used v) h) k = nx h k.
Proof. nodes. Qed.
Lemma pv_set_used v : pv (modify l (set_used v) h) k = pv h k.
Proof. nodes. Qed.
Lemma off_set_next v : off (modify l (set_next v) h) k = off h k.
Proof. nodes. Qed.
Lemma sz_set_next v : sz (modify l (set_next v) h) k = sz h k.
Proof. nodes. Qed.
Lemma inuse_set_next v : inuse (modify l (set_next v) h) k = inuse h k.
Proof. nodes. Qed.
Lemma nx_set_next v : nx (modify l (set_next v) h) k = if decide (k = l) then v else nx h k.
Proof. nodes. Qed.
Lemma pv_set_next v : pv (modify l (set_next v) h) k = pv h k.
Proof. nodes. Qed.
Lemma off_set_prev v : off (modify l (set_prev v) h) k = off h k.
Proof. nodes. Qed.
Lemma sz_set_prev v : sz (modify l (set_prev v) h) k = sz h k.
Proof. nodes. Qed.
Lemma inuse_set_prev v : inuse (modify l (set_prev v) h) k = inuse h k.
Proof. nodes. Qed.
Lemma nx_set_prev v : nx (modify l (set_prev v) h) k = nx h k.
Proof. nodes. Qed.
Lemma pv_set_prev v : pv (modify l (set_prev v) h) k = if decide (k = l) then v else pv h k.
Proof. nodes. Qed.
End Fields.

#[export] Hint Rewrite off_set_size sz_set_size inuse_set_size nx_set_size pv_set_size off_set_used
   sz_set_used inuse_set_used nx_set_used pv_set_used off_set_next sz_set_next inuse_set_next nx_set_next
   pv_set_next off_set_prev sz_set_prev inuse_set_prev nx_set_prev pv_set_prev : heap.
(** The sum of the sizes of a run. *)
Definition total (h : O1Heap) (ls : list loc) : Z := foldr (fun l n => sz h l + n) 0 ls.

Lemma tiles_total h o ls m :
  tiles (off h) (sz h) o ls m -> m = o + total h ls /\ total h ls mod FRAGMENT_SIZE_MIN = 0 /\ 0 <= total h ls.
Proof.
  revert o. induction ls as [|l ls IH]; intros o; cbn; [intros ->; split_and!; auto; lia |].
  intros (_ & Hp & Hm & Ht). destruct (IH _ Ht) as (-> & Hm' & Hn). fold (total h ls). split_and!; [lia | | lia].
  unfold FRAGMENT_SIZE_MIN in *. rewrite Z.add_mod, Hm, Hm' by lia. reflexivity.
Qed.

Lemma inv_unit h ls bs l : heap_inv h ls bs -> l ∈ ls -> sz h l mod FRAGMENT_SIZE_MIN = 0.
Proof. intros [Hc _ _] Hl. exact (tiles_unit _ _ _ _ _ l (co_tiles _ _ Hc) Hl). Qed.

(** Whole units that differ, differ by a unit. *)
Lemma unit_difference x y :
  x mod FRAGMENT_SIZE_MIN = 0 -> y mod FRAGMENT_SIZE_MIN = 0 -> y <= x -> x - y < FRAGMENT_SIZE_MIN -> x = y.
Proof.
  unfold FRAGMENT_SIZE_MIN. intros Hx Hy. pose proof (Z.div_mod x 256 ltac:(lia)). pose proof (Z.div_mod y 256 ltac:(lia)). lia.
Qed.

(** The result of a splice: the bins hold the free fragments of the new list, and
    no two of them are neighbours. *)
Lemma spliced_inv h h' a s dead mid b bs' F :
  core_ok h (a ++ s :: dead ++ b) -> spliced h h' a s dead mid b ->
  bins_ok h' bs' F -> (forall l, l ∈ F <-> l ∈ a ++ s :: mid ++ b /\ inuse h' l = false) ->
  separated (inuse h') true (a ++ s :: mid ++ b) -> heap_inv h' (a ++ s :: mid ++ b) bs'.
Proof.
  intros Hc Sp Hb HF Hs. split; [exact (spliced_core _ _ _ _ _ _ _ Hc Sp) | | exact Hs].
  assert (F = free_nodes h' (a ++ s :: mid ++ b)) as <-; [|exact Hb].
  apply set_eq. intros l. now rewrite elem_of_free_nodes.
Qed.


(** ** Two shapes of splices *)

(** [s] absorbs [dead] and, when [rest] is positive, keeps [total - rest] bytes and
    leaves the rest to the new fragment [m]. *)
Section Shapes.
Context (h h' : O1Heap) (a : list loc) (s : loc) (dead b : list loc).
Hypothesis Hc : core_ok h (a ++ s :: dead ++ b).
Hypothesis Edropped : dropped h' = dropped h.
Hypothesis Ebase : base h' = base h.
Hypothesis Ecap : capacity (diagnostics h') = capacity (diagnostics h).
Hypothesis Eoff : forall k, (k < fresh_loc h)%nat -> off h' k = off h k.
Hypothesis Esz : forall k, k ∈ a ++ b -> sz h' k = sz h k.
Hypothesis Einuse : forall k, (k < fresh_loc h)%nat -> k ∉ dead -> k <> s -> inuse h' k = inuse h k.
Hypothesis Edead : forall k, k ∈ dead -> inuse h' k = false.
Hypothesis Enx : forall k, k ∈ a ++ b -> nx h' k = nx h k.
Hypothesis Epa : forall k, k ∈ s :: a -> pv h' k = pv h k.
Hypothesis Ehash : forall o l, hashes h' !! o = Some l -> hashes h !! o = Some l \/ ((l < fresh_loc h')%nat /\ off h' l = o).
Hypothesis Ekeep : forall l, l ∈ a ++ b -> inuse h l = true -> hashes h' !! off h l = hashes h !! off h l.
Hypothesis Ehs : inuse h' s = true -> hashes h' !! off h s = Some s.
Hypothesis Ealloc : allocated (diagnostics h') + used_bytes (map (block_of h) (s :: dead))
                    = allocated (diagnostics h) + (if inuse h' s then sz h' s else 0).

Lemma splice_merge :
  fresh_loc h' = fresh_loc h -> sz h' s = total h (s :: dead) -> nx h' s = head b ->
  (forall k, k ∈ b -> pv h' k = if decide (head b = Some k) then Some s else pv h k) ->
  spliced h h' a s dead [] b.
Proof.
  intros Ef Es En Ep. assert (s < fresh_loc h)%nat as Hs by (apply (co_fresh _ _ Hc); set_solver).
  split; auto; try (rewrite Ef; lia || auto; fail).
  - split; [constructor | set_solver].
  - intros l Hl. apply Enx. set_solver.
  - intros l Hl. apply Epa. set_solver.
  - apply Epa. set_solver.
  - exact I.
  - intros l Hl. apply Enx. set_solver.
  - intros m Ht. pose proof Ht as (_ & Hp & _). destruct (tiles_total h _ _ _ Ht) as (-> & Hm & Hn).
    cbn [tiles]. rewrite Es, Eoff by exact Hs. split_and!; auto. cbn in Hn |- *.
    destruct Ht as (_ & _ & _ & Ht). destruct (tiles_total h _ _ _ Ht) as (_ & _ & Hd). cbn. fold (total h dead). lia.
  - intros l [-> | Hl] Hu; [|set_solver]. rewrite Eoff by exact Hs. auto.
  - rewrite Ealloc. cbn. fold (used_bytes []). unfold block_of. cbn. lia.
Qed.

Lemma splice_cut m n :
  m = fresh_loc h -> fresh_loc h' = S m -> 0 < n -> n mod FRAGMENT_SIZE_MIN = 0 -> n < total h (s :: dead) ->
  sz h' s = n -> off h' m = off h s + n -> sz h' m = total h (s :: dead) - n -> inuse h' m = false ->
  nx h' s = Some m -> nx h' m = head b -> pv h' m = Some s ->
  (forall k, k ∈ b -> pv h' k = if decide (head b = Some k) then Some m else pv h k) ->
  spliced h h' a s dead [m] b.
Proof.
  intros Em Ef Hn Hnm Hlt Es Eom Esm Eum Ens Enm Epm Ep.
  assert (s < fresh_loc h)%nat as Hs by (apply (co_fresh _ _ Hc); set_solver).
  split; auto; try (rewrite Ef; lia).
  - split; [apply NoDup_singleton |]. intros l ->%list_elem_of_singleton. lia.
  - intros l Hl Hu. assert (l = m) as -> by lia. congruence.
  - intros l Hl. apply Enx. set_solver.
  - intros l Hl. apply Epa. set_solver.
  - apply Epa. set_solver.
  - cbn. auto.
  - intros l Hl. apply Enx. set_solver.
  - intros x Ht. destruct (tiles_total h _ _ _ Ht) as (-> & Hm & _).
    cbn [tiles]. rewrite Es, Eom, Esm, Eoff by exact Hs. split_and!; auto; try lia.
    unfold FRAGMENT_SIZE_MIN in *. rewrite Zminus_mod, Hm, Hnm. reflexivity.
  - intros l [-> | ->%list_elem_of_singleton] Hu; [|congruence]. rewrite Eoff by exact Hs. auto.
  - rewrite Ealloc. cbn. unfold block_of. cbn. rewrite Eum. lia.
Qed.
End Shapes.

(** ** Splices described node by node *)

Section Described.
Context (h h' : O1Heap) (a : list loc) (s : loc) (dead b : list loc) (u : bool).
Hypothesis Hc : core_ok h (a ++ s :: dead ++ b).

Lemma run_members l : l ∈ s :: dead \/ l ∈ a ++ b -> (l < fresh_loc h)%nat.
Proof. intros Hl. apply (co_fresh _ _ Hc). set_solver. Qed.

Lemma run_disjoint l : l ∈ a ++ b -> l <> s /\ l ∉ dead.
Proof.
  pose proof (co_nodup _ _ Hc) as Hnd. apply NoDup_app in Hnd as (_ & Hd & Hnd). apply NoDup_cons in Hnd as [Hs Hnd].
  apply NoDup_app in Hnd as (_ & Hdb & _). intros Hl. split; [intros ->|]; set_solver.
Qed.

Lemma run_s : s ∉ dead /\ s ∉ b.
Proof.
  pose proof (co_nodup _ _ Hc) as Hnd. apply NoDup_app in Hnd as (_ & _ & Hnd). apply NoDup_cons in Hnd as [Hs _]. set_solver.
Qed.

Lemma run_head k : head b = Some k -> k ∉ s :: a.
Proof.
  intros E. destruct b as [|x b']; [discriminate |]. injection E as ->.
  pose proof (co_nodup _ _ Hc) as Hnd. apply NoDup_app in Hnd as (_ & Hd & Hnd). apply NoDup_cons in Hnd as [Hs _]. set_solver.
Qed.

(** The offsets of the other fragments are outside the run. *)
Lemma run_apart l n : l ∈ a ++ b -> 0 <= n < total h (s :: dead) -> off h l <> off h s + n.
Proof.
  intros Hl Hn E. pose proof (co_tiles _ _ Hc) as Ht. apply tiles_app in Ht as (m1 & Ha & Hs).
  change (s :: dead ++ b) with ((s :: dead) ++ b) in Hs. apply tiles_app in Hs as (m2 & Hs & Hb).
  assert (m1 = off h s) as -> by (cbn in Hs; symmetry; tauto).
  destruct (tiles_total _ _ _ _ Hs) as (-> & _). apply elem_of_app in Hl as [Hl | Hl].
  - pose proof (tiles_in _ _ _ _ _ l Ha Hl). lia.
  - pose proof (tiles_in _ _ _ _ _ l Hb Hl). lia.
Qed.

(** Each fragment of the run starts inside it. *)
Lemma run_inside l : l ∈ s :: dead -> exists n, off h l = off h s + n /\ 0 <= n < total h (s :: dead).
Proof.
  intros Hl. pose proof (co_tiles _ _ Hc) as Ht. apply tiles_app in Ht as (m1 & _ & Hs).
  change (s :: dead ++ b) with ((s :: dead) ++ b) in Hs. apply tiles_app in Hs as (m2 & Hs & _).
  assert (m1 = off h s) as -> by (cbn in Hs; symmetry; tauto).
  destruct (tiles_total _ _ _ _ Hs) as (-> & _). pose proof (tiles_in _ _ _ _ _ l Hs Hl).
  exists (off h l - off h s). lia.
Qed.

Lemma run_keep l : l ∈ a ++ b -> forall k, k ∈ s :: dead -> off h l <> off h k.
Proof. intros Hl k Hk. destruct (run_inside k Hk) as (n & -> & Hn). now apply run_apart. Qed.

Lemma run_total : 0 < total h (s :: dead).
Proof.
  destruct (run_inside s) as (n & E & Hn); [set_solver |]. lia.
Qed.

Hypothesis Edropped : dropped h' = dropped h.
Hypothesis Ebase : base h' = base h.
Hypothesis Ecap : capacity (diagnostics h') = capacity (diagnostics h).
Hypothesis Ealloc : allocated (diagnostics h') + used_bytes (map (block_of h) (s :: dead))
                    = allocated (diagnostics h) + (if u then sz h' s else 0).
Hypothesis Ehs : u = true -> hashes h' !! off h s = Some s.

Lemma described_merge :
  fresh_loc h' = fresh_loc h -> (forall k, off h' k = off h k) ->
  (forall k, k ∉ dead -> sz h' k = if decide (k = s) then total h (s :: dead) else sz h k) ->
  (forall k, inuse h' k = if decide (k = s) then u else if decide (k ∈ dead) then false else inuse h k) ->
  (forall k, k ∉ dead -> nx h' k = if decide (k = s) then head b else nx h k) ->
  (forall k, k ∉ dead -> pv h' k = if decide (head b = Some k) then Some s else pv h k) ->
  (forall o l, hashes h' !! o = Some l -> hashes h !! o = Some l \/ (o = off h s /\ l = s)) ->
  (forall o, (forall l, l ∈ s :: dead -> o <> off h l) -> hashes h' !! o = hashes h !! o) ->
  spliced h h' a s dead [] b.
Proof.
  intros Ef Eo Es Eu En Ep Eh Ek. destruct run_s as [Hsd Hsb]. pose proof (run_members s ltac:(set_solver)) as Hs.
  assert (inuse h' s = u) as Eus by (rewrite Eu; now rewrite decide_True).
  apply splice_merge; auto; rewrite ?Eus; auto.
  - intros k Hk%run_disjoint. rewrite Es, decide_False by tauto. reflexivity.
  - intros k _ Hd Hne. rewrite Eu, !decide_False by auto. reflexivity.
  - intros k Hk. rewrite Eu, decide_False, decide_True by (auto; congruence). reflexivity.
  - intros k Hk%run_disjoint. rewrite En, decide_False by tauto. reflexivity.
  - intros k Hk. assert (k ∉ dead) as Hkd by (apply elem_of_cons in Hk as [-> | Hk]; [auto | apply run_disjoint; set_solver]).
    rewrite Ep, decide_False by (auto; intros E%run_head; auto). reflexivity.
  - intros o l Hl. destruct (Eh o l Hl) as [? | [-> ->]]; [auto |]. right. rewrite Ef, Eo. auto.
  - intros l Hl _. apply Ek. now apply run_keep.
  - rewrite Es by exact Hsd. now rewrite decide_True.
  - rewrite En by exact Hsd. now rewrite decide_True.
  - intros k Hk. apply Ep. apply run_disjoint. set_solver.
Qed.

Lemma described_cut m n :
  u = true -> m = fresh_loc h -> fresh_loc h' = S m -> 0 < n -> n mod FRAGMENT_SIZE_MIN = 0 -> n < total h (s :: dead) ->
  (forall k, off h' k = if decide (k = m) then off h s + n else off h k) ->
  (forall k, k ∉ dead -> sz h' k = if decide (k = s) then n else if decide (k = m) then total h (s :: dead) - n else sz h k) ->
  (forall k, inuse h' k = if decide (k = s) then true else if decide (k = m \/ k ∈ dead) then false else inuse h k) ->
  (forall k, k ∉ dead -> nx h' k = if decide (k = m) then head b else if decide (k = s) then Some m else nx h k) ->
  (forall k, k ∉ dead -> pv h' k = if decide (k = m) then Some s else if decide (head b = Some k) then Some m else pv h k) ->
  (forall o l, hashes h' !! o = Some l -> hashes h !! o = Some l \/ (o = off h s /\ l = s) \/ (o = off h s + n /\ l = m)) ->
  (forall o, (forall l, l ∈ s :: dead -> o <> off h l) -> o <> off h s + n -> hashes h' !! o = hashes h !! o) ->
  spliced h h' a s dead [m] b.
Proof.
  intros Hu Em Ef Hn Hm Hlt Eo Es Eu En Ep Eh Ek. destruct run_s as [Hsd Hsb].
  pose proof (run_members s ltac:(set_solver)) as Hs. assert (s <> m) as Hsm by lia.
  assert (forall k, (k < fresh_loc h)%nat -> k <> m) as Hold by (intros; lia).
  assert (m ∉ dead) as Hmd by (intros Hd; apply (Hold m); [apply run_members; set_solver | reflexivity]).
  assert (inuse h' s = true) as Eus by (rewrite Eu; now rewrite decide_True).
  apply splice_cut with n; auto; rewrite ?Eus; auto.
  - intros k Hk. rewrite Eo, decide_False by auto. reflexivity.
  - intros k Hk. pose proof (run_members k ltac:(auto)). apply run_disjoint in Hk as [? ?].
    rewrite Es, !decide_False by auto. reflexivity.
  - intros k Hk Hd Hne. rewrite Eu, !decide_False by (auto; intros [? | ?]; auto; lia). reflexivity.
  - intros k Hk. rewrite Eu, decide_False, decide_True by (auto; congruence). reflexivity.
  - intros k Hk. pose proof (run_members k ltac:(auto)). apply run_disjoint in Hk as [? ?].
    rewrite En, !decide_False by auto. reflexivity.
  - intros k Hk. assert (k ∉ dead) as Hkd by (apply elem_of_cons in Hk as [-> | Hk]; [auto | apply run_disjoint; set_solver]).
    pose proof (run_members k ltac:(set_solver)). rewrite Ep, !decide_False by (auto; intros E%run_head; auto). reflexivity.
  - intros o l Hl. destruct (Eh o l Hl) as [? | [[-> ->] | [-> ->]]]; [auto | right.. ]; rewrite Ef, Eo.
    + rewrite decide_False by auto. split; [lia | reflexivity].
    + rewrite decide_True by reflexivity. split; [lia | reflexivity].
  - intros l Hl _. apply Ek; [now apply run_keep | apply run_apart; auto; lia].
  - rewrite Ealloc, Hu. reflexivity.
  - rewrite Es by exact Hsd. now rewrite decide_True.
  - rewrite Eo. now rewrite decide_True.
  - rewrite Es by exact Hmd. rewrite decide_False, decide_True by auto. reflexivity.
  - rewrite Eu, decide_False, decide_True by auto. reflexivity.
  - rewrite En by exact Hsd. rewrite decide_False, decide_True by auto. reflexivity.
  - rewrite En by exact Hmd. now rewrite decide_True.
  - rewrite Ep by exact Hmd. now rewrite decide_True.
  - intros k Hk. pose proof (run_members k ltac:(set_solver)). rewrite Ep by (apply run_disjoint; set_solver).
    rewrite decide_False by auto. reflexivity.
Qed.
End Described.
