(* ===== verification/HeapAlloc.v ===== *)
(** * Allocation

    A request is served from the lowest bin that can serve it: [allocate]
    succeeds exactly when some free block is large enough for the rounded size,
    and then cuts the block. *)

From stdpp Require Import gmap sorting.
From S2P Require Import Prelude Heap HeapLinks HeapBins HeapInv.

(** ** Sizes *)

Lemma pos_trailing_zeros_spec p :
  0 <= pos_trailing_zeros p /\ Z.testbit (Zpos p) (pos_trailing_zeros p) = true
  /\ forall j, 0 <= j < pos_trailing_zeros p -> Z.testbit (Zpos p) j = false.
Proof.
  induction p as [p IH | p (Hn & Ht & Hj) |]; cbn [pos_trailing_zeros]; [split_and!; auto; lia.. | |split_and!; auto; lia].
  change (Zpos p~0) with (2 * Zpos p). replace (1 + pos_trailing_zeros p) with (Z.succ (pos_trailing_zeros p)) by lia.
  split_and!; [lia | now rewrite Z.testbit_even_succ by lia |]. intros j Hj'.
  destruct (Z.eq_dec j 0) as [-> | Hne]; [apply Z.testbit_even_0 |].
  replace j with (Z.succ (j - 1)) by lia. rewrite Z.testbit_even_succ by lia. apply Hj. lia.
Qed.

Lemma trailing_zeros_spec x :
  0 < x -> 0 <= trailing_zeros x /\ Z.testbit x (trailing_zeros x) = true
  /\ forall j, 0 <= j < trailing_zeros x -> Z.testbit x j = false.
Proof. destruct x as [|p|p]; [lia | intros _; apply pos_trailing_zeros_spec | lia]. Qed.

Lemma round_up_spec x :
  0 < x < 2 ^ 64 ->
  (2 ^ 63 < x /\ round_up_to_power_of_2 x = 0)
  \/ exists k, 0 <= k <= 63 /\ round_up_to_power_of_2 x = 2 ^ k /\ x <= 2 ^ k < 2 * x.
Proof.
  intros Hx. unfold round_up_to_power_of_2. destruct (Z.leb_spec x 1); [right; exists 0; lia |].
  change (shl 64 1 (64 - 1)) with (2 ^ 63). destruct (Z.ltb_spec (2 ^ 63) x); [auto |]. right.
  destruct (Z.log2_spec x ltac:(lia)) as [Hlo Hhi]. pose proof (Z.log2_nonneg x) as Hn.
  rewrite Z.pow_succ_r in Hhi by lia. assert (Z.log2 x <= 63) as Hl63 by
    (change 63 with (Z.log2 (2 ^ 63)); now apply Z.log2_le_mono).
  unfold is_power_of_two. replace (0 <? x) with true by lia. cbn [andb]. destruct (Z.eqb_spec x (2 ^ Z.log2 x)) as [E | E].
  - exists (Z.log2 x). lia.
  - exists (Z.log2 x + 1). unfold leading_zeros. replace (x =? 0) with false by lia.
    replace (64 - (63 - Z.log2 x)) with (Z.log2 x + 1) by lia.
    assert (Z.log2 x < 63) as Hlt.
    { destruct (Z.eq_dec (Z.log2 x) 63) as [E63 | ?]; [|lia]. rewrite E63 in *. lia. }
    assert (2 ^ (Z.log2 x + 1) < 2 ^ 64) as Hw by (apply Z.pow_lt_mono_r; lia).
    unfold shl. rewrite Z.shiftl_mul_pow2, Z.mul_1_l, wrap_small by (try split; lia).
    rewrite Z.pow_add_r in Hw |- * by lia. lia.
Qed.

(** The size reserved for a request: 0 when it overflows, and otherwise the least
    power of two that is large enough and at least the minimum. *)
Lemma fragment_size_spec x :
  0 < x < 2 ^ 64 ->
  (2 ^ 63 < x /\ fragment_size_for x = 0)
  \/ exists k, 0 <= k <= 55 /\ fragment_size_for x = FRAGMENT_SIZE_MIN * 2 ^ k /\ x <= fragment_size_for x
       /\ (fragment_size_for x < 2 * x \/ fragment_size_for x = FRAGMENT_SIZE_MIN).
Proof.
  intros Hx. unfold fragment_size_for, FRAGMENT_SIZE_MIN. destruct (round_up_spec x Hx) as [[Hb ->] | (k & Hk & -> & Hr)]; [auto |].
  right. replace (2 ^ k =? 0) with false by lia. destruct (Z.le_gt_cases 8 k) as [H8 | H8].
  - exists (k - 8). assert (2 ^ k = 256 * 2 ^ (k - 8)) as E by (change 256 with (2 ^ 8); rewrite <- Z.pow_add_r by lia; f_equal; lia).
    pose proof (Z.pow_pos_nonneg 2 (k - 8)). split_and!; lia.
  - exists 0. assert (2 ^ k <= 2 ^ 7) by (apply Z.pow_le_mono_r; lia). change (2 ^ 7) with 128 in *. split_and!; lia.
Qed.

Lemma log2_ceil_pow2 k : 0 <= k -> log2_ceil (2 ^ k) = k.
Proof.
  intros Hk. unfold log2_ceil. destruct (Z.leb_spec (2 ^ k) 1) as [H1 | H1].
  - destruct (Z.eq_dec k 0) as [-> | ?]; [reflexivity |]. assert (2 ^ 1 <= 2 ^ k) by (apply Z.pow_le_mono_r; lia). lia.
  - rewrite log2_floor_log2 by lia. assert (0 < k) by (destruct (Z.eq_dec k 0); [subst; lia | lia]).
    rewrite <- Z.pred_succ with (n := 2 ^ k - 1), Z.sub_1_r, Z.succ_pred. rewrite Z.log2_pred_pow2 by lia. lia.
Qed.

(** A fragment's class is at least [k] exactly when it holds [256 * 2 ^ k] bytes. *)
Lemma class_ge s k :
  0 <= k -> FRAGMENT_SIZE_MIN <= s < 2 ^ 32 -> (k <= Z.of_nat (class s) <-> FRAGMENT_SIZE_MIN * 2 ^ k <= s).
Proof.
  intros Hk Hs. unfold class. rewrite Z2Nat.id by apply Z.log2_nonneg. unfold FRAGMENT_SIZE_MIN in *.
  assert (0 < s / 256) as Hp by (apply Z.div_str_pos; lia). rewrite <- Z.log2_le_pow2 by lia.
  split; intros Hle.
  - pose proof (Z.mul_div_le s 256). nia.
  - apply Z.div_le_lower_bound; lia.
Qed.

(** The bins at or above [k]. *)
Lemma candidate_bits m k i :
  is_word 64 m -> 0 <= k < 64 -> 0 <= i ->
  Z.testbit (Z.land m (bnot 64 (wsub (shl 64 1 k) 1))) i = (k <=? i) && Z.testbit m i.
Proof.
  intros Hm Hk Hi. assert (shl 64 1 k = 2 ^ k) as ->.
  { unfold shl. rewrite Z.shiftl_mul_pow2, Z.mul_1_l by lia. apply wrap_small. split; [lia | apply Z.pow_lt_mono_r; lia]. }
  assert (2 ^ k < 2 ^ 64) by (apply Z.pow_lt_mono_r; lia).
  unfold wsub. rewrite wrap_small by (split; lia). rewrite Z.land_spec, testbit_bnot by lia.
  rewrite Z.sub_1_r, <- Z.ones_equiv, Z.testbit_ones_nonneg by lia.
  destruct (Z.ltb_spec i k), (Z.leb_spec k i), (Z.ltb_spec i 64); try lia; try btauto.
  rewrite (word_high 64 m i) by (auto; lia). btauto.
Qed.

(** ** Carving a fragment *)

(** The part of a block of [s] bytes at [o] that is left when [n] are taken. *)
Definition remainder (o s n : Z) : list block := if s =? n then [] else [(o + n, s - n, false)].

(** What [carve] does to the fragment and to the rest of the heap. *)
Definition carved (h h' : O1Heap) (a : list loc) (frag : loc) (b : list loc) (n : Z) : Prop :=
  exists mid bs', heap_inv h' (a ++ frag :: mid ++ b) bs'
    /\ map (block_of h') (frag :: mid) = (off h frag, n, true) :: remainder (off h frag) (sz h frag) n
    /\ (forall l, l ∈ a ++ b -> block_of h' l = block_of h l)
    /\ base h' = base h /\ capacity (diagnostics h') = capacity (diagnostics h).

Lemma inv_apart h a s b bs : heap_inv h (a ++ s :: b) bs -> s ∉ a /\ s ∉ b.
Proof.
  intros Hi. pose proof (co_nodup _ _ (hi_core _ _ _ Hi)) as Hnd. apply NoDup_app in Hnd as (_ & Hd & Hn).
  apply NoDup_cons in Hn as [? _]. split; [set_solver | assumption].
Qed.

Lemma inv_successor h a l b bs k : heap_inv h (a ++ l :: b) bs -> head b = Some k -> pv h k = Some l.
Proof.
  intros Hi E. pose proof (co_links _ _ (hi_core _ _ _ Hi)) as Hs. apply seg_app in Hs as [_ (_ & _ & Hs)].
  destruct b as [|x b']; [discriminate |]. injection E as ->. apply Hs.
Qed.

Lemma inv_successor_old h a l b bs : heap_inv h (a ++ l :: b) bs -> forall k, head b = Some k -> (k < fresh_loc h)%nat.
Proof.
  intros Hi k E. apply (co_fresh _ _ (hi_core _ _ _ Hi)). destruct b as [|x b']; [discriminate |]. injection E as ->. set_solver.
Qed.

(** Distinct fragments have distinct offsets, and none lies inside another. *)
Lemma inv_offset h ls bs l k :
  heap_inv h ls bs -> l ∈ ls -> k ∈ ls -> l <> k -> forall n, 0 <= n < sz h l -> off h k <> off h l + n.
Proof.
  intros [Hc _ _] Hl Hk Hne n Hn E. pose proof (tiles_in _ _ _ _ _ k (co_tiles _ _ Hc) Hk).
  destruct (tiles_apart _ _ _ _ _ l k (co_nodup _ _ Hc) (co_tiles _ _ Hc) Hl Hk Hne); lia.
Qed.

Lemma used_bytes_tiles h o ls e : tiles (off h) (sz h) o ls e -> 0 <= used_bytes (map (block_of h) ls) <= e - o.
Proof.
  revert o. induction ls as [|l ls IH]; intros o; cbn; [lia |]. intros (_ & ? & _ & Ht%IH).
  fold (used_bytes (map (block_of h) ls)). destruct (inuse h l); lia.
Qed.

Lemma inv_allocated h ls bs : heap_inv h ls bs -> 0 <= allocated (diagnostics h) <= capacity (diagnostics h).
Proof.
  intros [Hc _ _]. rewrite (co_allocated _ _ Hc). pose proof (used_bytes_tiles _ _ _ _ (co_tiles _ _ Hc)). lia.
Qed.

(** A free fragment is not counted. *)
Lemma inv_allocated_free h a l b bs :
  heap_inv h (a ++ l :: b) bs -> inuse h l = false ->
  allocated (diagnostics h) + sz h l <= capacity (diagnostics h).
Proof.
  intros [Hc _ _] Hl. rewrite (co_allocated _ _ Hc), map_app, used_bytes_app. cbn. rewrite Hl. cbn.
  fold (used_bytes (map (block_of h) b)). pose proof (co_tiles _ _ Hc) as Ht. apply tiles_app in Ht as (m & Ha & Hb).
  cbn in Hb. destruct Hb as (_ & _ & _ & Hb). apply used_bytes_tiles in Ha, Hb. lia.
Qed.

(** The heap [h1] is [h] with [frag] out of its bin. *)
Section Carve.
Context (h h1 : O1Heap) (a : list loc) (frag : loc) (b : list loc) (bs bs1 : nat -> list loc) (n : Z).
Hypothesis Hi : heap_inv h (a ++ frag :: b) bs.
Hypothesis Hfree : inuse h frag = false.
Hypothesis Sc : same_core h h1.
Hypothesis Hb1 : bins_ok h1 bs1 (free_nodes h (a ++ frag :: b) ∖ {[frag]}).
Hypothesis Hn : FRAGMENT_SIZE_MIN <= n <= sz h frag.
Hypothesis Hunit : n mod FRAGMENT_SIZE_MIN = 0.

Definition handed_out (h3 : O1Heap) : O1Heap :=
  note_peak (add_allocated n (set_hashes (<[off h frag := frag]> (hashes h3))
    (modify frag (set_size n) (modify frag (set_used true) h3)))).

Lemma handed_out_fields h3 :
  (forall k, off (handed_out h3) k = off h3 k) /\ (forall k, nx (handed_out h3) k = nx h3 k)
  /\ (forall k, pv (handed_out h3) k = pv h3 k)
  /\ (forall k, sz (handed_out h3) k = if decide (k = frag) then n else sz h3 k)
  /\ (forall k, inuse (handed_out h3) k = if decide (k = frag) then true else inuse h3 k)
  /\ forall k, next_free (node (handed_out h3) k) = next_free (node h3 k)
               /\ prev_free (node (handed_out h3) k) = prev_free (node h3 k).
Proof. unfold handed_out, note_peak, add_allocated. split_and!; intros k; nodes. Qed.

Lemma handed_out_bins h3 bs3 F : bins_ok h3 bs3 F -> frag ∉ F -> bins_ok (handed_out h3) bs3 F.
Proof.
  intros Hb Hf. destruct (handed_out_fields h3) as (_ & _ & _ & Es & _ & Efr).
  apply (bins_ok_ext h3); auto. intros l Hl. destruct (Efr l). split_and!; auto.
  change (sz (handed_out h3) l = sz h3 l). rewrite Es, decide_False; [reflexivity | congruence].
Qed.

Lemma carve_range : 0 <= off h frag /\ sz h frag < 2 ^ 32 /\ off h frag + sz h frag < 2 ^ 32
  /\ base h + off h frag + sz h frag <= 2 ^ 64 /\ 0 <= base h
  /\ allocated (diagnostics h) + n <= capacity (diagnostics h) < 2 ^ 32.
Proof.
  destruct (inv_sizes _ _ _ frag Hi) as (Ho & Hs & He & Hcap); [set_solver |].
  pose proof (co_base _ _ (hi_core _ _ _ Hi)) as [Hb Hbc]. split_and!; try (unfold FRAGMENT_SIZE_MIN in *; lia).
  pose proof (inv_allocated_free _ _ _ _ _ Hi Hfree). lia.
Qed.

Lemma handed_out_alloc h3 :
  diagnostics h3 = diagnostics h -> allocated (diagnostics (handed_out h3)) = allocated (diagnostics h) + n
    /\ capacity (diagnostics (handed_out h3)) = capacity (diagnostics h).
Proof.
  intros Ed. destruct carve_range as (_ & _ & _ & _ & _ & Ha). pose proof (inv_allocated _ _ _ Hi).
  unfold handed_out, note_peak, add_allocated. cbn. rewrite Ed. split; [|reflexivity]. unfold wadd.
  apply wrap_small. split; unfold FRAGMENT_SIZE_MIN in *; lia.
Qed.

Lemma carve_free_set F mid hf :
  F = free_nodes h (a ++ frag :: b) ∖ {[frag]} ∪ list_to_set mid -> (forall l, l ∈ mid -> inuse hf l = false) ->
  (forall l, l ∈ a ++ b -> inuse hf l = inuse h l) -> inuse hf frag = true ->
  forall l, l ∈ F <-> l ∈ a ++ frag :: mid ++ b /\ inuse hf l = false.
Proof.
  intros -> Hm He Hf l. destruct (inv_apart _ _ _ _ _ Hi) as [Ha Hb].
  rewrite elem_of_union, elem_of_difference, elem_of_free_nodes, elem_of_list_to_set, elem_of_singleton.
  split.
  - intros [[[Hl Hu] Hne] | Hl]; [|split; [set_solver | auto]]. assert (l ∈ a ++ b) as Hab by set_solver.
    rewrite He by exact Hab. split; [set_solver | exact Hu].
  - intros [Hl Hu]. destruct (decide (l ∈ mid)) as [? | Hnm]; [auto |]. left.
    assert (l <> frag) as Hne by congruence. assert (l ∈ a ++ b) as Hab by set_solver. rewrite He in Hu by exact Hab.
    split_and!; auto. set_solver.
Qed.

(** What remains once the links are right. *)
Lemma carve_finish hf mid bs' :
  spliced h hf a frag [] mid b -> (mid = [] \/ exists m, mid = [m]) ->
  bins_ok hf bs' (free_nodes h (a ++ frag :: b) ∖ {[frag]} ∪ list_to_set mid) ->
  (forall l, l ∈ mid -> inuse hf l = false) -> inuse hf frag = true ->
  map (block_of hf) (frag :: mid) = (off h frag, n, true) :: remainder (off h frag) (sz h frag) n ->
  carved h hf a frag b n.
Proof.
  intros Sp Hmid Hb Hm Hu Eb. destruct (free_neighbours _ _ _ _ _ Hi Hfree) as [_ Hr].
  assert (forall l, l ∈ a ++ b -> inuse hf l = inuse h l) as Eu.
  { intros l Hl. pose proof (spliced_blocks h hf a frag [] mid b (hi_core _ _ _ Hi) Sp l Hl) as E. now injection E. }
  exists mid, bs'. split_and!; [|exact Eb | | exact (sp_base Sp) | exact (sp_capacity Sp)].
  - eapply (spliced_inv h _ a frag [] mid b); [apply (hi_core _ _ _ Hi) | exact Sp | exact Hb | |].
    + now apply carve_free_set.
    + apply (separated_splice (inuse h) _ a frag [] mid b);
        [apply (hi_separated _ _ _ Hi) | exact Eu | now left | | now right].
      destruct Hmid as [-> | (m & ->)]; [exact I |]. split; [now left | exact I].
  - intros l Hl. exact (spliced_blocks h hf a frag [] mid b (hi_core _ _ _ Hi) Sp l Hl).
Qed.

Lemma carve_exact : n = sz h frag -> carved h (handed_out (modify frag (set_size n) h1)) a frag b n.
Proof.
  intros En. set (h3 := modify frag (set_size n) h1). set (hf := handed_out h3).
  destruct (handed_out_fields h3) as (Eo & Enx & Epv & Es & Eu & _). fold hf in Eo, Enx, Epv, Es, Eu.
  destruct (handed_out_alloc h3) as [Eal Ecap]; [apply Sc |]. fold hf in Eal, Ecap.
  destruct (inv_neighbours _ _ _ _ _ Hi) as [_ Enf]. assert (inuse hf frag = true) as Euf by (rewrite Eu; now rewrite decide_True).
  apply (carve_finish hf [] bs1); auto; [| |set_solver |].
  - apply described_merge with true; auto; try apply Sc; [apply Hi | | | intros k; rewrite Eo |intros k _; rewrite Es | | intros k _; rewrite Enx |
      intros k _; rewrite Epv | |]; unfold h3; rewrite ?off_set_size, ?nx_set_size, ?pv_set_size, ?sz_set_size;
      rewrite ?(core_off _ _ Sc), ?(core_nx _ _ Sc), ?(core_pv _ _ Sc), ?(core_sz _ _ Sc); auto.
    + rewrite Eal. cbn. rewrite Hfree, Es, decide_True by reflexivity. lia.
    + intros _. cbn. apply lookup_insert_eq.
    + cbn. case_decide; [lia | reflexivity].
    + intros k. rewrite Eu. unfold h3. rewrite inuse_set_size, (core_inuse _ _ Sc). case_decide; [reflexivity |].
      rewrite decide_False by set_solver. reflexivity.
    + case_decide; subst; auto.
    + case_decide as E; [|reflexivity]. exact (inv_successor _ _ _ _ _ _ Hi E).
    + cbn. rewrite (sc_hashes _ _ Sc). intros o l [[<- <-] | [_ ?]]%lookup_insert_Some; auto.
    + cbn. rewrite (sc_hashes _ _ Sc). intros o Ho. apply lookup_insert_ne. intros <-. apply (Ho frag); [set_solver | reflexivity].
  - cbn. rewrite union_empty_r_L. apply handed_out_bins; [|set_solver].
    apply (bins_ok_ext h1); [exact Hb1 | reflexivity.. |]. intros l Hlf. unfold h3. rewrite node_modify.
    case_decide; [subst; set_solver | auto].
  - cbn. unfold block_of. rewrite Eo, Es, Euf, decide_True by reflexivity. unfold remainder. rewrite En, Z.eqb_refl.
    unfold h3. now rewrite off_set_size, (core_off _ _ Sc).
Qed.

Lemma carve_cut h2 h3 bs3 m :
  n < sz h frag -> cut_at frag m (off h frag + n) n (sz h frag - n) (nx h frag) h1 h2 -> same_core h2 h3 ->
  bins_ok h3 bs3 (free_nodes h (a ++ frag :: b) ∖ {[frag]} ∪ {[m]}) -> carved h (handed_out h3) a frag b n.
Proof.
  intros Hlt Hcut Sc3 Hb3. set (hf := handed_out h3).
  destruct (handed_out_fields h3) as (Eo & Enx & Epv & Es & Eu & _). fold hf in Eo, Enx, Epv, Es, Eu.
  destruct (handed_out_alloc h3) as [Eal Ecap].
  { rewrite (sc_diag _ _ Sc3), (cu_diag _ _ _ _ _ _ _ _ Hcut). apply Sc. } fold hf in Eal, Ecap.
  destruct (inv_neighbours _ _ _ _ _ Hi) as [_ Enf].
  assert (m = fresh_loc h) as Em by (rewrite (cu_new _ _ _ _ _ _ _ _ Hcut); apply Sc).
  assert (frag <> m) as Hfm.
  { assert (frag < fresh_loc h)%nat by (apply (co_fresh _ _ (hi_core _ _ _ Hi)); set_solver). lia. }
  assert (inuse hf frag = true) as Euf by (rewrite Eu; now rewrite decide_True).
  assert (forall k, off hf k = if decide (k = m) then off h frag + n else off h k) as Foff.
  { intros k. now rewrite Eo, (core_off _ _ Sc3), (cu_off _ _ _ _ _ _ _ _ Hcut), (core_off _ _ Sc). }
  assert (forall k, sz hf k = if decide (k = frag) then n else if decide (k = m) then sz h frag - n else sz h k) as Fsz.
  { intros k. rewrite Es, (core_sz _ _ Sc3), (cu_sz _ _ _ _ _ _ _ _ Hcut), (core_sz _ _ Sc). repeat case_decide; auto. }
  assert (forall k, inuse hf k = if decide (k = frag) then true else if decide (k = m) then false else inuse h k) as Fu.
  { intros k. now rewrite Eu, (core_inuse _ _ Sc3), (cu_inuse _ _ _ _ _ _ _ _ Hcut), (core_inuse _ _ Sc). }
  assert (hashes hf = <[off h frag := frag]> (<[off h frag + n := m]> (hashes h))) as Fh.
  { cbn. now rewrite (sc_hashes _ _ Sc3), (cu_hashes _ _ _ _ _ _ _ _ Hcut), (sc_hashes _ _ Sc). }
  apply (carve_finish hf [m] bs3); [|right; now exists m | | | exact Euf |].
  - apply described_cut with (u := true) (n := n); auto.
    + apply Hi.
    + cbn. rewrite (sc_dropped _ _ Sc3), (cu_dropped _ _ _ _ _ _ _ _ Hcut). apply Sc.
    + cbn. rewrite (sc_base _ _ Sc3), (cu_base _ _ _ _ _ _ _ _ Hcut). apply Sc.
    + rewrite Eal, Fsz, decide_True by reflexivity. cbn. rewrite Hfree. lia.
    + intros _. rewrite Fh. apply lookup_insert_eq.
    + cbn. rewrite (sc_fresh _ _ Sc3). apply Hcut.
    + unfold FRAGMENT_SIZE_MIN in *. lia.
    + cbn. lia.
    + intros k _. rewrite Fsz. cbn. repeat case_decide; auto; lia.
    + intros k. rewrite Fu. destruct (decide (k = frag)); [reflexivity |]. destruct (decide (k = m)) as [Ek | Ek].
      * rewrite decide_True by auto. reflexivity.
      * rewrite decide_False; [reflexivity |]. intros [? | Hk%elem_of_nil]; auto.
    + intros k _. now rewrite Enx, (core_nx _ _ Sc3), (cu_nx _ _ _ _ _ _ _ _ Hcut), (core_nx _ _ Sc), Enf.
    + intros k _. now rewrite Epv, (core_pv _ _ Sc3), (cu_pv _ _ _ _ _ _ _ _ Hcut), (core_pv _ _ Sc), Enf.
    + intros o l. rewrite Fh. intros [[<- <-] | [_ [[<- <-] | [_ ?]]%lookup_insert_Some]]%lookup_insert_Some; auto.
    + intros o Ho Hne. rewrite Fh, !lookup_insert_ne; auto. apply not_eq_sym, Ho. set_solver.
  - cbn. rewrite union_empty_r_L. apply handed_out_bins; [exact Hb3 |]. set_solver.
  - intros l ->%list_elem_of_singleton. rewrite Fu, decide_False, decide_True by auto. reflexivity.
  - cbn. unfold block_of. rewrite !Foff, !Fsz, !Fu. destruct (decide (frag = m)), (decide (m = frag)), (decide (frag = frag)),
      (decide (m = m)); try congruence. unfold remainder. replace (sz h frag =? n) with false by lia. reflexivity.
Qed.

Lemma carve_ok : exists h', carve n frag h1 = Ret (Some (base h + off h frag), h') /\ carved h h' a frag b n.
Proof.
  destruct carve_range as (Ho & Hs & Hend & Hbase & Hb & Ha). unfold carve. pose proof (co_fresh _ _ (hi_core _ _ _ Hi)) as Hfr.
  assert (forall h3, base h3 = base h -> wadd (off h frag) (base (handed_out h3)) = base h + off h frag) as Ebase.
  { intros h3 E. cbn. rewrite E. unfold wadd. rewrite wrap_small; [lia |]. unfold FRAGMENT_SIZE_MIN in *. split; lia. }
  change (size (node h1 frag)) with (sz h1 frag). change (offset (node h1 frag)) with (off h1 frag).
  rewrite (core_sz _ _ Sc), (core_off _ _ Sc). unfold FRAGMENT_SIZE_MIN in *.
  rewrite !(wrap_small 32 n) by (split; lia). rewrite (wrap_small 32 (sz h frag - n)) by (split; lia).
  rewrite (wrap_small 32 (off h frag + n)) by (split; lia).
  destruct (Z.leb_spec 256 (sz h frag - n)) as [Hl | Hl].
  - change (next (node (modify frag (set_size n) h1) frag)) with (nx (modify frag (set_size n) h1) frag).
    rewrite nx_set_size, (core_nx _ _ Sc). destruct (inv_neighbours _ _ _ _ _ Hi) as [_ Enf].
    pose proof (modify_link_after_cut frag (off h frag + n) n (sz h frag - n) (nx h frag) h1) as Hcut.
    destruct (link_after _ _ _ _ _) as [m h2]. rewrite (sc_fresh _ _ Sc), Enf in Hcut.
    specialize (Hcut (Hfr frag ltac:(set_solver)) (inv_successor_old _ _ _ _ _ Hi)).
    rewrite <- Enf in Hcut. destruct (cut_rebin _ _ _ _ _ _ _ _ _ _ Hcut Hb1) as (h3 & bs3 & E & Sc3 & Hb3);
      [set_solver | | | unfold FRAGMENT_SIZE_MIN; lia |].
    { intros l Hl'. rewrite (sc_fresh _ _ Sc). apply Hfr. apply elem_of_difference in Hl' as [Hl' _]. now apply elem_of_free_nodes in Hl'. }
    { rewrite (sc_dropped _ _ Sc), (sc_fresh _ _ Sc). apply (co_dropped _ _ (hi_core _ _ _ Hi)). }
    rewrite E. cbn [mbind outcome_bind]. eexists. split; [|eapply (carve_cut _ h3); eauto; lia].
    unfold handed_out at 1. rewrite <- (Ebase h3) at 1; [reflexivity |].
    rewrite (sc_base _ _ Sc3), (cu_base _ _ _ _ _ _ _ _ Hcut). apply Sc.
  - assert (n = sz h frag) as En.
    { symmetry. apply unit_difference; [|exact Hunit | lia | unfold FRAGMENT_SIZE_MIN; lia].
      apply (inv_unit _ _ _ frag Hi). set_solver. }
    cbn [mbind outcome_bind]. eexists. split; [|now apply carve_exact].
    rewrite <- (Ebase (modify frag (set_size n) h1)) at 1; [reflexivity |]. apply Sc.
Qed.
End Carve.


(** ** The choice of a bin *)

(** The head of a bin of class at least [k], taken out of the bin. *)
Lemma bin_found h bs F k i :
  bins_ok h bs F -> 0 <= k < 64 -> i = trailing_zeros (Z.land (nonempty_bin_mask h) (bnot 64 (wsub (shl 64 1 k) 1))) ->
  Z.land (nonempty_bin_mask h) (bnot 64 (wsub (shl 64 1 k) 1)) <> 0 ->
  exists frag h1 bs1, 0 <= i < 24 /\ k <= i /\ frag ∈ F /\ i = Z.of_nat (class (size (node h frag)))
    /\ get_bin i h = Ret (Some frag)
    /\ (h' ← put_bin i None h; unbin frag h') = Ret h1 /\ same_core h h1 /\ bins_ok h1 bs1 (F ∖ {[frag]})
    /\ forall l, l ∈ F -> k <= Z.of_nat (class (size (node h l))) -> i <= Z.of_nat (class (size (node h l))).
Proof.
  intros Hb Hk Ei Hne. set (m := Z.land _ _) in *.
  assert (0 < m) as Hm.
  { assert (is_word 64 m) by (apply word_land; [apply Hb | lia]). unfold is_word in *. lia. }
  destruct (trailing_zeros_spec m Hm) as (H0 & Hbit & Hlow). rewrite <- Ei in *.
  unfold m in Hbit. rewrite candidate_bits in Hbit by (auto; apply Hb). apply andb_true_iff in Hbit as [Hki Hmi].
  rewrite (bo_mask _ _ _ Hb) in Hmi by exact H0. apply bool_decide_eq_true in Hmi.
  destruct (bs (Z.to_nat i)) as [|frag r] eqn:Er; [congruence |].
  assert (frag ∈ F /\ class (size (node h frag)) = Z.to_nat i) as [HF Hcl] by
    (apply (bo_mem _ _ _ Hb); rewrite Er; set_solver).
  pose proof (class_lt _ (bo_size _ _ _ Hb frag HF)) as Hlt.
  destruct (unbin_ok frag h bs F Hb HF) as (h1 & bs1 & _ & Sc & Hb1 & Hhead). cbn zeta in Hhead.
  exists frag, h1, bs1. split_and!; auto; try lia.
  - unfold get_bin. rewrite (bo_head _ _ _ Hb) by (unfold NUM_BINS_MAX; lia). now rewrite Er.
  - replace i with (Z.of_nat (class (size (node h frag)))) by lia. rewrite put_bin_ok by (auto; apply Hb).
    cbn [mbind outcome_bind]. apply Hhead. rewrite Hcl, Er. reflexivity.
  - intros l Hl Hkl. destruct (Z.le_gt_cases i (Z.of_nat (class (size (node h l))))) as [? | Hgt]; [assumption |]. exfalso.
    specialize (Hlow (Z.of_nat (class (size (node h l)))) ltac:(lia)). unfold m in Hlow.
    rewrite candidate_bits, (bo_mask _ _ _ Hb), Nat2Z.id in Hlow by (auto; try apply Hb; lia).
    replace (k <=? _) with true in Hlow by lia. cbn [andb] in Hlow. apply bool_decide_eq_false in Hlow. apply Hlow.
    intros E. assert (l ∈ bs (class (size (node h l)))) as Hin by (now apply (bo_mem _ _ _ Hb)). rewrite E in Hin. set_solver.
Qed.

Lemma no_bin h bs F k l :
  bins_ok h bs F -> 0 <= k < 64 -> Z.land (nonempty_bin_mask h) (bnot 64 (wsub (shl 64 1 k) 1)) = 0 -> l ∈ F ->
  Z.of_nat (class (size (node h l))) < k.
Proof.
  intros Hb Hk E Hl. destruct (Z.lt_ge_cases (Z.of_nat (class (size (node h l)))) k) as [? | Hge]; [assumption |]. exfalso.
  pose proof (candidate_bits (nonempty_bin_mask h) k (Z.of_nat (class (size (node h l)))) (bo_word _ _ _ Hb) Hk ltac:(lia)) as Hbit.
  rewrite E, Z.bits_0, (bo_mask _ _ _ Hb), Nat2Z.id in Hbit by lia. replace (k <=? _) with true in Hbit by lia.
  symmetry in Hbit. cbn [andb] in Hbit. apply bool_decide_eq_false in Hbit. apply Hbit. intros E'.
  assert (l ∈ bs (class (size (node h l)))) as Hin by (now apply (bo_mem _ _ _ Hb)). rewrite E' in Hin. set_solver.
Qed.

(** ** The specification of an allocation *)

(** A request on the blocks [bl]: refused when no free block can hold the rounded
    size, and otherwise served from the front of a free block of the smallest
    class that can. *)
Inductive allocates (bl : list block) (amount : Z) : option Z -> list block -> Prop :=
| allocates_none :
    amount = 0 \/ fragment_size_for amount = 0 \/ (forall o s, (o, s, false) ∈ bl -> s < fragment_size_for amount) ->
    allocates bl amount None bl
| allocates_some l1 o s l2 :
    bl = l1 ++ (o, s, false) :: l2 -> 0 < amount <= fragment_size_for amount -> fragment_size_for amount <= s ->
    (forall o' s', (o', s', false) ∈ bl -> fragment_size_for amount <= s' -> (class s <= class s')%nat) ->
    allocates bl amount (Some o) (l1 ++ (o, fragment_size_for amount, true) :: remainder o s (fragment_size_for amount) ++ l2).

(** The blocks of the list of fragments. *)
Lemma free_block h ls o s : (o, s, false) ∈ map (block_of h) ls -> exists l, l ∈ free_nodes h ls /\ o = off h l /\ s = sz h l.
Proof.
  rewrite list_elem_of_In, in_map_iff. intros (l & E & Hl%list_elem_of_In). unfold block_of in E. injection E as <- <- Hu.
  exists l. rewrite elem_of_free_nodes. auto.
Qed.

Lemma represents_same h h' bl : represents h bl -> (forall k, node h' k = node h k) -> fresh_loc h' = fresh_loc h ->
  dropped h' = dropped h -> base h' = base h -> bins h' = bins h -> hashes h' = hashes h ->
  nonempty_bin_mask h' = nonempty_bin_mask h -> capacity (diagnostics h') = capacity (diagnostics h) ->
  allocated (diagnostics h') = allocated (diagnostics h) -> represents h' bl.
Proof.
  intros (ls & bs & [Hc Hb Hs] & ->) En Ef Ed Eb Ebi Eh Em Ec Ea. exists ls, bs.
  assert (forall l, block_of h' l = block_of h l) as Ebl by (intros l; unfold block_of, off, sz, inuse; now rewrite En).
  assert (forall l, off h' l = off h l) as Eo by (intros l; unfold off; now rewrite En).
  assert (forall l, inuse h' l = inuse h l) as Eu by (intros l; unfold inuse; now rewrite En).
  split; [|apply map_ext; intros; symmetry; apply Ebl]. split.
  - destruct Hc as [Hnd Hfr Hlive Hdr Hlink Htile Hcap Hbase Hhu Hh Hu Ha].
    split; rewrite ?Ef, ?Ed, ?Eb, ?Ec, ?Ea, ?Eh; auto.
    + eapply seg_ext; [|exact Hlink]. intros l _. unfold nx, pv. now rewrite En.
    + eapply tiles_ext; [|exact Htile]. intros l _. unfold off, sz. now rewrite En.
    + intros l. rewrite Eu, Eo. auto.
    + intros o l. rewrite Eo. auto.
    + intros l. rewrite Eu. auto.
    + rewrite Ha. f_equal. apply map_ext. intros. now rewrite Ebl.
  - assert (free_nodes h' ls = free_nodes h ls) as -> by
      (apply set_eq; intros l; rewrite !elem_of_free_nodes, Eu; reflexivity).
    apply (bins_ok_ext h); auto. intros l _. now rewrite En.
  - eapply separated_ext; [|exact Hs]. auto.
Qed.

(** A request that is carved out of a free fragment. *)
Lemma carved_represents h h' a frag b n :
  carved h h' a frag b n ->
  represents h' (map (block_of h) a ++ (off h frag, n, true) :: remainder (off h frag) (sz h frag) n ++ map (block_of h) b).
Proof.
  intros (mid & bs' & Hi & Em & Eab & _). exists (a ++ frag :: mid ++ b), bs'. split; [exact Hi |].
  change (frag :: mid ++ b) with ((frag :: mid) ++ b). rewrite !map_app, Em.
  rewrite (blocks_ext h h' a), (blocks_ext h h' b) by (intros; apply Eab; set_solver). reflexivity.
Qed.

(** The request fits the arena and is not zero. *)
Lemma serve_ok h ls bs amount :
  heap_inv h ls bs -> 0 < amount < 2 ^ 64 -> fragment_size_for amount <> 0 ->
  fragment_size_for amount <= capacity (diagnostics h) ->
  exists r h' bl', allocate_body amount h = Ret (Z.add (base h) <$> r, h') /\ allocates (map (block_of h) ls) amount r bl'
    /\ represents h' bl' /\ base h' = base h /\ capacity (diagnostics h') = capacity (diagnostics h).
Proof.
  intros Hi Ham H0 Hcap. pose proof (co_capacity _ _ (hi_core _ _ _ Hi)) as Hc32.
  destruct (fragment_size_spec amount Ham) as [[? ?] | (k & Hk & En & Hle & _)]; [lia |].
  unfold allocate_body. replace (amount =? 0) with false by lia. set (n := fragment_size_for amount) in *.
  replace ((n =? 0) || (capacity (diagnostics h) <? n)) with false by lia.
  assert (n / FRAGMENT_SIZE_MIN = 2 ^ k) as -> by (rewrite En, Z.mul_comm; apply Z.div_mul; discriminate).
  rewrite log2_ceil_pow2 by lia. pose proof (hi_bins _ _ _ Hi) as Hb.
  assert (forall l, l ∈ free_nodes h ls -> (k <= Z.of_nat (class (sz h l)) <-> n <= sz h l)) as Hcls.
  { intros l Hl. rewrite En. apply class_ge; [lia | now apply (bo_size _ _ _ Hb)]. }
  destruct (Z.eqb_spec (Z.land (nonempty_bin_mask h) (bnot 64 (wsub (shl 64 1 k) 1))) 0) as [E0 | E0]; cbn [negb].
  - exists None, h, (map (block_of h) ls). split_and!; auto; [|now exists ls, bs].
    constructor. right. right. intros o s (l & Hl & -> & ->)%free_block.
    pose proof (no_bin h bs _ k l Hb ltac:(lia) E0 Hl) as Hlt. change (size (node h l)) with (sz h l) in Hlt.
    specialize (Hcls l Hl). fold n. lia.
  - destruct (bin_found h bs _ k _ Hb ltac:(lia) eq_refl E0) as (frag & h1 & bs1 & Hi24 & Hki & HF & Ecl & Eg & Eu & Sc & Hb1 & Hmin).
    set (i := trailing_zeros _) in *. replace (i <? NUM_BINS_MAX) with true by (unfold NUM_BINS_MAX; lia).
    rewrite Eg. cbn [mbind outcome_bind]. pose proof HF as [Hls Hfree]%elem_of_free_nodes.
    apply list_elem_of_split in Hls as (a & b & ->).
    assert (n mod FRAGMENT_SIZE_MIN = 0) as Hunit by (rewrite En, Z.mul_comm; apply Z.mod_mul; discriminate).
    destruct (carve_ok h h1 a frag b bs bs1 n Hi Hfree Sc Hb1) as (h' & E & Hcv); auto.
    { split; [rewrite En; pose proof (Z.pow_pos_nonneg 2 k); unfold FRAGMENT_SIZE_MIN; lia |].
      apply Hcls; [exact HF |]. unfold sz. lia. }
    exists (Some (off h frag)), h', (map (block_of h) a ++ (off h frag, n, true) :: remainder (off h frag) (sz h frag) n ++ map (block_of h) b).
    split_and!; [| |now apply carved_represents | |].
    + destruct (put_bin i None h) as [h2|] eqn:Ep; [|discriminate]. cbn [mbind outcome_bind] in Eu |- *. rewrite Eu. exact E.
    + apply allocates_some; [rewrite map_app; cbn [map]; unfold block_of at 2; now rewrite Hfree | fold n; lia | |].
      * apply Hcls; [exact HF |]. unfold sz. lia.
      * intros o' s' (l & Hl & -> & ->)%free_block Hn. apply Hcls in Hn; [|exact Hl]. apply Hmin in Hn; [|exact Hl].
        unfold sz in *. lia.
    + destruct Hcv as (? & ? & _ & _ & _ & ? & _). assumption.
    + destruct Hcv as (? & ? & _ & _ & _ & _ & ?). assumption.
Qed.

Lemma allocate_body_ok h bl amount :
  represents h bl -> is_word 64 amount ->
  exists r h' bl', allocate_body amount h = Ret (Z.add (base h) <$> r, h') /\ allocates bl amount r bl'
    /\ represents h' bl' /\ base h' = base h /\ capacity (diagnostics h') = capacity (diagnostics h).
Proof.
  intros Hr Ham. pose proof Hr as (ls & bs & Hi & ->). unfold is_word in Ham.
  destruct (Z.eq_dec amount 0) as [-> | Hne].
  { exists None, h, (map (block_of h) ls). split_and!; auto. constructor. auto. }
  destruct (Z.eq_dec (fragment_size_for amount) 0) as [E0 | E0]; [|destruct (Z.le_gt_cases (fragment_size_for amount)
    (capacity (diagnostics h))) as [Hle | Hgt]; [now apply (serve_ok h ls bs); auto; lia |]].
  - exists None, (count_oom h), (map (block_of h) ls). unfold allocate_body. replace (amount =? 0) with false by lia.
    rewrite E0. cbn [Z.eqb orb]. split_and!; auto; [constructor; auto | now apply (represents_same h)].
  - exists None, (count_oom h), (map (block_of h) ls). unfold allocate_body. replace (amount =? 0) with false by lia.
    replace ((_ =? 0) || _) with true by lia. split_and!; auto; [|now apply (represents_same h)].
    constructor. right. right. intros o s (l & Hl & -> & ->)%free_block. apply elem_of_free_nodes in Hl as [Hl _].
    pose proof (inv_sizes _ _ _ l Hi Hl). lia.
Qed.

(** [allocate] implements the specification. *)
Lemma allocate_ok h bl amount :
  represents h bl -> is_word 64 amount ->
  exists r h' bl', allocate amount h = Ret (Z.add (base h) <$> r, h') /\ allocates bl amount r bl'
    /\ represents h' bl' /\ base h' = base h /\ capacity (diagnostics h') = capacity (diagnostics h).
Proof.
  intros Hr Ham. destruct (allocate_body_ok h bl amount Hr Ham) as (r & h' & bl' & E & Ha & Hr' & Eb & Ec).
  destruct (represents_end_of_scope h' bl' Hr') as (Hr'' & Eb' & Ed'). exists r, (end_of_scope h'), bl'.
  unfold allocate, scoped. rewrite E. cbn. split_and!; auto; congruence.
Qed.

(** C17. allocate on a heap that holds the blocks bl returns an address exactly when
    the request is not zero, its rounded size does not overflow and some free block
    is at least that large; the address is the start of a free block of the smallest
    size class that can serve it, which is cut into the block handed out and a free
    remainder. The bins, the links, the hash table and the counters describe the new
    blocks. *)
Theorem allocate_refines h bl amount :
  represents h bl -> is_word 64 amount ->
  exists r h' bl', allocate amount h = Ret (Z.add (base h) <$> r, h') /\ allocates bl amount r bl'
    /\ represents h' bl' /\ base h' = base h /\ capacity (diagnostics h') = capacity (diagnostics h).
Proof. apply allocate_ok. Qed.
