(* ===== verification/HeapFree.v ===== *)
(** * Release

    [free] gives the block back and joins it with the free blocks on either side;
    an address that is not that of a block in use is ignored. *)

From stdpp Require Import gmap sorting.
From S2P Require Import Prelude Heap HeapLinks HeapBins HeapInv HeapAlloc.

(** ** A run that becomes one fragment *)

(** [h'] is [h] with the run [s :: dead] joined into [s]: [n] bytes, in use when
    [u], followed by [after]. *)
Record merged (h h' : O1Heap) (s : loc) (dead : list loc) (n : Z) (after : option loc) (u : bool) : Prop := {
  me_fresh : fresh_loc h' = fresh_loc h;
  me_dropped : dropped h' = dropped h;
  me_base : base h' = base h;
  me_capacity : capacity (diagnostics h') = capacity (diagnostics h);
  me_off k : off h' k = off h k;
  me_sz k : k ∉ dead -> sz h' k = if decide (k = s) then n else sz h k;
  me_inuse k : inuse h' k = if decide (k = s) then u else if decide (k ∈ dead) then false else inuse h k;
  me_nx k : k ∉ dead -> nx h' k = if decide (k = s) then after else nx h k;
  me_pv k : k ∉ dead -> pv h' k = if decide (after = Some k) then Some s else pv h k;
  me_hash o l : hashes h' !! o = Some l -> hashes h !! o = Some l \/ (o = off h s /\ l = s);
  me_keep o : (forall l, l ∈ s :: dead -> o <> off h l) -> hashes h' !! o = hashes h !! o;
  me_hash_s : u = true -> hashes h' !! off h s = Some s;
  me_alloc : allocated (diagnostics h') + used_bytes (map (block_of h) (s :: dead))
             = allocated (diagnostics h) + (if u then n else 0) }.

Lemma merged_core h h' h'' s dead n after u : merged h h' s dead n after u -> same_core h' h'' -> merged h h'' s dead n after u.
Proof.
  intros Hm Sc. destruct Hm. split; try (intros k Hk); try (intros k);
    rewrite ?(sc_fresh _ _ Sc), ?(sc_dropped _ _ Sc), ?(sc_base _ _ Sc), ?(sc_diag _ _ Sc), ?(core_off _ _ Sc), ?(core_sz _ _ Sc),
      ?(core_inuse _ _ Sc), ?(core_nx _ _ Sc), ?(core_pv _ _ Sc), ?(sc_hashes _ _ Sc); auto.
Qed.

Section Merged.
Context (h h' : O1Heap) (a : list loc) (s : loc) (dead b : list loc) (bs bs' : nat -> list loc) (u : bool).
Hypothesis Hi : heap_inv h (a ++ s :: dead ++ b) bs.
Hypothesis Hm : merged h h' s dead (total h (s :: dead)) (head b) u.

Lemma merged_spliced : spliced h h' a s dead [] b.
Proof.
  pose proof (run_s h a s dead b (hi_core _ _ _ Hi)) as [Hs _]. destruct Hm. apply described_merge with u; auto; [apply Hi |].
  rewrite me_sz0 by exact Hs. now rewrite decide_True.
Qed.

Lemma merged_represents F :
  bins_ok h' bs' F -> (forall l, l ∈ F <-> (l ∈ a ++ b /\ inuse h l = false) \/ (u = false /\ l = s)) ->
  (u = true \/ ((forall k, last a = Some k -> inuse h k = true) /\ (forall k, head b = Some k -> inuse h k = true))) ->
  represents h' (map (block_of h) a ++ (off h s, total h (s :: dead), u) :: map (block_of h) b).
Proof.
  intros Hb HF Hsep. pose proof merged_spliced as Sp. pose proof (hi_core _ _ _ Hi) as Hc.
  pose proof (run_s h a s dead b Hc) as [Hsd Hsb].
  assert (inuse h' s = u) as Eu by (rewrite (me_inuse _ _ _ _ _ _ _ Hm); now rewrite decide_True).
  pose proof (spliced_blocks h h' a s dead [] b Hc Sp) as Ebl.
  assert (forall l, l ∈ a ++ b -> inuse h' l = inuse h l) as Eab by (intros l Hl; specialize (Ebl l Hl); now injection Ebl).
  exists (a ++ s :: b), bs'. split.
  - apply (spliced_inv h h' a s dead [] b bs' F); auto.
    + intros l. rewrite HF. cbn [app]. split.
      * intros [[Hl Hu] | [-> ->]]; [rewrite Eab by exact Hl; split; [set_solver | exact Hu] | split; [set_solver | exact Eu]].
      * intros [Hl Hu]. destruct (decide (l = s)) as [-> | Hne]; [right; split; congruence |].
        assert (l ∈ a ++ b) as Hab by set_solver. left. rewrite <- Eab by exact Hab. auto.
    + apply (separated_splice (inuse h) _ a s dead [] b); [apply Hi | exact Eab | | exact I |]; rewrite ?Eu; cbn; tauto.
  - rewrite map_app. cbn [map]. rewrite (blocks_ext h h' a), (blocks_ext h h' b) by (intros; apply Ebl; set_solver).
    unfold block_of at 4. rewrite (me_off _ _ _ _ _ _ _ Hm), (me_sz _ _ _ _ _ _ _ Hm), decide_True, Eu by auto. reflexivity.
Qed.
End Merged.

(** The joined run is binned. *)
Lemma free_finish h h' a s dead b bs bs' F :
  heap_inv h (a ++ s :: dead ++ b) bs -> merged h h' s dead (total h (s :: dead)) (head b) false -> bins_ok h' bs' F ->
  (forall l, l ∈ F <-> l ∈ a ++ b /\ inuse h l = false) ->
  (forall k, last a = Some k -> inuse h k = true) -> (forall k, head b = Some k -> inuse h k = true) ->
  exists h'', rebin s h' = Ret h''
    /\ represents h'' (map (block_of h) a ++ (off h s, total h (s :: dead), false) :: map (block_of h) b)
    /\ base h'' = base h /\ capacity (diagnostics h'') = capacity (diagnostics h).
Proof.
  intros Hi Hm Hb HF Ha Hhb. pose proof (hi_core _ _ _ Hi) as Hc. pose proof (run_s h a s dead b Hc) as [Hsd Hsb].
  assert (size (node h' s) = total h (s :: dead)) as Es.
  { pose proof (me_sz _ _ _ _ _ _ _ Hm s Hsd) as E. rewrite decide_True in E by reflexivity. exact E. }
  pose proof (co_tiles _ _ Hc) as Ht. apply tiles_app in Ht as (m1 & Ht1 & Ht).
  change (s :: dead ++ b) with ((s :: dead) ++ b) in Ht. apply tiles_app in Ht as (m2 & Hr & Ht2).
  apply tiles_le in Ht1, Ht2. destruct (tiles_total _ _ _ _ Hr) as (-> & Hmod & _). pose proof (co_capacity _ _ Hc).
  pose proof (run_total h a s dead b Hc).
  assert (FRAGMENT_SIZE_MIN <= total h (s :: dead)) by
    (unfold FRAGMENT_SIZE_MIN in *; pose proof (Z.div_mod (total h (s :: dead)) 256); lia).
  destruct (rebin_ok s h' bs' F Hb) as (h'' & E & Sc & Hb'').
  - rewrite HF. intros [Hl _]. apply (run_disjoint h a s dead b Hc) in Hl. tauto.
  - rewrite (me_dropped _ _ _ _ _ _ _ Hm). apply (co_live _ _ Hc). set_solver.
  - rewrite Es. lia.
  - exists h''. pose proof (merged_core _ _ _ _ _ _ _ _ Hm Sc) as Hm'.
    split_and!; [exact E | | apply Hm' | apply Hm'].
    eapply merged_represents; eauto. intros l. rewrite elem_of_union, HF, elem_of_singleton. tauto.
Qed.

(** ** The states of [free] *)

(** The bins do not see the address-order list, nor the fragments they do not hold. *)
Lemma bins_ok_used l v h bs F : bins_ok h bs F -> bins_ok (modify l (set_used v) h) bs F.
Proof. intros Hb. apply (bins_ok_ext h); auto. intros k _. rewrite node_modify. case_decide; subst; auto. Qed.
Lemma bins_ok_next l v h bs F : bins_ok h bs F -> bins_ok (modify l (set_next v) h) bs F.
Proof. intros Hb. apply (bins_ok_ext h); auto. intros k _. rewrite node_modify. case_decide; subst; auto. Qed.
Lemma bins_ok_prev l v h bs F : bins_ok h bs F -> bins_ok (modify_opt l (set_prev v) h) bs F.
Proof.
  intros Hb. destruct l as [l|]; [|exact Hb]. apply (bins_ok_ext h); auto. intros k _. cbn. case_decide; subst; auto.
Qed.
Lemma bins_ok_size l v h bs F : bins_ok h bs F -> l ∉ F -> bins_ok (modify l (set_size v) h) bs F.
Proof.
  intros Hb Hl. apply (bins_ok_ext h); auto. intros k Hk. rewrite node_modify. case_decide; subst; [contradiction | auto].
Qed.
Lemma bins_ok_hashes v h bs F : bins_ok h bs F -> bins_ok (set_hashes v h) bs F.
Proof. intros Hb. apply (bins_ok_ext h); auto. Qed.
Lemma bins_ok_diagnostics v h bs F : bins_ok h bs F -> bins_ok (set_diagnostics v h) bs F.
Proof. intros Hb. apply (bins_ok_ext h); auto. Qed.

#[export] Hint Resolve bins_ok_used bins_ok_next bins_ok_prev bins_ok_size bins_ok_hashes bins_ok_diagnostics : heap.

(** The fragment is no longer in use. *)
Definition released (frag : loc) (h : O1Heap) : O1Heap :=
  set_hashes (delete (off h frag) (hashes h))
    (modify frag (set_used false)
       (set_diagnostics (set_allocated (allocated (diagnostics h) - sz h frag) (diagnostics h)) h)).

(** The run [s :: dead] is joined. *)
Definition emptied (dead : list loc) (h : O1Heap) : O1Heap := foldl (fun h l => modify l (set_size 0) h) h dead.
Definition joined (s : loc) (n : Z) (dead : list loc) (after : option loc) (h : O1Heap) : O1Heap :=
  modify_opt after (set_prev (Some s)) (modify s (set_next after) (emptied dead (modify s (set_size n) h))).

Lemma emptied_fields dead h :
  (forall k, off (emptied dead h) k = off h k /\ inuse (emptied dead h) k = inuse h k
     /\ nx (emptied dead h) k = nx h k /\ pv (emptied dead h) k = pv h k /\ (k ∉ dead -> sz (emptied dead h) k = sz h k))
  /\ fresh_loc (emptied dead h) = fresh_loc h /\ dropped (emptied dead h) = dropped h /\ base (emptied dead h) = base h
  /\ hashes (emptied dead h) = hashes h /\ diagnostics (emptied dead h) = diagnostics h.
Proof.
  unfold emptied. revert h. induction dead as [|l dead IH]; intros h; cbn [foldl]; [split_and!; auto |].
  destruct (IH (modify l (set_size 0) h)) as (Hk & Ef & Ed & Eb & Eh & Eg). split_and!; auto. intros k.
  destruct (Hk k) as (Eo & Eu & En & Ep & Es). autorewrite with heap in *. split_and!; auto.
  intros Hn. rewrite Es, decide_False by set_solver. reflexivity.
Qed.

Lemma emptied_bins dead h bs F : bins_ok h bs F -> (forall l, l ∈ dead -> l ∉ F) -> bins_ok (emptied dead h) bs F.
Proof.
  unfold emptied. revert h. induction dead as [|l dead IH]; intros h Hb Hd; cbn [foldl]; [exact Hb |].
  apply IH; [apply bins_ok_size; auto; apply Hd; set_solver | intros; apply Hd; set_solver].
Qed.

Lemma joined_bins s n dead after h bs F :
  bins_ok h bs F -> s ∉ F -> (forall l, l ∈ dead -> l ∉ F) -> bins_ok (joined s n dead after h) bs F.
Proof. intros Hb Hs Hd. unfold joined. apply bins_ok_prev, bins_ok_next, emptied_bins; [apply bins_ok_size |]; auto. Qed.

Lemma joined_fields s n dead after h :
  (forall k, off (joined s n dead after h) k = off h k /\ inuse (joined s n dead after h) k = inuse h k
     /\ nx (joined s n dead after h) k = (if decide (k = s) then after else nx h k)
     /\ pv (joined s n dead after h) k = (if decide (after = Some k) then Some s else pv h k)
     /\ (k ∉ dead -> sz (joined s n dead after h) k = if decide (k = s) then n else sz h k))
  /\ fresh_loc (joined s n dead after h) = fresh_loc h /\ dropped (joined s n dead after h) = dropped h
  /\ base (joined s n dead after h) = base h /\ hashes (joined s n dead after h) = hashes h
  /\ diagnostics (joined s n dead after h) = diagnostics h.
Proof.
  unfold joined. destruct (emptied_fields dead (modify s (set_size n) h)) as (Hk & Ef & Ed & Eb & Eh & Eg).
  split; [intros k; destruct (Hk k) as (Eo & Eu & En & Ep & Es) | destruct after; split_and!; auto].
  destruct after as [x|]; cbn [modify_opt]; autorewrite with heap in *; (split_and!; rewrite ?En, ?Ep; auto;
    repeat case_decide; congruence).
Qed.

Lemma joined_merged h h1 frag s dead n after :
  same_core (released frag h) h1 -> frag ∈ s :: dead -> s ∉ dead -> inuse h frag = true ->
  (forall l, l ∈ s :: dead -> l <> frag -> inuse h l = false) -> 
  used_bytes (map (block_of h) (s :: dead)) = sz h frag ->
  merged h (joined s n dead after h1) s dead n after false.
Proof.
  intros Sc Hf Hs Hu Hd Eub. destruct (joined_fields s n dead after h1) as (Hk & Ef & Ed & Eb & Eh & Eg).
  assert (forall k, off h1 k = off h k /\ sz h1 k = sz h k /\ nx h1 k = nx h k /\ pv h1 k = pv h k
    /\ inuse h1 k = if decide (k = frag) then false else inuse h k) as H1.
  { intros k. rewrite (core_off _ _ Sc), (core_sz _ _ Sc), (core_nx _ _ Sc), (core_pv _ _ Sc), (core_inuse _ _ Sc).
    unfold released. split_and!; nodes. }
  split; rewrite ?Ef, ?Ed, ?Eb, ?Eg, ?(sc_fresh _ _ Sc), ?(sc_dropped _ _ Sc), ?(sc_base _ _ Sc), ?(sc_diag _ _ Sc);
    try reflexivity; try (intros k; destruct (Hk k) as (Eo & Eu & En & Ep & Es), (H1 k) as (Eo1 & Es1 & En1 & Ep1 & Eu1)).
  - congruence.
  - intros Hnd. now rewrite Es, Es1.
  - rewrite Eu, Eu1. destruct (decide (k = s)) as [-> | Hks]; [|destruct (decide (k ∈ dead)) as [Hkd | Hkd]].
    + destruct (decide (s = frag)); [reflexivity |]. apply Hd; [set_solver | assumption].
    + destruct (decide (k = frag)); [reflexivity |]. apply Hd; [set_solver | assumption].
    + rewrite decide_False; [reflexivity |]. intros ->. set_solver.
  - intros _. now rewrite En, En1.
  - intros _. now rewrite Ep, Ep1.
  - rewrite Eh, (sc_hashes _ _ Sc). intros o l Hl. change (delete (off h frag) (hashes h) !! o = Some l) in Hl.
    apply lookup_delete_Some in Hl as [_ ?]. auto.
  - intros o Ho. rewrite Eh, (sc_hashes _ _ Sc). apply lookup_delete_ne. apply not_eq_sym, Ho. exact Hf.
  - discriminate.
  - rewrite Eub. cbn. lia.
Qed.

(** ** The specification of a release *)

(** The block [(o, s)] between [l1] and [l2] is freed and joined with its free
    neighbours. *)
Definition join_left (l1 : list block) (o s : Z) : list block * Z * Z :=
  match last l1 with Some (po, ps, false) => (removelast l1, po, ps + s) | _ => (l1, o, s) end.
Definition join_right (s : Z) (l2 : list block) : Z * list block :=
  match l2 with (_, ns, false) :: l2 => (s + ns, l2) | _ => (s, l2) end.
Definition release (l1 : list block) (o s : Z) (l2 : list block) : list block :=
  let '(l1, o, s) := join_left l1 o s in
  let (s, l2) := join_right s l2 in
  l1 ++ (o, s, false) :: l2.

Inductive releases (bl : list block) (o : Z) : list block -> Prop :=
| releases_none : (forall s, (o, s, true) ∉ bl) -> releases bl o bl
| releases_some l1 s l2 : bl = l1 ++ (o, s, true) :: l2 -> releases bl o (release l1 o s l2).

(** The fragment before is free: it is the last of [a]. *)
Lemma free_last h a : is_free (last a) h = true -> exists a' p, a = a' ++ [p] /\ inuse h p = false.
Proof.
  destruct a as [|p a' _] using rev_ind; [discriminate |]. rewrite last_snoc. cbn. intros E%negb_true_iff. eauto.
Qed.

Lemma free_head h b : is_free (head b) h = true -> exists n b', b = n :: b' /\ inuse h n = false.
Proof. destruct b as [|n b']; [discriminate |]. cbn. intros E%negb_true_iff. eauto. Qed.

Lemma join_left_blocks h a o s :
  join_left (map (block_of h) a) o s =
  match last a with
  | Some p => if inuse h p then (map (block_of h) a, o, s) else (map (block_of h) (removelast a), off h p, sz h p + s)
  | None => (map (block_of h) a, o, s)
  end.
Proof.
  unfold join_left. destruct a as [|p a' _] using rev_ind; [reflexivity |].
  rewrite map_app, last_snoc. cbn [map]. rewrite !last_snoc, !removelast_last. unfold block_of at 1.
  now destruct (inuse h p).
Qed.

Lemma join_right_blocks h s b :
  join_right s (map (block_of h) b) =
  match b with
  | n :: b' => if inuse h n then (s, map (block_of h) b) else (s + sz h n, map (block_of h) b')
  | [] => (s, [])
  end.
Proof.
  destruct b as [|n b']; [reflexivity |]. cbn [map join_right]. destruct (block_of h n) as [[o' s'] u'] eqn:E.
  unfold block_of in E. injection E as <- <- <-. now destruct (inuse h n).
Qed.

Section Free.
Context (h : O1Heap) (a : list loc) (frag : loc) (b : list loc) (bs : nat -> list loc).
Hypothesis Hi : heap_inv h (a ++ frag :: b) bs.
Hypothesis Hu : inuse h frag = true.

Lemma released_bins : bins_ok (released frag h) bs (free_nodes h (a ++ frag :: b)).
Proof. unfold released. apply bins_ok_hashes, bins_ok_used, bins_ok_diagnostics, Hi. Qed.

Lemma frag_apart l : inuse h l = false -> l <> frag.
Proof. congruence. Qed.

(** Two runs of the list that are together are apart. *)
Lemma neighbour_is_free o :
  (o = last a \/ o = head b) -> is_free o (released frag h) = is_free o h.
Proof.
  intros Ho. destruct o as [l|]; [|reflexivity]. cbn [is_free]. f_equal. unfold released. cbn.
  rewrite decide_False; [reflexivity |]. intros ->. destruct (inv_apart _ _ _ _ _ Hi) as [Ha Hb].
  destruct Ho as [E | E]; symmetry in E; [apply last_Some_elem_of in E; auto |].
  apply Hb. now apply head_Some_elem_of.
Qed.

Lemma frag_guards :
  (size (node h frag) <? FRAGMENT_SIZE_MIN) || (wrap 32 (capacity (diagnostics h)) <? size (node h frag))
    || negb (size (node h frag) mod FRAGMENT_SIZE_MIN =? 0) = false
  /\ allocated (diagnostics h) <? size (node h frag) = false.
Proof.
  destruct (inv_sizes _ _ _ frag Hi) as (? & ? & ? & ?); [set_solver |].
  pose proof (inv_unit _ _ _ frag Hi ltac:(set_solver)) as Hm. unfold sz in *. rewrite Hm, Z.eqb_refl.
  rewrite wrap_small by (split; unfold FRAGMENT_SIZE_MIN in *; lia). split; [lia |].
  pose proof (co_allocated _ _ (hi_core _ _ _ Hi)) as Ea. rewrite Ea, map_app, used_bytes_app. cbn. rewrite Hu.
  fold (used_bytes (map (block_of h) b)). pose proof (co_tiles _ _ (hi_core _ _ _ Hi)) as Ht.
  apply tiles_app in Ht as (m & Ha & Hb). destruct Hb as (_ & _ & _ & Hb). apply used_bytes_tiles in Ha, Hb. unfold sz. lia.
Qed.

(** The free fragments that are left in the bins. *)
Lemma remaining_free a' s dead b' (X : gset loc) :
  a ++ frag :: b = a' ++ s :: dead ++ b' -> (forall l, l ∈ X <-> l ∈ s :: dead /\ l <> frag) ->
  forall l, l ∈ free_nodes h (a ++ frag :: b) ∖ X <-> l ∈ a' ++ b' /\ inuse h l = false.
Proof.
  intros E HX l. pose proof (hi_core _ _ _ Hi) as Hc. rewrite E in *.
  pose proof (run_disjoint h a' s dead b' Hc l) as Hd. rewrite elem_of_difference, elem_of_free_nodes, HX.
  assert (inuse h l = false -> l <> frag) by apply frag_apart. set_solver.
Qed.

(** A free neighbour is taken out of its bin. *)
Lemma unbin_neighbour h1 bs1 F k :
  same_core (released frag h) h1 -> bins_ok h1 bs1 F -> k ∈ F ->
  exists h2 bs2, unbin k h1 = Ret h2 /\ same_core (released frag h) h2 /\ bins_ok h2 bs2 (F ∖ {[k]}).
Proof.
  intros Sc Hb Hk. destruct (unbin_ok k h1 bs1 F Hb Hk) as (h2 & bs2 & E & Sc2 & Hb2 & _).
  exists h2, bs2. split_and!; auto. now transitivity h1.
Qed.

Lemma released_core h1 k : same_core (released frag h) h1 ->
  size (node h1 k) = sz h k /\ next (node h1 k) = nx h k.
Proof.
  intros Sc. rewrite (sc_size _ _ Sc), (sc_next _ _ Sc). unfold released. cbn. case_decide; subst; auto.
Qed.

(** The run [s :: dead], of which only [frag] was in use, is joined and binned. *)
Lemma coalesce_run a' s dead b' X h1 bs1 :
  a ++ frag :: b = a' ++ s :: dead ++ b' -> frag ∈ s :: dead -> (forall l, l ∈ X <-> l ∈ s :: dead /\ l <> frag) ->
  same_core (released frag h) h1 -> bins_ok h1 bs1 (free_nodes h (a ++ frag :: b) ∖ X) ->
  (forall l, l ∈ s :: dead -> l <> frag -> inuse h l = false) -> used_bytes (map (block_of h) (s :: dead)) = sz h frag ->
  (forall k, last a' = Some k -> inuse h k = true) -> (forall k, head b' = Some k -> inuse h k = true) ->
  exists h', rebin s (joined s (total h (s :: dead)) dead (head b') h1) = Ret h'
    /\ represents h' (map (block_of h) a' ++ (off h s, total h (s :: dead), false) :: map (block_of h) b')
    /\ base h' = base h /\ capacity (diagnostics h') = capacity (diagnostics h).
Proof.
  intros E Hf HX Sc Hb1 Hfr Eub Ha Hhb. pose proof (remaining_free a' s dead b' X E HX) as HF.
  pose proof Hi as Hi'. rewrite E in Hi', Hb1, HF. pose proof (run_s _ _ _ _ _ (hi_core _ _ _ Hi')) as [Hsd _].
  pose proof (run_disjoint _ _ _ _ _ (hi_core _ _ _ Hi')) as Hd.
  apply (free_finish h _ a' s dead b' bs bs1 (free_nodes h (a' ++ s :: dead ++ b') ∖ X)); auto.
  - now apply (joined_merged h h1 frag).
  - apply joined_bins; auto; [|intros l Hl]; rewrite HF; intros [Hab _]; apply Hd in Hab; tauto.
Qed.

(** The sizes of neighbours add up inside the arena. *)
Lemma run_bound a' s dead b' : a ++ frag :: b = a' ++ s :: dead ++ b' -> total h (s :: dead) < 2 ^ 32.
Proof.
  intros E. pose proof (hi_core _ _ _ Hi) as Hc. pose proof (co_capacity _ _ Hc). pose proof (co_tiles _ _ Hc) as Ht.
  rewrite E in Ht. apply tiles_app in Ht as (m1 & Ht1 & Ht). change (s :: dead ++ b') with ((s :: dead) ++ b') in Ht.
  apply tiles_app in Ht as (m2 & Hr & Ht2). apply tiles_le in Ht1, Ht2. destruct (tiles_total _ _ _ _ Hr) as (-> & _ & ?). lia.
Qed.

Lemma size_pos k : k ∈ a ++ frag :: b -> 0 < sz h k.
Proof. intros Hk. destruct (inv_sizes _ _ _ k Hi Hk) as (_ & ? & _). unfold FRAGMENT_SIZE_MIN in *. lia. Qed.

Lemma unused_bytes k : inuse h k = false -> used_bytes [block_of h k] = 0.
Proof. intros E. cbn. now rewrite E. Qed.

(** What [coalesce] reads. *)
Lemma released_neighbours :
  upgrade (prev (node (released frag h) frag)) (released frag h) = last a /\ next (node (released frag h) frag) = head b.
Proof.
  assert (prev (node (released frag h) frag) = pv h frag /\ next (node (released frag h) frag) = nx h frag) as [-> ->] by
    (unfold released; split; cbn; now rewrite decide_True).
  split; [|apply (inv_neighbours _ _ _ _ _ Hi)]. rewrite <- (inv_upgrade _ _ _ _ _ Hi). reflexivity.
Qed.

Lemma before_free a' p : a = a' ++ [p] -> inuse h p = false ->
  p <> frag /\ p ∉ b /\ (forall k, last a' = Some k -> inuse h k = true).
Proof.
  intros Ea Hp. pose proof Hi as Hi'. rewrite Ea, <- app_assoc in Hi'. split_and!; [congruence | |].
  - destruct (inv_apart _ _ _ _ _ Hi') as [_ Hn]. set_solver.
  - apply (free_neighbours _ _ _ _ _ Hi' Hp).
Qed.

Lemma after_free n b' : b = n :: b' -> inuse h n = false ->
  n <> frag /\ nx h n = head b' /\ (forall k, head b' = Some k -> inuse h k = true).
Proof.
  intros Eb Hn. pose proof Hi as Hi'. rewrite Eb in Hi'. change (frag :: n :: b') with ([frag] ++ n :: b') in Hi'.
  rewrite app_assoc in Hi'. split_and!; [congruence | apply (inv_neighbours _ _ _ _ _ Hi') |].
  apply (free_neighbours _ _ _ _ _ Hi' Hn).
Qed.

Lemma is_free_released k : k <> frag -> inuse h k = false -> is_free (Some k) (released frag h) = true.
Proof. intros Hk Hf. cbn. rewrite decide_False by exact Hk. unfold inuse in Hf. now rewrite Hf. Qed.

Lemma coalesce_both a' p n b' :
  a = a' ++ [p] -> b = n :: b' -> inuse h p = false -> inuse h n = false ->
  exists h', coalesce frag (released frag h) = Ret h'
    /\ represents h' (map (block_of h) a' ++ (off h p, total h [p; frag; n], false) :: map (block_of h) b')
    /\ base h' = base h /\ capacity (diagnostics h') = capacity (diagnostics h).
Proof.
  intros Ea Eb Hp Hn. assert (a ++ frag :: b = a' ++ p :: [frag; n] ++ b') as E by (subst; now rewrite <- app_assoc).
  destruct (before_free a' p Ea Hp) as (Hpf & Hpb & Hla), (after_free n b' Eb Hn) as (Hnf & Enn & Hhb).
  assert (p <> n) as Hpn by (subst b; set_solver).
  destruct (unbin_neighbour (released frag h) bs _ p (reflexivity _) released_bins) as (h1 & bs1 & E1 & Sc1 & Hb1);
    [rewrite elem_of_free_nodes; subst; split; [set_solver | exact Hp] |].
  destruct (unbin_neighbour h1 bs1 _ n Sc1 Hb1) as (h2 & bs2 & E2 & Sc2 & Hb2);
    [rewrite elem_of_difference, elem_of_free_nodes; subst; split; [split; [set_solver | exact Hn] | set_solver] |].
  destruct (released_core h2 p Sc2) as [Esp _], (released_core h2 frag Sc2) as [Esf _], (released_core h2 n Sc2) as [Esn Ein].
  rewrite difference_difference_l_L in Hb2.
  destruct (coalesce_run a' p [frag; n] b' ({[p]} ∪ {[n]}) h2 bs2 E) as (h' & Er & Hr); auto; [set_solver.. | | |].
  { intros l Hl Hlf. assert (l = p \/ l = n) as [-> | ->] by set_solver; assumption. }
  { cbn. rewrite Hp, Hn, Hu. lia. }
  exists h'. split; [|exact Hr]. destruct released_neighbours as [Ep Ex]. unfold coalesce. rewrite Ep, Ex.
  rewrite Ea, Eb, last_snoc. cbn [head]. rewrite !is_free_released by auto. rewrite E1. cbn [mbind outcome_bind]. rewrite E2.
  cbn [mbind outcome_bind]. unfold distinct. rewrite !decide_False by congruence. cbn [mbind outcome_bind].
  rewrite Esp, Esf, Esn. pose proof (run_bound _ _ _ _ E) as Hlt. pose proof (size_pos p ltac:(subst; set_solver)).
  pose proof (size_pos n ltac:(subst; set_solver)). pose proof (size_pos frag ltac:(set_solver)). cbn in Hlt.
  rewrite (wrap_small 32 (sz h frag + sz h n)), wrap_small by (split; lia).
  assert (total h [p; frag; n] = sz h p + (sz h frag + sz h n)) as Et by (cbn; lia). rewrite Et in Er. rewrite <- Er. unfold joined, emptied. cbn [foldl].
  set (h3 := modify n _ _).
  assert (next (node h3 n) = head b') as ->; [|reflexivity].
  change (nx h3 n = head b'). unfold h3. autorewrite with heap. rewrite <- Enn. exact Ein.
Qed.

Lemma coalesce_left a' p :
  a = a' ++ [p] -> inuse h p = false -> is_free (head b) h = false ->
  exists h', coalesce frag (released frag h) = Ret h'
    /\ represents h' (map (block_of h) a' ++ (off h p, total h [p; frag], false) :: map (block_of h) b)
    /\ base h' = base h /\ capacity (diagnostics h') = capacity (diagnostics h).
Proof.
  intros Ea Hp Hnb. assert (a ++ frag :: b = a' ++ p :: [frag] ++ b) as E by (subst; now rewrite <- app_assoc).
  destruct (before_free a' p Ea Hp) as (Hpf & Hpb & Hla).
  destruct (unbin_neighbour (released frag h) bs _ p (reflexivity _) released_bins) as (h1 & bs1 & E1 & Sc1 & Hb1);
    [rewrite elem_of_free_nodes; subst; split; [set_solver | exact Hp] |].
  destruct (released_core h1 p Sc1) as [Esp _], (released_core h1 frag Sc1) as [Esf Ein].
  destruct (coalesce_run a' p [frag] b {[p]} h1 bs1 E) as (h' & Er & Hr); auto; [set_solver.. | | | |].
  { intros l Hl Hlf. assert (l = p) as -> by set_solver; assumption. }
  { cbn. rewrite Hp, Hu. lia. }
  { intros k Ek. rewrite Ek in Hnb. now apply negb_false_iff in Hnb. }
  exists h'. split; [|exact Hr]. destruct released_neighbours as [Ep Ex]. unfold coalesce. rewrite Ep, Ex.
  rewrite (neighbour_is_free (head b)), Hnb by auto. rewrite Ea, last_snoc, is_free_released by auto.
  transitivity (h ← unbin p (released frag h); _ ← distinct p frag;
    let h := modify p (set_size (wrap 32 (size (node h p) + size (node h frag)))) h in
    let h := modify frag (set_size 0) h in
    let nx := next (node h frag) in
    rebin p (modify_opt nx (set_prev (Some p)) (modify p (set_next nx) h))); [now destruct (head b) |].
  rewrite E1. cbn [mbind outcome_bind]. unfold distinct. rewrite !decide_False by congruence. cbn [mbind outcome_bind].
  rewrite Esp, Esf. pose proof (run_bound _ _ _ _ E) as Hlt. pose proof (size_pos p ltac:(subst; set_solver)).
  pose proof (size_pos frag ltac:(set_solver)). cbn in Hlt. rewrite wrap_small by (split; lia).
  assert (total h [p; frag] = sz h p + sz h frag) as Et by (cbn; lia). rewrite Et in Er. rewrite <- Er. unfold joined, emptied.
  cbn [foldl]. set (h3 := modify frag _ _). assert (next (node h3 frag) = head b) as ->; [|reflexivity].
  change (nx h3 frag = head b). unfold h3. autorewrite with heap. transitivity (nx h frag); [exact Ein |].
  apply (inv_neighbours _ _ _ _ _ Hi).
Qed.

Lemma coalesce_right n b' :
  b = n :: b' -> inuse h n = false -> is_free (last a) h = false ->
  exists h', coalesce frag (released frag h) = Ret h'
    /\ represents h' (map (block_of h) a ++ (off h frag, total h [frag; n], false) :: map (block_of h) b')
    /\ base h' = base h /\ capacity (diagnostics h') = capacity (diagnostics h).
Proof.
  intros Eb Hn Hna. assert (a ++ frag :: b = a ++ frag :: [n] ++ b') as E by (now subst).
  destruct (after_free n b' Eb Hn) as (Hnf & Enn & Hhb).
  destruct (unbin_neighbour (released frag h) bs _ n (reflexivity _) released_bins) as (h1 & bs1 & E1 & Sc1 & Hb1);
    [rewrite elem_of_free_nodes; subst; split; [set_solver | exact Hn] |].
  destruct (released_core h1 frag Sc1) as [Esf _], (released_core h1 n Sc1) as [Esn Ein].
  destruct (coalesce_run a frag [n] b' {[n]} h1 bs1 E) as (h' & Er & Hr); auto; [set_solver.. | | | |].
  { intros l Hl Hlf. assert (l = n) as -> by set_solver; assumption. }
  { cbn. rewrite Hn, Hu. lia. }
  { intros k Ek. rewrite Ek in Hna. now apply negb_false_iff in Hna. }
  exists h'. split; [|exact Hr]. destruct released_neighbours as [Ep Ex]. unfold coalesce. rewrite Ep, Ex.
  rewrite (neighbour_is_free (last a)), Hna by auto. rewrite Eb. cbn [head]. rewrite is_free_released by auto.
  transitivity (h ← unbin n (released frag h); _ ← distinct frag n;
    let h := modify frag (set_size (wrap 32 (size (node h frag) + size (node h n)))) h in
    let h := modify n (set_size 0) h in
    let next_next := next (node h n) in
    rebin frag (modify_opt next_next (set_prev (Some frag)) (modify frag (set_next next_next) h))); [now destruct (last a) |].
  rewrite E1. cbn [mbind outcome_bind]. unfold distinct. rewrite !decide_False by congruence. cbn [mbind outcome_bind].
  rewrite Esn, Esf. pose proof (run_bound _ _ _ _ E) as Hlt. pose proof (size_pos n ltac:(subst; set_solver)).
  pose proof (size_pos frag ltac:(set_solver)). cbn in Hlt. rewrite wrap_small by (split; lia).
  assert (total h [frag; n] = sz h frag + sz h n) as Et by (cbn; lia). rewrite Et in Er. rewrite <- Er. unfold joined, emptied.
  cbn [foldl]. set (h3 := modify n _ _). assert (next (node h3 n) = head b') as ->; [|reflexivity].
  change (nx h3 n = head b'). unfold h3. autorewrite with heap. rewrite <- Enn. exact Ein.
Qed.

Lemma coalesce_alone :
  is_free (last a) h = false -> is_free (head b) h = false ->
  exists h', coalesce frag (released frag h) = Ret h'
    /\ represents h' (map (block_of h) a ++ (off h frag, total h [frag], false) :: map (block_of h) b)
    /\ base h' = base h /\ capacity (diagnostics h') = capacity (diagnostics h).
Proof.
  intros Hna Hnb. pose proof (inv_neighbours _ _ _ _ _ Hi) as [_ Enf].
  destruct (free_finish h (released frag h) a frag [] b bs bs (free_nodes h (a ++ frag :: b))) as (h' & Er & Hr); auto.
  - split; try reflexivity.
    + intros k. unfold released. nodes.
    + intros k _. unfold released. cbn [total foldr]. nodes; lia.
    + intros k. unfold released. destruct (decide (k ∈ [])) as [Hk%elem_of_nil | _]; [contradiction |]. nodes.
    + intros k _. unfold released. rewrite <- Enf. nodes.
    + intros k _. case_decide as Ek; [rewrite <- (inv_successor _ _ _ _ _ _ Hi Ek) |]; unfold released; nodes.
    + intros o l Hl. left. change (delete (off h frag) (hashes h) !! o = Some l) in Hl.
      apply lookup_delete_Some in Hl as [_ ?]. assumption.
    + intros o Ho. change (delete (off h frag) (hashes h) !! o = hashes h !! o). apply lookup_delete_ne.
      apply not_eq_sym, Ho. set_solver.
    + discriminate.
    + cbn. rewrite Hu. unfold sz. lia.
  - apply released_bins.
  - intros l. rewrite elem_of_free_nodes. assert (inuse h l = false -> l <> frag) by apply frag_apart. set_solver.
  - intros k Ek. rewrite Ek in Hna. now apply negb_false_iff in Hna.
  - intros k Ek. rewrite Ek in Hnb. now apply negb_false_iff in Hnb.
  - exists h'. split; [|exact Hr]. destruct released_neighbours as [Ep Ex]. unfold coalesce. rewrite Ep, Ex.
    rewrite !neighbour_is_free, Hna, Hnb, <- Er by auto. now destruct (last a), (head b).
Qed.

Lemma coalesce_ok :
  exists h', coalesce frag (released frag h) = Ret h'
    /\ represents h' (release (map (block_of h) a) (off h frag) (sz h frag) (map (block_of h) b))
    /\ base h' = base h /\ capacity (diagnostics h') = capacity (diagnostics h).
Proof.
  unfold release. rewrite join_left_blocks. destruct (is_free (last a) h) eqn:Ea, (is_free (head b) h) eqn:Eb.
  - apply free_last in Ea as (a' & p & Ea & Hp). apply free_head in Eb as (n & b' & Eb & Hn).
    destruct (coalesce_both a' p n b' Ea Eb Hp Hn) as (h' & E & Hr & He). exists h'. split_and!; [exact E | | apply He..].
    rewrite Ea, last_snoc, Hp, removelast_last, join_right_blocks, Eb, Hn. cbn in Hr.
    now replace (sz h p + sz h frag + sz h n) with (sz h p + (sz h frag + (sz h n + 0))) by lia.
  - apply free_last in Ea as (a' & p & Ea & Hp).
    destruct (coalesce_left a' p Ea Hp Eb) as (h' & E & Hr & He). exists h'. split_and!; [exact E | | apply He..].
    rewrite Ea, last_snoc, Hp, removelast_last, join_right_blocks. cbn in Hr. rewrite Z.add_0_r in Hr.
    destruct b as [|n b']; [exact Hr |]. cbn in Eb. apply negb_false_iff in Eb. unfold inuse. now rewrite Eb.
  - apply free_head in Eb as (n & b' & Eb & Hn).
    destruct (coalesce_right n b' Eb Hn Ea) as (h' & E & Hr & He). exists h'. split_and!; [exact E | | apply He..].
    cbn in Hr. rewrite Z.add_0_r in Hr. destruct (last a) as [p|]; [cbn in Ea; apply negb_false_iff in Ea; unfold inuse; rewrite Ea |];
      rewrite join_right_blocks, Eb, Hn; exact Hr.
  - destruct (coalesce_alone Ea Eb) as (h' & E & Hr & He). exists h'. split_and!; [exact E | | apply He..].
    cbn in Hr. rewrite Z.add_0_r in Hr. destruct (last a) as [p|]; [cbn in Ea; apply negb_false_iff in Ea; unfold inuse; rewrite Ea |];
      rewrite join_right_blocks; (destruct b as [|n b']; [exact Hr |]); cbn in Eb; apply negb_false_iff in Eb; unfold inuse;
      rewrite Eb; exact Hr.
Qed.
End Free.

(** What the hash table says about an offset: the block in use there, or that
    there is none. *)
Lemma lookup_block h ls bs o :
  heap_inv h ls bs ->
  (exists a frag b, ls = a ++ frag :: b /\ find_fragment_by_offset o h = Some frag /\ off h frag = o /\ inuse h frag = true)
  \/ ((forall s, (o, s, true) ∉ map (block_of h) ls)
      /\ forall frag, find_fragment_by_offset o h = Some frag -> used (node h frag) = false).
Proof.
  intros Hi. destruct (find_fragment_by_offset o h) as [frag|] eqn:Ef; [destruct (used (node h frag)) eqn:Eu; [left | right] | right].
  - destruct (co_hash _ _ (hi_core _ _ _ Hi) _ _ Ef) as [Hlt Eo]. pose proof (co_used _ _ (hi_core _ _ _ Hi) _ Hlt Eu) as Hls.
    apply list_elem_of_split in Hls as (a & b & ->). now exists a, frag, b.
  - split; [|now intros ? [= <-]]. intros s Hs. apply list_elem_of_In, in_map_iff in Hs as (l & E & Hl%list_elem_of_In).
    unfold block_of in E. injection E as Eo _ Hu. rewrite <- Eo in Ef.
    unfold find_fragment_by_offset in Ef. rewrite (co_hash_used _ _ (hi_core _ _ _ Hi) l Hl Hu) in Ef. unfold inuse in Hu. congruence.
  - split; [|discriminate]. intros s Hs. apply list_elem_of_In, in_map_iff in Hs as (l & E & Hl%list_elem_of_In).
    unfold block_of in E. injection E as Eo _ Hu. rewrite <- Eo in Ef.
    unfold find_fragment_by_offset in Ef. rewrite (co_hash_used _ _ (hi_core _ _ _ Hi) l Hl Hu) in Ef. congruence.
Qed.

(** The blocks around a block in use. *)
Lemma used_block h a frag b : inuse h frag = true ->
  map (block_of h) (a ++ frag :: b) = map (block_of h) a ++ (off h frag, sz h frag, true) :: map (block_of h) b.
Proof. intros Hu. rewrite map_app. cbn [map]. unfold block_of at 2. now rewrite Hu. Qed.

(** [free] implements the specification. *)
Lemma free_body_ok h bl address :
  represents h bl ->
  exists h' bl', free_body address h = Ret h' /\ releases bl (offset_of address h) bl' /\ represents h' bl'
    /\ base h' = base h /\ capacity (diagnostics h') = capacity (diagnostics h).
Proof.
  intros Hr. pose proof Hr as (ls & bs & Hi & ->). set (o := offset_of address h).
  destruct (lookup_block h ls bs o Hi) as [(a & frag & b & -> & Ef & Eo & Hu) | [Hno Hf]].
  - destruct (frag_guards h a frag b bs Hi Hu) as [G1 G2]. destruct (coalesce_ok h a frag b bs Hi Hu) as (h' & E & Hr' & He).
    exists h', (release (map (block_of h) a) (off h frag) (sz h frag) (map (block_of h) b)).
    split_and!; [| |exact Hr' | apply He..].
    + unfold free_body. fold o. rewrite Ef. change (used (node h frag)) with (inuse h frag). rewrite Hu. cbn [negb].
      rewrite G1, G2, <- E. unfold released. do 3 f_equal. unfold off. cbn. now rewrite decide_True.
    + rewrite <- Eo. apply releases_some. now apply used_block.
  - exists h, (map (block_of h) ls). split_and!; auto; [|now constructor].
    unfold free_body. fold o. destruct (find_fragment_by_offset o h) as [frag|]; [|reflexivity]. now rewrite (Hf frag eq_refl).
Qed.

Lemma free_ok h bl address :
  represents h bl ->
  exists h' bl', free address h = Ret h' /\ releases bl (offset_of address h) bl' /\ represents h' bl'
    /\ base h' = base h /\ capacity (diagnostics h') = capacity (diagnostics h).
Proof.
  intros Hr. destruct (free_body_ok h bl address Hr) as (h' & bl' & E & Hf & Hr' & Eb & Ec).
  destruct (represents_end_of_scope h' bl' Hr') as (Hr'' & Eb' & Ed'). exists (end_of_scope h'), bl'.
  unfold free. rewrite E. cbn. split_and!; auto; congruence.
Qed.

(** Below 4 GiB the truncated offset is the distance from the base. *)
Lemma offset_of_near address h : base h <= address < base h + 2 ^ 32 -> offset_of address h = address - base h.
Proof. intros Ha. unfold offset_of. rewrite wsub_small by (unfold is_word; lia). apply wrap_small. unfold is_word. lia. Qed.

(** C19. free takes the distance of the address from the base of the arena,
    truncated to 32 bits (exact for addresses in the 4 GiB from the base on), gives
    back the block in use at that offset and joins it with the free block on either
    side; when no block in use starts at that offset nothing changes. The bins, the
    links, the hash table and the counters describe the new blocks. *)
Theorem free_refines h bl address :
  represents h bl ->
  exists h' bl', free address h = Ret h' /\ releases bl (offset_of address h) bl' /\ represents h' bl'
    /\ base h' = base h /\ capacity (diagnostics h') = capacity (diagnostics h)
    /\ (base h <= address < base h + 2 ^ 32 -> offset_of address h = address - base h).
Proof.
  intros Hr. destruct (free_ok h bl address Hr) as (h' & bl' & E & Hf & Hr' & Eb & Ec). exists h', bl'.
  split_and!; auto using offset_of_near.
Qed.
