(* ===== verification/HeapResize.v ===== *)
(** * Resizing

    [reallocate] resizes a block in place when the block and the free block after
    it can hold the new size, moves it down into the free block before it, or
    allocates a new block and frees the old one. *)

From stdpp Require Import gmap sorting.
From S2P Require Import Prelude Heap HeapLinks HeapBins HeapInv HeapAlloc HeapFree.

(** ** A run that becomes two fragments *)

(** [h'] is [h] with the run [s :: dead] of [t] bytes cut anew: [s] is in use with
    [n] bytes and the new fragment [m] holds the rest. *)
Record divided (h h' : O1Heap) (s : loc) (dead : list loc) (n t : Z) (after : option loc) (m : loc) : Prop := {
  dv_new : m = fresh_loc h;
  dv_fresh : fresh_loc h' = S m;
  dv_dropped : dropped h' = dropped h;
  dv_base : base h' = base h;
  dv_capacity : capacity (diagnostics h') = capacity (diagnostics h);
  dv_off k : off h' k = if decide (k = m) then off h s + n else off h k;
  dv_sz k : k ∉ dead -> sz h' k = if decide (k = s) then n else if decide (k = m) then t - n else sz h k;
  dv_inuse k : inuse h' k = if decide (k = s) then true else if decide (k = m \/ k ∈ dead) then false else inuse h k;
  dv_nx k : k ∉ dead -> nx h' k = if decide (k = m) then after else if decide (k = s) then Some m else nx h k;
  dv_pv k : k ∉ dead -> pv h' k = if decide (k = m) then Some s else if decide (after = Some k) then Some m else pv h k;
  dv_hash o l : hashes h' !! o = Some l -> hashes h !! o = Some l \/ (o = off h s /\ l = s) \/ (o = off h s + n /\ l = m);
  dv_keep o : (forall l, l ∈ s :: dead -> o <> off h l) -> o <> off h s + n -> hashes h' !! o = hashes h !! o;
  dv_hash_s : hashes h' !! off h s = Some s;
  dv_alloc : allocated (diagnostics h') + used_bytes (map (block_of h) (s :: dead)) = allocated (diagnostics h) + n }.

Lemma divided_represents h h' a s dead b n m bs bs' F :
  heap_inv h (a ++ s :: dead ++ b) bs -> divided h h' s dead n (total h (s :: dead)) (head b) m ->
  0 < n < total h (s :: dead) -> n mod FRAGMENT_SIZE_MIN = 0 ->
  bins_ok h' bs' F -> (forall l, l ∈ F <-> (l ∈ a ++ b /\ inuse h l = false) \/ l = m) ->
  (forall k, head b = Some k -> inuse h k = true) ->
  represents h' (map (block_of h) a ++ (off h s, n, true) :: remainder (off h s) (total h (s :: dead)) n ++ map (block_of h) b).
Proof.
  intros Hi Hd Hn Hmod Hb HF Hhb. pose proof (hi_core _ _ _ Hi) as Hc. pose proof (run_s h a s dead b Hc) as [Hsd Hsb].
  assert (s < fresh_loc h)%nat as Hs by (apply (co_fresh _ _ Hc); set_solver). pose proof (dv_new _ _ _ _ _ _ _ _ Hd) as Em.
  assert (s <> m) as Hsm by lia.
  assert (m ∉ dead) as Hmd. { intros Hx. assert (m < fresh_loc h)%nat by (apply (co_fresh _ _ Hc); set_solver). lia. }
  assert (spliced h h' a s dead [m] b) as Sp.
  { destruct Hd. apply described_cut with (u := true) (n := n); auto; try lia.
    rewrite dv_sz0, decide_True by auto. lia. }
  pose proof (spliced_blocks h h' a s dead [m] b Hc Sp) as Ebl.
  assert (forall l, l ∈ a ++ b -> inuse h' l = inuse h l) as Eab by (intros l Hl; specialize (Ebl l Hl); now injection Ebl).
  assert (block_of h' s = (off h s, n, true)) as Es.
  { unfold block_of. rewrite (dv_off _ _ _ _ _ _ _ _ Hd), (dv_sz _ _ _ _ _ _ _ _ Hd), (dv_inuse _ _ _ _ _ _ _ _ Hd) by exact Hsd.
    now rewrite decide_False, !decide_True by auto. }
  assert (block_of h' m = (off h s + n, total h (s :: dead) - n, false)) as Ebm.
  { unfold block_of. rewrite (dv_off _ _ _ _ _ _ _ _ Hd), (dv_sz _ _ _ _ _ _ _ _ Hd), (dv_inuse _ _ _ _ _ _ _ _ Hd) by exact Hmd.
    rewrite !(decide_False (P := m = s)) by auto. now rewrite !decide_True by auto. }
  exists (a ++ s :: [m] ++ b), bs'. split.
  - apply (spliced_inv h h' a s dead [m] b bs' F); auto.
    + intros l. rewrite HF. injection Ebm as _ _ Eum. injection Es as _ _ Eus. split.
      * intros [[Hl Hu] | ->]; [rewrite Eab by exact Hl; split; [set_solver | exact Hu] | split; [set_solver | exact Eum]].
      * intros [Hl Hu]. destruct (decide (l = m)) as [-> | Hne]; [auto |]. assert (l <> s) by congruence.
        assert (l ∈ a ++ b) as Hab by set_solver. left. rewrite <- Eab by exact Hab. auto.
    + injection Es as _ _ Eus. apply (separated_splice (inuse h) _ a s dead [m] b); [apply Hi | exact Eab | auto.. |]; rewrite ?Eus; cbn; auto.
  - rewrite map_app. cbn [map app]. rewrite (blocks_ext h h' a), (blocks_ext h h' b) by (intros; apply Ebl; set_solver).
    rewrite Es, Ebm. unfold remainder. replace (_ =? n) with false by lia. reflexivity.
Qed.

(** ** The state before the cut *)

(** [hX] is [h] with [dead] retired. *)
Record prepared (h hX : O1Heap) (dead : list loc) : Prop := {
  pr_fresh : fresh_loc hX = fresh_loc h;
  pr_dropped : dropped hX = dropped h;
  pr_base : base hX = base h;
  pr_off k : off hX k = off h k;
  pr_sz k : k ∉ dead -> sz hX k = sz h k;
  pr_inuse k : inuse hX k = inuse h k;
  pr_nx k : nx hX k = nx h k;
  pr_pv k : pv hX k = pv h k;
  pr_hash o l : hashes hX !! o = Some l -> hashes h !! o = Some l;
  pr_keep o : (forall l, l ∈ dead -> o <> off h l) -> hashes hX !! o = hashes h !! o }.

Lemma prepared_core h h1 : same_core h h1 -> prepared h h1 [].
Proof.
  intros Sc. split; try apply Sc; try (intros k; rewrite ?(core_off _ _ Sc), ?(core_sz _ _ Sc), ?(core_inuse _ _ Sc),
    ?(core_nx _ _ Sc), ?(core_pv _ _ Sc); auto); intros o; rewrite (sc_hashes _ _ Sc); auto.
Qed.

Lemma prepared_retire h h1 k : same_core h h1 -> prepared h (retire k h1) [k].
Proof.
  intros Sc. unfold retire. split; try apply Sc.
  - intros l. transitivity (off h1 l); [nodes | apply (core_off _ _ Sc)].
  - intros l Hl. transitivity (sz h1 l); [|apply (core_sz _ _ Sc)]. assert (l <> k) by set_solver. nodes.
  - intros l. transitivity (inuse h1 l); [nodes | apply (core_inuse _ _ Sc)].
  - intros l. transitivity (nx h1 l); [nodes | apply (core_nx _ _ Sc)].
  - intros l. transitivity (pv h1 l); [nodes | apply (core_pv _ _ Sc)].
  - intros o l Hl. cbn [hashes set_hashes modify] in Hl. apply lookup_delete_Some in Hl as [_ Hl]. now rewrite <- (sc_hashes _ _ Sc).
  - intros o Ho. cbn [hashes set_hashes modify]. rewrite lookup_delete_ne, (sc_hashes _ _ Sc); [reflexivity |].
    apply not_eq_sym. rewrite (sc_offset _ _ Sc). apply Ho. set_solver.
Qed.

Lemma prepared_diagnostics d h hX dead : prepared (set_diagnostics d h) hX dead -> prepared h hX dead.
Proof. intros []. split; auto. Qed.

Lemma set_diagnostics_same h : set_diagnostics (diagnostics h) h = h.
Proof. now destruct h. Qed.

(** [s] is given [n] bytes and the successor [after]. *)
Definition relinked (s : loc) (n : Z) (after : option loc) (h : O1Heap) : O1Heap :=
  modify s (set_size n) (modify_opt after (set_prev (Some s)) (modify s (set_next after) h)).

Lemma relinked_fields s n after h k (h' := relinked s n after h) :
  off h' k = off h k /\ inuse h' k = inuse h k /\ sz h' k = (if decide (k = s) then n else sz h k)
  /\ nx h' k = (if decide (k = s) then after else nx h k)
  /\ pv h' k = if decide (after = Some k) then Some s else pv h k.
Proof.
  unfold h', relinked. destruct after as [x|]; cbn [modify_opt]; autorewrite with heap; split_and!; auto.
  repeat case_decide; congruence.
Qed.

Lemma relinked_same s n after h (h' := relinked s n after h) :
  fresh_loc h' = fresh_loc h /\ dropped h' = dropped h /\ base h' = base h /\ hashes h' = hashes h /\ diagnostics h' = diagnostics h.
Proof. unfold h', relinked. destruct after; split_and!; reflexivity. Qed.

Lemma relinked_bins s n after h bs F : bins_ok h bs F -> s ∉ F -> bins_ok (relinked s n after h) bs F.
Proof. intros Hb Hs. unfold relinked. apply bins_ok_size; [apply bins_ok_prev, bins_ok_next, Hb | exact Hs]. Qed.

(** ** Cutting a block in use *)

Section Resize.
Context (h : O1Heap) (a : list loc) (s : loc) (dead b : list loc) (bs : nat -> list loc).
Hypothesis Hi : heap_inv h (a ++ s :: dead ++ b) bs.
Hypothesis Hs : inuse h s = true.
Hypothesis Hdead : forall l, l ∈ dead -> inuse h l = false.

Lemma unused_run : used_bytes (map (block_of h) (s :: dead)) = sz h s.
Proof.
  cbn. rewrite Hs. assert (used_bytes (map (block_of h) dead) = 0) as E; [|unfold used_bytes in E; rewrite E; lia].
  clear - Hdead. induction dead as [|l d IH]; [reflexivity |]. cbn. rewrite (Hdead l) by set_solver.
  fold (used_bytes (map (block_of h) d)). rewrite IH; [reflexivity |]. intros; apply Hdead; set_solver.
Qed.

Lemma run_end : 0 <= off h s /\ off h s + total h (s :: dead) <= capacity (diagnostics h) < 2 ^ 32.
Proof.
  pose proof (hi_core _ _ _ Hi) as Hc. pose proof (co_capacity _ _ Hc). pose proof (co_tiles _ _ Hc) as Ht.
  apply tiles_app in Ht as (m1 & Ht1 & Ht). change (s :: dead ++ b) with ((s :: dead) ++ b) in Ht.
  apply tiles_app in Ht as (m2 & Hr & Ht2). apply tiles_le in Ht1, Ht2.
  assert (m1 = off h s) as -> by (cbn in Hr; symmetry; tauto). destruct (tiles_total _ _ _ _ Hr) as (-> & _ & ?). lia.
Qed.

Lemma head_old k : head b = Some k -> (k < fresh_loc h)%nat.
Proof.
  clear Hs Hdead. intros E%head_Some_elem_of. apply (co_fresh _ _ (hi_core _ _ _ Hi)). set_solver.
Qed.

Lemma run_hash hX : prepared h hX dead -> hashes hX !! off h s = Some s.
Proof.
  intros Hp. pose proof (run_s _ _ _ _ _ (hi_core _ _ _ Hi)) as [Hsd _]. rewrite (pr_keep _ _ _ Hp).
  - apply (co_hash_used _ _ (hi_core _ _ _ Hi)); [set_solver | exact Hs].
  - intros l Hl E. apply Hsd. replace s with l; [exact Hl |].
    apply (tiles_offset_inj _ _ _ _ _ l s (co_nodup _ _ (hi_core _ _ _ Hi)) (co_tiles _ _ (hi_core _ _ _ Hi)));
      [set_solver.. | congruence].
Qed.

Lemma cut_divided hX h2 h3 m n d :
  0 < n -> prepared h hX dead -> cut_at s m (off h s + n) n (total h (s :: dead) - n) (head b) hX h2 -> same_core h2 h3 ->
  capacity d = capacity (diagnostics h) -> allocated d = allocated (diagnostics h) + n - sz h s ->
  divided h (set_diagnostics d h3) s dead n (total h (s :: dead)) (head b) m.
Proof.
  intros Hn Hp Hcut Sc3 Ecap Eal. pose proof (run_s _ _ _ _ _ (hi_core _ _ _ Hi)) as [Hsd _].
  assert (m = fresh_loc h) as Em by (rewrite (cu_new _ _ _ _ _ _ _ _ Hcut); apply Hp).
  assert (s <> m) as Hsm. { pose proof (run_members _ _ _ _ _ (hi_core _ _ _ Hi) s ltac:(set_solver)). lia. }
  assert (hashes (set_diagnostics d h3) = <[off h s + n := m]> (hashes hX)) as Eh.
  { cbn. now rewrite (sc_hashes _ _ Sc3), (cu_hashes _ _ _ _ _ _ _ _ Hcut). }
  assert (off h s <> off h s + n) as Hne by lia.
  split; auto.
  - cbn. rewrite (sc_fresh _ _ Sc3). apply Hcut.
  - cbn. rewrite (sc_dropped _ _ Sc3), (cu_dropped _ _ _ _ _ _ _ _ Hcut). apply Hp.
  - cbn. rewrite (sc_base _ _ Sc3), (cu_base _ _ _ _ _ _ _ _ Hcut). apply Hp.
  - intros k. transitivity (off h3 k); [reflexivity |]. rewrite (core_off _ _ Sc3), (cu_off _ _ _ _ _ _ _ _ Hcut).
    now rewrite (pr_off _ _ _ Hp).
  - intros k Hk. transitivity (sz h3 k); [reflexivity |]. rewrite (core_sz _ _ Sc3), (cu_sz _ _ _ _ _ _ _ _ Hcut).
    rewrite (pr_sz _ _ _ Hp) by exact Hk. repeat case_decide; congruence.
  - intros k. transitivity (inuse h3 k); [reflexivity |]. rewrite (core_inuse _ _ Sc3), (cu_inuse _ _ _ _ _ _ _ _ Hcut).
    rewrite (pr_inuse _ _ _ Hp). destruct (decide (k = s)) as [-> |]; [now rewrite decide_False by congruence |].
    destruct (decide (k = m \/ k ∈ dead)) as [[? | ?] | Hnm]; [now rewrite decide_True | | rewrite decide_False; tauto].
    case_decide; auto.
  - intros k _. transitivity (nx h3 k); [reflexivity |]. rewrite (core_nx _ _ Sc3), (cu_nx _ _ _ _ _ _ _ _ Hcut).
    now rewrite (pr_nx _ _ _ Hp).
  - intros k _. transitivity (pv h3 k); [reflexivity |]. rewrite (core_pv _ _ Sc3), (cu_pv _ _ _ _ _ _ _ _ Hcut).
    now rewrite (pr_pv _ _ _ Hp).
  - intros o l. rewrite Eh. intros [[<- <-] | [_ Hl]]%lookup_insert_Some; [auto |]. left. now apply (pr_hash _ _ _ Hp).
  - intros o Ho Hon. rewrite Eh, lookup_insert_ne by congruence. apply (pr_keep _ _ _ Hp). intros l Hl. apply Ho. set_solver.
  - rewrite Eh, lookup_insert_ne by congruence. now apply run_hash.
  - rewrite unused_run. cbn [diagnostics set_diagnostics]. lia.
Qed.

(** The tail of the run is linked in and binned. *)
Lemma resize_cut hX bsX F n :
  prepared h hX dead -> bins_ok hX bsX F -> (forall l, l ∈ F <-> l ∈ a ++ b /\ inuse h l = false) ->
  (forall k, head b = Some k -> inuse h k = true) -> FRAGMENT_SIZE_MIN <= n -> n mod FRAGMENT_SIZE_MIN = 0 ->
  FRAGMENT_SIZE_MIN <= total h (s :: dead) - n ->
  forall o m h1, o = wrap 32 (off h s + wrap 32 n) ->
  link_after s o (wrap 32 (total h (s :: dead) - n)) (head b) hX = (m, h1) ->
  exists h3, rebin m (set_hashes (<[o := m]> (hashes h1)) (modify s (set_size (wrap 32 n)) h1)) = Ret h3
    /\ diagnostics h3 = diagnostics hX /\ base h3 = base h
    /\ forall d, capacity d = capacity (diagnostics h) -> allocated d = allocated (diagnostics h) + n - sz h s ->
        represents (set_diagnostics d h3)
          (map (block_of h) a ++ (off h s, n, true) :: remainder (off h s) (total h (s :: dead)) n ++ map (block_of h) b).
Proof.
  intros Hp HbX HF Hhb Hn Hmod Hleft o m h1. destruct run_end as (Ho & Hend & Hcap). unfold FRAGMENT_SIZE_MIN in *.
  rewrite (wrap_small 32 n), (wrap_small 32 (off h s + n)), (wrap_small 32 (total h (s :: dead) - n)) by (split; lia).
  intros -> El. pose proof (link_after_cut s (off h s + n) n (total h (s :: dead) - n) (head b) hX) as Hcut.
  rewrite El in Hcut. rewrite (pr_fresh _ _ _ Hp) in Hcut.
  specialize (Hcut (run_members _ _ _ _ _ (hi_core _ _ _ Hi) s ltac:(set_solver)) head_old).
  pose proof (run_disjoint _ _ _ _ _ (hi_core _ _ _ Hi)) as Hdis.
  destruct (cut_rebin _ _ _ _ _ _ _ _ bsX F Hcut HbX) as (h3 & bs3 & E & Sc3 & Hb3).
  - rewrite HF. intros [Hl%Hdis _]. tauto.
  - intros l [Hl _]%HF. rewrite (pr_fresh _ _ _ Hp). apply (co_fresh _ _ (hi_core _ _ _ Hi)). set_solver.
  - rewrite (pr_dropped _ _ _ Hp), (pr_fresh _ _ _ Hp). apply (co_dropped _ _ (hi_core _ _ _ Hi)).
  - unfold FRAGMENT_SIZE_MIN. lia.
  - exists h3. split_and!; [exact E | | |].
    + rewrite (sc_diag _ _ Sc3). apply Hcut.
    + rewrite (sc_base _ _ Sc3), (cu_base _ _ _ _ _ _ _ _ Hcut). apply Hp.
    + intros d Ecap Eal. eapply (divided_represents h _ a s dead b n m bs bs3 (F ∪ {[m]})); auto; [|lia | |].
      * now apply (cut_divided hX (set_hashes (<[off h s + n := m]> (hashes h1)) (modify s (set_size n) h1))); [lia |..].
      * now apply bins_ok_diagnostics.
      * intros l. rewrite elem_of_union, HF, elem_of_singleton. reflexivity.
Qed.

(** The fragment takes the whole run. *)
Lemma absorb_merged hX n after d :
  prepared h hX dead -> capacity d = capacity (diagnostics h) -> allocated d = allocated (diagnostics h) + n - sz h s ->
  merged h (set_diagnostics d (relinked s n after hX)) s dead n after true.
Proof.
  intros Hp Ecap Eal. destruct (relinked_same s n after hX) as (Ef & Ed & Eb & Eh & _).
  assert (forall k, off (relinked s n after hX) k = off h k) as Eo.
  { intros k. destruct (relinked_fields s n after hX k) as (-> & _). apply Hp. }
  split; auto; try (intros k; destruct (relinked_fields s n after hX k) as (_ & Eu & Es & En & Ep)).
  - rewrite <- (pr_fresh _ _ _ Hp). exact Ef.
  - rewrite <- (pr_dropped _ _ _ Hp). exact Ed.
  - rewrite <- (pr_base _ _ _ Hp). exact Eb.
  - intros Hk. etransitivity; [exact Es |]. now rewrite (pr_sz _ _ _ Hp).
  - etransitivity; [exact Eu |]. rewrite (pr_inuse _ _ _ Hp). destruct (decide (k = s)) as [-> |]; [exact Hs |].
    destruct (decide (k ∈ dead)); auto.
  - intros _. etransitivity; [exact En |]. now rewrite (pr_nx _ _ _ Hp).
  - intros _. etransitivity; [exact Ep |]. now rewrite (pr_pv _ _ _ Hp).
  - intros o l Hl. left. apply (pr_hash _ _ _ Hp). rewrite <- Eh. exact Hl.
  - intros o Ho. etransitivity; [exact (f_equal (lookup o) Eh) |]. apply (pr_keep _ _ _ Hp). intros l Hl. apply Ho. set_solver.
  - intros _. etransitivity; [exact (f_equal (lookup (off h s)) Eh) |]. now apply run_hash.
  - rewrite unused_run. cbn [diagnostics set_diagnostics]. lia.
Qed.
End Resize.

Lemma next_offset h a l k b bs : heap_inv h (a ++ l :: k :: b) bs -> off h k = off h l + sz h l.
Proof.
  intros Hi. pose proof (co_tiles _ _ (hi_core _ _ _ Hi)) as Ht. apply tiles_app in Ht as (m & _ & Ht). cbn in Ht. lia.
Qed.

(** The blocks after a block is resized in place. *)
Definition resized (l1 : list block) (o s : Z) (l2 : list block) (n : Z) : list block :=
  let (t, l2) := join_right s l2 in l1 ++ (o, n, true) :: remainder o t n ++ l2.

Section InPlace.
Context (h : O1Heap) (a : list loc) (frag : loc) (b : list loc) (bs : nat -> list loc) (n : Z).
Hypothesis Hi : heap_inv h (a ++ frag :: b) bs.
Hypothesis Hu : inuse h frag = true.
Hypothesis Hn : FRAGMENT_SIZE_MIN <= n.
Hypothesis Hunit : n mod FRAGMENT_SIZE_MIN = 0.

(** Both neighbours of the fragment are either in use or free and binned. *)
Lemma take_free k d (F := free_nodes h (a ++ frag :: b)) :
  k ∈ a ++ frag :: b -> inuse h k = false ->
  exists h1 bs1, unbin k (set_diagnostics d h) = Ret h1 /\ same_core (set_diagnostics d h) h1 /\ bins_ok h1 bs1 (F ∖ {[k]}).
Proof.
  intros Hk Hf. destruct (unbin_ok k (set_diagnostics d h) bs F) as (h1 & bs1 & E & Sc & Hb & _); eauto.
  - apply bins_ok_diagnostics, Hi.
  - now apply elem_of_free_nodes.
Qed.

Lemma next_used : is_free (head b) h = false -> forall k, head b = Some k -> inuse h k = true.
Proof. intros E k Ek. rewrite Ek in E. now apply negb_false_iff in E. Qed.

Lemma free_rest : forall l, l ∈ free_nodes h (a ++ frag :: b) <-> l ∈ a ++ b /\ inuse h l = false.
Proof.
  intros l. rewrite elem_of_free_nodes. assert (inuse h l = false -> l <> frag) by congruence. set_solver.
Qed.

Lemma free_rest_next k b' : b = k :: b' -> forall l, l ∈ free_nodes h (a ++ frag :: b) ∖ {[k]} <-> l ∈ a ++ b' /\ inuse h l = false.
Proof.
  intros Eb l. rewrite elem_of_difference, free_rest, elem_of_singleton. subst b.
  pose proof (co_nodup _ _ (hi_core _ _ _ Hi)) as Hnd. apply NoDup_app in Hnd as (_ & Hd & Hnd).
  apply NoDup_cons in Hnd as [_ [Hkb _]%NoDup_cons].
  assert (l = k -> l ∉ a) by (intros -> Hx; apply (Hd k); set_solver). set_solver.
Qed.

Lemma resized_same : n = sz h frag -> resized (map (block_of h) a) (off h frag) (sz h frag) (map (block_of h) b) n = map (block_of h) (a ++ frag :: b).
Proof.
  intros En. unfold resized. rewrite join_right_blocks, map_app. cbn [map].
  assert (block_of h frag = (off h frag, n, true)) as -> by (unfold block_of; now rewrite Hu, En).
  destruct b as [|k b']; [now rewrite <- En; unfold remainder; rewrite Z.eqb_refl |].
  destruct (inuse h k) eqn:Ek; [now rewrite <- En; unfold remainder; rewrite Z.eqb_refl |]. unfold remainder.
  destruct (inv_sizes _ _ _ k Hi) as (_ & Hk & _); [set_solver |]. unfold FRAGMENT_SIZE_MIN in Hk.
  replace (_ =? n) with false by lia. cbn [app map]. do 3 f_equal. unfold block_of.
  rewrite (next_offset _ _ _ _ _ _ Hi), Ek, En. do 2 f_equal. lia.
Qed.

Lemma allocated_ge : sz h frag <= allocated (diagnostics h).
Proof. destruct (frag_guards h a frag b bs Hi Hu) as [_ G]. unfold sz. lia. Qed.

(** The state in which the tail is linked after the fragment: the fragment after it
    is retired when it is free. *)
Lemma take_next d :
  exists hX bsX dead b' F,
    (match head b, is_free (head b) h with
     | Some nx, true => h ← unbin nx (set_diagnostics d h); let next_next := next (node h nx) in Ret (next_next, retire nx h)
     | None, true => Panic
     | _, false => Ret (next (node (set_diagnostics d h) frag), set_diagnostics d h)
     end) = Ret (head b', hX)
    /\ b = dead ++ b' /\ (forall l, l ∈ dead -> inuse h l = false) /\ prepared h hX dead /\ bins_ok hX bsX F
    /\ (forall l, l ∈ F <-> l ∈ a ++ b' /\ inuse h l = false) /\ (forall k, head b' = Some k -> inuse h k = true)
    /\ diagnostics hX = d
    /\ sz h frag <= total h (frag :: dead)
    /\ total h (frag :: dead) = sz h frag + (if is_free (head b) h then size_or_0 (head b) h else 0)
    /\ join_right (sz h frag) (map (block_of h) b) = (total h (frag :: dead), map (block_of h) b').
Proof.
  destruct (inv_neighbours _ _ _ _ _ Hi) as [_ Enf]. rewrite join_right_blocks.
  destruct (is_free (head b) h) eqn:Ef.
  - apply free_head in Ef as (k & b' & Eb & Hk). rewrite Eb. cbn [head].
    destruct (take_free k d) as (h1 & bs1 & E & Sc & Hb1); [subst; set_solver | exact Hk |].
    destruct (after_free h a frag b bs Hi Hu k b' Eb Hk) as (Hkf & Enk & Hhb).
    exists (retire k h1), bs1, [k], b', (free_nodes h (a ++ frag :: b) ∖ {[k]}). rewrite E, Hk. cbn [mbind outcome_bind].
    split_and!; auto.
    + rewrite (sc_next _ _ Sc). cbn. change (next (node h k)) with (nx h k). now rewrite Enk.
    + intros l ->%list_elem_of_singleton. exact Hk.
    + eapply prepared_diagnostics, prepared_retire. exact Sc.
    + unfold retire. apply bins_ok_hashes, bins_ok_size; [exact Hb1 | set_solver].
    + now apply free_rest_next.
    + cbn. apply (sc_diag _ _ Sc).
    + pose proof (size_pos h a frag b bs Hi k ltac:(subst; set_solver)). cbn. lia.
    + cbn. unfold sz. lia.
    + cbn. now rewrite Z.add_0_r.
  - exists (set_diagnostics d h), bs, [], b, (free_nodes h (a ++ frag :: b)). split_and!; auto.
    + cbn. change (next (node h frag)) with (nx h frag). rewrite Enf. now destruct (head b).
    + intros l Hl. now apply elem_of_nil in Hl.
    + now eapply prepared_diagnostics, prepared_core.
    + apply bins_ok_diagnostics, Hi.
    + apply free_rest.
    + now apply next_used.
    + cbn. lia.
    + cbn. rewrite Z.add_0_r. destruct b as [|k b']; [reflexivity |]. cbn in Ef. apply negb_false_iff in Ef. unfold inuse. now rewrite Ef.
Qed.

Lemma shrink_ok address :
  n <= sz h frag ->
  exists h', shrink address frag (off h frag) (sz h frag) n (head b) (is_free (head b) h) (size_or_0 (head b) h) h
             = Ret (Some (mkRealloc address 0), h')
    /\ represents h' (resized (map (block_of h) a) (off h frag) (sz h frag) (map (block_of h) b) n)
    /\ base h' = base h /\ capacity (diagnostics h') = capacity (diagnostics h).
Proof.
  intros Hle. unfold shrink. destruct (Z.leb_spec FRAGMENT_SIZE_MIN (sz h frag - n)) as [Hl | Hl].
  2: { exists h. split_and!; auto. rewrite resized_same; [now exists (a ++ frag :: b), bs |]. symmetry.
       apply unit_difference; auto. apply (inv_unit _ _ _ frag Hi). set_solver. }
  pose proof allocated_ge as Hal. unfold FRAGMENT_SIZE_MIN in Hl.
  replace (allocated (diagnostics h) <? sz h frag - n) with false by (unfold FRAGMENT_SIZE_MIN in *; lia).
  set (d := set_allocated (allocated (diagnostics h) - (sz h frag - n)) (diagnostics h)).
  destruct (take_next d) as (hX & bsX & dead & b' & F & E & Eb & Hdead & Hp & HbX & HF & Hhb & Ed & Hge & Et & Ej).
  match goal with |- context [mbind _ ?x] => replace x with (Ret (head b', hX)) by exact (eq_sym E) end.
  cbn [mbind outcome_bind]. rewrite Eb in Hi.
  assert ((if is_free (head b) h then sz h frag - n + size_or_0 (head b) h else sz h frag - n)
          = total h (frag :: dead) - n) as -> by (rewrite Et; destruct (is_free (head b) h); lia).
  destruct (link_after _ _ _ _ _) as [m h1] eqn:El.
  destruct (resize_cut h a frag dead b' bs Hi Hu Hdead hX bsX F n Hp HbX HF Hhb Hn Hunit
    ltac:(unfold FRAGMENT_SIZE_MIN; lia) _ m h1 eq_refl El) as (h3 & E3 & Ed3 & Eb3 & Hr).
  cbn [modify hashes]. rewrite E3. cbn [mbind outcome_bind]. exists h3. rewrite Ed3, Ed. split_and!; auto.
  unfold resized. rewrite Ej. rewrite <- (set_diagnostics_same h3), Ed3, Ed. apply Hr; cbn; [reflexivity | lia].
Qed.

Lemma grow_forward_ok address k :
  head b = Some k -> inuse h k = false -> sz h frag < n <= sz h frag + sz h k ->
  exists h', grow_forward address frag (off h frag) (sz h frag) n k (sz h k) h = Ret (Some (mkRealloc address 0), h')
    /\ represents h' (resized (map (block_of h) a) (off h frag) (sz h frag) (map (block_of h) b) n)
    /\ base h' = base h /\ capacity (diagnostics h') = capacity (diagnostics h).
Proof.
  intros Ek Hk Hlt.
  destruct (take_next (diagnostics h)) as (hX & bsX & dead & b' & F & E & Eb & Hdead & Hp & HbX & HF & Hhb & Ed & Hge & Et & Ej).
  rewrite set_diagnostics_same, Ek in E. cbn [is_free] in E, Et. change (used (node h k)) with (inuse h k) in *.
  rewrite Ek in Et. cbn [is_free size_or_0] in Et. change (used (node h k)) with (inuse h k) in Et.
  rewrite Hk in E, Et. cbn [negb] in E, Et. change (size (node h k)) with (sz h k) in Et.
  unfold grow_forward. destruct (unbin k h) as [h1|]; [|discriminate]. cbn [mbind outcome_bind] in E |- *.
  injection E as Enn EX. rewrite Enn, EX.
  assert (0 <= allocated (diagnostics h) /\ 0 < sz h k /\ allocated (diagnostics h) + sz h k < 2 ^ 64) as Hal.
  { apply head_Some in Ek as (b0 & Eb0). pose proof Hi as Hi0. rewrite Eb0 in Hi0.
    change (frag :: k :: b0) with ([frag] ++ k :: b0) in Hi0. rewrite app_assoc in Hi0.
    pose proof (inv_allocated_free _ _ _ _ _ Hi0 Hk). pose proof (inv_allocated _ _ _ Hi0).
    pose proof (co_capacity _ _ (hi_core _ _ _ Hi)). pose proof (size_pos h a frag b bs Hi k). subst b.
    assert (0 < sz h k) by (apply H2; set_solver). lia. }
  rewrite Eb in Hi. unfold resized. rewrite Ej. rewrite <- Et.
  destruct (Z.leb_spec FRAGMENT_SIZE_MIN (total h (frag :: dead) - n)) as [Hl | Hl].
  - destruct (link_after _ _ _ _ _) as [m h2] eqn:El.
    destruct (resize_cut h a frag dead b' bs Hi Hu Hdead hX bsX F n Hp HbX HF Hhb Hn Hunit Hl _ m h2 eq_refl El)
      as (h3 & E3 & Ed3 & Eb3 & Hr).
    cbn [modify hashes]. rewrite E3. cbn [mbind outcome_bind]. eexists. split; [reflexivity |].
    rewrite Ed in Ed3. split_and!; [apply Hr | exact Eb3 |]; cbn; rewrite Ed3; try reflexivity.
    unfold wadd. rewrite wrap_small by (split; lia). lia.
  - assert (n = total h (frag :: dead)) as En.
    { symmetry. apply unit_difference; auto; try lia. pose proof (co_tiles _ _ (hi_core _ _ _ Hi)) as Ht.
      apply tiles_app in Ht as (m1 & _ & Ht). change (frag :: dead ++ b') with ((frag :: dead) ++ b') in Ht.
      apply tiles_app in Ht as (m2 & Ht & _). now destruct (tiles_total _ _ _ _ Ht) as (_ & ? & _). }
    cbn [mbind outcome_bind]. eexists. split; [reflexivity |].
    destruct (run_end h a frag dead b' bs Hi) as (Ho & Hend & Hcap).
    rewrite (wrap_small 32 (total h (frag :: dead))) by (split; unfold FRAGMENT_SIZE_MIN in *; lia).
    fold (relinked frag (total h (frag :: dead)) (head b') hX). set (h2 := relinked frag (total h (frag :: dead)) (head b') hX).
    destruct (relinked_same frag (total h (frag :: dead)) (head b') hX) as (_ & _ & Eb2 & _ & Ed2). fold h2 in Eb2, Ed2.
    rewrite Ed in Ed2. rewrite (pr_base _ _ _ Hp) in Eb2.
    split_and!; [|exact Eb2 | change (capacity (diagnostics h2) = capacity (diagnostics h)); now rewrite Ed2].
    unfold remainder. rewrite En, Z.eqb_refl. cbn [app].
    set (d := diagnostics (note_peak (add_allocated (sz h k) h2))).
    change (note_peak (add_allocated (sz h k) h2)) with (set_diagnostics d h2).
    assert (capacity d = capacity (diagnostics h) /\ allocated d = allocated (diagnostics h) + total h (frag :: dead) - sz h frag) as [Ecd Ead].
    { change (capacity d) with (capacity (diagnostics h2)). change (allocated d) with (wadd (allocated (diagnostics h2)) (sz h k)).
      rewrite Ed2. split; [reflexivity |]. unfold wadd. rewrite wrap_small by (split; lia). lia. }
    eapply (merged_represents h _ a frag dead b' bs bsX true Hi); [now apply (absorb_merged h a frag dead b' bs) | | | auto].
    + apply bins_ok_diagnostics, relinked_bins; [exact HbX |]. rewrite HF. intros [_ ?]. congruence.
    + intros l. rewrite HF. intuition discriminate.
Qed.
End InPlace.
