(* ===== verification/HeapMove.v ===== *)
(** * Moving a block

    [reallocate] as a whole: the block grows down into the free block before it,
    or moves to a new block.  The specification holds when the code does not count
    a block in use after the one it grows (see [HeapFindings]). *)

From stdpp Require Import gmap sorting.
From S2P Require Import Prelude Heap HeapLinks HeapBins HeapInv.
From S2P Require Import HeapAlloc HeapFree HeapResize.

(** ** Growing down *)

(** The bookkeeping once the block has moved down to [p]: the old fragment and the
    free one after it are retired. *)
Definition settle (frag : loc) (o : Z) (gone : list loc) (p : loc) (po : Z) (h : O1Heap) : O1Heap :=
  let h := modify frag (set_used false) h in
  let h := modify frag (set_size 0) h in
  let h := set_hashes (delete o (hashes h)) h in
  let h := foldl (fun h l => retire l h) h gone in
  set_hashes (<[po := p]> (hashes h)) h.

Lemma retired_fields gone h (h' := foldl (fun h l => retire l h) h gone) :
  (forall k, off h' k = off h k /\ inuse h' k = inuse h k /\ nx h' k = nx h k /\ pv h' k = pv h k
     /\ (k ∉ gone -> sz h' k = sz h k))
  /\ fresh_loc h' = fresh_loc h /\ dropped h' = dropped h /\ base h' = base h /\ diagnostics h' = diagnostics h
  /\ (forall o l, hashes h' !! o = Some l -> hashes h !! o = Some l)
  /\ (forall o, (forall l, l ∈ gone -> o <> off h l) -> hashes h' !! o = hashes h !! o).
Proof.
  unfold h'. clear h'. revert h. induction gone as [|l gone IH]; intros h; cbn [foldl]; [split_and!; auto |].
  destruct (IH (retire l h)) as (Hk & Ef & Ed & Eb & Eg & Hh & Hkeep).
  pose proof (prepared_retire h h l (reflexivity h)) as Hp. split_and!; auto.
  - intros k. destruct (Hk k) as (Eo & Eu & En & Ep & Es).
    rewrite (pr_off _ _ _ Hp) in Eo. rewrite (pr_inuse _ _ _ Hp) in Eu. rewrite (pr_nx _ _ _ Hp) in En. rewrite (pr_pv _ _ _ Hp) in Ep.
    split_and!; auto. intros Hn. rewrite Es by set_solver. apply (pr_sz _ _ _ Hp). set_solver.
  - intros o k Hl. apply (pr_hash _ _ _ Hp). now apply Hh.
  - intros o Ho. rewrite Hkeep, (pr_keep _ _ _ Hp); auto; intros k Hl; [|rewrite (pr_off _ _ _ Hp)]; apply Ho; set_solver.
Qed.

Lemma retired_bins gone h bs F : bins_ok h bs F -> (forall l, l ∈ gone -> l ∉ F) -> bins_ok (foldl (fun h l => retire l h) h gone) bs F.
Proof.
  revert h. induction gone as [|l gone IH]; intros h Hb Hd; cbn [foldl]; [exact Hb |].
  apply IH; [unfold retire; apply bins_ok_hashes, bins_ok_size; auto; apply Hd; set_solver | intros; apply Hd; set_solver].
Qed.

Lemma settle_fields frag o gone p po h (h' := settle frag o gone p po h) :
  (forall k, off h' k = off h k /\ inuse h' k = (if decide (k = frag) then false else inuse h k)
     /\ nx h' k = nx h k /\ pv h' k = pv h k /\ (k ∉ frag :: gone -> sz h' k = sz h k))
  /\ fresh_loc h' = fresh_loc h /\ dropped h' = dropped h /\ base h' = base h /\ diagnostics h' = diagnostics h
  /\ (forall o' l, hashes h' !! o' = Some l -> hashes h !! o' = Some l \/ (o' = po /\ l = p))
  /\ (forall o', o' <> o -> (forall l, l ∈ gone -> o' <> off h l) -> o' <> po -> hashes h' !! o' = hashes h !! o')
  /\ hashes h' !! po = Some p.
Proof.
  unfold h', settle. clear h'. set (h1 := set_hashes (delete o _) _).
  assert (forall k, off h1 k = off h k /\ inuse h1 k = (if decide (k = frag) then false else inuse h k) /\ nx h1 k = nx h k
     /\ pv h1 k = pv h k /\ (k <> frag -> sz h1 k = sz h k)) as H1.
  { intros k. unfold h1. split_and!; try intros Hkf; nodes. }
  destruct (retired_fields gone h1) as (Hk & Ef & Ed & Eb & Eg & Hh & Hkeep). set (h2 := foldl _ _ _) in *.
  split_and!; auto.
  - intros k. destruct (Hk k) as (Eo & Eu & En & Ep & Es), (H1 k) as (Eo1 & Eu1 & En1 & Ep1 & Es1). split_and!.
    + transitivity (off h2 k); [reflexivity | congruence].
    + transitivity (inuse h2 k); [reflexivity | congruence].
    + transitivity (nx h2 k); [reflexivity | congruence].
    + transitivity (pv h2 k); [reflexivity | congruence].
    + intros Hn. transitivity (sz h2 k); [reflexivity |]. rewrite Es, Es1 by set_solver. reflexivity.
  - cbn [hashes set_hashes]. intros o' l [[<- <-] | [_ Hl]]%lookup_insert_Some; [auto |]. apply Hh in Hl.
    change (delete o (hashes h) !! o' = Some l) in Hl. apply lookup_delete_Some in Hl as [_ Hl]. auto.
  - intros o' Ho1 Ho2 Ho3. cbn [hashes set_hashes]. rewrite lookup_insert_ne by congruence.
    rewrite Hkeep by (intros l Hl; destruct (H1 l) as (-> & _); auto). unfold h1. cbn [hashes set_hashes]. apply lookup_delete_ne. congruence.
  - apply lookup_insert_eq.
Qed.

Lemma settle_bins frag o gone p po h bs F :
  bins_ok h bs F -> (forall l, l ∈ frag :: gone -> l ∉ F) -> bins_ok (settle frag o gone p po h) bs F.
Proof.
  intros Hb Hd. unfold settle. apply bins_ok_hashes, retired_bins; [|intros; apply Hd; set_solver].
  apply bins_ok_hashes, bins_ok_size; [now apply bins_ok_used | apply Hd; set_solver].
Qed.

Section Backward.
Context (h : O1Heap) (a : list loc) (p frag : loc) (gone b : list loc) (bs : nat -> list loc).
Context (h2 : O1Heap) (bs2 : nat -> list loc) (F : gset loc) (n : Z).
Hypothesis Hi : heap_inv h (a ++ p :: (frag :: gone) ++ b) bs.
Hypothesis Hp : inuse h p = false.
Hypothesis Hu : inuse h frag = true.
Hypothesis Hgone : forall l, l ∈ gone -> inuse h l = false.
Hypothesis Sc2 : same_core h h2.
Hypothesis Hb2 : bins_ok h2 bs2 F.
Hypothesis HF : forall l, l ∈ F <-> l ∈ a ++ b /\ inuse h l = false.
Hypothesis Hhb : forall k, head b = Some k -> inuse h k = true.
Hypothesis Hn : FRAGMENT_SIZE_MIN <= n.
Hypothesis Hunit : n mod FRAGMENT_SIZE_MIN = 0.

Lemma moved_bytes : used_bytes (map (block_of h) (p :: frag :: gone)) = sz h frag.
Proof.
  cbn [map]. change (used_bytes ([block_of h p] ++ map (block_of h) (frag :: gone)) = sz h frag).
  rewrite used_bytes_app. cbn. rewrite Hp. cbn. exact (unused_run h frag gone Hu Hgone).
Qed.

Lemma claimed_fields k (h3 := modify p (set_used true) h2) :
  off h3 k = off h k /\ sz h3 k = sz h k /\ inuse h3 k = (if decide (k = p) then true else inuse h k)
  /\ nx h3 k = nx h k /\ pv h3 k = pv h k.
Proof.
  unfold h3. autorewrite with heap. rewrite (core_off _ _ Sc2), (core_sz _ _ Sc2), (core_inuse _ _ Sc2), (core_nx _ _ Sc2),
    (core_pv _ _ Sc2). auto.
Qed.

Lemma moved_inuse k (u : bool) :
  (k <> p -> k ∉ frag :: gone -> u = inuse h k) -> (k = p -> u = true) -> (k ∈ gone -> u = inuse h k) ->
  (if decide (k = frag) then false else u) = if decide (k = p) then true else if decide (k ∈ frag :: gone) then false else inuse h k.
Proof.
  intros H1 H2 H3. assert (p <> frag) by congruence. destruct (decide (k = frag)) as [-> | Hk].
  - rewrite decide_False by auto. rewrite decide_True by set_solver. reflexivity.
  - destruct (decide (k = p)); [auto |]. destruct (decide (k ∈ frag :: gone)) as [Hin | ?]; [|auto].
    assert (k ∈ gone) as Hg by set_solver. rewrite H3 by exact Hg. auto.
Qed.

(** The hash table after the move. *)
Lemma moved_keep o : (forall l, l ∈ p :: frag :: gone -> o <> off h l) ->
  o <> off h frag /\ (forall l, l ∈ gone -> o <> off h l) /\ o <> off h p.
Proof. intros Ho. split_and!; [|intros l Hl|]; apply Ho; set_solver. Qed.

(** The block keeps the whole run. *)
Lemma back_merge d0 d (t := total h (p :: frag :: gone)) :
  capacity d = capacity (diagnostics h) -> allocated d = allocated (diagnostics h) + t - sz h frag ->
  represents
    (set_diagnostics d (settle frag (off h frag) gone p (off h p) (set_diagnostics d0
       (relinked p t (head b) (modify p (set_used true) h2)))))
    (map (block_of h) a ++ (off h p, t, true) :: map (block_of h) b).
Proof.
  intros Ecap Eal. set (h3 := modify p (set_used true) h2). set (h4 := set_diagnostics d0 _).
  pose proof (run_s _ _ _ _ _ (hi_core _ _ _ Hi)) as [Hps _]. pose proof (run_disjoint _ _ _ _ _ (hi_core _ _ _ Hi)) as Hdis.
  destruct (settle_fields frag (off h frag) gone p (off h p) h4) as (Hk & Ef & Ed & Eb & Eg & Hh & Hkeep & Hhs).
  set (h5 := settle _ _ _ _ _ _) in *. destruct (relinked_same p t (head b) h3) as (Rf & Rd & Rb & Rh & _).
  assert (forall k, off h4 k = off h k) as Eo4.
  { intros k. destruct (claimed_fields k) as (<- & _). apply (relinked_fields p t (head b) h3 k). }
  refine (merged_represents h _ a p (frag :: gone) b bs bs2 true Hi _ F _ _ _);
    [|apply bins_ok_diagnostics, settle_bins | | auto].
  - split; auto; try (intros k; destruct (Hk k) as (Eo & Eu & En & Ep & Es),
      (relinked_fields p t (head b) h3 k) as (_ & Ru & Rs & Rn & Rp), (claimed_fields k) as (Co & Cs & Cu & Cn & Cp)).
    + etransitivity; [exact Ef |]. etransitivity; [exact Rf |]. apply Sc2.
    + etransitivity; [exact Ed |]. etransitivity; [exact Rd |]. apply Sc2.
    + etransitivity; [exact Eb |]. etransitivity; [exact Rb |]. apply Sc2.
    + etransitivity; [exact Eo |]. apply Eo4.
    + intros Hnk. etransitivity; [exact (Es Hnk) |]. etransitivity; [exact Rs |]. now fold h3 in Cs; rewrite Cs.
    + etransitivity; [exact Eu |]. apply moved_inuse; intros; (etransitivity; [exact Ru |]); fold h3 in Cu; rewrite Cu;
        [now rewrite decide_False | now rewrite decide_True |]. rewrite decide_False; [reflexivity |]. intros ->. set_solver.
    + intros _. etransitivity; [exact En |]. etransitivity; [exact Rn |]. now fold h3 in Cn; rewrite Cn.
    + intros _. etransitivity; [exact Ep |]. etransitivity; [exact Rp |]. now fold h3 in Cp; rewrite Cp.
    + intros o l Hl. destruct (Hh o l Hl) as [Hl' | ?]; [|auto]. left. rewrite <- (sc_hashes _ _ Sc2).
      etransitivity; [|exact Hl']. symmetry. exact (f_equal (lookup o) Rh).
    + intros o (H1 & H2 & H3)%moved_keep. etransitivity; [apply Hkeep; auto; intros l Hl; rewrite Eo4; auto |].
      etransitivity; [exact (f_equal (lookup o) Rh) |]. cbn. now rewrite (sc_hashes _ _ Sc2).
    + rewrite moved_bytes. cbn [diagnostics set_diagnostics]. lia.
  - apply bins_ok_diagnostics, relinked_bins; [now apply bins_ok_used |]; rewrite HF. intros [Hl%Hdis _]. tauto.
  - intros l Hl. rewrite HF. intros [Hl'%Hdis _]. tauto.
  - intros l. rewrite HF. split; [auto | intros [? | [? _]]; [auto | discriminate]].
Qed.

Lemma moved_divided h5 h6 m d0 d (t := total h (p :: frag :: gone)) :
  cut_at p m (off h p + n) n (t - n) (head b) (modify p (set_used true) h2) h5 -> same_core h5 h6 ->
  capacity d = capacity (diagnostics h) -> allocated d = allocated (diagnostics h) + n - sz h frag ->
  divided h (set_diagnostics d (settle frag (off h frag) gone p (off h p) (set_diagnostics d0 h6))) p (frag :: gone) n t (head b) m.
Proof.
  intros Hcut Sc6 Ecap Eal. pose proof (run_s _ _ _ _ _ (hi_core _ _ _ Hi)) as [Hps _].
  pose proof (run_members _ _ _ _ _ (hi_core _ _ _ Hi)) as Hold.
  assert (m = fresh_loc h) as Em by (rewrite (cu_new _ _ _ _ _ _ _ _ Hcut); apply Sc2).
  assert (m ∉ p :: frag :: gone) as Hm. { intros Hx. assert (m < fresh_loc h)%nat by (apply Hold; auto). lia. }
  set (h7 := set_diagnostics d0 h6).
  destruct (settle_fields frag (off h frag) gone p (off h p) h7) as (Hk & Ef & Ed & Eb & Eg & Hh & Hkeep & Hhs).
  set (h8 := settle _ _ _ _ _ _) in *.
  assert (hashes h7 = <[off h p + n := m]> (hashes h)) as Eh.
  { change (hashes h7) with (hashes h6). rewrite (sc_hashes _ _ Sc6), (cu_hashes _ _ _ _ _ _ _ _ Hcut). cbn. now rewrite (sc_hashes _ _ Sc2). }
  assert (forall k, off h7 k = if decide (k = m) then off h p + n else off h k) as Eo7.
  { intros k. change (off h7 k) with (off h6 k). rewrite (core_off _ _ Sc6), (cu_off _ _ _ _ _ _ _ _ Hcut).
    now destruct (claimed_fields k) as (-> & _). }
  split; auto; try (intros k; destruct (Hk k) as (Eo & Eu & En & Ep & Es), (claimed_fields k) as (Co & Cs & Cu & Cn & Cp)).
  - etransitivity; [exact Ef |]. etransitivity; [exact (sc_fresh _ _ Sc6) |]. apply Hcut.
  - etransitivity; [exact Ed |]. etransitivity; [exact (sc_dropped _ _ Sc6) |]. etransitivity; [apply Hcut |]. apply Sc2.
  - etransitivity; [exact Eb |]. etransitivity; [exact (sc_base _ _ Sc6) |]. etransitivity; [apply Hcut |]. apply Sc2.
  - etransitivity; [exact Eo |]. apply Eo7.
  - intros Hnk. etransitivity; [exact (Es Hnk) |]. etransitivity; [exact (core_sz _ _ Sc6 k) |].
    rewrite (cu_sz _ _ _ _ _ _ _ _ Hcut), Cs. repeat case_decide; congruence || set_solver.
  - etransitivity; [exact Eu |]. change (inuse h7 k) with (inuse h6 k).
    rewrite (core_inuse _ _ Sc6), (cu_inuse _ _ _ _ _ _ _ _ Hcut), Cu.
    assert (p <> frag /\ p <> m /\ m <> frag) as (Hpf & Hpm & Hmf) by (split_and!; set_solver).
    destruct (decide (k = p)) as [-> | Hkp]; [now rewrite !decide_False by auto |].
    destruct (decide (k = m \/ k ∈ frag :: gone)) as [[-> | Hin] | Hno].
    + now rewrite decide_False, decide_True by auto.
    + destruct (decide (k = frag)); [reflexivity |]. destruct (decide (k = m)); [reflexivity |]. apply Hgone. set_solver.
    + rewrite !decide_False by set_solver. reflexivity.
  - intros _. etransitivity; [exact En |]. etransitivity; [exact (core_nx _ _ Sc6 k) |].
    now rewrite (cu_nx _ _ _ _ _ _ _ _ Hcut), Cn.
  - intros _. etransitivity; [exact Ep |]. etransitivity; [exact (core_pv _ _ Sc6 k) |].
    now rewrite (cu_pv _ _ _ _ _ _ _ _ Hcut), Cp.
  - intros o l Hl. destruct (Hh o l Hl) as [Hl' | ?]; [|auto]. rewrite Eh in Hl'.
    apply lookup_insert_Some in Hl' as [[<- <-] | [_ ?]]; auto.
  - intros o (H1 & H2 & H3)%moved_keep Hne. etransitivity; [apply Hkeep; auto; intros l Hl; rewrite Eo7, decide_False; auto; set_solver |].
    rewrite Eh. apply lookup_insert_ne. congruence.
  - rewrite moved_bytes. cbn [diagnostics set_diagnostics]. lia.
Qed.

(** The tail of the run is linked in and binned. *)
Lemma back_cut (t := total h (p :: frag :: gone)) :
  FRAGMENT_SIZE_MIN <= t - n -> forall o m h3, o = wrap 32 (off h p + wrap 32 n) ->
  link_after p o (wrap 32 (t - n)) (head b) (modify p (set_used true) h2) = (m, h3) ->
  exists h4, rebin m (set_hashes (<[o := m]> (hashes h3)) (modify p (set_size (wrap 32 n)) h3)) = Ret h4
    /\ diagnostics h4 = diagnostics h /\ base h4 = base h
    /\ forall d0 d, capacity d = capacity (diagnostics h) -> allocated d = allocated (diagnostics h) + n - sz h frag ->
        represents (set_diagnostics d (settle frag (off h frag) gone p (off h p) (set_diagnostics d0 h4)))
          (map (block_of h) a ++ (off h p, n, true) :: remainder (off h p) t n ++ map (block_of h) b).
Proof.
  intros Hleft o m h3. destruct (run_end h a p (frag :: gone) b bs Hi) as (Ho & Hend & Hcap). fold t in Hend. unfold FRAGMENT_SIZE_MIN in *.
  rewrite (wrap_small 32 n), (wrap_small 32 (off h p + n)), (wrap_small 32 (t - n)) by (split; lia).
  intros -> El. pose proof (link_after_cut p (off h p + n) n (t - n) (head b) (modify p (set_used true) h2)) as Hcut.
  rewrite El in Hcut. cbn [fresh_loc modify] in Hcut. rewrite (sc_fresh _ _ Sc2) in Hcut.
  pose proof (run_members _ _ _ _ _ (hi_core _ _ _ Hi)) as Hold. pose proof (run_disjoint _ _ _ _ _ (hi_core _ _ _ Hi)) as Hdis.
  specialize (Hcut (Hold p ltac:(set_solver)) (head_old h a p (frag :: gone) b bs Hi)).
  destruct (cut_rebin _ _ _ _ _ _ _ _ bs2 F Hcut) as (h4 & bs4 & E & Sc4 & Hb4).
  - now apply bins_ok_used.
  - rewrite HF. intros [Hl%Hdis _]. tauto.
  - intros l [Hl _]%HF. cbn. rewrite (sc_fresh _ _ Sc2). apply Hold. auto.
  - cbn. rewrite (sc_dropped _ _ Sc2), (sc_fresh _ _ Sc2). apply (co_dropped _ _ (hi_core _ _ _ Hi)).
  - unfold FRAGMENT_SIZE_MIN. lia.
  - exists h4. split_and!; [exact E | | |].
    + rewrite (sc_diag _ _ Sc4), (cu_diag _ _ _ _ _ _ _ _ Hcut). apply Sc2.
    + rewrite (sc_base _ _ Sc4), (cu_base _ _ _ _ _ _ _ _ Hcut). apply Sc2.
    + intros d0 d Ecap Eal.
      apply (divided_represents h _ a p (frag :: gone) b n m bs bs4 (F ∪ {[m]})); auto; [|fold t; lia | |].
      * eapply moved_divided; eauto.
      * apply bins_ok_diagnostics, settle_bins; [now apply bins_ok_diagnostics |]. intros l Hl.
        rewrite elem_of_union, elem_of_singleton, HF. intros [[Hl'%Hdis _] | ->]; [tauto |].
        assert (m < fresh_loc h)%nat by (apply Hold; left; set_solver).
        pose proof (cu_new _ _ _ _ _ _ _ _ Hcut) as Em. cbn in Em. rewrite (sc_fresh _ _ Sc2) in Em. lia.
      * intros l. rewrite elem_of_union, HF, elem_of_singleton. reflexivity.
Qed.
End Backward.

Section GrowBackward.
Context (h : O1Heap) (a : list loc) (p frag : loc) (b : list loc) (bs : nat -> list loc) (n : Z).
Hypothesis Hi : heap_inv h (a ++ p :: frag :: b) bs.
Hypothesis Hp : inuse h p = false.
Hypothesis Hu : inuse h frag = true.
Hypothesis Hnext : forall k, head b = Some k -> inuse h k = false.

Lemma Hi_frag : heap_inv h ((a ++ [p]) ++ frag :: b) bs.
Proof. rewrite <- app_assoc. exact Hi. Qed.

(** Both free neighbours are taken out of their bins. *)
Lemma take_both :
  exists h1 h2 bs2 gone b' F,
    unbin p h = Ret h1 /\ offset (node h1 p) = off h p
    /\ (match head b, is_free (head b) h with
        | Some nx, true => h ← unbin nx h1; Ret (next (node h nx), h)
        | None, true => Panic
        | _, false => Ret (next (node h1 frag), h1)
        end) = Ret (head b', h2)
    /\ b = gone ++ b' /\ (gone = match head b with Some k => [k] | None => [] end)
    /\ (forall l, l ∈ gone -> inuse h l = false) /\ same_core h h2 /\ bins_ok h2 bs2 F
    /\ (forall l, l ∈ F <-> l ∈ a ++ b' /\ inuse h l = false) /\ (forall k, head b' = Some k -> inuse h k = true)
    /\ total h (p :: frag :: gone) = sz h p + sz h frag + size_or_0 (head b) h
    /\ join_right (sz h frag) (map (block_of h) b) = (sz h frag + size_or_0 (head b) h, map (block_of h) b').
Proof.
  pose proof Hi_frag as Hif. destruct (inv_neighbours _ _ _ _ _ Hif) as [_ Enf]. rewrite join_right_blocks.
  assert (p ∈ free_nodes h (a ++ p :: frag :: b)) as HpF by (apply elem_of_free_nodes; split; [set_solver | exact Hp]).
  destruct (unbin_ok p h bs _ (hi_bins _ _ _ Hi) HpF) as (h1 & bs1 & E1 & Sc1 & Hb1 & _).
  assert (forall l, l ∈ free_nodes h (a ++ p :: frag :: b) ∖ {[p]} <-> l ∈ a ++ b /\ inuse h l = false) as HF1.
  { intros l. rewrite elem_of_difference, elem_of_free_nodes, elem_of_singleton.
    pose proof (run_disjoint h a p [frag] b (hi_core _ _ _ Hi) l). assert (inuse h l = false -> l <> frag) by congruence. set_solver. }
  destruct b as [|k b'] eqn:Eb.
  - exists h1, h1, bs1, [], [], (free_nodes h (a ++ [p; frag]) ∖ {[p]}). cbn [head is_free size_or_0 app].
    split_and!; auto; try discriminate.
    + apply Sc1.
    + rewrite (sc_next _ _ Sc1). change (next (node h frag)) with (nx h frag). now rewrite Enf.
    + intros l Hl. now apply elem_of_nil in Hl.
    + cbn. lia.
    + now rewrite Z.add_0_r.
  - specialize (Hnext k eq_refl). cbn [head is_free size_or_0] in *. change (used (node h k)) with (inuse h k). rewrite Hnext.
    destruct (after_free h (a ++ [p]) frag (k :: b') bs Hif Hu k b' eq_refl Hnext) as (Hkf & Enk & Hhb).
    destruct (unbin_ok k h1 bs1 _ Hb1) as (h2 & bs2 & E2 & Sc2 & Hb2 & _); [apply HF1; set_solver |].
    assert (same_core h h2) as Sc by (now transitivity h1).
    eexists h1, h2, bs2, [k], b', _. cbn [negb]. rewrite E2. cbn [mbind outcome_bind]. split_and!; auto.
    + apply Sc1.
    + rewrite (sc_next _ _ Sc). change (next (node h k)) with (nx h k). now rewrite Enk.
    + intros l ->%list_elem_of_singleton. exact Hnext.
    + exact Hb2.
    + intros l. rewrite elem_of_difference, HF1, elem_of_singleton.
      pose proof (run_disjoint h a p [frag; k] b' (hi_core _ _ _ Hi) l). set_solver.
    + cbn. unfold sz. lia.
Qed.

Lemma run_unit gone b' : b = gone ++ b' -> total h (p :: frag :: gone) mod FRAGMENT_SIZE_MIN = 0.
Proof.
  intros Eb. pose proof (co_tiles _ _ (hi_core _ _ _ Hi)) as Ht. rewrite Eb in Ht.
  apply tiles_app in Ht as (m1 & _ & Ht). change (p :: frag :: gone ++ b') with ((p :: frag :: gone) ++ b') in Ht.
  apply tiles_app in Ht as (m2 & Ht & _). now destruct (tiles_total _ _ _ _ Ht) as (_ & ? & _).
Qed.

(** What is left to do once the block has its new size. *)
Definition backward_tail (h : O1Heap) (next_rc : option loc) (next_is_free : bool) (o s po : Z) (h4 : O1Heap)
    : outcome (option ReallocResult * O1Heap) :=
  let h := modify frag (set_used false) h4 in
  let h := modify frag (set_size 0) h in
  let h := set_hashes (delete o (hashes h)) h in
  let h := match next_rc, next_is_free with Some nx, true => retire nx h | _, _ => h end in
  let h := set_hashes (<[po := p]> (hashes h)) h in
  Ret (Some (mkRealloc (wadd (base h) po) s), note_peak h).

Lemma backward_tail_ok h4 x bl (gone := match head b with Some k => [k] | None => [] end) :
  base h4 = base h -> diagnostics h4 = diagnostics h -> 0 <= allocated (diagnostics h) + x < 2 ^ 64 ->
  (forall d0 d, capacity d = capacity (diagnostics h) -> allocated d = allocated (diagnostics h) + x ->
     represents (set_diagnostics d (settle frag (off h frag) gone p (off h p) (set_diagnostics d0 h4))) bl) ->
  exists h', backward_tail h (head b) (is_free (head b) h) (off h frag) (sz h frag) (off h p) (add_allocated x h4)
             = Ret (Some (mkRealloc (base h + off h p) (sz h frag)), h')
    /\ represents h' bl /\ base h' = base h /\ capacity (diagnostics h') = capacity (diagnostics h).
Proof.
  intros Ebase Ed Hx Hr.
  set (h6 := settle frag (off h frag) gone p (off h p) (add_allocated x h4)).
  destruct (settle_fields frag (off h frag) gone p (off h p) (add_allocated x h4)) as (_ & _ & _ & Eb6 & Ed6 & _). fold h6 in Eb6, Ed6.
  assert (forall y, (match head b, is_free (head b) h with Some nx, true => retire nx y | _, _ => y end)
            = foldl (fun h l => retire l h) y gone) as Egone.
  { intros y. unfold gone. destruct (head b) as [k|] eqn:Ek; [|reflexivity]. cbn [is_free].
    change (used (node h k)) with (inuse h k). now rewrite (Hnext k eq_refl). }
  assert (backward_tail h (head b) (is_free (head b) h) (off h frag) (sz h frag) (off h p) (add_allocated x h4)
          = Ret (Some (mkRealloc (wadd (base h6) (off h p)) (sz h frag)), note_peak h6)) as ->.
  { unfold backward_tail. rewrite Egone. reflexivity. }
  assert (capacity (diagnostics h6) = capacity (diagnostics h) /\ allocated (diagnostics h6) = allocated (diagnostics h) + x) as [Ecap Eal].
  { rewrite Ed6. cbn. rewrite Ed. split; [reflexivity |]. unfold wadd. now apply wrap_small. }
  assert (base h6 = base h) as Eb by (etransitivity; [exact Eb6 | exact Ebase]).
  exists (note_peak h6). split_and!; [| |exact Eb | exact Ecap].
  - rewrite Eb. pose proof (co_base _ _ (hi_core _ _ _ Hi)). destruct (inv_sizes _ _ _ p Hi ltac:(set_solver)) as (? & ? & ? & ?).
    unfold wadd. rewrite wrap_small by (split; unfold FRAGMENT_SIZE_MIN in *; lia). reflexivity.
  - set (d := diagnostics (note_peak h6)). change (note_peak h6) with (set_diagnostics d h6). apply Hr; [exact Ecap | exact Eal].
Qed.

Lemma grow_backward_ok :
  FRAGMENT_SIZE_MIN <= n -> n mod FRAGMENT_SIZE_MIN = 0 -> sz h frag < n <= sz h p + sz h frag + size_or_0 (head b) h ->
  exists h', grow_backward frag (off h frag) (sz h frag) n p (sz h p) (head b) (is_free (head b) h) (size_or_0 (head b) h) h
             = Ret (Some (mkRealloc (base h + off h p) (sz h frag)), h')
    /\ represents h' (let (t, l2) := join_right (sz h frag) (map (block_of h) b) in
                      map (block_of h) a ++ (off h p, n, true) :: remainder (off h p) (sz h p + t) n ++ l2)
    /\ base h' = base h /\ capacity (diagnostics h') = capacity (diagnostics h).
Proof.
  intros Hn Hunit Hlt.
  destruct take_both as (h1 & h2 & bs2 & gone & b' & F & E1 & Eo & E2 & Eb & Eg & Hgone & Sc2 & Hb2 & HF & Hhb & Et & Ej).
  rewrite Ej. unfold grow_backward. rewrite E1. cbn [mbind outcome_bind]. rewrite Eo, E2. cbn [mbind outcome_bind].
  rewrite Z.add_assoc, <- Et. set (t := total h (p :: frag :: gone)) in *.
  pose proof (run_unit gone b' Eb) as Htu. fold t in Htu. pose proof Hi as Hi'. rewrite Eb in Hi'.
  change (a ++ p :: frag :: gone ++ b') with (a ++ p :: (frag :: gone) ++ b') in Hi'.
  destruct (run_end h a p (frag :: gone) b' bs Hi') as (Ho & Hend & Hcap). fold t in Hend.
  pose proof (inv_allocated _ _ _ Hi) as Hal. pose proof (allocated_ge h (a ++ [p]) frag b bs Hi_frag Hu) as Hge.
  assert (0 <= sz h frag) as Hsz by (pose proof (size_pos h (a ++ [p]) frag b bs Hi_frag frag ltac:(set_solver)); lia).
  destruct (Z.leb_spec FRAGMENT_SIZE_MIN (t - n)) as [Hl | Hl].
  - destruct (link_after _ _ _ _ _) as [m h3] eqn:El.
    destruct (back_cut h a p frag gone b' bs h2 bs2 F n Hi' Hp Hu Hgone Sc2 Hb2 HF Hhb Hn Hunit Hl _ m h3 eq_refl El)
      as (h4 & E4 & Ed4 & Eb4 & Hr).
    cbn [modify hashes]. rewrite E4. cbn [mbind outcome_bind].
    apply (backward_tail_ok h4 (n - sz h frag)); auto; [lia |]. intros d0 d Ecd Ead. rewrite <- Eg. apply Hr; [exact Ecd | lia].
  - assert (n = t) as En by (symmetry; apply unit_difference; auto; lia).
    cbn [mbind outcome_bind]. rewrite (wrap_small 32 t) by (split; unfold FRAGMENT_SIZE_MIN in *; lia).
    fold (relinked p t (head b') (modify p (set_used true) h2)).
    destruct (relinked_same p t (head b') (modify p (set_used true) h2)) as (_ & _ & Rb & _ & Rd).
    replace (sz h p + size_or_0 (head b) h) with (t - sz h frag) by lia.
    apply (backward_tail_ok (relinked p t (head b') (modify p (set_used true) h2)) (t - sz h frag)).
    + rewrite Rb. apply Sc2.
    + rewrite Rd. apply Sc2.
    + lia.
    + intros d0 d Ecd Ead. unfold remainder. rewrite En, Z.eqb_refl. rewrite <- Eg.
      eapply (back_merge h a p frag gone b' bs h2 bs2 F n); eauto. fold t. lia.
Qed.
End GrowBackward.

(** ** The specification of a reallocation *)

(** The bytes of the arena. *)
Definition arena (bl : list block) : Z := foldr (fun (b : block) n => b.1.2 + n) 0 bl.

(** Resizing the block at [o]: in place, down into the free block before it, or to
    a new block; the result is the new offset and the number of bytes to copy. *)
Inductive reallocates (bl : list block) (o new : Z) : option (Z * Z) -> list block -> Prop :=
| reallocates_zero bl' : new = 0 -> releases bl (wrap 32 o) bl' -> reallocates bl o new None bl'
| reallocates_refused :
    new <> 0 -> (forall s, (o, s, true) ∉ bl) \/ fragment_size_for new = 0 \/ arena bl < fragment_size_for new ->
    reallocates bl o new None bl
| reallocates_here l1 s l2 :
    bl = l1 ++ (o, s, true) :: l2 -> 0 < new <= fragment_size_for new -> fragment_size_for new <= (join_right s l2).1 ->
    reallocates bl o new (Some (o, 0)) (resized l1 o s l2 (fragment_size_for new))
| reallocates_down l1 po ps s l2 t l2' :
    bl = l1 ++ (po, ps, false) :: (o, s, true) :: l2 -> join_right s l2 = (t, l2') -> 0 < new <= fragment_size_for new ->
    t < fragment_size_for new <= ps + t ->
    reallocates bl o new (Some (po, s)) (l1 ++ (po, fragment_size_for new, true) :: remainder po (ps + t) (fragment_size_for new) ++ l2')
| reallocates_moved l1 s l2 o' bl1 bl2 :
    bl = l1 ++ (o, s, true) :: l2 -> (join_right s l2).1 < fragment_size_for new ->
    (forall l0 po ps, l1 = l0 ++ [(po, ps, false)] -> ps + (join_right s l2).1 < fragment_size_for new) ->
    allocates bl new (Some o') bl1 -> releases bl1 o bl2 -> reallocates bl o new (Some (o', s)) bl2
| reallocates_full l1 s l2 :
    bl = l1 ++ (o, s, true) :: l2 -> (join_right s l2).1 < fragment_size_for new ->
    (forall l0 po ps, l1 = l0 ++ [(po, ps, false)] -> ps + (join_right s l2).1 < fragment_size_for new) ->
    allocates bl new None bl -> reallocates bl o new None bl.

(** The block after the one that grows down is not in use, or is too small to
    make up the size: the code counts it either way. *)
Definition no_overreach (bl : list block) (o n : Z) : Prop :=
  forall l1 po ps s no ns l2, bl = l1 ++ (po, ps, false) :: (o, s, true) :: (no, ns, true) :: l2 -> s < n -> ps + s + ns < n.

Lemma arena_blocks h ls bs : heap_inv h ls bs -> arena (map (block_of h) ls) = capacity (diagnostics h).
Proof.
  intros Hi. assert (arena (map (block_of h) ls) = total h ls) as ->.
  { induction ls as [|l ls' IH] in |- *; [reflexivity |]. cbn. f_equal. exact IH. }
  destruct (tiles_total _ _ _ _ (co_tiles _ _ (hi_core _ _ _ Hi))) as (E & _). lia.
Qed.

Lemma offset_of_exact address h : 0 <= address - base h < 2 ^ 32 -> offset_of address h = address - base h.
Proof. intros Ho. unfold offset_of, wsub. rewrite (wrap_small 64) by (split; lia). now apply wrap_small. Qed.

Lemma join_right_head h b s :
  (join_right s (map (block_of h) b)).1 = s + (if is_free (head b) h then size_or_0 (head b) h else 0).
Proof.
  rewrite join_right_blocks. destruct b as [|k b']; [cbn; lia |]. cbn [head is_free size_or_0].
  change (used (node h k)) with (inuse h k). unfold sz. destruct (inuse h k); cbn; lia.
Qed.

(** What [reallocate] returns for an offset and a number of bytes to copy. *)
Definition realloc_result (h : O1Heap) (r : option (Z * Z)) : option ReallocResult :=
  match r with Some (o, c) => Some (mkRealloc (base h + o) c) | None => None end.

Section Reallocate.
Context (h : O1Heap) (a : list loc) (frag : loc) (b : list loc) (bs : nat -> list loc) (address new : Z).
Hypothesis Hi : heap_inv h (a ++ frag :: b) bs.
Hypothesis Hu : inuse h frag = true.
Hypothesis Hnew : is_word 64 new.
Hypothesis Ho : off h frag = address - base h.

(** The outcome of a reallocation that implements the specification. *)
Definition implements (c : outcome (option ReallocResult * O1Heap)) : Prop :=
  exists r h' bl', c = Ret (realloc_result h r, h')
    /\ reallocates (map (block_of h) (a ++ frag :: b)) (address - base h) new r bl'
    /\ represents h' bl' /\ base h' = base h /\ capacity (diagnostics h') = capacity (diagnostics h).

(** Nothing fits next to the block: it moves. *)
Lemma move_ok s :
  s = sz h frag -> (join_right s (map (block_of h) b)).1 < fragment_size_for new ->
  (forall l0 po ps, map (block_of h) a = l0 ++ [(po, ps, false)] ->
     ps + (join_right s (map (block_of h) b)).1 < fragment_size_for new) ->
  implements
    ('(x, h) ← allocate_body new h;
     match x with
     | None => Ret (None, h)
     | Some x => h ← free_body address h; Ret (Some (mkRealloc x s), h)
     end).
Proof.
  intros Es Hhere Hdown. assert (represents h (map (block_of h) (a ++ frag :: b))) as Hr by (now exists (a ++ frag :: b), bs).
  destruct (allocate_body_ok h _ new Hr Hnew) as (r & h1 & bl1 & E1 & Ha & Hr1 & Eb1 & Ec1). rewrite E1. cbn [mbind outcome_bind].
  destruct r as [o'|]; cbn [fmap option_fmap option_map].
  - destruct (free_body_ok h1 bl1 address Hr1) as (h2 & bl2 & E2 & Hf & Hr2 & Eb2 & Ec2).
    assert (offset_of address h1 = address - base h) as Eo.
    { destruct (inv_sizes _ _ _ frag Hi) as (? & ? & ? & ?); [set_solver |]. unfold FRAGMENT_SIZE_MIN in *.
      rewrite offset_of_exact, Eb1 by (rewrite ?Eb1; lia). reflexivity. }
    rewrite E2. cbn [mbind outcome_bind]. exists (Some (o', s)), h2, bl2. split_and!; auto; try congruence.
    rewrite Eo in Hf. eapply reallocates_moved; eauto. rewrite used_block by exact Hu. now rewrite <- Ho, <- Es.
  - inversion Ha as [Hn Er Ebl|]; subst. exists None, h1, (map (block_of h) (a ++ frag :: b)). split_and!; auto.
    eapply reallocates_full; eauto. rewrite used_block by exact Hu. now rewrite <- Ho.
Qed.

Lemma here_ok h' :
  0 < new <= fragment_size_for new -> fragment_size_for new <= (join_right (sz h frag) (map (block_of h) b)).1 ->
  represents h' (resized (map (block_of h) a) (off h frag) (sz h frag) (map (block_of h) b) (fragment_size_for new)) ->
  base h' = base h -> capacity (diagnostics h') = capacity (diagnostics h) ->
  implements (Ret (Some (mkRealloc address 0), h')).
Proof.
  intros H1 H2 Hr Eb Ec. exists (Some (address - base h, 0)), h', (resized (map (block_of h) a) (off h frag) (sz h frag)
    (map (block_of h) b) (fragment_size_for new)). split_and!; auto.
  - cbn. do 4 f_equal. lia.
  - rewrite used_block, Ho by exact Hu. now apply reallocates_here.
Qed.

(** The choice among the four cases. *)
Definition resize (s n : Z) : outcome (option ReallocResult * O1Heap) :=
  let prev_rc := last a in
  let next_rc := head b in
  let prev_is_free := is_free prev_rc h in
  let next_is_free := is_free next_rc h in
  let prev_size := size_or_0 prev_rc h in
  let next_size := size_or_0 next_rc h in
  if n <=? s then shrink address frag (off h frag) s n next_rc next_is_free next_size h
  else if next_is_free && (n <=? s + next_size) then
    match next_rc with
    | Some nx => grow_forward address frag (off h frag) s n nx next_size h
    | None => Panic
    end
  else if prev_is_free && (n <=? prev_size + s + next_size) then
    match prev_rc with
    | Some pv => grow_backward frag (off h frag) s n pv prev_size next_rc next_is_free next_size h
    | None => Panic
    end
  else
    '(x, h) ← allocate_body new h;
    match x with
    | None => Ret (None, h)
    | Some x => h ← free_body address h; Ret (Some (mkRealloc x s), h)
    end.

Lemma down_ok a' p (n := fragment_size_for new) :
  a = a' ++ [p] -> inuse h p = false -> 0 < new <= n -> FRAGMENT_SIZE_MIN <= n -> n mod FRAGMENT_SIZE_MIN = 0 ->
  no_overreach (map (block_of h) (a ++ frag :: b)) (off h frag) n -> sz h frag < n ->
  (join_right (sz h frag) (map (block_of h) b)).1 < n -> n <= sz h p + sz h frag + size_or_0 (head b) h ->
  implements (grow_backward frag (off h frag) (sz h frag) n p (sz h p) (head b) (is_free (head b) h) (size_or_0 (head b) h) h).
Proof.
  intros Ea Hp Hle Hmin Hunit Hover Hs Hhere Hfit. pose proof Hi as Hi'. rewrite Ea, <- app_assoc in Hi'. cbn [app] in Hi'.
  assert (map (block_of h) (a ++ frag :: b)
          = map (block_of h) a' ++ (off h p, sz h p, false) :: (off h frag, sz h frag, true) :: map (block_of h) b) as Ebl.
  { rewrite used_block, Ea, map_app, <- app_assoc by exact Hu. cbn [map app]. unfold block_of at 2. now rewrite Hp. }
  assert (forall k, head b = Some k -> inuse h k = false) as Hnext.
  { intros k (b' & Eb)%head_Some. destruct (inuse h k) eqn:Ek; [|reflexivity]. exfalso.
    rewrite Ebl, Eb in Hover. cbn [map] in Hover. unfold block_of at 2 in Hover. rewrite Ek in Hover.
    specialize (Hover _ _ _ _ _ _ _ eq_refl Hs). rewrite Eb in Hfit. cbn in Hfit. unfold sz in *. lia. }
  destruct (grow_backward_ok h a' p frag b bs n Hi' Hp Hu Hnext Hmin Hunit ltac:(lia)) as (h' & E & Hr & Eb & Ec).
  rewrite E. destruct (join_right (sz h frag) (map (block_of h) b)) as [t l2] eqn:Ej. cbn [fst] in Hhere.
  eexists (Some (off h p, sz h frag)), h', _. split_and!; [reflexivity | | exact Hr | exact Eb | exact Ec].
  eapply reallocates_down; [now rewrite Ebl, Ho | exact Ej | exact Hle |]. fold n. split; [exact Hhere |].
  pose proof (join_right_head h b (sz h frag)) as Et. rewrite Ej in Et. cbn [fst] in Et. rewrite Et.
  destruct (head b) as [k|] eqn:Ek; cbn in *; [|lia]. pose proof (Hnext k eq_refl) as Hk. unfold inuse in Hk. rewrite Hk. cbn. lia.
Qed.

Lemma resize_ok (n := fragment_size_for new) :
  0 < new <= n -> FRAGMENT_SIZE_MIN <= n -> n mod FRAGMENT_SIZE_MIN = 0 ->
  no_overreach (map (block_of h) (a ++ frag :: b)) (off h frag) n -> implements (resize (sz h frag) n).
Proof.
  intros Hle Hmin Hunit Hover. unfold resize. pose proof (join_right_head h b (sz h frag)) as Ej.
  assert (0 <= size_or_0 (head b) h) as Hns.
  { destruct (head b) as [k|] eqn:Ek; [|reflexivity]. cbn. apply head_Some_elem_of in Ek.
    pose proof (size_pos h a frag b bs Hi k ltac:(set_solver)). unfold sz in *. lia. }
  destruct (Z.leb_spec n (sz h frag)) as [Hs | Hs].
  { destruct (shrink_ok h a frag b bs n Hi Hu Hmin Hunit address Hs) as (h' & E & Hr & Eb & Ec). rewrite E.
    apply here_ok; auto. fold n. destruct (is_free (head b) h); lia. }
  destruct (is_free (head b) h && (n <=? sz h frag + size_or_0 (head b) h)) eqn:Ef.
  { apply andb_true_iff in Ef as [Ef Hfit]. destruct (head b) as [k|] eqn:Ek; [|discriminate].
    assert (inuse h k = false) as Hk by (now apply negb_true_iff in Ef). cbn [size_or_0] in *.
    destruct (grow_forward_ok h a frag b bs n Hi Hu Hmin Hunit address k Ek Hk ltac:(unfold sz in *; lia)) as (h' & E & Hr & Eb & Ec).
    change (size (node h k)) with (sz h k). rewrite E. apply here_ok; auto. fold n. rewrite Ej, Ef. unfold sz in *. lia. }
  assert ((join_right (sz h frag) (map (block_of h) b)).1 < n) as Hhere.
  { rewrite Ej. apply andb_false_iff in Ef. destruct (is_free (head b) h); [destruct Ef as [? | ?]; [discriminate | lia] | lia]. }
  destruct (is_free (last a) h && (n <=? size_or_0 (last a) h + sz h frag + size_or_0 (head b) h)) eqn:Ep.
  - apply andb_true_iff in Ep as [Ep Hfit]. apply free_last in Ep as (a' & p & Ea & Hp).
    rewrite Ea, last_snoc in Hfit |- *. cbn [size_or_0] in *. apply (down_ok a' p); auto. unfold sz in *. lia.
  - apply move_ok; auto. fold n. intros l0 po ps El. pose proof (f_equal last El) as El'. rewrite last_snoc in El'.
    destruct (last a) as [p|] eqn:Ea.
    + assert (block_of h p = (po, ps, false)) as Eb.
      { apply last_Some in Ea as (a' & ->). rewrite map_app in El'. cbn [map] in El'. rewrite last_snoc in El'. congruence. }
      unfold block_of in Eb. injection Eb as _ <- Hf. cbn in Ep. unfold inuse in Hf. rewrite Hf in Ep. cbn in Ep.
      apply Z.leb_gt in Ep. rewrite Ej. change (size (node h p)) with (sz h p) in Ep. destruct (is_free (head b) h); lia.
    + apply last_None in Ea. rewrite Ea in El'. discriminate.
Qed.
End Reallocate.

(** A request that is refused. *)
Lemma refused h h' bl o new :
  represents h bl -> new <> 0 ->
  (forall s, (o, s, true) ∉ bl) \/ fragment_size_for new = 0 \/ arena bl < fragment_size_for new ->
  (forall k, node h' k = node h k) -> fresh_loc h' = fresh_loc h -> dropped h' = dropped h -> base h' = base h ->
  bins h' = bins h -> hashes h' = hashes h -> nonempty_bin_mask h' = nonempty_bin_mask h ->
  capacity (diagnostics h') = capacity (diagnostics h) -> allocated (diagnostics h') = allocated (diagnostics h) ->
  exists r h'' bl', Ret (None, h') = Ret (realloc_result h r, h'') /\ reallocates bl o new r bl'
    /\ represents h'' bl' /\ base h'' = base h /\ capacity (diagnostics h'') = capacity (diagnostics h).
Proof.
  intros Hr Hne Hno. intros. exists None, h', bl. split_and!; auto; [now apply reallocates_refused | now apply (represents_same h)].
Qed.

(** The guards of [reallocate] on a block in use. *)
Lemma resize_guard h a frag b bs :
  heap_inv h (a ++ frag :: b) bs -> inuse h frag = true ->
  (size (node h frag) <? FRAGMENT_SIZE_MIN) || (capacity (diagnostics h) <? size (node h frag))
    || negb (size (node h frag) mod FRAGMENT_SIZE_MIN =? 0) = false.
Proof.
  intros Hi Hu. destruct (frag_guards h a frag b bs Hi Hu) as [G _]. destruct (inv_sizes _ _ _ frag Hi) as (? & ? & ? & ?); [set_solver |].
  unfold sz in *. apply orb_false_iff in G as [G1 G2]. apply orb_false_iff in G1 as [G1 _]. rewrite G1, G2. cbn [orb].
  rewrite orb_false_r. unfold FRAGMENT_SIZE_MIN in *. pose proof (off h frag). lia.
Qed.

Lemma reallocate_body_ok h bl address new :
  represents h bl -> is_word 64 new -> no_overreach bl (address - base h) (fragment_size_for new) ->
  exists r h' bl', reallocate_body address new h = Ret (realloc_result h r, h') /\ reallocates bl (address - base h) new r bl'
    /\ represents h' bl' /\ base h' = base h /\ capacity (diagnostics h') = capacity (diagnostics h).
Proof.
  intros Hr Hnew Hover. unfold reallocate_body. destruct (Z.eqb_spec new 0) as [-> | Hne].
  { destruct (free_ok h bl address Hr) as (h' & bl' & E & Hf & Hr' & Eb & Ec). rewrite E. cbn [mbind outcome_bind].
    exists None, h', bl'. split_and!; auto. apply reallocates_zero; [reflexivity |].
    replace (wrap 32 (address - base h)) with (offset_of address h); [exact Hf |]. unfold offset_of, wsub.
    apply Z.bits_inj'. intros i Hii. rewrite !testbit_wrap by lia. destruct (Z.ltb_spec i 32), (Z.ltb_spec i 64); try reflexivity; lia. }
  set (hp := set_diagnostics _ h).
  assert (represents hp bl) as Hrp by (now apply (represents_same h)). change (base hp) with (base h).
  destruct ((address <? base h) || (2 ^ 32 - 1 <? address - base h)) eqn:Eg.
  { apply (refused h hp bl); auto. left. intros s Hs. destruct Hr as (ls & bs & Hi & ->).
    apply list_elem_of_In, in_map_iff in Hs as (l & E & Hl%list_elem_of_In). unfold block_of in E. injection E as Eo _ _.
    destruct (inv_sizes _ _ _ l Hi Hl) as (? & ? & ? & ?). unfold FRAGMENT_SIZE_MIN in *. lia. }
  pose proof Hrp as (ls & bs & Hi & Ebl).
  destruct (lookup_block hp ls bs (address - base h) Hi) as [(a & frag & b & El & Ef & Eo & Hu) | [Hno Hf]].
  2: { rewrite <- Ebl in Hno. destruct (find_fragment_by_offset (address - base h) hp) as [frag|]; [rewrite (Hf frag eq_refl)|];
       apply (refused h hp bl); auto. }
  subst ls. rewrite Ef. change (used (node hp frag)) with (inuse hp frag). rewrite Hu. cbn [negb].
  rewrite (resize_guard hp a frag b bs Hi Hu). set (n := fragment_size_for new) in *.
  pose proof (arena_blocks hp _ _ Hi) as Earena. rewrite <- Ebl in Earena.
  assert (0 < new < 2 ^ 64) as Hpos by (unfold is_word in Hnew; lia).
  destruct ((n =? 0) || (capacity (diagnostics hp) <? new) || (capacity (diagnostics hp) <? n)) eqn:Egn.
  { apply (refused h (count_oom hp) bl); auto. fold n. right.
    destruct (fragment_size_spec new Hpos) as [[_ ?] | (k & _ & _ & Hle & _)]; [left; assumption |]. fold n in Hle.
    destruct (Z.eqb_spec n 0); [auto | right; lia]. }
  destruct (fragment_size_spec new Hpos) as [[_ Hz] | (k & Hk & En & Hle & _)]; [fold n in Hz; lia |]. fold n in En, Hle.
  change (prev (node hp frag)) with (pv hp frag). rewrite (inv_upgrade _ _ _ _ _ Hi).
  change (next (node hp frag)) with (nx hp frag). rewrite (proj2 (inv_neighbours _ _ _ _ _ Hi)), <- Eo, Ebl.
  rewrite Ebl, <- Eo in Hover.
  assert (implements hp a frag b address new (resize hp a frag b address new (sz hp frag) n)) as Hres.
  { apply (resize_ok hp a frag b bs address new Hi Hu Hnew Eo); auto; fold n.
    - lia.
    - rewrite En. pose proof (Z.pow_pos_nonneg 2 k). unfold FRAGMENT_SIZE_MIN. lia.
    - rewrite En, Z.mul_comm. apply Z.mod_mul. discriminate. }
  unfold implements in Hres. change (base hp) with (base h) in Hres. rewrite <- Eo in Hres. exact Hres.
Qed.

Lemma reallocate_ok h bl address new :
  represents h bl -> is_word 64 new -> no_overreach bl (address - base h) (fragment_size_for new) ->
  exists r h' bl', reallocate address new h = Ret (realloc_result h r, h') /\ reallocates bl (address - base h) new r bl'
    /\ represents h' bl' /\ base h' = base h /\ capacity (diagnostics h') = capacity (diagnostics h).
Proof.
  intros Hr Hnew Hover. destruct (reallocate_body_ok h bl address new Hr Hnew Hover) as (r & h' & bl' & E & Ha & Hr' & Eb & Ec).
  destruct (represents_end_of_scope h' bl' Hr') as (Hr'' & Eb' & Ed'). exists r, (end_of_scope h'), bl'.
  unfold reallocate, scoped. rewrite E. cbn. split_and!; auto; congruence.
Qed.

(** C20. reallocate resizes the block in place when the block and a free block after
    it can hold the new size, else moves it down into the free block before it, else
    to a new block, else refuses and changes nothing; it returns the new address and
    the bytes to copy. A request for zero bytes frees the block and returns nothing.
    This holds whenever growing down does not meet a block in use right after the
    one that grows, which the code counts as free space. *)
Theorem reallocate_refines h bl address new :
  represents h bl -> is_word 64 new -> no_overreach bl (address - base h) (fragment_size_for new) ->
  exists r h' bl', reallocate address new h = Ret (realloc_result h r, h') /\ reallocates bl (address - base h) new r bl'
    /\ represents h' bl' /\ base h' = base h /\ capacity (diagnostics h') = capacity (diagnostics h).
Proof. apply reallocate_ok. Qed.
