(* ===== verification/HeapSpec.v ===== *)
(** * What the allocator promises

    Creation, queries, and histories of operations: the blocks tile the arena,
    live blocks never overlap and are never touched by operations on others, and
    freeing what was just allocated restores the blocks. *)

From stdpp Require Import gmap sorting.
From S2P Require Import Prelude Heap HeapLinks HeapBins HeapInv.
From S2P Require Import HeapAlloc HeapFree HeapResize HeapMove.

(** ** Creation *)

(** Empty bins. *)
Lemma empty_bins h :
  bins h = replicate (Z.to_nat NUM_BINS_MAX) None -> nonempty_bin_mask h = 0 -> bins_ok h (fun _ => []) ∅.
Proof.
  intros Eb Em. split; rewrite ?Eb, ?Em.
  - apply length_replicate.
  - intros i Hi. apply lookup_replicate_2. exact Hi.
  - intros i. exact I.
  - constructor.
  - intros i l. split; [intros Hl%elem_of_nil; contradiction | intros [Hl%elem_of_empty _]; contradiction].
  - intros l Hl%elem_of_empty. contradiction.
  - intros l Hl%elem_of_empty. contradiction.
  - intros i _. apply Z.bits_0.
  - split; lia.
Qed.

(** The first heap before its fragment is binned. *)
Lemma new_heap_inv b sz :
  0 <= b -> b + sz <= 2 ^ 64 -> FRAGMENT_SIZE_MIN <= sz < 2 ^ 32 -> sz mod FRAGMENT_SIZE_MIN = 0 ->
  exists h, rebin 0%nat (set_hashes (<[0 := 0%nat]> ∅) (modify 0%nat (fun _ => Fragment_new 0 sz)
              (mkHeap (fun _ => Fragment_new 0 0) 1%nat ∅ b (replicate (Z.to_nat NUM_BINS_MAX) None) ∅ 0 (mkDiagnostics sz 0 0 0 0))))
            = Ret h
    /\ represents h [(0, sz, false)] /\ base h = b /\ capacity (diagnostics h) = sz.
Proof.
  intros Hb Hbs Hs Hm. set (h0 := set_hashes _ _).
  assert (bins_ok h0 (fun _ => []) ∅) as Hb0 by (now apply empty_bins).
  destruct (rebin_ok 0%nat h0 (fun _ => []) ∅ Hb0) as (h & E & Sc & Hb1); [set_solver.. | exact Hs |].
  exists h. split_and!; [exact E | | apply Sc | now rewrite (sc_diag _ _ Sc)].
  assert (core_ok h0 [0%nat]) as Hc.
  { split.
    - apply NoDup_singleton.
    - intros l ->%list_elem_of_singleton. cbn. lia.
    - set_solver.
    - set_solver.
    - split_and!; [reflexivity.. | exact I].
    - change (0 = 0 /\ 0 < sz /\ sz mod FRAGMENT_SIZE_MIN = 0 /\ 0 + sz = sz). unfold FRAGMENT_SIZE_MIN in *. split_and!; auto; lia.
    - cbn. lia.
    - cbn. lia.
    - intros l ->%list_elem_of_singleton. discriminate.
    - intros o l Hl. change (<[0 := 0%nat]> (∅ : gmap Z loc) !! o = Some l) in Hl. apply lookup_insert_Some in Hl as [[<- <-] | [_ Hl]];
        [split; [cbn; lia | reflexivity] |]. now rewrite lookup_empty in Hl.
    - cbn [fresh_loc h0 set_hashes modify]. intros l Hl Hu. assert (l = 0%nat) as -> by lia. discriminate.
    - reflexivity. }
  exists [0%nat], (push_bin (class (size (node h0 0%nat))) 0%nat (fun _ => [])). split.
  - split; [now apply (core_ok_same h0) | | cbn; auto].
    replace (free_nodes h [0%nat]) with ((∅ : gset loc) ∪ {[0%nat]}); [exact Hb1 |].
    apply set_eq. intros l. rewrite elem_of_free_nodes, (core_inuse _ _ Sc). set_unfold. split; [intros [[] | ->] | tauto].
    split; [auto | reflexivity].
  - cbn. unfold block_of. now rewrite (core_off _ _ Sc), (core_sz _ _ Sc), (core_inuse _ _ Sc).
Qed.

Lemma O1Heap_new_ok instance b sz :
  0 <= b -> b + sz <= 2 ^ 64 -> sz < 2 ^ 32 -> sz mod FRAGMENT_SIZE_MIN = 0 ->
  FRAGMENT_SIZE_MIN <= wrap 32 (MIN_ARENA_SIZE instance) <= sz ->
  exists h, O1Heap_new instance b sz = Ret (Some h) /\ represents h [(0, sz, false)] /\ base h = b /\ capacity (diagnostics h) = sz.
Proof.
  intros Hb Hbs Hs Hm Hmin. destruct (new_heap_inv b sz Hb Hbs ltac:(lia) Hm) as (h & E & Hr). exists h. split; [|exact Hr].
  unfold O1Heap_new. replace (sz <? _) with false by lia. cbn [new_node]. 
  match goal with |- context [rebin ?l ?x] => replace (rebin l x) with (Ret h) by exact (eq_sym E) end. reflexivity.
Qed.

(** ** Queries *)

Lemma block_unique h ls bs o s u s' u' :
  heap_inv h ls bs -> (o, s, u) ∈ map (block_of h) ls -> (o, s', u') ∈ map (block_of h) ls -> s = s' /\ u = u'.
Proof.
  intros Hi. rewrite !list_elem_of_In, !in_map_iff. intros (l & E & Hl%list_elem_of_In) (k & E' & Hk%list_elem_of_In).
  unfold block_of in *. injection E as Eo <- <-. injection E' as Eo' <- <-.
  assert (l = k) as ->; [|auto]. apply (tiles_offset_inj _ _ _ _ _ l k (co_nodup _ _ (hi_core _ _ _ Hi)) (co_tiles _ _ (hi_core _ _ _ Hi))); auto.
  congruence.
Qed.

(** The size of a block is found from its address, and nothing else is found. *)
Lemma allocation_size_ok h bl addr s :
  represents h bl ->
  (allocation_size addr h = Some s <-> base h <= addr /\ (offset_of addr h, s, true) ∈ bl).
Proof.
  intros (ls & bs & Hi & ->). unfold allocation_size. destruct (Z.ltb_spec addr (base h)); [split; [discriminate | lia] |].
  destruct (lookup_block h ls bs (offset_of addr h) Hi) as [(a & frag & b & -> & Ef & Eo & Hu) | [Hno Hf]].
  - unfold find_fragment_by_offset in Ef. rewrite Ef. change (used (node h frag)) with (inuse h frag). rewrite Hu.
    assert ((offset_of addr h, sz h frag, true) ∈ map (block_of h) (a ++ frag :: b)) as Hin.
    { rewrite used_block by exact Hu. rewrite Eo. set_solver. }
    change (size (node h frag)) with (sz h frag). split; [intros [= <-]; auto |]. intros [_ Hs].
    now destruct (block_unique _ _ _ _ _ _ _ _ Hi Hs Hin) as [-> _].
  - unfold find_fragment_by_offset in Hf. split; [|intros [_ Hs]; now destruct (Hno s)].
    destruct (hashes h !! offset_of addr h) as [frag|]; [|discriminate]. now rewrite (Hf frag eq_refl).
Qed.

Lemma check_fragment_exists_size h addr :
  check_fragment_exists addr h = true <-> exists s, allocation_size addr h = Some s.
Proof.
  unfold check_fragment_exists, allocation_size. destruct (addr <? base h); [split; [discriminate | intros [? [=]]] |].
  destruct (hashes h !! offset_of addr h) as [frag|]; [|split; [discriminate | intros [? [=]]]].
  destruct (used (node h frag)); [split; eauto | split; [discriminate | intros [? [=]]]].
Qed.

(** ** The blocks of a heap *)

(** Blocks follow each other from [o] to [e], in whole units. *)
Fixpoint tiling (o : Z) (bl : list block) (e : Z) : Prop :=
  match bl with
  | [] => o = e
  | (o', s, _) :: bl => o' = o /\ 0 < s /\ s mod FRAGMENT_SIZE_MIN = 0 /\ tiling (o + s) bl e
  end.

(** No two free blocks are neighbours; [p] tells whether the block before is in use. *)
Fixpoint coalesced (p : bool) (bl : list block) : Prop :=
  match bl with
  | [] => True
  | (_, _, u) :: bl => (p = true \/ u = true) /\ coalesced u bl
  end.

Record well_formed (bl : list block) (cap : Z) : Prop := {
  wf_tiling : tiling 0 bl cap;
  wf_coalesced : coalesced true bl }.

Lemma represents_well_formed h bl :
  represents h bl -> well_formed bl (capacity (diagnostics h)) /\ allocated (diagnostics h) = used_bytes bl.
Proof.
  intros (ls & bs & Hi & ->). split; [|apply (co_allocated _ _ (hi_core _ _ _ Hi))]. split.
  - generalize (co_tiles _ _ (hi_core _ _ _ Hi)). generalize 0, (capacity (diagnostics h)). clear Hi.
    induction ls as [|l ls IH]; intros o e; cbn; [auto |]. intros (<- & ? & ? & Ht). split_and!; auto.
  - generalize (hi_separated _ _ _ Hi). generalize true. clear Hi.
    induction ls as [|l ls IH]; intros p; cbn; [auto |]. intros [? Hs]. split; auto.
Qed.

Lemma tiling_app o bl bl' e : tiling o (bl ++ bl') e <-> exists m, tiling o bl m /\ tiling m bl' e.
Proof.
  revert o. induction bl as [|[[o' s] u] bl IH]; intros o; cbn.
  - split; [eauto | intros (m & -> & ?); auto].
  - setoid_rewrite IH. split; [intros (? & ? & ? & m & ? & ?); eauto 10 | intros (m & (? & ? & ? & ?) & ?); eauto 10].
Qed.

Lemma tiling_le o bl e : tiling o bl e -> o <= e.
Proof. revert o. induction bl as [|[[o' s] u] bl IH]; intros o; cbn; [lia |]. intros (_ & ? & _ & Ht%IH). lia. Qed.

Lemma tiling_in o bl e x s u : tiling o bl e -> (x, s, u) ∈ bl -> o <= x /\ 0 < s /\ x + s <= e.
Proof.
  revert o. induction bl as [|[[o' s'] u'] bl IH]; intros o; cbn; [set_solver |]. intros (-> & Hp & _ & Ht) Hin.
  apply elem_of_cons in Hin as [[= -> -> ->] | Hin]; [apply tiling_le in Ht; lia |]. apply IH in Ht; [lia | exact Hin].
Qed.

(** Blocks are disjoint. *)
Lemma tiling_apart o bl e x s u x' s' u' :
  tiling o bl e -> (x, s, u) ∈ bl -> (x', s', u') ∈ bl -> x = x' \/ x + s <= x' \/ x' + s' <= x.
Proof.
  revert o. induction bl as [|[[y t] v] bl IH]; intros o; cbn; [set_solver |]. intros (-> & Hp & _ & Ht) Hin Hin'.
  apply elem_of_cons in Hin as [[= -> -> ->] | Hin]; apply elem_of_cons in Hin' as [[= -> -> ->] | Hin']; [auto | | | eauto].
  - apply (tiling_in _ _ _ _ _ _ Ht) in Hin'. lia.
  - apply (tiling_in _ _ _ _ _ _ Ht) in Hin. lia.
Qed.

(** The place of a block is determined by its offset. *)
Lemma tiling_split o l1 l2 l1' l2' e x s u s' u' :
  tiling o (l1 ++ (x, s, u) :: l2) e -> l1 ++ (x, s, u) :: l2 = l1' ++ (x, s', u') :: l2' ->
  l1 = l1' /\ s = s' /\ u = u' /\ l2 = l2'.
Proof.
  revert o l1'. induction l1 as [|[[y t] v] l1 IH]; intros o l1' Ht E.
  - destruct l1' as [|b l1']; [injection E as -> -> ->; auto |]. injection E as <- E. exfalso.
    destruct Ht as (-> & ? & _ & Ht). assert ((o, s', u') ∈ l2) as Hin by (rewrite E; set_solver).
    apply (tiling_in _ _ _ _ _ _ Ht) in Hin. lia.
  - destruct l1' as [|b l1'].
    + exfalso. injection E as -> -> -> E. destruct Ht as (-> & ? & _ & Ht).
      apply (tiling_in _ _ _ o s u) in Ht; [lia | set_solver].
    + injection E as <- E. destruct Ht as (_ & _ & _ & Ht). destruct (IH _ _ Ht E) as (-> & -> & -> & ->). auto.
Qed.

(** ** Requests *)

Inductive request := Allocate (amount : Z) | Free (address : Z) | Reallocate (address new_amount : Z).

(** The guest-visible result is an address. *)
Definition perform (r : request) (h : O1Heap) : outcome (option Z * O1Heap) :=
  match r with
  | Allocate n => allocate n h
  | Free a => h ← free a h; Ret (None, h)
  | Reallocate a n => '(x, h) ← reallocate a n h; Ret (option_map new_addr x, h)
  end.

(** One request on the blocks of a heap at [b]. *)
Inductive serves (b : Z) (bl : list block) : request -> option Z -> list block -> Prop :=
| serves_allocate n r bl' : allocates bl n r bl' -> serves b bl (Allocate n) (Z.add b <$> r) bl'
| serves_free a bl' : releases bl (wrap 32 (a - b)) bl' -> serves b bl (Free a) None bl'
| serves_reallocate a n r bl' : reallocates bl (a - b) n r bl' -> serves b bl (Reallocate a n) ((fun x => b + x.1) <$> r) bl'.

(** Sizes are machine words, and a resize does not run into the defect of growing
    down. *)
Definition admissible (b : Z) (bl : list block) (r : request) : Prop :=
  match r with
  | Allocate n => is_word 64 n
  | Free _ => True
  | Reallocate a n => is_word 64 n /\ no_overreach bl (a - b) (fragment_size_for n)
  end.

Lemma offset_of_wrap a h : offset_of a h = wrap 32 (a - base h).
Proof.
  unfold offset_of, wsub. apply Z.bits_inj'. intros i Hii. rewrite !testbit_wrap by lia.
  destruct (Z.ltb_spec i 32), (Z.ltb_spec i 64); try reflexivity; lia.
Qed.

(** Every request is served according to its specification, without a panic. *)
Lemma perform_ok h bl r :
  represents h bl -> admissible (base h) bl r ->
  exists x h' bl', perform r h = Ret (x, h') /\ serves (base h) bl r x bl' /\ represents h' bl' /\ base h' = base h
    /\ capacity (diagnostics h') = capacity (diagnostics h).
Proof.
  intros Hr Ha. destruct r as [n | a | a n]; cbn [perform admissible] in *.
  - destruct (allocate_ok h bl n Hr Ha) as (r & h' & bl' & E & Hs & Hr' & He). exists (Z.add (base h) <$> r), h', bl'.
    split_and!; [exact E | now constructor | exact Hr' | apply He..].
  - destruct (free_ok h bl a Hr) as (h' & bl' & E & Hs & Hr' & He). rewrite E. exists None, h', bl'.
    split_and!; [reflexivity | constructor; now rewrite <- offset_of_wrap | exact Hr' | apply He..].
  - destruct Ha as [Hn Hover]. destruct (reallocate_ok h bl a n Hr Hn Hover) as (r & h' & bl' & E & Hs & Hr' & He).
    rewrite E. exists ((fun x => base h + x.1) <$> r), h', bl'.
    split_and!; [cbn; now destruct r as [[? ?]|] | now constructor | exact Hr' | apply He..].
Qed.

(** ** Histories *)

(** The heaps that a sequence of admissible requests leads to. *)
Inductive reached (h0 : O1Heap) : O1Heap -> Prop :=
| reached_start : reached h0 h0
| reached_step h r x h' :
    reached h0 h -> (forall bl, represents h bl -> admissible (base h) bl r) -> perform r h = Ret (x, h') -> reached h0 h'.

Lemma reached_represents h0 bl0 h :
  represents h0 bl0 -> reached h0 h ->
  exists bl, represents h bl /\ base h = base h0 /\ capacity (diagnostics h) = capacity (diagnostics h0).
Proof.
  intros Hr0 Hreach. induction Hreach as [|h r x h' Hreach IH Ha E]; [eauto |].
  destruct IH as (bl & Hr & Eb & Ec). destruct (perform_ok h bl r Hr (Ha bl Hr)) as (x' & h'' & bl' & E' & _ & Hr' & Eb' & Ec').
  rewrite E in E'. injection E' as <- <-. exists bl'. split_and!; auto; congruence.
Qed.

(** ** Operations leave the other blocks alone *)

Lemma allocates_keep bl n r bl' o s : allocates bl n r bl' -> (o, s, true) ∈ bl -> (o, s, true) ∈ bl'.
Proof. intros [? | l1 o' s' l2 -> _ _ _] Hin; [exact Hin |]. set_solver. Qed.

Lemma join_left_keep l1 o s : forall l1' o' s' x t, join_left l1 o s = (l1', o', s') -> (x, t, true) ∈ l1 -> (x, t, true) ∈ l1'.
Proof.
  intros l1' o' s' x t. unfold join_left. destruct l1 as [|[[po ps] u] l1 _] using rev_ind; [now intros [= <- <- <-] |].
  rewrite last_snoc, removelast_last. destruct u; intros [= <- <- <-]; [auto |]. set_solver.
Qed.

Lemma join_right_keep s l2 s' l2' x t : join_right s l2 = (s', l2') -> (x, t, true) ∈ l2 -> (x, t, true) ∈ l2'.
Proof. destruct l2 as [|[[no ns] u] l2]; [now intros [= <- <-] |]. destruct u; intros [= <- <-]; [auto |]. set_solver. Qed.

Lemma release_keep l1 o s l2 x t : (x, t, true) ∈ l1 ++ l2 -> (x, t, true) ∈ release l1 o s l2.
Proof.
  intros Hin. unfold release. destruct (join_left l1 o s) as [[l1' o'] s'] eqn:E1, (join_right s' l2) as [s'' l2'] eqn:E2.
  rewrite elem_of_app, elem_of_cons. apply elem_of_app in Hin as [Hin | Hin].
  - left. eapply join_left_keep; eauto.
  - right. right. eapply join_right_keep; eauto.
Qed.

Lemma releases_keep bl o bl' x t : releases bl o bl' -> (x, t, true) ∈ bl -> x <> o -> (x, t, true) ∈ bl'.
Proof. intros [? | l1 s l2 ->] Hin Hne; [exact Hin |]. apply release_keep. set_solver. Qed.

Lemma reallocates_keep bl o n r bl' x t :
  reallocates bl o n r bl' -> (x, t, true) ∈ bl -> x <> o -> x <> wrap 32 o -> (x, t, true) ∈ bl'.
Proof.
  intros Hr Hin Hne Hnw. destruct Hr as [bl' -> Hf | ? ? | l1 s l2 -> _ _ | l1 po ps s l2 t' l2' -> Ej _ _ | l1 s l2 o' bl1 bl2 -> _ _ Ha Hf | ].
  - eapply releases_keep; eauto.
  - exact Hin.
  - unfold resized. destruct (join_right s l2) as [t' l2'] eqn:Ej. pose proof (join_right_keep _ _ _ _ x t Ej). set_solver.
  - pose proof (join_right_keep _ _ _ _ x t Ej). set_solver.
  - eapply releases_keep; eauto. eapply allocates_keep; eauto.
  - exact Hin.
Qed.

(** The block a request names. *)
Definition names (b : Z) (r : request) (o : Z) : Prop :=
  match r with
  | Allocate _ => False
  | Free a => o = wrap 32 (a - b)
  | Reallocate a _ => o = a - b \/ o = wrap 32 (a - b)
  end.

Lemma serves_keep b bl r x bl' o s :
  serves b bl r x bl' -> (o, s, true) ∈ bl -> ~ names b r o -> (o, s, true) ∈ bl'.
Proof.
  intros [n r' bl1 Ha | a bl1 Hf | a n r' bl1 Hr] Hin Hn; cbn in Hn.
  - eapply allocates_keep; eauto.
  - eapply releases_keep; eauto.
  - eapply reallocates_keep; eauto.
Qed.

(** A new block is not part of any block in use. *)
Lemma allocates_fresh bl n o bl' cap o' s' :
  well_formed bl cap -> allocates bl n (Some o) bl' -> (o', s', true) ∈ bl -> o' + s' <= o \/ o + fragment_size_for n <= o'.
Proof.
  intros [Ht _] Ha Hin. inversion Ha as [| l1 o0 s l2 Ebl Hn Hs _ Eo]; subst.
  destruct (tiling_apart _ _ _ o s false o' s' true Ht) as [<- | [? | ?]]; [set_solver | exact Hin | | lia | lia].
  exfalso. apply list_elem_of_split in Hin as (l1' & l2' & E).
  destruct (tiling_split _ _ _ _ _ _ _ _ _ _ _ Ht E) as (_ & _ & ? & _). discriminate.
Qed.

(** ** Allocating and freeing *)

Lemma coalesced_app p (l k : list block) : coalesced p (l ++ k) <-> coalesced p l /\ coalesced (match last l with Some b => b.2 | None => p end) k.
Proof.
  revert p. induction l as [|[[o s] u] l IH]; intros p; cbn [app coalesced]; [cbn; tauto |]. rewrite IH, last_cons.
  destruct (last l); cbn; tauto.
Qed.

(** The blocks around a free block are in use. *)
Lemma coalesced_around (l1 : list block) o s (l2 : list block) :
  coalesced true (l1 ++ (o, s, false) :: l2) -> (forall b, last l1 = Some b -> b.2 = true) /\ (forall b, head l2 = Some b -> b.2 = true).
Proof.
  intros Hc%coalesced_app. destruct Hc as [_ Hc]. split.
  - intros b E. rewrite E in Hc. destruct Hc as [[? | ?] _]; [assumption | discriminate].
  - destruct Hc as [_ Hs]. destruct l2 as [|[[o' s'] u'] l2]; [discriminate |]. intros b [= <-]. destruct Hs as [[? | ?] _]; [discriminate | assumption].
Qed.

Lemma release_remainder (l1 : list block) o s n (l2 : list block) :
  coalesced true (l1 ++ (o, s, false) :: l2) -> release l1 o n (remainder o s n ++ l2) = l1 ++ (o, s, false) :: l2.
Proof.
  intros Hc. destruct (coalesced_around _ _ _ _ Hc) as [H1 H2]. unfold release.
  assert (join_left l1 o n = (l1, o, n)) as ->.
  { unfold join_left. destruct (last l1) as [[[po ps] u]|]; [|reflexivity]. pose proof (H1 _ eq_refl) as Eu. cbn in Eu. now subst u. }
  unfold remainder. destruct (Z.eqb_spec s n) as [-> | Hne].
  - cbn [app]. assert (join_right n l2 = (n, l2)) as ->; [|reflexivity].
    destruct l2 as [|[[no ns] u] l2']; [reflexivity |]. pose proof (H2 _ eq_refl) as Eu. cbn in Eu. now subst u.
  - cbn. now replace (n + (s - n)) with s by lia.
Qed.

Lemma allocates_releases bl n o bl1 bl2 cap :
  well_formed bl cap -> well_formed bl1 cap -> allocates bl n (Some o) bl1 -> releases bl1 o bl2 -> bl2 = bl.
Proof.
  intros [_ Hc] [Ht _] Ha Hf. inversion Ha as [| l1 o0 s l2 Ebl Hn Hs _ Eo]; subst. destruct Hf as [Hno | l1' s' l2' E].
  - exfalso. apply (Hno (fragment_size_for n)). set_solver.
  - destruct (tiling_split _ _ _ _ _ _ _ _ _ _ _ Ht E) as (<- & <- & _ & <-). now apply release_remainder.
Qed.

(** The address returned for an offset of the arena. *)
Lemma allocates_offset h bl n o bl1 :
  represents h bl -> allocates bl n (Some o) bl1 -> offset_of (base h + o) h = o /\ 0 <= o.
Proof.
  intros Hr Ha. destruct (represents_well_formed h bl Hr) as [Hw _]. inversion Ha as [| l1 o0 s l2 Ebl ? ? ? Eo]; subst.
  destruct (tiling_in _ _ _ o s false (wf_tiling _ _ Hw)) as (? & ? & ?); [set_solver |].
  destruct Hr as (ls & bs & Hi & _). pose proof (co_capacity _ _ (hi_core _ _ _ Hi)). split; [|lia].
  rewrite offset_of_wrap. replace (base h + o - base h) with o by lia. apply wrap_small. split; lia.
Qed.

Lemma allocated_size h bl n a h1 :
  represents h bl -> is_word 64 n -> allocate n h = Ret (Some a, h1) -> allocation_size a h1 = Some (fragment_size_for n).
Proof.
  intros Hr Hn E. destruct (allocate_ok h bl n Hr Hn) as (r & h' & bl1 & E' & Ha & Hr1 & Eb & Ec). rewrite E in E'.
  injection E' as Ea <-. destruct r as [o|]; [|discriminate]. injection Ea as ->.
  destruct (allocates_offset h bl n o bl1 Hr Ha) as [Eo Ho]. apply (allocation_size_ok h1 bl1 _ _ Hr1).
  rewrite offset_of_wrap, Eb, <- offset_of_wrap, Eo. split; [lia |].
  inversion Ha as [| l1 o0 s l2 Ebl ? ? ? Eo']; subst. set_solver.
Qed.

Lemma allocate_then_free h bl n a h1 :
  represents h bl -> is_word 64 n -> allocate n h = Ret (Some a, h1) ->
  exists h2, free a h1 = Ret h2 /\ represents h2 bl.
Proof.
  intros Hr Hn E. destruct (allocate_ok h bl n Hr Hn) as (r & h' & bl1 & E' & Ha & Hr1 & Eb & Ec). rewrite E in E'.
  injection E' as Ea <-. destruct r as [o|]; [|discriminate]. injection Ea as ->.
  destruct (free_ok h1 bl1 (base h + o) Hr1) as (h2 & bl2 & E2 & Hf & Hr2 & _). exists h2. split; [exact E2 |].
  destruct (represents_well_formed h bl Hr) as [Hw _], (represents_well_formed h1 bl1 Hr1) as [Hw1 _]. rewrite Ec in Hw1.
  replace bl with bl2; [exact Hr2 |]. eapply allocates_releases; [exact Hw | exact Hw1 | exact Ha |].
  destruct (allocates_offset h bl n o bl1 Hr Ha) as [Eo _].
  replace o with (offset_of (base h + o) h1); [exact Hf |]. now rewrite offset_of_wrap, Eb, <- offset_of_wrap.
Qed.

(** A linked list is determined by its first node. *)
Lemma seg_determined nx pv p p' ls ls' : seg nx pv p ls None -> seg nx pv p' ls' None -> head ls = head ls' -> ls = ls'.
Proof.
  revert p p' ls'. induction ls as [|l ls IH]; intros p p' [|l' ls'] Hs Hs' E; try discriminate; [reflexivity |].
  injection E as <-. destruct Hs as (_ & En & Hs), Hs' as (_ & En' & Hs'). rewrite head_or_None in En, En'.
  f_equal. eapply IH; eauto. congruence.
Qed.

Lemma free_determined h ls bs ls' bs' : heap_inv h ls bs -> heap_inv h ls' bs' -> free_nodes h ls ⊆ free_nodes h ls'.
Proof.
  intros Hi Hi' l Hl. pose proof (hi_bins _ _ _ Hi) as Hb. pose proof (hi_bins _ _ _ Hi') as Hb'.
  pose proof (class_lt _ (bo_size _ _ _ Hb l Hl)) as Hlt. set (c := class (size (node h l))) in *.
  assert (l ∈ bs c) as Hin by (now apply (bo_mem _ _ _ Hb)).
  assert (bs c = bs' c) as Ec.
  { eapply seg_determined; [apply Hb | apply Hb' |]. pose proof (bo_head _ _ _ Hb c) as E. pose proof (bo_head _ _ _ Hb' c) as E'.
    rewrite E in E' by (unfold NUM_BINS_MAX; lia). specialize (E' ltac:(unfold NUM_BINS_MAX; lia)). now injection E'. }
  rewrite Ec in Hin. now apply (bo_mem _ _ _ Hb') in Hin.
Qed.

Lemma members_determined h ls bs ls' bs' l : heap_inv h ls bs -> heap_inv h ls' bs' -> l ∈ ls -> l ∈ ls'.
Proof.
  intros Hi Hi' Hl. destruct (inuse h l) eqn:Eu.
  - apply (co_used _ _ (hi_core _ _ _ Hi')); [|exact Eu]. now apply (co_fresh _ _ (hi_core _ _ _ Hi)).
  - assert (l ∈ free_nodes h ls) as Hf by (now apply elem_of_free_nodes).
    apply (free_determined _ _ _ _ _ Hi Hi') in Hf. now apply elem_of_free_nodes in Hf.
Qed.

(** A heap holds one list of blocks: the one its links spell out. *)
Lemma represents_unique h bl bl' : represents h bl -> represents h bl' -> bl = bl'.
Proof.
  intros (ls & bs & Hi & ->) (ls' & bs' & Hi' & ->). f_equal.
  pose proof (co_tiles _ _ (hi_core _ _ _ Hi)) as Ht. pose proof (co_tiles _ _ (hi_core _ _ _ Hi')) as Ht'.
  eapply seg_determined; [apply Hi | apply Hi' |]. destruct ls as [|l ls], ls' as [|l' ls']; [reflexivity | | |].
  - exfalso. pose proof (members_determined _ _ _ _ _ l' Hi' Hi). set_solver.
  - exfalso. pose proof (members_determined _ _ _ _ _ l Hi Hi'). set_solver.
  - cbn. f_equal. destruct Ht as (Eo & _), Ht' as (Eo' & _).
    apply (tiles_offset_inj _ _ _ _ _ l l' (co_nodup _ _ (hi_core _ _ _ Hi')) (co_tiles _ _ (hi_core _ _ _ Hi')));
      [|set_solver | congruence]. apply (members_determined _ _ _ _ _ l Hi Hi'). set_solver.
Qed.

(** ** The guarantees *)

(** C21. An arena of less than 4 GiB whose size is a multiple of the allocation unit
    of 256 bytes: in every heap reached from a new one by admissible requests (any
    allocation and release; any resize that does not run into the defect of growing
    down) the blocks follow each other over the whole arena without gap or overlap,
    no two free blocks are neighbours, the counter of allocated bytes is the sum of
    the blocks in use, and no admissible request panics. (In arenas of other sizes a
    tail can belong to no block, see odd_tail_lost.) *)
Theorem heap_history_safe instance b size h0 h :
  O1Heap_new instance b size = Ret (Some h0) -> 0 <= b -> b + size <= 2 ^ 64 -> size < 2 ^ 32 ->
  size mod FRAGMENT_SIZE_MIN = 0 -> FRAGMENT_SIZE_MIN <= wrap 32 (MIN_ARENA_SIZE instance) -> reached h0 h ->
  exists bl, represents h bl /\ well_formed bl size /\ allocated (diagnostics h) = used_bytes bl /\ base h = b
    /\ (forall o s u o' s' u', (o, s, u) ∈ bl -> (o', s', u') ∈ bl -> o <> o' -> o + s <= o' \/ o' + s' <= o)
    /\ forall r, admissible b bl r -> exists x h', perform r h = Ret (x, h') /\ reached h0 h'.
Proof.
  intros E Hb Hbs Hs Hm Hmin Hreach.
  assert (wrap 32 (MIN_ARENA_SIZE instance) <= size) as Hle.
  { unfold O1Heap_new in E. destruct (Z.ltb_spec size (wrap 32 (MIN_ARENA_SIZE instance))); [discriminate | lia]. }
  destruct (O1Heap_new_ok instance b size Hb Hbs Hs Hm (conj Hmin Hle)) as (h0' & E' & Hr0 & Eb0 & Ec0).
  rewrite E in E'. injection E' as <-. destruct (reached_represents h0 _ h Hr0 Hreach) as (bl & Hr & Eb & Ec).
  destruct (represents_well_formed h bl Hr) as [Hw Ha]. rewrite Ec, Ec0 in Hw. exists bl. split_and!; auto; try congruence.
  - intros o s u o' s' u' Hin Hin' Hne. destruct (tiling_apart _ _ _ _ _ _ _ _ _ (wf_tiling _ _ Hw) Hin Hin'); [congruence | auto].
  - intros r Had. assert (base h = b) as Ebb by congruence. rewrite <- Ebb in Had.
    destruct (perform_ok h bl r Hr Had) as (x & h' & bl' & Ep & _). exists x, h'. split; [exact Ep |].
    apply (reached_step h0 h r x h'); auto. intros bl2 Hr2. now replace bl2 with bl by (eapply represents_unique; eauto).
Qed.

(** C37. A block in use keeps its address and size through any admissible request
    that does not name it. *)
Theorem live_blocks_untouched h bl r x h' addr s :
  represents h bl -> admissible (base h) bl r -> perform r h = Ret (x, h') ->
  allocation_size addr h = Some s -> ~ names (base h) r (offset_of addr h) -> allocation_size addr h' = Some s.
Proof.
  intros Hr Had E Hs Hn. destruct (perform_ok h bl r Hr Had) as (x' & h'' & bl' & E' & Hserve & Hr' & Eb & _).
  rewrite E in E'. injection E' as <- <-. apply (allocation_size_ok h bl addr s Hr) in Hs as [Hle Hin].
  apply (allocation_size_ok h' bl' addr s Hr'). rewrite Eb. split; [exact Hle |].
  replace (offset_of addr h') with (offset_of addr h) by (now rewrite !offset_of_wrap, Eb).
  eapply serves_keep; eauto.
Qed.

(** A block just allocated has the rounded size, and freeing it restores exactly the
    blocks there were before. *)
Theorem allocate_free_roundtrip h bl n a h1 :
  represents h bl -> is_word 64 n -> allocate n h = Ret (Some a, h1) ->
  allocation_size a h1 = Some (fragment_size_for n) /\ exists h2, free a h1 = Ret h2 /\ represents h2 bl.
Proof.
  intros Hr Hn E. split; [|exact (allocate_then_free h bl n a h1 Hr Hn E)]. apply (allocated_size h bl n a h1 Hr Hn E).
Qed.
