(* ===== verification/HeapClone.v ===== *)
(** * Copies of a heap

    [clone] writes the fragments out in address order and rebuilds the links, the
    bins and the hash table from them.  The copy holds the same blocks, provided
    the fragment from which the walk starts is not a stale entry of the hash table
    ([walks_from_live]; [HeapFindings] has the other case). *)

From stdpp Require Import gmap sorting.
From S2P Require Import Prelude Heap HeapLinks HeapBins HeapInv.
From S2P Require Import HeapAlloc HeapFree HeapSpec.

(** ** Walking the fragments *)

Lemma list_bounded (ls : list loc) n : NoDup ls -> (forall l, l ∈ ls -> (l < n)%nat) -> (length ls <= n)%nat.
Proof.
  intros Hnd Hb. replace n with (length (seq 0 n)) by apply length_seq. apply submseteq_length, NoDup_submseteq; [exact Hnd |].
  intros l Hl. apply elem_of_seq. specialize (Hb l Hl). lia.
Qed.

Lemma inv_length h ls bs : heap_inv h ls bs -> (length ls <= fresh_loc h)%nat.
Proof. intros [Hc _ _]. apply list_bounded; apply Hc. Qed.

(** The walk back ends at the first fragment. *)
Lemma walk_prev_ok h ls bs a l b fuel :
  heap_inv h ls bs -> ls = a ++ l :: b -> (length a < fuel)%nat -> exists f, walk_prev fuel l h = Ret f /\ head ls = Some f.
Proof.
  intros Hi. revert l b fuel. induction a as [|x a IH] using rev_ind; intros l b fuel E Hf; (destruct fuel as [|fuel]; [lia |]).
  - subst ls. cbn. change (prev (node h l)) with (pv h l). rewrite (inv_upgrade h [] l b bs Hi). eauto.
  - cbn [walk_prev]. change (prev (node h l)) with (pv h l). rewrite (inv_upgrade h (a ++ [x]) l b bs) by (now subst).
    rewrite last_snoc. apply (IH x (l :: b)); [now rewrite E, <- app_assoc |]. rewrite length_app in Hf. cbn in Hf. lia.
Qed.

Lemma walk_next_ok h p ls fuel :
  seg (nx h) (pv h) p ls None -> (length ls <= fuel)%nat -> walk_next fuel (head ls) h = Ret (map (block_of h) ls).
Proof.
  revert p fuel. induction ls as [|l ls IH]; intros p fuel; cbn [seg head walk_next]; [now destruct fuel |].
  intros (_ & En & Hs) Hf. destruct fuel as [|fuel]; [cbn in Hf; lia |]. cbn [walk_next].
  change (next (node h l)) with (nx h l). rewrite En, head_or_None, (IH (Some l) fuel Hs) by (cbn in Hf; lia). reflexivity.
Qed.

Lemma snapshot_ok pick h ls bs l :
  heap_inv h ls bs -> any_fragment pick h = Some l -> l ∈ ls ->
  snapshot pick h = Ret (mkSnapshot (base h) (diagnostics h) (map (block_of h) ls) (merge_sort Z.le (map fst (map_to_list (hashes h))))).
Proof.
  intros Hi Ea Hl. pose proof (inv_length h ls bs Hi) as Hlen. apply list_elem_of_split in Hl as (a & b & E).
  unfold snapshot, first_fragment. rewrite Ea.
  destruct (walk_prev_ok h ls bs a l b (S (fresh_loc h)) Hi E) as (f & Ew & Ef);
    [rewrite E, length_app in Hlen; cbn in Hlen; lia |].
  rewrite Ew. cbn [mbind outcome_bind]. rewrite <- Ef. rewrite (walk_next_ok h None ls); [reflexivity | apply Hi | exact Hlen].
Qed.

(** ** Rebuilding *)

(** The heap that holds the blocks [P] at the locations from 0 on. *)
Record restored (P : list block) (h : O1Heap) (bs : nat -> list loc) (by_offset : gmap Z loc) : Prop := {
  rs_fresh : fresh_loc h = length P;
  rs_dropped : dropped h = ∅;
  rs_hashes : hashes h = ∅;
  rs_links : seg (nx h) (pv h) None (seq 0 (length P)) None;
  rs_blocks : map (block_of h) (seq 0 (length P)) = P;
  rs_bins : bins_ok h bs (free_nodes h (seq 0 (length P)));
  rs_by o l : by_offset !! o = Some l <-> (l < length P)%nat /\ off h l = o }.

Definition last_loc (P : list block) : option loc := last (seq 0 (length P)).

(** A fragment added after [p]. *)
Definition appended (k : loc) (o s : Z) (u : bool) (p : option loc) (h : O1Heap) : O1Heap :=
  let h := modify k (set_used u) h in
  match p with Some p => modify k (set_prev (Some p)) (modify p (set_next (Some k)) h) | None => h end.

Lemma appended_fields o s u p h x (k := fresh_loc h) (h' := appended k o s u p (new_node (Fragment_new o s) h).2) :
  (forall y, p = Some y -> (y < k)%nat) ->
  block_of h' x = (if decide (x = k) then (o, s, u) else block_of h x)
  /\ nx h' x = (if decide (x = k) then None else if decide (p = Some x) then Some k else nx h x)
  /\ pv h' x = (if decide (x = k) then p else pv h x)
  /\ (x <> k -> next_free (node h' x) = next_free (node h x) /\ prev_free (node h' x) = prev_free (node h x)).
Proof.
  intros Hp. unfold h', appended, k, block_of. destruct p as [p|]; [specialize (Hp p eq_refl)|];
    (split_and!; [| | |intros Hx]; nodes; try (exfalso; lia)).
Qed.

Lemma last_loc_lt P y : last_loc P = Some y -> (y < length P)%nat.
Proof. intros E. apply last_Some_elem_of, elem_of_seq in E. lia. Qed.

Lemma seq_snoc n : seq 0 (S n) = seq 0 n ++ [n].
Proof. now rewrite seq_S. Qed.

Section Append.
Context (P : list block) (h : O1Heap) (bs : nat -> list loc) (by_offset : gmap Z loc) (o s : Z) (u : bool).
Hypothesis Hr : restored P h bs by_offset.
Hypothesis Hs : FRAGMENT_SIZE_MIN <= s < 2 ^ 32.
Hypothesis Ho : forall b, b ∈ P -> b.1.1 <> o.

Let h1 : O1Heap := appended (fresh_loc h) o s u (last_loc P) (new_node (Fragment_new o s) h).2.

Lemma append_fields x :
  block_of h1 x = (if decide (x = length P) then (o, s, u) else block_of h x)
  /\ nx h1 x = (if decide (x = length P) then None else if decide (last_loc P = Some x) then Some (length P) else nx h x)
  /\ pv h1 x = (if decide (x = length P) then last_loc P else pv h x)
  /\ (x <> length P -> next_free (node h1 x) = next_free (node h x) /\ prev_free (node h1 x) = prev_free (node h x)).
Proof.
  unfold h1. rewrite (rs_fresh _ _ _ _ Hr) at 1 2 3. rewrite <- (rs_fresh _ _ _ _ Hr). apply appended_fields.
  rewrite (rs_fresh _ _ _ _ Hr). apply last_loc_lt.
Qed.

Lemma append_old x : (x < length P)%nat -> block_of h1 x = block_of h x.
Proof. intros Hx. destruct (append_fields x) as (-> & _). rewrite decide_False by lia. reflexivity. Qed.

Lemma append_blocks : map (block_of h1) (seq 0 (S (length P))) = P ++ [(o, s, u)].
Proof.
  rewrite seq_snoc, map_app. cbn [map]. destruct (append_fields (length P)) as (-> & _). rewrite decide_True by reflexivity.
  f_equal. rewrite <- (rs_blocks _ _ _ _ Hr) at 2. apply blocks_ext. intros l Hl%elem_of_seq. apply append_old. lia.
Qed.

Lemma append_links : seg (nx h1) (pv h1) None (seq 0 (S (length P))) None.
Proof.
  rewrite seq_snoc. apply seg_app. cbn [head_or seg]. rewrite last_or_None. fold (last_loc P). split.
  - eapply seg_last; [apply NoDup_seq | apply (rs_links _ _ _ _ Hr) | |]; intros l Hl%elem_of_seq;
      destruct (append_fields l) as (_ & En & Ep & _).
    + rewrite Ep, decide_False by lia. reflexivity.
    + rewrite En, decide_False by lia. reflexivity.
  - destruct (append_fields (length P)) as (_ & -> & -> & _). now rewrite !decide_True.
Qed.

Lemma append_bins : bins_ok h1 bs (free_nodes h (seq 0 (length P))).
Proof.
  apply (bins_ok_ext h); [apply (rs_bins _ _ _ _ Hr) | unfold h1, appended; destruct (last_loc P); reflexivity.. |].
  intros l [Hl%elem_of_seq _]%elem_of_free_nodes. destruct (append_fields l) as (Eb & _ & _ & Ef).
  destruct (Ef ltac:(lia)) as [? ?]. split_and!; auto. rewrite decide_False in Eb by lia. now injection Eb.
Qed.

Lemma append_by x l : <[o := length P]> by_offset !! x = Some l <-> (l < S (length P))%nat /\ off h1 l = x.
Proof.
  destruct (decide (l = length P)) as [-> | Hl].
  - assert (off h1 (length P) = o) as ->.
    { destruct (append_fields (length P)) as (E & _). rewrite decide_True in E by reflexivity. now injection E. }
    rewrite lookup_insert_Some. split; [intros [[-> _] | [_ [? _]%(rs_by _ _ _ _ Hr)]]; [split; [lia | reflexivity] | lia] |].
    intros [_ ->]. auto.
  - assert ((l < length P)%nat -> off h1 l = off h l) as Eo by (intros Hlt; pose proof (append_old l Hlt) as E; now injection E).
    rewrite lookup_insert_Some. split.
    + intros [[_ <-] | [_ [Hlt <-]%(rs_by _ _ _ _ Hr)]]; [congruence |]. split; [lia | auto].
    + intros [Hlt <-]. assert (l < length P)%nat as Hlt' by lia. right. rewrite Eo by exact Hlt'. split.
      * intros E. assert (block_of h l ∈ P) as Hin.
        { rewrite <- (rs_blocks _ _ _ _ Hr). apply list_elem_of_In, in_map, in_seq. lia. }
        apply (Ho _ Hin). symmetry. exact E.
      * apply (rs_by _ _ _ _ Hr). auto.
Qed.

Lemma append_same : fresh_loc h1 = S (length P) /\ dropped h1 = ∅ /\ hashes h1 = ∅ /\ base h1 = base h /\ diagnostics h1 = diagnostics h.
Proof.
  unfold h1, appended. destruct (last_loc P); cbn; rewrite (rs_fresh _ _ _ _ Hr), (rs_dropped _ _ _ _ Hr), (rs_hashes _ _ _ _ Hr); auto.
Qed.

(** One turn of the loop. *)
Lemma restore_step :
  exists h' bs', (if negb u then rebin (fresh_loc h) h1 else Ret h1) = Ret h'
    /\ restored (P ++ [(o, s, u)]) h' bs' (<[o := fresh_loc h]> by_offset) /\ base h' = base h /\ diagnostics h' = diagnostics h.
Proof.
  pose proof (rs_fresh _ _ _ _ Hr) as Ef. rewrite Ef. destruct append_same as (Efr & Ed & Eh & Eb & Edg).
  destruct (append_fields (length P)) as (Ek & _). rewrite decide_True in Ek by reflexivity. injection Ek as _ Esz Euk.
  assert (forall l, l ∈ free_nodes h1 (seq 0 (S (length P))) <->
    l ∈ free_nodes h (seq 0 (length P)) \/ (u = false /\ l = length P)) as HF.
  { intros l. rewrite !elem_of_free_nodes, seq_snoc, elem_of_app, list_elem_of_singleton, elem_of_seq.
    destruct (decide (l = length P)) as [-> | Hl].
    - rewrite Euk. split; [intros [_ ->]; auto | intros [[? _] | [-> _]]; [lia | auto]].
    - split; [|intros [[Hlt Hu] | [_ ?]]; [|congruence]].
      + intros [[Hlt | ?] Hu]; [|congruence]. left. split; [exact Hlt |]. pose proof (append_old l ltac:(lia)) as E. injection E. congruence.
      + split; [auto |]. pose proof (append_old l ltac:(lia)) as E. injection E. congruence. }
  assert (length (P ++ [(o, s, u)]) = S (length P)) as El by (rewrite length_app; cbn; lia).
  destruct (negb u) eqn:Eu; [apply negb_true_iff in Eu | apply negb_false_iff in Eu].
  - destruct (rebin_ok (length P) h1 bs (free_nodes h (seq 0 (length P))) append_bins) as (h2 & E & Sc & Hb).
    + intros [Hx%elem_of_seq _]%elem_of_free_nodes. lia.
    + rewrite Ed. set_solver.
    + unfold sz in Esz. rewrite Esz. exact Hs.
    + eexists h2, _. split; [exact E |]. split_and!; [|now rewrite (sc_base _ _ Sc) | now rewrite (sc_diag _ _ Sc)].
      split; rewrite ?El, ?(sc_fresh _ _ Sc), ?(sc_dropped _ _ Sc), ?(sc_hashes _ _ Sc); auto.
      * eapply seg_ext; [|apply append_links]. intros l _. now rewrite (core_nx _ _ Sc), (core_pv _ _ Sc).
      * rewrite <- append_blocks. apply blocks_ext. intros l _. apply (core_block _ _ Sc).
      * replace (free_nodes h2 _) with (free_nodes h (seq 0 (length P)) ∪ {[length P]}); [exact Hb |].
        apply set_eq. intros l. transitivity (l ∈ free_nodes h1 (seq 0 (S (length P)))).
        { rewrite HF, elem_of_union, elem_of_singleton. tauto. }
        rewrite !elem_of_free_nodes, (core_inuse _ _ Sc). reflexivity.
      * intros x l. rewrite (core_off _ _ Sc). apply append_by.
  - exists h1, bs. split_and!; auto. split; rewrite ?El; auto using append_links, append_blocks, append_by.
    replace (free_nodes h1 _) with (free_nodes h (seq 0 (length P))); [apply append_bins |].
    apply set_eq. intros l. rewrite HF. split; [auto | intros [? | [? _]]; [auto | rewrite Eu in *; discriminate]].
Qed.
End Append.

Lemma last_loc_snoc P b : last_loc (P ++ [b]) = Some (length P).
Proof. unfold last_loc. rewrite length_app, Nat.add_comm. cbn [length Nat.add]. now rewrite seq_snoc, last_snoc. Qed.

(** The loop over the fragments. *)
Lemma restore_ok Q P h bs by_offset cap :
  restored P h bs by_offset -> tiling 0 (P ++ Q) cap -> cap < 2 ^ 32 ->
  exists h' bs' by', restore Q (last_loc P) by_offset h = Ret (by', h') /\ restored (P ++ Q) h' bs' by'
    /\ base h' = base h /\ diagnostics h' = diagnostics h.
Proof.
  revert P h bs by_offset. induction Q as [|[[o s] u] Q IH]; intros P h bs by_offset Hr Ht Hcap.
  { exists h, bs, by_offset. rewrite app_nil_r. auto. }
  pose proof Ht as Ht'. apply tiling_app in Ht' as (m & HP & (-> & Hs & Hm & HQ)). apply tiling_le in HQ as Hle.
  pose proof (tiling_le _ _ _ HP).
  destruct (restore_step P h bs by_offset m s u Hr) as (h1 & bs1 & E & Hr1 & Eb1 & Ed1).
  - unfold FRAGMENT_SIZE_MIN in *. pose proof (Z.div_mod s 256). split; lia.
  - intros [[x t] v] Hin E. cbn in E. subst x. apply (tiling_in _ _ _ _ _ _ HP) in Hin. lia.
  - destruct (IH (P ++ [(m, s, u)]) h1 bs1 (<[m := fresh_loc h]> by_offset) Hr1) as (h' & bs' & by' & E' & Hr' & Eb & Ed);
      [now rewrite <- app_assoc | exact Hcap |].
    exists h', bs', by'. rewrite <- app_assoc in Hr'. split_and!; [|exact Hr' | congruence..].
    rewrite <- E', last_loc_snoc, <- (rs_fresh _ _ _ _ Hr). set (A := appended _ _ _ _ _ _) in E.
    change (restore ((m, s, u) :: Q) (last_loc P) by_offset h) with
      (h2 ← (if negb u then rebin (fresh_loc h) A else Ret A); restore Q (Some (fresh_loc h)) (<[m := fresh_loc h]> by_offset) h2).
    now rewrite E.
Qed.

(** The hash table is filled from the keys. *)
Lemma fill_hashes keys (by_offset m : gmap Z loc) o :
  foldl (fun m k => match by_offset !! k with Some frag => <[k := frag]> m | None => m end) m keys !! o
  = if decide (o ∈ keys) then match by_offset !! o with Some l => Some l | None => m !! o end else m !! o.
Proof.
  revert m. induction keys as [|k keys IH]; intros m; cbn [foldl]; [reflexivity |]. rewrite IH.
  destruct (decide (o ∈ keys)) as [Hin | Hin].
  - rewrite (decide_True (P := o ∈ k :: keys)) by set_solver. destruct (by_offset !! o) eqn:E; [reflexivity |].
    destruct (by_offset !! k) eqn:Ek; [|reflexivity]. rewrite lookup_insert_ne; [reflexivity | congruence].
  - destruct (decide (k = o)) as [-> | Hne].
    + rewrite decide_True by set_solver. destruct (by_offset !! o); [apply lookup_insert_eq | reflexivity].
    + rewrite decide_False by set_solver. destruct (by_offset !! k); [now apply lookup_insert_ne | reflexivity].
Qed.

Lemma tiles_of_tiling h ls o e : tiling o (map (block_of h) ls) e -> tiles (off h) (sz h) o ls e.
Proof. revert o. induction ls as [|l ls IH]; intros o; cbn; [auto |]. intros (? & ? & ? & ?). split_and!; auto. Qed.

Lemma separated_of_coalesced h ls p : coalesced p (map (block_of h) ls) -> separated (inuse h) p ls.
Proof. revert p. induction ls as [|l ls IH]; intros p; cbn; [auto |]. intros [? ?]. auto. Qed.

(** A heap rebuilt from well-formed blocks holds them. *)
Lemma restored_represents P h bs by_offset keys :
  restored P h bs by_offset -> well_formed P (capacity (diagnostics h)) -> capacity (diagnostics h) < 2 ^ 32 ->
  0 <= base h /\ base h + capacity (diagnostics h) <= 2 ^ 64 -> allocated (diagnostics h) = used_bytes P ->
  (forall o s, (o, s, true) ∈ P -> o ∈ keys) ->
  represents (set_hashes (foldl (fun m k => match by_offset !! k with Some frag => <[k := frag]> m | None => m end) (hashes h) keys) h) P.
Proof.
  intros Hr [Ht Hc] Hcap Hb Ha Hk. pose proof (rs_blocks _ _ _ _ Hr) as EP. set (hs := foldl _ _ _).
  assert (forall o l, hs !! o = Some l -> (l < length P)%nat /\ off h l = o) as Hhs.
  { intros o l. unfold hs. rewrite fill_hashes, (rs_hashes _ _ _ _ Hr), lookup_empty. destruct (decide (o ∈ keys)); [|discriminate].
    destruct (by_offset !! o) as [k|] eqn:E; [|discriminate]. intros [= <-]. now apply (rs_by _ _ _ _ Hr). }
  exists (seq 0 (length P)), bs. split; [|exact (eq_sym EP)]. split; [|exact (bins_ok_hashes _ _ _ _ (rs_bins _ _ _ _ Hr)) |].
  - rewrite <- EP in Ht. split; cbn [fresh_loc dropped diagnostics base hashes set_hashes]; auto.
    + apply NoDup_seq.
    + intros l Hl%elem_of_seq. rewrite (rs_fresh _ _ _ _ Hr). lia.
    + rewrite (rs_dropped _ _ _ _ Hr). set_solver.
    + rewrite (rs_dropped _ _ _ _ Hr). set_solver.
    + apply (rs_links _ _ _ _ Hr).
    + rewrite EP in Ht. rewrite <- EP in Ht at 1. exact (tiles_of_tiling h _ _ _ Ht).
    + intros l Hl%elem_of_seq Hu. change (inuse h l = true) in Hu. change (hs !! off h l = Some l). unfold hs. rewrite fill_hashes.
      assert (block_of h l ∈ P) as Hin by (rewrite <- EP; apply list_elem_of_In, in_map, in_seq; lia).
      unfold block_of in Hin. rewrite Hu in Hin. rewrite decide_True by eauto.
      assert (by_offset !! off h l = Some l) as -> by (apply (rs_by _ _ _ _ Hr); split; [lia | reflexivity]). reflexivity.
    + intros o l Hl%Hhs. rewrite (rs_fresh _ _ _ _ Hr). exact Hl.
    + intros l Hl _. apply elem_of_seq. rewrite (rs_fresh _ _ _ _ Hr) in Hl. lia.
    + etransitivity; [exact Ha |]. f_equal. now rewrite <- EP at 1.
  - rewrite <- EP in Hc. exact (separated_of_coalesced h _ _ Hc).
Qed.

Lemma from_snapshot_ok b d P keys :
  well_formed P (capacity d) -> capacity d < 2 ^ 32 -> 0 <= b /\ b + capacity d <= 2 ^ 64 -> allocated d = used_bytes P ->
  (forall o s, (o, s, true) ∈ P -> o ∈ keys) ->
  exists h, from_snapshot (mkSnapshot b d P keys) = Ret h /\ represents h P /\ base h = b /\ diagnostics h = d.
Proof.
  intros Hw Hcap Hb Ha Hk. unfold from_snapshot. cbn [snap_base snap_diagnostics fragments hash_keys].
  set (h0 := mkHeap _ _ _ _ _ _ _ _).
  assert (restored [] h0 (fun _ => []) ∅) as Hr0.
  { split; try reflexivity; [now apply empty_bins |]. intros o l. rewrite lookup_empty. split; [discriminate | cbn; lia]. }
  destruct (restore_ok P [] h0 _ ∅ (capacity d) Hr0 (wf_tiling _ _ Hw) Hcap) as (h1 & bs1 & by1 & E & Hr1 & Eb & Ed).
  change (last_loc []) with (@None loc) in E. rewrite E. cbn [mbind outcome_bind app] in *.
  pose proof (restored_represents P h1 bs1 by1 keys Hr1) as Hrep. rewrite Eb, Ed in Hrep. specialize (Hrep Hw Hcap Hb Ha Hk).
  destruct (represents_end_of_scope _ _ Hrep) as (Hr' & Eb' & Ed'). eexists. split_and!; [reflexivity | exact Hr' | |].
  - rewrite Eb'. exact Eb.
  - rewrite Ed'. exact Ed.
Qed.

(** ** The start of the walk *)

(** The fragment from which the walk over the heap starts belongs to the list of
    fragments: it is not a stale entry of the hash table. *)
Definition walks_from_live (pick : gmap Z loc -> option loc) (h : O1Heap) (bl : list block) : Prop :=
  exists ls bs l, heap_inv h ls bs /\ bl = map (block_of h) ls /\ any_fragment pick h = Some l /\ l ∈ ls.

(** An entry of a block in use is not stale. *)
Lemma used_walks_live pick h bl o l :
  represents h bl -> pick (hashes h) = Some l -> hashes h !! o = Some l -> used (node h l) = true -> walks_from_live pick h bl.
Proof.
  intros (ls & bs & Hi & ->) Ep Eo Hu. exists ls, bs, l. split_and!; [exact Hi | reflexivity | unfold any_fragment; now rewrite Ep |].
  apply (co_hash _ _ (hi_core _ _ _ Hi)) in Eo as [Hl _]. now apply (co_used _ _ (hi_core _ _ _ Hi)).
Qed.

(** While every fragment ever made is still in the list, as in a fresh arena and until
    two of them are merged, no entry is stale. *)
Lemma unmerged_walks_live pick h bl o l :
  represents h bl -> length bl = fresh_loc h -> pick (hashes h) = Some l -> hashes h !! o = Some l -> walks_from_live pick h bl.
Proof.
  intros (ls & bs & Hi & ->) Hn Ep Eo. exists ls, bs, l. split_and!; [exact Hi | reflexivity | unfold any_fragment; now rewrite Ep |].
  apply (co_hash _ _ (hi_core _ _ _ Hi)) in Eo as [Hl _]. rewrite length_map in Hn.
  assert (ls ≡ₚ seq 0 (fresh_loc h)) as ->; [|apply elem_of_seq; lia].
  apply submseteq_length_Permutation; [|rewrite length_seq; lia].
  apply NoDup_submseteq; [apply Hi |]. intros k Hk%(co_fresh _ _ (hi_core _ _ _ Hi)). apply elem_of_seq. lia.
Qed.

(** The bins lead to fragments of the list only. *)
Lemma bin_heads_live h ls bs i l : heap_inv h ls bs -> bins h !! i = Some (Some l) -> l ∈ ls.
Proof.
  intros Hi Ei. pose proof (hi_bins _ _ _ Hi) as Hb.
  assert (i < Z.to_nat NUM_BINS_MAX)%nat as Hlt by (rewrite <- (bo_len _ _ _ Hb); now apply lookup_lt_Some in Ei).
  rewrite (bo_head _ _ _ Hb i Hlt) in Ei. injection Ei as Eh. apply head_Some_elem_of, (bo_mem _ _ _ Hb) in Eh as [Hf _].
  now apply elem_of_free_nodes in Hf as [? _].
Qed.

(** While the hash table is empty, as after the last block is freed, the walk starts
    from a free fragment. *)
Lemma unhashed_walks_live pick h bl o s :
  represents h bl -> (o, s, false) ∈ bl -> pick (hashes h) = None -> walks_from_live pick h bl.
Proof.
  intros (ls & bs & Hi & ->) Hin Ep. unfold walks_from_live, any_fragment. rewrite Ep.
  destruct (list_find is_Some (bins h)) as [[i b]|] eqn:Ef.
  - apply list_find_Some in Ef as (Ei & [l ->] & _). exists ls, bs, l. split_and!; eauto using bin_heads_live.
  - exfalso. apply list_find_None in Ef. apply list_elem_of_In, in_map_iff in Hin as (k & E & Hk%list_elem_of_In).
    unfold block_of in E. injection E as _ _ Hu. pose proof (hi_bins _ _ _ Hi) as Hb.
    assert (k ∈ bs (class (size (node h k)))) as Hm by (apply (bo_mem _ _ _ Hb); split; [now apply elem_of_free_nodes | reflexivity]).
    destruct (bs (class (size (node h k)))) as [|x xs] eqn:Eb; [now apply not_elem_of_nil in Hm |].
    assert (class (size (node h k)) < Z.to_nat NUM_BINS_MAX)%nat as Hc.
    { pose proof (class_lt (size (node h k)) (bo_size _ _ _ Hb k ltac:(now apply elem_of_free_nodes))). unfold NUM_BINS_MAX. lia. }
    pose proof (bo_head _ _ _ Hb _ Hc) as Eh. rewrite Eb in Eh. apply list_elem_of_lookup_2 in Eh.
    rewrite Forall_forall in Ef. apply (Ef _ Eh). now eexists.
Qed.

(** ** The copy *)

(** The copy holds the same blocks when the walk starts from a fragment of the list. *)
Lemma clone_ok pick h bl :
  walks_from_live pick h bl ->
  exists h', clone pick h = Ret h' /\ represents h' bl /\ base h' = base h /\ diagnostics h' = diagnostics h.
Proof.
  intros (ls & bs & l & Hi & -> & Ea & Hl).
  destruct (represents_well_formed h (map (block_of h) ls)) as [Hw Hal]; [now exists ls, bs |].
  unfold clone. rewrite (snapshot_ok pick h ls bs l Hi Ea Hl). cbn [mbind outcome_bind].
  apply from_snapshot_ok; auto; [apply Hi.. |]. intros o s Hin. rewrite (merge_sort_Permutation Z.le).
  apply list_elem_of_In, in_map_iff in Hin as (k & E & Hk%list_elem_of_In). unfold block_of in E. injection E as <- _ Huk.
  apply list_elem_of_In, in_map_iff. exists (off h k, k). split; [reflexivity |].
  apply list_elem_of_In, elem_of_map_to_list. now apply (co_hash_used _ _ (hi_core _ _ _ Hi)).
Qed.

(** The copy of a heap, rebuilt from its snapshot, holds the same blocks at the same
    base with the same counters when the walk that finds the fragments starts from a
    block in use. *)
Theorem clone_same_blocks pick h bl o l :
  represents h bl -> pick (hashes h) = Some l -> hashes h !! o = Some l -> used (node h l) = true ->
  exists h', clone pick h = Ret h' /\ represents h' bl /\ base h' = base h /\ diagnostics h' = diagnostics h.
Proof. intros Hr Ep Eo Hu. apply clone_ok. exact (used_walks_live pick h bl o l Hr Ep Eo Hu). Qed.
