(* ===== verification/HeapFindings.v ===== *)
(** * What the allocator gets wrong

    Concrete runs of the modelled code in which a reallocation overlaps a live
    block, a copy of a heap loses its memory, a tail of the arena is lost, and a
    release is ignored or frees another block. *)

From stdpp Require Import gmap sorting.
From S2P Require Import Prelude Heap HeapSpec.

(** A heap of [size] bytes at [0x1000]; the bytes of the allocator's own structure
    only matter for the least size of an arena. *)
Definition small_heap (size : Z) : outcome O1Heap :=
  r ← O1Heap_new 112 0x1000 size;
  match r with Some h => Ret h | None => Panic end.

(** The first value of the table in the order of its keys: one of the orders a
    [HashMap] may have. *)
Definition first_value (m : gmap Z loc) : option loc :=
  match map_to_list m with (_, l) :: _ => Some l | [] => None end.

(** A block between a free block and a block in use is grown: the result and the
    sizes of the two blocks that are now in use. *)
Definition overlap_run : outcome (option Z * option Z * option Z) :=
  h ← small_heap 0x10000;
  '(_, h) ← perform (Allocate 256) h;
  '(_, h) ← perform (Allocate 256) h;
  '(_, h) ← perform (Allocate 512) h;
  '(_, h) ← perform (Free 0x1000) h;
  '(a, h) ← perform (Reallocate 0x1100 1024) h;
  Ret (a, allocation_size 0x1000 h, allocation_size 0x1200 h).

(** Growing down counts the block after even when it is in use: the block returned
    covers [0x1000, 0x1400), over the live block [0x1200, 0x1400). *)
Theorem reallocate_overlaps : overlap_run = Ret (Some 0x1000, Some 1024, Some 512).
Proof. vm_compute. reflexivity. Qed.

(** Two blocks are allocated and freed; what the heap and its copy then answer to
    the same request. *)
Definition lost_copy_run : outcome (option Z * option Z) :=
  h ← small_heap 0x10000;
  '(_, h) ← perform (Allocate 256) h;
  '(_, h) ← perform (Allocate 256) h;
  '(_, h) ← perform (Free 0x1000) h;
  '(_, h) ← perform (Free 0x1100) h;
  c ← clone first_value h;
  '(a, _) ← perform (Allocate 256) h;
  '(b, _) ← perform (Allocate 256) c;
  Ret (a, b).

(** A copy that starts from a stale entry of the hash table has no memory. *)
Theorem clone_loses_memory : lost_copy_run = Ret (Some 0x1000, None).
Proof. vm_compute. reflexivity. Qed.

(** The arena is not a whole number of units: a block absorbs the odd tail. *)
Definition odd_arena_run : outcome (option Z * option Z * option Z * option Z) :=
  h ← small_heap 0x880;
  '(a, h) ← perform (Allocate 1024) h;
  '(b, h) ← perform (Reallocate 0x1000 2048) h;
  '(_, h) ← perform (Free 0x1000) h;
  let left := allocation_size 0x1000 h in
  '(c, h) ← perform (Allocate 256) h;
  Ret (a, b, left, c).

(** Its release is then ignored. *)
Theorem odd_block_never_freed : odd_arena_run = Ret (Some 0x1000, Some 0x1000, Some 0x880, None).
Proof. vm_compute. reflexivity. Qed.

(** The tail that an allocation cannot split off is lost. *)
Definition lost_tail_run : outcome (list (Z * Z * bool)) :=
  h ← small_heap 612;
  '(_, h) ← perform (Allocate 512) h;
  s ← snapshot first_value h;
  Ret (fragments s).

(** In an arena of 612 bytes a block of 512 leaves 100 bytes that belong to no block. *)
Theorem odd_tail_lost : lost_tail_run = Ret [(0, 512, true)].
Proof. vm_compute. reflexivity. Qed.

Definition far_free_run : outcome (bool * bool) :=
  h ← small_heap 0x10000;
  '(_, h) ← perform (Allocate 256) h;
  let before := check_fragment_exists 0x1000 h in
  '(_, h) ← perform (Free (0x1000 + 2 ^ 32)) h;
  Ret (before, check_fragment_exists 0x1000 h).

(** Freeing an address 4 GiB past a block frees the block. *)
Theorem far_free_hits : far_free_run = Ret (true, false).
Proof. vm_compute. reflexivity. Qed.
