(* ===== verification/HeapSamples.v ===== *)
(** * Sample heaps

    Heaps on which the theorems of the allocator are applied. *)

From stdpp Require Import gmap sorting.
From S2P Require Import Prelude Heap HeapLinks HeapBins HeapInv.
From S2P Require Import HeapAlloc HeapFree HeapResize HeapMove.
From S2P Require Import HeapSpec HeapClone HeapFindings.

Definition heap_or_empty (r : outcome O1Heap) : O1Heap :=
  match r with
  | Ret h => h
  | _ => mkHeap (fun _ => Fragment_new 0 0) 0%nat ∅ 0 [] ∅ 0 (mkDiagnostics 0 0 0 0 0)
  end.

(** A fresh heap of 64 KiB at [0x1000]. *)
Definition fresh_heap : O1Heap := heap_or_empty (small_heap 0x10000).

Lemma fresh_heap_new : O1Heap_new 112 0x1000 0x10000 = Ret (Some fresh_heap).
Proof.
  destruct (O1Heap_new_ok 112 0x1000 0x10000) as (h & E & _); [lia.. | reflexivity | vm_compute; intuition discriminate |].
  unfold fresh_heap, small_heap. now rewrite E.
Qed.

Lemma fresh_heap_represents : represents fresh_heap [(0, 0x10000, false)].
Proof.
  destruct (O1Heap_new_ok 112 0x1000 0x10000) as (h & E & Hr & _); [lia.. | reflexivity | vm_compute; intuition discriminate |].
  rewrite fresh_heap_new in E. now injection E as ->.
Qed.

Lemma fresh_heap_base : base fresh_heap = 0x1000.
Proof. vm_compute. reflexivity. Qed.

(** The same heap after an allocation of 256 bytes. *)
Definition used_heap : O1Heap := heap_or_empty ('(_, h) ← allocate 256 fresh_heap; Ret h).

#[local] Opaque fresh_heap.

(** The only block of the fresh heap serves the request. *)
Lemma fresh_heap_serves r bl : allocates [(0, 0x10000, false)] 256 r bl -> r = Some 0 /\ bl = [(0, 256, true); (256, 0xFF00, false)].
Proof.
  intros Ha. inversion Ha as [Hn | l1 o s l2 Ebl _ _ _]; subst.
  - exfalso. destruct Hn as [? | [Hn | Hn]]; [lia | discriminate Hn |]. specialize (Hn 0 0x10000 ltac:(set_solver)). now vm_compute in Hn.
  - destruct l1 as [|b l1]; [|destruct l1; discriminate]. injection Ebl as <- <- <-. auto.
Qed.

Lemma used_heap_sample : allocate 256 fresh_heap = Ret (Some 0x1000, used_heap)
  /\ represents used_heap [(0, 256, true); (256, 0xFF00, false)] /\ base used_heap = 0x1000.
Proof.
  destruct (allocate_ok fresh_heap _ 256 fresh_heap_represents) as (r & h & bl & E & Ha & Hr & Eb & _); [split; reflexivity || lia |].
  apply fresh_heap_serves in Ha as [-> ->]. assert (used_heap = h) as -> by (unfold used_heap; now rewrite E).
  split_and!; [|exact Hr | now rewrite Eb, fresh_heap_base]. rewrite E, fresh_heap_base. reflexivity.
Qed.

#[local] Opaque used_heap.

(** Nothing is free before the block of the sample heap. *)
Lemma used_heap_clear n : no_overreach [(0, 256, true); (256, 0xFF00, false)] 0 n.
Proof. intros l1 po ps s no ns l2 E. destruct l1 as [|b [|c l1]]; try discriminate. destruct l1; discriminate. Qed.

(** ** Witnesses *)

Lemma allocate_refines_witness :
  exists r h' bl', allocate 256 fresh_heap = Ret (Z.add (base fresh_heap) <$> r, h')
    /\ allocates [(0, 0x10000, false)] 256 r bl' /\ represents h' bl'.
Proof.
  destruct (allocate_refines fresh_heap [(0, 0x10000, false)] 256 fresh_heap_represents ltac:(split; reflexivity || lia))
    as (r & h' & bl' & E & Ha & Hr & _).
  exists r, h', bl'. auto.
Defined.

Lemma free_refines_witness :
  exists h' bl', free 0x1000 used_heap = Ret h' /\ releases [(0, 256, true); (256, 0xFF00, false)] (offset_of 0x1000 used_heap) bl'
    /\ represents h' bl'.
Proof.
  destruct (free_refines used_heap [(0, 256, true); (256, 0xFF00, false)] 0x1000 (proj1 (proj2 used_heap_sample)))
    as (h' & bl' & E & Hf & Hr & _).
  exists h', bl'. auto.
Defined.

Lemma reallocate_refines_witness :
  exists r h' bl', reallocate 0x1000 512 used_heap = Ret (realloc_result used_heap r, h')
    /\ reallocates [(0, 256, true); (256, 0xFF00, false)] (0x1000 - base used_heap) 512 r bl' /\ represents h' bl'.
Proof.
  destruct (reallocate_refines used_heap [(0, 256, true); (256, 0xFF00, false)] 0x1000 512 (proj1 (proj2 used_heap_sample))
    ltac:(split; reflexivity || lia)) as (r & h' & bl' & E & Hf & Hr & _).
  - rewrite (proj2 (proj2 used_heap_sample)). apply used_heap_clear.
  - exists r, h', bl'. auto.
Defined.

Lemma heap_history_safe_witness :
  exists bl, represents used_heap bl /\ well_formed bl 0x10000
    /\ forall r, admissible 0x1000 bl r -> exists x h', perform r used_heap = Ret (x, h') /\ reached fresh_heap h'.
Proof.
  assert (reached fresh_heap used_heap) as Hreach.
  { apply (reached_step fresh_heap fresh_heap (Allocate 256) (Some 0x1000) used_heap); [constructor | | apply used_heap_sample].
    intros bl _. split; reflexivity || lia. }
  destruct (heap_history_safe 112 0x1000 0x10000 fresh_heap used_heap fresh_heap_new ltac:(lia) ltac:(lia) ltac:(lia) eq_refl
    ltac:(vm_compute; discriminate) Hreach) as (bl & Hr & Hw & _ & _ & _ & Hs).
  exists bl. auto.
Defined.

Lemma live_blocks_untouched_witness :
  exists x h', perform (Allocate 1024) used_heap = Ret (x, h') /\ allocation_size 0x1000 used_heap = Some 256
    /\ allocation_size 0x1000 h' = Some 256.
Proof.
  pose proof used_heap_sample as (_ & Hr & Eb).
  assert (allocation_size 0x1000 used_heap = Some 256) as Hs.
  { apply (allocation_size_ok _ _ _ _ Hr). rewrite offset_of_wrap, Eb. split; [lia |]. vm_compute. constructor. }
  assert (admissible (base used_heap) [(0, 256, true); (256, 0xFF00, false)] (Allocate 1024)) as Had by (split; reflexivity || lia).
  destruct (perform_ok used_heap _ (Allocate 1024) Hr Had) as (x & h' & bl' & E & _).
  exists x, h'. split; [exact E |]. split; [exact Hs |].
  apply (live_blocks_untouched used_heap [(0, 256, true); (256, 0xFF00, false)] (Allocate 1024) x h' 0x1000 256 Hr Had E Hs). exact id.
Defined.

Lemma allocate_free_roundtrip_witness :
  allocation_size 0x1000 used_heap = Some 256 /\ exists h2, free 0x1000 used_heap = Ret h2 /\ represents h2 [(0, 0x10000, false)].
Proof.
  exact (allocate_free_roundtrip fresh_heap [(0, 0x10000, false)] 256 0x1000 used_heap fresh_heap_represents
    ltac:(split; reflexivity || lia) (proj1 used_heap_sample)).
Defined.

(** The table of the sample heap, read at the key of the block. *)
Definition pick_block (m : gmap Z loc) : option loc := m !! 0.

Lemma clone_same_blocks_witness :
  exists h', clone pick_block used_heap = Ret h' /\ represents h' [(0, 256, true); (256, 0xFF00, false)].
Proof.
  destruct (clone_same_blocks pick_block used_heap [(0, 256, true); (256, 0xFF00, false)] 0 0%nat (proj1 (proj2 used_heap_sample)))
    as (h' & E & Hr & _).
  - vm_compute. reflexivity.
  - vm_compute. reflexivity.
  - vm_compute. reflexivity.
  - exists h'. auto.
Defined.
