(* ===== verification/Strings.v ===== *)
(** * String instructions ([engine/instructions/movs*.rs], [stos*.rs], [lods*.rs], [scas*.rs], [cmps*.rs])

    The handlers of MOVS, STOS, LODS, SCAS and CMPS at the four widths: they
    address memory through (R|E)SI and (R|E)DI and move these registers by one
    element, up or down as DF says.  [Movsd] and [Cmpsd] are the string forms;
    the SSE instructions that share the mnemonics are not here. *)

From stdpp Require Import gmap strings.
From S2P Require Import Prelude Flags FlagsArith Scalar Mem64 Slab Tlb Maps Regs Emu Operands Instructions.

(** ** Elements *)

(** The accumulator of each width: AL, AX, EAX and RAX. *)
Definition accumulator (sk : ScalarKind) (s : Regs64) : Z :=
  match sk with
  | Byte => wrap 8 (get_al s) | Word => wrap 16 (get_ax s) | Dword => wrap 32 (get_eax s) | _ => s rax
  end.

Definition set_accumulator (sk : ScalarKind) (v : Z) (s : Regs64) : Regs64 :=
  match sk with Byte => set_al v s | Word => set_ax v s | Dword => set_eax v s | _ => upd rax v s end.

(** The subtraction of each width. *)
Definition sub_of (sk : ScalarKind) : Z -> Z -> Flags -> Z * Flags :=
  match sk with Byte => sub8 | Word => sub16 | Dword => sub32 | _ => sub64 end.

Section Handlers.
Context {S W : Type} `{Slab S} `{Environment S W}.
Implicit Types (e : Emu S W) (sk : ScalarKind).

(** [Emu::flag_df] *)
Definition flag_df e : bool := f_df (flags e).

(** [emu.pos += 1] *)
Definition bump_pos e : Emu S W :=
  mkEmu (regs e) (flags e) (emaps e) (cfg e) (os e) (has_kernel e) (kernel_guard e) (fs_store e) (seh e)
    (wadd (pos e) 1) (bp_mem_read e) (bp_mem_write e) (running_script e) (force_break e) (break_on_next_cmp e)
    (process_terminated e) (is_running e) (memory_operations e) (world e).

(** The registers that address the source and the destination in 64-bit mode
    and in 32-bit mode. *)
Definition src_ptr (x64 : bool) e : Z := if x64 then regs e rsi else get_esi (regs e).
Definition dst_ptr (x64 : bool) e : Z := if x64 then regs e rdi else get_edi (regs e).

(** One element up, or down when DF is set. *)
Definition moved (sk : ScalarKind) e (p : Z) : Z :=
  if flag_df e then wsub p (Z.of_nat (SIZE sk)) else wadd p (Z.of_nat (SIZE sk)).
Definition advance_si (x64 : bool) sk e : Emu S W :=
  let v := moved sk e (src_ptr x64 e) in
  set_regs (if x64 then upd rsi v (regs e) else set_esi v (regs e)) e.
Definition advance_di (x64 : bool) sk e : Emu S W :=
  let v := moved sk e (dst_ptr x64 e) in
  set_regs (if x64 then upd rdi v (regs e) else set_edi v (regs e)) e.

(** The element at an address, and the store of an element: the write hook may
    replace the value. *)
Definition load_element sk (addr : Z) e : outcome (option Z * Emu S W) := on_maps (read_scalar (SIZE sk) addr) e.
Definition store_element sk (addr v : Z) e : outcome (bool * Emu S W) :=
  let (value, e) := call_memory_write_hook addr (bits_of (SIZE sk)) v e in
  on_maps (write_scalar (SIZE sk) addr (wrap (bits_of (SIZE sk)) value)) e.

(** ** MOVS *)

(** Under a REP prefix an unmapped source byte reads as zero. *)
Definition movsb_execute (in_rep : bool) e : outcome (bool * Emu S W) :=
  let x64 := is_x64 (cfg e) in
  '(v, e) ← load_element Byte (src_ptr x64 e) e;
  match (match v with Some v => Some v | None => if in_rep then Some 0 else None end) with
  | None => Ret (false, e)
  | Some val =>
      '(ok, e) ← store_element Byte (dst_ptr x64 e) val e;
      if ok : bool then Ret (true, advance_di x64 Byte (advance_si x64 Byte e)) else Ret (false, e)
  end.

(** The result of the write is not used. *)
Definition movs (x64 : bool) sk e : outcome (bool * Emu S W) :=
  let? val, e := load_element sk (src_ptr x64 e) e in
  '(_, e) ← store_element sk (dst_ptr x64 e) val e;
  Ret (true, advance_di x64 sk (advance_si x64 sk e)).

Definition movsw_execute e : outcome (bool * Emu S W) := movs (is_x64 (cfg e)) Word e.
Definition movsd_execute e : outcome (bool * Emu S W) := movs (is_x64 (cfg e)) Dword e.
Definition movsq_execute e : outcome (bool * Emu S W) := movs true Qword (bump_pos e).

(** ** STOS *)

Definition stos_checked sk e : outcome (bool * Emu S W) :=
  let x64 := is_x64 (cfg e) in
  '(ok, e) ← store_element sk (dst_ptr x64 e) (accumulator sk (regs e)) e;
  if ok : bool then Ret (true, advance_di x64 sk e) else Ret (false, e).

Definition stos_unchecked (x64 : bool) sk e : outcome (bool * Emu S W) :=
  '(_, e) ← store_element sk (dst_ptr x64 e) (accumulator sk (regs e)) e;
  Ret (true, advance_di x64 sk e).

Definition stosb_execute e : outcome (bool * Emu S W) := stos_checked Byte e.
Definition stosw_execute e : outcome (bool * Emu S W) := stos_unchecked (is_x64 (cfg e)) Word e.
Definition stosd_execute e : outcome (bool * Emu S W) := stos_checked Dword e.
Definition stosq_execute e : outcome (bool * Emu S W) := stos_unchecked true Qword e.

(** ** LODS *)

Definition loaded (x64 : bool) sk (val : Z) e : Emu S W :=
  advance_si x64 sk (set_regs (set_accumulator sk val (regs e)) e).

(** A byte that cannot be read opens the console and is zero. *)
Definition lodsb_execute e : outcome (bool * Emu S W) :=
  let x64 := is_x64 (cfg e) in
  '(v, e) ← load_element Byte (src_ptr x64 e) e;
  match v with
  | Some val => Ret (true, loaded x64 Byte val e)
  | None => Ret (true, loaded x64 Byte 0 (spawn_console e))
  end.

Definition lods sk e : outcome (bool * Emu S W) :=
  let x64 := is_x64 (cfg e) in
  let? val, e := load_element sk (src_ptr x64 e) e in
  Ret (true, loaded x64 sk val e).

Definition lodsw_execute e : outcome (bool * Emu S W) := lods Word e.
Definition lodsd_execute e : outcome (bool * Emu S W) := lods Dword e.
Definition lodsq_execute e : outcome (bool * Emu S W) :=
  if is_x64 (cfg e) then lods Qword e else Ret (false, e).

(** ** SCAS *)

(** The element is read at [di], then DI moves as the mode [x64] says. *)
Definition scas (x64 : bool) sk (di : Z) e : outcome (bool * Emu S W) :=
  let? value0, e := load_element sk di e in
  let (_, e) := on_flags (sub_of sk (accumulator sk (regs e)) value0) e in
  Ret (true, advance_di x64 sk e).

(** SCASB reads at RDI in both modes; SCASQ moves RDI in both modes. *)
Definition scasb_execute e : outcome (bool * Emu S W) := scas (is_x64 (cfg e)) Byte (regs e rdi) e.
Definition scasw_execute e : outcome (bool * Emu S W) := scas (is_x64 (cfg e)) Word (dst_ptr (is_x64 (cfg e)) e) e.
Definition scasd_execute e : outcome (bool * Emu S W) := scas (is_x64 (cfg e)) Dword (dst_ptr (is_x64 (cfg e)) e) e.
Definition scasq_execute e : outcome (bool * Emu S W) := scas true Qword (dst_ptr (is_x64 (cfg e)) e) e.

(** ** CMPS *)

Definition cmps (x64 : bool) sk e : outcome (bool * Emu S W) :=
  let? value0, e := load_element sk (src_ptr x64 e) e in
  let? value1, e := load_element sk (dst_ptr x64 e) e in
  let e := advance_di x64 sk (advance_si x64 sk e) in
  let (_, e) := on_flags (sub_of sk value0 value1) e in
  Ret (true, e).

Definition cmpsb_execute e : outcome (bool * Emu S W) := cmps (is_x64 (cfg e)) Byte e.
Definition cmpsw_execute e : outcome (bool * Emu S W) := cmps (is_x64 (cfg e)) Word e.
Definition cmpsd_execute e : outcome (bool * Emu S W) := cmps (is_x64 (cfg e)) Dword e.
Definition cmpsq_execute e : outcome (bool * Emu S W) := cmps true Qword e.
End Handlers.
