(* ===== verification/Rep.v ===== *)
(** * Repeated string instructions ([emu/execution/x86/rep.rs])

    The REP state machine that repeats a string instruction element by element,
    the single-step path that runs it to its end, and the bulk path that
    executes a whole REP with one memory access. *)

From stdpp Require Import gmap strings.
From S2P Require Import Prelude Flags FlagsArith Scalar Mem64 Slab Tlb Maps Regs Emu Operands Instructions Strings.

(** ** Data *)

(** The mnemonics of the string instructions; [OtherMnemonic] stands for the rest. *)
Inductive Mnemonic :=
  | Movsb | Movsw | Movsd | Movsq | Stosb | Stosw | Stosd | Stosq | Lodsb | Lodsw | Lodsd | Lodsq
  | Cmpsb | Cmpsw | Cmpsd | Cmpsq | Scasb | Scasw | Scasd | Scasq | OtherMnemonic.

(** An instruction with its mnemonic and prefixes, as the decoder presents them. *)
Record PrefixedIns := mkPrefixedIns {
  insn : Instruction;
  mnemonic : Mnemonic;
  has_rep_prefix : bool;
  has_repe_prefix : bool;
  has_repne_prefix : bool }.

(** What the decoder documents about the prefixes: REP and REPE are the byte F3,
    REPNE is F2, and at most one of them is in force. *)
Definition wf_prefixes (ins : PrefixedIns) : Prop :=
  has_rep_prefix ins = has_repe_prefix ins /\ has_repe_prefix ins && has_repne_prefix ins = false.

(** The settings and hooks that watch single instructions. *)
Record Observers := mkObservers {
  verbose : Z;
  trace_regs : bool; trace_reg : bool; trace_flags : bool; trace_string : bool;
  inspect : bool; entropy : bool;
  hook_on_pre_instruction : bool; hook_on_post_instruction : bool }.

(** The emulator with the counters and the REP state of its run loop. *)
Record Machine (S W : Type) := mkMachine {
  emu : Emu S W;
  rep : option Z;
  instruction_count : Z;
  exp : Z;
  exit_position : Z;
  bp_instruction : list Z;
  observers : Observers }.
Arguments mkMachine {S W}. Arguments emu {S W}. Arguments rep {S W}. Arguments instruction_count {S W}.
Arguments exp {S W}. Arguments exit_position {S W}. Arguments bp_instruction {S W}. Arguments observers {S W}.

(** The handlers of the other mnemonics. *)
Class Dispatcher (S W : Type) := {
  emulate_other : Instruction -> Emu S W -> outcome (bool * Emu S W)
}.

(** The element size the bulk path handles: all but CMPS. *)
Definition element_kind (mn : Mnemonic) : option ScalarKind :=
  match mn with
  | Stosb | Movsb | Scasb | Lodsb => Some Byte
  | Stosw | Movsw | Scasw | Lodsw => Some Word
  | Stosd | Movsd | Scasd | Lodsd => Some Dword
  | Stosq | Movsq | Scasq | Lodsq => Some Qword
  | _ => None
  end.

Definition is_string_movement (mn : Mnemonic) : bool :=
  match mn with
  | Movsb | Movsw | Movsd | Movsq | Stosb | Stosw | Stosd | Stosq | Lodsb | Lodsw | Lodsd | Lodsq => true
  | _ => false
  end.

Definition is_string_comparison (mn : Mnemonic) : bool :=
  match mn with Cmpsb | Cmpsw | Cmpsd | Cmpsq | Scasb | Scasw | Scasd | Scasq => true | _ => false end.

Definition has_string_prefix (ins : PrefixedIns) : bool :=
  has_rep_prefix ins || has_repe_prefix ins || has_repne_prefix ins.

(** [Emu::is_rep_string_instruction] *)
Definition is_rep_string_instruction (ins : PrefixedIns) : bool :=
  has_string_prefix ins
  && (is_string_movement (mnemonic ins) || is_string_comparison (mnemonic ins))
  && existsb (fun i => match op_kind (insn ins) i with
                       | MemorySegSI | MemorySegESI | MemorySegRSI | MemoryESDI | MemoryESEDI | MemoryESRDI => true
                       | _ => false
                       end) (seq 0 (op_count (insn ins))).

(** The test at the head of movsd.rs and cmpsd.rs. *)
Definition sse_form (ins : PrefixedIns) : bool :=
  match mnemonic ins with
  | Movsd => (op_count (insn ins) =? 2)%nat
             && ((get_operand_sz (insn ins) 0 =? 128) || (get_operand_sz (insn ins) 1 =? 128))
  | Cmpsd => (op_count (insn ins) =? 3)%nat
  | _ => false
  end.

Section Machine.
Context {S W : Type} `{Slab S} `{Environment S W} `{Dispatcher S W}.
Implicit Types (m : Machine S W) (ins : PrefixedIns) (e : Emu S W).

Definition set_emu (e : Emu S W) m : Machine S W :=
  mkMachine e (rep m) (instruction_count m) (exp m) (exit_position m) (bp_instruction m) (observers m).
Definition set_rep (r : option Z) m : Machine S W :=
  mkMachine (emu m) r (instruction_count m) (exp m) (exit_position m) (bp_instruction m) (observers m).
Definition set_instruction_count (n : Z) m : Machine S W :=
  mkMachine (emu m) (rep m) n (exp m) (exit_position m) (bp_instruction m) (observers m).

Definition set_field (f : Field) (v : Z) e : Emu S W := set_regs (upd f v (regs e)) e.
Definition set_pos (v : Z) e : Emu S W :=
  mkEmu (regs e) (flags e) (emaps e) (cfg e) (os e) (has_kernel e) (kernel_guard e) (fs_store e) (seh e)
    v (bp_mem_read e) (bp_mem_write e) (running_script e) (force_break e) (break_on_next_cmp e)
    (process_terminated e) (is_running e) (memory_operations e) (world e).

(** ** One element *)

(** The branches of [engine::emulate_instruction] for the string mnemonics; the
    SSE forms of [Movsd] and [Cmpsd], which their handlers tell apart by the
    operands, go with the others. *)
Definition emulate_instruction ins (in_rep : bool) e : outcome (bool * Emu S W) :=
  if sse_form ins then emulate_other (insn ins) e else
  match mnemonic ins with
  | Movsb => movsb_execute in_rep e | Movsw => movsw_execute e | Movsd => movsd_execute e | Movsq => movsq_execute e
  | Stosb => stosb_execute e | Stosw => stosw_execute e | Stosd => stosd_execute e | Stosq => stosq_execute e
  | Lodsb => lodsb_execute e | Lodsw => lodsw_execute e | Lodsd => lodsd_execute e | Lodsq => lodsq_execute e
  | Cmpsb => cmpsb_execute e | Cmpsw => cmpsw_execute e | Cmpsd => cmpsd_execute e | Cmpsq => cmpsq_execute e
  | Scasb => scasb_execute e | Scasw => scasw_execute e | Scasd => scasd_execute e | Scasq => scasq_execute e
  | OtherMnemonic => emulate_other (insn ins) e
  end.

(** [Emu::handle_x86_rep_pre_execution]: whether the instruction is over. *)
Definition handle_x86_rep_pre_execution ins (size : Z) m : bool * Machine S W :=
  if negb (is_rep_string_instruction ins) then (false, m)
  else
    let m := match rep m with None => set_rep (Some 0) m | Some _ => m end in
    if regs (emu m) rcx =? 0 then
      let m := set_rep None m in
      let e := emu m in
      let e := if is_x64 (cfg e) then set_field rip (wadd (regs e rip) size) e
               else set_regs (set_eip (wadd (get_eip (regs e)) size) (regs e)) e in
      (true, set_emu e m)
    else (false, m).

(** [Emu::update_x86_rep_state_after_execution] *)
Definition update_x86_rep_state_after_execution ins m : Machine S W :=
  match rep m with
  | None => m
  | Some rep_count =>
      let m :=
        if 0 <? regs (emu m) rcx then
          let m := set_emu (set_field rcx (regs (emu m) rcx - 1) (emu m)) m in
          if regs (emu m) rcx =? 0 then set_rep None m else set_rep (Some (rep_count + 1)) m
        else m in
      if is_string_movement (mnemonic ins) then m
      else if is_string_comparison (mnemonic ins) then
        let m := if has_repe_prefix ins && negb (flag_zf (emu m)) then set_rep None m else m in
        if has_repne_prefix ins && flag_zf (emu m) then set_rep None m else m
      else set_rep None m
  end.

(** [Emu::execute_x86_rep_fully], with at most [fuel] iterations of its loop;
    [None] when they do not suffice. *)
Fixpoint rep_loop (fuel : nat) ins (ok : bool) m : outcome (option (bool * Machine S W)) :=
  if regs (emu m) rcx =? 0 then Ret (Some (ok, m))
  else match fuel with
       | O => Ret None
       | Datatypes.S fuel =>
           '(ok, e) ← emulate_instruction ins (bool_decide (is_Some (rep m))) (emu m);
           let m := update_x86_rep_state_after_execution ins (set_emu e m) in
           if negb ok || bool_decide (rep m = None) then Ret (Some (ok, m)) else rep_loop fuel ins ok m
       end.

Definition execute_x86_rep_fully (fuel : nat) ins m : outcome (option (bool * Machine S W)) :=
  r ← rep_loop fuel ins true (set_rep (Some 0) m);
  Ret (match r with Some (ok, m) => Some (ok, set_rep None m) | None => None end).

(** ** The bulk path *)

(** Whether something observes individual elements. *)
Definition observed m : bool :=
  let o := observers m in
  (3 <=? verbose o) || trace_mem (cfg (emu m)) || trace_regs o || trace_reg o || trace_flags o || trace_string o
  || inspect o || entropy o || hook_on_pre_instruction o || hook_on_post_instruction o
  || bool_decide (is_Some (hook_on_memory_read (S := S) (W := W)))
  || bool_decide (is_Some (hook_on_memory_write (S := S) (W := W)))
  || negb (bool_decide (bp_mem_read (emu m) = ∅)) || negb (bool_decide (bp_mem_write (emu m) = ∅)).

(** Whether a position at which the run stops lies strictly inside the REP. *)
Definition stops_inside (count : Z) m : bool :=
  let lo := pos (emu m) in
  let hi := saturating_add lo count in
  (negb (exp m =? 2 ^ 64 - 1) && (lo <? exp m) && (exp m <? hi))
  || (negb (exit_position m =? 0) && (lo <? exit_position m) && (exit_position m <? hi))
  || existsb (fun b => (lo <? b) && (b <? hi)) (bp_instruction m).

(** The closure [le]: the little-endian value of a slice of at most eight bytes. *)
Fixpoint le_from (i : Z) (b : bytes) (v : Z) : Z :=
  match b with [] => v | x :: b => le_from (i + 1) b (Z.lor v (shl 64 x (8 * i))) end.
Definition le (b : bytes) : Z := le_from 0 b 0.

(** [self.maps.get_mem_by_addr(a).map(|mm| mm.inside(end) && p(mm)).unwrap_or(false)] *)
Definition spans (p : Mem64 -> bool) (a end_ : Z) e : outcome (bool * Emu S W) :=
  '(r, e) ← on_maps (get_mem_by_addr a) e;
  Ret (match r with Some (_, mem) => Mem.inside end_ mem && p mem | None => false end, e).

(** [a.checked_mul(b)] *)
Definition checked_mul (a b : Z) : option Z := if a * b <? 2 ^ 64 then Some (a * b) else None.

(** [Emu::set_sub_flags], through [flags_mut] *)
Definition set_sub_flags sk (a b : Z) e : Emu S W := flags_mut (fun s => (sub_of sk a b s).2) e.

(** [Emu::set_acc] *)
Definition set_acc sk (v : Z) e : Emu S W := set_regs (set_accumulator sk v (regs e)) e.

(** The mask of the accumulator. *)
Definition acc_mask sk : Z := if (SIZE sk =? 8)%nat then 2 ^ 64 - 1 else shl 64 1 (bits_of (SIZE sk)) - 1.

(** The four branches: the number of elements processed, or [None] to fall back. *)
Definition fast_stos sk (count total di dend : Z) e : outcome (option Z * Emu S W) :=
  '(writable, e) ← spans Mem.can_write di dend e;
  if negb writable then Ret (None, e)
  else
    let unit := take (SIZE sk) (to_le_bytes 8 (regs e rax)) in
    let buf := concat (replicate (Z.to_nat count) unit) in
    '(_, e) ← on_maps (write_bytes di buf) e;
    Ret (Some count, set_field rcx 0 (set_field rdi (wadd di total) e)).

Definition fast_movs (count total di dend si send : Z) e : outcome (option Z * Emu S W) :=
  if (di <=? send) && (si <=? dend) then Ret (None, e)
  else
    '(readable, e) ← spans Mem.can_read si send e;
    '(writable, e) ← spans Mem.can_write di dend e;
    if negb readable || negb writable then Ret (None, e)
    else
      '(src, e) ← on_maps (read_bytes si (Z.to_nat total)) e;
      '(_, e) ← on_maps (write_bytes di src) e;
      Ret (Some count, set_field rcx 0 (set_field rdi (wadd di total) (set_field rsi (wadd si total) e))).

(** The scan: the element it ended on and how many it looked at. *)
Fixpoint scan (fuel : nat) sk (bs : bytes) (acc : Z) (repne : bool) (count k : Z) : outcome (Z * Z) :=
  match fuel with
  | O => Panic
  | Datatypes.S fuel =>
      let off := Z.to_nat (k * Z.of_nat (SIZE sk)) in
      s ← index_range off (off + SIZE sk) bs;
      let elem := le s in
      let k := k + 1 in
      let equal := acc =? elem in
      let stop := if repne then equal else negb equal in
      if stop || (k =? count) then Ret (elem, k) else scan fuel sk bs acc repne count k
  end.

Definition fast_scas sk (repne : bool) (count total di dend : Z) e : outcome (option Z * Emu S W) :=
  '(readable, e) ← spans Mem.can_read di dend e;
  if negb readable then Ret (None, e)
  else
    '(bs, e) ← on_maps (read_bytes di (Z.to_nat total)) e;
    let acc := Z.land (regs e rax) (acc_mask sk) in
    '(term, k) ← scan (Z.to_nat count) sk bs acc repne count 0;
    let e := set_sub_flags sk acc term e in
    Ret (Some k, set_field rdi (wadd di (k * Z.of_nat (SIZE sk))) (set_field rcx (count - k) e)).

Definition fast_lods sk (count total si send : Z) e : outcome (option Z * Emu S W) :=
  '(readable, e) ← spans Mem.can_read si send e;
  if negb readable then Ret (None, e)
  else
    let off := Z.to_nat ((count - 1) * Z.of_nat (SIZE sk)) in
    '(bs, e) ← on_maps (read_bytes si (Z.to_nat total)) e;
    s ← index_range off (off + SIZE sk) bs;
    Ret (Some count, set_field rcx 0 (set_field rsi (wadd si total) (set_acc sk (le s) e))).

(** The [match] on the mnemonic, after the checks of the byte counts. *)
Definition fast_element ins sk (count : Z) e : outcome (option Z * Emu S W) :=
  let di := regs e rdi in
  let si := regs e rsi in
  match checked_mul count (Z.of_nat (SIZE sk)) with
  | None => Ret (None, e)
  | Some total =>
      match checked_add di (total - 1), checked_add si (total - 1) with
      | Some dend, Some send =>
          match mnemonic ins with
          | Stosb | Stosw | Stosd | Stosq => fast_stos sk count total di dend e
          | Movsb | Movsw | Movsd | Movsq => fast_movs count total di dend si send e
          | Scasb | Scasw | Scasd | Scasq => fast_scas sk (has_repne_prefix ins) count total di dend e
          | Lodsb | Lodsw | Lodsd | Lodsq => fast_lods sk count total si send e
          | _ => Ret (None, e)
          end
      | _, _ => Ret (None, e)
      end
  end.

(** [Emu::try_fast_rep_string] *)
Definition try_fast_rep_string ins (size : Z) m : outcome (bool * Machine S W) :=
  if negb (has_string_prefix ins) then Ret (false, m)
  else match element_kind (mnemonic ins) with
  | None => Ret (false, m)
  | Some sk =>
      if negb (is_x64 (cfg (emu m))) || f_df (flags (emu m)) then Ret (false, m)
      else if observed m then Ret (false, m)
      else
        let count := regs (emu m) rcx in
        if count <? 16 then Ret (false, m)
        else if stops_inside count m then Ret (false, m)
        else
          '(r, e) ← fast_element ins sk count (emu m);
          match r with
          | None => Ret (false, set_emu e m)
          | Some processed =>
              let e := set_pos (wadd (pos e) processed) e in
              let e := set_field rip (wadd (regs e rip) size) e in
              Ret (true, set_instruction_count (wadd (instruction_count m) processed)
                           (set_rep None (set_emu e m)))
          end
  end.
End Machine.
