(* ===== verification/RepLoop.v ===== *)
(** * The elements of a repeated string instruction

    The state of the emulator after some elements of a REP, what the handler of
    each family does to it, and the loop that runs the handler once per
    element. *)

From stdpp Require Import gmap strings.
From S2P Require Import Prelude Flags FlagsArith Scalar Mem64 BTree Slab Tlb Maps MapsInv MapsLife.
From S2P Require Import Regs Emu Operands OperandsSpec Instructions Strings Rep.

(** ** Ranges of one region *)

Lemma mapM_ext_in {A B} (f g : A -> option B) l :
  (forall x, x ∈ l -> f x = g x) -> mapM f l = mapM g l.
Proof. induction l as [|x l IH]; intros E; [reflexivity |]. cbn. rewrite E, IH; [reflexivity | set_solver..]. Qed.

Section Ranges.
Context {S : Type} `{SlabLaws S}.
Implicit Types (m : Maps S) (mem : Mem64).

(** The [n] bytes from [a] lie in one region that satisfies [p]. *)
Definition in_region m (p : Mem64 -> bool) (a : Z) (n : nat) : Prop :=
  exists k mem, find_map a m = Some (k, mem) /\ Mem.inside (a + Z.of_nat n - 1) mem = true /\ p mem = true.

Lemma in_region_covers m p a n :
  wf m -> (0 < n)%nat -> in_region m p a n ->
  exists k mem, slab_get (mem_slab m) k = Some mem /\ covers mem a (Z.of_nat n) /\ p mem = true
    /\ wf_mem mem.
Proof.
  intros Hwf Hn (k & mem & Hf & Hi & Hp). pose proof Hf as [Hk Ha]%find_map_spec; [|exact Hwf].
  destruct (wf_region m Hwf _ _ Hk) as [Hm _]. exists k, mem. split_and!; auto.
  apply inside_covers in Hi, Ha. unfold covers in *. lia.
Qed.

Lemma in_region_reachable m p a n off sz :
  wf m -> (0 < sz)%nat -> (off + sz <= n)%nat -> a + Z.of_nat n <= 2 ^ 64 -> in_region m p a n ->
  reachable p sz (a + Z.of_nat off) m = true.
Proof.
  intros Hwf Hs Ho Ht Hr. destruct (in_region_covers m p a n Hwf ltac:(lia) Hr) as (k & mem & Hk & Hc & Hp & _).
  unfold reachable. rewrite (proj2 (Z.leb_le _ _)) by lia. cbn [andb]. unfold covers in Hc.
  rewrite (proj2 (find_map_spec m Hwf (a + Z.of_nat off) k mem))
    by (split; [exact Hk | apply inside_covers; unfold covers; lia]).
  rewrite Hp. cbn [andb]. apply orb_true_intro. left. apply inside_covers. unfold covers. lia.
Qed.

Lemma in_region_bytes m p a n :
  wf m -> (0 < n)%nat -> in_region m p a n -> exists bs, bytes_of m a n = Some bs /\ length bs = n.
Proof.
  intros Hwf Hn Hr. destruct (in_region_covers m p a n Hwf Hn Hr) as (k & mem & Hk & Hc & _ & Hm).
  exists (bytes_at mem a n). split; [|now apply length_bytes_at].
  apply bytes_of_spec; [now apply length_bytes_at |]. intros. eapply lookup_region; eauto.
Qed.

Lemma in_region_writable m a n :
  wf m -> (0 < n)%nat -> in_region m Mem.can_write a n -> writable_run n a m = n.
Proof.
  intros Hwf Hn Hr. destruct (in_region_covers _ _ _ _ Hwf Hn Hr) as (k & mem & Hk & Hc & Hp & _).
  eapply writable_run_region; eauto.
Qed.

#[export] Instance in_region_proper : Proper (maps_equiv ==> eq ==> eq ==> eq ==> iff) in_region.
Proof. intros m1 m2 E p ? <- a ? <- n ? <-. unfold in_region. now setoid_rewrite E. Qed.

(** Part of a range that is there. *)
Lemma bytes_of_part m a n bs off sz :
  bytes_of m a n = Some bs -> (off + sz <= n)%nat ->
  bytes_of m (a + Z.of_nat off) sz = Some (take sz (drop off bs)).
Proof.
  intros E Ho. unfold bytes_of in E. apply mapM_Some in E.
  pose proof (Forall2_length _ _ _ E) as Hl. rewrite length_seq in Hl.
  apply bytes_of_spec; [rewrite length_take, length_drop; lia |]. intros i Hi.
  rewrite lookup_take_lt, lookup_drop by lia.
  destruct (lookup_lt_is_Some_2 bs (off + i)) as [b Hb]; [lia |]. rewrite Hb.
  destruct (Forall2_lookup_r _ _ _ _ _ E Hb) as (j & Hj & Hby). apply lookup_seq in Hj as [-> _].
  rewrite <- Hby. f_equal. lia.
Qed.

(** A store elsewhere leaves the bytes of a range. *)
Lemma bytes_of_disjoint m m' a bs c n :
  stores m m' a bs -> c + Z.of_nat n <= a \/ a + len bs <= c -> bytes_of m' c n = bytes_of m c n.
Proof.
  intros [Hb _] Hd. unfold bytes_of. apply mapM_ext_in. intros i Hi%elem_of_seq.
  rewrite Hb, decide_False by lia. reflexivity.
Qed.

(** [Maps::read_bytes] on a readable range of one region. *)
Lemma read_bytes_region m a n :
  wf m -> (0 < n)%nat -> 0 <= a -> a + Z.of_nat n <= 2 ^ 64 -> in_region m Mem.can_read a n ->
  exists t bs, wf_tlb t /\ bytes_of m a n = Some bs /\ read_bytes a n m = Ret (bs, set_tlb t m).
Proof.
  intros Hwf Hn Ha Ht Hr. pose proof Hr as (k & mem & Hf & Hi & Hp).
  pose proof Hf as [Hk Hin]%find_map_spec; [|exact Hwf]. destruct (wf_region m Hwf _ _ Hk) as [Hm _].
  assert (covers mem a (Z.of_nat n)) as Hc by (apply inside_covers in Hi, Hin; unfold covers in *; lia).
  destruct (get_mem_by_addr_find m Hwf a) as (t & Htl & E).
  exists t, (bytes_at mem a n). split_and!; [exact Htl | |].
  - apply bytes_of_spec; [now apply length_bytes_at |]. intros. eapply lookup_region; eauto.
  - unfold read_bytes, try_read_bytes. rewrite (proj2 (Nat.eqb_neq n 0)) by lia. rewrite E, Hf.
    cbn [mbind outcome_bind]. unfold wsub, wadd, wrap. rewrite Zminus_mod_idemp_l, Z.mod_small by lia.
    rewrite Hi, Hp. cbn [negb orb mbind outcome_bind]. now rewrite read_bytes_covered by auto.
Qed.
End Ranges.

(** ** States of a run *)

Lemma control_df s t : control s = control t -> f_df s = f_df t.
Proof. unfold control. congruence. Qed.

Section Elements.
Context {S W : Type} `{SlabLaws S} `{Environment S W} `{Dispatcher S W}.
Implicit Types (e : Emu S W) (mc : Machine S W) (ins : PrefixedIns) (sk : ScalarKind).

(** What string instructions leave alone. *)
Definition rest e :=
  (cfg e, os e, has_kernel e, kernel_guard e, fs_store e, seh e, bp_mem_read e, bp_mem_write e,
   (running_script e, force_break e, break_on_next_cmp e, process_terminated e, is_running e,
    memory_operations e, world e)).

(** [e] is [e0] with registers [r], the bytes [bs] stored from [a] on, status
    flags [st] and position [p]. *)
Record reaches (e0 : Emu S W) (r : Regs64) (a : Z) (bs : bytes) (st : status) (p : Z) e : Prop := {
  re_regs : forall f, regs e f = r f;
  re_wf : wf (emaps e);
  re_maps : stores (emaps e0) (emaps e) a bs;
  re_status : observe (flags e) = st;
  re_control : control (flags e) = control (flags e0);
  re_pos : pos e = p;
  re_rest : rest e = rest e0 }.

#[local] Arguments re_regs {e0 r a bs st p e}.
#[local] Arguments re_wf {e0 r a bs st p e}.
#[local] Arguments re_maps {e0 r a bs st p e}.
#[local] Arguments re_status {e0 r a bs st p e}.
#[local] Arguments re_control {e0 r a bs st p e}.
#[local] Arguments re_pos {e0 r a bs st p e}.
#[local] Arguments re_rest {e0 r a bs st p e}.

(** Forward in 64-bit mode, with no hook on writes. *)
Record forward e : Prop := {
  fw_x64 : is_x64 (cfg e) = true;
  fw_df : f_df (flags e) = false;
  fw_hook : hook_on_memory_write (S := S) (W := W) = None }.

Lemma reaches_forward e0 r a bs st p e : reaches e0 r a bs st p e -> forward e0 -> forward e.
Proof.
  intros Hr [Hx Hd Hh]. split; [|  | exact Hh].
  - pose proof (re_rest Hr) as E. unfold rest in E. congruence.
  - now rewrite (control_df _ _ (re_control Hr)).
Qed.

Lemma reaches_start e : wf_emu e -> reaches e (regs e) 0 [] (observe (flags e)) (pos e) e.
Proof. intros [_ Hm]. split; auto. apply stores_nil. reflexivity. Qed.

Lemma reaches_empty e0 r a a' st p e : reaches e0 r a [] st p e -> reaches e0 r a' [] st p e.
Proof.
  intros [? ? [Hb Hl] ? ? ? ?]. split; auto. split; [|exact Hl]. intros c. rewrite Hb, !decide_False; cbn; auto; lia.
Qed.

Lemma reaches_field e0 r a bs st p e f v :
  reaches e0 r a bs st p e -> reaches e0 (upd f v r) a bs st p (set_field f v e).
Proof. intros [Hr ? ? ? ? ? ?]. split; auto. intros g. cbn. unfold upd. case_decide; auto. Qed.

Lemma reaches_ext e0 r r' a bs st p e :
  (forall f, r' f = r f) -> reaches e0 r a bs st p e -> reaches e0 r' a bs st p e.
Proof. intros E [Hr ? ? ? ? ? ?]. split; auto. intros f. now rewrite E, Hr. Qed.

Lemma reaches_retlb e0 r a bs st p e t : wf_tlb t -> reaches e0 r a bs st p e -> reaches e0 r a bs st p (retlb t e).
Proof. intros Ht [? ? ? ? ? ? ?]. split; auto. now apply set_tlb_wf. Qed.

Lemma reaches_set_regs e0 r a bs st p e r' :
  reaches e0 r a bs st p e -> reaches e0 r' a bs st p (set_regs r' e).
Proof. intros [? ? ? ? ? ? ?]. now split. Qed.

(** More bytes behind those already stored. *)
Lemma reaches_store e0 r a bs bs' st p e m' :
  reaches e0 r a bs st p e -> wf m' -> stores (emaps e) m' (a + len bs) bs' ->
  reaches e0 r a (bs ++ bs') st p (set_emaps m' e).
Proof. intros [? ? ? ? ? ? ?] Hw Hs. split; auto. eapply stores_trans; eauto. Qed.

(** ** Elements *)

Lemma sk_size_pos sk : (0 < SIZE sk <= 16)%nat.
Proof. destruct sk; cbn; lia. Qed.

Lemma load_element_ok sk a e bs :
  wf (emaps e) -> 0 <= a -> reachable Mem.can_read (SIZE sk) a (emaps e) = true ->
  bytes_of (emaps e) a (SIZE sk) = Some bs ->
  exists t, wf_tlb t /\ load_element sk a e = Ret (Some (from_le_bytes bs), retlb t e).
Proof.
  intros Hwf Ha Hr Hb. destruct (read_scalar_spec (SIZE sk) a (emaps e) Hwf Ha (sk_size_pos sk)) as (t & Ht & E).
  exists t. split; [exact Ht |]. unfold load_element, on_maps. now rewrite E, Hr, Hb.
Qed.

Lemma store_element_ok sk a v e :
  forward e -> wf (emaps e) -> 0 <= a -> reachable Mem.can_write (SIZE sk) a (emaps e) = true ->
  exists m', store_element sk a v e = Ret (true, set_emaps m' e) /\ wf m'
    /\ stores (emaps e) m' a (to_le_bytes (SIZE sk) v).
Proof.
  intros Hf Hwf Ha Hr.
  destruct (write_scalar_spec (SIZE sk) a (wrap (bits_of (SIZE sk)) v) (emaps e) Hwf Ha (sk_size_pos sk))
    as (m' & E & Hw & Hs). rewrite Hr in E, Hs. destruct Hs as [Hs _]. exists m'. split_and!; [|exact Hw |].
  - unfold store_element, call_memory_write_hook, on_maps. now rewrite (fw_hook e Hf), E.
  - rewrite (to_le_bytes_wrap _ v (wrap (bits_of (SIZE sk)) v)); [exact Hs |].
    symmetry. apply wrap_small, wrap_word. unfold bits_of. lia.
Qed.

Lemma reachable_stores p n a m m' b bs :
  (forall mm mm', permission mm = permission mm' -> p mm = p mm') -> stores m m' b bs ->
  reachable p n a m' = reachable p n a (m : Maps S).
Proof. intros Hp [_ Hl]. now apply reachable_layout. Qed.

Lemma can_read_permission mm mm' : permission mm = permission mm' -> Mem.can_read mm = Mem.can_read mm'.
Proof. unfold Mem.can_read. now intros ->. Qed.

Lemma can_write_permission mm mm' : permission mm = permission mm' -> Mem.can_write mm = Mem.can_write mm'.
Proof. unfold Mem.can_write. now intros ->. Qed.

Inductive family := MOVS | STOS | LODS | SCAS | CMPS.

Definition family_of (mn : Mnemonic) : option family :=
  match mn with
  | Movsb | Movsw | Movsd | Movsq => Some MOVS
  | Stosb | Stosw | Stosd | Stosq => Some STOS
  | Lodsb | Lodsw | Lodsd | Lodsq => Some LODS
  | Scasb | Scasw | Scasd | Scasq => Some SCAS
  | Cmpsb | Cmpsw | Cmpsd | Cmpsq => Some CMPS
  | OtherMnemonic => None
  end.

(** The state after one more element: DI or SI moved up. *)
Definition step_reg (f : Field) sk (r : Regs64) : Regs64 := upd f (wadd (r f) (Z.of_nat (SIZE sk))) r.

Lemma advance_di_forward sk e :
  f_df (flags e) = false -> advance_di true sk e = set_regs (step_reg rdi sk (regs e)) e.
Proof. intros Hd. unfold advance_di, moved, flag_df, dst_ptr. now rewrite Hd. Qed.

Lemma advance_si_forward sk e :
  f_df (flags e) = false -> advance_si true sk e = set_regs (step_reg rsi sk (regs e)) e.
Proof. intros Hd. unfold advance_si, moved, flag_df, src_ptr. now rewrite Hd. Qed.

Lemma accumulator_ext sk (r r' : Regs64) : r rax = r' rax -> accumulator sk r = accumulator sk r'.
Proof. unfold accumulator, get_al, get_ax, get_eax. now intros ->. Qed.

Lemma step_reg_ext f sk (r r' : Regs64) g : (forall f, r f = r' f) -> step_reg f sk r g = step_reg f sk r' g.
Proof. intros E. unfold step_reg, upd. now rewrite !E. Qed.

(** The registers of a reached state, stepped. *)
Lemma reaches_step e0 r a bs st p e f sk :
  reaches e0 r a bs st p e -> reaches e0 (step_reg f sk r) a bs st p (set_regs (step_reg f sk (regs e)) e).
Proof.
  intros Hr. eapply reaches_ext; [|eapply reaches_set_regs, Hr]. intros g. apply step_reg_ext.
  intros f'. symmetry. apply Hr.
Qed.

Lemma stos_step ins sk e0 r a bs st p e :
  sse_form ins = false -> family_of (mnemonic ins) = Some STOS -> element_kind (mnemonic ins) = Some sk ->
  reaches e0 r a bs st p e -> forward e0 -> 0 <= a -> r rdi = a + len bs ->
  reachable Mem.can_write (SIZE sk) (a + len bs) (emaps e0) = true ->
  exists e', emulate_instruction ins true e = Ret (true, e')
    /\ reaches e0 (step_reg rdi sk r) a (bs ++ to_le_bytes (SIZE sk) (accumulator sk r)) st p e'.
Proof.
  intros Hsse Hfam Hk Hr Hf Ha Hdi Hw. pose proof (reaches_forward _ _ _ _ _ _ _ Hr Hf) as Hf'.
  rewrite <- (reachable_stores _ _ _ _ _ _ _ can_write_permission (re_maps Hr)) in Hw.
  destruct (store_element_ok sk (a + len bs) (accumulator sk r) e) as (m' & E & Hm & Hs); auto; [apply Hr | lia |].
  exists (advance_di true sk (set_emaps m' e)). split.
  - unfold emulate_instruction. rewrite Hsse.
    rewrite <- Hdi, <- (re_regs Hr rdi) in E.
    rewrite (accumulator_ext sk r (regs e)) in E by (symmetry; apply Hr).
    destruct (mnemonic ins); try discriminate Hfam; injection Hk as <-;
      unfold stosb_execute, stosw_execute, stosd_execute, stosq_execute, stos_checked, stos_unchecked, dst_ptr;
      rewrite ?(fw_x64 e Hf'), E; reflexivity.
  - rewrite advance_di_forward by apply Hf'. apply reaches_step. eapply reaches_store; eauto.
Qed.

Definition extra_pos (mn : Mnemonic) : Z := match mn with Movsq => 1 | _ => 0 end.

Lemma reaches_bump e0 r a bs st p e :
  reaches e0 r a bs st p e -> reaches e0 r a bs st (wadd p 1) (bump_pos e).
Proof. intros [? ? ? ? ? Hp ?]. split; auto. cbn. now rewrite Hp. Qed.

(** Where an element is read: memory is as at the start there. *)
Lemma load_step sk e0 r a bs st p e f src :
  reaches e0 r a bs st p e -> 0 <= r f ->
  reachable Mem.can_read (SIZE sk) (r f) (emaps e0) = true ->
  bytes_of (emaps e0) (r f) (SIZE sk) = Some src ->
  r f + Z.of_nat (SIZE sk) <= a \/ a + len bs <= r f ->
  exists t, wf_tlb t /\ load_element sk (regs e f) e = Ret (Some (from_le_bytes src), retlb t e)
    /\ length src = SIZE sk /\ is_bytes src.
Proof.
  intros Hr Hsi Hrd Hsrc Hdis.
  rewrite <- (reachable_stores _ _ _ _ _ _ _ can_read_permission (re_maps Hr)) in Hrd.
  rewrite <- (bytes_of_disjoint _ _ _ _ _ _ (re_maps Hr) Hdis) in Hsrc.
  destruct (bytes_of_bytes _ _ _ _ (re_wf Hr) Hsrc) as [Hb Hl].
  rewrite (re_regs Hr). destruct (load_element_ok sk (r f) e src) as (t & Ht & El); auto; [apply Hr |]. eauto.
Qed.

Lemma movs_body sk e0 r a bs st p e src :
  reaches e0 r a bs st p e -> forward e0 -> 0 <= a -> r rdi = a + len bs -> 0 <= r rsi ->
  reachable Mem.can_write (SIZE sk) (a + len bs) (emaps e0) = true ->
  reachable Mem.can_read (SIZE sk) (r rsi) (emaps e0) = true ->
  bytes_of (emaps e0) (r rsi) (SIZE sk) = Some src ->
  r rsi + Z.of_nat (SIZE sk) <= a \/ a + len bs <= r rsi ->
  exists e1 e2, load_element sk (regs e rsi) e = Ret (Some (from_le_bytes src), e1)
    /\ store_element sk (regs e1 rdi) (from_le_bytes src) e1 = Ret (true, e2)
    /\ reaches e0 r a (bs ++ src) st p e2.
Proof.
  intros Hr Hf Ha Hdi Hsi Hw Hrd Hsrc Hdis.
  destruct (load_step sk e0 r a bs st p e rsi src) as (t & Ht & El & Hl & Hb); auto.
  pose proof (reaches_retlb _ _ _ _ _ _ _ t Ht Hr) as Hr1.
  rewrite <- (reachable_stores _ _ _ _ _ _ _ can_write_permission (re_maps Hr1)) in Hw.
  destruct (store_element_ok sk (a + len bs) (from_le_bytes src) (retlb t e)) as (m' & E & Hm & Hs);
    [eapply reaches_forward; eauto | apply Hr1 | lia | exact Hw |].
  rewrite <- Hl, to_from_le_bytes in Hs by exact Hb.
  exists (retlb t e), (set_emaps m' (retlb t e)). rewrite (re_regs Hr1), Hdi.
  split_and!; [exact El | exact E | eapply reaches_store; eauto].
Qed.

Lemma movs_step ins sk e0 r a bs st p e src :
  sse_form ins = false -> family_of (mnemonic ins) = Some MOVS -> element_kind (mnemonic ins) = Some sk ->
  reaches e0 r a bs st p e -> forward e0 -> 0 <= a -> r rdi = a + len bs -> 0 <= r rsi ->
  reachable Mem.can_write (SIZE sk) (a + len bs) (emaps e0) = true ->
  reachable Mem.can_read (SIZE sk) (r rsi) (emaps e0) = true ->
  bytes_of (emaps e0) (r rsi) (SIZE sk) = Some src ->
  r rsi + Z.of_nat (SIZE sk) <= a \/ a + len bs <= r rsi -> is_word 64 p ->
  exists e', emulate_instruction ins true e = Ret (true, e')
    /\ reaches e0 (step_reg rdi sk (step_reg rsi sk r)) a (bs ++ src) st (wadd p (extra_pos (mnemonic ins))) e'.
Proof.
  intros Hsse Hfam Hk Hr Hf Ha Hdi Hsi Hw Hrd Hsrc Hdis Hp.
  pose (e' := match mnemonic ins with Movsq => bump_pos e | _ => e end).
  assert (reaches e0 r a bs st (wadd p (extra_pos (mnemonic ins))) e') as Hr'.
  { unfold e', extra_pos. destruct (mnemonic ins); try (rewrite wadd_small, Z.add_0_r by (now rewrite Z.add_0_r); exact Hr).
    now apply reaches_bump. }
  destruct (movs_body sk e0 r a bs st (wadd p (extra_pos (mnemonic ins))) e' src) as (e1 & e2 & E1 & E2 & Hr2); auto.
  pose proof (reaches_forward _ _ _ _ _ _ _ Hr Hf) as Hf'. pose proof (reaches_forward _ _ _ _ _ _ _ Hr2 Hf) as Hf2.
  exists (set_regs (step_reg rdi sk (step_reg rsi sk (regs e2))) (set_regs (step_reg rsi sk (regs e2)) e2)). split.
  - unfold emulate_instruction. rewrite Hsse. subst e'.
    assert (advance_di true sk (advance_si true sk e2)
            = set_regs (step_reg rdi sk (step_reg rsi sk (regs e2))) (set_regs (step_reg rsi sk (regs e2)) e2)) as Ea
      by (rewrite (advance_si_forward sk e2), advance_di_forward by apply Hf2; reflexivity).
    destruct (mnemonic ins); try discriminate Hfam; injection Hk as <-;
      unfold movsb_execute, movsw_execute, movsd_execute, movsq_execute, movs, src_ptr, dst_ptr;
      rewrite ?(fw_x64 e Hf'), E1; cbn [mbind outcome_bind]; rewrite E2; cbn [mbind outcome_bind]; now rewrite Ea.
  - apply (reaches_step _ _ _ _ _ _ (set_regs (step_reg rsi sk (regs e2)) e2) rdi). now apply reaches_step.
Qed.

Lemma set_accumulator_ext sk v (r r' : Regs64) g :
  (forall f, r f = r' f) -> set_accumulator sk v r g = set_accumulator sk v r' g.
Proof. intros E. unfold set_accumulator, set_al, set_ax, set_eax, upd. destruct sk; now rewrite !E. Qed.

Lemma lods_step ins sk e0 r a st p e src :
  sse_form ins = false -> family_of (mnemonic ins) = Some LODS -> element_kind (mnemonic ins) = Some sk ->
  reaches e0 r a [] st p e -> forward e0 -> 0 <= r rsi ->
  reachable Mem.can_read (SIZE sk) (r rsi) (emaps e0) = true ->
  bytes_of (emaps e0) (r rsi) (SIZE sk) = Some src ->
  exists e', emulate_instruction ins true e = Ret (true, e')
    /\ reaches e0 (step_reg rsi sk (set_accumulator sk (from_le_bytes src) r)) a [] st p e'.
Proof.
  intros Hsse Hfam Hk Hr Hf Hsi Hrd Hsrc. pose proof (reaches_forward _ _ _ _ _ _ _ Hr Hf) as Hf'.
  apply (reaches_empty _ _ _ (r rsi)) in Hr.
  destruct (load_step sk e0 r (r rsi) [] st p e rsi src) as (t & Ht & E & _); auto; [cbn; lia |].
  pose proof (reaches_retlb _ _ _ _ _ _ _ t Ht Hr) as Hr1.
  exists (loaded true sk (from_le_bytes src) (retlb t e)). split.
  - unfold emulate_instruction. rewrite Hsse.
    destruct (mnemonic ins); try discriminate Hfam; injection Hk as <-;
      unfold lodsb_execute, lodsw_execute, lodsd_execute, lodsq_execute, lods, src_ptr;
      rewrite ?(fw_x64 e Hf'), E; reflexivity.
  - unfold loaded. rewrite advance_si_forward by apply Hf'. apply reaches_step.
    apply (reaches_empty _ _ (r rsi)). eapply reaches_ext; [|eapply reaches_set_regs, Hr1].
    intros f. apply set_accumulator_ext. intros g. symmetry. apply Hr1.
Qed.

(** The comparison that a subtraction makes. *)
Definition sub_status sk (x y : Z) : status := sdm_sub (bits_of (SIZE sk)) x y false.

Lemma sub_of_ok sk : sk <> Oword -> sub_ok (bits_of (SIZE sk)) (sub_of sk).
Proof. destruct sub_all as (H64 & H32 & H16 & H8). intros Ho. destruct sk; [exact H8 | exact H16 | exact H32 | exact H64 | congruence]. Qed.

Lemma accumulator_word sk (r : Regs64) : sk <> Oword -> is_word 64 (r rax) -> is_word (bits_of (SIZE sk)) (accumulator sk r).
Proof. intros Ho Hr. destruct sk; [apply wrap_word; cbn; lia.. | exact Hr | congruence]. Qed.

Lemma word_64_of sk x : sk <> Oword -> is_word (bits_of (SIZE sk)) x -> is_word 64 x.
Proof. intros Ho Hx. apply (word_mono (bits_of (SIZE sk))); [|exact Hx]. unfold bits_of. destruct sk; [cbn [SIZE]; lia.. | congruence]. Qed.

Lemma sub_of_flags sk x y s :
  sk <> Oword -> is_word (bits_of (SIZE sk)) x -> is_word (bits_of (SIZE sk)) y ->
  observe (sub_of sk x y s).2 = sub_status sk x y /\ control (sub_of sk x y s).2 = control s.
Proof.
  intros Ho Hx Hy. destruct (sub_of_ok sk Ho x y (word_64_of sk x Ho Hx) (word_64_of sk y Ho Hy) s) as (_ & E & Hc).
  split; [|exact Hc]. now rewrite E, !wrap_small.
Qed.

Lemma sub_status_zf sk x y :
  sk <> Oword -> is_word (bits_of (SIZE sk)) x -> is_word (bits_of (SIZE sk)) y ->
  s_zf (sub_status sk x y) = (x =? y).
Proof.
  intros Ho Hx Hy. unfold sub_status, sdm_sub, wrap. cbn [s_zf Z.b2z]. rewrite Z.sub_0_r. unfold is_word in *.
  generalize dependent (2 ^ bits_of (SIZE sk)). intros b Hx Hy.
  destruct (Z.eqb_spec x y) as [-> | Hne]; [now rewrite Z.sub_diag, Zmod_0_l |].
  apply Z.eqb_neq. intros E. apply Z.mod_divide in E; [|lia]. destruct E as [q E].
  assert (q = 0 \/ q <= -1 \/ 1 <= q) as [-> | [? | ?]] by lia; nia.
Qed.

Lemma scas_step ins sk e0 r a st p e src :
  sse_form ins = false -> family_of (mnemonic ins) = Some SCAS -> element_kind (mnemonic ins) = Some sk ->
  reaches e0 r a [] st p e -> forward e0 -> is_word 64 (r rax) -> 0 <= r rdi ->
  reachable Mem.can_read (SIZE sk) (r rdi) (emaps e0) = true ->
  bytes_of (emaps e0) (r rdi) (SIZE sk) = Some src ->
  exists e', emulate_instruction ins true e = Ret (true, e')
    /\ reaches e0 (step_reg rdi sk r) a [] (sub_status sk (accumulator sk r) (from_le_bytes src)) p e'.
Proof.
  intros Hsse Hfam Hk Hr Hf Hwords Hdi Hrd Hsrc. pose proof (reaches_forward _ _ _ _ _ _ _ Hr Hf) as Hf'.
  apply (reaches_empty _ _ _ (r rdi)) in Hr.
  destruct (load_step sk e0 r (r rdi) [] st p e rdi src) as (t & Ht & E & Hl & Hb); auto; [cbn; lia |].
  pose proof (reaches_retlb _ _ _ _ _ _ _ t Ht Hr) as Hr1.
  assert (sk <> Oword) as Ho by (intros ->; destruct (mnemonic ins); discriminate).
  pose proof (accumulator_word sk r Ho Hwords) as Hacc.
  pose proof (from_le_bytes_word src Hb) as Hv. rewrite Hl in Hv.
  pose (s := (sub_of sk (accumulator sk r) (from_le_bytes src) (flags e)).2).
  destruct (sub_of_flags sk _ _ (flags e) Ho Hacc Hv) as [Hst Hctl].
  exists (advance_di true sk (set_flags s (retlb t e))). split.
  - unfold emulate_instruction. rewrite Hsse. unfold s. rewrite (accumulator_ext sk r (regs e)) by (symmetry; apply Hr).
    destruct (mnemonic ins); try discriminate Hfam; injection Hk as <-;
      unfold scasb_execute, scasw_execute, scasd_execute, scasq_execute, scas, dst_ptr;
      rewrite ?(fw_x64 e Hf'), E; cbn [mbind outcome_bind]; unfold on_flags; destruct (sub_of _ _ _ _); reflexivity.
  - assert (f_df s = false) as Hdf by (rewrite <- (fw_df e Hf'); now apply control_df).
    rewrite advance_di_forward by exact Hdf. apply reaches_step.
    apply (reaches_empty _ _ (r rdi)). destruct Hr1. split; auto. cbn. etransitivity; [exact Hctl | assumption].
Qed.

(** ** The loop *)

(** Whether a comparison ends the REP, whatever is left in RCX. *)
Definition ends_early ins e : bool :=
  is_string_comparison (mnemonic ins)
  && (has_repe_prefix ins && negb (flag_zf e) || has_repne_prefix ins && flag_zf e).

(** One iteration of [execute_x86_rep_fully] whose handler succeeds. *)
Lemma rep_loop_step fuel ins ok mc c e' :
  is_string_movement (mnemonic ins) || is_string_comparison (mnemonic ins) = true ->
  rep mc = Some c -> 0 < regs (emu mc) rcx ->
  emulate_instruction ins true (emu mc) = Ret (true, e') -> regs e' rcx = regs (emu mc) rcx ->
  let e2 := set_field rcx (regs e' rcx - 1) e' in
  rep_loop (Datatypes.S fuel) ins ok mc
  = if (regs e' rcx =? 1) || ends_early ins e' then Ret (Some (true, set_rep None (set_emu e2 mc)))
    else rep_loop fuel ins true (set_rep (Some (c + 1)) (set_emu e2 mc)).
Proof.
  intros Hmn Hc Hrcx E Er e2. cbn [rep_loop]. rewrite (proj2 (Z.eqb_neq _ _)) by lia.
  rewrite Hc, bool_decide_eq_true_2 by eauto. rewrite E. cbn [mbind outcome_bind negb orb].
  unfold update_x86_rep_state_after_execution, ends_early. cbn [rep set_emu emu]. rewrite Hc.
  rewrite (proj2 (Z.ltb_lt _ _)) by lia. cbn [emu set_emu].
  assert (regs (set_field rcx (regs e' rcx - 1) e') rcx = regs e' rcx - 1) as -> by (cbn; apply upd_same).
  replace (regs e' rcx - 1 =? 0) with (regs e' rcx =? 1) by (destruct (Z.eqb_spec (regs e' rcx) 1), (Z.eqb_spec (regs e' rcx - 1) 0); lia).
  fold e2. destruct (is_string_movement (mnemonic ins)) eqn:Hm.
  - assert (is_string_comparison (mnemonic ins) = false) as -> by (destruct (mnemonic ins); (reflexivity || discriminate)).
    rewrite orb_false_r. destruct (regs e' rcx =? 1); reflexivity.
  - cbn [orb] in Hmn. rewrite Hmn. cbn [andb].
    assert (flag_zf e2 = flag_zf e') as Hz by reflexivity. clearbody e2.
    destruct (has_repe_prefix ins), (has_repne_prefix ins), (flag_zf e') eqn:Ez, (regs e' rcx =? 1);
      repeat (cbn [andb orb negb set_rep set_emu emu rep]; rewrite ?Hz); reflexivity.
Qed.

(** A movement runs until RCX is exhausted. *)
Lemma rep_loop_movement ins (I : nat -> Emu S W -> Prop) count :
  is_string_movement (mnemonic ins) = true ->
  (forall j e, (j < count)%nat -> I j e ->
     exists e', emulate_instruction ins true e = Ret (true, e') /\ regs e' rcx = regs e rcx
       /\ I (Datatypes.S j) (set_field rcx (regs e' rcx - 1) e')) ->
  forall n j fuel c mc, count = (j + n)%nat -> (n <= fuel)%nat -> I j (emu mc) ->
  regs (emu mc) rcx = Z.of_nat n -> rep mc = Some c ->
  exists e' q, rep_loop fuel ins true mc = Ret (Some (true, set_rep q (set_emu e' mc))) /\ I count e'.
Proof.
  intros Hm Hstep. induction n as [|n IH]; intros j fuel c mc Hj Hfuel HI Hrcx Hc.
  - exists (emu mc), (rep mc). rewrite Nat.add_0_r in Hj. subst. split; [|exact HI].
    destruct fuel; cbn [rep_loop]; rewrite Hrcx; now destruct mc.
  - destruct fuel as [|fuel]; [lia |]. destruct (Hstep j (emu mc) ltac:(lia) HI) as (e' & E & Er & HI').
    rewrite (rep_loop_step fuel ins true mc c e') by (auto; rewrite ?Hm; auto; lia).
    assert (is_string_comparison (mnemonic ins) = false) as Hcmp by (destruct (mnemonic ins); (reflexivity || discriminate)).
    unfold ends_early. rewrite Hcmp, orb_false_r. destruct (Z.eqb_spec (regs e' rcx) 1) as [E1 | E1].
    + assert (n = O) as -> by lia. replace count with (Datatypes.S j) by lia. eauto.
    + destruct (IH (Datatypes.S j) fuel (c + 1) (set_rep (Some (c + 1)) (set_emu (set_field rcx (regs e' rcx - 1) e') mc)))
        as (e2 & q & E2 & HI2); cbn [emu set_rep set_emu rep]; auto; try lia.
      { cbn. rewrite upd_same. lia. }
      exists e2, q. split; [exact E2 | exact HI2].
Qed.
End Elements.

Arguments re_regs {S W H e0 r a bs st p e}.
Arguments re_wf {S W H e0 r a bs st p e}.
Arguments re_maps {S W H e0 r a bs st p e}.
Arguments re_status {S W H e0 r a bs st p e}.
Arguments re_control {S W H e0 r a bs st p e}.
Arguments re_pos {S W H e0 r a bs st p e}.
Arguments re_rest {S W H e0 r a bs st p e}.
