(* ===== verification/RepSpec.v ===== *)
(** * The bulk path of REP string instructions is the per-element path

    For each family of string instructions, the state in which the per-element
    loop ends and the state in which the bulk path ends; they agree in all that
    the guest observes.  What REP STOS, REP MOVS and REPE/REPNE SCAS compute. *)

From stdpp Require Import gmap strings.
From S2P Require Import Prelude Flags FlagsArith Scalar Mem64 BTree Slab Tlb Maps MapsInv MapsLife.
From S2P Require Import Regs Emu Operands OperandsSpec Instructions Strings Rep RepLoop.

Section Elements.
Context {S W : Type} `{SlabLaws S} `{Environment S W} `{Dispatcher S W}.
Implicit Types (e : Emu S W) (mc : Machine S W) (ins : PrefixedIns) (sk : ScalarKind).

(** ** The two paths *)

(** The path [run] either falls back having touched the TLB only, or ends in the
    state in which the per-element loop ends, up to the position that MOVSQ
    moves once more per element. *)
Definition bulk_ok ins (fuel : nat) mc (run : outcome (option Z * Emu S W)) : Prop :=
  let e0 := emu mc in
  (exists t, wf_tlb t /\ run = Ret (None, retlb t e0))
  \/ exists k r a bs st e1 e2,
       run = Ret (Some k, e1)
       /\ execute_x86_rep_fully fuel ins mc = Ret (Some (true, set_rep None (set_emu e2 mc)))
       /\ reaches e0 r a bs st (pos e0) e1
       /\ reaches e0 r a bs st (wadd (pos e0) (k * extra_pos (mnemonic ins))) e2
       /\ 0 < k /\ r rcx = regs e0 rcx - k /\ r rip = regs e0 rip.

Lemma spans_ok p a n e :
  wf_emu e -> (0 < n)%nat ->
  exists t b, wf_tlb t /\ spans p a (a + Z.of_nat n - 1) e = Ret (b, retlb t e)
    /\ (b = true -> in_region (emaps e) p a n).
Proof.
  intros [_ Hwf] Hn. destruct (get_mem_by_addr_find (emaps e) Hwf a) as (t & Ht & E).
  unfold spans, on_maps. rewrite E. cbn [mbind outcome_bind].
  eexists t, _. split_and!; [exact Ht | reflexivity |].
  unfold in_region. destruct (find_map a (emaps e)) as [[k mem]|]; [|discriminate].
  intros [Hi Hp]%andb_true_iff. eauto.
Qed.

Lemma low_bits sk x : sk <> Oword -> is_word 64 x -> Z.land x (acc_mask sk) = wrap (bits_of (SIZE sk)) x.
Proof.
  intros Ho Hx. transitivity (Z.land x (Z.ones (bits_of (SIZE sk)))); [destruct sk; (reflexivity || congruence) |].
  apply Z.land_ones. unfold bits_of. lia.
Qed.

Lemma accumulator_low sk r : sk <> Oword -> words r -> accumulator sk r = wrap (bits_of (SIZE sk)) (r rax).
Proof.
  intros Ho Hr. assert (is_word 64 (r rax)) as Hx by apply (Hr rax). rewrite <- low_bits by assumption.
  destruct sk; [| | | | congruence].
  1-3: apply wrap_small; unfold get_al, get_ax, get_eax, get_reg8l, get_reg16, get_reg32l;
    match goal with |- is_word ?w (Z.land _ ?k) => change k with (Z.ones w) end; rewrite Z.land_ones by lia; apply wrap_word; lia.
  cbn. symmetry. change (2 ^ 64 - 1) with (Z.ones 64). rewrite Z.land_ones by lia. now apply wrap_small.
Qed.

Lemma take_to_le_bytes n k v : (n <= k)%nat -> take n (to_le_bytes k v) = to_le_bytes n v.
Proof.
  revert k v. induction n as [|n IH]; intros [|k] v Hk; try reflexivity; [lia |]. cbn. now rewrite IH by lia.
Qed.

(** The element the bulk store repeats is the one each iteration stores. *)
Lemma unit_bytes sk r :
  sk <> Oword -> words r -> take (SIZE sk) (to_le_bytes 8 (r rax)) = to_le_bytes (SIZE sk) (accumulator sk r).
Proof.
  intros Ho Hr. rewrite take_to_le_bytes by (destruct sk; cbn; (lia || congruence)).
  apply to_le_bytes_wrap. rewrite accumulator_low by assumption. symmetry. apply wrap_small, wrap_word.
  unfold bits_of. lia.
Qed.

(** Pointer arithmetic of the elements. *)
Lemma wadd_wadd a x y : wadd (wadd a x) y = wadd a (x + y).
Proof. unfold wadd, wrap. rewrite Zplus_mod_idemp_l. f_equal. lia. Qed.

Lemma fully_from_loop fuel ins mc e' q :
  rep_loop fuel ins true (set_rep (Some 0) mc) = Ret (Some (true, set_rep q (set_emu e' (set_rep (Some 0) mc)))) ->
  execute_x86_rep_fully fuel ins mc = Ret (Some (true, set_rep None (set_emu e' mc))).
Proof. intros E. unfold execute_x86_rep_fully. now rewrite E. Qed.

Lemma len_concat_replicate (j : nat) (u : bytes) : len (concat (replicate j u)) = Z.of_nat j * len u.
Proof. induction j as [|j IH]; [reflexivity |]. cbn [replicate concat]. rewrite length_app. lia. Qed.

(** The closure [le] is the little-endian decoding. *)
Lemma le_from_lor b : is_bytes b -> forall i v,
  0 <= i -> i + len b <= 8 -> le_from i b v = Z.lor v (Z.shiftl (from_le_bytes b) (8 * i)).
Proof.
  induction 1 as [|x b Hx Hb IH]; intros i v Hi Hl; cbn [le_from from_le_bytes length] in *.
  - now rewrite Z.shiftl_0_l, Z.lor_0_r.
  - rewrite IH by lia. rewrite Z.shiftl_lor, Z.shiftl_shiftl by lia.
    replace (8 + 8 * i) with (8 * (i + 1)) by lia. rewrite Z.lor_assoc. do 2 f_equal.
    unfold shl. apply wrap_small. unfold is_word in *. rewrite Z.shiftl_mul_pow2 by lia.
    pose proof (Z.pow_le_mono_r 2 (8 + 8 * i) 64 ltac:(lia) ltac:(lia)) as Hp. rewrite Z.pow_add_r in Hp by lia. nia.
Qed.

Lemma le_from_le_bytes b : is_bytes b -> (length b <= 8)%nat -> le b = from_le_bytes b.
Proof. intros Hb Hl. unfold le. rewrite le_from_lor by (auto; lia). now rewrite Z.lor_0_l, Z.shiftl_0_r. Qed.

(** An element of a slice. *)
Lemma index_element sk (bs : bytes) i :
  ((i + 1) * SIZE sk <= length bs)%nat ->
  index_range (i * SIZE sk) (i * SIZE sk + SIZE sk) bs = Ret (take (SIZE sk) (drop (i * SIZE sk) bs)).
Proof. intros Hl. unfold index_range. rewrite decide_True by nia. do 2 f_equal. lia. Qed.

(** A second load replaces the first. *)
Lemma set_low_twice k x a b :
  is_word 64 x -> is_word 64 a -> is_word 64 b -> 0 <= k <= 64 ->
  let keep y := Z.land y (Z.ones 64 - Z.ones k) in
  let put y v := wadd (keep y) (Z.land v (Z.ones k)) in
  put (put x a) b = put x b.
Proof.
  intros Hx Ha Hb Hk keep put. unfold put. f_equal. unfold keep.
  assert (forall i, 0 <= i -> Z.testbit (Z.ones 64 - Z.ones k) i = (k <=? i) && (i <? 64)) as Hm.
  { intros i Hi. replace (Z.ones 64 - Z.ones k) with (Z.shiftl (Z.ones (64 - k)) k).
    - rewrite Z.shiftl_spec by lia. destruct (Z.leb_spec k i); cbn [andb].
      + rewrite Z.testbit_ones_nonneg by lia. destruct (Z.ltb_spec (i - k) (64 - k)), (Z.ltb_spec i 64); lia || reflexivity.
      + apply Z.testbit_neg_r. lia.
    - rewrite !Z.ones_equiv, Z.shiftl_mul_pow2 by lia.
      assert (2 ^ 64 = 2 ^ (64 - k) * 2 ^ k) as -> by (rewrite <- Z.pow_add_r by lia; f_equal; lia). lia. }
  rewrite add_disjoint.
  - apply Z.bits_inj'. intros i Hi. rewrite !Z.land_spec, Z.lor_spec, !Z.land_spec, Hm, Z.testbit_ones_nonneg by lia.
    destruct (Z.leb_spec k i), (Z.ltb_spec i k); try lia; btauto.
  - apply Z.bits_inj'. intros i Hi. rewrite !Z.land_spec, Hm, Z.testbit_ones_nonneg, Z.bits_0 by lia.
    destruct (Z.leb_spec k i), (Z.ltb_spec i k); try lia; btauto.
  - apply word_land; [exact Hx | lia].
  - apply word_land; [exact Ha | lia].
Qed.

Lemma set_accumulator_twice sk a b (r r' : Regs64) f :
  sk <> Oword -> is_word 64 (r rax) -> is_word 64 a -> is_word 64 b ->
  (f = rax -> r' rax = set_accumulator sk a r rax) -> (f <> rax -> r' f = r f) ->
  set_accumulator sk b r' f = set_accumulator sk b r f.
Proof.
  intros Ho Hx Ha Hb Hax Hne. destruct (decide (f = rax)) as [-> | Hf].
  - specialize (Hax eq_refl). unfold set_accumulator, set_al, set_ax, set_eax in *.
    destruct sk; [| | | | congruence]; rewrite ?upd_same in *; rewrite ?Hax; try reflexivity.
    + exact (set_low_twice 8 (r rax) a b Hx Ha Hb ltac:(lia)).
    + exact (set_low_twice 16 (r rax) a b Hx Ha Hb ltac:(lia)).
  - specialize (Hne Hf). unfold set_accumulator, set_al, set_ax, set_eax.
    destruct sk; now rewrite !upd_other by exact Hf.
Qed.

(** The registers after [j] elements: RCX counted down, the pointers [fs] moved. *)
Definition counted sk (fs : list Field) (j : nat) (r0 : Regs64) : Regs64 := fun f =>
  if decide (f = rcx) then r0 rcx - Z.of_nat j
  else if decide (f ∈ fs) then wadd (r0 f) (Z.of_nat j * Z.of_nat (SIZE sk)) else r0 f.

Lemma counted_0 sk fs r0 f : (forall f, f ∈ fs -> is_word 64 (r0 f)) -> counted sk fs 0 r0 f = r0 f.
Proof.
  intros Hw. unfold counted. repeat case_decide; subst; [lia | | reflexivity].
  rewrite wadd_small; rewrite ?Z.mul_0_l, Z.add_0_r; auto.
Qed.

(** Decide which register a lookup in nested updates asks for. *)
Ltac in_cases :=
  repeat match goal with
  | H : _ ∈ _ :: _ |- _ => apply elem_of_cons in H as [H | H]
  | H : _ ∈ [] |- _ => exfalso; now apply not_elem_of_nil in H
  | H : ¬ (_ ∈ _ :: _) |- _ => apply not_elem_of_cons in H as [? H]
  end.
Ltac reg_split := repeat case_decide; in_cases; subst; try reflexivity; try congruence.
Ltac reg_cases :=
  intros ?f; unfold counted, step_reg, upd; reg_split;
  rewrite ?wadd_wadd, ?Nat2Z.inj_succ; try (f_equal; lia); try lia.

Section Run.
Context ins mc (fuel : nat) sk (Hsse : sse_form ins = false) (Hk : element_kind (mnemonic ins) = Some sk).
Context (Hwf : wf_emu (emu mc)) (Hf : forward (emu mc)) (Hp : is_word 64 (pos (emu mc))).
Context (count : nat) (Hcount : regs (emu mc) rcx = Z.of_nat count) (Hpos : (0 < count <= fuel)%nat).
#[local] Notation e0 := (emu mc).
#[local] Notation r0 := (regs (emu mc)).
#[local] Notation esz := (Z.of_nat (SIZE sk)).
#[local] Notation total := (Z.of_nat count * Z.of_nat (SIZE sk)).

Lemma element_not_oword : sk <> Oword.
Proof. clear -Hk. intros ->. destruct (mnemonic ins); discriminate. Qed.

Lemma field_word f : f ∈ [rdi; rsi; rax; rcx] -> is_word 64 (r0 f).
Proof.
  clear -Hwf. destruct Hwf as [Hr _]. intros Hin.
  repeat (apply elem_of_cons in Hin as [-> | Hin]; [first [apply (Hr rdi) | apply (Hr rsi) | apply (Hr rax) | apply (Hr rcx)] |]).
  now apply not_elem_of_nil in Hin.
Qed.

(** RCX counts one element down. *)
Lemma reaches_count (r r' : Regs64) a bs st p e :
  reaches e0 r a bs st p e -> (forall f, r' f = upd rcx (r rcx - 1) r f) ->
  reaches e0 r' a bs st p (set_field rcx (regs e rcx - 1) e).
Proof. intros Hr E. eapply reaches_ext; [exact E |]. rewrite (re_regs Hr rcx). now apply reaches_field. Qed.

Lemma start_counted fs a :
  (forall f, f ∈ fs -> f ∈ [rdi; rsi; rax; rcx]) ->
  reaches e0 (counted sk fs 0 r0) a [] (observe (flags e0)) (pos e0) e0.
Proof.
  clear -Hwf. intros Hin. apply (reaches_empty _ _ 0). eapply reaches_ext; [|now apply reaches_start].
  intros f. apply counted_0. intros g Hg. apply field_word, Hin, Hg.
Qed.

(** *** STOS *)

Lemma stos_slow :
  family_of (mnemonic ins) = Some STOS -> r0 rdi + total <= 2 ^ 64 ->
  in_region (emaps e0) Mem.can_write (r0 rdi) (count * SIZE sk) ->
  exists e2, execute_x86_rep_fully fuel ins mc = Ret (Some (true, set_rep None (set_emu e2 mc)))
    /\ reaches e0 (counted sk [rdi] count r0) (r0 rdi)
         (concat (replicate count (to_le_bytes (SIZE sk) (accumulator sk r0)))) (observe (flags e0)) (pos e0) e2.
Proof.
  intros Hfam Hend Hreg. pose proof (sk_size_pos sk) as Hsz. pose proof (field_word rdi ltac:(set_solver)) as Hdi.
  set (u := to_le_bytes (SIZE sk) (accumulator sk r0)).
  assert (len u = esz) as Hu by (unfold u; now rewrite length_to_le_bytes).
  destruct (rep_loop_movement ins
    (fun j e => reaches e0 (counted sk [rdi] j r0) (r0 rdi) (concat (replicate j u)) (observe (flags e0)) (pos e0) e) count)
    with (n := count) (j := O) (fuel := fuel) (c := 0) (mc := set_rep (Some 0) mc) as (e' & q & E & HI);
    [now destruct (mnemonic ins) | | lia | lia | cbn; apply start_counted; set_solver | exact Hcount | reflexivity |
     exists e'; split; [exact (fully_from_loop _ _ _ _ _ E) | exact HI]].
  intros j e Hj HI. pose proof (len_concat_replicate j u) as Hlen. rewrite Hu in Hlen.
  destruct (stos_step ins sk e0 _ _ _ _ _ e Hsse Hfam Hk HI Hf) as (e' & E & Hr'); [apply Hdi | | |].
  - unfold counted. rewrite decide_False, decide_True by (discriminate || set_solver).
    rewrite Hlen. apply wadd_small. unfold is_word in *. nia.
  - rewrite Hlen, <- Nat2Z.inj_mul. eapply in_region_reachable; [apply Hwf | lia | | | exact Hreg]; nia.
  - exists e'. split_and!; [exact E | now rewrite (re_regs Hr'), (re_regs HI) |].
    replace (concat (replicate (Datatypes.S j) u)) with (concat (replicate j u) ++ to_le_bytes (SIZE sk) (accumulator sk (counted sk [rdi] j r0))).
    + eapply reaches_count; [exact Hr' |]. reg_cases.
    + rewrite replicate_S_end, concat_app. cbn. rewrite app_nil_r. reflexivity.
Qed.

Lemma stos_bulk :
  family_of (mnemonic ins) = Some STOS -> r0 rdi + total <= 2 ^ 64 ->
  bulk_ok ins fuel mc (fast_stos sk (Z.of_nat count) total (r0 rdi) (r0 rdi + total - 1) e0).
Proof.
  intros Hfam Hend. pose proof (sk_size_pos sk) as Hsz. pose proof (field_word rdi ltac:(set_solver)) as Hdi.
  unfold fast_stos. rewrite <- Nat2Z.inj_mul in *.
  destruct (spans_ok Mem.can_write (r0 rdi) (count * SIZE sk) e0 Hwf) as (t & b & Ht & -> & Hb); [nia |].
  cbn [mbind outcome_bind]. destruct b; [right | left; cbn [negb]; eauto]. cbn [negb].
  specialize (Hb eq_refl). rewrite Nat2Z.id.
  pose proof (retlb_wf t e0 Hwf Ht) as Hwt. change (regs (retlb t e0)) with r0.
  rewrite (unit_bytes sk r0 element_not_oword (wf_emu_regs _ Hwf)).
  set (buf := concat _).
  assert (length buf = (count * SIZE sk)%nat) as Hlen.
  { apply Nat2Z.inj. unfold buf. rewrite len_concat_replicate, length_to_le_bytes. lia. }
  assert (is_bytes buf) as Hbytes.
  { unfold buf, is_bytes. clear. induction count; [constructor |]. cbn. apply Forall_app. split; [apply to_le_bytes_bytes | auto]. }
  destruct (write_bytes_spec (r0 rdi) buf (emaps (retlb t e0))) as (m' & E & Hw & Hs);
    [apply Hwt | apply Hdi | lia | exact Hbytes |].
  rewrite Hlen, in_region_writable in E, Hs; [| apply Hwt | nia | exact Hb | apply Hwt | nia | exact Hb].
  rewrite <- Hlen, firstn_all in Hs. unfold on_maps. rewrite E. cbn [mbind outcome_bind].
  destruct stos_slow as (e2 & E2 & Hr2); auto; [now rewrite <- Nat2Z.inj_mul |].
  exists (Z.of_nat count), (counted sk [rdi] count r0), (r0 rdi), buf, (observe (flags e0)). eexists. exists e2.
  split_and!; [reflexivity | exact E2 | | | lia | unfold counted; now rewrite decide_True by reflexivity
              | unfold counted; now rewrite !decide_False by (discriminate || set_solver)].
  - eapply reaches_ext; [|apply reaches_field, reaches_field; split; auto; reflexivity].
    cbn [regs retlb set_emaps]. rewrite Nat2Z.inj_mul. reg_cases.
  - replace (Z.of_nat count * extra_pos (mnemonic ins)) with 0 by (destruct (mnemonic ins); (discriminate || (cbn; lia))).
    rewrite wadd_small, Z.add_0_r by (now rewrite Z.add_0_r). exact Hr2.
Qed.

(** *** MOVS *)

Lemma movs_slow src :
  family_of (mnemonic ins) = Some MOVS -> r0 rdi + total <= 2 ^ 64 -> r0 rsi + total <= 2 ^ 64 ->
  r0 rdi + total <= r0 rsi \/ r0 rsi + total <= r0 rdi ->
  in_region (emaps e0) Mem.can_write (r0 rdi) (count * SIZE sk) ->
  in_region (emaps e0) Mem.can_read (r0 rsi) (count * SIZE sk) ->
  bytes_of (emaps e0) (r0 rsi) (count * SIZE sk) = Some src ->
  exists e2, execute_x86_rep_fully fuel ins mc = Ret (Some (true, set_rep None (set_emu e2 mc)))
    /\ reaches e0 (counted sk [rdi; rsi] count r0) (r0 rdi) src (observe (flags e0))
         (wadd (pos e0) (Z.of_nat count * extra_pos (mnemonic ins))) e2.
Proof.
  intros Hfam Hend Hsend Hdis Hreg Hsreg Hsrc. pose proof (sk_size_pos sk) as Hsz.
  pose proof (field_word rdi ltac:(set_solver)) as Hdi. pose proof (field_word rsi ltac:(set_solver)) as Hsi.
  destruct (bytes_of_bytes _ _ _ _ (wf_emu_maps _ Hwf) Hsrc) as [Hby Hlen]. unfold is_word in Hdi, Hsi.
  destruct (rep_loop_movement ins
    (fun j e => reaches e0 (counted sk [rdi; rsi] j r0) (r0 rdi) (take (j * SIZE sk) src) (observe (flags e0))
                  (wadd (pos e0) (Z.of_nat j * extra_pos (mnemonic ins))) e) count)
    with (n := count) (j := O) (fuel := fuel) (c := 0) (mc := set_rep (Some 0) mc) as (e' & q & E & HI);
    [now destruct (mnemonic ins) | | lia | lia | | exact Hcount | reflexivity |].
  - intros j e Hj HI. assert (len (take (j * SIZE sk) src) = Z.of_nat j * esz) as Hl
      by (rewrite length_take; nia).
    assert (counted sk [rdi; rsi] j r0 rsi = r0 rsi + Z.of_nat (j * SIZE sk)) as Esi.
    { unfold counted. rewrite decide_False, decide_True by (discriminate || set_solver).
      rewrite Nat2Z.inj_mul. apply wadd_small. unfold is_word. nia. }
    destruct (movs_step ins sk e0 _ _ _ _ _ e (take (SIZE sk) (drop (j * SIZE sk) src)) Hsse Hfam Hk HI Hf)
      as (e' & E & Hr'); [apply Hdi | | lia | | | | nia | apply wrap_word; lia |].
    + unfold counted. rewrite decide_False, decide_True by (discriminate || set_solver).
      rewrite Hl. apply wadd_small. unfold is_word. nia.
    + rewrite Hl, <- Nat2Z.inj_mul. eapply in_region_reachable; [apply Hwf | lia | | | exact Hreg]; nia.
    + rewrite Esi. eapply in_region_reachable; [apply Hwf | lia | | | exact Hsreg]; nia.
    + rewrite Esi. eapply bytes_of_part; [exact Hsrc | nia].
    + exists e'. split_and!; [exact E | now rewrite (re_regs Hr'), (re_regs HI) |].
      rewrite take_take_drop, wadd_wadd in Hr'. replace (Datatypes.S j * SIZE sk)%nat with (j * SIZE sk + SIZE sk)%nat by lia.
      replace (Z.of_nat (Datatypes.S j) * extra_pos (mnemonic ins))
        with (Z.of_nat j * extra_pos (mnemonic ins) + extra_pos (mnemonic ins)) by lia.
      eapply reaches_count; [exact Hr' |]. reg_cases.
  - cbn [emu set_rep]. rewrite Z.mul_0_l, Nat.mul_0_l, take_0, wadd_small, Z.add_0_r by (now rewrite Z.add_0_r).
    apply start_counted. set_solver.
  - exists e'. split; [exact (fully_from_loop _ _ _ _ _ E) |]. now rewrite take_ge in HI by lia.
Qed.

Lemma movs_bulk :
  family_of (mnemonic ins) = Some MOVS -> r0 rdi + total <= 2 ^ 64 -> r0 rsi + total <= 2 ^ 64 ->
  bulk_ok ins fuel mc
    (fast_movs (Z.of_nat count) total (r0 rdi) (r0 rdi + total - 1) (r0 rsi) (r0 rsi + total - 1) e0).
Proof.
  intros Hfam Hend Hsend. pose proof (sk_size_pos sk) as Hsz.
  pose proof (field_word rdi ltac:(set_solver)) as Hdi. pose proof (field_word rsi ltac:(set_solver)) as Hsi.
  unfold fast_movs. destruct ((r0 rdi <=? _) && (r0 rsi <=? _)) eqn:Hov.
  { left. exists (tlb (emaps e0)). split; [apply Hwf |]. now destruct mc as [[? ? []]]. }
  assert (r0 rdi + total <= r0 rsi \/ r0 rsi + total <= r0 rdi) as Hdis by lia. clear Hov.
  rewrite <- Nat2Z.inj_mul in *.
  destruct (spans_ok Mem.can_read (r0 rsi) (count * SIZE sk) e0 Hwf) as (t & b & Ht & -> & Hb); [nia |].
  cbn [mbind outcome_bind]. pose proof (retlb_wf t e0 Hwf Ht) as Hwt.
  destruct (spans_ok Mem.can_write (r0 rdi) (count * SIZE sk) _ Hwt) as (t2 & b2 & Ht2 & -> & Hb2); [nia |].
  cbn [mbind outcome_bind]. change (retlb t2 (retlb t e0)) with (retlb t2 e0).
  pose proof (retlb_wf t2 e0 Hwf Ht2) as Hwt2.
  destruct b, b2; try (left; cbn [negb orb]; now eauto). right. cbn [negb orb].
  specialize (Hb eq_refl). specialize (Hb2 eq_refl). rewrite Nat2Z.id.
  destruct (read_bytes_region (emaps (retlb t2 e0)) (r0 rsi) (count * SIZE sk)) as (t3 & src & Ht3 & Hsrc & E3);
    [apply Hwt2 | nia | apply Hsi | lia | exact Hb |].
  destruct (bytes_of_bytes _ _ _ _ (wf_emu_maps _ Hwt2) Hsrc) as [Hby Hlen].
  pose proof (retlb_wf t3 e0 Hwf Ht3) as Hwt3.
  destruct (write_bytes_spec (r0 rdi) src (emaps (retlb t3 e0))) as (m' & E & Hw & Hs);
    [apply Hwt3 | apply Hdi | lia | exact Hby |].
  rewrite Hlen, in_region_writable in E, Hs; [| apply Hwt3 | nia | exact Hb2 | apply Hwt3 | nia | exact Hb2].
  rewrite <- Hlen, firstn_all in Hs. unfold on_maps. rewrite E3. cbn [mbind outcome_bind].
  change (set_emaps (set_tlb t3 (emaps (retlb t2 e0))) (retlb t2 e0)) with (retlb t3 e0).
  rewrite E. cbn [mbind outcome_bind].
  destruct (movs_slow src) as (e2 & E2 & Hr2); auto; [now rewrite <- Nat2Z.inj_mul.. |].
  exists (Z.of_nat count), (counted sk [rdi; rsi] count r0), (r0 rdi), src, (observe (flags e0)). eexists. exists e2.
  split_and!; [reflexivity | exact E2 | | exact Hr2 | lia | unfold counted; now rewrite decide_True by reflexivity
              | unfold counted; now rewrite !decide_False by (discriminate || set_solver)].
  eapply reaches_ext; [|do 3 apply reaches_field; split; auto; reflexivity].
  cbn [regs retlb set_emaps]. rewrite Nat2Z.inj_mul. reg_cases.
Qed.

(** *** LODS *)

(** The registers after [j] loads from the bytes [bs]. *)
Definition lods_regs (bs : bytes) (j : nat) : Regs64 :=
  counted sk [rsi] j
    (match j with
     | O => r0
     | Datatypes.S i => set_accumulator sk (from_le_bytes (take (SIZE sk) (drop (i * SIZE sk) bs))) r0
     end).

Lemma element_word bs i :
  is_bytes bs -> ((i + 1) * SIZE sk <= length bs)%nat ->
  is_word (bits_of (SIZE sk)) (from_le_bytes (take (SIZE sk) (drop (i * SIZE sk) bs)))
  /\ le (take (SIZE sk) (drop (i * SIZE sk) bs)) = from_le_bytes (take (SIZE sk) (drop (i * SIZE sk) bs)).
Proof.
  clear -Hk. intros Hb Hl.
  assert (is_bytes (take (SIZE sk) (drop (i * SIZE sk) bs))) as Hb' by (now apply Forall_take, Forall_drop).
  assert (length (take (SIZE sk) (drop (i * SIZE sk) bs)) = SIZE sk) as Hs by (rewrite length_take, length_drop; nia).
  split; [rewrite <- Hs at 1; now apply from_le_bytes_word |]. apply le_from_le_bytes; [exact Hb' |].
  pose proof element_not_oword. destruct sk; cbn [SIZE] in *; (lia || congruence).
Qed.

Lemma set_accumulator_other v (r : Regs64) f : f <> rax -> set_accumulator sk v r f = r f.
Proof. intros Hf'. unfold set_accumulator, set_al, set_ax, set_eax. destruct sk; now apply upd_other. Qed.

Lemma lods_slow bs :
  family_of (mnemonic ins) = Some LODS -> r0 rsi + total <= 2 ^ 64 ->
  in_region (emaps e0) Mem.can_read (r0 rsi) (count * SIZE sk) ->
  bytes_of (emaps e0) (r0 rsi) (count * SIZE sk) = Some bs ->
  exists e2, execute_x86_rep_fully fuel ins mc = Ret (Some (true, set_rep None (set_emu e2 mc)))
    /\ reaches e0 (lods_regs bs count) 0 [] (observe (flags e0)) (pos e0) e2.
Proof.
  intros Hfam Hsend Hsreg Hsrc. pose proof (sk_size_pos sk) as Hsz. pose proof element_not_oword as Ho.
  pose proof (field_word rsi ltac:(set_solver)) as Hsi. pose proof (field_word rax ltac:(set_solver)) as Hax.
  destruct (bytes_of_bytes _ _ _ _ (wf_emu_maps _ Hwf) Hsrc) as [Hby Hlen]. unfold is_word in Hsi.
  destruct (rep_loop_movement ins
    (fun j e => reaches e0 (lods_regs bs j) 0 [] (observe (flags e0)) (pos e0) e) count)
    with (n := count) (j := O) (fuel := fuel) (c := 0) (mc := set_rep (Some 0) mc) as (e' & q & E & HI);
    [now destruct (mnemonic ins) | | lia | lia | cbn; apply start_counted; set_solver | exact Hcount | reflexivity |
     exists e'; split; [exact (fully_from_loop _ _ _ _ _ E) | exact HI]].
  intros j e Hj HI.
  assert (lods_regs bs j rsi = r0 rsi + Z.of_nat (j * SIZE sk)) as Esi.
  { unfold lods_regs, counted. rewrite decide_False, decide_True by (discriminate || set_solver).
    rewrite Nat2Z.inj_mul. destruct j; rewrite ?set_accumulator_other by discriminate; apply wadd_small; unfold is_word; nia. }
  destruct (lods_step ins sk e0 _ _ _ _ e (take (SIZE sk) (drop (j * SIZE sk) bs)) Hsse Hfam Hk HI Hf)
    as (e' & E & Hr'); [lia | | |].
  - rewrite Esi. eapply in_region_reachable; [apply Hwf | lia | | | exact Hsreg]; nia.
  - rewrite Esi. eapply bytes_of_part; [exact Hsrc | nia].
  - exists e'. split_and!; [exact E | rewrite (re_regs Hr'), (re_regs HI) |].
    { unfold step_reg. rewrite upd_other by discriminate. now apply set_accumulator_other. }
    eapply reaches_count; [exact Hr' |]. intros f. destruct (element_word bs j Hby ltac:(nia)) as [Hw _].
    apply (word_64_of sk _ Ho) in Hw. set (v := from_le_bytes _) in *. unfold lods_regs at 1. fold v.
    assert (set_accumulator sk v (lods_regs bs j) rax = set_accumulator sk v r0 rax) as Eax.
    { destruct j as [|i]; [apply set_accumulator_ext; intros g; apply counted_0; intros h Hh; apply field_word; set_solver |].
      destruct (element_word bs i Hby ltac:(nia)) as [Hw' _]. apply (word_64_of sk _ Ho) in Hw'.
      apply (set_accumulator_twice sk _ v r0 _ rax Ho Hax Hw' Hw); [reflexivity | congruence]. }
    destruct (decide (f = rax)) as [-> | Hfa].
    + unfold step_reg, counted, upd. rewrite !decide_False by (discriminate || set_solver). symmetry. exact Eax.
    + assert (forall g, g <> rax -> set_accumulator sk v (lods_regs bs j) g = counted sk [rsi] j r0 g) as Eo.
      { intros g Hg. rewrite set_accumulator_other by exact Hg. unfold lods_regs.
        destruct j; [reflexivity |]. unfold counted. now rewrite !set_accumulator_other by (exact Hg || discriminate). }
      unfold step_reg, upd. rewrite !Eo by (exact Hfa || discriminate). unfold counted.
      rewrite !set_accumulator_other by (exact Hfa || discriminate).
      reg_split; rewrite ?wadd_wadd; try (f_equal; lia); lia.
Qed.

Lemma lods_bulk :
  family_of (mnemonic ins) = Some LODS -> r0 rsi + total <= 2 ^ 64 ->
  bulk_ok ins fuel mc (fast_lods sk (Z.of_nat count) total (r0 rsi) (r0 rsi + total - 1) e0).
Proof.
  intros Hfam Hsend. pose proof (sk_size_pos sk) as Hsz. pose proof (field_word rsi ltac:(set_solver)) as Hsi.
  unfold fast_lods. rewrite <- Nat2Z.inj_mul in *.
  destruct (spans_ok Mem.can_read (r0 rsi) (count * SIZE sk) e0 Hwf) as (t & b & Ht & -> & Hb); [nia |].
  cbn [mbind outcome_bind]. destruct b; [right | left; cbn [negb]; eauto]. cbn [negb].
  specialize (Hb eq_refl). rewrite Nat2Z.id. pose proof (retlb_wf t e0 Hwf Ht) as Hwt.
  destruct (read_bytes_region (emaps (retlb t e0)) (r0 rsi) (count * SIZE sk)) as (t2 & bs & Ht2 & Hbs & E);
    [apply Hwt | nia | apply Hsi | lia | exact Hb |].
  destruct (bytes_of_bytes _ _ _ _ (wf_emu_maps _ Hwt) Hbs) as [Hby Hlen].
  unfold on_maps. rewrite E. cbn [mbind outcome_bind].
  replace (Z.to_nat ((Z.of_nat count - 1) * esz)) with ((count - 1) * SIZE sk)%nat
    by (replace (Z.of_nat count - 1) with (Z.of_nat (count - 1)) by lia; now rewrite <- Nat2Z.inj_mul, Nat2Z.id).
  rewrite (index_element sk) by (replace (count - 1 + 1)%nat with count by lia; lia). cbn [mbind outcome_bind].
  destruct (element_word bs (count - 1) Hby) as [_ ->]; [replace (count - 1 + 1)%nat with count by lia; lia |].
  destruct (lods_slow bs) as (e2 & E2 & Hr2); auto; [now rewrite <- Nat2Z.inj_mul |].
  exists (Z.of_nat count), (lods_regs bs count), 0, [], (observe (flags e0)). eexists. exists e2.
  assert (forall f, f <> rax -> f <> rsi -> f <> rcx -> lods_regs bs count f = r0 f) as Hkeep.
  { intros f Ha Hs Hc. unfold lods_regs, counted. rewrite !decide_False by (assumption || set_solver).
    destruct count; [reflexivity |]. now apply set_accumulator_other. }
  split_and!; [reflexivity | exact E2 | | | lia | | apply Hkeep; discriminate].
  - apply (reaches_ext _ (upd rcx 0 (upd rsi (wadd (r0 rsi) total)
             (set_accumulator sk (from_le_bytes (take (SIZE sk) (drop ((count - 1) * SIZE sk) bs))) r0)))).
    + intros f. unfold lods_regs, counted, upd. destruct count as [|n]; [lia |]. cbn [Nat.sub]. rewrite Nat.sub_0_r.
      rewrite (set_accumulator_other _ _ rcx) by discriminate.
      reg_split; try lia.
      now rewrite set_accumulator_other by discriminate.
    + change (set_emaps (set_tlb t2 (emaps (retlb t e0))) (retlb t e0)) with (retlb t2 e0).
      rewrite Nat2Z.inj_mul. apply reaches_field, reaches_field. unfold set_acc.
      eapply reaches_set_regs, (reaches_retlb _ _ _ _ _ _ _ t2 Ht2), (reaches_start e0 Hwf).
  - replace (Z.of_nat count * extra_pos (mnemonic ins)) with 0 by (destruct (mnemonic ins); (discriminate || (cbn; lia))).
    rewrite wadd_small, Z.add_0_r by (now rewrite Z.add_0_r). exact Hr2.
  - unfold lods_regs, counted. rewrite decide_True by reflexivity. destruct count; [reflexivity |].
    now rewrite set_accumulator_other by discriminate.
Qed.

(** *** SCAS *)

(** The scan and the loop, from element [k] on. *)
Lemma scas_lockstep bs : 
  family_of (mnemonic ins) = Some SCAS -> wf_prefixes ins -> has_string_prefix ins = true ->
  r0 rdi + total <= 2 ^ 64 ->
  in_region (emaps e0) Mem.can_read (r0 rdi) (count * SIZE sk) ->
  bytes_of (emaps e0) (r0 rdi) (count * SIZE sk) = Some bs ->
  forall n k fuel c st mc', (0 < n)%nat -> count = (k + n)%nat -> (n <= fuel)%nat -> rep mc' = Some c ->
  reaches e0 (counted sk [rdi] k r0) 0 [] st (pos e0) (emu mc') ->
  exists term k' e2,
    scan n sk bs (accumulator sk r0) (has_repne_prefix ins) (Z.of_nat count) (Z.of_nat k) = Ret (term, Z.of_nat k')
    /\ rep_loop fuel ins true mc' = Ret (Some (true, set_rep None (set_emu e2 mc')))
    /\ (k < k')%nat /\ is_word (bits_of (SIZE sk)) term
    /\ reaches e0 (counted sk [rdi] k' r0) 0 [] (sub_status sk (accumulator sk r0) term) (pos e0) e2.
Proof.
  intros Hfam [Hrep Hex] Hpre Hend Hreg Hbs. pose proof (sk_size_pos sk) as Hsz. pose proof element_not_oword as Ho.
  pose proof (field_word rdi ltac:(set_solver)) as Hdi. pose proof (field_word rax ltac:(set_solver)) as Hax.
  destruct (bytes_of_bytes _ _ _ _ (wf_emu_maps _ Hwf) Hbs) as [Hby Hlen]. unfold is_word in Hdi.
  induction n as [|n IH]; intros k fuel' c st mc' Hn Hkn Hfuel Hc Hr; [lia |].
  destruct fuel' as [|fuel']; [lia |].
  assert ((k + 1) * SIZE sk <= length bs)%nat as Hin by nia.
  destruct (element_word bs k Hby Hin) as [Hw Hle].
  assert (counted sk [rdi] k r0 rdi = r0 rdi + Z.of_nat (k * SIZE sk)) as Edi.
  { unfold counted. rewrite decide_False, decide_True by (discriminate || set_solver).
    rewrite Nat2Z.inj_mul. apply wadd_small. unfold is_word. nia. }
  assert (counted sk [rdi] k r0 rcx = Z.of_nat (Datatypes.S n)) as Ercx
    by (unfold counted; rewrite decide_True by reflexivity; lia).
  set (v := from_le_bytes _) in *.
  destruct (scas_step ins sk e0 _ _ _ _ (emu mc') (take (SIZE sk) (drop (k * SIZE sk) bs)) Hsse Hfam Hk Hr Hf)
    as (e' & E & Hr'); [exact Hax | lia | | |].
  { rewrite Edi. eapply in_region_reachable; [apply Hwf | lia | | | exact Hreg]; nia. }
  { rewrite Edi. eapply bytes_of_part; [exact Hbs | nia]. }
  fold v in Hr'. rewrite (accumulator_ext sk _ r0) in Hr' by reflexivity.
  pose proof (accumulator_word sk r0 Ho Hax) as Hacc.
  assert (flag_zf e' = (accumulator sk r0 =? v)) as Hz.
  { transitivity (s_zf (observe (flags e'))); [reflexivity |]. rewrite (re_status Hr'). now apply sub_status_zf. }
  assert (ends_early ins e' = if has_repne_prefix ins then accumulator sk r0 =? v else negb (accumulator sk r0 =? v)) as Hstop.
  { unfold ends_early, has_string_prefix in *. rewrite Hrep in Hpre. rewrite Hz.
    replace (is_string_comparison (mnemonic ins)) with true by (destruct (mnemonic ins); (reflexivity || discriminate)).
    destruct (has_repe_prefix ins), (has_repne_prefix ins); try discriminate; cbn; rewrite ?orb_false_r; reflexivity. }
  assert (regs e' rcx = Z.of_nat (Datatypes.S n)) as Er by (rewrite (re_regs Hr'); exact Ercx).
  rewrite (rep_loop_step fuel' ins true mc' c e')
    by (auto; rewrite ?(re_regs Hr), ?Er; auto; try lia; destruct (mnemonic ins); (reflexivity || discriminate)).
  cbn [scan]. rewrite <- Nat2Z.inj_mul, Nat2Z.id, (index_element sk bs k Hin). cbn [mbind outcome_bind]. rewrite Hle. fold v.
  rewrite Hstop, Er. replace (Z.of_nat k + 1) with (Z.of_nat (Datatypes.S k)) by lia.
  assert (reaches e0 (counted sk [rdi] (Datatypes.S k) r0) 0 [] (sub_status sk (accumulator sk r0) v) (pos e0)
            (set_field rcx (Z.of_nat (Datatypes.S n) - 1) e')) as Hr2
    by (rewrite <- Er; eapply reaches_count; [exact Hr' |]; reg_cases).
  replace (Z.of_nat (Datatypes.S k) =? Z.of_nat count) with (Z.of_nat (Datatypes.S n) =? 1)
    by (destruct (Z.eqb_spec (Z.of_nat (Datatypes.S n)) 1), (Z.eqb_spec (Z.of_nat (Datatypes.S k)) (Z.of_nat count)); lia).
  rewrite (orb_comm (if has_repne_prefix ins then _ else _)).
  destruct (_ || _) eqn:Hd.
  - exists v, (Datatypes.S k). eexists. split_and!; [reflexivity | reflexivity | lia | exact Hw | exact Hr2].
  - apply orb_false_iff in Hd as [Hd1%Z.eqb_neq Hd2].
    destruct (IH (Datatypes.S k) fuel' (c + 1) (sub_status sk (accumulator sk r0) v)
      (set_rep (Some (c + 1)) (set_emu (set_field rcx (Z.of_nat (Datatypes.S n) - 1) e') mc')))
      as (term & k' & e2 & Es & El & Hk' & Ht & Hr3); [lia | lia | lia | reflexivity | exact Hr2 |].
    exists term, k', e2. split_and!; [exact Es | exact El | lia | exact Ht | exact Hr3].
Qed.

Lemma scas_bulk :
  family_of (mnemonic ins) = Some SCAS -> wf_prefixes ins -> has_string_prefix ins = true ->
  r0 rdi + total <= 2 ^ 64 ->
  bulk_ok ins fuel mc
    (fast_scas sk (has_repne_prefix ins) (Z.of_nat count) total (r0 rdi) (r0 rdi + total - 1) e0).
Proof.
  intros Hfam Hpf Hpre Hend. pose proof (sk_size_pos sk) as Hsz. pose proof element_not_oword as Ho.
  pose proof (field_word rdi ltac:(set_solver)) as Hdi. pose proof (field_word rax ltac:(set_solver)) as Hax.
  unfold fast_scas. rewrite <- Nat2Z.inj_mul in *.
  destruct (spans_ok Mem.can_read (r0 rdi) (count * SIZE sk) e0 Hwf) as (t & b & Ht & -> & Hb); [nia |].
  cbn [mbind outcome_bind]. destruct b; [right | left; cbn [negb]; eauto]. cbn [negb].
  specialize (Hb eq_refl). rewrite !Nat2Z.id. pose proof (retlb_wf t e0 Hwf Ht) as Hwt.
  destruct (read_bytes_region (emaps (retlb t e0)) (r0 rdi) (count * SIZE sk)) as (t2 & bs & Ht2 & Hbs & E);
    [apply Hwt | nia | apply Hdi | lia | exact Hb |].
  unfold on_maps. rewrite E. cbn [mbind outcome_bind].
  change (regs (set_emaps _ (retlb t e0))) with r0.
  rewrite low_bits, <- (accumulator_low sk r0 Ho (wf_emu_regs _ Hwf)) by assumption.
  destruct (scas_lockstep bs Hfam Hpf Hpre) with (n := count) (k := O) (fuel := fuel) (c := 0)
    (st := observe (flags e0)) (mc' := set_rep (Some 0) mc) as (term & k & e2 & Es & El & Hk' & Hterm & Hr2);
    auto; [now rewrite <- Nat2Z.inj_mul | lia | lia | apply start_counted; set_solver |].
  change 0 with (Z.of_nat 0) at 1. rewrite Es. cbn [mbind outcome_bind].
  destruct (sub_of_flags sk (accumulator sk r0) term (materialize_lazy (flags e0)) Ho) as [Hst Hctl];
    [now apply accumulator_word | exact Hterm |].
  exists (Z.of_nat k), (counted sk [rdi] k r0), 0, [], (sub_status sk (accumulator sk r0) term). eexists. exists e2.
  split_and!; [reflexivity | exact (fully_from_loop _ _ _ _ None El) | | | lia
              | unfold counted; now rewrite decide_True by reflexivity
              | unfold counted; now rewrite !decide_False by (discriminate || set_solver)].
  - pose proof (reaches_retlb _ _ _ _ _ _ _ t2 Ht2 (reaches_start e0 Hwf)) as Hr.
    apply (reaches_ext _ (upd rdi (wadd (r0 rdi) (Z.of_nat k * esz)) (upd rcx (Z.of_nat count - Z.of_nat k) r0)));
      [reg_cases |].
    apply reaches_field, reaches_field. unfold set_sub_flags, flags_mut. destruct Hr. split; auto. cbn.
    rewrite Hctl. apply (materialize_transparent (flags e0)).
  - replace (Z.of_nat k * extra_pos (mnemonic ins)) with 0 by (destruct (mnemonic ins); (discriminate || (cbn; lia))).
    rewrite wadd_small, Z.add_0_r by (now rewrite Z.add_0_r). exact Hr2.
Qed.

End Run.

(** *** Any of them *)

Lemma by_family {A} (mn : Mnemonic) (a b c d n : A) :
  match mn with
  | Stosb | Stosw | Stosd | Stosq => a
  | Movsb | Movsw | Movsd | Movsq => b
  | Scasb | Scasw | Scasd | Scasq => c
  | Lodsb | Lodsw | Lodsd | Lodsq => d
  | _ => n
  end = match family_of mn with
        | Some STOS => a | Some MOVS => b | Some SCAS => c | Some LODS => d | _ => n
        end.
Proof. destruct mn; reflexivity. Qed.

Lemma element_bulk ins mc fuel sk count :
  sse_form ins = false -> element_kind (mnemonic ins) = Some sk -> wf_emu (emu mc) -> forward (emu mc) ->
  is_word 64 (pos (emu mc)) -> regs (emu mc) rcx = Z.of_nat count -> (0 < count <= fuel)%nat ->
  wf_prefixes ins -> has_string_prefix ins = true ->
  bulk_ok ins fuel mc (fast_element ins sk (Z.of_nat count) (emu mc)).
Proof.
  intros Hsse Hk Hwf Hf Hp Hcount Hpos Hpf Hpre. assert (bulk_ok ins fuel mc (Ret (None, emu mc))) as Hnone.
  { left. exists (tlb (emaps (emu mc))). split; [apply Hwf |]. now destruct mc as [[? ? []]]. }
  unfold fast_element, checked_mul, checked_add.
  destruct (_ * _ <? _) eqn:Ht; [|exact Hnone]. destruct (regs (emu mc) rdi + _ <? _) eqn:Hd; [|exact Hnone].
  destruct (regs (emu mc) rsi + _ <? _) eqn:Hs; [|exact Hnone]. rewrite !Z.add_sub_assoc.
  rewrite by_family. destruct (family_of (mnemonic ins)) as [[]|] eqn:Hfam; try exact Hnone.
  - apply movs_bulk; auto; lia.
  - apply stos_bulk; auto; lia.
  - apply lods_bulk; auto; lia.
  - apply scas_bulk; auto; lia.
Qed.

(** What the guest can observe of a state, but for the instruction pointer. *)
Record agree e (e' : Emu S W) : Prop := {
  ag_regs : forall f, f <> rip -> regs e' f = regs e f;
  ag_flags : flags_equiv (flags e') (flags e);
  ag_bytes : forall a, byte_of (emaps e') a = byte_of (emaps e) a;
  ag_layout : forall a, layout (emaps e') a = layout (emaps e) a;
  ag_rest : rest e' = rest e }.

Lemma reaches_agree e0 r a bs st p p' e e' :
  reaches e0 r a bs st p e -> reaches e0 r a bs st p' e' -> agree e e'.
Proof.
  intros [Hr _ [Hb Hl] Hs Hc _ Ht] [Hr' _ [Hb' Hl'] Hs' Hc' _ Ht']. split.
  - intros f _. now rewrite Hr, Hr'.
  - split; congruence.
  - intros c. now rewrite Hb, Hb'.
  - intros c. now rewrite Hl, Hl'.
  - congruence.
Qed.

(** What the bulk path does to the rest of the machine after [k] elements. *)
Record caught_up (k size : Z) mc (mf ms : Machine S W) : Prop := {
  cu_emu : agree (emu mf) (emu ms);
  cu_count : 0 < k /\ regs (emu ms) rcx = regs (emu mc) rcx - k;
  cu_rep : rep mf = None /\ rep ms = None;
  cu_rip : regs (emu ms) rip = regs (emu mc) rip /\ regs (emu mf) rip = wadd (regs (emu mc) rip) size;
  cu_instructions : instruction_count mf = wadd (instruction_count mc) k;
  cu_pos : pos (emu mf) = wadd (pos (emu mc)) k }.

Lemma fast_rep_ok ins size mc fuel :
  wf_emu (emu mc) -> is_word 64 (pos (emu mc)) -> wf_prefixes ins -> sse_form ins = false ->
  (Z.to_nat (regs (emu mc) rcx) <= fuel)%nat ->
  exists b mf, try_fast_rep_string ins size mc = Ret (b, mf) /\
    if b then exists k ms, execute_x86_rep_fully fuel ins mc = Ret (Some (true, ms))
                /\ caught_up k size mc mf ms
                /\ pos (emu ms) = wadd (pos (emu mc)) (k * extra_pos (mnemonic ins))
    else exists t, wf_tlb t /\ mf = set_emu (retlb t (emu mc)) mc.
Proof.
  intros Hwf Hp Hpf Hsse Hfuel.
  assert (exists t, wf_tlb t /\ mc = set_emu (retlb t (emu mc)) mc) as Hsame.
  { exists (tlb (emaps (emu mc))). split; [apply Hwf |]. now destruct mc as [[? ? []]]. }
  unfold try_fast_rep_string. destruct (has_string_prefix ins) eqn:Hpre; [|exists false, mc; now split].
  destruct (element_kind (mnemonic ins)) as [sk|] eqn:Hk; [|exists false, mc; now split].
  destruct (negb (is_x64 (cfg (emu mc))) || f_df (flags (emu mc))) eqn:Hm; [exists false, mc; now split |].
  destruct (observed mc) eqn:Ho; [exists false, mc; now split |].
  destruct (Z.ltb_spec (regs (emu mc) rcx) 16) as [|Hc]; [exists false, mc; now split |].
  destruct (stops_inside (regs (emu mc) rcx) mc); [exists false, mc; now split |]. cbn [negb].
  assert (forward (emu mc)) as Hf.
  { apply orb_false_iff in Hm as [Hx Hd]. split; [now apply negb_false_iff | exact Hd |].
    unfold observed in Ho. repeat (apply orb_false_iff in Ho as [Ho ?]).
    destruct hook_on_memory_write; [|reflexivity]. rewrite bool_decide_eq_true_2 in * by eauto. discriminate. }
  destruct (element_bulk ins mc fuel sk (Z.to_nat (regs (emu mc) rcx)) Hsse Hk Hwf Hf Hp ltac:(lia) ltac:(lia) Hpf Hpre)
    as [(t & Ht & E) | (k & r & a & bs & st & e1 & e2 & E & E2 & Hr1 & Hr2 & Hk0 & Hrcx & Hrip)];
    rewrite Z2Nat.id in E by lia; rewrite E; cbn [mbind outcome_bind].
  - exists false, (set_emu (retlb t (emu mc)) mc). eauto.
  - eexists true, _. split; [reflexivity |]. exists k, (set_rep None (set_emu e2 mc)). split_and!; [exact E2 | | apply Hr2].
    destruct (reaches_agree _ _ _ _ _ _ _ _ _ Hr1 Hr2) as [Ag Af Ab Al At].
    split; cbn; rewrite ?(re_regs Hr2), ?(re_regs Hr1), ?(re_pos Hr1), ?Hrip, ?upd_same; auto.
    split; auto. intros f Hne. cbn. rewrite upd_other by exact Hne. now apply Ag.
Qed.

(** C16. Whatever the prefix, mnemonic, counts, region layout and settings,
    try_fast_rep_string returns. If it declines, nothing but the TLB has changed; if
    it takes the instruction, the per-element path execute_x86_rep_fully, run from
    the same state, succeeds within rcx iterations and both leave the same
    registers, flags, memory and permissions, the bulk path having also advanced
    rip, the instruction count and the position by the number of elements it
    consumed. *)
Theorem fast_rep_equivalent ins size mc fuel :
  wf_emu (emu mc) -> is_word 64 (pos (emu mc)) -> wf_prefixes ins -> sse_form ins = false ->
  (Z.to_nat (regs (emu mc) rcx) <= fuel)%nat ->
  exists b mf, try_fast_rep_string ins size mc = Ret (b, mf) /\
    if b then exists k ms, execute_x86_rep_fully fuel ins mc = Ret (Some (true, ms))
                /\ caught_up k size mc mf ms
                /\ pos (emu ms) = wadd (pos (emu mc)) (k * extra_pos (mnemonic ins))
    else exists t, wf_tlb t /\ mf = set_emu (retlb t (emu mc)) mc.
Proof. apply fast_rep_ok. Qed.

(** ** What a REP computes *)

(** Element [i] of a run of bytes. *)
Definition element sk (bs : bytes) (i : nat) : Z := from_le_bytes (take (SIZE sk) (drop (i * SIZE sk) bs)).

(** Whether a comparison of the accumulator with an element ends the scan. *)
Definition scan_ends ins (acc v : Z) : bool := if has_repne_prefix ins then acc =? v else negb (acc =? v).

Lemma scan_first ins sk bs acc count :
  sk <> Oword -> is_bytes bs -> length bs = (count * SIZE sk)%nat ->
  forall n k, (0 < n)%nat -> count = (k + n)%nat -> exists k',
    scan n sk bs acc (has_repne_prefix ins) (Z.of_nat count) (Z.of_nat k) = Ret (element sk bs (k' - 1), Z.of_nat k')
    /\ (k < k' <= count)%nat
    /\ (forall i, (k <= i < k' - 1)%nat -> scan_ends ins acc (element sk bs i) = false)
    /\ (k' = count \/ scan_ends ins acc (element sk bs (k' - 1)) = true).
Proof.
  intros Ho Hb Hl. induction n as [|n IH]; intros k Hn Hk; [lia |]. cbn [scan].
  pose proof (sk_size_pos sk) as Hsz. assert ((k + 1) * SIZE sk <= length bs)%nat as Hin by nia.
  rewrite <- Nat2Z.inj_mul, Nat2Z.id, (index_element sk bs k Hin). cbn [mbind outcome_bind].
  rewrite le_from_le_bytes; [| now apply Forall_take, Forall_drop |].
  2: { rewrite length_take. destruct sk; cbn [SIZE]; (lia || congruence). }
  fold (element sk bs k). fold (scan_ends ins acc (element sk bs k)).
  replace (Z.of_nat k + 1) with (Z.of_nat (Datatypes.S k)) by lia.
  destruct (scan_ends ins acc (element sk bs k)) eqn:Hs.
  - exists (Datatypes.S k). cbn [orb]. replace (Datatypes.S k - 1)%nat with k by lia. split_and!; auto; lia.
  - cbn [orb]. destruct (Z.eqb_spec (Z.of_nat (Datatypes.S k)) (Z.of_nat count)) as [E|E].
    + exists (Datatypes.S k). replace (Datatypes.S k - 1)%nat with k by lia. split_and!; auto; try lia.
    + destruct (IH (Datatypes.S k)) as (k' & Es & Hk' & Hlt & Hend); [lia | lia |].
      exists k'. split_and!; auto; try lia. intros i Hi. destruct (decide (i = k)) as [-> |]; [exact Hs | apply Hlt; lia].
Qed.

(** A REPE or REPNE SCAS over [count] readable elements, forward in 64-bit mode,
    looks at the elements in order and stops right after the first one that differs
    from (REPE) or equals (REPNE) the accumulator, or after the last one: RCX holds
    the number of elements left, RDI the address behind the last element looked at,
    and the flags those of comparing the accumulator with it; memory and the other
    registers are untouched. *)
Theorem rep_scas_correct ins sk mc fuel count bs :
  sse_form ins = false -> family_of (mnemonic ins) = Some SCAS -> element_kind (mnemonic ins) = Some sk ->
  wf_prefixes ins -> has_string_prefix ins = true ->
  wf_emu (emu mc) -> forward (emu mc) -> is_word 64 (pos (emu mc)) ->
  regs (emu mc) rcx = Z.of_nat count -> (0 < count <= fuel)%nat ->
  regs (emu mc) rdi + Z.of_nat count * Z.of_nat (SIZE sk) <= 2 ^ 64 ->
  in_region (emaps (emu mc)) Mem.can_read (regs (emu mc) rdi) (count * SIZE sk) ->
  bytes_of (emaps (emu mc)) (regs (emu mc) rdi) (count * SIZE sk) = Some bs ->
  let acc := accumulator sk (regs (emu mc)) in
  exists k e', execute_x86_rep_fully fuel ins mc = Ret (Some (true, set_rep None (set_emu e' mc)))
    /\ (0 < k <= count)%nat
    /\ (forall i, (i < k - 1)%nat -> scan_ends ins acc (element sk bs i) = false)
    /\ (k = count \/ scan_ends ins acc (element sk bs (k - 1)) = true)
    /\ reaches (emu mc) (counted sk [rdi] k (regs (emu mc))) 0 [] (sub_status sk acc (element sk bs (k - 1)))
         (pos (emu mc)) e'.
Proof.
  intros Hsse Hfam Hk Hpf Hpre Hwf Hf Hp Hc Hn Hend Hreg Hbs acc.
  destruct (bytes_of_bytes _ _ _ _ (wf_emu_maps _ Hwf) Hbs) as [Hby Hlen].
  destruct (scas_lockstep ins mc fuel sk Hsse Hk Hwf Hf Hp count Hc Hn bs Hfam Hpf Hpre Hend Hreg Hbs
              count O fuel 0 (observe (flags (emu mc))) (set_rep (Some 0) mc))
    as (term & k & e2 & Es & El & Hk' & _ & Hr); [lia | lia | lia | reflexivity | |].
  { apply (start_counted mc sk Hwf). intros f ?. set_solver. }
  destruct (scan_first ins sk bs acc count (element_not_oword ins sk Hk) Hby Hlen count O) as (k2 & Es2 & Hk2 & Hlt & Hor);
    [lia | lia |].
  fold acc in Es, Hr. rewrite Es in Es2. injection Es2 as -> E2. apply Nat2Z.inj in E2 as ->.
  exists k2, e2. split_and!; [exact (fully_from_loop _ _ _ _ None El) | lia | lia | | exact Hor | exact Hr].
  intros i Hi. apply Hlt. lia.
Qed.

(** A REP STOS over [count] writable elements, forward in 64-bit mode, stores the
    accumulator's bytes [count] times from RDI on and changes no other byte; it
    leaves RCX at zero and RDI behind the last element, and no flag changes. *)
Theorem rep_stos_correct ins sk mc fuel count :
  sse_form ins = false -> family_of (mnemonic ins) = Some STOS -> element_kind (mnemonic ins) = Some sk ->
  wf_emu (emu mc) -> forward (emu mc) -> is_word 64 (pos (emu mc)) ->
  regs (emu mc) rcx = Z.of_nat count -> (0 < count <= fuel)%nat ->
  regs (emu mc) rdi + Z.of_nat count * Z.of_nat (SIZE sk) <= 2 ^ 64 ->
  in_region (emaps (emu mc)) Mem.can_write (regs (emu mc) rdi) (count * SIZE sk) ->
  exists e', execute_x86_rep_fully fuel ins mc = Ret (Some (true, set_rep None (set_emu e' mc)))
    /\ reaches (emu mc) (counted sk [rdi] count (regs (emu mc))) (regs (emu mc) rdi)
         (concat (replicate count (to_le_bytes (SIZE sk) (accumulator sk (regs (emu mc))))))
         (observe (flags (emu mc))) (pos (emu mc)) e'.
Proof. intros. eapply stos_slow; eauto. Qed.

End Elements.
