(* ===== verification/RepTotal.v ===== *)
(** * String instructions always return

    In every mode and direction, mapped or not, a string instruction returns
    from a well-formed state to a well-formed state: registers stay words, the
    address space keeps its invariant and RCX is untouched.  A REP therefore
    ends within RCX iterations.  No write hook is installed; LODSB, which opens
    the console on an unreadable byte, also needs [console_keeps]. *)

From stdpp Require Import gmap strings.
From S2P Require Import Prelude Flags FlagsArith Scalar Mem64 BTree Slab Tlb Maps MapsInv MapsLife.
From S2P Require Import Regs Emu Operands OperandsSpec Instructions Strings Rep RepLoop.

Section Total.
Context {S W : Type} `{SlabLaws S} `{Environment S W} `{Dispatcher S W}.
Implicit Types (e : Emu S W) (mc : Machine S W) (ins : PrefixedIns) (sk : ScalarKind).

(** [e'] is well-formed and counts as many repetitions as [e]. *)
Definition kept e (e' : Emu S W) : Prop := wf_emu e' /\ regs e' rcx = regs e rcx.

(** LODSB alone opens the console, where a byte cannot be read: what the user does there leaves a
    well-formed state and the count. *)
Definition console_keeps ins : Prop := mnemonic ins = Lodsb -> forall e, wf_emu e -> kept e (spawn_console e).

(** A write hook could do anything to the state. *)
Context (Hnohook : hook_on_memory_write (S := S) (W := W) = None).

Lemma kept_refl e : wf_emu e -> kept e e.
Proof. now split. Qed.

Lemma kept_trans e1 e2 e3 : kept e1 e2 -> kept e2 e3 -> kept e1 e3.
Proof. intros [_ E] [Hw E']. split; [exact Hw | congruence]. Qed.

Lemma kept_retlb t e : wf_tlb t -> wf_emu e -> kept e (retlb t e).
Proof. intros. split; [now apply retlb_wf | reflexivity]. Qed.

Lemma kept_emaps m' e : wf_emu e -> wf m' -> kept e (set_emaps m' e).
Proof. intros [Hr _] Hm. now split. Qed.

Lemma kept_flags s e : wf_emu e -> kept e (set_flags s e).
Proof. intros [Hr Hm]. now split. Qed.

(** The registers the string instructions write. *)
Lemma words_upd f v s : f ∈ [rax; rcx; rsi; rdi] -> words s -> is_word 64 v -> words (upd f v s).
Proof.
  intros Hin Hs Hv g. unfold upd. case_decide as E; [subst g | apply Hs].
  repeat (apply elem_of_cons in Hin as [-> | Hin]; [exact Hv |]). now apply not_elem_of_nil in Hin.
Qed.

Lemma kept_upd f v e : f ∈ [rax; rsi; rdi] -> wf_emu e -> is_word 64 v -> kept e (set_regs (upd f v (regs e)) e).
Proof.
  intros Hin [Hr Hm] Hv. split; [split; [|exact Hm]; apply words_upd; set_solver |].
  cbn. apply upd_other. intros <-. set_solver.
Qed.

Lemma word_low v : is_word 64 (Z.land v 0xffffffff).
Proof.
  change 0xffffffff with (Z.ones 32). rewrite Z.land_ones by lia.
  apply (word_mono 32); [lia | apply wrap_word; lia].
Qed.

Lemma moved_word sk e p : is_word 64 (moved sk e p).
Proof. unfold moved. destruct (flag_df e); apply wrap_word; lia. Qed.

Lemma advance_si_kept x64 sk e : wf_emu e -> kept e (advance_si x64 sk e).
Proof.
  intros Hwf. unfold advance_si, set_esi, set_reg32.
  destruct x64; apply kept_upd; auto using moved_word, word_low; set_solver.
Qed.

Lemma advance_di_kept x64 sk e : wf_emu e -> kept e (advance_di x64 sk e).
Proof.
  intros Hwf. unfold advance_di, set_edi, set_reg32.
  destruct x64; apply kept_upd; auto using moved_word, word_low; set_solver.
Qed.

Lemma advance_kept x64 sk e : wf_emu e -> kept e (advance_di x64 sk (advance_si x64 sk e)).
Proof.
  intros Hwf. pose proof (advance_si_kept x64 sk e Hwf) as Hs. eapply kept_trans; [exact Hs |].
  apply advance_di_kept, Hs.
Qed.

Lemma loaded_kept x64 sk v e : wf_emu e -> is_word 64 v -> kept e (loaded x64 sk v e).
Proof.
  intros Hwf Hv. unfold loaded. set (e' := set_regs _ e).
  assert (kept e e') as Hk.
  { unfold e', set_accumulator, set_al, set_ax, set_eax, set_reg8l, set_reg16, set_reg32.
    destruct sk; apply kept_upd; auto using word_low; try set_solver; apply wrap_word; lia. }
  eapply kept_trans; [exact Hk | apply advance_si_kept, Hk].
Qed.

Lemma ptr_nonneg x64 e : wf_emu e -> 0 <= src_ptr x64 e /\ 0 <= dst_ptr x64 e.
Proof.
  intros [Hr _]. unfold src_ptr, dst_ptr, get_esi, get_edi, get_reg32l.
  destruct x64; [split; [apply (Hr rsi) | apply (Hr rdi)] | split; apply word_low].
Qed.

(** ** Elements *)

Lemma load_total sk a e :
  wf_emu e -> 0 <= a -> sk <> Oword ->
  exists v e', load_element sk a e = Ret (v, e') /\ kept e e' /\ cfg e' = cfg e
    /\ (forall x, v = Some x -> is_word (bits_of (SIZE sk)) x).
Proof.
  intros Hwf Ha Ho. destruct (read_scalar_spec (SIZE sk) a (emaps e)) as (t & Ht & E);
    [apply Hwf | exact Ha | apply sk_size_pos |].
  eexists _, (retlb t e). split_and!; [unfold load_element, on_maps; rewrite E; reflexivity | now apply kept_retlb | reflexivity |].
  intros x Hx. destruct (reachable _ _ _ _); [|discriminate].
  destruct (bytes_of (emaps e) a (SIZE sk)) as [bs|] eqn:Hb; [|discriminate]. injection Hx as <-.
  destruct (bytes_of_bytes _ _ _ _ (wf_emu_maps e Hwf) Hb) as [Hby Hl]. rewrite <- Hl. now apply from_le_bytes_word.
Qed.

Lemma store_total sk a v e :
  wf_emu e -> 0 <= a -> exists ok e', store_element sk a v e = Ret (ok, e') /\ kept e e' /\ cfg e' = cfg e.
Proof.
  intros Hwf Ha. destruct (write_scalar_spec (SIZE sk) a (wrap (bits_of (SIZE sk)) v) (emaps e)) as (m' & E & Hm & _);
    [apply Hwf | exact Ha | apply sk_size_pos |].
  eexists _, (set_emaps m' e). split_and!; [| now apply kept_emaps | reflexivity].
  unfold store_element, call_memory_write_hook, on_maps. now rewrite Hnohook, E.
Qed.

(** ** Handlers *)

Definition returns e (run : outcome (bool * Emu S W)) : Prop :=
  exists ok e', run = Ret (ok, e') /\ kept e e'.

Lemma returns_from e e1 run : kept e e1 -> returns e1 run -> returns e run.
Proof. intros Hk (ok & e' & E & Hk'). exists ok, e'. split; [exact E | eapply kept_trans; eauto]. Qed.

Lemma returns_here ok e e' : kept e e' -> returns e (Ret (ok, e')).
Proof. intros. exists ok, e'. auto. Qed.

(** A load and what follows it. *)
Lemma load_then sk a e (k : option Z -> Emu S W -> outcome (bool * Emu S W)) :
  wf_emu e -> 0 <= a -> sk <> Oword ->
  (forall v e', kept e e' -> (forall x, v = Some x -> is_word (bits_of (SIZE sk)) x) -> returns e' (k v e')) ->
  returns e ('(v, e') ← load_element sk a e; k v e').
Proof.
  intros Hwf Ha Ho Hk. destruct (load_total sk a e Hwf Ha Ho) as (v & e' & -> & Hke & _ & Hv). cbn [mbind outcome_bind].
  eapply returns_from; [exact Hke | now apply Hk].
Qed.

Lemma store_then sk a v e (k : bool -> Emu S W -> outcome (bool * Emu S W)) :
  wf_emu e -> 0 <= a -> (forall ok e', kept e e' -> returns e' (k ok e')) ->
  returns e ('(ok, e') ← store_element sk a v e; k ok e').
Proof.
  intros Hwf Ha Hk. destruct (store_total sk a v e Hwf Ha) as (ok & e' & -> & Hke & _). cbn [mbind outcome_bind].
  eapply returns_from; [exact Hke | now apply Hk].
Qed.

Lemma movs_returns x64 sk e : wf_emu e -> sk <> Oword -> returns e (movs x64 sk e).
Proof.
  intros Hwf Ho. unfold movs. apply (load_then sk _ e
    (fun o e => match o with Some val => _ | None => Ret (false, e) end)); [exact Hwf | now apply ptr_nonneg | exact Ho |].
  intros [v|] e1 [Hwf1 _] _; [|now apply returns_here, kept_refl].
  apply store_then; [exact Hwf1 | now apply ptr_nonneg |]. intros ok e2 [Hwf2 _].
  now apply returns_here, advance_kept.
Qed.

Lemma movsb_returns in_rep e : wf_emu e -> returns e (movsb_execute in_rep e).
Proof.
  intros Hwf. unfold movsb_execute. apply load_then; [exact Hwf | now apply ptr_nonneg | discriminate |].
  intros v e1 [Hwf1 _] _. destruct (match v with Some _ => _ | None => _ end) as [val|]; [|now apply returns_here, kept_refl].
  apply store_then; [exact Hwf1 | now apply ptr_nonneg |]. intros ok e2 [Hwf2 _].
  destruct ok; apply returns_here; [now apply advance_kept | now apply kept_refl].
Qed.

Lemma stos_returns x64 sk e : wf_emu e -> returns e (stos_checked sk e) /\ returns e (stos_unchecked x64 sk e).
Proof.
  intros Hwf. unfold stos_checked, stos_unchecked.
  split; (apply store_then; [exact Hwf | now apply ptr_nonneg |]); intros ok e1 [Hwf1 _].
  - destruct ok; apply returns_here; [now apply advance_di_kept | now apply kept_refl].
  - now apply returns_here, advance_di_kept.
Qed.

Lemma lods_returns sk e : wf_emu e -> sk <> Oword -> returns e (lods sk e).
Proof.
  intros Hwf Ho. unfold lods. apply (load_then sk _ e
    (fun o e => match o with Some val => _ | None => Ret (false, e) end)); [exact Hwf | now apply ptr_nonneg | exact Ho |].
  intros [v|] e1 [Hwf1 _] Hv; [|now apply returns_here, kept_refl].
  apply returns_here, loaded_kept; [exact Hwf1 |]. eapply word_64_of; eauto.
Qed.

Lemma lodsb_returns e : (forall e, wf_emu e -> kept e (spawn_console e)) -> wf_emu e -> returns e (lodsb_execute e).
Proof.
  intros Hcon Hwf. unfold lodsb_execute. apply load_then; [exact Hwf | now apply ptr_nonneg | discriminate |].
  intros [v|] e1 [Hwf1 _] Hv.
  - apply returns_here, loaded_kept; [exact Hwf1 |]. eapply (word_64_of Byte); [discriminate | now apply Hv].
  - pose proof (Hcon e1 Hwf1) as Hc. eapply returns_from; [exact Hc |].
    apply returns_here, loaded_kept; [apply Hc | split; lia].
Qed.

Lemma scas_returns x64 sk di e : wf_emu e -> 0 <= di -> sk <> Oword -> returns e (scas x64 sk di e).
Proof.
  intros Hwf Hd Ho. unfold scas. apply (load_then sk _ e
    (fun o e => match o with Some val => _ | None => Ret (false, e) end)); [exact Hwf | exact Hd | exact Ho |].
  intros [v|] e1 [Hwf1 _] _; [|now apply returns_here, kept_refl].
  unfold on_flags. destruct (sub_of _ _ _ _) as [x s]. pose proof (kept_flags s e1 Hwf1) as Hs.
  eapply returns_from; [exact Hs | apply returns_here, advance_di_kept, Hs].
Qed.

Lemma cmps_returns x64 sk e : wf_emu e -> sk <> Oword -> returns e (cmps x64 sk e).
Proof.
  intros Hwf Ho. unfold cmps. apply (load_then sk _ e
    (fun o e => match o with Some val => _ | None => Ret (false, e) end)); [exact Hwf | now apply ptr_nonneg | exact Ho |].
  intros [v|] e1 [Hwf1 _] _; [|now apply returns_here, kept_refl].
  apply (load_then sk _ e1
    (fun o e => match o with Some val => _ | None => Ret (false, e) end)); [exact Hwf1 | now apply ptr_nonneg | exact Ho |].
  intros [v'|] e2 [Hwf2 _] _; [|now apply returns_here, kept_refl].
  unfold on_flags. destruct (sub_of _ _ _ _) as [x s]. pose proof (advance_kept x64 sk e2 Hwf2) as Ha.
  eapply returns_from; [exact Ha | apply returns_here, kept_flags, Ha].
Qed.

Lemma bump_kept e : wf_emu e -> kept e (bump_pos e).
Proof. intros [? ?]. now split. Qed.

(** A string handler returns and keeps the state well-formed. *)
Lemma handler_returns ins in_rep e :
  sse_form ins = false -> is_string_movement (mnemonic ins) || is_string_comparison (mnemonic ins) = true ->
  console_keeps ins -> wf_emu e -> returns e (emulate_instruction ins in_rep e).
Proof.
  intros Hsse Hmn Hcon Hwf. unfold console_keeps in Hcon. pose proof (ptr_nonneg true e Hwf) as [_ Hd].
  unfold emulate_instruction. rewrite Hsse. destruct (mnemonic ins); try discriminate Hmn.
  all: first
    [ apply movsb_returns | apply movs_returns | apply stos_returns | apply lodsb_returns | apply lods_returns
    | apply scas_returns | apply cmps_returns
    | apply (returns_from e (bump_pos e)); [now apply bump_kept | apply movs_returns; [now apply bump_kept |]]
    | unfold lodsq_execute; destruct (is_x64 (cfg e)); [apply lods_returns | apply returns_here, kept_refl] ];
    first [exact Hwf | exact (Hcon eq_refl) | exact true | discriminate | exact Hd | now apply ptr_nonneg].
Qed.

(** Every string instruction, at any width, in either mode and direction, with
    mapped or unmapped operands, returns: its register writes are words of the width
    of their registers, the address space keeps its invariant and RCX is not
    touched. *)
Theorem string_handlers_typed ins in_rep e :
  sse_form ins = false -> is_string_movement (mnemonic ins) || is_string_comparison (mnemonic ins) = true ->
  console_keeps ins -> wf_emu e ->
  exists ok e', emulate_instruction ins in_rep e = Ret (ok, e') /\ wf_emu e' /\ regs e' rcx = regs e rcx.
Proof. intros Hsse Hmn Hcon Hwf. destruct (handler_returns ins in_rep e Hsse Hmn Hcon Hwf) as (ok & e' & E & Hk & Hr). eauto. Qed.

(** ** The loop *)

(** The state machine counts RCX down by one. *)
Lemma update_counts ins mc c :
  rep mc = Some c -> 0 < regs (emu mc) rcx -> wf_emu (emu mc) ->
  let mc' := update_x86_rep_state_after_execution ins mc in
  wf_emu (emu mc') /\ regs (emu mc') rcx = regs (emu mc) rcx - 1.
Proof.
  intros Hc Hrcx [Hr Hm] mc'. assert (emu mc' = set_field rcx (regs (emu mc) rcx - 1) (emu mc)) as ->.
  { unfold mc', update_x86_rep_state_after_execution. rewrite Hc, (proj2 (Z.ltb_lt _ _)) by lia.
    repeat case_match; reflexivity. }
  split; [|apply upd_same]. split; [|exact Hm]. apply words_upd; [set_solver | exact Hr |].
  pose proof (Hr rcx) as Hw. unfold is_word in *. lia.
Qed.

Lemma rep_loop_ends ins :
  sse_form ins = false -> is_string_movement (mnemonic ins) || is_string_comparison (mnemonic ins) = true ->
  console_keeps ins -> forall n fuel ok c mc, regs (emu mc) rcx = Z.of_nat n -> (n <= fuel)%nat -> rep mc = Some c -> wf_emu (emu mc) ->
  exists ok' mc', rep_loop fuel ins ok mc = Ret (Some (ok', mc')) /\ wf_emu (emu mc')
    /\ 0 <= regs (emu mc') rcx <= Z.of_nat n.
Proof.
  intros Hsse Hmn Hcon. induction n as [|n IH]; intros fuel ok c mc Hrcx Hfuel Hc Hwf.
  - exists ok, mc. destruct fuel; cbn [rep_loop]; rewrite Hrcx; cbn; split_and!; auto; lia.
  - destruct fuel as [|fuel]; [lia |]. cbn [rep_loop]. rewrite (proj2 (Z.eqb_neq _ _)) by lia.
    destruct (handler_returns ins (bool_decide (is_Some (rep mc))) (emu mc) Hsse Hmn Hcon Hwf) as (ok1 & e1 & -> & Hwf1 & Hr1).
    cbn [mbind outcome_bind].
    destruct (update_counts ins (set_emu e1 mc) c) as [Hwf2 Hr2]; cbn [emu set_emu rep]; auto; [lia |].
    set (mc2 := update_x86_rep_state_after_execution ins (set_emu e1 mc)) in *. cbn [emu set_emu] in Hr2.
    destruct (negb ok1 || bool_decide (rep mc2 = None)) eqn:Hb; [eexists _, _; split_and!; [reflexivity | exact Hwf2 | lia | lia] |].
    apply orb_false_iff in Hb as [_ Hb%bool_decide_eq_false]. destruct (rep mc2) as [c2|] eqn:Hc2; [|congruence].
    destruct (IH fuel ok1 c2 mc2) as (ok' & mc' & E & Hw & Hle); [lia | lia | exact Hc2 | exact Hwf2 |].
    exists ok', mc'. split_and!; auto; lia.
Qed.

(** C27. A repeated string instruction ends, with success or with a failed element,
    within as many iterations as RCX counts, be its memory mapped or not; it leaves
    no REP pending, a well-formed state and RCX between zero and its initial value.
    This is for the string forms (not the SSE instructions that share a mnemonic)
    with no memory-write hook installed; for LODSB, which opens the debugger's
    console on an unreadable byte, provided that the user leaves there a well-formed
    state and RCX as it was. *)
Theorem rep_terminates ins mc :
  is_rep_string_instruction ins = true -> sse_form ins = false -> console_keeps ins -> wf_emu (emu mc) ->
  exists ok mc', execute_x86_rep_fully (Z.to_nat (regs (emu mc) rcx)) ins mc = Ret (Some (ok, mc'))
    /\ wf_emu (emu mc') /\ rep mc' = None /\ 0 <= regs (emu mc') rcx <= regs (emu mc) rcx.
Proof.
  intros Hrep Hsse Hcon Hwf. unfold is_rep_string_instruction in Hrep. apply andb_true_iff in Hrep as [Hrep _].
  apply andb_true_iff in Hrep as [_ Hmn]. assert (0 <= regs (emu mc) rcx) as H0' by apply (wf_emu_regs _ Hwf rcx).
  destruct (rep_loop_ends ins Hsse Hmn Hcon (Z.to_nat (regs (emu mc) rcx)) (Z.to_nat (regs (emu mc) rcx)) true 0
              (set_rep (Some 0) mc)) as (ok & mc' & E & Hw & Hr); [cbn; lia | lia | reflexivity | exact Hwf |].
  exists ok, (set_rep None mc'). unfold execute_x86_rep_fully. rewrite E. split_and!; auto; cbn; lia.
Qed.
End Total.
