(* ===== verification/RepSamples.v ===== *)
(** * Repeated string instructions on the sample state

    The theorems about REP applied to concrete instructions, and runs that show
    where the string handlers differ from each other. *)

From stdpp Require Import gmap strings.
From S2P Require Import Prelude Flags FlagsArith Scalar Mem64 BTree Slab Tlb Maps MapsInv MapsLife MapsRun.
From S2P Require Import Regs Emu Operands OperandsSpec Instructions Strings Rep RepLoop RepSpec RepTotal Samples.

(** Nothing is hooked, and what lies outside the model does nothing. *)
#[local] Instance rep_environment : Environment (gmap nat Mem64) unit := {
  hook_on_memory_read := None;
  hook_on_memory_write := None;
  exception _ e := e;
  kernel_guard_access _ _ _ _ e := e;
  spawn_console e := e;
  set_streg _ _ e := e;
  set_rip_with_check addr _ e := Ret (true, set_regs (upd rip addr (regs e)) e);
  set_eip_emu addr _ e := Ret (true, set_regs (upd rip addr (regs e)) e)
}.

#[local] Instance rep_dispatcher : Dispatcher (gmap nat Mem64) unit := { emulate_other _ e := Ret (false, e) }.

(** The sample state with 64-bit values in RSI, RDI and RCX, in either mode. *)
Definition rep_emu (x64 : bool) (si di cx : Z) : sample_emu :=
  mkEmu (upd rsi si (upd rdi di (upd rcx cx (upd rax 0x1122334455667788 zeros)))) Flags.new sample
    (mkConfig x64 false false false) Windows false false ∅ 0 0 ∅ ∅ false false false false 1 [] tt.

Definition rep_machine (x64 : bool) (si di cx : Z) : Machine (gmap nat Mem64) unit :=
  mkMachine (rep_emu x64 si di cx) None 0 (2 ^ 64 - 1) 0 []
    (mkObservers 0 false false false false false false false false).

Definition string_ins (mn : Mnemonic) (repe repne : bool) : PrefixedIns :=
  mkPrefixedIns (sample_ins 2 MemoryESRDI MemorySegRSI NoRegister NoRegister NoRegister 0 1 0) mn repe repe repne.

Lemma rep_emu_wf x64 si di cx : is_word 64 si -> is_word 64 di -> is_word 64 cx -> wf_emu (rep_emu x64 si di cx).
Proof.
  intros. split; [|exact sample_wf]. intros g. cbn [regs rep_emu]. unfold upd.
  repeat case_decide; subst; try assumption; [split; lia | apply zeros_words].
Qed.

Lemma no_write_hook : hook_on_memory_write (S := gmap nat Mem64) (W := unit) = None.
Proof. reflexivity. Qed.
Lemma console_quiet ins : console_keeps (S := gmap nat Mem64) (W := unit) ins.
Proof. intros _ e He. now split. Qed.

Ltac rep_side := first [apply rep_emu_wf; split; lia | split; lia | reflexivity | now split].

(** ** Witnesses *)

(** [rep stosb] over 16 bytes takes the bulk path. *)
Lemma fast_rep_equivalent_witness :
  exists mf k ms, try_fast_rep_string (string_ins Stosb true false) 2 (rep_machine true 0x2000 0x1000 16) = Ret (true, mf)
    /\ execute_x86_rep_fully 16 (string_ins Stosb true false) (rep_machine true 0x2000 0x1000 16) = Ret (Some (true, ms))
    /\ caught_up k 2 (rep_machine true 0x2000 0x1000 16) mf ms.
Proof.
  destruct (fast_rep_equivalent (string_ins Stosb true false) 2 (rep_machine true 0x2000 0x1000 16) 16)
    as (b & mf & E & Hb); try rep_side.
  assert (match try_fast_rep_string (string_ins Stosb true false) 2 (rep_machine true 0x2000 0x1000 16) with
          | Ret (b, _) => b | Panic => false end = true) as Ht by (vm_compute; reflexivity).
  rewrite E in Ht. subst b. destruct Hb as (k & ms & E2 & Hc & _). exists mf, k, ms.
  split_and!; [exact E | exact E2 | exact Hc].
Defined.

Lemma sample_region (p : Mem64 -> bool) a n k mem :
  find_map a sample = Some (k, mem) -> Mem.inside (a + Z.of_nat n - 1) mem = true -> p mem = true -> in_region sample p a n.
Proof. unfold in_region. eauto. Qed.

(** [repne scasb] for 0x88 over the 16 zero bytes of the read-only region looks at all of them. *)
Lemma rep_scas_correct_witness :
  exists e', execute_x86_rep_fully 16 (string_ins Scasb false true) (rep_machine true 0 0x2000 16)
             = Ret (Some (true, set_rep None (set_emu e' (rep_machine true 0 0x2000 16))))
    /\ regs e' rcx = 0 /\ regs e' rdi = 0x2010 /\ flag_zf e' = false.
Proof.
  destruct (rep_scas_correct (string_ins Scasb false true) Byte (rep_machine true 0 0x2000 16) 16 16 (replicate 16 0))
    as (k & e' & E & Hk & _ & Hend & Hr); try rep_side.
  { vm_compute. discriminate. }
  { eapply sample_region; vm_compute; reflexivity. }
  assert (k = 16)%nat as ->.
  { destruct Hend as [-> | Hend]; [reflexivity | exfalso].
    assert (element Byte (replicate 16 0) (k - 1) = 0) as E0.
    { do 17 (destruct k as [|k]; [first [lia | reflexivity] |]). lia. }
    rewrite E0 in Hend. vm_compute in Hend. discriminate. }
  exists e'. split_and!; [exact E | | |].
  - rewrite (re_regs Hr). vm_compute. reflexivity.
  - rewrite (re_regs Hr). vm_compute. reflexivity.
  - transitivity (s_zf (observe (flags e'))); [reflexivity |]. rewrite (re_status Hr). vm_compute. reflexivity.
Defined.

(** [rep stosd] of eight doublewords. *)
Lemma rep_stos_correct_witness :
  exists e', execute_x86_rep_fully 8 (string_ins Stosd true false) (rep_machine true 0 0x1000 8)
             = Ret (Some (true, set_rep None (set_emu e' (rep_machine true 0 0x1000 8))))
    /\ bytes_of (emaps e') 0x101c 4 = Some [0x88; 0x77; 0x66; 0x55] /\ regs e' rdi = 0x1020.
Proof.
  destruct (rep_stos_correct (string_ins Stosd true false) Dword (rep_machine true 0 0x1000 8) 8 8)
    as (e' & E & Hr); try rep_side.
  { vm_compute. discriminate. }
  { eapply sample_region; vm_compute; reflexivity. }
  exists e'. split_and!; [exact E | | rewrite (re_regs Hr); vm_compute; reflexivity].
  pose proof (stores_bytes_of _ _ _ _ (re_maps Hr)) as Hb.
  change (length (concat _)) with 32%nat in Hb.
  pose proof (bytes_of_part _ _ _ _ 28 4 Hb ltac:(lia)) as Hp. vm_compute in Hp. exact Hp.
Defined.

(** [rep lodsb] in 32-bit mode over unmapped memory, which opens the console at every byte. *)
Lemma rep_terminates_witness :
  exists ok mc', execute_x86_rep_fully 5 (string_ins Lodsb true false) (rep_machine false 0x9000 0x9100 5) = Ret (Some (ok, mc'))
    /\ wf_emu (emu mc') /\ rep mc' = None.
Proof.
  destruct (rep_terminates no_write_hook (string_ins Lodsb true false) (rep_machine false 0x9000 0x9100 5) eq_refl eq_refl (console_quiet _))
    as (ok & mc' & E & Hw & Hr & _); [rep_side|].
  exists ok, mc'. split_and!; [exact E | exact Hw | exact Hr].
Defined.

Lemma string_handlers_typed_witness :
  exists ok e', emulate_instruction (string_ins Lodsq false false) false (rep_emu false 0x9000 0 1) = Ret (ok, e') /\ wf_emu e'.
Proof.
  destruct (string_handlers_typed no_write_hook (string_ins Lodsq false false) false (rep_emu false 0x9000 0 1) eq_refl eq_refl (console_quiet _))
    as (ok & e' & E & Hw & _); [rep_side|].
  exists ok, e'. split; [exact E | exact Hw].
Defined.

(** ** Runs *)

(** What a run that succeeds leaves, and whether a handler succeeded. *)
Definition after {A} (f : sample_emu -> A) (run : outcome (option (bool * Machine (gmap nat Mem64) unit))) : option A :=
  match run with Ret (Some (true, m)) => Some (f (emu m)) | _ => None end.

Definition handled {A} (f : sample_emu -> A) (run : outcome (bool * sample_emu)) : option (bool * A) :=
  match run with Ret (ok, e) => Some (ok, f e) | Panic => None end.

(** A REP MOVSQ moves the position by one more for each element than a REP
    MOVSD; the bulk path moves it by one per element for both. *)
Lemma movsq_moves_position :
  after pos (execute_x86_rep_fully 2 (string_ins Movsq true false) (rep_machine true 0x2000 0x1000 2)) = Some 2
  /\ after pos (execute_x86_rep_fully 2 (string_ins Movsd true false) (rep_machine true 0x2000 0x1000 2)) = Some 0.
Proof. split; vm_compute; reflexivity. Qed.

(** In 32-bit mode SCASB reads at RDI and SCASW at EDI. *)
Lemma scasb_ignores_mode :
  handled flag_zf (scasb_execute (rep_emu false 0 0x100001000 1)) = Some (false, false)
  /\ handled flag_zf (scasw_execute (rep_emu false 0 0x100001000 1)) = Some (true, false).
Proof. split; vm_compute; reflexivity. Qed.

(** A store to read-only memory fails for STOSB and succeeds for STOSW, which
    moves RDI on although nothing was written. *)
Lemma stosw_ignores_failure :
  handled (fun e => regs e rdi) (stosb_execute (rep_emu true 0 0x2000 1)) = Some (false, 0x2000)
  /\ handled (fun e => (regs e rdi, bytes_of (emaps e) 0x2000 2)) (stosw_execute (rep_emu true 0 0x2000 1))
     = Some (true, (0x2002, Some [0; 0])).
Proof. split; vm_compute; reflexivity. Qed.

(** REP MOVSB from unmapped memory stores zeros; without REP, and for the wider
    moves, the read fails. *)
Lemma rep_movsb_copies_zeros :
  after (fun e => bytes_of (emaps e) 0x1000 3)
    (execute_x86_rep_fully 3 (string_ins Movsb true false) (rep_machine true 0x9000 0x1000 3)) = Some (Some [0; 0; 0])
  /\ handled pos (movsb_execute false (rep_emu true 0x9000 0x1000 3)) = Some (false, 0)
  /\ after pos (execute_x86_rep_fully 3 (string_ins Movsw true false) (rep_machine true 0x9000 0x1000 3)) = None.
Proof. split_and!; vm_compute; reflexivity. Qed.
