(* ===== verification/Threads.v ===== *)
(** * Threads, critical sections and the scheduler ([threading/])

    The thread contexts of the emulator, the table of critical sections
    ([global_locks.rs]), the two schedulers ([scheduler.rs] and
    [step_multi_threaded] of emu/execution/mod.rs) with the single step they
    share, and the Windows calls that block and wake threads
    (EnterCriticalSection, LeaveCriticalSection, TryEnterCriticalSection and
    Sleep of api/windows/winapi64/kernel32).

    [Machine] is the part of [struct Emu] they work on: all the threads, where
    Emu.v has the one that runs.  The registers, flags and unit states of a
    thread that scheduling only carries along are the types [X] and [A];
    executing an instruction is the interface [Executor].  Register snapshots
    for the trace are left out. *)

From stdpp Require Import gmap strings.
From S2P Require Import Prelude Scalar Mem64 Slab Tlb Maps Regs.

(** ** Data *)

(** [enum ArchThreadState] *)
Inductive ArchThreadState (X A : Type) :=
  | X86 (regs : Regs64) (others : X)
  | AArch64 (x : list Z) (sp pc : Z) (others : A).
Arguments X86 {X A}.
Arguments AArch64 {X A}.

(** [struct Reservation] *)
Record Reservation := mkReservation { res_addr : Z; res_bytes : Z; res_values : Z * Z }.

(** [struct ThreadContext] *)
Record ThreadContext (X A : Type) := mkThread {
  tid : Z;
  suspended : bool;
  wake_tick : Z;
  blocked_on_cs : option Z;
  clear_child_tid : Z;
  handle : Z;
  arch : ArchThreadState X A;
  exit_value : option Z;
  joining : option (Z * Z);
  blocked_on_lock : option Z;
  cond_wait : option (Z * Z);
  exclusive : option Reservation }.
Arguments mkThread {X A}.
Arguments tid {X A}. Arguments suspended {X A}. Arguments wake_tick {X A}.
Arguments blocked_on_cs {X A}. Arguments clear_child_tid {X A}. Arguments handle {X A}.
Arguments arch {X A}. Arguments exit_value {X A}. Arguments joining {X A}.
Arguments blocked_on_lock {X A}. Arguments cond_wait {X A}. Arguments exclusive {X A}.

(** [struct CritState]; [GlobalLocks] is a map from the address of a critical section. *)
Record CritState := mkCrit { owner_tid : option Z; recursion_count : Z; wait_queue : list Z }.

(** [struct Handler] of api/windows/helper.rs *)
Record Handler := mkHandler { hid : Z; uri : string; hdata : list Z; hpos : Z; eof : bool }.

(** The settings of [Config] consulted here. *)
Record TConfig := mkTConfig {
  exit_position : Z;
  short_circuit_sleep : bool;
  os_linux : bool;
  arch_is_64bits : bool;
  ssdt_use_ldr_initialize_thunk : bool }.

Record Machine (S X A W : Type) := mkMachine {
  threads : list (ThreadContext X A);
  current_thread_id : nat;
  tick : Z;
  pos : Z;
  instruction_count : Z;
  tmaps : Maps S;
  global_locks : gmap Z CritState;
  handles : list Handler;
  last_error : Z;
  tcfg : TConfig;
  enable_threading : bool;
  process_terminated : bool;
  is_running : Z;
  world : W }.
Arguments mkMachine {S X A W}.
Arguments threads {S X A W}. Arguments current_thread_id {S X A W}. Arguments tick {S X A W}.
Arguments pos {S X A W}. Arguments instruction_count {S X A W}. Arguments tmaps {S X A W}.
Arguments global_locks {S X A W}. Arguments handles {S X A W}. Arguments last_error {S X A W}.
Arguments tcfg {S X A W}. Arguments enable_threading {S X A W}.
Arguments process_terminated {S X A W}. Arguments is_running {S X A W}. Arguments world {S X A W}.

Definition is_none {T} (o : option T) : bool := match o with None => true | Some _ => false end.

(** ** Thread contexts *)

Section Context_.
Context {X A : Type}.
Implicit Types (t : ThreadContext X A).

Definition set_suspended (v : bool) t : ThreadContext X A :=
  mkThread (tid t) v (wake_tick t) (blocked_on_cs t) (clear_child_tid t) (handle t) (arch t) (exit_value t)
    (joining t) (blocked_on_lock t) (cond_wait t) (exclusive t).
Definition set_wake_tick (v : Z) t : ThreadContext X A :=
  mkThread (tid t) (suspended t) v (blocked_on_cs t) (clear_child_tid t) (handle t) (arch t) (exit_value t)
    (joining t) (blocked_on_lock t) (cond_wait t) (exclusive t).
Definition set_blocked (v : option Z) t : ThreadContext X A :=
  mkThread (tid t) (suspended t) (wake_tick t) v (clear_child_tid t) (handle t) (arch t) (exit_value t)
    (joining t) (blocked_on_lock t) (cond_wait t) (exclusive t).
Definition set_clear (v : Z) t : ThreadContext X A :=
  mkThread (tid t) (suspended t) (wake_tick t) (blocked_on_cs t) v (handle t) (arch t) (exit_value t)
    (joining t) (blocked_on_lock t) (cond_wait t) (exclusive t).
Definition set_arch (v : ArchThreadState X A) t : ThreadContext X A :=
  mkThread (tid t) (suspended t) (wake_tick t) (blocked_on_cs t) (clear_child_tid t) (handle t) v (exit_value t)
    (joining t) (blocked_on_lock t) (cond_wait t) (exclusive t).
Definition set_exit_value (v : option Z) t : ThreadContext X A :=
  mkThread (tid t) (suspended t) (wake_tick t) (blocked_on_cs t) (clear_child_tid t) (handle t) (arch t) v
    (joining t) (blocked_on_lock t) (cond_wait t) (exclusive t).
Definition set_joining (v : option (Z * Z)) t : ThreadContext X A :=
  mkThread (tid t) (suspended t) (wake_tick t) (blocked_on_cs t) (clear_child_tid t) (handle t) (arch t) (exit_value t)
    v (blocked_on_lock t) (cond_wait t) (exclusive t).
Definition set_lock (v : option Z) t : ThreadContext X A :=
  mkThread (tid t) (suspended t) (wake_tick t) (blocked_on_cs t) (clear_child_tid t) (handle t) (arch t) (exit_value t)
    (joining t) v (cond_wait t) (exclusive t).
Definition set_cond (v : option (Z * Z)) t : ThreadContext X A :=
  mkThread (tid t) (suspended t) (wake_tick t) (blocked_on_cs t) (clear_child_tid t) (handle t) (arch t) (exit_value t)
    (joining t) (blocked_on_lock t) v (exclusive t).

(** [ThreadContext::new], given the architecture's initial state *)
Definition new_thread (id : Z) (a : ArchThreadState X A) : ThreadContext X A :=
  mkThread id false 0 None 0 0 a None None None None None.

(** [ThreadContext::is_waiting_on_sync] *)
Definition is_waiting_on_sync t : bool :=
  negb (is_none (joining t)) || negb (is_none (blocked_on_lock t)) || negb (is_none (cond_wait t)).

(** [ThreadContext::is_runnable] *)
Definition is_runnable (now : Z) t : bool :=
  negb (suspended t) && (wake_tick t <=? now) && is_none (blocked_on_cs t) && is_none (exit_value t)
  && is_none (joining t) && is_none (blocked_on_lock t) && is_none (cond_wait t).

(** [ThreadContext::regs_x86] *)
Definition regs_x86 t : outcome Regs64 := match arch t with X86 r _ => Ret r | AArch64 _ _ _ _ => Panic end.

(** [*ThreadContext::regs_x86_mut() = r] *)
Definition put_regs_x86 (r : Regs64) t : outcome (ThreadContext X A) :=
  match arch t with X86 _ o => Ret (set_arch (X86 r o) t) | AArch64 _ _ _ _ => Panic end.
End Context_.

(** ** Critical sections ([global_locks.rs]) *)

Definition new_crit : CritState := mkCrit None 0 [].

(** [GlobalLocks::enter] *)
Definition enter (cs_ptr id : Z) (l : gmap Z CritState) : bool * gmap Z CritState :=
  let c := default new_crit (l !! cs_ptr) in
  match owner_tid c with
  | None => (true, <[cs_ptr := mkCrit (Some id) 1 (wait_queue c)]> l)
  | Some owner =>
      if owner =? id then
        (true, <[cs_ptr := mkCrit (owner_tid c) (wadd (recursion_count c) 1) (wait_queue c)]> l)
      else
        (false, <[cs_ptr := mkCrit (owner_tid c) (recursion_count c)
                   (if bool_decide (id ∈ wait_queue c) then wait_queue c else wait_queue c ++ [id])]> l)
  end.

(** [GlobalLocks::leave]: the thread to wake, if any *)
Definition leave (cs_ptr id : Z) (l : gmap Z CritState) : option Z * gmap Z CritState :=
  match l !! cs_ptr with
  | None => (None, l)
  | Some c =>
      if bool_decide (owner_tid c = Some id) then
        if 1 <? recursion_count c then
          (None, <[cs_ptr := mkCrit (owner_tid c) (recursion_count c - 1) (wait_queue c)]> l)
        else
          match wait_queue c with
          | next_tid :: q => (Some next_tid, <[cs_ptr := mkCrit (Some next_tid) 1 q]> l)
          | [] => (None, <[cs_ptr := mkCrit None 0 []]> l)
          end
      else (None, l)
  end.

(** ** Handles ([api/windows/helper.rs]) *)

(** [handler_create] *)
Definition handler_create (u : string) (hs : list Handler) : Z * list Handler :=
  let new_id := match last hs with None => 3 | Some h => wadd (hid h) 1 end in
  (new_id, hs ++ [mkHandler new_id u [] 0 false]).

(** [handler_exist] *)
Definition handler_exist (h : Z) (hs : list Handler) : bool := existsb (fun x => hid x =? h) hs.

(** [handler_close]: the first handle with that id goes *)
Fixpoint handler_close (h : Z) (hs : list Handler) : bool * list Handler :=
  match hs with
  | [] => (false, [])
  | x :: hs => if hid x =? h then (true, hs) else let '(r, hs) := handler_close h hs in (r, x :: hs)
  end.

(** [handler_get_uri] *)
Fixpoint handler_get_uri (h : Z) (hs : list Handler) : string :=
  match hs with
  | [] => ""
  | x :: hs => if hid x =? h then uri x else handler_get_uri h hs
  end.

(** ** Field updates *)

Section State.
Context {S X A W : Type}.
Implicit Types (m : Machine S X A W).

Definition set_threads (v : list (ThreadContext X A)) m : Machine S X A W :=
  mkMachine v (current_thread_id m) (tick m) (pos m) (instruction_count m) (tmaps m) (global_locks m)
    (handles m) (last_error m) (tcfg m) (enable_threading m) (process_terminated m) (is_running m) (world m).
Definition set_current (v : nat) m : Machine S X A W :=
  mkMachine (threads m) v (tick m) (pos m) (instruction_count m) (tmaps m) (global_locks m)
    (handles m) (last_error m) (tcfg m) (enable_threading m) (process_terminated m) (is_running m) (world m).
Definition set_tick (v : Z) m : Machine S X A W :=
  mkMachine (threads m) (current_thread_id m) v (pos m) (instruction_count m) (tmaps m) (global_locks m)
    (handles m) (last_error m) (tcfg m) (enable_threading m) (process_terminated m) (is_running m) (world m).
Definition set_pos (v : Z) m : Machine S X A W :=
  mkMachine (threads m) (current_thread_id m) (tick m) v (instruction_count m) (tmaps m) (global_locks m)
    (handles m) (last_error m) (tcfg m) (enable_threading m) (process_terminated m) (is_running m) (world m).
Definition set_count (v : Z) m : Machine S X A W :=
  mkMachine (threads m) (current_thread_id m) (tick m) (pos m) v (tmaps m) (global_locks m)
    (handles m) (last_error m) (tcfg m) (enable_threading m) (process_terminated m) (is_running m) (world m).
Definition set_tmaps (v : Maps S) m : Machine S X A W :=
  mkMachine (threads m) (current_thread_id m) (tick m) (pos m) (instruction_count m) v (global_locks m)
    (handles m) (last_error m) (tcfg m) (enable_threading m) (process_terminated m) (is_running m) (world m).
Definition set_locks (v : gmap Z CritState) m : Machine S X A W :=
  mkMachine (threads m) (current_thread_id m) (tick m) (pos m) (instruction_count m) (tmaps m) v
    (handles m) (last_error m) (tcfg m) (enable_threading m) (process_terminated m) (is_running m) (world m).
Definition set_handles (v : list Handler) m : Machine S X A W :=
  mkMachine (threads m) (current_thread_id m) (tick m) (pos m) (instruction_count m) (tmaps m) (global_locks m)
    v (last_error m) (tcfg m) (enable_threading m) (process_terminated m) (is_running m) (world m).
Definition set_last_error (v : Z) m : Machine S X A W :=
  mkMachine (threads m) (current_thread_id m) (tick m) (pos m) (instruction_count m) (tmaps m) (global_locks m)
    (handles m) v (tcfg m) (enable_threading m) (process_terminated m) (is_running m) (world m).
Definition set_threading (v : bool) m : Machine S X A W :=
  mkMachine (threads m) (current_thread_id m) (tick m) (pos m) (instruction_count m) (tmaps m) (global_locks m)
    (handles m) (last_error m) (tcfg m) v (process_terminated m) (is_running m) (world m).
Definition set_world (v : W) m : Machine S X A W :=
  mkMachine (threads m) (current_thread_id m) (tick m) (pos m) (instruction_count m) (tmaps m) (global_locks m)
    (handles m) (last_error m) (tcfg m) (enable_threading m) (process_terminated m) (is_running m) v.

(** [Emu::stop] *)
Definition stop m : Machine S X A W :=
  mkMachine (threads m) (current_thread_id m) (tick m) (pos m) (instruction_count m) (tmaps m) (global_locks m)
    (handles m) (last_error m) (tcfg m) (enable_threading m) true 0 (world m).

(** [Emu::current_thread], [Emu::regs] and writing through [current_thread_mut], [regs_mut] *)
Definition current_thread m : outcome (ThreadContext X A) := index (current_thread_id m) (threads m).
Definition put_current (t : ThreadContext X A) m : outcome (Machine S X A W) :=
  ts ← index_set (current_thread_id m) t (threads m); Ret (set_threads ts m).
Definition regs m : outcome Regs64 := t ← current_thread m; regs_x86 t.
Definition put_reg (f : Field) (v : Z) m : outcome (Machine S X A W) :=
  t ← current_thread m; r ← regs_x86 t; t ← put_regs_x86 (upd f v r) t; put_current t m.

(** A method call on [emu.maps]. *)
Definition with_maps {T} (f : Maps S -> outcome (T * Maps S)) m : outcome (T * Machine S X A W) :=
  '(v, mp) ← f (tmaps m); Ret (v, set_tmaps mp m).

(** [ApiAbi::arg] for the arguments passed in registers, [ApiAbi::set_ret] (api/abi.rs) *)
Definition abi_arg (i : nat) m : outcome Z :=
  t ← current_thread m;
  match arch t with
  | AArch64 x _ _ _ => Ret (default 0 (x !! i))
  | X86 r _ => match [rdi; rsi; rdx; rcx; r8; r9] !! i with Some f => Ret (r f) | None => Panic end
  end.
Definition set_ret (v : Z) m : outcome (Machine S X A W) :=
  t ← current_thread m;
  match arch t with
  | AArch64 x sp pc o => x ← index_set 0 v x; put_current (set_arch (AArch64 x sp pc o) t) m
  | X86 r o => put_current (set_arch (X86 (upd rax v r) o) t) m
  end.
End State.

(** Executing the instruction at the current thread's program counter (its size
    and whether it succeeded), moving past it, the limits of a run, and the late
    initialisation of the PEB. *)
Class Executor (S X A W : Type) := {
  decode_and_execute : Machine S X A W -> outcome (Z * bool * Machine S X A W);
  advance_pc : Z -> Machine S X A W -> outcome (Machine S X A W);
  check_runtime_limits : Machine S X A W -> bool;
  ensure_peb_system_dependent_07 : Machine S X A W -> Machine S X A W
}.

(** ** The schedulers *)

(** A computation that may also run out of fuel ([None]). *)
Definition run_of (T : Type) : Type := option (outcome T).

(** [usize::MAX] *)
Definition USIZE_MAX : Z := 2 ^ 64 - 1.

Section Scheduler.
Context {S X A W : Type} `{Executor S X A W}.
Implicit Types (m : Machine S X A W).

(** [ThreadScheduler::is_thread_runnable] *)
Definition is_thread_runnable (idx : nat) m : bool :=
  match threads m !! idx with Some t => is_runnable (tick m) t | None => false end.

(** The earliest wake time after [now] of a thread that is not suspended. *)
Definition next_wake (now : Z) (ts : list (ThreadContext X A)) : Z :=
  foldl (fun acc t => if negb (suspended t) && (now <? wake_tick t) then Z.min acc (wake_tick t) else acc)
    USIZE_MAX ts.

(** [ThreadScheduler::advance_to_next_wake] *)
Definition advance_to_next_wake m : bool * Machine S X A W :=
  let w := next_wake (tick m) (threads m) in
  if negb (w =? USIZE_MAX) && (tick m <? w) then (true, set_tick w m) else (false, m).

(** [ThreadScheduler::switch_to_thread] *)
Definition switch_to_thread (idx : nat) m : bool * Machine S X A W :=
  if (length (threads m) <=? idx)%nat then (false, m)
  else if (idx =? current_thread_id m)%nat then (true, m)
  else (true, set_current idx m).

(** [ThreadScheduler::execute_thread_instruction] *)
Definition execute_thread_instruction (idx : nat) m : outcome (bool * Machine S X A W) :=
  let '(ok, m) := if (current_thread_id m =? idx)%nat then (true, m) else switch_to_thread idx m in
  if negb ok then Ret (false, m)
  else
    '(sz, result_ok, m) ← decode_and_execute m;
    if sz =? 0 then Ret (false, m) else m ← advance_pc sz m; Ret (result_ok, m).

(** The loop of [schedule_next_thread]; [Some] is what it returns from inside. *)
Fixpoint schedule_scan (steps : list nat) m : option (bool * Machine S X A W) :=
  match steps with
  | [] => None
  | i :: steps =>
      let idx := ((current_thread_id m + i) mod length (threads m))%nat in
      if (idx =? current_thread_id m)%nat then
        if is_thread_runnable (current_thread_id m) m then Some (false, m) else None
      else if is_thread_runnable idx m then Some (true, (switch_to_thread idx m).2)
      else schedule_scan steps m
  end.

(** [ThreadScheduler::schedule_next_thread] *)
Fixpoint schedule_next_thread (fuel : nat) m : option (bool * Machine S X A W) :=
  match fuel with
  | O => None
  | Datatypes.S fuel =>
      if (length (threads m) <=? 1)%nat then Some (false, m)
      else
        match schedule_scan (seq 1 (length (threads m))) m with
        | Some r => Some r
        | None =>
            let '(advanced, m) := advance_to_next_wake m in
            if advanced then schedule_next_thread fuel m else Some (false, m)
        end
  end.

(** The first of the given distances from the current thread at which a thread is runnable. *)
Fixpoint first_runnable (steps : list nat) m : option nat :=
  match steps with
  | [] => None
  | i :: steps =>
      let idx := ((current_thread_id m + i) mod length (threads m))%nat in
      if is_thread_runnable idx m then Some idx else first_runnable steps m
  end.

(** [ThreadScheduler::step_with_scheduling].  [handle_exit] writes files only. *)
Fixpoint step_with_scheduling (fuel : nat) m : run_of (bool * Machine S X A W) :=
  match fuel with
  | O => None
  | Datatypes.S fuel =>
      let m := set_pos (wadd (pos m) 1) m in
      if negb (exit_position (tcfg m) =? 0) && (pos m =? exit_position (tcfg m)) then Some (Ret (false, m))
      else if (length (threads m) =? 1)%nat then
        if is_thread_runnable 0 m then Some (execute_thread_instruction 0 m) else Some (Ret (false, m))
      else if is_thread_runnable (current_thread_id m) m then
        Some (execute_thread_instruction (current_thread_id m) m)
      else
        match first_runnable (seq 1 (length (threads m) - 1)) m with
        | Some idx => Some (execute_thread_instruction idx m)
        | None =>
            let '(advanced, m) := advance_to_next_wake m in
            if advanced then step_with_scheduling fuel m else Some (Ret (false, m))
        end
  end.

(** [Emu::step_multi_threaded]; [step] is the call back into [Emu::step]. *)
Definition step_multi_threaded_with (step : Machine S X A W -> run_of (bool * Machine S X A W)) m
    : run_of (bool * Machine S X A W) :=
  let m := set_pos (wadd (pos m) 1) m in
  if negb (exit_position (tcfg m) =? 0) && (pos m =? exit_position (tcfg m)) then Some (Ret (false, m))
  else
    match threads m !! current_thread_id m with
    | None => Some Panic
    | Some t =>
        let num_threads := length (threads m) in
        let current_can_run := is_runnable (tick m) t in
        match (if (1 <? num_threads)%nat then first_runnable (seq 1 num_threads) m else None) with
        | Some idx => Some (execute_thread_instruction idx m)
        | None =>
            if current_can_run then Some (execute_thread_instruction (current_thread_id m) m)
            else
              let w := next_wake (tick m) (threads m) in
              if negb (w =? USIZE_MAX) && (tick m <? w) then step (set_tick w m) else Some (Ret (false, m))
        end
    end.

(** [Emu::step_isa], which [Emu::step] reaches for either architecture *)
Definition step_isa_with (multi : Machine S X A W -> run_of (bool * Machine S X A W)) m
    : run_of (bool * Machine S X A W) :=
  if process_terminated m then Some (Ret (false, m))
  else
    let m := if negb (os_linux (tcfg m)) && arch_is_64bits (tcfg m) && ssdt_use_ldr_initialize_thunk (tcfg m)
             then ensure_peb_system_dependent_07 m else m in
    if enable_threading m && (1 <? length (threads m))%nat then multi m
    else
      let m := set_pos (wadd (pos m) 1) m in
      if negb (exit_position (tcfg m) =? 0) && (pos m =? exit_position (tcfg m)) then Some (Ret (false, m))
      else
        let m := set_count (wadd (instruction_count m) 1) m in
        if check_runtime_limits m then Some (Ret (false, m))
        else
          Some ('(sz, result_ok, m) ← decode_and_execute m;
                if sz =? 0 then Ret (false, m) else m ← advance_pc sz m; Ret (result_ok, m)).

(** [Emu::step] *)
Fixpoint step (fuel : nat) m : run_of (bool * Machine S X A W) :=
  match fuel with
  | O => None
  | Datatypes.S fuel => step_isa_with (step_multi_threaded_with (step fuel)) m
  end.

Definition step_multi_threaded (fuel : nat) : Machine S X A W -> run_of (bool * Machine S X A W) :=
  step_multi_threaded_with (step fuel).
End Scheduler.

(** ** The Windows calls *)

Section Windows.
Context {S X A W : Type} `{Slab S}.
Implicit Types (m : Machine S X A W).

(** [helper::advance_tick] *)
Definition advance_tick (millis : Z) m : Machine S X A W :=
  set_tick (wadd (tick m) (if millis =? 0 then 1 + tick m mod 3 else millis)) m.

Definition EnterCriticalSection m : outcome (Machine S X A W) :=
  r ← regs m;
  t ← current_thread m;
  let m := set_handles (handler_create "EnterCriticalSection" (handles m)).2 m in
  let '(acquired, l) := enter (r rcx) (tid t) (global_locks m) in
  let m := set_locks l m in
  if acquired then Ret (advance_tick 1 m)
  else m ← put_current (set_blocked (Some (r rcx)) t) m; Ret (advance_tick 2 m).

(** The loop that wakes the thread that [leave] names. *)
Fixpoint wake_thread (wake_tid : Z) (ts : list (ThreadContext X A)) : list (ThreadContext X A) :=
  match ts with
  | [] => []
  | t :: ts => if tid t =? wake_tid then set_wake_tick 0 (set_blocked None t) :: ts else t :: wake_thread wake_tid ts
  end.

Definition LeaveCriticalSection m : outcome (Machine S X A W) :=
  r ← regs m;
  t ← current_thread m;
  let m := if handler_exist (r rcx) (handles m) then set_handles (handler_close (r rcx) (handles m)).2 m else m in
  let '(woken, l) := leave (r rcx) (tid t) (global_locks m) in
  let m := set_locks l m in
  let m := match woken with Some w => set_threads (wake_thread w (threads m)) m | None => m end in
  Ret (advance_tick 1 m).

Definition TryEnterCriticalSection m : outcome (Machine S X A W) :=
  _ ← regs m;
  let m := set_handles (handler_create "TryEnterCriticalSection" (handles m)).2 m in
  put_reg rax 1 (set_last_error 0 m).

(** The calls peek at a first argument that looks like a pointer; only the TLB notices. *)
Definition peek (p : Z) m : outcome (Machine S X A W) :=
  if p =? 0 then Ret m
  else
    '(mapped, mp) ← is_mapped p (tmaps m);
    if (mapped : bool) then '(_, mp) ← read_dword p mp; Ret (set_tmaps mp m) else Ret (set_tmaps mp m).

Definition Sleep m : outcome (Machine S X A W) :=
  r ← regs m;
  let millis := r rcx in
  m ← peek millis m;
  if short_circuit_sleep (tcfg m) then Ret (set_tick (wadd (tick m) 1) m)
  else
    m ← (if 0 <? millis then t ← current_thread m; put_current (set_wake_tick (wadd (tick m) millis) t) m
         else Ret m);
    Ret (advance_tick millis m).
End Windows.
