(* ===== verification/SchedSpec.v ===== *)
(** * What the schedulers do

    [step_multi_threaded] and [schedule_next_thread] against a description in
    terms of time and of the cyclic order of the threads: the step happens at
    the first moment at which some thread can run, and goes to the thread that
    comes next after the current one.  From it, that the recursion through
    sleeping threads ends, that no runnable thread starves, and what [step] returns
    when nobody can run again. *)

From stdpp Require Import gmap strings.
From S2P Require Import Prelude Scalar Mem64 Slab Tlb Maps Regs Threads.

Create HintDb mw_threads.

Lemma wadd_nonneg a b : 0 <= wadd a b.
Proof. apply Z.mod_pos_bound. lia. Qed.

(** ** Specification *)

Section Spec.
Context {S X A W : Type}.
Implicit Types (m : Machine S X A W) (ts : list (ThreadContext X A)).

(** Some thread can run at time [now]. *)
Definition somebody_runs (now : Z) ts : Prop := exists t, t ∈ ts /\ is_runnable now t = true.

(** The moments the clock can be moved to: the last value of the counter stands for never. *)
Definition within_reach (now T : Z) : Prop := T = now \/ now < T < USIZE_MAX.

(** [T] is the first moment from [now] on at which a thread can run. *)
Definition first_moment (now T : Z) ts : Prop :=
  within_reach now T /\ somebody_runs T ts /\ forall T', now <= T' < T -> ~ somebody_runs T' ts.

Definition never_again (now : Z) ts : Prop := forall T, within_reach now T -> ~ somebody_runs T ts.

(** The [i]-th thread after the current one, cyclically *)
Definition after (i : nat) m : nat := ((current_thread_id m + i) mod length (threads m))%nat.

(** [k] is the first thread after the current one that can run; the current one comes last. *)
Definition next_in_turn (k : nat) m : Prop :=
  exists i, (1 <= i <= length (threads m))%nat /\ k = after i m /\ is_thread_runnable k m = true /\
    forall j, (1 <= j < i)%nat -> is_thread_runnable (after j m) m = false.

(** A state from which [step] goes on scheduling: several threads, threading on, no
    exit position and no pending initialisation. *)
Record scheduling m : Prop := {
  sch_several : (1 < length (threads m))%nat;
  sch_current : (current_thread_id m < length (threads m))%nat;
  sch_threading : enable_threading m = true;
  sch_alive : process_terminated m = false;
  sch_exit : exit_position (tcfg m) = 0;
  sch_peb : negb (os_linux (tcfg m)) && arch_is_64bits (tcfg m) && ssdt_use_ldr_initialize_thunk (tcfg m) = false
}.

(** Threads that the clock has not reached yet *)
Definition asleep (now : Z) (t : ThreadContext X A) : Prop := suspended t = false /\ now < wake_tick t.
#[export] Instance asleep_dec now t : Decision (asleep now t).
Proof. unfold asleep. solve_decision. Defined.
Definition sleepers (now : Z) ts : nat := length (filter (asleep now) ts).
End Spec.

(** ** Time *)

Section Time.
Context {X A : Type}.
Implicit Types (t : ThreadContext X A) (ts : list (ThreadContext X A)).

Lemma runnable_awake now t : is_runnable now t = true -> suspended t = false /\ wake_tick t <= now.
Proof. unfold is_runnable. rewrite !andb_true_iff, negb_true_iff, Z.leb_le. tauto. Qed.

Lemma runnable_mono now T t : is_runnable T t = true -> wake_tick t <= now -> is_runnable now t = true.
Proof. unfold is_runnable. rewrite !andb_true_iff, !Z.leb_le. tauto. Qed.

(** A thread that can run later but not now sleeps. *)
Lemma runnable_later now T t :
  is_runnable T t = true -> is_runnable now t = false -> asleep now t /\ wake_tick t <= T.
Proof.
  intros HT Hn. destruct (runnable_awake _ _ HT) as [Hs Hw]. split; [|exact Hw]. split; [exact Hs|].
  apply Z.nle_gt. intros Hle. rewrite (runnable_mono now T t HT Hle) in Hn. discriminate.
Qed.

Lemma next_wake_snoc now t ts :
  next_wake now (ts ++ [t]) = if decide (asleep now t) then Z.min (next_wake now ts) (wake_tick t) else next_wake now ts.
Proof.
  unfold next_wake. rewrite foldl_app. cbn [foldl]. case_decide as Ha.
  - destruct Ha as [-> Hl]. apply Z.ltb_lt in Hl. now rewrite Hl.
  - destruct (suspended t) eqn:Es; [reflexivity|]. destruct (Z.ltb_spec now (wake_tick t)); [|reflexivity].
    now destruct Ha.
Qed.

Lemma next_wake_max now ts : next_wake now ts <= USIZE_MAX.
Proof. induction ts as [|t ts IH] using rev_ind; [reflexivity|]. rewrite next_wake_snoc. case_decide; lia. Qed.

Lemma next_wake_le now ts t : t ∈ ts -> asleep now t -> next_wake now ts <= wake_tick t.
Proof.
  induction ts as [|u ts IH] using rev_ind; [intros []%not_elem_of_nil|].
  rewrite next_wake_snoc, elem_of_app, list_elem_of_singleton. intros [Hin| ->] Ha.
  - specialize (IH Hin Ha). case_decide; lia.
  - rewrite decide_True by exact Ha. lia.
Qed.

Lemma next_wake_in now ts :
  next_wake now ts <> USIZE_MAX -> exists t, t ∈ ts /\ asleep now t /\ next_wake now ts = wake_tick t.
Proof.
  induction ts as [|u ts IH] using rev_ind; [intros []; reflexivity|].
  rewrite next_wake_snoc. pose proof (next_wake_max now ts).
  assert (next_wake now ts <> USIZE_MAX -> exists t, t ∈ ts ++ [u] /\ asleep now t /\ next_wake now ts = wake_tick t) as IH'.
  { intros Hne. destruct (IH Hne) as (t & ? & ? & ?). exists t. rewrite elem_of_app. auto. }
  case_decide as Ha; [|exact IH']. intros Hne. destruct (Z.le_gt_cases (next_wake now ts) (wake_tick u)).
  - rewrite Z.min_l in * by lia. now apply IH'.
  - rewrite Z.min_r in * by lia. exists u. rewrite elem_of_app, list_elem_of_singleton. auto.
Qed.

Lemma sleepers_mono now w ts : now <= w -> (sleepers w ts <= sleepers now ts)%nat.
Proof.
  intros Hw. unfold sleepers. induction ts as [|u ts IH]; [reflexivity|]. rewrite !filter_cons.
  repeat case_decide; cbn [length]; try lia. unfold asleep in *. intuition lia.
Qed.

Lemma sleepers_drop now w ts t :
  now < w -> t ∈ ts -> suspended t = false -> now < wake_tick t <= w -> (sleepers w ts < sleepers now ts)%nat.
Proof.
  intros Hw Hin Hs Ht. apply list_elem_of_split in Hin as (l1 & l2 & ->). unfold sleepers.
  rewrite !filter_app, !filter_cons, !length_app.
  pose proof (sleepers_mono now w l1 ltac:(lia)). pose proof (sleepers_mono now w l2 ltac:(lia)). unfold sleepers in *.
  rewrite (decide_False (P := asleep w t)), (decide_True (P := asleep now t)) by (unfold asleep; intuition lia).
  cbn [length]. lia.
Qed.

(** Moving the clock to the next wake time, if there is one, wakes a sleeper and
    nobody could have run before. *)
Lemma next_wake_spec now ts :
  ~ somebody_runs now ts ->
  let w := next_wake now ts in
  if negb (w =? USIZE_MAX) && (now <? w)
  then now < w < USIZE_MAX /\ (sleepers w ts < sleepers now ts)%nat /\ forall T, now <= T < w -> ~ somebody_runs T ts
  else never_again now ts.
Proof.
  intros Hno w. assert (forall T t, t ∈ ts -> is_runnable T t = true -> w <= T) as Hw.
  { intros T t Hin Ht. destruct (runnable_later now T t Ht) as [Ha ?].
    - destruct (is_runnable now t) eqn:E; [|reflexivity]. destruct Hno. now exists t.
    - pose proof (next_wake_le now ts t Hin Ha). subst w. lia. }
  pose proof (next_wake_max now ts). destruct (Z.eqb_spec w USIZE_MAX) as [E|Hne]; cbn [negb andb].
  - intros T [->|HT]; [exact Hno|]. intros (t & Hin & Ht). specialize (Hw T t Hin Ht). lia.
  - destruct (next_wake_in now ts Hne) as (t & Hin & [Hs Hlt] & Ew). fold w in Ew.
    rewrite (proj2 (Z.ltb_lt now w)) by lia. split; [subst w; lia|]. split.
    + apply (sleepers_drop now w ts t); auto; lia.
    + intros T HT (u & Hu & Hr). specialize (Hw T u Hu Hr). lia.
Qed.

(** What the first moment is, seen from a later time before which nobody runs *)
Lemma first_moment_later now w T ts :
  now < w < USIZE_MAX -> (forall T', now <= T' < w -> ~ somebody_runs T' ts) ->
  first_moment w T ts -> first_moment now T ts.
Proof.
  intros Hw Hno (Hr & Hs & Hb). split; [|split; [exact Hs|]].
  - right. destruct Hr; lia.
  - intros T' HT'. destruct (Z.lt_ge_cases T' w); [apply Hno | apply Hb]; lia.
Qed.

Lemma never_again_later now w ts :
  now < w < USIZE_MAX -> (forall T', now <= T' < w -> ~ somebody_runs T' ts) ->
  never_again w ts -> never_again now ts.
Proof.
  intros Hw Hno Hn T HT. destruct (Z.lt_ge_cases T w) as [|Hge].
  - apply Hno. destruct HT; lia.
  - apply Hn. destruct HT; [lia|]. destruct (Z.eq_dec T w); [now left | right; lia].
Qed.

Lemma sleepers_le now ts : (sleepers now ts <= length ts)%nat.
Proof. apply length_filter. Qed.
End Time.

(** ** Turns *)

Section Turns.
Context {S X A W : Type} `{Executor S X A W}.
Implicit Types (m : Machine S X A W).

Lemma after_lt i m : (0 < length (threads m))%nat -> (after i m < length (threads m))%nat.
Proof. intros. apply Nat.mod_upper_bound. lia. Qed.

Lemma after_own m : (current_thread_id m < length (threads m))%nat -> after (length (threads m)) m = current_thread_id m.
Proof.
  intros. unfold after. replace (current_thread_id m + length (threads m))%nat
    with (current_thread_id m + 1 * length (threads m))%nat by lia.
  rewrite Nat.Div0.mod_add. now apply Nat.mod_small.
Qed.

(** Going once around the threads meets them all. *)
Lemma after_covers k m :
  (current_thread_id m < length (threads m))%nat -> (k < length (threads m))%nat ->
  exists i, (1 <= i <= length (threads m))%nat /\ after i m = k.
Proof.
  intros Hc Hk. unfold after. destruct (Nat.le_gt_cases k (current_thread_id m)).
  - exists (k + length (threads m) - current_thread_id m)%nat. split; [lia|].
    replace (current_thread_id m + _)%nat with (k + 1 * length (threads m))%nat by lia.
    rewrite Nat.Div0.mod_add. now apply Nat.mod_small.
  - exists (k - current_thread_id m)%nat. split; [lia|].
    replace (current_thread_id m + _)%nat with k by lia. now apply Nat.mod_small.
Qed.

Lemma after_own_only s m :
  (1 <= s <= length (threads m))%nat -> (current_thread_id m < length (threads m))%nat ->
  after s m = current_thread_id m -> s = length (threads m).
Proof.
  intros Hs Hc. unfold after. intros E. destruct (Nat.lt_ge_cases (current_thread_id m + s) (length (threads m))).
  - rewrite Nat.mod_small in E by lia. lia.
  - replace (current_thread_id m + s)%nat with (current_thread_id m + s - length (threads m) + 1 * length (threads m))%nat in E by lia.
    rewrite Nat.Div0.mod_add, Nat.mod_small in E by lia. lia.
Qed.

Lemma somebody_index m :
  somebody_runs (tick m) (threads m) <-> exists k, (k < length (threads m))%nat /\ is_thread_runnable k m = true.
Proof.
  unfold somebody_runs, is_thread_runnable. split.
  - intros (t & Hin & Ht). apply list_elem_of_lookup in Hin as [k Ek]. exists k. rewrite Ek. split; [|exact Ht].
    now apply lookup_lt_Some in Ek.
  - intros (k & _ & Hk). destruct (threads m !! k) as [t|] eqn:Ek; [|discriminate].
    exists t. split; [now apply list_elem_of_lookup_2 in Ek | exact Hk].
Qed.

Lemma first_runnable_from m s n :
  match first_runnable (seq s n) m with
  | Some k => exists i, (s <= i < s + n)%nat /\ k = after i m /\ is_thread_runnable k m = true /\
                forall j, (s <= j < i)%nat -> is_thread_runnable (after j m) m = false
  | None => forall j, (s <= j < s + n)%nat -> is_thread_runnable (after j m) m = false
  end.
Proof.
  revert s. induction n as [|n IH]; intros s; cbn [seq first_runnable]; [intros; lia|].
  change ((_ + s) mod _)%nat with (after s m). destruct (is_thread_runnable (after s m) m) eqn:E.
  - exists s. repeat split; auto; intros; lia.
  - specialize (IH (Datatypes.S s)). destruct (first_runnable _ m) as [k|].
    + destruct IH as (i & ? & ? & ? & Hb). exists i. do 3 (split; [auto; lia|]).
      intros j ?. destruct (Nat.eq_dec j s) as [->|]; [exact E | apply Hb; lia].
    + intros j ?. destruct (Nat.eq_dec j s) as [->|]; [exact E | apply IH; lia].
Qed.

Lemma first_runnable_turn m :
  (current_thread_id m < length (threads m))%nat ->
  match first_runnable (seq 1 (length (threads m))) m with
  | Some k => next_in_turn k m
  | None => ~ somebody_runs (tick m) (threads m)
  end.
Proof.
  intros Hc. pose proof (first_runnable_from m 1 (length (threads m))) as Hf. destruct (first_runnable _ m).
  - destruct Hf as (i & ? & Hf). exists i. split; [lia | exact Hf].
  - rewrite somebody_index. intros (k & Hk & Ek). destruct (after_covers k m Hc Hk) as (i & ? & Ei).
    specialize (Hf i ltac:(lia)). congruence.
Qed.

Lemma scan_from m s n :
  (1 <= s)%nat -> (s + n = Datatypes.S (length (threads m)))%nat -> (current_thread_id m < length (threads m))%nat ->
  (forall j, (1 <= j < s)%nat -> is_thread_runnable (after j m) m = false) ->
  match schedule_scan (seq s n) m with
  | Some (b, m') => exists k, next_in_turn k m /\ m' = set_current k m /\ b = negb (k =? current_thread_id m)%nat
  | None => ~ somebody_runs (tick m) (threads m)
  end.
Proof.
  intros Hs Hn Hc. revert s Hs Hn. induction n as [|n IH]; intros s Hs Hn Hb; cbn [seq schedule_scan].
  - rewrite somebody_index. intros (k & Hk & Ek). destruct (after_covers k m Hc Hk) as (i & ? & Ei).
    specialize (Hb i ltac:(lia)). congruence.
  - change ((_ + s) mod _)%nat with (after s m).
    assert (next_in_turn (after s m) m \/ is_thread_runnable (after s m) m = false) as [Ht|Hno].
    { destruct (is_thread_runnable (after s m) m) eqn:E; [left | now right]. exists s. repeat split; auto; lia. }
    + destruct (Nat.eqb_spec (after s m) (current_thread_id m)) as [E|E].
      * rewrite E in Ht. destruct Ht as (i & ? & ? & Hr & ?). rewrite Hr. exists (current_thread_id m).
        rewrite Nat.eqb_refl. split; [now exists i|]. split; [now destruct m | reflexivity].
      * assert (is_thread_runnable (after s m) m = true) as -> by (now destruct Ht as (? & ? & ? & ? & ?)).
        exists (after s m). split; [exact Ht|]. apply Nat.eqb_neq in E. unfold switch_to_thread.
        rewrite (proj2 (Nat.leb_gt _ _)) by (apply after_lt; lia). now rewrite E.
    + destruct (Nat.eqb_spec (after s m) (current_thread_id m)) as [E|E].
      * rewrite E in Hno. rewrite Hno. rewrite somebody_index. intros (k & Hk & Ek).
        destruct (after_covers k m Hc Hk) as (i & ? & Ei). destruct (Nat.lt_trichotomy i s) as [?|[->|?]].
        -- specialize (Hb i ltac:(lia)). congruence.
        -- congruence.
        -- assert (s = length (threads m)) as -> by (apply (after_own_only s m); auto; lia). lia.
      * rewrite Hno. apply IH; [lia | lia |]. intros j ?. destruct (Nat.eq_dec j s) as [->|]; [exact Hno | apply Hb; lia].
Qed.
End Turns.

(** ** Scheduling *)

Section Scheduling.
Context {S X A W : Type} `{Executor S X A W}.
Implicit Types (m : Machine S X A W).

Lemma step_scheduling fuel m : scheduling m -> step (Datatypes.S fuel) m = step_multi_threaded fuel m.
Proof.
  intros Hs. cbn [step]. unfold step_isa_with. rewrite (sch_alive _ Hs), (sch_peb _ Hs), (sch_threading _ Hs).
  now rewrite (proj2 (Nat.ltb_lt _ _)) by apply Hs.
Qed.

Lemma scheduling_tick T p m : scheduling m -> scheduling (set_tick T (set_pos p m)).
Proof. now intros []. Qed.

(** One round of [step_multi_threaded]: somebody runs now, or the clock moves. *)
Lemma multi_round fuel m :
  scheduling m ->
  (exists k, somebody_runs (tick m) (threads m) /\ next_in_turn k m /\
     step_multi_threaded fuel m = Some (execute_thread_instruction k (set_pos (wadd (pos m) 1) m))) \/
  (~ somebody_runs (tick m) (threads m) /\
   step_multi_threaded fuel m =
     let w := next_wake (tick m) (threads m) in
     if negb (w =? USIZE_MAX) && (tick m <? w) then step fuel (set_tick w (set_pos (wadd (pos m) 1) m))
     else Some (Ret (false, set_pos (wadd (pos m) 1) m))).
Proof.
  intros Hs. unfold step_multi_threaded, step_multi_threaded_with.
  set (m1 := set_pos (wadd (pos m) 1) m). change (tcfg m1) with (tcfg m). rewrite (sch_exit _ Hs). cbn [Z.eqb negb andb].
  change (threads m1) with (threads m). change (current_thread_id m1) with (current_thread_id m). change (tick m1) with (tick m).
  destruct (lookup_lt_is_Some_2 (threads m) (current_thread_id m) (sch_current _ Hs)) as [t Et]. rewrite Et.
  rewrite (proj2 (Nat.ltb_lt _ _)) by apply Hs.
  pose proof (first_runnable_turn m1 (sch_current _ Hs)) as Hf. change (threads m1) with (threads m) in Hf.
  destruct (first_runnable _ m1) as [k|].
  - left. exists k. split; [|split; [exact Hf | reflexivity]].
    apply somebody_index. exists k. destruct Hf as (i & ? & -> & Hr & _). split; [apply (after_lt i m1); cbn in *; lia | exact Hr].
  - right. split; [exact Hf|]. destruct (is_runnable (tick m) t) eqn:Er; [|reflexivity].
    destruct Hf. exists t. split; [now apply list_elem_of_lookup_2 in Et | exact Er].
Qed.

Lemma first_moment_now now (ts : list (ThreadContext X A)) : somebody_runs now ts -> first_moment now now ts.
Proof. intros Hs. split; [now left|]. split; [exact Hs|]. intros; lia. Qed.

Lemma set_tick_same m : set_tick (tick m) m = m.
Proof. now destruct m. Qed.

(** What a step comes to: after [j] moves of the clock, to [T], a thread is given
    its turn, or nobody can run again. *)
Definition comes_to (r : run_of (bool * Machine S X A W)) (j : nat) (T : Z) m : Prop :=
  let m' := set_pos (wrap 64 (pos m + 1 + Z.of_nat j)) (set_tick T m) in
  (first_moment (tick m) T (threads m) /\
   exists k, next_in_turn k m' /\ r = Some (execute_thread_instruction k m')) \/
  (never_again (tick m) (threads m) /\ tick m <= T /\ r = Some (Ret (false, m'))).

Lemma multi_stop fuel m :
  scheduling m ->
  comes_to (step_multi_threaded fuel m) 0 (tick m) m \/
  exists w, let m1 := set_tick w (set_pos (wadd (pos m) 1) m) in
    tick m < w < USIZE_MAX /\ (sleepers w (threads m) < sleepers (tick m) (threads m))%nat /\
    (forall T, tick m <= T < w -> ~ somebody_runs T (threads m)) /\ step_multi_threaded fuel m = step fuel m1.
Proof.
  intros Hs. destruct (multi_round fuel m Hs) as [(k & Hr & Hk & E)|[Hno E]]; rewrite E.
  - left. left. split; [now apply first_moment_now|]. exists k. rewrite set_tick_same, Z.add_0_r. now split.
  - pose proof (next_wake_spec (tick m) (threads m) Hno) as Hw. cbv zeta in Hw |- *. destruct (negb _ && _).
    + right. exists (next_wake (tick m) (threads m)). destruct Hw as (? & ? & ?). auto.
    + left. right. split; [exact Hw|]. split; [lia|]. now rewrite set_tick_same, Z.add_0_r.
Qed.

Lemma comes_to_later r j T w m :
  tick m < w < USIZE_MAX -> (forall T', tick m <= T' < w -> ~ somebody_runs T' (threads m)) ->
  comes_to r j T (set_tick w (set_pos (wadd (pos m) 1) m)) -> comes_to r (Datatypes.S j) T m.
Proof.
  intros Hw Hb. unfold comes_to. cbn [tick threads pos set_tick set_pos].
  assert (wrap 64 (wadd (pos m) 1 + 1 + Z.of_nat j) = wrap 64 (pos m + 1 + Z.of_nat (Datatypes.S j))) as ->.
  { unfold wadd, wrap. rewrite <- Z.add_assoc, Zplus_mod_idemp_l. f_equal. lia. }
  intros [[Hfm Hk]|(Hna & HT & Hk)]; [left | right].
  - split; [now apply (first_moment_later _ w) | exact Hk].
  - split; [now apply (never_again_later _ w)|]. split; [lia | exact Hk].
Qed.

Lemma multi_step fuel m :
  scheduling m -> (sleepers (tick m) (threads m) <= fuel)%nat ->
  exists j T, (j <= sleepers (tick m) (threads m))%nat /\ comes_to (step_multi_threaded fuel m) j T m.
Proof.
  revert m. induction fuel as [|fuel IH]; intros m Hs Hf.
  - destruct (multi_stop 0 m Hs) as [Hc|(w & ? & ? & _)]; [|lia].
    exists 0%nat, (tick m). split; [lia | exact Hc].
  - destruct (multi_stop (Datatypes.S fuel) m Hs) as [Hc|(w & Hw & Hlt & Hb & E)].
    { exists 0%nat, (tick m). split; [lia | exact Hc]. }
    pose proof (scheduling_tick w (wadd (pos m) 1) m Hs) as Hs1. rewrite E, step_scheduling by exact Hs1.
    destruct (IH _ Hs1) as (j & T & Hj & Hc); cbn [tick threads set_tick set_pos] in *; [lia|].
    exists (Datatypes.S j), T. split; [lia | now apply (comes_to_later _ _ _ w)].
Qed.

(** [schedule_next_thread] makes the same choice without running it. *)
Definition settles (r : option (bool * Machine S X A W)) (T : Z) m : Prop :=
  (first_moment (tick m) T (threads m) /\
   exists k, next_in_turn k (set_tick T m) /\
     r = Some (negb (k =? current_thread_id m)%nat, set_current k (set_tick T m))) \/
  (never_again (tick m) (threads m) /\ tick m <= T /\ r = Some (false, set_tick T m)).

Lemma schedule_spec fuel m :
  (1 < length (threads m))%nat -> (current_thread_id m < length (threads m))%nat ->
  (sleepers (tick m) (threads m) < fuel)%nat -> exists T, settles (schedule_next_thread fuel m) T m.
Proof.
  revert m. induction fuel as [|fuel IH]; intros m Hn Hc Hf; [lia|]. cbn [schedule_next_thread].
  rewrite (proj2 (Nat.leb_gt _ _)) by exact Hn.
  pose proof (scan_from m 1 (length (threads m)) ltac:(lia) ltac:(lia) Hc) as Hs.
  destruct (schedule_scan _ m) as [[b m']|].
  - destruct Hs as (k & Hk & -> & ->); [intros; lia|]. exists (tick m). left. rewrite set_tick_same.
    split; [|now exists k]. apply first_moment_now, somebody_index. exists k.
    destruct Hk as (i & ? & -> & ? & _). split; [apply after_lt; lia | assumption].
  - pose proof (next_wake_spec (tick m) (threads m) (Hs ltac:(intros; lia))) as Hw. unfold advance_to_next_wake.
    cbv zeta in Hw. destruct (negb _ && _).
    + destruct Hw as (Hw & Hlt & Hb). set (w := next_wake _ _) in *.
      destruct (IH (set_tick w m) Hn Hc) as (T & HT); [cbn [tick threads set_tick]; lia|]. exists T.
      destruct HT as [[Hfm Hk]|(Hna & HT & Hk)]; [left | right]; cbn [tick threads set_tick] in *.
      * split; [now apply (first_moment_later _ w) | exact Hk].
      * split; [now apply (never_again_later _ w)|]. split; [lia | exact Hk].
    + exists (tick m). right. rewrite set_tick_same. split; [exact Hw|]. split; [lia | reflexivity].
Qed.

(** *** Fairness *)

(** The state in which the thread next in turn executes *)
Definition counted m : Machine S X A W := set_pos (wadd (pos m) 1) m.

(** The instruction of the thread next in turn leaves the choice of the thread after it to the
    scheduler: [current_thread_id] stays where the scheduler put it. *)
Definition leaves_turn m : Prop :=
  forall k b m', next_in_turn k m -> execute_thread_instruction k (counted m) = Ret (b, m') -> current_thread_id m' = k.

(** A run: each state comes from the one before by a step. *)
Inductive trace : Machine S X A W -> list (Machine S X A W) -> Prop :=
  | trace_end m : trace m []
  | trace_step m b m' ms :
      step_multi_threaded (length (threads m)) m = Some (Ret (b, m')) -> trace m' ms -> trace m (m' :: ms).

(** [t] waits for its turn among [n] threads. *)
Definition waiting (t n : nat) m : Prop := scheduling m /\ length (threads m) = n /\ is_thread_runnable t m = true.

(** In the run from [m] through [ms] a step executes an instruction of [t]. *)
Definition served (t : nat) m (ms : list (Machine S X A W)) : Prop :=
  exists pre x x' post, m :: ms = pre ++ x :: x' :: post /\ current_thread_id x' = t /\
    step_multi_threaded (length (threads x)) x = Some (execute_thread_instruction t (counted x)).

Lemma served_later t m m' ms : served t m' ms -> served t m (m' :: ms).
Proof. intros (pre & x & x' & post & E & Hs). exists (m :: pre), x, x', post. split; [cbn; now rewrite <- E | exact Hs]. Qed.

(** If [t] can run now and is [d] turns away, the step is at once and serves a thread at
    most [d] turns away. *)
Lemma turn_approaches t n m b m' d :
  waiting t n m -> leaves_turn m -> (1 <= d <= n)%nat -> after d m = t ->
  step_multi_threaded n m = Some (Ret (b, m')) ->
  exists i, (1 <= i <= d)%nat /\ current_thread_id m' = after i m /\
    step_multi_threaded n m = Some (execute_thread_instruction (after i m) (counted m)).
Proof.
  intros (Hs & Hn & Hr) Hl Hd Ed Est. destruct (multi_round n m Hs) as [(k & _ & Hk & E)|[Hno _]].
  - destruct Hk as (i & Hi & Ek & Hkr & Hkb). exists i. split; [|split].
    + split; [easy|]. apply Nat.nlt_ge. intros Hlt. specialize (Hkb d ltac:(lia)). change (after d _) with (after d m) in Hkb.
      rewrite Ed in Hkb. change (is_thread_runnable t m = false) in Hkb. congruence.
    + change (after i _) with (after i m) in Ek. rewrite <- Ek. rewrite E in Est. injection Est as Est.
      apply (Hl k b m'); [|exact Est]. now exists i.
    + change (after i _) with (after i m) in Ek. now rewrite <- Ek.
  - destruct Hno. apply somebody_index. exists t. rewrite <- Ed in Hr |- *. split; [apply after_lt; lia | exact Hr].
Qed.

Lemma after_after i d m m' :
  length (threads m') = length (threads m) -> current_thread_id m' = after i m -> (i <= d)%nat ->
  after (d - i) m' = after d m.
Proof.
  intros El Ec Hi. unfold after at 1. rewrite Ec, El. unfold after. rewrite Nat.Div0.add_mod_idemp_l.
  f_equal. lia.
Qed.

Lemma turn_comes t n m ms d :
  trace m ms -> (forall x, x ∈ m :: ms -> waiting t n x /\ leaves_turn x) -> (1 <= d <= n)%nat -> after d m = t ->
  (d <= length ms)%nat -> served t m ms.
Proof.
  intros Htr. revert d. induction Htr as [m|m b m' ms Hst Htr IH]; intros d Hw Hd Ed Hl; [cbn in Hl; lia|].
  destruct (Hw m ltac:(left)) as [(Hs & Hn & Hr) Hlt].
  destruct (turn_approaches t n m b m' d) as (i & Hi & Ec & E); [now split; [|split] | exact Hlt | lia | easy | congruence |].
  destruct (Nat.eq_dec i d) as [->|Hne]; [exists [], m, m', ms; rewrite Ed in *; now rewrite Hn|].
  destruct (Hw m' ltac:(right; left)) as [(_ & Hn' & _) _]. apply served_later.
  apply (IH (d - i)%nat); [intros x Hx; apply Hw; now right | lia | | cbn in Hl; lia]. now rewrite (after_after i d m m') by (congruence || lia).
Qed.
End Scheduling.


(** ** Results *)

Section Results.
Context {S X A W : Type} `{Executor S X A W}.
Implicit Types (m : Machine S X A W).

(** C6. A step of the multi-threaded run loop returns, whatever the wake times of
    the threads: with at most one call of itself per thread it executes one
    instruction of the thread next in turn, at the first moment at which any thread
    can run, moving the clock there and nothing else but the position counter; if no
    thread can run again it reports failure and changes nothing but clock and
    counter. *)
Theorem step_multi_threaded_correct fuel m :
  scheduling m -> (length (threads m) <= fuel)%nat ->
  exists j T, (j <= length (threads m))%nat /\ comes_to (step_multi_threaded fuel m) j T m.
Proof.
  intros Hs Hf. pose proof (sleepers_le (tick m) (threads m)).
  destruct (multi_step fuel m Hs) as (j & T & Hj & Hc); [lia|]. exists j, T. split; [lia | exact Hc].
Qed.

(** [schedule_next_thread] returns after at most one call of itself per thread, and
    selects the thread next in turn at the first moment at which any can run. *)
Theorem schedule_next_thread_correct fuel m :
  (1 < length (threads m))%nat -> (current_thread_id m < length (threads m))%nat ->
  (length (threads m) < fuel)%nat -> exists T, settles (schedule_next_thread fuel m) T m.
Proof. intros Hn Hc Hf. pose proof (sleepers_le (tick m) (threads m)). apply schedule_spec; auto. lia. Qed.

(** C40. Round robin: among [n] threads, in any run of [n] steps of the loop in
    which a thread stays able to run, that thread executes an instruction, as long
    as the number of threads stays [n] and no instruction of the run changes
    current_thread_id (as only a fork and the exit of a forked process do). *)
Theorem round_robin_fair t n m ms :
  trace m ms -> length ms = n -> (t < n)%nat -> (forall x, x ∈ m :: ms -> waiting t n x /\ leaves_turn x) ->
  served t m ms.
Proof.
  intros Htr Hl Ht Hw. destruct (Hw m ltac:(left)) as [(Hs & Hn & _) _].
  destruct (after_covers t m (sch_current _ Hs)) as (d & Hd & Ed); [lia|].
  apply (turn_comes t n m ms d); auto; lia.
Qed.
End Results.
