(* ===== verification/LocksSpec.v ===== *)
(** * What critical sections guarantee

    An invariant that ties the table of critical sections to the threads that
    wait: a section has an owner exactly while it is entered, a thread is
    blocked on a section exactly while it is in its queue, once, and never the
    owner.  Every history of the calls, the guest's own computation and the
    scheduler keeps it.  Sections are handed over in the order of arrival. *)

From stdpp Require Import gmap strings.
From S2P Require Import Prelude Scalar Mem64 Slab Tlb Maps Regs Threads SchedSpec.

(** ** The table *)

Definition state_of (l : gmap Z CritState) (cs : Z) : CritState := default new_crit (l !! cs).
Definition queue_of (l : gmap Z CritState) (cs : Z) : list Z := wait_queue (state_of l cs).

(** An entered section has an owner, at most [n] levels deep, and only then a queue. *)
Record crit_ok (n : Z) (c : CritState) : Prop := {
  ck_owner : match owner_tid c with
             | None => recursion_count c = 0 /\ wait_queue c = []
             | Some o => 1 <= recursion_count c <= n /\ o ∉ wait_queue c
             end;
  ck_nodup : NoDup (wait_queue c) }.

Lemma state_of_insert l cs c cs' : state_of (<[cs := c]> l) cs' = if decide (cs = cs') then c else state_of l cs'.
Proof. unfold state_of. rewrite lookup_insert. now case_decide. Qed.

Lemma state_of_lookup l cs c : l !! cs = Some c -> state_of l cs = c.
Proof. unfold state_of. now intros ->. Qed.

Lemma crit_ok_mono n n' c : n <= n' -> crit_ok n c -> crit_ok n' c.
Proof. intros Hn [Ho Hd]. split; [|exact Hd]. destruct (owner_tid c); [|exact Ho]. destruct Ho. split; [lia | easy]. Qed.

Lemma new_crit_ok n : crit_ok n new_crit.
Proof. split; [easy | apply NoDup_nil_2]. Qed.

(** What [enter] does to its section *)
Definition entered (c : CritState) (id : Z) : bool * CritState :=
  match owner_tid c with
  | None => (true, mkCrit (Some id) 1 (wait_queue c))
  | Some o =>
      if o =? id then (true, mkCrit (Some o) (wadd (recursion_count c) 1) (wait_queue c))
      else (false, mkCrit (Some o) (recursion_count c)
             (if bool_decide (id ∈ wait_queue c) then wait_queue c else wait_queue c ++ [id]))
  end.

Lemma enter_entered cs id l :
  enter cs id l = ((entered (state_of l cs) id).1, <[cs := (entered (state_of l cs) id).2]> l).
Proof.
  unfold enter, entered. fold (state_of l cs). destruct (owner_tid (state_of l cs)); [|reflexivity].
  now destruct (_ =? id).
Qed.

(** What [leave] does to its section *)
Definition left_ (c : CritState) (id : Z) : option Z * CritState :=
  if bool_decide (owner_tid c = Some id) then
    if 1 <? recursion_count c then (None, mkCrit (owner_tid c) (recursion_count c - 1) (wait_queue c))
    else match wait_queue c with
         | next_tid :: q => (Some next_tid, mkCrit (Some next_tid) 1 q)
         | [] => (None, new_crit)
         end
  else (None, c).

Lemma leave_left cs id l :
  (leave cs id l).1 = (left_ (state_of l cs) id).1 /\
  forall cs', state_of (leave cs id l).2 cs' = if decide (cs = cs') then (left_ (state_of l cs) id).2 else state_of l cs'.
Proof.
  unfold leave, left_. destruct (l !! cs) as [c|] eqn:E.
  - rewrite (state_of_lookup _ _ _ E). destruct (bool_decide _).
    + destruct (1 <? _); [|destruct (wait_queue c)]; (split; [reflexivity|]; intros; apply state_of_insert).
    + split; [reflexivity|]. intros. case_decide; [subst; now apply state_of_lookup | reflexivity].
  - assert (state_of l cs = new_crit) as -> by (unfold state_of; now rewrite E). cbn.
    split; [reflexivity|]. intros. case_decide; [subst; unfold state_of; now rewrite E | reflexivity].
Qed.

(** *** First come, first served *)

Inductive LockOp := Enter (cs id : Z) | Leave (cs id : Z).

(** A history of calls on the table: the threads that began to wait for [cs], in order,
    and those that were handed it. *)
Definition lock_op (o : LockOp) (l : gmap Z CritState) : gmap Z CritState :=
  match o with Enter cs id => (enter cs id l).2 | Leave cs id => (leave cs id l).2 end.

Definition arrives (o : LockOp) (cs : Z) (l : gmap Z CritState) : list Z :=
  match o with
  | Enter cs' id => if bool_decide (cs' = cs) && negb (enter cs' id l).1 && negb (bool_decide (id ∈ queue_of l cs))
                    then [id] else []
  | Leave _ _ => []
  end.

Definition granted (o : LockOp) (cs : Z) (l : gmap Z CritState) : list Z :=
  match o with
  | Enter _ _ => []
  | Leave cs' id => if bool_decide (cs' = cs) then option_list (leave cs' id l).1 else []
  end.

Fixpoint lock_run (os : list LockOp) (l : gmap Z CritState) : gmap Z CritState :=
  match os with [] => l | o :: os => lock_run os (lock_op o l) end.
Fixpoint arrivals (os : list LockOp) (cs : Z) (l : gmap Z CritState) : list Z :=
  match os with [] => [] | o :: os => arrives o cs l ++ arrivals os cs (lock_op o l) end.
Fixpoint grants (os : list LockOp) (cs : Z) (l : gmap Z CritState) : list Z :=
  match os with [] => [] | o :: os => granted o cs l ++ grants os cs (lock_op o l) end.

Lemma lock_op_queue o cs l : queue_of l cs ++ arrives o cs l = granted o cs l ++ queue_of (lock_op o l) cs.
Proof.
  destruct o as [cs' id|cs' id]; cbn [arrives granted lock_op app].
  - rewrite enter_entered. cbn [fst snd]. unfold queue_of. rewrite state_of_insert.
    destruct (decide (cs' = cs)) as [->|Hne]; [rewrite bool_decide_true by done | rewrite bool_decide_false by done; apply app_nil_r].
    unfold entered. destruct (owner_tid (state_of l cs)) as [o|]; [|apply app_nil_r].
    destruct (o =? id); [apply app_nil_r|]. cbn [fst snd negb andb wait_queue].
    destruct (bool_decide _); [apply app_nil_r | reflexivity].
  - destruct (leave_left cs' id l) as [E1 E2]. unfold queue_of. rewrite app_nil_r, E2, E1.
    destruct (decide (cs' = cs)) as [->|Hne]; [rewrite bool_decide_true by done | now rewrite bool_decide_false by done].
    unfold left_. destruct (bool_decide _); [|reflexivity]. destruct (1 <? _); [reflexivity|].
    now destruct (wait_queue (state_of l cs)).
Qed.

Lemma lock_run_queue os cs l :
  queue_of l cs ++ arrivals os cs l = grants os cs l ++ queue_of (lock_run os l) cs.
Proof.
  revert l. induction os as [|o os IH]; intros l; cbn [arrivals grants lock_run]; [now rewrite app_nil_r|].
  now rewrite app_assoc, lock_op_queue, <- !app_assoc, IH.
Qed.

(** ** Table and threads *)

Section Invariant.
Context {X A : Type}.
Implicit Types (t : ThreadContext X A) (ts : list (ThreadContext X A)).

Record lock_inv (n : Z) (l : gmap Z CritState) ts : Prop := {
  li_ids : NoDup (tid <$> ts);
  li_crit : forall cs, crit_ok n (state_of l cs);
  li_blocked : forall t cs, t ∈ ts -> blocked_on_cs t = Some cs <-> tid t ∈ queue_of l cs;
  li_known : forall cs w, w ∈ queue_of l cs -> w ∈ tid <$> ts;
  li_owner : forall cs o, owner_tid (state_of l cs) = Some o -> o ∈ tid <$> ts }.

Lemma lock_inv_mono n n' l ts : n <= n' -> lock_inv n l ts -> lock_inv n' l ts.
Proof. intros Hn []. split; auto. intros cs. now apply (crit_ok_mono n). Qed.

Lemma ids_insert i t t' ts : ts !! i = Some t -> tid t' = tid t -> tid <$> <[i := t']> ts = tid <$> ts.
Proof. intros E Et. rewrite list_fmap_insert, Et. apply list_insert_id. now rewrite list_lookup_fmap, E. Qed.

(** After replacing the [i]-th thread, the others are those with another id. *)
Lemma elem_insert i t t' ts x :
  NoDup (tid <$> ts) -> ts !! i = Some t -> x ∈ <[i := t']> ts -> x = t' \/ (x ∈ ts /\ tid x <> tid t).
Proof.
  intros Hd E Hx. apply list_elem_of_lookup in Hx as [j Ej].
  pose proof (lookup_lt_Some _ _ _ E). rewrite list_lookup_insert in Ej. case_decide as Hj; [left; congruence|].
  right. split; [now apply list_elem_of_lookup_2 in Ej|]. intros Et.
  assert (i = j); [|lia]. apply (NoDup_lookup (tid <$> ts) i j (tid t)); auto; rewrite list_lookup_fmap.
  - now rewrite E.
  - rewrite Ej. cbn. now rewrite Et.
Qed.

(** Replacing a thread, with its id, and a section at once: the thread that changes
    is blocked as its new queue says, and the others are in the same queues. *)
Lemma lock_inv_update n l l' ts i t t' :
  lock_inv n l ts -> ts !! i = Some t -> tid t' = tid t ->
  (forall cs, crit_ok n (state_of l' cs)) ->
  (forall cs, blocked_on_cs t' = Some cs <-> tid t ∈ queue_of l' cs) ->
  (forall cs w, w <> tid t -> w ∈ queue_of l' cs <-> w ∈ queue_of l cs) ->
  (forall cs o, owner_tid (state_of l' cs) = Some o -> o ∈ tid <$> ts) ->
  lock_inv n l' (<[i := t']> ts).
Proof.
  intros [Hi Hc Hb Hk Ho] E Et Hc' Hb' Hq Ho'. split; try rewrite (ids_insert i t) by auto; auto.
  - intros x cs Hx. destruct (elem_insert i t t' ts x Hi E Hx) as [->|[Hx' Hne]]; [rewrite Et; apply Hb'|].
    rewrite (Hq cs (tid x) Hne). now apply Hb.
  - intros cs w Hw. destruct (decide (w = tid t)) as [->|Hne]; [|now apply (Hk cs), Hq].
    apply list_elem_of_fmap. exists t. split; [reflexivity | now apply list_elem_of_lookup_2 in E].
Qed.

(** Only the owners and the counts change. *)
Lemma lock_inv_table n l l' ts :
  lock_inv n l ts -> (forall cs, crit_ok n (state_of l' cs)) -> (forall cs, queue_of l' cs = queue_of l cs) ->
  (forall cs o, owner_tid (state_of l' cs) = Some o -> o ∈ tid <$> ts) -> lock_inv n l' ts.
Proof.
  intros [Hi Hc Hb Hk Ho] Hc' Hq Ho'. split; auto.
  - intros t cs Ht. rewrite Hq. now apply Hb.
  - intros cs w. rewrite Hq. apply Hk.
Qed.

(** Only what a thread computes changes. *)
Lemma lock_inv_thread n l ts i t t' :
  lock_inv n l ts -> ts !! i = Some t -> tid t' = tid t -> blocked_on_cs t' = blocked_on_cs t ->
  lock_inv n l (<[i := t']> ts).
Proof.
  intros Hl E Et Eb. apply (lock_inv_update n l l ts i t t' Hl E Et); [apply Hl | | easy | apply Hl].
  intros cs. rewrite Eb. apply Hl. now apply list_elem_of_lookup_2 in E.
Qed.

Lemma member_id i t ts : ts !! i = Some t -> tid t ∈ tid <$> ts.
Proof. intros E. apply list_elem_of_fmap. exists t. split; [reflexivity | now apply list_elem_of_lookup_2 in E]. Qed.

Lemma not_blocked_queue n l ts i t cs :
  lock_inv n l ts -> ts !! i = Some t -> blocked_on_cs t = None -> tid t ∉ queue_of l cs.
Proof.
  intros Hl E Eb Hin. apply (li_blocked _ _ _ Hl t cs) in Hin; [congruence | now apply list_elem_of_lookup_2 in E].
Qed.

(** *** Entering *)

Lemma entered_ok n c id :
  0 <= n -> n + 1 < 2 ^ 64 -> crit_ok n c -> id ∉ wait_queue c -> crit_ok (n + 1) (entered c id).2.
Proof.
  intros Hn0 Hn [Ho Hd] Hid. unfold entered. destruct (owner_tid c) as [o|] eqn:Eo.
  - destruct Ho as [Hr Ho]. destruct (Z.eqb_spec o id) as [->|Hne]; cbn [snd].
    + split; cbn; [|exact Hd]. rewrite wadd_small by (unfold is_word; lia). split; [lia | exact Hid].
    + rewrite bool_decide_false by exact Hid. split; cbn.
      * split; [lia|]. rewrite elem_of_app, list_elem_of_singleton. intuition congruence.
      * apply NoDup_app. split; [exact Hd|]. split; [|apply NoDup_singleton]. intros x Hx ->%list_elem_of_singleton. easy.
  - destruct Ho as [_ ->]. split; cbn; [|apply NoDup_nil_2]. split; [lia | apply not_elem_of_nil].
Qed.

Lemma entered_queue c id :
  id ∉ wait_queue c ->
  wait_queue (entered c id).2 = if (entered c id).1 then wait_queue c else wait_queue c ++ [id].
Proof.
  intros Hid. unfold entered. destruct (owner_tid c) as [o|]; [|reflexivity]. destruct (o =? id); [reflexivity|].
  cbn. now rewrite bool_decide_false.
Qed.

Lemma entered_owner c id o : owner_tid (entered c id).2 = Some o -> o = id \/ owner_tid c = Some o.
Proof.
  unfold entered. destruct (owner_tid c) as [o'|]; cbn; [destruct (o' =? id); cbn; auto | intros [= ->]; auto].
Qed.

Lemma enter_inv n l ts i t cs :
  lock_inv n l ts -> 0 <= n -> n + 1 < 2 ^ 64 -> ts !! i = Some t -> blocked_on_cs t = None ->
  let '(acquired, l') := enter cs (tid t) l in
  lock_inv (n + 1) l' (if acquired then ts else <[i := set_blocked (Some cs) t]> ts).
Proof.
  intros Hl Hn0 Hn E Eb. rewrite enter_entered. pose proof (not_blocked_queue _ _ _ _ _ cs Hl E Eb) as Hq.
  pose proof (lock_inv_mono n (n + 1) l ts ltac:(lia) Hl) as Hl1.
  set (r := entered (state_of l cs) (tid t)).
  assert (forall cs', crit_ok (n + 1) (state_of (<[cs := r.2]> l) cs')) as Hc.
  { intros cs'. rewrite state_of_insert. case_decide; [|apply Hl1]. apply entered_ok; auto. apply Hl. }
  assert (forall cs' o, owner_tid (state_of (<[cs := r.2]> l) cs') = Some o -> o ∈ tid <$> ts) as Ho.
  { intros cs' o. rewrite state_of_insert. case_decide; [|apply Hl].
    intros [->|Hown]%entered_owner; [now apply member_id in E | now apply Hl in Hown]. }
  assert (forall cs', queue_of (<[cs := r.2]> l) cs' =
    if decide (cs = cs') then (if r.1 then queue_of l cs' else queue_of l cs' ++ [tid t]) else queue_of l cs') as Hqs.
  { intros cs'. unfold queue_of. rewrite state_of_insert. case_decide; [subst|reflexivity]. now apply entered_queue. }
  destruct (r.1) eqn:Er.
  - apply (lock_inv_table (n + 1) l); auto. intros cs'. rewrite Hqs. now case_decide.
  - apply (lock_inv_update (n + 1) l _ ts i t); auto; intros cs'; rewrite Hqs; cbn [blocked_on_cs set_blocked].
    + case_decide as Hd; [subst cs'|]; split.
      * intros _. rewrite elem_of_app, list_elem_of_singleton. auto.
      * reflexivity.
      * intros [= ->]. easy.
      * intros Hin. destruct (not_blocked_queue _ _ _ _ _ cs' Hl E Eb Hin).
    + intros w Hw. case_decide; [|easy]. rewrite elem_of_app, list_elem_of_singleton. intuition congruence.
Qed.

(** *** Leaving *)

Lemma wake_thread_insert w ts :
  NoDup (tid <$> ts) -> w ∈ tid <$> ts ->
  exists i t, ts !! i = Some t /\ tid t = w /\ wake_thread w ts = <[i := set_wake_tick 0 (set_blocked None t)]> ts.
Proof.
  induction ts as [|u ts IH]; cbn [fmap list_fmap wake_thread]; [intros _ []%not_elem_of_nil|].
  intros [_ Hd]%NoDup_cons Hin. destruct (Z.eqb_spec (tid u) w) as [E|E]; [now exists 0%nat, u|].
  apply elem_of_cons in Hin as [->|Hin]; [easy|]. destruct (IH Hd Hin) as (i & t & ? & ? & ->).
  now exists (S i), t.
Qed.

(** Leaving hands over to nobody, and nothing but the owner and the count changes, or
    to the first of the queue. *)
Lemma left_cases n c id :
  crit_ok n c ->
  match (left_ c id).1 with
  | None => crit_ok n (left_ c id).2 /\ wait_queue (left_ c id).2 = wait_queue c /\
            forall o, owner_tid (left_ c id).2 = Some o -> owner_tid c = Some o
  | Some w => exists q, wait_queue c = w :: q /\ owner_tid c = Some id /\ recursion_count c = 1 /\
                (left_ c id).2 = mkCrit (Some w) 1 q
  end.
Proof.
  intros [Ho Hd]. unfold left_. case_bool_decide as Eo; [|now split; [split|]]. rewrite Eo in *. destruct Ho as [Hr Hni].
  destruct (Z.ltb_spec 1 (recursion_count c)); cbn.
  - split; [|now split]. split; cbn; [split; [lia | exact Hni] | exact Hd].
  - destruct (wait_queue c) as [|w q] eqn:Eq; cbn.
    + split; [apply new_crit_ok | easy].
    + exists q. repeat split; auto; lia.
Qed.

Lemma leave_inv n l ts cs id :
  lock_inv n l ts -> 1 <= n ->
  let '(woken, l') := leave cs id l in
  lock_inv n l' (match woken with Some w => wake_thread w ts | None => ts end).
Proof.
  intros Hl Hn. destruct (leave_left cs id l) as [E1 E2]. destruct (leave cs id l) as [woken l']. cbn [fst snd] in *.
  pose proof (left_cases n (state_of l cs) id (li_crit _ _ _ Hl cs)) as Hc. rewrite <- E1 in Hc. destruct woken as [w|].
  - destruct Hc as (q & Eq & Eo & Er & Ec).
    assert (w ∈ queue_of l cs) as Hw by (unfold queue_of; rewrite Eq; left).
    destruct (wake_thread_insert w ts (li_ids _ _ _ Hl) (li_known _ _ _ Hl cs w Hw)) as (i & t & Ei & <- & ->).
    destruct (li_crit _ _ _ Hl cs) as [_ Hd]. rewrite Eq in Hd. apply NoDup_cons in Hd as [Hni Hd].
    rewrite Ec in E2. assert (blocked_on_cs t = Some cs) as Hb.
    { apply (li_blocked _ _ _ Hl); [now apply list_elem_of_lookup_2 in Ei | exact Hw]. }
    apply (lock_inv_update n l l' ts i t); auto; intros cs'; unfold queue_of; rewrite E2.
    + case_decide; [|apply Hl]. split; cbn; [split; [lia | exact Hni] | exact Hd].
    + split; [discriminate|]. case_decide; [easy|]. intros Hin.
      apply (li_blocked _ _ _ Hl t cs') in Hin; [congruence | now apply list_elem_of_lookup_2 in Ei].
    + intros w' Hne. case_decide; [subst; rewrite Eq; cbn; rewrite elem_of_cons; intuition congruence | easy].
    + intros o. case_decide; [intros [= <-]; now apply member_id in Ei | apply Hl].
  - destruct Hc as (Hc & Hq & Ho). apply (lock_inv_table n l); auto; intros cs'; unfold queue_of; rewrite E2; case_decide; subst; auto.
    + apply Hl.
    + intros o Hown. apply (li_owner _ _ _ Hl cs'). auto.
    + apply Hl.
Qed.
End Invariant.

(** ** Histories *)

Section History.
Context {S X A W : Type} `{Slab S}.
Implicit Types (m : Machine S X A W).

Definition inv (n : Z) m : Prop := lock_inv n (global_locks m) (threads m).

(** No section is in use and nobody waits for one. *)
Record unlocked m : Prop := {
  un_locks : global_locks m = ∅;
  un_ids : NoDup (tid <$> threads m);
  un_blocked : forall t, t ∈ threads m -> blocked_on_cs t = None }.

(** What can happen next: a runnable current thread makes a call or computes, the
    scheduler gives the turn to a runnable thread, the clock moves. *)
Inductive event : Machine S X A W -> Machine S X A W -> Prop :=
  | ev_enter m m' : is_thread_runnable (current_thread_id m) m = true -> EnterCriticalSection m = Ret m' -> event m m'
  | ev_leave m m' : is_thread_runnable (current_thread_id m) m = true -> LeaveCriticalSection m = Ret m' -> event m m'
  | ev_try m m' : is_thread_runnable (current_thread_id m) m = true -> TryEnterCriticalSection m = Ret m' -> event m m'
  | ev_sleep m m' : is_thread_runnable (current_thread_id m) m = true -> Sleep m = Ret m' -> event m m'
  | ev_compute m m' t a : is_thread_runnable (current_thread_id m) m = true ->
      threads m !! current_thread_id m = Some t -> put_current (set_arch a t) m = Ret m' -> event m m'
  | ev_turn m k : is_thread_runnable k m = true -> event m (set_current k m)
  | ev_clock m T p : event m (set_tick T (set_pos p m)).

Lemma runnable_current m :
  is_thread_runnable (current_thread_id m) m = true ->
  exists t, threads m !! current_thread_id m = Some t /\ blocked_on_cs t = None /\ current_thread m = Ret t.
Proof.
  unfold is_thread_runnable, current_thread, index. destruct (threads m !! _) as [t|]; [|discriminate].
  intros Hr. exists t. split; [reflexivity|]. split; [|reflexivity]. unfold is_runnable in Hr.
  destruct (blocked_on_cs t); [|reflexivity]. now rewrite !andb_false_r in Hr.
Qed.

Lemma put_current_eq t m :
  (current_thread_id m < length (threads m))%nat ->
  put_current t m = Ret (set_threads (<[current_thread_id m := t]> (threads m)) m).
Proof. intros. unfold put_current, index_set. now rewrite decide_True. Qed.

Lemma put_reg_inv n f v m m' : inv n m -> put_reg f v m = Ret m' -> inv n m'.
Proof.
  intros Hi. unfold put_reg, current_thread, index. destruct (threads m !! _) as [t|] eqn:Et; cbn; [|discriminate].
  unfold regs_x86, put_regs_x86. destruct (arch t); cbn; [|discriminate].
  rewrite put_current_eq by now apply lookup_lt_Some in Et. intros [= <-]. now apply (lock_inv_thread _ _ _ _ t).
Qed.

Lemma enter_event n m m' :
  inv n m -> 1 <= n -> n + 1 < 2 ^ 64 -> is_thread_runnable (current_thread_id m) m = true ->
  EnterCriticalSection m = Ret m' -> inv (n + 1) m'.
Proof.
  intros Hi H0 Hn (t & Et & Eb & Ec)%runnable_current. unfold EnterCriticalSection, regs. rewrite Ec. cbn.
  unfold regs_x86. destruct (arch t) as [r o|]; cbn; [|discriminate].
  pose proof (enter_inv n _ _ _ t (r rcx) Hi ltac:(lia) Hn Et Eb) as Hl. destruct (enter _ _ _) as [[] l].
  - now intros [= <-].
  - rewrite put_current_eq by now apply lookup_lt_Some in Et. now intros [= <-].
Qed.

Lemma leave_event n m m' : inv n m -> 1 <= n -> LeaveCriticalSection m = Ret m' -> inv n m'.
Proof.
  intros Hi Hn. unfold LeaveCriticalSection, regs. destruct (current_thread m) as [t|]; cbn; [|discriminate].
  unfold regs_x86. destruct (arch t) as [r o|]; cbn; [|discriminate].
  pose proof (leave_inv n _ _ (r rcx) (tid t) Hi Hn) as Hl.
  assert (forall b (hs : list Handler), global_locks (if b : bool then set_handles hs m else m) = global_locks m /\
    threads (if b then set_handles hs m else m) = threads m) as Hh by now intros [].
  destruct (Hh (handler_exist (r rcx) (handles m)) (handler_close (r rcx) (handles m)).2) as [-> Et].
  destruct (leave _ _ _) as [[w|] l]; intros [= <-]; unfold inv; cbn; now rewrite Et.
Qed.

Lemma peek_fields p m m' : peek p m = Ret m' -> threads m' = threads m /\ global_locks m' = global_locks m /\
  current_thread_id m' = current_thread_id m.
Proof.
  unfold peek. destruct (p =? 0); [now intros [= <-]|]. destruct (is_mapped _ _) as [[[] mp]|]; cbn; [| |discriminate].
  - destruct (read_dword _ _) as [[v mp']|]; cbn; [now intros [= <-] | discriminate].
  - now intros [= <-].
Qed.

Lemma sleep_event n m m' : inv n m -> Sleep m = Ret m' -> inv n m'.
Proof.
  intros Hi. unfold Sleep, regs. destruct (current_thread m) as [t|]; cbn; [|discriminate].
  unfold regs_x86. destruct (arch t) as [r o|]; cbn; [|discriminate].
  destruct (peek (r rcx) m) as [m1|] eqn:Ep; cbn; [|discriminate]. apply peek_fields in Ep as (Et & El & Ec).
  assert (inv n m1) as Hi1 by (unfold inv; now rewrite Et, El).
  destruct (short_circuit_sleep _); [now intros [= <-]|]. destruct (0 <? _); [|now intros [= <-]].
  unfold current_thread, index. destruct (threads m1 !! _) as [u|] eqn:Eu; cbn; [|discriminate].
  rewrite put_current_eq by now apply lookup_lt_Some in Eu. intros [= <-]. now apply (lock_inv_thread _ _ _ _ u).
Qed.

Lemma event_inv n m m' : inv n m -> 1 <= n -> n + 1 < 2 ^ 64 -> event m m' -> inv (n + 1) m'.
Proof.
  intros Hi H0 Hn Hev. destruct Hev as [m m' Hr E|m m' Hr E|m m' Hr E|m m' Hr E|m m' t a Hr Et E|m k Hk|m T p].
  1: now apply (enter_event n m).
  all: apply (lock_inv_mono n); [lia|].
  - now apply (leave_event n m).
  - unfold TryEnterCriticalSection in E. destruct (regs m); cbn in E; [|discriminate]. revert E. now apply put_reg_inv.
  - now apply (sleep_event n m).
  - rewrite put_current_eq in E by now apply lookup_lt_Some in Et. injection E as <-. now apply (lock_inv_thread _ _ _ _ t).
  - exact Hi.
  - exact Hi.
Qed.

Lemma unlocked_inv m : unlocked m -> inv 1 m.
Proof.
  intros [El Hi Hb]. unfold inv. rewrite El.
  assert (forall cs, state_of ∅ cs = new_crit) as Hn by (intros; unfold state_of; now rewrite lookup_empty).
  split; auto; intros cs; unfold queue_of; try rewrite Hn.
  - apply new_crit_ok.
  - intros cs' Ht. rewrite Hn, (Hb _ Ht). cbn. split; [discriminate | intros []%not_elem_of_nil].
  - intros w []%not_elem_of_nil.
  - discriminate.
Qed.

Lemma history_inv n m m' :
  unlocked m -> Z.of_nat n < 2 ^ 64 - 1 -> nsteps event n m m' -> inv (Z.of_nat n + 1) m'.
Proof.
  intros Hu. revert m'. induction n as [|n IH]; intros m' Hn Hs.
  - inversion Hs; subst. now apply unlocked_inv.
  - apply nsteps_inv_r in Hs as (m1 & Hs & Hev). replace (Z.of_nat (Datatypes.S n) + 1) with (Z.of_nat n + 1 + 1) by lia.
    apply (event_inv _ m1); [apply IH; [lia | exact Hs] | lia | lia | exact Hev].
Qed.
End History.

(** ** Results *)

(** C39. Critical sections are handed over first come, first served: whatever calls
    are made on the table, the threads that were waiting for a section followed by
    those that began to wait, in order, are those it was handed to followed by those
    still waiting. *)
Theorem sections_first_come os cs l :
  queue_of l cs ++ arrivals os cs l = grants os cs l ++ queue_of (lock_run os l) cs.
Proof. apply lock_run_queue. Qed.

Section Results.
Context {S X A W : Type} `{Slab S}.
Implicit Types (m : Machine S X A W).

(** C7. In every state that the threads reach by calling EnterCriticalSection,
    LeaveCriticalSection, TryEnterCriticalSection and Sleep, by computing and by
    being scheduled in any order (short of 2^64 events), a section has an owner
    exactly while it is entered, its queue has no duplicates and not its owner, and
    the threads blocked on it are those in its queue; so a blocked thread waits, in
    one queue only, for a section that another thread holds. *)
Theorem locks_history_safe n m m' :
  unlocked m -> Z.of_nat n < 2 ^ 64 - 1 -> nsteps event n m m' ->
  lock_inv (Z.of_nat n + 1) (global_locks m') (threads m') /\
  forall t cs, t ∈ threads m' -> blocked_on_cs t = Some cs ->
    (exists u, u ∈ threads m' /\ owner_tid (state_of (global_locks m') cs) = Some (tid u) /\ tid u <> tid t) /\
    forall cs', tid t ∈ queue_of (global_locks m') cs' -> cs' = cs.
Proof.
  intros Hu Hn Hs. pose proof (history_inv n m m' Hu Hn Hs) as Hi. split; [exact Hi|]. intros t cs Ht Eb.
  pose proof (proj1 (li_blocked _ _ _ Hi t cs Ht) Eb) as Hq. split.
  - destruct (li_crit _ _ _ Hi cs) as [Ho _]. destruct (owner_tid _) as [o|] eqn:Eo.
    + apply (li_owner _ _ _ Hi) in Eo as (u & -> & Hin)%list_elem_of_fmap. exists u. split; [exact Hin|].
      split; [reflexivity|]. intros E. rewrite E in Ho. now destruct Ho.
    + destruct Ho as [_ Ho]. unfold queue_of in Hq. rewrite Ho in Hq. now apply not_elem_of_nil in Hq.
  - intros cs' Hq'. apply (li_blocked _ _ _ Hi t cs' Ht) in Hq'. congruence.
Qed.

(** The last LeaveCriticalSection of the owner makes the first waiting thread the
    owner, one level deep, takes it out of the queue and unblocks it; every other
    thread stays as it is. *)
Theorem leave_hands_over n m t r o w q :
  lock_inv n (global_locks m) (threads m) ->
  threads m !! current_thread_id m = Some t -> arch t = X86 r o ->
  state_of (global_locks m) (r rcx) = mkCrit (Some (tid t)) 1 (w :: q) ->
  exists m' i u, LeaveCriticalSection m = Ret m' /\
    state_of (global_locks m') (r rcx) = mkCrit (Some w) 1 q /\
    threads m !! i = Some u /\ tid u = w /\
    threads m' = <[i := set_wake_tick 0 (set_blocked None u)]> (threads m).
Proof.
  intros Hi Et Ea Es. unfold LeaveCriticalSection, regs, current_thread, index. rewrite Et. cbn.
  unfold regs_x86. rewrite Ea. cbn.
  set (m1 := if handler_exist _ _ then _ else _).
  assert (global_locks m1 = global_locks m /\ threads m1 = threads m) as [El Eth] by (subst m1; now destruct handler_exist).
  rewrite El. destruct (leave_left (r rcx) (tid t) (global_locks m)) as [E1 E2].
  destruct (leave _ _ _) as [woken l']. cbn [fst snd] in *. rewrite Es in E1, E2. unfold left_ in E1, E2. cbn in E1, E2.
  rewrite bool_decide_true in E1, E2 by reflexivity. cbn in E1, E2. subst woken.
  assert (w ∈ tid <$> threads m) as Hw.
  { apply (li_known _ _ _ Hi (r rcx)). unfold queue_of. rewrite Es. left. }
  destruct (wake_thread_insert w _ (li_ids _ _ _ Hi) Hw) as (i & u & Eu & Etid & Ew).
  eexists _, i, u. split; [reflexivity|]. cbn. specialize (E2 (r rcx)). rewrite decide_True in E2 by reflexivity.
  rewrite Eth. auto.
Qed.
End Results.
