(* ===== verification/ThreadsLinux.v ===== *)
(** * Linux thread system calls ([syscall/linux/syscall64/thread.rs])

    [clone], [futex], [exit], [execve], [wait4], [waitid] and the small calls
    that the dispatcher of the file answers, on the thread list of Threads.v
    and the guest memory of Maps.v.  Tracing is left out. *)

From stdpp Require Import gmap strings.
From S2P Require Import Prelude Scalar Mem64 Slab Tlb Maps Regs Threads.

Definition CLONE_VM : Z := 0x100.
Definition CLONE_VFORK : Z := 0x4000.
Definition CLONE_SETTLS : Z := 0x80000.
Definition CLONE_PARENT_SETTID : Z := 0x100000.
Definition CLONE_CHILD_CLEARTID : Z := 0x200000.
Definition CLONE_CHILD_SETTID : Z := 0x1000000.
Definition FUTEX_WAIT : Z := 0.
Definition FUTEX_WAKE : Z := 1.
Definition FUTEX_WAIT_BITSET : Z := 9.
Definition FUTEX_WAKE_BITSET : Z := 10.
Definition EAGAIN : Z := 2 ^ 64 - 11.
Definition ENOSYS : Z := 2 ^ 64 - 38.
Definition SYSCALL_INSN_LEN : Z := 2.
Definition VFORK_WAIT_KEY : Z := 0xffffffff00000000.

(** [flags & bit != 0] *)
Definition has_flag (flags bit : Z) : bool := negb (Z.land flags bit =? 0).

Section Calls.
Context {S X A W : Type} `{Slab S}.
Implicit Types (m : Machine S X A W).

Definition current_tid m : outcome Z := t ← current_thread m; Ret (tid t).

Definition live_threads m : nat := length (filter (fun t => suspended t = false) (threads m)).

Definition yield_current m : outcome (Machine S X A W) :=
  if (1 <? live_threads m)%nat then
    t ← current_thread m; put_current (set_wake_tick (wadd (tick m) 1) t) m
  else Ret m.

(** The loop of [wake_waiters] *)
Fixpoint wake_from (uaddr max woken : Z) (ts : list (ThreadContext X A)) : Z * list (ThreadContext X A) :=
  match ts with
  | [] => (woken, [])
  | t :: ts =>
      if woken =? max then (woken, t :: ts)
      else if bool_decide (blocked_on_cs t = Some uaddr) then
        let '(n, ts) := wake_from uaddr max (wadd woken 1) ts in (n, set_wake_tick 0 (set_blocked None t) :: ts)
      else let '(n, ts) := wake_from uaddr max woken ts in (n, t :: ts)
  end.

Definition wake_waiters (uaddr max : Z) m : Z * Machine S X A W :=
  let '(n, ts) := wake_from uaddr max 0 (threads m) in (n, set_threads ts m).

Definition retire_current_thread m : outcome (Machine S X A W) :=
  t ← current_thread m;
  let id := tid t in
  let clear := clear_child_tid t in
  m ← (if clear =? 0 then Ret m
       else '(_, m) ← with_maps (write_dword clear 0) m; Ret (wake_waiters clear (2 ^ 64 - 1) m).2);
  let m := (wake_waiters (Z.lor VFORK_WAIT_KEY id) (2 ^ 64 - 1) m).2 in
  t ← current_thread m;
  put_current (set_suspended true t) m.

Definition ret0_named (v : Z) m : outcome (Machine S X A W) := put_reg rax v m.

(** The context of the new thread: the caller's, with its own identity, program counter
    and, as the flags say, stack and thread pointer. *)
Definition clone_child (flags stack child_tid_ptr tls id : Z) (t : ThreadContext X A) : outcome (ThreadContext X A) :=
  let clear := if has_flag flags CLONE_CHILD_CLEARTID then child_tid_ptr else 0 in
  let child := mkThread id false 0 None clear 0 (arch t) (exit_value t) (joining t) (blocked_on_lock t)
                 (cond_wait t) (exclusive t) in
  r ← regs_x86 child;
  let r := upd rax 0 r in
  let r := upd rip (wadd (r rip) SYSCALL_INSN_LEN) r in
  let r := if stack =? 0 then r else upd rsp stack r in
  let r := if has_flag flags CLONE_SETTLS then upd fs tls r else r in
  put_regs_x86 r child.

Definition clone m : outcome (Machine S X A W) :=
  r ← regs m;
  let flags := r rdi in
  let stack := r rsi in
  let parent_tid_ptr := r rdx in
  let child_tid_ptr := r r10 in
  let tls := r r8 in
  if negb (has_flag flags CLONE_VM) then put_reg rax 1001 m
  else
    let id := 0x1000 + Z.of_nat (length (threads m)) in
    t ← current_thread m;
    child ← clone_child flags stack child_tid_ptr tls id t;
    m ← (if has_flag flags CLONE_PARENT_SETTID
         then '(_, m) ← with_maps (write_dword parent_tid_ptr (wrap 32 id)) m; Ret m else Ret m);
    m ← (if has_flag flags CLONE_CHILD_SETTID
         then '(_, m) ← with_maps (write_dword child_tid_ptr (wrap 32 id)) m; Ret m else Ret m);
    let m := set_threads (threads m ++ [child]) m in
    m ← (if has_flag flags CLONE_VFORK
         then t ← current_thread m; put_current (set_blocked (Some (Z.lor VFORK_WAIT_KEY id)) t) m else Ret m);
    put_reg rax id (set_threading true m).

Definition futex m : outcome (Machine S X A W) :=
  r ← regs m;
  let uaddr := r rdi in
  let op := Z.land (r rsi) 0x7f in
  let val := wrap 32 (r rdx) in
  let timeout := r r10 in
  '(v, m) ←
    (if (op =? FUTEX_WAIT) || (op =? FUTEX_WAIT_BITSET) then
       '(cur, m) ← with_maps (read_dword uaddr) m;
       if negb (default 0 cur =? val) then Ret (EAGAIN, m)
       else if (live_threads m <=? 1)%nat then '(_, m) ← with_maps (write_dword uaddr 0) m; Ret (0, m)
       else if negb (timeout =? 0) then m ← yield_current m; Ret (0, m)
       else t ← current_thread m; m ← put_current (set_blocked (Some uaddr) t) m; Ret (0, m)
     else if (op =? FUTEX_WAKE) || (op =? FUTEX_WAKE_BITSET) then Ret (wake_waiters uaddr val m)
     else Ret (0, m));
  put_reg rax v m.

(** [proc::handle_syscall64_exit] *)
Definition handle_syscall64_exit m : outcome (Machine S X A W) := _ ← regs m; Ret (stop m).

Definition exit_thread m : outcome (Machine S X A W) :=
  if (live_threads m <=? 1)%nat then handle_syscall64_exit m
  else _ ← regs m; _ ← current_tid m; retire_current_thread m.

(** At most 64 strings: the loop ends by itself one round later. *)
Fixpoint read_string_array (rounds : nat) (ptr : Z) (out : list bytes) (mp : Maps S) : outcome (list bytes * Maps S) :=
  match rounds with
  | O => Ret (out, mp)
  | Datatypes.S rounds =>
      if ptr =? 0 then Ret (out, mp)
      else
        '(item, mp) ← read_qword ptr mp;
        match item with
        | None => Ret (out, mp)
        | Some item =>
            if (item =? 0) || (64 <=? length out)%nat then Ret (out, mp)
            else '(s, mp) ← read_string item mp; read_string_array rounds (wadd ptr 8) (out ++ [s]) mp
        end
  end.

Definition execve m : outcome (Machine S X A W) :=
  r ← regs m;
  '(_, m) ← with_maps (read_string (r rdi)) m;
  '(_, m) ← with_maps (read_string_array 65 (r rsi) []) m;
  id ← current_tid m;
  let key := Z.lor VFORK_WAIT_KEY id in
  m ← (if existsb (fun t => bool_decide (blocked_on_cs t = Some key)) (threads m)
       then retire_current_thread m else Ret m);
  put_reg rax 0 m.

Definition wait4 m : outcome (Machine S X A W) :=
  r ← regs m;
  let pid := sgn 64 (r rdi) in
  let status_ptr := r rsi in
  let id := if 0 <? pid then wrap 64 pid
            else match last (filter (fun t => suspended t = true) (threads m)) with Some t => tid t | None => 1001 end in
  m ← (if status_ptr =? 0 then Ret m else '(_, m) ← with_maps (write_dword status_ptr 0) m; Ret m);
  put_reg rax id m.

Definition waitid m : outcome (Machine S X A W) :=
  r ← regs m;
  let id := r rsi in
  let info := r rdx in
  m ← (if info =? 0 then Ret m
       else
         '(_, m) ← with_maps (write_dword info 17) m;
         '(_, m) ← with_maps (write_dword (wadd info 4) 0) m;
         '(_, m) ← with_maps (write_dword (wadd info 8) 1) m;
         '(_, m) ← with_maps (write_dword (wadd info 16) (wrap 32 id)) m;
         '(_, m) ← with_maps (write_dword (wadd info 20) 1000) m;
         '(_, m) ← with_maps (write_dword (wadd info 24) 0) m;
         Ret m);
  put_reg rax 0 m.

Definition dup3 m : outcome (Machine S X A W) := r ← regs m; put_reg rax (r rsi) m.

Definition gettid m : outcome (Machine S X A W) := id ← current_tid m; put_reg rax id m.

Definition set_tid_address m : outcome (Machine S X A W) :=
  r ← regs m;
  t ← current_thread m;
  m ← put_current (set_clear (r rdi) t) m;
  id ← current_tid m;
  put_reg rax id m.

Definition sched_yield m : outcome (Machine S X A W) := m ← yield_current m; put_reg rax 0 m.

(** [dispatch]: false for a call that another file answers *)
Definition dispatch m : outcome (bool * Machine S X A W) :=
  r ← regs m;
  let nr := r rax in
  let answer (c : outcome (Machine S X A W)) := m ← c; Ret (true, m) in
  if nr =? 56 then answer (clone m)
  else if nr =? 202 then answer (futex m)
  else if nr =? 60 then answer (exit_thread m)
  else if nr =? 59 then answer (execve m)
  else if nr =? 61 then answer (wait4 m)
  else if nr =? 247 then answer (waitid m)
  else if nr =? 434 then answer (ret0_named ENOSYS m)
  else if nr =? 186 then answer (gettid m)
  else if nr =? 110 then answer (ret0_named 1 m)
  else if nr =? 157 then answer (ret0_named 0 m)
  else if nr =? 292 then answer (dup3 m)
  else if nr =? 218 then answer (set_tid_address m)
  else if nr =? 24 then answer (sched_yield m)
  else Ret (false, m).
End Calls.
