(* ===== verification/FutexSpec.v ===== *)
(** * What the Linux thread calls guarantee

    Every call that the dispatcher answers returns and keeps the thread table
    well formed; [futex] wakes exactly the threads it should, in order, and
    blocks exactly when the word still holds the expected value; a thread that
    ends clears its word and releases whoever waits for it. *)

From stdpp Require Import gmap strings.
From S2P Require Import Prelude Scalar Mem64 Slab Tlb Maps MapsInv Regs Threads SchedSpec LocksSpec ThreadsLinux.

(** ** Waking *)

Section Wake.
Context {X A : Type}.
Implicit Types (t : ThreadContext X A) (ts : list (ThreadContext X A)).

Definition waits_on (uaddr : Z) t : bool := bool_decide (blocked_on_cs t = Some uaddr).
Definition waiters (uaddr : Z) ts : nat := length (filter (fun t => waits_on uaddr t = true) ts).
Definition released t : ThreadContext X A := set_wake_tick 0 (set_blocked None t).

Lemma waiters_cons uaddr t ts :
  waiters uaddr (t :: ts) = ((if waits_on uaddr t then 1 else 0) + waiters uaddr ts)%nat.
Proof. unfold waiters. rewrite filter_cons. case_decide as Hd; [now rewrite Hd|]. now destruct (waits_on uaddr t). Qed.

Lemma waiters_le uaddr ts : (waiters uaddr ts <= length ts)%nat.
Proof. apply length_filter. Qed.

(** A thread is woken exactly when it waits and fewer than [max] waiters come before it. *)
Lemma wake_from_spec uaddr max k ts :
  0 <= k <= max -> max < 2 ^ 64 ->
  (wake_from uaddr max k ts).1 = Z.min max (k + Z.of_nat (waiters uaddr ts)) /\
  length (wake_from uaddr max k ts).2 = length ts /\
  forall i t, ts !! i = Some t -> (wake_from uaddr max k ts).2 !! i =
    Some (if waits_on uaddr t && (k + Z.of_nat (waiters uaddr (take i ts)) <? max) then released t else t).
Proof.
  intros Hk Hmax. revert k Hk. induction ts as [|t ts IH]; intros k Hk; cbn [wake_from].
  - cbn. split; [lia|]. split; [reflexivity|]. intros i t. now rewrite lookup_nil.
  - rewrite waiters_cons. destruct (Z.eqb_spec k max) as [->|Hne].
    + cbn [fst snd]. split; [lia|]. split; [reflexivity|]. intros i u ->. rewrite (proj2 (Z.ltb_ge _ _)) by lia.
      now rewrite andb_false_r.
    + change (bool_decide (blocked_on_cs t = Some uaddr)) with (waits_on uaddr t). destruct (waits_on uaddr t) eqn:Ew.
      * rewrite wadd_small by (unfold is_word; lia). specialize (IH (k + 1) ltac:(lia)).
        destruct (wake_from _ _ (k + 1) ts) as [n us]. cbn [fst snd] in *. destruct IH as (-> & Hl & IH).
        split; [lia|]. split; [cbn; lia|]. intros [|i] u Eu.
        -- injection Eu as <-. rewrite Ew, (proj2 (Z.ltb_lt _ _)) by (cbn; lia). reflexivity.
        -- etransitivity; [exact (IH i u Eu)|]. cbn [take]. rewrite waiters_cons, Ew.
           now replace (k + 1 + _) with (k + Z.of_nat (1 + waiters uaddr (take i ts))) by lia.
      * specialize (IH k ltac:(lia)). destruct (wake_from _ _ k ts) as [n us]. cbn [fst snd] in *.
        destruct IH as (-> & Hl & IH). split; [lia|]. split; [cbn; lia|].
        intros [|i] u Eu.
        -- injection Eu as <-. now rewrite Ew.
        -- etransitivity; [exact (IH i u Eu)|]. cbn [take]. now rewrite waiters_cons, Ew.
Qed.

(** Waking without a limit releases all the waiters. *)
Lemma wake_all uaddr ts :
  Z.of_nat (length ts) < 2 ^ 64 - 1 ->
  (wake_from uaddr (2 ^ 64 - 1) 0 ts).2 = (fun t => if waits_on uaddr t then released t else t) <$> ts.
Proof.
  intros Hl. destruct (wake_from_spec uaddr (2 ^ 64 - 1) 0 ts) as (_ & Hlen & Hw); [lia | lia |].
  apply list_eq. intros i. rewrite list_lookup_fmap. destruct (ts !! i) as [t|] eqn:Et; cbn.
  - rewrite (Hw i t Et). pose proof (waiters_le uaddr (take i ts)). rewrite length_take in *.
    rewrite (proj2 (Z.ltb_lt _ _)) by lia. now rewrite andb_true_r.
  - apply lookup_ge_None. apply lookup_ge_None in Et. lia.
Qed.
End Wake.

(** ** Well-formed machines *)

Section Total.
Context {S X A W : Type} `{SlabLaws S}.
Implicit Types (m : Machine S X A W) (t : ThreadContext X A).

(** A thread on x86: its registers and the address of its clear word are words, and its
    id is its position. *)
Definition thread_ok (i : nat) t : Prop :=
  tid t = 0x1000 + Z.of_nat i /\ is_word 64 (clear_child_tid t) /\ exists r o, arch t = X86 r o /\ words r.

Record linux_ok m : Prop := {
  lo_maps : wf (tmaps m);
  lo_threads : forall i t, threads m !! i = Some t -> thread_ok i t;
  lo_current : (current_thread_id m < length (threads m))%nat }.

(** What a call may change: it can add a thread, and nothing of the run's other state. *)
Definition grows m m' : Prop :=
  current_thread_id m' = current_thread_id m /\
  (length (threads m) <= length (threads m') <= length (threads m) + 1)%nat.

Definition serves m (c : outcome (Machine S X A W)) : Prop :=
  exists m', c = Ret m' /\ linux_ok m' /\ grows m m'.

(** Calls that leave the number of threads alone chain. *)
Definition serves_same m (c : outcome (Machine S X A W)) : Prop :=
  exists m', c = Ret m' /\ linux_ok m' /\ current_thread_id m' = current_thread_id m /\ length (threads m') = length (threads m).

Lemma serves_weaken m c : serves_same m c -> serves m c.
Proof. intros (m' & E & Hok & Hc & Hl). exists m'. do 2 (split; [assumption|]). split; [exact Hc | lia]. Qed.

Lemma serves_ret m : linux_ok m -> serves_same m (Ret m).
Proof. intros Hok. now exists m. Qed.

Lemma serves_bind m (c : outcome (Machine S X A W)) f :
  serves_same m c ->
  (forall m', linux_ok m' -> current_thread_id m' = current_thread_id m -> length (threads m') = length (threads m) ->
     serves_same m' (f m')) ->
  serves_same m (c ≫= f).
Proof.
  intros (m1 & -> & Hok & Hc & Hl) Hf. destruct (Hf m1 Hok Hc Hl) as (m2 & E & Hok2 & Hc2 & Hl2).
  exists m2. do 2 (split; [assumption|]). split; congruence.
Qed.

Lemma serves_bind_last m (c : outcome (Machine S X A W)) f :
  serves m c -> (forall m', linux_ok m' -> grows m m' -> serves_same m' (f m')) -> serves m (c ≫= f).
Proof.
  intros (m1 & -> & Hok & Hg) Hf. destruct (Hf m1 Hok Hg) as (m2 & E & Hok2 & Hc2 & Hl2).
  exists m2. split; [exact E|]. split; [exact Hok2|]. destruct Hg as [Hc Hl]. split; [congruence | lia].
Qed.

Lemma current_ok m :
  linux_ok m -> exists t r o, threads m !! current_thread_id m = Some t /\ current_thread m = Ret t /\
    regs m = Ret r /\ arch t = X86 r o /\ words r /\ thread_ok (current_thread_id m) t.
Proof.
  intros Hok. destruct (lookup_lt_is_Some_2 _ _ (lo_current _ Hok)) as [t Et].
  pose proof (lo_threads _ Hok _ _ Et) as Ht. destruct Ht as (Hid & Hc & r & o & Ea & Hr).
  exists t, r, o. unfold regs, current_thread, index. rewrite Et. cbn. unfold regs_x86. rewrite Ea.
  do 5 (split; [first [reflexivity | assumption]|]). split; [exact Hid|]. split; [exact Hc|]. now exists r, o.
Qed.

Lemma put_thread_ok i t m :
  linux_ok m -> thread_ok i t -> linux_ok (set_threads (<[i := t]> (threads m)) m).
Proof.
  intros [Hm Ht Hc] Hi. split; cbn; [exact Hm | | now rewrite length_insert].
  intros j u. rewrite list_lookup_insert. case_decide as Hj; [|apply Ht]. intros [= <-]. destruct Hj as [<- _]. exact Hi.
Qed.

Lemma put_current_serves t m :
  linux_ok m -> thread_ok (current_thread_id m) t -> serves_same m (put_current t m).
Proof.
  intros Hok Ht. rewrite put_current_eq by apply Hok. eexists. split; [reflexivity|].
  split; [now apply put_thread_ok|]. split; [reflexivity | apply length_insert].
Qed.

Lemma words_put f v r : words r -> match f with xmm _ | mm _ | ymm _ => False | _ => is_word 64 v end -> words (upd f v r).
Proof. intros Hr Hv g. unfold upd. case_decide; [subst; now destruct f | apply Hr]. Qed.

Lemma put_reg_serves f v m :
  linux_ok m -> match f with xmm _ | mm _ | ymm _ => False | _ => is_word 64 v end -> serves_same m (put_reg f v m).
Proof.
  intros Hok Hv. destruct (current_ok m Hok) as (t & r & o & Et & Ec & _ & Ea & Hr & Hid & Hcl & _).
  unfold put_reg. rewrite Ec. cbn. unfold regs_x86, put_regs_x86. rewrite Ea. cbn.
  apply put_current_serves; [exact Hok|]. split; [exact Hid|]. split; [exact Hcl|].
  exists (upd f v r), o. split; [reflexivity | now apply words_put].
Qed.

Lemma set_tmaps_ok mp m : linux_ok m -> wf mp -> linux_ok (set_tmaps mp m).
Proof. now intros [] ?. Qed.

Lemma write_serves a v m :
  linux_ok m -> 0 <= a -> serves_same m ('(_, m) ← with_maps (write_dword a v) m; Ret m).
Proof.
  intros Hok Ha. destruct (write_scalar_spec 4 a v (tmaps m)) as (mp & E & Hw & _); [apply Hok | exact Ha | lia |].
  exists (set_tmaps mp m). unfold with_maps, write_dword. cbn [SIZE]. rewrite E. cbn.
  split; [reflexivity|]. split; [now apply set_tmaps_ok | easy].
Qed.

Lemma read_ok a m :
  linux_ok m -> 0 <= a -> exists tl, wf_tlb tl /\
    with_maps (read_dword a) m = Ret (if reachable Mem.can_read 4 a (tmaps m) then from_le_bytes <$> bytes_of (tmaps m) a 4 else None,
      set_tmaps (set_tlb tl (tmaps m)) m).
Proof.
  intros Hok Ha. destruct (read_scalar_spec 4 a (tmaps m)) as (tl & Ht & E); [apply Hok | exact Ha | lia |].
  exists tl. split; [exact Ht|]. unfold with_maps, read_dword. cbn [SIZE]. now rewrite E.
Qed.

Lemma wake_ok uaddr max m :
  linux_ok m -> 0 <= max < 2 ^ 64 ->
  linux_ok (wake_waiters uaddr max m).2 /\ length (threads (wake_waiters uaddr max m).2) = length (threads m) /\
  current_thread_id (wake_waiters uaddr max m).2 = current_thread_id m.
Proof.
  intros [Hm Ht Hc] Hmax. destruct (wake_from_spec uaddr max 0 (threads m)) as (_ & Hl & Hw); [lia | lia |].
  unfold wake_waiters. destruct (wake_from _ _ _ _) as [n ts]. cbn [fst snd threads set_threads current_thread_id] in *.
  split; [|easy]. split; cbn; [exact Hm | | lia]. intros i t Et.
  assert (exists u, threads m !! i = Some u) as [u Eu] by (apply lookup_lt_is_Some_2; apply lookup_lt_Some in Et; lia).
  pose proof (Hw i u Eu) as E. rewrite Et in E. injection E as ->. specialize (Ht i u Eu). now destruct (_ && _).
Qed.
End Total.

(** ** Strings for the log *)

Section Strings.
Context {S : Type} `{SlabLaws S}.

Lemma position0_lt l i : Mem.position0 l = Some i -> (i < length l)%nat.
Proof.
  revert i. induction l as [|b l IH]; intros i; cbn; [discriminate|]. destruct (b =? 0); [intros [= <-]; lia|].
  destruct (Mem.position0 l) as [j|]; cbn; [|discriminate]. intros [= <-]. specialize (IH j eq_refl). lia.
Qed.

Lemma mem_read_string_total a g : wf_mem g -> Mem.inside a g = true -> exists s, Mem.read_string a g = Ret s.
Proof.
  intros [Hb Hb0 Ht _] [Hi1 Hi2]%andb_true_iff. apply Z.leb_le in Hi1. apply Z.ltb_lt in Hi2.
  unfold Mem.read_string. destruct (negb _); [eauto|].
  assert (Mem.idx a g = a - base_addr g) as -> by (apply wsub_small; unfold is_word; lia).
  set (avail := Z.min _ _). assert (0 <= avail <= len (mem g) - (a - base_addr g)) by (unfold avail; lia).
  rewrite wadd_small by (unfold is_word; lia). unfold index_range at 2. rewrite decide_True by lia. cbn.
  set (region := take _ _). assert (length region = Z.to_nat avail) as Hl.
  { unfold region. rewrite length_take, length_drop. lia. }
  unfold index_range. rewrite decide_True; [eauto|]. destruct (Mem.position0 region) as [i|] eqn:Ei; cbn; [|lia].
  apply position0_lt in Ei. lia.
Qed.

Lemma read_string_total a (mp : Maps S) :
  wf mp -> exists s tl, wf_tlb tl /\ read_string a mp = Ret (s, set_tlb tl mp).
Proof.
  intros Hwf. pose proof (wf_tlb_array mp Hwf) as Ht0. unfold read_string.
  destruct (a =? 0); [exists [], (tlb mp); now rewrite set_tlb_id|].
  destruct (get_mem_by_addr_find mp Hwf a) as (tl & Ht & ->). cbn. destruct (find_map a mp) as [[k g]|] eqn:Ef; [|eauto].
  destruct (Mem.can_read g); [|eauto]. apply find_map_spec in Ef as [Hk Hi]; [|exact Hwf].
  destruct (mem_read_string_total a g) as [s ->]; [apply (wf_region _ Hwf _ _ Hk) | exact Hi |]. cbn. eauto.
Qed.

Lemma read_string_array_total rounds ptr out (mp : Maps S) :
  wf mp -> 0 <= ptr -> exists ss tl, wf_tlb tl /\ read_string_array rounds ptr out mp = Ret (ss, set_tlb tl mp).
Proof.
  revert ptr out mp. induction rounds as [|rounds IH]; intros ptr out mp Hwf Hp; cbn [read_string_array].
  - exists out, (tlb mp). split; [apply wf_tlb_array, Hwf | now rewrite set_tlb_id].
  - destruct (ptr =? 0); [exists out, (tlb mp); split; [apply wf_tlb_array, Hwf | now rewrite set_tlb_id]|].
    destruct (read_scalar_spec 8 ptr mp) as (tl & Ht & E); [exact Hwf | exact Hp | lia |].
    unfold read_qword. cbn [SIZE]. rewrite E. cbn [mbind outcome_bind].
    destruct (if reachable _ _ _ _ then _ else _) as [item|]; [|eauto]. destruct (_ || _); [eauto|].
    destruct (read_string_total item (set_tlb tl mp)) as (s & tl1 & Ht1 & ->); [now apply set_tlb_wf|]. cbn.
    destruct (IH (wadd ptr 8) (out ++ [s]) (set_tlb tl1 (set_tlb tl mp))) as (ss & tl2 & Ht2 & E2).
    + now repeat apply set_tlb_wf.
    + apply Z.mod_pos_bound. lia.
    + exists ss, tl2. split; [exact Ht2 | exact E2].
Qed.
End Strings.

(** ** Every call returns *)

Section Dispatch.
Context {S X A W : Type} `{SlabLaws S}.
Implicit Types (m : Machine S X A W) (t : ThreadContext X A).

Lemma wadd_word a b : is_word 64 (wadd a b).
Proof. apply wrap_word. lia. Qed.

Lemma small_word v : 0 <= v < 2 ^ 63 -> is_word 64 v.
Proof. unfold is_word. lia. Qed.

Lemma tid_word i t m :
  linux_ok m -> Z.of_nat (length (threads m)) < 2 ^ 32 -> threads m !! i = Some t -> is_word 64 (tid t).
Proof.
  intros Hok Hl Et. destruct (lo_threads _ Hok _ _ Et) as [-> _]. apply lookup_lt_Some in Et. apply small_word. lia.
Qed.

Lemma yield_serves m : linux_ok m -> serves_same m (yield_current m).
Proof.
  intros Hok. unfold yield_current. destruct (_ <? _)%nat; [|now apply serves_ret].
  destruct (current_ok m Hok) as (t & r & o & Et & -> & _ & Ea & Hr & Ht). now apply put_current_serves.
Qed.

Lemma retire_serves m : linux_ok m -> serves_same m (retire_current_thread m).
Proof.
  intros Hok. unfold retire_current_thread. destruct (current_ok m Hok) as (t & r & o & Et & -> & _ & Ea & Hr & Hid & Hcl & _).
  cbn [mbind outcome_bind]. apply serves_bind.
  - destruct (_ =? 0); [now apply serves_ret|].
    destruct (write_serves (clear_child_tid t) 0 m Hok) as (m1 & E1 & Hok1 & Hc1 & Hl1); [apply Hcl|].
    destruct (with_maps _ m) as [[b m2]|]; cbn in *; [injection E1 as -> | discriminate].
    destruct (wake_ok (clear_child_tid t) (2 ^ 64 - 1) m1 Hok1) as (Hok2 & Hl2 & Hc2); [lia|].
    eexists. split; [reflexivity|]. split; [exact Hok2|]. split; congruence.
  - intros m1 Hok1 Hc1 Hl1.
    destruct (wake_ok (Z.lor VFORK_WAIT_KEY (tid t)) (2 ^ 64 - 1) m1 Hok1) as (Hok2 & Hl2 & Hc2); [lia|].
    set (m2 := (wake_waiters _ _ m1).2) in *.
    destruct (current_ok m2 Hok2) as (t2 & r2 & o2 & Et2 & -> & _ & Ea2 & Hr2 & Ht2). cbn.
    destruct (put_current_serves (set_suspended true t2) m2 Hok2 Ht2) as (m3 & E3 & Hok3 & Hc3 & Hl3).
    exists m3. split; [exact E3|]. split; [exact Hok3|]. split; congruence.
Qed.

Lemma set_rax_serves v m : linux_ok m -> is_word 64 v -> serves_same m (put_reg rax v m).
Proof. intros. now apply put_reg_serves. Qed.

Lemma futex_serves m : linux_ok m -> serves_same m (futex m).
Proof.
  intros Hok. unfold futex. destruct (current_ok m Hok) as (t & r & o & Et & Ec & -> & Ea & Hr & Ht).
  cbn [mbind outcome_bind]. set (val := wrap 32 (r rdx)). assert (0 <= val < 2 ^ 32) as Hval by (apply Z.mod_pos_bound; lia).
  assert (forall (c : outcome (Z * Machine S X A W)),
    (exists v m', c = Ret (v, m') /\ is_word 64 v /\ linux_ok m' /\ current_thread_id m' = current_thread_id m /\
       length (threads m') = length (threads m)) ->
    serves_same m ('(v, m') ← c; put_reg rax v m')) as Hrax.
  { intros c (v & m' & -> & Hv & Hok' & Hc' & Hl'). cbn. destruct (set_rax_serves v m' Hok' Hv) as (m2 & E & Hok2 & Hc2 & Hl2).
    exists m2. do 2 (split; [assumption|]). split; congruence. }
  apply Hrax. destruct (_ || _).
  - destruct (read_ok (r rdi) m Hok) as (tl & Htl & ->); [apply (Hr rdi)|]. cbn [mbind outcome_bind].
    set (m1 := set_tmaps _ m). assert (linux_ok m1) as Hok1 by (apply set_tmaps_ok; [exact Hok | apply set_tlb_wf; [apply Hok | assumption]]).
    destruct (negb _); [exists EAGAIN, m1; now split_and!|]. destruct (_ <=? 1)%nat; [|destruct (negb _)].
    + destruct (write_serves (r rdi) 0 m1 Hok1) as (m2 & E2 & Hok2 & Hc2 & Hl2); [apply (Hr rdi)|].
      destruct (with_maps _ m1) as [[b m3]|]; cbn in *; [injection E2 as -> | discriminate]. exists 0, m2. now split_and!.
    + destruct (yield_serves m1 Hok1) as (m2 & -> & Hok2 & Hc2 & Hl2). exists 0, m2. now split_and!.
    + change (current_thread m1) with (current_thread m). rewrite Ec. cbn [mbind outcome_bind].
      destruct (put_current_serves (set_blocked (Some (r rdi)) t) m1 Hok1 Ht) as (m2 & -> & Hok2 & Hc2 & Hl2).
      exists 0, m2. now split_and!.
  - destruct (_ || _); [|exists 0, m; now split_and!].
    destruct (wake_ok (r rdi) val m Hok) as (Hok1 & Hl1 & Hc1); [lia|].
    destruct (wake_from_spec (r rdi) val 0 (threads m)) as (En & _); [lia | lia |].
    exists (wake_waiters (r rdi) val m).1, (wake_waiters (r rdi) val m).2. rewrite <- surjective_pairing. split_and!; auto.
    unfold wake_waiters. destruct (wake_from _ _ _ _) as [n ts]. cbn in *. apply small_word. lia.
Qed.

Lemma exit_serves m : linux_ok m -> serves_same m (exit_thread m).
Proof.
  intros Hok. unfold exit_thread, handle_syscall64_exit, current_tid.
  destruct (current_ok m Hok) as (t & r & o & Et & Ec & -> & _). rewrite Ec. cbn.
  destruct (_ <=? 1)%nat; [|now apply retire_serves]. exists (stop m). split; [reflexivity|]. now destruct Hok.
Qed.

Lemma execve_serves m : linux_ok m -> serves_same m (execve m).
Proof.
  intros Hok. unfold execve, with_maps. destruct (current_ok m Hok) as (t & r & o & Et & Ec & -> & Ea & Hr & Ht).
  cbn [mbind outcome_bind]. destruct (read_string_total (r rdi) (tmaps m)) as (s & tl & Htl & ->); [apply Hok|]. cbn [mbind outcome_bind].
  destruct (read_string_array_total 65 (r rsi) [] (set_tlb tl (tmaps m))) as (ss & tl2 & Htl2 & E);
    [apply set_tlb_wf; [apply Hok | assumption] | apply (Hr rsi)|]. cbn [tmaps set_tmaps]. rewrite E. cbn [mbind outcome_bind].
  set (m1 := set_tmaps _ _). assert (linux_ok m1) as Hok1.
  { repeat (apply set_tmaps_ok; [|repeat (apply set_tlb_wf; [|assumption]); apply Hok]). exact Hok. }
  unfold current_tid. change (current_thread m1) with (current_thread m). rewrite Ec. cbn [mbind outcome_bind].
  change (serves_same m) with (serves_same (X := X) (A := A) (W := W) m1).
  refine (serves_bind m1 (if existsb _ _ then retire_current_thread m1 else Ret m1) (put_reg rax 0) _ _);
    [|intros; apply set_rax_serves; [assumption | apply small_word; lia]].
  destruct (existsb _ _); [now apply retire_serves | now apply serves_ret].
Qed.

Lemma wait4_serves m : linux_ok m -> Z.of_nat (length (threads m)) < 2 ^ 32 -> serves_same m (wait4 m).
Proof.
  intros Hok Hl. unfold wait4. destruct (current_ok m Hok) as (t & r & o & Et & Ec & -> & Ea & Hr & Ht).
  cbn [mbind outcome_bind]. set (id := if 0 <? _ then _ else _).
  assert (is_word 64 id) as Hid.
  { subst id. destruct (0 <? _); [now apply wrap_word|]. destruct (last _) as [u|] eqn:El; [|apply small_word; lia].
    apply last_Some_elem_of, list_elem_of_filter in El as [_ (i & Ei)%list_elem_of_lookup]. now apply (tid_word i u m). }
  apply serves_bind; [|intros; now apply set_rax_serves].
  destruct (_ =? 0); [now apply serves_ret | apply write_serves; [exact Hok | apply (Hr rsi)]].
Qed.

(** A further [write_dword] of a sequence *)
Lemma write_then a v m f :
  linux_ok m -> 0 <= a -> (forall m', linux_ok m' -> serves_same m' (f m')) ->
  serves_same m ('(_, m) ← with_maps (write_dword a v) m; f m).
Proof.
  intros Hok Ha Hf. pose proof (write_serves a v m Hok Ha) as Hw.
  pose proof (serves_bind m _ f Hw ltac:(auto)) as Hb. destruct (with_maps _ m) as [[]|]; exact Hb.
Qed.

Lemma waitid_serves m : linux_ok m -> serves_same m (waitid m).
Proof.
  intros Hok. unfold waitid. destruct (current_ok m Hok) as (t & r & o & Et & Ec & -> & Ea & Hr & Ht).
  cbn [mbind outcome_bind]. apply serves_bind; [|intros; apply set_rax_serves; [assumption | apply small_word; lia]].
  destruct (_ =? 0); [now apply serves_ret|].
  apply write_then; [assumption | apply (Hr rdx)|]. intros m1 Hok1.
  do 5 (apply write_then; [assumption | apply wadd_nonneg|]; clear dependent m1; intros m1 Hok1).
  now apply serves_ret.
Qed.

Lemma small_serves m :
  linux_ok m -> Z.of_nat (length (threads m)) < 2 ^ 32 ->
  serves_same m (dup3 m) /\ serves_same m (gettid m) /\ serves_same m (set_tid_address m) /\ serves_same m (sched_yield m).
Proof.
  intros Hok Hl. destruct (current_ok m Hok) as (t & r & o & Et & Ec & Er & Ea & Hr & Ht).
  unfold dup3, gettid, set_tid_address, sched_yield, current_tid. rewrite Er, Ec. cbn [mbind outcome_bind]. split_and!.
  - apply set_rax_serves; [exact Hok | apply (Hr rsi)].
  - apply set_rax_serves; [exact Hok | now apply (tid_word _ _ m Hok Hl Et)].
  - apply serves_bind.
    + apply put_current_serves; [exact Hok|]. destruct Ht as (Hid & _ & Hx). split; [exact Hid|]. split; [apply (Hr rdi) | exact Hx].
    + intros m1 Hok1 Hc1 Hl1. destruct (current_ok m1 Hok1) as (t1 & r1 & o1 & Et1 & -> & _). cbn.
      apply set_rax_serves; [exact Hok1 | apply (tid_word (current_thread_id m1) t1 m1 Hok1); [lia | exact Et1]].
  - apply serves_bind; [now apply yield_serves|]. intros. apply set_rax_serves; [assumption | apply small_word; lia].
Qed.

Lemma clone_child_ok flags stack ptr tls id t r o i :
  arch t = X86 r o -> words r -> id = 0x1000 + Z.of_nat i -> is_word 64 ptr -> is_word 64 stack -> is_word 64 tls ->
  exists child, clone_child flags stack ptr tls id t = Ret child /\ thread_ok i child.
Proof.
  intros Ea Hr -> Hp Hs Htl. unfold clone_child, regs_x86, put_regs_x86. cbn. rewrite Ea. cbn. eexists. split; [reflexivity|].
  split; [reflexivity|]. split; [cbn; destruct (has_flag _ _); [exact Hp | apply small_word; lia]|].
  eexists _, o. split; [reflexivity|].
  assert (words (upd rip (wadd (upd rax 0 r rip) SYSCALL_INSN_LEN) (upd rax 0 r))) as Hw.
  { apply words_put; [apply words_put; [exact Hr | apply small_word; lia] | apply wadd_word]. }
  destruct (stack =? 0), (has_flag flags CLONE_SETTLS); repeat (apply words_put; [|assumption]); exact Hw.
Qed.

Lemma push_ok child m : linux_ok m -> thread_ok (length (threads m)) child -> linux_ok (set_threads (threads m ++ [child]) m).
Proof.
  intros [Hm Ht Hc] Hch. split; cbn; [exact Hm | | rewrite length_app; lia]. intros i t Et.
  apply lookup_app_Some in Et as [Et|[Hge Et]]; [now apply Ht|]. apply list_lookup_singleton_Some in Et as [Hi <-].
  now replace i with (length (threads m)) by lia.
Qed.

Lemma clone_serves m : linux_ok m -> Z.of_nat (length (threads m)) < 2 ^ 32 -> serves m (clone m).
Proof.
  intros Hok Hlen. unfold clone. destruct (current_ok m Hok) as (t & r & o & Et & Ec & -> & Ea & Hr & Ht).
  cbn [mbind outcome_bind]. destruct (negb _); [apply serves_weaken, set_rax_serves; [exact Hok | apply small_word; lia]|].
  rewrite Ec. set (id := 0x1000 + _). cbn [mbind outcome_bind].
  destruct (clone_child_ok (r rdi) (r rsi) (r r10) (r r8) id t r o (length (threads m)) Ea Hr eq_refl (Hr r10) (Hr rsi) (Hr r8))
    as (child & -> & Hch). cbn [mbind outcome_bind].
  assert (forall (b : bool) a v m, linux_ok m -> 0 <= a ->
    serves_same m (if b then '(_, m) ← with_maps (write_dword a v) m; Ret m else Ret m)) as Hif.
  { intros [] a v m1 Hok1 Ha; [now apply write_serves | now apply serves_ret]. }
  destruct (Hif (has_flag (r rdi) CLONE_PARENT_SETTID) (r rdx) (wrap 32 id) m Hok) as (m1 & -> & Hok1 & Hc1 & Hl1); [apply (Hr rdx)|].
  cbn [mbind outcome_bind].
  destruct (Hif (has_flag (r rdi) CLONE_CHILD_SETTID) (r r10) (wrap 32 id) m1 Hok1) as (m2 & -> & Hok2 & Hc2 & Hl2); [apply (Hr r10)|].
  cbn [mbind outcome_bind]. rewrite <- Hl1, <- Hl2 in Hch. set (m3 := set_threads _ m2).
  assert (linux_ok m3) as Hok3 by now apply push_ok.
  assert (grows m m3) as Hg by (split; cbn; [congruence | rewrite length_app; cbn; lia]).
  assert (serves_same m3 (m' ← (if has_flag (r rdi) CLONE_VFORK
      then u ← current_thread m3; put_current (set_blocked (Some (Z.lor VFORK_WAIT_KEY id)) u) m3 else Ret m3);
      put_reg rax id (set_threading true m'))) as (m4 & E4 & Hok4 & Hc4 & Hl4).
  { apply serves_bind.
    - destruct (has_flag _ _); [|now apply serves_ret].
      destruct (current_ok m3 Hok3) as (t3 & r3 & o3 & Et3 & -> & _ & Ea3 & Hr3 & Ht3). now apply put_current_serves.
    - intros m5 Hok5 Hc5 Hl5. apply (set_rax_serves id (set_threading true m5)); [now destruct Hok5 | apply small_word; lia]. }
  exists m4. split; [exact E4|]. split; [exact Hok4|]. destruct Hg. split; [congruence | lia].
Qed.

Lemma dispatch_serves m :
  linux_ok m -> Z.of_nat (length (threads m)) < 2 ^ 32 ->
  exists b m', dispatch m = Ret (b, m') /\ linux_ok m' /\ grows m m'.
Proof.
  intros Hok Hl. destruct (current_ok m Hok) as (t & r & o & Et & Ec & Er & _). unfold dispatch. rewrite Er. cbn [mbind outcome_bind].
  assert (forall c, serves m c -> exists b m', (m' ← c; Ret (true, m')) = Ret (b, m') /\ linux_ok m' /\ grows m m') as Ha.
  { intros c (m' & -> & Hok' & Hg). now exists true, m'. }
  pose proof (small_serves m Hok Hl) as (Hd & Hg & Hs & Hy).
  assert (forall v, is_word 64 v -> serves m (ret0_named v m)) as Hn by (intros; now apply serves_weaken, set_rax_serves).
  repeat case_match; try (apply Ha).
  - now apply clone_serves.
  - now apply serves_weaken, futex_serves.
  - now apply serves_weaken, exit_serves.
  - now apply serves_weaken, execve_serves.
  - now apply serves_weaken, wait4_serves.
  - now apply serves_weaken, waitid_serves.
  - apply Hn. unfold ENOSYS, is_word. lia.
  - now apply serves_weaken.
  - apply Hn, small_word. lia.
  - apply Hn, small_word. lia.
  - now apply serves_weaken.
  - now apply serves_weaken.
  - now apply serves_weaken.
  - exists false, m. split; [reflexivity|]. split; [exact Hok|]. split; [reflexivity | lia].
Qed.
End Dispatch.

(** ** Blocking and releasing *)

Section Futex.
Context {S X A W : Type} `{SlabLaws S}.
Implicit Types (m : Machine S X A W) (t : ThreadContext X A).

(** The word that [futex] compares: zero where memory cannot be read. *)
Definition futex_word (a : Z) m : Z :=
  default 0 (if reachable Mem.can_read 4 a (tmaps m) then from_le_bytes <$> bytes_of (tmaps m) a 4 else None).

Definition with_tlb (tl : TLB) m : Machine S X A W := set_tmaps (set_tlb tl (tmaps m)) m.

(** The operation, stripped of its modifiers *)
Definition futex_op (r : Regs64) : Z := Z.land (r rsi) 0x7f.
Definition is_wait (r : Regs64) : bool := (futex_op r =? FUTEX_WAIT) || (futex_op r =? FUTEX_WAIT_BITSET).
Definition is_wake (r : Regs64) : bool := (futex_op r =? FUTEX_WAKE) || (futex_op r =? FUTEX_WAKE_BITSET).

Lemma wake_not_wait r : is_wake r = true -> is_wait r = false.
Proof.
  unfold is_wake, is_wait, FUTEX_WAKE, FUTEX_WAKE_BITSET, FUTEX_WAIT, FUTEX_WAIT_BITSET.
  rewrite orb_true_iff, orb_false_iff, !Z.eqb_eq, !Z.eqb_neq. lia.
Qed.

Lemma futex_wake_eq m r :
  regs m = Ret r -> is_wake r = true ->
  futex m = let '(n, m') := wake_waiters (r rdi) (wrap 32 (r rdx)) m in put_reg rax n m'.
Proof.
  intros Er Hw. unfold futex. rewrite Er. cbn [mbind outcome_bind]. fold (futex_op r) (is_wait r) (is_wake r).
  rewrite (wake_not_wait r Hw), Hw. now destruct (wake_waiters _ _ _).
Qed.

Lemma futex_wait_eq m r :
  linux_ok m -> regs m = Ret r -> 0 <= r rdi -> is_wait r = true ->
  exists tl, wf_tlb tl /\
    futex m = (let m1 := with_tlb tl m in
      if negb (futex_word (r rdi) m =? wrap 32 (r rdx)) then put_reg rax EAGAIN m1
      else if (live_threads m <=? 1)%nat then '(_, m2) ← with_maps (write_dword (r rdi) 0) m1; put_reg rax 0 m2
      else if negb (r r10 =? 0) then m2 ← yield_current m1; put_reg rax 0 m2
      else t ← current_thread m; m2 ← put_current (set_blocked (Some (r rdi)) t) m1; put_reg rax 0 m2).
Proof.
  intros Hok Er Ha Hw. destruct (read_ok (r rdi) m Hok Ha) as (tl & Htl & E). exists tl. split; [exact Htl|].
  unfold futex. rewrite Er. cbn [mbind outcome_bind]. fold (futex_op r) (is_wait r). rewrite Hw, E. cbn [mbind outcome_bind].
  fold (futex_word (r rdi) m) (with_tlb tl m). cbv zeta. destruct (negb _); [reflexivity|].
  change (live_threads (with_tlb tl m)) with (live_threads m). destruct (_ <=? 1)%nat; [|destruct (negb _)].
  - unfold with_maps. destruct (write_dword _ _ _) as [[]|]; reflexivity.
  - now destruct (yield_current _).
  - change (current_thread (with_tlb tl m)) with (current_thread m). destruct (current_thread m); cbn; [|reflexivity].
    now destruct (put_current _ _).
Qed.

(** *** Ending a thread *)

Definition released_by (clear key : Z) t : ThreadContext X A :=
  if (negb (clear =? 0) && waits_on clear t) || waits_on key t then released t else t.

Lemma released_waits uaddr t : waits_on uaddr (released t) = false.
Proof. unfold waits_on. now rewrite bool_decide_false. Qed.

Lemma wake_all_waiters uaddr m :
  Z.of_nat (length (threads m)) < 2 ^ 32 ->
  (wake_waiters uaddr (2 ^ 64 - 1) m).2 = set_threads ((fun t => if waits_on uaddr t then released t else t) <$> threads m) m.
Proof.
  intros Hl. unfold wake_waiters. rewrite <- wake_all by lia. now destruct (wake_from _ _ _ _).
Qed.

Lemma retire_eq m t :
  linux_ok m -> Z.of_nat (length (threads m)) < 2 ^ 32 -> threads m !! current_thread_id m = Some t ->
  let clear := clear_child_tid t in
  let key := Z.lor VFORK_WAIT_KEY (tid t) in
  exists mp, retire_current_thread m =
      Ret (set_threads (<[current_thread_id m := set_suspended true (released_by clear key t)]> (released_by clear key <$> threads m))
            (set_tmaps mp m)) /\ wf mp /\
    (clear <> 0 -> reachable Mem.can_write 4 clear (tmaps m) = true -> stores (tmaps m) mp clear (to_le_bytes 4 0)).
Proof.
  intros Hok Hl Et clear key. destruct (lo_threads _ Hok _ _ Et) as (_ & Hcl & _).
  assert (exists mp, (if clear =? 0 then Ret m else '(_, m) ← with_maps (write_dword clear 0) m; Ret (wake_waiters clear (2 ^ 64 - 1) m).2)
      = Ret (set_threads ((fun t => if negb (clear =? 0) && waits_on clear t then released t else t) <$> threads m) (set_tmaps mp m))
      /\ wf mp /\ (clear <> 0 -> reachable Mem.can_write 4 clear (tmaps m) = true -> stores (tmaps m) mp clear (to_le_bytes 4 0)))
    as (mp & E & Hwf & Hst).
  { destruct (Z.eqb_spec clear 0) as [Ez|Hne]; cbn [negb andb].
    - exists (tmaps m). rewrite list_fmap_id. split; [now destruct m | split; [apply Hok | easy]].
    - destruct (write_scalar_spec 4 clear 0 (tmaps m)) as (mp & E & Hw & Hr); [apply Hok | apply Hcl | lia |].
      exists mp. unfold with_maps, write_dword. cbn [SIZE]. rewrite E. cbn [mbind outcome_bind]. rewrite wake_all_waiters by exact Hl.
      split; [reflexivity|]. split; [exact Hw|]. intros _ Hreach. rewrite Hreach in Hr. apply Hr. }
  exists mp. split; [|split; [exact Hwf | exact Hst]]. assert (current_thread m = Ret t) as Ec by (unfold current_thread, index; now rewrite Et).
  unfold retire_current_thread. rewrite Ec. cbn [mbind outcome_bind].
  fold clear key. rewrite E. cbn [mbind outcome_bind]. rewrite wake_all_waiters by (cbn; now rewrite length_fmap). cbn [threads set_threads].
  rewrite <- list_fmap_compose. assert (forall (ts : list (ThreadContext X A)), ((fun t => if waits_on key t then released t else t)
    ∘ (fun t => if negb (clear =? 0) && waits_on clear t then released t else t)) <$> ts = released_by clear key <$> ts) as ->.
  { intros ts. apply list_fmap_ext. intros i u _. unfold compose, released_by. destruct (negb _ && _); cbn [orb]; [|reflexivity].
    now rewrite released_waits. }
  unfold current_thread, index. cbn [threads set_threads current_thread_id set_tmaps]. rewrite list_lookup_fmap, Et. cbn [fmap option_fmap option_map mbind outcome_bind].
  rewrite put_current_eq; [reflexivity|]. cbn. rewrite length_fmap. apply Hok.
Qed.
End Futex.

(** ** Results *)

Section Results.
Context {S X A W : Type} `{SlabLaws S}.
Implicit Types (m : Machine S X A W) (t : ThreadContext X A).

(** C15. Every call that the Linux thread dispatcher answers returns (none panics),
    from any well-formed machine of fewer than 2^32 threads, and leaves one: memory
    and registers well formed, each thread with the id of its position, the running
    thread the same, at most one thread more. *)
Theorem linux_calls_total m :
  linux_ok m -> Z.of_nat (length (threads m)) < 2 ^ 32 ->
  exists b m', dispatch m = Ret (b, m') /\ linux_ok m' /\ grows m m'.
Proof. apply dispatch_serves. Qed.

(** C30. FUTEX_WAKE releases exactly the first [val] threads that wait on the
    address, in the order of the thread list, leaves every other thread alone and
    returns how many it released. *)
Theorem futex_wake_exact m r :
  linux_ok m -> regs m = Ret r -> is_wake r = true ->
  let val := wrap 32 (r rdx) in
  exists ts, futex m = put_reg rax (Z.min val (Z.of_nat (waiters (r rdi) (threads m)))) (set_threads ts m) /\
    length ts = length (threads m) /\
    forall i t, threads m !! i = Some t ->
      ts !! i = Some (if waits_on (r rdi) t && (Z.of_nat (waiters (r rdi) (take i (threads m))) <? val)
                      then released t else t).
Proof.
  intros Hok Er Hw val. rewrite (futex_wake_eq m r Er Hw). fold val. assert (0 <= val < 2 ^ 32) by (apply Z.mod_pos_bound; lia).
  destruct (wake_from_spec (r rdi) val 0 (threads m)) as (En & Hl & Hts); [lia | lia |]. unfold wake_waiters.
  destruct (wake_from _ _ _ _) as [n ts]. cbn [fst snd] in *. exists ts. rewrite En. auto.
Qed.

(** FUTEX_WAIT: it returns EAGAIN and blocks nobody when the word does not hold the
    expected value; otherwise the last live thread frees the word and goes on, a
    timed wait only yields, and any other caller is blocked on the address. Memory
    is as before but for the freed word. *)
Theorem futex_wait_correct m r t :
  linux_ok m -> regs m = Ret r -> is_wait r = true -> threads m !! current_thread_id m = Some t ->
  exists tl, wf_tlb tl /\ let m1 := with_tlb tl m in
    if negb (futex_word (r rdi) m =? wrap 32 (r rdx)) then futex m = put_reg rax EAGAIN m1
    else if (live_threads m <=? 1)%nat then
      exists mp, wf mp /\ futex m = put_reg rax 0 (set_tmaps mp m) /\
        (reachable Mem.can_write 4 (r rdi) (tmaps m) = true -> stores (tmaps m) mp (r rdi) (to_le_bytes 4 0))
    else if negb (r r10 =? 0) then
      exists m2, put_current (set_wake_tick (wadd (tick m) 1) t) m1 = Ret m2 /\ futex m = put_reg rax 0 m2
    else exists m2, put_current (set_blocked (Some (r rdi)) t) m1 = Ret m2 /\ futex m = put_reg rax 0 m2.
Proof.
  intros Hok Er Hw Et. destruct (current_ok m Hok) as (t' & r' & o & Et' & Ec & Er' & Ea & Hr & Ht).
  assert (r' = r) as -> by congruence. assert (t' = t) as -> by congruence.
  destruct (futex_wait_eq m r Hok Er) as (tl & Htl & E); [apply (Hr rdi) | exact Hw |].
  exists tl. split; [exact Htl|]. cbv zeta in E |- *. rewrite E. destruct (negb _); [reflexivity|].
  assert (linux_ok (with_tlb tl m)) as Hok1 by (apply set_tmaps_ok; [exact Hok | apply set_tlb_wf; [apply Hok | exact Htl]]).
  destruct (live_threads m <=? 1)%nat eqn:El; [|destruct (negb _)].
  - destruct (write_scalar_spec 4 (r rdi) 0 (tmaps (with_tlb tl m))) as (mp & Ew & Hwf & Hs); [apply Hok1 | apply (Hr rdi) | lia |].
    exists mp. split; [exact Hwf|]. unfold with_maps, write_dword. cbn [SIZE]. rewrite Ew. split; [reflexivity|].
    intros Hreach. change (reachable Mem.can_write 4 (r rdi) (tmaps (with_tlb tl m))) with (reachable Mem.can_write 4 (r rdi) (tmaps m)) in Hs.
    rewrite Hreach in Hs. apply Hs.
  - unfold yield_current. change (live_threads (with_tlb tl m)) with (live_threads m).
    rewrite (proj2 (Nat.ltb_lt _ _)) by (apply Nat.leb_gt in El; exact El).
    change (current_thread (with_tlb tl m)) with (current_thread m). rewrite Ec. cbn [mbind outcome_bind].
    destruct (put_current_serves (set_wake_tick (wadd (tick m) 1) t) _ Hok1 Ht) as (m2 & E2 & _). exists m2.
    change (tick (with_tlb tl m)) with (tick m). now rewrite E2.
  - rewrite Ec. cbn [mbind outcome_bind].
    destruct (put_current_serves (set_blocked (Some (r rdi)) t) _ Hok1 Ht) as (m2 & E2 & _). exists m2. now rewrite E2.
Qed.

(** A thread that exits while others live is suspended for good, its clear word is
    set to zero, and exactly the threads that wait on that word or for it as a vfork
    child are released; no other thread changes. *)
Theorem thread_exit_releases m t :
  linux_ok m -> Z.of_nat (length (threads m)) < 2 ^ 32 -> (1 < live_threads m)%nat ->
  threads m !! current_thread_id m = Some t ->
  let clear := clear_child_tid t in
  let key := Z.lor VFORK_WAIT_KEY (tid t) in
  exists mp, exit_thread m =
      Ret (set_threads (<[current_thread_id m := set_suspended true (released_by clear key t)]> (released_by clear key <$> threads m))
            (set_tmaps mp m)) /\
    (clear <> 0 -> reachable Mem.can_write 4 clear (tmaps m) = true -> stores (tmaps m) mp clear (to_le_bytes 4 0)).
Proof.
  intros Hok Hl Hlive Et clear key. destruct (retire_eq m t Hok Hl Et) as (mp & E & _ & Hst). exists mp. split; [|exact Hst].
  destruct (current_ok m Hok) as (t' & r & o & _ & Ec & Er & _). unfold exit_thread, current_tid.
  rewrite (proj2 (Nat.leb_gt _ _)) by exact Hlive. rewrite Er, Ec. exact E.
Qed.
End Results.
