(* ===== verification/WinThreads.v ===== *)
(** * Creating and resuming Windows threads

    [CreateThread] and [ResumeThread] of api/windows/winapi64/kernel32.  A
    thread handle is an entry of the handle table whose URI spells the thread
    id; [ResumeThread] parses it back.  What the calls log is left out. *)

From stdpp Require Import gmap strings.
From Stdlib Require Import Ascii String.
From S2P Require Import Prelude Scalar Mem64 Slab Tlb Maps Regs Threads.
Open Scope Z_scope.

(** ** Parsing integers (std) *)

(** [char::to_digit] *)
Definition to_digit (radix : Z) (c : ascii) : option Z :=
  let n := Z.of_nat (nat_of_ascii c) in
  let d := if (48 <=? n) && (n <=? 57) then n - 48
           else if (97 <=? n) && (n <=? 122) then n - 87
           else if (65 <=? n) && (n <=? 90) then n - 55 else radix in
  if d <? radix then Some d else None.

Fixpoint digits_value (radix acc : Z) (s : string) : option Z :=
  match s with
  | EmptyString => Some acc
  | String c s =>
      match to_digit radix c with
      | None => None
      | Some d => if acc * radix + d <? 2 ^ 64 then digits_value radix (acc * radix + d) s else None
      end
  end.

(** [u64::from_str_radix]: an optional plus sign, then at least one digit *)
Definition from_str_radix (radix : Z) (s : string) : option Z :=
  match s with
  | EmptyString => None
  | String c EmptyString => digits_value radix 0 s
  | String c rest => if Ascii.eqb c "+"%char then digits_value radix 0 rest else digits_value radix 0 s
  end.

(** [str::strip_prefix] *)
Fixpoint strip_prefix (p s : string) : option string :=
  match p, s with
  | EmptyString, _ => Some s
  | String a p, String b s => if Ascii.eqb a b then strip_prefix p s else None
  | String _ _, EmptyString => None
  end.

(** The thread id that a handle's URI names, 0 when there is none *)
Definition parse_tid (tid_str : string) : Z :=
  match strip_prefix "0x" tid_str with
  | Some stripped => default 0 (from_str_radix 16 stripped)
  | None => default 0 (from_str_radix 10 tid_str)
  end.

Definition CREATE_SUSPENDED : Z := 4.

(** The initial x86 state of a thread but for the registers, and the FPU's instruction pointer. *)
Class NewThread (X : Type) := { new_x86 : X; fpu_set_ip : Z -> X -> X }.

Section Calls.
Context {S X A W : Type} `{Slab S} `{NewThread X}.
Implicit Types (m : Machine S X A W).

(** The dump of the stack: the memory it looks at, for the log *)
Fixpoint dump_stack (l : list Z) (sp : Z) m : outcome (Machine S X A W) :=
  match l with
  | [] => Ret m
  | i :: l =>
      let a := wadd sp (i * 8) in
      '(mapped, m) ← with_maps (is_mapped a) m;
      m ← (if (mapped : bool) then '(_, m) ← with_maps (read_qword a) m; Ret m else Ret m);
      dump_stack l sp m
  end.

(** The stack of the new thread; [None] when there is no room for it *)
Definition create_stack (id stack_sz : Z) (r : Regs64) m : outcome (option Regs64 * Machine S X A W) :=
  if 0 <? stack_sz then
    a ← alloc stack_sz (tmaps m);
    match a with
    | Some stack_base =>
        let r := upd rsp (wsub (wadd stack_base stack_sz) 8) r in
        let r := upd rbp (r rsp) r in
        '(_, m) ← with_maps (create_map ("thread_stack_" +:+ hex id) stack_base stack_sz Perm.READ_WRITE) m;
        Ret (Some r, m)
    | None => Ret (None, m)
    end
  else Ret (Some r, m).

Definition CreateThread m : outcome (Machine S X A W) :=
  r ← regs m;
  '(mapped, m) ← with_maps (is_mapped (r rsp)) m;
  m ← (if (mapped : bool) then dump_stack [0; 1; 2; 3; 4; 5; 6; 7] (r rsp) m else Ret m);
  '(flags, m) ← with_maps (read_qword (wadd (r rsp) 0x20)) m;
  match flags with
  | None => Ret m
  | Some flags =>
      '(tid_ptr, m) ← with_maps (read_qword (wadd (r rsp) 0x28)) m;
      match tid_ptr with
      | None => Ret m
      | Some tid_ptr =>
          let id := 0x1000 + Z.of_nat (length (threads m)) in
          let nr := upd rax 0 (upd rcx (r r9) (upd rip (r r8) new_regs)) in
          '(nr, m) ← create_stack id (r rdx) nr m;
          match nr with
          | None => Ret m
          | Some nr =>
              let t := set_suspended (negb (Z.land flags CREATE_SUSPENDED =? 0))
                         (new_thread id (X86 nr (fpu_set_ip (r r8) new_x86))) in
              let m := set_threads (threads m ++ [t]) m in
              let finish m := let '(h, hs) := handler_create ("tid://0x" +:+ hex id) (handles m) in
                              put_reg rax h (set_handles hs m) in
              if 0 <? tid_ptr then
                '(mapped, m) ← with_maps (is_mapped tid_ptr) m;
                if (mapped : bool) then '(_, m) ← with_maps (write_dword tid_ptr (wrap 32 id)) m; finish m
                else Ret m
              else finish m
          end
      end
  end.

(** The loop that finds the thread: its suspend count before, and the list after *)
Fixpoint resume (id : Z) (ts : list (ThreadContext X A)) : option (Z * list (ThreadContext X A)) :=
  match ts with
  | [] => None
  | t :: ts =>
      if tid t =? id then Some (if suspended t then 1 else 0, set_suspended false t :: ts)
      else '(n, ts) ← resume id ts; Some (n, t :: ts)
  end.

Definition ResumeThread m : outcome (Machine S X A W) :=
  r ← regs m;
  let hndl := r rcx in
  m ← peek hndl m;
  match strip_prefix "tid://" (handler_get_uri hndl (handles m)) with
  | None => put_reg rax 0xFFFFFFFF (set_last_error 0 m)
  | Some tid_str =>
      let id := parse_tid tid_str in
      if id =? 0 then put_reg rax 0xFFFFFFFF m
      else
        match resume id (threads m) with
        | None => put_reg rax 0xFFFFFFFF m
        | Some (n, ts) => put_reg rax n (set_threads ts m)
        end
  end.

(** [SwitchToThread] *)
Definition SwitchToThread m : outcome (Machine S X A W) :=
  put_reg rax 1 (set_last_error 0 (advance_tick 1 m)).
End Calls.
