(* ===== verification/WinThreadsSpec.v ===== *)
(** * Thread handles lead back to their thread

    The hexadecimal spelling of an id is parsed back; handles are unique; so
    the handle that [CreateThread] returns makes [ResumeThread] resume the
    thread that was created, and no other. *)

From stdpp Require Import gmap strings.
From Stdlib Require Import Ascii String.
From S2P Require Import Prelude Scalar Mem64 Slab Tlb BTree Maps MapsInv MapsLife MapsAlloc Regs OperandsSpec Threads SchedSpec LocksSpec ThreadsLinux FutexSpec WinThreads.
Open Scope Z_scope.

(** ** Spelling and parsing *)

Lemma hex_digit_parse d :
  0 <= d < 16 -> exists c, hex_digit d = String c "" /\ to_digit 16 c = Some d /\ Ascii.eqb c "+"%char = false.
Proof.
  intros Hd. assert (d = 0 \/ d = 1 \/ d = 2 \/ d = 3 \/ d = 4 \/ d = 5 \/ d = 6 \/ d = 7 \/ d = 8 \/ d = 9 \/ d = 10
    \/ d = 11 \/ d = 12 \/ d = 13 \/ d = 14 \/ d = 15) as Hc by lia.
  repeat (destruct Hc as [->|Hc]); try subst d; (eexists; split; [reflexivity|]; split; reflexivity).
Qed.

Lemma hex_step acc d s :
  0 <= d < 16 -> 0 <= acc -> acc * 16 + d < 2 ^ 64 ->
  digits_value 16 acc (hex_digit d +:+ s) = digits_value 16 (acc * 16 + d) s.
Proof.
  intros Hd Ha Hb. destruct (hex_digit_parse d Hd) as (c & -> & Hc & _). change (String c "" +:+ s) with (String c s). cbn [digits_value]. rewrite Hc.
  now rewrite (proj2 (Z.ltb_lt _ _)) by exact Hb.
Qed.

Lemma hex_digits_parse fuel v s :
  0 <= v < 16 ^ Z.of_nat (S fuel) -> v < 2 ^ 64 -> digits_value 16 0 (hex_digits (S fuel) v s) = digits_value 16 v s.
Proof.
  revert v s. induction fuel as [|fuel IH]; intros v s Hv Hb; cbn [hex_digits];
    pose proof (Z.mod_pos_bound v 16 ltac:(lia)); pose proof (Z.div_mod v 16 ltac:(lia)) as Ev;
    destruct (Z.eqb_spec (v / 16) 0) as [E|E].
  1,3: rewrite hex_step by lia; f_equal; lia.
  - change (16 ^ Z.of_nat 1) with 16 in Hv. destruct E. now apply Z.div_small.
  - assert (0 <= v / 16) by (apply Z.div_pos; lia).
    assert (v / 16 < 16 ^ Z.of_nat (S fuel)).
    { apply Z.div_lt_upper_bound; [lia|]. rewrite <- Z.pow_succ_r by lia. now rewrite <- Nat2Z.inj_succ. }
    change (digits_value 16 0 (hex_digits (S fuel) (v / 16) (hex_digit (v mod 16) +:+ s)) = digits_value 16 v s).
    rewrite IH by lia. rewrite hex_step by lia. f_equal. lia.
Qed.

Lemma hex_digits_head fuel v s :
  0 <= v -> exists c rest, hex_digits (S fuel) v s = String c rest /\ Ascii.eqb c "+"%char = false.
Proof.
  revert v s. induction fuel as [|fuel IH]; intros v s Hv; cbn [hex_digits];
    destruct (hex_digit_parse (v mod 16) ltac:(apply Z.mod_pos_bound; lia)) as (c & Ec & _ & Hc);
    (destruct (_ =? 0); [exists c, s; rewrite Ec; now split|]).
  - exists c, s. rewrite Ec. now split.
  - apply IH, Z.div_pos; lia.
Qed.

Lemma hex_roundtrip v : is_word 64 v -> from_str_radix 16 (hex v) = Some v.
Proof.
  intros Hv. unfold hex. destruct (hex_digits_head 15 v "" ltac:(apply Hv)) as (c & rest & E & Hc).
  assert (digits_value 16 0 (hex_digits 16 v "") = Some v) as Hd.
  { rewrite hex_digits_parse; [reflexivity | exact Hv | apply Hv]. }
  rewrite E in *. unfold from_str_radix. destruct rest; [exact Hd|]. now rewrite Hc.
Qed.

Lemma parse_tid_hex v : is_word 64 v -> parse_tid ("0x" +:+ hex v) = v.
Proof. intros Hv. unfold parse_tid. change (strip_prefix "0x" ("0x" +:+ hex v)) with (Some (hex v)). cbn iota beta. now rewrite hex_roundtrip. Qed.

(** ** Handles *)

(** The ids of the table are in increasing order, so they are unique. *)
Definition handles_ok (hs : list Handler) : Prop :=
  Sorted.StronglySorted (fun a b => hid a < hid b) hs /\ Forall (fun h => 3 <= hid h < 2 ^ 64 - 1) hs.

Lemma handler_get_uri_app h hs x :
  Forall (fun y => hid y <> h) hs -> hid x = h -> handler_get_uri h (hs ++ [x]) = uri x.
Proof.
  intros Hf Hx. induction Hf as [|y hs Hy _ IH]; cbn.
  - now rewrite (proj2 (Z.eqb_eq _ _)).
  - now rewrite (proj2 (Z.eqb_neq _ _)).
Qed.

Lemma sorted_le_last hs x h : Sorted.StronglySorted (fun a b => hid a < hid b) hs -> last hs = Some x -> h ∈ hs -> hid h <= hid x.
Proof.
  intros Hs. induction Hs as [|y hs Hs IH Hf]; [discriminate|]. intros Hl Hin. apply elem_of_cons in Hin as [->|Hin].
  - destruct hs as [|z hs]; [injection Hl as ->; lia|]. rewrite last_cons_cons in Hl.
    apply last_Some_elem_of in Hl. rewrite Forall_forall in Hf. specialize (Hf _ Hl). lia.
  - destruct hs as [|z hs]; [now apply not_elem_of_nil in Hin|]. rewrite last_cons_cons in Hl. now apply IH.
Qed.

Lemma handler_create_uri u hs :
  handles_ok hs ->
  let '(h, hs') := handler_create u hs in
  handler_get_uri h hs' = u /\ hs' = hs ++ [mkHandler h u [] 0 false] /\ is_word 64 h.
Proof.
  intros [Hs Hf]. unfold handler_create. destruct (last hs) as [x|] eqn:El.
  - pose proof (last_Some_elem_of _ _ El) as Hx. rewrite Forall_forall in Hf. pose proof (Hf x Hx) as Hxb.
    rewrite wadd_small by (unfold is_word; lia). split; [|split; [reflexivity | unfold is_word; lia]].
    rewrite handler_get_uri_app; [reflexivity | | reflexivity]. apply Forall_forall. intros y Hy.
    pose proof (sorted_le_last hs x y Hs El Hy). lia.
  - apply last_None in El. subst hs. split; [reflexivity|]. split; [reflexivity | unfold is_word; lia].
Qed.

(** ** Creating *)

Section Create.
Context {S X A W : Type} `{SlabLaws S} `{NewThread X}.
Implicit Types (m : Machine S X A W).

(** Nothing but memory (or what the TLB holds of it) differs. *)
Definition memory_only m m' : Prop := exists mp, m' = set_tmaps mp m.

Lemma memory_only_refl m : memory_only m m.
Proof. exists (tmaps m). now destruct m. Qed.

Lemma memory_only_trans m1 m2 m3 : memory_only m1 m2 -> memory_only m2 m3 -> memory_only m1 m3.
Proof. intros [mp ->] [mp' ->]. now exists mp'. Qed.

Lemma with_maps_only {T} (f : Maps S -> outcome (T * Maps S)) m v m' :
  with_maps f m = Ret (v, m') -> memory_only m m'.
Proof. unfold with_maps. destruct (f (tmaps m)) as [[]|]; cbn; [intros [= _ <-]; eexists; reflexivity | discriminate]. Qed.

Lemma dump_stack_only l sp m m' : dump_stack l sp m = Ret m' -> memory_only m m'.
Proof.
  revert m. induction l as [|i l IH]; intros m; cbn [dump_stack]; [intros [= <-]; apply memory_only_refl|].
  destruct (with_maps _ m) as [[[] m1]|] eqn:E1; cbn [mbind outcome_bind]; [| |discriminate]; apply with_maps_only in E1.
  - destruct (with_maps _ m1) as [[v m2]|] eqn:E2; cbn [mbind outcome_bind]; [|discriminate]. apply with_maps_only in E2.
    intros E%IH. eauto using memory_only_trans.
  - intros E%IH. eauto using memory_only_trans.
Qed.

Lemma create_stack_only id sz r m v m' :
  create_stack id sz r m = Ret (v, m') -> memory_only m m' /\ forall r', v = Some r' -> r' rip = r rip /\ r' rcx = r rcx.
Proof.
  unfold create_stack. destruct (0 <? sz); [|intros [= <- <-]; split; [apply memory_only_refl | now intros r' [= <-]]].
  destruct (alloc sz _) as [[a|]|]; cbn [mbind outcome_bind]; [| |discriminate].
  - destruct (with_maps _ m) as [[b m1]|] eqn:E; cbn [mbind outcome_bind]; [|discriminate]. apply with_maps_only in E.
    intros [= <- <-]. split; [exact E|]. now intros r' [= <-].
  - intros [= <- <-]. split; [apply memory_only_refl | discriminate].
Qed.

Lemma put_reg_get f v m m' : put_reg f v m = Ret m' ->
  exists t r o, threads m !! current_thread_id m = Some t /\ arch t = X86 r o /\
    m' = set_threads (<[current_thread_id m := set_arch (X86 (upd f v r) o) t]> (threads m)) m.
Proof.
  unfold put_reg, current_thread, index. destruct (threads m !! _) as [t|] eqn:Et; cbn; [|discriminate].
  unfold regs_x86, put_regs_x86. destruct (arch t) as [r o|] eqn:Ea; cbn; [|discriminate].
  rewrite put_current_eq by now apply lookup_lt_Some in Et. intros [= <-]. eauto 6.
Qed.

(** What the caller finds in [rax] *)
Definition result m : option Z :=
  match threads m !! current_thread_id m with
  | Some t => match arch t with X86 r _ => Some (r rax) | AArch64 _ _ _ _ => None end
  | None => None
  end.

(** The new thread: its entry point and parameter, and whether it starts suspended *)
Definition started_at (entry param : Z) (t : ThreadContext X A) : Prop :=
  exists r o, arch t = X86 r o /\ r rip = entry /\ r rcx = param.

(** The end of [CreateThread], once the thread is in the list *)
Lemma finish_handle id m m' :
  handles_ok (handles m) -> (current_thread_id m < length (threads m))%nat ->
  (let '(h, hs) := handler_create ("tid://0x" +:+ hex id) (handles m) in put_reg rax h (set_handles hs m)) = Ret m' ->
  exists h, result m' = Some h /\ handler_get_uri h (handles m') = "tid://0x" +:+ hex id /\
    length (threads m') = length (threads m) /\
    forall i, i <> current_thread_id m -> threads m' !! i = threads m !! i.
Proof.
  intros Hh Hc. pose proof (handler_create_uri ("tid://0x" +:+ hex id) _ Hh) as Hu.
  destruct (handler_create _ _) as [h hs]. destruct Hu as (Hu & _ & _).
  intros (t & r & o & Et & Ea & ->)%put_reg_get. exists h. cbn [handles set_threads set_handles threads current_thread_id] in *.
  unfold result. cbn [threads current_thread_id set_threads set_handles]. rewrite list_lookup_insert_eq by exact Hc.
  split; [cbn; unfold upd; now rewrite decide_True|]. split; [exact Hu|]. split; [apply length_insert|].
  intros i Hi. now apply list_lookup_insert_ne.
Qed.

(** The call added a thread, and returned a handle that names it. *)
Definition created m (r : Regs64) m' : Prop :=
  exists h t, result m' = Some h /\
    handler_get_uri h (handles m') = "tid://0x" +:+ hex (0x1000 + Z.of_nat (length (threads m))) /\
    length (threads m') = Datatypes.S (length (threads m)) /\
    threads m' !! length (threads m) = Some t /\ tid t = 0x1000 + Z.of_nat (length (threads m)) /\
    started_at (r r8) (r r9) t.

Lemma created_finish m r t m1 m2 :
  handles_ok (handles m) -> (current_thread_id m < length (threads m))%nat ->
  tid t = 0x1000 + Z.of_nat (length (threads m)) -> started_at (r r8) (r r9) t ->
  memory_only (set_threads (threads m ++ [t]) m) m1 ->
  (let '(h, hs) := handler_create ("tid://0x" +:+ hex (0x1000 + Z.of_nat (length (threads m)))) (handles m1) in
   put_reg rax h (set_handles hs m1)) = Ret m2 -> created m r m2.
Proof.
  intros Hh Hc Ht Hs [mp ->] E. apply finish_handle in E as (h & Hres & Huri & Hl & Ho);
    [| exact Hh | cbn; rewrite length_app; lia].
  cbn [threads set_threads set_tmaps current_thread_id] in *. rewrite length_app in Hl.
  exists h, t. split; [exact Hres|]. split; [exact Huri|]. split; [cbn in Hl; lia|].
  split; [|now split]. rewrite Ho by lia. now rewrite lookup_app_r, Nat.sub_diag by lia.
Qed.

(** The first half: what is read before the thread is made changes no handle. *)
Lemma memory_only_handles m m' : memory_only m m' -> handles m' = handles m.
Proof. now intros [mp ->]. Qed.

(** [CreateThread], when it gets as far as returning a handle *)
Lemma create_thread_handle m r m' :
  handles_ok (handles m) -> (current_thread_id m < length (threads m))%nat -> regs m = Ret r ->
  CreateThread m = Ret m' -> handles m' <> handles m -> created m r m'.
Proof.
  intros Hh Hc Er. unfold CreateThread. rewrite Er. cbn [mbind outcome_bind].
  destruct (with_maps _ m) as [[b m1]|] eqn:E1; cbn [mbind outcome_bind]; [|discriminate]. apply with_maps_only in E1.
  destruct (if b then _ else _) as [m2|] eqn:E2; cbn [mbind outcome_bind]; [|discriminate].
  assert (memory_only m1 m2) as Hm2 by (destruct b; [now apply dump_stack_only in E2 | injection E2 as <-; apply memory_only_refl]).
  destruct (with_maps _ m2) as [[fl m3]|] eqn:E3; cbn [mbind outcome_bind]; [|discriminate]. apply with_maps_only in E3.
  assert (memory_only m m3) as Hm3 by eauto using memory_only_trans.
  destruct fl as [fl|]; [|intros [= <-] []; now apply memory_only_handles].
  destruct (with_maps _ m3) as [[tp m4]|] eqn:E4; cbn [mbind outcome_bind]; [|discriminate]. apply with_maps_only in E4.
  assert (memory_only m m4) as Hm4 by eauto using memory_only_trans.
  destruct tp as [tp|]; [|intros [= <-] []; now apply memory_only_handles].
  destruct (create_stack _ _ _ m4) as [[nr m5]|] eqn:E5; cbn [mbind outcome_bind]; [|discriminate].
  apply create_stack_only in E5 as [Hm5 Hnr]. assert (memory_only m m5) as [mp5 ->] by eauto using memory_only_trans.
  destruct nr as [nr|]; [|now intros [= <-] []]. destruct (Hnr nr eq_refl) as [Hrip Hrcx].
  assert (threads m4 = threads m) as -> by now destruct Hm4 as [mp ->].
  set (t := set_suspended _ _). set (m6 := set_threads _ _).
  assert (memory_only (set_threads (threads m ++ [t]) m) m6) as Hm6 by now exists mp5.
  assert (started_at (r r8) (r r9) t) as Hst by now exists nr, (fpu_set_ip (r r8) new_x86).
  destruct (0 <? tp); [|intros E _; now apply (created_finish m r t m6)].
  destruct (with_maps _ m6) as [[b7 m7]|] eqn:E7; cbn [mbind outcome_bind]; [|discriminate]. apply with_maps_only in E7.
  destruct b7; [|intros [= <-] []; now apply memory_only_handles in E7].
  destruct (with_maps _ m7) as [[b8 m8]|] eqn:E8; cbn [mbind outcome_bind]; [|discriminate]. apply with_maps_only in E8.
  intros E _. apply (created_finish m r t m8); eauto using memory_only_trans.
Qed.
End Create.

(** ** Resuming *)

Section Resume.
Context {S X A W : Type} `{SlabLaws S} `{NewThread X}.
Implicit Types (m : Machine S X A W) (ts : list (ThreadContext X A)).

Lemma resume_first id i t ts :
  ts !! i = Some t -> tid t = id -> (forall j u, (j < i)%nat -> ts !! j = Some u -> tid u <> id) ->
  resume id ts = Some (if suspended t then 1 else 0, <[i := set_suspended false t]> ts).
Proof.
  revert i. induction ts as [|u ts IH]; intros i Et Ht Hb; [discriminate|]. cbn [resume]. destruct i as [|i].
  - injection Et as ->. now rewrite (proj2 (Z.eqb_eq _ _)).
  - rewrite (proj2 (Z.eqb_neq _ _)) by (apply (Hb 0%nat u); [lia | reflexivity]).
    rewrite (IH i); [reflexivity | exact Et | exact Ht |]. intros j v Hj. apply (Hb (Datatypes.S j)). lia.
Qed.

Lemma peek_total p m : linux_ok m -> 0 <= p -> exists tl, wf_tlb tl /\ peek p m = Ret (with_tlb tl m).
Proof.
  intros Hok Hp. unfold peek. pose proof (lo_maps _ Hok) as Hwf. destruct (p =? 0).
  - exists (tlb (tmaps m)). split; [apply wf_tlb_array, Hwf|]. unfold with_tlb. rewrite set_tlb_id. now destruct m.
  - unfold is_mapped. destruct (get_mem_by_addr_find (tmaps m) Hwf p) as (tl & Htl & ->). cbn [mbind outcome_bind].
    destruct (bool_decide _); [|now exists tl].
    destruct (read_scalar_spec 4 p (set_tlb tl (tmaps m))) as (tl2 & Htl2 & E); [now apply set_tlb_wf | exact Hp | lia |].
    unfold read_dword. cbn [SIZE]. rewrite E. now exists tl2.
Qed.

Lemma resume_by_handle m r i t :
  linux_ok m -> Z.of_nat (length (threads m)) < 2 ^ 32 -> regs m = Ret r -> threads m !! i = Some t ->
  handler_get_uri (r rcx) (handles m) = "tid://0x" +:+ hex (0x1000 + Z.of_nat i) ->
  exists tl, wf_tlb tl /\ ResumeThread m =
    put_reg rax (if suspended t then 1 else 0) (set_threads (<[i := set_suspended false t]> (threads m)) (with_tlb tl m)).
Proof.
  intros Hok Hl Er Et Hu. unfold ResumeThread. rewrite Er. cbn [mbind outcome_bind].
  assert (0 <= r rcx) as Hp.
  { destruct (current_ok m Hok) as (u & r' & o & _ & _ & Er' & _ & Hr & _). replace r with r' by congruence. apply (Hr rcx). }
  destruct (peek_total (r rcx) m Hok Hp) as (tl & Htl & ->). cbn [mbind outcome_bind]. exists tl. split; [exact Htl|].
  change (handles (with_tlb tl m)) with (handles m). change (threads (with_tlb tl m)) with (threads m). rewrite Hu.
  pose proof (lookup_lt_Some _ _ _ Et). set (id := 0x1000 + Z.of_nat i).
  change (strip_prefix "tid://" ("tid://0x" +:+ hex id)) with (Some ("0x" +:+ hex id)). cbn iota beta zeta.
  rewrite parse_tid_hex by (apply small_word; lia). rewrite (proj2 (Z.eqb_neq _ _)) by lia.
  rewrite (resume_first id i t); [reflexivity | exact Et | apply (lo_threads _ Hok _ _ Et) |].
  intros j u Hj Eu. destruct (lo_threads _ Hok _ _ Eu) as [-> _]. lia.
Qed.
End Resume.
(** ** That the call returns *)

Section Returns.
Context {S X A W : Type} `{SlabLaws S} `{NewThread X}.
Implicit Types (m : Machine S X A W).

(** The quadword at an address, when it can be read *)
Definition qword_at (a : Z) (mp : Maps S) : option Z :=
  if reachable Mem.can_read 8 a mp then from_le_bytes <$> bytes_of mp a 8 else None.

Definition mapped_at (a : Z) (mp : Maps S) : bool := bool_decide (is_Some (find_map a mp)).

Lemma read_qword_at a m : wf (tmaps m) -> 0 <= a ->
  exists tl, wf_tlb tl /\ with_maps (read_qword a) m = Ret (qword_at a (tmaps m), with_tlb tl m).
Proof.
  intros Hwf Ha. destruct (read_scalar_spec 8 a (tmaps m)) as (tl & Htl & E); [exact Hwf | exact Ha | lia |].
  exists tl. split; [exact Htl|]. unfold with_maps, read_qword. cbn [SIZE]. now rewrite E.
Qed.

Lemma is_mapped_at a m : wf (tmaps m) ->
  exists tl, wf_tlb tl /\ with_maps (is_mapped a) m = Ret (mapped_at a (tmaps m), with_tlb tl m).
Proof.
  intros Hwf. unfold with_maps, is_mapped. destruct (get_mem_by_addr_find (tmaps m) Hwf a) as (tl & Htl & ->).
  now exists tl.
Qed.

Lemma dump_stack_total l sp m : wf (tmaps m) -> exists tl, wf_tlb tl /\ dump_stack l sp m = Ret (with_tlb tl m).
Proof.
  intros Hwf. revert m Hwf. induction l as [|i l IH]; intros m Hwf; cbn [dump_stack].
  - exists (tlb (tmaps m)). split; [apply wf_tlb_array, Hwf|]. unfold with_tlb. rewrite set_tlb_id. now destruct m.
  - destruct (is_mapped_at (wadd sp (i * 8)) m Hwf) as (t1 & Ht1 & ->). cbn [mbind outcome_bind].
    pose proof (set_tlb_wf _ _ Hwf Ht1) as Hw1. destruct (mapped_at _ _); cbn [mbind outcome_bind].
    + destruct (read_qword_at (wadd sp (i * 8)) (with_tlb t1 m)) as (t2 & Ht2 & ->); [exact Hw1 | apply wadd_nonneg |].
      cbn [mbind outcome_bind]. destruct (IH (with_tlb t2 (with_tlb t1 m))) as (t3 & Ht3 & ->); [exact (set_tlb_wf _ _ Hw1 Ht2)|].
      now exists t3.
    + destruct (IH (with_tlb t1 m) Hw1) as (t3 & Ht3 & ->). now exists t3.
Qed.

(** What [CreateThread] needs of the caller's stack arguments, of the pointer for the thread id
    and of the address space for the new stack *)
Definition finds_room (sz : Z) (mp : Maps S) : Prop := sz = 0 \/ roomy sz mp /\ exists b, alloc sz mp = Ret (Some b).

Record acceptable (r : Regs64) (mp : Maps S) : Prop := {
  ac_flags : is_Some (qword_at (wadd (r rsp) 0x20) mp);
  ac_tid : exists p, qword_at (wadd (r rsp) 0x28) mp = Some p /\ (p = 0 \/ mapped_at p mp = true);
  ac_stack : finds_room (r rdx) mp }.

Lemma mapped_cell a (mp : Maps S) : wf mp -> mapped_at a mp = bool_decide (is_Some (cell_of mp a)).
Proof.
  intros Hwf. unfold mapped_at. apply bool_decide_ext. rewrite <- !not_eq_None_Some. now rewrite cell_of_none.
Qed.

Lemma create_stack_room id sz r m :
  wf (tmaps m) -> finds_room sz (tmaps m) ->
  exists r' mp, create_stack id sz r m = Ret (Some r', set_tmaps mp m) /\ wf mp /\
    forall a, mapped_at a (tmaps m) = true -> mapped_at a mp = true.
Proof.
  intros Hwf Hroom. unfold create_stack. destruct Hroom as [-> | [Hroom (b & Eb)]].
  - exists r, (tmaps m). split; [now destruct m | easy].
  - pose proof (ro_size _ _ Hroom) as Hsz. rewrite (proj2 (Z.ltb_lt _ _)) by lia.
    destruct (alloc_spec sz (tmaps m) Hwf Hroom) as (o & Eo & Ho). rewrite Eb in *. injection Eo as <-.
    destruct (Ho b eq_refl) as (Hb & Ht & Hfree). cbn [mbind outcome_bind].
    destruct (create_map_spec ("thread_stack_" +:+ hex id) b sz Perm.READ_WRITE (tmaps m) Hwf ltac:(lia) ltac:(lia) ltac:(lia) Hfree)
      as (e & mp & E & Hw & Hm). unfold with_maps. rewrite E. cbn. do 2 eexists. split; [reflexivity|]. split; [exact Hw|].
    intros a. rewrite !mapped_cell by assumption. destruct e as [e|k]; [destruct Hm as (_ & _ & Heq); now rewrite (cell_of_proper _ _ Heq a a eq_refl)|].
    destruct Hm as (_ & _ & Hc). rewrite Hc. destruct (_ && _); [|easy]. intros _. now apply bool_decide_eq_true.
Qed.

(** The search for a gap does not look at the TLB. *)
Lemma find_gap_tlb n prev sz l tl (mp : Maps S) : find_gap n prev sz l (set_tlb tl mp) = find_gap n prev sz l mp.
Proof.
  revert prev sz. induction l as [|[b k] l IH]; intros prev sz; cbn [find_gap]; [reflexivity|].
  change (mem_slab (set_tlb tl mp)) with (mem_slab mp).
  destruct (checked_sub _ _) as [g|]; [destruct (n <? g); [reflexivity|]|]; destruct (slab_get _ _); apply IH.
Qed.

Lemma alloc_tlb sz tl (mp : Maps S) : alloc sz (set_tlb tl mp) = alloc sz mp.
Proof.
  assert (forall n lo hi, _alloc_uncapped n lo hi (set_tlb tl mp) = _alloc_uncapped n lo hi mp) as E.
  { intros n lo hi. unfold _alloc_uncapped. cbn [maps mem_slab set_tlb].
    destruct (match checked_sub _ _ with Some _ => _ | None => _ end); [reflexivity|].
    destruct (range _ _ _); cbn; [now rewrite find_gap_tlb | reflexivity]. }
  unfold alloc, _alloc. cbn [is_64bits max_alloc_size set_tlb]. now rewrite !E.
Qed.

Lemma finds_room_tlb sz tl (mp : Maps S) : finds_room sz mp -> finds_room sz (set_tlb tl mp).
Proof. intros [? | [[Hs Ha He Hw] Hb]]; [now left | right; split; [now split | now rewrite alloc_tlb]]. Qed.

Lemma put_reg_total f v m t r o :
  threads m !! current_thread_id m = Some t -> arch t = X86 r o -> exists m', put_reg f v m = Ret m' /\ handles m' = handles m.
Proof.
  intros Et Ea. unfold put_reg, current_thread, index. rewrite Et. cbn. unfold regs_x86, put_regs_x86. rewrite Ea. cbn.
  rewrite put_current_eq by now apply lookup_lt_Some in Et. now eexists.
Qed.

Lemma finish_returns u (hs0 : list Handler) m t r o :
  handles m = hs0 -> threads m !! current_thread_id m = Some t -> arch t = X86 r o ->
  exists m', (let '(h, hs) := handler_create u (handles m) in put_reg rax h (set_handles hs m)) = Ret m' /\ handles m' <> hs0.
Proof.
  intros <- Et Ea. unfold handler_create. destruct (put_reg_total rax (match last (handles m) with None => 3 | Some h => wadd (hid h) 1 end)
    (set_handles (handles m ++ [mkHandler (match last (handles m) with None => 3 | Some h => wadd (hid h) 1 end) u [] 0 false]) m) t r o Et Ea)
    as (m' & E & Eh). exists m'. split; [exact E|]. rewrite Eh. cbn. intros Happ%(f_equal length). rewrite length_app in Happ. cbn in Happ. lia.
Qed.

(** The caller is still there, and on x86, after a thread is added and memory changes. *)
Lemma caller_stays m t mp :
  linux_ok m -> exists u r o,
    threads (set_tmaps mp (set_threads (threads m ++ [t]) m)) !! current_thread_id m = Some u /\ arch u = X86 r o.
Proof.
  intros Hok. destruct (current_ok m Hok) as (u & r & o & Et & _ & _ & Ea & _). exists u, r, o. split; [|exact Ea].
  cbn. apply lookup_app_l_Some, Et.
Qed.

(** The end of the call, from the thread list on *)
Lemma create_end_returns u p m t mp :
  linux_ok m -> wf mp -> 0 <= p -> p = 0 \/ mapped_at p mp = true ->
  let finish m' := let '(h, hs) := handler_create u (handles m') in put_reg rax h (set_handles hs m') in
  let m1 := set_threads (threads m ++ [t]) (set_tmaps mp m) in
  exists m', (if 0 <? p then
                '(mapped, m) ← with_maps (is_mapped p) m1;
                if (mapped : bool) then '(_, m) ← with_maps (write_dword p (wrap 32 (tid t))) m; finish m else Ret m
              else finish m1) = Ret m' /\ handles m' <> handles m.
Proof.
  intros Hok Hwf Hp Hmap finish m1. destruct (Z.ltb_spec 0 p).
  - destruct Hmap as [-> | Hmap]; [lia|]. destruct (is_mapped_at p m1 Hwf) as (tl & Htl & ->). cbn [mbind outcome_bind].
    change (tmaps m1) with mp. rewrite Hmap. cbn [mbind outcome_bind].
    destruct (write_scalar_spec 4 p (wrap 32 (tid t)) (set_tlb tl mp)) as (mp' & E & _); [now apply set_tlb_wf | lia | lia |].
    unfold with_maps at 1, write_dword. cbn [SIZE tmaps with_tlb set_tmaps]. change (tmaps m1) with mp. rewrite E. cbn [mbind outcome_bind].
    destruct (caller_stays m t mp' Hok) as (v & r & o & Ev & Ea).
    now apply (finish_returns u (handles m) (set_tmaps mp' (with_tlb tl m1)) v r o).
  - destruct (caller_stays m t mp Hok) as (v & r & o & Ev & Ea). now apply (finish_returns u (handles m) m1 v r o).
Qed.

Lemma qword_nonneg a v (mp : Maps S) : wf mp -> qword_at a mp = Some v -> 0 <= v.
Proof.
  intros Hwf. unfold qword_at. destruct (reachable _ _ _ _); [|discriminate].
  destruct (bytes_of mp a 8) as [l|] eqn:El; cbn; [|discriminate]. intros [= <-].
  destruct (bytes_of_bytes mp a 8 l Hwf El) as [Hl _]. apply (from_le_bytes_word l Hl).
Qed.

Lemma create_thread_returns m r :
  linux_ok m -> regs m = Ret r -> acceptable r (tmaps m) -> exists m1, CreateThread m = Ret m1 /\ handles m1 <> handles m.
Proof.
  intros Hok Er [[fl Hfl] (p & Hp & Hmp) Hroom]. pose proof (lo_maps _ Hok) as Hwf. unfold CreateThread. rewrite Er. cbn [mbind outcome_bind].
  destruct (is_mapped_at (r rsp) m Hwf) as (t1 & Ht1 & ->). cbn [mbind outcome_bind].
  pose proof (set_tlb_wf _ _ Hwf Ht1) as Hw1.
  assert (exists tl, wf_tlb tl /\ (if mapped_at (r rsp) (tmaps m) then dump_stack [0; 1; 2; 3; 4; 5; 6; 7] (r rsp) (with_tlb t1 m)
    else Ret (with_tlb t1 m)) = Ret (with_tlb tl m)) as (t2 & Ht2 & ->).
  { destruct (mapped_at (r rsp) _); [|exact (ex_intro _ t1 (conj Ht1 eq_refl))]. destruct (dump_stack_total [0; 1; 2; 3; 4; 5; 6; 7] (r rsp) (with_tlb t1 m) Hw1) as (t2 & Ht2 & ->).
    exact (ex_intro _ t2 (conj Ht2 eq_refl)). }
  cbn [mbind outcome_bind]. pose proof (set_tlb_wf _ _ Hwf Ht2) as Hw2.
  destruct (read_qword_at (wadd (r rsp) 0x20) (with_tlb t2 m) Hw2 (wadd_nonneg _ _)) as (t3 & Ht3 & ->). cbn [mbind outcome_bind].
  change (qword_at (wadd (r rsp) 0x20) (tmaps (with_tlb t2 m))) with (qword_at (wadd (r rsp) 0x20) (tmaps m)). rewrite Hfl.
  pose proof (set_tlb_wf _ _ Hwf Ht3) as Hw3.
  destruct (read_qword_at (wadd (r rsp) 0x28) (with_tlb t3 m) Hw3 (wadd_nonneg _ _)) as (t4 & Ht4 & E4).
  change (with_tlb t3 (with_tlb t2 m)) with (with_tlb t3 m). rewrite E4. cbn [mbind outcome_bind].
  change (qword_at (wadd (r rsp) 0x28) (tmaps (with_tlb t3 m))) with (qword_at (wadd (r rsp) 0x28) (tmaps m)). rewrite Hp.
  change (with_tlb t4 (with_tlb t3 m)) with (with_tlb t4 m). change (threads (with_tlb t4 m)) with (threads m).
  destruct (create_stack_room (0x1000 + Z.of_nat (length (threads m))) (r rdx) (upd rax 0 (upd rcx (r r9) (upd rip (r r8) new_regs))) (with_tlb t4 m))
    as (nr & mp & -> & Hwm & Hmap); [exact (set_tlb_wf _ _ Hwf Ht4) | now apply finds_room_tlb |]. cbn [mbind outcome_bind].
  refine (create_end_returns _ p m _ mp Hok Hwm (qword_nonneg _ _ _ Hwf Hp) _). destruct Hmp; [now left | right; now apply Hmap].
Qed.
End Returns.

(** ** Results *)

Section Results.
Context {S X A W : Type} `{SlabLaws S} `{NewThread X}.
Implicit Types (m : Machine S X A W).

(** The handle of a thread is the thread: CreateThread with readable stack
    arguments, a usable pointer for the id and room for the stack returns a handle,
    a new thread starts at the given address with the given parameter, and from then
    on ResumeThread on that handle finds exactly that thread, in whatever state it
    and the others are, resumes it, leaves the others alone and returns whether it
    was suspended. *)
Theorem create_resume_roundtrip m r :
  linux_ok m -> handles_ok (handles m) -> regs m = Ret r -> acceptable r (tmaps m) ->
  exists m1 h, CreateThread m = Ret m1 /\ result m1 = Some h /\
    (exists t, threads m1 !! length (threads m) = Some t /\ started_at (r r8) (r r9) t) /\
    forall m2 r2 t, linux_ok m2 -> Z.of_nat (length (threads m2)) < 2 ^ 32 -> handles m2 = handles m1 ->
      regs m2 = Ret r2 -> r2 rcx = h -> threads m2 !! length (threads m) = Some t ->
      exists tl, wf_tlb tl /\ ResumeThread m2 =
        put_reg rax (if suspended t then 1 else 0)
          (set_threads (<[length (threads m) := set_suspended false t]> (threads m2)) (with_tlb tl m2)).
Proof.
  intros Hok Hh Er Hac. destruct (create_thread_returns m r Hok Er Hac) as (m1 & Ecr & Hne).
  destruct (create_thread_handle m r m1 Hh (lo_current _ Hok) Er Ecr Hne) as (h & t & Hres & Huri & _ & Et & _ & Hst).
  exists m1, h. split; [exact Ecr|]. split; [exact Hres|]. split; [now exists t|]. intros m2 r2 t2 Hok2 Hl Eh Er2 Erc Et2.
  apply (resume_by_handle m2 r2); auto. now rewrite Eh, Erc.
Qed.
End Results.
