(* ===== verification/ThreadSamples.v ===== *)
(** * Sample threads

    Small machines on which the theorems about threads, system calls and
    processes are applied, and runs that show where the code does not do what
    its comments say. *)

From stdpp Require Import gmap strings.
From S2P Require Import Prelude Scalar Mem64 Slab Tlb Maps MapsInv MapsRun Regs.
From S2P Require Import Threads SchedSpec LocksSpec ThreadsLinux FutexSpec WinThreads WinThreadsSpec.

Notation sample_machine := (Machine (gmap nat Mem64) unit unit unit).
Notation sample_thread := (ThreadContext unit unit).

(** Instructions that do nothing. *)
#[local] Instance idle : Executor (gmap nat Mem64) unit unit unit := {
  decode_and_execute m := Ret (1, true, m);
  advance_pc _ m := Ret m;
  check_runtime_limits _ := false;
  ensure_peb_system_dependent_07 m := m
}.

#[local] Instance unit_thread : NewThread unit := { new_x86 := tt; fpu_set_ip _ s := s }.

(** The [i]-th thread, with the given registers *)
Definition thread_with (i : nat) (r : Regs64) : sample_thread := new_thread (0x1000 + Z.of_nat i) (X86 r tt).

(** Registers that are zero but for those listed *)
Definition regs_with (l : list (Field * Z)) : Regs64 := fun f => default 0 (snd <$> head (filter (fun p => p.1 = f) l)).

Definition machine_of (ts : list sample_thread) : sample_machine :=
  mkMachine ts 0 0 0 0 sample ∅ [] 0 (mkTConfig 0 false true true false) true false 1 tt.

(** ** The scheduler *)

(** The running thread is suspended, the other two sleep: until 7, and until 5 but blocked. *)
Definition drowsy : sample_machine :=
  machine_of [set_suspended true (thread_with 0 new_regs); set_wake_tick 7 (thread_with 1 new_regs);
              set_blocked (Some 0x1000) (set_wake_tick 5 (thread_with 2 new_regs))].

Lemma drowsy_scheduling : scheduling drowsy.
Proof. split; cbn; reflexivity || lia. Defined.

Lemma step_multi_threaded_correct_witness :
  exists j T, (j <= 3)%nat /\ comes_to (step_multi_threaded 3 drowsy) j T drowsy.
Proof. exact (step_multi_threaded_correct 3 drowsy drowsy_scheduling ltac:(cbn; lia)). Defined.

Lemma schedule_next_thread_correct_witness : exists T, settles (schedule_next_thread 4 drowsy) T drowsy.
Proof. apply (schedule_next_thread_correct 4 drowsy); cbn; lia. Defined.

(** Two threads that can run *)
Definition busy (current : nat) (p : Z) : sample_machine :=
  set_pos p (set_current current (machine_of [thread_with 0 new_regs; thread_with 1 new_regs])).

Lemma busy_waits current p t : (current < 2)%nat -> (t < 2)%nat -> waiting t 2 (busy current p).
Proof.
  intros Hc Ht. split; [split; cbn; reflexivity || lia|]. split; [reflexivity|].
  destruct t as [|[|t]]; [reflexivity | reflexivity | lia].
Qed.

Lemma busy_leaves current p : (current < 2)%nat -> leaves_turn (busy current p).
Proof.
  intros Hc k b m' (i & Hi & -> & _). assert (after i (busy current p) < 2)%nat as Hk by (apply (after_lt i (busy current p)); cbn; lia).
  destruct (after i (busy current p)) as [|[|k]]; [| |lia]; destruct current as [|[|]]; try lia; now intros [= _ <-].
Qed.

Lemma round_robin_fair_witness : served 0 (busy 0 0) [busy 1 1; busy 0 2].
Proof.
  apply (round_robin_fair 0 2 (busy 0 0)); [| reflexivity | lia |].
  - apply (trace_step (busy 0 0) true (busy 1 1)); [vm_compute; reflexivity|].
    apply (trace_step (busy 1 1) true (busy 0 2)); [vm_compute; reflexivity | apply trace_end].
  - intros x Hx. repeat (apply elem_of_cons in Hx as [->|Hx]; [split; [apply busy_waits | apply busy_leaves]; lia|]). now apply not_elem_of_nil in Hx.
Defined.

(** ** Critical sections *)

(** Two threads that want the section at [0x5000] *)
Definition at_section : Regs64 := regs_with [(rcx, 0x5000)].
Definition contenders : sample_machine := machine_of [thread_with 0 at_section; thread_with 1 at_section].

Definition ret_or {T} (d : T) (r : outcome T) : T := match r with Ret v => v | Panic => d end.
Definition entered_once : sample_machine := ret_or contenders (EnterCriticalSection contenders).
Definition contended : sample_machine := ret_or contenders (EnterCriticalSection (set_current 1 entered_once)).

Lemma contenders_unlocked : unlocked contenders.
Proof.
  split; [reflexivity | apply (bool_decide_unpack _); vm_compute; reflexivity |].
  intros t Ht. repeat (apply elem_of_cons in Ht as [->|Ht]; [reflexivity|]). now apply not_elem_of_nil in Ht.
Qed.

Lemma contended_history : nsteps event 3 contenders contended.
Proof.
  apply (nsteps_l _ _ _ entered_once); [apply ev_enter; vm_compute; reflexivity|].
  apply (nsteps_l _ _ _ (set_current 1 entered_once)); [apply ev_turn; vm_compute; reflexivity|].
  apply (nsteps_l _ _ _ contended); [apply ev_enter; vm_compute; reflexivity | apply nsteps_O].
Qed.

Lemma contended_inv : lock_inv 4 (global_locks contended) (threads contended).
Proof. exact (history_inv 3 contenders contended contenders_unlocked ltac:(lia) contended_history). Qed.

Lemma locks_history_safe_witness : lock_inv 4 (global_locks contended) (threads contended).
Proof. apply (locks_history_safe 3 contenders contended contenders_unlocked ltac:(lia) contended_history). Defined.

Lemma leave_hands_over_witness :
  exists m' i u, LeaveCriticalSection (set_current 0 contended) = Ret m' /\
    state_of (global_locks m') 0x5000 = mkCrit (Some 0x1001) 1 [] /\
    threads contended !! i = Some u /\ tid u = 0x1001 /\
    threads m' = <[i := set_wake_tick 0 (set_blocked None u)]> (threads contended).
Proof.
  apply (leave_hands_over 4 (set_current 0 contended) (thread_with 0 at_section) at_section tt 0x1001 []).
  - exact contended_inv.
  - vm_compute. reflexivity.
  - reflexivity.
  - vm_compute. reflexivity.
Defined.

(** ** Linux calls *)

Lemma zeros_but l : Forall (fun p => is_word 64 p.2 /\ match p.1 with xmm _ | mm _ | ymm _ => False | _ => True end) l -> words (regs_with l).
Proof.
  intros Hl f. unfold regs_with. destruct (head _) as [[g v]|] eqn:E; cbn.
  - assert ((g, v) ∈ filter (fun p => p.1 = f) l) as [Ef Hin]%list_elem_of_filter by (apply head_Some_elem_of in E; exact E).
    cbn in Ef. subst g. rewrite Forall_forall in Hl. destruct (Hl _ Hin) as [Hv Hf]. cbn in Hv, Hf. now destruct f.
  - destruct f; unfold is_word; lia.
Qed.

(** The running thread, and two that wait on the word at [0x1000] *)
Definition waiting_pair (l : list (Field * Z)) : sample_machine :=
  machine_of [thread_with 0 (regs_with l); set_blocked (Some 0x1000) (thread_with 1 new_regs);
              set_blocked (Some 0x1000) (thread_with 2 new_regs)].

Lemma waiting_pair_ok l :
  Forall (fun p => is_word 64 p.2 /\ match p.1 with xmm _ | mm _ | ymm _ => False | _ => True end) l -> linux_ok (waiting_pair l).
Proof.
  intros Hl. split; [exact sample_wf | | cbn; lia].
  assert (words new_regs) as Hn by (intros []; unfold new_regs, is_word; lia).
  intros [|[|[|i]]] t Et; [injection Et as <- .. | discriminate Et];
    (split; [reflexivity|]; split; [unfold is_word; cbn; lia|]; eexists _, tt; split; [reflexivity|]);
    first [now apply zeros_but | exact Hn].
Qed.

Ltac solve_regs := repeat (constructor; [split; [unfold is_word; cbn; lia | exact I]|]); constructor.

Lemma linux_calls_total_witness :
  exists b m', dispatch (waiting_pair [(rax, 24)]) = Ret (b, m') /\ linux_ok m' /\ grows (waiting_pair [(rax, 24)]) m'.
Proof. apply linux_calls_total; [apply waiting_pair_ok; solve_regs | cbn; lia]. Defined.

(** FUTEX_WAKE of one thread: the first of the two *)
Definition wake_one : list (Field * Z) := [(rax, 202); (rdi, 0x1000); (rsi, 0x81); (rdx, 1)].

Lemma futex_wake_exact_witness :
  exists ts, futex (waiting_pair wake_one) = put_reg rax 1 (set_threads ts (waiting_pair wake_one)) /\
    ts !! 1%nat = Some (thread_with 1 new_regs) /\ ts !! 2%nat = Some (set_blocked (Some 0x1000) (thread_with 2 new_regs)).
Proof.
  destruct (futex_wake_exact (waiting_pair wake_one) (regs_with wake_one)) as (ts & E & _ & Hts);
    [apply waiting_pair_ok; solve_regs | reflexivity | reflexivity |].
  exists ts. split; [exact E|]. split; [exact (Hts 1%nat _ eq_refl) | exact (Hts 2%nat _ eq_refl)].
Defined.

(** FUTEX_WAIT on a word that holds zero, expecting zero *)
Definition wait_here : list (Field * Z) := [(rax, 202); (rdi, 0x1000); (rsi, 0x80); (rdx, 0)].

Lemma futex_wait_correct_witness :
  exists tl m2, wf_tlb tl /\
    put_current (set_blocked (Some 0x1000) (thread_with 0 (regs_with wait_here))) (with_tlb tl (waiting_pair wait_here)) = Ret m2 /\
    futex (waiting_pair wait_here) = put_reg rax 0 m2.
Proof.
  destruct (futex_wait_correct (waiting_pair wait_here) (regs_with wait_here) (thread_with 0 (regs_with wait_here)))
    as (tl & Htl & Hcase); [apply waiting_pair_ok; solve_regs | reflexivity | reflexivity | reflexivity |].
  replace (negb _) with false in Hcase by (vm_compute; reflexivity).
  change (live_threads (waiting_pair wait_here) <=? 1)%nat with false in Hcase.
  change (negb (regs_with wait_here r10 =? 0)) with false in Hcase. destruct Hcase as (m2 & E1 & E2).
  exact (ex_intro _ tl (ex_intro _ m2 (conj Htl (conj E1 E2)))).
Defined.

(** The running thread exits; its clear word is the one the others wait on. *)
Definition leaving : sample_machine :=
  set_threads (<[0%nat := set_clear 0x1000 (thread_with 0 (regs_with []))]> (threads (waiting_pair []))) (waiting_pair []).

Lemma leaving_ok : linux_ok leaving.
Proof.
  apply put_thread_ok; [apply waiting_pair_ok; constructor|]. split; [reflexivity|]. split; [unfold is_word; cbn; lia|].
  eexists _, tt. split; [reflexivity | now apply zeros_but].
Qed.

Lemma thread_exit_releases_witness :
  exists mp, exit_thread leaving =
    Ret (set_threads [set_suspended true (set_clear 0x1000 (thread_with 0 (regs_with [])));
                      thread_with 1 new_regs; thread_with 2 new_regs] (set_tmaps mp leaving)) /\
    stores sample mp 0x1000 [0; 0; 0; 0].
Proof.
  destruct (thread_exit_releases leaving (set_clear 0x1000 (thread_with 0 (regs_with []))) leaving_ok) as (mp & E & Hs);
    [cbn; lia | vm_compute; lia | reflexivity |].
  exists mp. split; [exact E | apply Hs; [cbn; lia | vm_compute; reflexivity]].
Defined.

(** ** Windows threads *)

(** A caller whose stack arguments are zero *)
Definition create_args : Regs64 := regs_with [(rsp, 0xff0); (r8, 0x401000); (r9, 7)].
Definition creator : sample_machine := machine_of [thread_with 0 create_args].

Lemma creator_ok : linux_ok creator.
Proof.
  split; [exact sample_wf | | cbn; lia]. intros [|i] t Et; [injection Et as <- | discriminate Et].
  split; [reflexivity|]. split; [unfold is_word; cbn; lia|]. exists create_args, tt. split; [reflexivity|].
  apply zeros_but; solve_regs.
Defined.

Lemma create_resume_roundtrip_witness :
  exists m1 h, CreateThread creator = Ret m1 /\ result m1 = Some h /\
    exists t, threads m1 !! length (threads creator) = Some t /\ started_at (create_args r8) (create_args r9) t.
Proof.
  destruct (create_resume_roundtrip creator create_args) as (m1 & h & E & Hh & Ht & _);
    [exact creator_ok | split; constructor | reflexivity | |].
  - split; [vm_compute; eauto | exists 0; split; [vm_compute; reflexivity | now left] | now left].
  - exact (ex_intro _ m1 (ex_intro _ h (conj E (conj Hh Ht)))).
Defined.

(** ** Runs *)

(** Sleep moves the clock past the wake time it has just set, so the caller goes on at once. *)
Lemma sleep_returns_at_once :
  match Sleep (machine_of [thread_with 0 (regs_with [(rcx, 100)]); thread_with 1 new_regs]) with
  | Ret m => wake_tick <$> threads m !! 0%nat = Some 100 /\ tick m = 100 /\ is_thread_runnable 0 m = true
  | Panic => False
  end.
Proof. vm_compute. auto. Qed.

(** TryEnterCriticalSection reports success on a section that another thread owns, and
    does not enter it. *)
Lemma try_enter_succeeds_on_owned :
  match TryEnterCriticalSection (set_current 1 entered_once) with
  | Ret m => result m = Some 1 /\ owner_tid (state_of (global_locks m) 0x5000) = Some 0x1000
  | Panic => False
  end.
Proof. vm_compute. auto. Qed.

(** The position counts the moves of the clock: one instruction, three positions. *)
Lemma position_counts_clock_moves :
  match step_multi_threaded 3 drowsy with
  | Some (Ret (ok, m)) => ok = true /\ pos m = 3 /\ tick m = 7 /\ current_thread_id m = 1%nat
  | _ => False
  end.
Proof. vm_compute. auto. Qed.

(** A single thread that is blocked and has a wake time is stepped all the same. *)
Lemma blocked_thread_steps :
  let m := machine_of [set_blocked (Some 0x1000) (set_wake_tick 5 (thread_with 0 new_regs))] in
  match step_multi_threaded 1 m with
  | Some (Ret (ok, m')) => ok = true /\ instruction_count m' = 1 /\ is_thread_runnable 0 m' = false
  | _ => False
  end.
Proof. vm_compute. auto. Qed.
