(* ===== verification/Process.v ===== *)
(** * The Unix process model ([threading/process.rs], [api/macos/process.rs])

    [fork_begin] saves the parent and goes on as the child; [process_exit]
    records the child's wait status and restores the parent; the wait family
    reaps.  The state beside the threads and memory of Threads.v that a fork
    saves is [ProcWorld]: the heap arenas of Heap.v, the ledger of the kernel
    guard (a type that is only copied), the captured output, the cursor of
    getopt and the process table. *)

From stdpp Require Import gmap strings.
From S2P Require Import Prelude Scalar Mem64 Slab Tlb Maps Regs Heap Threads.

(** ** Data *)

(** [struct AtFork] *)
Record AtFork := mkAtFork { prepare : Z; parent : Z; child : Z }.

(** [struct Zombie] *)
Record Zombie := mkZombie { zpid : Z; zppid : Z; status : Z }.

(** [struct ForkFrame] *)
Record ForkFrame (S X A K : Type) := mkFrame {
  fpid : Z;
  fppid : Z;
  fmaps : Maps S;
  fthreads : list (ThreadContext X A);
  fcurrent : nat;
  farenas : list O1Heap;
  fguard : option K;
  fstdout : list Z;
  fgetopt : Z;
  fatfork : list AtFork }.
Arguments mkFrame {S X A K}.
Arguments fpid {S X A K}. Arguments fppid {S X A K}. Arguments fmaps {S X A K}.
Arguments fthreads {S X A K}. Arguments fcurrent {S X A K}. Arguments farenas {S X A K}.
Arguments fguard {S X A K}. Arguments fstdout {S X A K}. Arguments fgetopt {S X A K}.
Arguments fatfork {S X A K}.

(** [struct ProcessTable]; the last frame is the innermost *)
Record ProcessTable (S X A K : Type) := mkTable {
  pid : Z;
  ppid : Z;
  pexit_status : option Z;
  atfork : list AtFork;
  next_pid : Z;
  frames : list (ForkFrame S X A K);
  zombies : list Zombie }.
Arguments mkTable {S X A K}.
Arguments pid {S X A K}. Arguments ppid {S X A K}. Arguments pexit_status {S X A K}.
Arguments atfork {S X A K}. Arguments next_pid {S X A K}. Arguments frames {S X A K}.
Arguments zombies {S X A K}.

(** The fields of [Emu] that [fork] saves beside those of [Machine]; [V] is the rest. *)
Record ProcWorld (S X A K V : Type) := mkWorld {
  heap_arenas : list O1Heap;
  guard_heap : option K;
  emulated_stdout : list Z;
  getopt_char_index : Z;
  processes : ProcessTable S X A K;
  others : V }.
Arguments mkWorld {S X A K V}.
Arguments heap_arenas {S X A K V}. Arguments guard_heap {S X A K V}. Arguments emulated_stdout {S X A K V}.
Arguments getopt_char_index {S X A K V}. Arguments processes {S X A K V}. Arguments others {S X A K V}.

Definition INITIAL_PID : Z := 1234.
Definition INITIAL_PPID : Z := 1.
Definition RUSAGE_SIZE : nat := 144.

(** [process::exit_status], [process::signal_status] *)
Definition exit_status (code : Z) : Z := shl 64 (Z.land code 0xff) 8.
Definition signal_status (sig : Z) : Z := Z.land sig 0x7f.

(** The decoded-instruction cache is in [V]; resetting it is all that happens to it here. *)
Class InstructionCache (V : Type) := { reset_active_instruction_cache : V -> V }.

Section Process.
Context {S X A K V : Type} `{Slab S} `{InstructionCache V}.

Definition Proc : Type := Machine S X A (ProcWorld S X A K V).
Implicit Types (m : Proc).

(** [ProcessTable::new] *)
Definition new_table : ProcessTable S X A K := mkTable INITIAL_PID INITIAL_PPID None [] (INITIAL_PID + 1) [] [].

Definition table m : ProcessTable S X A K := processes (world m).
Definition set_table (v : ProcessTable S X A K) m : Proc :=
  let w := world m in
  set_world (mkWorld (heap_arenas w) (guard_heap w) (emulated_stdout w) (getopt_char_index w) v (others w)) m.

(** [ProcessTable::in_child], [has_children] *)
Definition in_child (p : ProcessTable S X A K) : bool := negb (bool_decide (length (frames p) = 0%nat)).
Definition has_children (p : ProcessTable S X A K) : bool := existsb (fun z => zppid z =? pid p) (zombies p).

(** [Emu::fork_begin].  [pick] is the iteration order that cloning a heap depends on. *)
Definition fork_begin (pick : gmap Z loc -> option loc) m : outcome (Z * Proc) :=
  let w := world m in
  let p := table m in
  let child_pid := next_pid p in
  arenas ← mapM (clone pick) (heap_arenas w);
  let frame := mkFrame (pid p) (ppid p) (tmaps m) (threads m) (current_thread_id m) arenas (guard_heap w)
                 (emulated_stdout w) (getopt_char_index w) (atfork p) in
  caller ← current_thread m;
  let m := set_current 0 (set_threads [caller] m) in
  let p := mkTable child_pid (pid p) (pexit_status p) (atfork p) (wadd (next_pid p) 1) (frames p ++ [frame]) (zombies p) in
  Ret (child_pid, set_table p m).

(** [Emu::process_exit] *)
Definition process_exit (st : Z) m : option Z * Proc :=
  let p := table m in
  if negb (in_child p) then
    (None, stop (set_table (mkTable (pid p) (ppid p) (Some st) (atfork p) (next_pid p) (frames p) (zombies p)) m))
  else
    match last (frames p) with
    | None => (None, m)
    | Some frame =>
        let child_pid := pid p in
        let p := mkTable (fpid frame) (fppid frame) (pexit_status p) (fatfork frame) (next_pid p)
                   (take (length (frames p) - 1) (frames p)) (zombies p ++ [mkZombie child_pid (fpid frame) st]) in
        let guard := match guard_heap (world m), fguard frame with Some _, Some h => Some h | g, _ => g end in
        let w := mkWorld (farenas frame) guard (fstdout frame) (fgetopt frame) p
                   (reset_active_instruction_cache (others (world m))) in
        (Some child_pid, set_world w (set_current (fcurrent frame) (set_threads (fthreads frame) (set_tmaps (fmaps frame) m))))
    end.

(** The zombie that a wait for [wpid] (or, when not positive, any child) of [me] matches *)
Definition matches_wait (me wpid : Z) (z : Zombie) : bool :=
  (zppid z =? me) && ((wpid <=? 0) || (zpid z =? wrap 64 wpid)).

(** [position] and [remove]: the first match, and the list without it *)
Fixpoint take_zombie (me wpid : Z) (zs : list Zombie) : option (Zombie * list Zombie) :=
  match zs with
  | [] => None
  | z :: zs => if matches_wait me wpid z then Some (z, zs)
               else '(x, zs) ← take_zombie me wpid zs; Some (x, z :: zs)
  end.

(** [Emu::reap_child] *)
Definition reap_child (wpid : Z) m : option (Z * Z) * Proc :=
  let p := table m in
  match take_zombie (pid p) wpid (zombies p) with
  | None => (None, m)
  | Some (z, zs) =>
      (Some (zpid z, status z),
       set_table (mkTable (pid p) (ppid p) (pexit_status p) (atfork p) (next_pid p) (frames p) zs) m)
  end.

(** ** The calls of api/macos/process.rs *)

(** [reap_into] *)
Definition reap_into (wpid status_ptr : Z) m : outcome (Z * Proc) :=
  let '(r, m) := reap_child wpid m in
  match r with
  | Some (c, st) =>
      if status_ptr =? 0 then Ret (c, m)
      else '(_, m) ← with_maps (write_dword status_ptr (wrap 32 st)) m; Ret (c, m)
  | None => Ret (2 ^ 64 - 1, m)
  end.

Definition api_waitpid m : outcome Proc :=
  a ← abi_arg 0 m; status_ptr ← abi_arg 1 m;
  '(ret, m) ← reap_into (sgn 32 (wrap 32 a)) status_ptr m; set_ret ret m.

Definition api_wait m : outcome Proc :=
  status_ptr ← abi_arg 0 m; '(ret, m) ← reap_into (-1) status_ptr m; set_ret ret m.

Definition api_wait4 m : outcome Proc :=
  a ← abi_arg 0 m; status_ptr ← abi_arg 1 m; rusage ← abi_arg 3 m;
  '(ret, m) ← reap_into (sgn 32 (wrap 32 a)) status_ptr m;
  m ← (if negb (rusage =? 0) && negb (ret =? 2 ^ 64 - 1)
       then mp ← memset rusage 0 RUSAGE_SIZE (tmaps m); Ret (set_tmaps mp m) else Ret m);
  set_ret ret m.

Definition api_getpid m : outcome Proc := set_ret (pid (table m)) m.
Definition api_getppid m : outcome Proc := set_ret (ppid (table m)) m.

Definition api_pthread_atfork m : outcome Proc :=
  a ← abi_arg 0 m; b ← abi_arg 1 m; c ← abi_arg 2 m;
  let p := table m in
  let p := mkTable (pid p) (ppid p) (pexit_status p) (atfork p ++ [mkAtFork a b c]) (next_pid p) (frames p) (zombies p) in
  set_ret 0 (set_table p m).

(** The handlers of a phase, in the order [run_atfork] calls them *)
Inductive AtForkPhase := Prepare | Parent | Child.
Definition atfork_handlers (ph : AtForkPhase) m : list Z :=
  let l := filter (fun a => a <> 0)
    ((fun h => match ph with Prepare => prepare h | Parent => parent h | Child => child h end) <$> atfork (table m)) in
  match ph with Prepare => reverse l | _ => l end.

(** Running guest code to completion ([aarch64_call64]) *)
Variable call_guest : Z -> Proc -> Proc.

Definition is_aarch64 m : bool :=
  match threads m !! current_thread_id m with
  | Some t => match arch t with AArch64 _ _ _ _ => true | X86 _ _ => false end
  | None => false
  end.

Definition run_atfork (ph : AtForkPhase) m : Proc :=
  if is_aarch64 m then foldl (fun m a => call_guest a m) m (atfork_handlers ph m) else m.

Definition api_fork (pick : gmap Z loc -> option loc) m : outcome Proc :=
  '(_, m) ← fork_begin pick (run_atfork Prepare m);
  set_ret 0 (run_atfork Child m).
End Process.
