(* ===== verification/ProcessSpec.v ===== *)
(** * What fork, exit and wait guarantee

    A child runs in a copy: whatever it does, further forks included, when it
    exits the parent finds its own memory, threads, heap and identity, and the
    child's status can be reaped once.  Process ids are never reused. *)

From stdpp Require Import gmap strings.
From S2P Require Import Prelude Scalar Mem64 Slab Tlb Maps Regs Heap HeapInv HeapClone Threads Process.

Section Spec.
Context {S X A K V : Type} `{Slab S} `{InstructionCache V}.
Implicit Types (m : Proc (S := S) (X := X) (A := A) (K := K) (V := V)).

(** ** Specification *)

(** The process that runs, its ancestors and the counter *)
Definition lineage m : Z * Z * list (ForkFrame S X A K) := (pid (table m), ppid (table m), frames (table m)).

(** What a process can do between its start and its exit: compute (change anything but
    the process table's account of processes), reap, and fork children that run and exit. *)
Inductive runs (pick : gmap Z loc -> option loc) : Proc -> Proc -> Prop :=
  | run_refl m : runs pick m m
  | run_compute m m' m'' :
      lineage m' = lineage m -> next_pid (table m') = next_pid (table m) -> zombies (table m') = zombies (table m) ->
      runs pick m' m'' -> runs pick m m''
  | run_reap m wpid m'' : runs pick (reap_child wpid m).2 m'' -> runs pick m m''
  | run_child m c m1 m2 st r m3 m'' :
      next_pid (table m) < 2 ^ 64 - 1 -> fork_begin pick m = Ret (c, m1) -> runs pick m1 m2 -> process_exit st m2 = (r, m3) ->
      runs pick m3 m'' -> runs pick m m''.

(** Every process id in use is below the counter and belongs to one process. *)
Definition pids m : list Z := (zpid <$> zombies (table m)) ++ (fpid <$> frames (table m)) ++ [pid (table m)].
Definition pids_ok m : Prop := NoDup (pids m) /\ Forall (fun p => 0 < p < next_pid (table m)) (pids m).

(** The parent that comes back: everything that [fork] saved.  The heap is the copy made
    then, [arenas]; the ledger is restored if the guard is on. *)
Record restored (m m' : Proc (S := S) (X := X) (A := A) (K := K) (V := V)) (arenas : list O1Heap) : Prop := {
  re_lineage : lineage m' = lineage m;
  re_maps : tmaps m' = tmaps m;
  re_threads : threads m' = threads m;
  re_current : current_thread_id m' = current_thread_id m;
  re_arenas : heap_arenas (world m') = arenas;
  re_stdout : emulated_stdout (world m') = emulated_stdout (world m);
  re_getopt : getopt_char_index (world m') = getopt_char_index (world m);
  re_atfork : atfork (table m') = atfork (table m) }.

(** ** Proofs *)

Lemma reap_table wpid m :
  lineage (reap_child wpid m).2 = lineage m /\ next_pid (table (reap_child wpid m).2) = next_pid (table m) /\
  exists l1 l2 l3, zombies (table m) = l1 ++ l2 ++ l3 /\ zombies (table (reap_child wpid m).2) = l1 ++ l3.
Proof.
  unfold reap_child. destruct (take_zombie _ _ _) as [[z zs]|] eqn:E; cbn.
  - split; [reflexivity|]. split; [reflexivity|]. revert z zs E. generalize (pid (table m)) as me.
    induction (zombies (table m)) as [|y ys IH]; intros me z zs; cbn; [discriminate|]. destruct (matches_wait _ _ _).
    + intros [= -> ->]. now exists [], [z], zs.
    + destruct (take_zombie me wpid ys) as [[x xs]|] eqn:Ex; cbn; [|discriminate]. intros [= <- <-].
      destruct (IH me x xs Ex) as (l1 & l2 & l3 & -> & ->). now exists (y :: l1), l2, l3.
  - split; [reflexivity|]. split; [reflexivity|]. exists (zombies (table m)), [], []. now rewrite !app_nil_r.
Qed.

Lemma reap_pids_ok wpid m : pids_ok m -> pids_ok (reap_child wpid m).2.
Proof.
  destruct (reap_table wpid m) as (Hl & Hn & l1 & l2 & l3 & Ez & Ez'). unfold pids_ok, pids. injection Hl as Ep _ Ef.
  rewrite Hn, Ep, Ef, Ez, Ez', !fmap_app, <- !app_assoc. intros [Hd Hf].
  assert (sublist ((zpid <$> l1) ++ (zpid <$> l3) ++ (fpid <$> frames (table m)) ++ [pid (table m)])
            ((zpid <$> l1) ++ (zpid <$> l2) ++ (zpid <$> l3) ++ (fpid <$> frames (table m)) ++ [pid (table m)])) as Hs.
  { apply sublist_app; [reflexivity|]. now apply sublist_inserts_l. }
  split; [now apply (sublist_NoDup _ _ Hd Hs)|]. rewrite !Forall_app in *. tauto.
Qed.

(** A fork adds the new id and makes the child the current process. *)
Lemma fork_fields pick m c m1 :
  fork_begin pick m = Ret (c, m1) ->
  exists arenas frame, mapM (clone pick) (heap_arenas (world m)) = Ret arenas /\
    frame = mkFrame (pid (table m)) (ppid (table m)) (tmaps m) (threads m) (current_thread_id m) arenas (guard_heap (world m))
              (emulated_stdout (world m)) (getopt_char_index (world m)) (atfork (table m)) /\
    c = next_pid (table m) /\ lineage m1 = (c, pid (table m), frames (table m) ++ [frame]) /\
    next_pid (table m1) = wadd (next_pid (table m)) 1 /\ zombies (table m1) = zombies (table m).
Proof.
  unfold fork_begin. destruct (mapM _ _) as [arenas|]; cbn; [|discriminate]. unfold current_thread, index.
  destruct (threads m !! _) as [t|]; cbn; [|discriminate]. intros [= <- <-].
  eexists arenas, _. do 2 (split; [reflexivity|]). now split_and!.
Qed.

Lemma fork_pids_ok pick m c m1 :
  pids_ok m -> next_pid (table m) < 2 ^ 64 - 1 -> fork_begin pick m = Ret (c, m1) ->
  pids_ok m1 /\ next_pid (table m1) = next_pid (table m) + 1.
Proof.
  intros [Hd Hf] Hb (arenas & frame & _ & Efr & -> & El & En & Ez)%fork_fields.
  assert (0 < pid (table m) < next_pid (table m)) as Hp by (unfold pids in Hf; rewrite !Forall_app, Forall_singleton in Hf; tauto).
  assert (fpid frame = pid (table m)) as Ep by now rewrite Efr.
  injection El as Epid _ Efrm. rewrite wadd_small in En by (unfold is_word; lia). split; [|exact En].
  unfold pids_ok, pids. rewrite Epid, Efrm, En, Ez, fmap_app. cbn [fmap list_fmap]. rewrite Ep.
  replace ((zpid <$> zombies (table m)) ++ ((fpid <$> frames (table m)) ++ [pid (table m)]) ++ [next_pid (table m)])
    with (pids m ++ [next_pid (table m)]) by (unfold pids; now rewrite <- !app_assoc). split.
  - apply NoDup_app. split; [exact Hd|]. split; [|apply NoDup_singleton].
    intros x Hx ->%list_elem_of_singleton. rewrite Forall_forall in Hf. specialize (Hf _ Hx). lia.
  - rewrite Forall_app, Forall_singleton. split; [|lia]. apply (Forall_impl _ _ _ Hf). intros; lia.
Qed.

(** The exit of a child pops the frame that its fork pushed. *)
Lemma exit_child st m frame fs :
  frames (table m) = fs ++ [frame] ->
  exists m', process_exit st m = (Some (pid (table m)), m') /\
    lineage m' = (fpid frame, fppid frame, fs) /\ next_pid (table m') = next_pid (table m) /\
    zombies (table m') = zombies (table m) ++ [mkZombie (pid (table m)) (fpid frame) st] /\
    tmaps m' = fmaps frame /\ threads m' = fthreads frame /\ current_thread_id m' = fcurrent frame /\
    heap_arenas (world m') = farenas frame /\ emulated_stdout (world m') = fstdout frame /\
    getopt_char_index (world m') = fgetopt frame /\ atfork (table m') = fatfork frame.
Proof.
  intros Ef. unfold process_exit, in_child. rewrite Ef. rewrite bool_decide_false by (rewrite length_app; cbn; lia). cbn [negb].
  rewrite last_snoc. eexists. split; [reflexivity|]. unfold lineage. cbn.
  rewrite length_app, Nat.add_sub, take_app_length. repeat split.
Qed.

Lemma exit_pids_ok st m frame fs m' r :
  frames (table m) = fs ++ [frame] -> process_exit st m = (r, m') -> pids_ok m -> pids_ok m'.
Proof.
  intros Ef Ex. destruct (exit_child st m frame fs Ef) as (m1 & E & El & En & Ez & _).
  rewrite Ex in E. injection E as -> ->. injection El as Ep _ Efs. unfold pids_ok, pids. rewrite Ep, Efs, En, Ez, Ef, !fmap_app. cbn [fmap list_fmap zpid].
  rewrite <- !app_assoc. cbn [app]. intros [Hd Hf].
  assert ((zpid <$> zombies (table m)) ++ [pid (table m)] ++ (fpid <$> fs) ++ [fpid frame]
    ≡ₚ (zpid <$> zombies (table m)) ++ (fpid <$> fs) ++ [fpid frame; pid (table m)]) as Hp.
  { apply Permutation_app_head. change [fpid frame; pid (table m)] with ([fpid frame] ++ [pid (table m)]).
    rewrite (app_assoc (fpid <$> fs)). apply Permutation_app_comm. }
  cbn [app] in Hp. split; [now rewrite Hp | now rewrite Hp].
Qed.

(** A run leaves the process and its ancestors as they were, and the ids in order. *)
Lemma runs_keeps pick m m' :
  runs pick m m' -> lineage m' = lineage m /\ (pids_ok m -> pids_ok m' /\ next_pid (table m) <= next_pid (table m')).
Proof.
  induction 1 as [m|m m' m'' El En Ez _ [IHl IHp]|m wpid m'' _ [IHl IHp]|m c m1 m2 st r m3 m'' Hb Ef _ [IHl1 IHp1] Ex _ [IHl IHp]].
  - split; [reflexivity|]. split; [assumption | lia].
  - split; [congruence|]. intros Hok. rewrite <- En. apply IHp. injection El as Ep _ Efr. unfold pids_ok, pids.
    rewrite Ep, Efr, En, Ez. exact Hok.
  - destruct (reap_table wpid m) as (Hl & Hn & _). split; [congruence|]. intros Hok. rewrite <- Hn. now apply IHp, reap_pids_ok.
  - destruct (fork_fields pick m c m1 Ef) as (arenas & frame & _ & Efr & _ & El & _).
    rewrite El in IHl1. injection IHl1 as Ec _ Efr2.
    destruct (exit_child st m2 frame (frames (table m)) Efr2) as (m4 & E4 & El4 & En4 & _). rewrite Ex in E4. injection E4 as _ ->.
    assert (lineage m4 = lineage m) as Hl4 by (rewrite El4; now rewrite Efr).
    split; [congruence|]. intros Hok. destruct (fork_pids_ok pick m c m1 Hok Hb Ef) as [Hok1 Hn1].
    destruct (IHp1 Hok1) as [Hok2 Hn2]. destruct (IHp (exit_pids_ok _ _ _ _ _ _ Efr2 Ex Hok2)) as [Hok3 Hn3]. split; [exact Hok3 | lia].
Qed.

(** Coming back from a child *)
Lemma fork_exit pick m c m1 m2 st :
  fork_begin pick m = Ret (c, m1) -> runs pick m1 m2 ->
  exists arenas m3, mapM (clone pick) (heap_arenas (world m)) = Ret arenas /\
    process_exit st m2 = (Some c, m3) /\ restored m m3 arenas /\ pid (table m2) = c /\
    zombies (table m3) = zombies (table m2) ++ [mkZombie c (pid (table m)) st].
Proof.
  intros (arenas & frame & Ea & Efr & Ec & El & _)%fork_fields [Hl _]%runs_keeps.
  rewrite El in Hl. injection Hl as Ep _ Ef. destruct (exit_child st m2 frame _ Ef) as (m3 & Ex & Hl3 & _ & Ez & Hm & Ht & Hc & Ha & Ho & Hg & Hat).
  exists arenas, m3. rewrite Ep in *. subst frame. cbn in *. split; [exact Ea|]. split; [exact Ex|].
  split; [|split; [reflexivity | exact Ez]]. split; auto.
Qed.

(** *** Reaping *)

Lemma take_zombie_new me c st zs :
  0 < c < 2 ^ 64 -> c ∉ zpid <$> zs ->
  take_zombie me c (zs ++ [mkZombie c me st]) = Some (mkZombie c me st, zs) /\ take_zombie me c zs = None.
Proof.
  intros Hc. assert (wrap 64 c = c) as Ew by (apply wrap_small; unfold is_word; lia).
  induction zs as [|z zs IH]; cbn [app fmap list_fmap take_zombie]; intros Hni.
  - unfold matches_wait. cbn [zppid zpid]. rewrite Ew, !Z.eqb_refl, orb_true_r. now split.
  - apply not_elem_of_cons in Hni as [Hne Hni]. destruct (IH Hni) as [-> ->].
    assert (matches_wait me c z = false) as ->; [|now split].
    unfold matches_wait. rewrite Ew, (proj2 (Z.eqb_neq (zpid z) c)), (proj2 (Z.leb_gt c 0)) by (congruence || lia).
    apply andb_false_r.
Qed.

Lemma reap_new c st m zs :
  0 < c < 2 ^ 64 -> c ∉ zpid <$> zs -> zombies (table m) = zs ++ [mkZombie c (pid (table m)) st] ->
  exists m', reap_child c m = (Some (c, st), m') /\ zombies (table m') = zs /\ (reap_child c m').1 = None.
Proof.
  intros Hc Hni Ez. destruct (take_zombie_new (pid (table m)) c st zs Hc Hni) as [E1 E2].
  unfold reap_child at 1. rewrite Ez, E1. eexists. split; [reflexivity|]. split; [reflexivity|].
  unfold reap_child. cbn. now rewrite E2.
Qed.

(** *** The heap *)

Lemma clone_arenas pick hs bls :
  Forall2 (walks_from_live pick) hs bls -> exists hs', mapM (clone pick) hs = Ret hs' /\ Forall2 represents hs' bls.
Proof.
  intros Hw. induction Hw as [|h bl hs bls Hh _ IH]; [now exists []|]. destruct (clone_ok pick h bl Hh) as (h' & E & Hh' & _).
  destruct IH as (hs' & E' & Hr'). exists (h' :: hs'). split; [|now constructor]. cbn. rewrite E. cbn. rewrite E'. reflexivity.
Qed.

Lemma fork_returns pick m t bls :
  Forall2 (walks_from_live pick) (heap_arenas (world m)) bls ->
  threads m !! current_thread_id m = Some t ->
  exists m1, fork_begin pick m = Ret (next_pid (table m), m1) /\ threads m1 = [t].
Proof.
  intros Hw Et. destruct (clone_arenas pick _ bls Hw) as (hs & E & _).
  unfold fork_begin, current_thread, index. rewrite E. cbn [mbind outcome_bind]. rewrite Et. cbn. now eexists.
Qed.
End Spec.

(** ** Results *)

Section Results.
Context {S X A K V : Type} `{Slab S} `{InstructionCache V}.
Implicit Types (m : Proc (S := S) (X := X) (A := A) (K := K) (V := V)).

(** C14. Suppose that in each heap arena the fragment from which the copy starts its
    walk (the first entry of the hash table in iteration order, or a free fragment
    when the table is empty) is still linked in, and not a stale entry (see
    clone_loses_memory); fresh arenas and those whose first entry is a block in use
    are such. Then fork_begin returns, with the calling thread alone in the child;
    when the forked child exits, after whatever it did, children of its own
    included, the parent is back: same memory, threads, running thread, output,
    handlers and process identity, and heap arenas that hold the same blocks; the
    child is a zombie with its wait status, and the exit returns its pid. *)
Theorem fork_exit_restores pick m t bls :
  Forall2 (walks_from_live pick) (heap_arenas (world m)) bls ->
  threads m !! current_thread_id m = Some t ->
  exists m1, fork_begin pick m = Ret (next_pid (table m), m1) /\ threads m1 = [t] /\
    forall m2 st, runs pick m1 m2 ->
      exists arenas m3, process_exit st m2 = (Some (next_pid (table m)), m3) /\ restored m m3 arenas /\
        Forall2 represents arenas bls /\
        zombies (table m3) = zombies (table m2) ++ [mkZombie (next_pid (table m)) (pid (table m)) st].
Proof.
  intros Hw Et. destruct (fork_returns pick m t bls Hw Et) as (m1 & Ef & Et1). exists m1. do 2 (split; [assumption|]).
  intros m2 st Hruns. destruct (fork_exit pick m _ m1 m2 st Ef Hruns) as (arenas & m3 & Ea & Ex & Hre & _ & Ez).
  destruct (clone_arenas pick _ bls Hw) as (hs & E & Hhs). assert (hs = arenas) as -> by congruence. now exists arenas, m3.
Qed.

(** C34. The parent can reap the child by its pid, getting the status it exited
    with, once: process ids are never shared, whatever processes the child itself
    created. *)
Theorem child_reaped_once pick m c m1 m2 st :
  pids_ok m -> next_pid (table m) < 2 ^ 64 - 1 -> fork_begin pick m = Ret (c, m1) -> runs pick m1 m2 ->
  next_pid (table m2) < 2 ^ 64 ->
  exists m3 m4, process_exit st m2 = (Some c, m3) /\ reap_child c m3 = (Some (c, st), m4) /\
    zombies (table m4) = zombies (table m2) /\ (reap_child c m4).1 = None.
Proof.
  intros Hok Hb Ef Hruns Hb2. destruct (fork_exit pick m c m1 m2 st Ef Hruns) as (arenas & m3 & _ & Ex & Hre & Ec & Ez).
  destruct (fork_pids_ok pick m c m1 Hok Hb Ef) as [Hok1 _]. destruct (runs_keeps pick m1 m2 Hruns) as [_ Hk].
  destruct (Hk Hok1) as [[Hd Hf] _]. unfold pids in Hd, Hf. rewrite Ec in Hd, Hf.
  assert (0 < c < 2 ^ 64) as Hc by (rewrite !Forall_app, Forall_singleton in Hf; lia).
  assert (c ∉ zpid <$> zombies (table m2)) as Hni.
  { apply NoDup_app in Hd as (_ & Hd & _). intros Hin. apply (Hd c Hin). rewrite elem_of_app, list_elem_of_singleton. auto. }
  assert (pid (table m3) = pid (table m)) as Ep by (destruct Hre as [Hl _ _ _ _ _ _ _]; now injection Hl).
  destruct (reap_new c st m3 (zombies (table m2)) Hc Hni) as (m4 & Er & Ez4 & Hn); [now rewrite Ep|]. now exists m3, m4.
Qed.
End Results.
