(* ===== verification/ProcessSamples.v ===== *)
(** * Sample processes

    A parent with a used and a fresh heap arena that forks; the child forks a child of its
    own, writes, and both exit. *)

From stdpp Require Import gmap sorting strings.
From S2P Require Import Prelude Scalar Mem64 Slab Tlb Maps MapsInv MapsRun Regs.
From S2P Require Import Heap HeapInv HeapClone HeapSamples Threads ThreadSamples Process ProcessSpec.

#[local] Instance unit_cache : InstructionCache unit := { reset_active_instruction_cache v := v }.

Notation sample_proc := (Proc (S := gmap nat Mem64) (X := unit) (A := unit) (K := unit) (V := unit)).

(** An iteration order *)
Definition pick_last (h : gmap Z loc) : option loc := snd <$> last (map_to_list h).

Definition parent_with (arenas : list O1Heap) : sample_proc :=
  mkMachine [thread_with 0 new_regs; thread_with 1 new_regs] 1 0 0 0 sample ∅ [] 0 (mkTConfig 0 false false true false)
    true false 1 (mkWorld arenas None [] 0 new_table tt).

Definition forked (m : sample_proc) : sample_proc := match fork_begin pick_last m with Ret (_, m') => m' | Panic => m end.

(** The child overwrites its memory and forks a grandchild, which exits. *)
Definition scribbled (m : sample_proc) : sample_proc := set_tmaps maps_default (forked m).
Definition after_grandchild (m : sample_proc) : sample_proc := (process_exit 0x100 (forked (scribbled m))).2.

Lemma family_runs m :
  fork_begin pick_last (scribbled m) = Ret (next_pid (table (scribbled m)), forked (scribbled m)) ->
  next_pid (table (scribbled m)) < 2 ^ 64 - 1 -> runs pick_last (forked m) (after_grandchild m).
Proof.
  intros E Hb. apply (run_compute _ (forked m) (scribbled m)); [reflexivity .. |].
  apply (run_child _ (scribbled m) (next_pid (table (scribbled m))) (forked (scribbled m)) (forked (scribbled m)) 0x100
    (process_exit 0x100 (forked (scribbled m))).1 (after_grandchild m)); [exact Hb | exact E | apply run_refl | | apply run_refl].
  apply surjective_pairing.
Qed.

Definition with_heap : sample_proc := parent_with [used_heap; fresh_heap].
Definition plain : sample_proc := parent_with [].

Definition sample_blocks : list (list block) := [[(0, 256, true); (256, 0xFF00, false)]; [(0, 0x10000, false)]].

(** The walk starts from the only block in use of the first arena and from the free
    fragment of the second. *)
Lemma sample_walks : Forall2 (walks_from_live pick_last) [used_heap; fresh_heap] sample_blocks.
Proof.
  constructor; [|constructor; [|constructor]].
  - destruct (pick_last (hashes used_heap)) as [l|] eqn:E; [|vm_compute in E; discriminate].
    apply (used_walks_live pick_last used_heap _ 0 l); [apply used_heap_sample | exact E | |];
      vm_compute in E; injection E as <-; vm_compute; reflexivity.
  - apply (unmerged_walks_live pick_last fresh_heap _ 0 0%nat); [exact fresh_heap_represents | vm_compute; reflexivity ..].
Qed.

Lemma fork_forked m c m' : fork_begin pick_last m = Ret (c, m') -> m' = forked m.
Proof. unfold forked. now intros ->. Qed.

Lemma fork_total m bls t :
  Forall2 (walks_from_live pick_last) (heap_arenas (world m)) bls ->
  threads m !! current_thread_id m = Some t -> fork_begin pick_last m = Ret (next_pid (table m), forked m).
Proof.
  intros Hw Et. destruct (fork_returns pick_last m t bls Hw Et) as (m' & Em & _).
  rewrite Em. f_equal. f_equal. now apply (fork_forked _ _ _ Em).
Qed.

Lemma fork_exit_restores_witness :
  exists arenas m3, process_exit 0x200 (after_grandchild with_heap) = (Some 1235, m3) /\ restored with_heap m3 arenas /\
    Forall2 represents arenas sample_blocks.
Proof.
  destruct (fork_exit_restores pick_last with_heap (thread_with 1 new_regs) sample_blocks sample_walks eq_refl)
    as (m1 & Ef & _ & Hrun). apply fork_forked in Ef as ->.
  destruct (Hrun (after_grandchild with_heap) 0x200) as (arenas & m3 & Ex & Hre & Ha & _).
  { apply family_runs; [|vm_compute; reflexivity].
    exact (fork_total (scribbled with_heap) sample_blocks (thread_with 1 new_regs) sample_walks eq_refl). }
  exists arenas, m3. split; [exact Ex|]. split; [exact Hre | exact Ha].
Defined.

Lemma child_reaped_once_witness :
  exists m3 m4, process_exit 0x200 (after_grandchild plain) = (Some 1235, m3) /\ reap_child 1235 m3 = (Some (1235, 0x200), m4) /\
    zombies (table m4) = zombies (table (after_grandchild plain)) /\ (reap_child 1235 m4).1 = None.
Proof.
  apply (child_reaped_once pick_last plain 1235 (forked plain)).
  - split; [apply (bool_decide_unpack _); vm_compute; reflexivity|]. repeat constructor.
  - vm_compute. reflexivity.
  - apply (fork_total plain [] (thread_with 1 new_regs)); [constructor | reflexivity].
  - apply family_runs; [|vm_compute; reflexivity].
    apply (fork_total (scribbled plain) [] (thread_with 1 new_regs)); [constructor | reflexivity].
  - vm_compute. reflexivity.
Defined.
