(* ===== verification/MacThreads.v ===== *)
(** * POSIX threads of macOS ([api/macos/pthread.rs], [api/macos/sync.rs])

    The life of a thread (create, join, exit) and its synchronisation: mutexes
    with their three kinds, condition variables and [os_unfair_lock].  The
    state of a lock is in the guest's memory; a thread that has to wait is
    parked in its context, and whoever releases the lock completes its call.
    Tracing is left out; the host's clock is an argument. *)

From stdpp Require Import gmap strings.
From S2P Require Import Prelude Scalar Mem64 Slab Tlb Maps Regs Threads.

Definition SIG_MUTEX : Z := 0x32AAABA7.
Definition SIG_ERRORCHECK : Z := 0x32AAABA1.
Definition SIG_RECURSIVE : Z := 0x32AAABA2.
Definition OWNER : Z := 8.
Definition COUNT : Z := 16.
Definition KIND : Z := 20.
Definition ATTR_KIND : Z := 8.
Definition NORMAL : Z := 0.
Definition ERRORCHECK : Z := 1.
Definition RECURSIVE : Z := 2.
Definition EPERM : Z := 1.
Definition ESRCH : Z := 3.
Definition EDEADLK : Z := 11.
Definition EBUSY : Z := 16.
Definition EAGAIN : Z := 35.
Definition ETIMEDOUT : Z := 60.
Definition THREAD_STACK_SIZE : Z := 0x80000.
Definition SENTINEL_MAP : string := "mwemu_macos_sentinels".

Section Calls.
Context {S X A W : Type} `{Slab S}.
Notation M := (Machine S X A W).
Implicit Types (m : M).

(** ** Access *)

Definition current_tid m : outcome Z := t ← current_thread m; Ret (tid t).

(** [threads[i] = t], [regs_aarch64_mut().x[0] = v] *)
Definition put_thread (i : nat) (t : ThreadContext X A) m : outcome M :=
  ts ← index_set i t (threads m); Ret (set_threads ts m).
Definition put_x0 (v : Z) (t : ThreadContext X A) : outcome (ThreadContext X A) :=
  match arch t with
  | AArch64 x sp pc o => x ← index_set 0 v x; Ret (set_arch (AArch64 x sp pc o) t)
  | X86 _ _ => Panic
  end.

Definition read32 (a d : Z) m : outcome (Z * M) := '(v, m) ← with_maps (read_dword a) m; Ret (default d v, m).
Definition read64 (a d : Z) m : outcome (Z * M) := '(v, m) ← with_maps (read_qword a) m; Ret (default d v, m).
Definition write32 (a v : Z) m : outcome M := '(_, m) ← with_maps (write_dword a v) m; Ret m.
Definition write64 (a v : Z) m : outcome M := '(_, m) ← with_maps (write_qword a v) m; Ret m.

(** The first thread after the current one, cyclically, with a property; the current one last *)
Fixpoint find_after (P : ThreadContext X A -> bool) (steps : list nat) m : option nat :=
  match steps with
  | [] => None
  | i :: steps =>
      let idx := ((current_thread_id m + i) mod length (threads m))%nat in
      match threads m !! idx with
      | Some t => if P t then Some idx else find_after P steps m
      | None => find_after P steps m
      end
  end.

(** [next_waiter], [cond_waiter] *)
Definition next_waiter (a : Z) m : option nat :=
  find_after (fun t => bool_decide (blocked_on_lock t = Some a)) (seq 1 (length (threads m))) m.
Definition cond_waiter (c : Z) m : option nat :=
  find_after (fun t => bool_decide (fst <$> cond_wait t = Some c)) (seq 1 (length (threads m))) m.

Definition block_on_lock (a : Z) m : outcome M := t ← current_thread m; put_current (set_lock (Some a) t) m.

Definition wake (idx : nat) m : outcome M :=
  t ← index idx (threads m); t ← put_x0 0 (set_lock None t); put_thread idx t m.

(** ** Mutexes *)

Definition mutex_kind (a : Z) m : outcome (Z * M) :=
  '(q, m) ← read64 a 0 m;
  let sig := Z.land q 0xffffffff in
  if sig =? SIG_RECURSIVE then Ret (RECURSIVE, m)
  else if sig =? SIG_ERRORCHECK then Ret (ERRORCHECK, m)
  else read32 (wadd a KIND) NORMAL m.

Definition mutex_owner (a : Z) m : outcome (Z * M) := read64 (wadd a OWNER) 0 m.

Definition mutex_take (a id : Z) m : outcome M :=
  m ← write64 (wadd a OWNER) id m; write32 (wadd a COUNT) 1 m.

Definition mutex_release (a : Z) m : outcome M :=
  match next_waiter a m with
  | Some idx => t ← index idx (threads m); m ← mutex_take a (tid t) m; wake idx m
  | None => m ← write64 (wadd a OWNER) 0 m; write32 (wadd a COUNT) 0 m
  end.

Definition api_mutex_init m : outcome M :=
  a ← abi_arg 0 m; attr ← abi_arg 1 m;
  '(kind, m) ← (if attr =? 0 then Ret (NORMAL, m) else read32 (wadd attr ATTR_KIND) NORMAL m);
  m ← write64 a SIG_MUTEX m; m ← write64 (wadd a OWNER) 0 m; m ← write32 (wadd a COUNT) 0 m;
  m ← write32 (wadd a KIND) kind m;
  set_ret 0 m.

(** [count + 1] on 32 bits *)
Definition mutex_deepen (a : Z) m : outcome M :=
  '(count, m) ← read32 (wadd a COUNT) 0 m; write32 (wadd a COUNT) (wrap 32 (count + 1)) m.

Definition api_mutex_lock m : outcome M :=
  a ← abi_arg 0 m;
  id ← current_tid m;
  '(owner, m) ← mutex_owner a m;
  if owner =? 0 then m ← mutex_take a id m; set_ret 0 m
  else if owner =? id then
    '(kind, m) ← mutex_kind a m;
    if kind =? RECURSIVE then m ← mutex_deepen a m; set_ret 0 m
    else if kind =? ERRORCHECK then set_ret EDEADLK m
    else block_on_lock a m
  else block_on_lock a m.

Definition api_mutex_trylock m : outcome M :=
  a ← abi_arg 0 m;
  id ← current_tid m;
  '(owner, m) ← mutex_owner a m;
  if owner =? 0 then m ← mutex_take a id m; set_ret 0 m
  else
    '(recursive, m) ← (if owner =? id then '(kind, m) ← mutex_kind a m; Ret (kind =? RECURSIVE, m) else Ret (false, m));
    if (recursive : bool) then m ← mutex_deepen a m; set_ret 0 m else set_ret EBUSY m.

Definition api_mutex_unlock m : outcome M :=
  a ← abi_arg 0 m;
  id ← current_tid m;
  '(owner, m) ← mutex_owner a m;
  '(refused, m) ← (if owner =? id then Ret (false, m) else '(kind, m) ← mutex_kind a m; Ret (negb (kind =? NORMAL), m));
  if (refused : bool) then set_ret EPERM m
  else
    '(count, m) ← read32 (wadd a COUNT) 1 m;
    m ← (if 1 <? count then write32 (wadd a COUNT) (count - 1) m else mutex_release a m);
    set_ret 0 m.

Definition api_mutex_destroy m : outcome M :=
  a ← abi_arg 0 m;
  '(owner, m) ← mutex_owner a m;
  set_ret (if owner =? 0 then 0 else EBUSY) m.

Definition api_mutexattr_init m : outcome M :=
  attr ← abi_arg 0 m; m ← write32 (wadd attr ATTR_KIND) NORMAL m; set_ret 0 m.
Definition api_mutexattr_settype m : outcome M :=
  attr ← abi_arg 0 m; kind ← abi_arg 1 m; m ← write32 (wadd attr ATTR_KIND) (wrap 32 kind) m; set_ret 0 m.
Definition api_mutexattr_gettype m : outcome M :=
  attr ← abi_arg 0 m; out ← abi_arg 1 m;
  '(kind, m) ← read32 (wadd attr ATTR_KIND) NORMAL m; m ← write32 out kind m; set_ret 0 m.

(** ** Condition variables *)

Definition release_for_wait (a : Z) m : outcome (bool * M) :=
  '(owner, m) ← mutex_owner a m;
  id ← current_tid m;
  if negb (owner =? id) then m ← set_ret EPERM m; Ret (false, m)
  else m ← mutex_release a m; Ret (true, m).

Definition api_cond_wait m : outcome M :=
  c ← abi_arg 0 m; a ← abi_arg 1 m;
  '(ok, m) ← release_for_wait a m;
  if negb ok then Ret m else t ← current_thread m; put_current (set_cond (Some (c, a)) t) m.

(** [now] is the host's clock in nanoseconds. *)
Definition api_cond_timedwait (now : Z) m : outcome M :=
  a ← abi_arg 1 m; abstime ← abi_arg 2 m;
  '(ok, m) ← release_for_wait a m;
  if negb ok then Ret m
  else
    '(secs, m) ← read64 abstime 0 m;
    '(nanos, m) ← read64 (wadd abstime 8) 0 m;
    let ret := if secs * 1000000000 + nanos <=? now then ETIMEDOUT else 0 in
    id ← current_tid m;
    '(owner, m) ← mutex_owner a m;
    if owner =? 0 then m ← mutex_take a id m; set_ret ret m else block_on_lock a m.

Definition resume_cond_waiter (idx : nat) m : outcome M :=
  t ← index idx (threads m);
  match cond_wait t with
  | None => Ret m
  | Some (_, a) =>
      m ← put_thread idx (set_cond None t) m;
      '(owner, m) ← mutex_owner a m;
      t ← index idx (threads m);
      if owner =? 0 then m ← mutex_take a (tid t) m; t ← put_x0 0 t; put_thread idx t m
      else put_thread idx (set_lock (Some a) t) m
  end.

(** The loop of [api_cond_wake] *)
Fixpoint cond_wake_loop (fuel : nat) (all : bool) (c : Z) m : run_of M :=
  match fuel with
  | O => None
  | Datatypes.S fuel =>
      match cond_waiter c m with
      | None => Some (Ret m)
      | Some idx =>
          match resume_cond_waiter idx m with
          | Panic => Some Panic
          | Ret m => if all then cond_wake_loop fuel all c m else Some (Ret m)
          end
      end
  end.

Definition api_cond_wake (fuel : nat) (all : bool) m : run_of M :=
  match abi_arg 0 m with
  | Panic => Some Panic
  | Ret c => match cond_wake_loop fuel all c m with None => None | Some r => Some (m ← r; set_ret 0 m) end
  end.

(** ** [os_unfair_lock] *)

Definition api_unfair_lock m : outcome M :=
  a ← abi_arg 0 m;
  id ← current_tid m;
  '(v, m) ← read32 a 0 m;
  if v =? 0 then write32 a (wrap 32 id) m else block_on_lock a m.

Definition api_unfair_trylock m : outcome M :=
  a ← abi_arg 0 m;
  '(v, m) ← read32 a 0 m;
  m ← (if v =? 0 then id ← current_tid m; write32 a (wrap 32 id) m else Ret m);
  set_ret (if v =? 0 then 1 else 0) m.

Definition api_unfair_unlock m : outcome M :=
  a ← abi_arg 0 m;
  match next_waiter a m with
  | Some idx => t ← index idx (threads m); m ← write32 a (wrap 32 (tid t)) m; wake idx m
  | None => write32 a 0 m
  end.

(** ** The life of a thread *)

(** [sentinel_addr] for the thread-return sentinel, the second of the map *)
Definition thread_return_addr m : option Z :=
  match get_map_by_name SENTINEL_MAP (tmaps m) with Some g => Some (wadd (base_addr g) 4) | None => None end.

Definition api_pthread_create m : outcome M :=
  thread_ptr ← abi_arg 0 m; start ← abi_arg 2 m; param ← abi_arg 3 m;
  match thread_return_addr m with
  | None => set_ret EAGAIN m
  | Some thread_return =>
      let id := 0x1000 + Z.of_nat (length (threads m)) in
      '(stack, m) ← with_maps (map ("pthread_stack_" +:+ hex id) THREAD_STACK_SIZE Perm.READ_WRITE) m;
      t ← current_thread m;
      match arch t with
      | X86 _ _ => Panic
      | AArch64 x _ _ o =>
          x ← index_set 0 param x; x ← index_set 29 0 x; x ← index_set 30 thread_return x;
          let sp := Z.land (wadd stack THREAD_STACK_SIZE) (bnot 64 0xf) in
          let m := set_threads (threads m ++ [new_thread id (AArch64 x sp start o)]) m in
          let m := set_threading true m in
          m ← (if thread_ptr =? 0 then Ret m else write64 thread_ptr id m);
          set_ret 0 m
      end
  end.

(** The first thread with an id *)
Fixpoint position_tid (id : Z) (ts : list (ThreadContext X A)) : option nat :=
  match ts with
  | [] => None
  | t :: ts => if tid t =? id then Some O else Datatypes.S <$> position_tid id ts
  end.

Definition api_pthread_join m : outcome M :=
  target ← abi_arg 0 m; retval_ptr ← abi_arg 1 m;
  match position_tid target (threads m) with
  | None => set_ret ESRCH m
  | Some idx =>
      if (idx =? current_thread_id m)%nat then set_ret EDEADLK m
      else
        t ← index idx (threads m);
        match exit_value t with
        | Some value =>
            m ← (if retval_ptr =? 0 then Ret m else write64 retval_ptr value m);
            set_ret 0 m
        | None => t ← current_thread m; put_current (set_joining (Some (target, retval_ptr)) t) m
        end
  end.

(** The loop of [thread_exit]: complete the calls of those that join the thread *)
Fixpoint complete_joins (id value : Z) (is_ : list nat) m : outcome M :=
  match is_ with
  | [] => Ret m
  | i :: is_ =>
      t ← index i (threads m);
      match joining t with
      | Some (target, retval_ptr) =>
          if target =? id then
            m ← (if retval_ptr =? 0 then Ret m else write64 retval_ptr value m);
            t ← put_x0 0 (set_joining None t);
            m ← put_thread i t m;
            complete_joins id value is_ m
          else complete_joins id value is_ m
      | None => complete_joins id value is_ m
      end
  end.

Definition thread_exit (value : Z) m : outcome M :=
  t ← current_thread m;
  m ← put_current (set_exit_value (Some value) t) m;
  m ← complete_joins (tid t) value (seq 0 (length (threads m))) m;
  Ret (if forallb (fun t => negb (is_none (exit_value t))) (threads m) then stop m else m).

Definition api_pthread_exit m : outcome M := value ← abi_arg 0 m; thread_exit value m.
Definition api_pthread_self m : outcome M := id ← current_tid m; set_ret id m.
Definition api_pthread_detach m : outcome M := _ ← abi_arg 0 m; set_ret 0 m.
Definition api_pthread_equal m : outcome M :=
  a ← abi_arg 0 m; b ← abi_arg 1 m; set_ret (if a =? b then 1 else 0) m.
End Calls.
