(* ===== verification/MacSpec.v ===== *)
(** * What POSIX threads guarantee

    A mutex is two words of guest memory.  Locking a free one takes it,
    locking a taken one parks the caller without touching memory, and a full
    unlock gives it to the next waiter in turn or leaves it free; waking the
    waiters of a condition variable ends, with a free mutex owned by the first of
    them and the others parked on it; a thread that exits completes every
    join on it. *)

From stdpp Require Import gmap strings.
From S2P Require Import Prelude Scalar Mem64 Slab Tlb Maps MapsInv Regs Threads SchedSpec LocksSpec MacThreads.

(** ** Words of guest memory *)

Section Cells.
Context {S : Type} `{SlabLaws S}.
Implicit Types (mp : Maps S).

(** [n] bytes that can be read and written and hold [v] *)
Record cell mp (n : nat) (a v : Z) : Prop := {
  ce_read : reachable Mem.can_read n a mp = true;
  ce_write : reachable Mem.can_write n a mp = true;
  ce_bytes : bytes_of mp a n = Some (to_le_bytes n v);
  ce_word : is_word (bits_of n) v }.

Lemma cell_layout mp mp' n a v v' :
  (forall x, layout mp' x = layout mp x) -> cell mp n a v -> bytes_of mp' a n = Some (to_le_bytes n v') ->
  is_word (bits_of n) v' -> cell mp' n a v'.
Proof.
  intros Hl [Hr Hw _ _] Hb Hv. split; auto; (erewrite reachable_layout; [eassumption | | exact Hl]);
    intros g g' E; unfold Mem.can_read, Mem.can_write; now rewrite E.
Qed.

Lemma cell_tlb mp tl n a v : cell mp n a v -> cell (set_tlb tl mp) n a v.
Proof. now intros []. Qed.

Lemma cell_read mp n a v :
  wf mp -> 0 <= a -> (0 < n <= 16)%nat -> cell mp n a v ->
  exists tl, wf_tlb tl /\ read_scalar n a mp = Ret (Some v, set_tlb tl mp).
Proof.
  intros Hwf Ha Hn [Hr _ Hb Hv]. destruct (read_scalar_spec n a mp Hwf Ha Hn) as (tl & Htl & E). exists tl.
  split; [exact Htl|]. rewrite E, Hr, Hb. cbn. now rewrite from_to_le_bytes_eq.
Qed.

Lemma bytes_of_apart mp mp' b n :
  (forall i, (i < n)%nat -> byte_of mp' (b + Z.of_nat i) = byte_of mp (b + Z.of_nat i)) -> bytes_of mp' b n = bytes_of mp b n.
Proof.
  intros Hb. unfold bytes_of. assert (Forall (fun i => (i < n)%nat) (seq 0 n)) as Hl by (apply Forall_seq; lia).
  induction Hl as [|i l Hi _ IH]; [reflexivity|]. cbn. now rewrite Hb, IH.
Qed.

Lemma cell_write mp n a v w :
  wf mp -> 0 <= a -> (0 < n <= 16)%nat -> cell mp n a v -> is_word (bits_of n) w ->
  exists mp', write_scalar n a w mp = Ret (true, mp') /\ wf mp' /\ cell mp' n a w /\
    forall n2 b x, b + Z.of_nat n2 <= a \/ a + Z.of_nat n <= b -> cell mp n2 b x -> cell mp' n2 b x.
Proof.
  intros Hwf Ha Hn Hc Hw. destruct (write_scalar_spec n a w mp Hwf Ha Hn) as (mp' & E & Hwf' & Hst).
  rewrite (ce_write _ _ _ _ Hc) in E, Hst. destruct Hst as [Hst _]. exists mp'. split; [exact E|]. split; [exact Hwf'|].
  pose proof (length_to_le_bytes n w) as Hl. split.
  - apply (cell_layout mp mp' n a v w); [apply Hst | exact Hc | | exact Hw].
    rewrite <- Hl at 1. now apply stores_bytes_of in Hst.
  - intros n2 b x Hd Hx. apply (cell_layout mp mp' n2 b x x); [apply Hst | exact Hx | | apply Hx].
    rewrite <- (ce_bytes _ _ _ _ Hx). apply bytes_of_apart. intros i Hi.
    destruct Hst as [Hb _]. rewrite Hb, decide_False; [reflexivity|]. rewrite Hl. lia.
Qed.
End Cells.

(** ** Machines with AArch64 threads *)

Section Mutex.
Context {S X A W : Type} `{SlabLaws S}.
Implicit Types (m : Machine S X A W) (mp : Maps S) (t : ThreadContext X A).

Definition mac_thread t : Prop :=
  (exists x sp pc o, arch t = AArch64 x sp pc o /\ (0 < length x)%nat) /\ is_word 64 (tid t) /\
  forall g p, joining t = Some (g, p) -> 0 <= p.

Record mac_ok m : Prop := {
  mk_maps : wf (tmaps m);
  mk_current : (current_thread_id m < length (threads m))%nat;
  mk_threads : forall i t, threads m !! i = Some t -> mac_thread t }.

(** A thread whose call has been completed with result [v] *)
Definition answered (v : Z) t : ThreadContext X A :=
  match arch t with AArch64 x sp pc o => set_arch (AArch64 (<[0%nat := v]> x) sp pc o) t | X86 _ _ => t end.

Definition retlb (tl : TLB) m : Machine S X A W := set_tmaps (set_tlb tl (tmaps m)) m.

Lemma answered_ok v t : mac_thread t -> mac_thread (answered v t).
Proof.
  intros [(x & sp & pc & o & Ea & Hx) Ht]. unfold answered. rewrite Ea. split; [|exact Ht].
  exists (<[0%nat := v]> x), sp, pc, o. split; [reflexivity | now rewrite length_insert].
Qed.

Lemma put_x0_answered v t : mac_thread t -> put_x0 v t = Ret (answered v t).
Proof.
  intros [(x & sp & pc & o & Ea & Hx) _]. unfold put_x0, answered. rewrite Ea. unfold index_set. now rewrite decide_True.
Qed.

Lemma mac_put i t m : mac_ok m -> mac_thread t -> mac_ok (set_threads (<[i := t]> (threads m)) m).
Proof.
  intros [Hm Hc Ht] Hi. split; cbn; [exact Hm | now rewrite length_insert |]. intros j u. rewrite list_lookup_insert.
  case_decide; [now intros [= <-] | apply Ht].
Qed.

Lemma mac_maps mp m : mac_ok m -> wf mp -> mac_ok (set_tmaps mp m).
Proof. now intros [] ?. Qed.

Lemma mac_retlb tl m : mac_ok m -> wf_tlb tl -> mac_ok (retlb tl m).
Proof. intros Hok Ht. apply mac_maps; [exact Hok | apply set_tlb_wf; [apply Hok | exact Ht]]. Qed.

Lemma put_thread_eq i t m : (i < length (threads m))%nat -> put_thread i t m = Ret (set_threads (<[i := t]> (threads m)) m).
Proof. intros Hi. unfold put_thread, index_set. now rewrite decide_True. Qed.

Lemma mac_current m : mac_ok m -> exists t, threads m !! current_thread_id m = Some t /\ mac_thread t.
Proof.
  intros Hok. destruct (lookup_lt_is_Some_2 _ _ (mk_current _ Hok)) as [t Et]. exists t. split; [exact Et|]. now apply (mk_threads _ Hok) in Et.
Qed.

Lemma current_eq m t : threads m !! current_thread_id m = Some t -> current_thread m = Ret t.
Proof. intros Et. unfold current_thread, index. now rewrite Et. Qed.

Lemma set_ret_eq v m t :
  mac_ok m -> threads m !! current_thread_id m = Some t ->
  set_ret v m = Ret (set_threads (<[current_thread_id m := answered v t]> (threads m)) m).
Proof.
  intros Hok Et. unfold set_ret. rewrite (current_eq m t Et). destruct (mk_threads _ Hok _ _ Et) as [(x & sp & pc & o & Ea & Hx) _].
  cbn. unfold answered. rewrite Ea. unfold index_set. rewrite decide_True by exact Hx. cbn.
  now rewrite put_current_eq by now apply lookup_lt_Some in Et.
Qed.

(** *** Reading and writing *)

(** What a read of [n] bytes at [a] finds *)
Definition value_at (n : nat) (a : Z) mp : option Z :=
  if reachable Mem.can_read n a mp then from_le_bytes <$> bytes_of mp a n else None.

Lemma value_at_cell n a v mp : cell mp n a v -> value_at n a mp = Some v.
Proof. intros [Hr _ Hb Hv]. unfold value_at. rewrite Hr, Hb. cbn. now rewrite from_to_le_bytes_eq. Qed.

Lemma read64_eq a d m :
  mac_ok m -> 0 <= a -> exists tl, wf_tlb tl /\ read64 a d m = Ret (default d (value_at 8 a (tmaps m)), retlb tl m).
Proof.
  intros Hok Ha. destruct (read_scalar_spec 8 a (tmaps m)) as (tl & Htl & E); [apply Hok | exact Ha | lia |].
  exists tl. split; [exact Htl|]. unfold read64, with_maps, read_qword. cbn [SIZE]. now rewrite E.
Qed.

Lemma read32_eq a d m :
  mac_ok m -> 0 <= a -> exists tl, wf_tlb tl /\ read32 a d m = Ret (default d (value_at 4 a (tmaps m)), retlb tl m).
Proof.
  intros Hok Ha. destruct (read_scalar_spec 4 a (tmaps m)) as (tl & Htl & E); [apply Hok | exact Ha | lia |].
  exists tl. split; [exact Htl|]. unfold read32, with_maps, read_dword. cbn [SIZE]. now rewrite E.
Qed.

(** The state of a mutex, in memory *)
Record mutex mp (a owner count : Z) : Prop := {
  mu_range : 0 <= a /\ a + 24 <= 2 ^ 64;
  mu_owner : cell mp 8 (a + OWNER) owner;
  mu_count : cell mp 4 (a + COUNT) count }.

Lemma mutex_addr a : 0 <= a /\ a + 24 <= 2 ^ 64 -> wadd a OWNER = a + OWNER /\ wadd a COUNT = a + COUNT.
Proof. intros Ha. unfold OWNER, COUNT. split; apply wadd_small; unfold is_word; lia. Qed.

Lemma owner_eq a o c m :
  mac_ok m -> mutex (tmaps m) a o c -> exists tl, wf_tlb tl /\ mutex_owner a m = Ret (o, retlb tl m).
Proof.
  intros Hok [Hr Ho _]. destruct (read64_eq (wadd a OWNER) 0 m Hok (wadd_nonneg _ _)) as (tl & Htl & E). exists tl.
  split; [exact Htl|]. unfold mutex_owner. rewrite E, (proj1 (mutex_addr a Hr)), (value_at_cell _ _ _ _ Ho). reflexivity.
Qed.

Lemma count_eq a d o c m :
  mac_ok m -> mutex (tmaps m) a o c -> exists tl, wf_tlb tl /\ read32 (wadd a COUNT) d m = Ret (c, retlb tl m).
Proof.
  intros Hok [Hr _ Hc]. destruct (read32_eq (wadd a COUNT) d m Hok (wadd_nonneg _ _)) as (tl & Htl & E). exists tl.
  split; [exact Htl|]. rewrite E, (proj2 (mutex_addr a Hr)), (value_at_cell _ _ _ _ Hc). reflexivity.
Qed.

Lemma mutex_tlb tl mp a o c : mutex mp a o c -> mutex (set_tlb tl mp) a o c.
Proof. intros [Hr Ho Hc]. split; [exact Hr | now apply cell_tlb | now apply cell_tlb]. Qed.

(** Writing the count, and both words *)
Lemma count_write a o c c' m :
  mac_ok m -> mutex (tmaps m) a o c -> is_word 32 c' ->
  exists mp, wf mp /\ write32 (wadd a COUNT) c' m = Ret (set_tmaps mp m) /\ mutex mp a o c'.
Proof.
  intros Hok [Hr Ho Hc] Hw. rewrite (proj2 (mutex_addr a Hr)). unfold COUNT, OWNER in *.
  destruct (cell_write (tmaps m) 4 (a + 16) c c') as (mp & E & Hwf & Hc' & Hd); [apply Hok | lia | lia | exact Hc | exact Hw |].
  exists mp. split; [exact Hwf|]. unfold write32, with_maps, write_dword. cbn [SIZE]. rewrite E. split; [reflexivity|].
  split; [exact Hr | apply Hd; [unfold OWNER; lia | exact Ho] | exact Hc'].
Qed.

Lemma mutex_write a o c o' c' m :
  mac_ok m -> mutex (tmaps m) a o c -> is_word 64 o' -> is_word 32 c' ->
  exists mp, wf mp /\ (m ← write64 (wadd a OWNER) o' m; write32 (wadd a COUNT) c' m) = Ret (set_tmaps mp m) /\ mutex mp a o' c'.
Proof.
  intros Hok [Hr Ho Hc] Ho' Hc'. rewrite (proj1 (mutex_addr a Hr)). unfold OWNER, COUNT in *.
  destruct (cell_write (tmaps m) 8 (a + 8) o o') as (mp & E & Hwf & Hn & Hd); [apply Hok | lia | lia | exact Ho | exact Ho' |].
  unfold write64, with_maps, write_qword. cbn [SIZE]. rewrite E. cbn [mbind outcome_bind].
  destruct (count_write a o' c c' (set_tmaps mp m)) as (mp' & Hwf' & E' & Hm'); [now apply mac_maps | | exact Hc' |].
  - split; [exact Hr | exact Hn | apply Hd; [unfold COUNT; lia | exact Hc]].
  - exists mp'. split; [exact Hwf'|]. unfold COUNT in E'. rewrite E'. now split.
Qed.

Lemma take_eq a o c id m :
  mac_ok m -> mutex (tmaps m) a o c -> is_word 64 id ->
  exists mp, wf mp /\ mutex_take a id m = Ret (set_tmaps mp m) /\ mutex mp a id 1.
Proof. intros Hok Hm Hid. apply (mutex_write a o c); auto. unfold is_word. lia. Qed.

(** *** Locking *)

(** The kind of a mutex: its signature, or what [pthread_mutex_init] stored *)
Definition kind_of (a : Z) mp : Z :=
  let sig := Z.land (default 0 (value_at 8 a mp)) 0xffffffff in
  if sig =? SIG_RECURSIVE then RECURSIVE
  else if sig =? SIG_ERRORCHECK then ERRORCHECK
  else default NORMAL (value_at 4 (wadd a KIND) mp).

Lemma retlb_retlb tl tl' m : retlb tl' (retlb tl m) = retlb tl' m.
Proof. reflexivity. Qed.

Lemma kind_eq a m :
  mac_ok m -> 0 <= a -> exists tl, wf_tlb tl /\ mutex_kind a m = Ret (kind_of a (tmaps m), retlb tl m).
Proof.
  intros Hok Ha. destruct (read64_eq a 0 m Hok Ha) as (tl & Htl & E). unfold mutex_kind. rewrite E. cbn [mbind outcome_bind].
  unfold kind_of. destruct (_ =? SIG_RECURSIVE); [now exists tl|]. destruct (_ =? SIG_ERRORCHECK); [now exists tl|].
  destruct (read32_eq (wadd a KIND) NORMAL (retlb tl m)) as (tl2 & Htl2 & E2); [now apply mac_retlb | apply wadd_nonneg |].
  exists tl2. split; [exact Htl2|]. rewrite E2. reflexivity.
Qed.

(** The outcome of a call: the memory, and the list of threads *)
Definition becomes m (m' : Machine S X A W) mp ts : Prop := m' = set_threads ts (set_tmaps mp m) /\ wf mp.

Lemma answer v m mp t :
  mac_ok m -> wf mp -> threads m !! current_thread_id m = Some t ->
  set_ret v (set_tmaps mp m) = Ret (set_threads (<[current_thread_id m := answered v t]> (threads m)) (set_tmaps mp m)).
Proof. intros Hok Hwf Et. exact (set_ret_eq v (set_tmaps mp m) t (mac_maps mp m Hok Hwf) Et). Qed.

Lemma parked a m mp t :
  mac_ok m -> threads m !! current_thread_id m = Some t ->
  block_on_lock a (set_tmaps mp m)
  = Ret (set_threads (<[current_thread_id m := set_lock (Some a) t]> (threads m)) (set_tmaps mp m)).
Proof.
  intros Hok Et. unfold block_on_lock. rewrite (current_eq (set_tmaps mp m) t Et). cbn [mbind outcome_bind].
  now rewrite put_current_eq by exact (mk_current _ Hok).
Qed.

(** What locking does: [ts] are the threads and [o'], [c'] the mutex afterwards. *)
Definition lock_outcome (a o c : Z) m t (ts : list (ThreadContext X A)) (o' c' : Z) : Prop :=
  let answer v := <[current_thread_id m := answered v t]> (threads m) in
  let park := <[current_thread_id m := set_lock (Some a) t]> (threads m) in
  if o =? 0 then ts = answer 0 /\ o' = tid t /\ c' = 1
  else if o =? tid t then
    if kind_of a (tmaps m) =? RECURSIVE then ts = answer 0 /\ o' = o /\ c' = wrap 32 (c + 1)
    else if kind_of a (tmaps m) =? ERRORCHECK then ts = answer EDEADLK /\ o' = o /\ c' = c
    else ts = park /\ o' = o /\ c' = c
  else ts = park /\ o' = o /\ c' = c.

Lemma lock_spec m a o c t :
  mac_ok m -> abi_arg 0 m = Ret a -> mutex (tmaps m) a o c -> threads m !! current_thread_id m = Some t ->
  exists mp ts o' c', api_mutex_lock m = Ret (set_threads ts (set_tmaps mp m)) /\ wf mp /\ mutex mp a o' c' /\
    lock_outcome a o c m t ts o' c'.
Proof.
  intros Hok Ea Hm Et. unfold api_mutex_lock, current_tid. rewrite Ea, (current_eq m t Et). cbn [mbind outcome_bind].
  destruct (owner_eq a o c m Hok Hm) as (tl & Htl & E). rewrite E. cbn [mbind outcome_bind]. unfold lock_outcome.
  pose proof (mac_retlb tl m Hok Htl) as Hok1. pose proof (mutex_tlb tl _ a o c Hm) as Hm1.
  destruct (mk_threads _ Hok _ _ Et) as (_ & Hid & _). destruct (o =? 0); [|destruct (o =? tid t)].
  - destruct (take_eq a o c (tid t) (retlb tl m) Hok1 Hm1 Hid) as (mp & Hwf & E1 & Hm'). rewrite E1. cbn [mbind outcome_bind].
    exists mp, (<[current_thread_id m := answered 0 t]> (threads m)), (tid t), 1.
    split; [exact (answer 0 m mp t Hok Hwf Et) | now split_and!].
  - destruct (kind_eq a (retlb tl m) Hok1) as (tl2 & Htl2 & E2); [apply (mu_range _ _ _ _ Hm)|]. rewrite E2. cbn [mbind outcome_bind].
    change (kind_of a (tmaps (retlb tl m))) with (kind_of a (tmaps m)). rewrite retlb_retlb.
    pose proof (mac_retlb tl2 m Hok Htl2) as Hok2. pose proof (mutex_tlb tl2 _ a o c Hm) as Hm2. pose proof (mk_maps _ Hok2) as Hwf2.
    destruct (_ =? RECURSIVE); [|destruct (_ =? ERRORCHECK)].
    + unfold mutex_deepen. destruct (count_eq a 0 o c _ Hok2 Hm2) as (tl3 & Htl3 & E3). rewrite E3. cbn [mbind outcome_bind].
      rewrite retlb_retlb. destruct (count_write a o c (wrap 32 (c + 1)) (retlb tl3 m)) as (mp & Hwf & E4 & Hm4);
        [now apply mac_retlb | now apply mutex_tlb | apply wrap_word; lia |]. rewrite E4. cbn [mbind outcome_bind].
      exists mp, (<[current_thread_id m := answered 0 t]> (threads m)), o, (wrap 32 (c + 1)).
      split; [exact (answer 0 m mp t Hok Hwf Et) | now split_and!].
    + exists (set_tlb tl2 (tmaps m)), (<[current_thread_id m := answered EDEADLK t]> (threads m)), o, c.
      split; [exact (answer EDEADLK m _ t Hok Hwf2 Et) | now split_and!].
    + exists (set_tlb tl2 (tmaps m)), (<[current_thread_id m := set_lock (Some a) t]> (threads m)), o, c.
      split; [exact (parked a m _ t Hok Et) | now split_and!].
  - exists (set_tlb tl (tmaps m)), (<[current_thread_id m := set_lock (Some a) t]> (threads m)), o, c.
    split; [exact (parked a m _ t Hok Et) | split_and!; auto; apply (mk_maps _ Hok1)].
Qed.

(** *** Unlocking *)

(** The thread that is first in turn, after the current one, among those with a property *)
Definition first_in_turn (P : ThreadContext X A -> Prop) (k : nat) m : Prop :=
  exists i u, (1 <= i <= length (threads m))%nat /\ k = after i m /\ threads m !! k = Some u /\ P u /\
    forall j v, (1 <= j < i)%nat -> threads m !! after j m = Some v -> ~ P v.

Lemma find_after_spec (P : ThreadContext X A -> Prop) `{forall t, Decision (P t)} s n m :
  match find_after (fun t => bool_decide (P t)) (seq s n) m with
  | Some k => exists i u, (s <= i < s + n)%nat /\ k = after i m /\ threads m !! k = Some u /\ P u /\
                forall j v, (s <= j < i)%nat -> threads m !! after j m = Some v -> ~ P v
  | None => forall j v, (s <= j < s + n)%nat -> threads m !! after j m = Some v -> ~ P v
  end.
Proof.
  revert s. induction n as [|n IH]; intros s; cbn [seq find_after]; [intros; lia|].
  change ((_ + s) mod _)%nat with (after s m). specialize (IH (Datatypes.S s)).
  assert (forall i, ~ (exists u, threads m !! after s m = Some u /\ P u) ->
    (forall j v, (Datatypes.S s <= j < i)%nat -> threads m !! after j m = Some v -> ~ P v) ->
    forall j v, (s <= j < i)%nat -> threads m !! after j m = Some v -> ~ P v) as Hext.
  { intros i Hno Hb j v Hj Ev Hv. destruct (Nat.eq_dec j s) as [->|]; [apply Hno; eauto | apply (Hb j v); auto; lia]. }
  assert (~ (exists u, threads m !! after s m = Some u /\ P u) ->
    match find_after (fun t => bool_decide (P t)) (seq (Datatypes.S s) n) m with
    | Some k => exists i u, (s <= i < s + Datatypes.S n)%nat /\ k = after i m /\ threads m !! k = Some u /\ P u /\
                  forall j v, (s <= j < i)%nat -> threads m !! after j m = Some v -> ~ P v
    | None => forall j v, (s <= j < s + Datatypes.S n)%nat -> threads m !! after j m = Some v -> ~ P v
    end) as Hrest.
  { intros Hno. destruct (find_after _ _ m) as [k|].
    - destruct IH as (i & u & ? & ? & ? & ? & Hb). exists i, u. do 4 (split; [auto; lia|]). now apply Hext.
    - apply Hext; [exact Hno|]. intros j v Hj. apply IH. lia. }
  destruct (threads m !! after s m) as [u|] eqn:Eu.
  - destruct (bool_decide_reflect (P u)) as [Hu|Hu].
    + exists s, u. do 4 (split; [auto; lia|]). intros; lia.
    + apply Hrest. intros (v & [= <-] & Hv). easy.
  - apply Hrest. intros (v & ? & _). discriminate.
Qed.

Definition waits_for (a : Z) t : Prop := blocked_on_lock t = Some a.

Lemma next_waiter_spec a m :
  match next_waiter a m with
  | Some k => first_in_turn (waits_for a) k m
  | None => (current_thread_id m < length (threads m))%nat -> forall t, t ∈ threads m -> ~ waits_for a t
  end.
Proof.
  unfold next_waiter. pose proof (find_after_spec (fun t => blocked_on_lock t = Some a) 1 (length (threads m)) m) as Hs. unfold waits_for in *.
  destruct (find_after _ _ m) as [k|].
  - destruct Hs as (i & u & Hi & Hs). exists i, u. split; [lia | exact Hs].
  - intros Hc t Ht. apply list_elem_of_lookup in Ht as [k Ek].
    destruct (after_covers k m Hc) as (i & Hi & Ei); [now apply lookup_lt_Some in Ek|].
    apply (Hs i t); [lia | now rewrite Ei].
Qed.

Lemma find_after_maps P steps mp m : find_after P steps (set_tmaps mp m) = find_after P steps m.
Proof. induction steps as [|i steps IH]; [reflexivity|]. cbn. now rewrite IH. Qed.

Lemma next_waiter_maps a mp m : next_waiter a (set_tmaps mp m) = next_waiter a m.
Proof. apply find_after_maps. Qed.

Lemma release_spec m a o c :
  mac_ok m -> mutex (tmaps m) a o c ->
  exists mp ts o' c', mutex_release a m = Ret (set_threads ts (set_tmaps mp m)) /\ wf mp /\ mutex mp a o' c' /\
    match next_waiter a m with
    | Some k => exists u, threads m !! k = Some u /\ ts = <[k := answered 0 (set_lock None u)]> (threads m) /\ o' = tid u /\ c' = 1
    | None => ts = threads m /\ o' = 0 /\ c' = 0
    end.
Proof.
  intros Hok Hm. unfold mutex_release. pose proof (next_waiter_spec a m) as Hw. destruct (next_waiter a m) as [k|].
  - destruct Hw as (i & u & _ & _ & Eu & _). unfold index. rewrite Eu. cbn [mbind outcome_bind].
    pose proof (mk_threads _ Hok _ _ Eu) as Hu. destruct (take_eq a o c (tid u) m Hok Hm) as (mp & Hwf & E & Hm'); [apply Hu|].
    rewrite E. cbn [mbind outcome_bind]. exists mp, (<[k := answered 0 (set_lock None u)]> (threads m)), (tid u), 1.
    split_and!; auto; [|now exists u]. unfold wake, index. cbn [threads set_tmaps]. rewrite Eu. cbn [mbind outcome_bind].
    rewrite put_x0_answered by exact Hu. cbn [mbind outcome_bind]. rewrite put_thread_eq by (cbn; now apply lookup_lt_Some in Eu). reflexivity.
  - destruct (mutex_write a o c 0 0 m Hok Hm) as (mp & Hwf & E & Hm'); [unfold is_word; lia | unfold is_word; lia |].
    exists mp, (threads m), 0, 0. rewrite E. now split_and!.
Qed.

(** What unlocking by the owner does *)
Definition unlock_outcome (a o c : Z) m (ts : list (ThreadContext X A)) (o' c' : Z) : Prop :=
  let answer l := alter (answered 0) (current_thread_id m) l in
  if 1 <? c then ts = answer (threads m) /\ o' = o /\ c' = c - 1
  else match next_waiter a m with
       | Some k => exists u, threads m !! k = Some u /\ ts = answer (<[k := answered 0 (set_lock None u)]> (threads m)) /\
                     o' = tid u /\ c' = 1
       | None => ts = answer (threads m) /\ o' = 0 /\ c' = 0
       end.

Lemma answer_alter v m : mac_ok m -> set_ret v m = Ret (set_threads (alter (answered v) (current_thread_id m) (threads m)) m).
Proof.
  intros Hok. destruct (mac_current m Hok) as (t & Et & _). rewrite (set_ret_eq v m t Hok Et). do 2 f_equal.
  apply list_eq. intros i. rewrite list_lookup_insert. case_decide as Hi.
  - destruct Hi as [<- _]. now rewrite list_lookup_alter_eq, Et.
  - destruct (decide (current_thread_id m = i)) as [<-|Hne]; [|now rewrite list_lookup_alter_ne].
    apply lookup_lt_Some in Et. tauto.
Qed.

Lemma unlock_spec m a c t :
  mac_ok m -> abi_arg 0 m = Ret a -> threads m !! current_thread_id m = Some t -> mutex (tmaps m) a (tid t) c ->
  exists mp ts o' c', api_mutex_unlock m = Ret (set_threads ts (set_tmaps mp m)) /\ wf mp /\ mutex mp a o' c' /\
    unlock_outcome a (tid t) c m ts o' c'.
Proof.
  intros Hok Ea Et Hm. unfold api_mutex_unlock, current_tid. rewrite Ea, (current_eq m t Et). cbn [mbind outcome_bind].
  destruct (owner_eq a (tid t) c m Hok Hm) as (tl & Htl & ->). cbn [mbind outcome_bind]. rewrite Z.eqb_refl. cbn [mbind outcome_bind].
  destruct (count_eq a 1 (tid t) c (retlb tl m)) as (tl2 & Htl2 & ->); [now apply mac_retlb | now apply mutex_tlb |].
  cbn [mbind outcome_bind]. rewrite retlb_retlb. pose proof (mac_retlb tl2 m Hok Htl2) as Hok2.
  pose proof (mutex_tlb tl2 _ a _ c Hm) as Hm2. unfold unlock_outcome. destruct (Z.ltb_spec 1 c).
  - destruct (count_write a (tid t) c (c - 1) (retlb tl2 m) Hok2 Hm2) as (mp & Hwf & -> & Hm').
    { pose proof (ce_word _ _ _ _ (mu_count _ _ _ _ Hm)) as Hc. unfold is_word, bits_of in *. cbn in Hc |- *. lia. }
    cbn [mbind outcome_bind]. exists mp, (alter (answered 0) (current_thread_id m) (threads m)), (tid t), (c - 1).
    split; [exact (answer_alter 0 (set_tmaps mp m) (mac_maps mp m Hok Hwf)) | now split_and!].
  - destruct (release_spec (retlb tl2 m) a (tid t) c Hok2 Hm2) as (mp & ts & o' & c' & -> & Hwf & Hm' & Hcase).
    cbn [mbind outcome_bind]. unfold retlb in Hcase. rewrite next_waiter_maps in Hcase.
    exists mp, (alter (answered 0) (current_thread_id m) ts), o', c'. split; [|split; [exact Hwf | split; [exact Hm'|]]].
    + refine (answer_alter 0 (set_threads ts (set_tmaps mp m)) _). destruct (next_waiter a m) as [k|].
      * destruct Hcase as (u & Eu & -> & _). apply (mac_put k _ (set_tmaps mp m)); [now apply mac_maps | now apply answered_ok, (mk_threads _ Hok _ _ Eu)].
      * destruct Hcase as (-> & _). now apply (mac_maps mp m).
    + destruct (next_waiter a m) as [k|]; [destruct Hcase as (u & Eu & -> & -> & ->); now exists u | destruct Hcase as (-> & -> & ->); auto].
Qed.
End Mutex.

(** ** Condition variables *)

Section Cond.
Context {S X A W : Type} `{SlabLaws S}.
Implicit Types (m : Machine S X A W) (t u : ThreadContext X A) (ts : list (ThreadContext X A)).

Definition waits_cond (c : Z) t : Prop := fst <$> cond_wait t = Some c.
#[export] Instance waits_cond_dec c t : Decision (waits_cond c t).
Proof. unfold waits_cond. apply _. Defined.
Definition cond_waiters (c : Z) ts : nat := length (filter (waits_cond c) ts).

(** A signalled waiter's call is complete, or it waits for its mutex. *)
Definition signalled (c : Z) u u' : Prop :=
  if decide (waits_cond c u)
  then exists a, cond_wait u = Some (c, a) /\
         (u' = answered 0 (set_cond None u) \/ u' = set_lock (Some a) (set_cond None u))
  else u' = u.

Lemma write_total a v m : mac_ok m -> 0 <= a -> exists mp, wf mp /\ write64 a v m = Ret (set_tmaps mp m).
Proof.
  intros Hok Ha. destruct (write_scalar_spec 8 a v (tmaps m)) as (mp & E & Hwf & _); [apply Hok | exact Ha | lia |].
  exists mp. split; [exact Hwf|]. unfold write64, with_maps, write_qword. cbn [SIZE]. now rewrite E.
Qed.

Lemma write32_total a v m : mac_ok m -> 0 <= a -> exists mp, wf mp /\ write32 a v m = Ret (set_tmaps mp m).
Proof.
  intros Hok Ha. destruct (write_scalar_spec 4 a v (tmaps m)) as (mp & E & Hwf & _); [apply Hok | exact Ha | lia |].
  exists mp. split; [exact Hwf|]. unfold write32, with_maps, write_dword. cbn [SIZE]. now rewrite E.
Qed.

Lemma take_total a id m : mac_ok m -> exists mp, wf mp /\ mutex_take a id m = Ret (set_tmaps mp m).
Proof.
  intros Hok. unfold mutex_take. destruct (write_total (wadd a OWNER) id m Hok (wadd_nonneg _ _)) as (mp & Hwf & ->). cbn [mbind outcome_bind].
  destruct (write32_total (wadd a COUNT) 1 (set_tmaps mp m)) as (mp' & Hwf' & E); [now apply mac_maps | apply wadd_nonneg |].
  now exists mp'.
Qed.

Lemma signalled_intro c a u u' :
  cond_wait u = Some (c, a) -> u' = answered 0 (set_cond None u) \/ u' = set_lock (Some a) (set_cond None u) -> signalled c u u'.
Proof. intros Ec Hu. unfold signalled. rewrite decide_True by (unfold waits_cond; now rewrite Ec). now exists a. Qed.

Lemma resume_total c idx u m :
  mac_ok m -> threads m !! idx = Some u -> waits_cond c u ->
  exists mp u', resume_cond_waiter idx m = Ret (set_threads (<[idx := u']> (threads m)) (set_tmaps mp m)) /\ wf mp /\
    mac_thread u' /\ signalled c u u' /\ cond_wait u' = None.
Proof.
  intros Hok Eu Hw. pose proof (lookup_lt_Some _ _ _ Eu) as Hl. pose proof (mk_threads _ Hok _ _ Eu) as Hu.
  unfold waits_cond in Hw.
  destruct (cond_wait u) as [[c' a]|] eqn:Ec; [|discriminate]. injection Hw as ->.
  unfold resume_cond_waiter, index. rewrite Eu. cbn [mbind outcome_bind]. rewrite Ec, put_thread_eq by exact Hl. cbn [mbind outcome_bind].
  set (m1 := set_threads _ m). assert (mac_ok m1) as Hok1 by now apply mac_put.
  destruct (read64_eq (wadd a OWNER) 0 m1 Hok1 (wadd_nonneg _ _)) as (tl & Htl & E). unfold mutex_owner. rewrite E. cbn [mbind outcome_bind].
  assert (threads (retlb tl m1) !! idx = Some (set_cond None u)) as E1 by (cbn; now apply list_lookup_insert_eq).
  rewrite E1. cbn [mbind outcome_bind]. pose proof (mac_retlb tl m1 Hok1 Htl) as Hok2.
  destruct (_ =? 0).
  - destruct (take_total a (tid (set_cond None u)) (retlb tl m1) Hok2) as (mp & Hwf & ->). cbn [mbind outcome_bind].
    rewrite put_x0_answered by exact Hu. cbn [mbind outcome_bind]. rewrite put_thread_eq by (cbn; now rewrite length_insert).
    exists mp, (answered 0 (set_cond None u)). split; [cbn; now rewrite list_insert_insert_eq|]. split; [exact Hwf|].
    split; [now apply answered_ok|]. split; [apply (signalled_intro c a); auto|]. unfold answered. now destruct (arch _).
  - rewrite put_thread_eq by (cbn; now rewrite length_insert). exists (set_tlb tl (tmaps m)), (set_lock (Some a) (set_cond None u)).
    split; [cbn; now rewrite list_insert_insert_eq|]. split; [apply (mk_maps _ Hok2)|]. split; [exact Hu|]. split; [apply (signalled_intro c a); auto | reflexivity].
Qed.

Lemma cond_waiter_spec c m :
  match cond_waiter c m with
  | Some k => first_in_turn (waits_cond c) k m
  | None => (current_thread_id m < length (threads m))%nat -> forall t, t ∈ threads m -> ~ waits_cond c t
  end.
Proof.
  unfold cond_waiter. pose proof (find_after_spec (fun t => fst <$> cond_wait t = Some c) 1 (length (threads m)) m) as Hs.
  destruct (find_after _ _ m) as [k|].
  - destruct Hs as (i & u & Hi & Hs). exists i, u. split; [lia | exact Hs].
  - intros Hc t Ht. apply list_elem_of_lookup in Ht as [k Ek].
    destruct (after_covers k m Hc) as (i & Hi & Ei); [now apply lookup_lt_Some in Ek|]. apply (Hs i t); [lia | now rewrite Ei].
Qed.

Lemma cond_waiters_insert c idx u u' ts :
  ts !! idx = Some u -> waits_cond c u -> cond_wait u' = None -> cond_waiters c ts = Datatypes.S (cond_waiters c (<[idx := u']> ts)).
Proof.
  intros Eu Hu Hu'. unfold cond_waiters. rewrite <- (take_drop_middle ts idx u Eu) at 1.
  rewrite insert_take_drop by now apply lookup_lt_Some in Eu. rewrite !filter_app, !filter_cons, !length_app.
  rewrite (decide_True (P := waits_cond c u)) by exact Hu. rewrite decide_False by (unfold waits_cond; now rewrite Hu'). cbn. lia.
Qed.

Lemma signalled_trans c idx u u' ts ts' :
  ts !! idx = Some u -> signalled c u u' -> cond_wait u' = None ->
  Forall2 (signalled c) (<[idx := u']> ts) ts' -> Forall2 (signalled c) ts ts'.
Proof.
  intros Eu Hs Hn Hf. apply Forall2_same_length_lookup in Hf as [Hl Hf]. rewrite length_insert in Hl.
  apply Forall2_same_length_lookup. split; [exact Hl|]. intros i x y Ex Ey. specialize (Hf i).
  destruct (decide (idx = i)) as [<-|Hne].
  - rewrite list_lookup_insert_eq in Hf by now apply lookup_lt_Some in Eu. specialize (Hf u' y eq_refl Ey).
    unfold signalled in Hf. rewrite decide_False in Hf by (unfold waits_cond; now rewrite Hn). congruence.
  - rewrite list_lookup_insert_ne in Hf by exact Hne. now apply Hf.
Qed.

Lemma signalled_refl c ts : (forall t, t ∈ ts -> ~ waits_cond c t) -> Forall2 (signalled c) ts ts.
Proof.
  intros Hno. apply Forall2_same_length_lookup. split; [reflexivity|]. intros i x y Ex Ey. assert (x = y) as -> by congruence.
  unfold signalled. rewrite decide_False; [reflexivity|]. apply Hno. now apply list_elem_of_lookup_2 in Ex.
Qed.

Lemma broadcast_ends fuel c m :
  mac_ok m -> (cond_waiters c (threads m) < fuel)%nat ->
  exists m', cond_wake_loop fuel true c m = Some (Ret m') /\ mac_ok m' /\ current_thread_id m' = current_thread_id m /\
    Forall2 (signalled c) (threads m) (threads m') /\ forall t, t ∈ threads m' -> ~ waits_cond c t.
Proof.
  revert m. induction fuel as [|fuel IH]; intros m Hok Hf; [lia|]. cbn [cond_wake_loop].
  pose proof (cond_waiter_spec c m) as Hw. destruct (cond_waiter c m) as [k|].
  - destruct Hw as (_ & u & _ & _ & Eu & Hu & _). destruct (resume_total c k u m Hok Eu Hu) as (mp & u' & -> & Hwf & Hu' & Hs & Hn).
    pose proof (cond_waiters_insert c k u u' (threads m) Eu Hu Hn) as Hc. set (m1 := set_threads _ _).
    assert (mac_ok m1) as Hok1 by (apply (mac_put k u' (set_tmaps mp m)); [now apply mac_maps | exact Hu']).
    destruct (IH m1 Hok1) as (m' & E & Hok' & Ecur & Hf2 & Hnone);
      [change (threads m1) with (<[k := u']> (threads m)); lia|]. exists m'. do 3 (split; [assumption|]).
    split; [|exact Hnone]. now apply (signalled_trans c k u u').
  - specialize (Hw (mk_current _ Hok)). exists m. do 3 (split; [auto|]). split; [now apply signalled_refl | exact Hw].
Qed.

(** *** One mutex *)

(** What a broadcast does to thread [i] when the waiters share the mutex [a]: the [lucky] one gets
    it and its call is complete, the others queue for it. *)
Definition woken (c a : Z) (lucky : option nat) (i : nat) u : ThreadContext X A :=
  if decide (waits_cond c u) then
    if decide (lucky = Some i) then answered 0 (set_cond None u) else set_lock (Some a) (set_cond None u)
  else u.

Definition share_mutex (c a : Z) ts : Prop := forall t, t ∈ ts -> waits_cond c t -> cond_wait t = Some (c, a) /\ tid t <> 0.

Lemma resume_exact c a idx u m o n :
  mac_ok m -> threads m !! idx = Some u -> cond_wait u = Some (c, a) -> mutex (tmaps m) a o n ->
  let u' := if o =? 0 then answered 0 (set_cond None u) else set_lock (Some a) (set_cond None u) in
  exists mp, resume_cond_waiter idx m = Ret (set_threads (<[idx := u']> (threads m)) (set_tmaps mp m)) /\ wf mp /\
    mac_thread u' /\ cond_wait u' = None /\ if o =? 0 then mutex mp a (tid u) 1 else mutex mp a o n.
Proof.
  intros Hok Eu Ec Hm u'. pose proof (lookup_lt_Some _ _ _ Eu) as Hl. pose proof (mk_threads _ Hok _ _ Eu) as Hu.
  unfold resume_cond_waiter, index. rewrite Eu. cbn [mbind outcome_bind]. rewrite Ec, put_thread_eq by exact Hl. cbn [mbind outcome_bind].
  set (m1 := set_threads _ m). assert (mac_ok m1) as Hok1 by now apply mac_put.
  destruct (owner_eq a o n m1 Hok1 Hm) as (tl & Htl & ->). cbn [mbind outcome_bind].
  assert (threads (retlb tl m1) !! idx = Some (set_cond None u)) as E1 by (cbn; now apply list_lookup_insert_eq).
  rewrite E1. cbn [mbind outcome_bind]. pose proof (mac_retlb tl m1 Hok1 Htl) as Hok2. unfold u'. destruct (o =? 0).
  - destruct (take_eq a o n (tid u) (retlb tl m1) Hok2 (mutex_tlb tl _ a o n Hm)) as (mp & Hwf & E & Hm'); [apply Hu|].
    change (tid (set_cond None u)) with (tid u). rewrite E. cbn [mbind outcome_bind].
    rewrite put_x0_answered by exact Hu. cbn [mbind outcome_bind]. rewrite put_thread_eq by (cbn; now rewrite length_insert).
    exists mp. split; [cbn; now rewrite list_insert_insert_eq|]. split_and!; [exact Hwf | now apply answered_ok | | exact Hm'].
    unfold answered. now destruct (arch _).
  - rewrite put_thread_eq by (cbn; now rewrite length_insert). exists (set_tlb tl (tmaps m)). split; [cbn; now rewrite list_insert_insert_eq|].
    split_and!; [apply (mk_maps _ Hok2) | exact Hu | reflexivity | now apply mutex_tlb].
Qed.

(** A thread that was resumed is not looked at again. *)
Lemma imap_woken c a lucky k u u' ts :
  ts !! k = Some u -> cond_wait u' = None -> u' = woken c a lucky k u ->
  (forall i, i <> k -> lucky <> Some i) -> imap (woken c a None) (<[k := u']> ts) = imap (woken c a lucky) ts.
Proof.
  intros Eu Hn Hu' Hl. apply list_eq. intros i. rewrite !list_lookup_imap. destruct (decide (k = i)) as [<-|Hne].
  - rewrite list_lookup_insert_eq by now apply lookup_lt_Some in Eu. rewrite Eu. cbn. f_equal. rewrite <- Hu'.
    unfold woken. now rewrite decide_False by (unfold waits_cond; now rewrite Hn).
  - rewrite list_lookup_insert_ne by exact Hne. destruct (ts !! i) as [v|]; [|reflexivity]. cbn. f_equal. unfold woken.
    rewrite (decide_False (P := lucky = Some i)) by (apply Hl; congruence). now rewrite (decide_False (P := None = Some i)).
Qed.

Lemma imap_unwoken c a lucky ts : (forall t, t ∈ ts -> ~ waits_cond c t) -> imap (woken c a lucky) ts = ts.
Proof.
  intros Hno. apply list_eq. intros i. rewrite list_lookup_imap. destruct (ts !! i) as [v|] eqn:E; [|reflexivity].
  cbn. f_equal. unfold woken. rewrite decide_False; [reflexivity|]. apply Hno. now apply list_elem_of_lookup_2 in E.
Qed.

Lemma share_mutex_insert c a k u' ts : share_mutex c a ts -> cond_wait u' = None -> share_mutex c a (<[k := u']> ts).
Proof.
  intros Hs Hn t [i Ei]%list_elem_of_lookup Hw. rewrite list_lookup_insert in Ei. case_decide.
  - injection Ei as <-. unfold waits_cond in Hw. rewrite Hn in Hw. discriminate.
  - apply Hs; [now apply list_elem_of_lookup_2 in Ei | exact Hw].
Qed.

(** While somebody owns the mutex all waiters queue for it. *)
Lemma broadcast_parks fuel c a o n m :
  mac_ok m -> share_mutex c a (threads m) -> mutex (tmaps m) a o n -> o <> 0 -> (cond_waiters c (threads m) < fuel)%nat ->
  exists mp, cond_wake_loop fuel true c m = Some (Ret (set_threads (imap (woken c a None) (threads m)) (set_tmaps mp m))) /\
    mac_ok (set_threads (imap (woken c a None) (threads m)) (set_tmaps mp m)) /\ mutex mp a o n.
Proof.
  revert m. induction fuel as [|fuel IH]; intros m Hok Hsh Hm Ho Hf; [lia|]. cbn [cond_wake_loop].
  pose proof (cond_waiter_spec c m) as Hw. destruct (cond_waiter c m) as [k|].
  - destruct Hw as (_ & u & _ & _ & Eu & Hu & _). destruct (Hsh u (list_elem_of_lookup_2 _ _ _ Eu) Hu) as [Ec _].
    destruct (resume_exact c a k u m o n Hok Eu Ec Hm) as (mp & E & Hwf & Hu' & Hn & Hm'). rewrite E. clear E.
    rewrite (proj2 (Z.eqb_neq o 0) Ho) in *. set (u' := set_lock _ _) in *.
    pose proof (cond_waiters_insert c k u u' (threads m) Eu Hu Hn) as Hc. set (m1 := set_threads _ _).
    assert (mac_ok m1) as Hok1 by (apply (mac_put k u' (set_tmaps mp m)); [now apply mac_maps | exact Hu']).
    destruct (IH m1 Hok1) as (mp' & E & Hok' & Hm2);
      [now apply share_mutex_insert | exact Hm' | exact Ho | change (threads m1) with (<[k := u']> (threads m)); lia |].
    assert (imap (woken c a None) (threads m1) = imap (woken c a None) (threads m)) as Ei.
    { apply (imap_woken c a None k u); [exact Eu | exact Hn | | congruence]. unfold woken. now rewrite decide_True. }
    rewrite Ei in E, Hok'. now exists mp'.
  - rewrite imap_unwoken by exact (Hw (mk_current _ Hok)). exists (tmaps m).
    assert (set_threads (threads m) (set_tmaps (tmaps m) m) = m) as -> by now destruct m. now split_and!.
Qed.

Lemma broadcast_exact fuel c a o n m :
  mac_ok m -> share_mutex c a (threads m) -> mutex (tmaps m) a o n -> (cond_waiters c (threads m) < fuel)%nat ->
  exists lucky mp o' n', cond_wake_loop fuel true c m = Some (Ret (set_threads (imap (woken c a lucky) (threads m)) (set_tmaps mp m))) /\
    mac_ok (set_threads (imap (woken c a lucky) (threads m)) (set_tmaps mp m)) /\ mutex mp a o' n' /\
    match lucky with
    | Some k => o = 0 /\ first_in_turn (waits_cond c) k m /\ (exists u, threads m !! k = Some u /\ o' = tid u) /\ n' = 1
    | None => (o <> 0 \/ forall t, t ∈ threads m -> ~ waits_cond c t) /\ o' = o /\ n' = n
    end.
Proof.
  intros Hok Hsh Hm Hf. destruct (Z.eq_dec o 0) as [->|Ho].
  2:{ destruct (broadcast_parks fuel c a o n m Hok Hsh Hm Ho Hf) as (mp & E & Hok' & Hm'). exists None, mp, o, n. split_and!; auto. }
  destruct fuel as [|fuel]; [lia|]. cbn [cond_wake_loop]. pose proof (cond_waiter_spec c m) as Hw. destruct (cond_waiter c m) as [k|].
  - pose proof Hw as (_ & u & _ & _ & Eu & Hu & _). destruct (Hsh u (list_elem_of_lookup_2 _ _ _ Eu) Hu) as [Ec Hid].
    destruct (resume_exact c a k u m 0 n Hok Eu Ec Hm) as (mp & E & Hwf & Hu' & Hn & Hm'). rewrite E. clear E.
    cbn [Z.eqb] in *. set (u' := answered _ _) in *.
    pose proof (cond_waiters_insert c k u u' (threads m) Eu Hu Hn) as Hc. set (m1 := set_threads _ _).
    assert (mac_ok m1) as Hok1 by (apply (mac_put k u' (set_tmaps mp m)); [now apply mac_maps | exact Hu']).
    destruct (broadcast_parks fuel c a (tid u) 1 m1 Hok1) as (mp' & E & Hok' & Hm2);
      [now apply share_mutex_insert | exact Hm' | exact Hid | change (threads m1) with (<[k := u']> (threads m)); lia |].
    assert (imap (woken c a None) (threads m1) = imap (woken c a (Some k)) (threads m)) as Ei.
    { apply (imap_woken c a (Some k) k u); [exact Eu | exact Hn | | congruence]. unfold woken. now rewrite !decide_True. }
    rewrite Ei in E, Hok'. exists (Some k), mp', (tid u), 1. split_and!; eauto.
  - pose proof (Hw (mk_current _ Hok)) as Hno. exists None, (tmaps m), 0, n. rewrite imap_unwoken by exact Hno.
    assert (set_threads (threads m) (set_tmaps (tmaps m) m) = m) as -> by now destruct m. split_and!; auto.
Qed.

(** ** Joins *)

Definition joins (id : Z) t : bool := match joining t with Some (g, _) => g =? id | None => false end.
Definition join_done (id : Z) t : ThreadContext X A := if joins id t then answered 0 (set_joining None t) else t.

Lemma join_done_ok id t : mac_thread t -> mac_thread (join_done id t).
Proof. intros Ht. unfold join_done. destruct (joins id t); [|exact Ht]. apply answered_ok. destruct Ht as (? & ? & _). now split_and!. Qed.

(** The loop completes the calls of the threads it has passed. *)
Lemma complete_joins_spec id value n s m :
  mac_ok m -> (s + n = length (threads m))%nat ->
  exists mp, complete_joins id value (seq s n) m
    = Ret (set_threads (take s (threads m) ++ (join_done id <$> drop s (threads m))) (set_tmaps mp m)) /\ wf mp.
Proof.
  revert s m. induction n as [|n IH]; intros s m Hok Hl; cbn [seq complete_joins].
  - exists (tmaps m). rewrite drop_ge, take_ge by lia. cbn. rewrite app_nil_r. split; [now destruct m | apply Hok].
  - destruct (lookup_lt_is_Some_2 (threads m) s ltac:(lia)) as [t Et]. unfold index. rewrite Et. cbn [mbind outcome_bind].
    pose proof (mk_threads _ Hok _ _ Et) as Ht. rewrite (drop_S _ _ _ Et). cbn [fmap list_fmap]. unfold join_done at 1, joins at 1.
    assert (forall t' mp, mac_thread t' -> wf mp ->
      exists mp', complete_joins id value (seq (Datatypes.S s) n) (set_threads (<[s := t']> (threads m)) (set_tmaps mp m))
        = Ret (set_threads (take s (threads m) ++ t' :: (join_done id <$> drop (Datatypes.S s) (threads m))) (set_tmaps mp' m)) /\ wf mp') as Hgo.
    { intros t' mp Ht' Hwf. destruct (IH (Datatypes.S s) (set_threads (<[s := t']> (threads m)) (set_tmaps mp m))) as (mp' & E & Hwf').
      - apply (mac_put s t' (set_tmaps mp m)); [now apply mac_maps | exact Ht'].
      - cbn. rewrite length_insert. lia.
      - exists mp'. split; [|exact Hwf']. rewrite E. cbn [threads set_threads set_tmaps].
        rewrite drop_insert_lt by lia. rewrite (take_S_r _ s t') by (apply list_lookup_insert_eq; lia).
        rewrite take_insert_ge by lia. now rewrite <- app_assoc. }
    assert (exists mp', complete_joins id value (seq (Datatypes.S s) n) m
        = Ret (set_threads (take s (threads m) ++ t :: (join_done id <$> drop (Datatypes.S s) (threads m))) (set_tmaps mp' m)) /\ wf mp') as Hskip.
    { destruct (Hgo t (tmaps m) Ht (mk_maps _ Hok)) as (mp' & E & Hwf'). exists mp'. split; [|exact Hwf'].
      rewrite <- E. f_equal. rewrite list_insert_id by exact Et. now destruct m. }
    destruct (joining t) as [[g p]|] eqn:Ej; [|exact Hskip]. destruct (g =? id); [|exact Hskip].
    assert (exists mp, (if p =? 0 then Ret m else write64 p value m) = Ret (set_tmaps mp m) /\ wf mp) as (mp & -> & Hwf).
    { destruct (p =? 0); [exists (tmaps m); split; [now destruct m | apply Hok]|].
      destruct (write_total p value m Hok) as (mp & Hwf & E); [apply (proj2 (proj2 Ht) g p Ej) | now exists mp]. }
    cbn [mbind outcome_bind]. assert (mac_thread (set_joining None t)) as Htj by (destruct Ht as (? & ? & _); now split_and!).
    rewrite put_x0_answered by exact Htj. cbn [mbind outcome_bind].
    rewrite put_thread_eq by (cbn; lia). cbn [mbind outcome_bind threads set_tmaps]. apply Hgo; [now apply answered_ok | exact Hwf].
Qed.
End Cond.

(** ** Results *)

Section Results.
Context {S X A W : Type} `{SlabLaws S}.
Implicit Types (m : Machine S X A W) (t : ThreadContext X A).

(** [pthread_mutex_lock], on every branch: a free mutex is taken by the caller, one
    level deep; its owner goes one level deeper, is told EDEADLK or is parked, as
    the kind of the mutex says; any other caller is parked and the mutex stays as it
    is. No other thread changes. *)
Theorem mutex_lock_correct m a o c t :
  mac_ok m -> abi_arg 0 m = Ret a -> mutex (tmaps m) a o c -> threads m !! current_thread_id m = Some t ->
  exists mp ts o' c', api_mutex_lock m = Ret (set_threads ts (set_tmaps mp m)) /\ wf mp /\ mutex mp a o' c' /\
    lock_outcome a o c m t ts o' c'.
Proof. apply lock_spec. Qed.

(** C28. pthread_mutex_unlock by the owner leaves one level, and at the last one
    hands the mutex to the waiter that comes first after the caller in turn, whose
    pending call returns 0, or leaves it free when nobody waits. *)
Theorem mutex_unlock_correct m a c t :
  mac_ok m -> abi_arg 0 m = Ret a -> threads m !! current_thread_id m = Some t -> mutex (tmaps m) a (tid t) c ->
  (exists mp ts o' c', api_mutex_unlock m = Ret (set_threads ts (set_tmaps mp m)) /\ wf mp /\ mutex mp a o' c' /\
    unlock_outcome a (tid t) c m ts o' c') /\
  match next_waiter a m with
  | Some k => first_in_turn (waits_for a) k m
  | None => forall u, u ∈ threads m -> ~ waits_for a u
  end.
Proof.
  intros Hok Ea Et Hm. split; [now apply unlock_spec|]. pose proof (next_waiter_spec a m) as Hw.
  destruct (next_waiter a m); [exact Hw | exact (Hw (mk_current _ Hok))].
Qed.

(** pthread_cond_broadcast ends, after at most one round per thread, whatever
    mutexes the waiters named: each of them returns 0 or waits for its mutex, nobody
    waits on the condition any more, and no other thread changes but for the
    caller's result. *)
Theorem cond_broadcast_ends fuel m c :
  mac_ok m -> abi_arg 0 m = Ret c -> (length (threads m) < fuel)%nat ->
  exists m1 m', api_cond_wake fuel true m = Some (Ret m') /\ mac_ok m1 /\
    threads m' = alter (answered 0) (current_thread_id m) (threads m1) /\
    Forall2 (signalled c) (threads m) (threads m1) /\ forall t, t ∈ threads m1 -> ~ waits_cond c t.
Proof.
  intros Hok Ea Hf. assert (cond_waiters c (threads m) <= length (threads m))%nat by apply length_filter.
  destruct (broadcast_ends fuel c m Hok) as (m1 & E & Hok1 & Ec & Hs & Hn); [lia|].
  unfold api_cond_wake. rewrite Ea, E. cbn [mbind outcome_bind]. rewrite (answer_alter 0 m1 Hok1), Ec.
  now eexists m1, _.
Qed.

(** C29. When the threads that wait on a condition gave the same mutex, in mapped
    memory, and have nonzero ids, pthread_cond_broadcast ends after at most one
    round per thread and leaves nobody waiting on the condition. If the mutex is
    free, the waiter that comes first after the caller in turn owns it afterwards
    (its id in the owner word, one level) and its pending call returns 0, while all
    other waiters queue for the mutex; if the mutex is owned, all of them queue for
    it and it stays as it is. No other thread changes but for the caller's result,
    0. *)
Theorem cond_broadcast_terminates fuel m c a o n :
  mac_ok m -> abi_arg 0 m = Ret c -> (length (threads m) < fuel)%nat ->
  mutex (tmaps m) a o n -> share_mutex c a (threads m) ->
  exists lucky mp o' n',
    api_cond_wake fuel true m
    = Some (Ret (set_threads (alter (answered 0) (current_thread_id m) (imap (woken c a lucky) (threads m))) (set_tmaps mp m))) /\
    wf mp /\ mutex mp a o' n' /\
    match lucky with
    | Some k => o = 0 /\ first_in_turn (waits_cond c) k m /\ (exists u, threads m !! k = Some u /\ o' = tid u) /\ n' = 1
    | None => (o <> 0 \/ forall t, t ∈ threads m -> ~ waits_cond c t) /\ o' = o /\ n' = n
    end.
Proof.
  intros Hok Ea Hf Hm Hsh. assert (cond_waiters c (threads m) <= length (threads m))%nat by apply length_filter.
  destruct (broadcast_exact fuel c a o n m) as (lucky & mp & o' & n' & E & Hok' & Hm' & Hl); auto; [lia|].
  exists lucky, mp, o', n'. unfold api_cond_wake. rewrite Ea, E. cbn [mbind outcome_bind]. rewrite (answer_alter 0 _ Hok').
  split; [reflexivity|]. split; [exact (mk_maps _ Hok') | auto].
Qed.

(** A thread that ends records its value and completes every pthread_join on it, and
    only those; the emulator stops exactly when no thread is left to run. *)
Theorem thread_exit_completes_joins m t value :
  mac_ok m -> threads m !! current_thread_id m = Some t ->
  exists mp, wf mp /\
    let ts := join_done (tid t) <$> <[current_thread_id m := set_exit_value (Some value) t]> (threads m) in
    let m' := set_threads ts (set_tmaps mp m) in
    thread_exit value m = Ret (if forallb (fun u => negb (is_none (exit_value u))) ts then stop m' else m').
Proof.
  intros Hok Et. unfold thread_exit. rewrite (current_eq m t Et). cbn [mbind outcome_bind].
  rewrite put_current_eq by exact (mk_current _ Hok). cbn [mbind outcome_bind].
  set (m1 := set_threads _ m). assert (mac_ok m1) as Hok1 by (apply mac_put; [exact Hok | exact (mk_threads _ Hok _ _ Et)]).
  destruct (complete_joins_spec (tid t) value (length (threads m1)) 0 m1 Hok1) as (mp & E & Hwf); [lia|].
  exists mp. split; [exact Hwf|]. rewrite E. reflexivity.
Qed.
End Results.
