(* ===== verification/MacSamples.v ===== *)
(** * Sample POSIX threads

    Threads with a mutex at [0x1000], on which the theorems of MacSpec.v are
    applied, and a run of fork and [pthread_create]. *)

From stdpp Require Import gmap strings.
From S2P Require Import Prelude Scalar Mem64 Slab Tlb Maps MapsInv MapsRun Regs Heap.
From S2P Require Import Threads SchedSpec LocksSpec ThreadSamples MacThreads MacSpec Process ProcessSamples.

(** A thread whose first argument is [a] *)
Definition arm_thread (i : nat) (a : Z) : sample_thread := new_thread (0x1000 + Z.of_nat i) (AArch64 (a :: replicate 30 0) 0 0 tt).

Lemma arm_thread_ok i a : (i < 16)%nat -> mac_thread (arm_thread i a).
Proof. intros Hi. split; [now exists (a :: replicate 30 0), 0, 0, tt; split; [|cbn; lia]|]. split; [unfold is_word; cbn; lia | discriminate]. Qed.

(** The first thread runs, the second waits for the mutex, the third on the condition at
    [0x1018] and for the first to end. *)
Definition arm_threads : list sample_thread :=
  [arm_thread 0 0x1000; set_lock (Some 0x1000) (arm_thread 1 0);
   set_cond (Some (0x1018, 0x1000)) (arm_thread 2 0)].
Definition arm_machine (mp : sample_maps) : sample_machine :=
  set_tmaps mp (machine_of arm_threads).

Lemma arm_machine_ok mp : wf mp -> mac_ok (arm_machine mp).
Proof.
  intros Hwf. split; [exact Hwf | cbn; lia |]. intros [|[|[|i]]] t Et; [injection Et as <- .. | discriminate Et];
    first [exact (arm_thread_ok 0 0x1000 ltac:(lia)) | exact (arm_thread_ok 1 0 ltac:(lia)) | exact (arm_thread_ok 2 0 ltac:(lia))].
Qed.

(** Memory in which the first thread owns the mutex *)
Definition owned_memory : sample_maps :=
  match (m ← write_scalar 8 0x1008 0x1000 sample; write_scalar 4 0x1010 1 m.2) with Ret (_, m) => m | Panic => sample end.

Lemma free_mutex : mutex sample 0x1000 0 0.
Proof. split; [lia | split; [vm_compute; reflexivity .. | apply is_wordb_spec; vm_compute; reflexivity] | split; [vm_compute; reflexivity .. | apply is_wordb_spec; vm_compute; reflexivity]]. Qed.

Lemma owned_wf : wf owned_memory.
Proof.
  destruct (write_scalar_spec 8 0x1008 0x1000 sample sample_wf) as (m1 & E1 & Hw1 & _); [lia | lia |].
  destruct (write_scalar_spec 4 0x1010 1 m1 Hw1) as (m2 & E2 & Hw2 & _); [lia | lia |].
  unfold owned_memory. rewrite E1. cbn [mbind outcome_bind snd]. now rewrite E2.
Qed.

Lemma owned_mutex : mutex owned_memory 0x1000 0x1000 1.
Proof. split; [lia | split; [vm_compute; reflexivity .. | apply is_wordb_spec; vm_compute; reflexivity] | split; [vm_compute; reflexivity .. | apply is_wordb_spec; vm_compute; reflexivity]]. Qed.

Lemma mutex_lock_correct_witness :
  exists mp ts o' c', api_mutex_lock (arm_machine sample) = Ret (set_threads ts (set_tmaps mp (arm_machine sample))) /\ wf mp /\
    mutex mp 0x1000 o' c' /\ lock_outcome 0x1000 0 0 (arm_machine sample) (arm_thread 0 0x1000) ts o' c'.
Proof. exact (mutex_lock_correct (arm_machine sample) 0x1000 0 0 (arm_thread 0 0x1000) (arm_machine_ok _ sample_wf) eq_refl free_mutex eq_refl). Defined.

Lemma mutex_unlock_correct_witness :
  exists mp ts o' c', api_mutex_unlock (arm_machine owned_memory) = Ret (set_threads ts (set_tmaps mp (arm_machine owned_memory))) /\
    wf mp /\ mutex mp 0x1000 o' c' /\ unlock_outcome 0x1000 0x1000 1 (arm_machine owned_memory) ts o' c'.
Proof.
  exact (proj1 (mutex_unlock_correct (arm_machine owned_memory) 0x1000 1 (arm_thread 0 0x1000) (arm_machine_ok _ owned_wf) eq_refl eq_refl owned_mutex)).
Defined.

(** The first thread broadcasts the condition on which the two others wait, having given up the mutex. *)
Definition waiters : list sample_thread :=
  [arm_thread 0 0x1018; set_cond (Some (0x1018, 0x1000)) (arm_thread 1 0); set_cond (Some (0x1018, 0x1000)) (arm_thread 2 0)].
Definition broadcaster : sample_machine := set_threads waiters (arm_machine sample).

Lemma broadcaster_ok : mac_ok broadcaster.
Proof.
  split; [exact sample_wf | cbn; lia |]. intros [|[|[|i]]] t Et; [injection Et as <- .. | discriminate Et];
    first [exact (arm_thread_ok 0 0x1018 ltac:(lia)) | exact (arm_thread_ok 1 0 ltac:(lia)) | exact (arm_thread_ok 2 0 ltac:(lia))].
Qed.

Lemma waiters_share : share_mutex 0x1018 0x1000 waiters.
Proof.
  intros t [i Ei]%list_elem_of_lookup Hw. destruct i as [|[|[|i]]]; [injection Ei as <- .. | discriminate Ei];
    [discriminate Hw | split; [reflexivity | discriminate] ..].
Qed.

(** One of them gets it, the other queues. *)
Lemma cond_broadcast_terminates_witness :
  exists k mp id, api_cond_wake 4 true broadcaster
    = Some (Ret (set_threads (alter (answered 0) 0%nat (imap (woken 0x1018 0x1000 (Some k)) waiters)) (set_tmaps mp broadcaster))) /\
    first_in_turn (waits_cond 0x1018) k broadcaster /\ mutex mp 0x1000 id 1.
Proof.
  destruct (cond_broadcast_terminates 4 broadcaster 0x1018 0x1000 0 0 broadcaster_ok eq_refl ltac:(cbn; lia) free_mutex waiters_share)
    as (lucky & mp & o' & n' & E & _ & Hm & Hl).
  destruct lucky as [k|]; [destruct Hl as (_ & Hk & _ & ->); exists k, mp, o'; split; [exact E | split; [exact Hk | exact Hm]]|].
  destruct Hl as ([Hne|Hno] & _); [now destruct Hne|]. exfalso.
  apply (Hno (set_cond (Some (0x1018, 0x1000)) (arm_thread 1 0))); [|reflexivity]. right. left.
Defined.

Lemma thread_exit_completes_joins_witness :
  exists mp, wf mp /\
    let ts := join_done 0x1000 <$> <[0%nat := set_exit_value (Some 7) (arm_thread 0 0x1000)]> arm_threads in
    let m' := set_threads ts (set_tmaps mp (arm_machine sample)) in
    thread_exit 7 (arm_machine sample) = Ret (if forallb (fun u => negb (is_none (exit_value u))) ts then stop m' else m').
Proof. exact (thread_exit_completes_joins (arm_machine sample) (arm_thread 0 0x1000) 7 (arm_machine_ok _ sample_wf) eq_refl). Defined.

(** ** Runs *)

(** In a child forked from the second thread, a new thread gets the caller's own id. *)
Definition forking_parent : Machine (gmap nat Mem64) unit unit (ProcWorld (gmap nat Mem64) unit unit unit unit) :=
  mkMachine [arm_thread 0 0; arm_thread 1 0] 1 0 0 0
    (match create_map SENTINEL_MAP 0x3000 0x10 Perm.READ_WRITE_EXECUTE sample with Ret (_, m) => m | Panic => sample end)
    ∅ [] 0 (mkTConfig 0 false false true false) true false 1 (mkWorld [] None [] 0 new_table tt).

Lemma forked_child_repeats_id :
  match (r ← fork_begin pick_last forking_parent; api_pthread_create r.2) with
  | Ret m => tid <$> threads m = [0x1001; 0x1001]
  | Panic => False
  end.
Proof. vm_compute. reflexivity. Qed.
