(* ===== verification/KernelGuard.v ===== *)
(** * The memory-safety guard of emulated kernels ([kernel/])

    The ledger of allocations (kernel/heap.rs), the address-space plan
    (kernel/layout.rs), the verdicts on memory accesses (kernel/guard.rs) and
    the operations of kernel/mod.rs that allocate, free and run deferred
    callbacks.  A freed chunk is never handed out again: it stays mapped,
    poisoned and attributed, so that a stale access can be reported.

    [Guarded] is the part of [struct Emu] they use; the parts of [KernelEnv] that
    they do not touch are the type [V].  Logging is left out. *)

From stdpp Require Import gmap strings pretty.
From S2P Require Import Prelude Scalar Mem64 Slab Tlb Maps.

(** ** Layout *)

Inductive KernelOs := KLinux | KWindows | KMacOS.

(** [struct KernelLayout] *)
Record KernelLayout := mkLayout {
  stub_base : Z;
  stub_size : Z;
  data_base : Z;
  data_size : Z;
  module_base : Z;
  heap_base : Z;
  heap_size : Z;
  vmalloc_base : Z;
  vmalloc_size : Z;
  stack_base : Z;
  stack_size : Z }.

Definition STUB_SLOT : Z := 16.
Definition HEAP_REDZONE : Z := 0x1000.

(** [KernelLayout::for_os] *)
Definition for_os (os : KernelOs) : KernelLayout :=
  match os with
  | KLinux =>
      mkLayout 0xffffffff81000000 0x100000 0xffffffff82000000 0x100000 0xffffffffc0000000
        0xffff888000000000 0x10000000 0xffffc90000000000 0x10000000 0xffffc90000100000 0x20000
  | KWindows =>
      mkLayout 0xfffff80000000000 0x100000 0xfffff80000200000 0x100000 0xfffff80000400000
        0xffffe00000000000 0x10000000 0xffffe10000000000 0x10000000 0xffffe20000000000 0x20000
  | KMacOS =>
      mkLayout 0xffffff8000200000 0x100000 0xffffff8000400000 0x100000 0xffffff8000600000
        0xffffff9000000000 0x10000000 0xffffff9100000000 0x10000000 0xffffff9200000000 0x20000
  end.

(** [KernelLayout::retpad], [KernelLayout::is_stub] *)
Definition retpad (l : KernelLayout) : Z := wadd (stub_base l) (stub_size l).
Definition is_stub (addr : Z) (l : KernelLayout) : bool :=
  (stub_base l <=? addr) && (addr <? wadd (stub_base l) (stub_size l)).

(** ** The ledger *)

(** [enum Region], [enum ChunkState] *)
Inductive Region := Slab_ | Vmalloc | Pages.
Inductive ChunkState := Live | Freed.

#[export] Instance ChunkState_eq_dec : EqDecision ChunkState.
Proof. solve_decision. Defined.

(** [Region::label] *)
Definition region_label (r : Region) : string :=
  match r with Slab_ => "slab" | Vmalloc => "vmalloc" | Pages => "pages" end.

(** [struct KernelChunk] *)
Record KernelChunk := mkChunk {
  c_addr : Z;
  c_size : Z;
  c_req_size : Z;
  c_region : Region;
  c_state : ChunkState;
  c_cache : string;
  c_map_name : string;
  c_alloc_api : string;
  c_alloc_pos : Z;
  c_alloc_rip : Z;
  c_free_api : string;
  c_free_pos : Z;
  c_free_rip : Z }.

(** [KernelChunk::contains], [offset_of], [is_freed] *)
Definition contains (a : Z) (c : KernelChunk) : bool := (c_addr c <=? a) && (a <? wadd (c_addr c) (c_size c)).
Definition offset_of (a : Z) (c : KernelChunk) : Z := wsub a (c_addr c).
Definition is_freed (c : KernelChunk) : bool := bool_decide (c_state c = Freed).

(** [struct KernelHeap] *)
Record KernelHeap := mkKHeap {
  slab_cursor : Z;
  slab_end : Z;
  vmalloc_cursor : Z;
  vmalloc_end : Z;
  chunks : list KernelChunk;
  serial : Z }.

(** [KernelHeap::new] *)
Definition kheap_new (sb ss vb vs : Z) : KernelHeap := mkKHeap sb (wadd sb ss) vb (wadd vb vs) [] 0.

(** [u64::next_multiple_of] *)
Definition next_multiple_of (n x : Z) : Z := if x mod n =? 0 then x else wadd x (n - x mod n).

Definition BUCKETS : list Z := [8; 16; 32; 64; 96; 128; 192; 256; 512; 1024; 2048; 4096].

(** [KernelHeap::bucket] *)
Fixpoint bucket_in (size : Z) (bs : list Z) : Z :=
  match bs with
  | [] => next_multiple_of 0x1000 size
  | b :: bs => if size <=? b then b else bucket_in size bs
  end.
Definition bucket (size : Z) : Z := bucket_in size BUCKETS.

(** The bytes that a request takes *)
Definition chunk_size (r : Region) (req : Z) : Z :=
  match r with Slab_ => bucket (Z.max req 1) | Vmalloc | Pages => next_multiple_of 0x1000 (Z.max req 1) end.

(** [KernelHeap::record_alloc]: the new chunk is the last of the list. *)
Definition record_alloc (r : Region) (req : Z) (cache api : string) (pos rip : Z) (h : KernelHeap)
    : option KernelChunk * KernelHeap :=
  let size := chunk_size r req in
  let '(cursor, end_) := match r with
                         | Slab_ => (slab_cursor h, slab_end h)
                         | Vmalloc | Pages => (vmalloc_cursor h, vmalloc_end h)
                         end in
  let addr := next_multiple_of 16 cursor in
  let next := wadd (wadd addr size) HEAP_REDZONE in
  if end_ <? next then (None, h)
  else
    let n := wadd (serial h) 1 in
    let c := mkChunk addr size req r Live cache (cache +:+ "#" +:+ pretty (Z.to_N n)) api pos rip "" 0 0 in
    let cs := chunks h ++ [c] in
    (last cs,
     match r with
     | Slab_ => mkKHeap next (slab_end h) (vmalloc_cursor h) (vmalloc_end h) cs n
     | Vmalloc | Pages => mkKHeap (slab_cursor h) (slab_end h) next (vmalloc_end h) cs n
     end).

(** [slice::partition_point] (std): a binary search for the end of the prefix on which the
    predicate holds.  The loop halves [size], so that [size] rounds are enough. *)
Fixpoint search_loop {T} (pred : T -> bool) (l : list T) (fuel size base : nat) : nat :=
  match fuel with
  | O => base
  | Datatypes.S fuel =>
      if (size <=? 1)%nat then base
      else
        let half := (size / 2)%nat in
        let mid := (base + half)%nat in
        match l !! mid with
        | Some x => search_loop pred l fuel (size - half) (if pred x then mid else base)
        | None => base
        end
  end.
Definition partition_point {T} (pred : T -> bool) (l : list T) : nat :=
  match l with
  | [] => O
  | _ =>
      let base := search_loop pred l (length l) (length l) 0 in
      match l !! base with Some x => if pred x then Datatypes.S base else base | None => base end
  end.

(** [KernelHeap::index_of], [index_of_base], [get], [chunk_at] *)
Definition index_of (a : Z) (h : KernelHeap) : outcome (option nat) :=
  match partition_point (fun c => c_addr c <=? a) (chunks h) with
  | O => Ret None
  | Datatypes.S i => c ← index i (chunks h); Ret (if contains a c then Some i else None)
  end.
Definition index_of_base (a : Z) (h : KernelHeap) : option nat :=
  fst <$> list_find (fun c => c_addr c = a) (chunks h).
Definition get (i : nat) (h : KernelHeap) : outcome KernelChunk := index i (chunks h).
Definition chunk_at (a : Z) (h : KernelHeap) : outcome (option KernelChunk) :=
  i ← index_of a h;
  match i with Some i => c ← index i (chunks h); Ret (Some c) | None => Ret None end.

(** [KernelHeap::record_free] *)
Definition freed (api : string) (pos rip : Z) (c : KernelChunk) : KernelChunk :=
  mkChunk (c_addr c) (c_size c) (c_req_size c) (c_region c) Freed (c_cache c) (c_map_name c)
    (c_alloc_api c) (c_alloc_pos c) (c_alloc_rip c) api pos rip.
Definition set_chunks (cs : list KernelChunk) (h : KernelHeap) : KernelHeap :=
  mkKHeap (slab_cursor h) (slab_end h) (vmalloc_cursor h) (vmalloc_end h) cs (serial h).
Definition record_free (i : nat) (api : string) (pos rip : Z) (h : KernelHeap) : outcome KernelHeap :=
  c ← index i (chunks h);
  cs ← index_set i (freed api pos rip c) (chunks h);
  Ret (set_chunks cs h).

(** [KernelHeap::live], [live_bytes] *)
Definition live (h : KernelHeap) : list KernelChunk := filter (fun c => is_freed c = false) (chunks h).
Definition live_bytes (h : KernelHeap) : Z := foldl (fun acc c => wadd acc (c_size c)) 0 (live h).

(** ** Findings *)

Definition POISON_FREE : Z := 0x6b.

(** [is_free_poison] *)
Definition is_free_poison (a : Z) : bool :=
  let page x := Z.land x (bnot 64 0xfff) in
  (page a =? page 0x6b6b6b6b6b6b6b6b) || (page a =? page 0x6b6b6b6b).

(** [enum FindingKind] *)
Inductive FindingKind :=
  | UseAfterFree | WriteAfterFree | FreedFunctionPointerCall | PoisonDereference
  | DoubleFree | InvalidFree | HeapOverflow | Leak.

#[export] Instance FindingKind_eq_dec : EqDecision FindingKind.
Proof. solve_decision. Defined.

(** [FindingKind::is_use_after_free] *)
Definition is_use_after_free (k : FindingKind) : bool :=
  match k with
  | UseAfterFree | WriteAfterFree | FreedFunctionPointerCall | PoisonDereference => true
  | _ => false
  end.

(** [struct ChunkOrigin] and its [Default] and [From<&KernelChunk>] *)
Record ChunkOrigin := mkOrigin {
  o_addr : Z;
  o_size : Z;
  o_req_size : Z;
  o_cache : string;
  o_alloc_api : string;
  o_alloc_pos : Z;
  o_alloc_rip : Z;
  o_free_api : string;
  o_free_pos : Z;
  o_free_rip : Z }.
Definition origin_default : ChunkOrigin := mkOrigin 0 0 0 "" "" 0 0 "" 0 0.
Definition origin_from (c : KernelChunk) : ChunkOrigin :=
  mkOrigin (c_addr c) (c_size c) (c_req_size c) (c_cache c) (c_alloc_api c) (c_alloc_pos c) (c_alloc_rip c)
    (c_free_api c) (c_free_pos c) (c_free_rip c).

(** [struct Finding] *)
Record Finding := mkFinding {
  f_kind : FindingKind;
  f_pos : Z;
  f_rip : Z;
  f_addr : Z;
  f_size : Z;
  f_origin : ChunkOrigin;
  f_hits : Z }.

(** A callback the driver postponed: [struct DeferredCall] *)
Record DeferredCall := mkDeferred { d_kind : string; d_func : Z; d_arg : Z }.

(** ** State *)

(** [struct KernelEnv] *)
Record KernelEnv (V : Type) := mkEnv {
  heap : KernelHeap;
  findings : list Finding;
  ledger_only : bool;
  deferred : list DeferredCall;
  alloc_count : Z;
  fail_alloc_index : option Z;
  layout_of : KernelLayout;
  env_rest : V }.
Arguments mkEnv {V}. Arguments heap {V}. Arguments findings {V}. Arguments ledger_only {V}.
Arguments deferred {V}. Arguments alloc_count {V}. Arguments fail_alloc_index {V}.
Arguments layout_of {V}. Arguments env_rest {V}.

Record Guarded (S V : Type) := mkGuarded {
  gmaps : Maps S;
  kernel : option (KernelEnv V);
  kernel_guard : bool;
  gpos : Z;
  gpc : Z }.
Arguments mkGuarded {S V}. Arguments gmaps {S V}. Arguments kernel {S V}. Arguments kernel_guard {S V}.
Arguments gpos {S V}. Arguments gpc {S V}.

Section Env.
Context {V : Type}.
Implicit Types (k : KernelEnv V).

Definition set_heap (v : KernelHeap) k : KernelEnv V :=
  mkEnv v (findings k) (ledger_only k) (deferred k) (alloc_count k) (fail_alloc_index k) (layout_of k) (env_rest k).
Definition set_findings (v : list Finding) k : KernelEnv V :=
  mkEnv (heap k) v (ledger_only k) (deferred k) (alloc_count k) (fail_alloc_index k) (layout_of k) (env_rest k).
Definition set_deferred (v : list DeferredCall) k : KernelEnv V :=
  mkEnv (heap k) (findings k) (ledger_only k) v (alloc_count k) (fail_alloc_index k) (layout_of k) (env_rest k).
Definition set_count (v : Z) k : KernelEnv V :=
  mkEnv (heap k) (findings k) (ledger_only k) (deferred k) v (fail_alloc_index k) (layout_of k) (env_rest k).
Definition set_fail (v : option Z) k : KernelEnv V :=
  mkEnv (heap k) (findings k) (ledger_only k) (deferred k) (alloc_count k) v (layout_of k) (env_rest k).

(** [KernelEnv::new], given the parts that are not modelled *)
Definition kenv_new (os : KernelOs) (v : V) : KernelEnv V :=
  let l := for_os os in
  mkEnv (kheap_new (heap_base l) (heap_size l) (vmalloc_base l) (vmalloc_size l)) [] false [] 0 None l v.
End Env.

(** ** Operations *)

Section Guard.
Context {S V : Type} `{Slab S}.
Implicit Types (g : Guarded S V).

Definition set_kernel (v : option (KernelEnv V)) g : Guarded S V :=
  mkGuarded (gmaps g) v (kernel_guard g) (gpos g) (gpc g).
Definition set_gmaps (v : Maps S) g : Guarded S V :=
  mkGuarded v (kernel g) (kernel_guard g) (gpos g) (gpc g).

(** [Emu::memory_guard_init] *)
Definition memory_guard_init (os : KernelOs) (v : V) g : Guarded S V :=
  match kernel g with
  | Some _ => g
  | None =>
      let k := kenv_new os v in
      let k := mkEnv (heap k) (findings k) true (deferred k) (alloc_count k) (fail_alloc_index k) (layout_of k) (env_rest k) in
      mkGuarded (gmaps g) (Some k) true (gpos g) (gpc g)
  end.

(** What [kernel_report] takes for a repeat *)
Definition same_finding (kind : FindingKind) (rip addr : Z) (f : Finding) : bool :=
  bool_decide (f_kind f = kind) && (f_rip f =? rip) && (o_addr (f_origin f) =? addr).

Definition hit (f : Finding) : Finding :=
  mkFinding (f_kind f) (f_pos f) (f_rip f) (f_addr f) (f_size f) (f_origin f) (wadd (f_hits f) 1).

(** The first repeat gets the hit; without one the finding is new. *)
Fixpoint add_finding (new : Finding) (fs : list Finding) : list Finding :=
  match fs with
  | [] => [new]
  | f :: fs => if same_finding (f_kind new) (f_rip new) (o_addr (f_origin new)) f then hit f :: fs else f :: add_finding new fs
  end.

(** [Emu::kernel_report] *)
Definition kernel_report (kind : FindingKind) (rip addr bytes : Z) (origin : ChunkOrigin) g : Guarded S V :=
  match kernel g with
  | None => g
  | Some k => set_kernel (Some (set_findings (add_finding (mkFinding kind (gpos g) rip addr bytes origin 1) (findings k)) k)) g
  end.

(** [Emu::kernel_guard_access] *)
Definition kernel_guard_access (rip addr bytes : Z) (is_write : bool) g : outcome (Guarded S V) :=
  match kernel g with
  | None => Ret g
  | Some k =>
      if is_free_poison addr then
        let o := origin_default in
        let origin := mkOrigin (o_addr o) (o_size o) (o_req_size o) "freed object" (o_alloc_api o) (o_alloc_pos o) (o_alloc_rip o)
                        (o_free_api o) (o_free_pos o) (o_free_rip o) in
        Ret (kernel_report PoisonDereference rip addr bytes origin g)
      else
        i ← index_of addr (heap k);
        match i with
        | None => Ret g
        | Some i =>
            c ← get i (heap k);
            if is_freed c then
              Ret (kernel_report (if is_write then WriteAfterFree else UseAfterFree) rip addr bytes (origin_from c) g)
            else if c_req_size c <=? offset_of addr c then
              Ret (kernel_report HeapOverflow rip addr bytes (origin_from c) g)
            else Ret g
        end
  end.

(** [Emu::kernel_guard_range] *)
Definition kernel_guard_range (rip addr len_ : Z) (is_write : bool) g : outcome (Guarded S V) :=
  if len_ =? 0 then Ret g
  else
    match kernel g with
    | None => Ret g
    | Some k =>
        i ← index_of addr (heap k);
        match i with
        | None => Ret g
        | Some i =>
            c ← get i (heap k);
            let off := offset_of addr c in
            if is_freed c then
              Ret (kernel_report (if is_write then WriteAfterFree else UseAfterFree) rip addr (wrap 32 len_) (origin_from c) g)
            else if c_req_size c <? wadd off len_ then
              Ret (kernel_report HeapOverflow rip (wadd (c_addr c) (c_req_size c)) (wrap 32 len_) (origin_from c) g)
            else Ret g
        end
    end.

(** [Emu::kernel_findings], [Emu::kernel_found_uaf] *)
Definition kernel_findings g : list Finding := match kernel g with Some k => findings k | None => [] end.
Definition kernel_found_uaf g : bool := existsb (fun f => is_use_after_free (f_kind f)) (kernel_findings g).

(** [Emu::kernel_check_leaks] *)
Definition kernel_check_leaks g : Guarded S V :=
  match kernel g with
  | None => g
  | Some k => foldl (fun g o => kernel_report Leak (o_alloc_rip o) (o_addr o) 0 o g) g (origin_from <$> live (heap k))
  end.

(** [Emu::kernel_check_call_target] *)
Definition kernel_check_call_target (target : Z) g : outcome (Guarded S V) :=
  match kernel g with
  | None => Ret g
  | Some k =>
      c ← chunk_at target (heap k);
      match c with
      | Some c => if is_freed c then Ret (kernel_report FreedFunctionPointerCall (gpc g) target 0 (origin_from c) g) else Ret g
      | None => Ret g
      end
  end.

(** [Emu::kernel_set_fail_alloc], [Emu::kernel_alloc_count] *)
Definition kernel_set_fail_alloc (i : option Z) g : Guarded S V :=
  match kernel g with Some k => set_kernel (Some (set_fail i k)) g | None => g end.
Definition kernel_alloc_count g : Z := match kernel g with Some k => alloc_count k | None => 0 end.

(** [Emu::kernel_alloc] *)
Definition kernel_alloc (r : Region) (req : Z) (cache api : string) (zeroed : bool) g : outcome (Z * Guarded S V) :=
  match kernel g with
  | None => Ret (0, g)
  | Some k =>
      let this_idx := alloc_count k in
      let k := set_count (wadd (alloc_count k) 1) k in
      if bool_decide (fail_alloc_index k = Some this_idx) then Ret (0, set_kernel (Some k) g)
      else
        let '(c, h) := record_alloc r req cache api (gpos g) (gpc g) (heap k) in
        let g := set_kernel (Some (set_heap h k)) g in
        match c with
        | None => Ret (0, g)
        | Some c =>
            '(res, mp) ← create_map (c_map_name c) (c_addr c) (c_size c) Perm.READ_WRITE (gmaps g);
            match res with
            | inl _ => Ret (0, set_gmaps mp g)
            | inr key =>
                match slab_get (mem_slab mp) key with
                | None => Panic
                | Some mem =>
                    let bs := replicate (Z.to_nat (c_size c)) (if zeroed then 0 else 0x5a) in
                    mem ← Mem.write_bytes (c_addr c) bs mem;
                    Ret (c_addr c, set_gmaps (put_mem key mem mp) g)
                end
            end
        end
  end.

(** [Emu::kernel_free] *)
Definition kernel_free (ptr : Z) (api : string) g : outcome (bool * Guarded S V) :=
  if ptr =? 0 then Ret (true, g)
  else
    match kernel g with
    | None => Ret (false, g)
    | Some k =>
        match index_of_base ptr (heap k) with
        | None =>
            c ← chunk_at ptr (heap k);
            let origin := default origin_default (origin_from <$> c) in
            Ret (false, kernel_report InvalidFree (gpc g) ptr 0 origin g)
        | Some i =>
            c ← get i (heap k);
            if is_freed c then Ret (false, kernel_report DoubleFree (gpc g) ptr 0 (origin_from c) g)
            else
              h ← record_free i api (gpos g) (gpc g) (heap k);
              let g := set_kernel (Some (set_heap h k)) g in
              '(r, mp) ← get_mem_by_addr_mut (c_addr c) (gmaps g);
              match r with
              | None => Ret (true, set_gmaps mp g)
              | Some (key, mem) =>
                  mem ← Mem.force_write_bytes (c_addr c) (replicate (Z.to_nat (c_size c)) POISON_FREE) mem;
                  Ret (true, set_gmaps (put_mem key mem mp) g)
              end
        end
    end.

(** [Emu::kernel_defer] *)
Definition kernel_defer (c : DeferredCall) g : Guarded S V :=
  if d_func c =? 0 then g
  else match kernel g with Some k => set_kernel (Some (set_deferred (deferred k ++ [c]) k)) g | None => g end.

(** Calling into driver code ([Emu::kernel_call]) *)
Variable kernel_call : Z -> list Z -> Guarded S V -> Guarded S V.

(** [Emu::kernel_run_deferred]: how many callbacks ran *)
Fixpoint run_rounds (rounds : nat) g : nat * Guarded S V :=
  match rounds with
  | O => (O, g)
  | Datatypes.S rounds =>
      match kernel g with
      | None => (O, g)
      | Some k =>
          match deferred k with
          | [] => (O, g)
          | c :: cs =>
              let '(n, g) := run_rounds rounds (kernel_call (d_func c) [d_arg c] (set_kernel (Some (set_deferred cs k)) g)) in
              (Datatypes.S n, g)
          end
      end
  end.
Definition MAX_ROUNDS : nat := 64.
Definition kernel_run_deferred g : nat * Guarded S V := run_rounds MAX_ROUNDS g.
End Guard.
