(* ===== verification/KernelSpec.v ===== *)
(** * What the memory-safety guard promises

    The ledger keeps its chunks apart, what the guard reports of an access is what
    the state of the chunk calls for, and as long as the chunks are in ascending
    order the search finds the chunk that owns an address. *)

From stdpp Require Import gmap strings pretty.
From S2P Require Import Prelude Scalar Mem64 Slab Tlb Maps MapsInv MapsLife KernelGuard.

(** ** The binary search *)

Section Search.
Context {T : Type} (pred : T -> bool) (l : list T) (k : nat).

(** The predicate holds exactly on the first [k] elements. *)
Definition partitioned : Prop := (k <= length l)%nat /\ forall i x, l !! i = Some x -> pred x = true <-> (i < k)%nat.

Hypothesis Hp : partitioned.

Lemma search_loop_spec fuel size base :
  (size <= fuel)%nat -> (1 <= size)%nat -> (base + size <= length l)%nat -> (base < k \/ base = 0)%nat -> (k <= base + size)%nat ->
  let b := search_loop pred l fuel size base in (b < length l)%nat /\ (b < k \/ b = 0)%nat /\ (k <= b + 1)%nat.
Proof.
  destruct Hp as [Hk Hpred]. revert size base. induction fuel as [|fuel IH]; intros size base Hf Hs Hl Hb Hkb; [lia|].
  cbn [search_loop]. destruct (Nat.leb_spec size 1); [cbn; lia|].
  assert (1 <= size / 2 < size)%nat as Hh by (split; [apply Nat.div_le_lower_bound; lia | apply Nat.div_lt; lia]).
  pose proof (Nat.Div0.mul_div_le size 2).
  destruct (lookup_lt_is_Some_2 l (base + size / 2)) as [x Ex]; [lia|]. rewrite Ex. specialize (Hpred _ _ Ex).
  destruct (pred x).
  - pose proof (proj1 Hpred eq_refl). apply IH; lia.
  - assert (~ (base + size / 2 < k))%nat by (now rewrite <- Hpred). apply IH; lia.
Qed.

Lemma partition_point_spec : partition_point pred l = k.
Proof.
  destruct Hp as [Hk Hpred]. unfold partition_point. destruct l as [|y l'] eqn:El; [cbn in Hk; lia|]. rewrite <- El in *.
  assert (length l = Datatypes.S (length l')) as Hlen by now rewrite El.
  destruct (search_loop_spec (length l) (length l) 0) as (Hb & Hlo & Hhi); try lia.
  set (b := search_loop _ _ _ _ _) in *. destruct (lookup_lt_is_Some_2 l b Hb) as [x Ex]. rewrite Ex. specialize (Hpred _ _ Ex).
  destruct (pred x); [pose proof (proj1 Hpred eq_refl); lia|]. assert (~ (b < k))%nat by (now rewrite <- Hpred). lia.
Qed.
End Search.

Lemma search_loop_lt {T} (pred : T -> bool) l fuel size base :
  (base < length l)%nat -> (search_loop pred l fuel size base < length l)%nat.
Proof.
  revert size base. induction fuel as [|fuel IH]; intros size base Hb; cbn; [exact Hb|]. destruct (_ <=? 1)%nat; [exact Hb|].
  destruct (l !! _) as [x|] eqn:Ex; [|exact Hb]. apply IH. destruct (pred x); [now apply lookup_lt_Some in Ex | exact Hb].
Qed.

Lemma partition_point_le {T} (pred : T -> bool) l : (partition_point pred l <= length l)%nat.
Proof.
  unfold partition_point. destruct l as [|y l]; [lia|]. pose proof (search_loop_lt pred (y :: l) (length (y :: l)) (length (y :: l)) 0 ltac:(cbn; lia)).
  destruct (_ !! _) as [x|]; [destruct (pred x)|]; lia.
Qed.

(** ** The ledger *)

(** [c] and [c'] are at least a redzone apart. *)
Definition apart (c c' : KernelChunk) : Prop :=
  c_addr c + c_size c + HEAP_REDZONE <= c_addr c' \/ c_addr c' + c_size c' + HEAP_REDZONE <= c_addr c.

Definition is_slab (r : Region) : bool := match r with Slab_ => true | _ => false end.

Definition region_start (sb vb : Z) (r : Region) : Z := if is_slab r then sb else vb.
Definition cursor_of (r : Region) (h : KernelHeap) : Z := if is_slab r then slab_cursor h else vmalloc_cursor h.
Definition end_of (r : Region) (h : KernelHeap) : Z := if is_slab r then slab_end h else vmalloc_end h.

(** A chunk lies between the start of its region and the cursor, with its redzone. *)
Record chunk_ok (sb vb : Z) (h : KernelHeap) (c : KernelChunk) : Prop := {
  ch_start : region_start sb vb (c_region c) <= c_addr c;
  ch_end : c_addr c + c_size c + HEAP_REDZONE <= cursor_of (c_region c) h;
  ch_size : 0 < c_size c;
  ch_req : 0 <= c_req_size c <= c_size c }.

(** The slab region ends before the vmalloc region starts; chunks of a region follow each other.
    The end of the address space is out of reach of any request. *)
Record ledger_ok (sb vb : Z) (h : KernelHeap) : Prop := {
  lk_slab : 0 < sb <= slab_cursor h /\ slab_cursor h <= slab_end h;
  lk_vmalloc : slab_end h <= vb <= vmalloc_cursor h /\ vmalloc_cursor h <= vmalloc_end h;
  lk_top : vmalloc_end h + 2 ^ 33 <= 2 ^ 64;
  lk_chunks : forall c, c ∈ chunks h -> chunk_ok sb vb h c;
  lk_order : forall i j c c', (i < j)%nat -> chunks h !! i = Some c -> chunks h !! j = Some c' ->
    is_slab (c_region c) = is_slab (c_region c') -> c_addr c + c_size c + HEAP_REDZONE <= c_addr c' }.

Section Ledger.
Context (sb vb : Z).
Implicit Types (h : KernelHeap) (c : KernelChunk).

Lemma ledger_apart h i j c c' :
  ledger_ok sb vb h -> i <> j -> chunks h !! i = Some c -> chunks h !! j = Some c' -> apart c c'.
Proof.
  intros Hok Hij Ei Ej. pose proof (lk_chunks _ _ _ Hok c (list_elem_of_lookup_2 _ _ _ Ei)) as [Hs He Hz _].
  pose proof (lk_chunks _ _ _ Hok c' (list_elem_of_lookup_2 _ _ _ Ej)) as [Hs' He' Hz' _].
  destruct (lk_slab _ _ _ Hok), (lk_vmalloc _ _ _ Hok). unfold apart, HEAP_REDZONE, region_start, cursor_of in *.
  destruct (is_slab (c_region c)) eqn:Er, (is_slab (c_region c')) eqn:Er'; try lia;
    (destruct (decide (i < j)%nat); [left; apply (lk_order _ _ _ Hok i j) | right; apply (lk_order _ _ _ Hok j i)]; auto; try lia; congruence).
Qed.

(** An address belongs to at most one chunk. *)
Lemma contains_range h c a : ledger_ok sb vb h -> c ∈ chunks h -> contains a c = true <-> c_addr c <= a < c_addr c + c_size c.
Proof.
  intros Hok Hin. destruct (lk_chunks _ _ _ Hok c Hin) as [Hs He Hz _]. destruct (lk_slab _ _ _ Hok), (lk_vmalloc _ _ _ Hok).
  pose proof (lk_top _ _ _ Hok). unfold contains, region_start, cursor_of, HEAP_REDZONE in *.
  rewrite wadd_small by (unfold is_word; destruct (is_slab _); lia). rewrite andb_true_iff, Z.leb_le, Z.ltb_lt. lia.
Qed.

(** The areas lie within the address space. *)
Lemma chunk_range h c a : ledger_ok sb vb h -> c ∈ chunks h -> c_addr c <= a < c_addr c + c_size c -> sb <= a < 2 ^ 64.
Proof.
  intros Hok Hin Ha. destruct (lk_chunks _ _ _ Hok c Hin) as [Hs He _ _]. destruct (lk_slab _ _ _ Hok), (lk_vmalloc _ _ _ Hok).
  pose proof (lk_top _ _ _ Hok). unfold region_start, cursor_of, HEAP_REDZONE in *. destruct (is_slab _); lia.
Qed.

Lemma contains_unique h i j c c' a :
  ledger_ok sb vb h -> chunks h !! i = Some c -> chunks h !! j = Some c' ->
  contains a c = true -> contains a c' = true -> i = j.
Proof.
  intros Hok Ei Ej. rewrite !(contains_range h) by eauto using list_elem_of_lookup_2. intros Hc Hc'.
  destruct (decide (i = j)) as [|Hij]; [assumption|]. destruct (ledger_apart h i j c c' Hok Hij Ei Ej); unfold HEAP_REDZONE in *; lia.
Qed.

(** The comment on the field [chunks] *)
Definition ascending h : Prop :=
  forall i j c c', (i < j)%nat -> chunks h !! i = Some c -> chunks h !! j = Some c' -> c_addr c < c_addr c'.

(** It holds while all chunks come from one of the two areas. *)
Lemma one_area_ascending h b : ledger_ok sb vb h -> (forall c, c ∈ chunks h -> is_slab (c_region c) = b) -> ascending h.
Proof.
  intros Hok Hs i j c c' Hij Ei Ej. pose proof (list_elem_of_lookup_2 _ _ _ Ei) as Hi. pose proof (list_elem_of_lookup_2 _ _ _ Ej) as Hj.
  pose proof (ch_size _ _ _ _ (lk_chunks _ _ _ Hok c Hi)).
  pose proof (lk_order _ _ _ Hok i j c c' Hij Ei Ej) as Ho. rewrite !Hs in Ho by assumption. specialize (Ho eq_refl).
  unfold HEAP_REDZONE in *. lia.
Qed.

Lemma filter_none_above {T} (P : T -> Prop) `{!forall x, Decision (P x)} (l : list T) : (forall x, x ∈ l -> ~ P x) -> filter P l = [].
Proof.
  intros Hl. destruct (filter P l) as [|x r] eqn:E; [reflexivity|]. exfalso.
  assert (x ∈ filter P l) as [Hx Hin]%list_elem_of_filter by (rewrite E; left). now apply (Hl x).
Qed.

(** The chunks that start at or before an address are a prefix. *)
Lemma ascending_partitioned h a : ascending h -> exists k, partitioned (fun c => c_addr c <=? a) (chunks h) k.
Proof.
  intros Hasc. exists (length (filter (fun c => c_addr c <= a) (chunks h))). unfold ascending in Hasc. revert Hasc.
  induction (chunks h) as [|c cs IH]; intros Hasc; [now split|].
  destruct IH as [Hlen Hpre]; [intros i j x y Hij Ei Ej; apply (Hasc (Datatypes.S i) (Datatypes.S j)); auto; lia|].
  rewrite filter_cons. case_decide as Hc.
  - split; [cbn; lia|]. intros [|i] x Ex; cbn in Ex |- *; [injection Ex as <-; rewrite Z.leb_le; lia|]. rewrite (Hpre i x Ex). lia.
  - assert (forall i x, (c :: cs) !! i = Some x -> a < c_addr x) as Habove.
    { intros [|i] x Ex; [injection Ex as <-; lia|]. specialize (Hasc 0%nat (Datatypes.S i) c x ltac:(lia) eq_refl Ex). lia. }
    assert (filter (fun c => c_addr c <= a) cs = []) as ->.
    { apply filter_none_above. intros y [j Ej]%list_elem_of_lookup_1. specialize (Habove (Datatypes.S j) y Ej). lia. }
    split; [cbn; lia|]. intros i x Ex%Habove. rewrite Z.leb_le. cbn. lia.
Qed.
End Ledger.

(** ** Sizes *)

Lemma next_multiple_of_spec n x :
  0 < n -> 0 <= x -> x + n <= 2 ^ 64 -> x <= next_multiple_of n x < x + n /\ next_multiple_of n x mod n = 0.
Proof.
  intros Hn Hx Ht. unfold next_multiple_of. pose proof (Z.mod_pos_bound x n Hn) as Hm. pose proof (Z.div_mod x n ltac:(lia)) as Ed.
  destruct (Z.eqb_spec (x mod n) 0) as [E|E]; [lia|]. rewrite wadd_small by (unfold is_word; lia). split; [lia|].
  replace (x + (n - x mod n)) with ((x / n + 1) * n) by lia. apply Z_mod_mult.
Qed.

Lemma bucket_in_spec size bs :
  0 <= size <= 2 ^ 32 -> Forall (fun b => b <= 4096) bs -> size <= bucket_in size bs <= Z.max 4096 (size + 4095).
Proof.
  intros Hs. induction 1 as [|b bs Hb _ IH]; cbn [bucket_in].
  - destruct (next_multiple_of_spec 0x1000 size) as [? _]; lia.
  - destruct (Z.leb_spec size b); lia.
Qed.

(** A chunk holds the request and at most a page more. *)
Lemma chunk_size_spec r req : 0 <= req <= 2 ^ 32 -> req <= chunk_size r req /\ 0 < chunk_size r req <= 2 ^ 32 + 4096.
Proof.
  intros Hr. assert (Z.max req 1 <= chunk_size r req <= Z.max 4096 (Z.max req 1 + 4095)) as Hc; [|lia].
  unfold chunk_size, bucket. destruct r.
  - apply bucket_in_spec; [lia | repeat constructor; lia].
  - destruct (next_multiple_of_spec 0x1000 (Z.max req 1)) as [? _]; lia.
  - destruct (next_multiple_of_spec 0x1000 (Z.max req 1)) as [? _]; lia.
Qed.

(** ** Allocating and freeing *)

Section Grow.
Context (sb vb : Z).
Implicit Types (h : KernelHeap) (c : KernelChunk).

Definition next_addr (r : Region) h : Z := next_multiple_of 16 (cursor_of r h).

(** The chunk that a successful request adds *)
Definition new_chunk (r : Region) (req : Z) (cache api : string) (pos rip : Z) h : KernelChunk :=
  mkChunk (next_addr r h) (chunk_size r req) req r Live cache (cache +:+ "#" +:+ pretty (Z.to_N (wadd (serial h) 1))) api pos rip "" 0 0.

Lemma cursor_bounds r h : ledger_ok sb vb h -> region_start sb vb r <= cursor_of r h <= end_of r h /\ 0 < cursor_of r h /\ end_of r h + 2 ^ 33 <= 2 ^ 64.
Proof.
  intros Hok. destruct (lk_slab _ _ _ Hok), (lk_vmalloc _ _ _ Hok). pose proof (lk_top _ _ _ Hok).
  unfold region_start, cursor_of, end_of. destruct (is_slab r); lia.
Qed.

(** Adding a chunk behind the cursor *)
Lemma grow_ok r h c n :
  ledger_ok sb vb h -> c_region c = r -> cursor_of r h <= c_addr c -> 0 < c_size c -> 0 <= c_req_size c <= c_size c ->
  let next := c_addr c + c_size c + HEAP_REDZONE in
  next <= end_of r h ->
  ledger_ok sb vb (if is_slab r then mkKHeap next (slab_end h) (vmalloc_cursor h) (vmalloc_end h) (chunks h ++ [c]) n
                   else mkKHeap (slab_cursor h) (slab_end h) next (vmalloc_end h) (chunks h ++ [c]) n).
Proof.
  intros Hok Er Hc Hz Hq next Hn. destruct (cursor_bounds r h Hok) as (Hcur & _ & _).
  destruct (lk_slab _ _ _ Hok), (lk_vmalloc _ _ _ Hok). pose proof (lk_top _ _ _ Hok).
  set (h' := if is_slab r then _ else _). assert (chunks h' = chunks h ++ [c]) as Ecs by (unfold h'; now destruct (is_slab r)).
  assert (slab_end h' = slab_end h /\ vmalloc_end h' = vmalloc_end h) as [Es Ev] by (unfold h'; now destruct (is_slab r)).
  assert (forall r', cursor_of r' h <= cursor_of r' h' /\ (is_slab r' = is_slab r -> cursor_of r' h' = next)) as Hcu.
  { intros r'. unfold h', cursor_of, next, HEAP_REDZONE in *. destruct (is_slab r) eqn:E, (is_slab r') eqn:E'; cbn; split; lia || discriminate. }
  assert (slab_cursor h' <= slab_end h /\ vmalloc_cursor h' <= vmalloc_end h /\ slab_cursor h <= slab_cursor h' /\ vmalloc_cursor h <= vmalloc_cursor h') as Hends.
  { unfold h', cursor_of, end_of, next, HEAP_REDZONE in *. destruct (is_slab r); cbn; lia. }
  split; rewrite ?Es, ?Ev; [lia | lia | lia | |].
  - intros x. rewrite Ecs, elem_of_app, list_elem_of_singleton. intros [Hx | ->].
    + destruct (lk_chunks _ _ _ Hok x Hx) as [Hx1 Hx2 Hx3 Hx4]. split; auto. destruct (Hcu (c_region x)). lia.
    + split; auto; rewrite Er; [lia|]. destruct (Hcu r) as [_ ->]; [unfold next; lia | reflexivity].
  - intros i j x y Hij. rewrite Ecs. intros Ei Ej Hr. apply lookup_snoc_Some in Ej as [[Hj Ej] | [-> <-]].
    + rewrite lookup_app_l in Ei by lia. eauto using lk_order.
    + rewrite lookup_app_l in Ei by lia. destruct (lk_chunks _ _ _ Hok x (list_elem_of_lookup_2 _ _ _ Ei)) as [_ He _ _].
      unfold cursor_of in *. rewrite Hr, Er in He. lia.
Qed.

(** [record_alloc] refuses exactly when the region has no room left, and otherwise adds the chunk
    at the cursor. *)
Lemma record_alloc_spec r req cache api pos rip h :
  ledger_ok sb vb h -> 0 <= req <= 2 ^ 32 ->
  let '(c, h') := record_alloc r req cache api pos rip h in
  if end_of r h <? next_addr r h + chunk_size r req + HEAP_REDZONE then c = None /\ h' = h
  else c = Some (new_chunk r req cache api pos rip h) /\ chunks h' = chunks h ++ [new_chunk r req cache api pos rip h] /\
    cursor_of r h' = next_addr r h + chunk_size r req + HEAP_REDZONE /\ ledger_ok sb vb h'.
Proof.
  intros Hok Hreq. destruct (cursor_bounds r h Hok) as (Hcur & Hpos & Htop). destruct (chunk_size_spec r req Hreq) as [Hrs Hsz].
  destruct (next_multiple_of_spec 16 (cursor_of r h)) as [Hal _]; [lia | lia | unfold end_of, HEAP_REDZONE in *; lia |]. fold (next_addr r h) in Hal.
  assert (record_alloc r req cache api pos rip h =
    if end_of r h <? next_addr r h + chunk_size r req + HEAP_REDZONE then (None, h)
    else (Some (new_chunk r req cache api pos rip h),
          let cs := chunks h ++ [new_chunk r req cache api pos rip h] in let next := next_addr r h + chunk_size r req + HEAP_REDZONE in
          if is_slab r then mkKHeap next (slab_end h) (vmalloc_cursor h) (vmalloc_end h) cs (wadd (serial h) 1)
          else mkKHeap (slab_cursor h) (slab_end h) next (vmalloc_end h) cs (wadd (serial h) 1))) as ->.
  { unfold record_alloc, next_addr, new_chunk, cursor_of, end_of, HEAP_REDZONE in *.
    destruct r; cbn [is_slab] in *; rewrite last_snoc, !wadd_small by (unfold is_word; rewrite ?wadd_small by (unfold is_word; lia); lia); reflexivity. }
  destruct (Z.ltb_spec (end_of r h) (next_addr r h + chunk_size r req + HEAP_REDZONE)) as [|Hroom]; [now split|].
  split; [reflexivity|]. split; [now destruct (is_slab r)|]. split; [unfold cursor_of; now destruct r|]. 
  apply (grow_ok r h (new_chunk r req cache api pos rip h)); cbn; auto; try lia.
Qed.
End Grow.

Section Lookup.
Context (sb vb : Z).
Implicit Types (h : KernelHeap) (c : KernelChunk).

(** Freeing changes neither where the chunks are nor their order. *)
Lemma record_free_spec i c api pos rip h :
  ledger_ok sb vb h -> chunks h !! i = Some c ->
  exists h', record_free i api pos rip h = Ret h' /\ chunks h' = <[i := freed api pos rip c]> (chunks h) /\ ledger_ok sb vb h'.
Proof.
  intros Hok Ei. unfold record_free, index, index_set. rewrite Ei. cbn. rewrite decide_True by now apply lookup_lt_Some in Ei.
  eexists. split; [reflexivity|]. split; [reflexivity|].
  assert (forall j x, <[i := freed api pos rip c]> (chunks h) !! j = Some x -> exists y, chunks h !! j = Some y /\
    c_addr x = c_addr y /\ c_size x = c_size y /\ c_req_size x = c_req_size y /\ c_region x = c_region y) as Hsame.
  { intros j x. rewrite list_lookup_insert. case_decide as Hj; [|eauto 8]. intros [= <-]. destruct Hj as [-> _]. eauto 8. }
  split; cbn; try apply Hok.
  - intros x [j (y & Ey & Ea & Es & Eq & Er)%Hsame]%list_elem_of_lookup_1.
    destruct (lk_chunks _ _ _ Hok y (list_elem_of_lookup_2 _ _ _ Ey)) as [Hs He Hz Hq].
    split; rewrite ?Ea, ?Es, ?Eq, ?Er; assumption.
  - intros j j' x x' Hj (y & Ey & -> & -> & _ & Er)%Hsame (y' & Ey' & -> & _ & _ & Er')%Hsame Hr.
    apply (lk_order _ _ _ Hok j j'); congruence.
Qed.

(** The search never panics and never names a chunk that does not hold the address. *)
Lemma index_of_sound a h : exists o, index_of a h = Ret o /\
  forall i, o = Some i -> exists c, chunks h !! i = Some c /\ contains a c = true.
Proof.
  unfold index_of. destruct (partition_point _ _) as [|i] eqn:Ep; [now exists None|].
  pose proof (partition_point_le (fun c => c_addr c <=? a) (chunks h)) as Hle. rewrite Ep in Hle.
  destruct (lookup_lt_is_Some_2 (chunks h) i) as [c Ec]; [lia|]. unfold index. rewrite Ec. cbn. eexists. split; [reflexivity|].
  intros j. destruct (contains a c) eqn:Hc; [|discriminate]. intros [= <-]. eauto.
Qed.

(** On an ascending ledger it finds the chunk that holds the address. *)
Lemma index_of_complete a h i c :
  ledger_ok sb vb h -> ascending h -> chunks h !! i = Some c -> contains a c = true -> index_of a h = Ret (Some i).
Proof.
  intros Hok Hasc Ei Hc. destruct (ascending_partitioned h a Hasc) as [k Hk]. pose proof Hk as [Hkl Hpre].
  unfold index_of. rewrite (partition_point_spec _ _ _ Hk).
  pose proof Hc as Hca. rewrite (contains_range sb vb h) in Hca by eauto using list_elem_of_lookup_2.
  assert (i < k)%nat as Hik by (apply (Hpre i c Ei), Z.leb_le; lia).
  destruct k as [|k]; [lia|]. destruct (lookup_lt_is_Some_2 (chunks h) k) as [d Ed]; [lia|]. unfold index. rewrite Ed. cbn.
  assert (c_addr d <= a) as Hda by (apply Z.leb_le, (Hpre k d Ed); lia).
  destruct (decide (i = k)) as [->|Hne]; [replace d with c by congruence; now rewrite Hc|]. exfalso.
  pose proof (Hasc i k c d ltac:(lia) Ei Ed). destruct (ledger_apart sb vb h i k c d Hok Hne Ei Ed) as [Hap|Hap]; unfold HEAP_REDZONE in Hap; [lia|].
  pose proof (ch_size _ _ _ _ (lk_chunks _ _ _ Hok d (list_elem_of_lookup_2 _ _ _ Ed))). lia.
Qed.

(** A pointer is the start of at most one chunk, and [index_of_base] finds it in any order. *)
Lemma index_of_base_spec h i c : ledger_ok sb vb h -> chunks h !! i = Some c -> index_of_base (c_addr c) h = Some i.
Proof.
  intros Hok Ei. unfold index_of_base. destruct (list_find _ _) as [[j d]|] eqn:E; cbn.
  - apply list_find_Some in E as (Ej & Ea & _). f_equal. destruct (decide (j = i)) as [|Hne]; [assumption|]. exfalso.
    pose proof (ch_size _ _ _ _ (lk_chunks _ _ _ Hok c (list_elem_of_lookup_2 _ _ _ Ei))).
    pose proof (ch_size _ _ _ _ (lk_chunks _ _ _ Hok d (list_elem_of_lookup_2 _ _ _ Ej))).
    destruct (ledger_apart sb vb h j i d c Hok Hne Ej Ei); unfold HEAP_REDZONE in *; lia.
  - apply list_find_None in E. rewrite Forall_forall in E. exfalso. apply (E c); eauto using list_elem_of_lookup_2.
Qed.
End Lookup.

(** ** Reports *)

(** What identifies a finding *)
Definition key_of (f : Finding) : FindingKind * Z * Z := (f_kind f, f_rip f, o_addr (f_origin f)).

Lemma same_finding_key kind rip a f : same_finding kind rip a f = true <-> key_of f = (kind, rip, a).
Proof.
  unfold same_finding, key_of. rewrite !andb_true_iff, bool_decide_eq_true, !Z.eqb_eq. split; [intros [[-> ->] ->]; reflexivity | now intros [= -> -> ->]].
Qed.

(** A report is in the list afterwards, under its key, and the others are still there. *)
Lemma add_finding_in new fs : exists f, f ∈ add_finding new fs /\ key_of f = key_of new.
Proof.
  induction fs as [|f fs IH]; cbn; [exists new; split; [left | reflexivity]|].
  destruct (same_finding _ _ _ f) eqn:E; [apply same_finding_key in E; exists (hit f); split; [left | exact E]|].
  destruct IH as (f' & Hf & Ek). exists f'. split; [now right | exact Ek].
Qed.

(** The keys stay distinct: a repeat adds a hit, anything else a finding. *)
Lemma add_finding_keys new fs :
  key_of <$> add_finding new fs = if bool_decide (key_of new ∈ key_of <$> fs) then key_of <$> fs else (key_of <$> fs) ++ [key_of new].
Proof.
  induction fs as [|f fs IH]; cbn; [reflexivity|]. destruct (same_finding _ _ _ f) eqn:E.
  - apply same_finding_key in E. rewrite bool_decide_true by (rewrite E; left). reflexivity.
  - assert (key_of new <> key_of f) as Hne by (intros Hk; rewrite (proj2 (same_finding_key _ _ _ f) (eq_sym Hk)) in E; discriminate).
    cbn. rewrite IH. destruct (bool_decide_reflect (key_of new ∈ key_of <$> fs)) as [Hin|Hni].
    + now rewrite bool_decide_true by (right; exact Hin).
    + rewrite bool_decide_false; [reflexivity|]. rewrite elem_of_cons. tauto.
Qed.

Lemma add_finding_nodup new fs : NoDup (key_of <$> fs) -> NoDup (key_of <$> add_finding new fs).
Proof.
  intros Hn. rewrite add_finding_keys. case_bool_decide as E; [exact Hn|]. apply NoDup_app. split; [exact Hn|].
  split; [|apply NoDup_singleton]. intros x Hx ->%list_elem_of_singleton. now apply E.
Qed.

Section Verdicts.
Context {S V : Type} `{Slab S} (sb vb : Z).
Implicit Types (g : Guarded S V) (k : KernelEnv V) (c : KernelChunk).

(** The guard is up, with a sound ledger. *)
Definition guards (k : KernelEnv V) g : Prop := kernel g = Some k /\ ledger_ok sb vb (heap k).

Definition poison_origin : ChunkOrigin := mkOrigin 0 0 0 "freed object" "" 0 0 "" 0 0.

(** The verdict that the chunks call for on an access at [a] *)
Inductive verdict (cs : list KernelChunk) (a : Z) (w : bool) : option (FindingKind * ChunkOrigin) -> Prop :=
  | v_poison : is_free_poison a = true -> verdict cs a w (Some (PoisonDereference, poison_origin))
  | v_stale c : is_free_poison a = false -> c ∈ cs -> c_addr c <= a < c_addr c + c_size c -> c_state c = Freed ->
      verdict cs a w (Some (if w then WriteAfterFree else UseAfterFree, origin_from c))
  | v_beyond c : is_free_poison a = false -> c ∈ cs -> c_addr c + c_req_size c <= a < c_addr c + c_size c -> c_state c = Live ->
      verdict cs a w (Some (HeapOverflow, origin_from c))
  | v_within c : is_free_poison a = false -> c ∈ cs -> c_addr c <= a < c_addr c + c_req_size c -> c_state c = Live ->
      verdict cs a w None
  | v_elsewhere : is_free_poison a = false -> (forall c, c ∈ cs -> ~ c_addr c <= a < c_addr c + c_size c) -> verdict cs a w None.

Definition reported (v : option (FindingKind * ChunkOrigin)) (rip a bytes : Z) g : Guarded S V :=
  match v with Some (kind, o) => kernel_report kind rip a bytes o g | None => g end.

Lemma is_freed_state c : is_freed c = true <-> c_state c = Freed.
Proof. unfold is_freed. apply bool_decide_eq_true. Qed.

Lemma not_freed_live c : is_freed c = false -> c_state c = Live.
Proof. unfold is_freed. rewrite bool_decide_eq_false. now destruct (c_state c). Qed.

Lemma offset_small k g c a :
  guards k g -> c ∈ chunks (heap k) -> c_addr c <= a < c_addr c + c_size c -> offset_of a c = a - c_addr c.
Proof.
  intros (_ & Hok) Hin Ha. destruct (lk_chunks _ _ _ Hok c Hin) as [Hs He Hz _]. destruct (lk_slab _ _ _ Hok), (lk_vmalloc _ _ _ Hok).
  pose proof (lk_top _ _ _ Hok). unfold offset_of, region_start, cursor_of, HEAP_REDZONE in *. apply wsub_small.
  unfold is_word. destruct (is_slab _); lia.
Qed.

(** What is said of an address once a chunk that holds it is found *)
Lemma found_verdict k g c rip a bytes w :
  guards k g -> c ∈ chunks (heap k) -> contains a c = true -> is_free_poison a = false ->
  exists v, verdict (chunks (heap k)) a w v /\
    (if is_freed c then Ret (kernel_report (if w then WriteAfterFree else UseAfterFree) rip a bytes (origin_from c) g)
     else if c_req_size c <=? offset_of a c then Ret (kernel_report HeapOverflow rip a bytes (origin_from c) g)
     else Ret g) = Ret (reported v rip a bytes g).
Proof.
  intros Hg Hin Hc Ep. pose proof Hg as (_ & Hok). rewrite (contains_range sb vb (heap k)) in Hc by assumption.
  rewrite (offset_small k g c a Hg Hin Hc).
  destruct (is_freed c) eqn:Ef; [eexists; split; [apply (v_stale _ _ _ c); auto; now apply is_freed_state | reflexivity]|].
  apply not_freed_live in Ef. destruct (Z.leb_spec (c_req_size c) (a - c_addr c)).
  - eexists; split; [apply (v_beyond _ _ _ c); auto; lia | reflexivity].
  - exists None. split; [apply (v_within _ _ _ c); auto; lia | reflexivity].
Qed.

(** Whatever the order of the ledger, what the guard reports is true; in ascending order it
    misses nothing. *)
Lemma guard_access_spec k g rip a bytes w :
  guards k g -> exists v, kernel_guard_access rip a bytes w g = Ret (reported v rip a bytes g) /\
    (v = None \/ verdict (chunks (heap k)) a w v) /\ (ascending (heap k) -> verdict (chunks (heap k)) a w v).
Proof.
  intros Hg. pose proof Hg as (Ek & Hok). unfold kernel_guard_access. rewrite Ek.
  destruct (is_free_poison a) eqn:Ep; [pose proof (v_poison (chunks (heap k)) a w Ep); exists (Some (PoisonDereference, poison_origin)); auto|].
  destruct (index_of_sound a (heap k)) as ([i|] & Eo & Hs); rewrite Eo; cbn [mbind outcome_bind].
  - destruct (Hs i eq_refl) as (c & Ei & Hc). unfold get, index. rewrite Ei. cbn [mbind outcome_bind].
    destruct (found_verdict k g c rip a bytes w Hg (list_elem_of_lookup_2 _ _ _ Ei) Hc Ep) as (v & Hv & Er). eauto.
  - exists None. split; [reflexivity|]. split; [auto|]. intros Hasc. apply v_elsewhere; [exact Ep|].
    intros c Hin Ha. rewrite <- (contains_range sb vb (heap k)) in Ha by assumption. apply list_elem_of_lookup_1 in Hin as [i Ei].
    rewrite (index_of_complete sb vb a _ i c Hok Hasc Ei Ha) in Eo. discriminate.
Qed.

(** There is one verdict. *)
Lemma verdict_unique h a w v v' :
  ledger_ok sb vb h -> verdict (chunks h) a w v -> verdict (chunks h) a w v' -> v = v'.
Proof.
  intros Hok. assert (forall c c', c ∈ chunks h -> c' ∈ chunks h -> c_addr c <= a < c_addr c + c_size c ->
    c_addr c' <= a < c_addr c' + c_size c' -> c = c') as Huniq.
  { intros c c' [i Ei]%list_elem_of_lookup_1 [j Ej]%list_elem_of_lookup_1 Hc Hc'.
    rewrite <- (contains_range sb vb h) in Hc, Hc' by eauto using list_elem_of_lookup_2.
    pose proof (contains_unique sb vb h i j c c' a Hok Ei Ej Hc Hc'). congruence. }
  assert (forall c, c ∈ chunks h -> 0 <= c_req_size c <= c_size c) as Hreq by (intros c Hin; apply (lk_chunks _ _ _ Hok c Hin)).
  intros Hv Hv'. destruct Hv as [? | c ? Hc ? ? | c ? Hc ? ? | c ? Hc ? ? | ? Hn], Hv' as [? | c' ? Hc' ? ? | c' ? Hc' ? ? | c' ? Hc' ? ? | ? Hn'];
    try congruence; try reflexivity; try (pose proof (Hreq _ Hc)); try (pose proof (Hreq _ Hc'));
    try (assert (c = c') as <- by (apply Huniq; auto; lia); first [reflexivity | congruence | lia]);
    try (exfalso; apply (Hn' c Hc); lia); exfalso; apply (Hn c' Hc'); lia.
Qed.
End Verdicts.

(** ** Memory *)

Section Memory.
Context {S V : Type} `{SlabLaws S} (sb vb : Z).
Implicit Types (g : Guarded S V) (k : KernelEnv V) (c : KernelChunk) (mp : Maps S).

(** The memory of a chunk lies in one region. *)
Definition holds mp c : Prop :=
  exists key mem, find_map (c_addr c) mp = Some (key, mem) /\ covers mem (c_addr c) (c_size c).

Lemma replicate_bytes n b : is_word 8 b -> is_bytes (replicate n b).
Proof. intros Hb. apply Forall_replicate, Hb. Qed.

Lemma chunk_positive k c : ledger_ok sb vb (heap k) -> c ∈ chunks (heap k) -> 0 < c_addr c /\ 0 < c_size c.
Proof.
  intros Hok Hin. destruct (lk_chunks _ _ _ Hok c Hin) as [Hs _ Hz _]. destruct (lk_slab _ _ _ Hok), (lk_vmalloc _ _ _ Hok).
  unfold region_start in Hs. destruct (is_slab _); lia.
Qed.

(** Freeing a live chunk marks it and poisons all of its bytes. *)
Lemma kernel_free_live g k i c api :
  kernel g = Some k -> ledger_ok sb vb (heap k) -> wf (gmaps g) -> chunks (heap k) !! i = Some c -> is_freed c = false ->
  holds (gmaps g) c ->
  exists h mp, kernel_free (c_addr c) api g = Ret (true, set_gmaps mp (set_kernel (Some (set_heap h k)) g)) /\
    chunks h = <[i := freed api (gpos g) (gpc g) c]> (chunks (heap k)) /\ ledger_ok sb vb h /\ wf mp /\
    stores (gmaps g) mp (c_addr c) (replicate (Z.to_nat (c_size c)) POISON_FREE).
Proof.
  intros Ek Hok Hwf Ei Hlive (key & mem & Ef & Hc). pose proof (list_elem_of_lookup_2 _ _ _ Ei) as Hin.
  destruct (chunk_positive k c Hok Hin) as [Ha Hz]. unfold kernel_free. rewrite (proj2 (Z.eqb_neq _ _)) by lia.
  rewrite Ek, (index_of_base_spec sb vb _ i c Hok Ei). unfold get, index. rewrite Ei. cbn [mbind outcome_bind]. rewrite Hlive.
  destruct (record_free_spec sb vb i c api (gpos g) (gpc g) (heap k) Hok Ei) as (h & -> & Ecs & Hok'). cbn [mbind outcome_bind].
  destruct (get_mem_by_addr_mut_find (gmaps g) Hwf (c_addr c)) as (tl & Htl & E).
  cbn [gmaps set_kernel]. rewrite E. cbn [mbind outcome_bind]. rewrite Ef.
  pose proof Ef as [Hk _]%find_map_spec; [|exact Hwf]. destruct (wf_region _ Hwf _ _ Hk) as [Hm _].
  rewrite (force_write_bytes_covered mem (c_addr c) (Z.to_nat (c_size c)));
    [| exact Hm | now rewrite Z2Nat.id by lia | apply length_replicate]. cbn [mbind outcome_bind].
  destruct (store_region (set_tlb tl (gmaps g)) key mem (c_addr c) (replicate (Z.to_nat (c_size c)) POISON_FREE)) as [Hw Hst];
    [now apply set_tlb_wf | exact Hk | rewrite length_replicate, Z2Nat.id by lia; exact Hc |
     apply replicate_bytes; unfold is_word, POISON_FREE; lia |].
  eexists h, _. split; [reflexivity|]. split; [exact Ecs|]. split; [exact Hok'|]. split; [exact Hw | exact Hst].
Qed.

(** A second free is reported and changes nothing else. *)
Lemma kernel_free_again g k i c api :
  kernel g = Some k -> ledger_ok sb vb (heap k) -> chunks (heap k) !! i = Some c -> is_freed c = true ->
  kernel_free (c_addr c) api g = Ret (false, kernel_report DoubleFree (gpc g) (c_addr c) 0 (origin_from c) g).
Proof.
  intros Ek Hok Ei Hfr. destruct (chunk_positive k c Hok (list_elem_of_lookup_2 _ _ _ Ei)) as [Ha _].
  unfold kernel_free. rewrite (proj2 (Z.eqb_neq _ _)) by lia. rewrite Ek, (index_of_base_spec sb vb _ i c Hok Ei).
  unfold get, index. rewrite Ei. cbn [mbind outcome_bind]. now rewrite Hfr.
Qed.

(** The requests that are refused leave memory alone; a served one maps exactly the new chunk,
    with the fill pattern. *)
Inductive alloc_outcome (r : Region) (req : Z) (zeroed : bool) k (c : KernelChunk) mp : Z -> KernelHeap -> Maps S -> Prop :=
  | ao_injected : fail_alloc_index k = Some (alloc_count k) -> alloc_outcome r req zeroed k c mp 0 (heap k) mp
  | ao_exhausted : end_of r (heap k) < c_addr c + c_size c + HEAP_REDZONE -> alloc_outcome r req zeroed k c mp 0 (heap k) mp
  | ao_refused h mp' : is_Some (name_map mp !! c_map_name c) -> chunks h = chunks (heap k) ++ [c] -> maps_equiv mp' mp ->
      alloc_outcome r req zeroed k c mp 0 h mp'
  | ao_served h mp' : chunks h = chunks (heap k) ++ [c] -> holds mp' c ->
      (forall a, cell_of mp' a = if (c_addr c <=? a) && (a <? c_addr c + c_size c)
                                 then Some (if zeroed then 0 else 0x5a, Perm.READ_WRITE) else cell_of mp a) ->
      alloc_outcome r req zeroed k c mp (c_addr c) h mp'.

(** The region that [create_map] made, filled *)
Lemma fill_fresh name a sz b mp mp' key :
  wf mp' -> 0 < a -> 0 < sz -> a + sz < 2 ^ 64 -> is_word 8 b ->
  slab_get (mem_slab mp') key = Some (fresh name a sz Perm.READ_WRITE) ->
  (forall x, cell_of mp' x = if (a <=? x) && (x <? a + sz) then Some (0, Perm.READ_WRITE) else cell_of mp x) ->
  exists mem, Mem.write_bytes a (replicate (Z.to_nat sz) b) (fresh name a sz Perm.READ_WRITE) = Ret mem /\
    wf (put_mem key mem mp') /\ (exists mem', find_map a (put_mem key mem mp') = Some (key, mem') /\ covers mem' a sz) /\
    forall x, cell_of (put_mem key mem mp') x = if (a <=? x) && (x <? a + sz) then Some (b, Perm.READ_WRITE) else cell_of mp x.
Proof.
  intros Hwf Ha Hz Ht Hb Hk Hcell. set (mm := fresh name a sz Perm.READ_WRITE) in *.
  assert (wf_mem mm) as Hmm by (apply fresh_wf; lia). assert (bottom_addr mm = a + sz) as Ebot by (apply fresh_bottom; lia).
  assert (base_addr mm = a) as Ebase by reflexivity.
  assert (covers mm a (Z.of_nat (Z.to_nat sz))) as Hc by (unfold covers; rewrite Ebot, Ebase, Z2Nat.id by lia; lia).
  set (bs := replicate (Z.to_nat sz) b). assert (length bs = Z.to_nat sz) as Hl by apply length_replicate.
  exists (written mm a bs). rewrite (write_bytes_covered mm a (Z.to_nat sz)) by (assumption || reflexivity). split; [reflexivity|].
  assert (wf_mem (written mm a bs)) as Hw by (apply (written_wf mm a (Z.to_nat sz)); auto; now apply replicate_bytes).
  pose proof (written_shape mm a bs) as Hsh.
  assert (forall x, Mem.inside x mm = (a <=? x) && (x <? a + sz)) as Hin by (intros x; unfold Mem.inside; now rewrite Ebot, Ebase).
  split; [eapply put_mem_wf; eauto|]. split.
  - exists (written mm a bs). rewrite (find_map_put mp' key mm) by eauto. rewrite (tlb_hit mp' Hwf a key mm Hk) by (rewrite Hin; lia).
    rewrite decide_True by reflexivity. split; [reflexivity|]. unfold covers. change (base_addr (written mm a bs)) with (base_addr mm).
    change (bottom_addr (written mm a bs)) with (bottom_addr mm). rewrite Ebot, Ebase. lia.
  - intros x. rewrite (cell_of_put mp' key mm) by auto. rewrite Hin. destruct ((a <=? x) && (x <? a + sz)) eqn:Ex.
    + unfold cell_at. rewrite (byte_at_written mm a (Z.to_nat sz)) by auto. rewrite Z2Nat.id, decide_True by lia.
      unfold bs. rewrite lookup_replicate_2 by lia. reflexivity.
    + rewrite Hcell, Ex. reflexivity.
Qed.

Lemma kernel_alloc_spec r req cache api zeroed g k :
  kernel g = Some k -> ledger_ok sb vb (heap k) -> wf (gmaps g) -> 0 <= req <= 2 ^ 32 ->
  let c := new_chunk r req cache api (gpos g) (gpc g) (heap k) in
  range_free (gmaps g) (c_addr c) (c_size c) ->
  exists p h mp, kernel_alloc r req cache api zeroed g =
      Ret (p, set_gmaps mp (set_kernel (Some (set_heap h (set_count (wadd (alloc_count k) 1) k))) g)) /\
    alloc_outcome r req zeroed k c (gmaps g) p h mp /\ ledger_ok sb vb h /\ wf mp.
Proof.
  intros Ek Hok Hwf Hreq c Hfree. unfold kernel_alloc. rewrite Ek.
  change (fail_alloc_index (set_count (wadd (alloc_count k) 1) k)) with (fail_alloc_index k).
  case_bool_decide as Einj; [exists 0, (heap k), (gmaps g); split; [now destruct g, k | split; [now apply ao_injected | now split]]|].
  pose proof (record_alloc_spec sb vb r req cache api (gpos g) (gpc g) (heap k) Hok Hreq) as Hra.
  change (heap (set_count (wadd (alloc_count k) 1) k)) with (heap k).
  destruct (record_alloc _ _ _ _ _ _ _) as [oc h]. destruct (Z.ltb_spec (end_of r (heap k)) (next_addr r (heap k) + chunk_size r req + HEAP_REDZONE)) as [Hex|Hroom].
  - destruct Hra as [-> ->]. exists 0, (heap k), (gmaps g). split; [now destruct g, k|]. split; [now apply ao_exhausted | now split].
  - destruct Hra as (-> & Ecs & Ecur & Hok'). fold c in Ecs |- *.
    assert (c_addr c + c_size c < 2 ^ 64 /\ 0 < c_addr c /\ 0 < c_size c) as (Hc1 & Hc2 & Hc3).
    { destruct (cursor_bounds sb vb r (heap k) Hok) as (Hcu & Hp & Ht). destruct (chunk_size_spec r req Hreq) as [_ Hs].
      destruct (next_multiple_of_spec 16 (cursor_of r (heap k))) as [Hal _]; [lia | lia | lia |].
      cbn [c c_addr c_size new_chunk]. unfold next_addr, HEAP_REDZONE in *. lia. }
    destruct (create_map_spec (c_map_name c) (c_addr c) (c_size c) Perm.READ_WRITE (gmaps g)) as (res & mp & E & Hw & Hm); [assumption | lia .. | assumption |].
    cbn [gmaps set_kernel]. rewrite E. cbn [mbind outcome_bind]. destruct res as [e|key].
    + exists 0, h, mp. split; [reflexivity|]. split; [|now split]. destruct Hm as (_ & Hn & Heq). now apply ao_refused.
    + destruct Hm as (_ & Hk & Hcell). rewrite Hk.
      destruct (fill_fresh (c_map_name c) (c_addr c) (c_size c) (if zeroed then 0 else 0x5a) (gmaps g) mp key)
        as (mem & -> & Hw' & (mem' & Hf & Hcov) & Hcell'); auto; [unfold is_word; destruct zeroed; lia|]. cbn [mbind outcome_bind].
      exists (c_addr c), h, (put_mem key mem mp). split; [reflexivity|]. split; [|now split].
      apply ao_served; [exact Ecs | now exists key, mem' | exact Hcell'].
Qed.
End Memory.

(** ** Histories *)

Section History.
Context {S V : Type} `{SlabLaws S} (sb vb : Z).
Implicit Types (g : Guarded S V) (k : KernelEnv V) (c : KernelChunk) (h : KernelHeap).

(** What can happen under the guard, with the slab allocator as the only one in use: any of its
    operations, and anything that the program does to memory in between. *)
Inductive event : Guarded S V -> Guarded S V -> Prop :=
  | ev_alloc r req cache api z p g g' : 0 <= req <= 2 ^ 32 -> kernel_alloc r req cache api z g = Ret (p, g') -> event g g'
  | ev_free ptr api b g g' : kernel_free ptr api g = Ret (b, g') -> event g g'
  | ev_access rip a n w g g' : kernel_guard_access rip a n w g = Ret g' -> event g g'
  | ev_range rip a n w g g' : kernel_guard_range rip a n w g = Ret g' -> event g g'
  | ev_target t g g' : kernel_check_call_target t g = Ret g' -> event g g'
  | ev_leaks g : event g (kernel_check_leaks g)
  | ev_defer d g : event g (kernel_defer d g)
  | ev_fail i g : event g (kernel_set_fail_alloc i g)
  | ev_program mp pos pc g : event g (mkGuarded mp (kernel g) (kernel_guard g) pos pc).

(** Chunks stay where they are, and a freed one stays freed, with its provenance. *)
Definition evolves h h' : Prop :=
  forall i c, chunks h !! i = Some c -> exists c', chunks h' !! i = Some c' /\
    c_addr c' = c_addr c /\ c_size c' = c_size c /\ (is_freed c = true -> c' = c).

#[export] Instance evolves_po : PreOrder evolves.
Proof.
  split; [intros h i c E; now exists c|]. intros h1 h2 h3 H12 H23 i c Ei. destruct (H12 i c Ei) as (c2 & E2 & Ea & Es & Hf).
  destruct (H23 i c2 E2) as (c3 & E3 & Ea3 & Es3 & Hf3). exists c3. split; [exact E3|]. split; [congruence|]. split; [congruence|].
  intros Hfr. specialize (Hf Hfr). subst c2. now apply Hf3.
Qed.

(** The next state still has a sound ledger, which evolved from the old one. *)
Definition continues k g' : Prop := exists k', kernel g' = Some k' /\ ledger_ok sb vb (heap k') /\ evolves (heap k) (heap k').

Lemma continues_same k k' g' : ledger_ok sb vb (heap k) -> kernel g' = Some k' -> heap k' = heap k -> continues k g'.
Proof. intros Hl Ek Eh. exists k'. rewrite Eh. now split. Qed.

Lemma report_kernel kind rip a n o g k :
  kernel g = Some k -> exists k', kernel (kernel_report kind rip a n o g) = Some k' /\ heap k' = heap k.
Proof. intros Ek. unfold kernel_report. rewrite Ek. now eexists. Qed.

Lemma continues_report kind rip a n o g k :
  kernel g = Some k -> ledger_ok sb vb (heap k) -> continues k (kernel_report kind rip a n o g).
Proof. intros Ek Hl. destruct (report_kernel kind rip a n o g k Ek) as (k' & Ek' & Eh). eauto using continues_same. Qed.

Lemma appended_evolves h h' c : chunks h' = chunks h ++ [c] -> evolves h h'.
Proof. intros E i x Ex. exists x. rewrite E, lookup_app_l by now apply lookup_lt_Some in Ex. now split. Qed.

Lemma alloc_continues r req cache api z p g g' k :
  0 <= req <= 2 ^ 32 -> kernel_alloc r req cache api z g = Ret (p, g') -> kernel g = Some k -> ledger_ok sb vb (heap k) -> continues k g'.
Proof.
  intros Hreq E Ek Hok. unfold kernel_alloc in E. rewrite Ek in E. cbn [heap set_count] in E.
  case_bool_decide; [injection E as <- <-; eapply continues_same; [exact Hok | reflexivity | reflexivity]|].
  pose proof (record_alloc_spec sb vb r req cache api (gpos g) (gpc g) (heap k) Hok Hreq) as Hra.
  destruct (record_alloc _ _ _ _ _ _ _) as [oc h]. 
  assert (continues k (set_kernel (Some (set_heap h (set_count (wadd (alloc_count k) 1) k))) g)) as Hc.
  { eexists. split; [reflexivity|]. cbn [heap set_heap]. destruct (_ <? _).
    - destruct Hra as [_ ->]. now split.
    - destruct Hra as (_ & Ecs & _ & Hok'). split; [exact Hok' | now apply (appended_evolves _ _ _ Ecs)]. }
  destruct oc as [c|]; [|now injection E as <- <-].
  destruct (create_map _ _ _ _ _) as [[[e|key] mp]|]; cbn [mbind outcome_bind] in E; [now injection E as <- <- | | discriminate].
  destruct (slab_get _ _); [|discriminate]. destruct (Mem.write_bytes _ _ _); cbn [mbind outcome_bind] in E; [now injection E as <- <- | discriminate].
Qed.

Lemma freed_evolves h h' i c api pos rip :
  chunks h !! i = Some c -> is_freed c = false -> chunks h' = <[i := freed api pos rip c]> (chunks h) -> evolves h h'.
Proof.
  intros Ei Hl E j x Ex. rewrite E. destruct (decide (i = j)) as [<-|Hne].
  - assert (x = c) as -> by congruence. exists (freed api pos rip c). rewrite list_lookup_insert_eq by now apply lookup_lt_Some in Ei.
    do 3 (split; [reflexivity|]). congruence.
  - exists x. rewrite list_lookup_insert_ne by exact Hne. now split.
Qed.

Lemma free_continues ptr api b g g' k :
  kernel_free ptr api g = Ret (b, g') -> kernel g = Some k -> ledger_ok sb vb (heap k) -> continues k g'.
Proof.
  intros E Ek Hl. unfold kernel_free in E. destruct (ptr =? 0); [injection E as <- <-; now apply (continues_same k k)|].
  rewrite Ek in E. destruct (index_of_base ptr (heap k)) as [i|].
  - unfold get, index in E. destruct (chunks (heap k) !! i) as [c|] eqn:Ei; cbn [mbind outcome_bind] in E; [|discriminate].
    destruct (is_freed c) eqn:Hf; [injection E as <- <-; now apply continues_report|].
    destruct (record_free_spec sb vb i c api (gpos g) (gpc g) (heap k) Hl Ei) as (h & Er & Ecs & Hok'). rewrite Er in E. cbn [mbind outcome_bind] in E.
    assert (continues k (set_kernel (Some (set_heap h k)) g)) as Hc.
    { eexists. split; [reflexivity|]. split; [exact Hok' | now apply (freed_evolves _ _ i c api (gpos g) (gpc g))]. }
    destruct (get_mem_by_addr_mut _ _) as [[[[key mem]|] mp]|]; cbn [mbind outcome_bind] in E; [| now injection E as <- <- | discriminate].
    destruct (Mem.force_write_bytes _ _ _); cbn [mbind outcome_bind] in E; [now injection E as <- <- | discriminate].
  - destruct (chunk_at ptr (heap k)); cbn [mbind outcome_bind] in E; [injection E as <- <-; now apply continues_report | discriminate].
Qed.

(** An operation that either reports something or does nothing *)
Lemma continues_choice k g (o : outcome (Guarded S V)) g' :
  kernel g = Some k -> ledger_ok sb vb (heap k) ->
  (o = Ret g \/ o = Panic \/ exists kind rip a n origin, o = Ret (kernel_report kind rip a n origin g)) -> o = Ret g' -> continues k g'.
Proof.
  intros Ek Hl [-> | [-> | (kind & rip & a & n & origin & ->)]] E; [injection E as <- | discriminate | injection E as <-].
  - now apply (continues_same k k).
  - now apply continues_report.
Qed.

Lemma leaks_continue k g (os : list ChunkOrigin) :
  kernel g = Some k -> ledger_ok sb vb (heap k) -> continues k (foldl (fun g o => kernel_report Leak (o_alloc_rip o) (o_addr o) 0 o g) g os).
Proof.
  intros Ek Hl. assert (exists k0, kernel g = Some k0 /\ heap k0 = heap k) as (k0 & Ek0 & Eh) by eauto. clear Ek. revert g k0 Ek0 Eh.
  induction os as [|o os IH]; intros g k0 Ek0 Eh; cbn; [now apply (continues_same k k0)|].
  destruct (report_kernel Leak (o_alloc_rip o) (o_addr o) 0 o g k0 Ek0) as (k1 & Ek1 & Eh1). apply (IH _ k1 Ek1). congruence.
Qed.

Lemma event_continues g g' k : event g g' -> kernel g = Some k -> ledger_ok sb vb (heap k) -> continues k g'.
Proof.
  intros Hev Ek Hl. destruct Hev as [r req cache api z p g g' Hreq E | ptr api b g g' E | rip a n w g g' E | rip a n w g g' E | t g g' E | g | d g | i g | mp pos pc g].
  - eauto using alloc_continues.
  - eauto using free_continues.
  - eapply continues_choice; [exact Ek | exact Hl | | exact E]. unfold kernel_guard_access. rewrite Ek.
    destruct (is_free_poison a); [eauto 9|]. destruct (index_of a (heap k)) as [[j|]|]; cbn [mbind outcome_bind]; auto.
    destruct (get j (heap k)) as [c|]; cbn [mbind outcome_bind]; auto. destruct (is_freed c); [eauto 9|]. destruct (_ <=? _); eauto 9.
  - eapply continues_choice; [exact Ek | exact Hl | | exact E]. unfold kernel_guard_range. rewrite Ek. destruct (n =? 0); [auto|].
    destruct (index_of a (heap k)) as [[j|]|]; cbn [mbind outcome_bind]; auto.
    destruct (get j (heap k)) as [c|]; cbn [mbind outcome_bind]; auto. destruct (is_freed c); [eauto 9|]. destruct (_ <? _); eauto 9.
  - eapply continues_choice; [exact Ek | exact Hl | | exact E]. unfold kernel_check_call_target. rewrite Ek.
    destruct (chunk_at t (heap k)) as [[c|]|]; cbn [mbind outcome_bind]; auto. destruct (is_freed c); eauto 9.
  - unfold kernel_check_leaks. rewrite Ek. now apply leaks_continue.
  - unfold kernel_defer. destruct (d_func d =? 0); [now apply (continues_same k k)|]. rewrite Ek. now eapply continues_same.
  - unfold kernel_set_fail_alloc. rewrite Ek. now eapply continues_same.
  - now apply (continues_same k k).
Qed.

Lemma history_continues g g' k : rtc event g g' -> kernel g = Some k -> ledger_ok sb vb (heap k) -> continues k g'.
Proof.
  intros Hr. revert k. induction Hr as [g | g1 g2 g3 Hev _ IH]; intros k Ek Hl; [now apply (continues_same k k)|].
  destruct (event_continues g1 g2 k Hev Ek Hl) as (k2 & Ek2 & Hl2 & Hev2). destruct (IH k2 Ek2 Hl2) as (k3 & Ek3 & Hl3 & Hev3).
  exists k3. split; [exact Ek3|]. split; [exact Hl3 | now transitivity (heap k2)].
Qed.

(** A new kernel starts with an empty ledger, in each of the three address-space plans. *)
Lemma new_ledger os (v : V) : let l := for_os os in
  ledger_ok (heap_base l) (vmalloc_base l) (heap (kenv_new os v)) /\ chunks (heap (kenv_new os v)) = [] /\ 0x6b6b6b6b6b6b7000 <= heap_base l.
Proof.
  assert (forall c : KernelChunk, c ∈ [] -> False) as Hnil by (intros c Hc; now apply elem_of_nil in Hc).
  destruct os; (split; [|split; [reflexivity | vm_compute; congruence]]);
    (split; [vm_compute; intuition congruence | vm_compute; intuition congruence | vm_compute; congruence
            | intros c Hc; destruct (Hnil c Hc) | intros i j c c' _ E; discriminate E]).
Qed.

(** Some finding of the state says so. *)
Definition found (kind : FindingKind) (rip addr : Z) g : Prop :=
  exists f, f ∈ kernel_findings g /\ f_kind f = kind /\ f_rip f = rip /\ o_addr (f_origin f) = addr.

Lemma report_found kind rip a n o g k : kernel g = Some k -> found kind rip (o_addr o) (kernel_report kind rip a n o g).
Proof.
  intros Ek. unfold kernel_report, found, kernel_findings. rewrite Ek. cbn [kernel set_kernel findings set_findings].
  destruct (add_finding_in (mkFinding kind (gpos g) rip a n o 1) (findings k)) as (f & Hf & Hk). exists f. split; [exact Hf|].
  now injection Hk.
Qed.

(** The heap regions of the layouts are far from any poison address. *)
Definition above_poison : Prop := 0x6b6b6b6b6b6b7000 <= sb.

Lemma not_poison a : above_poison -> sb <= a < 2 ^ 64 -> is_free_poison a = false.
Proof.
  intros Hp Ha. unfold above_poison in Hp. unfold is_free_poison.
  assert (forall x, 0 <= x < 0x6b6b6b6b6b6b7000 -> (Z.land a (bnot 64 0xfff) =? Z.land x (bnot 64 0xfff)) = false) as Hne.
  { intros x Hx. apply Z.eqb_neq. intros E.
    assert (forall y, 0 <= y < 2 ^ 64 -> Z.land y (bnot 64 0xfff) = y - y mod 4096) as Hl.
    { intros y Hy. replace (y - y mod 4096) with (4096 * (y / 4096)) by (pose proof (Z.div_mod y 4096); lia). 
      replace (4096 * (y / 4096)) with (Z.shiftl (Z.shiftr y 12) 12) by (rewrite Z.shiftl_mul_pow2, Z.shiftr_div_pow2 by lia; change (2 ^ 12) with 4096; lia).
      rewrite <- Z.ldiff_ones_r by lia. apply Z.bits_inj'. intros n Hn. rewrite Z.land_spec, Z.ldiff_spec.
      destruct (decide (n < 64)).
      - f_equal. change (bnot 64 0xfff) with (Z.ldiff (Z.ones 64) (Z.ones 12)). rewrite Z.ldiff_spec, (Z.ones_spec_low 64) by lia. reflexivity.
      - rewrite (word_high 64 y n) by (unfold is_word; lia). reflexivity. }
    rewrite !Hl in E by lia. pose proof (Z.mod_pos_bound a 4096 ltac:(lia)). pose proof (Z.mod_pos_bound x 4096 ltac:(lia)).
    pose proof (Z.div_mod a 4096 ltac:(lia)). pose proof (Z.div_mod x 4096 ltac:(lia)). lia. }
  rewrite !Hne by lia. reflexivity.
Qed.
End History.

(** ** Results *)

Section Results.
Context {S V : Type} `{SlabLaws S} (sb vb : Z).
Implicit Types (g : Guarded S V) (k : KernelEnv V) (c : KernelChunk).

(** C10. A live chunk of kernel memory that is mapped, in a heap above the poison
    addresses as in each of the three layouts, is freed for good: kernel_free
    accepts it and overwrites it with poison, and after any further allocations of
    up to 4 GiB, frees, guarded accesses, reports and memory traffic, freeing it
    again is refused and recorded as a double free; and as long as the chunks of the
    ledger ascend by address, which the binary search of the guard relies on (they
    do while all come from the slab area or all from the vmalloc area, and need not
    when the two are mixed, see interleaved_regions_hide_uaf), every guarded read or
    write of any of its bytes is recorded as a use or write after free of that chunk
    at that instruction. *)
Theorem use_after_free_caught g k i c api :
  above_poison sb -> kernel g = Some k -> ledger_ok sb vb (heap k) -> wf (gmaps g) ->
  chunks (heap k) !! i = Some c -> is_freed c = false -> holds (gmaps g) c ->
  exists g1, kernel_free (c_addr c) api g = Ret (true, g1) /\
    stores (gmaps g) (gmaps g1) (c_addr c) (replicate (Z.to_nat (c_size c)) POISON_FREE) /\
    forall g2, rtc event g1 g2 -> exists k2, kernel g2 = Some k2 /\
      (ascending (heap k2) -> forall a rip n (w : bool), c_addr c <= a < c_addr c + c_size c ->
         exists g3, kernel_guard_access rip a n w g2 = Ret g3 /\
           found (if w then WriteAfterFree else UseAfterFree) rip (c_addr c) g3) /\
      exists g3, kernel_free (c_addr c) api g2 = Ret (false, g3) /\ found DoubleFree (gpc g2) (c_addr c) g3.
Proof.
  intros Hp Ek Hok Hwf Ei Hl Hh. destruct (kernel_free_live sb vb g k i c api Ek Hok Hwf Ei Hl Hh) as (h & mp & Efr & Ecs & Hok1 & _ & Hst).
  eexists. split; [exact Efr|]. split; [exact Hst|]. intros g2 Hrun. set (c1 := freed api (gpos g) (gpc g) c) in *.
  assert (chunks h !! i = Some c1) as Ei1 by (rewrite Ecs; apply list_lookup_insert_eq; now apply lookup_lt_Some in Ei).
  destruct (history_continues sb vb _ g2 (set_heap h k) Hrun eq_refl Hok1) as (k2 & Ek2 & Hok2 & Hev).
  destruct (Hev i c1 Ei1) as (c2 & Ei2 & _ & _ & Hfr). specialize (Hfr eq_refl). subst c2. cbn [heap set_heap] in Ei1.
  pose proof (list_elem_of_lookup_2 _ _ _ Ei2) as Hin2. exists k2. split; [exact Ek2|]. split.
  - intros Hasc a rip n w Ha. destruct (guard_access_spec sb vb k2 g2 rip a n w (conj Ek2 Hok2)) as (v & E & _ & Hv). specialize (Hv Hasc).
    assert (v = Some (if w then WriteAfterFree else UseAfterFree, origin_from c1)) as ->.
    { apply (verdict_unique sb vb (heap k2) a w); [exact Hok2 | exact Hv|]. apply (v_stale _ _ _ c1); auto.
      apply (not_poison sb); [exact Hp | exact (chunk_range sb vb (heap k2) c1 a Hok2 Hin2 Ha)]. }
    eexists. split; [exact E|]. exact (report_found _ rip a n (origin_from c1) g2 k2 Ek2).
  - eexists. split; [exact (kernel_free_again sb vb g2 k2 i c1 api Ek2 Hok2 Ei2 eq_refl)|].
    exact (report_found DoubleFree (gpc g2) (c_addr c) 0 (origin_from c1) g2 k2 Ek2).
Qed.


(** A request for up to 4 GiB of kernel memory, where the addresses next in turn are
    unmapped, returns, and one of these happens: the injected failure fires, the
    region is exhausted, or the name of the mapping is taken, each with NULL and
    memory as before, or the caller gets a fresh mapped chunk of at least the
    requested size filled with zeros or with the uninitialised pattern; all chunks
    ever handed out stay disjoint with a gap of a redzone between them, and the
    address space well-formed. *)
Theorem kernel_alloc_correct r req cache api zeroed g k :
  kernel g = Some k -> ledger_ok sb vb (heap k) -> wf (gmaps g) -> 0 <= req <= 2 ^ 32 ->
  let c := new_chunk r req cache api (gpos g) (gpc g) (heap k) in
  range_free (gmaps g) (c_addr c) (c_size c) ->
  exists p h mp, kernel_alloc r req cache api zeroed g =
      Ret (p, set_gmaps mp (set_kernel (Some (set_heap h (set_count (wadd (alloc_count k) 1) k))) g)) /\
    alloc_outcome r req zeroed k c (gmaps g) p h mp /\ wf mp /\ ledger_ok sb vb h /\
    forall i j x y, i <> j -> chunks h !! i = Some x -> chunks h !! j = Some y -> apart x y.
Proof.
  intros Ek Hok Hwf Hreq c Hfree. destruct (kernel_alloc_spec sb vb r req cache api zeroed g k Ek Hok Hwf Hreq Hfree) as (p & h & mp & E & Ho & Hok' & Hw).
  exists p, h, mp. do 4 (split; [assumption|]). intros i j x y. now apply (ledger_apart sb vb).
Qed.

(** *** Leaks *)

Definition leak_of (pos : Z) (o : ChunkOrigin) : Finding := mkFinding Leak pos (o_alloc_rip o) (o_addr o) 0 o 1.

Lemma add_finding_new new fs : key_of new ∉ key_of <$> fs -> add_finding new fs = fs ++ [new].
Proof.
  induction fs as [|f fs IH]; cbn; [reflexivity|]. rewrite not_elem_of_cons. intros [Hne Hni].
  destruct (same_finding _ _ _ f) eqn:E; [apply same_finding_key in E; exfalso; apply Hne; symmetry; exact E|]. now rewrite IH.
Qed.

Lemma report_leaks os g k :
  kernel g = Some k -> NoDup (o_addr <$> os) ->
  (forall f o, f ∈ findings k -> o ∈ os -> key_of f <> (Leak, o_alloc_rip o, o_addr o)) ->
  kernel (foldl (fun g o => kernel_report Leak (o_alloc_rip o) (o_addr o) 0 o g) g os) =
    Some (set_findings (findings k ++ (leak_of (gpos g) <$> os)) k).
Proof.
  revert g k. induction os as [|o os IH]; intros g k Ek Hn Hk; cbn [foldl fmap list_fmap].
  - rewrite app_nil_r, Ek. now destruct k.
  - apply NoDup_cons in Hn as [Hni Hn].
    assert (kernel_report Leak (o_alloc_rip o) (o_addr o) 0 o g =
      set_kernel (Some (set_findings (findings k ++ [leak_of (gpos g) o]) k)) g) as ->.
    { unfold kernel_report. rewrite Ek, add_finding_new; [reflexivity|]. intros (f & Ef & Hf)%list_elem_of_fmap.
      apply (Hk f o Hf); [left | now rewrite <- Ef]. }
    rewrite (IH _ (set_findings (findings k ++ [leak_of (gpos g) o]) k)); [| reflexivity | exact Hn |].
    + cbn. now rewrite <- app_assoc.
    + intros f o' Hf Ho' E. apply elem_of_app in Hf as [Hf | ->%list_elem_of_singleton].
      * now apply (Hk f o' Hf); [right|].
      * injection E as _ Ea. apply Hni. rewrite Ea. apply list_elem_of_fmap. eauto.
Qed.

Lemma NoDup_fmap_filter {T U} (f : T -> U) (P : T -> Prop) `{!forall x, Decision (P x)} (l : list T) : NoDup (f <$> l) -> NoDup (f <$> filter P l).
Proof.
  induction l as [|x l IH]; cbn [fmap list_fmap]; [auto|]. intros [Hni Hn]%NoDup_cons. rewrite filter_cons. case_decide; [|auto].
  cbn [fmap list_fmap]. apply NoDup_cons. split; [|auto]. intros (y & Ey & [_ Hy]%list_elem_of_filter)%list_elem_of_fmap.
  apply Hni, list_elem_of_fmap. eauto.
Qed.

Lemma addrs_distinct h : ledger_ok sb vb h -> NoDup (c_addr <$> chunks h).
Proof.
  intros Hok. apply NoDup_alt. intros i j a Ei Ej. rewrite list_lookup_fmap in Ei, Ej.
  destruct (chunks h !! i) as [c|] eqn:Ec; [|discriminate]. destruct (chunks h !! j) as [c'|] eqn:Ec'; [|discriminate].
  injection Ei as Ea. injection Ej as Ea'. destruct (decide (i = j)) as [|Hne]; [assumption|]. exfalso.
  pose proof (ch_size _ _ _ _ (lk_chunks _ _ _ Hok c (list_elem_of_lookup_2 _ _ _ Ec))).
  pose proof (ch_size _ _ _ _ (lk_chunks _ _ _ Hok c' (list_elem_of_lookup_2 _ _ _ Ec'))).
  destruct (ledger_apart sb vb h i j c c' Hok Hne Ec Ec'); unfold HEAP_REDZONE in *; lia.
Qed.

(** The leak check reports exactly the chunks that are still live, each once and in
    the order of their allocation. *)
Theorem leaks_exact k g :
  kernel g = Some k -> ledger_ok sb vb (heap k) -> (forall f, f ∈ findings k -> f_kind f <> Leak) ->
  kernel_findings (kernel_check_leaks g) = findings k ++ (leak_of (gpos g) ∘ origin_from <$> live (heap k)).
Proof.
  intros Ek Hok Hno. unfold kernel_check_leaks, kernel_findings. rewrite Ek, (report_leaks _ g k Ek).
  - cbn. now rewrite list_fmap_compose.
  - rewrite <- list_fmap_compose. apply (NoDup_fmap_filter c_addr), (addrs_distinct _ Hok).
  - intros f o Hf _ E. apply (Hno f Hf). now injection E.
Qed.
End Results.
