(* ===== verification/KernelSamples.v ===== *)
(** * Sample drivers

    A driver that allocates, frees and goes on using its memory, on which the
    theorems of KernelSpec.v are applied, and runs that show what the guard
    misses. *)

From stdpp Require Import gmap strings.
From S2P Require Import Prelude Scalar Mem64 Slab Tlb Maps MapsInv MapsLife MapsRun KernelGuard KernelSpec.

Notation sample_guarded := (Guarded (gmap nat Mem64) unit).

Definition SLAB : Z := 0xffff888000000000.
Definition VMAP : Z := 0xffffc90000000000.

Definition driver : sample_guarded := mkGuarded maps_default (Some (kenv_new KLinux tt)) true 7 0xffffffffc0000100.

(** The state after a call, and its result *)
Definition then_ {T} (o : outcome (T * sample_guarded)) : sample_guarded := match o with Ret (_, g) => g | Panic => driver end.
Definition kmalloc (n : Z) (g : sample_guarded) : sample_guarded := then_ (kernel_alloc Slab_ n "kmalloc" "kmalloc" false g).
Definition vmalloc (n : Z) (g : sample_guarded) : sample_guarded := then_ (kernel_alloc Vmalloc n "vmalloc" "vmalloc" false g).
Definition kfree (p : Z) (g : sample_guarded) : sample_guarded := then_ (kernel_free p "kfree" g).
Definition ledger (g : sample_guarded) : KernelHeap := match kernel g with Some k => heap k | None => kheap_new 0 0 0 0 end.

(** The first chunk: 20 bytes of a bucket of 32 *)
Definition first_chunk : KernelChunk := new_chunk Slab_ 20 "kmalloc" "kmalloc" 7 0xffffffffc0000100 (ledger driver).

Lemma driver_free : range_free (gmaps driver) (c_addr first_chunk) (c_size first_chunk).
Proof. intros k mm E. vm_compute in E. discriminate. Qed.

Lemma kernel_alloc_correct_witness :
  exists p h mp, kernel_alloc Slab_ 20 "kmalloc" "kmalloc" false driver =
      Ret (p, set_gmaps mp (set_kernel (Some (set_heap h (set_count 1 (kenv_new KLinux tt)))) driver)) /\
    alloc_outcome Slab_ 20 false (kenv_new KLinux tt) first_chunk maps_default p h mp /\ wf mp.
Proof.
  destruct (kernel_alloc_correct SLAB VMAP Slab_ 20 "kmalloc" "kmalloc" false driver (kenv_new KLinux tt)) as (p & h & mp & E & Ho & Hw & _);
    [reflexivity | apply (new_ledger KLinux tt) | exact default_wf | lia | exact driver_free |].
  exists p, h, mp. split; [exact E|]. split; [exact Ho | exact Hw].
Defined.

(** The driver with its chunk *)
Lemma allocated_ok : exists k, kernel (kmalloc 20 driver) = Some k /\ ledger_ok SLAB VMAP (heap k) /\ wf (gmaps (kmalloc 20 driver)) /\
  chunks (heap k) = [first_chunk] /\ holds (gmaps (kmalloc 20 driver)) first_chunk.
Proof.
  destruct (kernel_alloc_spec SLAB VMAP Slab_ 20 "kmalloc" "kmalloc" false driver (kenv_new KLinux tt)) as (p & h & mp & E & Ho & Hok & Hw);
    [reflexivity | apply (new_ledger KLinux tt) | exact default_wf | lia | exact driver_free |].
  unfold kmalloc, then_. rewrite E. eexists. split; [reflexivity|]. cbn [heap set_heap gmaps set_gmaps].
  assert (chunks h = [first_chunk] /\ holds mp first_chunk) as [Ecs Hh].
  { destruct Ho as [Hi | Hex | h mp [x Hx] | h mp Ecs Hh]; [discriminate Hi | vm_compute in Hex; discriminate Hex | | now split].
    vm_compute in Hx. discriminate Hx. }
  exact (conj Hok (conj Hw (conj Ecs Hh))).
Qed.

(** A read of the freed chunk, after another one was allocated *)
Definition freed_then_more : sample_guarded := kmalloc 20 (kfree SLAB (kmalloc 20 driver)).

Lemma freed_then_more_run : rtc event (kfree SLAB (kmalloc 20 driver)) freed_then_more.
Proof.
  apply rtc_once. apply (ev_alloc Slab_ 20 "kmalloc" "kmalloc" false (SLAB + 0x1020)); [lia|]. vm_compute. reflexivity.
Qed.

Lemma freed_then_more_ascending k : kernel freed_then_more = Some k -> ascending (heap k).
Proof.
  intros Ek. vm_compute in Ek. injection Ek as <-. intros [|[|i]] [|[|j]] c c' Hij Ei Ej; cbn in Ei, Ej; try lia; try discriminate.
  injection Ei as <-. injection Ej as <-. cbn. lia.
Qed.

Lemma use_after_free_caught_witness :
  exists g3, kernel_guard_access 0xffffffffc0000200 (SLAB + 8) 8 false freed_then_more = Ret g3 /\
    found UseAfterFree 0xffffffffc0000200 SLAB g3.
Proof.
  destruct allocated_ok as (k & Ek & Hl & Hw & Ecs & Hh).
  destruct (use_after_free_caught SLAB VMAP (kmalloc 20 driver) k 0 first_chunk "kfree") as (g1 & Ef & _ & Hrun);
    [apply (new_ledger KLinux tt) | exact Ek | exact Hl | exact Hw | now rewrite Ecs | reflexivity | exact Hh |].
  assert (g1 = kfree SLAB (kmalloc 20 driver)) as -> by (unfold kfree; change SLAB with (c_addr first_chunk); now rewrite Ef).
  destruct (Hrun _ freed_then_more_run) as (k2 & Ek2 & Hacc & _).
  destruct (Hacc ltac:(apply freed_then_more_ascending; exact Ek2) (SLAB + 8) 0xffffffffc0000200 8 false) as (g3 & Ea & Hf);
    [vm_compute; intuition congruence|].
  exists g3. split; [exact Ea | exact Hf].
Defined.


Lemma leaks_exact_witness :
  kernel_findings (kernel_check_leaks (kmalloc 20 driver)) = [leak_of 7 (origin_from first_chunk)].
Proof.
  destruct allocated_ok as (k & Ek & Hl & _ & Ecs & _).
  rewrite (leaks_exact SLAB VMAP k); [| exact Ek | exact Hl |].
  - assert (findings k = []) as -> by (vm_compute in Ek; now injection Ek as <-). unfold live. rewrite Ecs. reflexivity.
  - assert (findings k = []) as -> by (vm_compute in Ek; now injection Ek as <-). intros f Hf. now apply elem_of_nil in Hf.
Defined.

(** ** Runs *)

(** With a vmalloc chunk between them, the second slab chunk is not found: its use after free
    goes unnoticed, while that of the first is reported. *)
Definition second : Z := SLAB + 0x1020.
Definition mixed : sample_guarded := kfree second (kfree SLAB (kmalloc 20 (vmalloc 4096 (kmalloc 20 driver)))).

Lemma interleaved_regions_hide_uaf :
  is_freed <$> chunks (ledger mixed) = [true; false; true] /\ c_addr <$> chunks (ledger mixed) = [SLAB; VMAP; second] /\
  match kernel_guard_access 1 SLAB 8 false mixed, kernel_guard_access 1 second 8 false mixed with
  | Ret g1, Ret g2 => length (kernel_findings g1) = 1%nat /\ kernel_findings g2 = []
  | _, _ => False
  end.
Proof. vm_compute. auto. Qed.

(** A byte within the bucket but past the requested size counts as an overflow. *)
Lemma bucket_slack_reported :
  c_size first_chunk = 32 /\ c_req_size first_chunk = 20 /\
  match kernel_guard_access 1 (SLAB + 24) 1 false (kmalloc 20 driver) with
  | Ret g => f_kind <$> kernel_findings g = [HeapOverflow]
  | Panic => False
  end.
Proof. vm_compute. auto. Qed.

(** A request close to 2^64 bytes wraps, is served, and moves the cursor back. *)
Lemma huge_request_served :
  match record_alloc Slab_ (2 ^ 64 - 0x2000) "kmalloc" "kmalloc" 0 0 (ledger driver) with
  | (Some c, h) => c_size c = 2 ^ 64 - 0x2000 /\ slab_cursor h < slab_cursor (ledger driver)
  | (None, _) => False
  end.
Proof. vm_compute. auto. Qed.

(** Only the first byte of an access is judged: eight bytes at offset 16 of a request of 20. *)
Lemma straddling_access_missed : kernel_guard_access 1 (SLAB + 16) 8 true (kmalloc 20 driver) = Ret (kmalloc 20 driver).
Proof. vm_compute. reflexivity. Qed.

(** When the memory cannot be mapped the caller gets NULL, but the chunk stays in the ledger and is
    reported as a leak. *)
Definition occupied : sample_guarded :=
  match create_map "other" SLAB 0x10 Perm.READ_WRITE maps_default with
  | Ret (_, mp) => set_gmaps mp driver
  | Panic => driver
  end.

Lemma refused_chunk_leaks :
  match kernel_alloc Slab_ 20 "kmalloc" "kmalloc" false occupied with
  | Ret (p, g) => p = 0 /\ length (kernel_findings (kernel_check_leaks g)) = 1%nat
  | Panic => False
  end.
Proof. vm_compute. auto. Qed.

(** The kernel stack of the Linux plan lies in its vmalloc region. *)
Lemma linux_stack_in_vmalloc :
  let l := for_os KLinux in vmalloc_base l < stack_base l /\ stack_base l + stack_size l < vmalloc_base l + vmalloc_size l.
Proof. vm_compute. auto. Qed.
