(* ===== verification/A64.v ===== *)
(** * The AArch64 machine ([arch/aarch64/regs.rs], [engine/aarch64/helpers.rs])

    Registers and condition flags, the operands that the decoder (yaxpeax_arm)
    hands to the engine, and the helpers through which every handler reads and
    writes registers, immediates and memory.

    [A64] is the part of [struct Emu] that the engine uses, with the registers
    and the reservation of the current thread; the rest is the type [R].  The
    constructors of [Operand] are those the source tells apart; the others are
    [OtherOperand].  A shift in Rust takes its amount modulo the width. *)

From stdpp Require Import gmap strings.
From S2P Require Import Prelude Scalar Mem64 Slab Tlb Maps Threads KernelGuard.

(** ** Shifts, rotations and counts of the standard library *)

(** [x << n], [x >> n] on [u_w], [x >> n] on [i_w] *)
Definition ushl (w x n : Z) : Z := shl w x (n mod w).
Definition ushr (w x n : Z) : Z := Z.shiftr x (n mod w).
Definition ishr (w x n : Z) : Z := wrap w (Z.shiftr (sgn w x) (n mod w)).

(** [x.rotate_right(n)] *)
Definition rotate_right (w x n : Z) : Z := Z.lor (Z.shiftr x (n mod w)) (shl w x (w - n mod w)).

(** [x.leading_zeros()] *)
Definition leading_zeros (w x : Z) : Z := if x =? 0 then w else w - 1 - Z.log2 x.

(** [x.reverse_bits()] on [n] bits *)
Fixpoint reverse_bits (n : nat) (x : Z) : Z :=
  match n with
  | O => 0
  | S n => Z.lor (Z.shiftl (Z.land x 1) (Z.of_nat n)) (reverse_bits n (Z.shiftr x 1))
  end.

(** [x.swap_bytes()] on [n] bytes *)
Definition swap_bytes (n : nat) (x : Z) : Z := from_le_bytes (rev (to_le_bytes n x)).

(** ** Flags *)

(** [struct FlagsNZCV] *)
Record FlagsNZCV := mkNZCV { fl_n : bool; fl_z : bool; fl_c : bool; fl_v : bool }.

(** [FlagsNZCV::new], [clear], [as_u64], [from_u64] *)
Definition nzcv_new : FlagsNZCV := mkNZCV false false false false.
Definition nzcv_clear (_ : FlagsNZCV) : FlagsNZCV := nzcv_new.
Definition as_u64 (f : FlagsNZCV) : Z :=
  Z.lor (Z.lor (Z.lor (ushl 64 (Z.b2z (fl_n f)) 31) (ushl 64 (Z.b2z (fl_z f)) 30)) (ushl 64 (Z.b2z (fl_c f)) 29))
    (ushl 64 (Z.b2z (fl_v f)) 28).
Definition from_u64 (val : Z) : FlagsNZCV :=
  mkNZCV (negb (Z.land (ushr 64 val 31) 1 =? 0)) (negb (Z.land (ushr 64 val 30) 1 =? 0))
    (negb (Z.land (ushr 64 val 29) 1 =? 0)) (negb (Z.land (ushr 64 val 28) 1 =? 0)).

(** [FlagsNZCV::update_add64], [update_add32], [update_sub64], [update_sub32], [update_logic64],
    [update_logic32] *)
Definition update_add64 (a b result : Z) : FlagsNZCV :=
  mkNZCV (sgn 64 result <? 0) (result =? 0) (result <? a)
    (Z.land (Z.lxor (sgn 64 a) (sgn 64 result)) (Z.lxor (sgn 64 b) (sgn 64 result)) <? 0).
Definition update_add32 (a b result : Z) : FlagsNZCV :=
  mkNZCV (sgn 32 result <? 0) (result =? 0) (result <? a)
    (Z.land (Z.lxor (sgn 32 a) (sgn 32 result)) (Z.lxor (sgn 32 b) (sgn 32 result)) <? 0).
Definition update_sub64 (a b result : Z) : FlagsNZCV :=
  mkNZCV (sgn 64 result <? 0) (result =? 0) (b <=? a)
    (Z.land (Z.lxor (sgn 64 a) (sgn 64 b)) (Z.lxor (sgn 64 a) (sgn 64 result)) <? 0).
Definition update_sub32 (a b result : Z) : FlagsNZCV :=
  mkNZCV (sgn 32 result <? 0) (result =? 0) (b <=? a)
    (Z.land (Z.lxor (sgn 32 a) (sgn 32 b)) (Z.lxor (sgn 32 a) (sgn 32 result)) <? 0).
Definition update_logic64 (result : Z) : FlagsNZCV := mkNZCV (sgn 64 result <? 0) (result =? 0) false false.
Definition update_logic32 (result : Z) : FlagsNZCV := mkNZCV (sgn 32 result <? 0) (result =? 0) false false.

(** [FlagsNZCV::eval_condition] *)
Definition eval_condition (cond : Z) (f : FlagsNZCV) : bool :=
  match Z.land cond 0xf with
  | 0 => fl_z f
  | 1 => negb (fl_z f)
  | 2 => fl_c f
  | 3 => negb (fl_c f)
  | 4 => fl_n f
  | 5 => negb (fl_n f)
  | 6 => fl_v f
  | 7 => negb (fl_v f)
  | 8 => fl_c f && negb (fl_z f)
  | 9 => negb (fl_c f) || fl_z f
  | 10 => eqb (fl_n f) (fl_v f)
  | 11 => negb (eqb (fl_n f) (fl_v f))
  | 12 => negb (fl_z f) && eqb (fl_n f) (fl_v f)
  | 13 => fl_z f || negb (eqb (fl_n f) (fl_v f))
  | _ => true
  end.

(** ** Registers *)

(** [struct RegsAarch64] *)
Record RegsAarch64 := mkRegsA {
  rx : list Z;
  rsp : Z;
  rpc : Z;
  nzcv : FlagsNZCV;
  tpidr_el0 : Z;
  fpcr : Z;
  fpsr : Z;
  rv : list Z }.

(** [RegsAarch64::new] *)
Definition regs_new : RegsAarch64 := mkRegsA (replicate 31 0) 0 0 nzcv_new 0 0 0 (replicate 32 0).

Definition set_rx v r := mkRegsA v (rsp r) (rpc r) (nzcv r) (tpidr_el0 r) (fpcr r) (fpsr r) (rv r).
Definition set_rsp v r := mkRegsA (rx r) v (rpc r) (nzcv r) (tpidr_el0 r) (fpcr r) (fpsr r) (rv r).
Definition set_rpc v r := mkRegsA (rx r) (rsp r) v (nzcv r) (tpidr_el0 r) (fpcr r) (fpsr r) (rv r).
Definition set_nzcv v r := mkRegsA (rx r) (rsp r) (rpc r) v (tpidr_el0 r) (fpcr r) (fpsr r) (rv r).
Definition set_rv v r := mkRegsA (rx r) (rsp r) (rpc r) (nzcv r) (tpidr_el0 r) (fpcr r) (fpsr r) v.

(** [RegsAarch64::get_x], [get_w], [set_x], [set_w], [get_x_or_sp], [set_x_or_sp] *)
Definition get_x (reg : nat) (r : RegsAarch64) : outcome Z := if (reg =? 31)%nat then Ret 0 else index reg (rx r).
Definition get_w (reg : nat) (r : RegsAarch64) : outcome Z := v ← get_x reg r; Ret (wrap 32 v).
Definition set_x (reg : nat) (val : Z) (r : RegsAarch64) : outcome RegsAarch64 :=
  if (reg <? 31)%nat then x ← index_set reg val (rx r); Ret (set_rx x r) else Ret r.
Definition set_w (reg : nat) (val : Z) (r : RegsAarch64) : outcome RegsAarch64 := set_x reg val r.
Definition get_x_or_sp (reg : nat) (r : RegsAarch64) : outcome Z := if (reg =? 31)%nat then Ret (rsp r) else index reg (rx r).
Definition set_x_or_sp (reg : nat) (val : Z) (r : RegsAarch64) : outcome RegsAarch64 :=
  if (reg =? 31)%nat then Ret (set_rsp val r) else x ← index_set reg val (rx r); Ret (set_rx x r).

(** ** Operands *)

(** [SizeCode], [SIMDSizeCode], [ShiftStyle], [Operand] of yaxpeax_arm *)
Inductive SizeCode := SX | SW.
Inductive SIMDSizeCode := SimdB | SimdH | SimdS | SimdD | SimdQ.
Inductive ShiftStyle := LSL | LSR | ASR | ROR | UXTB | UXTH | UXTW | UXTX | SXTB | SXTH | SXTW | SXTX.

Inductive Operand :=
  | Nothing
  | Register (sz : SizeCode) (n : nat)
  | RegisterOrSP (sz : SizeCode) (n : nat)
  | RegisterPair (sz : SizeCode) (n : nat)
  | SIMDRegister (sz : SIMDSizeCode) (n : nat)
  | SIMDRegisterElements (sz : SIMDSizeCode) (n : nat) (elem : SIMDSizeCode)
  | SIMDRegisterElementsLane (sz : SIMDSizeCode) (n : nat) (elem : SIMDSizeCode) (lane : Z)
  | ConditionCode (c : Z)
  | PCOffset (off : Z)
  | Immediate (v : Z)
  | Imm64 (v : Z)
  | Imm16 (v : Z)
  | ImmShift (v shift : Z)
  | RegShift (style : ShiftStyle) (amt : Z) (sz : SizeCode) (n : nat)
  | RegPreIndex (n : nat) (off : Z) (writeback : bool)
  | RegPostIndex (n : nat) (off : Z)
  | RegRegOffset (base idx : nat) (sz : SizeCode) (style : ShiftStyle) (amt : Z)
  | ImmediateDouble
  | OtherOperand.

(** [Instruction]: the opcode and the four operands; the type of opcodes is that of A64Ops.v. *)
Record Instruction (O : Type) := mkIns { opcode : O; op0 : Operand; op1 : Operand; op2 : Operand; op3 : Operand }.
Arguments mkIns {O}. Arguments opcode {O}. Arguments op0 {O}. Arguments op1 {O}. Arguments op2 {O}. Arguments op3 {O}.

(** [enum ShiftOp] *)
Inductive ShiftOp := Lsl | Lsr | Asr | Ror.

(** [pac_strip] *)
Definition pac_strip (addr : Z) : Z :=
  if negb (Z.land addr (ushl 64 1 55) =? 0) then Z.lor addr 0xFFFF000000000000 else Z.land addr 0x0000FFFFFFFFFFFF.

(** [is_64], [operand_is_64], [reg_bytes] *)
Definition is_64 (sz : SizeCode) : bool := match sz with SX => true | SW => false end.
Definition operand_is_64 (op : Operand) : bool :=
  match op with Register sz _ | RegisterOrSP sz _ => is_64 sz | _ => true end.
Definition reg_bytes (op : Operand) : Z := if operand_is_64 op then 8 else 4.

(** [apply_shift], [apply_shift32] *)
Definition apply_shift (val : Z) (style : ShiftStyle) (amt : Z) : Z :=
  match style with
  | LSL => ushl 64 val amt
  | LSR => ushr 64 val amt
  | ASR => ishr 64 val amt
  | ROR => rotate_right 64 val amt
  | UXTB => ushl 64 (wrap 8 val) amt
  | UXTH => ushl 64 (wrap 16 val) amt
  | UXTW => ushl 64 (wrap 32 val) amt
  | UXTX => ushl 64 val amt
  | SXTB => ushl 64 (wrap 64 (sgn 8 val)) amt
  | SXTH => ushl 64 (wrap 64 (sgn 16 val)) amt
  | SXTW => ushl 64 (wrap 64 (sgn 32 val)) amt
  | SXTX => ushl 64 val amt
  end.
Definition apply_shift32 (val : Z) (style : ShiftStyle) (amt : Z) : Z :=
  match style with
  | LSL => ushl 32 val amt
  | LSR => ushr 32 val amt
  | ASR => ishr 32 val amt
  | ROR => rotate_right 32 val amt
  | _ => apply_shift val style amt
  end.

(** [read_imm] *)
Definition read_imm (op : Operand) : Z := match op with Immediate v | Imm64 v | Imm16 v => v | _ => 0 end.

(** The registers an operand reads and writes: [read_reg], [write_reg], [read_operand_value],
    [resolve_mem_addr], [do_writeback] *)
Definition low_half (sz : SizeCode) (v : Z) : Z := if is_64 sz then v else Z.land v 0xffffffff.
Definition read_reg (op : Operand) (r : RegsAarch64) : outcome Z :=
  match op with
  | Register sz n => val ← get_x n r; Ret (low_half sz val)
  | RegisterOrSP sz n => val ← get_x_or_sp n r; Ret (low_half sz val)
  | _ => Ret 0
  end.
Definition write_reg (op : Operand) (val : Z) (r : RegsAarch64) : outcome RegsAarch64 :=
  match op with
  | Register sz n => set_x n (low_half sz val) r
  | RegisterOrSP sz n => set_x_or_sp n (low_half sz val) r
  | _ => Ret r
  end.
Definition read_operand_value (op : Operand) (r : RegsAarch64) : outcome Z :=
  match op with
  | Register _ _ | RegisterOrSP _ _ => read_reg op r
  | Immediate v | Imm64 v | Imm16 v => Ret v
  | ImmShift v shift => Ret (ushl 64 v shift)
  | RegShift style amt sz n =>
      val ← get_x n r;
      Ret (if is_64 sz then apply_shift val style amt else apply_shift32 (wrap 32 val) style amt)
  | SIMDRegister _ n | SIMDRegisterElements _ n _ => v ← index n (rv r); Ret (wrap 64 v)
  | _ => Ret 0
  end.
Definition resolve_mem_addr (op : Operand) (r : RegsAarch64) : outcome (Z * option (nat * Z)) :=
  match op with
  | RegPreIndex n off writeback =>
      base ← get_x_or_sp n r;
      let addr := wadd base (wrap 64 off) in
      Ret (addr, if writeback then Some (n, addr) else None)
  | RegPostIndex n off =>
      base ← get_x_or_sp n r;
      Ret (base, Some (n, wadd base (wrap 64 off)))
  | RegRegOffset b i sz style amt =>
      base ← get_x_or_sp b r;
      idx ← get_x i r;
      let idx := if negb (is_64 sz) then Z.land idx 0xffffffff else idx in
      Ret (wadd base (apply_shift idx style amt), None)
  | PCOffset off => Ret (wadd (rpc r) (wrap 64 off), None)
  | _ => Ret (0, None)
  end.
Definition do_writeback (wb : option (nat * Z)) (r : RegsAarch64) : outcome RegsAarch64 :=
  match wb with Some (n, val) => set_x_or_sp n val r | None => Ret r end.

(** ** State *)

Record A64 (S V R : Type) := mkA64 {
  aregs : RegsAarch64;
  exclusive : option Reservation;
  amaps : Maps S;
  akernel : option (KernelEnv V);
  akernel_guard : bool;
  apos : Z;
  force_reload : bool;
  arest : R }.
Arguments mkA64 {S V R}. Arguments aregs {S V R}. Arguments exclusive {S V R}. Arguments amaps {S V R}.
Arguments akernel {S V R}. Arguments akernel_guard {S V R}. Arguments apos {S V R}.
Arguments force_reload {S V R}. Arguments arest {S V R}.

Section State.
Context {S V R : Type} `{Slab S}.
Implicit Types (a : A64 S V R).

Definition set_aregs v a : A64 S V R := mkA64 v (exclusive a) (amaps a) (akernel a) (akernel_guard a) (apos a) (force_reload a) (arest a).
Definition set_exclusive v a : A64 S V R := mkA64 (aregs a) v (amaps a) (akernel a) (akernel_guard a) (apos a) (force_reload a) (arest a).
Definition set_amaps v a : A64 S V R := mkA64 (aregs a) (exclusive a) v (akernel a) (akernel_guard a) (apos a) (force_reload a) (arest a).
Definition set_akernel v a : A64 S V R := mkA64 (aregs a) (exclusive a) (amaps a) v (akernel_guard a) (apos a) (force_reload a) (arest a).
Definition set_reload v a : A64 S V R := mkA64 (aregs a) (exclusive a) (amaps a) (akernel a) (akernel_guard a) (apos a) v (arest a).

(** The emulator as the memory guard sees it *)
Definition as_guarded a : Guarded S V := mkGuarded (amaps a) (akernel a) (akernel_guard a) (apos a) (rpc (aregs a)).

(** [guard_mem] *)
Definition guard_mem (addr bytes : Z) (is_write : bool) a : outcome (A64 S V R) :=
  if akernel_guard a then
    g ← kernel_guard_access (rpc (aregs a)) addr bytes is_write (as_guarded a);
    Ret (set_akernel (kernel g) a)
  else Ret a.

Definition on_amaps {T} (f : Maps S -> outcome (T * Maps S)) a : outcome (T * A64 S V R) :=
  '(t, mp) ← f (amaps a); Ret (t, set_amaps mp a).

(** The access to memory of the given number of bytes *)
Definition read_n (bytes addr : Z) : Maps S -> outcome (option Z * Maps S) :=
  if bytes =? 1 then read_byte addr else if bytes =? 2 then read_word addr
  else if bytes =? 4 then read_dword addr else read_qword addr.
Definition write_n (bytes addr val : Z) : Maps S -> outcome (bool * Maps S) :=
  if bytes =? 1 then write_byte addr (wrap 8 val) else if bytes =? 2 then write_word addr (wrap 16 val)
  else if bytes =? 4 then write_dword addr (wrap 32 val) else write_qword addr val.

(** [read_mem], [write_mem] *)
Definition read_mem (addr bytes : Z) a : outcome (option Z * A64 S V R) :=
  a ← guard_mem addr (wrap 32 bytes) false a; on_amaps (read_n bytes addr) a.
Definition write_mem (addr bytes val : Z) a : outcome (bool * A64 S V R) :=
  a ← guard_mem addr (wrap 32 bytes) true a; on_amaps (write_n bytes addr val) a.

(** [read_reg], [read_operand_value], [write_reg] and [do_writeback] on the emulator *)
Definition rd (op : Operand) a : outcome Z := read_reg op (aregs a).
Definition rv_of (op : Operand) a : outcome Z := read_operand_value op (aregs a).
Definition wr (op : Operand) (val : Z) a : outcome (A64 S V R) := r ← write_reg op val (aregs a); Ret (set_aregs r a).
Definition wback (wb : option (nat * Z)) a : outcome (A64 S V R) := r ← do_writeback wb (aregs a); Ret (set_aregs r a).
Definition set_flags (f : FlagsNZCV) a : A64 S V R := set_aregs (set_nzcv f (aregs a)) a.
End State.
