(* ===== verification/A64Ops.v ===== *)
(** * The AArch64 instruction handlers ([engine/aarch64/])

    One definition per [execute] of engine/aarch64/instructions/, named after its
    file, and the dispatch of engine/aarch64/mod.rs.  Control transfers into
    libraries, system calls and host floating point are methods of [A64Env].
    Logging is left out. *)

From stdpp Require Import gmap strings.
From S2P Require Import Prelude Scalar Mem64 Slab Tlb Maps Threads KernelGuard MacThreads A64.

(** [Opcode] of yaxpeax_arm: the constructors that the engine tells apart; a payload that it
    ignores is left out. *)
Inductive Opcode :=
  | ADD | ADDS | SUB | SUBS | AND | ANDS | ORR | EOR | ORN | BIC | MOVZ | MOVK | MOVN | MADD | MSUB | UMULH | SMULH
  | SMADDL | UMADDL | SMSUBL | UMSUBL | ADC | ADCS | SBC | SBCS | EON | BICS | BFM | CLS | SDIV | UDIV | ADR | ADRP | CLZ
  | LSLV | LSRV | ASRV | RORV | SBFM | UBFM | EXTR | RBIT | REV | REV16 | REV32
  | LDR | LDRB | LDRH | LDRSB | LDRSH | LDRSW | LDP | LDPSW | LDNP
  | LDXR | LDAXR | LDAR | LDAPR | LDLAR | LDXRB | LDAXRB | LDARB | LDAPRB | LDXRH | LDAXRH | LDARH | LDAPRH | LDXP | LDAXP
  | LDAPUR | LDAPURB | LDAPURH | LDAPURSB | LDAPURSH | LDAPURSW | LDUR | LDURB | LDURH | LDURSB | LDURSH | LDURSW
  | STR | STRB | STRH | STP | STNP | STXR | STLXR | STXRB | STLXRB | STXRH | STLXRH | STXP | STLXP | STLR | STLLR
  | STLRB | STLRH | STLUR | STLURB | STLURH
  | CAS | CASB | CASH | CASP | SWP | SWPB | SWPH | LDADD | LDADDB | LDADDH | LDCLR | LDCLRB | LDCLRH | LDEOR | LDEORB | LDEORH
  | LDSET | LDSETB | LDSETH | LDSMAX | LDSMAXB | LDSMAXH | LDSMIN | LDSMINB | LDSMINH | LDUMAX | LDUMAXB | LDUMAXH
  | LDUMIN | LDUMINB | LDUMINH | STUR | STURB | STURH
  | B | BL | BR | BRAA | BRAAZ | BRAB | BRABZ | BLR | BLRAA | BLRAAZ | BLRAB | BLRABZ | RET | RETAA | RETAB
  | CBZ | CBNZ | TBZ | TBNZ | Bcc (cond : Z) | CCMP | CCMN | CSEL | CSINC | CSINV | CSNEG | SVC | MRS | MSR
  | MOVI | FMOV | DUP | UMOV | INS | NOT
  | FADD | FSUB | FMUL | FDIV | FMAX | FMIN | FMAXNM | FMINNM | FNMUL | FABS | FNEG | FSQRT | FCVT | FMADD | FMSUB | FNMADD | FNMSUB
  | FCMP | FCMPE | FCCMP | FCCMPE | FCSEL | SCVTF | UCVTF | FCVTNS | FCVTPS | FCVTMS | FCVTAS | FCVTZS | FCVTNU | FCVTPU | FCVTMU
  | FCVTAU | FCVTZU | FRINTN | FRINTX | FRINTI | FRINTP | FRINTM | FRINTA | FRINTZ
  | PRFM | PRFUM | HINT | DMB | DSB | ISB | CLREX
  | PACIA | PACIB | PACDA | PACDB | PACIZA | PACIZB | PACDZA | PACDZB | PACGA | PACIASP | PACIAZ | PACIA1716 | PACIA171615
  | PACIASPPC | PACNBIASPPC | PACIBSP | PACIBZ | PACIB1716 | PACIB171615 | PACIBSPPC | PACNBIBSPPC | PACM
  | AUTIA | AUTIB | AUTDA | AUTDB | AUTIZA | AUTIZB | AUTDZA | AUTDZB | AUTIASP | AUTIAZ | AUTIA1716 | AUTIA171615 | AUTIASPPC
  | AUTIASPPCR | AUTIBSP | AUTIBZ | AUTIB1716 | AUTIB171615 | AUTIBSPPC | AUTIBSPPCR | XPACI | XPACD | XPACLRI
  | OtherOpcode.

Notation Ins := (Instruction Opcode).

(** What the engine calls outside the modelled part: [Emu::kernel_set_pc], the library calls of
    [set_pc_aarch64], the emulated system and its calls, the handlers that use host floating point, the decoder, the
    instruction hooks (without a hook the first returns true) and the console. *)
Class A64Env (S V R : Type) := {
  kernel_set_pc : Z -> A64 S V R -> outcome (bool * A64 S V R);
  enter_library : Z -> string -> A64 S V R -> outcome (bool * A64 S V R);
  is_macos : R -> bool;
  is_linux : R -> bool;
  syscall_macos : A64 S V R -> outcome (A64 S V R);
  syscall_linux : A64 S V R -> outcome (A64 S V R);
  float_execute : Ins -> A64 S V R -> outcome (bool * A64 S V R);
  decode : list Z -> option Ins;
  pre_instruction_hook : Z -> Ins -> A64 S V R -> outcome (bool * A64 S V R);
  post_instruction_hook : Z -> Ins -> bool -> A64 S V R -> outcome (A64 S V R);
  spawn_console : A64 S V R -> outcome (A64 S V R) }.

(** [enum RmwOp] and the helpers of atomic.rs *)
Inductive RmwOp := RAdd | RClr | REor | RSet | RSmax | RSmin | RUmax | RUmin | RSwp.

Definition atomic_sign_extend (val bytes : Z) : Z := Z.shiftr (sgn 64 (ushl 64 val (64 - bytes * 8))) ((64 - bytes * 8) mod 64).
Definition width_mask (bytes : Z) : Z := if 8 <=? bytes then 2 ^ 64 - 1 else wsub (ushl 64 1 (bytes * 8)) 1.
Definition combine (op : RmwOp) (old operand bytes : Z) : Z :=
  let so := atomic_sign_extend old bytes in
  let sv := atomic_sign_extend operand bytes in
  match op with
  | RAdd => wadd old operand
  | RClr => Z.land old (bnot 64 operand)
  | REor => Z.lxor old operand
  | RSet => Z.lor old operand
  | RSmax => wrap 64 (Z.max so sv)
  | RSmin => wrap 64 (Z.min so sv)
  | RUmax => Z.max old operand
  | RUmin => Z.min old operand
  | RSwp => operand
  end.

(** Helpers of bfm.rs and sbfm.rs; the shifts are those of the release profile. *)
Definition low_mask (width : Z) : Z := if 64 <=? width then 2 ^ 64 - 1 else wsub (ushl 64 1 width) 1.
Definition ones_below (width : Z) : Z := wsub (ushl 64 1 width) 1.
Definition sign_extend (val width total : Z) : Z :=
  if (width =? 0) || (total <=? width) then val
  else if Z.land (ushr 64 val (width - 1)) 1 =? 1 then
    let mask := bnot 64 (ones_below width) in
    Z.lor val (if total <? 64 then Z.land mask (ones_below total) else mask)
  else val.
Definition sign_extend_from (val msb total : Z) : Z :=
  if total <=? msb + 1 then val
  else if Z.land (ushr 64 val msb) 1 =? 1 then
    let mask := bnot 64 (ones_below (msb + 1)) in
    Z.lor val (if total <? 64 then Z.land mask (ones_below total) else mask)
  else Z.land val (ones_below (msb + 1)).

(** Lanes: [simd_sub] of sub.rs, [elem_bits] and [lane_mask] of simd.rs *)
Definition elem_bits (sz : SIMDSizeCode) : Z :=
  match sz with SimdB => 8 | SimdH => 16 | SimdS => 32 | SimdD => 64 | SimdQ => 128 end.
Definition lane_mask (bits : Z) : Z := if 128 <=? bits then 2 ^ 128 - 1 else wrap 128 (ushl 128 1 bits - 1).
Definition simd_sub_lane (a b bits i : Z) : Z :=
  let mask := lane_mask bits in
  ushl 128 (Z.land (wrap 128 (Z.land (ushr 128 a (i * bits)) mask - Z.land (ushr 128 b (i * bits)) mask)) mask) (i * bits).
Definition simd_sub (a b bits : Z) : Z :=
  foldl (fun acc i => Z.lor acc (simd_sub_lane a b bits i)) 0 (Z.of_nat <$> seq 0 (Z.to_nat (128 / bits))).

(** How many bytes of memory a SIMD register takes; pairs know three sizes. *)
Definition simd_bytes (sz : SIMDSizeCode) : nat := match sz with SimdQ => 16 | SimdD => 8 | SimdS => 4 | SimdH => 2 | SimdB => 1 end.
Definition simd_pair_bytes (sz : SIMDSizeCode) : nat := match sz with SimdQ => 16 | SimdD => 8 | SimdS => 4 | _ => 16 end.

(** [to_bits]: mask of a W result *)
Definition clip (is64 : bool) (v : Z) : Z := if is64 then v else Z.land v 0xffffffff.

Section Handlers.
Context {S V R : Type} `{Slab S} `{A64Env S V R}.
Implicit Types (a : A64 S V R) (ins : Ins).
Notation result := (outcome (bool * A64 S V R)).

(** ** Arithmetic and logic *)

(** add.rs, sub.rs *)
Definition add_execute ins (setf : bool) a : result :=
  let is64 := operand_is_64 (op0 ins) in
  x ← rv_of (op1 ins) a;
  y ← rv_of (op2 ins) a;
  let res := wadd x y in
  let a := if setf then
             set_flags (if is64 then update_add64 x y res else update_add32 (wrap 32 x) (wrap 32 y) (wrap 32 res)) a
           else a in
  a ← wr (op0 ins) (clip is64 res) a;
  Ret (true, a).

Definition read_simd_reg (op : Operand) a : outcome Z :=
  match op with SIMDRegisterElements _ n _ | SIMDRegister _ n => index n (rv (aregs a)) | _ => Ret 0 end.
Definition put_simd (n : nat) (val : Z) a : outcome (A64 S V R) :=
  vs ← index_set n val (rv (aregs a)); Ret (set_aregs (set_rv vs (aregs a)) a).

Definition sub_execute_simd ins a : result :=
  match (match op0 ins with SIMDRegisterElements _ n sz => Some (n, sz) | SIMDRegister sz n => Some (n, sz) | _ => None end) with
  | None => Ret (true, a)
  | Some (n, sz) =>
      x ← read_simd_reg (op1 ins) a;
      y ← read_simd_reg (op2 ins) a;
      let bits := match sz with SimdB => 8 | SimdH => 16 | SimdS => 32 | SimdD => 64 | SimdQ => 64 end in
      a ← put_simd n (simd_sub x y bits) a;
      Ret (true, a)
  end.

Definition is_xzr (op : Operand) : bool := match op with Register _ 31 => true | _ => false end.

Definition sub_execute ins (setf : bool) a : result :=
  match op0 ins with
  | SIMDRegisterElements _ _ _ | SIMDRegister _ _ => sub_execute_simd ins a
  | _ =>
      let is64 := operand_is_64 (op0 ins) in
      x ← rv_of (op1 ins) a;
      y ← rv_of (op2 ins) a;
      let res := wsub x y in
      let a := if setf then
                 set_flags (if is64 then update_sub64 x y res else update_sub32 (wrap 32 x) (wrap 32 y) (wrap 32 res)) a
               else a in
      if setf && is_xzr (op0 ins) then Ret (true, a)
      else a ← wr (op0 ins) (clip is64 res) a; Ret (true, a)
  end.

(** adc.rs *)
Definition adc_execute ins (subtract setf : bool) a : result :=
  let is64 := operand_is_64 (op0 ins) in
  x ← rd (op1 ins) a;
  y ← rd (op2 ins) a;
  let y := if subtract then bnot 64 y else y in
  let carry_in := Z.b2z (fl_c (nzcv (aregs a))) in
  let bits := if is64 then 64 else 32 in
  let mask := if is64 then 2 ^ 64 - 1 else 0xffffffff in
  let x := Z.land x mask in
  let y := Z.land y mask in
  let wide := wrap 128 (wrap 128 (x + y) + carry_in) in
  let res := Z.land (wrap 64 wide) mask in
  let a := if setf then
             let sign := ushl 64 1 (bits - 1) in
             set_flags (mkNZCV (negb (Z.land res sign =? 0)) (res =? 0) (negb (ushr 128 wide bits =? 0))
                          ((Z.land x sign =? Z.land y sign) && negb (Z.land res sign =? Z.land x sign))) a
           else a in
  a ← wr (op0 ins) res a;
  Ret (true, a).

(** and.rs *)
Definition and_execute ins (setf : bool) a : result :=
  let is64 := operand_is_64 (op0 ins) in
  x ← rv_of (op1 ins) a;
  y ← rv_of (op2 ins) a;
  let res := Z.land x y in
  let a := if setf then set_flags (if is64 then update_logic64 res else update_logic32 (wrap 32 res)) a else a in
  if setf && is_xzr (op0 ins) then Ret (true, a)
  else a ← wr (op0 ins) (clip is64 res) a; Ret (true, a).

(** orr.rs, eor.rs, orn.rs, bic.rs, which differ in the operation *)
Definition logic_execute (f : Z -> Z -> Z) ins a : result :=
  let is64 := operand_is_64 (op0 ins) in
  x ← rv_of (op1 ins) a;
  y ← rv_of (op2 ins) a;
  a ← wr (op0 ins) (clip is64 (f x y)) a;
  Ret (true, a).
Definition orr_execute : Ins -> A64 S V R -> result := logic_execute Z.lor.
Definition eor_execute : Ins -> A64 S V R -> result := logic_execute Z.lxor.
Definition orn_execute : Ins -> A64 S V R -> result := logic_execute (fun x y => Z.lor x (bnot 64 y)).
Definition bic_execute : Ins -> A64 S V R -> result := logic_execute (fun x y => Z.land x (bnot 64 y)).

(** bics.rs, eon.rs *)
Definition bics_execute ins a : result :=
  let is64 := operand_is_64 (op0 ins) in
  x ← rv_of (op1 ins) a;
  y ← rv_of (op2 ins) a;
  let res := Z.land x (bnot 64 y) in
  let a := set_flags (if is64 then update_logic64 res else update_logic32 (wrap 32 res)) a in
  a ← wr (op0 ins) res a;
  Ret (true, a).
Definition eon_execute ins a : result :=
  x ← rv_of (op1 ins) a;
  y ← rv_of (op2 ins) a;
  a ← wr (op0 ins) (Z.lxor x (bnot 64 y)) a;
  Ret (true, a).

(** movz.rs, movn.rs, movk.rs *)
Definition movz_execute ins a : result :=
  val ← rv_of (op1 ins) a;
  a ← wr (op0 ins) val a;
  Ret (true, a).
Definition movn_execute ins a : result :=
  let is64 := operand_is_64 (op0 ins) in
  val ← rv_of (op1 ins) a;
  a ← wr (op0 ins) (clip is64 (bnot 64 val)) a;
  Ret (true, a).
Definition movk_execute ins a : result :=
  cur ← rd (op0 ins) a;
  match (match op1 ins with ImmShift v s => Some (v, s) | Immediate v => Some (v, 0) | Imm16 v => Some (v, 0) | _ => None end) with
  | None => Ret (false, a)
  | Some (imm, shift) =>
      let mask := ushl 64 0xFFFF shift in
      a ← wr (op0 ins) (Z.lor (Z.land cur (bnot 64 mask)) (ushl 64 (Z.land imm 0xFFFF) shift)) a;
      Ret (true, a)
  end.

(** madd.rs, msub.rs, maddl.rs, and UMULH and SMULH of mod.rs *)
Definition madd_execute ins a : result :=
  let is64 := operand_is_64 (op0 ins) in
  n ← rv_of (op1 ins) a;
  m ← rv_of (op2 ins) a;
  ra ← rv_of (op3 ins) a;
  a ← wr (op0 ins) (clip is64 (wadd ra (wrap 64 (n * m)))) a;
  Ret (true, a).
Definition msub_execute ins a : result :=
  let is64 := operand_is_64 (op0 ins) in
  n ← rv_of (op1 ins) a;
  m ← rv_of (op2 ins) a;
  ra ← rv_of (op3 ins) a;
  a ← wr (op0 ins) (clip is64 (wsub ra (wrap 64 (n * m)))) a;
  Ret (true, a).
Definition maddl_execute ins (signed subtract : bool) a : result :=
  n ← rd (op1 ins) a;
  m ← rd (op2 ins) a;
  ra ← rd (op3 ins) a;
  let product := if signed then wrap 64 (sgn 64 (sgn 32 (wrap 32 n) * sgn 32 (wrap 32 m)))
                 else wrap 64 (wrap 32 n * wrap 32 m) in
  a ← wr (op0 ins) (if subtract then wsub ra product else wadd ra product) a;
  Ret (true, a).
Definition umulh_execute ins a : result :=
  x ← rd (op1 ins) a;
  y ← rd (op2 ins) a;
  a ← wr (op0 ins) (wrap 64 (ushr 128 (wrap 128 (x * y)) 64)) a;
  Ret (true, a).
Definition smulh_execute ins a : result :=
  x ← rd (op1 ins) a;
  y ← rd (op2 ins) a;
  a ← wr (op0 ins) (wrap 64 (Z.shiftr (sgn 128 (sgn 64 x * sgn 64 y)) 64)) a;
  Ret (true, a).

(** sdiv.rs, udiv.rs *)
Definition sdiv_execute ins a : result :=
  let is64 := operand_is_64 (op0 ins) in
  x ← rv_of (op1 ins) a;
  y ← rv_of (op2 ins) a;
  if y =? 0 then a ← wr (op0 ins) 0 a; Ret (true, a)
  else if is64 then a ← wr (op0 ins) (wrap 64 (Z.quot (sgn 64 x) (sgn 64 y))) a; Ret (true, a)
  else if wrap 32 y =? 0 then Panic
  else a ← wr (op0 ins) (wrap 32 (Z.quot (sgn 32 (wrap 32 x)) (sgn 32 (wrap 32 y)))) a; Ret (true, a).
Definition udiv_execute ins a : result :=
  let is64 := operand_is_64 (op0 ins) in
  x ← rv_of (op1 ins) a;
  y ← rv_of (op2 ins) a;
  if y =? 0 then a ← wr (op0 ins) 0 a; Ret (true, a)
  else if is64 then a ← wr (op0 ins) (x / y) a; Ret (true, a)
  else if wrap 32 y =? 0 then Panic
  else a ← wr (op0 ins) (wrap 32 x / wrap 32 y) a; Ret (true, a).

(** adr.rs, adrp.rs *)
Definition adr_execute ins a : result :=
  match op1 ins with
  | PCOffset off => a ← wr (op0 ins) (wadd (rpc (aregs a)) (wrap 64 off)) a; Ret (true, a)
  | _ => Ret (false, a)
  end.
Definition adrp_execute ins a : result :=
  match op1 ins with
  | PCOffset off => a ← wr (op0 ins) (wadd (Z.land (rpc (aregs a)) (bnot 64 0xFFF)) (wrap 64 off)) a; Ret (true, a)
  | _ => Ret (false, a)
  end.

(** clz.rs, cls.rs, rbit.rs, rev.rs, rev16.rs, rev32.rs *)
Definition clz_execute ins a : result :=
  let is64 := operand_is_64 (op0 ins) in
  val ← rv_of (op1 ins) a;
  a ← wr (op0 ins) (if is64 then leading_zeros 64 val else leading_zeros 32 (wrap 32 val)) a;
  Ret (true, a).
Definition cls_execute ins a : result :=
  val ← rd (op1 ins) a;
  let v64 := sgn 64 val in
  let v32 := sgn 32 (wrap 32 val) in
  a ← wr (op0 ins) (if operand_is_64 (op0 ins) then wsub (leading_zeros 64 (wrap 64 (Z.lxor v64 (Z.shiftr v64 1)))) 1
                    else wsub (leading_zeros 32 (wrap 32 (Z.lxor v32 (Z.shiftr v32 1)))) 1) a;
  Ret (true, a).
Definition rbit_execute ins a : result :=
  let is64 := operand_is_64 (op0 ins) in
  val ← rv_of (op1 ins) a;
  a ← wr (op0 ins) (if is64 then reverse_bits 64 val else reverse_bits 32 (wrap 32 val)) a;
  Ret (true, a).
Definition rev_execute ins a : result :=
  let is64 := operand_is_64 (op0 ins) in
  val ← rv_of (op1 ins) a;
  a ← wr (op0 ins) (if is64 then swap_bytes 8 val else swap_bytes 4 (wrap 32 val)) a;
  Ret (true, a).
Definition rev16_half (val i : Z) : Z :=
  let hw := Z.land (ushr 64 val (i * 16)) 0xFFFF in
  ushl 64 (Z.lor (ushl 64 (Z.land hw 0xFF) 8) (Z.land (ushr 64 hw 8) 0xFF)) (i * 16).
Definition rev16_execute ins a : result :=
  val ← rv_of (op1 ins) a;
  a ← wr (op0 ins) (foldl (fun acc i => Z.lor acc (rev16_half val i)) 0 [0; 1; 2; 3]) a;
  Ret (true, a).
Definition rev32_execute ins a : result :=
  val ← rv_of (op1 ins) a;
  let lo := swap_bytes 4 (wrap 32 val) in
  let hi := swap_bytes 4 (wrap 32 (ushr 64 val 32)) in
  a ← wr (op0 ins) (Z.lor (ushl 64 hi 32) lo) a;
  Ret (true, a).

(** shift.rs *)
Definition shift_execute ins (op : ShiftOp) a : result :=
  let is64 := operand_is_64 (op0 ins) in
  x ← rv_of (op1 ins) a;
  y ← rv_of (op2 ins) a;
  let shift := if is64 then Z.land y 63 else Z.land y 31 in
  let res := match op with
             | Lsl => ushl 64 x shift
             | Lsr => if is64 then ushr 64 x shift else ushr 32 (wrap 32 x) shift
             | Asr => if is64 then ishr 64 x shift else ishr 32 (wrap 32 x) shift
             | Ror => if is64 then rotate_right 64 x shift else rotate_right 32 (wrap 32 x) shift
             end in
  a ← wr (op0 ins) (clip is64 res) a;
  Ret (true, a).

(** ubfm.rs, sbfm.rs, bfm.rs, extr.rs *)
Definition ubfm_execute ins a : result :=
  let is64 := operand_is_64 (op0 ins) in
  src ← rv_of (op1 ins) a;
  immr ← rv_of (op2 ins) a;
  imms ← rv_of (op3 ins) a;
  let immr := wrap 32 immr in
  let imms := wrap 32 imms in
  let bits := if is64 then 64 else 32 in
  let res := if immr <=? imms then
               let width := wrap 32 (imms - immr + 1) in Z.land (ushr 64 src immr) (ones_below width)
             else
               let width := wrap 32 (imms + 1) in ushl 64 (Z.land src (ones_below width)) (wrap 32 (bits - immr)) in
  a ← wr (op0 ins) (clip is64 res) a;
  Ret (true, a).
Definition sbfm_execute ins a : result :=
  let is64 := operand_is_64 (op0 ins) in
  src ← rv_of (op1 ins) a;
  immr ← rv_of (op2 ins) a;
  imms ← rv_of (op3 ins) a;
  let immr := wrap 32 immr in
  let imms := wrap 32 imms in
  let bits := if is64 then 64 else 32 in
  let res := if immr <=? imms then
               let width := wrap 32 (imms - immr + 1) in sign_extend (Z.land (ushr 64 src immr) (ones_below width)) width bits
             else
               let width := wrap 32 (imms + 1) in
               let pos := wrap 32 (bits - immr) in
               sign_extend_from (ushl 64 (Z.land src (ones_below width)) pos) (wrap 32 (pos + width - 1)) bits in
  a ← wr (op0 ins) (clip is64 res) a;
  Ret (true, a).
Definition bfm_execute ins a : result :=
  let bits := if operand_is_64 (op0 ins) then 64 else 32 in
  dst ← rd (op0 ins) a;
  src ← rd (op1 ins) a;
  let immr := wrap 32 (read_imm (op2 ins)) in
  let imms := wrap 32 (read_imm (op3 ins)) in
  let '(field, lsb, width) := if immr <=? imms then (ushr 64 src immr, 0, wrap 32 (imms - immr + 1))
                              else (src, wrap 32 (bits - immr), wrap 32 (imms + 1)) in
  let mask := ushl 64 (low_mask width) lsb in
  a ← wr (op0 ins) (Z.lor (Z.land dst (bnot 64 mask)) (Z.land (ushl 64 field lsb) mask)) a;
  Ret (true, a).
Definition extr_execute ins a : result :=
  let is64 := operand_is_64 (op0 ins) in
  n ← rv_of (op1 ins) a;
  m ← rv_of (op2 ins) a;
  lsb ← rv_of (op3 ins) a;
  let res := if is64 then if lsb =? 0 then m else Z.lor (ushr 64 m lsb) (ushl 64 n (64 - lsb))
             else
               let lsb := Z.land lsb 31 in
               if lsb =? 0 then Z.land m 0xffffffff
               else Z.lor (ushr 32 (wrap 32 m) lsb) (ushl 32 (wrap 32 n) (32 - lsb)) in
  a ← wr (op0 ins) (clip is64 res) a;
  Ret (true, a).

(** ccmp.rs *)
Definition ccmp_execute ins (is_sub : bool) a : result :=
  match op3 ins, op2 ins with
  | ConditionCode cond, Immediate v =>
      let imm := wrap 8 v in
      if eval_condition cond (nzcv (aregs a)) then
        let is64 := operand_is_64 (op0 ins) in
        x ← rd (op0 ins) a;
        y ← rv_of (op1 ins) a;
        if is_sub then
          let res := wsub x y in
          Ret (true, set_flags (if is64 then update_sub64 x y res else update_sub32 (wrap 32 x) (wrap 32 y) (wrap 32 res)) a)
        else
          let res := wadd x y in
          Ret (true, set_flags (if is64 then update_add64 x y res else update_add32 (wrap 32 x) (wrap 32 y) (wrap 32 res)) a)
      else
        Ret (true, set_flags (mkNZCV (negb (Z.land imm 8 =? 0)) (negb (Z.land imm 4 =? 0)) (negb (Z.land imm 2 =? 0))
                                (negb (Z.land imm 1 =? 0))) a)
  | _, _ => Ret (false, a)
  end.

(** csel.rs, csinc.rs, csinv.rs, csneg.rs, which differ in what is done to the second source *)
Definition select_execute (f : Z -> Z) ins a : result :=
  match op3 ins with
  | ConditionCode cond =>
      res ← (if eval_condition cond (nzcv (aregs a)) then rv_of (op1 ins) a else y ← rv_of (op2 ins) a; Ret (f y));
      a ← wr (op0 ins) res a;
      Ret (true, a)
  | _ => Ret (false, a)
  end.
Definition csel_execute : Ins -> A64 S V R -> result := select_execute id.
Definition csinc_execute : Ins -> A64 S V R -> result := select_execute (fun y => wadd y 1).
Definition csinv_execute : Ins -> A64 S V R -> result := select_execute (bnot 64).
Definition csneg_execute : Ins -> A64 S V R -> result := select_execute (fun y => wrap 64 (- sgn 64 y)).

(** ** Loads and stores *)

(** The bytes of a SIMD register: an unreadable byte is 0 (ldr.rs, ldp.rs) or ends the load
    (ldur.rs); a failed store of a byte is ignored (str.rs, stur.rs, stp.rs). *)
Fixpoint read_simd_bytes (n : nat) (addr : Z) a : outcome (list Z * A64 S V R) :=
  match n with
  | O => Ret ([], a)
  | Datatypes.S n =>
      '(b, a) ← on_amaps (read_byte addr) a;
      '(bs, a) ← read_simd_bytes n (wadd addr 1) a;
      Ret (default 0 b :: bs, a)
  end.
Fixpoint read_simd_strict (n : nat) (addr : Z) a : outcome (option (list Z) * A64 S V R) :=
  match n with
  | O => Ret (Some [], a)
  | Datatypes.S n =>
      '(b, a) ← on_amaps (read_byte addr) a;
      match b with
      | None => Ret (None, a)
      | Some b =>
          '(bs, a) ← read_simd_strict n (wadd addr 1) a;
          Ret (match bs with Some bs => Some (b :: bs) | None => None end, a)
      end
  end.
Fixpoint write_simd_bytes (bs : list Z) (addr : Z) a : outcome (A64 S V R) :=
  match bs with
  | [] => Ret a
  | b :: bs => '(_, a) ← on_amaps (write_byte addr b) a; write_simd_bytes bs (wadd addr 1) a
  end.
Definition store_simd (val : Z) (n : nat) (addr : Z) a : outcome (A64 S V R) :=
  write_simd_bytes (take n (to_le_bytes 16 val)) addr a.

(** The general registers: read, extend, write, write back.  ldr.rs and ldur.rs choose 8 or 4 bytes
    by the register; the others have a width and an extension. *)
Definition load_execute (bytes : Z) (ext : Z -> Z) ins a : result :=
  '(addr, wb) ← resolve_mem_addr (op1 ins) (aregs a);
  a ← guard_mem addr bytes false a;
  '(v, a) ← on_amaps (read_n bytes addr) a;
  match v with
  | None => Ret (false, a)
  | Some v => a ← wr (op0 ins) (ext v) a; a ← wback wb a; Ret (true, a)
  end.

(** ldr.rs *)
Definition ldr_execute ins a : result :=
  match op0 ins with
  | SIMDRegister sz n =>
      '(addr, wb) ← resolve_mem_addr (op1 ins) (aregs a);
      a ← guard_mem addr (Z.of_nat (simd_bytes sz)) false a;
      '(bs, a) ← read_simd_bytes (simd_bytes sz) addr a;
      a ← put_simd n (from_le_bytes bs) a;
      a ← wback wb a;
      Ret (true, a)
  | _ => load_execute (if operand_is_64 (op0 ins) then 8 else 4) id ins a
  end.

(** ldur.rs *)
Definition ldur_execute ins a : result :=
  match op0 ins with
  | SIMDRegister sz n =>
      '(addr, wb) ← resolve_mem_addr (op1 ins) (aregs a);
      a ← guard_mem addr (Z.of_nat (simd_bytes sz)) false a;
      '(bs, a) ← read_simd_strict (simd_bytes sz) addr a;
      match bs with
      | None => Ret (false, a)
      | Some bs => a ← put_simd n (from_le_bytes bs) a; a ← wback wb a; Ret (true, a)
      end
  | _ => load_execute (if operand_is_64 (op0 ins) then 8 else 4) id ins a
  end.

(** ldrb.rs, ldrh.rs, ldurb.rs, ldurh.rs, and the sign-extending loads *)
Definition ldrb_execute : Ins -> A64 S V R -> result := load_execute 1 id.
Definition ldrh_execute : Ins -> A64 S V R -> result := load_execute 2 id.
Definition ldurb_execute : Ins -> A64 S V R -> result := load_execute 1 id.
Definition ldurh_execute : Ins -> A64 S V R -> result := load_execute 2 id.
Definition sext (w : Z) (is64 : bool) (v : Z) : Z := if is64 then wrap 64 (sgn w v) else wrap 32 (sgn w v).
Definition ldrsb_execute ins : A64 S V R -> result := load_execute 1 (sext 8 (operand_is_64 (op0 ins))) ins.
Definition ldrsh_execute ins : A64 S V R -> result := load_execute 2 (sext 16 (operand_is_64 (op0 ins))) ins.
Definition ldrsw_execute ins : A64 S V R -> result := load_execute 4 (sext 32 true) ins.
Definition ldursb_execute ins : A64 S V R -> result := load_execute 1 (sext 8 (operand_is_64 (op0 ins))) ins.
Definition ldursh_execute ins : A64 S V R -> result := load_execute 2 (sext 16 (operand_is_64 (op0 ins))) ins.
Definition ldursw_execute ins : A64 S V R -> result := load_execute 4 (sext 32 true) ins.

(** ldp.rs *)
Definition ldp_execute ins a : result :=
  match op0 ins, op1 ins with
  | SIMDRegister sz r1, SIMDRegister _ r2 =>
      '(addr, wb) ← resolve_mem_addr (op2 ins) (aregs a);
      let n := simd_pair_bytes sz in
      a ← guard_mem addr (Z.of_nat n * 2) false a;
      '(b1, a) ← read_simd_bytes n addr a;
      '(b2, a) ← read_simd_bytes n (wadd addr (Z.of_nat n)) a;
      a ← put_simd r1 (from_le_bytes b1) a;
      a ← put_simd r2 (from_le_bytes b2) a;
      a ← wback wb a;
      Ret (true, a)
  | _, _ =>
      let sz := if operand_is_64 (op0 ins) then 8 else 4 in
      '(addr, wb) ← resolve_mem_addr (op2 ins) (aregs a);
      a ← guard_mem addr (sz * 2) false a;
      '(v1, a) ← on_amaps (read_n sz addr) a;
      match v1 with
      | None => Ret (false, a)
      | Some v1 =>
          '(v2, a) ← on_amaps (read_n sz (wadd addr sz)) a;
          match v2 with
          | None => Ret (false, a)
          | Some v2 => a ← wr (op0 ins) v1 a; a ← wr (op1 ins) v2 a; a ← wback wb a; Ret (true, a)
          end
      end
  end.

(** ldpsw.rs: both words are read before either is looked at. *)
Definition ldpsw_execute ins a : result :=
  '(addr, wb) ← resolve_mem_addr (op2 ins) (aregs a);
  a ← guard_mem addr 8 false a;
  '(v1, a) ← on_amaps (read_dword addr) a;
  '(v2, a) ← on_amaps (read_dword (wadd addr 4)) a;
  match v1, v2 with
  | Some v1, Some v2 =>
      a ← wr (op0 ins) (wrap 64 (sgn 32 v1)) a; a ← wr (op1 ins) (wrap 64 (sgn 32 v2)) a; a ← wback wb a; Ret (true, a)
  | _, _ => Ret (false, a)
  end.

(** Stores of general registers ignore whether the memory took the value: strb.rs, strh.rs, sturb.rs,
    sturh.rs, and str.rs and stur.rs *)
Definition store_execute (bytes : Z) ins a : result :=
  val ← rd (op0 ins) a;
  '(addr, wb) ← resolve_mem_addr (op1 ins) (aregs a);
  a ← guard_mem addr bytes true a;
  '(_, a) ← on_amaps (write_n bytes addr val) a;
  a ← wback wb a;
  Ret (true, a).
Definition store_reg_execute ins a : result :=
  match op0 ins with
  | SIMDRegister sz n =>
      '(addr, wb) ← resolve_mem_addr (op1 ins) (aregs a);
      val ← index n (rv (aregs a));
      a ← guard_mem addr (Z.of_nat (simd_bytes sz)) true a;
      a ← store_simd val (simd_bytes sz) addr a;
      a ← wback wb a;
      Ret (true, a)
  | _ => store_execute (if operand_is_64 (op0 ins) then 8 else 4) ins a
  end.
Definition str_execute : Ins -> A64 S V R -> result := store_reg_execute.
Definition stur_execute : Ins -> A64 S V R -> result := store_reg_execute.
Definition strb_execute : Ins -> A64 S V R -> result := store_execute 1.
Definition strh_execute : Ins -> A64 S V R -> result := store_execute 2.
Definition sturb_execute : Ins -> A64 S V R -> result := store_execute 1.
Definition sturh_execute : Ins -> A64 S V R -> result := store_execute 2.

(** stp.rs *)
Definition stp_execute ins a : result :=
  match op0 ins, op1 ins with
  | SIMDRegister sz r1, SIMDRegister _ r2 =>
      '(addr, wb) ← resolve_mem_addr (op2 ins) (aregs a);
      v1 ← index r1 (rv (aregs a));
      v2 ← index r2 (rv (aregs a));
      let n := simd_pair_bytes sz in
      a ← guard_mem addr (Z.of_nat n * 2) true a;
      a ← store_simd v1 n addr a;
      a ← store_simd v2 n (wadd addr (Z.of_nat n)) a;
      a ← wback wb a;
      Ret (true, a)
  | _, _ =>
      let sz := if operand_is_64 (op0 ins) then 8 else 4 in
      v1 ← rd (op0 ins) a;
      v2 ← rd (op1 ins) a;
      '(addr, wb) ← resolve_mem_addr (op2 ins) (aregs a);
      a ← guard_mem addr (sz * 2) true a;
      '(_, a) ← on_amaps (write_n sz addr v1) a;
      '(_, a) ← on_amaps (write_n sz (wadd addr sz) v2) a;
      a ← wback wb a;
      Ret (true, a)
  end.

(** ** Exclusive and atomic accesses (exclusive.rs, atomic.rs) *)

Definition width_of (bytes : option Z) (op : Operand) : Z := default (reg_bytes op) bytes.

Definition is_exclusive_load (op : Opcode) : bool :=
  match op with LDXR | LDAXR | LDXRB | LDAXRB | LDXRH | LDAXRH => true | _ => false end.

Definition reserve (addr bytes : Z) (values : Z * Z) a : A64 S V R := set_exclusive (Some (mkReservation addr bytes values)) a.

Definition exclusive_load ins (bytes : option Z) a : result :=
  let bytes := width_of bytes (op0 ins) in
  '(addr, _) ← resolve_mem_addr (op1 ins) (aregs a);
  '(v, a) ← read_mem addr bytes a;
  match v with
  | None => Ret (false, a)
  | Some val =>
      a ← wr (op0 ins) val a;
      Ret (true, if is_exclusive_load (opcode ins) then reserve addr bytes (val, 0) a else a)
  end.

Definition reservation_holds (addr bytes : Z) (pair : bool) a : result :=
  match exclusive a with
  | None => Ret (false, a)
  | Some r =>
      let a := set_exclusive None a in
      if negb (res_addr r =? addr) || negb (res_bytes r =? bytes) then Ret (false, a)
      else
        '(v1, a) ← read_mem addr bytes a;
        let first := bool_decide (v1 = Some (res_values r).1) in
        if pair then
          '(v2, a) ← read_mem (wadd addr bytes) bytes a;
          Ret (first && bool_decide (v2 = Some (res_values r).2), a)
        else Ret (first, a)
  end.

Definition store_release ins (bytes : option Z) a : result :=
  let bytes := width_of bytes (op0 ins) in
  val ← rd (op0 ins) a;
  '(addr, _) ← resolve_mem_addr (op1 ins) (aregs a);
  write_mem addr bytes val a.

Definition exclusive_store ins (bytes : option Z) a : result :=
  let bytes := width_of bytes (op1 ins) in
  val ← rd (op1 ins) a;
  '(addr, _) ← resolve_mem_addr (op2 ins) (aregs a);
  '(ok, a) ← reservation_holds addr bytes false a;
  if negb ok then a ← wr (op0 ins) 1 a; Ret (true, a)
  else
    '(ok, a) ← write_mem addr bytes val a;
    if negb ok then Ret (false, a) else a ← wr (op0 ins) 0 a; Ret (true, a).

Definition load_pair ins a : result :=
  let bytes := reg_bytes (op0 ins) in
  '(addr, _) ← resolve_mem_addr (op2 ins) (aregs a);
  '(v1, a) ← read_mem addr bytes a;
  '(v2, a) ← read_mem (wadd addr bytes) bytes a;
  match v1, v2 with
  | Some v1, Some v2 =>
      a ← wr (op0 ins) v1 a;
      a ← wr (op1 ins) v2 a;
      Ret (true, reserve addr bytes (v1, v2) a)
  | _, _ => Ret (false, a)
  end.

Definition store_pair ins a : result :=
  let bytes := reg_bytes (op1 ins) in
  v1 ← rd (op1 ins) a;
  v2 ← rd (op2 ins) a;
  '(addr, _) ← resolve_mem_addr (op3 ins) (aregs a);
  '(ok, a) ← reservation_holds addr bytes true a;
  if negb ok then a ← wr (op0 ins) 1 a; Ret (true, a)
  else
    '(ok, a) ← write_mem addr bytes v1 a;
    if negb ok then Ret (false, a)
    else
      '(ok, a) ← write_mem (wadd addr bytes) bytes v2 a;
      if negb ok then Ret (false, a) else a ← wr (op0 ins) 0 a; Ret (true, a).

Definition rmw ins (bytes : option Z) (op : RmwOp) a : result :=
  let bytes := width_of bytes (op0 ins) in
  let mask := width_mask bytes in
  x ← rd (op0 ins) a;
  let operand := Z.land x mask in
  '(addr, _) ← resolve_mem_addr (op2 ins) (aregs a);
  '(v, a) ← read_mem addr bytes a;
  match v with
  | None => Ret (false, a)
  | Some old =>
      '(ok, a) ← write_mem addr bytes (Z.land (combine op old operand bytes) mask) a;
      if negb ok then Ret (false, a) else a ← wr (op1 ins) old a; Ret (true, a)
  end.

Definition cas ins (bytes : option Z) a : result :=
  let bytes := width_of bytes (op0 ins) in
  let mask := width_mask bytes in
  x ← rd (op0 ins) a;
  let expected := Z.land x mask in
  new ← rd (op1 ins) a;
  '(addr, _) ← resolve_mem_addr (op2 ins) (aregs a);
  '(v, a) ← read_mem addr bytes a;
  match v with
  | None => Ret (false, a)
  | Some old =>
      '(ok, a) ← (if old =? expected then write_mem addr bytes new a else Ret (true, a));
      if negb ok then Ret (false, a) else a ← wr (op0 ins) old a; Ret (true, a)
  end.

Definition casp ins a : result :=
  match op0 ins, op1 ins with
  | RegisterPair sz s, RegisterPair _ t =>
      let second r := Register sz ((r + 1) mod 32)%nat in
      let bytes := reg_bytes (Register sz s) in
      '(addr, _) ← resolve_mem_addr (op2 ins) (aregs a);
      '(v0, a) ← read_mem addr bytes a;
      '(v1, a) ← read_mem (wadd addr bytes) bytes a;
      match v0, v1 with
      | Some old0, Some old1 =>
          e0 ← rd (Register sz s) a;
          e1 ← (if old0 =? e0 then rd (second s) a else Ret 0);
          '(ok, a) ← (if (old0 =? e0) && (old1 =? e1) then
                        n0 ← rd (Register sz t) a;
                        n1 ← rd (second t) a;
                        '(ok, a) ← write_mem addr bytes n0 a;
                        if negb ok then Ret (false, a) else write_mem (wadd addr bytes) bytes n1 a
                      else Ret (true, a));
          if negb ok then Ret (false, a)
          else a ← wr (Register sz s) old0 a; a ← wr (second s) old1 a; Ret (true, a)
      | _, _ => Ret (false, a)
      end
  | _, _ => Ret (false, a)
  end.

(** ** Branches *)

(** [Emu::set_pc_aarch64] *)
Definition jump (addr : Z) a : A64 S V R := set_aregs (set_rpc addr (aregs a)) a.
Definition set_pc_aarch64 (addr : Z) a : result :=
  if match akernel a with Some k => negb (ledger_only k) | None => false end then kernel_set_pc addr a
  else if addr <? LIBS64_MIN then Ret (true, jump addr a)
  else
    '(name, a) ← on_amaps (get_addr_name addr) a;
    match name with
    | None => Ret (false, jump addr a)
    | Some name => enter_library addr name a
    end.

(** b.rs, bcc.rs, cbz.rs, tbz.rs *)
Definition branch (off : Z) a : A64 S V R := set_reload true (jump (wadd (rpc (aregs a)) (wrap 64 off)) a).
Definition b_execute ins a : result :=
  match op0 ins with PCOffset off => Ret (true, branch off a) | _ => Ret (false, a) end.
Definition bcc_execute ins (cond : Z) a : result :=
  match eval_condition cond (nzcv (aregs a)), op0 ins with
  | true, PCOffset off => Ret (true, branch off a)
  | _, _ => Ret (true, a)
  end.
Definition cbz_execute ins (is_zero : bool) a : result :=
  val ← rd (op0 ins) a;
  match (if is_zero then val =? 0 else negb (val =? 0)), op1 ins with
  | true, PCOffset off => Ret (true, branch off a)
  | _, _ => Ret (true, a)
  end.
Definition tbz_execute ins (is_zero : bool) a : result :=
  val ← rd (op0 ins) a;
  let bit_val := Z.land (ushr 64 val (read_imm (op1 ins))) 1 in
  match (if is_zero then bit_val =? 0 else negb (bit_val =? 0)), op2 ins with
  | true, PCOffset off => Ret (true, branch off a)
  | _, _ => Ret (true, a)
  end.

(** bl.rs, blr.rs, br.rs: what [set_pc_aarch64] answers is ignored. *)
Definition link a : outcome (A64 S V R) :=
  x ← index_set 30 (wadd (rpc (aregs a)) 4) (rx (aregs a)); Ret (set_aregs (set_rx x (aregs a)) a).
Definition bl_execute ins a : result :=
  match op0 ins with
  | PCOffset off =>
      let pc := rpc (aregs a) in
      a ← link a;
      '(_, a) ← set_pc_aarch64 (wadd pc (wrap 64 off)) a;
      Ret (true, set_reload true a)
  | _ => Ret (false, a)
  end.
Definition is_authenticated (op : Opcode) : bool :=
  match op with
  | BRAA | BRAAZ | BRAB | BRABZ | BLRAA | BLRAAZ | BLRAB | BLRABZ | RETAA | RETAB => true
  | _ => false
  end.
Definition target_of (op : Opcode) (raw : Z) : Z := if is_authenticated op then pac_strip raw else raw.
Definition blr_execute ins a : result :=
  raw ← rd (op0 ins) a;
  a ← link a;
  '(_, a) ← set_pc_aarch64 (target_of (opcode ins) raw) a;
  Ret (true, set_reload true a).
Definition br_execute ins a : result :=
  raw ← rd (op0 ins) a;
  '(_, a) ← set_pc_aarch64 (target_of (opcode ins) raw) a;
  Ret (true, set_reload true a).

(** ret.rs *)
Definition is_sentinel (target : Z) a : outcome (bool * A64 S V R) :=
  if LIBS64_MIN <=? target then
    '(name, a) ← on_amaps (get_addr_name target) a;
    Ret (bool_decide (name = Some SENTINEL_MAP), a)
  else Ret (false, a).
Definition ret_execute ins a : result :=
  raw ← (match op0 ins with Nothing => index 30 (rx (aregs a)) | _ => rd (op0 ins) a end);
  let target := target_of (opcode ins) raw in
  let a := set_reload true a in
  '(s, a) ← is_sentinel target a;
  if negb s then Ret (true, jump target a) else set_pc_aarch64 target a.

(** pac.rs, and XPACLRI of mod.rs *)
Definition execute_aut_reg ins a : result :=
  val ← rd (op0 ins) a;
  a ← wr (op0 ins) (pac_strip val) a;
  Ret (true, a).
Definition execute_aut_implicit (_ : Ins) a : result :=
  lr ← index 30 (rx (aregs a));
  x ← index_set 30 (pac_strip lr) (rx (aregs a));
  Ret (true, set_aregs (set_rx x (aregs a)) a).

(** mrs.rs, msr.rs, svc.rs *)
Definition mrs_execute ins a : result := a ← wr (op0 ins) 0 a; Ret (true, a).
Definition msr_execute (_ : Ins) a : result := Ret (true, a).
Definition svc_execute (_ : Ins) a : result :=
  a ← (if is_macos (arest a) then syscall_macos a else if is_linux (arest a) then syscall_linux a else Ret a);
  Ret (true, a).

(** ** Vectors (simd.rs) *)

Definition exec_movi ins a : result :=
  match op0 ins with
  | SIMDRegisterElements _ n _ | SIMDRegister _ n =>
      let imm := match op1 ins with Immediate v => v | ImmShift v s => ushl 128 v s | _ => 0 end in
      a ← put_simd n imm a; Ret (true, a)
  | _ => Ret (true, a)
  end.

(** The element in every lane *)
Definition replicated (e bits : Z) : Z :=
  foldl (fun acc i => Z.lor acc (ushl 128 e (i * bits))) e (Z.of_nat <$> seq 1 (Z.to_nat (128 / bits) - 1)).
Definition exec_dup ins a : result :=
  match op0 ins, op1 ins with
  | SIMDRegisterElements _ n elem, Register _ m =>
      val ← get_x m (aregs a);
      let res := match elem with
                 | SimdB => replicated (Z.land val 0xFF) 8
                 | SimdH => replicated (Z.land val 0xFFFF) 16
                 | SimdS => replicated (Z.land val 0xFFFFFFFF) 32
                 | SimdD => replicated val 64
                 | SimdQ => val
                 end in
      a ← put_simd n res a; Ret (true, a)
  | _, _ => Ret (true, a)
  end.

Definition exec_fmov ins a : result :=
  match op0 ins, op1 ins with
  | SIMDRegister _ n, SIMDRegister _ m => v ← index m (rv (aregs a)); a ← put_simd n v a; Ret (true, a)
  | SIMDRegister sz n, Register _ m =>
      val ← get_x m (aregs a);
      a ← put_simd n (match sz with SimdD => val | _ => Z.land val 0xffffffff end) a; Ret (true, a)
  | SIMDRegister _ _, ImmediateDouble => float_execute ins a
  | Register _ n, SIMDRegister sz m =>
      v ← index m (rv (aregs a));
      r ← set_x n (match sz with SimdD => wrap 64 v | _ => Z.land v 0xffffffff end) (aregs a);
      Ret (true, set_aregs r a)
  | _, _ => Ret (true, a)
  end.

Definition exec_umov ins a : result :=
  match op0 ins, op1 ins with
  | Register _ n, SIMDRegisterElementsLane _ m sz lane =>
      let bits := elem_bits sz in
      x ← index m (rv (aregs a));
      let v := Z.land (ushr 128 x (bits * lane)) (lane_mask bits) in
      a ← wr (Register (if bits =? 64 then SX else SW) n) (wrap 64 v) a; Ret (true, a)
  | _, _ => Ret (false, a)
  end.

Definition exec_ins ins a : result :=
  match op0 ins with
  | SIMDRegisterElementsLane _ n sz lane =>
      let bits := elem_bits sz in
      let put (val : Z) (a : A64 S V R) : result :=
        let shift := bits * lane in
        let mask := ushl 128 (lane_mask bits) shift in
        old ← index n (rv (aregs a));
        a ← put_simd n (Z.lor (Z.land old (bnot 128 mask)) (Z.land (ushl 128 val shift) mask)) a;
        Ret (true, a) in
      match op1 ins with
      | Register _ m => val ← get_x m (aregs a); put val a
      | SIMDRegisterElementsLane _ m _ src_lane => v ← index m (rv (aregs a)); put (ushr 128 v (bits * src_lane)) a
      | _ => Ret (false, a)
      end
  | _ => Ret (false, a)
  end.

Definition exec_not ins a : result :=
  match op0 ins, op1 ins with
  | SIMDRegisterElements q n _, SIMDRegisterElements _ m _ =>
      v ← index m (rv (aregs a));
      a ← put_simd n (Z.land (bnot 128 v) (lane_mask (match q with SimdQ => 128 | _ => 64 end))) a;
      Ret (true, a)
  | _, _ => Ret (false, a)
  end.

Definition simd_execute ins a : result :=
  match opcode ins with
  | MOVI => exec_movi ins a
  | FMOV => exec_fmov ins a
  | DUP => exec_dup ins a
  | UMOV => exec_umov ins a
  | INS => exec_ins ins a
  | NOT => exec_not ins a
  | _ => Ret (true, a)
  end.

(** ** Dispatch *)

(** [emulate_instruction] *)
Definition emulate_instruction ins a : result :=
  match opcode ins with
  | ADD => add_execute ins false a
  | ADDS => add_execute ins true a
  | SUB => sub_execute ins false a
  | SUBS => sub_execute ins true a
  | AND => and_execute ins false a
  | ANDS => and_execute ins true a
  | ORR => orr_execute ins a
  | EOR => eor_execute ins a
  | ORN => orn_execute ins a
  | BIC => bic_execute ins a
  | MOVZ => movz_execute ins a
  | MOVK => movk_execute ins a
  | MOVN => movn_execute ins a
  | MADD => madd_execute ins a
  | MSUB => msub_execute ins a
  | UMULH => umulh_execute ins a
  | SMULH => smulh_execute ins a
  | SMADDL => maddl_execute ins true false a
  | UMADDL => maddl_execute ins false false a
  | SMSUBL => maddl_execute ins true true a
  | UMSUBL => maddl_execute ins false true a
  | ADC => adc_execute ins false false a
  | ADCS => adc_execute ins false true a
  | SBC => adc_execute ins true false a
  | SBCS => adc_execute ins true true a
  | EON => eon_execute ins a
  | BICS => bics_execute ins a
  | BFM => bfm_execute ins a
  | CLS => cls_execute ins a
  | SDIV => sdiv_execute ins a
  | UDIV => udiv_execute ins a
  | ADR => adr_execute ins a
  | ADRP => adrp_execute ins a
  | CLZ => clz_execute ins a
  | LSLV => shift_execute ins Lsl a
  | LSRV => shift_execute ins Lsr a
  | ASRV => shift_execute ins Asr a
  | RORV => shift_execute ins Ror a
  | SBFM => sbfm_execute ins a
  | UBFM => ubfm_execute ins a
  | EXTR => extr_execute ins a
  | RBIT => rbit_execute ins a
  | REV => rev_execute ins a
  | REV16 => rev16_execute ins a
  | REV32 => rev32_execute ins a
  | LDR => ldr_execute ins a
  | LDRB => ldrb_execute ins a
  | LDRH => ldrh_execute ins a
  | LDRSB => ldrsb_execute ins a
  | LDRSH => ldrsh_execute ins a
  | LDRSW => ldrsw_execute ins a
  | LDP | LDNP => ldp_execute ins a
  | LDPSW => ldpsw_execute ins a
  | LDXR | LDAXR | LDAR | LDAPR | LDLAR => exclusive_load ins None a
  | LDXRB | LDAXRB | LDARB | LDAPRB => exclusive_load ins (Some 1) a
  | LDXRH | LDAXRH | LDARH | LDAPRH => exclusive_load ins (Some 2) a
  | LDXP | LDAXP => load_pair ins a
  | LDAPUR | LDUR => ldur_execute ins a
  | LDAPURB | LDURB => ldurb_execute ins a
  | LDAPURH | LDURH => ldurh_execute ins a
  | LDAPURSB | LDURSB => ldursb_execute ins a
  | LDAPURSH | LDURSH => ldursh_execute ins a
  | LDAPURSW | LDURSW => ldursw_execute ins a
  | STR => str_execute ins a
  | STRB => strb_execute ins a
  | STRH => strh_execute ins a
  | STP | STNP => stp_execute ins a
  | STXR | STLXR => exclusive_store ins None a
  | STXRB | STLXRB => exclusive_store ins (Some 1) a
  | STXRH | STLXRH => exclusive_store ins (Some 2) a
  | STXP | STLXP => store_pair ins a
  | STLR | STLLR => store_release ins None a
  | STLRB => store_release ins (Some 1) a
  | STLRH => store_release ins (Some 2) a
  | STLUR | STUR => stur_execute ins a
  | STLURB | STURB => sturb_execute ins a
  | STLURH | STURH => sturh_execute ins a
  | CAS => cas ins None a
  | CASB => cas ins (Some 1) a
  | CASH => cas ins (Some 2) a
  | CASP => casp ins a
  | SWP => rmw ins None RSwp a
  | SWPB => rmw ins (Some 1) RSwp a
  | SWPH => rmw ins (Some 2) RSwp a
  | LDADD => rmw ins None RAdd a
  | LDADDB => rmw ins (Some 1) RAdd a
  | LDADDH => rmw ins (Some 2) RAdd a
  | LDCLR => rmw ins None RClr a
  | LDCLRB => rmw ins (Some 1) RClr a
  | LDCLRH => rmw ins (Some 2) RClr a
  | LDEOR => rmw ins None REor a
  | LDEORB => rmw ins (Some 1) REor a
  | LDEORH => rmw ins (Some 2) REor a
  | LDSET => rmw ins None RSet a
  | LDSETB => rmw ins (Some 1) RSet a
  | LDSETH => rmw ins (Some 2) RSet a
  | LDSMAX => rmw ins None RSmax a
  | LDSMAXB => rmw ins (Some 1) RSmax a
  | LDSMAXH => rmw ins (Some 2) RSmax a
  | LDSMIN => rmw ins None RSmin a
  | LDSMINB => rmw ins (Some 1) RSmin a
  | LDSMINH => rmw ins (Some 2) RSmin a
  | LDUMAX => rmw ins None RUmax a
  | LDUMAXB => rmw ins (Some 1) RUmax a
  | LDUMAXH => rmw ins (Some 2) RUmax a
  | LDUMIN => rmw ins None RUmin a
  | LDUMINB => rmw ins (Some 1) RUmin a
  | LDUMINH => rmw ins (Some 2) RUmin a
  | B => b_execute ins a
  | BL => bl_execute ins a
  | BR | BRAA | BRAAZ | BRAB | BRABZ => br_execute ins a
  | BLR | BLRAA | BLRAAZ | BLRAB | BLRABZ => blr_execute ins a
  | RET | RETAA | RETAB => ret_execute ins a
  | CBZ => cbz_execute ins true a
  | CBNZ => cbz_execute ins false a
  | TBZ => tbz_execute ins true a
  | TBNZ => tbz_execute ins false a
  | Bcc cond => bcc_execute ins cond a
  | CCMP => ccmp_execute ins true a
  | CCMN => ccmp_execute ins false a
  | CSEL => csel_execute ins a
  | CSINC => csinc_execute ins a
  | CSINV => csinv_execute ins a
  | CSNEG => csneg_execute ins a
  | SVC => svc_execute ins a
  | MRS => mrs_execute ins a
  | MSR => msr_execute ins a
  | MOVI | FMOV | DUP | UMOV | INS | NOT => simd_execute ins a
  | FADD | FSUB | FMUL | FDIV | FMAX | FMIN | FMAXNM | FMINNM | FNMUL | FABS | FNEG | FSQRT | FCVT | FMADD | FMSUB | FNMADD | FNMSUB
  | FCMP | FCMPE | FCCMP | FCCMPE | FCSEL | SCVTF | UCVTF | FCVTNS | FCVTPS | FCVTMS | FCVTAS | FCVTZS | FCVTNU | FCVTPU | FCVTMU
  | FCVTAU | FCVTZU | FRINTN | FRINTX | FRINTI | FRINTP | FRINTM | FRINTA | FRINTZ => float_execute ins a
  | PRFM | PRFUM | HINT | DMB | DSB | ISB => Ret (true, a)
  | CLREX => Ret (true, set_exclusive None a)
  | PACIA | PACIB | PACDA | PACDB | PACIZA | PACIZB | PACDZA | PACDZB | PACGA | PACIASP | PACIAZ | PACIA1716 | PACIA171615
  | PACIASPPC | PACNBIASPPC | PACIBSP | PACIBZ | PACIB1716 | PACIB171615 | PACIBSPPC | PACNBIBSPPC | PACM => Ret (true, a)
  | AUTIA | AUTIB | AUTDA | AUTDB | AUTIZA | AUTIZB | AUTDZA | AUTDZB => execute_aut_reg ins a
  | AUTIASP | AUTIAZ | AUTIA1716 | AUTIA171615 | AUTIASPPC | AUTIASPPCR | AUTIBSP | AUTIBZ | AUTIB1716 | AUTIB171615
  | AUTIBSPPC | AUTIBSPPCR => execute_aut_implicit ins a
  | XPACI | XPACD => execute_aut_reg ins a
  | XPACLRI => execute_aut_implicit ins a
  | OtherOpcode => Ret (false, a)
  end.

(** [advance_pc_aarch64], and an instruction with it *)
Definition advance_pc_aarch64 (sz : Z) a : A64 S V R :=
  if force_reload a then set_reload false a else jump (wadd (rpc (aregs a)) sz) a.

(** [decode_and_execute_aarch64]: fetch, decode, hooks; the records for observers (memory operations,
    the last instruction and its size) are not part of [A64]. *)
Definition decode_and_execute_aarch64 a : outcome (Z * bool * A64 S V R) :=
  let pc := rpc (aregs a) in
  '(r, a) ← on_amaps (get_mem_by_addr pc) a;
  match r with
  | None => a ← spawn_console a; Ret (0, false, a)
  | Some (_, code) =>
      let block := Mem.read_bytes pc 4 code in
      if (length block <? 4)%nat then Ret (0, false, a)
      else
        match decode block with
        | None => Ret (0, false, a)
        | Some ins =>
            '(go, a) ← pre_instruction_hook pc ins a;
            if negb go then Ret (4, true, a)
            else
              '(ok, a) ← emulate_instruction ins a;
              a ← post_instruction_hook pc ins ok a;
              Ret (4, ok, a)
        end
  end.

(** An instruction and the move to the next *)
Definition execute_and_advance ins a : result :=
  '(ok, a) ← emulate_instruction ins a;
  Ret (ok, advance_pc_aarch64 4 a).
End Handlers.
