(* ===== verification/A64Spec.v ===== *)
(** * What the AArch64 data-processing handlers compute

    The handlers of A64Ops.v against the Arm manual's description of the
    instructions, in integers modulo the width: sums with carry, conditions,
    bit fields, counts and constants.  [put] is the register write of the
    manual, where register 31 is SP or is discarded. *)

From stdpp Require Import gmap strings.
From S2P Require Import Prelude Scalar Mem64 Slab Tlb Maps Threads KernelGuard A64 A64Ops.

(** ** Shifts within the width *)

Lemma ushl_small w x n : 0 <= n < w -> ushl w x n = shl w x n.
Proof. intros Hn. unfold ushl. now rewrite Z.mod_small. Qed.

Lemma ushr_small w x n : 0 <= n < w -> ushr w x n = Z.shiftr x n.
Proof. intros Hn. unfold ushr. now rewrite Z.mod_small. Qed.

Lemma testbit_ushl w x n i : 0 <= n < w -> 0 <= i -> Z.testbit (ushl w x n) i = (i <? w) && (n <=? i) && Z.testbit x (i - n).
Proof.
  intros Hn Hi. rewrite ushl_small, testbit_shl by lia. destruct (Z.ltb_spec i w); [|reflexivity].
  destruct (Z.leb_spec n i); [reflexivity|]. cbn. apply Z.testbit_neg_r. lia.
Qed.

Lemma testbit_ushr w x n i : 0 <= n < w -> 0 <= i -> Z.testbit (ushr w x n) i = Z.testbit x (i + n).
Proof. intros Hn Hi. now rewrite ushr_small, Z.shiftr_spec by lia. Qed.

Lemma word_ushl w x n : 0 < w -> is_word w (ushl w x n).
Proof. intros Hw. apply wrap_word. lia. Qed.

Lemma word_ushr w x n : 0 < w -> is_word w x -> is_word w (ushr w x n).
Proof. intros Hw Hx. apply word_shiftr; [exact Hx | apply Z.mod_pos_bound, Hw]. Qed.

Lemma word_bnot w x : 0 <= w -> is_word w (bnot w x).
Proof. intros Hw. unfold bnot. rewrite Z.land_ones by lia. now apply wrap_word. Qed.

Lemma word_ror w x n : 0 < w -> is_word w x -> is_word w (rotate_right w x n).
Proof.
  intros Hw Hx. unfold rotate_right. apply word_lor; [|apply wrap_word|]; try lia.
  apply word_shiftr; [exact Hx | apply Z.mod_pos_bound, Hw].
Qed.

Lemma land_mask_wrap w x : 0 <= w -> Z.land x (2 ^ w - 1) = wrap w x.
Proof. intros Hw. unfold wrap. rewrite <- Z.land_ones by lia. now rewrite Z.ones_equiv, Z.sub_1_r. Qed.

Lemma land_wrap32 x : Z.land x 0xffffffff = wrap 32 x.
Proof. apply (land_mask_wrap 32). lia. Qed.

Lemma bnot_alt w x : 0 <= w -> is_word w x -> bnot w x = 2 ^ w - 1 - x.
Proof.
  intros Hw Hx. unfold bnot. rewrite Z.land_ones by lia. unfold Z.lnot. rewrite <- (Z_mod_plus_full _ 1), Z.mod_small;
    unfold is_word in Hx; lia.
Qed.

Lemma wrap_bnot w w' x : 0 <= w <= w' -> wrap w (bnot w' x) = bnot w (wrap w x).
Proof.
  intros Hw. apply (word_ext w); [apply wrap_word; lia | apply word_bnot; lia | lia |]. intros i Hi.
  rewrite testbit_wrap, !testbit_bnot, testbit_wrap by lia. split_ltb; try lia; reflexivity.
Qed.

(** ** Registers *)

Definition width (sz : SizeCode) : Z := if is_64 sz then 64 else 32.
Definition op_width (op : Operand) : Z := if operand_is_64 op then 64 else 32.

Record regs_ok (r : RegsAarch64) : Prop := {
  ro_len : length (rx r) = 31%nat;
  ro_x : Forall (is_word 64) (rx r);
  ro_sp : is_word 64 (rsp r);
  ro_pc : is_word 64 (rpc r);
  ro_vlen : length (rv r) = 32%nat;
  ro_v : Forall (is_word 128) (rv r) }.

(** Register [n] as a source of data (31 is zero) and as a base (31 is SP) *)
Definition xreg (n : nat) (r : RegsAarch64) : Z := default 0 (rx r !! n).
Definition xsp (n : nat) (r : RegsAarch64) : Z := if (n =? 31)%nat then rsp r else xreg n r.

(** The value of a source operand, and the write of a destination *)
Definition value (op : Operand) (r : RegsAarch64) : Z :=
  match op with
  | Register sz n => low_half sz (xreg n r)
  | RegisterOrSP sz n => low_half sz (xsp n r)
  | Immediate v | Imm64 v | Imm16 v => v
  | ImmShift v shift => ushl 64 v shift
  | RegShift style amt sz n => if is_64 sz then apply_shift (xreg n r) style amt else apply_shift32 (wrap 32 (xreg n r)) style amt
  | _ => 0
  end.
Definition put (op : Operand) (v : Z) (r : RegsAarch64) : RegsAarch64 :=
  match op with
  | Register sz n => set_rx (<[n := low_half sz v]> (rx r)) r
  | RegisterOrSP sz n => if (n =? 31)%nat then set_rsp (low_half sz v) r else set_rx (<[n := low_half sz v]> (rx r)) r
  | _ => r
  end.

(** Operands that a decoder produces: register numbers of five bits, immediates of 64 *)
Definition dest_ok (op : Operand) : Prop :=
  match op with Register _ n | RegisterOrSP _ n => (n <= 31)%nat | _ => False end.
Definition source_ok (op : Operand) : Prop :=
  match op with
  | Register _ n | RegisterOrSP _ n | RegShift _ _ _ n => (n <= 31)%nat
  | Immediate v | Imm64 v | Imm16 v => is_word 64 v
  | ImmShift _ _ => True
  | _ => False
  end.
Definition reg_ok (op : Operand) : Prop := dest_ok op.

Lemma xreg_word n r : regs_ok r -> is_word 64 (xreg n r).
Proof.
  intros Hr. unfold xreg. destruct (rx r !! n) as [v|] eqn:E; cbn; [|unfold is_word; lia].
  now apply (Forall_lookup_1 _ _ _ _ (ro_x _ Hr)) in E.
Qed.

Lemma xsp_word n r : regs_ok r -> is_word 64 (xsp n r).
Proof. intros Hr. unfold xsp. destruct (_ =? _)%nat; [apply Hr | now apply xreg_word]. Qed.

Lemma get_x_ok n r : regs_ok r -> (n <= 31)%nat -> get_x n r = Ret (xreg n r).
Proof.
  intros Hr Hn. pose proof (ro_len _ Hr) as Hl. unfold get_x, xreg, index. destruct (Nat.eqb_spec n 31) as [->|Hne].
  - now rewrite lookup_ge_None_2 by lia.
  - destruct (lookup_lt_is_Some_2 (rx r) n) as [v ->]; [lia|]. reflexivity.
Qed.

Lemma get_x_or_sp_ok n r : regs_ok r -> (n <= 31)%nat -> get_x_or_sp n r = Ret (xsp n r).
Proof.
  intros Hr Hn. pose proof (ro_len _ Hr) as Hl. unfold get_x_or_sp, xsp, xreg, index. destruct (Nat.eqb_spec n 31) as [->|Hne]; [reflexivity|].
  destruct (lookup_lt_is_Some_2 (rx r) n) as [v ->]; [lia|]. reflexivity.
Qed.

Lemma read_reg_ok op r : regs_ok r -> reg_ok op -> read_reg op r = Ret (value op r).
Proof. intros Hr Ho. destruct op; try easy; cbn in *; [rewrite get_x_ok | rewrite get_x_or_sp_ok]; auto. Qed.

Lemma read_operand_ok op r : regs_ok r -> source_ok op -> read_operand_value op r = Ret (value op r).
Proof.
  intros Hr Ho. destruct op; try easy; try (now apply read_reg_ok). cbn in *. rewrite get_x_ok by auto. now destruct sz.
Qed.

Lemma set_x_or_sp_ok n v r : regs_ok r -> (n <= 31)%nat ->
  set_x_or_sp n v r = Ret (if (n =? 31)%nat then set_rsp v r else set_rx (<[n := v]> (rx r)) r).
Proof.
  intros Hr Hn. pose proof (ro_len _ Hr) as Hl. unfold set_x_or_sp. destruct (Nat.eqb_spec n 31); [reflexivity|].
  unfold index_set. rewrite decide_True by lia. reflexivity.
Qed.

Lemma write_reg_ok op v r : regs_ok r -> dest_ok op -> write_reg op v r = Ret (put op v r).
Proof.
  intros Hr Ho. pose proof (ro_len _ Hr) as Hl. destruct op; try easy; cbn in *; [|now apply set_x_or_sp_ok].
  unfold set_x. destruct (Nat.ltb_spec n 31).
  - unfold index_set. now rewrite decide_True by lia.
  - rewrite list_insert_ge by lia. now destruct r.
Qed.

Lemma low_half_wrap sz v : is_word 64 v -> low_half sz v = wrap (width sz) v.
Proof. intros Hv. destruct sz; cbn; [now rewrite wrap_small | apply land_wrap32]. Qed.

Lemma word_up w v : 0 <= w <= 64 -> is_word w v -> is_word 64 v.
Proof. intros Hw Hv. unfold is_word in *. assert (2 ^ w <= 2 ^ 64) by (apply Z.pow_le_mono_r; lia). lia. Qed.

Lemma low_half_word sz v : is_word 64 v -> is_word 64 (low_half sz v).
Proof. intros Hv. rewrite low_half_wrap by exact Hv. apply (word_up (width sz)); [now destruct sz | apply wrap_word; now destruct sz]. Qed.

Lemma apply_shift_word v style amt : is_word 64 v -> is_word 64 (apply_shift v style amt).
Proof.
  intros Hv. destruct style; cbn; try (apply word_ushl; lia); [now apply word_ushr | apply wrap_word; lia | now apply word_ror].
Qed.

Lemma apply_shift32_word v style amt : is_word 32 v -> is_word 64 (apply_shift32 v style amt).
Proof.
  intros Hv. assert (is_word 64 v) by (apply (word_up 32); [lia | exact Hv]).
  destruct style; cbn; try (apply word_ushl; lia); apply (word_up 32); try lia;
    [apply word_ushl; lia | now apply word_ushr | apply wrap_word; lia | now apply word_ror].
Qed.

Lemma value_word op r : regs_ok r -> source_ok op -> is_word 64 (value op r).
Proof.
  intros Hr Ho. pose proof (fun n => xreg_word n r Hr). pose proof (fun n => xsp_word n r Hr).
  destruct op; try easy; cbn; try (now apply low_half_word); [apply word_ushl; lia|].
  destruct (is_64 sz); [now apply apply_shift_word | apply apply_shift32_word, wrap_word; lia].
Qed.

Lemma reg_source op : reg_ok op -> source_ok op.
Proof. now destruct op. Qed.

(** ** The emulator's registers *)

Section Machine.
Context {S V R : Type} `{Slab S} `{A64Env S V R}.
Implicit Types (a : A64 S V R) (ins : Ins).

(** The state with a register written *)
Definition with_reg (op : Operand) (v : Z) a : A64 S V R := set_aregs (put op v (aregs a)) a.

Lemma rd_ok op a : regs_ok (aregs a) -> reg_ok op -> rd op a = Ret (value op (aregs a)).
Proof. apply read_reg_ok. Qed.

Lemma rv_of_ok op a : regs_ok (aregs a) -> source_ok op -> rv_of op a = Ret (value op (aregs a)).
Proof. apply read_operand_ok. Qed.

Lemma wr_ok op v a : regs_ok (aregs a) -> dest_ok op -> wr op v a = Ret (with_reg op v a).
Proof. intros Hr Ho. unfold wr. now rewrite write_reg_ok. Qed.

Lemma wr_flags_ok op v f a : regs_ok (aregs a) -> dest_ok op -> wr op v (set_flags f a) = Ret (with_reg op v (set_flags f a)).
Proof. intros [] Ho. apply wr_ok; [|exact Ho]. now split. Qed.

(** A destination of the width takes what a result is modulo the width. *)
Lemma with_reg_wrap op v a : is_word 64 v -> with_reg op (wrap (op_width op) v) a = with_reg op v a.
Proof.
  intros Hv. unfold with_reg. f_equal. destruct op as [|[] n|[] n| | | | | | | | | | | | | | | |]; try reflexivity; cbn; rewrite ?(wrap_small 64) by exact Hv; try reflexivity;
    rewrite !land_wrap32, (wrap_small 32 (wrap 32 v)) by (apply wrap_word; lia); reflexivity.
Qed.

Lemma clip_wrap op v : is_word 64 v -> clip (operand_is_64 op) v = wrap (op_width op) v.
Proof. intros Hv. unfold clip, op_width. destruct (operand_is_64 op); [now rewrite wrap_small | apply land_wrap32]. Qed.

Lemma with_reg_clip op v a : is_word 64 v -> with_reg op (clip (operand_is_64 op) v) a = with_reg op v a.
Proof. intros Hv. rewrite clip_wrap by exact Hv. now apply with_reg_wrap. Qed.

Lemma put_ok op v r : regs_ok r -> is_word 64 v -> regs_ok (put op v r).
Proof.
  intros [] Hv. assert (forall sz, is_word 64 (low_half sz v)) by (intros sz; now apply low_half_word).
  destruct op; try (now split); cbn; [|destruct (_ =? _)%nat]; split; cbn; rewrite ?length_insert; auto using Forall_insert.
Qed.

(** ** Sums with carry *)

(** AddWithCarry of the Arm manual: result, and N, Z, C, V *)
Definition add_with_carry (w x y : Z) (c : bool) : Z * FlagsNZCV :=
  let unsigned_sum := x + y + Z.b2z c in
  let signed_sum := sgn w x + sgn w y + Z.b2z c in
  let res := wrap w unsigned_sum in
  (res, mkNZCV (Z.testbit res (w - 1)) (res =? 0) (negb (res =? unsigned_sum)) (negb (sgn w res =? signed_sum))).

Definition logic_flags (w res : Z) : FlagsNZCV := mkNZCV (Z.testbit res (w - 1)) (res =? 0) false false.

(** The result of an instruction and the flags it sets, if it sets them *)
Definition arm_alu (op : Opcode) (w x y : Z) (c : bool) : option (Z * option FlagsNZCV) :=
  let plain r := Some (r, None) in
  let sum x y c := Some ((add_with_carry w x y c).1, None) in
  let sums x y c := Some ((add_with_carry w x y c).1, Some (add_with_carry w x y c).2) in
  let logics r := Some (r, Some (logic_flags w r)) in
  match op with
  | ADD => sum x y false
  | ADDS => sums x y false
  | SUB => sum x (bnot w y) true
  | SUBS => sums x (bnot w y) true
  | ADC => sum x y c
  | ADCS => sums x y c
  | SBC => sum x (bnot w y) c
  | SBCS => sums x (bnot w y) c
  | AND => plain (Z.land x y)
  | ANDS => logics (Z.land x y)
  | BIC => plain (Z.land x (bnot w y))
  | BICS => logics (Z.land x (bnot w y))
  | ORR => plain (Z.lor x y)
  | ORN => plain (Z.lor x (bnot w y))
  | EOR => plain (Z.lxor x y)
  | EON => plain (Z.lxor x (bnot w y))
  | _ => None
  end.

(** The sign bit as the code tests it *)
Lemma sgn_negative w x : 0 < w -> is_word w x -> (sgn w x <? 0) = Z.testbit x (w - 1).
Proof.
  intros Hw Hx. rewrite word_sign, sgn_alt, wrap_small by assumption. unfold is_word in Hx.
  destruct (Z.leb_spec (2 ^ (w - 1)) x); split_ltb; try lia; reflexivity.
Qed.

Lemma land_lt0 x y : (Z.land x y <? 0) = (x <? 0) && (y <? 0).
Proof.
  apply eq_true_iff_eq. rewrite andb_true_iff, !Z.ltb_lt. apply Z.land_neg.
Qed.

Lemma lxor_lt0 x y : (Z.lxor x y <? 0) = xorb (x <? 0) (y <? 0).
Proof.
  pose proof (Z.lxor_nonneg x y). destruct (Z.ltb_spec x 0), (Z.ltb_spec y 0), (Z.ltb_spec (Z.lxor x y) 0); cbn; try reflexivity; lia.
Qed.

(** The update routines of the flags at a width *)
Definition update_add (w x y res : Z) : FlagsNZCV :=
  mkNZCV (sgn w res <? 0) (res =? 0) (res <? x) (Z.land (Z.lxor (sgn w x) (sgn w res)) (Z.lxor (sgn w y) (sgn w res)) <? 0).
Definition update_sub (w x y res : Z) : FlagsNZCV :=
  mkNZCV (sgn w res <? 0) (res =? 0) (y <=? x) (Z.land (Z.lxor (sgn w x) (sgn w y)) (Z.lxor (sgn w x) (sgn w res)) <? 0).

Lemma sgn_cases w x : 0 < w -> is_word w x ->
  (x < 2 ^ (w - 1) /\ sgn w x = x) \/ (2 ^ (w - 1) <= x /\ sgn w x = x - 2 ^ w).
Proof.
  intros Hw Hx. rewrite sgn_alt, wrap_small by assumption. destruct (Z.leb_spec (2 ^ (w - 1)) x); [right | left]; lia.
Qed.

(** A sum of two words reduces by at most one carry. *)
Lemma wrap_sum w x y c : 0 < w -> is_word w x -> is_word w y ->
  wrap w (x + y + Z.b2z c) = if x + y + Z.b2z c <? 2 ^ w then x + y + Z.b2z c else x + y + Z.b2z c - 2 ^ w.
Proof.
  intros Hw Hx Hy. unfold is_word in *. pose proof (b2z_range c). unfold wrap.
  destruct (Z.ltb_spec (x + y + Z.b2z c) (2 ^ w)); [apply Z.mod_small; lia|].
  rewrite <- (Z_mod_plus_full _ (-1)), Z.mod_small; lia.
Qed.

Lemma update_add_ok w x y : 0 < w -> is_word w x -> is_word w y ->
  update_add w x y (wrap w (x + y)) = (add_with_carry w x y false).2.
Proof.
  intros Hw Hx Hy. unfold update_add, add_with_carry. cbn [Z.b2z snd]. pose proof (wrap_sum w x y false Hw Hx Hy) as E. cbn [Z.b2z] in E.
  rewrite !Z.add_0_r in *. assert (is_word w (wrap w (x + y))) as Hr by (apply wrap_word; lia).
  rewrite sgn_negative, land_lt0, !lxor_lt0 by assumption. pose proof (pow2_half w Hw).
  destruct (sgn_cases w x Hw Hx) as [[? Ex]|[? Ex]], (sgn_cases w y Hw Hy) as [[? Ey]|[? Ey]], (sgn_cases w _ Hw Hr) as [[? Er]|[? Er]];
    rewrite Ex, Ey, Er; rewrite E in *; unfold is_word in *; destruct (Z.ltb_spec (x + y) (2 ^ w)); f_equal; split_ltb; try lia; reflexivity.
Qed.

Lemma update_sub_ok w x y : 0 < w -> is_word w x -> is_word w y ->
  update_sub w x y (wrap w (x - y)) = (add_with_carry w x (bnot w y) true).2 /\ wrap w (x - y) = (add_with_carry w x (bnot w y) true).1.
Proof.
  intros Hw Hx Hy. unfold update_sub, add_with_carry. cbn [Z.b2z snd fst]. assert (is_word w (bnot w y)) as Hn by (apply word_bnot; lia).
  pose proof (wrap_sum w x (bnot w y) true Hw Hx Hn) as E. cbn [Z.b2z] in E.
  assert (wrap w (x - y) = wrap w (x + bnot w y + 1)) as Ed.
  { rewrite bnot_alt by (assumption || lia). unfold wrap. replace (x + (2 ^ w - 1 - y) + 1) with (x - y + 1 * 2 ^ w) by lia. now rewrite Z_mod_plus_full. }
  rewrite Ed. split; [|reflexivity]. assert (is_word w (wrap w (x + bnot w y + 1))) as Hr by (apply wrap_word; lia).
  rewrite sgn_negative, land_lt0, !lxor_lt0 by assumption. pose proof (pow2_half w Hw). pose proof (bnot_alt w y ltac:(lia) Hy) as En.
  destruct (sgn_cases w x Hw Hx) as [[? Ex]|[? Ex]], (sgn_cases w y Hw Hy) as [[? Ey]|[? Ey]], (sgn_cases w _ Hw Hr) as [[? Er]|[? Er]],
    (sgn_cases w _ Hw Hn) as [[? Em]|[? Em]];
    rewrite Ex, Ey, Em, Er; rewrite E in *; unfold is_word in *; destruct (Z.ltb_spec (x + bnot w y + 1) (2 ^ w)); f_equal; split_ltb; try lia; reflexivity.
Qed.

Lemma update_logic_ok w res : 0 < w -> is_word w res -> mkNZCV (sgn w res <? 0) (res =? 0) false false = logic_flags w res.
Proof. intros Hw Hr. unfold logic_flags. now rewrite sgn_negative. Qed.

Lemma land_pow2 x n : 0 <= n -> Z.land x (2 ^ n) = if Z.testbit x n then 2 ^ n else 0.
Proof.
  intros Hn. apply Z.bits_inj'. intros i Hi. rewrite Z.land_spec, Z.pow2_bits_eqb by lia.
  destruct (Z.eqb_spec n i) as [->|Hne].
  - destruct (Z.testbit x i) eqn:E; [now rewrite Z.pow2_bits_true by lia | now rewrite Z.bits_0].
  - destruct (Z.testbit x n); rewrite ?Z.bits_0, ?Z.pow2_bits_false by lia; btauto.
Qed.

Lemma sign_bits_eq w x y : 0 < w -> (Z.land x (2 ^ (w - 1)) =? Z.land y (2 ^ (w - 1))) = eqb (Z.testbit x (w - 1)) (Z.testbit y (w - 1)).
Proof.
  intros Hw. rewrite !land_pow2 by lia. assert (0 < 2 ^ (w - 1)) by lia.
  destruct (Z.testbit x _), (Z.testbit y _); split_ltb; try lia; reflexivity.
Qed.

Lemma sign_bit_set w x : 0 < w -> negb (Z.land x (2 ^ (w - 1)) =? 0) = Z.testbit x (w - 1).
Proof. intros Hw. rewrite land_pow2 by lia. assert (0 < 2 ^ (w - 1)) by lia. destruct (Z.testbit x _); split_ltb; try lia; reflexivity. Qed.

Lemma adc_flags_ok w x y c : 0 < w -> is_word w x -> is_word w y ->
  let sum := x + y + Z.b2z c in
  let res := wrap w sum in
  let sign := 2 ^ (w - 1) in
  mkNZCV (negb (Z.land res sign =? 0)) (res =? 0) (negb (sum / 2 ^ w =? 0))
    ((Z.land x sign =? Z.land y sign) && negb (Z.land res sign =? Z.land x sign)) = (add_with_carry w x y c).2.
Proof.
  intros Hw Hx Hy sum res sign. assert (is_word w res) as Hr by (apply wrap_word; lia). unfold sign, add_with_carry. fold sum res. cbn [snd].
  rewrite sign_bit_set, !sign_bits_eq by exact Hw. pose proof (wrap_sum w x y c Hw Hx Hy) as E. fold sum res in E.
  assert (sum / 2 ^ w = if sum <? 2 ^ w then 0 else 1) as Eq.
  { pose proof (b2z_range c). unfold is_word in *. destruct (Z.ltb_spec sum (2 ^ w)).
    - apply Z.div_small. unfold sum. lia.
    - symmetry. apply (Z.div_unique _ _ _ (sum - 2 ^ w)); unfold sum; lia. }
  rewrite <- !sgn_negative by assumption. pose proof (pow2_half w Hw). pose proof (b2z_range c). rewrite Eq.
  destruct (sgn_cases w x Hw Hx) as [[? Ex]|[? Ex]], (sgn_cases w y Hw Hy) as [[? Ey]|[? Ey]], (sgn_cases w _ Hw Hr) as [[? Er]|[? Er]];
    rewrite Ex, Ey, Er; rewrite E in *; unfold is_word, sum in *; destruct (Z.ltb_spec (x + y + Z.b2z c) (2 ^ w)); f_equal; split_ltb; try lia; reflexivity.
Qed.

(** ** The instructions *)

Definition set_opt_flags (f : option FlagsNZCV) a : A64 S V R := match f with Some f => set_flags f a | None => a end.

(** The source operands of the instructions with a carry are registers. *)
Definition alu_sources_ok ins : Prop :=
  match opcode ins with
  | ADC | ADCS | SBC | SBCS => reg_ok (op1 ins) /\ reg_ok (op2 ins)
  | _ => source_ok (op1 ins) /\ source_ok (op2 ins)
  end.

(** What an instruction reads from its operands, at the width of its destination *)
Definition source ins (op : Operand) a : Z := wrap (op_width (op0 ins)) (value op (aregs a)).

Lemma op_width_cases op : op_width op = 64 /\ operand_is_64 op = true \/ op_width op = 32 /\ operand_is_64 op = false.
Proof. unfold op_width. destruct (operand_is_64 op); auto. Qed.

Lemma op_width_pos op : 0 < op_width op <= 64.
Proof. destruct (op_width_cases op) as [[-> _]|[-> _]]; lia. Qed.

Lemma wrap_wrap w w' x : 0 <= w <= w' -> wrap w (wrap w' x) = wrap w x.
Proof.
  intros Hw. apply (word_ext w); [apply wrap_word; lia.. | lia |]. intros i Hi. rewrite !testbit_wrap by lia. split_ltb; try lia; reflexivity.
Qed.

Lemma wrap_add w x y : 0 <= w -> wrap w (wrap w x + wrap w y) = wrap w (x + y).
Proof. intros Hw. unfold wrap. now rewrite <- Zplus_mod. Qed.

Lemma wrap_sub w x y : 0 <= w -> wrap w (wrap w x - wrap w y) = wrap w (x - y).
Proof. intros Hw. unfold wrap. now rewrite <- Zminus_mod. Qed.

Lemma wrap_bits w f x y : 0 <= w -> (forall i, Z.testbit (f x y) i = Z.testbit (f (wrap w x) (wrap w y)) i \/ w <= i) ->
  wrap w (f x y) = wrap w (f (wrap w x) (wrap w y)).
Proof.
  intros Hw Hf. apply (word_ext w); [apply wrap_word; lia.. | lia |]. intros i Hi. rewrite !testbit_wrap by lia.
  destruct (Hf i) as [->|]; [reflexivity | lia].
Qed.

(** The end of a handler: flags, then the destination *)
Lemma finish op f v v' a : regs_ok (aregs a) -> dest_ok op -> is_word 64 v -> wrap (op_width op) v = v' ->
  (a ← wr op (clip (operand_is_64 op) v) (set_opt_flags f a); Ret (true, a)) = Ret (true, with_reg op v' (set_opt_flags f a)).
Proof.
  intros Hr Ho Hv <-. assert (regs_ok (aregs (set_opt_flags f a))) by (destruct f, Hr; now split).
  rewrite wr_ok by assumption. cbn [mbind outcome_bind]. now rewrite with_reg_clip, with_reg_wrap.
Qed.

Lemma finish_plain op f v v' a : regs_ok (aregs a) -> dest_ok op -> is_word 64 v -> wrap (op_width op) v = v' ->
  (a ← wr op v (set_opt_flags f a); Ret (true, a)) = Ret (true, with_reg op v' (set_opt_flags f a)).
Proof.
  intros Hr Ho Hv <-. assert (regs_ok (aregs (set_opt_flags f a))) by (destruct f, Hr; now split).
  rewrite wr_ok by assumption. cbn [mbind outcome_bind]. now rewrite with_reg_wrap.
Qed.

(** A write to the zero register is no write. *)
Lemma xzr_no_write op v a : regs_ok (aregs a) -> is_xzr op = true -> with_reg op v a = a.
Proof.
  intros Hr Hx. destruct op; try easy. cbn in Hx. unfold with_reg. cbn. assert (n = 31%nat) as ->.
  { do 32 (destruct n as [|n]; try easy). }
  rewrite list_insert_ge by (rewrite (ro_len _ Hr); lia). destruct a as [[] ? ? ? ? ? ? ?]. reflexivity.
Qed.

Section Alu.
Variables (ins : Ins) (a : A64 S V R).
Hypothesis Hr : regs_ok (aregs a).
Hypothesis Hd : dest_ok (op0 ins).
Let w : Z := op_width (op0 ins).
Let x : Z := source ins (op1 ins) a.
Let y : Z := source ins (op2 ins) a.

Let Hw : 0 < w <= 64.
Proof. apply op_width_pos. Qed.
Let Hx : is_word w x.
Proof. apply wrap_word. lia. Qed.
Let Hy : is_word w y.
Proof. apply wrap_word. lia. Qed.

Definition flagged (setf : bool) (r : Z * FlagsNZCV) : A64 S V R :=
  with_reg (op0 ins) r.1 (set_opt_flags (if setf then Some r.2 else None) a).

Lemma add_spec setf : source_ok (op1 ins) -> source_ok (op2 ins) ->
  add_execute ins setf a = Ret (true, flagged setf (add_with_carry w x y false)).
Proof.
  intros H1 H2. unfold add_execute. rewrite !rv_of_ok by assumption. cbn [mbind outcome_bind]. set (X := value (op1 ins) _). set (Y := value (op2 ins) _).
  assert ((if setf then set_flags (if operand_is_64 (op0 ins) then update_add64 X Y (wadd X Y)
             else update_add32 (wrap 32 X) (wrap 32 Y) (wrap 32 (wadd X Y))) a else a)
          = set_opt_flags (if setf then Some (add_with_carry w x y false).2 else None) a) as ->.
  { destruct setf; [|reflexivity]. cbn [set_opt_flags]. f_equal. rewrite <- update_add_ok by (assumption || lia). subst w x y.
    unfold source. destruct (op_width_cases (op0 ins)) as [[-> ->]|[-> ->]]; fold X Y.
    - now rewrite !(wrap_small 64 X), !(wrap_small 64 Y) by (now apply value_word).
    - unfold wadd. rewrite wrap_wrap, wrap_add by lia. reflexivity. }
  apply finish; [assumption.. | apply wrap_word; lia |]. cbn [fst add_with_carry Z.b2z]. rewrite Z.add_0_r. unfold wadd. fold w.
  rewrite wrap_wrap by lia. subst x y. unfold source. fold w X Y. now rewrite wrap_add by lia.
Qed.

Lemma sub_spec setf : source_ok (op1 ins) -> source_ok (op2 ins) ->
  sub_execute ins setf a = Ret (true, flagged setf (add_with_carry w x (bnot w y) true)).
Proof.
  intros H1 H2. set (X := value (op1 ins) (aregs a)). set (Y := value (op2 ins) (aregs a)).
  destruct (update_sub_ok w x y ltac:(lia) Hx Hy) as [Ef Ev].
  assert (wrap w (wsub X Y) = (add_with_carry w x (bnot w y) true).1) as Er.
  { unfold wsub. rewrite wrap_wrap by lia. rewrite <- Ev. subst x y. unfold source. fold w X Y. now rewrite wrap_sub by lia. }
  assert ((if setf then set_flags (if operand_is_64 (op0 ins) then update_sub64 X Y (wsub X Y)
             else update_sub32 (wrap 32 X) (wrap 32 Y) (wrap 32 (wsub X Y))) a else a)
          = set_opt_flags (if setf then Some (add_with_carry w x (bnot w y) true).2 else None) a) as Efl.
  { destruct setf; [|reflexivity]. cbn [set_opt_flags]. f_equal. rewrite <- Ef. subst w x y.
    unfold source. destruct (op_width_cases (op0 ins)) as [[-> ->]|[-> ->]]; fold X Y.
    - now rewrite !(wrap_small 64 X), !(wrap_small 64 Y) by (now apply value_word).
    - unfold wsub. rewrite wrap_wrap, wrap_sub by lia. reflexivity. }
  assert (sub_execute ins setf a = if setf && is_xzr (op0 ins) then Ret (true, set_opt_flags (if setf then Some (add_with_carry w x (bnot w y) true).2 else None) a)
          else a ← wr (op0 ins) (clip (operand_is_64 (op0 ins)) (wsub X Y)) (set_opt_flags (if setf then Some (add_with_carry w x (bnot w y) true).2 else None) a);
               Ret (true, a)) as ->.
  { rewrite <- Efl. unfold sub_execute. rewrite !rv_of_ok by assumption. now destruct (op0 ins). }
  unfold flagged. destruct (setf && is_xzr (op0 ins)) eqn:Ex.
  - apply andb_true_iff in Ex as [_ Ex]. rewrite xzr_no_write; [reflexivity | | exact Ex]. now destruct Hr, setf.
  - apply finish; [assumption.. | apply wrap_word; lia | exact Er].
Qed.

Lemma adc_spec subtract setf : reg_ok (op1 ins) -> reg_ok (op2 ins) ->
  adc_execute ins subtract setf a
  = Ret (true, flagged setf (add_with_carry w x (if subtract then bnot w y else y) (fl_c (nzcv (aregs a))))).
Proof.
  intros H1 H2. unfold adc_execute. rewrite !rd_ok by assumption. cbn [mbind outcome_bind].
  set (X := value (op1 ins) _). set (Y := value (op2 ins) _). set (c := fl_c _).
  set (y' := if subtract then bnot w y else y). assert (is_word w y') as Hy' by (subst y'; destruct subtract; [apply word_bnot; lia | exact Hy]).
  assert (forall v, Z.land v (if operand_is_64 (op0 ins) then 2 ^ 64 - 1 else 0xffffffff) = wrap w v) as Em.
  { intros v. subst w. destruct (op_width_cases (op0 ins)) as [[-> ->]|[-> ->]]; [apply (land_mask_wrap 64) | apply (land_mask_wrap 32)]; lia. }
  assert (wrap w (if subtract then bnot 64 Y else Y) = y') as Ey.
  { subst y' y. unfold source. fold w Y. destruct subtract; [apply wrap_bnot; lia | reflexivity]. }
  rewrite !Em, Ey. replace (wrap w X) with x by reflexivity.
  assert (is_word 64 x /\ is_word 64 y') as [Hx64 Hy64] by (split; apply (word_up w); (assumption || lia)).
  assert (wrap 128 (wrap 128 (x + y') + Z.b2z c) = x + y' + Z.b2z c) as ->.
  { pose proof (b2z_range c). unfold is_word in *. rewrite !wrap_small; unfold is_word; try lia. rewrite wrap_small; unfold is_word; lia. }
  rewrite wrap_wrap by lia. set (bits := if operand_is_64 (op0 ins) then 64 else 32). assert (bits = w) as Eb by reflexivity.
  rewrite Eb, ushr_small, Z.shiftr_div_pow2 by lia. rewrite (ushl_small 64 1) by lia.
  assert (shl 64 1 (w - 1) = 2 ^ (w - 1)) as ->.
  { unfold shl. rewrite Z.shiftl_1_l, wrap_small; [reflexivity|]. split; [lia|]. apply Z.pow_lt_mono_r; lia. }
  rewrite (adc_flags_ok w x y' c) by (assumption || lia).
  assert (forall f, (if setf then set_flags f a else a) = set_opt_flags (if setf then Some f else None) a) as -> by now destruct setf.
  apply finish_plain; [assumption.. | apply (word_up w); [lia | apply wrap_word; lia] |]. fold w. now rewrite wrap_wrap by lia.
Qed.

(** A bitwise operation that acts bit by bit *)
Lemma logic_spec f g : source_ok (op1 ins) -> source_ok (op2 ins) ->
  (forall X Y, is_word 64 X -> is_word 64 Y -> is_word 64 (f X Y) /\ wrap w (f X Y) = g (wrap w X) (wrap w Y)) ->
  logic_execute f ins a = Ret (true, with_reg (op0 ins) (g x y) a).
Proof.
  intros H1 H2 Hf. unfold logic_execute. rewrite !rv_of_ok by assumption. cbn [mbind outcome_bind].
  destruct (Hf (value (op1 ins) (aregs a)) (value (op2 ins) (aregs a))) as [Hw' E]; [now apply value_word..|].
  now apply (finish _ None).
Qed.

Lemma wrap_land X Y : wrap w (Z.land X Y) = Z.land (wrap w X) (wrap w Y).
Proof. apply Z.bits_inj'. intros i Hi. rewrite Z.land_spec, !testbit_wrap, Z.land_spec by lia. btauto. Qed.
Lemma wrap_lor X Y : wrap w (Z.lor X Y) = Z.lor (wrap w X) (wrap w Y).
Proof. apply Z.bits_inj'. intros i Hi. rewrite Z.lor_spec, !testbit_wrap, Z.lor_spec by lia. btauto. Qed.
Lemma wrap_lxor X Y : wrap w (Z.lxor X Y) = Z.lxor (wrap w X) (wrap w Y).
Proof. apply Z.bits_inj'. intros i Hi. rewrite Z.lxor_spec, !testbit_wrap, Z.lxor_spec by lia. btauto. Qed.

Lemma logic_flags_ok res : is_word 64 res ->
  (if operand_is_64 (op0 ins) then update_logic64 res else update_logic32 (wrap 32 res)) = logic_flags w (wrap w res).
Proof.
  intros Hres. subst w. destruct (op_width_cases (op0 ins)) as [[-> ->]|[-> ->]];
    [rewrite wrap_small by exact Hres; apply (update_logic_ok 64); [lia | exact Hres] | apply (update_logic_ok 32); [lia | apply wrap_word; lia]].
Qed.

Lemma and_spec setf : source_ok (op1 ins) -> source_ok (op2 ins) ->
  and_execute ins setf a = Ret (true, flagged setf (Z.land x y, logic_flags w (Z.land x y))).
Proof.
  intros H1 H2. unfold and_execute. rewrite !rv_of_ok by assumption. cbn [mbind outcome_bind]. set (X := value (op1 ins) _). set (Y := value (op2 ins) _).
  assert (is_word 64 (Z.land X Y)) as Hl by (apply word_land; [now apply value_word | lia]).
  assert (wrap w (Z.land X Y) = Z.land x y) as Ew by apply wrap_land. rewrite logic_flags_ok, Ew by exact Hl.
  assert ((if setf then set_flags (logic_flags w (Z.land x y)) a else a) = set_opt_flags (if setf then Some (logic_flags w (Z.land x y)) else None) a) as ->
    by now destruct setf.
  unfold flagged. destruct (setf && is_xzr (op0 ins)) eqn:Ex.
  - apply andb_true_iff in Ex as [_ Ex]. rewrite xzr_no_write; [reflexivity | | exact Ex]. now destruct Hr, setf.
  - now apply finish.
Qed.

Lemma bics_spec : source_ok (op1 ins) -> source_ok (op2 ins) ->
  bics_execute ins a = Ret (true, flagged true (Z.land x (bnot w y), logic_flags w (Z.land x (bnot w y)))).
Proof.
  intros H1 H2. unfold bics_execute. rewrite !rv_of_ok by assumption. cbn [mbind outcome_bind]. set (X := value (op1 ins) _). set (Y := value (op2 ins) _).
  assert (is_word 64 (Z.land X (bnot 64 Y))) as Hl by (apply word_land; [now apply value_word | lia]).
  assert (wrap w (Z.land X (bnot 64 Y)) = Z.land x (bnot w y)) as Ew by (rewrite wrap_land, wrap_bnot by lia; reflexivity).
  rewrite logic_flags_ok, Ew by exact Hl. now apply (finish_plain _ (Some _)).
Qed.

Lemma eon_spec : source_ok (op1 ins) -> source_ok (op2 ins) ->
  eon_execute ins a = Ret (true, with_reg (op0 ins) (Z.lxor x (bnot w y)) a).
Proof.
  intros H1 H2. unfold eon_execute. rewrite !rv_of_ok by assumption. cbn [mbind outcome_bind].
  apply (finish_plain _ None); [assumption.. | apply word_lxor; [now apply value_word | apply word_bnot; lia | lia] |].
  fold w. rewrite wrap_lxor, wrap_bnot by lia. reflexivity.
Qed.

Lemma orr_spec : source_ok (op1 ins) -> source_ok (op2 ins) -> orr_execute ins a = Ret (true, with_reg (op0 ins) (Z.lor x y) a).
Proof. intros H1 H2. apply logic_spec; [assumption..|]. intros X Y HX HY. split; [apply word_lor; assumption || lia | apply wrap_lor]. Qed.
Lemma eor_spec : source_ok (op1 ins) -> source_ok (op2 ins) -> eor_execute ins a = Ret (true, with_reg (op0 ins) (Z.lxor x y) a).
Proof. intros H1 H2. apply logic_spec; [assumption..|]. intros X Y HX HY. split; [apply word_lxor; assumption || lia | apply wrap_lxor]. Qed.
Lemma orn_spec : source_ok (op1 ins) -> source_ok (op2 ins) -> orn_execute ins a = Ret (true, with_reg (op0 ins) (Z.lor x (bnot w y)) a).
Proof.
  intros H1 H2. apply (logic_spec _ (fun x y => Z.lor x (bnot w y))); [assumption..|]. intros X Y HX HY.
  split; [apply word_lor; [assumption | apply word_bnot; lia | lia] | now rewrite wrap_lor, wrap_bnot by lia].
Qed.
Lemma bic_spec : source_ok (op1 ins) -> source_ok (op2 ins) -> bic_execute ins a = Ret (true, with_reg (op0 ins) (Z.land x (bnot w y)) a).
Proof.
  intros H1 H2. apply (logic_spec _ (fun x y => Z.land x (bnot w y))); [assumption..|]. intros X Y HX HY.
  split; [apply word_land; [assumption | lia] | now rewrite wrap_land, wrap_bnot by lia].
Qed.

(** Every instruction of the class *)
Lemma a64_alu_spec res f : alu_sources_ok ins -> arm_alu (opcode ins) w x y (fl_c (nzcv (aregs a))) = Some (res, f) ->
  emulate_instruction ins a = Ret (true, with_reg (op0 ins) res (set_opt_flags f a)).
Proof.
  unfold alu_sources_ok, arm_alu, emulate_instruction. destruct (opcode ins); try discriminate; intros [H1 H2] [= <- <-];
    first [now apply add_spec | now apply sub_spec | now apply and_spec | now apply bics_spec | now apply eon_spec | now apply orr_spec
          | now apply eor_spec | now apply orn_spec | now apply bic_spec
          | now apply (adc_spec false) | now apply (adc_spec true) ].
Qed.
End Alu.

(** ** Comparisons and conditions *)

(** The relation that a condition names, between the operands of a comparison *)
Definition relation (cond w x y : Z) : bool :=
  match Z.land cond 0xf with
  | 0 => x =? y
  | 1 => negb (x =? y)
  | 2 => y <=? x
  | 3 => x <? y
  | 4 => sgn w (x - y) <? 0
  | 5 => negb (sgn w (x - y) <? 0)
  | 6 => signed_overflow w (sgn w x - sgn w y)
  | 7 => negb (signed_overflow w (sgn w x - sgn w y))
  | 8 => y <? x
  | 9 => x <=? y
  | 10 => sgn w y <=? sgn w x
  | 11 => sgn w x <? sgn w y
  | 12 => sgn w y <? sgn w x
  | 13 => sgn w x <=? sgn w y
  | _ => true
  end.

Lemma wrap_diff w x y : 0 < w -> is_word w x -> is_word w y -> wrap w (x - y) = if y <=? x then x - y else x - y + 2 ^ w.
Proof.
  intros Hw Hx Hy. unfold is_word, wrap in *. destruct (Z.leb_spec y x); [apply Z.mod_small; lia|].
  rewrite <- (Z_mod_plus_full _ 1), Z.mod_small; lia.
Qed.

Lemma compare_condition cond w x y : 0 < w -> is_word w x -> is_word w y ->
  eval_condition cond (add_with_carry w x (bnot w y) true).2 = relation cond w x y.
Proof.
  intros Hw Hx Hy. destruct (update_sub_ok w x y Hw Hx Hy) as [<- _]. pose proof (wrap_diff w x y Hw Hx Hy) as E.
  assert (is_word w (wrap w (x - y))) as Hr by (apply wrap_word; lia). pose proof (pow2_half w Hw) as Hp.
  unfold update_sub. rewrite land_lt0, !lxor_lt0. unfold relation, eval_condition, signed_overflow. rewrite <- (sgn_wrap w (x - y)) by exact Hw.
  cbn [fl_n fl_z fl_c fl_v].
  destruct (sgn_cases w x Hw Hx) as [[? Ex]|[? Ex]], (sgn_cases w y Hw Hy) as [[? Ey]|[? Ey]], (sgn_cases w _ Hw Hr) as [[? Er]|[? Er]];
    rewrite Ex, Ey, Er; rewrite E in *; unfold is_word in *; destruct (Z.leb_spec y x);
    destruct (Z.land cond 15) as [|[[[|[]|]|[|[]|]|]|[[|[]|]|[|[]|]|]|]|]; split_ltb; try lia; reflexivity.
Qed.

Lemma set_flags_ok f a : regs_ok (aregs a) -> regs_ok (aregs (set_opt_flags f a)).
Proof. intros []. destruct f; now split. Qed.

Lemma with_reg_ok op v a : regs_ok (aregs a) -> is_word 64 v -> regs_ok (aregs (with_reg op v a)).
Proof. apply put_ok. Qed.

(** CMP x, y and B.cond *)
Definition cmp_ins (sz : SizeCode) (x y : Operand) : Ins := mkIns SUBS (Register sz 31) x y Nothing.
Definition b_cond (cond off : Z) : Ins := mkIns (Bcc cond) (PCOffset off) Nothing Nothing Nothing.

Lemma cmp_spec sz o1 o2 a : regs_ok (aregs a) -> source_ok o1 -> source_ok o2 ->
  let w := width sz in
  emulate_instruction (cmp_ins sz o1 o2) a
  = Ret (true, set_flags (add_with_carry w (wrap w (value o1 (aregs a))) (bnot w (wrap w (value o2 (aregs a)))) true).2 a).
Proof.
  intros Hr H1 H2 w. rewrite (a64_alu_spec (cmp_ins sz o1 o2) a Hr (Nat.le_refl 31) _ _ (conj H1 H2) eq_refl).
  rewrite xzr_no_write; [reflexivity | | reflexivity]. now apply set_flags_ok.
Qed.

(** ** Results *)

(** C11. ADD, ADDS, SUB, SUBS, ADC, ADCS, SBC, SBCS, AND, ANDS, BIC, BICS, ORR, ORN,
    EOR and EON on general registers, shifted and extended registers and immediates,
    at both widths: the engine writes the result of the Arm manual's operation
    (AddWithCarry or the bitwise one at the width of the destination) to the
    destination, sets N, Z, C and V to those of the manual when the instruction sets
    flags, and changes nothing else; W results clear the upper half, register 31 is
    SP or discards. *)
Theorem a64_alu_refines ins a res f :
  regs_ok (aregs a) -> dest_ok (op0 ins) -> alu_sources_ok ins ->
  arm_alu (opcode ins) (op_width (op0 ins)) (source ins (op1 ins) a) (source ins (op2 ins) a) (fl_c (nzcv (aregs a))) = Some (res, f) ->
  emulate_instruction ins a = Ret (true, with_reg (op0 ins) res (set_opt_flags f a)) /\
  is_word (op_width (op0 ins)) res /\ regs_ok (aregs (with_reg (op0 ins) res (set_opt_flags f a))).
Proof.
  intros Hr Hd Hs E. split; [now apply a64_alu_spec|]. pose proof (op_width_pos (op0 ins)) as Hw. unfold source in E.
  set (w := op_width (op0 ins)) in *. assert (is_word w res) as Hres.
  { assert (forall v, is_word w (wrap w v)) as HW by (intros; apply wrap_word; lia).
    assert (forall v, is_word w (bnot w v)) as HN by (intros; apply word_bnot; lia).
    unfold arm_alu, add_with_carry in E. destruct (opcode ins); try discriminate; injection E as <- <-; cbn [fst];
      first [apply HW | apply word_land; [apply HW | lia] | apply word_lor; auto; lia | apply word_lxor; auto; lia]. }
  split; [exact Hres|]. apply with_reg_ok; [now apply set_flags_ok | apply (word_up w); [lia | exact Hres]].
Qed.

(** C26. A comparison followed by a conditional branch, for each of the sixteen
    condition codes and both widths, goes to the target exactly when the relation
    the condition names holds between the operands (equality, the unsigned and the
    signed orders, sign and signed overflow of the difference, always), and to the
    next instruction otherwise; besides the program counter only the flags change. *)
Theorem a64_cmp_branch sz o1 o2 cond off a :
  regs_ok (aregs a) -> source_ok o1 -> source_ok o2 -> force_reload a = false ->
  let w := width sz in
  let x := wrap w (value o1 (aregs a)) in
  let y := wrap w (value o2 (aregs a)) in
  let pc := wadd (rpc (aregs a)) 4 in
  exists a1, execute_and_advance (cmp_ins sz o1 o2) a = Ret (true, a1) /\
    execute_and_advance (b_cond cond off) a1
    = Ret (true, jump (if relation cond w x y then wadd pc (wrap 64 off) else wadd pc 4)
                   (set_flags (add_with_carry w x (bnot w y) true).2 a)).
Proof.
  intros Hr H1 H2 Hf w x y pc. unfold execute_and_advance. rewrite cmp_spec by assumption. cbn [mbind outcome_bind].
  fold w x y. set (f := (add_with_carry w x (bnot w y) true).2). eexists. split; [reflexivity|].
  assert (advance_pc_aarch64 4 (set_flags f a) = jump pc (set_flags f a)) as -> by (unfold advance_pc_aarch64; cbn [force_reload set_flags set_aregs]; now rewrite Hf).
  assert (eval_condition cond f = relation cond w x y) as Ec.
  { apply compare_condition; [destruct sz; cbn; lia | apply wrap_word; destruct sz; cbn; lia..]. }
  unfold emulate_instruction, b_cond, bcc_execute. cbn [opcode op0]. replace (nzcv (aregs (jump _ _))) with f by reflexivity. rewrite Ec.
  unfold branch, advance_pc_aarch64, jump, set_flags. destruct a; cbn in *; subst. now destruct (relation cond w x y).
Qed.
End Machine.
