(* ===== verification/A64Bits.v ===== *)
(** * Bit fields, shifts and constants of AArch64

    The handlers that move bits about, bit by bit: the bitfield moves, the
    variable shifts, EXTR, the reversals and the counts, and the moves of wide
    immediates.  All other shifts, extensions and field accesses of the assembly
    language are aliases of these. *)

From stdpp Require Import gmap strings.
From S2P Require Import Prelude Scalar Mem64 Slab Tlb Maps Threads KernelGuard A64 A64Ops A64Spec.

(** ** Masks *)

Lemma ones_below_ok n : 0 <= n < 64 -> ones_below n = Z.ones n.
Proof.
  intros Hn. unfold ones_below. rewrite ushl_small by lia. unfold shl. rewrite Z.shiftl_1_l, Z.ones_equiv, <- Z.sub_1_r.
  assert (2 ^ n < 2 ^ 64) by (apply Z.pow_lt_mono_r; lia). assert (0 < 2 ^ n) by lia.
  rewrite wrap_small by (unfold is_word; lia). apply wsub_small. unfold is_word. lia.
Qed.

(** The mask that the release profile makes of a width of 64 is empty. *)
Lemma ones_below_64 : ones_below 64 = 0.
Proof. reflexivity. Qed.

Lemma low_mask_ok n : 0 <= n <= 64 -> low_mask n = Z.ones n.
Proof.
  intros Hn. unfold low_mask. destruct (Z.leb_spec 64 n); [now replace n with 64 by lia|]. now apply ones_below_ok.
Qed.

Lemma testbit_ones n i : 0 <= n -> 0 <= i -> Z.testbit (Z.ones n) i = (i <? n).
Proof. intros Hn Hi. rewrite Z.testbit_ones by lia. split_ltb; try lia; reflexivity. Qed.

Lemma word64_ones n : 0 <= n <= 64 -> is_word 64 (Z.ones n).
Proof.
  intros Hn. rewrite Z.ones_equiv. assert (2 ^ n <= 2 ^ 64) by (apply Z.pow_le_mono_r; lia). unfold is_word. lia.
Qed.

Lemma shr_bit64 x n : 0 <= n < 64 -> (Z.land (ushr 64 x n) 1 =? 1) = Z.testbit x n.
Proof. intros Hn. rewrite ushr_small by lia. apply shr_bit. lia. Qed.

(** [sign_extend] copies the top bit of a field of [width] bits into the bits up to [total]. *)
Lemma sign_extend_bits val width total i : 0 < width < total -> total <= 64 -> is_word 64 val ->
  (forall j, width <= j -> Z.testbit val j = false) -> 0 <= i ->
  Z.testbit (sign_extend val width total) i = if i <? width then Z.testbit val i else (i <? total) && Z.testbit val (width - 1).
Proof.
  intros Hw Ht Hv Hhi Hi. unfold sign_extend. rewrite (proj2 (Z.eqb_neq _ _)), (proj2 (Z.leb_gt _ _)) by lia. cbn [orb].
  rewrite shr_bit64, ones_below_ok by lia. destruct (Z.testbit val (width - 1)) eqn:Es.
  - rewrite Z.lor_spec. destruct (Z.ltb_spec i width) as [Hlt|Hge].
    + destruct (total <? 64) eqn:E64; rewrite ?Z.land_spec, testbit_bnot, testbit_ones by lia; split_ltb; try lia; cbn; rewrite ?orb_false_r, ?andb_false_r; reflexivity.
    + rewrite Hhi by lia. cbn [orb]. destruct (Z.ltb_spec total 64).
      * rewrite Z.land_spec, testbit_bnot, ones_below_ok, !testbit_ones by lia. split_ltb; try lia; reflexivity.
      * rewrite testbit_bnot, testbit_ones by lia. split_ltb; try lia; reflexivity.
  - destruct (Z.ltb_spec i width); [reflexivity|]. rewrite Hhi by lia. btauto.
Qed.

Lemma sign_extend_from_bits val msb total i : 0 <= msb < total - 1 -> total <= 64 -> is_word 64 val -> 0 <= i ->
  (forall j, msb < j -> Z.testbit val j = false) ->
  Z.testbit (sign_extend_from val msb total) i = if i <=? msb then Z.testbit val i else (i <? total) && Z.testbit val msb.
Proof.
  intros Hm Ht Hv Hi Hhi. unfold sign_extend_from. rewrite (proj2 (Z.leb_gt _ _)) by lia.
  rewrite shr_bit64, ones_below_ok by lia. destruct (Z.testbit val msb) eqn:Es.
  - rewrite Z.lor_spec. destruct (Z.leb_spec i msb) as [Hlt|Hge].
    + destruct (total <? 64) eqn:E64; rewrite ?Z.land_spec, testbit_bnot, testbit_ones by lia; split_ltb; try lia; cbn; rewrite ?orb_false_r, ?andb_false_r; reflexivity.
    + rewrite Hhi by lia. cbn [orb]. destruct (Z.ltb_spec total 64).
      * rewrite Z.land_spec, testbit_bnot, ones_below_ok, !testbit_ones by lia. split_ltb; try lia; reflexivity.
      * rewrite testbit_bnot, testbit_ones by lia. split_ltb; try lia; reflexivity.
  - rewrite Z.land_spec, testbit_ones by lia. destruct (Z.leb_spec i msb); split_ltb; try lia; btauto.
Qed.

(** ** The bitfield moves *)

(** Bit [i] of the result, at width [w], of a move of the field that [immr] = [r] and [imms] = [s]
    describe: bits [s:r] of the source go down to bit 0, or bits [s:0] up to bit [w - r]; what is
    around the field is cleared, is the sign of the field, or stays as in the destination. *)
Definition field_bit (op : Opcode) (w src dst r s i : Z) : bool :=
  let outside := match op with BFM => Z.testbit dst i | _ => false end in
  let above := match op with SBFM => Z.testbit src s | _ => outside end in
  if r <=? s then if i <=? s - r then Z.testbit src (i + r) else above
  else if i <? w - r then outside else if i <=? w - r + s then Z.testbit src (i - (w - r)) else above.

Definition bitfield_opcode (op : Opcode) : bool := match op with UBFM | SBFM | BFM => true | _ => false end.

(** The field of all 64 bits, which UBFM and SBFM get wrong *)
Definition whole_field (op : Opcode) (w r s : Z) : bool :=
  match op with BFM => false | _ => (w =? 64) && (r =? 0) && (s =? 63) end.

Section Bits.
Context {S V R : Type} `{Slab S} `{A64Env S V R}.
Implicit Types (a : A64 S V R) (ins : Ins).

(** Registers [d] and [n] of one width, and the two immediates *)
Definition bitfield_ins (op : Opcode) (sz : SizeCode) (d n : nat) (r s : Z) : Ins :=
  mkIns op (Register sz d) (Register sz n) (Immediate r) (Immediate s).

(** The end of the handlers: the destination gets the low bits of the result. *)
Lemma wr_clip sz d v a : regs_ok (aregs a) -> (d <= 31)%nat -> is_word 64 v ->
  (a ← wr (Register sz d) (clip (operand_is_64 (Register sz d)) v) a; Ret (true, a))
  = Ret (true, with_reg (Register sz d) (wrap (width sz) v) a).
Proof. intros Hr Hd Hv. now apply (finish _ None). Qed.

Lemma width_cases sz : width sz = 64 /\ is_64 sz = true \/ width sz = 32 /\ is_64 sz = false.
Proof. destruct sz; auto. Qed.

Lemma register_value sz n a : regs_ok (aregs a) -> is_word (width sz) (value (Register sz n) (aregs a)).
Proof. intros Hr. cbn. rewrite low_half_wrap by (now apply xreg_word). apply wrap_word. destruct sz; cbn; lia. Qed.

(** A result whose bits are known *)
Definition writes (sz : SizeCode) (d : nat) (bit : Z -> bool) a (o : outcome (bool * A64 S V R)) : Prop :=
  exists res, o = Ret (true, with_reg (Register sz d) res a) /\ is_word (width sz) res /\
    forall i, 0 <= i < width sz -> Z.testbit res i = bit i.

Lemma writes_intro sz d bit v a o : o = Ret (true, with_reg (Register sz d) (wrap (width sz) v) a) ->
  (forall i, 0 <= i < width sz -> Z.testbit v i = bit i) -> writes sz d bit a o.
Proof.
  intros -> Hb. exists (wrap (width sz) v). split; [reflexivity|]. split; [apply wrap_word; destruct sz; cbn; lia|].
  intros i Hi. rewrite testbit_wrap by (destruct sz; cbn; lia). rewrite Hb by exact Hi. split_ltb. reflexivity.
Qed.

Lemma sign_extend_word v m t : is_word 64 v -> is_word 64 (sign_extend v m t).
Proof.
  intros Hv. unfold sign_extend. destruct (_ || _); [exact Hv|]. destruct (_ =? 1); [|exact Hv]. apply word_lor; [exact Hv | | lia].
  destruct (_ <? _); [apply word_land; [|lia]|]; apply word_bnot; lia.
Qed.

Lemma sign_extend_from_word v m t : is_word 64 v -> is_word 64 (sign_extend_from v m t).
Proof.
  intros Hv. unfold sign_extend_from. destruct (_ <=? _); [exact Hv|]. destruct (_ =? 1); [|apply word_land; [exact Hv | lia]].
  apply word_lor; [exact Hv | | lia]. destruct (_ <? _); [apply word_land; [|lia]|]; apply word_bnot; lia.
Qed.

Section Fields.
Variables (sz : SizeCode) (d n : nat) (r s : Z) (a : A64 S V R).
Hypothesis Hr : regs_ok (aregs a).
Hypothesis Hd : (d <= 31)%nat.
Hypothesis Hn : (n <= 31)%nat.
Hypothesis Hrs : 0 <= r < width sz /\ 0 <= s < width sz.
Let w : Z := width sz.
Let src : Z := value (Register sz n) (aregs a).
Let dst : Z := value (Register sz d) (aregs a).

Let Hw : 32 <= w <= 64.
Proof. subst w. destruct sz; cbn; lia. Qed.
Let Hsrc : is_word w src.
Proof. apply register_value, Hr. Qed.
Let Hdst : is_word w dst.
Proof. apply register_value, Hr. Qed.
Let Hbound : 0 <= r < w /\ 0 <= s < w := Hrs.

Lemma imm32 v : 0 <= v < w -> wrap 32 v = v.
Proof. intros Hv. apply wrap_small. unfold is_word. lia. Qed.

Lemma src_high i : w <= i -> Z.testbit src i = false.
Proof. intros Hi. apply (word_high w); (assumption || lia). Qed.

(** The two kinds of field, before the bits around them are settled *)
Definition extracted : Z := Z.land (ushr 64 src r) (ones_below (s - r + 1)).
Definition inserted : Z := ushl 64 (Z.land src (ones_below (s + 1))) (w - r).

Lemma extract_bits i : r <= s -> s - r + 1 < 64 -> 0 <= i -> Z.testbit extracted i = (i <=? s - r) && Z.testbit src (i + r).
Proof.
  intros Hle Hlt Hi. unfold extracted. rewrite Z.land_spec, testbit_ushr, ones_below_ok, testbit_ones by lia.
  split_ltb; try lia; btauto.
Qed.

Lemma insert_bits i : s < r -> 0 <= i ->
  Z.testbit inserted i = (i <? 64) && (w - r <=? i) && (i <=? w - r + s) && Z.testbit src (i - (w - r)).
Proof.
  intros Hlt Hi. unfold inserted. rewrite testbit_ushl by lia.
  destruct (Z.leb_spec (w - r) i) as [Hge|Hl]; [|now rewrite !andb_false_r]. rewrite Z.land_spec, ones_below_ok, testbit_ones by lia.
  split_ltb; try lia; btauto.
Qed.

Lemma inserted_word : is_word 64 inserted.
Proof. apply word_ushl. lia. Qed.

Lemma extracted_word : is_word 64 extracted.
Proof. apply word_land; [apply word_ushr; [lia | apply (word_up w); [lia | exact Hsrc]] | lia]. Qed.

Lemma extract_signed i : r <= s -> s - r + 1 < 64 -> 0 <= i < w ->
  Z.testbit (sign_extend extracted (s - r + 1) w) i = if i <=? s - r then Z.testbit src (i + r) else Z.testbit src s.
Proof.
  intros Hle Hlt Hi. destruct (Z.eq_dec (s - r + 1) w) as [E|Hne].
  - unfold sign_extend. rewrite E, Z.leb_refl, orb_true_r, extract_bits by lia. split_ltb; try lia; reflexivity.
  - rewrite sign_extend_bits; [| lia | lia | apply extracted_word | | lia].
    + rewrite !extract_bits by lia. replace (s - r + 1 - 1 + r) with s by lia. split_ltb; try lia; reflexivity.
    + intros j Hj. rewrite extract_bits by lia. split_ltb. reflexivity.
Qed.

Lemma insert_signed i : s < r -> 0 <= i < w ->
  Z.testbit (sign_extend_from inserted (w - r + s) w) i
  = (w - r <=? i) && if i <=? w - r + s then Z.testbit src (i - (w - r)) else Z.testbit src s.
Proof.
  intros Hlt Hi. destruct (Z.eq_dec (w - r + s + 1) w) as [E|Hne].
  - unfold sign_extend_from. rewrite E, Z.leb_refl, insert_bits by lia. split_ltb; try lia; btauto.
  - rewrite sign_extend_from_bits; [| lia | lia | apply inserted_word | lia |].
    + rewrite !insert_bits by lia. replace (w - r + s - (w - r)) with s by lia. split_ltb; try lia; btauto.
    + intros j Hj. rewrite insert_bits by lia. split_ltb; try lia; btauto.
Qed.

Lemma ubfm_bits : whole_field UBFM w r s = false -> writes sz d (field_bit UBFM w src dst r s) a (ubfm_execute (bitfield_ins UBFM sz d n r s) a).
Proof.
  intros Hfull. unfold ubfm_execute. cbn [op0 op1 op2 op3 bitfield_ins]. rewrite (rv_of_ok (Register sz n)) by assumption.
  cbn [mbind outcome_bind rv_of read_operand_value]. rewrite !imm32 by lia. change (if operand_is_64 _ then 64 else 32) with w. fold src.
  unfold field_bit, whole_field in *. destruct (Z.leb_spec r s).
  - rewrite (wrap_small 32 (s - r + 1)) by (unfold is_word; lia). eapply writes_intro; [apply wr_clip; [assumption.. | apply extracted_word]|].
    intros i Hi. fold extracted. fold w in Hi. rewrite extract_bits by (split_ltb; lia). now destruct (i <=? s - r).
  - rewrite !wrap_small by (unfold is_word; lia). eapply writes_intro; [apply wr_clip; [assumption.. | apply inserted_word]|].
    intros i Hi. fold inserted. fold w in Hi. rewrite insert_bits by lia. split_ltb; try lia; btauto.
Qed.

Lemma sbfm_bits : whole_field SBFM w r s = false -> writes sz d (field_bit SBFM w src dst r s) a (sbfm_execute (bitfield_ins SBFM sz d n r s) a).
Proof.
  intros Hfull. unfold sbfm_execute. cbn [op0 op1 op2 op3 bitfield_ins]. rewrite (rv_of_ok (Register sz n)) by assumption.
  cbn [mbind outcome_bind rv_of read_operand_value]. rewrite !imm32 by lia. change (if operand_is_64 _ then 64 else 32) with w. fold src.
  unfold field_bit, whole_field in *. destruct (Z.leb_spec r s).
  - rewrite (wrap_small 32 (s - r + 1)) by (unfold is_word; lia). fold extracted.
    eapply writes_intro; [apply wr_clip; [assumption.. | apply sign_extend_word, extracted_word]|].
    intros i Hi. fold w in Hi. apply extract_signed; split_ltb; lia.
  - rewrite (wrap_small 32 (w - r)), (wrap_small 32 (s + 1)) by (unfold is_word; lia). fold inserted.
    replace (w - r + (s + 1) - 1) with (w - r + s) by lia. rewrite (wrap_small 32 (w - r + s)) by (unfold is_word; lia).
    eapply writes_intro; [apply wr_clip; [assumption.. | apply sign_extend_from_word, inserted_word]|].
    intros i Hi. fold w in Hi. rewrite insert_signed by lia. split_ltb; try lia; reflexivity.
Qed.

Lemma bfm_bits : writes sz d (field_bit BFM w src dst r s) a (bfm_execute (bitfield_ins BFM sz d n r s) a).
Proof.
  unfold bfm_execute. cbn [op0 op1 op2 op3 bitfield_ins]. rewrite (rd_ok (Register sz d)), (rd_ok (Register sz n)) by assumption.
  cbn [mbind outcome_bind read_imm]. rewrite !imm32 by lia. change (if operand_is_64 _ then 64 else 32) with w. fold src dst.
  assert (forall i, 0 <= i -> w <= i -> Z.testbit dst i = false) as Hdh by (intros; apply (word_high w); (assumption || lia)).
  assert (is_word 64 dst) as Hd64 by (apply (word_up w); [lia | exact Hdst]). unfold field_bit. destruct (Z.leb_spec r s).
  - rewrite (wrap_small 32 (s - r + 1)) by (unfold is_word; lia). eapply writes_intro.
    + apply (finish_plain _ None); [assumption.. | | reflexivity]. apply word_lor; [apply word_land; [exact Hd64 | lia] | apply word_land; [apply word_ushl; lia | lia] | lia].
    + intros i Hi. fold w in Hi. rewrite low_mask_ok, Z.lor_spec, !Z.land_spec, testbit_bnot, !testbit_ushl, Z.sub_0_r, testbit_ushr, testbit_ones by lia.
      split_ltb; try lia; cbn; btauto.
  - rewrite !(wrap_small 32) by (unfold is_word; lia). eapply writes_intro.
    + apply (finish_plain _ None); [assumption.. | | reflexivity]. apply word_lor; [apply word_land; [exact Hd64 | lia] | apply word_land; [apply word_ushl; lia | lia] | lia].
    + intros i Hi. fold w in Hi. rewrite low_mask_ok, Z.lor_spec, !Z.land_spec, testbit_bnot, !testbit_ushl by lia.
      destruct (Z.ltb_spec i (w - r)); [split_ltb; try lia; cbn; btauto|]. rewrite testbit_ones by lia. split_ltb; try lia; cbn; btauto.
Qed.
End Fields.

(** C25. UBFM, SBFM and BFM, and with them LSL, LSR and ASR by a constant, the
    extensions, UBFX, SBFX, BFI and BFXIL: every bit of the destination is the bit
    of the source, of the old destination or of the sign that the Arm manual names,
    at both widths and for all immediates, except for UBFM and SBFM of the whole
    64-bit field, and nothing else changes. *)
Theorem a64_bitfield_moves op sz d n r s a :
  regs_ok (aregs a) -> (d <= 31)%nat -> (n <= 31)%nat -> 0 <= r < width sz /\ 0 <= s < width sz ->
  bitfield_opcode op = true -> whole_field op (width sz) r s = false ->
  writes sz d (field_bit op (width sz) (value (Register sz n) (aregs a)) (value (Register sz d) (aregs a)) r s) a
    (emulate_instruction (bitfield_ins op sz d n r s) a).
Proof.
  intros Hr Hd Hn Hrs Ho Hf. destruct op; try discriminate Ho; [now apply bfm_bits | now apply sbfm_bits | now apply ubfm_bits].
Qed.

(** ** Constants *)

(** A sequence of instructions, as far as they succeed *)
Fixpoint run_all (is_ : list Ins) a : outcome (bool * A64 S V R) :=
  match is_ with
  | [] => Ret (true, a)
  | i :: is_ => '(ok, a) ← emulate_instruction i a; if negb ok then Ret (false, a) else run_all is_ a
  end.

(** The 16 bits of [v] at [k] *)
Definition half (v k : Z) : Z := wrap 16 (Z.shiftr v k).

Definition movz_ins (d : nat) (v k : Z) : Ins := mkIns MOVZ (Register SX d) (ImmShift v k) Nothing Nothing.
Definition movk_ins (d : nat) (v k : Z) : Ins := mkIns MOVK (Register SX d) (ImmShift v k) Nothing Nothing.

Lemma xreg_with d v a : regs_ok (aregs a) -> (d < 31)%nat -> xreg d (aregs (with_reg (Register SX d) v a)) = v.
Proof. intros Hr Hd. unfold xreg, with_reg. cbn. rewrite list_lookup_insert_eq by (rewrite (ro_len _ Hr); lia). reflexivity. Qed.

Lemma with_reg_twice d v v' a : with_reg (Register SX d) v (with_reg (Register SX d) v' a) = with_reg (Register SX d) v a.
Proof. unfold with_reg. cbn. now rewrite list_insert_insert_eq. Qed.

Lemma movz_spec d v k a : regs_ok (aregs a) -> (d <= 31)%nat ->
  emulate_instruction (movz_ins d v k) a = Ret (true, with_reg (Register SX d) (ushl 64 v k) a).
Proof. intros Hr Hd. unfold emulate_instruction, movz_execute. cbn [opcode movz_ins op0 op1 rv_of read_operand_value mbind outcome_bind]. now rewrite wr_ok. Qed.

Lemma movk_spec d v k old a : regs_ok (aregs a) -> (d < 31)%nat -> is_word 64 old ->
  emulate_instruction (movk_ins d v k) (with_reg (Register SX d) old a)
  = Ret (true, with_reg (Register SX d) (Z.lor (Z.land old (bnot 64 (ushl 64 0xFFFF k))) (ushl 64 (Z.land v 0xFFFF) k)) a).
Proof.
  intros Hr Hd Ho. assert (regs_ok (aregs (with_reg (Register SX d) old a))) as Hr' by now apply with_reg_ok.
  unfold emulate_instruction, movk_execute. cbn [opcode movk_ins op0 op1]. rewrite rd_ok by (assumption || cbn; lia). cbn [mbind outcome_bind value low_half is_64].
  rewrite xreg_with by assumption. rewrite wr_ok by (assumption || cbn; lia). cbn [mbind outcome_bind]. now rewrite with_reg_twice.
Qed.

Lemma movk_bits old v k i : 0 <= k <= 48 -> 0 <= i < 64 ->
  Z.testbit (Z.lor (Z.land old (bnot 64 (ushl 64 0xFFFF k))) (ushl 64 (Z.land (half v k) 0xFFFF) k)) i
  = if (k <=? i) && (i <? k + 16) then Z.testbit v i else Z.testbit old i.
Proof.
  intros Hk Hi. rewrite Z.lor_spec, Z.land_spec, testbit_bnot, !testbit_ushl by lia. change 0xFFFF with (Z.ones 16). unfold half.
  destruct (Z.leb_spec k i).
  - rewrite Z.land_spec, testbit_ones, testbit_wrap, Z.shiftr_spec by lia. replace (i - k + k) with i by lia. split_ltb; try lia; cbn; btauto.
  - split_ltb. cbn. btauto.
Qed.

Lemma movk_word old v k : is_word 64 old -> is_word 64 (Z.lor (Z.land old (bnot 64 (ushl 64 0xFFFF k))) (ushl 64 v k)).
Proof. intros Ho. apply word_lor; [apply word_land; [exact Ho | lia] | apply word_ushl; lia | lia]. Qed.

(** MOVZ and three MOVKs load any 64-bit constant and change nothing else. *)
Theorem a64_load_constant d v a :
  regs_ok (aregs a) -> (d < 31)%nat -> is_word 64 v ->
  run_all [movz_ins d (half v 0) 0; movk_ins d (half v 16) 16; movk_ins d (half v 32) 32; movk_ins d (half v 48) 48] a
  = Ret (true, with_reg (Register SX d) v a).
Proof.
  intros Hr Hd Hv. cbn [run_all]. rewrite movz_spec by (assumption || lia). cbn [mbind outcome_bind negb].
  rewrite movk_spec by (assumption || (apply word_ushl; lia)). cbn [mbind outcome_bind negb].
  rewrite movk_spec by (assumption || (apply movk_word, word_ushl; lia)). cbn [mbind outcome_bind negb].
  rewrite movk_spec by (assumption || (apply movk_word, movk_word, word_ushl; lia)). cbn [mbind outcome_bind negb].
  do 3 f_equal. apply (word_ext 64); [apply movk_word, movk_word, movk_word, word_ushl; lia | exact Hv | lia |].
  intros i Hi. rewrite !movk_bits by lia. rewrite testbit_ushl by lia. unfold half. rewrite testbit_wrap, Z.shiftr_0_r, Z.sub_0_r by lia.
  split_ltb; try lia; cbn; btauto.
Qed.

(** ** Variable shifts *)

(** The shift of a word by [k] < [w] places *)
Definition arm_shift (op : ShiftOp) (w x k : Z) : Z :=
  match op with
  | Lsl => wrap w (x * 2 ^ k)
  | Lsr => x / 2 ^ k
  | Asr => wrap w (sgn w x / 2 ^ k)
  | Ror => Z.lor (x / 2 ^ k) (wrap w (x * 2 ^ (w - k)))
  end.

Definition shift_opcode (op : ShiftOp) : Opcode := match op with Lsl => LSLV | Lsr => LSRV | Asr => ASRV | Ror => RORV end.

Lemma mask_mod w y : w = 64 \/ w = 32 -> (if w =? 64 then Z.land y 63 else Z.land y 31) = y mod w.
Proof. intros [-> | ->]; cbn [Z.eqb]; [change 63 with (Z.ones 6) | change 31 with (Z.ones 5)]; rewrite Z.land_ones by lia; reflexivity. Qed.

(** LSLV, LSRV, ASRV and RORV shift by the amount modulo the width, at both widths. *)
Theorem a64_variable_shifts op sz d n m a :
  regs_ok (aregs a) -> (d <= 31)%nat -> (n <= 31)%nat -> (m <= 31)%nat ->
  emulate_instruction (mkIns (shift_opcode op) (Register sz d) (Register sz n) (Register sz m) Nothing) a
  = Ret (true, with_reg (Register sz d)
                 (arm_shift op (width sz) (value (Register sz n) (aregs a)) (value (Register sz m) (aregs a) mod width sz)) a).
Proof.
  intros Hr Hd Hn Hm. set (ins := mkIns _ _ _ _ _). assert (emulate_instruction ins a = shift_execute ins op a) as -> by now destruct op.
  unfold shift_execute. cbn [ins op0 op1 op2]. rewrite !rv_of_ok by assumption. cbn [mbind outcome_bind operand_is_64].
  pose proof (register_value sz n a Hr) as Hx. set (x := value (Register sz n) _) in *. set (y := value (Register sz m) _).
  assert ((if is_64 sz then Z.land y 63 else Z.land y 31) = y mod width sz) as Ek by (destruct sz; [apply (mask_mod 64) | apply (mask_mod 32)]; auto).
  rewrite Ek. pose proof (Z.mod_pos_bound y (width sz) ltac:(destruct sz; cbn; lia)) as Hk. set (k := y mod width sz) in *.
  assert (is_word 64 x) as Hx64 by (apply (word_up (width sz)); [destruct sz; cbn; lia | exact Hx]).
  assert (32 <= width sz <= 64) as Hwd by (destruct sz; cbn; lia).
  set (res := match op with Lsl => _ | Lsr => _ | Asr => _ | Ror => _ end).
  assert (is_word 64 res /\ wrap (width sz) res = arm_shift op (width sz) x k) as [Hres E].
  { assert (is_word (width sz) (ushr (width sz) x k)) as HR by (apply word_ushr; [lia | exact Hx]). assert (is_word 64 (ushr (width sz) x k)) as HR64 by (apply (word_up (width sz)); [lia | exact HR]).
    assert (wrap 32 x = x \/ is_64 sz = true) as Hw32 by (destruct sz; [now right | left; now apply wrap_small]).
    subst res. destruct op; cbn [arm_shift].
    - split; [apply word_ushl; lia|]. rewrite ushl_small by lia. unfold shl. rewrite wrap_wrap, Z.shiftl_mul_pow2 by lia. reflexivity.
    - assert ((if is_64 sz then ushr 64 x k else ushr 32 (wrap 32 x) k) = ushr (width sz) x k) as -> by (destruct sz; cbn in *; [reflexivity | destruct Hw32 as [->|]; [reflexivity | discriminate]]).
      split; [exact HR64|]. rewrite wrap_small by exact HR. now rewrite ushr_small, Z.shiftr_div_pow2 by lia.
    - assert ((if is_64 sz then ishr 64 x k else ishr 32 (wrap 32 x) k) = ishr (width sz) x k) as -> by (destruct sz; cbn in *; [reflexivity | destruct Hw32 as [->|]; [reflexivity | discriminate]]).
      unfold ishr. rewrite Z.mod_small, Z.shiftr_div_pow2 by lia. split; [apply (word_up (width sz)); [lia | apply wrap_word; lia]|]. now rewrite wrap_wrap by lia.
    - assert ((if is_64 sz then rotate_right 64 x k else rotate_right 32 (wrap 32 x) k) = rotate_right (width sz) x k) as -> by (destruct sz; cbn in *; [reflexivity | destruct Hw32 as [->|]; [reflexivity | discriminate]]).
      assert (is_word (width sz) (rotate_right (width sz) x k)) as HRR by (apply word_ror; [lia | exact Hx]).
      split; [apply (word_up (width sz)); [lia | exact HRR]|]. rewrite wrap_small by exact HRR. unfold rotate_right, shl.
      rewrite Z.mod_small, Z.shiftr_div_pow2, Z.shiftl_mul_pow2 by lia. reflexivity. }
  rewrite <- E. now apply wr_clip.
Qed.
End Bits.
