(* ===== verification/A64Mem.v ===== *)
(** * AArch64 loads, stores, exclusive and atomic accesses

    What the memory handlers of A64Ops.v do to a well-formed address space: the
    value a load returns, the bytes a store leaves, the monitor of the exclusive
    accesses, and the read-modify-write instructions.  An access changes nothing
    else but the TLB and what the memory guard has found. *)

From stdpp Require Import gmap strings.
From S2P Require Import Prelude Scalar Mem64 Slab Tlb Maps MapsInv OperandsSpec Threads KernelGuard KernelSpec A64 A64Ops A64Spec A64Bits.

Section Access.
Context {S V R : Type} `{SlabLaws S} `{A64Env S V R}.
Implicit Types (a : A64 S V R) (ins : Ins) (m : Maps S).

Record machine_ok a : Prop := {
  mo_regs : regs_ok (aregs a);
  mo_maps : wf (amaps a) }.

(** The value that memory holds where it can be read *)
Definition peek (n : nat) (addr : Z) m : option Z :=
  if reachable Mem.can_read n addr m then from_le_bytes <$> bytes_of m addr n else None.

(** The access sizes *)
Definition access_size (bytes : Z) : Prop := bytes = 1 \/ bytes = 2 \/ bytes = 4 \/ bytes = 8.

Lemma read_n_scalar bytes addr m : access_size bytes -> read_n bytes addr m = read_scalar (Z.to_nat bytes) addr m.
Proof. now intros [-> | [-> | [-> | ->]]]. Qed.

Lemma write_n_scalar bytes addr v m : access_size bytes -> is_word 64 v ->
  exists v', write_n bytes addr v m = write_scalar (Z.to_nat bytes) addr v' m /\ to_le_bytes (Z.to_nat bytes) v' = to_le_bytes (Z.to_nat bytes) v.
Proof.
  intros Hb Hv. destruct Hb as [-> | [-> | [-> | ->]]]; (eexists; split; [reflexivity|]); try reflexivity; apply to_le_bytes_wrap;
    cbn; rewrite wrap_small; try reflexivity; apply wrap_word; lia.
Qed.

(** A state in which an access was judged and translated *)
Definition seen a (a' : A64 S V R) : Prop := exists t k, wf_tlb t /\ a' = set_amaps (set_tlb t (amaps a)) (set_akernel k a).

Lemma seen_ok a a' : seen a a' -> machine_ok a -> machine_ok a'.
Proof. intros (t & k & Ht & ->) [Hr Hm]. split; [exact Hr|]. now apply set_tlb_wf. Qed.

Lemma seen_refl a : machine_ok a -> seen a a.
Proof. intros [_ Hm]. exists (tlb (amaps a)), (akernel a). split; [apply wf_tlb_array, Hm|]. rewrite set_tlb_id. now destruct a. Qed.

Lemma seen_trans a a' a'' : seen a a' -> seen a' a'' -> seen a a''.
Proof. intros (t & k & Ht & ->) (t' & k' & Ht' & ->). exists t', k'. now split. Qed.

Lemma seen_regs a a' : seen a a' -> aregs a' = aregs a.
Proof. now intros (t & k & _ & ->). Qed.

Lemma seen_maps a a' : seen a a' -> maps_equiv (amaps a') (amaps a).
Proof. now intros (t & k & _ & ->). Qed.

Lemma seen_exclusive a a' : seen a a' -> exclusive a' = exclusive a.
Proof. now intros (t & k & _ & ->). Qed.

Lemma peek_seen n addr a a' : seen a a' -> peek n addr (amaps a') = peek n addr (amaps a).
Proof. intros Hs%seen_maps. unfold peek. now rewrite (reachable_proper _ _ _ _ _ Hs), (bytes_of_proper _ _ Hs _ _ eq_refl _ _ eq_refl). Qed.

Lemma writable_seen n addr a a' : seen a a' -> reachable Mem.can_write n addr (amaps a') = reachable Mem.can_write n addr (amaps a).
Proof. intros Hs%seen_maps. apply reachable_proper, Hs. Qed.

(** The guard never panics: it adds to its findings. *)
Lemma guard_mem_spec addr n w a : exists k, guard_mem addr n w a = Ret (set_akernel k a).
Proof.
  unfold guard_mem. destruct (akernel_guard a); [|exists (akernel a); now destruct a].
  unfold kernel_guard_access. cbn [kernel as_guarded]. destruct (akernel a) as [k|] eqn:Ek; [|cbn; eauto].
  destruct (is_free_poison addr); [cbn; eauto|]. destruct (index_of_sound addr (heap k)) as (o & -> & Ho). cbn [mbind outcome_bind].
  destruct o as [i|]; [|cbn; eauto]. destruct (Ho i eq_refl) as (c & Ec & _). unfold get, index. rewrite Ec. cbn [mbind outcome_bind].
  destruct (is_freed c); [|destruct (_ <=? _)]; cbn; eauto.
Qed.

Lemma read_spec bytes addr a : machine_ok a -> access_size bytes -> is_word 64 addr ->
  exists t, wf_tlb t /\ on_amaps (read_n bytes addr) a = Ret (peek (Z.to_nat bytes) addr (amaps a), set_amaps (set_tlb t (amaps a)) a).
Proof.
  intros [_ Hm] Hb Ha. unfold on_amaps. rewrite read_n_scalar by exact Hb.
  destruct (read_scalar_spec (Z.to_nat bytes) addr (amaps a) Hm) as (t & Ht & ->); [apply Ha | destruct Hb as [-> | [-> | [-> | ->]]]; cbn; lia |].
  exists t. now split.
Qed.

Lemma guarded_read bytes n addr a : machine_ok a -> access_size bytes -> is_word 64 addr ->
  exists a', (a ← guard_mem addr n false a; on_amaps (read_n bytes addr) a) = Ret (peek (Z.to_nat bytes) addr (amaps a), a') /\ seen a a'.
Proof.
  intros Hok Hb Ha. destruct (guard_mem_spec addr n false a) as [k ->]. cbn [mbind outcome_bind].
  destruct (read_spec bytes addr (set_akernel k a)) as (t & Ht & ->); [now destruct Hok | exact Hb | exact Ha |].
  eexists. split; [reflexivity|]. exists t, k. now split.
Qed.

Lemma read_mem_spec bytes addr a : machine_ok a -> access_size bytes -> is_word 64 addr ->
  exists a', read_mem addr bytes a = Ret (peek (Z.to_nat bytes) addr (amaps a), a') /\ seen a a'.
Proof. apply guarded_read. Qed.

(** A state in which a value was stored, if memory took it *)
Definition stored (n : nat) (addr v : Z) a (a' : A64 S V R) : Prop :=
  exists m k, a' = set_amaps m (set_akernel k a) /\ wf m /\
    if reachable Mem.can_write n addr (amaps a) then stores (amaps a) m addr (to_le_bytes n v) else maps_equiv m (amaps a).

Lemma write_spec bytes addr v a : machine_ok a -> access_size bytes -> is_word 64 addr -> is_word 64 v ->
  exists a', on_amaps (write_n bytes addr v) a = Ret (reachable Mem.can_write (Z.to_nat bytes) addr (amaps a), a') /\
    stored (Z.to_nat bytes) addr v a a'.
Proof.
  intros [_ Hm] Hb Ha Hv. unfold on_amaps. destruct (write_n_scalar bytes addr v (amaps a) Hb Hv) as (v' & -> & Ev).
  destruct (write_scalar_spec (Z.to_nat bytes) addr v' (amaps a) Hm) as (m' & -> & Hw & Hs); [apply Ha | destruct Hb as [-> | [-> | [-> | ->]]]; cbn; lia |].
  eexists. split; [reflexivity|]. exists m', (akernel a). split; [now destruct a|]. split; [exact Hw|]. rewrite <- Ev.
  destruct (reachable _ _ _ _); [apply Hs | exact Hs].
Qed.

Lemma guarded_write bytes n addr v a : machine_ok a -> access_size bytes -> is_word 64 addr -> is_word 64 v ->
  exists a', (a ← guard_mem addr n true a; on_amaps (write_n bytes addr v) a)
             = Ret (reachable Mem.can_write (Z.to_nat bytes) addr (amaps a), a') /\ stored (Z.to_nat bytes) addr v a a'.
Proof.
  intros Hok Hb Ha Hv. destruct (guard_mem_spec addr n true a) as [k ->]. cbn [mbind outcome_bind].
  destruct (write_spec bytes addr v (set_akernel k a)) as (a' & -> & m & k' & -> & Hw & Hs); [now destruct Hok | assumption.. |].
  eexists. split; [reflexivity|]. exists m, k'. now split.
Qed.

Lemma write_mem_spec bytes addr v a : machine_ok a -> access_size bytes -> is_word 64 addr -> is_word 64 v ->
  exists a', write_mem addr bytes v a = Ret (reachable Mem.can_write (Z.to_nat bytes) addr (amaps a), a') /\ stored (Z.to_nat bytes) addr v a a'.
Proof. apply guarded_write. Qed.

Lemma stored_ok n addr v a a' : stored n addr v a a' -> machine_ok a -> machine_ok a'.
Proof. intros (m & k & -> & Hw & _) [Hr _]. now split. Qed.

Lemma stored_regs n addr v a a' : stored n addr v a a' -> aregs a' = aregs a.
Proof. now intros (m & k & -> & _). Qed.

Lemma seen_stored n addr v a a' a'' : seen a a' -> stored n addr v a' a'' -> stored n addr v a a''.
Proof.
  intros (t & k & Ht & ->) (m & k' & -> & Hw & Hs). exists m, k'. split; [now destruct a|]. split; [exact Hw|]. exact Hs.
Qed.

(** ** Addresses *)

Definition mem_ok (op : Operand) : Prop :=
  match op with
  | RegPreIndex n _ _ | RegPostIndex n _ => (n <= 31)%nat
  | RegRegOffset b i _ _ _ => (b <= 31)%nat /\ (i <= 31)%nat
  | PCOffset _ => True
  | _ => False
  end.

(** The address of an operand, and the base register's new value if it gets one *)
Definition effective (op : Operand) (r : RegsAarch64) : Z :=
  match op with
  | RegPreIndex n off _ => wadd (xsp n r) (wrap 64 off)
  | RegPostIndex n _ => xsp n r
  | RegRegOffset b i sz style amt => wadd (xsp b r) (apply_shift (low_half sz (xreg i r)) style amt)
  | PCOffset off => wadd (rpc r) (wrap 64 off)
  | _ => 0
  end.
Definition new_base (op : Operand) (r : RegsAarch64) : option (nat * Z) :=
  match op with
  | RegPreIndex n off true => Some (n, wadd (xsp n r) (wrap 64 off))
  | RegPostIndex n off => Some (n, wadd (xsp n r) (wrap 64 off))
  | _ => None
  end.
Definition rebased (op : Operand) (r : RegsAarch64) a : A64 S V R :=
  match new_base op r with Some (n, v) => with_reg (RegisterOrSP SX n) v a | None => a end.

Lemma resolve_ok op r : regs_ok r -> mem_ok op -> resolve_mem_addr op r = Ret (effective op r, new_base op r).
Proof.
  intros Hr Ho. destruct op; try easy; cbn in *.
  - rewrite get_x_or_sp_ok by assumption. now destruct writeback.
  - now rewrite get_x_or_sp_ok.
  - destruct Ho. rewrite get_x_or_sp_ok, get_x_ok by assumption. now destruct sz.
Qed.

Lemma effective_word op r : regs_ok r -> mem_ok op -> is_word 64 (effective op r).
Proof. intros Hr Ho. destruct op; try easy; cbn; try (apply wrap_word; lia). now apply xsp_word. Qed.

Lemma new_base_ok op r n v : regs_ok r -> mem_ok op -> new_base op r = Some (n, v) -> (n <= 31)%nat /\ is_word 64 v.
Proof. intros Hr Ho E. destruct op; try easy; cbn in *; [destruct writeback; [|easy]|]; injection E as <- <-; (split; [assumption | apply wrap_word; lia]). Qed.

Lemma wback_ok op r a : regs_ok r -> regs_ok (aregs a) -> mem_ok op -> wback (new_base op r) a = Ret (rebased op r a).
Proof.
  intros Hr Hr' Ho. unfold wback, rebased, do_writeback. destruct (new_base op r) as [[n v]|] eqn:E; [|cbn; now destruct a].
  destruct (new_base_ok op r n v Hr Ho E) as [Hn _]. now rewrite set_x_or_sp_ok by assumption.
Qed.

Lemma rebased_ok op r a : regs_ok r -> mem_ok op -> regs_ok (aregs a) -> regs_ok (aregs (rebased op r a)).
Proof.
  intros Hr Ho Hr'. unfold rebased. destruct (new_base op r) as [[n v]|] eqn:E; [|exact Hr'].
  apply with_reg_ok; [exact Hr'|]. now apply (new_base_ok op r n v).
Qed.

(** ** Loads and stores of general registers *)

(** How many bytes a load reads and what it makes of them, for a destination of 64 bits or of 32 *)
Definition arm_load (op : Opcode) (is64 : bool) : option (Z * (Z -> Z)) :=
  let w := if is64 then 64 else 32 in
  match op with
  | LDR | LDUR | LDAPUR => Some (if is64 then 8 else 4, id)
  | LDRB | LDURB | LDAPURB => Some (1, id)
  | LDRH | LDURH | LDAPURH => Some (2, id)
  | LDRSB | LDURSB | LDAPURSB => Some (1, fun v => wrap w (sgn 8 v))
  | LDRSH | LDURSH | LDAPURSH => Some (2, fun v => wrap w (sgn 16 v))
  | LDRSW | LDURSW | LDAPURSW => Some (4, fun v => wrap 64 (sgn 32 v))
  | _ => None
  end.

Definition arm_store (op : Opcode) (is64 : bool) : option Z :=
  match op with
  | STR | STUR | STLUR => Some (if is64 then 8 else 4)
  | STRB | STURB | STLURB => Some 1
  | STRH | STURH | STLURH => Some 2
  | _ => None
  end.

Lemma reg_width_size (b : bool) : access_size (if b then 8 else 4).
Proof. unfold access_size. destruct b; lia. Qed.

Lemma peek_word n addr m v : wf m -> (n <= 8)%nat -> peek n addr m = Some v -> is_word 64 v.
Proof.
  intros Hm Hn. unfold peek. destruct (reachable _ _ _ _); [|discriminate]. destruct (bytes_of m addr n) as [bs|] eqn:E; [|discriminate].
  intros [= <-]. destruct (bytes_of_bytes m addr n bs Hm E) as [Hb Hl]. apply (word_up (bits_of n)); [unfold bits_of; lia|].
  rewrite <- Hl. now apply from_le_bytes_word.
Qed.

Lemma access_size_le bytes : access_size bytes -> (Z.to_nat bytes <= 8)%nat.
Proof. intros [-> | [-> | [-> | ->]]]; cbn; lia. Qed.

Lemma load_spec bytes ext ins a :
  machine_ok a -> access_size bytes -> dest_ok (op0 ins) -> mem_ok (op1 ins) -> (forall v, is_word 64 v -> is_word 64 (ext v)) ->
  let addr := effective (op1 ins) (aregs a) in
  exists a', seen a a' /\
    load_execute bytes ext ins a = Ret (match peek (Z.to_nat bytes) addr (amaps a) with
                                        | Some v => (true, rebased (op1 ins) (aregs a) (with_reg (op0 ins) (ext v) a'))
                                        | None => (false, a')
                                        end).
Proof.
  intros Hok Hb Hd Hm Hext addr. pose proof (mo_regs _ Hok) as Hr. unfold load_execute. rewrite resolve_ok by assumption. cbn [mbind outcome_bind].
  fold addr. pose proof (effective_word _ _ Hr Hm : is_word 64 addr) as Ha.
  destruct (guarded_read bytes bytes addr a Hok Hb Ha) as (a' & E & Hs). exists a'. split; [exact Hs|].
  destruct (guard_mem addr bytes false a) as [a1|]; [|discriminate E]. cbn [mbind outcome_bind] in E |- *. rewrite E. cbn [mbind outcome_bind].
  destruct (peek _ _ _) as [v|] eqn:Ep; [|reflexivity]. assert (regs_ok (aregs a')) as Hr' by now rewrite (seen_regs _ _ Hs).
  rewrite wr_ok by assumption. cbn [mbind outcome_bind]. rewrite wback_ok; [reflexivity | exact Hr | | exact Hm].
  apply with_reg_ok; [exact Hr'|]. apply Hext. apply (peek_word _ _ _ _ (mo_maps _ Hok) (access_size_le _ Hb) Ep).
Qed.

Lemma store_spec bytes ins a :
  machine_ok a -> access_size bytes -> reg_ok (op0 ins) -> mem_ok (op1 ins) ->
  exists a', stored (Z.to_nat bytes) (effective (op1 ins) (aregs a)) (value (op0 ins) (aregs a)) a a' /\
    store_execute bytes ins a = Ret (true, rebased (op1 ins) (aregs a) a').
Proof.
  intros Hok Hb Hd Hm. pose proof (mo_regs _ Hok) as Hr. unfold store_execute. rewrite rd_ok by assumption. cbn [mbind outcome_bind].
  rewrite resolve_ok by assumption. cbn [mbind outcome_bind].
  destruct (guarded_write bytes bytes (effective (op1 ins) (aregs a)) (value (op0 ins) (aregs a)) a) as (a' & E & Hs);
    [exact Hok | exact Hb | now apply effective_word | apply value_word; [exact Hr | now apply reg_source] |].
  exists a'. split; [exact Hs|]. destruct (guard_mem _ bytes true a) as [a1|]; [|discriminate E]. cbn [mbind outcome_bind] in E |- *.
  rewrite E. cbn [mbind outcome_bind]. rewrite wback_ok; [reflexivity | exact Hr | | exact Hm]. now rewrite (stored_regs _ _ _ _ _ Hs).
Qed.

(** A general register as the data of a load or store *)
Definition plain_reg (op : Operand) : Prop := exists sz n, op = Register sz n /\ (n <= 31)%nat.

Lemma plain_dest op : plain_reg op -> dest_ok op.
Proof. now intros (sz & n & -> & Hn). Qed.

Lemma wide_sext (is64 : bool) k v : is_word 64 (wrap (if is64 then 64 else 32) (sgn k v)).
Proof. destruct is64; [apply wrap_word; lia|]. apply (word_up 32); [lia | apply wrap_word; lia]. Qed.

Lemma a64_load_spec ins a bytes ext :
  machine_ok a -> plain_reg (op0 ins) -> mem_ok (op1 ins) -> arm_load (opcode ins) (operand_is_64 (op0 ins)) = Some (bytes, ext) ->
  exists a', seen a a' /\
    emulate_instruction ins a = Ret (match peek (Z.to_nat bytes) (effective (op1 ins) (aregs a)) (amaps a) with
                                     | Some v => (true, rebased (op1 ins) (aregs a) (with_reg (op0 ins) (ext v) a'))
                                     | None => (false, a')
                                     end).
Proof.
  intros Hok Hp Hm E. pose proof (plain_dest _ Hp) as Hd. destruct Hp as (sz & n & Eo & Hn).
  assert (access_size bytes /\ (forall v, is_word 64 v -> is_word 64 (ext v)) /\ emulate_instruction ins a = load_execute bytes ext ins a) as (Hb & Hx & ->).
  { unfold arm_load in E. unfold emulate_instruction. destruct (opcode ins); try discriminate E; injection E as <- <-;
      (split; [first [apply reg_width_size | unfold access_size; lia]|]; split; [intros v Hv; first [exact Hv | apply (wide_sext true) | apply wide_sext]|]);
      unfold ldr_execute, ldur_execute, ldrsb_execute, ldrsh_execute, ldursb_execute, ldursh_execute; rewrite ?Eo; try reflexivity; now destruct sz. }
  now apply load_spec.
Qed.

Lemma a64_store_spec ins a bytes :
  machine_ok a -> plain_reg (op0 ins) -> mem_ok (op1 ins) -> arm_store (opcode ins) (operand_is_64 (op0 ins)) = Some bytes ->
  exists a', stored (Z.to_nat bytes) (effective (op1 ins) (aregs a)) (value (op0 ins) (aregs a)) a a' /\
    emulate_instruction ins a = Ret (true, rebased (op1 ins) (aregs a) a').
Proof.
  intros Hok Hp Hm E. pose proof (plain_dest _ Hp) as Hd. destruct Hp as (sz & n & Eo & Hn).
  assert (access_size bytes /\ emulate_instruction ins a = store_execute bytes ins a) as (Hb & ->).
  { unfold arm_store in E. unfold emulate_instruction. destruct (opcode ins); try discriminate E; injection E as <-;
      (split; [first [apply reg_width_size | unfold access_size; lia]|]); unfold str_execute, stur_execute, store_reg_execute; rewrite ?Eo; reflexivity. }
  now apply store_spec.
Qed.

(** ** Pairs *)

(** STP x, y, [SP, #-2n]! and LDP x, y, [SP], #2n *)
Definition push_pair (sz : SizeCode) (x y : nat) : Ins :=
  mkIns STP (Register sz x) (Register sz y) (RegPreIndex 31 (- (2 * reg_bytes (Register sz x))) true) Nothing.
Definition pop_pair (sz : SizeCode) (x y : nat) : Ins :=
  mkIns LDP (Register sz x) (Register sz y) (RegPostIndex 31 (2 * reg_bytes (Register sz x))) Nothing.

(** Two bytes runs stored one after the other *)
Lemma stored_pair n addr v1 v2 a a1 a2 :
  reachable Mem.can_write n addr (amaps a) = true -> reachable Mem.can_write n (addr + Z.of_nat n) (amaps a) = true ->
  stored n addr v1 a a1 -> stored n (addr + Z.of_nat n) v2 a1 a2 ->
  exists m k, a2 = set_amaps m (set_akernel k a) /\ wf m /\ stores (amaps a) m addr (to_le_bytes n v1 ++ to_le_bytes n v2).
Proof.
  intros W1 W2 (m1 & k1 & -> & Hw1 & Hs1) (m2 & k2 & -> & Hw2 & Hs2). rewrite W1 in Hs1. cbn [amaps set_amaps set_akernel] in Hs2.
  assert (reachable Mem.can_write n (addr + Z.of_nat n) m1 = true) as W3.
  { rewrite <- W2. apply reachable_layout; [|apply Hs1]. intros mm mm' E. unfold Mem.can_write. now rewrite E. }
  rewrite W3 in Hs2. exists m2, k2. split; [now destruct a|]. split; [exact Hw2|]. apply (stores_trans _ m1); [exact Hs1|].
  now rewrite length_to_le_bytes.
Qed.

Lemma pair_bytes m m' addr n v1 v2 : stores m m' addr (to_le_bytes n v1 ++ to_le_bytes n v2) ->
  bytes_of m' addr n = Some (to_le_bytes n v1) /\ bytes_of m' (addr + Z.of_nat n) n = Some (to_le_bytes n v2).
Proof.
  intros [Hb _]. pose proof (length_to_le_bytes n v1) as L1. pose proof (length_to_le_bytes n v2) as L2.
  split; (apply bytes_of_spec; [apply length_to_le_bytes|]); intros i Hi; rewrite Hb, length_app, L1, L2, decide_True by lia.
  - rewrite lookup_app_l by lia. f_equal. lia.
  - rewrite lookup_app_r by lia. f_equal. lia.
Qed.

Lemma peek_stored n addr v m m' : (forall x, layout m' x = layout m x) -> reachable Mem.can_read n addr m = true ->
  bytes_of m' addr n = Some (to_le_bytes n v) -> peek n addr m' = Some (wrap (bits_of n) v).
Proof.
  intros Hl Hr Hb. unfold peek. erewrite reachable_layout; [| |exact Hl]; [|intros mm mm' E; unfold Mem.can_read; now rewrite E].
  rewrite Hr, Hb. cbn. now rewrite from_to_le_bytes_wrap.
Qed.

Lemma stp_spec ins a :
  machine_ok a -> plain_reg (op0 ins) -> plain_reg (op1 ins) -> mem_ok (op2 ins) ->
  let bytes := reg_bytes (op0 ins) in
  let addr := effective (op2 ins) (aregs a) in
  exists a1 a2, stored (Z.to_nat bytes) addr (value (op0 ins) (aregs a)) a a1 /\
    stored (Z.to_nat bytes) (wadd addr bytes) (value (op1 ins) (aregs a)) a1 a2 /\
    stp_execute ins a = Ret (true, rebased (op2 ins) (aregs a) a2).
Proof.
  intros Hok Hp1 Hp2 Hm bytes addr. pose proof (mo_regs _ Hok) as Hr. pose proof (plain_dest _ Hp1) as Hd1. pose proof (plain_dest _ Hp2) as Hd2.
  assert (access_size bytes) as Hb by apply reg_width_size. pose proof (effective_word _ _ Hr Hm : is_word 64 addr) as Ha.
  assert (is_word 64 (value (op0 ins) (aregs a)) /\ is_word 64 (value (op1 ins) (aregs a))) as [Hv1 Hv2]
    by (split; (apply value_word; [exact Hr | now apply reg_source])).
  assert (stp_execute ins a = (v1 ← rd (op0 ins) a; v2 ← rd (op1 ins) a; '(addr, wb) ← resolve_mem_addr (op2 ins) (aregs a);
      a ← guard_mem addr (bytes * 2) true a; '(_, a) ← on_amaps (write_n bytes addr v1) a;
      '(_, a) ← on_amaps (write_n bytes (wadd addr bytes) v2) a; a ← wback wb a; Ret (true, a))) as ->
    by (destruct Hp1 as (s1 & n1 & E1 & _); unfold stp_execute, bytes, reg_bytes; rewrite E1; reflexivity).
  rewrite !rd_ok by assumption. cbn [mbind outcome_bind]. rewrite resolve_ok by assumption. cbn [mbind outcome_bind]. fold addr.
  destruct (guarded_write bytes (bytes * 2) addr (value (op0 ins) (aregs a)) a Hok Hb Ha Hv1) as (a1 & E & Hs1). exists a1.
  destruct (guard_mem addr (bytes * 2) true a) as [a0|]; [|discriminate E]. cbn [mbind outcome_bind] in E |- *. rewrite E. cbn [mbind outcome_bind].
  pose proof (stored_ok _ _ _ _ _ Hs1 Hok) as Hok1.
  destruct (write_spec bytes (wadd addr bytes) (value (op1 ins) (aregs a)) a1 Hok1 Hb) as (a2 & E2 & Hs2); [apply wrap_word; lia | exact Hv2 |].
  exists a2. rewrite E2. cbn [mbind outcome_bind]. split; [exact Hs1|]. split; [exact Hs2|]. rewrite wback_ok; [reflexivity | exact Hr | | exact Hm].
  now rewrite (stored_regs _ _ _ _ _ Hs2), (stored_regs _ _ _ _ _ Hs1).
Qed.

Lemma ldp_spec ins a v1 v2 :
  machine_ok a -> plain_reg (op0 ins) -> plain_reg (op1 ins) -> mem_ok (op2 ins) ->
  let bytes := reg_bytes (op0 ins) in
  let addr := effective (op2 ins) (aregs a) in
  peek (Z.to_nat bytes) addr (amaps a) = Some v1 -> peek (Z.to_nat bytes) (wadd addr bytes) (amaps a) = Some v2 ->
  exists a', seen a a' /\ ldp_execute ins a = Ret (true, rebased (op2 ins) (aregs a) (with_reg (op1 ins) v2 (with_reg (op0 ins) v1 a'))).
Proof.
  intros Hok Hp1 Hp2 Hm bytes addr P1 P2. pose proof (mo_regs _ Hok) as Hr. pose proof (plain_dest _ Hp1) as Hd1. pose proof (plain_dest _ Hp2) as Hd2.
  assert (access_size bytes) as Hb by apply reg_width_size. pose proof (effective_word _ _ Hr Hm : is_word 64 addr) as Ha.
  pose proof (peek_word _ _ _ _ (mo_maps _ Hok) (access_size_le _ Hb) P1) as W1. pose proof (peek_word _ _ _ _ (mo_maps _ Hok) (access_size_le _ Hb) P2) as W2.
  assert (ldp_execute ins a = ('(addr, wb) ← resolve_mem_addr (op2 ins) (aregs a); a ← guard_mem addr (bytes * 2) false a;
      '(v1, a) ← on_amaps (read_n bytes addr) a;
      match v1 with
      | None => Ret (false, a)
      | Some v1 => '(v2, a) ← on_amaps (read_n bytes (wadd addr bytes)) a;
          match v2 with
          | None => Ret (false, a)
          | Some v2 => a ← wr (op0 ins) v1 a; a ← wr (op1 ins) v2 a; a ← wback wb a; Ret (true, a)
          end
      end)) as -> by (destruct Hp1 as (s1 & n1 & E1 & _); unfold ldp_execute, bytes, reg_bytes; rewrite E1; reflexivity).
  rewrite resolve_ok by assumption. cbn [mbind outcome_bind]. fold addr.
  destruct (guarded_read bytes (bytes * 2) addr a Hok Hb Ha) as (a1 & E & Hs1). rewrite P1 in E.
  destruct (guard_mem addr (bytes * 2) false a) as [a0|]; [|discriminate E]. cbn [mbind outcome_bind] in E |- *. rewrite E. cbn [mbind outcome_bind].
  destruct (read_spec bytes (wadd addr bytes) a1) as (t & Ht & E2); [now apply (seen_ok a) | exact Hb | apply wrap_word; lia |].
  rewrite (peek_seen _ _ _ _ Hs1), P2 in E2. rewrite E2. cbn [mbind outcome_bind]. set (a2 := set_amaps _ a1).
  assert (seen a a2) as Hs2 by (apply (seen_trans _ a1); [exact Hs1|]; exists t, (akernel a1); split; [exact Ht | now destruct a1]).
  exists a2. split; [exact Hs2|]. assert (regs_ok (aregs a2)) as Hr2 by now rewrite (seen_regs _ _ Hs2).
  rewrite wr_ok by assumption. cbn [mbind outcome_bind]. rewrite wr_ok; [|now apply with_reg_ok | exact Hd2]. cbn [mbind outcome_bind].
  rewrite wback_ok; [reflexivity | exact Hr | | exact Hm]. apply with_reg_ok; [now apply with_reg_ok | exact W2].
Qed.

(** C23. The frame of a function: STP of two registers with a pre-decrement of SP
    stores both values, the first at the lower address, and nothing else; the LDP
    that post-increments SP gives two registers those values and restores SP. *)
Theorem a64_pair_roundtrip sz x y u v a :
  machine_ok a -> (x <= 31)%nat -> (y <= 31)%nat -> (u <= 31)%nat -> (v <= 31)%nat ->
  let n := Z.to_nat (reg_bytes (Register sz x)) in
  let sp := rsp (aregs a) in
  let addr := sp - 2 * Z.of_nat n in
  2 * Z.of_nat n <= sp ->
  Forall (fun b => reachable Mem.can_write n b (amaps a) = true /\ reachable Mem.can_read n b (amaps a) = true) [addr; addr + Z.of_nat n] ->
  exists a1 a2, emulate_instruction (push_pair sz x y) a = Ret (true, a1) /\
    aregs a1 = set_rsp addr (aregs a) /\
    stores (amaps a) (amaps a1) addr (to_le_bytes n (value (Register sz x) (aregs a)) ++ to_le_bytes n (value (Register sz y) (aregs a))) /\
    emulate_instruction (pop_pair sz u v) a1 = Ret (true, a2) /\
    aregs a2 = put (Register sz v) (value (Register sz y) (aregs a)) (put (Register sz u) (value (Register sz x) (aregs a)) (aregs a)).
Proof.
  intros Hok Hx Hy Hu Hv n sp addr Hsp HF. pose proof (mo_regs _ Hok) as Hr. pose proof (ro_sp _ Hr) as Hws. fold sp in Hws.
  apply Forall_cons in HF as [[W1 R1] HF]. apply Forall_cons in HF as [[W2 R2] _].
  assert (reg_bytes (Register sz x) = Z.of_nat n) as En by (unfold n; destruct sz; reflexivity).
  assert (reg_bytes (Register sz u) = Z.of_nat n) as Enu by (unfold n; destruct sz; reflexivity).
  assert (4 <= Z.of_nat n <= 8) as Hnb by (unfold n; destruct sz; cbn; lia).
  assert (wadd sp (wrap 64 (- (2 * Z.of_nat n))) = addr) as Ea.
  { unfold wadd. rewrite <- (wrap_small 64 sp) by exact Hws. rewrite wrap_add, wrap_small by (unfold is_word in *; lia). unfold addr. lia. }
  assert (wadd addr (Z.of_nat n) = addr + Z.of_nat n) as Ea2 by (apply wadd_small; unfold is_word in *; lia).
  destruct (stp_spec (push_pair sz x y) a Hok) as (b1 & b2 & S1 & S2 & E);
    [now exists sz, x | now exists sz, y | cbn; lia |]. cbn [push_pair op0 op1 op2 effective xsp Nat.eqb] in S1, S2, E. fold sp in S1, S2. rewrite En, Ea in S1, S2. rewrite Ea2 in S2.
  rewrite Nat2Z.id in S1, S2. destruct (stored_pair _ _ _ _ _ _ _ W1 W2 S1 S2) as (m & k & Eb & Hwm & Hst).
  set (a1 := rebased _ (aregs a) b2) in E. exists a1.
  assert (a1 = set_amaps m (set_akernel k (set_aregs (set_rsp addr (aregs a)) a))) as Ea1.
  { unfold a1, rebased, new_base, with_reg. rewrite Eb, En. cbn [put Nat.eqb low_half is_64 aregs set_amaps set_akernel xsp]. fold sp. rewrite Ea. now destruct a. }
  assert (machine_ok a1) as Hok1 by (rewrite Ea1; split; [destruct Hr; split; cbn; try assumption; unfold is_word in *; lia | exact Hwm]).
  destruct (pair_bytes _ _ _ _ _ _ Hst) as [B1 B2]. destruct Hst as [Hb Hl].
  assert (forall z, value (Register sz z) (aregs a) = wrap (bits_of n) (value (Register sz z) (aregs a))) as Ew.
  { intros z. symmetry. apply wrap_small. cbn. rewrite low_half_wrap by (now apply xreg_word). unfold n. destruct sz; apply wrap_word; cbn; lia. }
  destruct (ldp_spec (pop_pair sz u v) a1 (value (Register sz x) (aregs a)) (value (Register sz y) (aregs a)) Hok1) as (a2 & Hs & E2);
    [now exists sz, u | now exists sz, v | cbn; lia | | |].
  1,2: cbn [pop_pair op0 op2 effective xsp Nat.eqb]; rewrite ?Enu, Nat2Z.id, Ea1; cbn [aregs set_amaps set_akernel set_aregs set_rsp rsp amaps];
    rewrite ?Ea2, Ew; now apply (peek_stored _ _ _ (amaps a)).
  eexists. split; [exact E|]. split; [now rewrite Ea1|]. split; [now rewrite Ea1|]. split; [exact E2|].
  cbn [pop_pair op0 op1 op2]. unfold rebased, new_base, with_reg. rewrite Enu, Ea1.
  assert (aregs a2 = set_rsp addr (aregs a)) as Ea3 by (rewrite (seen_regs _ _ Hs), Ea1; reflexivity).
  cbn [put Nat.eqb low_half is_64 aregs set_amaps set_akernel set_aregs xsp set_rsp rsp]. rewrite Ea3.
  assert (wadd addr (wrap 64 (2 * Z.of_nat n)) = sp) as ->.
  { unfold wadd. rewrite <- (wrap_small 64 addr) by (unfold is_word in *; lia). rewrite wrap_add, wrap_small by (unfold is_word in *; lia). unfold addr. lia. }
  unfold sp. now destruct (aregs a).
Qed.

(** ** The exclusive monitor *)

Definition sized_by (bytes : option Z) : Prop := match bytes with Some b => b = 1 \/ b = 2 | None => True end.

Lemma width_of_size bytes op : sized_by bytes -> access_size (width_of bytes op).
Proof. unfold width_of, access_size. destruct bytes as [b|]; cbn; [lia|]. intros _. apply reg_width_size. Qed.

Lemma exclusive_load_spec ins b a :
  machine_ok a -> plain_reg (op0 ins) -> mem_ok (op1 ins) -> sized_by b ->
  let bytes := width_of b (op0 ins) in
  let addr := effective (op1 ins) (aregs a) in
  exists a', seen a a' /\
    exclusive_load ins b a = Ret (match peek (Z.to_nat bytes) addr (amaps a) with
                                  | Some v => (true, if is_exclusive_load (opcode ins) then reserve addr bytes (v, 0) (with_reg (op0 ins) v a')
                                                     else with_reg (op0 ins) v a')
                                  | None => (false, a')
                                  end).
Proof.
  intros Hok Hp Hm Hb bytes addr. pose proof (mo_regs _ Hok) as Hr. unfold exclusive_load. rewrite resolve_ok by assumption. cbn [mbind outcome_bind].
  fold bytes addr. destruct (read_mem_spec bytes addr a Hok (width_of_size _ _ Hb) (effective_word _ _ Hr Hm)) as (a' & -> & Hs).
  exists a'. split; [exact Hs|]. cbn [mbind outcome_bind]. destruct (peek _ _ _) as [v|]; [|reflexivity].
  rewrite wr_ok; [reflexivity | now rewrite (seen_regs _ _ Hs) | now apply plain_dest].
Qed.

(** The reservation covers the access and memory holds what was read. *)
Definition undisturbed (addr bytes : Z) a : bool :=
  match exclusive a with
  | Some r => (res_addr r =? addr) && (res_bytes r =? bytes) && bool_decide (peek (Z.to_nat bytes) addr (amaps a) = Some (res_values r).1)
  | None => false
  end.

Lemma set_exclusive_ok e a : machine_ok a -> machine_ok (set_exclusive e a).
Proof. now intros []. Qed.

Lemma reservation_spec addr bytes a : machine_ok a -> access_size bytes -> is_word 64 addr ->
  exists a', reservation_holds addr bytes false a = Ret (undisturbed addr bytes a, a') /\ seen (set_exclusive None a) a'.
Proof.
  intros Hok Hb Ha. unfold reservation_holds, undisturbed. destruct (exclusive a) as [r|] eqn:Er; cycle 1.
  { exists a. split; [reflexivity|]. replace (set_exclusive None a) with a by (destruct a; cbn in Er; now subst). now apply seen_refl. }
  pose proof (set_exclusive_ok None a Hok) as Hok'.
  destruct (res_addr r =? addr); [destruct (res_bytes r =? bytes)|]; cbn [negb orb andb]; try (eexists; split; [reflexivity | now apply seen_refl]).
  destruct (read_mem_spec bytes addr (set_exclusive None a) Hok' Hb Ha) as (a' & -> & Hs). exists a'. now split.
Qed.

Lemma exclusive_store_spec ins b a :
  machine_ok a -> plain_reg (op0 ins) -> plain_reg (op1 ins) -> mem_ok (op2 ins) -> sized_by b ->
  let bytes := width_of b (op1 ins) in
  let addr := effective (op2 ins) (aregs a) in
  let n := Z.to_nat bytes in
  if undisturbed addr bytes a then
    exists a', stored n addr (value (op1 ins) (aregs a)) (set_exclusive None a) a' /\
      exclusive_store ins b a = Ret (if reachable Mem.can_write n addr (amaps a) then (true, with_reg (op0 ins) 0 a') else (false, a'))
  else exists a', seen (set_exclusive None a) a' /\ exclusive_store ins b a = Ret (true, with_reg (op0 ins) 1 a').
Proof.
  intros Hok Hp0 Hp1 Hm Hb bytes addr n. pose proof (mo_regs _ Hok) as Hr. pose proof (plain_dest _ Hp0) as Hd0. pose proof (plain_dest _ Hp1) as Hd1.
  pose proof (width_of_size b (op1 ins) Hb : access_size bytes) as Hsz. pose proof (effective_word _ _ Hr Hm : is_word 64 addr) as Ha.
  unfold exclusive_store. rewrite rd_ok by assumption. cbn [mbind outcome_bind]. rewrite resolve_ok by assumption. cbn [mbind outcome_bind]. fold bytes addr.
  destruct (reservation_spec addr bytes a Hok Hsz Ha) as (a1 & -> & Hs). cbn [mbind outcome_bind].
  pose proof (seen_ok _ _ Hs (set_exclusive_ok None a Hok)) as Hok1. destruct (undisturbed addr bytes a); cbn [negb].
  - destruct (write_mem_spec bytes addr (value (op1 ins) (aregs a)) a1 Hok1 Hsz Ha) as (a2 & -> & Hst); [apply value_word; [exact Hr | now apply reg_source]|].
    exists a2. split; [now apply (seen_stored _ _ _ _ a1)|]. cbn [mbind outcome_bind].
    fold n. rewrite (writable_seen _ _ _ _ Hs). cbn [amaps set_exclusive]. destruct (reachable _ _ _ _); cbn [negb]; [|reflexivity].
    rewrite wr_ok; [reflexivity | | exact Hd0]. now apply (stored_ok _ _ _ _ _ Hst).
  - exists a1. split; [exact Hs|]. rewrite wr_ok; [reflexivity | apply Hok1 | exact Hd0].
Qed.

(** The exclusive loads and stores of each size *)
Definition exclusive_size (op : Opcode) : option (option Z) :=
  match op with
  | LDXR | LDAXR | STXR | STLXR => Some None
  | LDXRB | LDAXRB | STXRB | STLXRB => Some (Some 1)
  | LDXRH | LDAXRH | STXRH | STLXRH => Some (Some 2)
  | _ => None
  end.
Definition is_exclusive_store (op : Opcode) : bool :=
  match op with STXR | STLXR | STXRB | STLXRB | STXRH | STLXRH => true | _ => false end.

Lemma exclusive_size_ok op b : exclusive_size op = Some b -> sized_by b.
Proof. destruct op; try discriminate; intros [= <-]; cbn; auto. Qed.

Lemma exclusive_load_run ins b a : exclusive_size (opcode ins) = Some b -> is_exclusive_load (opcode ins) = true ->
  emulate_instruction ins a = exclusive_load ins b a.
Proof. unfold emulate_instruction. destruct (opcode ins); try discriminate; now intros [= <-]. Qed.

Lemma exclusive_store_run ins b a : exclusive_size (opcode ins) = Some b -> is_exclusive_store (opcode ins) = true ->
  emulate_instruction ins a = exclusive_store ins b a.
Proof. unfold emulate_instruction. destruct (opcode ins); try discriminate; now intros [= <-]. Qed.

(** C18. The exclusive monitor. A load-exclusive of a readable location returns its
    value; whatever then happens to registers and memory while the reservation
    stays, a store-exclusive of the same size to that location stores its register
    and reports 0 exactly when the location still holds the value that was loaded,
    and otherwise leaves memory alone and reports 1; either way the reservation is
    gone. *)
Theorem a64_exclusive_monitor ld st b a v :
  machine_ok a -> exclusive_size (opcode ld) = Some b -> is_exclusive_load (opcode ld) = true ->
  plain_reg (op0 ld) -> mem_ok (op1 ld) ->
  let bytes := width_of b (op0 ld) in
  let n := Z.to_nat bytes in
  let addr := effective (op1 ld) (aregs a) in
  peek n addr (amaps a) = Some v ->
  exclusive_size (opcode st) = Some b -> is_exclusive_store (opcode st) = true ->
  plain_reg (op0 st) -> plain_reg (op1 st) -> mem_ok (op2 st) -> width_of b (op1 st) = bytes ->
  exists a1, emulate_instruction ld a = Ret (true, a1) /\ aregs a1 = put (op0 ld) v (aregs a) /\ maps_equiv (amaps a1) (amaps a) /\
    forall a2, machine_ok a2 -> exclusive a2 = exclusive a1 -> effective (op2 st) (aregs a2) = addr ->
      reachable Mem.can_write n addr (amaps a2) = true ->
      exists a3, emulate_instruction st a2 = Ret (true, a3) /\ exclusive a3 = None /\
        if bool_decide (peek n addr (amaps a2) = Some v)
        then aregs a3 = put (op0 st) 0 (aregs a2) /\ stores (amaps a2) (amaps a3) addr (to_le_bytes n (value (op1 st) (aregs a2)))
        else aregs a3 = put (op0 st) 1 (aregs a2) /\ maps_equiv (amaps a3) (amaps a2).
Proof.
  intros Hok El Hl Hp Hm bytes n addr Pv Es Hst Hq0 Hq1 Hqm Hw. pose proof (exclusive_size_ok _ _ El) as Hb.
  destruct (exclusive_load_spec ld b a Hok Hp Hm Hb) as (a' & Hs & E). fold bytes addr n in E. rewrite Pv, Hl in E.
  rewrite (exclusive_load_run ld b a El Hl), E. eexists. split; [reflexivity|].
  split; [cbn; now rewrite (seen_regs _ _ Hs)|]. split; [exact (seen_maps _ _ Hs)|].
  intros a2 Hok2 Hex Hea Hwr. cbn [exclusive reserve set_exclusive] in Hex.
  pose proof (exclusive_store_spec st b a2 Hok2 Hq0 Hq1 Hqm Hb) as Hspec. cbv zeta in Hspec. rewrite Hw, Hea in Hspec. fold n in Hspec.
  assert (undisturbed addr bytes a2 = bool_decide (peek n addr (amaps a2) = Some v)) as Eu.
  { unfold undisturbed. rewrite Hex. cbn [res_addr res_bytes res_values fst]. now rewrite !Z.eqb_refl. }
  rewrite Eu, Hwr in Hspec. rewrite (exclusive_store_run st b a2 Es Hst). case_bool_decide.
  - destruct Hspec as (a3 & (m & k & -> & _ & Hsm) & ->). cbn [amaps set_exclusive] in Hsm. rewrite Hwr in Hsm. eexists. split; [reflexivity|]. now split.
  - destruct Hspec as (a3 & (t & k & _ & ->) & ->). eexists. split; [reflexivity|]. now split.
Qed.

(** ** Atomic read-modify-write *)

(** The new value of a location of [w] bits *)
Definition arm_rmw (op : RmwOp) (w old x : Z) : Z :=
  match op with
  | RAdd => wrap w (old + x)
  | RClr => Z.land old (bnot w x)
  | REor => Z.lxor old x
  | RSet => Z.lor old x
  | RSmax => if sgn w old <? sgn w x then x else old
  | RSmin => if sgn w x <? sgn w old then x else old
  | RUmax => Z.max old x
  | RUmin => Z.min old x
  | RSwp => x
  end.

Lemma width_mask_ok bytes v : access_size bytes -> Z.land v (width_mask bytes) = wrap (8 * bytes) v.
Proof. intros [-> | [-> | [-> | ->]]]; [apply (land_mask_wrap 8) | apply (land_mask_wrap 16) | apply (land_mask_wrap 32) | apply (land_mask_wrap 64)]; lia. Qed.

(** Shifting up and back sign-extends. *)
Lemma atomic_sign_extend_ok bytes v : access_size bytes -> is_word (8 * bytes) v -> atomic_sign_extend v bytes = sgn (8 * bytes) v.
Proof.
  intros Hb Hv. assert (8 <= 8 * bytes <= 64) as Hw by (destruct Hb as [-> | [-> | [-> | ->]]]; lia). unfold atomic_sign_extend.
  apply Z.bits_inj'. intros i Hi. assert (0 <= 64 - bytes * 8 < 64) as Hk by lia. rewrite (Z.mod_small _ 64) by exact Hk.
  rewrite Z.shiftr_spec, !testbit_sgn, testbit_ushl by (try lia; destruct (_ <? 64); lia).
  destruct (Z.ltb_spec (i + (64 - bytes * 8)) 64), (Z.ltb_spec i (8 * bytes)); try lia; split_ltb; cbn; f_equal; lia.
Qed.

Lemma wrap_sgn_word w v : 0 < w <= 64 -> is_word w v -> wrap w (wrap 64 (sgn w v)) = v.
Proof. intros Hw Hv. rewrite wrap_wrap, wrap_sgn, wrap_small by (assumption || lia). reflexivity. Qed.

Lemma word_bound w x : is_word w x -> forall y, 0 <= y <= x -> is_word w y.
Proof. unfold is_word. lia. Qed.

Lemma combine_ok op bytes old x : access_size bytes -> is_word (8 * bytes) old -> is_word (8 * bytes) x ->
  Z.land (combine op old x bytes) (width_mask bytes) = arm_rmw op (8 * bytes) old x /\ is_word (8 * bytes) (arm_rmw op (8 * bytes) old x).
Proof.
  intros Hb Ho Hx. rewrite width_mask_ok by exact Hb. assert (8 <= 8 * bytes <= 64) as Hw by (destruct Hb as [-> | [-> | [-> | ->]]]; lia).
  set (w := 8 * bytes) in *. unfold combine. rewrite !atomic_sign_extend_ok by assumption. fold w.
  assert (forall v, is_word w v -> wrap w v = v) as Hsm by (intros; now apply wrap_small).
  destruct op; cbn [arm_rmw].
  - unfold wadd. rewrite wrap_wrap by lia. split; [reflexivity | apply wrap_word; lia].
  - rewrite <- (Hsm x) at 2 3 by exact Hx. rewrite <- (wrap_bnot w 64) by lia.
    assert (is_word w (Z.land old (bnot 64 x))) as Hl by (apply word_land; [exact Ho | lia]). rewrite Hsm by exact Hl.
    assert (Z.land old (wrap w (bnot 64 x)) = Z.land old (bnot 64 x)) as ->; [|now split].
    apply Z.bits_inj'. intros i Hi. rewrite !Z.land_spec, testbit_wrap by lia. destruct (Z.ltb_spec i w); [reflexivity|].
    rewrite (word_high w old) by (assumption || lia). reflexivity.
  - assert (is_word w (Z.lxor old x)) by (apply word_lxor; (assumption || lia)). now rewrite Hsm.
  - assert (is_word w (Z.lor old x)) by (apply word_lor; (assumption || lia)). now rewrite Hsm.
  - destruct (Z.ltb_spec (sgn w old) (sgn w x)); [rewrite Z.max_r by lia | rewrite Z.max_l by lia]; now rewrite wrap_sgn_word by (assumption || lia).
  - destruct (Z.ltb_spec (sgn w x) (sgn w old)); [rewrite Z.min_r by lia | rewrite Z.min_l by lia]; now rewrite wrap_sgn_word by (assumption || lia).
  - destruct (Z.max_spec old x) as [[_ ->]|[_ ->]]; now rewrite Hsm.
  - destruct (Z.min_spec old x) as [[_ ->]|[_ ->]]; now rewrite Hsm.
  - now rewrite Hsm.
Qed.

(** The size and operation of an atomic instruction *)
Definition arm_atomic (op : Opcode) : option (option Z * RmwOp) :=
  match op with
  | SWP => Some (None, RSwp) | SWPB => Some (Some 1, RSwp) | SWPH => Some (Some 2, RSwp)
  | LDADD => Some (None, RAdd) | LDADDB => Some (Some 1, RAdd) | LDADDH => Some (Some 2, RAdd)
  | LDCLR => Some (None, RClr) | LDCLRB => Some (Some 1, RClr) | LDCLRH => Some (Some 2, RClr)
  | LDEOR => Some (None, REor) | LDEORB => Some (Some 1, REor) | LDEORH => Some (Some 2, REor)
  | LDSET => Some (None, RSet) | LDSETB => Some (Some 1, RSet) | LDSETH => Some (Some 2, RSet)
  | LDSMAX => Some (None, RSmax) | LDSMAXB => Some (Some 1, RSmax) | LDSMAXH => Some (Some 2, RSmax)
  | LDSMIN => Some (None, RSmin) | LDSMINB => Some (Some 1, RSmin) | LDSMINH => Some (Some 2, RSmin)
  | LDUMAX => Some (None, RUmax) | LDUMAXB => Some (Some 1, RUmax) | LDUMAXH => Some (Some 2, RUmax)
  | LDUMIN => Some (None, RUmin) | LDUMINB => Some (Some 1, RUmin) | LDUMINH => Some (Some 2, RUmin)
  | _ => None
  end.

Lemma peek_size n addr m v : wf m -> peek n addr m = Some v -> is_word (8 * Z.of_nat n) v.
Proof.
  intros Hm. unfold peek. destruct (reachable _ _ _ _); [|discriminate]. destruct (bytes_of m addr n) as [bs|] eqn:E; [|discriminate].
  intros [= <-]. destruct (bytes_of_bytes m addr n bs Hm E) as [Hb Hl]. rewrite <- Hl. now apply from_le_bytes_word.
Qed.

Lemma arm_atomic_size op b r : arm_atomic op = Some (b, r) -> sized_by b.
Proof. destruct op; try discriminate; intros [= <- <-]; cbn; auto. Qed.

Lemma arm_atomic_run ins b r a : arm_atomic (opcode ins) = Some (b, r) -> emulate_instruction ins a = rmw ins b r a.
Proof. unfold emulate_instruction. destruct (opcode ins); try discriminate; now intros [= <- <-]. Qed.

Lemma atomic_spec ins a b op :
  machine_ok a -> arm_atomic (opcode ins) = Some (b, op) ->
  plain_reg (op0 ins) -> plain_reg (op1 ins) -> mem_ok (op2 ins) ->
  let bytes := width_of b (op0 ins) in
  let w := 8 * bytes in
  let n := Z.to_nat bytes in
  let addr := effective (op2 ins) (aregs a) in
  let x := wrap w (value (op0 ins) (aregs a)) in
  match peek n addr (amaps a) with
  | None => exists a', emulate_instruction ins a = Ret (false, a') /\ seen a a'
  | Some old =>
      exists a', stored n addr (arm_rmw op w old x) a a' /\
        emulate_instruction ins a = Ret (if reachable Mem.can_write n addr (amaps a) then (true, with_reg (op1 ins) old a') else (false, a'))
  end.
Proof.
  intros Hok Hop Hp0 Hp1 Hm bytes w n addr x. pose proof (mo_regs _ Hok) as Hr. pose proof (plain_dest _ Hp0) as Hd0. pose proof (plain_dest _ Hp1) as Hd1.
  pose proof (width_of_size b (op0 ins) (arm_atomic_size _ _ _ Hop) : access_size bytes) as Hsz. pose proof (effective_word _ _ Hr Hm : is_word 64 addr) as Ha.
  rewrite (arm_atomic_run ins b op a Hop). unfold rmw. rewrite rd_ok by assumption. cbn [mbind outcome_bind]. rewrite resolve_ok by assumption. cbn [mbind outcome_bind].
  fold bytes addr. rewrite (width_mask_ok bytes (value (op0 ins) (aregs a)) Hsz). fold w x.
  destruct (read_mem_spec bytes addr a Hok Hsz Ha) as (a1 & -> & Hs). cbn [mbind outcome_bind]. fold n.
  destruct (peek n addr (amaps a)) as [old|] eqn:Ep; [|now exists a1].
  assert (is_word w old) as Ho by (replace w with (8 * Z.of_nat n) by (unfold w, n; destruct Hsz as [-> | [-> | [-> | ->]]]; reflexivity); now apply (peek_size n addr (amaps a)), Ep; apply Hok).
  assert (is_word w x) as Hx by (apply wrap_word; destruct Hsz as [E | [E | [E | E]]]; unfold w; lia).
  destruct (combine_ok op bytes old x Hsz Ho Hx) as [-> Hres]. fold w in Hres |- *.
  destruct (write_mem_spec bytes addr (arm_rmw op w old x) a1) as (a2 & -> & Hst);
    [now apply (seen_ok a) | exact Hsz | exact Ha | apply (word_up w); [destruct Hsz as [E | [E | [E | E]]]; unfold w; lia | exact Hres] |].
  cbn [mbind outcome_bind]. fold n. rewrite (writable_seen _ _ _ _ Hs). exists a2. split; [now apply (seen_stored _ _ _ _ a1)|].
  destruct (reachable _ _ _ _); cbn [negb]; [|reflexivity]. rewrite wr_ok; [reflexivity | | exact Hd1].
  apply (stored_ok _ _ _ _ _ Hst). now apply (seen_ok a).
Qed.

(** ** An atomic addition built from exclusive accesses *)

Lemma xreg_put_same sz u v r : regs_ok r -> (u < 31)%nat -> xreg u (put (Register sz u) v r) = low_half sz v.
Proof. intros Hr Hu. unfold xreg. cbn. rewrite list_lookup_insert_eq by (rewrite (ro_len _ Hr); lia). reflexivity. Qed.

Lemma xreg_put_other sz u v n r : n <> u -> xreg n (put (Register sz u) v r) = xreg n r.
Proof. intros Hne. unfold xreg. cbn. now rewrite list_lookup_insert_ne by congruence. Qed.

Lemma value_put_same sz u v r : regs_ok r -> (u < 31)%nat -> is_word (width sz) v -> value (Register sz u) (put (Register sz u) v r) = v.
Proof.
  intros Hr Hu Hv. cbn [value]. rewrite xreg_put_same by assumption. assert (is_word 64 v) as Hv64 by (apply (word_up (width sz)); [destruct sz; cbn; lia | exact Hv]).
  rewrite !low_half_wrap by (try apply low_half_word; assumption). rewrite wrap_wrap by (destruct sz; cbn; lia). now apply wrap_small.
Qed.

Definition at_base (n : nat) : Operand := RegPreIndex n 0 false.
Definition ldxr_ins (sz : SizeCode) (t n : nat) : Ins := mkIns LDXR (Register sz t) (at_base n) Nothing Nothing.
Definition stxr_ins (sz : SizeCode) (w u n : nat) : Ins := mkIns STXR (Register SW w) (Register sz u) (at_base n) Nothing.
Definition add_ins (sz : SizeCode) (u t s : nat) : Ins := mkIns ADD (Register sz u) (Register sz t) (Register sz s) Nothing.
Definition ldadd_ins (sz : SizeCode) (s t n : nat) : Ins := mkIns LDADD (Register sz s) (Register sz t) (at_base n) Nothing.

Lemma same_stores m m1 m2 m' addr bs : maps_equiv m' m -> stores m m1 addr bs -> stores m' m2 addr bs -> forall x, byte_of m1 x = byte_of m2 x.
Proof. intros He [B1 _] [B2 _] x. rewrite B1, B2. now rewrite (byte_of_proper _ _ He _ _ eq_refl). Qed.

Lemma at_base_effective n r : regs_ok r -> effective (at_base n) r = xsp n r.
Proof. intros Hr. cbn. unfold wadd. rewrite (wrap_small 64 0), Z.add_0_r by (unfold is_word; lia). apply wrap_small. now apply xsp_word. Qed.

(** A store-exclusive whose reservation holds *)
Lemma stxr_succeeds sz w u n b v x :
  machine_ok b -> (w <= 31)%nat -> (u <= 31)%nat -> (n <= 31)%nat ->
  let bytes := reg_bytes (Register sz u) in
  let addr := xsp n (aregs b) in
  exclusive b = Some (mkReservation addr bytes (v, x)) -> peek (Z.to_nat bytes) addr (amaps b) = Some v ->
  reachable Mem.can_write (Z.to_nat bytes) addr (amaps b) = true ->
  exists m k, emulate_instruction (stxr_ins sz w u n) b = Ret (true, with_reg (Register SW w) 0 (set_amaps m (set_akernel k (set_exclusive None b)))) /\
    stores (amaps b) m addr (to_le_bytes (Z.to_nat bytes) (value (Register sz u) (aregs b))).
Proof.
  intros Hok Hw Hu Hn bytes addr Ex Hp Hwr. pose proof (mo_regs _ Hok) as Hr.
  pose proof (exclusive_store_spec (stxr_ins sz w u n) None b Hok) as E. cbn [stxr_ins op0 op1 op2] in E.
  specialize (E ltac:(now exists SW, w) ltac:(now exists sz, u) Hn I). cbv zeta in E. change (width_of None (Register sz u)) with bytes in E.
  rewrite at_base_effective in E by exact Hr. fold addr in E. assert (undisturbed addr bytes b = true) as Eu.
  { unfold undisturbed. rewrite Ex. cbn [res_addr res_bytes res_values fst]. rewrite !Z.eqb_refl, Hp. now rewrite bool_decide_true. }
  rewrite Eu, Hwr in E. destruct E as (b' & (m & k & -> & _ & Hst) & E). cbn [amaps set_exclusive] in Hst. rewrite Hwr in Hst. exists m, k. now split.
Qed.

(** LDXR t, [n]; ADD u, t, s *)
Lemma ldxr_add_run sz t u n s a v :
  machine_ok a -> (t < 31)%nat -> (u < 31)%nat -> (n <= 31)%nat -> (s <= 31)%nat -> s <> t ->
  let bytes := reg_bytes (Register sz t) in
  let addr := xsp n (aregs a) in
  let sum := wrap (width sz) (v + value (Register sz s) (aregs a)) in
  peek (Z.to_nat bytes) addr (amaps a) = Some v ->
  exists b, run_all [ldxr_ins sz t n; add_ins sz u t s] a = Ret (true, b) /\ machine_ok b /\
    aregs b = put (Register sz u) sum (put (Register sz t) v (aregs a)) /\ maps_equiv (amaps b) (amaps a) /\
    exclusive b = Some (mkReservation addr bytes (v, 0)).
Proof.
  intros Hok Ht Hu Hn Hs Hst bytes addr sum Hv. pose proof (mo_regs _ Hok) as Hr.
  assert (is_word (width sz) v) as Hvw.
  { replace (width sz) with (8 * Z.of_nat (Z.to_nat bytes)) by now destruct sz. apply (peek_size _ addr (amaps a) v); [apply Hok | exact Hv]. }
  assert (is_word 64 v) as Hv64 by (apply (word_up (width sz)); [destruct sz; cbn; lia | exact Hvw]).
  destruct (exclusive_load_spec (ldxr_ins sz t n) None a Hok) as (a' & Hs1 & E1); [exists sz, t; split; [reflexivity | lia] | exact Hn | exact I |].
  cbn [ldxr_ins op0 op1 opcode is_exclusive_load] in E1. change (width_of None (Register sz t)) with bytes in E1.
  rewrite at_base_effective in E1 by exact Hr. fold addr in E1. rewrite Hv in E1.
  set (b1 := reserve _ _ _ _) in E1. assert (aregs b1 = put (Register sz t) v (aregs a)) as Er1 by (cbn; now rewrite (seen_regs _ _ Hs1)).
  assert (machine_ok b1) as Hok1 by (split; [rewrite Er1; now apply put_ok | apply (seen_ok _ _ Hs1 Hok)]).
  assert (emulate_instruction (add_ins sz u t s) b1 = Ret (true, with_reg (Register sz u) sum b1)) as E2.
  { rewrite (a64_alu_spec (add_ins sz u t s) b1 (mo_regs _ Hok1) (Nat.lt_le_incl _ _ Hu) sum None (conj (Nat.lt_le_incl _ _ Ht) Hs)); [reflexivity|].
    unfold source. cbn [add_ins op0 op1 op2 opcode arm_alu add_with_carry fst Z.b2z]. rewrite Er1, value_put_same by assumption.
    assert (value (Register sz s) (put (Register sz t) v (aregs a)) = value (Register sz s) (aregs a)) as -> by (cbn [value]; now rewrite xreg_put_other).
    do 2 f_equal. rewrite Z.add_0_r. apply (wrap_add (width sz)). destruct sz; cbn; lia. }
  exists (with_reg (Register sz u) sum b1). cbn [run_all]. change (emulate_instruction (ldxr_ins sz t n) a) with (exclusive_load (ldxr_ins sz t n) None a).
  rewrite E1. cbn [mbind outcome_bind negb]. rewrite E2. split; [reflexivity|].
  split; [split; [|apply Hok1]; apply put_ok; [apply Hok1 | apply (word_up (width sz)); [destruct sz; cbn; lia | apply wrap_word; destruct sz; cbn; lia]]|].
  split; [cbn [with_reg aregs set_aregs]; now rewrite Er1|]. split; [exact (seen_maps _ _ Hs1) | reflexivity].
Qed.

Lemma run_all_app i1 i2 a a' : run_all i1 a = Ret (true, a') -> run_all (i1 ++ i2) a = run_all i2 a'.
Proof.
  revert a. induction i1 as [|i i1 IH]; intros a E; [now injection E as ->|]. cbn [run_all app] in *.
  destruct (emulate_instruction i a) as [[[] b]|]; cbn [mbind outcome_bind negb] in *; [now apply IH | discriminate..].
Qed.

(** C24. A loop round LDXR, ADD, STXR that nothing disturbs succeeds and is one
    atomic addition: it leaves every byte of memory as LDADD does, and the same old
    value in the register. *)
Theorem a64_ll_sc_is_atomic sz t u w n s a :
  machine_ok a -> (t < 31)%nat -> (u < 31)%nat -> (w < 31)%nat -> (n <= 31)%nat -> (s <= 31)%nat ->
  n <> t -> n <> u -> s <> t -> t <> u -> t <> w -> u <> w ->
  let k := Z.to_nat (reg_bytes (Register sz t)) in
  let addr := xsp n (aregs a) in
  reachable Mem.can_read k addr (amaps a) = true -> reachable Mem.can_write k addr (amaps a) = true ->
  exists a1 a2, run_all [ldxr_ins sz t n; add_ins sz u t s; stxr_ins sz w u n] a = Ret (true, a1) /\ xreg w (aregs a1) = 0 /\
    emulate_instruction (ldadd_ins sz s t n) a = Ret (true, a2) /\
    (forall x, byte_of (amaps a1) x = byte_of (amaps a2) x) /\ xreg t (aregs a1) = xreg t (aregs a2).
Proof.
  intros Hok Ht Hu Hw Hn Hs Hnt Hnu Hst Htu Htw Huw k addr Hrd Hwr. pose proof (mo_regs _ Hok) as Hr.
  assert (reg_bytes (Register sz u) = reg_bytes (Register sz t)) as Ebu by now destruct sz.
  assert (exists v, peek k addr (amaps a) = Some v) as [v Hv].
  { destruct (bytes_of_placement (amaps a) Mem.can_read k addr (mo_maps _ Hok)) as (bs & Eb & _);
      [apply reachable_placement; [apply Hok | unfold k; destruct sz; cbn; lia | exact Hrd] |]. unfold peek. rewrite Hrd, Eb. eauto. }
  destruct (ldxr_add_run sz t u n s a v Hok Ht Hu Hn Hs Hst Hv) as (b & E1 & Hokb & Erb & Heq & Hex).
  assert (xsp n (aregs b) = addr) as Exn by (rewrite Erb; unfold addr, xsp; destruct (n =? 31)%nat; [reflexivity | now rewrite !xreg_put_other]).
  destruct (stxr_succeeds sz w u n b v 0 Hokb) as (m1 & k1 & E2 & Hst1); [lia | lia | exact Hn | rewrite Exn, Ebu; exact Hex | | |].
  1: { unfold peek. rewrite Exn, Ebu, (reachable_proper _ _ _ _ _ Heq), (bytes_of_proper _ _ Heq _ _ eq_refl _ _ eq_refl). exact Hv. }
  1: { rewrite Exn, Ebu, (reachable_proper _ _ _ _ _ Heq). exact Hwr. }
  rewrite Exn, Ebu in Hst1. fold k in Hst1.
  pose proof (atomic_spec (ldadd_ins sz s t n) a None RAdd Hok eq_refl) as E3. cbn [ldadd_ins op0 op1 op2] in E3.
  specialize (E3 ltac:(now exists sz, s) ltac:(exists sz, t; split; [reflexivity | lia]) Hn). cbv zeta in E3.
  change (width_of None (Register sz s)) with (reg_bytes (Register sz s)) in E3. assert (reg_bytes (Register sz s) = reg_bytes (Register sz t)) as Ebs by now destruct sz.
  rewrite at_base_effective, Ebs in E3 by exact Hr. fold k addr in E3. rewrite Hv in E3. destruct E3 as (a2 & (m2 & k2 & Ea2 & Hwf2 & Hst2) & E3).
  rewrite Hwr in Hst2, E3. set (a1 := with_reg _ _ _) in E2. exists a1, (with_reg (Register sz t) v a2).
  assert (8 * reg_bytes (Register sz t) = width sz) as E8 by now destruct sz. rewrite E8 in Hst2. cbn [arm_rmw] in Hst2.
  rewrite (wrap_small (width sz) (value _ _)) in Hst2 by now apply register_value.
  assert (is_word 64 v) as Hv64 by (apply (peek_word k addr (amaps a)); [apply Hok | unfold k; destruct sz; cbn; lia | exact Hv]).
  assert (regs_ok (put (Register sz t) v (aregs a))) as Hrt by now apply put_ok.
  rewrite Erb, value_put_same in Hst1; [| exact Hrt | exact Hu | apply wrap_word; destruct sz; cbn; lia].
  split; [change [ldxr_ins sz t n; add_ins sz u t s; stxr_ins sz w u n] with ([ldxr_ins sz t n; add_ins sz u t s] ++ [stxr_ins sz w u n]);
    rewrite (run_all_app _ _ _ _ E1); cbn [run_all]; now rewrite E2|].
  split; [apply (xreg_put_same SW w 0 (aregs b)); [apply Hokb | exact Hw]|]. split; [exact E3|].
  split; [rewrite Ea2; intros x; apply (same_stores (amaps b) m1 m2 (amaps a) _ _ ltac:(now symmetry) Hst1 Hst2)|].
  unfold a1. cbn [with_reg aregs set_aregs set_amaps set_akernel set_exclusive]. rewrite xreg_put_other, Erb, xreg_put_other by assumption.
  rewrite !xreg_put_same; [reflexivity | now rewrite Ea2 | exact Ht | exact Hr | exact Ht].
Qed.

(** ** Results *)

(** C22. LDR, LDUR, LDAPUR and their byte, halfword and sign-extending forms, with a
    general register as destination, in every addressing mode: where memory can be
    read the register gets the little-endian value at the effective address,
    extended to the register, and the base register moves when the mode says so;
    where it cannot the load fails and no register changes. Memory never changes.
    (The loads of vector registers behave differently on unreadable memory, see
    vector_load_of_nothing.) *)
Theorem a64_load_correct ins a bytes ext :
  machine_ok a -> plain_reg (op0 ins) -> mem_ok (op1 ins) -> arm_load (opcode ins) (operand_is_64 (op0 ins)) = Some (bytes, ext) ->
  let n := Z.to_nat bytes in
  let addr := effective (op1 ins) (aregs a) in
  exists a', maps_equiv (amaps a') (amaps a) /\
    if reachable Mem.can_read n addr (amaps a) then
      exists v, bytes_of (amaps a) addr n = Some (to_le_bytes n v) /\ is_word (8 * bytes) v /\
        emulate_instruction ins a = Ret (true, a') /\
        aregs a' = aregs (rebased (op1 ins) (aregs a) (with_reg (op0 ins) (ext v) a))
    else emulate_instruction ins a = Ret (false, a') /\ aregs a' = aregs a.
Proof.
  intros Hok Hp Hm E n addr. destruct (a64_load_spec ins a bytes ext Hok Hp Hm E) as (a1 & Hs & ->). fold n addr.
  assert (access_size bytes) as Hb.
  { unfold arm_load in E. destruct (opcode ins); try discriminate E; injection E as <- <-; first [apply reg_width_size | unfold access_size; lia]. }
  unfold peek. destruct (reachable _ _ _ _) eqn:Hr; [|exists a1; now rewrite (seen_maps _ _ Hs), (seen_regs _ _ Hs)].
  destruct (bytes_of_placement (amaps a) Mem.can_read n addr (mo_maps _ Hok)) as (bs & Eb & Hl);
    [apply reachable_placement; [apply Hok | unfold n; destruct Hb as [-> | [-> | [-> | ->]]]; cbn; lia | exact Hr] |].
  rewrite Eb. cbn [fmap option_fmap option_map]. destruct (bytes_of_bytes _ _ _ _ (mo_maps _ Hok) Eb) as [Hbs _].
  eexists. split; [|exists (from_le_bytes bs); split; [|split; [|split; [reflexivity|]]]].
  - unfold rebased. destruct (new_base _ _) as [[]|]; exact (seen_maps _ _ Hs).
  - rewrite <- Hl. now rewrite to_from_le_bytes.
  - replace (8 * bytes) with (bits_of (length bs)) by (rewrite Hl; unfold n, bits_of; destruct Hb as [-> | [-> | [-> | ->]]]; reflexivity). now apply from_le_bytes_word.
  - unfold rebased, with_reg. destruct (new_base _ _) as [[]|]; cbn [aregs set_aregs]; now rewrite (seen_regs _ _ Hs).
Qed.

(** A store leaves the low bytes of the register where memory can be written, and
    nothing where it cannot; it moves the base and reports success in either case. *)
Theorem a64_store_correct ins a bytes :
  machine_ok a -> plain_reg (op0 ins) -> mem_ok (op1 ins) -> arm_store (opcode ins) (operand_is_64 (op0 ins)) = Some bytes ->
  let n := Z.to_nat bytes in
  let addr := effective (op1 ins) (aregs a) in
  exists a', emulate_instruction ins a = Ret (true, a') /\ aregs a' = aregs (rebased (op1 ins) (aregs a) a) /\
    if reachable Mem.can_write n addr (amaps a) then stores (amaps a) (amaps a') addr (to_le_bytes n (value (op0 ins) (aregs a)))
    else maps_equiv (amaps a') (amaps a).
Proof.
  intros Hok Hp Hm E n addr. destruct (a64_store_spec ins a bytes Hok Hp Hm E) as (a1 & Hs & ->). eexists. split; [reflexivity|].
  pose proof (stored_regs _ _ _ _ _ Hs) as Er. destruct Hs as (m & k & -> & _ & Hs). fold n addr in Hs.
  split; unfold rebased; destruct (new_base _ _) as [[]|]; try reflexivity; exact Hs.
Qed.

(** LDADD, LDCLR, LDEOR, LDSET, the minima and maxima and SWP return the old value
    and leave the combination of old value and operand, at 1, 2, 4 and 8 bytes. *)
Theorem a64_atomic_correct ins a b op old :
  machine_ok a -> arm_atomic (opcode ins) = Some (b, op) -> plain_reg (op0 ins) -> plain_reg (op1 ins) -> mem_ok (op2 ins) ->
  let bytes := width_of b (op0 ins) in
  let n := Z.to_nat bytes in
  let addr := effective (op2 ins) (aregs a) in
  peek n addr (amaps a) = Some old -> reachable Mem.can_write n addr (amaps a) = true ->
  exists a', emulate_instruction ins a = Ret (true, a') /\ aregs a' = put (op1 ins) old (aregs a) /\
    stores (amaps a) (amaps a') addr (to_le_bytes n (arm_rmw op (8 * bytes) old (wrap (8 * bytes) (value (op0 ins) (aregs a))))).
Proof.
  intros Hok Hop Hp0 Hp1 Hm bytes n addr Hv Hw. pose proof (atomic_spec ins a b op Hok Hop Hp0 Hp1 Hm) as E. cbv zeta in E.
  fold bytes n addr in E. rewrite Hv in E. destruct E as (a' & (m & k & -> & _ & Hs) & E). rewrite Hw in Hs, E. eexists. split; [exact E|]. now split.
Qed.
End Access.
