(* ===== verification/A64Total.v ===== *)
(** * The AArch64 engine never panics

    From registers of the right sizes and a well-formed address space every
    instruction whose operands are in range returns and leaves such a state, as
    does the whole step with fetch and hooks.  The calls out of the engine are
    assumed to keep the state well formed. *)

From stdpp Require Import gmap strings.
From S2P Require Import Prelude Scalar Mem64 Slab Tlb Maps MapsInv OperandsSpec Threads KernelGuard KernelSpec MacThreads A64 A64Ops A64Spec A64Bits A64Mem.

(** A computation that returns, with a result of the given kind *)
Definition safe {T} (P : T -> Prop) (o : outcome T) : Prop := exists t, o = Ret t /\ P t.

Lemma safe_ret {T} (P : T -> Prop) t : P t -> safe P (Ret t).
Proof. now exists t. Qed.

Lemma safe_bind {T U} (P : T -> Prop) (Q : U -> Prop) o f : safe P o -> (forall t, P t -> safe Q (f t)) -> safe Q (t ← o; f t).
Proof. intros (t & -> & Ht) Hf. exact (Hf t Ht). Qed.

Lemma safe_mono {T} (P Q : T -> Prop) o : safe P o -> (forall t, P t -> Q t) -> safe Q o.
Proof. intros (t & -> & Ht) HPQ. exists t. auto. Qed.

Create HintDb a64.

(** ** Words *)

Lemma word_wrap64 x : is_word 64 (wrap 64 x).
Proof. apply wrap_word. lia. Qed.
Lemma word_wadd x y : is_word 64 (wadd x y).
Proof. apply wrap_word. lia. Qed.
Lemma word_wsub x y : is_word 64 (wsub x y).
Proof. apply wrap_word. lia. Qed.
Lemma word_wrap32 x : is_word 64 (wrap 32 x).
Proof. apply (word_up 32); [lia | apply wrap_word; lia]. Qed.
Lemma word_land64 x y : is_word 64 x -> is_word 64 (Z.land x y).
Proof. intros Hx. apply word_land; [exact Hx | lia]. Qed.
Lemma word_lor64 x y : is_word 64 x -> is_word 64 y -> is_word 64 (Z.lor x y).
Proof. intros Hx Hy. apply word_lor; (assumption || lia). Qed.
Lemma word_lxor64 x y : is_word 64 x -> is_word 64 y -> is_word 64 (Z.lxor x y).
Proof. intros Hx Hy. apply word_lxor; (assumption || lia). Qed.
Lemma word_bnot64 x : is_word 64 (bnot 64 x).
Proof. apply word_bnot. lia. Qed.
Lemma word_ushl64 x n : is_word 64 (ushl 64 x n).
Proof. apply word_ushl. lia. Qed.
Lemma word_ushr64 x n : is_word 64 x -> is_word 64 (ushr 64 x n).
Proof. apply word_ushr. lia. Qed.
Lemma word_ushl32 x n : is_word 64 (ushl 32 x n).
Proof. apply (word_up 32); [lia | apply word_ushl; lia]. Qed.
Lemma word_ushr32 x n : is_word 64 (ushr 32 (wrap 32 x) n).
Proof. apply (word_up 32); [lia | apply word_ushr; [lia | apply wrap_word; lia]]. Qed.
Lemma word_ishr64 x n : is_word 64 (ishr 64 x n).
Proof. apply wrap_word. lia. Qed.
Lemma word_ishr32 x n : is_word 64 (ishr 32 x n).
Proof. apply word_wrap32. Qed.
Lemma word_ror64 x n : is_word 64 x -> is_word 64 (rotate_right 64 x n).
Proof. apply word_ror. lia. Qed.
Lemma word_ror32 x n : is_word 64 (rotate_right 32 (wrap 32 x) n).
Proof. apply (word_up 32); [lia | apply word_ror; [lia | apply wrap_word; lia]]. Qed.
Lemma word_clip b x : is_word 64 x -> is_word 64 (clip b x).
Proof. intros Hx. unfold clip. destruct b; [exact Hx | now apply word_land64]. Qed.
Lemma word_0 : is_word 64 0.
Proof. unfold is_word. lia. Qed.
Lemma word_1 : is_word 64 1.
Proof. unfold is_word. lia. Qed.

Lemma leading_zeros_range w x : 0 <= w -> is_word w x -> 0 <= leading_zeros w x <= w.
Proof.
  intros Hw Hx. unfold leading_zeros, is_word in *. destruct (Z.eqb_spec x 0); [lia|]. pose proof (Z.log2_nonneg x).
  assert (Z.log2 x < w) by (apply Z.log2_lt_pow2; lia). lia.
Qed.
Lemma word_lz64 x : is_word 64 x -> is_word 64 (leading_zeros 64 x).
Proof. intros Hx. pose proof (leading_zeros_range 64 x ltac:(lia) Hx). unfold is_word. lia. Qed.
Lemma word_lz32 x : is_word 64 (leading_zeros 32 (wrap 32 x)).
Proof. pose proof (leading_zeros_range 32 (wrap 32 x) ltac:(lia) ltac:(apply wrap_word; lia)). unfold is_word. lia. Qed.

Lemma reverse_bits_word n x : is_word (Z.of_nat n) (reverse_bits n x).
Proof.
  revert x. induction n as [|n IH]; intros x; cbn [reverse_bits]; [unfold is_word; lia|].
  assert (is_word (Z.of_nat (S n)) (reverse_bits n (Z.shiftr x 1))) as Hr.
  { specialize (IH (Z.shiftr x 1)). unfold is_word in *. rewrite Nat2Z.inj_succ, Z.pow_succ_r by lia. lia. }
  apply word_lor; [|exact Hr | lia]. change 1 with (Z.ones 1) at 1. rewrite Z.land_ones, Z.shiftl_mul_pow2 by lia.
  pose proof (Z.mod_pos_bound x (2 ^ 1) ltac:(lia)). unfold is_word. rewrite Nat2Z.inj_succ, Z.pow_succ_r by lia. nia.
Qed.
Lemma word_reverse n x : (n <= 64)%nat -> is_word 64 (reverse_bits n x).
Proof. intros Hn. apply (word_up (Z.of_nat n)); [lia | apply reverse_bits_word]. Qed.

Lemma word_swap n x : (n <= 8)%nat -> is_word 64 (swap_bytes n x).
Proof.
  intros Hn. unfold swap_bytes. assert (is_bytes (rev (to_le_bytes n x))) as Hb by (apply Forall_rev, to_le_bytes_bytes).
  apply (word_up (bits_of (length (rev (to_le_bytes n x))))); [rewrite length_rev, length_to_le_bytes; unfold bits_of; lia | now apply from_le_bytes_word].
Qed.

Lemma word_or_fold {T} (f : T -> Z) w l acc : 0 <= w -> is_word w acc -> (forall x, is_word w (f x)) -> is_word w (foldl (fun acc i => Z.lor acc (f i)) acc l).
Proof. intros Hw. revert acc. induction l as [|x l IH]; intros acc Ha Hf; [exact Ha|]. cbn. apply IH; [apply word_lor; auto | exact Hf]. Qed.

Lemma word_pac x : is_word 64 x -> is_word 64 (pac_strip x).
Proof. intros Hx. unfold pac_strip. destruct (negb _); [apply word_lor64; [exact Hx | unfold is_word; lia] | now apply word_land64]. Qed.

Lemma word_div x y : is_word 64 x -> y <> 0 -> is_word 64 y -> is_word 64 (x / y).
Proof. unfold is_word. intros Hx Hy Hy'. split; [apply Z.div_pos; lia|]. apply Z.le_lt_trans with x; [|lia]. apply Z.div_le_upper_bound; nia. Qed.

#[export] Hint Resolve word_wrap64 word_wadd word_wsub word_wrap32 word_land64 word_lor64 word_lxor64 word_bnot64 word_ushl64 word_ushr64
  word_ushl32 word_ushr32 word_ishr64 word_ishr32 word_ror64 word_ror32 word_clip word_0 word_1 word_lz64 word_lz32 word_pac : a64.
#[export] Hint Extern 2 (is_word 64 (reverse_bits _ _)) => apply word_reverse; lia : a64.
#[export] Hint Extern 2 (is_word 64 (swap_bytes _ _)) => apply word_swap; lia : a64.
#[export] Hint Extern 2 (is_word 64 (if ?b then _ else _)) => destruct b : a64.

(** ** Operands *)

(** Register numbers of five bits, immediates of 64 *)
Definition in_range (op : Operand) : Prop :=
  match op with
  | Register _ n | RegisterOrSP _ n | RegisterPair _ n | SIMDRegister _ n | SIMDRegisterElements _ n _
  | SIMDRegisterElementsLane _ n _ _ | RegShift _ _ _ n | RegPreIndex n _ _ | RegPostIndex n _ => (n <= 31)%nat
  | RegRegOffset b i _ _ _ => (b <= 31)%nat /\ (i <= 31)%nat
  | Immediate v | Imm64 v | Imm16 v => is_word 64 v
  | _ => True
  end.

Definition wb_ok (wb : option (nat * Z)) : Prop := match wb with Some (n, v) => (n <= 31)%nat /\ is_word 64 v | None => True end.

Section Safe.
Context {S V R : Type} `{SlabLaws S} `{A64Env S V R}.
Implicit Types (a : A64 S V R) (ins : Ins) (op : Operand).

(** What a handler returns *)
Definition good (r : bool * A64 S V R) : Prop := machine_ok r.2.
Definition good_read (r : option Z * A64 S V R) : Prop := machine_ok r.2 /\ forall v, r.1 = Some v -> is_word 64 v.

Lemma regs_machine r a : machine_ok a -> regs_ok r -> machine_ok (set_aregs r a).
Proof. now intros [] Hr. Qed.

Lemma flags_machine f a : machine_ok a -> machine_ok (set_flags f a).
Proof. intros [[] Hm]. split; [|exact Hm]. now split. Qed.

Lemma jump_machine pc a : machine_ok a -> is_word 64 pc -> machine_ok (jump pc a).
Proof. intros [[] Hm] Hp. split; [|exact Hm]. now split. Qed.

Lemma reload_machine b a : machine_ok a -> machine_ok (set_reload b a).
Proof. now intros []. Qed.

Lemma branch_machine off a : machine_ok a -> machine_ok (branch off a).
Proof. intros Ha. unfold branch. apply reload_machine, jump_machine; [exact Ha | apply word_wadd]. Qed.

Lemma reserve_machine addr n v a : machine_ok a -> machine_ok (reserve addr n v a).
Proof. now intros []. Qed.

Lemma safe_get_x n a : machine_ok a -> (n <= 31)%nat -> safe (is_word 64) (get_x n (aregs a)).
Proof. intros [Hr _] Hn. rewrite get_x_ok by assumption. apply safe_ret. now apply xreg_word. Qed.

Lemma safe_get_sp n a : machine_ok a -> (n <= 31)%nat -> safe (is_word 64) (get_x_or_sp n (aregs a)).
Proof. intros [Hr _] Hn. rewrite get_x_or_sp_ok by assumption. apply safe_ret. now apply xsp_word. Qed.

Lemma safe_vector n a : machine_ok a -> (n <= 31)%nat -> safe (is_word 128) (index n (rv (aregs a))).
Proof.
  intros [Hr _] Hn. pose proof (ro_vlen _ Hr). unfold index. destruct (lookup_lt_is_Some_2 (rv (aregs a)) n) as [v E]; [lia|]. rewrite E.
  apply safe_ret. now apply (Forall_lookup_1 _ _ _ _ (ro_v _ Hr)) in E.
Qed.

Lemma safe_link_reg a : machine_ok a -> safe (is_word 64) (index 30 (rx (aregs a))).
Proof.
  intros [Hr _]. pose proof (ro_len _ Hr). unfold index. destruct (lookup_lt_is_Some_2 (rx (aregs a)) 30) as [v E]; [lia|]. rewrite E.
  apply safe_ret. now apply (Forall_lookup_1 _ _ _ _ (ro_x _ Hr)) in E.
Qed.

Lemma safe_rd op a : machine_ok a -> in_range op -> safe (is_word 64) (rd op a).
Proof.
  intros Ha Ho. unfold rd, read_reg. destruct op; try (apply safe_ret, word_0); cbn in Ho.
  - eapply safe_bind; [now apply safe_get_x|]. intros v Hv. apply safe_ret. now apply low_half_word.
  - eapply safe_bind; [now apply safe_get_sp|]. intros v Hv. apply safe_ret. now apply low_half_word.
Qed.

Lemma safe_rv_of op a : machine_ok a -> in_range op -> safe (is_word 64) (rv_of op a).
Proof.
  intros Ha Ho. unfold rv_of, read_operand_value. destruct op; cbn in Ho; try (apply safe_ret; first [exact Ho | apply word_0 | apply word_ushl64]);
    try (now apply (safe_rd (Register _ _))); try (now apply (safe_rd (RegisterOrSP _ _))).
  - eapply safe_bind; [now apply safe_vector|]. intros v _. apply safe_ret, word_wrap64.
  - eapply safe_bind; [now apply safe_vector|]. intros v _. apply safe_ret, word_wrap64.
  - eapply safe_bind; [now apply safe_get_x|]. intros v Hv. apply safe_ret.
    destruct (is_64 sz); [now apply apply_shift_word | apply apply_shift32_word, wrap_word; lia].
Qed.

Lemma safe_wr op v a : machine_ok a -> in_range op -> is_word 64 v -> safe machine_ok (wr op v a).
Proof.
  intros Ha Ho Hv. assert (dest_ok op \/ wr op v a = Ret a) as [Hd|E].
  { destruct op; first [right; unfold wr, write_reg; cbn; now destruct a | left; exact Ho]. }
  - rewrite wr_ok by (try apply Ha; assumption). apply safe_ret, regs_machine; [exact Ha|]. apply put_ok; [apply Ha | exact Hv].
  - rewrite E. now apply safe_ret.
Qed.

Lemma safe_put_simd n v a : machine_ok a -> (n <= 31)%nat -> is_word 128 v -> safe machine_ok (put_simd n v a).
Proof.
  intros Ha Hn Hv. pose proof (ro_vlen _ (mo_regs _ Ha)). unfold put_simd, index_set. rewrite decide_True by lia. apply safe_ret, regs_machine; [exact Ha|].
  destruct (mo_regs _ Ha). split; cbn; rewrite ?length_insert; auto using Forall_insert.
Qed.

Lemma safe_resolve op a : machine_ok a -> in_range op -> safe (fun p => is_word 64 p.1 /\ wb_ok p.2) (resolve_mem_addr op (aregs a)).
Proof.
  intros Ha Ho. unfold resolve_mem_addr. destruct op; try (apply safe_ret; cbn; auto with a64); cbn in Ho.
  - eapply safe_bind; [now apply safe_get_sp|]. intros b Hb. apply safe_ret. cbn. destruct writeback; cbn; auto with a64.
  - eapply safe_bind; [now apply safe_get_sp|]. intros b Hb. apply safe_ret. cbn. auto with a64.
  - destruct Ho. eapply safe_bind; [now apply safe_get_sp|]. intros b Hb. eapply safe_bind; [now apply safe_get_x|]. intros i Hi. apply safe_ret. cbn. auto with a64.
Qed.

Lemma safe_wback wb a : machine_ok a -> wb_ok wb -> safe machine_ok (wback wb a).
Proof.
  intros Ha Hwb. unfold wback, do_writeback. destruct wb as [[n v]|]; [|cbn; apply safe_ret; now destruct Ha]. destruct Hwb as [Hn Hv].
  rewrite set_x_or_sp_ok by (try apply Ha; assumption). apply safe_ret, regs_machine; [exact Ha|]. apply (put_ok (RegisterOrSP SX n) v); [apply Ha | exact Hv].
Qed.

Lemma safe_guard addr n w a : machine_ok a -> safe machine_ok (guard_mem addr n w a).
Proof. intros []. destruct (guard_mem_spec addr n w a) as [k ->]. apply safe_ret. now split. Qed.

Lemma read_n_size bytes addr : exists n, (0 < n <= 8)%nat /\ forall m : Maps S, read_n bytes addr m = read_scalar n addr m.
Proof.
  unfold read_n. destruct (bytes =? 1); [exists 1%nat | destruct (bytes =? 2); [exists 2%nat | destruct (bytes =? 4); [exists 4%nat | exists 8%nat]]];
    (split; [lia | reflexivity]).
Qed.

Lemma safe_scalar n addr a : machine_ok a -> is_word 64 addr -> (0 < n <= 8)%nat -> safe good_read (on_amaps (read_scalar n addr) a).
Proof.
  intros Ha Hw Hn. unfold on_amaps. destruct (read_scalar_spec n addr (amaps a)) as (t & Ht & ->); [apply Ha | apply Hw | lia |].
  apply safe_ret. split; [destruct Ha; split; [assumption | now apply set_tlb_wf]|]. intros v. apply (peek_word n addr (amaps a) v); [apply Ha | lia].
Qed.

Lemma safe_read bytes addr a : machine_ok a -> is_word 64 addr -> safe good_read (on_amaps (read_n bytes addr) a).
Proof. intros Ha Hw. destruct (read_n_size bytes addr) as (n & Hn & E). unfold on_amaps. rewrite E. now apply safe_scalar. Qed.

Lemma safe_write bytes addr v a : machine_ok a -> is_word 64 addr -> safe good (on_amaps (write_n bytes addr v) a).
Proof.
  intros Ha Hw. assert (exists n v', (0 < n <= 16)%nat /\ write_n bytes addr v (amaps a) = write_scalar n addr v' (amaps a)) as (n & v' & Hn & E).
  { unfold write_n. destruct (bytes =? 1); [exists 1%nat | destruct (bytes =? 2); [exists 2%nat | destruct (bytes =? 4); [exists 4%nat | exists 8%nat]]];
      (eexists; split; [lia | reflexivity]). }
  unfold on_amaps. rewrite E. destruct (write_scalar_spec n addr v' (amaps a)) as (m & -> & Hm & _); [apply Ha | apply Hw | exact Hn |].
  apply safe_ret. now destruct Ha.
Qed.

Lemma safe_read_mem addr bytes a : machine_ok a -> is_word 64 addr -> safe good_read (read_mem addr bytes a).
Proof. intros Ha Hw. eapply safe_bind; [now apply safe_guard|]. intros a' Ha'. now apply safe_read. Qed.

Lemma safe_write_mem addr bytes v a : machine_ok a -> is_word 64 addr -> safe good (write_mem addr bytes v a).
Proof. intros Ha Hw. eapply safe_bind; [now apply safe_guard|]. intros a' Ha'. now apply safe_write. Qed.

Lemma safe_name addr a : machine_ok a -> safe (fun r => machine_ok r.2) (on_amaps (get_addr_name addr) a).
Proof.
  intros Ha. unfold on_amaps, get_addr_name. destruct (get_mem_by_addr_find (amaps a) (mo_maps _ Ha) addr) as (t & Ht & ->). apply safe_ret.
  destruct Ha. split; [assumption | now apply set_tlb_wf].
Qed.
End Safe.

#[export] Hint Resolve flags_machine jump_machine reload_machine branch_machine reserve_machine safe_rd safe_rv_of safe_wr safe_put_simd safe_resolve
  safe_wback safe_guard safe_read safe_write safe_read_mem safe_write_mem safe_name safe_get_x safe_vector safe_link_reg : a64.

(** ** Handlers *)

#[export] Hint Extern 2 (machine_ok (if ?b then _ else _)) => destruct b : a64.

(** Run a handler: each step is safe by a hint; what is left are words. *)
Ltac safe_steps :=
  repeat (cbv beta zeta; lazymatch goal with
  | |- safe _ (Ret _) => apply safe_ret; unfold good; cbn [snd fst]; solve [eauto 6 with a64]
  | |- safe _ (mbind _ _) =>
      eapply safe_bind; [solve [eauto 14 with a64]|]; let t := fresh "t" in let Ht := fresh "Ht" in intros t Ht;
      lazymatch type of t with prod _ _ => destruct t as [? ?]; unfold good, good_read in Ht; cbn [fst snd] in Ht | _ => idtac end;
      lazymatch type of Ht with _ /\ _ => let Hu := fresh "Hu" in destruct Ht as [Hu Ht] | _ => idtac end
  | |- safe _ (if ?b then _ else _) => destruct b
  | |- safe _ (match ?x with Some _ => _ | None => _ end) => let E := fresh "E" in destruct x eqn:E
  | |- safe _ (let '(_, _) := ?x in _) => destruct x
  | |- safe _ _ => solve [eauto 6 with a64]
  end).

Section Handlers.
Context {S V R : Type} `{SlabLaws S} `{A64Env S V R}.
Implicit Types (a : A64 S V R).
Variables (ins : Ins) (a : A64 S V R).
Hypothesis Ha : machine_ok a.
Hypothesis H0' : in_range (op0 ins).
Hypothesis H1' : in_range (op1 ins).
Hypothesis H2' : in_range (op2 ins).
Hypothesis H3' : in_range (op3 ins).
Local Notation sound o := (safe (good (S := S) (V := V) (R := R)) o).

Lemma add_sound f : sound (add_execute ins f a).
Proof. unfold add_execute. safe_steps. Qed.
Lemma adc_sound s f : sound (adc_execute ins s f a).
Proof. unfold adc_execute. safe_steps. Qed.
Lemma and_sound f : sound (and_execute ins f a).
Proof. unfold and_execute. safe_steps. Qed.
Lemma orr_sound : sound (orr_execute ins a).
Proof. unfold orr_execute, logic_execute. safe_steps. Qed.
Lemma eor_sound : sound (eor_execute ins a).
Proof. unfold eor_execute, logic_execute. safe_steps. Qed.
Lemma orn_sound : sound (orn_execute ins a).
Proof. unfold orn_execute, logic_execute. safe_steps. Qed.
Lemma bic_sound : sound (bic_execute ins a).
Proof. unfold bic_execute, logic_execute. safe_steps. Qed.
Lemma bics_sound : sound (bics_execute ins a).
Proof. unfold bics_execute. safe_steps. Qed.
Lemma eon_sound : sound (eon_execute ins a).
Proof. unfold eon_execute. safe_steps. Qed.
Lemma movz_sound : sound (movz_execute ins a).
Proof. unfold movz_execute. safe_steps. Qed.
Lemma movn_sound : sound (movn_execute ins a).
Proof. unfold movn_execute. safe_steps. Qed.
Lemma movk_sound : sound (movk_execute ins a).
Proof. unfold movk_execute. safe_steps. Qed.
Lemma madd_sound : sound (madd_execute ins a).
Proof. unfold madd_execute. safe_steps. Qed.
Lemma msub_sound : sound (msub_execute ins a).
Proof. unfold msub_execute. safe_steps. Qed.
Lemma maddl_sound s t : sound (maddl_execute ins s t a).
Proof. unfold maddl_execute. safe_steps. Qed.
Lemma umulh_sound : sound (umulh_execute ins a).
Proof. unfold umulh_execute. safe_steps. Qed.
Lemma smulh_sound : sound (smulh_execute ins a).
Proof. unfold smulh_execute. safe_steps. Qed.

(** The divisor of a 32-bit division is a 32-bit register. *)
Definition divisor_ok : Prop := operand_is_64 (op0 ins) = true \/ exists n, op2 ins = Register SW n.

Lemma divisor_word y : divisor_ok -> rv_of (op2 ins) a = Ret y -> operand_is_64 (op0 ins) = false -> wrap 32 y = y.
Proof.
  intros [Hd|[n Hd]] E Hf; [congruence|]. rewrite Hd in E. unfold rv_of in E. cbn in E. destruct (get_x n (aregs a)) as [v|]; [|discriminate].
  injection E as <-. change (low_half SW v) with (Z.land v 0xffffffff). rewrite land_wrap32. apply wrap_small, wrap_word. lia.
Qed.

Lemma sdiv_sound : divisor_ok -> sound (sdiv_execute ins a).
Proof.
  intros Hd. unfold sdiv_execute. eapply safe_bind; [now apply safe_rv_of|]. intros x Hx.
  destruct (safe_rv_of (op2 ins) a Ha H2') as (y & Ey & Hy). rewrite Ey. cbn [mbind outcome_bind]. destruct (y =? 0) eqn:E0; [safe_steps|].
  destruct (operand_is_64 (op0 ins)) eqn:E64; [safe_steps|]. rewrite (divisor_word y Hd Ey E64), E0. safe_steps.
Qed.

Lemma udiv_sound : divisor_ok -> sound (udiv_execute ins a).
Proof.
  intros Hd. unfold udiv_execute. eapply safe_bind; [now apply safe_rv_of|]. intros x Hx.
  destruct (safe_rv_of (op2 ins) a Ha H2') as (y & Ey & Hy). rewrite Ey. cbn [mbind outcome_bind]. destruct (Z.eqb_spec y 0) as [|Hne]; [safe_steps|].
  assert (is_word 64 (x / y) /\ is_word 64 (wrap 32 x / y)) as [Hq1 Hq2] by (split; apply word_div; auto with a64).
  destruct (operand_is_64 (op0 ins)) eqn:E64; [safe_steps|]. rewrite (divisor_word y Hd Ey E64), (proj2 (Z.eqb_neq _ _) Hne). safe_steps.
Qed.

Lemma adr_sound : sound (adr_execute ins a).
Proof. unfold adr_execute. destruct (op1 ins); safe_steps. Qed.
Lemma adrp_sound : sound (adrp_execute ins a).
Proof. unfold adrp_execute. destruct (op1 ins); safe_steps. Qed.
Lemma clz_sound : sound (clz_execute ins a).
Proof. unfold clz_execute. safe_steps. Qed.
Lemma cls_sound : sound (cls_execute ins a).
Proof. unfold cls_execute. safe_steps. Qed.
Lemma rbit_sound : sound (rbit_execute ins a).
Proof. unfold rbit_execute. safe_steps. Qed.
Lemma rev_sound : sound (rev_execute ins a).
Proof. unfold rev_execute. safe_steps. Qed.
Lemma rev16_sound : sound (rev16_execute ins a).
Proof.
  unfold rev16_execute. eapply safe_bind; [now apply safe_rv_of|]. intros v Hv.
  eapply safe_bind; [apply safe_wr; [exact Ha | exact H0' | apply word_or_fold; [lia | apply word_0 | intros i; apply word_ushl64]] |]. intros a' Ha'. safe_steps.
Qed.
Lemma rev32_sound : sound (rev32_execute ins a).
Proof. unfold rev32_execute. safe_steps. Qed.
Lemma shift_sound op : sound (shift_execute ins op a).
Proof. unfold shift_execute. destruct op; safe_steps. Qed.
Lemma ubfm_sound : sound (ubfm_execute ins a).
Proof. unfold ubfm_execute. safe_steps. Qed.
Lemma sbfm_sound : sound (sbfm_execute ins a).
Proof.
  unfold sbfm_execute. eapply safe_bind; [now apply safe_rv_of|]. intros v Hv. eapply safe_bind; [now apply safe_rv_of|]. intros r Hr. eapply safe_bind; [now apply safe_rv_of|]. intros s Hs.
  eapply safe_bind; [apply safe_wr; [exact Ha | exact H0' |] | intros a' Ha'; safe_steps].
  apply word_clip. destruct (_ <=? _); [apply sign_extend_word | apply sign_extend_from_word]; auto with a64.
Qed.
Lemma bfm_sound : sound (bfm_execute ins a).
Proof. unfold bfm_execute. safe_steps. Qed.
Lemma extr_sound : sound (extr_execute ins a).
Proof. unfold extr_execute. safe_steps. Qed.
Lemma ccmp_sound s : sound (ccmp_execute ins s a).
Proof. unfold ccmp_execute. destruct (op3 ins), (op2 ins); safe_steps. Qed.
Lemma select_sound f : (forall v, is_word 64 v -> is_word 64 (f v)) -> sound (select_execute f ins a).
Proof.
  intros Hf. unfold select_execute. destruct (op3 ins); safe_steps. eapply safe_bind with (P := is_word 64).
  - destruct (eval_condition _ _); [now apply safe_rv_of|]. eapply safe_bind; [now apply safe_rv_of|]. intros y Hy. apply safe_ret. auto.
  - intros r Hr. safe_steps.
Qed.

(** *** Loads and stores *)

Lemma load_sound bytes ext : (forall v, is_word 64 v -> is_word 64 (ext v)) -> sound (load_execute bytes ext ins a).
Proof. intros Hx. unfold load_execute. safe_steps. Qed.

Lemma word_id v : is_word 64 v -> is_word 64 (id v).
Proof. easy. Qed.
Lemma word_sext w b v : is_word 64 (sext w b v).
Proof. unfold sext. destruct b; auto with a64. Qed.

Lemma from_bytes_word bs n : is_bytes bs -> length bs = n -> (n <= 16)%nat -> is_word 128 (from_le_bytes bs).
Proof.
  intros Hb Hl Hn. pose proof (from_le_bytes_word bs Hb) as Hw. unfold is_word in *. assert (2 ^ bits_of (length bs) <= 2 ^ 128) by (apply Z.pow_le_mono_r; unfold bits_of; lia). lia.
Qed.

Lemma safe_byte addr b : machine_ok b -> is_word 64 addr -> safe (fun r => machine_ok r.2 /\ forall v : Z, r.1 = Some v -> is_word 8 v) (on_amaps (read_byte addr) b : outcome (option Z * A64 S V R)).
Proof.
  intros Hb Hw. unfold on_amaps, read_byte. destruct (read_scalar_spec 1 addr (amaps b)) as (t & Ht & E); [apply Hb | apply Hw | lia |]. cbn [SIZE]. rewrite E.
  apply safe_ret. split; [destruct Hb; split; [assumption | now apply set_tlb_wf]|]. intros v Hv. apply (peek_size 1 addr (amaps b) v); [apply Hb | exact Hv].
Qed.

Lemma safe_simd_bytes n addr b : machine_ok b -> is_word 64 addr ->
  safe (fun r => machine_ok r.2 /\ is_bytes r.1 /\ length r.1 = n) (read_simd_bytes n addr b : outcome (list Z * A64 S V R)).
Proof.
  revert addr b. induction n as [|n IH]; intros addr b Hb Hw; cbn [read_simd_bytes]; [apply safe_ret; split; [exact Hb | split; [constructor | reflexivity]]|].
  eapply safe_bind; [now apply safe_byte|]. intros [v b'] [Hb' Hv]. cbn [fst snd] in *.
  eapply safe_bind; [apply IH; [exact Hb' | apply word_wadd]|]. intros [bs b''] (Hb'' & Hbs & Hl). cbn [fst snd] in *. apply safe_ret. cbn.
  split; [exact Hb''|]. split; [|now rewrite Hl]. constructor; [|exact Hbs]. destruct v as [v|]; cbn; [now apply Hv | unfold is_word; lia].
Qed.

Lemma safe_simd_strict n addr b : machine_ok b -> is_word 64 addr ->
  safe (fun r => machine_ok r.2 /\ forall bs, r.1 = Some bs -> is_bytes bs /\ length bs = n) (read_simd_strict n addr b : outcome (option (list Z) * A64 S V R)).
Proof.
  revert addr b. induction n as [|n IH]; intros addr b Hb Hw; cbn [read_simd_strict]; [apply safe_ret; split; [exact Hb | intros bs [= <-]; split; [constructor | reflexivity]]|].
  eapply safe_bind; [now apply safe_byte|]. intros [v b'] [Hb' Hv]. cbn [fst snd] in *. destruct v as [v|]; [|apply safe_ret; split; [exact Hb' | discriminate]].
  eapply safe_bind; [apply IH; [exact Hb' | apply word_wadd]|]. intros [bs b''] (Hb'' & Hbs). cbn [fst snd] in *. apply safe_ret. split; [exact Hb''|]. cbn [fst].
  destruct bs as [bs|]; [|discriminate]. intros l [= <-]. destruct (Hbs bs eq_refl) as [Hl1 Hl2]. split; [constructor; [now apply Hv | exact Hl1] | cbn; now rewrite Hl2].
Qed.

Lemma safe_store_simd v n addr b : machine_ok b -> is_word 64 addr -> safe machine_ok (store_simd v n addr b : outcome (A64 S V R)).
Proof.
  unfold store_simd. generalize (take n (to_le_bytes 16 v)). intros bs. revert addr b. induction bs as [|x bs IH]; intros addr b Hb Hw; cbn [write_simd_bytes]; [now apply safe_ret|].
  eapply safe_bind with (P := good).
  - unfold on_amaps, write_byte. destruct (write_scalar_spec 1 addr x (amaps b)) as (m & E & Hm & _); [apply Hb | apply Hw | lia |]. cbn [SIZE]. rewrite E. apply safe_ret. now destruct Hb.
  - intros [r b'] Hb'. apply IH; [exact Hb' | apply word_wadd].
Qed.

Lemma simd_bytes_le sz : (simd_bytes sz <= 16)%nat /\ (simd_pair_bytes sz <= 16)%nat.
Proof. destruct sz; cbn; lia. Qed.

Lemma ldr_sound : sound (ldr_execute ins a).
Proof.
  pose proof (load_sound (if operand_is_64 (op0 ins) then 8 else 4) id word_id) as Hp. unfold ldr_execute. destruct (op0 ins) eqn:E0; try exact Hp. clear Hp.
  eapply safe_bind; [now apply safe_resolve|]. intros [addr wb] [Hw Hwb]. cbn [fst snd] in *. eapply safe_bind; [now apply safe_guard|]. intros b Hb.
  eapply safe_bind; [now apply safe_simd_bytes|]. intros [bs b'] (Hb' & Hbs & Hl). cbn [fst snd] in *.
  eapply safe_bind; [apply safe_put_simd; [exact Hb' | exact H0' | apply (from_bytes_word _ _ Hbs Hl), simd_bytes_le]|]. intros b2 Hb2. safe_steps.
Qed.

Lemma ldur_sound : sound (ldur_execute ins a).
Proof.
  pose proof (load_sound (if operand_is_64 (op0 ins) then 8 else 4) id word_id) as Hp. unfold ldur_execute. destruct (op0 ins) eqn:E0; try exact Hp. clear Hp.
  eapply safe_bind; [now apply safe_resolve|]. intros [addr wb] [Hw Hwb]. cbn [fst snd] in *. eapply safe_bind; [now apply safe_guard|]. intros b Hb.
  eapply safe_bind; [now apply safe_simd_strict|]. intros [o b'] (Hb' & Hbs). cbn [fst snd] in *. destruct o as [bs|]; [|now apply safe_ret].
  destruct (Hbs bs eq_refl) as [Hb1 Hl].
  eapply safe_bind; [apply safe_put_simd; [exact Hb' | exact H0' | apply (from_bytes_word _ _ Hb1 Hl), simd_bytes_le]|]. intros b2 Hb2. safe_steps.
Qed.

Lemma pair_load_sound : sound (let sz := if operand_is_64 (op0 ins) then 8 else 4 in
      '(addr, wb) ← resolve_mem_addr (op2 ins) (aregs a);
      a ← guard_mem addr (sz * 2) false a;
      '(v1, a) ← on_amaps (read_n sz addr) a;
      match v1 with
      | None => Ret (false, a)
      | Some v1 =>
          '(v2, a) ← on_amaps (read_n sz (wadd addr sz)) a;
          match v2 with
          | None => Ret (false, a)
          | Some v2 => a ← wr (op0 ins) v1 a; a ← wr (op1 ins) v2 a; a ← wback wb a; Ret (true, a)
          end
      end).
Proof. safe_steps. Qed.

Lemma ldp_sound : sound (ldp_execute ins a).
Proof.
  pose proof pair_load_sound as Hp. unfold ldp_execute. destruct (op0 ins) eqn:E0; try exact Hp. destruct (op1 ins) eqn:E1; try exact Hp. clear Hp.
  eapply safe_bind; [now apply safe_resolve|]. intros [addr wb] [Hw Hwb]. cbn [fst snd] in *. eapply safe_bind; [now apply safe_guard|]. intros b Hb.
  eapply safe_bind; [now apply safe_simd_bytes|]. intros [b1 b'] (Hb' & Hb1 & Hl1). cbn [fst snd] in *.
  eapply safe_bind; [apply safe_simd_bytes; [exact Hb' | apply word_wadd]|]. intros [b2 b''] (Hb'' & Hb2 & Hl2). cbn [fst snd] in *.
  eapply safe_bind; [apply safe_put_simd; [exact Hb'' | exact H0' | apply (from_bytes_word _ _ Hb1 Hl1), simd_bytes_le]|]. intros c1 Hc1.
  eapply safe_bind; [apply safe_put_simd; [exact Hc1 | exact H1' | apply (from_bytes_word _ _ Hb2 Hl2), simd_bytes_le]|]. intros c2 Hc2. safe_steps.
Qed.

Lemma safe_dword addr b : machine_ok b -> is_word 64 addr -> safe good_read (on_amaps (read_dword addr) b : outcome (option Z * A64 S V R)).
Proof. intros Hb Hw. apply (safe_scalar 4); [assumption.. | lia]. Qed.

Lemma ldpsw_sound : sound (ldpsw_execute ins a).
Proof.
  unfold ldpsw_execute. eapply safe_bind; [now apply safe_resolve|]. intros [addr wb] [Hw Hwb]. cbn [fst snd] in *. eapply safe_bind; [now apply safe_guard|]. intros b Hb.
  eapply safe_bind; [now apply safe_dword|]. intros [v1 b1] [Hb1 _]. cbn [fst snd] in *. eapply safe_bind; [apply safe_dword; [exact Hb1 | apply word_wadd]|].
  intros [v2 b2] [Hb2 _]. cbn [fst snd] in *. destruct v1, v2; safe_steps.
Qed.

Lemma store_sound bytes : sound (store_execute bytes ins a).
Proof. unfold store_execute. safe_steps. Qed.

Lemma store_reg_sound : sound (store_reg_execute ins a).
Proof.
  pose proof (store_sound (if operand_is_64 (op0 ins) then 8 else 4)) as Hp. unfold store_reg_execute. destruct (op0 ins) eqn:E0; try exact Hp. clear Hp.
  eapply safe_bind; [now apply safe_resolve|]. intros [addr wb] [Hw Hwb]. cbn [fst snd] in *. eapply safe_bind; [now apply safe_vector|]. intros v Hv.
  eapply safe_bind; [now apply safe_guard|]. intros b Hb. eapply safe_bind; [now apply safe_store_simd|]. intros b' Hb'. safe_steps.
Qed.

Lemma pair_store_sound : sound (let sz := if operand_is_64 (op0 ins) then 8 else 4 in
      v1 ← rd (op0 ins) a;
      v2 ← rd (op1 ins) a;
      '(addr, wb) ← resolve_mem_addr (op2 ins) (aregs a);
      a ← guard_mem addr (sz * 2) true a;
      '(_, a) ← on_amaps (write_n sz addr v1) a;
      '(_, a) ← on_amaps (write_n sz (wadd addr sz) v2) a;
      a ← wback wb a;
      Ret (true, a)).
Proof. safe_steps. Qed.

Lemma stp_sound : sound (stp_execute ins a).
Proof.
  pose proof pair_store_sound as Hp. unfold stp_execute. destruct (op0 ins) eqn:E0; try exact Hp. destruct (op1 ins) eqn:E1; try exact Hp. clear Hp.
  eapply safe_bind; [now apply safe_resolve|]. intros [addr wb] [Hw Hwb]. cbn [fst snd] in *.
  eapply safe_bind; [now apply safe_vector|]. intros v1 Hv1. eapply safe_bind; [now apply safe_vector|]. intros v2 Hv2.
  eapply safe_bind; [now apply safe_guard|]. intros b Hb. eapply safe_bind; [now apply safe_store_simd|]. intros b1 Hb1.
  eapply safe_bind; [apply safe_store_simd; [exact Hb1 | apply word_wadd]|]. intros b2 Hb2. safe_steps.
Qed.

(** *** Exclusive and atomic accesses *)

Lemma exclusive_load_sound w : sound (exclusive_load ins w a).
Proof. unfold exclusive_load. safe_steps. Qed.

Lemma safe_reservation addr bytes pair b : machine_ok b -> is_word 64 addr -> sound (reservation_holds addr bytes pair b).
Proof.
  intros Hb Hw. unfold reservation_holds. destruct (exclusive b) as [r|]; [|now apply safe_ret]. pose proof (set_exclusive_ok None b Hb) as Hb'. cbv zeta.
  destruct (_ || _); [now apply safe_ret|]. safe_steps.
Qed.

Lemma release_sound w : sound (store_release ins w a).
Proof. unfold store_release. safe_steps. Qed.

Lemma exclusive_store_sound w : sound (exclusive_store ins w a).
Proof.
  unfold exclusive_store. eapply safe_bind; [now apply safe_rd|]. intros v Hv. eapply safe_bind; [now apply safe_resolve|]. intros [addr wb] [Hw Hwb]. cbn [fst snd] in *.
  eapply safe_bind; [now apply safe_reservation|]. intros [ok b] Hb. unfold good in Hb. cbn [snd] in Hb. safe_steps.
Qed.

Lemma load_pair_sound : sound (load_pair ins a).
Proof.
  unfold load_pair. eapply safe_bind; [now apply safe_resolve|]. intros [addr wb] [Hw Hwb]. cbn [fst snd] in *.
  eapply safe_bind; [now apply safe_read_mem|]. intros [v1 b1] [Hb1 Hv1]. cbn [fst snd] in *.
  eapply safe_bind; [apply safe_read_mem; [exact Hb1 | apply word_wadd]|]. intros [v2 b2] [Hb2 Hv2]. cbn [fst snd] in *.
  destruct v1 as [v1|], v2 as [v2|]; try (now apply safe_ret). specialize (Hv1 v1 eq_refl). specialize (Hv2 v2 eq_refl). safe_steps.
Qed.

Lemma store_pair_sound : sound (store_pair ins a).
Proof.
  unfold store_pair. eapply safe_bind; [now apply safe_rd|]. intros v1 Hv1. eapply safe_bind; [now apply safe_rd|]. intros v2 Hv2.
  eapply safe_bind; [now apply safe_resolve|]. intros [addr wb] [Hw Hwb]. cbn [fst snd] in *.
  eapply safe_bind; [now apply safe_reservation|]. intros [ok b] Hb. unfold good in Hb. cbn [snd] in Hb. safe_steps.
Qed.

Lemma rmw_sound w op : sound (rmw ins w op a).
Proof. unfold rmw. safe_steps. Qed.

Lemma cas_sound w : sound (cas ins w a).
Proof.
  unfold cas. eapply safe_bind; [now apply safe_rd|]. intros x Hx. eapply safe_bind; [now apply safe_rd|]. intros new Hnew.
  eapply safe_bind; [now apply safe_resolve|]. intros [addr wb] [Hw Hwb]. cbn [fst snd] in *.
  eapply safe_bind; [now apply safe_read_mem|]. intros [v b] [Hb Hv]. cbn [fst snd] in *. destruct v as [old|]; [|now apply safe_ret]. specialize (Hv old eq_refl).
  eapply safe_bind with (P := good); [destruct (_ =? _); [now apply safe_write_mem | now apply safe_ret]|]. intros [ok b'] Hb'. unfold good in Hb'. cbn [snd] in Hb'. safe_steps.
Qed.

Lemma safe_register sz n (b : A64 S V R) : machine_ok b -> (n <= 31)%nat -> safe (is_word 64) (rd (Register sz n) b : outcome Z).
Proof. intros Hb Hn. now apply safe_rd. Qed.

Lemma casp_sound : sound (casp ins a).
Proof.
  unfold casp. destruct (op0 ins); try (now apply safe_ret). destruct (op1 ins); try (now apply safe_ret). cbn [in_range] in *.
  assert (forall r, ((r + 1) mod 32 <= 31)%nat) as Hsec by (intros r; pose proof (Nat.mod_upper_bound (r + 1) 32 ltac:(lia)); lia).
  eapply safe_bind; [now apply safe_resolve|]. intros [addr wb] [Hw Hwb]. cbn [fst snd] in *.
  eapply safe_bind; [now apply safe_read_mem|]. intros [v1 b1] [Hb1 Hv1]. cbn [fst snd] in *.
  eapply safe_bind; [apply safe_read_mem; [exact Hb1 | apply word_wadd]|]. intros [v2 b2] [Hb2 Hv2]. cbn [fst snd] in *.
  destruct v1 as [v1|], v2 as [v2|]; try (now apply safe_ret). specialize (Hv1 v1 eq_refl). specialize (Hv2 v2 eq_refl).
  eapply safe_bind; [now apply safe_register|]. intros e0 He0. eapply safe_bind with (P := fun _ => True).
  { destruct (_ =? _); [|now apply safe_ret]. eapply safe_mono; [now apply safe_register | easy]. }
  intros e1 _. eapply safe_bind with (P := good).
  - destruct (_ && _); [|now apply safe_ret]. eapply safe_bind; [now apply safe_register|]. intros w0 Hw0. eapply safe_bind; [now apply safe_register|]. intros w1 Hw1. safe_steps.
  - intros [ok b'] Hb'. unfold good in Hb'. cbn [snd] in Hb'. destruct (negb ok); [now apply safe_ret|].
    eapply safe_bind; [apply safe_wr; [exact Hb' | cbn; assumption | exact Hv1]|]. intros c1 Hc1. eapply safe_bind; [apply safe_wr; [exact Hc1 | apply Hsec | exact Hv2]|]. intros c2 Hc2. safe_steps.
Qed.

(** *** Branches and vectors *)

(** The calls out of the engine keep the state well formed. *)
Record env_ok : Prop := {
  ek_kernel addr b : machine_ok b -> is_word 64 addr -> sound (kernel_set_pc addr b);
  ek_library addr name b : machine_ok b -> is_word 64 addr -> sound (enter_library addr name b);
  ek_macos b : machine_ok b -> safe machine_ok (syscall_macos b : outcome (A64 S V R));
  ek_linux b : machine_ok b -> safe machine_ok (syscall_linux b : outcome (A64 S V R));
  ek_float i b : machine_ok b -> sound (float_execute i b);
  ek_pre pc i b : machine_ok b -> sound (pre_instruction_hook pc i b);
  ek_post pc i ok b : machine_ok b -> safe machine_ok (post_instruction_hook pc i ok b : outcome (A64 S V R));
  ek_console b : machine_ok b -> safe machine_ok (spawn_console b : outcome (A64 S V R)) }.
Hypothesis Henv : env_ok.

Lemma safe_set_pc addr b : machine_ok b -> is_word 64 addr -> sound (set_pc_aarch64 addr b).
Proof.
  intros Hb Hw. unfold set_pc_aarch64. destruct (match akernel b with Some _ => _ | None => _ end); [now apply Henv|]. destruct (_ <? _); [safe_steps|].
  eapply safe_bind; [now apply safe_name|]. intros [name b'] Hb'. cbn [snd] in Hb'. destruct name as [name|]; [now apply Henv | safe_steps].
Qed.

Lemma safe_link b : machine_ok b -> safe machine_ok (link b : outcome (A64 S V R)).
Proof.
  intros Hb. pose proof (ro_len _ (mo_regs _ Hb)). unfold link, index_set. rewrite decide_True by lia. apply safe_ret, regs_machine; [exact Hb|].
  destruct (mo_regs _ Hb). split; cbn; rewrite ?length_insert; auto using Forall_insert with a64.
Qed.

Lemma word_target op raw : is_word 64 raw -> is_word 64 (target_of op raw).
Proof. intros Hr. unfold target_of. destruct (is_authenticated op); [now apply word_pac | exact Hr]. Qed.

Lemma b_sound : sound (b_execute ins a).
Proof. unfold b_execute. destruct (op0 ins); safe_steps. Qed.
Lemma bcc_sound c : sound (bcc_execute ins c a).
Proof. unfold bcc_execute. destruct (eval_condition _ _), (op0 ins); safe_steps. Qed.
Lemma cbz_sound z : sound (cbz_execute ins z a).
Proof. unfold cbz_execute. eapply safe_bind; [now apply safe_rd|]. intros v Hv. destruct (if z then _ else _), (op1 ins); safe_steps. Qed.
Lemma tbz_sound z : sound (tbz_execute ins z a).
Proof. unfold tbz_execute. eapply safe_bind; [now apply safe_rd|]. intros v Hv. cbv zeta. destruct (if z then _ else _), (op2 ins); safe_steps. Qed.
Lemma bl_sound : sound (bl_execute ins a).
Proof.
  unfold bl_execute. destruct (op0 ins); try (now apply safe_ret). eapply safe_bind; [now apply safe_link|]. intros b Hb.
  eapply safe_bind; [apply safe_set_pc; [exact Hb | apply word_wadd]|]. intros [ok b'] Hb'. unfold good in Hb'. cbn [snd] in Hb'. safe_steps.
Qed.
Lemma blr_sound : sound (blr_execute ins a).
Proof.
  unfold blr_execute. eapply safe_bind; [now apply safe_rd|]. intros raw Hraw. eapply safe_bind; [now apply safe_link|]. intros b Hb.
  eapply safe_bind; [apply safe_set_pc; [exact Hb | now apply word_target]|]. intros [ok b'] Hb'. unfold good in Hb'. cbn [snd] in Hb'. safe_steps.
Qed.
Lemma br_sound : sound (br_execute ins a).
Proof.
  unfold br_execute. eapply safe_bind; [now apply safe_rd|]. intros raw Hraw.
  eapply safe_bind; [apply safe_set_pc; [exact Ha | now apply word_target]|]. intros [ok b'] Hb'. unfold good in Hb'. cbn [snd] in Hb'. safe_steps.
Qed.
Lemma ret_sound : sound (ret_execute ins a).
Proof.
  unfold ret_execute. eapply safe_bind with (P := is_word 64); [destruct (op0 ins); first [now apply safe_link_reg | now apply safe_rd]|]. intros raw Hraw.
  pose proof (word_target (opcode ins) raw Hraw) as Ht. cbv zeta. pose proof (reload_machine true a Ha) as Hb. eapply safe_bind with (P := good).
  - unfold is_sentinel. destruct (_ <=? _); [|now apply safe_ret]. eapply safe_bind; [now apply safe_name|]. intros [name b'] Hb'. now apply safe_ret.
  - intros [s b] Hb2. unfold good in Hb2. cbn [snd] in Hb2. destruct (negb s); [safe_steps | now apply safe_set_pc].
Qed.
Lemma aut_reg_sound : sound (execute_aut_reg ins a).
Proof. unfold execute_aut_reg. safe_steps. Qed.
Lemma aut_implicit_sound : sound (execute_aut_implicit ins a).
Proof.
  unfold execute_aut_implicit. eapply safe_bind; [now apply safe_link_reg|]. intros lr Hlr. pose proof (ro_len _ (mo_regs _ Ha)). unfold index_set. rewrite decide_True by lia.
  apply safe_ret, regs_machine; [exact Ha|]. destruct (mo_regs _ Ha). split; cbn; rewrite ?length_insert; auto using Forall_insert with a64.
Qed.
Lemma mrs_sound : sound (mrs_execute ins a).
Proof. unfold mrs_execute. safe_steps. Qed.
Lemma svc_sound : sound (svc_execute ins a).
Proof.
  unfold svc_execute. eapply safe_bind with (P := machine_ok); [|intros b Hb; safe_steps].
  destruct (is_macos _); [now apply Henv|]. destruct (is_linux _); [now apply Henv | now apply safe_ret].
Qed.

(** Words of 128 bits *)
Lemma word_up128 x : is_word 64 x -> is_word 128 x.
Proof. unfold is_word. lia. Qed.
Lemma word_land128 x y : is_word 128 x -> is_word 128 (Z.land x y).
Proof. intros Hx. apply word_land; [exact Hx | lia]. Qed.
Lemma word_ushl128 x n : is_word 128 (ushl 128 x n).
Proof. apply word_ushl. lia. Qed.
Lemma word_replicated e bits : is_word 128 e -> is_word 128 (replicated e bits).
Proof. intros He. apply word_or_fold; [lia | exact He | intros i; apply word_ushl128]. Qed.
Lemma word_simd_sub x y bits : is_word 128 (simd_sub x y bits).
Proof. apply word_or_fold; [lia | unfold is_word; lia | intros i; apply word_ushl128]. Qed.

Lemma safe_simd_reg op (b : A64 S V R) : machine_ok b -> in_range op -> safe (is_word 128) (read_simd_reg op b : outcome Z).
Proof. intros Hb Ho. unfold read_simd_reg. destruct op; try (apply safe_ret; unfold is_word; lia); now apply safe_vector. Qed.

(** Write a vector and report success *)
Lemma simd_result n v b : machine_ok b -> (n <= 31)%nat -> is_word 128 v -> sound (b ← put_simd n v b; Ret (true, b)).
Proof. intros Hb Hn Hv. eapply safe_bind; [now apply safe_put_simd|]. intros b' Hb'. now apply safe_ret. Qed.

Lemma sub_simd_sound : sound (sub_execute_simd ins a).
Proof.
  unfold sub_execute_simd. destruct (op0 ins); try (now apply safe_ret); (eapply safe_bind; [now apply safe_simd_reg|]; intros x Hx; eapply safe_bind; [now apply safe_simd_reg|]; intros y Hy);
    apply simd_result; try assumption; apply word_simd_sub.
Qed.

Lemma sub_plain_sound (f : bool) : sound (let is64 := operand_is_64 (op0 ins) in
      x ← rv_of (op1 ins) a;
      y ← rv_of (op2 ins) a;
      let res := wsub x y in
      let a := if f then
                 set_flags (if is64 then update_sub64 x y res else update_sub32 (wrap 32 x) (wrap 32 y) (wrap 32 res)) a
               else a in
      if f && is_xzr (op0 ins) then Ret (true, a)
      else a ← wr (op0 ins) (clip is64 res) a; Ret (true, a)).
Proof. safe_steps. Qed.

Lemma sub_sound f : sound (sub_execute ins f a).
Proof.
  pose proof (sub_plain_sound f) as Hp. pose proof sub_simd_sound as Hs. unfold sub_execute. destruct (op0 ins); first [exact Hp | exact Hs].
Qed.

Lemma movi_sound : sound (exec_movi ins a).
Proof.
  unfold exec_movi. destruct (op0 ins); try (now apply safe_ret); apply simd_result; try assumption;
    (destruct (op1 ins); first [now apply word_up128 | apply word_ushl128 | unfold is_word; lia]).
Qed.

Lemma dup_sound : sound (exec_dup ins a).
Proof.
  unfold exec_dup. destruct (op0 ins); try (now apply safe_ret). destruct (op1 ins); try (now apply safe_ret).
  eapply safe_bind; [now apply safe_get_x|]. intros v Hv. apply simd_result; [assumption..|].
  destruct elem; try apply word_replicated; apply word_up128; auto with a64.
Qed.

Lemma set_x_sound n v : (n <= 31)%nat -> is_word 64 v -> sound (r ← set_x n v (aregs a); Ret (true, set_aregs r a)).
Proof.
  intros Hn Hv. change (set_x n v (aregs a)) with (write_reg (Register SX n) v (aregs a)). rewrite write_reg_ok by (try apply Ha; exact Hn).
  apply safe_ret, regs_machine; [exact Ha|]. apply put_ok; [apply Ha | exact Hv].
Qed.

Lemma word_land_low x : is_word 64 (Z.land x 0xffffffff).
Proof. rewrite land_wrap32. apply word_wrap32. Qed.

Lemma fmov_sound : sound (exec_fmov ins a).
Proof.
  unfold exec_fmov. destruct (op0 ins); try (now apply safe_ret); destruct (op1 ins); try (now apply safe_ret).
  - eapply safe_bind; [now apply safe_vector|]. intros v Hv. apply set_x_sound; [assumption|]. destruct sz0; auto using word_land_low with a64.
  - eapply safe_bind; [now apply safe_get_x|]. intros v Hv. apply simd_result; [assumption..|]. destruct sz; apply word_up128; auto with a64.
  - eapply safe_bind; [now apply safe_vector|]. intros v Hv. now apply simd_result.
  - now apply Henv.
Qed.

Lemma umov_sound : sound (exec_umov ins a).
Proof.
  unfold exec_umov. destruct (op0 ins); try (now apply safe_ret). destruct (op1 ins); try (now apply safe_ret). cbv zeta.
  eapply safe_bind; [now apply safe_vector|]. intros v Hv. eapply safe_bind; [apply safe_wr; [exact Ha | assumption | apply word_wrap64]|]. intros b Hb. safe_steps.
Qed.

Lemma ins_sound : sound (exec_ins ins a).
Proof.
  unfold exec_ins. destruct (op0 ins); try (now apply safe_ret). cbv zeta.
  assert (forall v, sound (old ← index n (rv (aregs a));
      a ← put_simd n (Z.lor (Z.land old (bnot 128 (ushl 128 (lane_mask (elem_bits elem)) (elem_bits elem * lane))))
        (Z.land (ushl 128 v (elem_bits elem * lane)) (ushl 128 (lane_mask (elem_bits elem)) (elem_bits elem * lane)))) a; Ret (true, a))) as Hput.
  { intros v. eapply safe_bind; [now apply safe_vector|]. intros old Hold. apply simd_result; [assumption..|].
    apply word_lor; [now apply word_land128 | apply word_land128, word_ushl128 | lia]. }
  destruct (op1 ins); try (now apply safe_ret); eapply safe_bind; first [now apply safe_get_x | now apply safe_vector | idtac]; intros v _; apply Hput.
Qed.

Lemma not_sound : sound (exec_not ins a).
Proof.
  unfold exec_not. destruct (op0 ins); try (now apply safe_ret). destruct (op1 ins); try (now apply safe_ret).
  eapply safe_bind; [now apply safe_vector|]. intros v Hv. apply simd_result; [assumption..|]. apply word_land128, word_bnot. lia.
Qed.

Lemma simd_sound : sound (simd_execute ins a).
Proof.
  unfold simd_execute. destruct (opcode ins); try (now apply safe_ret);
    first [apply movi_sound | apply fmov_sound | apply dup_sound | apply umov_sound | apply ins_sound | apply not_sound].
Qed.

(** *** Every instruction *)

Lemma emulate_sound : match opcode ins with SDIV | UDIV => divisor_ok | _ => True end -> sound (emulate_instruction ins a).
Proof.
  intros Hdiv. unfold emulate_instruction. destruct (opcode ins); lazymatch goal with
  | |- safe _ (Ret _) => apply safe_ret; first [exact Ha | exact (set_exclusive_ok None a Ha)]
  | |- safe _ (add_execute _ _ _) => apply add_sound
  | |- safe _ (sub_execute _ _ _) => apply sub_sound
  | |- safe _ (adc_execute _ _ _ _) => apply adc_sound
  | |- safe _ (and_execute _ _ _) => apply and_sound
  | |- safe _ (orr_execute _ _) => apply orr_sound
  | |- safe _ (eor_execute _ _) => apply eor_sound
  | |- safe _ (orn_execute _ _) => apply orn_sound
  | |- safe _ (bic_execute _ _) => apply bic_sound
  | |- safe _ (bics_execute _ _) => apply bics_sound
  | |- safe _ (eon_execute _ _) => apply eon_sound
  | |- safe _ (movz_execute _ _) => apply movz_sound
  | |- safe _ (movn_execute _ _) => apply movn_sound
  | |- safe _ (movk_execute _ _) => apply movk_sound
  | |- safe _ (madd_execute _ _) => apply madd_sound
  | |- safe _ (msub_execute _ _) => apply msub_sound
  | |- safe _ (maddl_execute _ _ _ _) => apply maddl_sound
  | |- safe _ (umulh_execute _ _) => apply umulh_sound
  | |- safe _ (smulh_execute _ _) => apply smulh_sound
  | |- safe _ (sdiv_execute _ _) => apply sdiv_sound, Hdiv
  | |- safe _ (udiv_execute _ _) => apply udiv_sound, Hdiv
  | |- safe _ (adr_execute _ _) => apply adr_sound
  | |- safe _ (adrp_execute _ _) => apply adrp_sound
  | |- safe _ (clz_execute _ _) => apply clz_sound
  | |- safe _ (cls_execute _ _) => apply cls_sound
  | |- safe _ (rbit_execute _ _) => apply rbit_sound
  | |- safe _ (rev_execute _ _) => apply rev_sound
  | |- safe _ (rev16_execute _ _) => apply rev16_sound
  | |- safe _ (rev32_execute _ _) => apply rev32_sound
  | |- safe _ (shift_execute _ _ _) => apply shift_sound
  | |- safe _ (ubfm_execute _ _) => apply ubfm_sound
  | |- safe _ (sbfm_execute _ _) => apply sbfm_sound
  | |- safe _ (bfm_execute _ _) => apply bfm_sound
  | |- safe _ (extr_execute _ _) => apply extr_sound
  | |- safe _ (ccmp_execute _ _ _) => apply ccmp_sound
  | |- safe _ (ldr_execute _ _) => apply ldr_sound
  | |- safe _ (ldur_execute _ _) => apply ldur_sound
  | |- safe _ (ldp_execute _ _) => apply ldp_sound
  | |- safe _ (ldpsw_execute _ _) => apply ldpsw_sound
  | |- safe _ (str_execute _ _) => apply store_reg_sound
  | |- safe _ (stur_execute _ _) => apply store_reg_sound
  | |- safe _ (stp_execute _ _) => apply stp_sound
  | |- safe _ (exclusive_load _ _ _) => apply exclusive_load_sound
  | |- safe _ (exclusive_store _ _ _) => apply exclusive_store_sound
  | |- safe _ (load_pair _ _) => apply load_pair_sound
  | |- safe _ (store_pair _ _) => apply store_pair_sound
  | |- safe _ (store_release _ _ _) => apply release_sound
  | |- safe _ (rmw _ _ _ _) => apply rmw_sound
  | |- safe _ (cas _ _ _) => apply cas_sound
  | |- safe _ (casp _ _) => apply casp_sound
  | |- safe _ (b_execute _ _) => apply b_sound
  | |- safe _ (bcc_execute _ _ _) => apply bcc_sound
  | |- safe _ (cbz_execute _ _ _) => apply cbz_sound
  | |- safe _ (tbz_execute _ _ _) => apply tbz_sound
  | |- safe _ (bl_execute _ _) => apply bl_sound
  | |- safe _ (blr_execute _ _) => apply blr_sound
  | |- safe _ (br_execute _ _) => apply br_sound
  | |- safe _ (ret_execute _ _) => apply ret_sound
  | |- safe _ (execute_aut_reg _ _) => apply aut_reg_sound
  | |- safe _ (execute_aut_implicit _ _) => apply aut_implicit_sound
  | |- safe _ (mrs_execute _ _) => apply mrs_sound
  | |- safe _ (svc_execute _ _) => apply svc_sound
  | |- safe _ (simd_execute _ _) => apply simd_sound
  | |- safe _ (float_execute _ _) => apply (ek_float Henv), Ha
  | |- safe _ (strb_execute _ _) => apply store_sound
  | |- safe _ (strh_execute _ _) => apply store_sound
  | |- safe _ (sturb_execute _ _) => apply store_sound
  | |- safe _ (sturh_execute _ _) => apply store_sound
  | |- safe _ (ldrb_execute _ _) => apply load_sound, word_id
  | |- safe _ (ldrh_execute _ _) => apply load_sound, word_id
  | |- safe _ (ldurb_execute _ _) => apply load_sound, word_id
  | |- safe _ (ldurh_execute _ _) => apply load_sound, word_id
  | |- safe _ (ldrsb_execute _ _) => apply load_sound; intros; apply word_sext
  | |- safe _ (ldrsh_execute _ _) => apply load_sound; intros; apply word_sext
  | |- safe _ (ldrsw_execute _ _) => apply load_sound; intros; apply word_sext
  | |- safe _ (ldursb_execute _ _) => apply load_sound; intros; apply word_sext
  | |- safe _ (ldursh_execute _ _) => apply load_sound; intros; apply word_sext
  | |- safe _ (ldursw_execute _ _) => apply load_sound; intros; apply word_sext
  | |- safe _ (csel_execute _ _) => apply select_sound, word_id
  | |- safe _ (csinc_execute _ _) => apply select_sound; intros; apply word_wadd
  | |- safe _ (csinv_execute _ _) => apply select_sound; intros; apply word_bnot64
  | |- safe _ (csneg_execute _ _) => apply select_sound; intros; apply word_wrap64
  | |- safe _ (msr_execute _ _) => apply safe_ret; exact Ha
  end.
Qed.
End Handlers.

(** ** The typed machine *)

(** What the decoder produces: operands in range, and W divisors for W divisions *)
Definition decoded_ok (ins : Ins) : Prop :=
  in_range (op0 ins) /\ in_range (op1 ins) /\ in_range (op2 ins) /\ in_range (op3 ins)
  /\ match opcode ins with SDIV | UDIV => divisor_ok ins | _ => True end.

Section Typed.
Context {S V R : Type} `{SlabLaws S} `{A64Env S V R}.
Implicit Types (a : A64 S V R).

(** A decoder that produces only such instructions *)
Definition decoder_ok : Prop := forall block ins, decode block = Some ins -> decoded_ok ins.

Lemma safe_emulate ins a : env_ok (S := S) (V := V) (R := R) -> machine_ok a -> decoded_ok ins -> safe good (emulate_instruction ins a).
Proof. intros Henv Ha (R0 & R1 & R2 & R3 & Hd). now apply emulate_sound. Qed.

Lemma advance_machine sz a : machine_ok a -> machine_ok (advance_pc_aarch64 sz a).
Proof.
  intros Ha. unfold advance_pc_aarch64. destruct (force_reload a); [now apply reload_machine | apply jump_machine; [exact Ha | apply word_wadd]].
Qed.

(** Fetching changes only the cache of the address space. *)
Lemma safe_fetch pc a : machine_ok a -> safe (fun r => machine_ok r.2) (on_amaps (get_mem_by_addr pc) a).
Proof.
  intros Ha. unfold on_amaps. destruct (get_mem_by_addr_find (amaps a) (mo_maps _ Ha) pc) as (t & Ht & ->). apply safe_ret.
  destruct Ha. split; [assumption | now apply set_tlb_wf].
Qed.

Lemma safe_step a : env_ok (S := S) (V := V) (R := R) -> decoder_ok -> machine_ok a -> safe (fun r => machine_ok r.2) (decode_and_execute_aarch64 a).
Proof.
  intros Henv Hdec Ha. unfold decode_and_execute_aarch64. cbv zeta.
  eapply safe_bind; [now apply safe_fetch|]. intros [r b] Hb. cbn [snd] in Hb. destruct r as [[key code]|].
  - destruct (_ <? _)%nat; [now apply safe_ret|]. destruct (decode _) as [ins|] eqn:Ed; [|now apply safe_ret].
    eapply safe_bind; [now apply Henv|]. intros [go c] Hc. unfold good in Hc. cbn [snd] in Hc. destruct (negb go); [now apply safe_ret|].
    eapply safe_bind; [apply safe_emulate; [exact Henv | exact Hc | now apply (Hdec _ _ Ed)]|]. intros [ok d] Hd. unfold good in Hd. cbn [snd] in Hd.
    eapply safe_bind; [now apply Henv|]. intros e He. now apply safe_ret.
  - eapply safe_bind; [now apply Henv|]. intros c Hc. now apply safe_ret.
Qed.

(** C12. The AArch64 machine is type sound. When the decoder produces register
    numbers of five bits, immediates of 64 and W divisors for W divisions, and the
    calls out of the engine keep the state well formed, then from every well-formed
    state the step decode_and_execute_aarch64 returns (no index is out of range, no
    division by zero, no other panic), and the state after it and after the move of
    the program counter is well formed again: 31 general registers and a stack
    pointer of 64 bits, 32 vector registers of 128, a consistent address space. *)
Theorem a64_machine_typed a :
  env_ok (S := S) (V := V) (R := R) -> decoder_ok -> machine_ok a ->
  exists sz ok a', decode_and_execute_aarch64 a = Ret (sz, ok, a') /\ machine_ok a' /\ machine_ok (advance_pc_aarch64 sz a').
Proof.
  intros Henv Hdec Ha. destruct (safe_step a Henv Hdec Ha) as ([[sz ok] a'] & E & Ha'). exists sz, ok, a'. auto using advance_machine.
Qed.
End Typed.
