(* ===== verification/A64Names.v ===== *)
(** * AArch64 registers by name ([RegsAarch64::get_by_name], [set_by_name])

    The console, the scripts and the bindings name registers by strings.  Names
    are bytes; only the letters of ASCII matter to the lower case, since no other
    letter has a lower case that occurs in a name. *)

From stdpp Require Import gmap strings.
From Stdlib Require Import Ascii String.
From S2P Require Import Prelude Scalar Mem64 Slab Tlb Maps Threads WinThreads KernelGuard A64 A64Ops A64Spec.
Open Scope Z_scope.

(** [str::to_lowercase] *)
Definition lower_ascii (c : ascii) : ascii :=
  let n := nat_of_ascii c in if (65 <=? n)%nat && (n <=? 90)%nat then ascii_of_nat (n + 32) else c.
Fixpoint to_lowercase (s : string) : string :=
  match s with EmptyString => EmptyString | String c s => String (lower_ascii c) (to_lowercase s) end.

(** [n.parse::<usize>()] of what follows the letter, when it is below 31 *)
Definition numbered (letter lower : string) : option nat :=
  match strip_prefix letter lower with
  | None => None
  | Some n =>
      match from_str_radix 10 n with
      | Some i => if i <? 31 then Some (Z.to_nat i) else None
      | None => None
      end
  end.

(** [RegsAarch64::get_by_name] *)
Definition get_by_name (name : string) (r : RegsAarch64) : outcome (option Z) :=
  let lower := to_lowercase name in
  if String.eqb lower "sp" then Ret (Some (rsp r))
  else if String.eqb lower "pc" then Ret (Some (rpc r))
  else if String.eqb lower "nzcv" then Ret (Some (as_u64 (nzcv r)))
  else if String.eqb lower "tpidr_el0" then Ret (Some (tpidr_el0 r))
  else if String.eqb lower "lr" then v ← index 30 (rx r); Ret (Some v)
  else if String.eqb lower "fp" then v ← index 29 (rx r); Ret (Some v)
  else
    match numbered "x" lower with
    | Some i => v ← index i (rx r); Ret (Some v)
    | None =>
        match numbered "w" lower with
        | Some i => v ← index i (rx r); Ret (Some (Z.land v 0xffffffff))
        | None => Ret None
        end
    end.

(** [RegsAarch64::set_by_name] *)
Definition set_by_name (name : string) (val : Z) (r : RegsAarch64) : outcome (bool * RegsAarch64) :=
  let lower := to_lowercase name in
  let put_x i v := x ← index_set i v (rx r); Ret (true, set_rx x r) in
  if String.eqb lower "sp" then Ret (true, set_rsp val r)
  else if String.eqb lower "pc" then Ret (true, set_rpc val r)
  else if String.eqb lower "lr" then put_x 30%nat val
  else if String.eqb lower "fp" then put_x 29%nat val
  else
    match numbered "x" lower with
    | Some i => put_x i val
    | None =>
        match numbered "w" lower with
        | Some i => put_x i (Z.land val 0xffffffff)
        | None => Ret (false, r)
        end
    end.

(** ** What a name denotes *)

Inductive place := PSp | PPc | PFlags | PThread | PReg (sz : SizeCode) (n : nat).

(** The names, in the order in which they are tried *)
Definition place_of (name : string) : option place :=
  let lower := to_lowercase name in
  if String.eqb lower "sp" then Some PSp
  else if String.eqb lower "pc" then Some PPc
  else if String.eqb lower "nzcv" then Some PFlags
  else if String.eqb lower "tpidr_el0" then Some PThread
  else if String.eqb lower "lr" then Some (PReg SX 30)
  else if String.eqb lower "fp" then Some (PReg SX 29)
  else match numbered "x" lower with
       | Some i => Some (PReg SX i)
       | None => PReg SW <$> numbered "w" lower
       end.

Definition contents (p : place) (r : RegsAarch64) : Z :=
  match p with
  | PSp => rsp r
  | PPc => rpc r
  | PFlags => as_u64 (nzcv r)
  | PThread => tpidr_el0 r
  | PReg sz n => low_half sz (xreg n r)
  end.

(** What a write through a name leaves; flags and the thread pointer cannot be written. *)
Definition written (p : place) (val : Z) (r : RegsAarch64) : option RegsAarch64 :=
  match p with
  | PSp => Some (set_rsp val r)
  | PPc => Some (set_rpc val r)
  | PReg sz n => Some (put (Register sz n) val r)
  | _ => None
  end.

(** Unsigned parsing never yields a negative number. *)
Lemma digits_nonneg radix acc s v : 0 <= radix -> 0 <= acc -> digits_value radix acc s = Some v -> 0 <= v.
Proof.
  intros Hr. revert acc. induction s as [|c s IH]; intros acc Ha E; [now injection E as <-|]. cbn [digits_value] in E.
  unfold to_digit in E. destruct (_ <? radix) eqn:Hd in E; [|discriminate]. destruct (_ <? 2 ^ 64); [|discriminate]. apply IH in E; [exact E|].
  apply Z.add_nonneg_nonneg; [nia|]. destruct (_ && _) eqn:E1; [lia|]. destruct (_ && _) eqn:E2 in |- *; [lia|]. destruct (_ && _) eqn:E3 in |- *; lia.
Qed.

Lemma numbered_small letter lower i : numbered letter lower = Some i -> (i < 31)%nat.
Proof.
  unfold numbered. destruct (strip_prefix letter lower) as [n|]; [|discriminate]. destruct (from_str_radix 10 n) as [v|] eqn:E; [|discriminate].
  destruct (Z.ltb_spec v 31); [|discriminate]. intros [= <-].
  assert (0 <= v); [|lia]. unfold from_str_radix in E. destruct n as [|c [|c' n]]; [discriminate | |]; [|destruct (Ascii.eqb _ _)];
    eapply digits_nonneg in E; lia.
Qed.

Lemma place_small name sz n : place_of name = Some (PReg sz n) -> (n < 31)%nat.
Proof.
  unfold place_of. repeat (destruct (String.eqb _ _); [intros [= <- <-]; lia || discriminate|]).
  destruct (numbered "x" _) eqn:E; [intros [= <- <-]; now apply numbered_small in E|]. destruct (numbered "w" _) eqn:E'; [|discriminate].
  intros [= <- <-]. now apply numbered_small in E'.
Qed.

Lemma index_x n r : regs_ok r -> (n < 31)%nat -> index n (rx r) = Ret (xreg n r).
Proof.
  intros Hr Hn. pose proof (ro_len _ Hr). unfold index, xreg. destruct (lookup_lt_is_Some_2 (rx r) n) as [v ->]; [lia | reflexivity].
Qed.

Lemma set_index_x sz n v r : regs_ok r -> (n < 31)%nat -> (x ← index_set n (low_half sz v) (rx r); Ret (true, set_rx x r)) = Ret (true, put (Register sz n) v r).
Proof. intros Hr Hn. pose proof (ro_len _ Hr). unfold index_set. now rewrite decide_True by lia. Qed.

Lemma get_by_name_place name r : regs_ok r -> get_by_name name r = Ret ((fun p => contents p r) <$> place_of name).
Proof.
  intros Hr. pose proof (place_small name) as Hs. unfold get_by_name, place_of in *.
  repeat (destruct (String.eqb _ _); [rewrite ?index_x by (assumption || lia); reflexivity|]).
  destruct (numbered "x" _) as [i|]; [rewrite index_x; [reflexivity | exact Hr | now apply (Hs SX)]|].
  destruct (numbered "w" _) as [i|]; [rewrite index_x; [reflexivity | exact Hr | now apply (Hs SW)] | reflexivity].
Qed.

Lemma set_by_name_place name v r : regs_ok r ->
  set_by_name name v r = Ret (match place_of name ≫= (fun p => written p v r) with Some r' => (true, r') | None => (false, r) end).
Proof.
  intros Hr. pose proof (place_small name) as Hs. unfold set_by_name, place_of in *. revert Hs. generalize (to_lowercase name) as low. intros low Hs.
  destruct (String.eqb low "sp"); [reflexivity|]. destruct (String.eqb low "pc"); [reflexivity|].
  destruct (String.eqb low "nzcv") eqn:En; [apply String.eqb_eq in En; now subst low|].
  destruct (String.eqb low "tpidr_el0") eqn:Et; [apply String.eqb_eq in Et; now subst low|].
  destruct (String.eqb low "lr"); [apply (set_index_x SX); [exact Hr | lia]|]. destruct (String.eqb low "fp"); [apply (set_index_x SX); [exact Hr | lia]|].
  destruct (numbered "x" low) as [i|]; [apply (set_index_x SX); [exact Hr | now apply (Hs SX)]|].
  destruct (numbered "w" low) as [i|]; [apply (set_index_x SW); [exact Hr | now apply (Hs SW)] | reflexivity].
Qed.

Lemma written_contents p v r r' : regs_ok r -> is_word 64 v -> (forall sz n, p = PReg sz n -> (n < 31)%nat) -> written p v r = Some r' ->
  regs_ok r' /\ contents p r' = match p with PReg SW _ => wrap 32 v | _ => v end.
Proof.
  intros Hr Hv Hn. destruct p as [| | | |sz n]; intros [= <-]; try (split; [destruct Hr; now split | reflexivity]).
  split; [exact (put_ok (Register sz n) v r Hr Hv)|]. specialize (Hn sz n eq_refl). cbn [contents]. unfold xreg. cbn [put rx set_rx].
  pose proof (ro_len _ Hr). rewrite list_lookup_insert_eq by lia. cbn [default from_option id]. destruct sz; [reflexivity|].
  change (Z.land (Z.land v 0xffffffff) 0xffffffff = wrap 32 v). rewrite !land_wrap32. apply wrap_small, wrap_word. lia.
Qed.

(** A name reads and writes the register it denotes, in any case of letters: what
    set_by_name wrote get_by_name reads, W names clear the upper half, and a name
    that denotes nothing writable changes nothing. *)
Theorem a64_register_names name v r :
  regs_ok r -> is_word 64 v ->
  get_by_name name r = Ret ((fun p => contents p r) <$> place_of name) /\
  set_by_name name v r = Ret (match place_of name ≫= (fun p => written p v r) with Some r' => (true, r') | None => (false, r) end) /\
  forall r', set_by_name name v r = Ret (true, r') ->
    regs_ok r' /\ exists p, place_of name = Some p /\ get_by_name name r' = Ret (Some (match p with PReg SW _ => wrap 32 v | _ => v end)).
Proof.
  intros Hr Hv. split; [now apply get_by_name_place|]. rewrite set_by_name_place by exact Hr. split; [reflexivity|]. intros r' E.
  destruct (place_of name) as [p|] eqn:Ep; [|discriminate]. cbn [mbind option_bind] in E. destruct (written p v r) as [r2|] eqn:Ew; [|discriminate].
  injection E as <-. destruct (written_contents p v r r2 Hr Hv) as [Hr2 Ec]; [intros sz n ->; now apply (place_small name sz) | exact Ew |].
  split; [exact Hr2|]. exists p. split; [reflexivity|]. rewrite get_by_name_place, Ep by exact Hr2. cbn. now rewrite Ec.
Qed.

(** ** Names that surprise *)

(** The flags and the thread pointer can be read by name and not written; a plus sign may precede the
    number; XZR and the vector registers have no name. *)
Lemma odd_names :
  get_by_name "NZCV" regs_new = Ret (Some 0) /\ set_by_name "NZCV" 0xf0000000 regs_new = Ret (false, regs_new) /\
  place_of "x+5" = Some (PReg SX 5) /\ place_of "X005" = Some (PReg SX 5) /\ place_of "xzr" = None /\ place_of "x31" = None /\ place_of "v0" = None.
Proof. vm_compute. auto 10. Qed.
