(* ===== verification/A64Samples.v ===== *)
(** * Sample AArch64 machines

    A machine over the sample address space of MapsRun.v, on which the theorems
    about the AArch64 engine are applied, and runs that show where the engine
    departs from the architecture. *)

From stdpp Require Import gmap strings.
From S2P Require Import Prelude Scalar Mem64 Slab Tlb Maps MapsInv MapsLife MapsRun OperandsSpec Threads KernelGuard KernelSpec MacThreads A64 A64Ops A64Spec A64Bits A64Mem A64Total A64Names.

Notation machine := (A64 (gmap nat Mem64) unit unit).

(** Calls out of the engine that do nothing; every four bytes decode to an addition *)
#[local] Instance quiet : A64Env (gmap nat Mem64) unit unit := {
  kernel_set_pc addr a := Ret (true, a);
  enter_library addr name a := Ret (true, a);
  is_macos _ := false;
  is_linux _ := true;
  syscall_macos a := Ret a;
  syscall_linux a := Ret a;
  float_execute ins a := Ret (true, a);
  decode block := if (length block =? 4)%nat then Some (mkIns ADD (Register SX 0) (Register SX 1) (Register SX 2) Nothing) else None;
  pre_instruction_hook pc ins a := Ret (true, a);
  post_instruction_hook pc ins ok a := Ret a;
  spawn_console a := Ret a }.

(** X1 and the others hold numbers, X9 the address 0x1008, X10 one that is not mapped; SP is 0x1018. *)
Definition sample_regs : RegsAarch64 :=
  mkRegsA ([0; 5; 7; 0xffffffffffffffff; 0x80000000; 0x1122334455667788; 0; 0; 0; 0x1008; 0x9000] ++ replicate 20 0) 0x1018 0x1020 nzcv_new 0 0 0 (replicate 32 0).

Definition arm : machine := mkA64 sample_regs None sample None false 0 false tt.

Lemma sample_regs_ok : regs_ok sample_regs.
Proof. split; try reflexivity; try (unfold is_word; cbn; lia); apply Forall_forall; intros x Hx; apply (bool_decide_unpack (is_word _ _)); revert x Hx; apply Forall_forall; repeat constructor. Qed.

Lemma arm_ok : machine_ok arm.
Proof. split; [exact sample_regs_ok | exact sample_wf]. Qed.

Lemma quiet_ok : env_ok (S := gmap nat Mem64) (V := unit) (R := unit).
Proof. split; intros; now apply safe_ret. Qed.

Lemma quiet_decoder : decoder_ok (S := gmap nat Mem64) (V := unit) (R := unit).
Proof. intros block ins. cbn. destruct (_ =? _)%nat; [|discriminate]. intros [= <-]. unfold decoded_ok. cbn. lia. Qed.

(** ** The theorems on the sample machine *)

(** adds x0, x3, x1: the sum wraps and sets the carry *)
Definition adds_ins : Ins := mkIns ADDS (Register SX 0) (Register SX 3) (Register SX 1) Nothing.
Lemma a64_alu_refines_witness :
  emulate_instruction adds_ins arm = Ret (true, with_reg (Register SX 0) 4 (set_opt_flags (Some (mkNZCV false false true false)) arm)).
Proof.
  apply (a64_alu_refines adds_ins arm 4 (Some (mkNZCV false false true false)));
    [exact sample_regs_ok | cbn; lia | split; cbn; lia | vm_compute; reflexivity].
Defined.

(** cmp x1, x2; b.lt: five is less than seven *)
Lemma a64_cmp_branch_witness :
  exists a1 a2, execute_and_advance (cmp_ins SX (Register SX 1) (Register SX 2)) arm = Ret (true, a1) /\
    execute_and_advance (b_cond 11 0x40) a1 = Ret (true, a2) /\ rpc (aregs a2) = 0x1064.
Proof.
  destruct (a64_cmp_branch SX (Register SX 1) (Register SX 2) 11 0x40 arm sample_regs_ok ltac:(cbn; lia) ltac:(cbn; lia) eq_refl) as (a1 & E1 & E2).
  eexists a1, _. split; [exact E1|]. split; [exact E2|]. vm_compute. reflexivity.
Defined.

(** ubfx x0, x5, #8, #16 takes bits 8 to 23. *)
Lemma a64_bitfield_moves_witness :
  writes SX 0 (field_bit UBFM 64 0x1122334455667788 0 8 23) arm (emulate_instruction (bitfield_ins UBFM SX 0 5 8 23) arm).
Proof.
  apply (a64_bitfield_moves UBFM SX 0 5 8 23 arm sample_regs_ok); [lia | lia | cbn; lia | reflexivity | reflexivity].
Defined.

Lemma a64_load_constant_witness :
  run_all [movz_ins 0 0xdef0 0; movk_ins 0 0x9abc 16; movk_ins 0 0x5678 32; movk_ins 0 0x1234 48] arm
  = Ret (true, with_reg (Register SX 0) 0x123456789abcdef0 arm).
Proof. apply (a64_load_constant 0 0x123456789abcdef0 arm sample_regs_ok); [lia | unfold is_word; lia]. Defined.

Lemma a64_variable_shifts_witness :
  emulate_instruction (mkIns LSLV (Register SX 0) (Register SX 1) (Register SX 2) Nothing) arm = Ret (true, with_reg (Register SX 0) 640 arm).
Proof. apply (a64_variable_shifts Lsl SX 0 1 2 arm sample_regs_ok); lia. Defined.

(** stp x1, x5, [sp, #-16]!; ldp x6, x7, [sp], #16 *)
Lemma a64_pair_roundtrip_witness :
  exists a1 a2, emulate_instruction (push_pair SX 1 5) arm = Ret (true, a1) /\ rsp (aregs a1) = 0x1008 /\
    emulate_instruction (pop_pair SX 6 7) a1 = Ret (true, a2) /\
    aregs a2 = put (Register SX 7) 0x1122334455667788 (put (Register SX 6) 5 sample_regs).
Proof.
  destruct (a64_pair_roundtrip SX 1 5 6 7 arm arm_ok ltac:(lia) ltac:(lia) ltac:(lia) ltac:(lia) ltac:(cbn; lia)
    ltac:(repeat constructor; vm_compute; reflexivity)) as (a1 & a2 & E1 & Er & _ & E2 & Er2).
  exists a1, a2. split; [exact E1|]. split; [now rewrite Er|]. split; [exact E2 | exact Er2].
Defined.

(** ldxr x0, [x9] and stxr w6, x5, [x9] with nothing in between *)
Lemma a64_exclusive_monitor_witness :
  exists a1 a3, emulate_instruction (ldxr_ins SX 0 9) arm = Ret (true, a1) /\ aregs a1 = put (Register SX 0) 0 sample_regs /\
    emulate_instruction (stxr_ins SX 6 5 9) a1 = Ret (true, a3) /\ exclusive a3 = None.
Proof.
  destruct (a64_exclusive_monitor (ldxr_ins SX 0 9) (stxr_ins SX 6 5 9) None arm 0 arm_ok eq_refl eq_refl) as (a1 & E1 & Er & Hm & Hst);
    try reflexivity; try (cbn; lia); try (do 2 eexists; split; [reflexivity | lia]).
  destruct (safe_emulate (ldxr_ins SX 0 9) arm quiet_ok arm_ok ltac:(unfold decoded_ok; cbn; lia)) as ([ok b] & Eb & Hb).
  rewrite E1 in Eb. injection Eb as <- <-. destruct (Hst a1 Hb eq_refl) as (a3 & E3 & Ex & _).
  - now rewrite Er.
  - rewrite (reachable_proper _ _ _ _ _ Hm). vm_compute. reflexivity.
  - exists a1, a3. auto.
Defined.

(** ldxr x0, [x9]; add x6, x0, x1; stxr w7, x6, [x9] against ldadd x1, x0, [x9] *)
Lemma a64_ll_sc_is_atomic_witness :
  exists a1 a2, run_all [ldxr_ins SX 0 9; add_ins SX 6 0 1; stxr_ins SX 7 6 9] arm = Ret (true, a1) /\ xreg 7 (aregs a1) = 0 /\
    emulate_instruction (ldadd_ins SX 1 0 9) arm = Ret (true, a2) /\
    (forall x, byte_of (amaps a1) x = byte_of (amaps a2) x) /\ xreg 0 (aregs a1) = xreg 0 (aregs a2).
Proof.
  apply (a64_ll_sc_is_atomic SX 0 6 7 9 1 arm arm_ok); try lia; vm_compute; reflexivity.
Defined.

(** ldrsb w0, [x9], #1 *)
Definition ldrsb_ins : Ins := mkIns LDRSB (Register SW 0) (RegPostIndex 9 1) Nothing Nothing.
Lemma a64_load_correct_witness :
  exists a', maps_equiv (amaps a') sample /\ emulate_instruction ldrsb_ins arm = Ret (true, a').
Proof.
  destruct (a64_load_correct ldrsb_ins arm 1 (fun v => wrap 32 (sgn 8 v)) arm_ok ltac:(now exists SW, 0%nat; split; [|lia]) ltac:(cbn; lia) eq_refl) as (a' & Hm & E).
  exists a'. split; [exact Hm|]. assert (reachable Mem.can_read (Z.to_nat 1) (effective (op1 ldrsb_ins) (aregs arm)) (amaps arm) = true) as Hr by (vm_compute; reflexivity).
  rewrite Hr in E. destruct E as (v & _ & _ & E & _). exact E.
Defined.

(** str x5, [x9, #8]! *)
Definition str_ins : Ins := mkIns STR (Register SX 5) (RegPreIndex 9 8 true) Nothing Nothing.
Lemma a64_store_correct_witness :
  exists a', emulate_instruction str_ins arm = Ret (true, a') /\ stores sample (amaps a') 0x1010 [0x88; 0x77; 0x66; 0x55; 0x44; 0x33; 0x22; 0x11].
Proof.
  destruct (a64_store_correct str_ins arm 8 arm_ok ltac:(now exists SX, 5%nat; split; [|lia]) ltac:(cbn; lia) eq_refl) as (a' & E & _ & Hs).
  exists a'. split; [exact E|]. assert (reachable Mem.can_write (Z.to_nat 8) (effective (op1 str_ins) (aregs arm)) (amaps arm) = true) as Hr by (vm_compute; reflexivity).
  rewrite Hr in Hs. exact Hs.
Defined.

Lemma a64_atomic_correct_witness :
  exists a', emulate_instruction (ldadd_ins SX 1 0 9) arm = Ret (true, a') /\ aregs a' = put (Register SX 0) 0 sample_regs /\
    stores sample (amaps a') 0x1008 [5; 0; 0; 0; 0; 0; 0; 0].
Proof.
  apply (a64_atomic_correct (ldadd_ins SX 1 0 9) arm None RAdd 0 arm_ok eq_refl); try reflexivity; try (cbn; lia); do 2 eexists; (split; [reflexivity | lia]).
Defined.

(** The four bytes at 0x1020 are in the region text; beyond 0x102c there are fewer. *)
Lemma a64_machine_typed_witness :
  exists sz ok a', decode_and_execute_aarch64 arm = Ret (sz, ok, a') /\ machine_ok (advance_pc_aarch64 sz a').
Proof.
  destruct (a64_machine_typed arm quiet_ok quiet_decoder arm_ok) as (sz & ok & a' & E & _ & Ha'). eauto.
Defined.

(** ** Where the engine departs from the architecture *)

(** The register or vector that an instruction leaves, and whether it succeeds *)
Definition outcome_of {T} (f : machine -> T) (ins : Ins) : option (bool * T) :=
  match emulate_instruction ins arm with Ret (ok, a) => Some (ok, f a) | Panic => None end.
Definition x_after (n : nat) := outcome_of (fun a => xreg n (aregs a)).
Definition v_after (n : nat) := outcome_of (fun a => default 0 (rv (aregs a) !! n)).

(** A field of all 64 bits is lost: lsr x0, x5, #0 clears X0, and asr does so too. *)
Lemma whole_field_lost :
  x_after 0 (bitfield_ins UBFM SX 0 5 0 63) = Some (true, 0) /\ x_after 0 (bitfield_ins UBFM SX 0 5 0 62) = Some (true, 0x1122334455667788) /\
  x_after 0 (bitfield_ins BFM SX 0 5 0 63) = Some (true, 0x1122334455667788).
Proof. vm_compute. auto. Qed.

(** A store where nothing is mapped reports success and moves the base; a load there fails. *)
Lemma lost_store :
  x_after 10 (mkIns STR (Register SX 5) (RegPostIndex 10 8) Nothing Nothing) = Some (true, 0x9008) /\
  x_after 10 (mkIns LDR (Register SX 5) (RegPostIndex 10 8) Nothing Nothing) = Some (false, 0x9000) /\
  x_after 6 (stxr_ins SX 6 5 10) = Some (true, 1).
Proof. vm_compute. auto. Qed.

(** A vector load by LDR where nothing is mapped reads zeros and succeeds; LDUR fails. *)
Lemma vector_load_of_nothing :
  v_after 0 (mkIns LDR (SIMDRegister SimdQ 0) (RegPreIndex 10 0 false) Nothing Nothing) = Some (true, 0) /\
  v_after 0 (mkIns LDUR (SIMDRegister SimdQ 0) (RegPreIndex 10 0 false) Nothing Nothing) = Some (false, 0).
Proof. vm_compute. auto. Qed.

(** Vectors with a one in each byte *)
Definition ones_vector : Z := 0x01010101010101010101010101010101.
Definition byte_vector (n : nat) : Operand := SIMDRegisterElements SimdQ n SimdB.
Definition arm_ones : machine := set_aregs (set_rv (replicate 32 ones_vector) (aregs arm)) arm.
Definition vector_of (n : nat) (o : outcome (bool * machine)) : option (bool * Z) :=
  match o with Ret (ok, a) => Some (ok, default 0 (rv (aregs a) !! n)) | Panic => None end.

(** add v0.16b, v1.16b, v2.16b and and v0.16b, … report success and change nothing; sub subtracts. *)
Lemma vector_add_ignored :
  vector_of 0 (emulate_instruction (mkIns ADD (byte_vector 0) (byte_vector 1) (byte_vector 2) Nothing) arm_ones) = Some (true, ones_vector) /\
  vector_of 0 (emulate_instruction (mkIns EOR (byte_vector 0) (byte_vector 1) (byte_vector 2) Nothing) arm_ones) = Some (true, ones_vector) /\
  vector_of 0 (emulate_instruction (mkIns SUB (byte_vector 0) (byte_vector 1) (byte_vector 2) Nothing) arm_ones) = Some (true, 0).
Proof. vm_compute. auto. Qed.

(** movi v0.16b, #1 sets the lowest byte only. *)
Lemma movi_one_lane : v_after 0 (mkIns MOVI (byte_vector 0) (Immediate 1) Nothing Nothing) = Some (true, 1).
Proof. vm_compute. auto. Qed.

(** dup v0.8b, w1 fills all 16 bytes, and not v0.8b clears the upper half. *)
Lemma dup_upper_half :
  v_after 0 (mkIns DUP (SIMDRegisterElements SimdD 0 SimdB) (Register SW 1) Nothing Nothing) = Some (true, 0x05050505050505050505050505050505) /\
  v_after 0 (mkIns NOT (SIMDRegisterElements SimdD 0 SimdB) (SIMDRegisterElements SimdD 1 SimdB) Nothing Nothing) = Some (true, 0xffffffffffffffff).
Proof. vm_compute. auto. Qed.

(** Writing W9 clears the upper half of X9. *)
Lemma a64_register_names_witness :
  exists r', set_by_name "W9" 0x1122334455667788 sample_regs = Ret (true, r') /\ get_by_name "x9" r' = Ret (Some 0x55667788).
Proof.
  destruct (a64_register_names "W9" 0x1122334455667788 sample_regs sample_regs_ok ltac:(unfold is_word; lia)) as (_ & E & _).
  eexists. split; [exact E|]. vm_compute. reflexivity.
Defined.
